(* ===== verification/_CoqProject ===== *)
-Q . S2P
Prelude.v
Str.v
SeekSequence.v
TextFile.v
PatchParser.v
PatchInvariant.v
FileUpdate.v
PatchRoundtrip.v
FileSystem.v
ApplyPatch.v
Invocation.v
ExecPolicy.v
StreamText.v
TaggedLine.v
InlineTag.v
Utf8Stream.v
HeadTailBuffer.v
Truncate.v
Template.v
HistoryNormalize.v
IpAddr.v
NetworkDomain.v
NetworkPolicy.v
NetworkState.v
ShellSyntax.v
CommandSafety.v
ApprovalTypes.v
PolicyAmend.v
ExecApproval.v
UriPath.v
NativePath.v
Permissions.v
AccessRules.v
PermissionProfile.v
PolicyTransforms.v
Orchestrator.v
TurnDiff.v
PatchTool.v
PatchProgress.v
ShellEnv.v
Hooks.v
HookOutput.v
HookEvents.v
HookControl.v
HookStop.v
HookDiscovery.v
HookTrust.v
NetworkApproval.v
ApprovalSystem.v
ApprovalSafety.v
ApprovalGuarantees.v
WorldState.v
RolloutReplay.v
RolloutTurns.v
AgentPath.v
AgentRegistry.v
AgentAccounts.v
AgentShutdown.v
AgentControl.v
TomlTable.v
ConfigMerge.v
ConfigSeen.v
ConfigStack.v
ConfigOrder.v
ConfigEffective.v
ConfigOrigins.v
Constrained.v
RequirementLayers.v
ManagedPolicy.v
TurnQueue.v
TurnSteps.v
TurnAccounts.v
TurnAdmission.v
PasteBurst.v
PasteKept.v
ThreadItems.v
ThreadHistory.v
HistoryClient.v
HistoryReplay.v
McpTools.v
