(* ===== verification/Prelude.v ===== *)
(** * Verification of the core logic of codex-rs

    The program is a coding agent: it receives a model's output as a stream,
    recognises patches and commands in it, decides whether a command needs approval and
    which sandbox it runs in, applies patches to a file system and shortens what goes back
    to the model.  This library models the parts of codex-rs that carry that logic and
    proves them correct.  All
    sources named below are under src/codex-rs/.

    ** The parts and how they interact

    - apply-patch.  A patch text is parsed into hunks (parser.rs, streaming_parser.rs);
      an update hunk is located in a file (seek_sequence.rs), turned into replacements
      of line ranges (file_update.rs) and applied to the file's lines (text_file.rs);
      lib.rs runs the hunks against a file system and records what it did in a delta;
      invocation.rs recognises a command line that calls apply_patch and verifies the
      patch against the file system before it is run.
    - execpolicy.  A policy holds prefix rules per program, network rules and the
      paths host executables may have; a command is checked against it.  amend.rs
      appends an accepted rule to the user's policy file.
    - shell-command.  A command line that is a shell script is taken apart into the plain
      commands it runs, and known dangerous commands are recognised.
    - core/exec_policy.rs.  From the policy, the recognised commands and the approval
      settings: whether a command runs, needs approval or is forbidden, and which rule is
      offered to be remembered.
    - utils/path-uri.  Paths of any platform as file URIs: parents, containment, joins,
      native text and back.
    - protocol/permissions.rs, protocol/models.rs, sandboxing/policy_transforms.rs.  What
      a sandboxed command may read and write: entries over path URIs, protected metadata,
      denied reads, profiles, their merging and their intersection.
    - core/tools/orchestrator.rs.  One tool call from its approval through a first attempt
      in a sandbox to a retry; it asks the components above.
    - core/safety.rs and the patch tool (core/tools/handlers, core/tools/runtimes).  Whether
      a verified patch runs without asking, which permissions it asks for, its run under
      the orchestrator, and the events that show it while it is streamed.
    - hooks.  User-supplied commands and MCP calls that run at events of a turn: found in
      configuration layers, managed requirements and plugins, admitted when trusted, matched
      to an event, run concurrently; their outputs block, rewrite, approve or prolong what
      the turn does.
    - protocol/shell_environment.rs.  The environment a command of the model runs with.
    - core/tools/network_approval.rs.  Requests the proxy does not allow are put to a reviewer:
      concurrent requests share a review, a session remembers hosts, a denial cancels the
      tool call.
    - core/turn_diff_tracker.rs.  The net diff of a turn, from the deltas of its patches.
    - utils/stream-parser.  Stackable parsers of streamed text: bytes to text, hidden
      citations, proposed-plan blocks, and their composition for assistant messages.
    - core/unified_exec/head_tail_buffer.rs, utils/string/truncate.rs and
      utils/output-truncation.  Bounding what a command's output takes.
    - utils/template.  The strict templates prompts are written in.
    - core/context_manager.  The history of a conversation is made fit for the model
      before it is sent: calls and outputs are paired, unsupported media removed.
    - core/context/world_state.  What the model was told of its surroundings is kept as a
      snapshot per section; changes are told to the model and recorded as merge patches.
    - core/session/rollout_reconstruction.rs.  A resumed or forked thread is rebuilt from its
      rollout, the log of its items: turns that were rolled back are left out, the rest is
      read from the newest compaction on.
    - core/agent.  A session's agents form a tree: a registry names them and limits their
      number, mailboxes keep mail for those not loaded, a shutdown waits for all of them.
    - network-proxy.  Requests of sandboxed commands go through a proxy that checks
      their host against allow and deny patterns, keeps them out of the local network,
      and keeps its configuration within what an administrator allows.
    - config.  The configuration is a stack of layers (system, user, project, command line,
      managed) that merge setting by setting; each setting has an origin; requirements of
      an administrator, themselves from several layers, constrain the values a session may use.
    - core/session/input_queue.rs with tasks, turn_input.rs and inject.rs.  Input of the user, of
      other agents and of injected items is admitted into the running turn or starts one, while
      tasks start, finish and are aborted.
    - tui paste bursts.  Text that arrives as fast key presses is collected and inserted as
      one paste.
    - app-server-protocol/thread_history.rs.  A thread's rollout and live events are built into
      turns with items; clients follow by change sets.
    - codex-mcp.  The tools of MCP servers are collected page by page, filtered and named for the
      model.

    ** Files

    - [Prelude]: Rust's [Result] with [?], fallible methods on mutable receivers as a
      state and error monad ([stE]: the state changes made before an error remain),
      saturating arithmetic at 64 bits, tactics, list lemmas.
    - [Str]: [char] as a code point, [str] as its sequence of characters, the string
      methods the program uses, byte lengths.
    - [SeekSequence], [TextFile], [PatchParser], [FileUpdate]: the files of apply-patch
      of the same names (parser.rs and streaming_parser.rs are both in [PatchParser]).
      Panics of the source (index underflow, slices out of range) are [None].
    - [PatchInvariant]: what holds of the parser's state and of every parsed hunk.
      [PatchRoundtrip]: a printer of patches and that parsing inverts it.
    - [FileSystem]: the interfaces [PathUri] (utils/path-uri) and [ExecutorFileSystem]
      (file-system/src/lib.rs) as classes, the laws [FileSystemLaws] and an in-memory
      file system with symbolic links as an instance of all three.  The laws allow
      links: only of a path that no other path leads to ([unaliased]) do they say
      that a write or a removal changes that path's text and no other.
    - [ApplyPatch]: lib.rs over any file system; the state is the file system's and
      the delta.  [Invocation]: invocation.rs.
    - [ExecPolicy]: decision.rs, executable_name.rs, rule.rs, policy.rs.  [PolicyAmend]:
      amend.rs, over a policy file with its lock.
    - [ShellSyntax]: bash.rs, powershell.rs and shell_detect.rs of shell-command, on the
      syntax trees tree-sitter gives.  [CommandSafety]: command_safety/.
    - [ApprovalTypes]: the approval and sandbox types of protocol and core, and the classes
      [FileSystemPolicyOps] and [PermissionProfileOps]: what the approval code asks of
      policies and profiles; [PermissionProfile] gives the instances.
    - [ExecApproval]: core/exec_policy.rs and the decisions of tools/sandboxing.rs.
    - [UriPath]: utils/path-uri/src/lib.rs; the url crate's codec is the class [UrlCodec]
      with the laws [UrlCodecLaws], and a percent codec that satisfies them.
      [NativePath]: api_path_string.rs and config_path.rs.
    - [Permissions]: protocol/permissions.rs with permissions/target.rs and
      deny_read_validator.rs, the globset crate as the class [GlobEngine];
      [AccessRules]: what its policies guarantee.  [PermissionProfile]: the profiles of
      protocol/models.rs.  [PolicyTransforms]: sandboxing/policy_transforms.rs.
    - [Orchestrator]: tools/orchestrator.rs as a program in a free monad over the calls it
      makes (approvals, the exec server, network approvals, the tool), with a small logic
      ([always]) for what holds of every call of every execution.
    - [PatchTool]: safety.rs, apply_patch.rs and the permissions of tools/handlers;
      [PatchProgress]: the progress events of tools/handlers/apply_patch.rs.
    - [TurnDiff]: turn_diff_tracker.rs, over the deltas of [ApplyPatch].
    - [NetworkApproval]: tools/network_approval.rs with network_policy_decision.rs, as programs
      over operations on the shared service.  [ApprovalSystem]: any number of such programs
      interleaved, answered arbitrarily and dropped where they await, and a rely-guarantee
      logic ([safe]) for one task among others; [ApprovalSafety]: each program in that
      logic; [ApprovalGuarantees]: what holds of every execution.
    - [ShellEnv]: shell_environment.rs, the wildmatch crate as the class [WildMatch].
    - [Hooks]: the handlers, matchers, runners and the dispatcher of hooks/src/engine; the
      classes [RegexEngine], [HookWorld] (processes, MCP calls, clock, files) and
      [FuturesUnordered] (an order in which concurrent runs complete).  [HookOutput]:
      engine/output_parser.rs over the wire types of schema.rs ([WireDecode]).
      [HookEvents]: the files of hooks/src/events, one section per event.
      [HookDiscovery]: engine/discovery.rs with the hook tables of config and of plugins.
      [HookControl], [HookStop], [HookTrust]: what they guarantee.
    - [StreamText]: the trait StreamTextParser as a class and the law [StreamLaws] that
      cutting a text into chunks does not change the result; [TaggedLine] (with
      proposed_plan.rs) and [InlineTag] (with citation.rs) are instances, and the
      composed parser (assistant_text.rs) and [Utf8Stream] are proved against the
      class.
    - [HeadTailBuffer], [Truncate], [Template].
    - [HistoryNormalize]: context_manager/normalize.rs and the two methods of
      history.rs that use it.
    - [WorldState]: world_state/mod.rs, the methods of history.rs that write its records and
      their replay.  [RolloutReplay]: session/rollout_reconstruction.rs and the cut of
      thread_rollout_truncation.rs before a user message, over the class [ThreadHistory] of
      the operations on a history it uses.  [RolloutTurns]: a forward reading of a rollout as
      a stack of turns, and that the backward scan gives its state.
    - [AgentPath]: protocol/agent_path.rs.  [AgentRegistry]: agent/registry.rs, its tasks step
      by step; [AgentAccounts]: what holds of every interleaving of them.  [AgentShutdown]:
      admission and shutdown in agent/control/runtime.rs (tokio's task tracker is the class
      [TaskTracker]).  [AgentControl]: agent/control/mailbox.rs (tokio's watch channel is the
      class [WatchChannel]), residency.rs and execution.rs.
    - [IpAddr]: the standard library's address parser and classifications as far as
      network-proxy uses them, and the address classes of policy.rs.
    - [NetworkDomain]: domain_matcher.rs and the domain patterns of policy.rs.
    - [NetworkPolicy]: the domain permissions of config.rs, the hosts of policy.rs, the
      decision about a host (runtime.rs) and with a decider (network_policy.rs).
    - [NetworkState]: state.rs (managed constraints, building a state), the construction of
      a state from a validated specification (core/config/network_proxy_spec.rs) and the
      methods of runtime.rs that change the shared state; the steps of the methods that
      retry are interleaved with those of other tasks.
    - [TomlTable]: tables in insertion order.  [ConfigMerge]: config/merge.rs, key_aliases.rs
      and overrides.rs.  [ConfigSeen]: what a layer says about a setting, and that merging
      lets the newest layer decide.  [ConfigStack]: state.rs with its layer sources,
      fingerprint.rs and the required providers; [ConfigOrder], [ConfigEffective] and
      [ConfigOrigins]: what holds of stacks, effective settings and origins.
      [RequirementLayers]: requirements_layers/.  [Constrained]: constraint.rs.
      [ManagedPolicy]: the requirements of config_requirements.rs as constraints.
    - [TurnQueue]: input_queue.rs, state/turn.rs and the locked operations of tasks/mod.rs,
      turn_input.rs and inject.rs.  [TurnSteps]: their procedures as processes, interleaved.
      [TurnAccounts], [TurnAdmission]: what holds of every interleaving.
    - [PasteBurst]: tui/bottom_pane/paste_burst.rs with its callers in the composer.
      [PasteKept]: that nothing typed is lost.
    - [ThreadItems], [ThreadHistory]: the items, events and builder of thread_history.rs.
      [HistoryClient], [HistoryReplay]: a client that applies change sets.
    - [McpTools]: codex-mcp/pagination.rs and tools.rs.

    ** What the theorems show

    - Patches: parsing inverts printing, also inside a heredoc; the parser's result
      does not depend on how the text was streamed; each chunk of a parsed hunk is
      exactly its lines, with the context indices they have.
    - Updates: [seek_sequence] finds the first place of the strictest pass that
      matches; replacements are sorted and disjoint, the one-pass rewriting equals
      splicing them one by one, and a located chunk replaces its old lines by its new
      ones and nothing else; no parsed patch makes any of it panic.
    - Application: a delta that is still exact replays to the file system's contents
      and undoes to the original ones, however the run ended, where the files of the
      patch are unaliased (a write through a dangling link, which escapes the delta, is
      shown); a rejected text changes nothing; the summary names the hunks' paths; what verification proposes is what
      application does.
    - Policy: the verdict is the strictest one of the matching rules; a forbidden
      prefix forbids every command with it, whatever rules were there before; merging
      loses no rule; the last network rule for a host decides its list.
    - Commands: a script is split into exactly its plain commands or refused; a dangerous
      command is found behind the wrappers the code knows, and the search ends.
    - Approval: a command that runs without asking is allowed by a rule or harmless, and
      everything that cannot be decided is not skipped; an accepted rule is in force from
      then on; an unfamiliar shell gains no trust from rules for the script it runs.
    - Paths: every constructed path URI is normalised; equality, order and containment are
      lawful on POSIX paths; joins resolve dots; text and configuration paths round-trip.
    - Permissions: in a restricted policy the most specific entry decides, and what cannot
      be resolved is denied; full-disk write means every path;
      workspace-write is exactly the workspace less its metadata; preserved denials,
      approved commands and intersections never open what was denied; malformed globs
      deny.
    - Tool calls: whatever the user, the servers and the tool answer, the orchestrator
      returns after at most two runs, forbidden calls never run, with denied reads a run
      asks for its sandbox, and an unsandboxed run has an approval, a rule or a
      request behind it (two decisions that differ from their comments are shown).
    - Patch tool: a patch that nobody approved touches writable paths only, in the sandbox,
      with the permissions granted before; a patch asks for no more than the directories it
      needs; preapproved permissions are within the grant; the events shown while a patch is
      streamed end with what was recognised.
    - Hooks: a handler runs only if it is managed, a bundled cleanup or trusted by the user,
      and a required managed hook is not lost without an error; a tool call is blocked, its
      input rewritten, a request denied or approved and a turn ended or prolonged exactly by
      the outputs documented to, whatever order the runs complete in; no configuration
      makes the engine panic.
    - Network approvals: under every interleaving an allowed request has an approval for
      exactly its host, port, protocol and environment, and a denial in the meantime wins; a
      denial fails its tool call; no task deadlocks and no dropped owner leaves requests
      waiting.
    - Environment: restricted variables and inherited secrets reach no command.
    - Turn diffs: the shown diff is the exact difference between the texts at the start of
      the turn and now, with renames, as long as only followed patches changed the texts
      it shows; reused renderings are what a fresh one would be.
    - Turns: accepted input is recorded once, or waits in one place, or is given up where
      the code says so; under stated conditions no queued work is overlooked.
    - Configuration: the newest layer that speaks about a setting decides it, its reported
      origin is that layer, stacks stay in order, demands of managed layers add up and their
      limits hold of every later value.
    - Pastes: what is typed and pasted reaches the text area, in order, or waits to.
    - Thread history: a client that applies the change sets has the turns of the builder.
    - MCP: names shown to the model are unique, of its alphabet and within its length.
    - Streams: chunking never matters, and each parser equals a reference that reads
      the whole text; invalid UTF-8 rolls its chunk back.
    - Bounds: the buffer is the first and the last half of its capacity of the output,
      with the exact count between; truncations keep two ends within their budgets
      and count what they remove; budgets over content items are respected; the MCP
      loop ends.
    - Templates: parsing inverts printing, rendering is exact about missing, extra and
      repeated values, errors point at their delimiter.

    - History: normalising always succeeds and gives a history in which calls and
      outputs are paired and no unsupported medium is left; it is idempotent; dropping
      the oldest item keeps the pairs.
    - World state: a merge patch takes the previous snapshot to the next one exactly, and a
      resumed session has the baseline the recording session had in memory, however it told
      the model about changes and compacted its history.
    - Rollouts: the one backward scan, which counts the rollbacks still owed, rebuilds the
      state of the turns that a forward reading with a stack of turns leaves; a rollout may
      begin inside a turn, as one does that is read from a compaction on.
    - Agents: under every interleaving threads and paths name each other, a reserved path is
      nobody else's, the count is the agents and the open reservations and stays within the
      limit, also when tasks race; mail arrives complete and in order; once a shutdown's wait
      has ended nothing is admitted and nothing recorded, so all waiters get the same report.
    - Network: the iterative wildcard matcher equals a recursive definition, and the
      documented patterns mean what they say; the address classes are exactly listed
      ranges; a request that is let through matches no deny pattern, was allowed or
      approved, and does not lead into the local network; a denied entry wins over an
      allowed one; along every sequence of calls, reloads and interleaved tasks the
      compiled sets are those of the configuration, the constraints hold, and a
      managed or added denial blocks its host; the log of blocked requests is the
      latest entries (two ways it loses count are shown).

    ** Bounds and fuel

    Loops that are not structural take fuel, with a theorem that the fuel given is
    enough: [InlineTag.inline_loop] (a delimiter is consumed per round),
    [Utf8Stream.decode_all] (a byte per round), [Truncate.mcp_loop] (the budget falls,
    so the budget plus one rounds), [Template.parse_loop] (a character per round),
    [NetworkDomain.match_loop] (a retry moves the star's position on),
    [ShellSyntax.detect_shell_type_fuel] (a name loses its extension per round),
    [UriPath.ancestors_fuel] (a segment per parent), [NativePath.utf8_lossy] (a byte per
    round), [Hooks.captures_iter] and [HookDiscovery.str_replace] (a character per round), [ConfigMerge.merge_fuel] (the
    overlay gets less deep), [McpTools.try_names] (as many attempts as there are tools, given
    that the hashes of attempts differ); the search for dangerous commands carries the code's own depth limit.
    Lengths in bytes are [N] at the width of [usize] where the code saturates; line
    and byte indices into data in memory are [nat].

    ** Scope of the statements

    Where a theorem holds of less than every input its comment says so.  The main
    conditions: patches and turn diffs speak of files that
    are not reached under a second name; containment and approved denials of POSIX paths;
    rollout reconstruction of rollouts made of turns that are opened before they are
    completed; origins of keys without dots, since the code joins keys with dots; managed
    network denials of states built from a validated specification, for plain domains;
    pastes of the composer's plain text mode.

    ** What is not modelled

    Parameters: the tree-sitter based extraction of a heredoc from a shell script and
    the text diff (invocation.rs), absolute paths and shlex (execpolicy), tree-sitter's
    trees, the regular expressions and the PowerShell parser (shell-command), the url
    crate's codec (path-uri), tokio's task tracker and watch channel and the random choice of
    nicknames (agents), globset (permissions), wildmatch (environment), the regex crate, processes, MCP calls,
    the clock, the decoding of JSON into wire types, the order of completion, the hash of a
    hook's identity and the hooks.json files (hooks), the reviewers and the session (network
    approvals), the similar crate, SHA-1 and the
    order of hash maps (turn diff), serde_json
    and the audio estimate (output-truncation), the
    UUID of synthetic items and the reading of window identifiers (core), the sections of the
    world state with their texts and serialisation, the url crate's host parser, DNS, the decider, the
    MITM hooks and state (network-proxy), [str::to_lowercase], the fingerprint of a value and the
    validation of providers (config), UUIDs (turns, history), the presentation of commands
    (history), SHA-1 and the server's pages (MCP).  The file system's operations are
    sequential, as the code awaits each of them; the sandbox context is passed through
    unread and left out.  Paths are the text the patch gives.  Executable names are
    those of the non-Windows build.  Of the permissions, the operations that look at the
    local disk (symbolic links, git pointers, legacy policies) are left out, and the aliases of
    system directories are a parameter of the patch tool.  Of the
    hooks, the registry that forwards to the engine, the legacy notifier and the
    serialisation of inputs are left out.  Telemetry is
    left out.  The rest of codex-rs (servers, clients, platform sandboxes, user interface,
    storage) is input and output around these parts.
*)
From stdpp Require Export base list list_numbers numbers option strings gmap sorting.
From Stdlib Require Export Lia.

(** * Rust's [Result] and [?] *)

Declare Scope rust_scope.
Delimit Scope rust_scope with rust.

(** [Result<A, E>] of the source, success first as in Rust. *)
Inductive result (E A : Type) : Type :=
| Ok (a : A)
| Err (e : E).
Arguments Ok {E A} a.
Arguments Err {E A} e.

Definition is_ok {E A} (r : result E A) : bool :=
  match r with Ok _ => true | Err _ => false end.

Definition res_bind {E A B} (r : result E A) (k : A → result E B) : result E B :=
  match r with Ok a => k a | Err e => Err e end.

Definition map_err {E F A} (f : E → F) (r : result E A) : result F A :=
  match r with Ok a => Ok a | Err e => Err (f e) end.

(** [let? x := e in k] is the source's [let x = e?; k]. *)
Notation "'let?' x ':=' e 'in' k" := (res_bind e (fun x => k))
  (at level 10, x name, e at level 100, k at level 200) : rust_scope.
Notation "'let?' ' p ':=' e 'in' k" := (res_bind e (fun x => match x with p => k end))
  (at level 10, p pattern, e at level 100, k at level 200) : rust_scope.

(** * Methods taking [&mut self] and returning [Result] *)

(** A fallible method on a mutable receiver returns the receiver's new state
    whether or not it fails: what it changed before an early [return Err] stays. *)
Definition stE (S E A : Type) : Type := S → S * result E A.

Definition st_ret {S E A} (a : A) : stE S E A := fun s => (s, Ok a).
Definition st_throw {S E A} (e : E) : stE S E A := fun s => (s, Err e).
Definition st_get {S E} : stE S E S := fun s => (s, Ok s).
Definition st_put {S E} (s : S) : stE S E unit := fun _ => (s, Ok tt).
Definition st_modify {S E} (f : S → S) : stE S E unit := fun s => (f s, Ok tt).
Definition st_bind {S E A B} (m : stE S E A) (k : A → stE S E B) : stE S E B :=
  fun s => match m s with
           | (s', Ok a) => k a s'
           | (s', Err e) => (s', Err e)
           end.

Notation "x <- m ;; k" := (st_bind m (fun x => k))
  (at level 100, m at next level, right associativity) : rust_scope.
Notation "m ;;; k" := (st_bind m (fun _ => k))
  (at level 100, right associativity) : rust_scope.
Open Scope rust_scope.

(** [for x in l { body }] over a fallible method. *)
Fixpoint st_for {S E A} (l : list A) (body : A → stE S E unit) : stE S E unit :=
  match l with
  | [] => st_ret tt
  | x :: l => body x ;;; st_for l body
  end.

Section StateMonad.
Context {S E A B C : Type}.

Lemma st_bind_assoc (m : stE S E A) (k : A → stE S E B) (h : B → stE S E C) (s : S) :
  st_bind (st_bind m k) h s = st_bind m (fun x => st_bind (k x) h) s.
Proof. unfold st_bind. destruct (m s) as [s' [a|e]]; [|done]. done. Qed.

Lemma st_bind_ok (m : stE S E A) (k : A → stE S E B) (s s' : S) (a : A) :
  m s = (s', Ok a) → st_bind m k s = k a s'.
Proof. unfold st_bind. by intros ->. Qed.

Lemma st_bind_err (m : stE S E A) (k : A → stE S E B) (s s' : S) (e : E) :
  m s = (s', Err e) → st_bind m k s = (s', Err e).
Proof. unfold st_bind. by intros ->. Qed.

Lemma st_bind_inv (m : stE S E A) (k : A → stE S E B) (s s' : S) (b : B) :
  st_bind m k s = (s', Ok b) → ∃ s1 a, m s = (s1, Ok a) ∧ k a s1 = (s', Ok b).
Proof. unfold st_bind. destruct (m s) as [s1 [a|e]]; naive_solver. Qed.

(** A run over a concatenation is the run over its first part followed by
    the run over its second part. *)
Lemma st_for_app (l1 l2 : list A) (body : A → stE S E unit) (s : S) :
  st_for (l1 ++ l2) body s = st_bind (st_for l1 body) (fun _ => st_for l2 body) s.
Proof.
  revert s. induction l1 as [|x l1 IH]; intros s; simpl.
  - done.
  - unfold st_bind at 1 2 3. destruct (body x s) as [s' [u|e]]; [|done].
    rewrite IH. done.
Qed.

(** An invariant of the body is an invariant of the loop, also when the
    loop stops with an error. *)
Lemma st_for_inv (I : S → Prop) (l : list A) (body : A → stE S E unit) :
  (∀ x s, I s → I (fst (body x s))) →
  ∀ s, I s → I (fst (st_for l body s)).
Proof.
  intros Hb. induction l as [|x l IH]; intros s Hs; simpl; [done|].
  unfold st_bind. specialize (Hb x s Hs).
  destruct (body x s) as [s' [u|e]]; simpl in *; auto.
Qed.
End StateMonad.

(** * Machine integers *)

(** [usize] and [u64] of the 64-bit targets. *)
Definition u64_max : N := 18446744073709551615.
Definition usize_max : N := u64_max.

Definition sat_add (a b : N) : N := N.min (a + b) usize_max.
Definition sat_mul (a b : N) : N := N.min (a * b) usize_max.
Definition sat_sub (a b : N) : N := (a - b)%N.

(** * Tactics *)

(** Case analysis on the innermost discriminee of the goal or a hypothesis. *)
Ltac break_match :=
  match goal with
  | |- context [match ?x with _ => _ end] =>
      lazymatch x with context [match _ with _ => _ end] => fail | _ => destruct x eqn:? end
  | H : context [match ?x with _ => _ end] |- _ =>
      lazymatch x with context [match _ with _ => _ end] => fail | _ => destruct x eqn:? end
  end.
Ltac break_step := break_match; simplify_eq/=; try done.
Ltac break_all := repeat break_step.

(** Boolean tests of the code as propositions. *)
Ltac bool_facts :=
  repeat match goal with
  | H : bool_decide _ = true |- _ => apply bool_decide_eq_true in H
  | H : bool_decide _ = false |- _ => apply bool_decide_eq_false in H
  | H : (_ && _) = true |- _ => apply andb_true_iff in H as [??]
  | H : (_ || _) = false |- _ => apply orb_false_iff in H as [??]
  | H : negb _ = true |- _ => apply negb_true_iff in H
  | H : negb _ = false |- _ => apply negb_false_iff in H
  | H : (_ =? _) = true |- _ => apply Nat.eqb_eq in H
  | H : (_ =? _) = false |- _ => apply Nat.eqb_neq in H
  | H : (_ <? _) = true |- _ => apply Nat.ltb_lt in H
  | H : (_ <? _) = false |- _ => apply Nat.ltb_ge in H
  | H : (_ <=? _) = true |- _ => apply Nat.leb_le in H
  | H : (_ <=? _) = false |- _ => apply Nat.leb_gt in H
  end.

Create HintDb codex.
Create Rewrite HintDb codex.

(** * Lists *)

(** [Vec::last] *)
Definition vec_last {A} (l : list A) : option A := last l.

(** [if let Some(x) = v.last_mut() { *x = f(x) }] *)
Definition update_last {A} (f : A → A) (l : list A) : list A :=
  match last l with
  | Some x => removelast l ++ [f x]
  | None => l
  end.

Section Lists.
Context {A B : Type}.
Implicit Types l : list A.

Lemma list_snoc_inv l : l = [] ∨ ∃ l' x, l = l' ++ [x].
Proof. induction l using rev_ind; eauto. Qed.

Lemma removelast_snoc l x : removelast (l ++ [x]) = l.
Proof. apply removelast_last. Qed.

Lemma update_last_nil (f : A → A) : update_last f [] = [].
Proof. done. Qed.

Lemma update_last_snoc (f : A → A) l x : update_last f (l ++ [x]) = l ++ [f x].
Proof. unfold update_last. by rewrite last_snoc, removelast_snoc. Qed.

Lemma last_Some_snoc l x : last l = Some x → ∃ l', l = l' ++ [x].
Proof. by rewrite last_Some. Qed.

Lemma Forall_update_last (P : A → Prop) (f : A → A) l :
  (∀ x, last l = Some x → P x → P (f x)) → Forall P l → Forall P (update_last f l).
Proof.
  destruct (list_snoc_inv l) as [->|(l' & x & ->)]; [done|].
  rewrite update_last_snoc, last_snoc, !Forall_app, !Forall_singleton. naive_solver.
Qed.

Lemma take_app_exact l1 l2 n : n = length l1 → take n (l1 ++ l2) = l1.
Proof. intros ->. apply take_app_length. Qed.

Lemma drop_app_exact l1 l2 n : n = length l1 → drop n (l1 ++ l2) = l2.
Proof. intros ->. apply drop_app_length. Qed.

Lemma drop_take_comm l n m : drop n (take m l) = take (m - n) (drop n l).
Proof.
  destruct (decide (n ≤ m)) as [Hle|Hgt].
  - replace m with (n + (m - n)) at 1 by lia. by rewrite take_drop_commute.
  - replace (m - n) with 0 by lia. rewrite drop_ge; [done|].
    rewrite length_take. lia.
Qed.
End Lists.

Lemma mjoin_app {A} (l1 l2 : list (list A)) : mjoin (l1 ++ l2) = mjoin l1 ++ mjoin l2.
Proof. induction l1 as [|x l1 IH]; simpl; [done|]. by rewrite IH, (assoc_L (++)). Qed.

(** [Iterator::find_map] *)
Fixpoint find_map {A B} (f : A → option B) (l : list A) : option B :=
  match l with [] => None | x :: l => match f x with Some y => Some y | None => find_map f l end end.

Lemma find_map_Some {A B} (f : A → option B) l :
  is_Some (find_map f l) ↔ ∃ x, x ∈ l ∧ is_Some (f x).
Proof.
  induction l as [|x l IH]; simpl.
  - split; [by intros []|by intros (? & ?%not_elem_of_nil & _)].
  - setoid_rewrite elem_of_cons. destruct (f x) eqn:E; [split; eauto|]. rewrite IH. split; [naive_solver|].
    intros (y & [->|Hy] & Hf); [rewrite E in Hf; by destruct Hf|eauto].
Qed.

Lemma find_map_inv {A B} (f : A → option B) l y : find_map f l = Some y → ∃ x, x ∈ l ∧ f x = Some y.
Proof.
  induction l as [|x l IH]; simpl; [done|]. setoid_rewrite elem_of_cons. destruct (f x) eqn:E; [intros [= <-]; eauto|naive_solver].
Qed.

Lemma find_map_ext {A B} (f g : A → option B) l : (∀ x, f x = g x) → find_map f l = find_map g l.
Proof. intros H. induction l as [|x l IH]; simpl; [done|]. by rewrite H, IH. Qed.

#[export] Hint Rewrite @removelast_snoc @update_last_snoc @last_snoc : codex.
