(* ===== verification/Str.v ===== *)
(** Rust's [str], [char] and their methods, as the program uses them.

    A [char] is its code point and a [str] the sequence of its characters, so a
    slice at a byte offset that is a character boundary is a split of the
    sequence.  [len_utf8] and [blen] give the byte length of the UTF-8 encoding,
    for the code that counts bytes. *)
From S2P Require Import Prelude.
From Stdlib Require Import Ascii.

Abbreviation str := (list N).

(** A string literal of the source (ASCII). *)
Definition lit (s : string) : str := N_of_ascii <$> String.list_ascii_of_string s.
Arguments lit _%_string_scope.

Definition LF : N := 10.
Definition CR : N := 13.

(** Equality tests [a == b] on [str] and [char]. *)
Notation "a =s b" := (bool_decide (a = b)) (at level 70).

(** * Characters *)

Section Characters.
Local Open Scope N_scope.

(** [char::is_whitespace]: the Unicode White_Space property. *)
Definition is_whitespace (c : N) : bool :=
  ((9 <=? c) && (c <=? 13)) || (c =? 32) || (c =? 133) || (c =? 160) || (c =? 5760)
  || ((8192 <=? c) && (c <=? 8202)) || (c =? 8232) || (c =? 8233) || (c =? 8239)
  || (c =? 8287) || (c =? 12288).

Definition is_ascii_digit (c : N) : bool := (48 <=? c) && (c <=? 57).
Definition is_ascii_upper (c : N) : bool := (65 <=? c) && (c <=? 90).
Definition is_ascii_lower (c : N) : bool := (97 <=? c) && (c <=? 122).
Definition is_ascii_alphabetic (c : N) : bool := is_ascii_upper c || is_ascii_lower c.
Definition is_ascii_alphanumeric (c : N) : bool := is_ascii_alphabetic c || is_ascii_digit c.

Definition ascii_lower (c : N) : N := if is_ascii_upper c then c + 32 else c.

(** [char::len_utf8] *)
Definition len_utf8 (c : N) : N :=
  if c <? 128 then 1 else if c <? 2048 then 2 else if c <? 65536 then 3 else 4.

(** [str::len], in bytes *)
Fixpoint blen (s : str) : N :=
  match s with [] => 0 | c :: s => len_utf8 c + blen s end.

Lemma len_utf8_pos c : 1 <= len_utf8 c <= 4.
Proof. unfold len_utf8. repeat case_match; lia. Qed.

Lemma blen_app s t : blen (s ++ t) = blen s + blen t.
Proof. induction s as [|c s IH]; simpl; [lia|]. rewrite IH. lia. Qed.

Lemma blen_length s : N.of_nat (length s) <= blen s.
Proof. induction s as [|c s IH]; simpl; [lia|]. pose proof (len_utf8_pos c). lia. Qed.

Lemma blen_zero s : blen s = 0 ↔ s = [].
Proof.
  split; [|by intros ->]. destruct s as [|c s]; [done|]. simpl.
  pose proof (len_utf8_pos c). lia.
Qed.
End Characters.

Definition to_ascii_lowercase (s : str) : str := ascii_lower <$> s.
Definition eq_ignore_ascii_case (s t : str) : bool :=
  to_ascii_lowercase s =s to_ascii_lowercase t.

(** * Trimming *)

Fixpoint drop_while (p : N → bool) (s : str) : str :=
  match s with [] => [] | c :: s' => if p c then drop_while p s' else s end.

(** [trim_end_matches]: drop the longest suffix of characters satisfying [p]. *)
Fixpoint trim_end_by (p : N → bool) (s : str) : str :=
  match s with
  | [] => []
  | c :: s' =>
      match trim_end_by p s' with
      | [] => if p c then [] else [c]
      | t => c :: t
      end
  end.

Definition trim_start (s : str) : str := drop_while is_whitespace s.
Definition trim_end (s : str) : str := trim_end_by is_whitespace s.
Definition trim (s : str) : str := trim_end (trim_start s).

(** * Prefixes, suffixes and searching *)

Fixpoint strip_prefix (p s : str) : option str :=
  match p, s with
  | [], _ => Some s
  | a :: p', b :: s' => if N.eqb a b then strip_prefix p' s' else None
  | _ :: _, [] => None
  end.

Definition starts_with (p s : str) : bool := match strip_prefix p s with Some _ => true | None => false end.

Definition strip_suffix (p s : str) : option str :=
  reverse <$> strip_prefix (reverse p) (reverse s).
Definition ends_with (p s : str) : bool := match strip_suffix p s with Some _ => true | None => false end.

(** [str::find] of a literal: the position of its first occurrence. *)
Fixpoint str_find (p s : str) : option nat :=
  if starts_with p s then Some 0
  else match s with [] => None | _ :: s' => S <$> str_find p s' end.

Definition str_contains (p s : str) : bool := match str_find p s with Some _ => true | None => false end.

Definition split_once (p s : str) : option (str * str) :=
  i ← str_find p s; Some (take i s, drop (i + length p) s).

(** [rsplit_once] on a character: split at its last occurrence. *)
Fixpoint rsplit_once (c : N) (s : str) : option (str * str) :=
  match s with
  | [] => None
  | d :: s' =>
      match rsplit_once c s' with
      | Some (a, b) => Some (d :: a, b)
      | None => if N.eqb d c then Some ([], s') else None
      end
  end.

(** [str::split] on the characters satisfying [p]. *)
Fixpoint split_by (p : N → bool) (s : str) : list str :=
  match s with
  | [] => [[]]
  | c :: s' =>
      if p c then [] :: split_by p s'
      else match split_by p s' with
           | [] => [[c]]
           | w :: ws => (c :: w) :: ws
           end
  end.

(** * Lines *)

(** [split_inclusive]: the pieces ending at each line feed, line feed included. *)
Fixpoint split_inclusive (s : str) : list str :=
  match s with
  | [] => []
  | c :: s' =>
      if N.eqb c LF then [c] :: split_inclusive s'
      else match split_inclusive s' with
           | [] => [[c]]
           | w :: ws => (c :: w) :: ws
           end
  end.

(** [str::lines]: without the line feed and the carriage return before it. *)
Definition strip_line_end (l : str) : str :=
  match strip_suffix [LF] l with
  | None => l
  | Some l => default l (strip_suffix [CR] l)
  end.

Definition lines (s : str) : list str := strip_line_end <$> split_inclusive s.

(** [[T]::join] *)
Fixpoint join (sep : str) (l : list str) : str :=
  match l with
  | [] => []
  | [x] => x
  | x :: l => x ++ sep ++ join sep l
  end.

(** * Facts *)

Lemma drop_while_head p c s : p c = false → drop_while p (c :: s) = c :: s.
Proof. simpl. by intros ->. Qed.

Lemma drop_while_fixpoint p s : (∀ c, head s = Some c → p c = false) → drop_while p s = s.
Proof. destruct s; simpl; [done|]. intros H. by rewrite (H n eq_refl). Qed.

Lemma drop_while_idemp p s : drop_while p (drop_while p s) = drop_while p s.
Proof. induction s as [|c s IH]; simpl; [done|]. case_match eqn:E; [done|]. simpl. by rewrite E. Qed.

Lemma trim_end_by_snoc p s c : p c = false → trim_end_by p (s ++ [c]) = s ++ [c].
Proof.
  intros Hc. induction s as [|d s IH]; simpl.
  - by rewrite Hc.
  - rewrite IH. by destruct s.
Qed.

Lemma trim_end_by_snoc_drop p s c : p c = true → trim_end_by p (s ++ [c]) = trim_end_by p s.
Proof.
  intros Hc. induction s as [|d s IH]; simpl.
  - by rewrite Hc.
  - by rewrite IH.
Qed.

Lemma trim_end_by_last p s c : last (trim_end_by p s) = Some c → p c = false.
Proof.
  induction s as [|d s IH]; simpl; [done|].
  destruct (trim_end_by p s) as [|e t] eqn:E.
  - destruct (p d) eqn:Ed; simpl; [done|]. naive_solver.
  - intros H. apply IH. by rewrite <- H.
Qed.

Lemma trim_end_by_fixpoint p s :
  (∀ c, last s = Some c → p c = false) → trim_end_by p s = s.
Proof.
  destruct (list_snoc_inv s) as [->|(s' & c & ->)]; [done|].
  intros H. apply trim_end_by_snoc, H. by rewrite last_snoc.
Qed.

Lemma trim_end_by_cons p c s : p c = false → trim_end_by p (c :: s) = c :: trim_end_by p s.
Proof. intros Hc. simpl. destruct (trim_end_by p s); [by rewrite Hc|done]. Qed.

Lemma trim_end_by_prefix p s : ∃ t, s = trim_end_by p s ++ t ∧ Forall (λ c, p c = true) t.
Proof.
  induction s as [|c s (t & Hs & Ht)]; simpl; [by exists []|].
  destruct (trim_end_by p s) as [|d u] eqn:E.
  - destruct (p c) eqn:Ec.
    + exists (c :: s). split; [done|]. constructor; [done|]. by rewrite Hs.
    + exists s. split; [done|]. by rewrite Hs.
  - exists t. split; [|done]. by rewrite Hs at 1.
Qed.

(** A string without white space at its ends is left alone by [trim]. *)
Definition trimmed (s : str) : bool :=
  match head s, last s with
  | Some a, Some b => negb (is_whitespace a) && negb (is_whitespace b)
  | _, _ => true
  end.

Lemma trim_fixpoint s : trimmed s = true → trim s = s.
Proof.
  unfold trimmed, trim, trim_start, trim_end. intros H. destruct s as [|a s]; [done|].
  destruct (last (a :: s)) as [b|] eqn:E; [|by apply last_None in E].
  simpl in H. bool_facts.
  rewrite drop_while_fixpoint by (intros ? [= <-]; done).
  apply trim_end_by_fixpoint. congruence.
Qed.

Lemma trim_end_fixpoint s : trimmed s = true → trim_end s = s.
Proof.
  unfold trimmed, trim_end. intros H. destruct s as [|a s]; [done|].
  destruct (last (a :: s)) as [b|] eqn:E; [|by apply last_None in E].
  simpl in H. bool_facts. apply trim_end_by_fixpoint. congruence.
Qed.

Lemma strip_prefix_Some p s t : strip_prefix p s = Some t ↔ s = p ++ t.
Proof.
  revert s. induction p as [|a p IH]; intros s; simpl.
  - split; congruence.
  - destruct s as [|b s]; [split; [done|naive_solver]|].
    destruct (N.eqb_spec a b) as [->|Hne].
    + rewrite IH. split; [by intros ->|by intros [= ->]].
    + split; [done|naive_solver].
Qed.

Lemma strip_prefix_app p t : strip_prefix p (p ++ t) = Some t.
Proof. by apply strip_prefix_Some. Qed.

Lemma strip_prefix_None p s : strip_prefix p s = None ↔ ¬ p `prefix_of` s.
Proof.
  destruct (strip_prefix p s) as [t|] eqn:E.
  - apply strip_prefix_Some in E as ->. split; [done|]. intros []. by exists t.
  - split; [|done]. intros _ [t ->]. by rewrite strip_prefix_app in E.
Qed.

Lemma starts_with_spec p s : starts_with p s = true ↔ p `prefix_of` s.
Proof.
  unfold starts_with. destruct (strip_prefix p s) as [t|] eqn:E.
  - apply strip_prefix_Some in E as ->. split; [by exists t|done].
  - apply strip_prefix_None in E. naive_solver.
Qed.

Lemma strip_suffix_Some p s t : strip_suffix p s = Some t ↔ s = t ++ p.
Proof.
  unfold strip_suffix. rewrite fmap_Some. split.
  - intros (u & Hu & ->). apply strip_prefix_Some in Hu.
    apply (f_equal reverse) in Hu. by rewrite reverse_involutive, reverse_app, reverse_involutive in Hu.
  - intros ->. exists (reverse t). rewrite reverse_app, reverse_involutive.
    by rewrite strip_prefix_app.
Qed.

Lemma strip_suffix_snoc s c d :
  strip_suffix [c] (s ++ [d]) = if decide (d = c) then Some s else None.
Proof.
  unfold strip_suffix. rewrite reverse_snoc, reverse_singleton. simpl.
  destruct (N.eqb_spec c d); case_decide; try congruence; simpl; by rewrite ?reverse_involutive.
Qed.

Lemma str_find_Some p s i :
  str_find p s = Some i →
  s = take i s ++ p ++ drop (i + length p) s ∧ i + length p ≤ length s
  ∧ ∀ j, j < i → ¬ p `prefix_of` drop j s.
Proof.
  revert i. induction s as [|c s IH]; intros i; simpl.
  - destruct (starts_with p []) eqn:E; [|done]. intros [= <-].
    apply starts_with_spec in E as [t Ht]. destruct p; [|done]. split_and!; simpl; [done|lia|lia].
  - destruct (starts_with p (c :: s)) eqn:E.
    + intros [= <-]. apply starts_with_spec in E as [t Ht]. rewrite Ht. split_and!.
      * simpl. by rewrite drop_app_length.
      * apply (f_equal length) in Ht. rewrite length_app in Ht. simpl in *. lia.
      * lia.
    + destruct (str_find p s) as [i'|]; [|done]. intros [= <-].
      destruct (IH _ eq_refl) as (H1 & H2 & H3). simpl. split_and!; [congruence|lia|].
      intros [|j] Hj; simpl.
      * intros Hp. apply starts_with_spec in Hp. congruence.
      * apply H3. lia.
Qed.

Lemma str_find_None p s : str_find p s = None → ∀ j, ¬ p `prefix_of` drop j s.
Proof.
  induction s as [|c s IH]; simpl.
  - destruct (starts_with p []) eqn:E; [done|]. intros _ j. rewrite drop_nil.
    intros H. apply starts_with_spec in H. congruence.
  - destruct (starts_with p (c :: s)) eqn:E; [done|].
    destruct (str_find p s); [done|]. intros _ [|j]; simpl; [|by apply IH].
    intros H. apply starts_with_spec in H. congruence.
Qed.

Lemma split_inclusive_line l s :
  LF ∉ l → split_inclusive (l ++ LF :: s) = (l ++ [LF]) :: split_inclusive s.
Proof.
  induction l as [|c l IH]; intros Hl; simpl; [done|].
  apply not_elem_of_cons in Hl as [Hc Hl]. rewrite (proj2 (N.eqb_neq _ _)) by done.
  by rewrite IH.
Qed.

Lemma split_inclusive_last l : LF ∉ l → l ≠ [] → split_inclusive l = [l].
Proof.
  induction l as [|c l IH]; intros Hl Hne; [done|]. simpl.
  apply not_elem_of_cons in Hl as [Hc Hl]. rewrite (proj2 (N.eqb_neq _ _)) by done.
  destruct l as [|d l]; [done|]. by rewrite IH.
Qed.

(** * Sorting *)

(** [String]'s order, which is that of the code points. *)
Fixpoint str_leb (s t : str) : bool :=
  match s, t with
  | [], _ => true
  | _ :: _, [] => false
  | a :: s, b :: t => N.ltb a b || (N.eqb a b && str_leb s t)
  end.

(** [sort_by_key], which is stable. *)
Fixpoint insert_by_key {A} (key : A → str) (x : A) (l : list A) : list A :=
  match l with
  | [] => [x]
  | y :: l => if str_leb (key x) (key y) then x :: y :: l else y :: insert_by_key key x l
  end.
Definition sort_by_key {A} (key : A → str) (l : list A) : list A := foldr (insert_by_key key) [] l.

(** [Vec::dedup] for an equality [eqb]: each element is compared with the last one kept. *)
Fixpoint dedup_from {A} (eqb : A → A → bool) (x : A) (l : list A) : list A :=
  match l with
  | [] => [x]
  | y :: l => if eqb y x then dedup_from eqb x l else x :: dedup_from eqb y l
  end.
Definition dedup_by {A} (eqb : A → A → bool) (l : list A) : list A :=
  match l with [] => [] | x :: l => dedup_from eqb x l end.

Lemma elem_of_insert_by_key {A} (key : A → str) (x y : A) l : x ∈ insert_by_key key y l ↔ x = y ∨ x ∈ l.
Proof. induction l as [|z l IH]; cbn; [set_solver|]. destruct (str_leb _ _); set_solver. Qed.

Lemma elem_of_sort_by_key {A} (key : A → str) (x : A) l : x ∈ sort_by_key key l ↔ x ∈ l.
Proof. induction l as [|z l IH]; cbn; [done|]. rewrite elem_of_insert_by_key, elem_of_cons, IH. done. Qed.

Lemma dedup_by_incl {A} (eqb : A → A → bool) l : dedup_by eqb l ⊆ l.
Proof.
  destruct l as [|x l]; [done|]. cbn. revert x. induction l as [|y l IH]; intros x; [done|]. cbn [dedup_from].
  destruct (eqb y x); [specialize (IH x)|specialize (IH y)]; set_solver.
Qed.

Lemma dedup_from_head {A} (eqb : A → A → bool) x l : x ∈ dedup_from eqb x l.
Proof. revert x. induction l as [|y l IH]; intros x; cbn; [by left|]. destruct (eqb y x); [apply IH|by left]. Qed.

(** Every element stays, or one equal to it does. *)
Lemma dedup_by_covers {A} (eqb : A → A → bool) l y :
  (∀ x, eqb x x = true) → y ∈ l → ∃ x, x ∈ dedup_by eqb l ∧ eqb y x = true.
Proof.
  intros Hr. destruct l as [|x l]; [by intros ?%not_elem_of_nil|]. cbn. revert x.
  induction l as [|z l IH]; intros x Hy; cbn.
  { apply list_elem_of_singleton in Hy as ->. exists x. split; [by left|done]. }
  destruct (eqb z x) eqn:E.
  - rewrite !elem_of_cons in Hy. destruct Hy as [->|[->|Hy]]; [|exists x; split; [apply dedup_from_head|done]|].
    + exists x. split; [apply dedup_from_head|done].
    + apply IH. by right.
  - apply elem_of_cons in Hy as [->|Hy]; [exists x; split; [by left|done]|].
    destruct (IH z Hy) as (x' & ? & ?). exists x'. split; [by right|done].
Qed.

Lemma elem_of_dedup_by {A} `{EqDecision A} (x : A) l : x ∈ dedup_by (λ x y, bool_decide (x = y)) l ↔ x ∈ l.
Proof.
  split; [apply dedup_by_incl|]. intros Hx. destruct (dedup_by_covers (λ x y, bool_decide (x = y)) l x) as (y & Hy & He%bool_decide_eq_true);
    [intros; by apply bool_decide_eq_true|done|]. by subst.
Qed.
