(* ===== verification/SeekSequence.v ===== *)
(** apply-patch/src/seek_sequence.rs: locating a block of lines in a file.

    [seek_sequence] runs four passes of decreasing strictness over the window
    [search_start ..= len - pattern.len()].  The reference definition is
    [matches_at] at a strictness [level]; [seek_sequence_spec] characterises the
    search by it, and the levels are shown to be nested. *)
From S2P Require Import Prelude Str.

(** * The code *)

(** [normalise]'s character map: typographic dashes, quotes and spaces to ASCII. *)
Definition normalise_char (c : N) : N :=
  if bool_decide (c ∈ [8208; 8209; 8210; 8211; 8212; 8213; 8722]%N) then 45%N
  else if bool_decide (c ∈ [8216; 8217; 8218; 8219]%N) then 39%N
  else if bool_decide (c ∈ [8220; 8221; 8222; 8223]%N) then 34%N
  else if bool_decide (c ∈ [160; 8194; 8195; 8196; 8197; 8198; 8199; 8200; 8201; 8202;
                            8239; 8287; 12288]%N) then 32%N
  else c.

Definition normalise (s : str) : str := normalise_char <$> trim s.

(** [for i in start..=last { if p(i) { return Some(i) } }] *)
Fixpoint scan (p : nat → bool) (i n : nat) : option nat :=
  match n with
  | 0 => None
  | S n => if p i then Some i else scan p (S i) n
  end.

Definition scan_inclusive (p : nat → bool) (start stop : nat) : option nat :=
  scan p start (S stop - start).

(** The inner loop of the lenient passes: compare each pattern line with the
    line [i + p_idx]; [break] at the first difference.  The index is in bounds
    for every [i] of the scan ([line_index_in_bounds]). *)
Fixpoint lines_match (norm : str → str) (lines : list str) (i p_idx : nat) (pattern : list str) : bool :=
  match pattern with
  | [] => true
  | pat :: pattern =>
      match lines !! (i + p_idx) with
      | Some l => if norm l =s norm pat then lines_match norm lines i (S p_idx) pattern else false
      | None => false
      end
  end.

Definition seek_sequence (lines pattern : list str) (start : nat) (eof : bool) : option nat :=
  if bool_decide (pattern = []) then Some start
  else if length lines <? length pattern then None
  else
    let search_start :=
      if eof && (length pattern <=? length lines)
      then (length lines - length pattern) `max` start
      else start in
    let stop := length lines - length pattern in
    match scan_inclusive (λ i, take (length pattern) (drop i lines) =s pattern) search_start stop with
    | Some i => Some i
    | None =>
    match scan_inclusive (λ i, lines_match trim_end lines i 0 pattern) search_start stop with
    | Some i => Some i
    | None =>
    match scan_inclusive (λ i, lines_match trim lines i 0 pattern) search_start stop with
    | Some i => Some i
    | None => scan_inclusive (λ i, lines_match normalise lines i 0 pattern) search_start stop
    end end end.

(** * Reference definition *)

(** The four strictness levels, strictest first. *)
Inductive level := Exact | Rstrip | Trim | Normalise.

Definition level_norm (lv : level) : str → str :=
  match lv with Exact => id | Rstrip => trim_end | Trim => trim | Normalise => normalise end.

Definition stricter (a b : level) : Prop :=
  match a, b with
  | Exact, (Rstrip | Trim | Normalise) | Rstrip, (Trim | Normalise) | Trim, Normalise => True
  | _, _ => False
  end.

(** The window of [lines] at [i] equals [pattern] up to the level's normalisation. *)
Definition matches_at (lv : level) (lines pattern : list str) (i : nat) : Prop :=
  i + length pattern ≤ length lines ∧
  level_norm lv <$> take (length pattern) (drop i lines) = level_norm lv <$> pattern.

Definition search_start (lines pattern : list str) (start : nat) (eof : bool) : nat :=
  if eof then (length lines - length pattern) `max` start else start.

(** * Lemmas *)

Lemma scan_spec p i n r :
  scan p i n = r →
  match r with
  | Some j => i ≤ j < i + n ∧ p j = true ∧ ∀ k, i ≤ k < j → p k = false
  | None => ∀ k, i ≤ k < i + n → p k = false
  end.
Proof.
  intros <-. revert i. induction n as [|n IH]; intros i; simpl; [lia|].
  destruct (p i) eqn:E; [repeat split; try lia; done|].
  specialize (IH (S i)). destruct (scan p (S i) n) as [j|].
  - destruct IH as (H1 & H2 & H3). split_and!; [lia|lia|done|].
    intros k Hk. destruct (decide (k = i)) as [->|]; [done|]. apply H3. lia.
  - intros k Hk. destruct (decide (k = i)) as [->|]; [done|]. apply IH. lia.
Qed.

Lemma lines_match_spec norm lines i k pattern :
  i + k + length pattern ≤ length lines →
  lines_match norm lines i k pattern = true ↔
  norm <$> take (length pattern) (drop (i + k) lines) = norm <$> pattern.
Proof.
  revert k. induction pattern as [|pat pattern IH]; intros k Hlen; [done|].
  simpl in *. destruct (lookup_lt_is_Some_2 lines (i + k)) as [l Hl]; [lia|].
  rewrite Hl, (drop_S _ _ _ Hl). simpl.
  case_bool_decide as Heq.
  - rewrite IH by lia. replace (i + S k) with (S (i + k)) by lia.
    rewrite Heq. split; [intros H; by f_equal|by intros [= H]].
  - split; [done|]. intros [= ??]. done.
Qed.

(** The lookups [lines[i + p_idx]] of the lenient passes never go out of bounds. *)
Lemma line_index_in_bounds (lines pattern : list str) i p_idx :
  i ≤ length lines - length pattern → length pattern ≤ length lines →
  p_idx < length pattern → i + p_idx < length lines.
Proof. lia. Qed.

(** One pass of the search, at level [lv]. *)
Definition pass (lv : level) (lines pattern : list str) (i : nat) : bool :=
  match lv with
  | Exact => take (length pattern) (drop i lines) =s pattern
  | Rstrip => lines_match trim_end lines i 0 pattern
  | Trim => lines_match trim lines i 0 pattern
  | Normalise => lines_match normalise lines i 0 pattern
  end.

Lemma pass_spec lv lines pattern i :
  i + length pattern ≤ length lines →
  pass lv lines pattern i = true ↔ matches_at lv lines pattern i.
Proof.
  intros Hlen. unfold matches_at.
  destruct lv; simpl; [|rewrite lines_match_spec, Nat.add_0_r by lia; naive_solver..].
  rewrite bool_decide_eq_true, !list_fmap_id. naive_solver.
Qed.

(** Outcome of one pass over the window. *)
Lemma pass_scan_spec lv (lines pattern : list str) start :
  length pattern ≤ length lines →
  match scan_inclusive (pass lv lines pattern) start (length lines - length pattern) with
  | Some i => start ≤ i ∧ matches_at lv lines pattern i ∧
              ∀ j, start ≤ j < i → ¬ matches_at lv lines pattern j
  | None => ∀ j, start ≤ j → ¬ matches_at lv lines pattern j
  end.
Proof.
  intros Hlen. unfold scan_inclusive.
  pose proof (scan_spec (pass lv lines pattern) start
                (S (length lines - length pattern) - start) _ eq_refl) as H.
  destruct (scan _ _ _) as [i|].
  - destruct H as (H1 & H2 & H3). rewrite pass_spec in H2 by lia.
    split_and!; [lia|done|]. intros j Hj Hm. specialize (H3 j Hj).
    rewrite <- pass_spec in Hm; [congruence|]. lia.
  - intros j Hj Hm. pose proof Hm as [Hb _]. rewrite <- pass_spec in Hm by done.
    rewrite H in Hm; [done|lia].
Qed.

Lemma seek_sequence_unfold lines pattern start eof :
  pattern ≠ [] → length pattern ≤ length lines →
  seek_sequence lines pattern start eof =
    let scan lv := scan_inclusive (pass lv lines pattern)
                     (search_start lines pattern start eof) (length lines - length pattern) in
    match scan Exact with Some i => Some i | None =>
    match scan Rstrip with Some i => Some i | None =>
    match scan Trim with Some i => Some i | None => scan Normalise end end end.
Proof.
  intros Hne Hlen. unfold seek_sequence, search_start.
  rewrite bool_decide_eq_false_2 by done.
  rewrite (proj2 (Nat.ltb_ge _ _)) by lia.
  rewrite (proj2 (Nat.leb_le _ _)) by lia. by destruct eof.
Qed.

(** The trims commute, so [trim] depends only on [trim_end] of its argument. *)
Lemma trim_end_drop_while s :
  trim_end (drop_while is_whitespace s) = drop_while is_whitespace (trim_end s).
Proof.
  unfold trim_end. induction s as [|c s IH]; [done|].
  destruct (is_whitespace c) eqn:E.
  - simpl drop_while at 1. rewrite E, IH. simpl.
    destruct (trim_end_by is_whitespace s) as [|d t]; simpl; by rewrite ?E.
  - simpl drop_while at 1. rewrite E, trim_end_by_cons by done. simpl. by rewrite E.
Qed.

Lemma trim_of_trim_end s : trim s = trim_start (trim_end s).
Proof. apply trim_end_drop_while. Qed.

Lemma level_nested a b s t :
  stricter a b → level_norm a s = level_norm a t → level_norm b s = level_norm b t.
Proof.
  assert (Hrt : trim_end s = trim_end t → trim s = trim t) by (rewrite !trim_of_trim_end; congruence).
  assert (Htn : trim s = trim t → normalise s = normalise t) by (unfold normalise; congruence).
  destruct a, b; simpl; try done; unfold id; naive_solver.
Qed.

Lemma matches_at_nested a b lines pattern i :
  stricter a b → matches_at a lines pattern i → matches_at b lines pattern i.
Proof.
  intros Hab [Hlen Heq]. split; [done|].
  apply list_eq. intros k. apply (f_equal (.!! k)) in Heq. rewrite !list_lookup_fmap in *.
  destruct (take (length pattern) (drop i lines) !! k), (pattern !! k); simplify_eq/=; [|done].
  f_equal. by eapply level_nested.
Qed.

(** * Results *)

(** The pass at [lv] answered and the stricter ones did not. *)
Local Ltac found H lv :=
  let a := fresh in let b := fresh in let c := fresh in
  destruct H as (a & b & c); exists lv;
  split; [exact a|split; [exact b|split; [exact c|intros [] ?; simpl; naive_solver]]].

(** The search by its reference definition: which index is returned, and when
    none is. *)
Lemma seek_sequence_characterised lines pattern start eof :
  pattern ≠ [] →
  let s0 := search_start lines pattern start eof in
  match seek_sequence lines pattern start eof with
  | Some i => ∃ lv, s0 ≤ i ∧ matches_at lv lines pattern i ∧
                    (∀ j, s0 ≤ j < i → ¬ matches_at lv lines pattern j) ∧
                    (∀ lv' j, stricter lv' lv → s0 ≤ j → ¬ matches_at lv' lines pattern j)
  | None => ∀ lv j, s0 ≤ j → ¬ matches_at lv lines pattern j
  end.
Proof.
  intros Hne s0. destruct (decide (length pattern ≤ length lines)) as [Hlen|Hlen].
  - rewrite seek_sequence_unfold by done. cbv beta zeta. fold s0.
    pose proof (pass_scan_spec Exact lines pattern s0 Hlen) as HE.
    destruct (scan_inclusive (pass Exact _ _) _ _) as [i|].
    { found HE Exact. }
    pose proof (pass_scan_spec Rstrip lines pattern s0 Hlen) as HR.
    destruct (scan_inclusive (pass Rstrip _ _) _ _) as [i|].
    { found HR Rstrip. }
    pose proof (pass_scan_spec Trim lines pattern s0 Hlen) as HT.
    destruct (scan_inclusive (pass Trim _ _) _ _) as [i|].
    { found HT Trim. }
    pose proof (pass_scan_spec Normalise lines pattern s0 Hlen) as HN.
    destruct (scan_inclusive (pass Normalise _ _) _ _) as [i|].
    { found HN Normalise. }
    intros []; naive_solver.
  - unfold seek_sequence. rewrite bool_decide_eq_false_2 by done.
    rewrite (proj2 (Nat.ltb_lt _ _)) by lia. intros lv j _ [? _]. lia.
Qed.

Lemma seek_sequence_range lines pattern start eof i :
  seek_sequence lines pattern start eof = Some i → start ≤ length lines →
  start ≤ i ∧ i + length pattern ≤ length lines.
Proof.
  intros H Hs. destruct (decide (pattern = [])) as [->|Hne].
  - unfold seek_sequence in H. simpl in *. simplify_eq. lia.
  - pose proof (seek_sequence_characterised lines pattern start eof Hne) as HC.
    rewrite H in HC. destruct HC as (lv & H1 & [H2 _] & _).
    unfold search_start in H1. destruct eof; lia.
Qed.

(** for a non-empty pattern, [seek_sequence] returns the first position at or
    after the search start where the pattern matches at the strictest level that
    matches anywhere; it returns nothing only when no level matches anywhere. *)
Theorem seek_sequence_spec lines pattern start eof :
  pattern ≠ [] →
  let s0 := search_start lines pattern start eof in
  match seek_sequence lines pattern start eof with
  | Some i => ∃ lv, s0 ≤ i ∧ matches_at lv lines pattern i ∧
                    (∀ j, s0 ≤ j < i → ¬ matches_at lv lines pattern j) ∧
                    (∀ lv' j, stricter lv' lv → s0 ≤ j → ¬ matches_at lv' lines pattern j)
  | None => ∀ lv j, s0 ≤ j → ¬ matches_at lv lines pattern j
  end.
Proof. apply seek_sequence_characterised. Qed.

Lemma seek_sequence_spec_witness :
  let ls := [lit "  a"; lit "b"; lit "a "; lit "b"] in
  seek_sequence ls [lit "a"; lit "b"] 0 false = Some 2 ∧
  ∃ lv, 0 ≤ 2 ∧ matches_at lv ls [lit "a"; lit "b"] 2 ∧
        (∀ j, 0 ≤ j < 2 → ¬ matches_at lv ls [lit "a"; lit "b"] j) ∧
        (∀ lv' j, stricter lv' lv → 0 ≤ j → ¬ matches_at lv' ls [lit "a"; lit "b"] j).
Proof.
  split; [reflexivity|].
  exact (seek_sequence_spec [lit "  a"; lit "b"; lit "a "; lit "b"] [lit "a"; lit "b"] 0 false
           ltac:(discriminate)).
Defined.

(** a search with [eof] never falls back to an earlier position: whatever it
    finds starts exactly [pattern.len()] lines before the end of the file. *)
Theorem seek_sequence_eof_anchored lines pattern start i :
  pattern ≠ [] → seek_sequence lines pattern start true = Some i →
  i = length lines - length pattern.
Proof.
  intros Hne H. pose proof (seek_sequence_characterised lines pattern start true Hne) as HC.
  rewrite H in HC. destruct HC as (lv & H1 & [H2 _] & _). simpl in H1. lia.
Qed.

Lemma seek_sequence_eof_anchored_witness :
  let ls := [lit "x"; lit "y"; lit "x"] in
  seek_sequence ls [lit "y"] 0 true = None ∧ 2 = length ls - length [lit "x"].
Proof.
  split; [reflexivity|].
  apply (seek_sequence_eof_anchored [lit "x"; lit "y"; lit "x"] [lit "x"] 0 2);
    [discriminate|reflexivity].
Defined.
