(* ===== verification/TextFile.v ===== *)
(** apply-patch/src/text_file.rs: a file as lines that keep their own endings.

    Reference definitions: [render] is the text of a line list and
    [splice_all] applies the replacements one by one from the last to the
    first, so that no replacement moves the lines another one counts from. *)
From S2P Require Import Prelude Str.

(** * The code *)

(** [(start_index, old_len, new_lines)] *)
Abbreviation Replacement := (nat * nat * list str)%type.

Inductive LineEnding := Lf | CrLf | Cr.

Definition as_str (e : LineEnding) : str :=
  match e with Lf => [LF] | CrLf => [CR; LF] | Cr => [CR] end.

Record SourceLine := mkSourceLine { text : str; ending : option LineEnding }.

Record SourceFile := mkSourceFile { sf_lines : list SourceLine; preferred_ending : LineEnding }.

(** [Option::get_or_insert] *)
Definition get_or_insert {A} (o : option A) (a : A) : option A :=
  match o with Some x => Some x | None => Some a end.

(** The [while cursor < contents.len()] loop and the push of the unterminated
    last line: [rest] is the contents from [cursor] on, [cur] the text from
    [line_start] to [cursor]. *)
Fixpoint parse_loop (rest cur : str) (lines : list SourceLine) (pref : option LineEnding)
    : list SourceLine * option LineEnding :=
  match rest with
  | [] => (if bool_decide (cur = []) then lines else lines ++ [mkSourceLine cur None], pref)
  | c :: rest1 =>
      if N.eqb c CR then
        match rest1 with
        | d :: rest2 =>
            if N.eqb d LF
            then parse_loop rest2 [] (lines ++ [mkSourceLine cur (Some CrLf)]) (get_or_insert pref CrLf)
            else parse_loop rest1 [] (lines ++ [mkSourceLine cur (Some Cr)]) (get_or_insert pref Cr)
        | [] => parse_loop rest1 [] (lines ++ [mkSourceLine cur (Some Cr)]) (get_or_insert pref Cr)
        end
      else if N.eqb c LF
      then parse_loop rest1 [] (lines ++ [mkSourceLine cur (Some Lf)]) (get_or_insert pref Lf)
      else parse_loop rest1 (cur ++ [c]) lines pref
  end.

Definition source_parse (contents : str) : SourceFile :=
  let '(lines, pref) := parse_loop contents [] [] None in
  mkSourceFile lines (default Lf pref).

Definition line_texts (f : SourceFile) : list str := text <$> sf_lines f.

(** The loop over the replacements.  [source] is the iterator over the lines
    not yet consumed; [None] is the panic of [*start_idx - source_index] when a
    replacement starts before the end of the one before it. *)
Fixpoint replace_loop (pref : LineEnding) (source : list SourceLine) (source_index : nat)
    (new_lines : list SourceLine) (replacements : list Replacement) : option (list SourceLine) :=
  match replacements with
  | [] => Some (new_lines ++ source)
  | (start_idx, old_len, new_segment) :: replacements =>
      if start_idx <? source_index then None
      else
        let kept := take (start_idx - source_index) source in
        let source := drop old_len (drop (start_idx - source_index) source) in
        let inserted := (λ t, mkSourceLine t (Some pref)) <$> new_segment in
        replace_loop pref source (start_idx + old_len) (new_lines ++ kept ++ inserted) replacements
  end.

Definition fill_ending (pref : LineEnding) (l : SourceLine) : SourceLine :=
  mkSourceLine (text l) (get_or_insert (ending l) pref).

Definition apply_replacements (f : SourceFile) (replacements : list Replacement) : option SourceFile :=
  match replace_loop (preferred_ending f) (sf_lines f) 0 [] replacements with
  | Some new_lines =>
      Some (mkSourceFile (fill_ending (preferred_ending f) <$> new_lines) (preferred_ending f))
  | None => None
  end.

Definition line_contents (l : SourceLine) : str :=
  text l ++ match ending l with Some e => as_str e | None => [] end.

Definition into_contents (f : SourceFile) : str := mjoin (line_contents <$> sf_lines f).

(** * Reference definitions *)

Definition splice {A} (s n : nat) (seg : list A) (l : list A) : list A :=
  take s l ++ seg ++ drop (s + n) l.

(** Each replacement as a splice of its own, the last one first. *)
Definition splice_all {A} (f : str → A) (l : list A) (reps : list Replacement) : list A :=
  foldr (λ '(s, n, seg) acc, splice s n (f <$> seg) acc) l reps.

(** In source order from index [k] on, not overlapping, within [len] lines. *)
Fixpoint disjoint_from (k len : nat) (reps : list Replacement) : Prop :=
  match reps with
  | [] => k ≤ len
  | (s, n, _) :: reps => k ≤ s ∧ disjoint_from (s + n) len reps
  end.

(** A line without line breaks in its text. *)
Definition no_break (t : str) : Prop := (LF ∉ t) ∧ (CR ∉ t).
Definition line_text_ok (l : SourceLine) : Prop := no_break (text l).

(** * Parsing and rendering *)

Definition render (ls : list SourceLine) : str := mjoin (line_contents <$> ls).

Lemma render_app l1 l2 : render (l1 ++ l2) = render l1 ++ render l2.
Proof. unfold render. by rewrite fmap_app, mjoin_app. Qed.

Lemma render_snoc ls t e :
  render (ls ++ [mkSourceLine t e]) = render ls ++ t ++ match e with Some e => as_str e | None => [] end.
Proof. rewrite render_app. unfold render at 2. simpl. by rewrite app_nil_r. Qed.

Lemma parse_loop_render rest cur lines pref :
  render (fst (parse_loop rest cur lines pref)) = render lines ++ cur ++ rest.
Proof.
  assert (H : ∀ n rest cur lines pref, length rest ≤ n →
    render (fst (parse_loop rest cur lines pref)) = render lines ++ cur ++ rest).
  2:{ by eapply H. }
  clear. induction n as [|n IH]; intros rest cur lines pref Hn.
  all: destruct rest as [|c rest]; simpl in *; try lia.
  all: try (case_bool_decide; subst; simpl; [by rewrite !app_nil_r|by rewrite render_snoc]; fail).
  destruct (N.eqb_spec c CR) as [->|].
  - destruct rest as [|d rest].
    + simpl. by rewrite render_snoc.
    + destruct (N.eqb_spec d LF) as [->|];
        (rewrite IH by (simpl in *; lia)); rewrite render_snoc, <- !(assoc_L (++)); done.
  - destruct (N.eqb_spec c LF) as [->|]; (rewrite IH by lia).
    + rewrite render_snoc, <- !(assoc_L (++)). done.
    + by rewrite <- !(assoc_L (++)).
Qed.

Lemma parse_loop_texts rest cur lines pref :
  no_break cur → Forall line_text_ok lines →
  Forall line_text_ok (fst (parse_loop rest cur lines pref)).
Proof.
  assert (Hsnoc : ∀ ls c e, no_break c → Forall line_text_ok ls →
            Forall line_text_ok (ls ++ [mkSourceLine c e])).
  { intros ls c e Hc Hls. apply Forall_app. split; [done|]. by apply Forall_singleton. }
  assert (Hnil : no_break []) by (split; apply not_elem_of_nil).
  assert (H : ∀ n rest cur lines pref, length rest ≤ n → no_break cur →
    Forall line_text_ok lines → Forall line_text_ok (fst (parse_loop rest cur lines pref))).
  2:{ by eapply H. }
  clear -Hsnoc Hnil. induction n as [|n IH]; intros rest cur lines pref Hn Hc Hl.
  all: destruct rest as [|c rest]; simpl in *; try lia.
  all: try (case_bool_decide; auto; fail).
  destruct (N.eqb_spec c CR) as [->|].
  - destruct rest as [|d rest]; [simpl; auto|].
    destruct (N.eqb_spec d LF); apply IH; simpl in *; auto; lia.
  - destruct (N.eqb_spec c LF) as [->|]; apply IH; auto; try lia.
    unfold no_break in *. rewrite !not_elem_of_app, !list_elem_of_singleton. naive_solver.
Qed.

Lemma source_parse_render contents : into_contents (source_parse contents) = contents.
Proof.
  unfold source_parse. pose proof (parse_loop_render contents [] [] None) as H.
  destruct (parse_loop _ _ _ _). exact H.
Qed.

(** * Replacements *)

Section Splice.
Context {A : Type} (f : str → A).

Lemma disjoint_from_le k len reps : disjoint_from k len reps → k ≤ len.
Proof. revert k. induction reps as [|[[s n] seg] reps IH]; intros k; simpl; [done|].
  intros [? H]. apply IH in H. lia. Qed.

(** Splices at or after [k] leave the first [k] elements alone. *)
Lemma splice_all_take (l : list A) reps k :
  disjoint_from k (length l) reps → take k (splice_all f l reps) = take k l.
Proof.
  revert k. induction reps as [|[[s n] seg] reps IH]; intros k Hd; [done|].
  simpl in *. destruct Hd as [Hk Hd].
  pose proof (disjoint_from_le _ _ _ Hd).
  pose proof (IH _ Hd) as Ht. unfold splice.
  assert (Hs : take s (splice_all f l reps) = take s l).
  { apply (f_equal (take s)) in Ht. rewrite !take_take in Ht.
    by replace (s `min` (s + n)) with s in Ht by lia. }
  rewrite Hs, take_app_le by (rewrite length_take; lia).
  rewrite take_take. by replace (k `min` s) with k by lia.
Qed.
End Splice.

Lemma replace_loop_splice pref (l : list SourceLine) reps k acc :
  disjoint_from k (length l) reps →
  replace_loop pref (drop k l) k acc reps =
  Some (acc ++ drop k (splice_all (λ t, mkSourceLine t (Some pref)) l reps)).
Proof.
  revert k acc. induction reps as [|[[s n] seg] reps IH]; intros k acc Hd; [done|].
  simpl in *. destruct Hd as [Hk Hd]. pose proof (disjoint_from_le _ _ _ Hd).
  rewrite (proj2 (Nat.ltb_ge _ _)) by lia.
  replace (drop n (drop (s - k) (drop k l))) with (drop (s + n) l)
    by (rewrite !drop_drop; f_equal; lia).
  rewrite IH by done. f_equal. rewrite <- !(assoc_L (++)). f_equal.
  unfold splice.
  pose proof (splice_all_take (λ t, mkSourceLine t (Some pref)) _ _ _ Hd) as Ht.
  assert (Hs : take s (splice_all (λ t, mkSourceLine t (Some pref)) l reps) = take s l).
  { apply (f_equal (take s)) in Ht. rewrite !take_take in Ht.
    by replace (s `min` (s + n)) with s in Ht by lia. }
  rewrite Hs, drop_app_le by (rewrite length_take; lia).
  by rewrite drop_take_comm.
Qed.

Lemma apply_replacements_splice (f : SourceFile) reps :
  disjoint_from 0 (length (sf_lines f)) reps →
  apply_replacements f reps =
  Some (mkSourceFile
          (fill_ending (preferred_ending f) <$>
             splice_all (λ t, mkSourceLine t (Some (preferred_ending f))) (sf_lines f) reps)
          (preferred_ending f)).
Proof.
  intros Hd. unfold apply_replacements.
  pose proof (replace_loop_splice (preferred_ending f) (sf_lines f) reps 0 [] Hd) as H.
  rewrite drop_0 in H. by rewrite H, drop_0.
Qed.

Lemma splice_all_fmap {A B} (g : A → B) (f : str → A) l reps :
  g <$> splice_all f l reps = splice_all (g ∘ f) (g <$> l) reps.
Proof.
  induction reps as [|[[s n] seg] reps IH]; [done|]. simpl.
  unfold splice. by rewrite !fmap_app, <- IH, fmap_take, fmap_drop, <- list_fmap_compose.
Qed.

(** The texts after an update depend only on the texts before it. *)
Lemma apply_replacements_texts (f : SourceFile) reps :
  disjoint_from 0 (length (sf_lines f)) reps →
  line_texts <$> apply_replacements f reps = Some (splice_all id (line_texts f) reps).
Proof.
  intros Hd. rewrite apply_replacements_splice by done. simpl. f_equal.
  unfold line_texts. simpl. rewrite <- list_fmap_compose.
  by rewrite (splice_all_fmap (text ∘ fill_ending (preferred_ending f))).
Qed.

(** * Results *)

(** reading a file into lines and writing the lines back gives the same
    contents, whatever mixture of line endings the file has. *)
Theorem source_file_roundtrip contents :
  into_contents (source_parse contents) = contents ∧
  Forall line_text_ok (sf_lines (source_parse contents)).
Proof.
  split; [apply source_parse_render|]. unfold source_parse.
  pose proof (parse_loop_texts contents [] [] None) as H.
  destruct (parse_loop contents [] [] None). apply H; [|constructor].
  split; apply not_elem_of_nil.
Qed.

(** for replacements in source order that do not overlap, the one-pass
    [apply_replacements] is the reference that splices them in one at a time;
    every line it did not replace keeps its own ending, every inserted line gets
    the preferred one. *)
Theorem apply_replacements_refines (f : SourceFile) reps :
  disjoint_from 0 (length (sf_lines f)) reps →
  apply_replacements f reps =
  Some (mkSourceFile
          (fill_ending (preferred_ending f) <$>
             splice_all (λ t, mkSourceLine t (Some (preferred_ending f))) (sf_lines f) reps)
          (preferred_ending f)).
Proof. apply apply_replacements_splice. Qed.

Lemma apply_replacements_refines_witness :
  let f := source_parse (lit "a" ++ [CR; LF] ++ lit "b" ++ [LF] ++ lit "c") in
  into_contents <$> apply_replacements f [(1, 1, [lit "x"; lit "y"])] =
    Some (lit "a" ++ [CR; LF] ++ lit "x" ++ [CR; LF] ++ lit "y" ++ [CR; LF] ++ lit "c" ++ [CR; LF]).
Proof.
  cbv zeta. rewrite apply_replacements_refines; [reflexivity|]. vm_compute. lia.
Defined.
