(* ===== verification/PatchParser.v ===== *)
(** apply-patch/src/parser.rs and streaming_parser.rs: the patch format.

    [StreamingPatchParser] is a state machine fed character by character; a
    method on [&mut self] is a function [stE StreamingPatchParser ParseError].
    [parse_patch] checks the boundary lines, strips a heredoc wrapper and runs
    the machine over the remaining text. *)
From S2P Require Import Prelude Str.

(** * Data *)

Inductive ParseError :=
| InvalidPatchError (message : str)
| InvalidHunkError (message : str) (line_number : nat).

(** [PathBuf]s of the parser are built from text and stay text. *)
Record UpdateFileChunk := mkChunk {
  change_context : option str;
  old_lines : list str;
  new_lines : list str;
  context_line_indices : list (nat * nat);
  is_end_of_file : bool
}.

Definition chunk_default : UpdateFileChunk := mkChunk None [] [] [] false.

Inductive Hunk :=
| AddFile (path contents : str)
| DeleteFile (path : str)
| UpdateFile (path : str) (move_path : option str) (chunks : list UpdateFileChunk).

(** [Hunk::path]: the move destination for renames. *)
Definition hunk_path (h : Hunk) : str :=
  match h with
  | AddFile path _ => path
  | DeleteFile path => path
  | UpdateFile _ (Some path) _ => path
  | UpdateFile path None _ => path
  end.

Definition push_context_line (line : str) (c : UpdateFileChunk) : UpdateFileChunk :=
  mkChunk (change_context c) (old_lines c ++ [line]) (new_lines c ++ [line])
    (context_line_indices c ++ [(length (old_lines c), length (new_lines c))]) (is_end_of_file c).

Definition push_new_line (line : str) (c : UpdateFileChunk) : UpdateFileChunk :=
  mkChunk (change_context c) (old_lines c) (new_lines c ++ [line])
    (context_line_indices c) (is_end_of_file c).

Definition push_old_line (line : str) (c : UpdateFileChunk) : UpdateFileChunk :=
  mkChunk (change_context c) (old_lines c ++ [line]) (new_lines c)
    (context_line_indices c) (is_end_of_file c).

Definition mark_end_of_file (c : UpdateFileChunk) : UpdateFileChunk :=
  mkChunk (change_context c) (old_lines c) (new_lines c) (context_line_indices c) true.

(** * Markers *)

Definition BEGIN_PATCH_MARKER : str := lit "*** Begin Patch".
Definition END_PATCH_MARKER : str := lit "*** End Patch".
Definition ADD_FILE_MARKER : str := lit "*** Add File: ".
Definition DELETE_FILE_MARKER : str := lit "*** Delete File: ".
Definition UPDATE_FILE_MARKER : str := lit "*** Update File: ".
Definition MOVE_TO_MARKER : str := lit "*** Move to: ".
Definition EOF_MARKER : str := lit "*** End of File".
Definition CHANGE_CONTEXT_MARKER : str := lit "@@ ".
Definition EMPTY_CHANGE_CONTEXT_MARKER : str := lit "@@".
Definition ENVIRONMENT_ID_MARKER : str := lit "*** Environment ID:".

(** * Parser state *)

Inductive StreamingParserMode :=
| NotStarted
| StartedPatch
| AddFileMode
| DeleteFileMode
| UpdateFileMode (hunk_line_number : nat)
| EndedPatch.

Record StreamingParserState := mkState {
  mode : StreamingParserMode;
  hunks : list Hunk;
  environment_id : option str
}.

Record StreamingPatchParser := mkParser {
  line_buffer : str;
  state : StreamingParserState;
  line_number : nat
}.

Definition parser_default : StreamingPatchParser :=
  mkParser [] (mkState NotStarted [] None) 0.

Abbreviation parserM := (stE StreamingPatchParser ParseError).

Definition set_mode (m : StreamingParserMode) (p : StreamingPatchParser) : StreamingPatchParser :=
  mkParser (line_buffer p) (mkState m (hunks (state p)) (environment_id (state p))) (line_number p).

Definition set_hunks (hs : list Hunk) (p : StreamingPatchParser) : StreamingPatchParser :=
  mkParser (line_buffer p) (mkState (mode (state p)) hs (environment_id (state p))) (line_number p).

Definition set_environment_id (e : option str) (p : StreamingPatchParser) : StreamingPatchParser :=
  mkParser (line_buffer p) (mkState (mode (state p)) (hunks (state p)) e) (line_number p).

(** [std::mem::take(&mut self.line_buffer)] and [self.line_number += 1] *)
Definition take_line (p : StreamingPatchParser) : StreamingPatchParser :=
  mkParser [] (state p) (S (line_number p)).

Definition push_char (ch : N) (p : StreamingPatchParser) : StreamingPatchParser :=
  mkParser (line_buffer p ++ [ch]) (state p) (line_number p).

(** [chunk.old_lines.is_empty() && chunk.new_lines.is_empty()] *)
Definition chunk_is_empty (c : UpdateFileChunk) : bool :=
  bool_decide (old_lines c = []) && bool_decide (new_lines c = []).

(** [chunks.last().is_some_and(p)] *)
Definition last_is (p : UpdateFileChunk → bool) (chunks : list UpdateFileChunk) : bool :=
  match last chunks with Some c => p c | None => false end.

(** * Error messages *)

Definition first_line_message : str := lit "The first line of the patch must be '*** Begin Patch'".
Definition last_line_message : str := lit "The last line of the patch must be '*** End Patch'".

Definition unexpected_line_message (line : str) : str :=
  lit "Unexpected line found in update hunk: '" ++ line ++
  lit "'. Every line should start with ' ' (context line), '+' (added line), or '-' (removed line)".

Definition expected_context_message (line : str) : str :=
  lit "Expected update hunk to start with a @@ context marker, got: '" ++ line ++ lit "'".

Definition invalid_header_message (line : str) : str :=
  lit "'" ++ line ++
  lit "' is not a valid hunk header. Valid hunk headers: '*** Add File: {path}', '*** Delete File: {path}', '*** Update File: {path}'".

Definition empty_update_message (path : str) : str :=
  lit "Update file hunk for path '" ++ path ++ lit "' is empty".

Definition no_lines_message : str := lit "Update hunk does not contain any lines".

(** * Methods *)

Definition ensure_update_hunk_is_not_empty (line : str) : parserM unit :=
  self <- st_get ;;
  match last (hunks (state self)) with
  | Some (UpdateFile path _ chunks) =>
      match bool_decide (chunks = []), mode (state self) with
      | true, UpdateFileMode hunk_line_number =>
          st_throw (InvalidHunkError (empty_update_message path) hunk_line_number)
      | _, _ =>
          if last_is chunk_is_empty chunks then
            if line =s END_PATCH_MARKER
            then st_throw (InvalidHunkError no_lines_message (line_number self))
            else st_throw (InvalidHunkError (unexpected_line_message line) (line_number self))
          else st_ret tt
      end
  | _ => st_ret tt
  end.

Definition push_hunk (h : Hunk) : parserM unit :=
  st_modify (λ p, set_hunks (hunks (state p) ++ [h]) p).

Definition handle_environment_id (environment_id_text : str) : parserM bool :=
  self <- st_get ;;
  if environment_id (state self) then
    st_throw (InvalidPatchError (lit "apply_patch environment_id cannot be specified more than once"))
  else
    let id := trim environment_id_text in
    if bool_decide (id = []) then
      st_throw (InvalidPatchError (lit "apply_patch environment_id cannot be empty"))
    else
      st_modify (set_environment_id (Some id)) ;;; st_ret true.

Definition handle_headers (trimmed : str) : parserM bool :=
  if trimmed =s END_PATCH_MARKER then
    ensure_update_hunk_is_not_empty trimmed ;;;
    st_modify (set_mode EndedPatch) ;;; st_ret true
  else match strip_prefix ADD_FILE_MARKER trimmed with
  | Some path =>
      ensure_update_hunk_is_not_empty trimmed ;;;
      push_hunk (AddFile path []) ;;;
      st_modify (set_mode AddFileMode) ;;; st_ret true
  | None =>
  match strip_prefix DELETE_FILE_MARKER trimmed with
  | Some path =>
      ensure_update_hunk_is_not_empty trimmed ;;;
      push_hunk (DeleteFile path) ;;;
      st_modify (set_mode DeleteFileMode) ;;; st_ret true
  | None =>
  match strip_prefix UPDATE_FILE_MARKER trimmed with
  | Some path =>
      ensure_update_hunk_is_not_empty trimmed ;;;
      push_hunk (UpdateFile path None []) ;;;
      st_modify (λ p, set_mode (UpdateFileMode (line_number p)) p) ;;; st_ret true
  | None => st_ret false
  end end end.

Definition handle_hunk_headers_and_end_patch (trimmed : str) : parserM bool :=
  self <- st_get ;;
  match mode (state self), strip_prefix ENVIRONMENT_ID_MARKER trimmed with
  | StartedPatch, Some environment_id_text => handle_environment_id environment_id_text
  | _, _ => handle_headers trimmed
  end.

Definition invalid_header (trimmed : str) : parserM unit :=
  self <- st_get ;;
  st_throw (InvalidHunkError (invalid_header_message trimmed) (line_number self)).

(** [if chunks.is_empty() { chunks.push(default) } if let Some(chunk) = chunks.last_mut() { f }] *)
Definition on_last_chunk (f : UpdateFileChunk → UpdateFileChunk) (chunks : list UpdateFileChunk)
    : list UpdateFileChunk :=
  update_last f (if bool_decide (chunks = []) then [chunk_default] else chunks).

(** What a line of an update hunk that is not a header does to the hunk: its
    new move path and chunks, or the message of the error. *)
Definition update_hunk_line (line update_line : str) (move_path : option str)
    (chunks : list UpdateFileChunk) : result str (option str * list UpdateFileChunk) :=
  let is_context := (update_line =s EMPTY_CHANGE_CONTEXT_MARKER)
                    || starts_with CHANGE_CONTEXT_MARKER update_line in
  if last_is is_end_of_file chunks && bool_decide (update_line = []) then Ok (move_path, chunks)
  else if last_is is_end_of_file chunks && negb is_context then Err (expected_context_message line)
  else
  match (if bool_decide (chunks = []) && bool_decide (move_path = None)
         then strip_prefix MOVE_TO_MARKER update_line else None) with
  | Some move_to_path => Ok (Some move_to_path, chunks)
  | None =>
  if is_context && last_is chunk_is_empty chunks then Err (unexpected_line_message line)
  else if update_line =s EMPTY_CHANGE_CONTEXT_MARKER then Ok (move_path, chunks ++ [chunk_default])
  else match strip_prefix CHANGE_CONTEXT_MARKER update_line with
  | Some ctx => Ok (move_path, chunks ++ [mkChunk (Some ctx) [] [] [] false])
  | None =>
  if update_line =s EOF_MARKER then
    if last_is chunk_is_empty chunks then Err no_lines_message
    else Ok (move_path, update_last mark_end_of_file chunks)
  else if bool_decide (line = []) then
    Ok (move_path, on_last_chunk (push_context_line []) chunks)
  else match strip_prefix [32%N] line with
  | Some l => Ok (move_path, on_last_chunk (push_context_line l) chunks)
  | None =>
  match strip_prefix [43%N] line with
  | Some l => Ok (move_path, on_last_chunk (push_new_line l) chunks)
  | None =>
  match strip_prefix [45%N] line with
  | Some l => Ok (move_path, on_last_chunk (push_old_line l) chunks)
  | None =>
  if last_is (λ c, negb (bool_decide (old_lines c = [])) || negb (bool_decide (new_lines c = []))) chunks
  then Err (expected_context_message line)
  else Err (unexpected_line_message line)
  end end end end end.

Definition process_update_line (line : str) (hunk_line_number : nat) : parserM unit :=
  let update_line := trim_end line in
  handled <- handle_hunk_headers_and_end_patch update_line ;;
  if handled : bool then st_ret tt
  else
    self <- st_get ;;
    match last (hunks (state self)) with
    | Some (UpdateFile path move_path chunks) =>
        match update_hunk_line line update_line move_path chunks with
        | Ok (move_path', chunks') =>
            st_modify (λ p, set_mode (UpdateFileMode hunk_line_number)
              (set_hunks (update_last (λ _, UpdateFile path move_path' chunks') (hunks (state p))) p))
        | Err message => st_throw (InvalidHunkError message (line_number self))
        end
    | _ => st_throw (InvalidHunkError (unexpected_line_message line) (line_number self))
    end.

Definition process_add_line (line trimmed : str) : parserM unit :=
  handled <- handle_hunk_headers_and_end_patch trimmed ;;
  if handled : bool then st_ret tt
  else
    self <- st_get ;;
    match strip_prefix [43%N] line, last (hunks (state self)) with
    | Some line_to_add, Some (AddFile path contents) =>
        st_modify (λ p, set_hunks
          (update_last (λ _, AddFile path (contents ++ line_to_add ++ [LF])) (hunks (state p))) p)
    | _, _ => invalid_header trimmed
    end.

Definition process_line (line : str) : parserM unit :=
  let trimmed := trim line in
  self <- st_get ;;
  match mode (state self) with
  | NotStarted =>
      if trimmed =s BEGIN_PATCH_MARKER then st_modify (set_mode StartedPatch)
      else st_throw (InvalidPatchError first_line_message)
  | StartedPatch =>
      handled <- handle_hunk_headers_and_end_patch trimmed ;;
      if handled : bool then st_ret tt else invalid_header trimmed
  | AddFileMode => process_add_line line trimmed
  | DeleteFileMode =>
      handled <- handle_hunk_headers_and_end_patch trimmed ;;
      if handled : bool then st_ret tt else invalid_header trimmed
  | UpdateFileMode hunk_line_number => process_update_line line hunk_line_number
  | EndedPatch =>
      if bool_decide (trimmed = []) then st_ret tt
      else st_throw (InvalidPatchError last_line_message)
  end.

(** The body of [for ch in delta.chars()]. *)
Definition push_ch (ch : N) : parserM unit :=
  if N.eqb ch LF then
    self <- st_get ;;
    let line := line_buffer self in
    let line := default line (strip_suffix [CR] line) in
    st_modify take_line ;;;
    process_line line
  else st_modify (push_char ch).

Definition push_delta (delta : str) : parserM (list Hunk) :=
  st_for delta push_ch ;;;
  self <- st_get ;;
  st_ret (hunks (state self)).

Definition finish : parserM (list Hunk) :=
  self <- st_get ;;
  (if bool_decide (line_buffer self = []) then st_ret tt
   else
     let line := line_buffer self in
     st_modify take_line ;;;
     if trim line =s END_PATCH_MARKER then
       ensure_update_hunk_is_not_empty (trim line) ;;;
       st_modify (set_mode EndedPatch)
     else process_line line) ;;;
  self <- st_get ;;
  match mode (state self) with
  | EndedPatch => st_ret (hunks (state self))
  | _ => st_throw (InvalidPatchError last_line_message)
  end.

(** * Whole patches *)

Record ApplyPatchArgs := mkArgs {
  args_patch : str;
  args_hunks : list Hunk;
  args_workdir : option str;
  args_environment_id : option str
}.

Inductive ParseMode := Strict | Lenient.

Definition check_start_and_end_lines_strict (first_line last_line : option str)
    : result ParseError unit :=
  match trim <$> first_line, trim <$> last_line with
  | Some first, Some last =>
      if (first =s BEGIN_PATCH_MARKER) && (last =s END_PATCH_MARKER) then Ok tt
      else if negb (first =s BEGIN_PATCH_MARKER) then Err (InvalidPatchError first_line_message)
      else Err (InvalidPatchError last_line_message)
  | Some first, None =>
      if negb (first =s BEGIN_PATCH_MARKER) then Err (InvalidPatchError first_line_message)
      else Err (InvalidPatchError last_line_message)
  | _, _ => Err (InvalidPatchError last_line_message)
  end.

Definition check_patch_boundaries_strict (ls : list str) : result ParseError (list str) :=
  let? _ := check_start_and_end_lines_strict (head ls) (last ls) in Ok ls.

Definition heredoc_openers : list str :=
  [lit "<<EOF"; lit "<<'EOF'"; lit "<<" ++ [34%N] ++ lit "EOF" ++ [34%N]].

Definition check_patch_boundaries_lenient (original_lines : list str) : result ParseError (list str) :=
  match check_patch_boundaries_strict original_lines with
  | Ok ls => Ok ls
  | Err original_parse_error =>
      match original_lines with
      | first :: _ :: _ =>
          if bool_decide (first ∈ heredoc_openers)
             && ends_with (lit "EOF") (default [] (last original_lines))
             && (4 <=? length original_lines)
          then check_patch_boundaries_strict (removelast (tail original_lines))
          else Err original_parse_error
      | _ => Err original_parse_error
      end
  end.

Definition parse_patch_text (patch : str) (m : ParseMode) : result ParseError ApplyPatchArgs :=
  let ls := lines (trim patch) in
  let? patch_lines :=
    match m with
    | Strict => check_patch_boundaries_strict ls
    | Lenient => check_patch_boundaries_lenient ls
    end in
  let patch := join [LF] patch_lines in
  let '(p1, r1) := push_delta patch parser_default in
  let? _ := r1 in
  let '(p2, r2) := finish p1 in
  let? hs := r2 in
  Ok (mkArgs patch hs None (environment_id (state p2))).

Definition parse_patch (patch : str) : result ParseError ApplyPatchArgs :=
  parse_patch_text patch Lenient.

(** the parser's state does not depend on how the text was cut into deltas:
    feeding [a ++ b] at once is feeding [a] and then [b], errors included. *)
Theorem push_delta_app a b p :
  push_delta (a ++ b) p = (push_delta a ;;; push_delta b) p.
Proof.
  unfold push_delta, st_bind, st_get, st_ret.
  pose proof (st_for_app a b push_ch p) as H. unfold st_bind in H. rewrite H.
  by destruct (st_for a push_ch p) as [p' [u|e]].
Qed.
