(* ===== verification/PatchInvariant.v ===== *)
(** Invariants of the patch parser: what every hunk it returns looks like.

    A chunk is described by the list of [line_op]s it was built from; the
    invariant [parser_inv] of the streaming parser ties the mode to the hunk
    being read and holds in every reachable state, error states included. *)
From S2P Require Import Prelude Str PatchParser.

(** * Chunks as line operations *)

Inductive line_op := Ctx (l : str) | Add (l : str) | Del (l : str).

Definition olds (ops : list line_op) : list str :=
  omap (λ op, match op with Ctx l | Del l => Some l | Add _ => None end) ops.
Definition news (ops : list line_op) : list str :=
  omap (λ op, match op with Ctx l | Add l => Some l | Del _ => None end) ops.

(** The index pairs of the context lines, counting from [o] and [n]. *)
Fixpoint ctxs (o n : nat) (ops : list line_op) : list (nat * nat) :=
  match ops with
  | [] => []
  | Ctx _ :: ops => (o, n) :: ctxs (S o) (S n) ops
  | Add _ :: ops => ctxs o (S n) ops
  | Del _ :: ops => ctxs (S o) n ops
  end.

(** [c] holds exactly the lines [ops], in order. *)
Definition chunk_built (c : UpdateFileChunk) (ops : list line_op) : Prop :=
  old_lines c = olds ops ∧ new_lines c = news ops ∧ context_line_indices c = ctxs 0 0 ops.

Definition chunk_ok (c : UpdateFileChunk) : Prop := ∃ ops, chunk_built c ops.

Lemma olds_app a b : olds (a ++ b) = olds a ++ olds b.
Proof. apply omap_app. Qed.
Lemma news_app a b : news (a ++ b) = news a ++ news b.
Proof. apply omap_app. Qed.

Lemma ctxs_app o n a b :
  ctxs o n (a ++ b) = ctxs o n a ++ ctxs (o + length (olds a)) (n + length (news a)) b.
Proof.
  revert o n. induction a as [|op a IH]; intros o n; simpl.
  - by rewrite !Nat.add_0_r.
  - destruct op; rewrite IH; unfold olds, news; simpl; rewrite ?Nat.add_succ_r; done.
Qed.

(** One more line: how each parser action extends the operations. *)
Definition apply_op (op : line_op) : UpdateFileChunk → UpdateFileChunk :=
  match op with
  | Ctx l => push_context_line l
  | Add l => push_new_line l
  | Del l => push_old_line l
  end.

Lemma apply_op_built op c ops : chunk_built c ops → chunk_built (apply_op op c) (ops ++ [op]).
Proof.
  intros (Ho & Hn & Hc). unfold chunk_built.
  rewrite olds_app, news_app, ctxs_app, <- Ho, <- Hn, <- Hc.
  destruct op; simpl; rewrite ?app_nil_r; done.
Qed.

Lemma chunk_default_ok ctx : chunk_ok (mkChunk ctx [] [] [] false).
Proof. by exists []. Qed.

Lemma mark_end_of_file_ok c : chunk_ok c → chunk_ok (mark_end_of_file c).
Proof. intros [ops H]. by exists ops. Qed.

Lemma apply_op_ok op c : chunk_ok c → chunk_ok (apply_op op c).
Proof. intros [ops H]. exists (ops ++ [op]). by apply apply_op_built. Qed.

Lemma apply_op_nonempty op c : chunk_is_empty (apply_op op c) = false.
Proof.
  unfold chunk_is_empty. destruct op; simpl.
  all: destruct (old_lines c), (new_lines c); done.
Qed.

#[export] Hint Resolve chunk_default_ok mark_end_of_file_ok apply_op_ok : codex.

(** * Hunks *)

Definition hunk_ok (h : Hunk) : Prop :=
  match h with
  | UpdateFile _ _ chunks => Forall chunk_ok chunks
  | AddFile _ contents => contents = [] ∨ last contents = Some LF
  | DeleteFile _ => True
  end.

(** A hunk that may be left: an update has chunks, and each has lines. *)
Definition hunk_complete (h : Hunk) : Prop :=
  match h with
  | UpdateFile _ _ chunks => chunks ≠ [] ∧ Forall (λ c, chunk_is_empty c = false) chunks
  | _ => True
  end.

Definition open_chunks (chunks : list UpdateFileChunk) : Prop :=
  Forall (λ c, chunk_is_empty c = false) (removelast chunks).

Definition mode_inv (m : StreamingParserMode) (hs : list Hunk) : Prop :=
  match m with
  | NotStarted | StartedPatch => hs = []
  | AddFileMode => ∃ hs' path contents, hs = hs' ++ [AddFile path contents] ∧ Forall hunk_complete hs'
  | DeleteFileMode => ∃ hs' path, hs = hs' ++ [DeleteFile path] ∧ Forall hunk_complete hs'
  | UpdateFileMode _ => ∃ hs' path mv chunks,
      hs = hs' ++ [UpdateFile path mv chunks] ∧ Forall hunk_complete hs' ∧ open_chunks chunks
  | EndedPatch => Forall hunk_complete hs
  end.

Definition state_inv (s : StreamingParserState) : Prop :=
  Forall hunk_ok (hunks s) ∧ mode_inv (mode s) (hunks s).

Definition parser_inv (p : StreamingPatchParser) : Prop := state_inv (state p).

(** * Preservation *)

Lemma open_last_complete chunks :
  open_chunks chunks → last_is chunk_is_empty chunks = false →
  Forall (λ c, chunk_is_empty c = false) chunks.
Proof.
  unfold open_chunks, last_is. destruct (list_snoc_inv chunks) as [->|(cs & c & ->)]; [done|].
  rewrite removelast_snoc, last_snoc. intros. by apply Forall_app, conj, Forall_singleton.
Qed.

(** [ensure_update_hunk_is_not_empty] changes nothing, and when it passes the
    hunk being read may be left. *)
Lemma ensure_spec line p :
  parser_inv p → mode (state p) ≠ NotStarted →
  ∃ r, ensure_update_hunk_is_not_empty line p = (p, r) ∧
       (r = Ok tt → Forall hunk_complete (hunks (state p))).
Proof.
  intros [_ Hm] Hns. unfold ensure_update_hunk_is_not_empty, st_bind, st_get.
  destruct p as [lb [m hs e] ln]; simpl in *. destruct m as [| | | |k|]; simpl in *; [done|..].
  - subst hs. simpl. by eexists.
  - destruct Hm as (hs' & path & c & -> & Hc). rewrite last_snoc. eexists. split; [done|].
    intros _. by apply Forall_app, conj, Forall_singleton.
  - destruct Hm as (hs' & path & -> & Hc). rewrite last_snoc. eexists. split; [done|].
    intros _. by apply Forall_app, conj, Forall_singleton.
  - destruct Hm as (hs' & path & mv & chunks & -> & Hc & Ho). rewrite last_snoc.
    case_bool_decide as Hne; [by eexists|].
    destruct (last_is chunk_is_empty chunks) eqn:El.
    + case_bool_decide; by eexists.
    + eexists. split; [done|]. intros _. apply Forall_app, conj, Forall_singleton; [done|].
      split; [done|]. by apply open_last_complete.
  - destruct (last hs) as [[| |path mv chunks]|]; try by eexists.
    destruct (bool_decide (chunks = [])), (last_is chunk_is_empty chunks); simpl;
      try case_bool_decide; by eexists.
Qed.

(** A new hunk after complete ones. *)
Lemma parser_inv_push h m p :
  parser_inv p → Forall hunk_complete (hunks (state p)) → hunk_ok h →
  mode_inv m (hunks (state p) ++ [h]) →
  parser_inv (set_mode m (set_hunks (hunks (state p) ++ [h]) p)).
Proof.
  intros [Hh _] _ Hok Hm. split; [|done]. simpl.
  by apply Forall_app, conj, Forall_singleton.
Qed.

Lemma handle_headers_spec line p :
  parser_inv p → mode (state p) ≠ NotStarted →
  let '(p', r) := handle_headers line p in
  parser_inv p' ∧ (r = Ok false → p' = p).
Proof.
  intros Hp Hns. destruct (ensure_spec line p Hp Hns) as (r & He & Hr).
  unfold handle_headers, push_hunk, st_modify, st_ret.
  case_bool_decide as Hend; [|destruct (strip_prefix ADD_FILE_MARKER line) as [path|];
    [|destruct (strip_prefix DELETE_FILE_MARKER line) as [path|];
    [|destruct (strip_prefix UPDATE_FILE_MARKER line) as [path|]]]]; [..|done].
  all: unfold st_bind; rewrite He; destruct r as [[]|e]; [|done].
  all: specialize (Hr eq_refl); split; [|done].
  - destruct Hp as [Hh _]. by split.
  - apply (parser_inv_push (AddFile path [])); simpl; eauto.
  - apply (parser_inv_push (DeleteFile path)); simpl; eauto.
  - apply (parser_inv_push (UpdateFile path None [])); simpl; eauto.
    do 4 eexists. split; [done|]. split; [done|]. constructor.
Qed.

Lemma handle_spec line p :
  parser_inv p → mode (state p) ≠ NotStarted →
  let '(p', r) := handle_hunk_headers_and_end_patch line p in
  parser_inv p' ∧ (r = Ok false → p' = p).
Proof.
  intros Hp Hns. unfold handle_hunk_headers_and_end_patch.
  pose proof (handle_headers_spec line p Hp Hns) as HH.
  unfold st_bind at 1, st_get at 1.
  destruct (mode (state p)) eqn:Hm; try exact HH.
  destruct (strip_prefix ENVIRONMENT_ID_MARKER line) as [e|]; [|exact HH].
  unfold handle_environment_id, st_bind, st_get, st_throw, st_modify, st_ret.
  destruct (environment_id (state p)); [done|]. case_bool_decide; [done|].
  split; [|done]. destruct Hp as [Hh Hi]. split; [done|]. simpl. by rewrite Hm in *.
Qed.

(** A line of an update hunk keeps its chunks well formed. *)
Lemma on_last_chunk_ok op chunks :
  Forall chunk_ok chunks → Forall chunk_ok (on_last_chunk (apply_op op) chunks).
Proof.
  intros H. unfold on_last_chunk. apply Forall_update_last; [eauto with codex|].
  case_bool_decide; [|done]. apply Forall_singleton, chunk_default_ok.
Qed.

Lemma removelast_update_last {A} (f : A → A) l : removelast (update_last f l) = removelast l.
Proof.
  destruct (list_snoc_inv l) as [->|(l' & x & ->)]; [done|].
  by rewrite update_last_snoc, !removelast_snoc.
Qed.

Lemma on_last_chunk_open f chunks : open_chunks chunks → open_chunks (on_last_chunk f chunks).
Proof.
  unfold open_chunks, on_last_chunk. rewrite removelast_update_last.
  case_bool_decide; [by subst|done].
Qed.

Lemma new_chunk_open chunks c :
  open_chunks chunks → last_is chunk_is_empty chunks = false → open_chunks (chunks ++ [c]).
Proof. intros. unfold open_chunks. rewrite removelast_snoc. by apply open_last_complete. Qed.

Lemma update_hunk_line_ok line ul mv chunks mv' chunks' :
  update_hunk_line line ul mv chunks = Ok (mv', chunks') →
  Forall chunk_ok chunks → open_chunks chunks → Forall chunk_ok chunks' ∧ open_chunks chunks'.
Proof.
  unfold update_hunk_line. intros H Hok Ho.
  set (ic := (_ || _)) in H.
  destruct (last_is is_end_of_file chunks && bool_decide (ul = [])); [by simplify_eq|].
  destruct (last_is is_end_of_file chunks && negb ic); [done|].
  destruct (if bool_decide (chunks = []) && _ then _ else _) as [m|]; [by simplify_eq|].
  destruct (ic && last_is chunk_is_empty chunks) eqn:Eic; [done|].
  assert (Hnew : ∀ ctx, ic = true →
    Forall chunk_ok (chunks ++ [mkChunk ctx [] [] [] false])
    ∧ open_chunks (chunks ++ [mkChunk ctx [] [] [] false])).
  { intros ctx Hic. rewrite Hic in Eic. split; [|by apply new_chunk_open].
    apply Forall_app, conj, Forall_singleton; auto with codex. }
  destruct (ul =s EMPTY_CHANGE_CONTEXT_MARKER) eqn:E0.
  { simplify_eq. by apply Hnew. }
  destruct (strip_prefix CHANGE_CONTEXT_MARKER ul) as [ctx|] eqn:E1.
  { simplify_eq. apply Hnew. unfold ic, starts_with. by rewrite E1. }
  destruct (ul =s EOF_MARKER).
  { destruct (last_is chunk_is_empty chunks); [done|]. simplify_eq. split.
    - apply Forall_update_last; auto with codex.
    - unfold open_chunks in *. by rewrite removelast_update_last. }
  destruct (bool_decide (line = [])).
  { simplify_eq. split; [by apply (on_last_chunk_ok (Ctx []))|by apply on_last_chunk_open]. }
  destruct (strip_prefix [32%N] line) as [l|].
  { simplify_eq. split; [by apply (on_last_chunk_ok (Ctx l))|by apply on_last_chunk_open]. }
  destruct (strip_prefix [43%N] line) as [l|].
  { simplify_eq. split; [by apply (on_last_chunk_ok (Add l))|by apply on_last_chunk_open]. }
  destruct (strip_prefix [45%N] line) as [l|].
  { simplify_eq. split; [by apply (on_last_chunk_ok (Del l))|by apply on_last_chunk_open]. }
  by case_match.
Qed.

Lemma process_update_line_inv line k p :
  parser_inv p → mode (state p) = UpdateFileMode k →
  parser_inv (fst (process_update_line line k p)).
Proof.
  intros Hp Hk. unfold process_update_line. unfold st_bind at 1.
  pose proof (handle_spec (trim_end line) p Hp ltac:(congruence)) as HH.
  destruct (handle_hunk_headers_and_end_patch (trim_end line) p) as [p' [b|e]]; [|apply HH].
  destruct b; [apply HH|]. destruct HH as [_ Heq]. rewrite (Heq eq_refl). clear p' Heq.
  unfold st_bind, st_get, st_throw, st_modify.
  destruct Hp as [Hh Hm]. rewrite Hk in Hm. simpl in Hm.
  destruct Hm as (hs' & path & mv & chunks & Hhs & Hc & Ho). rewrite Hhs, last_snoc.
  destruct (update_hunk_line line (trim_end line) mv chunks) as [[mv' chunks']|m] eqn:Hu.
  2:{ split; simpl; [done|]. rewrite Hk. simpl. eauto 10. }
  rewrite Hhs in Hh. apply Forall_app in Hh as [Hh1 Hh2]. rewrite Forall_singleton in Hh2.
  destruct (update_hunk_line_ok _ _ _ _ _ _ Hu Hh2 Ho) as [Hok' Ho'].
  simpl. unfold parser_inv, state_inv. simpl. rewrite Hhs, update_last_snoc.
  split; [by apply Forall_app, conj, Forall_singleton|]. eauto 10.
Qed.

Lemma process_add_line_inv line trimmed p :
  parser_inv p → mode (state p) = AddFileMode →
  parser_inv (fst (process_add_line line trimmed p)).
Proof.
  intros Hp Hk. unfold process_add_line, invalid_header. unfold st_bind at 1.
  pose proof (handle_spec trimmed p Hp ltac:(congruence)) as HH.
  destruct (handle_hunk_headers_and_end_patch trimmed p) as [p' [b|e]]; [|apply HH].
  destruct b; [apply HH|]. destruct HH as [_ Heq]. rewrite (Heq eq_refl). clear p' Heq.
  unfold st_bind, st_get, st_throw, st_modify.
  pose proof Hp as [Hh Hm]. rewrite Hk in Hm. simpl in Hm.
  destruct Hm as (hs' & path & contents & Hhs & Hc). rewrite Hhs, last_snoc.
  destruct (strip_prefix [43%N] line) as [l|]; [|done].
  simpl. unfold parser_inv, state_inv. simpl. rewrite Hhs, update_last_snoc, Hk.
  rewrite Hhs in Hh. apply Forall_app in Hh as [Hh1 _].
  split; [|simpl; eauto 10]. apply Forall_app, conj, Forall_singleton; [done|]. right.
  by rewrite (assoc_L (++)), last_snoc.
Qed.

Lemma process_line_inv line p : parser_inv p → parser_inv (fst (process_line line p)).
Proof.
  intros Hp. unfold process_line. unfold st_bind at 1, st_get at 1.
  destruct (mode (state p)) eqn:Hm.
  - case_bool_decide; [|done]. destruct Hp as [Hh Hi]. split; [done|]. by rewrite Hm in Hi.
  - pose proof (handle_spec (trim line) p Hp ltac:(congruence)) as HH. unfold st_bind.
    destruct (handle_hunk_headers_and_end_patch (trim line) p) as [p' [[]|e]]; apply HH.
  - by apply process_add_line_inv.
  - pose proof (handle_spec (trim line) p Hp ltac:(congruence)) as HH. unfold st_bind.
    destruct (handle_hunk_headers_and_end_patch (trim line) p) as [p' [[]|e]]; apply HH.
  - by apply process_update_line_inv.
  - by case_bool_decide.
Qed.

Lemma push_ch_inv ch p : parser_inv p → parser_inv (fst (push_ch ch p)).
Proof.
  intros Hp. unfold push_ch. destruct (N.eqb ch LF); [|done].
  unfold st_bind, st_get, st_modify. by apply process_line_inv.
Qed.

Lemma push_delta_inv delta p : parser_inv p → parser_inv (fst (push_delta delta p)).
Proof.
  intros Hp. pose proof (st_for_inv parser_inv delta push_ch push_ch_inv p Hp) as H.
  unfold push_delta, st_bind. destruct (st_for delta push_ch p) as [p' [u|e]]; exact H.
Qed.

(** What [finish] returns: hunks that are well formed and complete. *)
Lemma finish_inv p p' hs :
  parser_inv p → finish p = (p', Ok hs) → Forall hunk_ok hs ∧ Forall hunk_complete hs.
Proof.
  intros Hp. unfold finish. intros H.
  apply st_bind_inv in H as (p0 & p0' & H0 & H). injection H0 as <- <-.
  apply st_bind_inv in H as (p1 & [] & H1 & H).
  assert (Hp1 : parser_inv p1).
  { destruct (bool_decide (line_buffer p = [])); [by injection H1 as <-|].
    apply st_bind_inv in H1 as (q & [] & Hq & H1). injection Hq as <-.
    destruct (trim (line_buffer p) =s END_PATCH_MARKER).
    - destruct (mode (state p)) eqn:Hm.
      2-6: destruct (ensure_spec (trim (line_buffer p)) (take_line p) Hp ltac:(simpl; congruence))
             as (r & He & Hr); apply st_bind_inv in H1 as (q & u & Hq & H1);
           rewrite He in Hq; injection Hq as <- ->; destruct u; injection H1 as <-;
           (split; [apply Hp|by apply Hr]).
      destruct Hp as [Hh Hi]. rewrite Hm in Hi. simpl in Hi.
      unfold st_bind, ensure_update_hunk_is_not_empty, st_bind, st_get, take_line in H1.
      simpl in H1. rewrite Hi in H1. simpl in H1. injection H1 as <-.
      split; simpl; rewrite Hi; constructor.
    - pose proof (process_line_inv (line_buffer p) (take_line p) Hp) as Hi. by rewrite H1 in Hi. }
  apply st_bind_inv in H as (q & q' & Hq & H). injection Hq as <- <-.
  destruct Hp1 as [Hh Hm]. destruct (mode (state p1)); try done. by injection H as <- <-.
Qed.

Lemma parser_default_inv : parser_inv parser_default.
Proof. split; [constructor|done]. Qed.

Lemma parse_patch_text_hunks patch m args :
  parse_patch_text patch m = Ok args →
  Forall hunk_ok (args_hunks args) ∧ Forall hunk_complete (args_hunks args).
Proof.
  unfold parse_patch_text. destruct (match m with Strict => _ | Lenient => _ end) as [ls|e]; [|done].
  simpl. pose proof (push_delta_inv (join [LF] ls) _ parser_default_inv) as H1.
  destruct (push_delta (join [LF] ls) parser_default) as [p1 [hs1|e]]; [|done]. simpl in *.
  destruct (finish p1) as [p2 [hs|e]] eqn:H2; [|done]. intros [= <-]. simpl.
  by eapply finish_inv.
Qed.

(** * Results *)

(** every hunk of an accepted patch is well formed: each chunk is exactly the
    old lines, new lines and context positions of one sequence of context, added
    and removed lines; an update has at least one chunk and each chunk a line. *)
Theorem parse_patch_hunks_ok patch args :
  parse_patch patch = Ok args →
  Forall hunk_ok (args_hunks args) ∧ Forall hunk_complete (args_hunks args).
Proof. apply parse_patch_text_hunks. Qed.

Definition sample_patch : str :=
  join [LF] [lit "*** Begin Patch"; lit "*** Update File: a.txt"; lit "@@"; lit " x"; lit "-y"; lit "+z";
             lit "*** End Patch"].

Definition sample_args : ApplyPatchArgs :=
  mkArgs sample_patch
    [UpdateFile (lit "a.txt") None [mkChunk None [lit "x"; lit "y"] [lit "x"; lit "z"] [(0, 0)] false]]
    None None.

Lemma parse_patch_hunks_ok_witness :
  parse_patch sample_patch = Ok sample_args ∧
  Forall hunk_ok (args_hunks sample_args) ∧ Forall hunk_complete (args_hunks sample_args).
Proof.
  split; [vm_compute; reflexivity|].
  apply (parse_patch_hunks_ok sample_patch sample_args). vm_compute. reflexivity.
Defined.
