(* ===== verification/FileUpdate.v ===== *)
(** apply-patch/src/file_update.rs: from the chunks of an update hunk to the
    replacements of a file's lines.

    Index arithmetic that would underflow and slices out of range are panics of
    the source and [None] here; [compute_replacements_total] shows that chunks
    built by the parser never cause one, and [compute_replacements_disjoint]
    that what is computed meets the contract of [SourceFile::apply_replacements]. *)
From S2P Require Import Prelude Str SeekSequence TextFile PatchParser PatchInvariant.

(** * The code *)

(** The variants of [ApplyPatchError] an update can produce. *)
Inductive ApplyPatchError :=
| AP_ParseError (e : ParseError)
| AP_IoError (context source : str)
| AP_ComputeReplacements (message : str)
| AP_PathUri (message : str)
| AP_ImplicitInvocation.

(** [new_slice[new_start..new_context]]; [None] when the range is invalid. *)
Definition slice {A} (l : list A) (a b : nat) : option (list A) :=
  if (a <=? b) && (b <=? length l) then Some (take (b - a) (drop a l)) else None.

(** [a - b] on [usize]; [None] is the overflow panic. *)
Definition checked_sub (a b : nat) : option nat := if b <=? a then Some (a - b) else None.

(** The replacement after the loop over [context_line_indices]: what is left of
    the chunk behind its last context line. *)
Definition tail_replacement (start_idx : nat) (pattern new_slice : list str)
    (old_start new_start : nat) (replacements : list Replacement) : option (list Replacement) :=
  if bool_decide (old_start ≠ length pattern) || bool_decide (new_start ≠ length new_slice) then
    old_len ← checked_sub (length pattern) old_start;
    seg ← slice new_slice new_start (length new_slice);
    Some (replacements ++ [(start_idx + old_start, old_len, seg)])
  else Some replacements.

(** The loop over [context_line_indices], [break] included. *)
Fixpoint context_replacements (start_idx : nat) (pattern new_slice : list str)
    (old_start new_start : nat) (indices : list (nat * nat)) (replacements : list Replacement)
    : option (list Replacement) :=
  match indices with
  | [] => tail_replacement start_idx pattern new_slice old_start new_start replacements
  | (old_context, new_context) :: indices =>
      if (length pattern <=? old_context) || (length new_slice <=? new_context)
      then tail_replacement start_idx pattern new_slice old_start new_start replacements
      else if bool_decide (old_start ≠ old_context) || bool_decide (new_start ≠ new_context) then
        old_len ← checked_sub old_context old_start;
        seg ← slice new_slice new_start new_context;
        context_replacements start_idx pattern new_slice (S old_context) (S new_context) indices
          (replacements ++ [(start_idx + old_start, old_len, seg)])
      else
        context_replacements start_idx pattern new_slice (S old_context) (S new_context) indices
          replacements
  end.

Definition missing_context_message (ctx_line path : str) : str :=
  lit "Failed to find context '" ++ ctx_line ++ lit "' in " ++ path.

Definition missing_lines_message (path : str) (old : list str) : str :=
  lit "Failed to find expected lines in " ++ path ++ lit ":" ++ [LF] ++ join [LF] old.

(** [v[..v.len() - 1]] when the last element is an empty string *)
Definition drop_empty_last (l : list str) : list str :=
  match last l with Some [] => removelast l | _ => l end.

(** Locating the old lines of a chunk: the direct search, then the retry
    without a trailing empty line.  Returns the position, the pattern searched
    for and the new lines. *)
Definition locate_chunk (original_lines : list str) (line_index : nat) (chunk : UpdateFileChunk)
    : option nat * list str * list str :=
  let pattern := old_lines chunk in
  let new_slice := new_lines chunk in
  match seek_sequence original_lines pattern line_index (is_end_of_file chunk) with
  | Some i => (Some i, pattern, new_slice)
  | None =>
      if bool_decide (last pattern = Some []) then
        let pattern := removelast pattern in
        let new_slice := drop_empty_last new_slice in
        (seek_sequence original_lines pattern line_index (is_end_of_file chunk), pattern, new_slice)
      else (None, pattern, new_slice)
  end.

(** Moving [line_index] past the chunk's [change_context]. *)
Definition seek_context (original_lines : list str) (path : str) (chunk : UpdateFileChunk)
    (line_index : nat) : result ApplyPatchError nat :=
  match change_context chunk with
  | None => Ok line_index
  | Some ctx_line =>
      match seek_sequence original_lines [ctx_line] line_index false with
      | Some idx => Ok (idx + 1)
      | None => Err (AP_ComputeReplacements (missing_context_message ctx_line path))
      end
  end.

(** The body of [for chunk in chunks], on the state [(replacements, line_index)]. *)
Definition chunk_step (original_lines : list str) (path : str) (chunk : UpdateFileChunk)
    (replacements : list Replacement) (line_index : nat)
    : option (result ApplyPatchError (list Replacement * nat)) :=
  match seek_context original_lines path chunk line_index with
  | Err e => Some (Err e)
  | Ok line_index =>
      if bool_decide (old_lines chunk = []) then
        Some (Ok (replacements ++ [(length original_lines, 0, new_lines chunk)], line_index))
      else
        match locate_chunk original_lines line_index chunk with
        | (Some start_idx, pattern, new_slice) =>
            reps ← context_replacements start_idx pattern new_slice 0 0
                     (context_line_indices chunk) replacements;
            Some (Ok (reps, start_idx + length pattern))
        | (None, _, _) =>
            Some (Err (AP_ComputeReplacements (missing_lines_message path (old_lines chunk))))
        end
  end.

Fixpoint compute_loop (original_lines : list str) (path : str) (chunks : list UpdateFileChunk)
    (replacements : list Replacement) (line_index : nat)
    : option (result ApplyPatchError (list Replacement)) :=
  match chunks with
  | [] => Some (Ok replacements)
  | chunk :: chunks =>
      match chunk_step original_lines path chunk replacements line_index with
      | Some (Ok (replacements, line_index)) =>
          compute_loop original_lines path chunks replacements line_index
      | Some (Err e) => Some (Err e)
      | None => None
      end
  end.

(** [sort_by_key(|(index, _, _)| *index)], a stable sort. *)
Definition rep_start (r : Replacement) : nat := fst (fst r).

Fixpoint insert_by_start (r : Replacement) (l : list Replacement) : list Replacement :=
  match l with
  | [] => [r]
  | x :: l' => if rep_start r <=? rep_start x then r :: l else x :: insert_by_start r l'
  end.

Definition sort_by_start (l : list Replacement) : list Replacement := foldr insert_by_start [] l.

Definition compute_replacements (original_lines : list str) (path : str)
    (chunks : list UpdateFileChunk) : option (result ApplyPatchError (list Replacement)) :=
  match compute_loop original_lines path chunks [] 0 with
  | Some (Ok replacements) => Some (Ok (sort_by_start replacements))
  | other => other
  end.

(** [derive_new_contents_from_chunks] after the file has been read. *)
Definition new_contents_from_chunks (path original_contents : str) (chunks : list UpdateFileChunk)
    : option (result ApplyPatchError str) :=
  let source_file := source_parse original_contents in
  r ← compute_replacements (line_texts source_file) path chunks;
  match r with
  | Err e => Some (Err e)
  | Ok replacements =>
      f ← apply_replacements source_file replacements;
      Some (Ok (into_contents f))
  end.

(** * Context lines *)

(** Index pairs in increasing order from [(o, n)] on. *)
Fixpoint idx_from (o n : nat) (idx : list (nat * nat)) : Prop :=
  match idx with
  | [] => True
  | (i, j) :: idx => o ≤ i ∧ n ≤ j ∧ idx_from (S i) (S j) idx
  end.

Lemma idx_from_weaken o n o' n' idx : o' ≤ o → n' ≤ n → idx_from o n idx → idx_from o' n' idx.
Proof. destruct idx as [|[i j] idx]; simpl; [done|]. intros ?? (? & ? & ?). split_and!; [lia|lia|done]. Qed.

Lemma ctxs_idx_from o n ops : idx_from o n (ctxs o n ops).
Proof.
  revert o n. induction ops as [|[l|l|l] ops IH]; intros o n; simpl; [done|..].
  - split_and!; [lia|lia|apply IH].
  - eapply idx_from_weaken, IH; lia.
  - eapply idx_from_weaken, IH; lia.
Qed.

(** A context pair points at the same line on both sides. *)
Lemma ctxs_lookup o n ops i j :
  (i, j) ∈ ctxs o n ops →
  ∃ l, o ≤ i ∧ n ≤ j ∧ olds ops !! (i - o) = Some l ∧ news ops !! (j - n) = Some l.
Proof.
  revert o n. induction ops as [|op ops IH]; intros o n; simpl; [by rewrite elem_of_nil|].
  assert (Hs : ∀ a b c, S a ≤ c → b = c - S a → c - a = S b) by lia.
  destruct op as [l|l|l]; rewrite ?elem_of_cons; unfold olds, news; simpl; fold (olds ops) (news ops).
  - intros [[= -> ->]|H].
    + exists l. rewrite !Nat.sub_diag. naive_solver lia.
    + destruct (IH _ _ H) as (l' & ? & ? & Ho & Hn). exists l'.
      rewrite (Hs o (i - S o)), (Hs n (j - S n)) by lia. split_and!; try lia; done.
  - intros H. destruct (IH _ _ H) as (l' & ? & ? & Ho & Hn). exists l'.
    rewrite (Hs n (j - S n)) by lia. split_and!; try lia; done.
  - intros H. destruct (IH _ _ H) as (l' & ? & ? & Ho & Hn). exists l'.
    rewrite (Hs o (i - S o)) by lia. split_and!; try lia; done.
Qed.

Lemma checked_sub_ok a b : b ≤ a → checked_sub a b = Some (a - b).
Proof. intros. unfold checked_sub. by rewrite (proj2 (Nat.leb_le _ _)). Qed.

Lemma slice_ok {A} (l : list A) a b : a ≤ b → b ≤ length l → slice l a b = Some (take (b - a) (drop a l)).
Proof. intros. unfold slice. by rewrite !(proj2 (Nat.leb_le _ _)). Qed.

Section ChunkReplacements.
Context (start : nat) (pattern new_slice : list str).
Implicit Types (idx : list (nat * nat)) (l : list str).

(** [l] has the context lines of [idx] where the chunk says they are. *)
Definition context_agrees idx l : Prop :=
  ∀ i j, (i, j) ∈ idx → i < length pattern → j < length new_slice →
         l !! (start + i) = new_slice !! j.

(** What a run from [(o, n)] must have produced: replacements disjoint within
    the matched region, whose splices together are the splice of all of
    [new_slice] on every line list that agrees on the context lines. *)
Definition covers (o n : nat) idx (added : list Replacement) : Prop :=
  disjoint_from (start + o) (start + length pattern) added ∧
  ∀ l, start + length pattern ≤ length l → context_agrees idx l →
       splice_all id l added =
       take (start + o) l ++ drop n new_slice ++ drop (start + length pattern) l.

Lemma tail_replacement_spec o n idx reps :
  o ≤ length pattern → n ≤ length new_slice →
  ∃ added, tail_replacement start pattern new_slice o n reps = Some (reps ++ added)
           ∧ covers o n idx added.
Proof.
  intros Ho Hn. unfold tail_replacement.
  destruct (bool_decide (o ≠ length pattern) || bool_decide (n ≠ length new_slice)) eqn:E.
  - rewrite checked_sub_ok, slice_ok by lia. simpl. eexists. split; [done|]. split; [simpl; lia|].
    intros l Hl _. simpl. unfold splice. rewrite list_fmap_id.
    rewrite (take_ge (drop n new_slice)) by (rewrite length_drop; lia). do 3 f_equal. lia.
  - exists []. rewrite app_nil_r. split; [done|]. bool_facts. split; [simpl; lia|].
    intros l Hl _. simpl. apply dec_stable in H, H0. subst.
    rewrite (drop_ge new_slice) by lia. simpl. by rewrite take_drop.
Qed.

Lemma context_agrees_tail p idx l : context_agrees (p :: idx) l → context_agrees idx l.
Proof. intros H i j Hin. apply H. by right. Qed.

Lemma context_agrees_head i j idx l :
  context_agrees ((i, j) :: idx) l → i < length pattern → j < length new_slice →
  ∃ x, l !! (start + i) = Some x ∧ new_slice !! j = Some x.
Proof.
  intros H Hi Hj. destruct (lookup_lt_is_Some_2 new_slice j Hj) as [x Hx].
  exists x. split; [|done]. rewrite <- Hx. by apply H; [left|..].
Qed.

(** A context line directly after the last one is kept. *)
Lemma covers_keep i j idx added :
  i < length pattern → j < length new_slice →
  covers (S i) (S j) idx added → covers i j ((i, j) :: idx) added.
Proof.
  intros Hi Hj [Hd Hs]. split.
  { destruct added as [|[[s m] seg] added]; simpl in *; [lia|]. split; [lia|apply Hd]. }
  intros l Hlen Hl. rewrite (Hs l Hlen (context_agrees_tail _ _ _ Hl)).
  destruct (context_agrees_head _ _ _ _ Hl Hi Hj) as (x & Hx & Hy).
  replace (start + S i) with (S (start + i)) by lia.
  rewrite (take_S_r _ _ _ Hx), <- (assoc_L (++)). f_equal.
  by rewrite (drop_S _ _ _ Hy).
Qed.

(** A replacement up to the next context line, then that line. *)
Lemma covers_replace o n i j idx added :
  o ≤ i → n ≤ j → i < length pattern → j < length new_slice →
  covers (S i) (S j) idx added →
  covers o n ((i, j) :: idx) ((start + o, i - o, take (j - n) (drop n new_slice)) :: added).
Proof.
  intros Hoi Hnj Hi Hj Hc. apply covers_keep in Hc as [Hd Hs]; [|done..]. split.
  { simpl. split; [lia|]. by replace (start + o + (i - o)) with (start + i) by lia. }
  intros l Hlen Hl. simpl. rewrite (Hs l Hlen Hl). unfold splice. rewrite list_fmap_id.
  rewrite take_app_le, take_take by (rewrite length_take; lia).
  replace ((start + o) `min` (start + i)) with (start + o) by lia. f_equal.
  replace (start + o + (i - o)) with (start + i) by lia.
  rewrite drop_app_exact by (rewrite length_take; lia).
  rewrite (assoc_L (++)). f_equal. replace j with (n + (j - n)) at 2 by lia.
  by rewrite <- drop_drop, take_drop.
Qed.

Lemma context_replacements_spec o n idx reps :
  idx_from o n idx → o ≤ length pattern → n ≤ length new_slice →
  ∃ added, context_replacements start pattern new_slice o n idx reps = Some (reps ++ added)
           ∧ covers o n idx added.
Proof.
  revert o n reps.
  induction idx as [|[i j] idx IH]; intros o n reps Hidx Ho Hn; simpl;
    [by apply tail_replacement_spec|].
  destruct ((length pattern <=? i) || (length new_slice <=? j)) eqn:Eb;
    [by apply tail_replacement_spec|].
  bool_facts. destruct Hidx as (Hoi & Hnj & Hidx).
  destruct (bool_decide (o ≠ i) || bool_decide (n ≠ j)) eqn:E.
  - rewrite checked_sub_ok, slice_ok by lia. simpl.
    edestruct (IH (S i) (S j)) as (added & -> & Hc); [done|lia|lia|].
    rewrite <- (assoc_L (++)). eexists. split; [done|]. by apply covers_replace.
  - bool_facts. apply dec_stable in H1, H2. subst o n.
    edestruct (IH (S i) (S j)) as (added & -> & Hc); [done|lia|lia|].
    exists added. split; [done|]. by apply covers_keep.
Qed.
End ChunkReplacements.

(** * Order of the replacements *)

Definition rep_end (r : Replacement) : nat := rep_start r + snd (fst r).

Definition before (a b : Replacement) : Prop := rep_end a ≤ rep_start b.

Lemma disjoint_from_sorted k len reps :
  disjoint_from k len reps →
  StronglySorted before reps ∧ Forall (λ r, k ≤ rep_start r ∧ rep_end r ≤ len) reps.
Proof.
  revert k. induction reps as [|[[s n] seg] reps IH]; intros k; simpl; [by split; constructor|].
  intros [Hk Hd]. destruct (IH _ Hd) as [Hs Hf]. pose proof (disjoint_from_le _ _ _ Hd).
  split; constructor; try done.
  - eapply Forall_impl; [exact Hf|]. intros r [Hr _]. exact Hr.
  - eapply Forall_impl; [exact Hf|]. intros r [Hr ?]. split; [lia|done].
Qed.

Lemma sorted_disjoint_from k len reps :
  k ≤ len → StronglySorted before reps → Forall (λ r, k ≤ rep_start r ∧ rep_end r ≤ len) reps →
  disjoint_from k len reps.
Proof.
  revert k. induction reps as [|[[s n] seg] reps IH]; intros k Hk Hs Hf; simpl; [done|].
  inv Hs. inv Hf. destruct H3 as [H3a H3b]. unfold rep_end, rep_start in H3a, H3b. simpl in *.
  split; [done|]. apply IH; [done|done|].
  rewrite Forall_forall in *. intros r Hr.
  split; [by apply (H2 r Hr)|by apply (H4 r Hr)].
Qed.

Section Sorting.
Context (len : nat).

(** A replacement that appends behind the last line. *)
Definition appends (r : Replacement) : Prop := rep_start r = len ∧ rep_end r = len.

(** What holds before sorting: a replacement precedes the later ones unless
    it appends. *)
Definition ordered (a b : Replacement) : Prop := before a b ∨ appends a.

Lemma insert_by_start_elem r l x : x ∈ insert_by_start r l ↔ x = r ∨ x ∈ l.
Proof.
  induction l as [|y l IH]; simpl; [by rewrite list_elem_of_singleton, elem_of_nil; naive_solver|].
  destruct (rep_start r <=? rep_start y); rewrite !elem_of_cons, ?IH; naive_solver.
Qed.

Lemma insert_by_start_sorted r l :
  StronglySorted before l → Forall (ordered r) l → rep_end r ≤ len →
  Forall (λ x, rep_end x ≤ len) l → StronglySorted before (insert_by_start r l).
Proof.
  intros Hs Ho Hr Hl. induction l as [|y l IH]; simpl; [by repeat constructor|].
  inv Hs. inv Ho. inv Hl.
  assert (Hpos : ∀ x, rep_start x ≤ rep_end x) by (unfold rep_end; lia).
  destruct (rep_start r <=? rep_start y) eqn:E; bool_facts.
  - constructor; [by constructor|]. apply Forall_cons. split.
    + destruct H3 as [?|[??]]; [done|]. unfold before in *. lia.
    + rewrite Forall_forall in *. intros z Hz. specialize (H2 z Hz). specialize (H4 z Hz).
      unfold before in *. pose proof (Hpos y). destruct H4 as [?|[??]]; [done|]. lia.
  - constructor; [by apply IH|]. apply Forall_forall. intros z [->|Hz]%insert_by_start_elem.
    + unfold before. pose proof (Hpos r). destruct H3 as [H3|[??]]; unfold before in *; lia.
    + by eapply Forall_forall.
Qed.

Lemma sort_by_start_elem l x : x ∈ sort_by_start l ↔ x ∈ l.
Proof.
  induction l as [|y l IH]; simpl; [done|]. fold (sort_by_start l).
  by rewrite insert_by_start_elem, elem_of_cons, IH.
Qed.

Lemma sort_by_start_sorted l :
  StronglySorted ordered l → Forall (λ x, rep_end x ≤ len) l →
  StronglySorted before (sort_by_start l).
Proof.
  induction l as [|y l IH]; simpl; [constructor|]. fold (sort_by_start l).
  intros Hs Hf. inv Hs. inv Hf. apply insert_by_start_sorted; auto.
  all: apply Forall_forall; intros z Hz; rewrite sort_by_start_elem in Hz.
  - by eapply Forall_forall in H2.
  - by eapply Forall_forall in H4.
Qed.

(** The state of the chunk loop at [line_index = li]. *)
Definition loop_inv (reps : list Replacement) (li : nat) : Prop :=
  li ≤ len ∧ StronglySorted ordered reps ∧ Forall (λ r, rep_end r ≤ len) reps
  ∧ Forall (λ r, rep_end r ≤ li ∨ appends r) reps.

Lemma loop_inv_advance reps li li' : loop_inv reps li → li ≤ li' → li' ≤ len → loop_inv reps li'.
Proof.
  intros (? & ? & ? & Hf) ??. split_and!; [done..|].
  eapply Forall_impl; [exact Hf|]. intros r [?|?]; [left; lia|by right].
Qed.

Lemma StronglySorted_app_intro {A} (R : A → A → Prop) l1 l2 :
  StronglySorted R l1 → StronglySorted R l2 → (∀ x y, x ∈ l1 → y ∈ l2 → R x y) →
  StronglySorted R (l1 ++ l2).
Proof.
  induction l1 as [|x l1 IH]; simpl; intros H1 H2 H; [done|]. inv H1. constructor.
  - apply IH; [done..|]. intros a b Ha Hb. apply H; [by right|done].
  - apply Forall_app. split; [done|]. apply Forall_forall. intros y Hy. apply H; [left|done].
Qed.

Lemma loop_inv_append reps li seg : loop_inv reps li → loop_inv (reps ++ [(len, 0, seg)]) li.
Proof.
  assert (Happ : appends (len, 0, seg)) by (split; unfold rep_end, rep_start; simpl; lia).
  intros (? & Hs & Hl & Hf). split; [done|]. split.
  - apply StronglySorted_app_intro; [done|by repeat constructor|].
    intros x y Hx ->%list_elem_of_singleton.
    left. unfold before, rep_start at 1. simpl. by eapply Forall_forall in Hl.
  - split; apply Forall_app, conj, Forall_singleton; try done.
    + destruct Happ. lia.
    + by right.
Qed.

Lemma loop_inv_region reps li s m added :
  loop_inv reps li → li ≤ s → s + m ≤ len → disjoint_from s (s + m) added →
  loop_inv (reps ++ added) (s + m).
Proof.
  intros (? & Hs & Hl & Hf) Hsl Hsm Hd. apply disjoint_from_sorted in Hd as [Hd1 Hd2].
  rewrite Forall_forall in Hl, Hf, Hd2. split; [done|]. split; [|split].
  - apply StronglySorted_app_intro; [done|..].
    + clear -Hd1. induction Hd1; constructor; [done|].
      eapply Forall_impl; [done|]. intros; by left.
    + intros x y Hx Hy. destruct (Hf x Hx) as [?|?]; [|by right].
      left. unfold before. destruct (Hd2 y Hy). lia.
  - apply Forall_forall. intros r [Hr|Hr]%elem_of_app; [by apply Hl|]. destruct (Hd2 r Hr). lia.
  - apply Forall_forall. intros r [Hr|Hr]%elem_of_app.
    + destruct (Hf r Hr); [left; lia|by right].
    + left. by destruct (Hd2 r Hr).
Qed.
End Sorting.

(** * Chunks *)

Lemma removelast_prefix {A} (l : list A) : removelast l `prefix_of` l.
Proof.
  destruct (list_snoc_inv l) as [->|(l' & x & ->)]; [done|].
  rewrite removelast_snoc. by apply prefix_app_r.
Qed.

Lemma drop_empty_last_prefix l : drop_empty_last l `prefix_of` l.
Proof. unfold drop_empty_last. destruct (last l) as [[|]|]; auto using removelast_prefix. Qed.

Lemma locate_chunk_spec ls li chunk s pattern new_slice :
  locate_chunk ls li chunk = (Some s, pattern, new_slice) → li ≤ length ls →
  li ≤ s ∧ s + length pattern ≤ length ls
  ∧ pattern `prefix_of` old_lines chunk ∧ new_slice `prefix_of` new_lines chunk.
Proof.
  unfold locate_chunk. intros H Hli.
  destruct (seek_sequence ls (old_lines chunk) li (is_end_of_file chunk)) as [i|] eqn:E1.
  - simplify_eq. apply seek_sequence_range in E1 as [? ?]; [|done]. done.
  - case_bool_decide; [|done]. injection H as E2 <- <-.
    apply seek_sequence_range in E2 as [? ?]; [|done].
    split_and!; auto using removelast_prefix, drop_empty_last_prefix.
Qed.

Lemma seek_context_range ls path chunk li li' :
  seek_context ls path chunk li = Ok li' → li ≤ length ls → li ≤ li' ≤ length ls.
Proof.
  unfold seek_context. intros H Hli. destruct (change_context chunk); [|by simplify_eq].
  destruct (seek_sequence ls [_] li false) as [idx|] eqn:E; [|done]. simplify_eq.
  apply seek_sequence_range in E as [? ?]; [|done]. simpl in *. lia.
Qed.

(** The context pairs of a parsed chunk agree on the located slices. *)
Lemma chunk_context_lines chunk pattern new_slice i j :
  chunk_ok chunk → pattern `prefix_of` old_lines chunk → new_slice `prefix_of` new_lines chunk →
  (i, j) ∈ context_line_indices chunk → i < length pattern → j < length new_slice →
  pattern !! i = new_slice !! j.
Proof.
  intros (ops & Ho & Hn & Hc) [p' Hp] [n' Hn'] Hin Hi Hj. rewrite Hc in Hin.
  destruct (ctxs_lookup _ _ _ _ _ Hin) as (l & _ & _ & H1 & H2).
  rewrite Nat.sub_0_r, <- Ho, Hp in H1. rewrite Nat.sub_0_r, <- Hn, Hn' in H2.
  rewrite lookup_app_l in H1, H2 by done. congruence.
Qed.

Lemma chunk_replacements chunk start pattern new_slice reps :
  chunk_ok chunk →
  ∃ added,
    context_replacements start pattern new_slice 0 0 (context_line_indices chunk) reps
      = Some (reps ++ added)
    ∧ covers start pattern new_slice 0 0 (context_line_indices chunk) added.
Proof.
  intros (ops & _ & _ & Hc). apply context_replacements_spec; [|lia..].
  rewrite Hc. apply ctxs_idx_from.
Qed.

Lemma chunk_step_spec ls path chunk reps li :
  chunk_ok chunk → loop_inv (length ls) reps li →
  ∃ r, chunk_step ls path chunk reps li = Some r ∧
       ∀ reps' li', r = Ok (reps', li') → loop_inv (length ls) reps' li'.
Proof.
  intros Hok Hinv. unfold chunk_step.
  destruct (seek_context ls path chunk li) as [li1|e] eqn:Hsc; [|by eexists].
  apply seek_context_range in Hsc as [Hl1 Hl2]; [|apply Hinv].
  pose proof (loop_inv_advance _ _ _ _ Hinv Hl1 Hl2) as Hinv1.
  case_bool_decide.
  { eexists. split; [done|]. intros ?? [= <- <-]. by apply loop_inv_append. }
  destruct (locate_chunk ls li1 chunk) as [[[s|] pattern] new_slice] eqn:Hloc; [|by eexists].
  apply locate_chunk_spec in Hloc as (H1 & H2 & _ & _); [|done].
  destruct (chunk_replacements chunk s pattern new_slice reps Hok) as (added & -> & Hd & _). simpl.
  eexists. split; [done|]. intros ?? [= <- <-]. rewrite Nat.add_0_r in Hd.
  by eapply loop_inv_region.
Qed.

Lemma compute_loop_spec ls path chunks reps li :
  Forall chunk_ok chunks → loop_inv (length ls) reps li →
  ∃ r, compute_loop ls path chunks reps li = Some r ∧
       ∀ reps', r = Ok reps' → ∃ li', loop_inv (length ls) reps' li'.
Proof.
  intros Hok. revert reps li. induction Hok as [|chunk chunks Hc _ IH]; intros reps li Hinv; simpl.
  { eexists. split; [done|]. intros ? [= <-]. eauto. }
  destruct (chunk_step_spec ls path chunk reps li Hc Hinv) as (r & -> & Hr).
  destruct r as [[reps' li']|e]; [by eapply IH, Hr|by eexists].
Qed.

(** Chunks of the parser: no panic, and replacements as
    [SourceFile::apply_replacements] requires them. *)
Lemma compute_replacements_spec ls path chunks :
  Forall chunk_ok chunks →
  ∃ r, compute_replacements ls path chunks = Some r ∧
       ∀ reps, r = Ok reps → disjoint_from 0 (length ls) reps.
Proof.
  intros Hok. unfold compute_replacements.
  destruct (compute_loop_spec ls path chunks [] 0 Hok) as (r & -> & Hr).
  { split_and!; [lia|constructor..]. }
  destruct r as [reps|e]; [|by eexists]. destruct (Hr _ eq_refl) as (li & _ & Hs & Hl & _).
  eexists. split; [done|]. intros ? [= <-]. apply sorted_disjoint_from; [lia|..].
  - by eapply sort_by_start_sorted.
  - apply Forall_forall. intros x Hx. rewrite sort_by_start_elem in Hx.
    split; [lia|]. by eapply Forall_forall in Hl.
Qed.

(** * Exact matches *)

(** The chunks are located, in order, at places where their old lines occur
    verbatim; [plan] replaces each such block by the chunk's new lines. *)
Inductive exact_plan (ls : list str) (path : str)
    : nat → list UpdateFileChunk → list Replacement → Prop :=
| exact_nil li : exact_plan ls path li [] []
| exact_cons li li' chunk chunks s pattern new_slice plan :
    seek_context ls path chunk li = Ok li' →
    old_lines chunk ≠ [] →
    locate_chunk ls li' chunk = (Some s, pattern, new_slice) →
    matches_at Exact ls pattern s →
    exact_plan ls path (s + length pattern) chunks plan →
    exact_plan ls path li (chunk :: chunks) ((s, length pattern, new_slice) :: plan).

Lemma splice_all_app {A} (f : str → A) l a b :
  splice_all f l (a ++ b) = splice_all f (splice_all f l b) a.
Proof. unfold splice_all. by rewrite foldr_app. Qed.

Lemma disjoint_from_app k m len a b :
  disjoint_from k m a → disjoint_from m len b → disjoint_from k len (a ++ b).
Proof.
  revert k. induction a as [|[[s n] seg] a IH]; intros k Ha Hb; simpl in *.
  - destruct b as [|[[s n] seg] b]; simpl in *; [lia|]. split; [lia|apply Hb].
  - split; [apply Ha|]. apply IH; [apply Ha|done].
Qed.

Lemma sort_by_start_id l : StronglySorted before l → sort_by_start l = l.
Proof.
  induction 1 as [|r l Hs IH Hf]; [done|]. simpl. fold (sort_by_start l). rewrite IH.
  destruct l as [|x l]; [done|]. simpl. inv Hf.
  rewrite (proj2 (Nat.leb_le _ _)); [done|]. unfold before, rep_end in *. lia.
Qed.

Lemma exact_chunk_splice ls chunk s pattern new_slice added l' :
  chunk_ok chunk → pattern `prefix_of` old_lines chunk → new_slice `prefix_of` new_lines chunk →
  matches_at Exact ls pattern s →
  covers s pattern new_slice 0 0 (context_line_indices chunk) added →
  take (s + length pattern) l' = take (s + length pattern) ls →
  splice_all id l' added = splice s (length pattern) new_slice l'.
Proof.
  intros Hok Hp Hn [Hlen Hm] [_ Hs] Ht. simpl in Hm. rewrite !list_fmap_id in Hm.
  assert (Hlen' : s + length pattern ≤ length l').
  { apply (f_equal length) in Ht. rewrite !length_take in Ht. lia. }
  rewrite (Hs l' Hlen').
  - unfold splice. by rewrite Nat.add_0_r, drop_0.
  - intros i j Hin Hi Hj. rewrite <- (chunk_context_lines chunk pattern new_slice i j) by done.
    rewrite <- Hm. rewrite lookup_take_lt, lookup_drop by done.
    rewrite <- (lookup_take_lt l' (s + length pattern)), Ht, lookup_take_lt by lia. done.
Qed.

Lemma exact_plan_loop ls path chunks li plan reps :
  exact_plan ls path li chunks plan → Forall chunk_ok chunks → li ≤ length ls →
  ∃ added, compute_loop ls path chunks reps li = Some (Ok (reps ++ added))
           ∧ disjoint_from li (length ls) added
           ∧ splice_all id ls added = splice_all id ls plan.
Proof.
  intros Hp. revert reps.
  induction Hp as [li|li li' chunk chunks s pattern new_slice plan Hsc Hne Hloc Hm Hp IH];
    intros reps Hok Hli; simpl.
  { exists []. by rewrite app_nil_r. }
  inv Hok. unfold chunk_step. rewrite Hsc, bool_decide_eq_false_2, Hloc by done.
  apply seek_context_range in Hsc as [??]; [|done].
  apply locate_chunk_spec in Hloc as (Hs1 & Hs2 & Hpre & Hnew); [|done].
  destruct (chunk_replacements chunk s pattern new_slice reps) as (a & -> & Hc); [done|]. simpl.
  destruct (IH (reps ++ a)) as (b & -> & Hd & Hb); [done|lia|].
  exists (a ++ b). rewrite (assoc_L (++)). split; [done|]. split.
  { pose proof (disjoint_from_app _ _ _ _ _ (proj1 Hc) Hd) as Hab.
    destruct (a ++ b) as [|[[x y] z] ab]; simpl in *; [lia|]. split; [lia|apply Hab]. }
  rewrite splice_all_app. simpl. rewrite list_fmap_id, <- Hb.
  apply (exact_chunk_splice ls chunk); try done. by apply splice_all_take.
Qed.

(** * Results *)

(** Chunks of a parsed update never make the update panic. *)
Lemma new_contents_total path contents chunks :
  Forall chunk_ok chunks → ∃ r, new_contents_from_chunks path contents chunks = Some r.
Proof.
  intros Hok. unfold new_contents_from_chunks. cbv zeta.
  destruct (compute_replacements_spec (line_texts (source_parse contents)) path chunks Hok)
    as (r & -> & Hr). simpl.
  destruct r as [reps|e]; [|by eexists]. specialize (Hr _ eq_refl).
  unfold line_texts in Hr. rewrite length_fmap in Hr.
  rewrite apply_replacements_splice by done. by eexists.
Qed.

(** whatever text [parse_patch] accepts, applying an update hunk of it to a
    file of any contents returns new contents or an error: no index
    computation underflows, no slice is out of range, no replacement overlaps. *)
Theorem update_never_panics patch args path mv chunks target contents :
  parse_patch patch = Ok args → UpdateFile path mv chunks ∈ args_hunks args →
  ∃ r, new_contents_from_chunks target contents chunks = Some r.
Proof.
  intros Hp Hin. destruct (parse_patch_text_hunks patch Lenient args Hp) as [Hok _].
  rewrite Forall_forall in Hok. exact (new_contents_total _ _ _ (Hok _ Hin)).
Qed.

Lemma update_never_panics_witness :
  ∃ r, new_contents_from_chunks (lit "a.txt") (lit "x" ++ [LF] ++ lit "y")
         [mkChunk None [lit "x"; lit "y"] [lit "x"; lit "z"] [(0, 0)] false] = Some r.
Proof.
  apply (update_never_panics sample_patch sample_args (lit "a.txt") None).
  - vm_compute. reflexivity.
  - apply list_elem_of_singleton. reflexivity.
Defined.

(** the replacements computed for parsed chunks are sorted, do not overlap
    and stay within the file: the precondition of [apply_replacements]. *)
Theorem compute_replacements_disjoint ls path chunks reps :
  Forall chunk_ok chunks → compute_replacements ls path chunks = Some (Ok reps) →
  disjoint_from 0 (length ls) reps.
Proof.
  intros Hok H. destruct (compute_replacements_spec ls path chunks Hok) as (r & Hr & Hd).
  apply Hd. congruence.
Qed.

Lemma compute_replacements_disjoint_witness :
  disjoint_from 0 2 [(1, 1, [lit "z"])].
Proof.
  apply (compute_replacements_disjoint [lit "x"; lit "y"] (lit "a.txt")
           [mkChunk None [lit "x"; lit "y"] [lit "x"; lit "z"] [(0, 0)] false]).
  - apply Forall_singleton. exists [Ctx (lit "x"); Del (lit "y"); Add (lit "z")]. done.
  - vm_compute. reflexivity.
Defined.

Lemma fill_ending_all pref ls : Forall (λ l, is_Some (ending l)) (fill_ending pref <$> ls).
Proof.
  apply Forall_fmap, Forall_true. intros l. simpl. destruct (ending l); by eexists.
Qed.

(** C32: when every chunk is located at a place where its old lines occur
    verbatim, the update replaces exactly these blocks by the chunks' new lines;
    every line of the result is terminated. *)
Theorem update_replaces_blocks path contents chunks plan :
  let f := source_parse contents in
  Forall chunk_ok chunks → exact_plan (line_texts f) path 0 chunks plan →
  ∃ f', new_contents_from_chunks path contents chunks = Some (Ok (into_contents f'))
        ∧ line_texts f' = splice_all id (line_texts f) plan
        ∧ Forall (λ l, is_Some (ending l)) (sf_lines f').
Proof.
  intros f Hok Hp.
  destruct (exact_plan_loop _ _ _ _ _ [] Hp Hok ltac:(lia)) as (reps & Hl & Hd & Hs).
  unfold new_contents_from_chunks. fold f. cbv zeta. unfold compute_replacements. rewrite Hl.
  simpl. rewrite sort_by_start_id by (by eapply disjoint_from_sorted).
  assert (Hd' : disjoint_from 0 (length (sf_lines f)) reps)
    by (unfold line_texts in Hd; by rewrite length_fmap in Hd).
  pose proof (apply_replacements_texts f reps Hd') as Ht.
  rewrite apply_replacements_splice in * by done. simpl in *. injection Ht as Ht.
  eexists. split; [done|]. rewrite Ht. split; [done|]. apply fill_ending_all.
Qed.

Lemma update_replaces_blocks_witness :
  ∃ f', new_contents_from_chunks (lit "a.txt") (lit "x" ++ [LF] ++ lit "y")
          [mkChunk None [lit "x"; lit "y"] [lit "x"; lit "z"] [(0, 0)] false]
        = Some (Ok (into_contents f'))
        ∧ line_texts f' = [lit "x"; lit "z"] ∧ Forall (λ l, is_Some (ending l)) (sf_lines f').
Proof.
  apply (update_replaces_blocks (lit "a.txt") (lit "x" ++ [LF] ++ lit "y")
           [mkChunk None [lit "x"; lit "y"] [lit "x"; lit "z"] [(0, 0)] false]
           [(0, 2, [lit "x"; lit "z"])]).
  - apply Forall_singleton. exists [Ctx (lit "x"); Del (lit "y"); Add (lit "z")]. done.
  - apply (exact_cons _ _ 0 0 _ _ 0 [lit "x"; lit "y"] [lit "x"; lit "z"]);
      [reflexivity|discriminate|reflexivity| |constructor].
    split; [vm_compute; lia|reflexivity].
Defined.
