(* ===== verification/PatchRoundtrip.v ===== *)
(** Printing a patch and parsing it back.

    [SHunk] is the abstract syntax of the patch grammar documented at the head
    of parser.rs and [patch_text] its concrete text; [parse_patch] recovers the
    hunks from it. *)
From S2P Require Import Prelude Str PatchParser PatchInvariant.

(** * Abstract syntax *)

Record SChunk := mkSChunk { sc_context : option str; sc_ops : list line_op; sc_eof : bool }.

Inductive SHunk :=
| SAdd (path : str) (ls : list str)
| SDelete (path : str)
| SUpdate (path : str) (move_path : option str) (chunks : list SChunk).

Definition chunk_of (sc : SChunk) : UpdateFileChunk :=
  mkChunk (sc_context sc) (olds (sc_ops sc)) (news (sc_ops sc)) (ctxs 0 0 (sc_ops sc)) (sc_eof sc).

Definition hunk_of (h : SHunk) : Hunk :=
  match h with
  | SAdd path ls => AddFile path (mjoin ((λ l, l ++ [LF]) <$> ls))
  | SDelete path => DeleteFile path
  | SUpdate path mv chunks => UpdateFile path mv (chunk_of <$> chunks)
  end.

(** * Concrete syntax *)

Definition op_line (op : line_op) : str :=
  match op with Ctx l => 32%N :: l | Add l => 43%N :: l | Del l => 45%N :: l end.

Definition context_line (ctx : option str) : str :=
  match ctx with None => EMPTY_CHANGE_CONTEXT_MARKER | Some c => CHANGE_CONTEXT_MARKER ++ c end.

Definition chunk_lines (sc : SChunk) : list str :=
  context_line (sc_context sc) :: (op_line <$> sc_ops sc)
  ++ (if sc_eof sc then [EOF_MARKER] else []).

Definition hunk_lines (h : SHunk) : list str :=
  match h with
  | SAdd path ls => (ADD_FILE_MARKER ++ path) :: ((λ l, 43%N :: l) <$> ls)
  | SDelete path => [DELETE_FILE_MARKER ++ path]
  | SUpdate path mv chunks =>
      (UPDATE_FILE_MARKER ++ path)
      :: match mv with Some m => [MOVE_TO_MARKER ++ m] | None => [] end
      ++ mjoin (chunk_lines <$> chunks)
  end.

Definition env_lines (env : option str) : list str :=
  match env with Some id => [ENVIRONMENT_ID_MARKER ++ 32%N :: id] | None => [] end.

Definition body_lines (env : option str) (hs : list SHunk) : list str :=
  BEGIN_PATCH_MARKER :: env_lines env ++ mjoin (hunk_lines <$> hs).

Definition patch_text (env : option str) (hs : list SHunk) : str :=
  join [LF] (body_lines env hs ++ [END_PATCH_MARKER]).

(** * Well-formed syntax *)

(** A line of content: no line feed, and no carriage return that would be taken
    for part of the line ending. *)
Definition line_ok (l : str) : bool :=
  bool_decide (LF ∉ l) && bool_decide (last l ≠ Some CR).

(** A file name, context or environment id: not empty, one line, not ending in
    white space. *)
Definition name_ok (s : str) : bool :=
  bool_decide (LF ∉ s) && match last s with Some c => negb (is_whitespace c) | None => false end.

(** An environment id is trimmed on both sides. *)
Definition env_ok (s : str) : bool := name_ok s && trimmed s.

Definition op_text (op : line_op) : str := match op with Ctx l | Add l | Del l => l end.

Definition opt_ok (p : str → bool) (o : option str) : bool := match o with Some s => p s | None => true end.

Definition schunk_ok (sc : SChunk) : bool :=
  opt_ok name_ok (sc_context sc) && negb (bool_decide (sc_ops sc = []))
  && forallb (λ op, line_ok (op_text op)) (sc_ops sc).

Definition shunk_ok (h : SHunk) : bool :=
  match h with
  | SAdd path ls => name_ok path && forallb line_ok ls
  | SDelete path => name_ok path
  | SUpdate path mv chunks =>
      name_ok path && opt_ok name_ok mv && negb (bool_decide (chunks = [])) && forallb schunk_ok chunks
  end.

(** * Feeding lines *)

(** A complete line, as [push_delta] handles it at the line feed. *)
Definition step_line (l : str) : parserM unit := st_modify take_line ;;; process_line l.

Definition runs (ls : list str) (p p' : StreamingPatchParser) : Prop :=
  st_for ls step_line p = (p', Ok tt).

Lemma runs_app a b p q r : runs a p q → runs b q r → runs (a ++ b) p r.
Proof. unfold runs. intros Ha Hb. rewrite st_for_app. by rewrite (st_bind_ok _ _ _ _ _ Ha). Qed.

Lemma runs_one l p q : process_line l (take_line p) = (q, Ok tt) → runs [l] p q.
Proof. intros H. unfold runs, step_line. simpl. unfold st_bind, st_modify. by rewrite H. Qed.

Lemma runs_cons l ls p q r : process_line l (take_line p) = (q, Ok tt) → runs ls q r → runs (l :: ls) p r.
Proof. intros H1 H2. apply (runs_app [l] ls p q); [by apply runs_one|done]. Qed.

Lemma push_chars l p :
  LF ∉ l → st_for l push_ch p = (mkParser (line_buffer p ++ l) (state p) (line_number p), Ok tt).
Proof.
  revert p. induction l as [|c l IH]; intros p Hl; simpl.
  - destruct p. by rewrite app_nil_r.
  - apply not_elem_of_cons in Hl as [Hc Hl]. unfold push_ch at 1, st_bind, st_modify.
    rewrite (proj2 (N.eqb_neq _ _)) by done. rewrite IH by done. simpl.
    by rewrite <- (assoc_L (++)).
Qed.

Lemma push_line l p :
  line_ok l = true → line_buffer p = [] → st_for (l ++ [LF]) push_ch p = step_line l p.
Proof.
  unfold line_ok. intros Hl Hb. bool_facts. rewrite st_for_app.
  rewrite (st_bind_ok _ _ _ _ _ (push_chars l p H)). rewrite Hb. simpl.
  unfold push_ch, step_line, st_bind, st_get, st_modify. simpl.
  assert (Hs : default l (strip_suffix [CR] l) = l).
  { destruct (list_snoc_inv l) as [->|(l' & c & ->)]; [done|].
    rewrite strip_suffix_snoc. case_decide; [|done]. subst. by rewrite last_snoc in H0. }
  rewrite Hs. unfold take_line. simpl.
  by destruct (process_line l _) as [q [[]|]].
Qed.

(** No method called on a line touches the line buffer. *)
Section Buffer.
Definition keeps_buffer {A} (m : parserM A) : Prop := ∀ p, line_buffer (fst (m p)) = line_buffer p.

Lemma keeps_bind {A B} (m : parserM A) (k : A → parserM B) :
  keeps_buffer m → (∀ a, keeps_buffer (k a)) → keeps_buffer (st_bind m k).
Proof.
  intros Hm Hk p. unfold st_bind. specialize (Hm p). destruct (m p) as [q [a|e]]; simpl in *; [|done].
  by rewrite Hk.
Qed.
Lemma keeps_ret {A} (a : A) : keeps_buffer (st_ret a). Proof. done. Qed.
Lemma keeps_throw {A} e : keeps_buffer (st_throw e : parserM A). Proof. done. Qed.
Lemma keeps_get : keeps_buffer st_get. Proof. done. Qed.
Lemma keeps_modify f : (∀ p, line_buffer (f p) = line_buffer p) → keeps_buffer (st_modify f).
Proof. intros H p. apply H. Qed.
End Buffer.

Ltac keeps :=
  repeat match goal with
  | |- ∀ _, _ => intros ?
  | H : ∀ _, keeps_buffer _ |- keeps_buffer _ => apply H
  | H : keeps_buffer _ |- keeps_buffer _ => apply H
  | |- keeps_buffer (st_bind _ _) => apply keeps_bind
  | |- keeps_buffer (st_modify _) => apply keeps_modify
  | |- keeps_buffer (match _ with _ => _ end) => case_match
  | |- _ => done
  end.

Lemma ensure_keeps l : keeps_buffer (ensure_update_hunk_is_not_empty l).
Proof. unfold ensure_update_hunk_is_not_empty. keeps. Qed.

Lemma handle_keeps l : keeps_buffer (handle_hunk_headers_and_end_patch l).
Proof.
  unfold handle_hunk_headers_and_end_patch, handle_environment_id, handle_headers, push_hunk.
  pose proof (ensure_keeps l). keeps.
Qed.

Lemma process_line_keeps l : keeps_buffer (process_line l).
Proof.
  unfold process_line, process_add_line, process_update_line, invalid_header.
  pose proof handle_keeps. keeps.
Qed.

Lemma push_lines ls p p' :
  forallb line_ok ls = true → line_buffer p = [] → runs ls p p' →
  st_for (mjoin ((λ l, l ++ [LF]) <$> ls)) push_ch p = (p', Ok tt) ∧ line_buffer p' = [].
Proof.
  revert p. induction ls as [|l ls IH]; intros p Hok Hb Hr; simpl in *.
  - by injection Hr as <-.
  - bool_facts. rewrite st_for_app. unfold st_bind at 1. rewrite (push_line l p) by done.
    unfold runs in Hr. simpl in Hr. unfold st_bind at 1 in Hr.
    pose proof (process_line_keeps l (take_line p)) as Hk.
    unfold step_line, st_bind, st_modify in Hr. unfold step_line at 1, st_bind, st_modify.
    destruct (process_line l (take_line p)) as [q [[]|e]]; [|done]. by apply IH.
Qed.

(** * Headers *)

(** The hunk being read may be left. *)
Definition closed (hs : list Hunk) : Prop :=
  match last hs with
  | Some (UpdateFile _ _ chunks) => chunks ≠ [] ∧ last_is chunk_is_empty chunks = false
  | _ => True
  end.

Definition reading (m : StreamingParserMode) : Prop :=
  match m with NotStarted | EndedPatch => False | _ => True end.

Lemma ensure_closed l p :
  closed (hunks (state p)) → ensure_update_hunk_is_not_empty l p = (p, Ok tt).
Proof.
  unfold closed, ensure_update_hunk_is_not_empty, st_bind, st_get.
  destruct (last (hunks (state p))) as [[| |path mv chunks]|]; try done.
  intros [Hne ->]. by rewrite bool_decide_eq_false_2.
Qed.

(** Only the environment marker is treated apart from the other headers. *)
Lemma handle_no_env l p :
  strip_prefix ENVIRONMENT_ID_MARKER l = None ∨ mode (state p) ≠ StartedPatch →
  handle_hunk_headers_and_end_patch l p = handle_headers l p.
Proof.
  unfold handle_hunk_headers_and_end_patch, st_bind, st_get. intros [->|Hm].
  - by destruct (mode (state p)).
  - by destruct (mode (state p)).
Qed.

Lemma process_line_header l p p' :
  reading (mode (state p)) → trimmed l = true → strip_prefix ENVIRONMENT_ID_MARKER l = None →
  handle_headers l p = (p', Ok true) → process_line l p = (p', Ok tt).
Proof.
  intros Hm Ht He Hh. rewrite <- handle_no_env in Hh by auto.
  unfold process_line, process_add_line, process_update_line.
  rewrite (trim_fixpoint l Ht), (trim_end_fixpoint l Ht).
  unfold st_bind, st_get. destruct (mode (state p)); try done; by rewrite Hh.
Qed.

(** A marker followed by a name: the name does not end in white space, so
    neither does the line. *)
Lemma marker_trimmed c m s :
  is_whitespace c = false → name_ok s = true → trimmed ((c :: m) ++ s) = true.
Proof.
  unfold name_ok, trimmed. intros Hc Hs. destruct (last s) as [d|] eqn:E; bool_facts; [|done].
  apply last_Some_snoc in E as [s' ->]. rewrite (assoc_L (++)), last_snoc. simpl. by rewrite Hc, H0.
Qed.

Lemma strip_prefix_app_l a b s : strip_prefix a (a ++ b ++ s) = Some (b ++ s).
Proof. apply strip_prefix_app. Qed.

Section Header.
Context (hs : list Hunk) (e : option str) (m : StreamingParserMode) (ln : nat).
Context (Hm : reading m) (Hc : closed hs).
Let p := mkParser [] (mkState m hs e) ln.

Lemma run_add_header path :
  name_ok path = true →
  process_line (ADD_FILE_MARKER ++ path) p =
    (mkParser [] (mkState AddFileMode (hs ++ [AddFile path []]) e) ln, Ok tt).
Proof.
  intros Hp. apply process_line_header; [done|by apply marker_trimmed|done|].
  unfold handle_headers. rewrite bool_decide_eq_false_2 by done.
  rewrite strip_prefix_app. unfold st_bind. by rewrite (ensure_closed _ p).
Qed.

Lemma run_delete_header path :
  name_ok path = true →
  process_line (DELETE_FILE_MARKER ++ path) p =
    (mkParser [] (mkState DeleteFileMode (hs ++ [DeleteFile path]) e) ln, Ok tt).
Proof.
  intros Hp. apply process_line_header; [done|by apply marker_trimmed|done|].
  unfold handle_headers. rewrite bool_decide_eq_false_2 by done.
  replace (strip_prefix ADD_FILE_MARKER (DELETE_FILE_MARKER ++ path)) with (@None str) by done.
  rewrite strip_prefix_app. unfold st_bind. by rewrite (ensure_closed _ p).
Qed.

Lemma run_update_header path :
  name_ok path = true →
  process_line (UPDATE_FILE_MARKER ++ path) p =
    (mkParser [] (mkState (UpdateFileMode ln) (hs ++ [UpdateFile path None []]) e) ln, Ok tt).
Proof.
  intros Hp. apply process_line_header; [done|by apply marker_trimmed|done|].
  unfold handle_headers. rewrite bool_decide_eq_false_2 by done.
  replace (strip_prefix ADD_FILE_MARKER (UPDATE_FILE_MARKER ++ path)) with (@None str) by done.
  replace (strip_prefix DELETE_FILE_MARKER (UPDATE_FILE_MARKER ++ path)) with (@None str) by done.
  rewrite strip_prefix_app. unfold st_bind. by rewrite (ensure_closed _ p).
Qed.
End Header.

(** * Lines of an update hunk *)

Section Update.
Context (hs : list Hunk) (e : option str) (path : str) (k : nat).
Implicit Types (mv : option str) (chunks : list UpdateFileChunk).

Definition updating mv chunks ln : StreamingPatchParser :=
  mkParser [] (mkState (UpdateFileMode k) (hs ++ [UpdateFile path mv chunks]) e) ln.

(** [l] is not a header for the parser. *)
Definition no_header (l : str) : bool :=
  negb (l =s END_PATCH_MARKER) && negb (starts_with ADD_FILE_MARKER l)
  && negb (starts_with DELETE_FILE_MARKER l) && negb (starts_with UPDATE_FILE_MARKER l).

Lemma no_header_handle l p : no_header l = true → handle_headers l p = (p, Ok false).
Proof.
  unfold no_header, handle_headers, starts_with. intros H.
  destruct (l =s END_PATCH_MARKER); [done|].
  destruct (strip_prefix ADD_FILE_MARKER l); [done|].
  destruct (strip_prefix DELETE_FILE_MARKER l); [done|].
  by destruct (strip_prefix UPDATE_FILE_MARKER l).
Qed.

Lemma run_update_line l mv chunks mv' chunks' ln :
  no_header (trim_end l) = true → update_hunk_line l (trim_end l) mv chunks = Ok (mv', chunks') →
  runs [l] (updating mv chunks ln) (updating mv' chunks' (S ln)).
Proof.
  intros Hn Hu. apply runs_one. unfold process_line, process_update_line, updating, take_line.
  unfold st_bind, st_get. simpl. rewrite handle_no_env by (by right).
  rewrite no_header_handle by done. simpl. rewrite last_snoc, Hu. simpl.
  unfold st_modify, set_mode, set_hunks. simpl. by rewrite update_last_snoc.
Qed.

(** A first character that is not ['*'] rules out every header. *)
Lemma no_header_char c s : c ≠ 42%N → no_header (c :: s) = true.
Proof.
  intros Hc. unfold no_header, starts_with.
  change END_PATCH_MARKER with (42%N :: tail END_PATCH_MARKER).
  change ADD_FILE_MARKER with (42%N :: tail ADD_FILE_MARKER).
  change DELETE_FILE_MARKER with (42%N :: tail DELETE_FILE_MARKER).
  change UPDATE_FILE_MARKER with (42%N :: tail UPDATE_FILE_MARKER).
  cbn [strip_prefix]. rewrite (proj2 (N.eqb_neq 42 c)) by done.
  by rewrite bool_decide_eq_false_2 by congruence.
Qed.

Lemma trim_end_head c s : trim_end (c :: s) = [] ∨ ∃ t, trim_end (c :: s) = c :: t.
Proof.
  unfold trim_end. simpl. destruct (trim_end_by is_whitespace s); [|by eauto].
  destruct (is_whitespace c); eauto.
Qed.

(** Lines starting with a character that is neither ['*'] nor ['@']. *)
Definition plain (ul : str) : Prop := ul = [] ∨ ∃ c t, ul = c :: t ∧ c ≠ 42%N ∧ c ≠ 64%N.

Lemma plain_tests ul :
  plain ul →
  no_header ul = true ∧ (ul =s EMPTY_CHANGE_CONTEXT_MARKER) = false
  ∧ strip_prefix CHANGE_CONTEXT_MARKER ul = None ∧ strip_prefix MOVE_TO_MARKER ul = None
  ∧ (ul =s EOF_MARKER) = false.
Proof.
  intros [->|(c & t & -> & H1 & H2)]; [done|]. split; [by apply no_header_char|].
  change EMPTY_CHANGE_CONTEXT_MARKER with (64%N :: tail EMPTY_CHANGE_CONTEXT_MARKER).
  change CHANGE_CONTEXT_MARKER with (64%N :: tail CHANGE_CONTEXT_MARKER).
  change MOVE_TO_MARKER with (42%N :: tail MOVE_TO_MARKER).
  change EOF_MARKER with (42%N :: tail EOF_MARKER).
  cbn [strip_prefix]. rewrite (proj2 (N.eqb_neq 64 c)), (proj2 (N.eqb_neq 42 c)) by done.
  rewrite !bool_decide_eq_false_2 by congruence. done.
Qed.

Lemma op_line_plain op : plain (trim_end (op_line op)).
Proof.
  assert (H : ∀ c l, c ≠ 42%N → c ≠ 64%N → plain (trim_end (c :: l))).
  { intros c l ??. destruct (trim_end_head c l) as [->|[t ->]]; [by left|]. right. eauto. }
  destruct op; simpl op_line; by apply H.
Qed.

Lemma update_op mv cs c op :
  is_end_of_file c = false →
  update_hunk_line (op_line op) (trim_end (op_line op)) mv (cs ++ [c])
    = Ok (mv, cs ++ [apply_op op c]).
Proof.
  intros He. destruct (plain_tests _ (op_line_plain op)) as (_ & H1 & H2 & _ & H4).
  unfold update_hunk_line, last_is, starts_with. rewrite last_snoc, He, H1, H2, H4.
  rewrite (bool_decide_eq_false_2 (cs ++ [c] = [])) by (by destruct cs). cbn [orb andb].
  unfold on_last_chunk.
  rewrite (bool_decide_eq_false_2 (cs ++ [c] = [])) by (by destruct cs). rewrite !update_last_snoc.
  destruct op; simpl; by rewrite update_last_snoc.
Qed.

Lemma run_ops mv cs c ops ln :
  is_end_of_file c = false →
  runs (op_line <$> ops) (updating mv (cs ++ [c]) ln)
    (updating mv (cs ++ [foldl (flip apply_op) c ops]) (ln + length ops)).
Proof.
  revert c ln. induction ops as [|op ops IH]; intros c ln He; simpl.
  - by rewrite Nat.add_0_r.
  - eapply (runs_app [op_line op]).
    + apply run_update_line; [apply (plain_tests _ (op_line_plain op))|by apply update_op].
    + rewrite <- Nat.add_succ_comm. apply IH. by destruct op.
Qed.

Lemma context_line_trim ctx : opt_ok name_ok ctx = true → trim_end (context_line ctx) = context_line ctx.
Proof.
  destruct ctx as [c|]; intros H; [|done]. apply trim_end_fixpoint. by apply marker_trimmed.
Qed.

Lemma context_no_header ctx : no_header (context_line ctx) = true.
Proof. by destruct ctx; apply no_header_char. Qed.

Lemma update_context mv chunks ctx :
  last_is chunk_is_empty chunks = false →
  update_hunk_line (context_line ctx) (context_line ctx) mv chunks
    = Ok (mv, chunks ++ [mkChunk ctx [] [] [] false]).
Proof.
  intros Hl. unfold update_hunk_line.
  assert (Hne : bool_decide (context_line ctx = []) = false) by (by destruct ctx).
  assert (Hic : (context_line ctx =s EMPTY_CHANGE_CONTEXT_MARKER)
                || starts_with CHANGE_CONTEXT_MARKER (context_line ctx) = true).
  { destruct ctx as [c|]; [|done]. change (context_line (Some c)) with (CHANGE_CONTEXT_MARKER ++ c).
    unfold starts_with. rewrite strip_prefix_app. by rewrite orb_true_r. }
  assert (Hmv : strip_prefix MOVE_TO_MARKER (context_line ctx) = None) by (by destruct ctx).
  rewrite Hne, Hic, Hmv, Hl, !andb_false_r.
  replace (if bool_decide (chunks = []) && bool_decide (mv = None) then None else None)
    with (@None str) by (by destruct (_ && _)).
  cbn [andb]. destruct ctx as [c|]; [|done].
  change (context_line (Some c)) with (CHANGE_CONTEXT_MARKER ++ c).
  rewrite bool_decide_eq_false_2 by done. by rewrite strip_prefix_app.
Qed.

Lemma update_eof mv cs c :
  is_end_of_file c = false → chunk_is_empty c = false →
  update_hunk_line EOF_MARKER EOF_MARKER mv (cs ++ [c]) = Ok (mv, cs ++ [mark_end_of_file c]).
Proof.
  intros He Hc. unfold update_hunk_line, last_is. rewrite last_snoc, He, Hc.
  rewrite (bool_decide_eq_false_2 (cs ++ [c] = [])) by (by destruct cs).
  rewrite update_last_snoc. done.
Qed.

Lemma fold_ops ctx ops :
  foldl (flip apply_op) (mkChunk ctx [] [] [] false) ops = chunk_of (mkSChunk ctx ops false).
Proof.
  induction ops as [|op ops IH] using rev_ind; [done|].
  rewrite foldl_app, IH. simpl. unfold chunk_of. simpl. rewrite olds_app, news_app, ctxs_app.
  by destruct op; unfold olds, news; simpl; rewrite ?app_nil_r.
Qed.

Lemma chunk_of_nonempty sc : schunk_ok sc = true → chunk_is_empty (chunk_of sc) = false.
Proof.
  unfold schunk_ok, chunk_is_empty. intros H. bool_facts.
  destruct sc as [ctx [|[l|l|l] ops] eof]; simpl in *; try done.
  by rewrite andb_false_r.
Qed.

Lemma run_chunk mv chunks sc ln :
  last_is chunk_is_empty chunks = false → schunk_ok sc = true →
  ∃ ln', runs (chunk_lines sc) (updating mv chunks ln) (updating mv (chunks ++ [chunk_of sc]) ln').
Proof.
  intros Hl Hok. pose proof (chunk_of_nonempty sc Hok) as Hne.
  unfold schunk_ok in Hok. bool_facts. destruct sc as [ctx ops eof]. simpl in *.
  exists (if eof then S (S ln + length ops) else S ln + length ops).
  unfold chunk_lines. simpl. eapply (runs_app [context_line ctx]).
  { apply run_update_line; rewrite context_line_trim by done;
      [apply context_no_header|by apply update_context]. }
  eapply runs_app; [by apply run_ops|]. rewrite fold_ops.
  destruct eof; [|done]. apply run_update_line; [done|]. by apply update_eof.
Qed.

Lemma run_chunks mv chunks scs ln :
  last_is chunk_is_empty chunks = false → forallb schunk_ok scs = true →
  ∃ ln', runs (mjoin (chunk_lines <$> scs)) (updating mv chunks ln)
           (updating mv (chunks ++ (chunk_of <$> scs)) ln').
Proof.
  revert chunks ln. induction scs as [|sc scs IH]; intros chunks ln Hl Hok; simpl in *.
  - exists ln. by rewrite app_nil_r.
  - bool_facts. destruct (run_chunk mv chunks sc ln) as [ln1 H1]; [done..|].
    destruct (IH (chunks ++ [chunk_of sc]) ln1) as [ln2 H2]; [|done|].
    { unfold last_is. rewrite last_snoc. by apply chunk_of_nonempty. }
    exists ln2. rewrite <- (assoc_L (++)) in H2. exact (runs_app _ _ _ _ _ H1 H2).
Qed.

Lemma run_move m ln :
  name_ok m = true →
  runs [MOVE_TO_MARKER ++ m] (updating None [] ln) (updating (Some m) [] (S ln)).
Proof.
  intros Hm. assert (Ht : trim_end (MOVE_TO_MARKER ++ m) = MOVE_TO_MARKER ++ m)
    by (apply trim_end_fixpoint; by apply marker_trimmed).
  apply run_update_line; rewrite Ht; [done|].
  unfold update_hunk_line. by rewrite strip_prefix_app.
Qed.
End Update.

(** * Hunks *)

Section Adding.
Context (hs : list Hunk) (e : option str) (path : str).

Definition adding (contents : str) (ln : nat) : StreamingPatchParser :=
  mkParser [] (mkState AddFileMode (hs ++ [AddFile path contents]) e) ln.

Lemma run_add_lines ls contents ln :
  runs ((λ l, 43%N :: l) <$> ls) (adding contents ln)
    (adding (contents ++ mjoin ((λ l, l ++ [LF]) <$> ls)) (ln + length ls)).
Proof.
  revert contents ln. induction ls as [|l ls IH]; intros contents ln; simpl.
  - by rewrite app_nil_r, Nat.add_0_r.
  - eapply (runs_cons _ _ _ (adding (contents ++ l ++ [LF]) (S ln))).
    + unfold process_line, process_add_line, adding, take_line, st_bind, st_get. simpl.
      rewrite handle_no_env by (by right).
      assert (Ht : ∃ t, trim (43%N :: l) = 43%N :: t).
      { unfold trim, trim_start, trim_end. rewrite drop_while_head, trim_end_by_cons by done. eauto. }
      destruct Ht as [t ->]. rewrite no_header_handle by (by apply no_header_char). simpl.
      rewrite last_snoc. unfold st_modify, set_hunks. simpl. by rewrite update_last_snoc.
    + rewrite <- Nat.add_succ_comm. rewrite !(assoc_L (++)).
      rewrite <- (assoc_L (++) contents l [LF]) at 1. rewrite <- (assoc_L (++) contents l [LF]).
      apply IH.
Qed.
End Adding.

Lemma run_hunk h m hs e ln :
  reading m → closed hs → shunk_ok h = true →
  ∃ m' ln', runs (hunk_lines h) (mkParser [] (mkState m hs e) ln)
              (mkParser [] (mkState m' (hs ++ [hunk_of h]) e) ln')
            ∧ reading m' ∧ closed (hs ++ [hunk_of h]).
Proof.
  intros Hm Hc Hok. unfold closed. rewrite last_snoc.
  destruct h as [path ls|path|path mv scs]; simpl in Hok; bool_facts.
  - exists AddFileMode, (S ln + length ls). split; [|done]. eapply runs_cons; [by apply run_add_header|].
    apply (run_add_lines hs e path ls []).
  - exists DeleteFileMode, (S ln). split; [|done]. eapply runs_one. by apply run_delete_header.
  - assert (Hmv : ∃ ln2, runs (match mv with Some m => [MOVE_TO_MARKER ++ m] | None => [] end)
                    (updating hs e path (S ln) None [] (S ln)) (updating hs e path (S ln) mv [] ln2)).
    { destruct mv as [d|]; [|by exists (S ln)]. exists (S (S ln)). by apply run_move. }
    destruct Hmv as [ln2 Hmv].
    destruct (run_chunks hs e path (S ln) mv [] scs ln2) as [ln3 H3]; [done|done|].
    exists (UpdateFileMode (S ln)), ln3. split; [|split].
    + eapply runs_cons; [by apply run_update_header|]. by eapply runs_app.
    + done.
    + simpl. destruct (list_snoc_inv scs) as [->|(scs' & sc & ->)]; [done|].
      rewrite fmap_app. split; [by destruct (chunk_of <$> scs')|].
      unfold last_is. simpl. rewrite last_snoc. apply chunk_of_nonempty.
      rewrite forallb_app in H0. simpl in H0. bool_facts. done.
Qed.

Lemma run_hunks shs m hs e ln :
  reading m → closed hs → forallb shunk_ok shs = true →
  ∃ m' ln', runs (mjoin (hunk_lines <$> shs)) (mkParser [] (mkState m hs e) ln)
              (mkParser [] (mkState m' (hs ++ (hunk_of <$> shs)) e) ln')
            ∧ reading m' ∧ closed (hs ++ (hunk_of <$> shs)).
Proof.
  revert m hs ln. induction shs as [|h shs IH]; intros m hs ln Hm Hc Hok; simpl in *.
  - exists m, ln. by rewrite app_nil_r.
  - bool_facts. destruct (run_hunk h m hs e ln) as (m1 & ln1 & H1 & Hm1 & Hc1); [done..|].
    destruct (IH m1 (hs ++ [hunk_of h]) ln1) as (m2 & ln2 & H2 & Hm2 & Hc2); [done..|].
    rewrite <- (assoc_L (++)) in H2, Hc2. exists m2, ln2.
    split; [exact (runs_app _ _ _ _ _ H1 H2)|done].
Qed.

(** * Whole patches *)

Lemma run_env id ln :
  env_ok id = true →
  process_line (ENVIRONMENT_ID_MARKER ++ 32%N :: id) (mkParser [] (mkState StartedPatch [] None) ln)
    = (mkParser [] (mkState StartedPatch [] (Some id)) ln, Ok tt).
Proof.
  unfold env_ok. intros H. bool_facts.
  assert (Ht : trimmed (ENVIRONMENT_ID_MARKER ++ 32%N :: id) = true).
  { change (ENVIRONMENT_ID_MARKER ++ 32%N :: id) with ((ENVIRONMENT_ID_MARKER ++ [32%N]) ++ id).
    by apply marker_trimmed. }
  unfold process_line. rewrite (trim_fixpoint _ Ht).
  unfold handle_hunk_headers_and_end_patch. rewrite (strip_prefix_app ENVIRONMENT_ID_MARKER).
  unfold handle_environment_id.
  assert (Hid : trim (32%N :: id) = id) by exact (trim_fixpoint id H0).
  rewrite Hid, (bool_decide_eq_false_2 (id = [])); [reflexivity|]. by intros ->.
Qed.

Lemma run_body env shs :
  opt_ok env_ok env = true → forallb shunk_ok shs = true →
  ∃ m ln, runs (body_lines env shs) parser_default
            (mkParser [] (mkState m (hunk_of <$> shs) env) ln)
          ∧ reading m ∧ closed (hunk_of <$> shs).
Proof.
  intros He Hok. unfold body_lines.
  assert (Henv : ∃ ln, runs (env_lines env) (mkParser [] (mkState StartedPatch [] None) 1)
                   (mkParser [] (mkState StartedPatch [] env) ln)).
  { destruct env as [id|]; [|by exists 1]. exists 2. apply runs_one. by apply run_env. }
  destruct Henv as [ln1 Henv].
  destruct (run_hunks shs StartedPatch [] env ln1) as (m & ln & Hr & Hm & Hc); [done..|].
  exists m, ln. split; [|done].
  eapply (runs_cons _ _ _ (mkParser [] (mkState StartedPatch [] None) 1)); [done|].
  by eapply runs_app.
Qed.

(** ** Every printed line is a line of content *)

Lemma line_ok_marker m s : line_ok m = true → name_ok s = true → line_ok (m ++ s) = true.
Proof.
  unfold line_ok, name_ok. intros Hm Hs. bool_facts.
  destruct (last s) as [c|] eqn:E; [|done]. bool_facts. apply andb_true_iff. split.
  - apply bool_decide_eq_true. by apply not_elem_of_app.
  - apply bool_decide_eq_true. apply last_Some_snoc in E as [s' ->].
    rewrite (assoc_L (++)), last_snoc. intros [= ->]. done.
Qed.

Lemma line_ok_cons c l : c ≠ LF → c ≠ CR → line_ok l = true → line_ok (c :: l) = true.
Proof.
  unfold line_ok. intros H1 H2 H. bool_facts. apply andb_true_iff. split.
  - apply bool_decide_eq_true. by apply not_elem_of_cons.
  - apply bool_decide_eq_true. destruct l; simpl in *; [congruence|done].
Qed.

Lemma forallb_mjoin {A} (f : A → list str) (p : str → bool) (l : list A) :
  (∀ x, x ∈ l → forallb p (f x) = true) → forallb p (mjoin (f <$> l)) = true.
Proof.
  induction l as [|x l IH]; simpl; intros H; [done|]. rewrite forallb_app, H by left. simpl.
  apply IH. intros y Hy. apply H. by right.
Qed.

Lemma forallb_elem {A} (p : A → bool) l x : forallb p l = true → x ∈ l → p x = true.
Proof. rewrite forallb_forall. intros H Hx. apply H. by apply list_elem_of_In. Qed.

Lemma forallb_fmap {A B} (f : A → B) (p : B → bool) (l : list A) :
  (∀ x, x ∈ l → p (f x) = true) → forallb p (f <$> l) = true.
Proof.
  induction l as [|x l IH]; simpl; intros H; [done|]. rewrite H by left. simpl.
  apply IH. intros y Hy. apply H. by right.
Qed.

Lemma chunk_lines_ok sc : schunk_ok sc = true → forallb line_ok (chunk_lines sc) = true.
Proof.
  unfold schunk_ok, chunk_lines. intros H. bool_facts. simpl.
  rewrite forallb_app. apply andb_true_iff. split.
  - destruct (sc_context sc); [by apply line_ok_marker|done].
  - apply andb_true_iff. split; [|by destruct (sc_eof sc)].
    apply forallb_fmap. intros op Hop. pose proof (forallb_elem _ _ _ H0 Hop).
    destruct op; by apply line_ok_cons.
Qed.

Lemma hunk_lines_ok h : shunk_ok h = true → forallb line_ok (hunk_lines h) = true.
Proof.
  destruct h as [path ls|path|path mv scs]; unfold shunk_ok, hunk_lines; intros H; bool_facts;
    cbn [forallb]; rewrite line_ok_marker by done; cbn [andb]; [|done|].
  - apply forallb_fmap. intros l Hl. apply line_ok_cons; [done|done|]. by eapply forallb_elem.
  - rewrite forallb_app. apply andb_true_iff. split.
    + destruct mv; [|done]. cbn [forallb]. by rewrite line_ok_marker.
    + apply forallb_mjoin. intros sc Hsc. apply chunk_lines_ok. by eapply forallb_elem.
Qed.

Lemma body_lines_ok env shs :
  opt_ok env_ok env = true → forallb shunk_ok shs = true →
  forallb line_ok (body_lines env shs) = true.
Proof.
  intros He Hok. unfold body_lines. cbn [forallb]. rewrite forallb_app.
  apply andb_true_iff. split; [done|]. apply andb_true_iff. split.
  - destruct env as [id|]; [|done]. cbn [env_lines forallb]. rewrite andb_true_r.
    change (ENVIRONMENT_ID_MARKER ++ 32%N :: id) with ((ENVIRONMENT_ID_MARKER ++ [32%N]) ++ id).
    simpl in He. unfold env_ok in He. bool_facts. by apply line_ok_marker.
  - apply forallb_mjoin. intros h Hh. apply hunk_lines_ok. by eapply forallb_elem.
Qed.

(** ** Splitting the text into lines again *)

Lemma join_snoc sep ls x : join sep (ls ++ [x]) = mjoin ((λ l, l ++ sep) <$> ls) ++ x.
Proof.
  induction ls as [|l ls IH]; simpl; [done|]. rewrite IH.
  destruct (ls ++ [x]) eqn:E; [by destruct ls|]. by rewrite <- !(assoc_L (++)).
Qed.

Lemma strip_line_end_lf l : last l ≠ Some CR → strip_line_end (l ++ [LF]) = l.
Proof.
  intros H. unfold strip_line_end. rewrite strip_suffix_snoc, decide_True by done.
  destruct (list_snoc_inv l) as [->|(l' & c & ->)]; [done|].
  rewrite strip_suffix_snoc. case_decide; [|done]. subst. by rewrite last_snoc in H.
Qed.

Lemma lines_join ls x :
  forallb line_ok ls = true → x ≠ [] → LF ∉ x → lines (join [LF] (ls ++ [x])) = ls ++ [x].
Proof.
  intros Hok Hne Hx. rewrite join_snoc. unfold lines.
  induction ls as [|l ls IH]; simpl in *.
  - rewrite split_inclusive_last by done. simpl. unfold strip_line_end.
    destruct (strip_suffix [LF] x) as [y|] eqn:E; [|done].
    apply strip_suffix_Some in E as ->. exfalso. apply Hx. set_solver.
  - bool_facts. unfold line_ok in H. bool_facts.
    rewrite <- !(assoc_L (++)). simpl. rewrite split_inclusive_line by done. simpl.
    rewrite strip_line_end_lf by done. f_equal. by apply IH.
Qed.

(** ** The whole pipeline *)

Lemma patch_text_trimmed env shs : trimmed (patch_text env shs) = true.
Proof.
  unfold patch_text. rewrite join_snoc. unfold trimmed.
  assert (Hh : head (mjoin ((λ l, l ++ [LF]) <$> body_lines env shs) ++ END_PATCH_MARKER) = Some 42%N) by done.
  rewrite Hh. change END_PATCH_MARKER with (removelast END_PATCH_MARKER ++ [104%N]).
  by rewrite (assoc_L (++)), last_snoc.
Qed.

Lemma check_boundaries_ok ls :
  head ls = Some BEGIN_PATCH_MARKER → check_patch_boundaries_strict (ls ++ [END_PATCH_MARKER])
  = Ok (ls ++ [END_PATCH_MARKER]).
Proof.
  intros H. unfold check_patch_boundaries_strict. rewrite last_snoc.
  destruct ls as [|l ls]; simplify_eq/=. done.
Qed.

Lemma end_marker_line : LF ∉ END_PATCH_MARKER.
Proof. by apply (bool_decide_eq_true (LF ∉ END_PATCH_MARKER)). Qed.

Lemma feed_patch env shs :
  opt_ok env_ok env = true → forallb shunk_ok shs = true →
  ∃ p p' hs, push_delta (patch_text env shs) parser_default = (p, Ok hs) ∧
          finish p = (p', Ok (hunk_of <$> shs)) ∧ environment_id (state p') = env.
Proof.
  intros He Hok. destruct (run_body env shs He Hok) as (m & ln & Hr & Hm & Hc).
  destruct (push_lines _ parser_default _ (body_lines_ok env shs He Hok) eq_refl Hr) as [Hp _].
  exists (mkParser END_PATCH_MARKER (mkState m (hunk_of <$> shs) env) ln),
    (mkParser [] (mkState EndedPatch (hunk_of <$> shs) env) (S ln)), (hunk_of <$> shs).
  split; [|split; [|done]].
  - unfold push_delta, patch_text. rewrite join_snoc. unfold st_bind at 1.
    rewrite st_for_app. unfold st_bind at 1. rewrite Hp.
    by rewrite (push_chars END_PATCH_MARKER _ end_marker_line).
  - set (q := mkParser [] (mkState m (hunk_of <$> shs) env) (S ln)).
    pose proof (ensure_closed END_PATCH_MARKER q Hc) as He'.
    unfold finish, st_bind, st_get, st_modify.
    change (line_buffer (mkParser END_PATCH_MARKER _ _)) with END_PATCH_MARKER.
    rewrite (bool_decide_eq_false_2 (END_PATCH_MARKER = [])) by done.
    change (trim END_PATCH_MARKER) with END_PATCH_MARKER.
    rewrite bool_decide_eq_true_2 by done.
    change (take_line _) with q. by rewrite He'.
Qed.

Lemma parse_patch_text_render m env shs :
  opt_ok env_ok env = true → forallb shunk_ok shs = true →
  parse_patch_text (patch_text env shs) m =
    Ok (mkArgs (patch_text env shs) (hunk_of <$> shs) None env).
Proof.
  intros He Hok. unfold parse_patch_text. cbv zeta.
  assert (Hl : lines (trim (patch_text env shs)) = body_lines env shs ++ [END_PATCH_MARKER]).
  { rewrite trim_fixpoint by apply patch_text_trimmed.
    apply lines_join; [by apply body_lines_ok|done|apply end_marker_line]. }
  rewrite Hl. unfold check_patch_boundaries_lenient. rewrite check_boundaries_ok by done.
  replace (match m with Strict => _ | Lenient => _ end)
    with (@Ok ParseError _ (body_lines env shs ++ [END_PATCH_MARKER])) by (by destruct m).
  cbn [res_bind]. fold (patch_text env shs).
  destruct (feed_patch env shs He Hok) as (p & p' & hs & -> & Hf & <-). cbn [res_bind]. by rewrite Hf.
Qed.

(** * Results *)

(** C31: printing a well-formed patch and parsing it gives back its hunks, its
    environment id and its text. *)
Theorem patch_roundtrip env shs :
  opt_ok env_ok env = true → forallb shunk_ok shs = true →
  parse_patch (patch_text env shs) = Ok (mkArgs (patch_text env shs) (hunk_of <$> shs) None env).
Proof. apply parse_patch_text_render. Qed.

Definition sample_hunks : list SHunk :=
  [SAdd (lit "new.txt") [lit "hello"; []];
   SUpdate (lit "a.txt") (Some (lit "b.txt"))
     [mkSChunk (Some (lit "fn main")) [Ctx (lit "x"); Del (lit "y"); Add (lit "z")] false;
      mkSChunk None [Add (lit "tail")] true];
   SDelete (lit "old.txt")].

Lemma patch_roundtrip_witness :
  parse_patch (patch_text (Some (lit "env")) sample_hunks) =
    Ok (mkArgs (patch_text (Some (lit "env")) sample_hunks) (hunk_of <$> sample_hunks) None
          (Some (lit "env"))).
Proof. apply patch_roundtrip; vm_compute; reflexivity. Defined.

(** The text wrapped in a heredoc, as a shell invocation leaves it. *)
Definition heredoc_text (opener : str) (env : option str) (shs : list SHunk) : str :=
  join [LF] (opener :: body_lines env shs ++ [END_PATCH_MARKER; lit "EOF"]).

Lemma heredoc_lines opener env shs :
  opener ∈ heredoc_openers → opt_ok env_ok env = true → forallb shunk_ok shs = true →
  lines (trim (heredoc_text opener env shs)) = opener :: body_lines env shs ++ [END_PATCH_MARKER; lit "EOF"].
Proof.
  intros Hop He Hok. unfold heredoc_text.
  assert (Hl : opener :: body_lines env shs ++ [END_PATCH_MARKER; lit "EOF"]
               = (opener :: body_lines env shs ++ [END_PATCH_MARKER]) ++ [lit "EOF"])
    by (rewrite <- app_comm_cons, <- (assoc_L (++)); reflexivity).
  rewrite Hl. rewrite trim_fixpoint.
  - apply lines_join; [|done|by apply (bool_decide_eq_true (LF ∉ lit "EOF"))].
    change (opener :: body_lines env shs ++ [END_PATCH_MARKER])
      with ([opener] ++ body_lines env shs ++ [END_PATCH_MARKER]).
    rewrite !forallb_app, body_lines_ok by done.
    repeat apply elem_of_cons in Hop as [->|Hop]; [done..|]. by apply elem_of_nil in Hop.
  - rewrite join_snoc. unfold trimmed. change (lit "EOF") with ([69; 79] ++ [70])%N.
    rewrite (assoc_L (++)), last_snoc.
    repeat apply elem_of_cons in Hop as [->|Hop]; [done..|]. by apply elem_of_nil in Hop.
Qed.

Lemma opener_not_begin opener rest :
  opener ∈ heredoc_openers → ∃ e, check_patch_boundaries_strict (opener :: rest) = Err e.
Proof.
  intros Hop. unfold check_patch_boundaries_strict, check_start_and_end_lines_strict.
  assert (Ht : ∃ l, last (opener :: rest) = Some l).
  { destruct (last (opener :: rest)) eqn:E; [eauto|]. by apply last_None in E. }
  destruct Ht as [l ->]. 
  repeat apply elem_of_cons in Hop as [->|Hop]; [by eexists..|]. by apply elem_of_nil in Hop.
Qed.

Lemma heredoc_boundaries opener ls :
  opener ∈ heredoc_openers → head ls = Some BEGIN_PATCH_MARKER →
  check_patch_boundaries_lenient (opener :: (ls ++ [END_PATCH_MARKER]) ++ [lit "EOF"])
  = Ok (ls ++ [END_PATCH_MARKER]).
Proof.
  intros Hop Hh. unfold check_patch_boundaries_lenient.
  destruct (opener_not_begin opener ((ls ++ [END_PATCH_MARKER]) ++ [lit "EOF"]) Hop) as [e ->].
  assert (Hlen : 4 <=? length (opener :: (ls ++ [END_PATCH_MARKER]) ++ [lit "EOF"]) = true).
  { apply Nat.leb_le. destruct ls; [done|]. simpl. rewrite !length_app. simpl. lia. }
  rewrite Hlen.
  replace (last (opener :: (ls ++ [END_PATCH_MARKER]) ++ [lit "EOF"])) with (Some (lit "EOF"))
    by (rewrite app_comm_cons, last_snoc; done).
  destruct ((ls ++ [END_PATCH_MARKER]) ++ [lit "EOF"]) as [|x r] eqn:E; [by destruct ls|].
  rewrite bool_decide_eq_true_2 by done. change (ends_with _ _) with true. cbn [andb tail].
  rewrite <- E, removelast_snoc. by apply check_boundaries_ok.
Qed.

(** a patch wrapped in a heredoc is read as the patch itself: the wrapper is
    stripped from the result's text too. *)
Theorem heredoc_transparent opener env shs :
  opener ∈ heredoc_openers → opt_ok env_ok env = true → forallb shunk_ok shs = true →
  parse_patch (heredoc_text opener env shs) = parse_patch (patch_text env shs).
Proof.
  intros Hop He Hok. unfold parse_patch at 2. rewrite (parse_patch_text_render Lenient env shs He Hok).
  unfold parse_patch, parse_patch_text. cbv zeta. rewrite heredoc_lines by done.
  change [END_PATCH_MARKER; lit "EOF"] with ([END_PATCH_MARKER] ++ [lit "EOF"]).
  rewrite (assoc_L (++)), heredoc_boundaries by done. cbn [res_bind]. fold (patch_text env shs).
  destruct (feed_patch env shs He Hok) as (p & p' & hs & -> & Hf & <-). cbn [res_bind]. by rewrite Hf.
Qed.

Lemma heredoc_transparent_witness :
  parse_patch (heredoc_text (lit "<<'EOF'") None sample_hunks) =
  parse_patch (patch_text None sample_hunks).
Proof.
  apply heredoc_transparent; [|reflexivity|vm_compute; reflexivity].
  right; left.
Defined.
