(* ===== verification/FileSystem.v ===== *)
(** The file-system interface apply_patch works against.

    [PathUri] and [ExecutorFileSystem] are what apply-patch uses of
    utils/path-uri and of the trait of file-system/src/lib.rs; the sandbox
    context is part of the implementation.  [FileSystemLaws] states, for the
    text seen at each path, what an implementation promises.  Links are
    allowed: a file system says which paths are [unaliased], named by no other
    path, and only for these do the laws say what a write or a removal
    changes.  The in-memory implementation at the end, which has symbolic
    links, discharges the laws. *)
From S2P Require Import Prelude Str.

(** * Interfaces *)

Inductive ErrorKind := NotFound | InvalidInput | InvalidData | PermissionDenied | OtherKind.

#[export] Instance ErrorKind_eq_dec : EqDecision ErrorKind.
Proof. solve_decision. Defined.

(** [std::io::Error]: its kind and its [to_string]. *)
Record io_error := mkIoError { kind : ErrorKind; io_message : str }.

(** [FileMetadata], without the size and the times, which no caller reads. *)
Record FileMetadata := mkMetadata { is_directory : bool; is_file : bool; is_symlink : bool }.

(** [PathUri]: resolution of native path text, lexical parent, display. *)
Class PathUri (P : Type) := {
  path_eq_dec :: EqDecision P;
  path_join : P → str → result str P;
  path_parent : P → option P;
  inferred_native_path_string : P → str
}.

(** The operations of the trait that apply_patch calls.  Each takes
    [follow_symlinks]; [fs_remove] is called with [recursive] and [force] unset and
    [create_directory] with [recursive] set. *)
Class ExecutorFileSystem (P W : Type) := {
  read_file_text : P → bool → W → result io_error str;
  get_metadata : P → bool → W → result io_error FileMetadata;
  write_file : P → str → bool → W → W * result io_error unit;
  create_directory : P → bool → W → W * result io_error unit;
  fs_remove : P → bool → W → W * result io_error unit
}.

(** * Texts *)

(** What a file system holds, for the callers of this interface: the text of
    the file at each path. *)
Abbreviation texts P := (P → option str).

Definition set_text {P} `{EqDecision P} (p : P) (o : option str) (v : texts P) : texts P :=
  λ q, if decide (q = p) then o else v q.

Section Texts.
Context {P : Type} `{EqDecision P}.
Implicit Types v : texts P.

#[export] Instance set_text_proper (p : P) (o : option str) :
  Proper (pointwise_relation P eq ==> pointwise_relation P eq) (set_text p o).
Proof. intros v w H q. unfold set_text. by case_decide. Qed.

Lemma set_text_same p o v : set_text p o v p = o.
Proof. unfold set_text. by rewrite decide_True. Qed.

Lemma set_text_id p v q : set_text p (v p) v q = v q.
Proof. unfold set_text. case_decide; by subst. Qed.

Lemma set_text_twice p o o' v q : set_text p o (set_text p o' v) q = set_text p o v q.
Proof. unfold set_text. by case_decide. Qed.
End Texts.

(** * Laws *)

(** An entry whose writes and removal concern only the path itself: a regular
    file that is not a link. *)
Definition regular {P W} `{ExecutorFileSystem P W} (follow : bool) (w : W) (p : P) : Prop :=
  ∃ m, get_metadata p follow w = Ok m ∧ is_file m = true ∧ is_symlink m = false.

(** ... or nothing at all. *)
Definition plain_entry {P W} `{ExecutorFileSystem P W} (follow : bool) (w : W) (p : P) : Prop :=
  regular follow w p ∨ ∃ e, get_metadata p follow w = Err e ∧ kind e = NotFound.

(** What an implementation promises about the texts.  [unaliased w p]: no
    other path names the file at [p], or the file a write at [p] would create,
    so [p] is not a link and no link, hard link or spelling in other case leads
    to it.  None of these operations makes a link.  A write or a
    removal at an aliased path may change the texts of other paths, and the laws
    say nothing of it.  A write that reports [NotFound] changed nothing, any
    other failed write may have changed anything; a failed removal leaves every
    other path alone, and the path itself unless its text is gone. *)
Class FileSystemLaws (P W : Type) `{PathUri P, ExecutorFileSystem P W} := {
  view : W → texts P;
  unaliased : W → P → Prop;
  read_ok p follow w s : read_file_text p follow w = Ok s → view w p = Some s;
  read_missing p follow w e :
    read_file_text p follow w = Err e → kind e = NotFound → view w p = None;
  read_metadata p follow w s :
    read_file_text p follow w = Ok s → plain_entry follow w p → regular follow w p;
  write_ok p s follow w w' :
    write_file p s follow w = (w', Ok tt) → unaliased w p → plain_entry follow w p →
    (∀ q, view w' q = set_text p (Some s) (view w) q)
    ∧ (∀ q, regular follow w q → regular follow w' q);
  write_missing p s follow w w' e :
    write_file p s follow w = (w', Err e) → kind e = NotFound → w' = w;
  write_unaliased p s follow w w' r q :
    write_file p s follow w = (w', r) → unaliased w q → unaliased w' q;
  create_directory_texts p follow w w' r :
    create_directory p follow w = (w', r) →
    (∀ q, view w' q = view w q) ∧ (∀ q, regular follow w q → regular follow w' q);
  create_directory_unaliased p follow w w' r q :
    create_directory p follow w = (w', r) → unaliased w q → unaliased w' q;
  create_parent_plain p parent follow w w' r :
    path_parent p = Some parent → create_directory parent follow w = (w', r) →
    unaliased w p → plain_entry follow w p → plain_entry follow w' p;
  remove_ok p follow w w' :
    fs_remove p follow w = (w', Ok tt) → unaliased w p → regular follow w p →
    ∀ q, view w' q = set_text p None (view w) q;
  remove_err p follow w w' e :
    fs_remove p follow w = (w', Err e) → unaliased w p →
    (∀ q, q ≠ p → view w' q = view w q) ∧ (view w' p = view w p ∨ view w' p = None);
  remove_unaliased p follow w w' r q :
    fs_remove p follow w = (w', r) → unaliased w q → unaliased w' q
}.

(** * An implementation in memory *)

(** Paths of a POSIX file system: the segments, outermost first. *)
Record posix := mkPosix { segments : list str }.

#[export] Instance posix_eq_dec : EqDecision posix.
Proof. solve_decision. Defined.
#[export] Instance posix_countable : Countable posix.
Proof. apply (inj_countable' segments mkPosix). by intros []. Defined.

Definition SLASH : N := 47.

(** Empty and ["."] components are ignored, [".."] stays below the root. *)
Definition push_component (acc : list str) (component : str) : list str :=
  if bool_decide (component = []) || (component =s lit ".") then acc
  else if component =s lit ".." then removelast acc
  else acc ++ [component].

Definition posix_join (base : posix) (path : str) : result str posix :=
  if bool_decide (0%N ∈ path) then Err path
  else
    let start := if starts_with [SLASH] path then [] else segments base in
    Ok (mkPosix (foldl push_component start (split_by (N.eqb SLASH) path))).

Definition posix_parent (p : posix) : option posix :=
  if bool_decide (segments p = []) then None else Some (mkPosix (removelast (segments p))).

Definition posix_string (p : posix) : str := SLASH :: join [SLASH] (segments p).

#[export] Instance posix_path_uri : PathUri posix := {
  path_join := posix_join;
  path_parent := posix_parent;
  inferred_native_path_string := posix_string
}.

Inductive entry := File (s : str) | Directory | Symlink (target : posix).

#[export] Instance entry_eq_dec : EqDecision entry.
Proof. solve_decision. Defined.

Abbreviation memory := (gmap posix entry).

Definition err_missing : io_error := mkIoError NotFound (lit "entity not found").
Definition err_other : io_error := mkIoError OtherKind (lit "operation not supported").

(** The path an access works on: the target of a link that may be followed.
    A link to a link is an error. *)
Definition access_path (p : posix) (follow : bool) (w : memory) : result io_error posix :=
  match w !! p with
  | Some (Symlink t) => if follow then Ok t else Err err_other
  | _ => Ok p
  end.

Definition mem_read (p : posix) (follow : bool) (w : memory) : result io_error str :=
  match access_path p follow w with
  | Ok q => match w !! q with
            | Some (File s) => Ok s
            | None => Err err_missing
            | _ => Err err_other
            end
  | Err e => Err e
  end.

(** As [tokio::fs::metadata], with the mark of a link kept. *)
Definition mem_metadata (p : posix) (follow : bool) (w : memory) : result io_error FileMetadata :=
  match access_path p follow w with
  | Ok q => let link := bool_decide (q ≠ p) in
            match w !! q with
            | Some (File _) => Ok (mkMetadata false true link)
            | Some Directory => Ok (mkMetadata true false link)
            | Some (Symlink _) => Err err_other
            | None => Err err_missing
            end
  | Err _ => Ok (mkMetadata false false true)
  end.

(** A file can be written where its parent is a directory; a write through a
    dangling link creates the link's target. *)
Definition mem_write (p : posix) (s : str) (follow : bool) (w : memory) : memory * result io_error unit :=
  match access_path p follow w with
  | Ok q => match w !! q, (parent ← posix_parent q; w !! parent) with
            | Some (File _), _ => (<[q := File s]> w, Ok tt)
            | Some _, _ => (w, Err err_other)
            | None, Some Directory => (<[q := File s]> w, Ok tt)
            | None, Some _ => (w, Err err_other)
            | None, None => (w, Err err_missing)
            end
  | Err e => (w, Err e)
  end.

(** All missing directories from the root to [segs]; other entries stay as they are. *)
Fixpoint make_directories (done todo : list str) (w : memory) : memory * result io_error unit :=
  match w !! mkPosix done with
  | Some (File _) | Some (Symlink _) => (w, Err err_other)
  | _ =>
      let w := <[mkPosix done := Directory]> w in
      match todo with
      | [] => (w, Ok tt)
      | seg :: todo => make_directories (done ++ [seg]) todo w
      end
  end.

Definition mem_create_directory (p : posix) (follow : bool) (w : memory) : memory * result io_error unit :=
  make_directories [] (segments p) w.

(** A link is removed itself, its target stays. *)
Definition mem_remove (p : posix) (follow : bool) (w : memory) : memory * result io_error unit :=
  match w !! p with
  | Some Directory => (w, Err err_other)
  | Some _ => (delete p w, Ok tt)
  | None => (w, Err err_missing)
  end.

#[export] Instance memory_fs : ExecutorFileSystem posix memory := {
  read_file_text := mem_read;
  get_metadata := mem_metadata;
  write_file := mem_write;
  create_directory := mem_create_directory;
  fs_remove := mem_remove
}.

Definition file_text (e : option entry) : option str :=
  match e with Some (File s) => Some s | _ => None end.

(** The text an access that follows links sees. *)
Definition mem_view (w : memory) (p : posix) : option str :=
  match w !! p with Some (Symlink t) => file_text (w !! t) | e => file_text e end.

(** [p] is no link, and no link leads to it. *)
Definition mem_unaliased (w : memory) (p : posix) : Prop :=
  (∀ t, w !! p ≠ Some (Symlink t)) ∧ map_Forall (λ _ e, e ≠ Symlink p) w.

Lemma mem_unaliased_links w w' p :
  (∀ q t, w' !! q = Some (Symlink t) → w !! q = Some (Symlink t)) → mem_unaliased w p → mem_unaliased w' p.
Proof.
  intros Hl [Hp Hw]. split; [intros t Ht; by apply (Hp t), Hl|].
  intros q e Hq ->. apply Hl in Hq. by apply (Hw q _ Hq).
Qed.

Lemma mem_view_unaliased w p : mem_unaliased w p → mem_view w p = file_text (w !! p).
Proof. intros [Hp _]. unfold mem_view. destruct (w !! p) as [[| |t]|]; try done. by destruct (Hp t). Qed.

(** At the path of no link, the path of an access is the path. *)
Lemma access_unaliased w p follow : mem_unaliased w p → access_path p follow w = Ok p.
Proof. intros [Hp _]. unfold access_path. destruct (w !! p) as [[| |t]|]; try done. by destruct (Hp t). Qed.

Lemma mem_view_set w w' p :
  mem_unaliased w p → mem_unaliased w' p → (∀ q, q ≠ p → w' !! q = w !! q) →
  ∀ q, mem_view w' q = set_text p (file_text (w' !! p)) (mem_view w) q.
Proof.
  intros Hp Hp' Hq q. unfold set_text. case_decide as E; [subst; by apply mem_view_unaliased|].
  unfold mem_view. rewrite (Hq q E). destruct (w !! q) as [[| |t]|] eqn:El; try done.
  f_equal. apply Hq. intros ->. by apply (proj2 Hp q _ El).
Qed.

Lemma mem_regular follow w p : regular follow w p ↔ ∃ s, w !! p = Some (File s).
Proof.
  unfold regular. simpl. unfold mem_metadata, access_path. split.
  - intros (m & Hm & Hf & Hl).
    destruct (w !! p) as [[s| |t]|] eqn:E; [by eauto|by rewrite E in Hm; simplify_eq/=| |by rewrite E in Hm].
    destruct follow; [|by simplify_eq/=].
    destruct (w !! t) as [[s| |]|] eqn:Et; simplify_eq/=. case_bool_decide as Hd; [done|].
    congruence.
  - intros [s Hs]. rewrite Hs. simpl. rewrite Hs, bool_decide_false by (by intros []). eauto.
Qed.

Lemma mem_plain_unaliased follow w p :
  mem_unaliased w p → plain_entry follow w p ↔ w !! p ≠ Some Directory.
Proof.
  intros Hp. unfold plain_entry. rewrite mem_regular. simpl. unfold mem_metadata.
  rewrite (access_unaliased _ _ _ Hp). destruct (w !! p) as [[| |t]|] eqn:E; try naive_solver.
  by destruct (proj1 Hp t).
Qed.

Lemma make_directories_spec done todo w w' r :
  make_directories done todo w = (w', r) →
  (∀ q e, e ≠ Directory → w' !! q = Some e ↔ w !! q = Some e)
  ∧ (∀ q, w' !! q = Some Directory → w !! q = Some Directory ∨
          ∃ mid, segments q = done ++ mid ∧ mid `prefix_of` todo).
Proof.
  revert done w. induction todo as [|seg todo IH]; intros done w; simpl.
  all: destruct (w !! mkPosix done) as [[s| |t]|] eqn:E; try (intros [= <- <-]; naive_solver).
  3,4: intros H; destruct (IH _ _ H) as [H1 H2]; split;
    [intros q e He; rewrite (H1 q e He); destruct (decide (q = mkPosix done)) as [->|];
      [rewrite lookup_insert_eq; naive_solver|by rewrite lookup_insert_ne]
    |intros q Hq; destruct (H2 q Hq) as [Hd|(mid & Hm & Hp)];
      [destruct (decide (q = mkPosix done)) as [->|];
        [right; exists []; split; [by rewrite app_nil_r|apply prefix_nil]
        |left; by rewrite lookup_insert_ne in Hd]
      |right; exists (seg :: mid); split; [by rewrite Hm, <- (assoc_L (++))|by apply prefix_cons]]].
  all: intros [= <- <-]; split;
    [intros q e He; destruct (decide (q = mkPosix done)) as [->|];
      [rewrite lookup_insert_eq; naive_solver|by rewrite lookup_insert_ne]
    |intros q Hq; destruct (decide (q = mkPosix done)) as [->|];
      [right; exists []; split; [by rewrite app_nil_r|apply prefix_nil]
      |left; by rewrite lookup_insert_ne in Hq]].
Qed.

Lemma mem_create_directory_entries p follow w w' r :
  mem_create_directory p follow w = (w', r) → ∀ q e, e ≠ Directory → w' !! q = Some e ↔ w !! q = Some e.
Proof. intros H. by apply make_directories_spec in H as [? _]. Qed.

Lemma mem_view_entries w w' :
  (∀ q e, e ≠ Directory → w' !! q = Some e ↔ w !! q = Some e) → ∀ q, mem_view w' q = mem_view w q.
Proof.
  intros H.
  assert (Hf : ∀ q, file_text (w' !! q) = file_text (w !! q)).
  { intros q. destruct (w !! q) as [[s| |t]|] eqn:E.
    1: by rewrite (proj2 (H q (File s) ltac:(done)) E).
    all: destruct (w' !! q) as [[s| |t']|] eqn:E'; try done; apply H in E'; congruence. }
  intros q. unfold mem_view. destruct (w !! q) as [[s| |t]|] eqn:E.
  3: by rewrite (proj2 (H q (Symlink t) ltac:(done)) E).
  all: specialize (Hf q); rewrite E in Hf;
    destruct (w' !! q) as [[s'| |t']|] eqn:E'; try done; apply H in E'; congruence.
Qed.

(** A write that succeeds stores the file the access leads to. *)
Lemma mem_write_cases p s follow w w' r :
  mem_write p s follow w = (w', r) →
  (w' = w ∧ r ≠ Ok tt) ∨ ∃ q, access_path p follow w = Ok q ∧ w' = <[q := File s]> w ∧ r = Ok tt
    ∧ w !! q ≠ Some Directory ∧ ∀ t, w !! q ≠ Some (Symlink t).
Proof.
  unfold mem_write. destruct (access_path p follow w) as [q|]; [|intros [= <- <-]; by left].
  destruct (w !! q) as [[]|] eqn:E; intros Hw; repeat case_match; simplify_eq/=;
    (by left) || (right; exists q; split_and!; congruence).
Qed.

Lemma mem_remove_cases p follow w w' r :
  mem_remove p follow w = (w', r) → (w' = w ∧ r ≠ Ok tt) ∨ w' = delete p w ∧ r = Ok tt.
Proof. unfold mem_remove. intros Hr. repeat case_match; simplify_eq; auto. Qed.

#[export] Instance memory_laws : FileSystemLaws posix memory.
Proof.
  refine {| view := mem_view; unaliased := mem_unaliased |}; simpl.
  - intros p f w s. unfold mem_read, mem_view, access_path.
    destruct (w !! p) as [[| |t]|] eqn:E; [..|destruct f|]; intros; repeat case_match; by simplify_eq/=.
  - intros p f w e. unfold mem_read, mem_view, access_path.
    destruct (w !! p) as [[| |t]|] eqn:E; [..|destruct f|]; intros; repeat case_match; by simplify_eq/=.
  - intros p f w s Hr [?|(e & He & Hk)]; [done|]. simpl in He. unfold mem_read, mem_metadata in *.
    destruct (access_path p f w) as [q|]; [|done]. by repeat case_match; simplify_eq/=.
  - intros p s f w w' Hw Hp _.
    apply mem_write_cases in Hw as [[_ ?]|(q & Hq & -> & _ & Hd & Hl)]; [done|].
    rewrite (access_unaliased _ _ _ Hp) in Hq. injection Hq as <-. split.
    + intros q. rewrite (mem_view_set w _ p); [by rewrite lookup_insert_eq|done| |].
      * apply (mem_unaliased_links w); [|done]. intros x t. rewrite lookup_insert_Some. naive_solver.
      * intros x Hx. by rewrite lookup_insert_ne.
    + intros q. rewrite !mem_regular. intros [x Hx].
      destruct (decide (p = q)) as [->|]; [rewrite lookup_insert_eq|rewrite lookup_insert_ne by done]; eauto.
  - intros p s f w w' e Hw _. apply mem_write_cases in Hw as [[-> _]|(q & _ & _ & [=] & _)]. done.
  - intros p s f w w' r q Hw. apply mem_unaliased_links. intros x t.
    apply mem_write_cases in Hw as [[-> _]|(y & _ & -> & _ & _ & _)]; [done|].
    rewrite lookup_insert_Some. naive_solver.
  - intros p f w w' r Hc. pose proof (mem_create_directory_entries _ _ _ _ _ Hc) as Ht. split.
    + by apply mem_view_entries.
    + intros q. rewrite !mem_regular. intros [s Hs]. exists s. by apply Ht.
  - intros p f w w' r q Hc. apply mem_unaliased_links. intros x t.
    by apply (mem_create_directory_entries _ _ _ _ _ Hc).
  - intros p parent f w w' r Hp Hc Hu.
    assert (Hu' : mem_unaliased w' p).
    { eapply mem_unaliased_links; [|done]. intros x t. by apply (mem_create_directory_entries _ _ _ _ _ Hc). }
    rewrite (mem_plain_unaliased f w p Hu), (mem_plain_unaliased f w' p Hu'). intros Hd Hd'.
    unfold mem_create_directory in Hc. apply make_directories_spec in Hc as [_ Hc].
    destruct (Hc _ Hd') as [?|(mid & Hm & Hpre)]; [done|]. simpl in Hm. subst mid.
    unfold posix_parent in Hp. case_bool_decide as Hn; [done|]. injection Hp as <-. simpl in Hpre.
    destruct (list_snoc_inv (segments p)) as [?|(l & x & E)]; [done|].
    rewrite E, removelast_snoc in Hpre. apply prefix_length in Hpre. rewrite length_app in Hpre.
    simpl in Hpre. lia.
  - intros p f w w' Hr Hp _ q. apply mem_remove_cases in Hr as [[_ ?]|[-> _]]; [done|].
    rewrite (mem_view_set w _ p); [by rewrite lookup_delete_eq|done| |].
    + apply (mem_unaliased_links w); [|done]. intros x t. rewrite lookup_delete_Some. naive_solver.
    + intros x Hx. by rewrite lookup_delete_ne.
  - intros p f w w' e Hr _. apply mem_remove_cases in Hr as [[-> _]|[_ ?]]; [|done]. split; [done|by left].
  - intros p f w w' r q Hr. apply mem_unaliased_links. intros x t.
    apply mem_remove_cases in Hr as [[-> _]|[-> _]]; [done|]. rewrite lookup_delete_Some. naive_solver.
Defined.
