(* ===== verification/ApplyPatch.v ===== *)
(** apply-patch/src/lib.rs: applying hunks to a file system and the delta of
    what was committed.

    The code is written against [ExecutorFileSystem].  A method runs on [env],
    the file system together with the [AppliedPatchDelta] it mutates, so that
    an early return keeps what was done before it. *)
From S2P Require Import Prelude Str TextFile PatchParser PatchInvariant FileUpdate FileSystem.
From stdpp Require Import pretty.

(** * Data *)

Inductive AppliedPatchFileChange (P : Type) :=
| ChangeAdd (content : str) (overwritten_content : option str)
| ChangeDelete (content : str)
| ChangeUpdate (move_path : option P) (old_content : str) (overwritten_move_content : option str)
    (new_content : str).
Arguments ChangeAdd {P}.
Arguments ChangeDelete {P}.
Arguments ChangeUpdate {P}.

Record AppliedPatchChange (P : Type) := mkChange {
  change_path : P; change : AppliedPatchFileChange P }.
Arguments mkChange {P}.
Arguments change_path {P}.
Arguments change {P}.

Record AppliedPatchDelta (P : Type) := mkDelta { changes : list (AppliedPatchChange P); exact_ : bool }.
Arguments mkDelta {P}.
Arguments changes {P}.
Arguments exact_ {P}.

Definition delta_empty {P} : AppliedPatchDelta P := mkDelta [] true.

(** [AppliedPatchDelta::append] *)
Definition delta_append {P} (d other : AppliedPatchDelta P) : AppliedPatchDelta P :=
  mkDelta (changes d ++ changes other) (exact_ d && exact_ other).

Record AffectedPaths := mkAffected { added : list str; modified : list str; deleted : list str }.

(** [anyhow::Error]: an [io::Error] with its outermost context, or one of the
    errors converted by [?]. *)
Inductive anyhow_error :=
| AnyIo (context : option str) (e : io_error)
| AnyApply (e : ApplyPatchError)
| AnyPathUri (message : str)
| AnyMessage (message : str).

(** How a run stops early: with an error, or with a panic of the index
    arithmetic ([None] of [new_contents_from_chunks]). *)
Inductive stop := Failed (e : anyhow_error) | Panicked.

Section Operations.
Context {P W : Type} `{PathUri P} `{ExecutorFileSystem P W}.
Context (follow_symlinks : bool) (cwd : P).

Record env := mkEnv { world : W; delta : AppliedPatchDelta P }.

Abbreviation applyM := (stE env stop).

Definition set_exact (b : bool) (s : env) : env := mkEnv (world s) (mkDelta (changes (delta s)) b).
Definition set_changes (cs : list (AppliedPatchChange P)) (s : env) : env :=
  mkEnv (world s) (mkDelta cs (exact_ (delta s))).

(** [delta.changes.push(..)] *)
Definition push_change (c : AppliedPatchChange P) : applyM unit :=
  st_modify (λ s, set_changes (changes (delta s) ++ [c]) s).

Definition clear_exact : applyM unit := st_modify (set_exact false).

(** [delta.exact &= b] *)
Definition and_exact (b : bool) : applyM unit :=
  st_modify (λ s, set_exact (exact_ (delta s) && b) s).

(** A call of the file system that may change it. *)
Definition fs_call (op : W → W * result io_error unit) : applyM (result io_error unit) :=
  fun s => let '(w, r) := op (world s) in (mkEnv w (delta s), Ok r).

(** A call that only reads. *)
Definition fs_query {A} (op : W → A) : applyM A := fun s => (s, Ok (op (world s))).

Definition fail {A} (e : anyhow_error) : applyM A := st_throw (Failed e).

(** [r.with_context(..)?] *)
Definition with_context (msg : str) (r : result io_error unit) : applyM unit :=
  match r with Ok tt => st_ret tt | Err e => fail (AnyIo (Some msg) e) end.

(** [cwd.join(&path.to_string_lossy())?] *)
Definition resolve (path : str) : applyM P :=
  match path_join cwd path with Ok p => st_ret p | Err m => fail (AnyPathUri m) end.

(** [Hunk::resolve_path]: the source path of a rename. *)
Definition resolve_path (h : Hunk) : applyM P :=
  resolve (match h with UpdateFile path _ _ => path | _ => hunk_path h end).

(** * Helpers of the loop *)

Definition note_existing_path_delta_support (path : P) : applyM unit :=
  m <- fs_query (get_metadata path follow_symlinks) ;;
  match m with
  | Ok metadata =>
      if is_file metadata && negb (is_symlink metadata) then st_ret tt else clear_exact
  | Err source => if bool_decide (kind source = NotFound) then st_ret tt else clear_exact
  end.

Definition read_optional_file_text_for_delta (path : P) : applyM (option str) :=
  note_existing_path_delta_support path ;;;
  r <- fs_query (read_file_text path follow_symlinks) ;;
  match r with
  | Ok content => st_ret (Some content)
  | Err source =>
      if bool_decide (kind source = NotFound) then st_ret None
      else clear_exact ;;; st_ret None
  end.

Definition ensure_not_directory (path : P) (w : W) : result io_error unit :=
  match get_metadata path follow_symlinks w with
  | Err e => Err e
  | Ok metadata =>
      if is_directory metadata then Err (mkIoError InvalidInput (lit "path is a directory")) else Ok tt
  end.

Definition remove_failure_was_side_effect_free (path : P) (expected_content : option str) (w : W) : bool :=
  match expected_content with
  | Some expected_content =>
      match read_file_text path follow_symlinks w with
      | Ok content => content =s expected_content
      | Err _ => false
      end
  | None => false
  end.

Definition failed_to_write (path : P) : str :=
  lit "Failed to write file " ++ inferred_native_path_string path.

(** Its result is an [anyhow::Result]; the caller clears [exact] on an error. *)
Definition write_file_with_missing_parent_retry (path : P) (contents : str)
    : applyM (result anyhow_error unit) :=
  r <- fs_call (write_file path contents follow_symlinks) ;;
  match r with
  | Ok tt => st_ret (Ok tt)
  | Err err =>
      if bool_decide (kind err = NotFound) then
        c <- match path_parent path with
             | Some parent => fs_call (create_directory parent follow_symlinks)
             | None => st_ret (Ok tt)
             end ;;
        match c with
        | Err e =>
            st_ret (Err (AnyIo (Some (lit "Failed to create parent directories for "
                                      ++ inferred_native_path_string path)) e))
        | Ok tt =>
            r <- fs_call (write_file path contents follow_symlinks) ;;
            match r with
            | Ok tt => st_ret (Ok tt)
            | Err e => st_ret (Err (AnyIo (Some (failed_to_write path)) e))
            end
        end
      else st_ret (Err (AnyIo (Some (failed_to_write path)) err))
  end.

(** [try_write!] *)
Definition try_write (r : result anyhow_error unit) : applyM unit :=
  match r with
  | Ok tt => st_ret tt
  | Err error => clear_exact ;;; fail error
  end.

Record AppliedPatch := mkAppliedPatch { original_contents : str; new_contents : str }.

Definition derive_new_contents_from_chunks (path : P) (follow : bool) (chunks : list UpdateFileChunk) (w : W)
    : option (result ApplyPatchError AppliedPatch) :=
  match read_file_text path follow w with
  | Err err =>
      Some (Err (AP_IoError (lit "Failed to read file to update " ++ inferred_native_path_string path)
                            (io_message err)))
  | Ok original =>
      match new_contents_from_chunks (inferred_native_path_string path) original chunks with
      | None => None
      | Some (Err e) => Some (Err e)
      | Some (Ok new) => Some (Ok (mkAppliedPatch original new))
      end
  end.

(** * One hunk *)

Definition push_added (p : str) (a : AffectedPaths) := mkAffected (added a ++ [p]) (modified a) (deleted a).
Definition push_modified (p : str) (a : AffectedPaths) := mkAffected (added a) (modified a ++ [p]) (deleted a).
Definition push_deleted (p : str) (a : AffectedPaths) := mkAffected (added a) (modified a) (deleted a ++ [p]).

Definition apply_add (path : P) (contents : str) : applyM unit :=
  overwritten_content <- read_optional_file_text_for_delta path ;;
  r <- write_file_with_missing_parent_retry path contents ;;
  try_write r ;;;
  push_change (mkChange path (ChangeAdd contents overwritten_content)).

(** The removal shared by deletions and renames: [expected] is the content the
    path is expected to keep when the removal fails. *)
Definition remove_or_fail (path : P) (msg : str) (expected : option str) : applyM unit :=
  r <- fs_query (ensure_not_directory path) ;;
  with_context msg r ;;;
  r <- fs_call (fs_remove path follow_symlinks) ;;
  match r with
  | Ok tt => st_ret tt
  | Err e =>
      b <- fs_query (remove_failure_was_side_effect_free path expected) ;;
      and_exact b ;;;
      fail (AnyIo (Some msg) e)
  end.

Definition apply_delete (path : P) : applyM unit :=
  note_existing_path_delta_support path ;;;
  r <- fs_query (read_file_text path follow_symlinks) ;;
  let deleted_content := match r with Ok s => Some s | Err _ => None end in
  (match deleted_content with None => clear_exact | Some _ => st_ret tt end) ;;;
  remove_or_fail path (lit "Failed to delete file " ++ inferred_native_path_string path)
    deleted_content ;;;
  match deleted_content with
  | Some content => push_change (mkChange path (ChangeDelete content))
  | None => st_ret tt
  end.

Definition apply_move (path dest_uri : P) (p : AppliedPatch) : applyM unit :=
  overwritten_move_content <- read_optional_file_text_for_delta dest_uri ;;
  r <- write_file_with_missing_parent_retry dest_uri (new_contents p) ;;
  try_write r ;;;
  s <- st_get ;;
  let dest_write_change_index := length (changes (delta s)) in
  push_change (mkChange dest_uri (ChangeAdd (new_contents p) overwritten_move_content)) ;;;
  remove_or_fail path (lit "Failed to remove original " ++ inferred_native_path_string path)
    (Some (original_contents p)) ;;;
  st_modify (λ s, set_changes
    (<[dest_write_change_index :=
         mkChange path (ChangeUpdate (Some dest_uri) (original_contents p) overwritten_move_content
                          (new_contents p))]> (changes (delta s))) s).

Definition apply_update (path : P) (move_path : option str) (chunks : list UpdateFileChunk) : applyM unit :=
  note_existing_path_delta_support path ;;;
  d <- fs_query (derive_new_contents_from_chunks path follow_symlinks chunks) ;;
  p <- match d with
       | None => st_throw Panicked
       | Some (Err e) => fail (AnyApply e)
       | Some (Ok p) => st_ret p
       end ;;
  match move_path with
  | Some dest =>
      dest_uri <- resolve dest ;;
      apply_move path dest_uri p
  | None =>
      r <- fs_call (write_file path (new_contents p) follow_symlinks) ;;
      try_write (map_err (AnyIo (Some (failed_to_write path))) r) ;;;
      push_change (mkChange path (ChangeUpdate None (original_contents p) None (new_contents p)))
  end.

Definition apply_hunk (h : Hunk) (a : AffectedPaths) : applyM AffectedPaths :=
  let affected_path := hunk_path h in
  path_uri <- resolve_path h ;;
  match h with
  | AddFile _ contents => apply_add path_uri contents ;;; st_ret (push_added affected_path a)
  | DeleteFile _ => apply_delete path_uri ;;; st_ret (push_deleted affected_path a)
  | UpdateFile _ move_path chunks =>
      apply_update path_uri move_path chunks ;;; st_ret (push_modified affected_path a)
  end.

Fixpoint apply_hunks_loop (hunks : list Hunk) (a : AffectedPaths) : applyM AffectedPaths :=
  match hunks with
  | [] => st_ret a
  | h :: hunks => a <- apply_hunk h a ;; apply_hunks_loop hunks a
  end.

Definition apply_hunks_to_files (hunks : list Hunk) : applyM AffectedPaths :=
  if bool_decide (hunks = []) then fail (AnyMessage (lit "No files were modified."))
  else apply_hunks_loop hunks (mkAffected [] [] []).
End Operations.

(** * Reporting *)

Definition parse_error_string (e : ParseError) : str :=
  match e with
  | InvalidPatchError m => lit "invalid patch: " ++ m
  | InvalidHunkError m n => lit "invalid hunk at line " ++ lit (pretty n) ++ lit ", " ++ m
  end.

Definition apply_error_string (e : ApplyPatchError) : str :=
  match e with
  | AP_ParseError e => parse_error_string e
  | AP_IoError context source => context ++ lit ": " ++ source
  | AP_ComputeReplacements m => m
  | AP_PathUri m => m
  | AP_ImplicitInvocation =>
      lit "patch detected without explicit call to apply_patch. Rerun as [" ++ [34%N]
      ++ lit "apply_patch" ++ [34%N] ++ lit ", " ++ [34%N] ++ lit "<patch>" ++ [34%N] ++ lit "]"
  end.

(** [to_string] of an [anyhow::Error]: the outermost context only. *)
Definition anyhow_string (e : anyhow_error) : str :=
  match e with
  | AnyIo (Some context) _ => context
  | AnyIo None e => io_message e
  | AnyApply e => apply_error_string e
  | AnyPathUri m => m
  | AnyMessage m => m
  end.

(** [ApplyPatchError::from(io::Error)] *)
Definition from_io (e : io_error) : ApplyPatchError := AP_IoError (lit "I/O error") (io_message e).

Section Output.
Context {P W O : Type} `{PathUri P} `{ExecutorFileSystem P W}.
(** [writeln!] on stdout and stderr: one call per line. *)
Context (write_stdout write_stderr : str → O → O * result io_error unit).
Context (follow_symlinks : bool) (cwd : P).

Definition summary_lines (affected : AffectedPaths) : list str :=
  lit "Success. Updated the following files:"
  :: ((λ p, lit "A " ++ p) <$> added affected)
  ++ ((λ p, lit "M " ++ p) <$> modified affected)
  ++ ((λ p, lit "D " ++ p) <$> deleted affected).

Fixpoint write_lines (ls : list str) (o : O) : O * result io_error unit :=
  match ls with
  | [] => (o, Ok tt)
  | l :: ls =>
      match write_stdout (l ++ [LF]) o with
      | (o, Ok tt) => write_lines ls o
      | (o, Err e) => (o, Err e)
      end
  end.

Definition print_summary (affected : AffectedPaths) (o : O) : O * result io_error unit :=
  write_lines (summary_lines affected) o.

(** [ApplyPatchFailure]: the error and the delta committed before it. *)
Record ApplyPatchFailure := mkFailure { error : ApplyPatchError; failure_delta : AppliedPatchDelta P }.

(** [None] is a panic. *)
Definition outcome : Type := W * O * option (result ApplyPatchFailure (AppliedPatchDelta P)).

Definition report_error (e : anyhow_error) : ApplyPatchError :=
  match e with
  | AnyIo _ io => from_io io
  | _ => AP_IoError (anyhow_string e) (anyhow_string e)
  end.

Definition apply_hunks_with_options (hunks : list Hunk) (w : W) (o : O) : outcome :=
  let '(s, r) := apply_hunks_to_files follow_symlinks cwd hunks (mkEnv w delta_empty) in
  match r with
  | Ok affected_paths =>
      match print_summary affected_paths o with
      | (o, Ok tt) => (world s, o, Some (Ok (delta s)))
      | (o, Err e) => (world s, o, Some (Err (mkFailure (from_io e) (delta s))))
      end
  | Err (Failed e) =>
      match write_stderr (anyhow_string e ++ [LF]) o with
      | (o, Err io) => (world s, o, Some (Err (mkFailure (from_io io) (delta s))))
      | (o, Ok tt) => (world s, o, Some (Err (mkFailure (report_error e) (delta s))))
      end
  | Err Panicked => (world s, o, None)
  end.

Definition invalid_patch_line (e : ParseError) : str :=
  match e with
  | InvalidPatchError m => lit "Invalid patch: " ++ m
  | InvalidHunkError m n => lit "Invalid patch hunk on line " ++ lit (pretty n) ++ lit ": " ++ m
  end.

Definition apply_patch_with_options (patch : str) (w : W) (o : O) : outcome :=
  match parse_patch patch with
  | Ok source => apply_hunks_with_options (args_hunks source) w o
  | Err e =>
      match write_stderr (invalid_patch_line e ++ [LF]) o with
      | (o, Err io) => (w, o, Some (Err (mkFailure (from_io io) delta_empty)))
      | (o, Ok tt) => (w, o, Some (Err (mkFailure (AP_ParseError e) delta_empty)))
      end
  end.
End Output.

(** [apply_patch]: the options' default follows links. *)
Definition apply_patch {P W O} `{PathUri P} `{ExecutorFileSystem P W}
    (write_stdout write_stderr : str → O → O * result io_error unit) (cwd : P) (patch : str) (w : W) (o : O) :=
  apply_patch_with_options write_stdout write_stderr true cwd patch w o.

(** * Texts replayed from a delta *)

Section Delta.
Context {P : Type} `{EqDecision P}.
Implicit Types (v : texts P) (c : AppliedPatchChange P).

Definition replay_change c v : texts P :=
  match change c with
  | ChangeAdd content _ => set_text (change_path c) (Some content) v
  | ChangeDelete _ => set_text (change_path c) None v
  | ChangeUpdate None _ _ new => set_text (change_path c) (Some new) v
  | ChangeUpdate (Some dest) _ _ new => set_text (change_path c) None (set_text dest (Some new) v)
  end.

Definition undo_change c v : texts P :=
  match change c with
  | ChangeAdd _ overwritten => set_text (change_path c) overwritten v
  | ChangeDelete content => set_text (change_path c) (Some content) v
  | ChangeUpdate None old _ _ => set_text (change_path c) (Some old) v
  | ChangeUpdate (Some dest) old overwritten _ =>
      set_text (change_path c) (Some old) (set_text dest overwritten v)
  end.

Definition replay (cs : list (AppliedPatchChange P)) v : texts P := foldl (λ v c, replay_change c v) v cs.
Definition undo (cs : list (AppliedPatchChange P)) v : texts P := foldr undo_change v cs.

#[export] Instance replay_change_proper c :
  Proper (pointwise_relation P eq ==> pointwise_relation P eq) (replay_change c).
Proof. intros v w Hv. unfold replay_change. repeat case_match; by repeat apply set_text_proper. Qed.

#[export] Instance undo_change_proper c :
  Proper (pointwise_relation P eq ==> pointwise_relation P eq) (undo_change c).
Proof. intros v w Hv. unfold undo_change. repeat case_match; by repeat apply set_text_proper. Qed.

#[export] Instance undo_proper cs :
  Proper (pointwise_relation P eq ==> pointwise_relation P eq) (undo cs).
Proof.
  intros v w Hv. induction cs as [|c cs IH]; [done|]. simpl. by apply undo_change_proper.
Qed.

(** [c] turns [v] into [v'] and carries what is needed to turn it back. *)
Definition records c v v' : Prop :=
  (∀ q, v' q = replay_change c v q) ∧ (∀ q, undo_change c v' q = v q).

Inductive recorded (v0 : texts P) : list (AppliedPatchChange P) → texts P → Prop :=
| recorded_nil v : (∀ q, v q = v0 q) → recorded v0 [] v
| recorded_snoc cs c v v' : recorded v0 cs v → records c v v' → recorded v0 (cs ++ [c]) v'.

Lemma recorded_ext v0 cs v v' : recorded v0 cs v → (∀ q, v' q = v q) → recorded v0 cs v'.
Proof.
  intros Hr Hv. destruct Hr as [v Hq|cs c v v1 Hr [H1 H2]].
  - constructor. intros q. by rewrite Hv.
  - econstructor; [done|]. split; intros q; [by rewrite Hv|].
    rewrite <- H2. by apply undo_change_proper.
Qed.

Lemma recorded_replay v0 cs v : recorded v0 cs v → ∀ q, v q = replay cs v0 q.
Proof.
  induction 1 as [v Hv|cs c v v' _ IH [H1 _]]; intros q; [done|].
  unfold replay. rewrite foldl_app, H1. simpl. by apply replay_change_proper.
Qed.

Lemma recorded_undo v0 cs v : recorded v0 cs v → ∀ q, undo cs v q = v0 q.
Proof.
  induction 1 as [v Hv|cs c v v' _ IH [_ H2]]; intros q; [done|].
  unfold undo. rewrite foldr_app. simpl. rewrite <- IH. by apply undo_proper.
Qed.

Lemma records_add p content v v' :
  (∀ q, v' q = set_text p (Some content) v q) →
  records (mkChange p (ChangeAdd content (v p))) v v'.
Proof.
  intros Hv. split; [done|]. intros q. unfold undo_change. simpl.
  rewrite (set_text_proper p (v p) _ _ Hv q), set_text_twice. apply set_text_id.
Qed.

Lemma records_delete p content v v' :
  v p = Some content → (∀ q, v' q = set_text p None v q) →
  records (mkChange p (ChangeDelete content)) v v'.
Proof.
  intros Hp Hv. split; [done|]. intros q. unfold undo_change. simpl.
  rewrite (set_text_proper p _ _ _ Hv q), set_text_twice, <- Hp. apply set_text_id.
Qed.

Lemma records_update p old new v v' :
  v p = Some old → (∀ q, v' q = set_text p (Some new) v q) →
  records (mkChange p (ChangeUpdate None old None new)) v v'.
Proof.
  intros Hp Hv. split; [done|]. intros q. unfold undo_change. simpl.
  rewrite (set_text_proper p _ _ _ Hv q), set_text_twice, <- Hp. apply set_text_id.
Qed.

Lemma records_move p dest old new v v' :
  v p = Some old → (∀ q, v' q = set_text p None (set_text dest (Some new) v) q) →
  records (mkChange p (ChangeUpdate (Some dest) old (v dest) new)) v v'.
Proof.
  intros Hp Hv. split; [done|]. intros q. unfold undo_change. simpl.
  unfold set_text at 1 2. repeat case_decide; subst; try done.
  rewrite Hv. unfold set_text. by rewrite !decide_False.
Qed.
End Delta.

(** * The paths of a patch *)

(** The path texts of a hunk: the file, and where it is moved to. *)
Definition hunk_texts (h : Hunk) : list str :=
  match h with
  | AddFile path _ | DeleteFile path => [path]
  | UpdateFile path move_path _ => path :: option_list move_path
  end.

(** No other path names a file the hunks write or remove. *)
Definition unaliased_targets {P W} `{FileSystemLaws P W} (cwd : P) (hunks : list Hunk) (w : W) : Prop :=
  ∀ h text p, h ∈ hunks → text ∈ hunk_texts h → path_join cwd text = Ok p → unaliased w p.

(** * Every run keeps the delta in step with the files *)

Section Tracking.
Context {P W : Type} `{FileSystemLaws P W}.
Context (follow_symlinks : bool) (cwd : P) (v0 : texts P).

(** The paths the run writes or removes; they are to be unaliased. *)
Context (targets : P → Prop).

Definition clear (w : W) : Prop := ∀ p, targets p → unaliased w p.

Abbreviation env := (@env P W).
Abbreviation applyM := (stE env stop).

(** While the delta claims to be exact, it accounts for all changes since [v0]. *)
Definition tracked (s : env) : Prop :=
  exact_ (delta s) = true → recorded v0 (changes (delta s)) (view (world s)) ∧ clear (world s).

(** ... and [A] holds of the file system. *)
Definition tracked_with (A : W → Prop) (s : env) : Prop :=
  exact_ (delta s) = true →
  (recorded v0 (changes (delta s)) (view (world s)) ∧ clear (world s)) ∧ A (world s).

(** From [Q] the run ends in [R], or stops early with the delta in step. *)
Definition triple {A} (Q : env → Prop) (m : applyM A) (R : A → env → Prop) : Prop :=
  ∀ s, Q s → match m s with (s', Ok a) => R a s' | (s', Err _) => tracked s' end.

Lemma triple_bind {A B} Q (m : applyM A) R (k : A → applyM B) T :
  triple Q m R → (∀ a, triple (R a) (k a) T) → triple Q (st_bind m k) T.
Proof.
  intros Hm Hk s Hs. unfold st_bind. specialize (Hm s Hs).
  destruct (m s) as [s' [a|e]]; [by apply Hk|done].
Qed.

Lemma triple_weaken {A} (Q Q' : env → Prop) (m : applyM A) (R R' : A → env → Prop) :
  triple Q m R → (∀ s, Q' s → Q s) → (∀ a s, R a s → R' a s) → triple Q' m R'.
Proof.
  intros Hm HQ HR s Hs. specialize (Hm s (HQ s Hs)). destruct (m s) as [s' [a|e]]; [by apply HR|done].
Qed.

Lemma triple_ret {A} (Q : env → Prop) (a : A) (R : A → env → Prop) :
  (∀ s, Q s → R a s) → triple Q (st_ret a) R.
Proof. intros HR s Hs. by apply HR. Qed.

Lemma triple_ret_keep {A} (Q : env → Prop) (a : A) : triple Q (st_ret a) (λ _, Q).
Proof. by apply triple_ret. Qed.

(** Once the delta is known to be inexact, anything may follow. *)
Definition inexact (s : env) : Prop := exact_ (delta s) = false.

Lemma inexact_tracked_with A s : inexact s → tracked_with A s.
Proof. unfold inexact, tracked_with. congruence. Qed.

Lemma tracked_with_tracked A s : tracked_with A s → tracked s.
Proof. intros Hs He. by apply Hs. Qed.

Lemma triple_assume {A} (φ : Prop) Q (m : applyM A) R : (φ → triple Q m R) → triple (λ s, Q s ∧ φ) m R.
Proof. intros Hm s [Hs Hφ]. by apply Hm. Qed.

Lemma triple_fail {A} Q e (R : A → env → Prop) : (∀ s, Q s → tracked s) → triple Q (fail e) R.
Proof. intros HQ s Hs. by apply HQ. Qed.

Lemma triple_query {A} Q (op : W → A) :
  triple Q (fs_query op) (λ a s, Q s ∧ a = op (world s)).
Proof. intros s Hs. done. Qed.

Lemma note_triple path A :
  triple (tracked_with A) (note_existing_path_delta_support follow_symlinks path)
    (λ _, tracked_with (λ w, A w ∧ plain_entry follow_symlinks w path)).
Proof.
  intros s Hs. unfold note_existing_path_delta_support, st_bind, fs_query, clear_exact, st_modify, st_ret.
  destruct (get_metadata path follow_symlinks (world s)) as [m|e] eqn:E.
  - destruct (is_file m && negb (is_symlink m)) eqn:Em; [|by apply inexact_tracked_with].
    bool_facts. intros He. destruct (Hs He) as [[? ?] ?]. split_and!; [done..|].
    left. exists m. done.
  - case_bool_decide; [|by apply inexact_tracked_with].
    intros He. destruct (Hs He) as [[? ?] ?]. split_and!; [done..|]. right. eauto.
Qed.

Lemma read_optional_triple path A :
  triple (tracked_with A) (read_optional_file_text_for_delta follow_symlinks path)
    (λ r, tracked_with (λ w, A w ∧ plain_entry follow_symlinks w path ∧ view w path = r)).
Proof.
  eapply triple_bind; [apply note_triple|]. intros [] s Hs.
  unfold st_bind, fs_query, clear_exact, st_modify, st_ret.
  destruct (read_file_text path follow_symlinks (world s)) as [c|e] eqn:E.
  - intros He. destruct (Hs He) as ((? & ?) & ? & ?). split_and!; [done..|]. by eapply read_ok.
  - case_bool_decide; [|by apply inexact_tracked_with].
    intros He. destruct (Hs He) as ((? & ?) & ? & ?). split_and!; [done..|]. by eapply read_missing.
Qed.

(** Facts about regular files survive the operations of a write. *)
Definition still_regular (A : W → Prop) : Prop :=
  ∀ w w', A w → (∀ q, regular follow_symlinks w q → regular follow_symlinks w' q) → A w'.

(** The file at [path] has just been written over the texts [v]. *)
Definition written (A : W → Prop) (B : texts P → Prop) (path : P) (content : str) (s : env) : Prop :=
  exact_ (delta s) = true →
  ∃ v, recorded v0 (changes (delta s)) v ∧ B v ∧ (A (world s) ∧ clear (world s))
       ∧ ∀ q, view (world s) q = set_text path (Some content) v q.

Lemma write_call path content A B :
  still_regular A → targets path →
  triple (tracked_with (λ w, (A w ∧ B (view w)) ∧ plain_entry follow_symlinks w path))
    (fs_call (write_file path content follow_symlinks))
    (λ r s, match r with
            | Ok tt => written A B path content s
            | Err e => kind e = NotFound →
                       tracked_with (λ w, (A w ∧ B (view w)) ∧ plain_entry follow_symlinks w path) s
            end).
Proof.
  intros HA HU s Hs. unfold fs_call.
  destruct (write_file path content follow_symlinks (world s)) as [w' [[]|e]] eqn:E; simpl.
  - intros He. destruct (Hs He) as (Hr & (Ha & Hb) & Hp). exists (view (world s)).
    destruct Hr as [Hr Hc]. destruct (write_ok _ _ _ _ _ E (Hc _ HU) Hp) as [Hv Hreg].
    split_and!; [done|done|by eapply HA| |done]. intros q Hq. by eapply write_unaliased, Hc.
  - intros Hk. by rewrite (write_missing _ _ _ _ _ _ E Hk).
Qed.

Lemma write_retry_triple path content A B :
  still_regular A → targets path → (∀ v v', B v → (∀ q, v' q = v q) → B v') →
  triple (tracked_with (λ w, (A w ∧ B (view w)) ∧ plain_entry follow_symlinks w path))
    (write_file_with_missing_parent_retry follow_symlinks path content)
    (λ r s, r = Ok tt → written A B path content s).
Proof.
  intros HA HU HB. pose proof (write_call path content A B HA HU) as Hw.
  unfold write_file_with_missing_parent_retry. eapply triple_bind; [exact Hw|].
  intros [[]|err]; [by apply triple_ret|].
  case_bool_decide as Hk; [|by apply triple_ret].
  assert (Hc : triple
    (λ s, kind err = NotFound →
          tracked_with (λ w, (A w ∧ B (view w)) ∧ plain_entry follow_symlinks w path) s)
    (match path_parent path with
     | Some parent => fs_call (create_directory parent follow_symlinks)
     | None => st_ret (Ok tt)
     end)
    (λ _, tracked_with (λ w, (A w ∧ B (view w)) ∧ plain_entry follow_symlinks w path))).
  { destruct (path_parent path) as [parent|] eqn:Ep; [|by intros s Hs; apply Hs].
    intros s Hs. unfold fs_call.
    destruct (create_directory parent follow_symlinks (world s)) as [w' r] eqn:E. intros He.
    destruct (Hs Hk He) as ([Hr Hu] & (Ha & Hb) & Hp). destruct (create_directory_texts _ _ _ _ _ E) as [Hv Hreg].
    split_and!; simpl.
    - by eapply recorded_ext.
    - intros q Hq. by eapply create_directory_unaliased, Hu.
    - by eapply HA.
    - by eapply HB.
    - by eapply create_parent_plain; [..|apply Hu|]. }
  eapply triple_bind; [exact Hc|]. intros [[]|e]; [|by apply triple_ret].
  eapply triple_bind; [exact Hw|]. intros [[]|e]; by apply triple_ret.
Qed.

Lemma try_write_triple r (Q : env → Prop) :
  triple (λ s, r = Ok tt → Q s) (try_write r) (λ _, Q).
Proof.
  intros s Hs. destruct r as [[]|e]; simpl; [by apply Hs|].
  unfold try_write, st_bind, clear_exact, st_modify, fail, st_throw. intros He. done.
Qed.

Lemma push_change_triple c A B path content :
  (∀ v v', B v → (∀ q, v' q = set_text path (Some content) v q) → records c v v') →
  triple (written A B path content) (push_change c) (λ _, tracked).
Proof.
  intros Hc s Hs. unfold push_change, st_modify. intros He. simpl in *.
  destruct (Hs He) as (v & Hr & Hb & [_ Hu] & Hv). split; [|done]. econstructor; [done|]. by apply Hc.
Qed.

Lemma tracked_with_True s : tracked s → tracked_with (λ _, True) s.
Proof. intros Hs He. split; [by apply Hs|done]. Qed.

Lemma apply_add_triple path contents :
  targets path →
  triple tracked (apply_add follow_symlinks path contents) (λ _, tracked).
Proof.
  intros HU. eapply triple_bind.
  { eapply triple_weaken; [apply (read_optional_triple path (λ _, True))|apply tracked_with_True|done]. }
  intros over. eapply triple_bind.
  { eapply triple_weaken;
      [apply (write_retry_triple path contents (λ _, True) (λ v, v path = over))| |done].
    - by intros ???.
    - done.
    - intros v v' Hv Heq. by rewrite Heq.
    - intros s Hs He. destruct (Hs He) as (? & ? & ? & ?). done. }
  intros r. eapply triple_bind; [apply try_write_triple|]. intros [].
  apply push_change_triple. intros v v' <-. apply records_add.
Qed.

(** The file at [path] has just been removed from the texts [v]. *)
Definition removed (B : texts P → Prop) (path : P) (s : env) : Prop :=
  exact_ (delta s) = true →
  ∃ v, recorded v0 (changes (delta s)) v ∧ B v ∧ clear (world s)
       ∧ ∀ q, view (world s) q = set_text path None v q.

Lemma remove_failed path expected w w' e :
  fs_remove path follow_symlinks w = (w', Err e) → unaliased w path →
  remove_failure_was_side_effect_free follow_symlinks path expected w' = true →
  ∀ q, view w' q = view w q.
Proof.
  intros Hr Hu Hb q. destruct (remove_err _ _ _ _ _ Hr Hu) as [Hne Hp].
  destruct (decide (q = path)) as [->|]; [|by apply Hne].
  unfold remove_failure_was_side_effect_free in Hb. destruct expected as [x|]; [|done].
  destruct (read_file_text path follow_symlinks w') as [c|] eqn:E; [|done].
  apply read_ok in E. destruct Hp as [?|Hp]; congruence.
Qed.

Lemma remove_or_fail_triple path msg expected (B : texts P → Prop) :
  targets path →
  triple (tracked_with (λ w, regular follow_symlinks w path ∧ B (view w)))
    (remove_or_fail follow_symlinks path msg expected) (λ _, removed B path).
Proof.
  intros HU s Hs. unfold remove_or_fail, st_bind, fs_query, with_context, fail, st_throw, fs_call.
  destruct (ensure_not_directory follow_symlinks path (world s)) as [[]|e];
    [|exact (tracked_with_tracked _ _ Hs)].
  simpl. destruct (fs_remove path follow_symlinks (world s)) as [w' [[]|e]] eqn:E; simpl.
  - intros He. destruct (Hs He) as ([Hr Hu] & Hreg & Hb). exists (view (world s)).
    split_and!; [done..| |by eapply remove_ok; [|apply Hu|]]. intros q Hq. by eapply remove_unaliased, Hu.
  - intros He. simpl in *. apply andb_true_iff in He as [He Hfree].
    destruct (Hs He) as ([Hr Hu] & _). split.
    + eapply recorded_ext; [done|]. by eapply remove_failed; [|apply Hu|].
    + intros q Hq. by eapply remove_unaliased, Hu.
Qed.

Lemma remove_or_fail_delta path msg expected (s s' : env) :
  remove_or_fail follow_symlinks path msg expected s = (s', Ok tt) → delta s' = delta s.
Proof.
  unfold remove_or_fail, st_bind, fs_query, with_context, fail, st_throw, fs_call, and_exact, st_modify.
  destruct (ensure_not_directory follow_symlinks path (world s)) as [[]|e]; [|done]. simpl.
  destruct (fs_remove path follow_symlinks (world s)) as [w' [[]|e]]; [|done]. by intros [= <-].
Qed.

Lemma apply_delete_triple path :
  targets path →
  triple tracked (apply_delete follow_symlinks path) (λ _, tracked).
Proof.
  intros HU. eapply triple_bind.
  { eapply triple_weaken; [apply (note_triple path (λ _, True))|apply tracked_with_True|done]. }
  intros []. eapply triple_bind; [apply triple_query|]. intros r.
  destruct r as [c|e]; simpl.
  - eapply triple_bind; [apply triple_ret_keep|]. intros [].
    eapply triple_bind.
    { eapply triple_weaken; [apply (remove_or_fail_triple path _ _ (λ v, v path = Some c) HU)| |done].
      intros s [Hs Hr] He. destruct (Hs He) as ((? & ?) & _ & ?). symmetry in Hr. split_and!; [done|done|..].
      - by eapply read_metadata.
      - by eapply read_ok. }
    intros [] s Hs. unfold push_change, st_modify. intros He.
    destruct (Hs He) as (v & Hr & Hc & Hu & Hv). split; [|done]. econstructor; [done|]. by apply records_delete.
  - eapply triple_bind.
    { intros s Hs. unfold clear_exact, st_modify.
      by instantiate (1 := λ _, inexact). }
    intros []. eapply triple_bind.
    { eapply triple_weaken; [apply (remove_or_fail_triple path _ _ (λ _, False) HU)| |done].
      intros s Hs. by apply inexact_tracked_with. }
    intros [] s Hs He. by destruct (Hs He) as (v & _ & [] & _).
Qed.

Lemma triple_pre {A} (Q Q' : env → Prop) (m : applyM A) (R : A → env → Prop) :
  triple Q m R → (∀ s, Q' s → Q s) → triple Q' m R.
Proof. intros Hm HQ. eapply triple_weaken; [done..|]. done. Qed.

(** The source of an update: a regular file with the text that was read. *)
Definition source_read (path : P) (original : str) (w : W) : Prop :=
  regular follow_symlinks w path ∧ view w path = Some original.

Lemma apply_move_triple path dest p :
  targets path → targets dest →
  triple (tracked_with (source_read path (original_contents p)))
    (apply_move follow_symlinks path dest p) (λ _, tracked).
Proof.
  intros HU HD. eapply triple_bind; [apply read_optional_triple|]. intros over.
  eapply triple_bind.
  { eapply triple_weaken;
      [apply (write_retry_triple dest (new_contents p) (λ w, regular follow_symlinks w path)
                (λ v, v path = Some (original_contents p) ∧ v dest = over))| |done].
    - intros w w' Hw Hreg. by apply Hreg.
    - done.
    - intros v v' [??] Heq. by rewrite !Heq.
    - intros s Hs He. destruct (Hs He) as (? & (? & ?) & ? & ?). done. }
  intros r. eapply triple_bind; [apply try_write_triple|]. intros [].
  intros s Hs. unfold st_bind at 1, st_get at 1. set (n := length (changes (delta s))).
  unfold st_bind at 1, push_change, st_modify at 1.
  set (c := mkChange dest (ChangeAdd (new_contents p) over)).
  set (s1 := set_changes (changes (delta s) ++ [c]) s).
  assert (Hs1 : tracked_with (λ w, regular follow_symlinks w path ∧
    (∃ v, recorded v0 (changes (delta s)) v ∧ v path = Some (original_contents p) ∧ v dest = over ∧
          ∀ q, view w q = set_text dest (Some (new_contents p)) v q)) s1).
  { intros He. destruct (Hs He) as (v & Hr & (Hp & <-) & (Hreg & Hu) & Hv). split_and!.
    - econstructor; [done|]. by apply records_add.
    - done.
    - done.
    - eauto 10. }
  pose proof (remove_or_fail_triple path
    (lit "Failed to remove original " ++ inferred_native_path_string path) (Some (original_contents p))
    (λ u, ∃ v, recorded v0 (changes (delta s)) v ∧ v path = Some (original_contents p) ∧ v dest = over ∧
          ∀ q, u q = set_text dest (Some (new_contents p)) v q) HU s1 Hs1) as Hrm.
  unfold st_bind. pose proof (remove_or_fail_delta path
    (lit "Failed to remove original " ++ inferred_native_path_string path)
    (Some (original_contents p)) s1) as Hd.
  destruct (remove_or_fail follow_symlinks path _ _ s1) as [s2 [[]|e]]; [|done].
  specialize (Hd s2 eq_refl). intros He. destruct (Hrm He) as (u & _ & (v & Hr & Hp & Ho & Hv) & Hcl & Hu).
  split; [|done]. simpl. rewrite Hd. simpl. rewrite insert_app_r_alt, Nat.sub_diag by done. econstructor; [exact Hr|].
  rewrite <- Ho. apply records_move; [done|]. intros q. rewrite Hu. by apply set_text_proper.
Qed.

Lemma apply_update_triple path mv chunks :
  targets path → (∀ m d, mv = Some m → path_join cwd m = Ok d → targets d) →
  triple tracked (apply_update follow_symlinks cwd path mv chunks) (λ _, tracked).
Proof.
  intros HU HD. eapply triple_bind.
  { eapply triple_weaken; [apply (note_triple path (λ _, True))|apply tracked_with_True|done]. }
  intros []. eapply triple_bind; [apply triple_query|]. intros d.
  eapply (triple_bind _ _ (λ p, tracked_with (source_read path (original_contents p)))).
  { intros s [Hs Hd]. destruct d as [[p|e]|]; [|exact (tracked_with_tracked _ _ Hs)..].
    intros He. destruct (Hs He) as (? & _ & ?). symmetry in Hd.
    unfold derive_new_contents_from_chunks in Hd.
    destruct (read_file_text path follow_symlinks (world s)) as [c|] eqn:E; [|done].
    destruct (new_contents_from_chunks _ c chunks) as [[n|]|]; simplify_eq/=.
    split; [done|]. split; [by eapply read_metadata|by eapply read_ok]. }
  intros p. destruct mv as [dest|].
  - unfold resolve. destruct (path_join cwd dest) as [d'|m] eqn:Ej.
    + eapply (triple_bind _ _ (λ d s, tracked_with (source_read path (original_contents p)) s ∧ d = d'));
        [by apply triple_ret|].
      intros x. apply triple_assume. intros ->. apply apply_move_triple; [done|by eapply HD].
    + eapply (triple_bind _ _ (λ _ _, False)); [|by intros ? ? []].
      apply triple_fail. intros s. apply tracked_with_tracked.
  - eapply triple_bind.
    { eapply triple_weaken;
        [apply (write_call path (new_contents p) (λ _, True) (λ v, v path = Some (original_contents p)))| |].
      - by intros ???.
      - done.
      - intros s Hs He. destruct (Hs He) as ((? & ?) & ? & ?). split_and!; try done. by left.
      - intros a s Hs. exact Hs. }
    intros r. eapply triple_bind.
    { eapply triple_pre; [apply (try_write_triple _ (written (λ _, True)
        (λ v, v path = Some (original_contents p)) path (new_contents p)))|].
      intros s Hs Hr. destruct r as [[]|e]; [done|done]. }
    intros []. apply push_change_triple. intros v v' Hp. by apply records_update.
Qed.

(** Every path the hunk resolves to is a target. *)
Definition targeted (h : Hunk) : Prop :=
  ∀ text p, text ∈ hunk_texts h → path_join cwd text = Ok p → targets p.

Lemma apply_hunk_triple h a :
  targeted h → triple tracked (apply_hunk follow_symlinks cwd h a) (λ _, tracked).
Proof.
  intros HU. unfold apply_hunk. eapply (triple_bind _ _ (λ p s, tracked s ∧ targets p)).
  { unfold resolve_path, resolve. destruct (path_join cwd _) as [p|] eqn:E; [|by apply triple_fail].
    intros s Hs. split; [done|]. eapply HU; [|exact E]. destruct h; set_solver. }
  intros path. apply triple_assume. intros Hp.
  destruct h as [| |f mv chunks]; (eapply (triple_bind _ _ (λ _, tracked)); [|intros []; apply triple_ret_keep]).
  - by apply apply_add_triple.
  - by apply apply_delete_triple.
  - apply apply_update_triple; [done|]. intros m d -> Hd. eapply HU; [|exact Hd]. set_solver.
Qed.

Lemma apply_hunks_triple hunks :
  Forall targeted hunks → triple tracked (apply_hunks_to_files follow_symlinks cwd hunks) (λ _, tracked).
Proof.
  intros HU. unfold apply_hunks_to_files. case_bool_decide; [by apply triple_fail|].
  generalize (mkAffected [] [] []). clear -HU.
  induction HU as [|h hunks Hh _ IH]; intros a; simpl; [apply triple_ret_keep|].
  eapply triple_bind; [by apply apply_hunk_triple|]. intros a'. by apply IH.
Qed.
End Tracking.

Lemma targeted_all {P W} `{FileSystemLaws P W} (cwd : P) hunks (w : W) :
  unaliased_targets cwd hunks w → Forall (targeted cwd (unaliased w)) hunks.
Proof. intros Hu. apply Forall_forall. intros h Hh text p. by apply Hu. Qed.

Lemma tracked_start {P W} `{FileSystemLaws P W} (w : W) :
  tracked (view w) (unaliased w) (mkEnv w delta_empty).
Proof. intros _. split; [by apply recorded_nil|by intros p]. Qed.

(** An exact delta records the changes since the start of the run. *)
Lemma run_recorded {P W} `{FileSystemLaws P W} follow (cwd : P) hunks (w : W) s r :
  unaliased_targets cwd hunks w →
  apply_hunks_to_files follow cwd hunks (mkEnv w delta_empty) = (s, r) → exact_ (delta s) = true →
  recorded (view w) (changes (delta s)) (view (world s)).
Proof.
  intros Hu%targeted_all Hrun He. pose proof (apply_hunks_triple follow cwd (view w) _ hunks Hu _ (tracked_start w)) as Ht.
  rewrite Hrun in Ht. destruct r as [a|e]; by apply Ht.
Qed.

(** ** Parsed hunks never panic *)

Section Panic.
Context {P W : Type} `{PathUri P} `{ExecutorFileSystem P W}.
Context (follow_symlinks : bool) (cwd : P).

(** No run of [m] stops with a panic. *)
Definition no_panic {A} (m : stE (@env P W) stop A) : Prop := ∀ s, snd (m s) ≠ Err Panicked.

Lemma no_panic_bind {A B} (m : stE (@env P W) stop A) (k : A → stE (@env P W) stop B) :
  no_panic m → (∀ a, no_panic (k a)) → no_panic (st_bind m k).
Proof.
  intros Hm Hk s. unfold st_bind. specialize (Hm s). destruct (m s) as [s' [a|e]]; [apply Hk|].
  simpl in *. congruence.
Qed.

Lemma fs_call_no_panic op : no_panic (fs_call (P := P) (W := W) op).
Proof. intros s. unfold fs_call. by destruct (op (world s)). Qed.

Ltac panic_free :=
  repeat match goal with
  | |- ∀ _, _ => intros ?
  | |- no_panic (st_bind _ _) => apply no_panic_bind
  | |- no_panic (fs_call _) => apply fs_call_no_panic
  | |- no_panic (match _ with _ => _ end) => case_match
  | |- no_panic _ => solve [eauto with codex nocore | by intros ?]
  end.

Lemma remove_or_fail_no_panic path msg e : no_panic (remove_or_fail follow_symlinks path msg e).
Proof. unfold remove_or_fail, with_context. panic_free. Qed.

Lemma write_retry_no_panic path c : no_panic (write_file_with_missing_parent_retry follow_symlinks path c).
Proof. unfold write_file_with_missing_parent_retry. panic_free. Qed.

Lemma read_optional_no_panic path : no_panic (read_optional_file_text_for_delta follow_symlinks path).
Proof. unfold read_optional_file_text_for_delta, note_existing_path_delta_support. panic_free. Qed.

Lemma try_write_no_panic r : no_panic (try_write (P := P) (W := W) r).
Proof. unfold try_write. panic_free. Qed.

#[local] Hint Resolve remove_or_fail_no_panic write_retry_no_panic read_optional_no_panic
  try_write_no_panic : codex.

Lemma apply_move_no_panic path dest p : no_panic (apply_move follow_symlinks path dest p).
Proof. unfold apply_move. panic_free. Qed.

Lemma derive_no_panic path chunks w :
  Forall chunk_ok chunks →
  ∃ r, derive_new_contents_from_chunks path follow_symlinks chunks w = Some r.
Proof.
  intros Hc. unfold derive_new_contents_from_chunks.
  destruct (read_file_text path follow_symlinks w) as [c|e]; [|by eexists].
  destruct (new_contents_total (inferred_native_path_string path) c chunks Hc) as [[n|e] ->]; by eexists.
Qed.

Lemma apply_update_no_panic path mv chunks :
  Forall chunk_ok chunks → no_panic (apply_update follow_symlinks cwd path mv chunks).
Proof.
  intros Hc. unfold apply_update. apply no_panic_bind.
  { unfold note_existing_path_delta_support. panic_free. }
  intros _ s. unfold st_bind at 1, fs_query.
  destruct (derive_no_panic path chunks (world s) Hc) as [d ->]. revert s.
  apply no_panic_bind; [panic_free|]. intros p. destruct mv as [dest|].
  - apply no_panic_bind; [unfold resolve; panic_free|]. intros. apply apply_move_no_panic.
  - panic_free.
Qed.

Lemma apply_hunk_no_panic h a : hunk_ok h → no_panic (apply_hunk follow_symlinks cwd h a).
Proof.
  intros Hh. unfold apply_hunk. apply no_panic_bind.
  { unfold resolve_path, resolve. panic_free. }
  intros path. destruct h as [f c|f|f mv chunks]; (apply no_panic_bind; [|by intros _ s]).
  - unfold apply_add. panic_free.
  - unfold apply_delete, note_existing_path_delta_support. panic_free.
  - by apply apply_update_no_panic.
Qed.

Lemma apply_hunks_no_panic hunks :
  Forall hunk_ok hunks → no_panic (apply_hunks_to_files follow_symlinks cwd hunks).
Proof.
  intros Hh. unfold apply_hunks_to_files. case_bool_decide; [by intros s|].
  generalize (mkAffected [] [] []). clear -Hh.
  induction Hh as [|h hunks Hh _ IH]; intros a; simpl; [by intros s|].
  apply no_panic_bind; [by apply apply_hunk_no_panic|exact IH].
Qed.
End Panic.

(** ** What a hunk adds to the delta *)

Section Changes.
Context {P W : Type} `{PathUri P} `{ExecutorFileSystem P W}.
Context (follow_symlinks : bool) (cwd : P).

Definition keeps_changes {A} (m : stE (@env P W) stop A) : Prop :=
  ∀ s, changes (delta (fst (m s))) = changes (delta s).

Lemma keeps_changes_bind {A B} (m : stE (@env P W) stop A) (k : A → stE (@env P W) stop B) :
  keeps_changes m → (∀ a, keeps_changes (k a)) → keeps_changes (st_bind m k).
Proof.
  intros Hm Hk s. unfold st_bind. specialize (Hm s). destruct (m s) as [s' [a|e]]; [|done].
  simpl in *. by rewrite Hk.
Qed.

Lemma fs_call_keeps op : keeps_changes (fs_call (P := P) (W := W) op).
Proof. intros s. unfold fs_call. by destruct (op (world s)). Qed.

Ltac keeps_delta :=
  repeat match goal with
  | |- ∀ _, _ => intros ?
  | |- keeps_changes (st_bind _ _) => apply keeps_changes_bind
  | |- keeps_changes (fs_call _) => apply fs_call_keeps
  | |- keeps_changes (match _ with _ => _ end) => case_match
  | |- keeps_changes _ => by intros ?
  end.

Lemma note_keeps path : keeps_changes (note_existing_path_delta_support follow_symlinks path).
Proof. unfold note_existing_path_delta_support. keeps_delta. Qed.

Lemma read_optional_keeps path : keeps_changes (read_optional_file_text_for_delta follow_symlinks path).
Proof.
  unfold read_optional_file_text_for_delta, note_existing_path_delta_support. keeps_delta.
Qed.

Lemma write_retry_keeps path c :
  keeps_changes (write_file_with_missing_parent_retry follow_symlinks path c).
Proof. unfold write_file_with_missing_parent_retry. keeps_delta. Qed.

Lemma try_write_keeps r : keeps_changes (try_write (P := P) (W := W) r).
Proof. unfold try_write. keeps_delta. Qed.

Lemma remove_or_fail_keeps path msg e : keeps_changes (remove_or_fail follow_symlinks path msg e).
Proof. unfold remove_or_fail, with_context. keeps_delta. Qed.

Lemma keeps_run {A} (m : stE (@env P W) stop A) s s' r :
  keeps_changes m → m s = (s', r) → changes (delta s') = changes (delta s).
Proof. intros Hm Hr. specialize (Hm s). by rewrite Hr in Hm. Qed.

Lemma note_world path (s s' : @env P W) r :
  note_existing_path_delta_support follow_symlinks path s = (s', r) → world s' = world s.
Proof.
  unfold note_existing_path_delta_support, st_bind, fs_query, clear_exact, st_modify, st_ret.
  intros Hn. repeat case_match; by simplify_eq/=.
Qed.

(** The [exact] flag is never set again. *)
Definition exact_falls {A} (m : stE (@env P W) stop A) : Prop :=
  ∀ s, exact_ (delta (fst (m s))) = true → exact_ (delta s) = true.

Lemma exact_falls_bind {A B} (m : stE (@env P W) stop A) (k : A → stE (@env P W) stop B) :
  exact_falls m → (∀ a, exact_falls (k a)) → exact_falls (st_bind m k).
Proof.
  intros Hm Hk s. unfold st_bind. specialize (Hm s). destruct (m s) as [s' [a|e]]; [|done].
  intros He. by apply Hm, (Hk a).
Qed.

Lemma and_exact_falls b : exact_falls (and_exact (P := P) (W := W) b).
Proof. intros s. simpl. by intros [? _]%andb_true_iff. Qed.

Lemma fs_call_falls op : exact_falls (fs_call (P := P) (W := W) op).
Proof. intros s. unfold fs_call. by destruct (op (world s)). Qed.

Ltac falls :=
  repeat match goal with
  | |- ∀ _, _ => intros ?
  | |- exact_falls (st_bind _ _) => apply exact_falls_bind
  | |- exact_falls (fs_call _) => apply fs_call_falls
  | |- exact_falls (and_exact _) => apply and_exact_falls
  | |- exact_falls (match _ with _ => _ end) => case_match
  | |- exact_falls _ => by intros ?
  end.

Lemma remove_or_fail_falls path msg e : exact_falls (remove_or_fail follow_symlinks path msg e).
Proof. unfold remove_or_fail, with_context. falls. Qed.

Lemma falls_run {A} (m : stE (@env P W) stop A) s s' r :
  exact_falls m → m s = (s', r) → exact_ (delta s') = true → exact_ (delta s) = true.
Proof. intros Hm Hr. specialize (Hm s). by rewrite Hr in Hm. Qed.

Lemma apply_hunk_falls h a : exact_falls (apply_hunk follow_symlinks cwd h a).
Proof.
  unfold apply_hunk, resolve_path, resolve, apply_add, apply_delete, apply_update, apply_move,
    read_optional_file_text_for_delta, note_existing_path_delta_support, try_write, fail,
    write_file_with_missing_parent_retry, push_change, resolve.
  falls; apply remove_or_fail_falls.
Qed.

Lemma apply_hunks_loop_falls hunks a : exact_falls (apply_hunks_loop follow_symlinks cwd hunks a).
Proof.
  revert a. induction hunks as [|h hunks IH]; intros a; simpl; [by intros s|].
  apply exact_falls_bind; [apply apply_hunk_falls|exact IH].
Qed.

Lemma apply_add_change path contents (s s' : @env P W) :
  apply_add follow_symlinks path contents s = (s', Ok tt) →
  ∃ over, changes (delta s') = changes (delta s) ++ [mkChange path (ChangeAdd contents over)].
Proof.
  unfold apply_add. intros (s1 & over & H1 & (s2 & r & H2 & (s3 & [] & H3 & [= <-])%st_bind_inv)%st_bind_inv)%st_bind_inv.
  exists over. simpl. apply (keeps_run _ _ _ _ (read_optional_keeps path)) in H1 as <-.
  apply (keeps_run _ _ _ _ (write_retry_keeps path contents)) in H2 as <-.
  by apply (keeps_run _ _ _ _ (try_write_keeps r)) in H3 as ->.
Qed.

Lemma apply_move_change path dest p (s s' : @env P W) :
  apply_move follow_symlinks path dest p s = (s', Ok tt) →
  ∃ over, changes (delta s') = changes (delta s) ++
    [mkChange path (ChangeUpdate (Some dest) (original_contents p) over (new_contents p))].
Proof.
  unfold apply_move. intros (s1 & over & H1 & (s2 & r & H2 & (s3 & [] & H3 & Hk)%st_bind_inv)%st_bind_inv)%st_bind_inv.
  exists over. apply (keeps_run _ _ _ _ (read_optional_keeps dest)) in H1 as <-.
  apply (keeps_run _ _ _ _ (write_retry_keeps dest _)) in H2 as <-.
  apply (keeps_run _ _ _ _ (try_write_keeps r)) in H3 as <-.
  apply st_bind_inv in Hk as (s4 & s4' & [= <- <-] & Hk).
  apply st_bind_inv in Hk as (s5 & [] & [= <-] & Hk).
  apply st_bind_inv in Hk as (s6 & [] & H6 & [= <-]). simpl.
  apply (keeps_run _ _ _ _ (remove_or_fail_keeps path _ _)) in H6 as ->. simpl.
  by rewrite insert_app_r_alt, Nat.sub_diag by done.
Qed.

Lemma apply_update_change path mv chunks (s s' : @env P W) :
  apply_update follow_symlinks cwd path mv chunks s = (s', Ok tt) →
  ∃ p dest over, derive_new_contents_from_chunks path follow_symlinks chunks (world s) = Some (Ok p)
    ∧ match mv with
      | None => dest = None
      | Some m => ∃ d, path_join cwd m = Ok d ∧ dest = Some d
      end
    ∧ changes (delta s') = changes (delta s) ++
        [mkChange path (ChangeUpdate dest (original_contents p) over (new_contents p))].
Proof.
  unfold apply_update. intros (s1 & [] & H1 & (s2 & d & [= <- <-] & (s3 & p & H3 & Hk)%st_bind_inv)%st_bind_inv)%st_bind_inv.
  pose proof (note_world _ _ _ _ H1) as Hw. apply (keeps_run _ _ _ _ (note_keeps path)) in H1 as <-.
  rewrite Hw in H3. destruct (derive_new_contents_from_chunks path follow_symlinks chunks (world s)) as [[p'|e]|];
    [|done..]. injection H3 as <- <-. destruct mv as [m|].
  - apply st_bind_inv in Hk as (s4 & dest & H4 & Hk). unfold resolve in H4.
    destruct (path_join cwd m) as [d|e]; [|done]. injection H4 as <- <-.
    apply apply_move_change in Hk as [over Hk]. exists p', (Some d), over. eauto.
  - apply st_bind_inv in Hk as (s4 & r & H4 & Hk). apply st_bind_inv in Hk as (s5 & [] & H5 & [= <-]).
    apply (keeps_run _ _ _ _ (fs_call_keeps _)) in H4 as <-.
    apply (keeps_run _ _ _ _ (try_write_keeps _)) in H5 as <-. by exists p', None, None.
Qed.

Lemma apply_delete_change path (s s' : @env P W) :
  apply_delete follow_symlinks path s = (s', Ok tt) →
  match read_file_text path follow_symlinks (world s) with
  | Ok c => changes (delta s') = changes (delta s) ++ [mkChange path (ChangeDelete c)]
  | Err _ => exact_ (delta s') = false
  end.
Proof.
  unfold apply_delete. intros (s1 & [] & H1 & (s2 & r & [= <- <-] & (s3 & [] & H3 & (s4 & [] & H4 & Hk)%st_bind_inv)%st_bind_inv)%st_bind_inv)%st_bind_inv.
  pose proof (note_world _ _ _ _ H1) as Hw. apply (keeps_run _ _ _ _ (note_keeps path)) in H1 as <-.
  rewrite Hw in *. pose proof (falls_run _ _ _ _ (remove_or_fail_falls path _ _) H4) as Hf.
  apply (keeps_run _ _ _ _ (remove_or_fail_keeps path _ _)) in H4.
  destruct (read_file_text path follow_symlinks (world s)) as [c|e]; simpl in *.
  - injection H3 as <-. injection Hk as <-. simpl. by rewrite H4.
  - injection H3 as <-. injection Hk as <-. destruct (exact_ (delta s4)); [by specialize (Hf eq_refl)|done].
Qed.
End Changes.

(** ** Summary of a successful run *)

Definition affected_by (h : Hunk) (a : AffectedPaths) : AffectedPaths :=
  match h with
  | AddFile _ _ => push_added (hunk_path h) a
  | DeleteFile _ => push_deleted (hunk_path h) a
  | UpdateFile _ _ _ => push_modified (hunk_path h) a
  end.

Lemma apply_hunk_affected {P W} `{PathUri P} `{ExecutorFileSystem P W} follow (cwd : P) h a
    (s s' : @env P W) a' :
  apply_hunk follow cwd h a s = (s', Ok a') → a' = affected_by h a.
Proof.
  unfold apply_hunk. intros (s1 & path & _ & Hr)%st_bind_inv.
  destruct h; apply st_bind_inv in Hr as (s2 & [] & _ & [= _ <-]); done.
Qed.

Lemma apply_hunks_loop_affected {P W} `{PathUri P} `{ExecutorFileSystem P W} follow (cwd : P) hunks a
    (s s' : @env P W) a' :
  apply_hunks_loop follow cwd hunks a s = (s', Ok a') → a' = foldl (λ a h, affected_by h a) a hunks.
Proof.
  revert a s. induction hunks as [|h hunks IH]; intros a s; simpl; [by intros [= _ <-]|].
  intros (s1 & a1 & H1 & H2)%st_bind_inv. apply apply_hunk_affected in H1 as ->. by eapply IH.
Qed.

Lemma foldl_affected hunks a :
  foldl (λ a h, affected_by h a) a hunks =
  mkAffected (added a ++ omap (λ h, match h with AddFile p _ => Some p | _ => None end) hunks)
    (modified a ++ omap (λ h, match h with UpdateFile _ _ _ => Some (hunk_path h) | _ => None end) hunks)
    (deleted a ++ omap (λ h, match h with DeleteFile p => Some p | _ => None end) hunks).
Proof.
  revert a. induction hunks as [|h hunks IH]; intros [ad mo de]; simpl.
  - by rewrite !app_nil_r.
  - rewrite IH. destruct h; simpl; by rewrite <- ?(assoc_L (++)).
Qed.

(** * Results *)

(** C1: on a file system where no other path names a file the patch writes or
    removes (no symbolic or hard link leads to these paths, and they are no links;
    links elsewhere do not matter), however a run over a patch's hunks ends, a
    delta that is still marked exact tells the whole story: replaying its changes
    on the texts before the run gives the texts after it, and undoing them gives
    back the texts before.  With a link the recorded changes miss the text seen
    at the other path. *)
Theorem exact_delta_replays {P W} `{FileSystemLaws P W} follow (cwd : P) hunks (w : W) s r :
  unaliased_targets cwd hunks w →
  apply_hunks_to_files follow cwd hunks (mkEnv w delta_empty) = (s, r) →
  exact_ (delta s) = true →
  (∀ q, view (world s) q = replay (changes (delta s)) (view w) q)
  ∧ (∀ q, undo (changes (delta s)) (view (world s)) q = view w q).
Proof.
  intros Hu Hrun He. apply run_recorded in Hrun; [|done..].
  split; [by apply recorded_replay|by apply recorded_undo].
Qed.

Definition sample_world : memory :=
  <[mkPosix [] := Directory]> (<[mkPosix [lit "a.txt"] := File (lit "x" ++ [LF] ++ lit "y" ++ [LF])]>
    (<[mkPosix [lit "latest"] := Symlink (mkPosix [lit "log.txt"])]> ∅)).

(** A check of [unaliased_targets] for the file system in memory. *)
Definition targets_clear (cwd : posix) (hunks : list Hunk) (w : memory) : bool :=
  forallb (λ h, forallb (λ text,
    match path_join cwd text with
    | Ok p => match w !! p with Some (Symlink _) => false | _ => true end
              && bool_decide (map_Forall (λ _ e, e ≠ Symlink p) w)
    | Err _ => true
    end) (hunk_texts h)) hunks.

Lemma targets_clear_ok cwd hunks w : targets_clear cwd hunks w = true → unaliased_targets cwd hunks w.
Proof.
  intros Hc h text p Hh Ht Hj. unfold targets_clear in Hc. rewrite forallb_forall in Hc.
  apply list_elem_of_In, Hc in Hh. rewrite forallb_forall in Hh. apply list_elem_of_In, Hh in Ht.
  rewrite Hj in Ht. bool_facts. split; [|done]. intros t Hl. by rewrite Hl in *.
Qed.

Lemma exact_delta_replays_witness :
  let sh := [AddFile (lit "d/new.txt") (lit "hi" ++ [LF]);
             UpdateFile (lit "a.txt") (Some (lit "b.txt"))
               [mkChunk None [lit "x"; lit "y"] [lit "x"; lit "z"] [(0, 0)] false];
             DeleteFile (lit "d/new.txt")] in
  let s := fst (apply_hunks_to_files true (mkPosix []) sh (mkEnv sample_world delta_empty)) in
  length (changes (delta s)) = 3 ∧
  (∀ q, undo (changes (delta s)) (view (world s)) q = view sample_world q).
Proof.
  cbv zeta. split; [vm_compute; reflexivity|].
  refine (proj2 (exact_delta_replays true (mkPosix []) _ _ _ _ _ (surjective_pairing _) _)).
  - apply targets_clear_ok. vm_compute. reflexivity.
  - vm_compute. reflexivity.
Defined.

(** [apply_patch] never panics: on any text, any file system and any
    writers it returns a delta or a failure. *)
Theorem apply_patch_never_panics {P W O} `{PathUri P} `{ExecutorFileSystem P W}
    (write_stdout write_stderr : str → O → O * result io_error unit) (cwd : P) patch (w : W) (o : O) :
  snd (apply_patch write_stdout write_stderr cwd patch w o) ≠ None.
Proof.
  unfold apply_patch, apply_patch_with_options. destruct (parse_patch patch) as [args|e] eqn:Hp.
  - destruct (parse_patch_text_hunks patch Lenient args Hp) as [Hok _]. unfold apply_hunks_with_options.
    pose proof (apply_hunks_no_panic true cwd _ Hok (mkEnv w delta_empty)) as Hn.
    destruct (apply_hunks_to_files true cwd (args_hunks args) (mkEnv w delta_empty)) as [s [a|[e|]]];
      simpl in Hn; [..|done].
    + by destruct (print_summary write_stdout a o) as [o' [[]|]].
    + by destruct (write_stderr (anyhow_string e ++ [LF]) o) as [o' [[]|]].
  - by destruct (write_stderr (invalid_patch_line e ++ [LF]) o) as [o' [[]|]].
Qed.

(** a text that is not a patch changes nothing: the file system is left as it
    was, nothing goes to stdout and the failure carries an empty delta. *)
Theorem rejected_patch_changes_nothing {P W} `{PathUri P} `{ExecutorFileSystem P W}
    (cwd : P) patch e (w : W) (out err : str) :
  parse_patch patch = Err e →
  apply_patch (λ l o, ((fst o ++ l, snd o), Ok tt)) (λ l o, ((fst o, snd o ++ l), Ok tt)) cwd patch w (out, err)
  = (w, (out, err ++ invalid_patch_line e ++ [LF]), Some (Err (mkFailure (AP_ParseError e) delta_empty))).
Proof. intros Hp. unfold apply_patch, apply_patch_with_options. by rewrite Hp. Qed.

Lemma rejected_patch_changes_nothing_witness :
  apply_patch (λ l o, ((fst o ++ l, snd o), Ok tt)) (λ l o, ((fst o, snd o ++ l), Ok tt))
    (mkPosix []) (lit "hello") sample_world ([], [])
  = (sample_world, ([], lit "Invalid patch: " ++ first_line_message ++ [LF]),
     Some (Err (mkFailure (AP_ParseError (InvalidPatchError first_line_message)) delta_empty))).
Proof.
  apply (rejected_patch_changes_nothing (mkPosix []) (lit "hello")
           (InvalidPatchError first_line_message) sample_world [] []).
  vm_compute. reflexivity.
Defined.

(** a run that succeeds reports exactly the hunks' paths, in patch order, by
    kind, a rename under its new name. *)
Theorem affected_paths_reported {P W} `{PathUri P} `{ExecutorFileSystem P W} follow (cwd : P) hunks
    (s s' : @env P W) a :
  apply_hunks_to_files follow cwd hunks s = (s', Ok a) →
  added a = omap (λ h, match h with AddFile p _ => Some p | _ => None end) hunks
  ∧ modified a = omap (λ h, match h with UpdateFile _ _ _ => Some (hunk_path h) | _ => None end) hunks
  ∧ deleted a = omap (λ h, match h with DeleteFile p => Some p | _ => None end) hunks.
Proof.
  unfold apply_hunks_to_files. case_bool_decide; [done|].
  intros ->%apply_hunks_loop_affected. by rewrite foldl_affected.
Qed.

Lemma affected_paths_reported_witness :
  let hs := [UpdateFile (lit "a.txt") (Some (lit "b.txt"))
               [mkChunk None [lit "x"; lit "y"] [lit "x"; lit "z"] [(0, 0)] false]] in
  let a := mkAffected [] [lit "b.txt"] [] in
  added a = [] ∧ modified a = [lit "b.txt"] ∧ deleted a = [].
Proof.
  cbv zeta.
  apply (affected_paths_reported true (mkPosix [])
           [UpdateFile (lit "a.txt") (Some (lit "b.txt"))
              [mkChunk None [lit "x"; lit "y"] [lit "x"; lit "z"] [(0, 0)] false]]
           (mkEnv sample_world delta_empty)
           (fst (apply_hunks_to_files true (mkPosix [])
              [UpdateFile (lit "a.txt") (Some (lit "b.txt"))
                 [mkChunk None [lit "x"; lit "y"] [lit "x"; lit "z"] [(0, 0)] false]]
              (mkEnv sample_world delta_empty)))).
  vm_compute. reflexivity.
Defined.

(** a rename onto the file itself deletes it: the new contents are written to the
    destination, and then the source, the same path, is removed.  The run
    succeeds and reports the file as modified. *)
Example self_rename_deletes :
  let hs := [UpdateFile (lit "a.txt") (Some (lit "a.txt"))
               [mkChunk None [lit "y"] [lit "z"] [] false]] in
  let '(s, r) := apply_hunks_to_files true (mkPosix []) hs (mkEnv sample_world delta_empty) in
  r = Ok (mkAffected [] [lit "a.txt"] []) ∧ world s !! mkPosix [lit "a.txt"] = None.
Proof. vm_compute. split; reflexivity. Qed.

(** a file added at a dangling link: the link's target is created, which the
    exact delta, naming the link, does not tell. *)
Example dangling_link_unrecorded :
  let hs := [AddFile (lit "latest") (lit "hi")] in
  let '(s, r) := apply_hunks_to_files true (mkPosix []) hs (mkEnv sample_world delta_empty) in
  exact_ (delta s) = true ∧ view (world s) (mkPosix [lit "log.txt"]) = Some (lit "hi")
  ∧ replay (changes (delta s)) (view sample_world) (mkPosix [lit "log.txt"]) = None.
Proof. vm_compute. split_and!; reflexivity. Qed.
