(* ===== verification/Invocation.v ===== *)
(** apply-patch/src/invocation.rs: recognising an apply_patch invocation in an
    argument vector and verifying the patch against the files.

    Parameters: [extract_apply_patch_from_bash] (the tree-sitter query on the
    script), [infer_path_convention] of [PathUri], and [unified_diff] of the
    similar crate. *)
From S2P Require Import Prelude Str TextFile PatchParser PatchInvariant FileUpdate FileSystem ApplyPatch.

(** * Data *)

Inductive PathConvention := Posix | Windows.

Inductive ApplyPatchShell := Unix | PowerShell | Cmd.

#[export] Instance ApplyPatchShell_eq_dec : EqDecision ApplyPatchShell.
Proof. solve_decision. Defined.

Inductive ExtractHeredocError :=
| CommandDidNotStartWithApplyPatch
| FailedToLoadBashGrammar (message : str)
| HeredocNotUtf8 (message : str)
| FailedToParsePatchIntoAst
| FailedToFindHeredocBody.

Inductive MaybeApplyPatch :=
| Body (args : ApplyPatchArgs)
| ShellParseError (e : ExtractHeredocError)
| PatchParseError (e : ParseError)
| NotApplyPatch.

Inductive ApplyPatchFileChange (P : Type) :=
| FileAdd (content : str)
| FileDelete (content : str)
| FileUpdate (unified_diff : str) (move_path : option P) (new_content : str).
Arguments FileAdd {P}.
Arguments FileDelete {P}.
Arguments FileUpdate {P}.

Definition APPLY_PATCH_COMMANDS : list str := [lit "apply_patch"; lit "applypatch"].

(** * Shells *)

(** [PathConvention::path_segments]: the last segment is [next_back]. *)
Definition path_segments (c : PathConvention) (path : str) : list str :=
  split_by (λ ch, match c with
                  | Posix => N.eqb ch 47
                  | Windows => N.eqb ch 47 || N.eqb ch 92
                  end) path.

Definition classify_shell_name (shell : str) (convention : PathConvention) : option str :=
  basename ← last (path_segments convention shell);
  let stem := match rsplit_once 46%N basename with
              | Some (stem, _) => if bool_decide (stem = []) then basename else stem
              | None => basename
              end in
  Some (to_ascii_lowercase stem).

Definition classify_shell (shell flag : str) (convention : PathConvention) : option ApplyPatchShell :=
  name ← classify_shell_name shell convention;
  if bool_decide (name ∈ [lit "bash"; lit "zsh"; lit "sh"]) && bool_decide (flag ∈ [lit "-lc"; lit "-c"])
  then Some Unix
  else if bool_decide (name ∈ [lit "pwsh"; lit "powershell"]) && eq_ignore_ascii_case flag (lit "-command")
  then Some PowerShell
  else if (name =s lit "cmd") && eq_ignore_ascii_case flag (lit "/c") then Some Cmd
  else None.

Definition can_skip_flag (shell flag : str) (convention : PathConvention) : bool :=
  match classify_shell_name shell convention with
  | Some name =>
      bool_decide (name ∈ [lit "pwsh"; lit "powershell"]) && eq_ignore_ascii_case flag (lit "-noprofile")
  | None => false
  end.

Section Invocation.
Context {P W : Type} `{PathUri P} `{ExecutorFileSystem P W} `{!Countable P}.
Context (infer_path_convention : P → option PathConvention).
Context (extract_apply_patch_from_bash : str → result ExtractHeredocError (str * option str)).
Context (unified_diff : str → str → nat → str).

Definition parse_shell_script (argv : list str) (cwd : P) : option (ApplyPatchShell * str) :=
  convention ← infer_path_convention cwd;
  match argv with
  | [shell; flag; script] =>
      shell_type ← classify_shell shell flag convention; Some (shell_type, script)
  | [shell; skip_flag; flag; script] =>
      if negb (can_skip_flag shell skip_flag convention) then None
      else shell_type ← classify_shell shell flag convention; Some (shell_type, script)
  | _ => None
  end.

Definition extract_apply_patch_from_shell (shell : ApplyPatchShell) (script : str)
    : result ExtractHeredocError (str * option str) :=
  match shell with Unix | PowerShell | Cmd => extract_apply_patch_from_bash script end.

Definition parse_from_shell (argv : list str) (cwd : P) : MaybeApplyPatch :=
  match parse_shell_script argv cwd with
  | Some (shell, script) =>
      match extract_apply_patch_from_shell shell script with
      | Ok (body, workdir) =>
          match parse_patch body with
          | Ok source => Body (mkArgs (args_patch source) (args_hunks source) workdir
                                 (args_environment_id source))
          | Err e => PatchParseError e
          end
      | Err CommandDidNotStartWithApplyPatch => NotApplyPatch
      | Err e => ShellParseError e
      end
  | None => NotApplyPatch
  end.

Definition maybe_parse_apply_patch (argv : list str) (cwd : P) : MaybeApplyPatch :=
  match argv with
  | [cmd; body] =>
      if bool_decide (cmd ∈ APPLY_PATCH_COMMANDS) then
        match parse_patch body with Ok source => Body source | Err e => PatchParseError e end
      else parse_from_shell argv cwd
  | _ => parse_from_shell argv cwd
  end.

(** * Verification *)

Record ApplyPatchAction := mkAction {
  action_changes : gmap P (ApplyPatchFileChange P);
  action_patch : str;
  action_cwd : P
}.

Inductive MaybeApplyPatchVerified :=
| VerifiedBody (a : ApplyPatchAction)
| VerifiedShellParseError (e : ExtractHeredocError)
| CorrectnessError (e : ApplyPatchError)
| VerifiedNotApplyPatch.

Record ApplyPatchFileUpdate := mkFileUpdate {
  update_unified_diff : str; original_content : str; update_content : str }.

Definition unified_diff_from_chunks_with_context (path : P) (chunks : list UpdateFileChunk)
    (context : nat) (w : W) : option (result ApplyPatchError ApplyPatchFileUpdate) :=
  match derive_new_contents_from_chunks path true chunks w with
  | None => None
  | Some (Err e) => Some (Err e)
  | Some (Ok p) =>
      Some (Ok (mkFileUpdate (unified_diff (original_contents p) (new_contents p) context)
                  (original_contents p) (new_contents p)))
  end.

Definition unified_diff_from_chunks (path : P) (chunks : list UpdateFileChunk) (w : W) :=
  unified_diff_from_chunks_with_context path chunks 1 w.

Definition join_error (r : result str P) : result ApplyPatchError P := map_err AP_PathUri r.

Definition hunk_source_path (h : Hunk) : str :=
  match h with UpdateFile path _ _ => path | _ => hunk_path h end.

(** The change a hunk proposes for the file at [path]; [None] is a panic. *)
Definition verify_hunk (effective_cwd path : P) (h : Hunk) (w : W)
    : option (result ApplyPatchError (ApplyPatchFileChange P)) :=
  match h with
  | AddFile _ contents => Some (Ok (FileAdd contents))
  | DeleteFile _ =>
      match read_file_text path true w with
      | Err source =>
          Some (Err (AP_IoError (lit "Failed to read " ++ inferred_native_path_string path)
                       (io_message source)))
      | Ok content => Some (Ok (FileDelete content))
      end
  | UpdateFile _ move_path chunks =>
      match unified_diff_from_chunks path chunks w with
      | None => None
      | Some (Err e) => Some (Err e)
      | Some (Ok u) =>
          match move_path with
          | None => Some (Ok (FileUpdate (update_unified_diff u) None (update_content u)))
          | Some m =>
              match join_error (path_join effective_cwd m) with
              | Err e => Some (Err e)
              | Ok dest => Some (Ok (FileUpdate (update_unified_diff u) (Some dest) (update_content u)))
              end
          end
      end
  end.

Definition duplicate_target_message (path : P) : str :=
  lit "multiple operations target " ++ inferred_native_path_string path.

Fixpoint verify_hunks (effective_cwd : P) (hunks : list Hunk) (w : W)
    (changes : gmap P (ApplyPatchFileChange P))
    : option (result ApplyPatchError (gmap P (ApplyPatchFileChange P))) :=
  match hunks with
  | [] => Some (Ok changes)
  | h :: hunks =>
      match join_error (path_join effective_cwd (hunk_source_path h)) with
      | Err e => Some (Err e)
      | Ok path =>
          match changes !! path with
          | Some _ => Some (Err (AP_ParseError (InvalidPatchError (duplicate_target_message path))))
          | None =>
              match verify_hunk effective_cwd path h w with
              | None => None
              | Some (Err e) => Some (Err e)
              | Some (Ok c) => verify_hunks effective_cwd hunks w (<[path := c]> changes)
              end
          end
      end
  end.

Definition try_verify_apply_patch_args (args : ApplyPatchArgs) (cwd : P) (w : W)
    : option (result ApplyPatchError ApplyPatchAction) :=
  match match args_workdir args with
        | Some dir => join_error (path_join cwd dir)
        | None => Ok cwd
        end with
  | Err e => Some (Err e)
  | Ok effective_cwd =>
      match verify_hunks effective_cwd (args_hunks args) w ∅ with
      | None => None
      | Some (Err e) => Some (Err e)
      | Some (Ok changes) => Some (Ok (mkAction changes (args_patch args) effective_cwd))
      end
  end.

Definition verify_apply_patch_args (args : ApplyPatchArgs) (cwd : P) (w : W)
    : option MaybeApplyPatchVerified :=
  match try_verify_apply_patch_args args cwd w with
  | None => None
  | Some (Ok action) => Some (VerifiedBody action)
  | Some (Err err) => Some (CorrectnessError err)
  end.

Definition is_raw_patch (argv : list str) (cwd : P) : bool :=
  match argv with [body] => is_ok (parse_patch body) | _ => false end
  || match parse_shell_script argv cwd with
     | Some (_, script) => is_ok (parse_patch script)
     | None => false
     end.

Definition maybe_parse_apply_patch_verified (argv : list str) (cwd : P) (w : W)
    : option MaybeApplyPatchVerified :=
  if is_raw_patch argv cwd then Some (CorrectnessError AP_ImplicitInvocation)
  else match maybe_parse_apply_patch argv cwd with
  | Body args => verify_apply_patch_args args cwd w
  | ShellParseError e => Some (VerifiedShellParseError e)
  | PatchParseError e => Some (CorrectnessError (AP_ParseError e))
  | NotApplyPatch => Some VerifiedNotApplyPatch
  end.

(** * Facts *)

Lemma verify_hunks_spec cwd hunks w m m' :
  verify_hunks cwd hunks w m = Some (Ok m') →
  size m' = size m + length hunks
  ∧ (∀ p c, m !! p = Some c → m' !! p = Some c)
  ∧ ∀ h, h ∈ hunks → ∃ p c, path_join cwd (hunk_source_path h) = Ok p
                            ∧ verify_hunk cwd p h w = Some (Ok c) ∧ m' !! p = Some c ∧ m !! p = None.
Proof.
  revert m. induction hunks as [|h hunks IH]; intros m; simpl.
  { intros [= <-]. split_and!; [lia|done|]. by intros h Hh%elem_of_nil. }
  destruct (path_join cwd (hunk_source_path h)) as [p|e] eqn:Hj; [|done]. simpl.
  destruct (m !! p) eqn:Em; [done|].
  destruct (verify_hunk cwd p h w) as [[c|e]|] eqn:Hc; [|done..].
  intros (Hs & Hk & Hh)%IH. rewrite map_size_insert_None in Hs by done. split_and!.
  - lia.
  - intros q d Hq. apply Hk. rewrite lookup_insert_ne; [done|]. congruence.
  - intros h' [->|Hin]%elem_of_cons.
    + exists p, c. split_and!; [done..| |done]. apply Hk. by rewrite lookup_insert_eq.
    + destruct (Hh h' Hin) as (p' & c' & H1 & H2 & H3 & H4). exists p', c'. split_and!; [done..|].
      apply lookup_insert_None in H4 as [? _]. done.
Qed.

Lemma verify_hunks_total cwd hunks w m :
  Forall hunk_ok hunks → ∃ r, verify_hunks cwd hunks w m = Some r.
Proof.
  intros Hok. revert m. induction Hok as [|h hunks Hh _ IH]; intros m; simpl; [by eexists|].
  destruct (path_join cwd (hunk_source_path h)) as [p|e]; [|by eexists]. simpl.
  destruct (m !! p); [by eexists|].
  assert (Hv : ∃ r, verify_hunk cwd p h w = Some r).
  { destruct h as [f c|f|f mv chunks]; simpl; [by eexists|by case_match; eexists|].
    unfold unified_diff_from_chunks, unified_diff_from_chunks_with_context.
    destruct (derive_no_panic true p chunks w Hh) as [[u|e] ->]; [|by eexists].
    destruct mv; [|by eexists]. destruct (path_join cwd _); by eexists. }
  destruct Hv as [[c|e] ->]; [apply IH|by eexists].
Qed.

Lemma maybe_parse_hunks_ok argv cwd args :
  maybe_parse_apply_patch argv cwd = Body args → Forall hunk_ok (args_hunks args).
Proof.
  assert (Hp : ∀ t a, parse_patch t = Ok a → Forall hunk_ok (args_hunks a)).
  { intros t a Ha. by destruct (parse_patch_text_hunks t Lenient a Ha). }
  assert (Hs : parse_from_shell argv cwd = Body args → Forall hunk_ok (args_hunks args)).
  { unfold parse_from_shell. intros Hs. repeat case_match; simplify_eq/=; by eapply Hp. }
  unfold maybe_parse_apply_patch. intros Hm. repeat case_match; simplify_eq; eauto.
Qed.
End Invocation.

(** * What was verified is what is applied *)

Section Agreement.
Context {P W : Type} `{FileSystemLaws P W} `{!Countable P}.
Context (unified_diff : str → str → nat → str) (cwd : P) (w0 : W) (follow_symlinks : bool).

(** The committed change is the one that was proposed. *)
Definition agrees (c : ApplyPatchFileChange P) (ch : AppliedPatchFileChange P) : Prop :=
  match c, ch with
  | FileAdd content, ChangeAdd content' _ => content' = content
  | FileDelete content, ChangeDelete content' => content' = content
  | FileUpdate _ dest new, ChangeUpdate dest' _ _ new' => dest' = dest ∧ new' = new
  | _, _ => False
  end.

(** The paths a proposed change touches. *)
Definition touched (p : P) (c : ApplyPatchFileChange P) : list P :=
  p :: match c with FileUpdate _ (Some dest) _ => [dest] | _ => [] end.

Definition change_touches (ch : AppliedPatchChange P) : list P :=
  change_path ch :: match change ch with ChangeUpdate (Some dest) _ _ _ => [dest] | _ => [] end.

Lemma agrees_touches p c ch :
  change_path ch = p → agrees c (change ch) → change_touches ch = touched p c.
Proof.
  intros <-. unfold change_touches, touched. destruct c as [| |? d ?], (change ch) as [| |d' ???];
    simpl; try done. by intros [-> _].
Qed.

Lemma replay_untouched cs (v : texts P) q :
  (∀ ch, ch ∈ cs → q ∉ change_touches ch) → replay cs v q = v q.
Proof.
  revert v. induction cs as [|ch cs IH]; intros v Hq; [done|]. simpl. rewrite IH.
  - pose proof (Hq ch ltac:(left)) as Hn. unfold change_touches in Hn. unfold replay_change, set_text.
    destruct (change ch) as [| |[d|] ???]; rewrite ?decide_False; set_solver.
  - intros ch' Hch. apply Hq. by right.
Qed.

(** One verified hunk, applied to a file system that still has the verified
    text at its path. *)
Lemma apply_hunk_agrees h a p c (s s' : @env P W) a' :
  path_join cwd (hunk_source_path h) = Ok p →
  verify_hunk unified_diff cwd p h w0 = Some (Ok c) →
  view (world s) p = view w0 p →
  apply_hunk follow_symlinks cwd h a s = (s', Ok a') → exact_ (delta s') = true →
  ∃ ch, changes (delta s') = changes (delta s) ++ [ch] ∧ change_path ch = p ∧ agrees c (change ch).
Proof.
  intros Hj Hv Hsame Hrun He. unfold apply_hunk in Hrun.
  apply st_bind_inv in Hrun as (s1 & p1 & Hr1 & Hrun). unfold resolve_path, resolve in Hr1.
  change (match h with UpdateFile path _ _ => path | _ => hunk_path h end) with (hunk_source_path h) in Hr1.
  rewrite Hj in Hr1. injection Hr1 as <- <-.
  destruct h as [f contents|f|f mv chunks]; apply st_bind_inv in Hrun as (s2 & [] & Hr2 & [= <- _]).
  - apply apply_add_change in Hr2 as [over ->]. simplify_eq/=. by eexists.
  - apply apply_delete_change in Hr2. simpl in Hv.
    destruct (read_file_text p true w0) as [x|] eqn:E0; [|done]. injection Hv as <-.
    destruct (read_file_text p follow_symlinks (world s)) as [y|] eqn:E1; [|congruence].
    rewrite Hr2. eexists. split_and!; [done..|]. apply read_ok in E0, E1. simpl. congruence.
  - apply apply_update_change in Hr2 as (q & dest & over & Hd & Hdest & ->).
    eexists. split_and!; [done..|]. simpl in Hv.
    unfold unified_diff_from_chunks, unified_diff_from_chunks_with_context in Hv.
    unfold derive_new_contents_from_chunks in Hv, Hd.
    destruct (read_file_text p true w0) as [x|] eqn:E0; [|done].
    destruct (read_file_text p follow_symlinks (world s)) as [y|] eqn:E1; [|done].
    apply read_ok in E0, E1. assert (y = x) as -> by congruence.
    destruct (new_contents_from_chunks (inferred_native_path_string p) x chunks) as [[n|]|]; [|done..].
    injection Hd as <-. destruct mv as [m|]; [|by simplify_eq/=].
    destruct Hdest as (d & Hd & ->). rewrite Hd in Hv. by simplify_eq/=.
Qed.

(** The paths touched by the changes made so far. *)
Definition done_paths (s : @env P W) : list P := mjoin (change_touches <$> changes (delta s)).

Lemma untouched_text s q :
  tracked (view w0) (unaliased w0) s → exact_ (delta s) = true → q ∉ done_paths s → view (world s) q = view w0 q.
Proof.
  intros Ht He Hq. rewrite (recorded_replay _ _ _ (proj1 (Ht He))). apply replay_untouched.
  intros ch Hch Hin. apply Hq. unfold done_paths. apply list_elem_of_join. eexists. split; [done|].
  by apply list_elem_of_fmap_2.
Qed.

Definition verified (h : Hunk) (pc : P * ApplyPatchFileChange P) : Prop :=
  path_join cwd (hunk_source_path h) = Ok (fst pc)
  ∧ verify_hunk unified_diff cwd (fst pc) h w0 = Some (Ok (snd pc)).

Definition committed (pc : P * ApplyPatchFileChange P) (ch : AppliedPatchChange P) : Prop :=
  change_path ch = fst pc ∧ agrees (snd pc) (change ch).

Definition all_touched (pcs : list (P * ApplyPatchFileChange P)) : list P :=
  mjoin ((λ pc, touched (fst pc) (snd pc)) <$> pcs).

Lemma apply_hunks_agree hunks pcs a (s s' : @env P W) a' :
  Forall2 verified hunks pcs → NoDup (done_paths s ++ all_touched pcs) →
  Forall (targeted cwd (unaliased w0)) hunks → tracked (view w0) (unaliased w0) s →
  apply_hunks_loop follow_symlinks cwd hunks a s = (s', Ok a') → exact_ (delta s') = true →
  ∃ chs, changes (delta s') = changes (delta s) ++ chs ∧ Forall2 committed pcs chs.
Proof.
  intros Hv. revert a s. induction Hv as [|h [p c] hunks pcs [Hj Hvh] _ IH]; intros a s Hnd Hu Ht Hrun He.
  { simpl in Hrun. injection Hrun as <- _. exists []. rewrite app_nil_r. by split. }
  inversion Hu as [|? ? Hh Hu']; subst. simpl in Hrun. apply st_bind_inv in Hrun as (s1 & a1 & Hr1 & Hrun). simpl in *.
  pose proof (falls_run _ _ _ _ (apply_hunks_loop_falls follow_symlinks cwd hunks a1) Hrun He) as He1.
  pose proof (falls_run _ _ _ _ (apply_hunk_falls follow_symlinks cwd h a) Hr1 He1) as He0.
  assert (Hsame : view (world s) p = view w0 p).
  { apply untouched_text; [done..|]. intros Hin. apply NoDup_app in Hnd as (_ & Hd & _).
    apply (Hd p Hin). unfold all_touched. simpl. set_solver. }
  destruct (apply_hunk_agrees h a p c s s1 a1 Hj Hvh Hsame Hr1 He1) as (ch & Hch & Hcp & Hag).
  destruct (IH a1 s1) as (chs & Hchs & Hall); try done.
  - unfold done_paths. rewrite Hch, fmap_app, mjoin_app.
    change (mjoin (change_touches <$> [ch])) with (change_touches ch ++ []).
    rewrite app_nil_r, (agrees_touches p c ch Hcp Hag), <- (assoc_L (++)). exact Hnd.
  - pose proof (apply_hunk_triple follow_symlinks cwd (view w0) _ h a Hh s Ht) as Htr. by rewrite Hr1 in Htr.
  - exists (ch :: chs). split; [by rewrite Hchs, Hch, <- (assoc_L (++))|]. by constructor.
Qed.
End Agreement.

(** * Results *)

(** a verified patch proposes exactly one change per hunk, each under the
    path the hunk resolves to and computed from the files as they are; no two
    hunks target the same path. *)
Theorem verified_one_change_per_hunk {P W} `{PathUri P} `{ExecutorFileSystem P W} `{!Countable P}
    unified_diff (args : ApplyPatchArgs) (cwd : P) (w : W) action :
  try_verify_apply_patch_args unified_diff args cwd w = Some (Ok action) →
  size (action_changes action) = length (args_hunks args)
  ∧ ∀ h, h ∈ args_hunks args →
      ∃ p c, path_join (action_cwd action) (hunk_source_path h) = Ok p
             ∧ verify_hunk unified_diff (action_cwd action) p h w = Some (Ok c)
             ∧ action_changes action !! p = Some c.
Proof.
  unfold try_verify_apply_patch_args. destruct (match args_workdir args with Some _ => _ | None => _ end)
    as [ecwd|e]; [|done].
  destruct (verify_hunks unified_diff ecwd (args_hunks args) w ∅) as [[m|e]|] eqn:Hv; [|done..].
  intros [= <-]. simpl. apply verify_hunks_spec in Hv as (Hs & _ & Hh). split; [done|].
  intros h Hin. destruct (Hh h Hin) as (p & c & H1 & H2 & H3 & _). eauto.
Qed.

Definition sample_verify_args : ApplyPatchArgs :=
  mkArgs [] [AddFile (lit "n") (lit "t"); DeleteFile (lit "a.txt")] (Some (lit ".")) None.

Definition sample_action : ApplyPatchAction :=
  mkAction (<[mkPosix [lit "a.txt"] := FileDelete (lit "x" ++ [LF] ++ lit "y" ++ [LF])]>
              (<[mkPosix [lit "n"] := FileAdd (lit "t")]> ∅)) [] (mkPosix []).

Lemma verified_one_change_per_hunk_witness :
  size (action_changes sample_action) = length (args_hunks sample_verify_args).
Proof.
  refine (proj1 (verified_one_change_per_hunk (λ _ _ _, []) sample_verify_args (mkPosix []) sample_world _ _)).
  vm_compute. reflexivity.
Defined.

(** C23: what was verified is what is applied: when the verified hunks touch
    pairwise different paths, and no other path names a file they write or remove
    (no link leads there, and none of them is a link), a run over the same
    files, following links or refusing them, that succeeds with an exact delta
    commits, hunk by hunk, the proposed changes. *)
Theorem verified_is_applied {P W} `{FileSystemLaws P W} `{!Countable P} unified_diff follow (cwd : P) (w : W)
    hunks pcs s a :
  Forall2 (verified unified_diff cwd w) hunks pcs → NoDup (all_touched pcs) → unaliased_targets cwd hunks w →
  apply_hunks_to_files follow cwd hunks (mkEnv w delta_empty) = (s, Ok a) →
  exact_ (delta s) = true →
  Forall2 committed pcs (changes (delta s)).
Proof.
  unfold apply_hunks_to_files. intros Hv Hnd Hu%targeted_all. case_bool_decide; [done|]. intros Hrun He.
  destruct (apply_hunks_agree unified_diff cwd w follow hunks pcs _ (mkEnv w delta_empty) _ _ Hv Hnd Hu
              (tracked_start w) Hrun He)
    as (chs & -> & Hall). done.
Qed.

Definition sample_verified_hunks : list Hunk :=
  [UpdateFile (lit "a.txt") (Some (lit "b.txt")) [mkChunk None [lit "y"] [lit "z"] [] false];
   AddFile (lit "c.txt") (lit "c")].

Definition sample_proposed : list (posix * ApplyPatchFileChange posix) :=
  [(mkPosix [lit "a.txt"],
    FileUpdate [] (Some (mkPosix [lit "b.txt"])) (lit "x" ++ [LF] ++ lit "z" ++ [LF]));
   (mkPosix [lit "c.txt"], FileAdd (lit "c"))].

Lemma verified_is_applied_witness :
  let s := fst (apply_hunks_to_files true (mkPosix []) sample_verified_hunks (mkEnv sample_world delta_empty)) in
  Forall2 committed sample_proposed (changes (delta s)).
Proof.
  apply (verified_is_applied (λ _ _ _, []) true (mkPosix []) sample_world sample_verified_hunks
           sample_proposed _ (mkAffected [lit "c.txt"] [lit "b.txt"] [])).
  - repeat (apply Forall2_cons; split; [split; vm_compute; reflexivity|]). constructor.
  - apply (bool_decide_eq_true (NoDup _)). vm_compute. reflexivity.
  - apply targets_clear_ok. vm_compute. reflexivity.
  - vm_compute. reflexivity.
  - vm_compute. reflexivity.
Defined.

(** verification never panics, and a bare patch passed as the command or as a
    shell script is always refused. *)
Theorem verification_total {P W} `{PathUri P} `{ExecutorFileSystem P W} `{!Countable P}
    infer_convention extract unified_diff argv (cwd : P) (w : W) :
  ∃ r, maybe_parse_apply_patch_verified infer_convention extract unified_diff argv cwd w = Some r
       ∧ (is_raw_patch infer_convention argv cwd = true → r = CorrectnessError AP_ImplicitInvocation)
       ∧ (∀ action, r = VerifiedBody action →
            ∃ args, maybe_parse_apply_patch infer_convention extract argv cwd = Body args
                    ∧ action_patch action = args_patch args).
Proof.
  unfold maybe_parse_apply_patch_verified.
  destruct (is_raw_patch infer_convention argv cwd); [eexists; split_and!; [done..|]; naive_solver|].
  destruct (maybe_parse_apply_patch infer_convention extract argv cwd) as [args|e|e|] eqn:Hm.
  2-4: eexists; split_and!; [done..|]; naive_solver.
  apply maybe_parse_hunks_ok in Hm. unfold verify_apply_patch_args, try_verify_apply_patch_args.
  destruct (match args_workdir args with Some _ => _ | None => _ end) as [ecwd|e];
    [|eexists; split_and!; [done..|]; naive_solver].
  destruct (verify_hunks_total unified_diff ecwd (args_hunks args) w ∅ Hm) as [[m|e] ->];
    (eexists; split_and!; [done..|]); naive_solver.
Qed.
