(* ===== verification/ExecPolicy.v ===== *)
(** execpolicy/src: decisions, prefix rules, network rules and the policy that
    decides whether a command may run.

    Parameters: [AbsolutePathBuf::try_from] and the file name of a path, and
    shlex's [try_join] for the example messages.  A [MultiMap] is a map to the
    list of its values in insertion order.  [None] of [from_matches] is the
    panic of its [expect]. *)
From S2P Require Import Prelude Str.

(** * decision.rs *)

Inductive Decision := Allow | Prompt | Forbidden.

#[export] Instance Decision_eq_dec : EqDecision Decision.
Proof. solve_decision. Defined.

(** The derived [Ord]: the order of the variants. *)
Definition decision_rank (d : Decision) : nat :=
  match d with Allow => 0 | Prompt => 1 | Forbidden => 2 end.

Definition decision_max (a b : Decision) : Decision :=
  if decision_rank a <=? decision_rank b then b else a.

Inductive Error :=
| InvalidDecision (s : str)
| InvalidPattern (s : str)
| InvalidRule (s : str)
| ExampleDidNotMatch (examples : list str)
| ExampleDidMatch (example : str).

Definition decision_parse (raw : str) : result Error Decision :=
  if raw =s lit "allow" then Ok Allow
  else if raw =s lit "prompt" then Ok Prompt
  else if raw =s lit "forbidden" then Ok Forbidden
  else Err (InvalidDecision raw).

(** * rule.rs *)

Inductive PatternToken := Single (expected : str) | Alts (alternatives : list str).

Definition token_matches (t : PatternToken) (token : str) : bool :=
  match t with
  | Single expected => expected =s token
  | Alts alternatives => existsb (λ alt, alt =s token) alternatives
  end.

Definition alternatives (t : PatternToken) : list str :=
  match t with Single expected => [expected] | Alts alternatives => alternatives end.

Record PrefixPattern := mkPattern { first : str; rest : list PatternToken }.

(** The loop over [self.rest.iter().zip(&cmd[1..pattern_length])]. *)
Fixpoint zip_matches (ts : list PatternToken) (tokens : list str) : bool :=
  match ts, tokens with
  | t :: ts, token :: tokens => if negb (token_matches t token) then false else zip_matches ts tokens
  | _, _ => true
  end.

Definition matches_prefix (p : PrefixPattern) (cmd : list str) : option (list str) :=
  let pattern_length := length (rest p) + 1 in
  match cmd with
  | [] => None
  | head :: tokens =>
      if (length cmd <? pattern_length) || negb (head =s first p) then None
      else if zip_matches (rest p) (take (pattern_length - 1) tokens) then Some (take pattern_length cmd)
      else None
  end.

Inductive NetworkRuleProtocol := Http | Https | Socks5Tcp | Socks5Udp.

Definition protocol_parse (raw : str) : result Error NetworkRuleProtocol :=
  if raw =s lit "http" then Ok Http
  else if bool_decide (raw ∈ [lit "https"; lit "https_connect"; lit "http-connect"]) then Ok Https
  else if raw =s lit "socks5_tcp" then Ok Socks5Tcp
  else if raw =s lit "socks5_udp" then Ok Socks5Udp
  else Err (InvalidRule (lit "network_rule protocol must be one of http, https, socks5_tcp, socks5_udp (got "
                         ++ raw ++ lit ")")).

Definition as_policy_string (p : NetworkRuleProtocol) : str :=
  match p with
  | Http => lit "http" | Https => lit "https" | Socks5Tcp => lit "socks5_tcp" | Socks5Udp => lit "socks5_udp"
  end.

Record NetworkRule := mkNetworkRule {
  host : str; protocol : NetworkRuleProtocol; net_decision : Decision; net_justification : option str }.

(** [s.strip_prefix(':').is_some_and(|port| !port.is_empty() && all digits)] *)
Definition is_port (s : str) : bool := negb (bool_decide (s = [])) && forallb is_ascii_digit s.

Definition COLON : N := 58.

Definition host_without_port (raw host : str) : result Error str :=
  match strip_prefix [91%N] host with
  | Some stripped =>
      match split_once [93%N] stripped with
      | None => Err (InvalidRule (lit "network_rule host has an invalid bracketed IPv6 literal"))
      | Some (inside, rest) =>
          let port_ok := match strip_prefix [COLON] rest with Some port => is_port port | None => false end in
          if negb (bool_decide (rest = [])) && negb port_ok
          then Err (InvalidRule (lit "network_rule host contains an unsupported suffix: " ++ raw))
          else Ok inside
      end
  | None =>
      if length (filter (λ c, c = COLON) host) =? 1 then
        match rsplit_once COLON host with
        | Some (candidate, port) =>
            if negb (bool_decide (candidate = [])) && is_port port then Ok candidate else Ok host
        | None => Ok host
        end
      else Ok host
  end.

Definition normalize_network_rule_host (raw : str) : result Error str :=
  let host := trim raw in
  if bool_decide (host = []) then Err (InvalidRule (lit "network_rule host cannot be empty"))
  else if str_contains (lit "://") host || str_contains (lit "/") host || str_contains (lit "?") host
          || str_contains (lit "#") host
  then Err (InvalidRule (lit "network_rule host must be a hostname or IP literal (without scheme or path)"))
  else
    let? host := host_without_port raw host in
    let normalized := to_ascii_lowercase (trim (trim_end_by (N.eqb 46) host)) in
    if bool_decide (normalized = []) then Err (InvalidRule (lit "network_rule host cannot be empty"))
    else if str_contains (lit "*") normalized
    then Err (InvalidRule (lit "network_rule host must be a specific host; wildcards are not allowed"))
    else if existsb is_whitespace normalized
    then Err (InvalidRule (lit "network_rule host cannot contain whitespace"))
    else Ok normalized.

(** * policy.rs *)

Section Policy.
Context {A : Type} `{EqDecision A}.
Context (abs_path_try_from : str → option A) (file_name : A → option str).

Record PrefixRule := mkRule { pattern : PrefixPattern; decision : Decision; justification : option str }.

Inductive RuleMatch :=
| PrefixRuleMatch (matched_prefix : list str) (decision : Decision) (resolved_program : option A)
    (justification : option str)
| HeuristicsRuleMatch (command : list str) (decision : Decision).

Definition match_decision (m : RuleMatch) : Decision :=
  match m with PrefixRuleMatch _ d _ _ => d | HeuristicsRuleMatch _ d => d end.

Definition with_resolved_program (program : A) (m : RuleMatch) : RuleMatch :=
  match m with
  | PrefixRuleMatch prefix d _ j => PrefixRuleMatch prefix d (Some program) j
  | other => other
  end.

(** [PrefixRule::matches] *)
Definition rule_matches (cmd : list str) (r : PrefixRule) : option RuleMatch :=
  matched_prefix ← matches_prefix (pattern r) cmd;
  Some (PrefixRuleMatch matched_prefix (decision r) None (justification r)).

Record Policy := mkPolicy {
  rules_by_program : gmap str (list PrefixRule);
  network_rules : list NetworkRule;
  host_executables_by_name : gmap str (list A)
}.

Definition policy_empty : Policy := mkPolicy ∅ [] ∅.

(** [MultiMap::insert] *)
Definition multimap_insert (k : str) (r : PrefixRule) (m : gmap str (list PrefixRule))
    : gmap str (list PrefixRule) :=
  <[k := default [] (m !! k) ++ [r]]> m.

Definition add_prefix_rule (prefix : list str) (d : Decision) (p : Policy) : Policy * result Error unit :=
  match prefix with
  | [] => (p, Err (InvalidPattern (lit "prefix cannot be empty")))
  | first_token :: rest =>
      let rule := mkRule (mkPattern first_token (Single <$> rest)) d None in
      (mkPolicy (multimap_insert first_token rule (rules_by_program p)) (network_rules p)
         (host_executables_by_name p), Ok tt)
  end.

Definition add_network_rule (h : str) (proto : NetworkRuleProtocol) (d : Decision)
    (j : option str) (p : Policy) : Policy * result Error unit :=
  match normalize_network_rule_host h with
  | Err e => (p, Err e)
  | Ok h =>
      if match j with Some raw => bool_decide (trim raw = []) | None => false end
      then (p, Err (InvalidRule (lit "justification cannot be empty")))
      else (mkPolicy (rules_by_program p) (network_rules p ++ [mkNetworkRule h proto d j])
              (host_executables_by_name p), Ok tt)
  end.

Definition set_host_executable_paths (name : str) (paths : list A) (p : Policy) : Policy :=
  mkPolicy (rules_by_program p) (network_rules p) (<[name := paths]> (host_executables_by_name p)).

Definition merge_overlay (self overlay : Policy) : Policy :=
  mkPolicy
    (map_fold (λ program rules acc, foldl (λ acc r, multimap_insert program r acc) acc rules)
       (rules_by_program self) (rules_by_program overlay))
    (network_rules self ++ network_rules overlay)
    (host_executables_by_name overlay ∪ host_executables_by_name self).

(** ** Network domains *)

Definition retain_not (h : str) (entries : list str) : list str := filter (λ e, e ≠ h) entries.

Definition upsert_domain (entries : list str) (h : str) : list str := retain_not h entries ++ [h].

Definition compile_rule (acc : list str * list str) (r : NetworkRule) : list str * list str :=
  let '(allowed, denied) := acc in
  match net_decision r with
  | Allow => (upsert_domain allowed (host r), retain_not (host r) denied)
  | Forbidden => (retain_not (host r) allowed, upsert_domain denied (host r))
  | Prompt => (allowed, denied)
  end.

Definition compiled_network_domains (p : Policy) : list str * list str :=
  foldl compile_rule ([], []) (network_rules p).

(** ** Matching *)

(** Not Windows: the name itself. *)
Definition executable_lookup_key (raw : str) : str := raw.
Definition executable_path_lookup_key (path : A) : option str := executable_lookup_key <$> file_name path.

Definition match_exact_rules (p : Policy) (cmd : list str) : option (list RuleMatch) :=
  match cmd with
  | [] => None
  | first :: _ =>
      Some (match rules_by_program p !! first with
            | Some rules => omap (rule_matches cmd) rules
            | None => []
            end)
  end.

Definition match_host_executable_rules (p : Policy) (cmd : list str) : list RuleMatch :=
  match cmd with
  | [] => []
  | first :: tokens =>
      match abs_path_try_from first with
      | None => []
      | Some program =>
          match executable_path_lookup_key program with
          | None => []
          | Some basename =>
              match rules_by_program p !! basename with
              | None => []
              | Some rules =>
                  if match host_executables_by_name p !! basename with
                     | Some paths => negb (existsb (λ path, bool_decide (path = program)) paths)
                     | None => false
                     end
                  then []
                  else with_resolved_program program <$> omap (rule_matches (basename :: tokens)) rules
              end
          end
      end
  end.

(** [.filter(|m| !m.is_empty())] *)
Definition non_empty (o : option (list RuleMatch)) : option (list RuleMatch) :=
  match o with Some [] => None | o => o end.

Definition matches_for_command_with_options (p : Policy) (cmd : list str)
    (heuristics_fallback : option (list str → Decision)) (resolve_host_executables : bool)
    : list RuleMatch :=
  let matched_rules :=
    default []
      (match non_empty (match_exact_rules p cmd) with
       | Some m => Some m
       | None => if resolve_host_executables then non_empty (Some (match_host_executable_rules p cmd))
                 else None
       end) in
  match matched_rules, heuristics_fallback with
  | [], Some f => [HeuristicsRuleMatch cmd (f cmd)]
  | _, _ => matched_rules
  end.

Definition matches_for_command (p : Policy) (cmd : list str)
    (heuristics_fallback : option (list str → Decision)) : list RuleMatch :=
  matches_for_command_with_options p cmd heuristics_fallback false.

Record Evaluation := mkEvaluation { eval_decision : Decision; matched_rules : list RuleMatch }.

Definition is_match (e : Evaluation) : bool :=
  existsb (λ m, match m with HeuristicsRuleMatch _ _ => false | _ => true end) (matched_rules e).

(** [Iterator::max] *)
Definition max_decision (ds : list Decision) : option Decision :=
  match ds with [] => None | d :: ds => Some (foldl decision_max d ds) end.

Definition from_matches (ms : list RuleMatch) : option Evaluation :=
  d ← max_decision (match_decision <$> ms);
  Some (mkEvaluation d ms).

Definition check_with_options (p : Policy) (cmd : list str) (f : list str → Decision) (opt : bool)
    : option Evaluation :=
  from_matches (matches_for_command_with_options p cmd (Some f) opt).

Definition check (p : Policy) (cmd : list str) (f : list str → Decision) : option Evaluation :=
  check_with_options p cmd f false.

Definition check_multiple_with_options (p : Policy) (cmds : list (list str)) (f : list str → Decision)
    (opt : bool) : option Evaluation :=
  from_matches (cmds ≫= (λ cmd, matches_for_command_with_options p cmd (Some f) opt)).

Definition check_multiple (p : Policy) (cmds : list (list str)) (f : list str → Decision)
    : option Evaluation :=
  check_multiple_with_options p cmds f false.

(** ** Allowed prefixes *)

Definition render_pattern_token (t : PatternToken) : str :=
  match t with
  | Single value => value
  | Alts alternatives => lit "[" ++ join (lit "|") alternatives ++ lit "]"
  end.

Definition rendered_prefix (r : PrefixRule) : list str :=
  first (pattern r) :: (render_pattern_token <$> rest (pattern r)).

(** The derived order of [Vec<String>]: lexicographic, the shorter one first. *)
Fixpoint lex_le {B} (lt : B → B → bool) (eqb : B → B → bool) (a b : list B) : bool :=
  match a, b with
  | [], _ => true
  | _ :: _, [] => false
  | x :: a, y :: b => lt x y || (eqb x y && lex_le lt eqb a b)
  end.

Definition str_le (a b : str) : bool := lex_le N.ltb N.eqb a b.
Definition str_lt (a b : str) : bool := str_le a b && negb (a =s b).
Definition prefix_le (a b : list str) : bool := lex_le str_lt (λ x y, x =s y) a b.

Definition prefix_order (a b : list str) : Prop := prefix_le a b = true.

#[export] Instance prefix_order_dec : RelDecision prefix_order.
Proof. intros a b. unfold prefix_order. apply _. Defined.

(** [Vec::dedup]: drops elements equal to the one before them. *)
Fixpoint dedup (l : list (list str)) : list (list str) :=
  match l with
  | x :: ((y :: _) as l') => if bool_decide (x = y) then dedup l' else x :: dedup l'
  | l => l
  end.

Definition get_allowed_prefixes (p : Policy) : list (list str) :=
  dedup (merge_sort prefix_order
    (mjoin ((λ '(_, rules), omap (λ r, if bool_decide (decision r = Allow)
                                        then Some (rendered_prefix r) else None) rules)
            <$> map_to_list (rules_by_program p)))).

(** * rule.rs: examples *)

Context (try_join : list str → option str).

Definition render_example (example : list str) : str :=
  default (lit "unable to render example") (try_join example).

Definition validate_match_examples (p : Policy) (examples : list (list str)) : result Error unit :=
  let unmatched := omap (λ example,
    match matches_for_command_with_options p example None true with
    | [] => Some (render_example example)
    | _ => None
    end) examples in
  if bool_decide (unmatched = []) then Ok tt else Err (ExampleDidNotMatch unmatched).

Fixpoint validate_not_match_examples (p : Policy) (examples : list (list str)) : result Error unit :=
  match examples with
  | [] => Ok tt
  | example :: examples =>
      match head (matches_for_command_with_options p example None true) with
      | Some _ => Err (ExampleDidMatch (render_example example))
      | None => validate_not_match_examples p examples
      end
  end.
End Policy.

(** * Prefix patterns *)

(** Reference: the command starts with the pattern's tokens. *)
Definition pattern_matches (p : PrefixPattern) (cmd : list str) : Prop :=
  ∃ tokens extra, cmd = first p :: tokens ++ extra ∧ Forall2 (λ t tok, tok ∈ alternatives t) (rest p) tokens.

Lemma token_matches_spec t tok : token_matches t tok = true ↔ tok ∈ alternatives t.
Proof.
  destruct t as [e|l]; simpl.
  - rewrite bool_decide_eq_true, list_elem_of_singleton. naive_solver.
  - rewrite existsb_exists. split.
    + intros (x & Hx & He). bool_facts. subst. by apply list_elem_of_In.
    + intros Hx. exists tok. split; [by apply list_elem_of_In|by apply bool_decide_eq_true].
Qed.

Lemma zip_matches_spec ts tokens :
  length tokens = length ts →
  zip_matches ts tokens = true ↔ Forall2 (λ t tok, tok ∈ alternatives t) ts tokens.
Proof.
  revert tokens. induction ts as [|t ts IH]; intros [|tok tokens] Hlen; simplify_eq/=.
  - split; [constructor|done].
  - rewrite Forall2_cons_iff, <- token_matches_spec, <- IH by done.
    destruct (token_matches t tok); simpl; naive_solver.
Qed.

Lemma matches_prefix_spec p cmd :
  matches_prefix p cmd = Some (take (length (rest p) + 1) cmd) ∧ pattern_matches p cmd
  ∨ matches_prefix p cmd = None ∧ ¬ pattern_matches p cmd.
Proof.
  unfold matches_prefix, pattern_matches. destruct cmd as [|hd tokens].
  { right. split; [done|]. by intros (? & ? & ? & _). }
  replace (length (rest p) + 1 - 1) with (length (rest p)) by lia.
  destruct ((length (hd :: tokens) <? length (rest p) + 1) || negb (hd =s first p)) eqn:E.
  { right. split; [done|]. intros (toks & extra & [= -> ->] & Hf). apply Forall2_length in Hf.
    apply orb_true_iff in E as [E|E]; bool_facts; [|done].
    simpl in E. rewrite length_app in E. lia. }
  bool_facts. simpl in *. subst hd.
  assert (Hlen : length (take (length (rest p)) tokens) = length (rest p)) by (rewrite length_take; lia).
  pose proof (zip_matches_spec (rest p) _ Hlen) as Hz.
  destruct (zip_matches (rest p) (take (length (rest p)) tokens)).
  - left. split; [done|]. exists (take (length (rest p)) tokens), (drop (length (rest p)) tokens).
    rewrite take_drop. split; [done|]. by apply Hz.
  - right. split; [done|]. intros (toks & extra & [= ->] & Hf). pose proof (Forall2_length _ _ _ Hf) as Hl.
    rewrite take_app_exact in Hz by done. destruct Hz as [_ Hz]. by specialize (Hz Hf).
Qed.

Lemma matches_prefix_Some p cmd : is_Some (matches_prefix p cmd) ↔ pattern_matches p cmd.
Proof.
  destruct (matches_prefix_spec p cmd) as [[-> Hm]|[-> Hm]]; split; try done.
Qed.

(** * Decisions *)

Lemma decision_max_rank a b : decision_rank (decision_max a b) = decision_rank a `max` decision_rank b.
Proof. destruct a, b; done. Qed.

Lemma decision_rank_inj a b : decision_rank a = decision_rank b → a = b.
Proof. destruct a, b; done. Qed.

#[export] Instance decision_max_assoc : Assoc eq decision_max.
Proof. intros a b c. destruct a, b, c; done. Qed.

Lemma foldl_decision_max d ds :
  let m := foldl decision_max d ds in
  m ∈ d :: ds ∧ ∀ x, x ∈ d :: ds → decision_rank x ≤ decision_rank m.
Proof.
  revert d. induction ds as [|e ds IH]; intros d; simpl.
  - split; [by left|]. intros x ->%list_elem_of_singleton. done.
  - destruct (IH (decision_max d e)) as [Hin Hmax]. split.
    + apply elem_of_cons in Hin as [->|Hin]; [|by do 2 right].
      unfold decision_max. case_match; [by right; left|by left].
    + intros x Hx. assert (Hde : ∀ y, y = d ∨ y = e → decision_rank y ≤ decision_rank (decision_max d e)).
      { intros y Hy. rewrite decision_max_rank. destruct Hy; subst; lia. }
      apply elem_of_cons in Hx as [->|Hx]; [|apply elem_of_cons in Hx as [->|Hx]].
      * etrans; [apply Hde; by left|]. apply Hmax. by left.
      * etrans; [apply Hde; by right|]. apply Hmax. by left.
      * apply Hmax. by right.
Qed.

(** [d] is the strictest of [ds]. *)
Definition strictest (d : Decision) (ds : list Decision) : Prop :=
  d ∈ ds ∧ ∀ x, x ∈ ds → decision_rank x ≤ decision_rank d.

Lemma strictest_unique a b ds : strictest a ds → strictest b ds → a = b.
Proof.
  intros [Ha1 Ha2] [Hb1 Hb2]. apply decision_rank_inj. specialize (Ha2 _ Hb1). specialize (Hb2 _ Ha1). lia.
Qed.

Lemma max_decision_spec ds :
  match max_decision ds with Some d => strictest d ds | None => ds = [] end.
Proof. destruct ds as [|d ds]; [done|]. apply foldl_decision_max. Qed.

Lemma strictest_app a b c xs ys :
  strictest a xs → strictest b ys → strictest c (xs ++ ys) → c = decision_max a b.
Proof.
  intros [Ha1 Ha2] [Hb1 Hb2] [Hc1 Hc2]. apply decision_rank_inj. rewrite decision_max_rank.
  pose proof (Hc2 a ltac:(apply elem_of_app; by left)). pose proof (Hc2 b ltac:(apply elem_of_app; by right)).
  apply elem_of_app in Hc1 as [Hc|Hc]; [specialize (Ha2 _ Hc)|specialize (Hb2 _ Hc)]; lia.
Qed.

(** * Policies *)

Section PolicyFacts.
Context {A : Type} `{EqDecision A}.
Context (try_from : str → option A) (file_name : A → option str).
Implicit Types (p : Policy (A := A)) (cmd : list str) (f : list str → Decision).

Lemma multimap_insert_lookup k r m k' :
  default [] (multimap_insert k r m !! k') =
  default [] (m !! k') ++ (if decide (k' = k) then [r] else []).
Proof.
  unfold multimap_insert. case_decide as Hk; [subst; by rewrite lookup_insert_eq|].
  rewrite lookup_insert_ne by congruence. by rewrite app_nil_r.
Qed.

Lemma multimap_insert_all k rs m k' :
  default [] (foldl (λ acc r, multimap_insert k r acc) m rs !! k') =
  default [] (m !! k') ++ (if decide (k' = k) then rs else []).
Proof.
  revert m. induction rs as [|r rs IH]; intros m; simpl.
  - case_decide; by rewrite app_nil_r.
  - rewrite IH, multimap_insert_lookup. case_decide; by rewrite <- ?(assoc_L (++)).
Qed.

(** Merging keeps the rules of both, the overlay's after the base's. *)
Lemma merge_overlay_rules p q k :
  default [] (rules_by_program (merge_overlay p q) !! k) =
  default [] (rules_by_program p !! k) ++ default [] (rules_by_program q !! k).
Proof.
  unfold merge_overlay. simpl. generalize (rules_by_program p) as base. intros base.
  revert k. apply (map_fold_weak_ind (λ acc m, ∀ k,
    default [] (acc !! k) = default [] (base !! k) ++ default [] (m !! k))).
  - intros k. rewrite lookup_empty. by rewrite app_nil_r.
  - intros k rs m acc Hk IH k'. rewrite multimap_insert_all, IH.
    case_decide as Hd; [subst; by rewrite Hk, lookup_insert_eq, app_nil_r|].
    rewrite lookup_insert_ne by congruence. by rewrite app_nil_r.
Qed.

Definition exact_matches p cmd : list (RuleMatch (A := A)) := default [] (match_exact_rules p cmd).

Lemma exact_matches_unfold p cmd :
  exact_matches p cmd =
  match cmd with [] => [] | c :: _ => omap (rule_matches cmd) (default [] (rules_by_program p !! c)) end.
Proof.
  unfold exact_matches, match_exact_rules. destruct cmd as [|c cmd]; [done|]. simpl.
  by destruct (rules_by_program p !! c).
Qed.

Lemma merge_overlay_matches p q cmd :
  exact_matches (merge_overlay p q) cmd = exact_matches p cmd ++ exact_matches q cmd.
Proof.
  rewrite !exact_matches_unfold. destruct cmd as [|c cmd]; [done|].
  by rewrite merge_overlay_rules, omap_app.
Qed.

(** All matches, before the fallback. *)
Definition rule_match_list p cmd (opt : bool) : list (RuleMatch (A := A)) :=
  if bool_decide (exact_matches p cmd = [])
  then if opt then match_host_executable_rules try_from file_name p cmd else []
  else exact_matches p cmd.

Lemma matches_unfold p cmd fb opt :
  matches_for_command_with_options try_from file_name p cmd fb opt =
  match rule_match_list p cmd opt, fb with
  | [], Some f => [HeuristicsRuleMatch cmd (f cmd)]
  | l, _ => l
  end.
Proof.
  unfold matches_for_command_with_options, rule_match_list, exact_matches.
  destruct (match_exact_rules p cmd) as [[|m ms]|], opt; simpl; try done.
  all: by destruct (match_host_executable_rules try_from file_name p cmd).
Qed.

Definition is_prefix_match (m : RuleMatch (A := A)) : bool :=
  match m with HeuristicsRuleMatch _ _ => false | _ => true end.

Lemma rule_matches_prefix cmd r m : rule_matches (A := A) cmd r = Some m → is_prefix_match m = true.
Proof. unfold rule_matches. destruct (matches_prefix (pattern r) cmd); [|done]. by intros [= <-]. Qed.

(** The rules never produce a heuristics match. *)
Lemma rule_match_prefix p cmd opt m : m ∈ rule_match_list p cmd opt → is_prefix_match m = true.
Proof.
  unfold rule_match_list. rewrite exact_matches_unfold. unfold match_host_executable_rules.
  intros Hm. repeat case_match; try by apply elem_of_nil in Hm.
  all: try apply list_elem_of_fmap in Hm as (m' & -> & Hm).
  all: apply list_elem_of_omap in Hm as (r & _ & Hm); apply rule_matches_prefix in Hm.
  all: first [done | by destruct m'].
Qed.

Lemma matches_non_empty p cmd f opt :
  matches_for_command_with_options try_from file_name p cmd (Some f) opt ≠ [].
Proof. rewrite matches_unfold. by destruct (rule_match_list p cmd opt). Qed.

Lemma from_matches_spec (ms : list (RuleMatch (A := A))) :
  match from_matches ms with
  | Some e => matched_rules e = ms ∧ strictest (eval_decision e) (match_decision <$> ms)
  | None => ms = []
  end.
Proof.
  unfold from_matches. pose proof (max_decision_spec (match_decision <$> ms)) as Hm.
  destruct (max_decision (match_decision <$> ms)); simpl; [by split|].
  by apply fmap_nil_inv in Hm.
Qed.

Lemma check_total p cmd f opt :
  ∃ e, check_with_options try_from file_name p cmd f opt = Some e
       ∧ matched_rules e = matches_for_command_with_options try_from file_name p cmd (Some f) opt
       ∧ strictest (eval_decision e) (match_decision <$> matched_rules e).
Proof.
  unfold check_with_options. pose proof (from_matches_spec
    (matches_for_command_with_options try_from file_name p cmd (Some f) opt)) as Hs.
  destruct (from_matches _) as [e|]; [|by apply matches_non_empty in Hs].
  destruct Hs as [<- Hs]. eauto.
Qed.

(** A rule of the table that matches gives a match with its decision. *)
Lemma rule_in_exact p cmd c tokens r :
  cmd = c :: tokens → r ∈ default [] (rules_by_program p !! c) → pattern_matches (pattern r) cmd →
  ∃ m, m ∈ exact_matches p cmd ∧ match_decision m = decision r.
Proof.
  intros Hc Hr Hm. apply matches_prefix_Some in Hm as [pre Hm].
  exists (PrefixRuleMatch pre (decision r) None (justification r)). split; [|done].
  rewrite exact_matches_unfold. rewrite Hc. rewrite <- Hc. apply list_elem_of_omap. exists r. split; [done|].
  unfold rule_matches. by rewrite Hm.
Qed.

Lemma exact_in_rule p cmd m :
  m ∈ exact_matches p cmd →
  ∃ c tokens r, cmd = c :: tokens ∧ r ∈ default [] (rules_by_program p !! c)
                ∧ pattern_matches (pattern r) cmd ∧ match_decision m = decision r.
Proof.
  rewrite exact_matches_unfold. destruct cmd as [|c tokens]; [by intros ?%elem_of_nil|].
  intros (r & Hr & Hm)%list_elem_of_omap. exists c, tokens, r. split_and!; [done..| |].
  - apply matches_prefix_Some. unfold rule_matches in Hm.
    destruct (matches_prefix (pattern r) (c :: tokens)); [by eexists|done].
  - unfold rule_matches in Hm. by destruct (matches_prefix (pattern r) (c :: tokens)); simplify_eq/=.
Qed.

(** Whatever is found by an exact match bounds the decision from below. *)
Lemma check_at_least p cmd f opt e m :
  check_with_options try_from file_name p cmd f opt = Some e → m ∈ exact_matches p cmd →
  decision_rank (match_decision m) ≤ decision_rank (eval_decision e).
Proof.
  intros Hc Hm. destruct (check_total p cmd f opt) as (e' & He & Hr & _ & Hs). simplify_eq.
  apply Hs. apply list_elem_of_fmap_2. rewrite Hr, matches_unfold. unfold rule_match_list.
  rewrite bool_decide_eq_false_2 by (intros Hn; rewrite Hn in Hm; by apply elem_of_nil in Hm).
  destruct (exact_matches p cmd); [by apply elem_of_nil in Hm|done].
Qed.

(** Several commands: the strictest of their decisions. *)
Lemma check_multiple_cons p cmd cmds f opt :
  ∃ e es, check_with_options try_from file_name p cmd f opt = Some e
    ∧ check_multiple_with_options try_from file_name p (cmd :: cmds) f opt = Some es
    ∧ match check_multiple_with_options try_from file_name p cmds f opt with
      | Some rest => eval_decision es = decision_max (eval_decision e) (eval_decision rest)
      | None => eval_decision es = eval_decision e
      end.
Proof.
  destruct (check_total p cmd f opt) as (e & He & Hr & Hs). exists e.
  unfold check_multiple_with_options. rewrite bind_cons.
  set (ms := matches_for_command_with_options try_from file_name p cmd (Some f) opt) in *.
  set (rest := cmds ≫= _).
  pose proof (from_matches_spec (ms ++ rest)) as H1. pose proof (from_matches_spec rest) as H2.
  destruct (from_matches (ms ++ rest)) as [es|].
  2:{ apply app_nil in H1 as [H1 _]. by apply matches_non_empty in H1. }
  exists es. split_and!; [done..|]. destruct H1 as [_ H1]. rewrite Hr in Hs.
  rewrite fmap_app in H1. destruct (from_matches rest) as [er|].
  - destruct H2 as [_ H2]. by eapply strictest_app.
  - rewrite H2 in H1. simpl in H1. rewrite app_nil_r in H1. by eapply strictest_unique.
Qed.
End PolicyFacts.

(** * Network domains *)

Section Domains.
Implicit Types (rs : list NetworkRule) (h : str).

(** The last rule for [h] that is not a prompt. *)
Definition last_verdict (h : str) (rs : list NetworkRule) : option Decision :=
  foldl (λ acc r, if bool_decide (host r = h) && negb (bool_decide (net_decision r = Prompt))
                  then Some (net_decision r) else acc) None rs.

Lemma elem_retain_not h x l : x ∈ retain_not h l ↔ x ∈ l ∧ x ≠ h.
Proof. unfold retain_not. rewrite list_elem_of_filter. naive_solver. Qed.

Lemma elem_upsert h x l : x ∈ upsert_domain l h ↔ x ∈ l ∨ x = h.
Proof.
  unfold upsert_domain. rewrite elem_of_app, elem_retain_not, list_elem_of_singleton.
  destruct (decide (x = h)); naive_solver.
Qed.

Lemma NoDup_retain_not h l : NoDup l → NoDup (retain_not h l).
Proof. apply NoDup_filter. Qed.

Lemma NoDup_upsert h l : NoDup l → NoDup (upsert_domain l h).
Proof.
  intros Hl. unfold upsert_domain. apply NoDup_app. split_and!.
  - by apply NoDup_retain_not.
  - intros x Hx ->%list_elem_of_singleton. apply elem_retain_not in Hx as [_ []]. done.
  - apply NoDup_singleton.
Qed.

Lemma last_verdict_snoc h rs r :
  last_verdict h (rs ++ [r]) =
  if bool_decide (host r = h) && negb (bool_decide (net_decision r = Prompt))
  then Some (net_decision r) else last_verdict h rs.
Proof. unfold last_verdict. by rewrite foldl_app. Qed.

Lemma compile_rules_spec rs :
  let '(allowed, denied) := foldl compile_rule ([], []) rs in
  NoDup allowed ∧ NoDup denied
  ∧ (∀ h, h ∈ allowed ↔ last_verdict h rs = Some Allow)
  ∧ (∀ h, h ∈ denied ↔ last_verdict h rs = Some Forbidden).
Proof.
  induction rs as [|r rs IH] using rev_ind.
  { simpl. split_and!; [constructor..| |]; (intros h; rewrite elem_of_nil; done). }
  rewrite foldl_app. destruct (foldl compile_rule ([], []) rs) as [al de]. simpl.
  destruct IH as (Ha & Hd & Hal & Hde).
  destruct (net_decision r) eqn:E; split_and!; auto using NoDup_upsert, NoDup_retain_not.
  all: intros h; rewrite last_verdict_snoc, E; rewrite ?elem_upsert, ?elem_retain_not, ?Hal, ?Hde.
  all: simpl; rewrite ?andb_true_r, ?andb_false_r; repeat case_bool_decide; subst; naive_solver.
Qed.
End Domains.

(** * Host names *)

Lemma to_ascii_lowercase_idemp s : to_ascii_lowercase (to_ascii_lowercase s) = to_ascii_lowercase s.
Proof.
  unfold to_ascii_lowercase. rewrite <- list_fmap_compose. apply list_fmap_ext. intros _ c _. simpl.
  unfold ascii_lower. destruct (is_ascii_upper c) eqn:E; [|by rewrite E].
  unfold is_ascii_upper in *. bool_facts. apply N.leb_le in H, H0.
  destruct ((65 <=? c + 32)%N && (c + 32 <=? 90)%N) eqn:E; [|done].
  apply andb_true_iff in E as [_ E%N.leb_le]. lia.
Qed.

Lemma normalize_host_spec raw h :
  normalize_network_rule_host raw = Ok h →
  h ≠ [] ∧ Forall (λ c, is_whitespace c = false) h ∧ (42%N ∉ h) ∧ to_ascii_lowercase h = h.
Proof.
  unfold normalize_network_rule_host. case_bool_decide; [done|].
  destruct (_ || _ || _ || _); [done|]. unfold res_bind.
  destruct (host_without_port raw (trim raw)) as [h0|]; [|done].
  set (n := to_ascii_lowercase _). case_bool_decide as Hn; [done|].
  destruct (str_contains (lit "*") n) eqn:Es; [done|]. destruct (existsb is_whitespace n) eqn:Ew; [done|].
  intros [= <-]. split_and!; [done| | |apply to_ascii_lowercase_idemp].
  - apply Forall_forall. intros c Hc. destruct (is_whitespace c) eqn:E; [|done].
    assert (existsb is_whitespace n = true); [|congruence]. apply existsb_exists. exists c.
    by rewrite <- list_elem_of_In.
  - intros Hin. unfold str_contains in Es. destruct (str_find (lit "*") n) eqn:Ef; [done|].
    apply list_elem_of_split in Hin as (l1 & l2 & Hl). apply (str_find_None _ _ Ef (length l1)).
    rewrite Hl, drop_app_length. by exists l2.
Qed.

(** * Results *)

(** checking a command always gives a verdict, and the verdict is the
    strictest decision among the matches: forbidden over prompt over allow. *)
Theorem check_strictest {A} `{EqDecision A} (try_from : str → option A) file_name
    (p : Policy (A := A)) cmd f opt :
  ∃ e, check_with_options try_from file_name p cmd f opt = Some e
       ∧ strictest (eval_decision e) (match_decision <$> matched_rules e)
       ∧ (is_match e = false → matched_rules e = [HeuristicsRuleMatch cmd (f cmd)]).
Proof.
  destruct (check_total try_from file_name p cmd f opt) as (e & He & Hr & Hs). exists e. split_and!; [done..|].
  unfold is_match. rewrite Hr, matches_unfold.
  pose proof (rule_match_prefix try_from file_name p cmd opt) as Hp.
  destruct (rule_match_list try_from file_name p cmd opt) as [|m ms]; [done|].
  specialize (Hp m ltac:(left)). by destruct m.
Qed.

(** C24: a forbidding rule cannot be escaped: once a prefix is forbidden, every
    command that starts with it is forbidden, whatever rules were there before
    and whatever the heuristics say. *)
Theorem forbidden_prefix_forbids {A} `{EqDecision A} (try_from : str → option A) file_name
    (p p' : Policy (A := A)) prefix extra f opt :
  add_prefix_rule prefix Forbidden p = (p', Ok tt) →
  ∃ e, check_with_options try_from file_name p' (prefix ++ extra) f opt = Some e
       ∧ eval_decision e = Forbidden.
Proof.
  destruct prefix as [|c tokens]; [done|]. intros [= <-].
  set (p' := mkPolicy _ _ _). destruct (check_total try_from file_name p' ((c :: tokens) ++ extra) f opt)
    as (e & He & _). exists e. split; [done|].
  destruct (rule_in_exact p' ((c :: tokens) ++ extra) c (tokens ++ extra)
    (mkRule (mkPattern c (Single <$> tokens)) Forbidden None)) as (m & Hm & Hd); [done|..].
  - unfold p'. simpl. rewrite multimap_insert_lookup, decide_True by done. set_solver.
  - exists tokens, extra. split; [done|]. simpl. apply Forall2_fmap_l, Forall_Forall2_diag, Forall_true.
    intros x. simpl. by apply list_elem_of_singleton.
  - pose proof (check_at_least try_from file_name p' _ f opt e m He Hm) as Hle. rewrite Hd in Hle. simpl in Hle.
    destruct (eval_decision e); simpl in *; [lia|lia|done].
Qed.

Definition no_path : str → option unit := λ _, None.
Definition no_name : unit → option str := λ _, None.

Definition sample_policy : Policy (A := unit) :=
  fst (add_prefix_rule [lit "git"] Allow policy_empty).

Lemma forbidden_prefix_forbids_witness :
  ∃ e, check_with_options no_path no_name
         (fst (add_prefix_rule [lit "git"; lit "push"] Forbidden sample_policy))
         ([lit "git"; lit "push"] ++ [lit "--force"]) (λ _, Allow) false = Some e
       ∧ eval_decision e = Forbidden.
Proof.
  apply (forbidden_prefix_forbids no_path no_name sample_policy _ [lit "git"; lit "push"] [lit "--force"]).
  reflexivity.
Defined.

(** a prefix rule matches exactly the commands whose tokens are, one by one,
    among the alternatives of the pattern's tokens; what it reports is that
    part of the command. *)
Theorem matches_prefix_correct p cmd :
  (matches_prefix p cmd = Some (take (length (rest p) + 1) cmd) ↔ pattern_matches p cmd)
  ∧ (matches_prefix p cmd = None ↔ ¬ pattern_matches p cmd).
Proof.
  destruct (matches_prefix_spec p cmd) as [[-> Hm]|[-> Hm]]; split; split; done.
Qed.

(** merging an overlay into a policy loses no rule of either: the rule
    matches of the merged policy are those of the base followed by those of the
    overlay, so an overlay can only make a matched command's verdict stricter. *)
Theorem merge_overlay_monotone {A} `{EqDecision A} (try_from : str → option A) file_name
    (base overlay : Policy (A := A)) cmd f opt e m :
  check_with_options try_from file_name (merge_overlay base overlay) cmd f opt = Some e →
  m ∈ exact_matches base cmd ++ exact_matches overlay cmd →
  exact_matches (merge_overlay base overlay) cmd = exact_matches base cmd ++ exact_matches overlay cmd
  ∧ decision_rank (match_decision m) ≤ decision_rank (eval_decision e).
Proof.
  intros He Hm. split; [apply merge_overlay_matches|]. rewrite <- merge_overlay_matches in Hm.
  by eapply check_at_least.
Qed.

Lemma merge_overlay_monotone_witness :
  let overlay := fst (add_prefix_rule [lit "git"; lit "push"] Forbidden policy_empty) in
  let cmd := [lit "git"; lit "push"] in
  exact_matches (merge_overlay sample_policy overlay) cmd
    = exact_matches sample_policy cmd ++ exact_matches overlay cmd
  ∧ decision_rank Forbidden ≤ decision_rank Forbidden.
Proof.
  apply (merge_overlay_monotone no_path no_name sample_policy
           (fst (add_prefix_rule [lit "git"; lit "push"] Forbidden policy_empty))
           [lit "git"; lit "push"] (λ _, Allow) false
           (mkEvaluation Forbidden [PrefixRuleMatch [lit "git"] Allow None None;
                                    PrefixRuleMatch [lit "git"; lit "push"] Forbidden None None])
           (PrefixRuleMatch [lit "git"; lit "push"] Forbidden None None)).
  - vm_compute. reflexivity.
  - apply elem_of_app. right. left.
Defined.

(** the verdict on several commands is the strictest of the verdicts on each
    of them. *)
Theorem check_multiple_strictest {A} `{EqDecision A} (try_from : str → option A) file_name
    (p : Policy (A := A)) cmd cmds f opt :
  ∃ e es, check_with_options try_from file_name p cmd f opt = Some e
    ∧ check_multiple_with_options try_from file_name p (cmd :: cmds) f opt = Some es
    ∧ match check_multiple_with_options try_from file_name p cmds f opt with
      | Some rest => eval_decision es = decision_max (eval_decision e) (eval_decision rest)
      | None => cmds = [] ∧ eval_decision es = eval_decision e
      end.
Proof.
  destruct (check_multiple_cons try_from file_name p cmd cmds f opt) as (e & es & H1 & H2 & H3).
  exists e, es. split_and!; [done..|].
  destruct (check_multiple_with_options try_from file_name p cmds f opt) eqn:E; [done|]. split; [|done].
  destruct cmds as [|c cmds]; [done|].
  destruct (check_multiple_cons try_from file_name p c cmds f opt) as (? & ? & _ & ? & _). congruence.
Qed.

(** the compiled domain lists have no duplicates and no common entry; a host
    is allowed (denied) exactly when the last network rule for it that is not a
    prompt allows (forbids) it. *)
Theorem compiled_domains_last_rule_wins {A} (p : Policy (A := A)) h :
  let '(allowed, denied) := compiled_network_domains p in
  NoDup allowed ∧ NoDup denied
  ∧ (h ∈ allowed ↔ last_verdict h (network_rules p) = Some Allow)
  ∧ (h ∈ denied ↔ last_verdict h (network_rules p) = Some Forbidden).
Proof.
  unfold compiled_network_domains. pose proof (compile_rules_spec (network_rules p)) as Hs.
  destruct (foldl compile_rule ([], []) (network_rules p)) as [al de].
  destruct Hs as (? & ? & Ha & Hd). split_and!; auto.
Qed.

(** a network rule is only ever stored under a host that is not empty, is
    lower case, and has neither white space nor a wildcard in it. *)
Theorem network_rule_host_normalized {A} (p p' : Policy (A := A)) h proto d j :
  add_network_rule h proto d j p = (p', Ok tt) →
  ∃ h', network_rules p' = network_rules p ++ [mkNetworkRule h' proto d j]
        ∧ h' ≠ [] ∧ Forall (λ c, is_whitespace c = false) h' ∧ (42%N ∉ h') ∧ to_ascii_lowercase h' = h'.
Proof.
  unfold add_network_rule. destruct (normalize_network_rule_host h) as [h'|e] eqn:E; [|done].
  case_match; [done|]. intros [= <-]. exists h'. split; [done|]. by eapply normalize_host_spec.
Qed.

Lemma network_rule_host_normalized_witness :
  let p' := fst (add_network_rule (A := unit) (lit " API.Example.com.:443 ") Https Allow None policy_empty) in
  ∃ h', network_rules p' = [] ++ [mkNetworkRule h' Https Allow None]
        ∧ h' ≠ [] ∧ Forall (λ c, is_whitespace c = false) h' ∧ (42%N ∉ h') ∧ to_ascii_lowercase h' = h'.
Proof.
  apply (network_rule_host_normalized policy_empty _ (lit " API.Example.com.:443 ")).
  vm_compute. reflexivity.
Defined.

(** a rule reaches a command through its program's file name only when the
    command names an absolute path that the policy lists for that name, or for
    which it lists no paths. *)
Theorem host_executable_listed {A} `{EqDecision A} (try_from : str → option A) file_name
    (p : Policy (A := A)) cmd m :
  m ∈ match_host_executable_rules try_from file_name p cmd →
  ∃ c tokens program name, cmd = c :: tokens ∧ try_from c = Some program ∧ file_name program = Some name
    ∧ (∀ paths, host_executables_by_name p !! name = Some paths → program ∈ paths)
    ∧ ∃ r, r ∈ default [] (rules_by_program p !! name) ∧ pattern_matches (pattern r) (name :: tokens)
           ∧ match_decision m = decision r.
Proof.
  unfold match_host_executable_rules. destruct cmd as [|c tokens]; [by intros ?%elem_of_nil|].
  destruct (try_from c) as [prog|] eqn:Et; [|by intros ?%elem_of_nil].
  unfold executable_path_lookup_key, executable_lookup_key.
  destruct (file_name prog) as [name|] eqn:En; [|by intros ?%elem_of_nil]. simpl.
  destruct (rules_by_program p !! name) as [rules|] eqn:Er; [|by intros ?%elem_of_nil].
  destruct (match host_executables_by_name p !! name with Some _ => _ | None => _ end) eqn:Eh;
    [by intros ?%elem_of_nil|].
  intros (m' & -> & (r & Hr & Hm)%list_elem_of_omap)%list_elem_of_fmap.
  exists c, tokens, prog, name. split_and!; [done..| |].
  - intros paths Hp. rewrite Hp in Eh. apply negb_false_iff, existsb_exists in Eh as (x & Hx & Ex).
    bool_facts. subst x. by apply list_elem_of_In.
  - exists r. rewrite Er. unfold rule_matches in Hm.
    destruct (matches_prefix (pattern r) (name :: tokens)) as [pre|] eqn:Em; simplify_eq/=.
    split_and!; [done| |done]. apply matches_prefix_Some. by eexists.
Qed.

Lemma host_executable_listed_witness :
  let p := set_host_executable_paths (lit "git") [lit "/usr/bin/git"]
             (fst (add_prefix_rule [lit "git"; lit "push"] Prompt policy_empty)) in
  let m := PrefixRuleMatch [lit "git"; lit "push"] Prompt (Some (lit "/usr/bin/git")) None in
  ∃ c tokens program name, [lit "/usr/bin/git"; lit "push"; lit "-f"] = c :: tokens
    ∧ Some c = Some program ∧ Some (lit "git") = Some name
    ∧ (∀ paths, host_executables_by_name p !! name = Some paths → program ∈ paths)
    ∧ ∃ r, r ∈ default [] (rules_by_program p !! name) ∧ pattern_matches (pattern r) (name :: tokens)
           ∧ match_decision m = decision r.
Proof.
  apply (host_executable_listed (λ s, Some s) (λ _, Some (lit "git"))).
  replace (match_host_executable_rules _ _ _ _) with
    [PrefixRuleMatch [lit "git"; lit "push"] Prompt (Some (lit "/usr/bin/git")) None];
    [left|vm_compute; reflexivity].
Defined.
