(* ===== verification/StreamText.v ===== *)
(** utils/stream-parser/src/stream_text.rs: the interface of the incremental
    text parsers, and what "streaming" means for it.

    An implementation is lawful when cutting the input into chunks does not
    change the visible text nor what is extracted, up to an implementation's
    own notion of joining extracted values (adjacent pieces of one segment). *)
From S2P Require Import Prelude Str.

Record StreamTextChunk (T : Type) := mkStreamChunk { visible_text : str; extracted : list T }.
Arguments mkStreamChunk {T}.
Arguments visible_text {T}.
Arguments extracted {T}.

Definition chunk_empty {T} : StreamTextChunk T := mkStreamChunk [] [].

Definition stream_chunk_is_empty {T} (c : StreamTextChunk T) : bool :=
  bool_decide (visible_text c = []) && match extracted c with [] => true | _ => false end.

(** [out.visible_text.push_str(..); out.extracted.extend(..)] *)
Definition chunk_append {T} (a b : StreamTextChunk T) : StreamTextChunk T :=
  mkStreamChunk (visible_text a ++ visible_text b) (extracted a ++ extracted b).

Lemma chunk_append_assoc {T} (a b c : StreamTextChunk T) :
  chunk_append (chunk_append a b) c = chunk_append a (chunk_append b c).
Proof. unfold chunk_append. simpl. by rewrite !(assoc_L (++)). Qed.

Lemma chunk_append_empty {T} (a : StreamTextChunk T) : chunk_append a chunk_empty = a.
Proof. destruct a. unfold chunk_append. simpl. by rewrite !app_nil_r. Qed.

(** [trait StreamTextParser] *)
Class StreamTextParser (S T : Type) := {
  push_str : str → S → S * StreamTextChunk T;
  stream_finish : S → S * StreamTextChunk T
}.

(** Feeding one chunk after the other, appending the outputs. *)
Fixpoint push_all {S T} `{StreamTextParser S T} (chunks : list str) (s : S) : S * StreamTextChunk T :=
  match chunks with
  | [] => (s, chunk_empty)
  | c :: chunks =>
      let '(s1, out1) := push_str c s in
      let '(s2, out2) := push_all chunks s1 in
      (s2, chunk_append out1 out2)
  end.

(** The whole stream: all chunks, then the flush. *)
Definition collect {S T} `{StreamTextParser S T} (chunks : list str) (s : S) : StreamTextChunk T :=
  let '(s1, out) := push_all chunks s in
  chunk_append out (snd (stream_finish s1)).

(** ["every chunking gives the same result"], for the states in [inv] and up to
    the equivalence [same] of outputs. *)
Class StreamLaws (S T : Type) `{StreamTextParser S T} := {
  stream_inv : S → Prop;
  same_chunk : StreamTextChunk T → StreamTextChunk T → Prop;
  same_equiv :: Equivalence same_chunk;
  same_append :: Proper (same_chunk ==> same_chunk ==> same_chunk) chunk_append;
  inv_push c s : stream_inv s → stream_inv (fst (push_str c s));
  push_nil s : stream_inv s → push_str [] s = (s, chunk_empty);
  push_app a b s :
    stream_inv s →
    fst (push_str (a ++ b) s) = fst (push_str b (fst (push_str a s)))
    ∧ same_chunk (snd (push_str (a ++ b) s))
        (chunk_append (snd (push_str a s)) (snd (push_str b (fst (push_str a s)))))
}.

Section Laws.
Context {S T : Type} `{StreamLaws S T}.

Lemma push_all_concat chunks s :
  stream_inv s →
  fst (push_all chunks s) = fst (push_str (mjoin chunks) s)
  ∧ same_chunk (snd (push_all chunks s)) (snd (push_str (mjoin chunks) s)).
Proof.
  revert s. induction chunks as [|c chunks IH]; intros s Hs; simpl; [by rewrite push_nil|].
  destruct (push_app c (mjoin chunks) s Hs) as [Hf Hsame].
  destruct (IH (fst (push_str c s)) (inv_push c s Hs)) as [IHf IHs].
  destruct (push_str c s) as [s1 out1]. simpl in *.
  destruct (push_all chunks s1) as [s2 out2]. simpl in *. split; [congruence|].
  by rewrite Hsame, IHs.
Qed.

(** Any two ways of cutting the same text into chunks give the same stream. *)
Lemma collect_chunking chunks s :
  stream_inv s → same_chunk (collect chunks s) (collect [mjoin chunks] s).
Proof.
  intros Hs. destruct (push_all_concat chunks s Hs) as [Hf Hsame]. unfold collect. simpl.
  destruct (push_all chunks s) as [s1 out1], (push_str (mjoin chunks) s) as [s2 out2]. simpl in *.
  subst s2. by rewrite Hsame, chunk_append_empty.
Qed.
End Laws.
