(* ===== verification/TaggedLine.v ===== *)
(** utils/stream-parser/src/tagged_line_parser.rs and proposed_plan.rs: blocks
    between tags that stand alone on a line.

    The parser holds a line back only as long as it may still be a tag.  The
    reference [block_segments] works on complete lines; [parse_document] shows
    the two agree on every text, and the plan parser is a lawful
    [StreamTextParser]. *)
From S2P Require Import Prelude Str StreamText.

(** * tagged_line_parser.rs *)

Section Tagged.
Context {T : Type} `{EqDecision T}.

Record TagSpec := mkTagSpec { open : str; close : str; tag : T }.

Inductive TaggedLineSegment :=
| Normal (text : str)
| TagStart (t : T)
| TagDelta (t : T) (text : str)
| TagEnd (t : T).

Record TaggedLineParser := mkTagged {
  specs : list TagSpec;
  active_tag : option T;
  detect_tag : bool;
  line_buffer : str
}.

Definition tagged_new (specs : list TagSpec) : TaggedLineParser := mkTagged specs None true [].

Definition push_segment (segments : list TaggedLineSegment) (segment : TaggedLineSegment)
    : list TaggedLineSegment :=
  match segment with
  | Normal delta =>
      if bool_decide (delta = []) then segments
      else match last segments with
           | Some (Normal existing) => removelast segments ++ [Normal (existing ++ delta)]
           | _ => segments ++ [Normal delta]
           end
  | TagDelta t delta =>
      if bool_decide (delta = []) then segments
      else match last segments with
           | Some (TagDelta existing_tag existing) =>
               if bool_decide (existing_tag = t)
               then removelast segments ++ [TagDelta existing_tag (existing ++ delta)]
               else segments ++ [TagDelta t delta]
           | _ => segments ++ [TagDelta t delta]
           end
  | TagStart t => segments ++ [TagStart t]
  | TagEnd t => segments ++ [TagEnd t]
  end.

Definition text_segment (p : TaggedLineParser) (text : str) : TaggedLineSegment :=
  match active_tag p with Some t => TagDelta t text | None => Normal text end.

Definition push_text (p : TaggedLineParser) (text : str) (segments : list TaggedLineSegment) :=
  push_segment segments (text_segment p text).

Definition is_tag_prefix (specs : list TagSpec) (slug : str) : bool :=
  existsb (λ spec, starts_with (trim_end slug) (open spec) || starts_with (trim_end slug) (close spec)) specs.

Definition match_open (specs : list TagSpec) (slug : str) : option T :=
  tag <$> List.find (λ spec, open spec =s slug) specs.
Definition match_close (specs : list TagSpec) (slug : str) : option T :=
  tag <$> List.find (λ spec, close spec =s slug) specs.

Definition set_line (p : TaggedLineParser) (active : option T) (detect : bool) (buffer : str) : TaggedLineParser :=
  mkTagged (specs p) active detect buffer.

(** [without_newline.trim_start().trim_end()] *)
Definition line_slug (line : str) : str :=
  trim_end (trim_start (default line (strip_suffix [LF] line))).

Definition finish_line (p : TaggedLineParser) (segments : list TaggedLineSegment)
    : TaggedLineParser * list TaggedLineSegment :=
  let line := line_buffer p in
  let slug := line_slug line in
  match match_open (specs p) slug, active_tag p with
  | Some t, None => (set_line p (Some t) true [], push_segment segments (TagStart t))
  | _, _ =>
      match match_close (specs p) slug with
      | Some t =>
          if bool_decide (active_tag p = Some t)
          then (set_line p None true [], push_segment segments (TagEnd t))
          else (set_line p (active_tag p) true [], push_text p line segments)
      | None => (set_line p (active_tag p) true [], push_text p line segments)
      end
  end.

(** [if !run.is_empty() { self.push_text(take(run)) }] *)
Definition flush_run (p : TaggedLineParser) (run : str) (segments : list TaggedLineSegment) :=
  if bool_decide (run = []) then segments else push_text p run segments.

(** The loop over [delta.chars()], then the final flush of [run]. *)
Fixpoint parse_chars (delta : str) (p : TaggedLineParser) (run : str) (segments : list TaggedLineSegment)
    : TaggedLineParser * list TaggedLineSegment :=
  match delta with
  | [] => (p, flush_run p run segments)
  | ch :: delta =>
      if detect_tag p then
        let segments := flush_run p run segments in
        let p := set_line p (active_tag p) (detect_tag p) (line_buffer p ++ [ch]) in
        if N.eqb ch LF then
          let '(p, segments) := finish_line p segments in parse_chars delta p [] segments
        else
          let slug := trim_start (line_buffer p) in
          if bool_decide (slug = []) || is_tag_prefix (specs p) slug then parse_chars delta p [] segments
          else
            let buffered := line_buffer p in
            let p := set_line p (active_tag p) false [] in
            parse_chars delta p [] (push_text p buffered segments)
      else if N.eqb ch LF then
        let segments := push_text p (run ++ [ch]) segments in
        parse_chars delta (set_line p (active_tag p) true (line_buffer p)) [] segments
      else parse_chars delta p (run ++ [ch]) segments
  end.

Definition tagged_parse (delta : str) (p : TaggedLineParser) : TaggedLineParser * list TaggedLineSegment :=
  parse_chars delta p [] [].

Definition tagged_finish (p : TaggedLineParser) : TaggedLineParser * list TaggedLineSegment :=
  let '(p, segments) :=
    if bool_decide (line_buffer p = []) then (p, [])
    else
      let buffered := line_buffer p in
      let slug := line_slug buffered in
      let p := set_line p (active_tag p) (detect_tag p) [] in
      match match_open (specs p) slug, active_tag p with
      | Some t, None => (set_line p (Some t) (detect_tag p) [], push_segment [] (TagStart t))
      | _, _ =>
          match match_close (specs p) slug with
          | Some t =>
              if bool_decide (active_tag p = Some t)
              then (set_line p None (detect_tag p) [], push_segment [] (TagEnd t))
              else (p, push_text p buffered [])
          | None => (p, push_text p buffered [])
          end
      end in
  let segments := match active_tag p with Some t => push_segment segments (TagEnd t) | None => segments end in
  (set_line p None true (line_buffer p), segments).
End Tagged.
Arguments TagSpec : clear implicits.
Arguments TaggedLineSegment : clear implicits.
Arguments TaggedLineParser : clear implicits.

(** * Segments *)

Section Segments.
Context {T : Type} `{EqDecision T}.
Implicit Types (segs : list (TaggedLineSegment T)) (x : TaggedLineSegment T).

(** A list of segments appended to what was emitted before. *)
Definition merge (a b : list (TaggedLineSegment T)) : list (TaggedLineSegment T) := foldl push_segment a b.

Definition coalesce (l : list (TaggedLineSegment T)) : list (TaggedLineSegment T) := merge [] l.

Lemma push_segment_normal segs a b :
  push_segment (push_segment segs (Normal a)) (Normal b) = push_segment segs (Normal (a ++ b)).
Proof.
  unfold push_segment at 2. case_bool_decide as Ha; [by subst|].
  unfold push_segment. destruct (decide (b = [])) as [->|Hb].
  { rewrite bool_decide_eq_true_2, app_nil_r, bool_decide_eq_false_2 by done. done. }
  rewrite !bool_decide_eq_false_2 by (try done; by destruct a).
  destruct (last segs) as [[]|]; rewrite last_snoc, removelast_snoc, <- ?(assoc_L (++)); done.
Qed.

Lemma push_segment_delta segs t a b :
  push_segment (push_segment segs (TagDelta t a)) (TagDelta t b) = push_segment segs (TagDelta t (a ++ b)).
Proof.
  unfold push_segment at 2. case_bool_decide as Ha; [by subst|].
  unfold push_segment. destruct (decide (b = [])) as [->|Hb].
  { rewrite bool_decide_eq_true_2, app_nil_r, bool_decide_eq_false_2 by done. done. }
  rewrite !(bool_decide_eq_false_2 (_ = [])) by (try done; by destruct a).
  destruct (last segs) as [[e|u|u e|u]|]; rewrite ?last_snoc, ?removelast_snoc, ?bool_decide_eq_true_2 by done;
    try done.
  destruct (decide (u = t)) as [->|Hne].
  - rewrite bool_decide_eq_true_2, last_snoc, removelast_snoc, bool_decide_eq_true_2 by done.
    by rewrite <- (assoc_L (++)).
  - rewrite bool_decide_eq_false_2, last_snoc, removelast_snoc, bool_decide_eq_true_2 by done. done.
Qed.

Lemma merge_snoc a b x : merge a (b ++ [x]) = push_segment (merge a b) x.
Proof. unfold merge. by rewrite foldl_app. Qed.

(** A segment is appended, or extends the last one. *)
Lemma push_segment_cases segs x :
  push_segment segs x = segs ++ [x]
  ∨ (∀ a, push_segment a x = a) ∧ push_segment segs x = segs
  ∨ ∃ l y z, segs = l ++ [y] ∧ push_segment segs x = l ++ [z]
             ∧ ∀ a, push_segment (push_segment a y) x = push_segment a z.
Proof.
  destruct x as [d|t|t d|t]; simpl; [|by left| |by left].
  - case_bool_decide as Hd; [right; left; split; [|done]; intros a; by rewrite ?Hd|].
    destruct (last segs) as [[e|u|u e|u]|] eqn:E; try by left.
    apply last_Some_snoc in E as [l ->]. right. right. exists l, (Normal e), (Normal (e ++ d)).
    rewrite removelast_snoc. split_and!; [done..|]. intros a.
    pose proof (push_segment_normal a e d) as H. unfold push_segment at 1 in H.
    by rewrite (bool_decide_eq_false_2 (d = [])) in H.
  - case_bool_decide as Hd; [right; left; split; [|done]; intros a; by rewrite ?Hd|].
    destruct (last segs) as [[e|u|u e|u]|] eqn:E; try by left.
    case_bool_decide as Hu; [|by left]. subst u.
    apply last_Some_snoc in E as [l ->]. right. right. exists l, (TagDelta t e), (TagDelta t (e ++ d)).
    rewrite removelast_snoc. split_and!; [done..|]. intros a.
    pose proof (push_segment_delta a t e d) as H. unfold push_segment at 1 in H.
    by rewrite (bool_decide_eq_false_2 (d = [])) in H.
Qed.

(** Emitting [x] after [b] and merging into [a] is emitting [x] after the merge. *)
Lemma merge_push a b x : merge a (push_segment b x) = push_segment (merge a b) x.
Proof.
  destruct (push_segment_cases b x) as [->|[[Hx ->]|(l & y & z & -> & -> & Hz)]].
  - apply merge_snoc.
  - by rewrite Hx.
  - by rewrite !merge_snoc, Hz.
Qed.

Lemma merge_merge a b c : merge a (merge b c) = merge (merge a b) c.
Proof.
  revert b. induction c as [|x c IH]; intros b; [done|]. simpl. unfold merge at 2 4. simpl.
  fold (merge (push_segment b x) c). fold (merge (push_segment (merge a b) x) c).
  by rewrite IH, merge_push.
Qed.

Lemma merge_coalesce a b : merge a (coalesce b) = merge a b.
Proof. unfold coalesce. by rewrite merge_merge. Qed.
End Segments.

(** * One character at a time *)

Section Steps.
Context {T : Type} `{EqDecision T}.
Implicit Types (p : TaggedLineParser T) (segs : list (TaggedLineSegment T)).

Lemma push_text_app p a b segs : push_text p b (push_text p a segs) = push_text p (a ++ b) segs.
Proof.
  unfold push_text, text_segment.
  destruct (active_tag p); [apply push_segment_delta|apply push_segment_normal].
Qed.

Lemma push_text_nil p segs : push_text p [] segs = segs.
Proof. unfold push_text, text_segment. by destruct (active_tag p). Qed.

Lemma flush_run_push p run segs : flush_run p run segs = push_text p run segs.
Proof. unfold flush_run. case_bool_decide; [subst; by rewrite push_text_nil|done]. Qed.

(** The loop body when every character is emitted as soon as it may be. *)
Definition step_char (ps : TaggedLineParser T * list (TaggedLineSegment T)) (ch : N)
    : TaggedLineParser T * list (TaggedLineSegment T) :=
  let '(p, segs) := ps in
  if detect_tag p then
    let p := set_line p (active_tag p) (detect_tag p) (line_buffer p ++ [ch]) in
    if N.eqb ch LF then finish_line p segs
    else
      let slug := trim_start (line_buffer p) in
      if bool_decide (slug = []) || is_tag_prefix (specs p) slug then (p, segs)
      else (set_line p (active_tag p) false [], push_text p (line_buffer p) segs)
  else (if N.eqb ch LF then set_line p (active_tag p) true (line_buffer p) else p, push_text p [ch] segs).

Lemma parse_chars_steps delta p run segs :
  parse_chars delta p run segs = foldl step_char (p, push_text p run segs) delta.
Proof.
  revert p run segs. induction delta as [|ch delta IH]; intros p run segs; simpl;
    [by rewrite flush_run_push|]. rewrite flush_run_push.
  destruct (detect_tag p) eqn:Ed.
  - destruct (N.eqb ch LF).
    + destruct (finish_line _ _) as [p' segs']. by rewrite IH, push_text_nil.
    + destruct (_ || _); rewrite IH, push_text_nil; done.
  - destruct (N.eqb ch LF); rewrite IH, ?push_text_nil.
    + by rewrite <- push_text_app.
    + by rewrite <- push_text_app.
Qed.

Lemma tagged_parse_steps delta p : tagged_parse delta p = foldl step_char (p, []) delta.
Proof. unfold tagged_parse. by rewrite parse_chars_steps, push_text_nil. Qed.

Lemma step_char_merge p a segs ch :
  step_char (p, merge a segs) ch = let '(p', segs') := step_char (p, segs) ch in (p', merge a segs').
Proof.
  unfold step_char, finish_line, push_text. repeat case_match; simplify_eq/=; by rewrite ?merge_push, ?merge_snoc.
Qed.

Lemma steps_merge delta p a segs :
  foldl step_char (p, merge a segs) delta =
  let '(p', segs') := foldl step_char (p, segs) delta in (p', merge a segs').
Proof.
  revert p segs. induction delta as [|ch delta IH]; intros p segs; [done|]. cbn [foldl].
  rewrite step_char_merge. destruct (step_char (p, segs) ch) as [p' segs']. apply IH.
Qed.

Lemma tagged_parse_app a b p :
  tagged_parse (a ++ b) p =
  let '(p1, s1) := tagged_parse a p in
  let '(p2, s2) := tagged_parse b p1 in (p2, merge s1 s2).
Proof.
  rewrite !tagged_parse_steps, foldl_app. destruct (foldl step_char (p, []) a) as [p1 s1].
  rewrite tagged_parse_steps. by rewrite <- (steps_merge b p1 s1 []).
Qed.
End Steps.

(** * Reference: complete lines *)

Section Reference.
Context {T : Type} `{EqDecision T}.
Implicit Types (p : TaggedLineParser T) (sp : list (TagSpec T)) (a : option T).

(** What one line does: the new active tag and the segment. *)
Definition block_line sp a (line : str) : option T * TaggedLineSegment T :=
  match match_open sp (trim line), a with
  | Some t, None => (Some t, TagStart t)
  | _, _ =>
      match match_close sp (trim line) with
      | Some t => if bool_decide (a = Some t) then (None, TagEnd t)
                  else (a, match a with Some u => TagDelta u line | None => Normal line end)
      | None => (a, match a with Some u => TagDelta u line | None => Normal line end)
      end
  end.

Definition block_step sp (acc : option T * list (TaggedLineSegment T)) (line : str) :=
  let '(a, segs) := acc in
  let '(a', x) := block_line sp a line in (a', push_segment segs x).

Definition close_block (acc : option T * list (TaggedLineSegment T)) : list (TaggedLineSegment T) :=
  match fst acc with Some t => push_segment (snd acc) (TagEnd t) | None => snd acc end.

(** The segments of a complete text. *)
Definition block_segments sp (text : str) : list (TaggedLineSegment T) :=
  close_block (foldl (block_step sp) (None, []) (split_inclusive text)).

Lemma drop_while_app q (s t : str) :
  drop_while q (s ++ t) = match drop_while q s with [] => drop_while q t | u => u ++ t end.
Proof. induction s as [|c s IH]; simpl; [done|]. destruct (q c); [done|]. done. Qed.

Lemma line_slug_trim line : line_slug line = trim line.
Proof.
  unfold line_slug, trim. destruct (strip_suffix [LF] line) as [l|] eqn:E; [|done]. simpl.
  apply strip_suffix_Some in E as ->. unfold trim_start, trim_end. rewrite drop_while_app.
  destruct (drop_while is_whitespace l) eqn:E; [done|]. rewrite <- E. by rewrite trim_end_by_snoc_drop.
Qed.

Lemma trim_end_by_app_prefix q (s t : str) : trim_end_by q s `prefix_of` trim_end_by q (s ++ t).
Proof.
  induction s as [|c s IH]; simpl; [apply prefix_nil|].
  destruct (trim_end_by q s) as [|d u].
  - destruct (q c); [apply prefix_nil|].
    destruct (trim_end_by q (s ++ t)); [done|]. apply prefix_cons, prefix_nil.
  - destruct (trim_end_by q (s ++ t)); [by apply prefix_nil_inv in IH|]. by apply prefix_cons.
Qed.

(** Some prefix of the line rules out that the line is a tag. *)
Definition refuted sp (s : str) : Prop :=
  ∃ pre, pre `prefix_of` s ∧ trim_start pre ≠ [] ∧ is_tag_prefix sp (trim_start pre) = false.

Lemma refuted_app sp s t : refuted sp s → refuted sp (s ++ t).
Proof. intros (pre & Hp & H). exists pre. split; [by apply prefix_app_r|done]. Qed.

Lemma refuted_slug sp s :
  refuted sp s → ∃ x, trim_end x `prefix_of` trim s ∧ is_tag_prefix sp x = false.
Proof.
  intros (pre & [t ->] & Hne & Hf). exists (trim_start pre). split; [|done].
  unfold trim, trim_start in *. rewrite drop_while_app.
  destruct (drop_while is_whitespace pre); [done|]. apply trim_end_by_app_prefix.
Qed.

Lemma refuted_no_tag sp s :
  refuted sp s → match_open sp (trim s) = None ∧ match_close sp (trim s) = None.
Proof.
  intros (x & Hpre & Hf)%refuted_slug. unfold is_tag_prefix in Hf.
  assert (Hno : ∀ spec, spec ∈ sp → open spec ≠ trim s ∧ close spec ≠ trim s).
  { intros spec Hin. rewrite <- not_true_iff_false, existsb_exists in Hf.
    split; intros Heq; apply Hf; exists spec; (split; [by apply list_elem_of_In|]);
      apply orb_true_iff; [left|right]; apply starts_with_spec; by rewrite Heq. }
  unfold match_open, match_close. split; rewrite fmap_None.
  all: destruct (List.find _ sp) as [spec|] eqn:E; [|done].
  all: apply List.find_some in E as [Hin%list_elem_of_In He]; bool_facts; by destruct (Hno spec Hin).
Qed.

Lemma finish_line_block p segs :
  finish_line p segs =
  let '(a', x) := block_line (specs p) (active_tag p) (line_buffer p) in
  (set_line p a' true [], push_segment segs x).
Proof.
  unfold finish_line, block_line, push_text, text_segment. rewrite line_slug_trim.
  repeat case_match; simplify_eq/=; done.
Qed.

(** The part of a line read so far: held back, or emitted because it cannot
    be a tag any more. *)
Lemma steps_partial l p segs :
  detect_tag p = true → LF ∉ l →
  foldl step_char (p, segs) l = (set_line p (active_tag p) true (line_buffer p ++ l), segs)
  ∨ foldl step_char (p, segs) l
      = (set_line p (active_tag p) false [], push_text p (line_buffer p ++ l) segs)
    ∧ refuted (specs p) (line_buffer p ++ l).
Proof.
  intros Hd. induction l as [|c l IH] using rev_ind; intros Hl.
  { left. simpl. rewrite app_nil_r. destruct p. simpl in *. by subst. }
  apply not_elem_of_app in Hl as [Hl Hc]. apply not_elem_of_cons in Hc as [Hc _].
  rewrite foldl_app. destruct (IH Hl) as [->|[-> Hr]]; simpl.
  - rewrite (proj2 (N.eqb_neq _ _)) by done. rewrite <- (assoc_L (++)).
    set (buf := line_buffer p ++ l ++ [c]).
    destruct (bool_decide (trim_start buf = []) || is_tag_prefix (specs p) (trim_start buf)) eqn:E;
      [by left|]. right. bool_facts. split; [done|]. exists buf. done.
  - right. rewrite (proj2 (N.eqb_neq _ _)) by done. split.
    + unfold push_text, text_segment in *. simpl. rewrite (assoc_L (++)).
      destruct (active_tag p); by rewrite ?push_segment_delta, ?push_segment_normal.
    + rewrite (assoc_L (++)). by apply refuted_app.
Qed.

Lemma block_line_refuted sp a line :
  refuted sp line →
  block_line sp a line = (a, match a with Some u => TagDelta u line | None => Normal line end).
Proof.
  intros [Ho Hc]%refuted_no_tag. unfold block_line. rewrite Ho, Hc. by destruct a.
Qed.

Lemma steps_line l p segs :
  detect_tag p = true → line_buffer p = [] → LF ∉ l →
  foldl step_char (p, segs) (l ++ [LF]) =
  let '(a', x) := block_line (specs p) (active_tag p) (l ++ [LF]) in
  (set_line p a' true [], push_segment segs x).
Proof.
  intros Hd Hb Hl. rewrite foldl_app.
  destruct (steps_partial l p segs Hd Hl) as [->|[-> Hr]]; rewrite Hb in *; simpl in *.
  - rewrite finish_line_block. simpl. by destruct (block_line _ _ _).
  - rewrite block_line_refuted by (by apply refuted_app). f_equal.
    unfold push_text, text_segment. simpl.
    destruct (active_tag p); by rewrite ?push_segment_delta, ?push_segment_normal.
Qed.

(** The flush treats what is held back as a last line. *)
Lemma tagged_finish_block p :
  snd (tagged_finish p) =
  close_block (if bool_decide (line_buffer p = []) then (active_tag p, [])
               else block_step (specs p) (active_tag p, []) (line_buffer p)).
Proof.
  destruct p as [sp a d buf]. unfold tagged_finish, close_block, block_step, block_line, push_text, text_segment.
  rewrite line_slug_trim. simpl. case_bool_decide as Hb; [by destruct a|].
  destruct a as [t|]; simpl.
  - destruct (match_open sp (trim buf)), (match_close sp (trim buf)); simpl; try case_bool_decide; done.
  - destruct (match_open sp (trim buf)); simpl; [done|].
    by destruct (match_close sp (trim buf)).
Qed.

Lemma block_step_merge sp a s line :
  block_step sp (a, s) line =
  let '(a', s') := block_step sp (a, []) line in (a', merge s s').
Proof.
  unfold block_step. destruct (block_line sp a line) as [a' x]. f_equal. by rewrite merge_push.
Qed.

Lemma close_block_merge a s s' : close_block (a, merge s s') = merge s (close_block (a, s')).
Proof. unfold close_block. simpl. destruct a; [|done]. by rewrite merge_snoc. Qed.

Lemma set_line_id p : detect_tag p = true → line_buffer p = [] → set_line p (active_tag p) true [] = p.
Proof. destruct p. simpl. by intros -> ->. Qed.

(** From the start of a line to the end of the text. *)
Lemma steps_document n text p segs :
  length text ≤ n → detect_tag p = true → line_buffer p = [] →
  let '(p1, s1) := foldl step_char (p, segs) text in
  merge s1 (snd (tagged_finish p1)) =
  close_block (foldl (block_step (specs p)) (active_tag p, segs) (split_inclusive text)).
Proof.
  revert text p segs. induction n as [|n IH]; intros text p segs Hn Hd Hb.
  { destruct text; [|simpl in Hn; lia]. simpl. rewrite tagged_finish_block.
    rewrite bool_decide_eq_true_2 by done. by rewrite <- close_block_merge. }
  destruct (decide (LF ∈ text)) as [Hin|Hnin].
  - apply list_elem_of_split_l in Hin as (l & r & -> & Hl).
    rewrite split_inclusive_line by done. cbn [foldl].
    replace (l ++ LF :: r) with ((l ++ [LF]) ++ r) by (by rewrite <- (assoc_L (++))).
    rewrite foldl_app, steps_line by done. unfold block_step at 2.
    destruct (block_line (specs p) (active_tag p) (l ++ [LF])) as [a' x].
    apply (IH r (set_line p a' true []) (push_segment segs x)); [|done..].
    rewrite length_app in Hn. simpl in Hn. lia.
  - destruct (decide (text = [])) as [->|Hne].
    { simpl. rewrite tagged_finish_block.
      rewrite bool_decide_eq_true_2 by done. by rewrite <- close_block_merge. }
    rewrite split_inclusive_last by done. cbn [foldl]. rewrite block_step_merge.
    destruct (steps_partial text p segs Hd Hnin) as [->|[-> Hr]]; rewrite Hb in *; cbn [app] in *.
    + rewrite tagged_finish_block. simpl. rewrite bool_decide_eq_false_2 by done.
      unfold block_step. destruct (block_line (specs p) (active_tag p) text) as [a' x].
      by rewrite close_block_merge.
    + rewrite tagged_finish_block. simpl.
      rewrite block_line_refuted by done. cbn [fst snd].
      rewrite merge_push, <- close_block_merge. cbn [merge foldl].
      unfold push_text, text_segment. done.
Qed.
End Reference.

(** * proposed_plan.rs *)

Inductive PlanTag := ProposedPlan.

#[export] Instance PlanTag_eq_dec : EqDecision PlanTag.
Proof. solve_decision. Defined.

Definition OPEN_TAG : str := lit "<proposed_plan>".
Definition CLOSE_TAG : str := lit "</proposed_plan>".

Inductive ProposedPlanSegment :=
| PlanNormal (text : str)
| ProposedPlanStart
| ProposedPlanDelta (text : str)
| ProposedPlanEnd.

Record ProposedPlanParser := mkPlan { plan_parser : TaggedLineParser PlanTag }.

Definition plan_specs : list (TagSpec PlanTag) := [mkTagSpec OPEN_TAG CLOSE_TAG ProposedPlan].

Definition plan_new : ProposedPlanParser := mkPlan (tagged_new plan_specs).

Definition map_segment (s : TaggedLineSegment PlanTag) : ProposedPlanSegment :=
  match s with
  | Normal text => PlanNormal text
  | TagStart ProposedPlan => ProposedPlanStart
  | TagDelta ProposedPlan text => ProposedPlanDelta text
  | TagEnd ProposedPlan => ProposedPlanEnd
  end.

Definition normal_text (s : ProposedPlanSegment) : str :=
  match s with PlanNormal text => text | _ => [] end.

Definition map_segments (segments : list (TaggedLineSegment PlanTag)) : StreamTextChunk ProposedPlanSegment :=
  mkStreamChunk (mjoin (normal_text <$> (map_segment <$> segments))) (map_segment <$> segments).

#[export] Instance plan_stream : StreamTextParser ProposedPlanParser ProposedPlanSegment := {
  push_str chunk p :=
    let '(q, segs) := tagged_parse chunk (plan_parser p) in (mkPlan q, map_segments segs);
  stream_finish p :=
    let '(q, segs) := tagged_finish (plan_parser p) in (mkPlan q, map_segments segs)
}.

Definition strip_proposed_plan_blocks (text : str) : str :=
  let '(p, out) := push_str text plan_new in
  visible_text out ++ visible_text (snd (stream_finish p)).

(** The loop of [extract_proposed_plan_text] on [(saw_plan_block, plan_text)]. *)
Definition plan_text_step (acc : bool * str) (s : ProposedPlanSegment) : bool * str :=
  match s with
  | ProposedPlanStart => (true, [])
  | ProposedPlanDelta delta => (fst acc, snd acc ++ delta)
  | ProposedPlanEnd | PlanNormal _ => acc
  end.

Definition extract_proposed_plan_text (text : str) : option str :=
  let '(p, out) := push_str text plan_new in
  let '(saw, plan_text) :=
    foldl plan_text_step (false, []) (extracted out ++ extracted (snd (stream_finish p))) in
  if saw then Some plan_text else None.

(** ** Facts *)

Definition unmap_segment (s : ProposedPlanSegment) : TaggedLineSegment PlanTag :=
  match s with
  | PlanNormal text => Normal text
  | ProposedPlanStart => TagStart ProposedPlan
  | ProposedPlanDelta text => TagDelta ProposedPlan text
  | ProposedPlanEnd => TagEnd ProposedPlan
  end.

Lemma unmap_map s : unmap_segment (map_segment s) = s.
Proof. by destruct s as [|[]|[]|[]]. Qed.

Lemma unmap_map_list (l : list (TaggedLineSegment PlanTag)) : unmap_segment <$> (map_segment <$> l) = l.
Proof. induction l as [|x l IH]; [done|]. rewrite !fmap_cons, unmap_map. by f_equal. Qed.

(** Plan segments up to the cutting of one text into adjacent pieces. *)
Definition plan_coalesce (l : list ProposedPlanSegment) : list (TaggedLineSegment PlanTag) :=
  coalesce (unmap_segment <$> l).

Definition same_plan (a b : StreamTextChunk ProposedPlanSegment) : Prop :=
  visible_text a = visible_text b ∧ plan_coalesce (extracted a) = plan_coalesce (extracted b).

Lemma plan_coalesce_app a b : plan_coalesce (a ++ b) = merge (plan_coalesce a) (unmap_segment <$> b).
Proof. unfold plan_coalesce, coalesce, merge. by rewrite fmap_app, foldl_app. Qed.

Lemma merge_plan_coalesce a l : merge a (unmap_segment <$> l) = merge a (plan_coalesce l).
Proof. unfold plan_coalesce. by rewrite merge_coalesce. Qed.

(** The text outside plan blocks is not changed by coalescing. *)
Definition plain_text (s : TaggedLineSegment PlanTag) : str := match s with Normal t => t | _ => [] end.

Lemma plain_text_push segs x :
  mjoin (plain_text <$> push_segment segs x) = mjoin (plain_text <$> segs) ++ plain_text x.
Proof.
  assert (Happ : ∀ (l : list (TaggedLineSegment PlanTag)) y,
    mjoin (plain_text <$> l ++ [y]) = mjoin (plain_text <$> l) ++ plain_text y).
  { intros l y. rewrite fmap_app, mjoin_app. simpl. by rewrite app_nil_r. }
  destruct x as [d|t|t d|t]; simpl; try (by rewrite Happ).
  - case_bool_decide as Hd; [subst; by rewrite app_nil_r|].
    destruct (last segs) as [[e| | |]|] eqn:E; rewrite ?Happ; try done.
    apply last_Some_snoc in E as [l ->]. rewrite removelast_snoc, Happ. simpl. by rewrite (assoc_L (++)).
  - case_bool_decide as Hd; [by rewrite app_nil_r|].
    destruct (last segs) as [[|u|u e|u]|] eqn:E; rewrite ?Happ; try done.
    case_bool_decide; rewrite ?Happ; [|done].
    apply last_Some_snoc in E as [l ->]. rewrite removelast_snoc, !Happ. simpl. by rewrite !app_nil_r.
Qed.

Lemma plain_text_merge a b :
  mjoin (plain_text <$> merge a b) = mjoin (plain_text <$> a) ++ mjoin (plain_text <$> b).
Proof.
  revert a. induction b as [|x b IH]; intros a; [by rewrite app_nil_r|].
  unfold merge. simpl. fold (merge (push_segment a x) b). rewrite IH, plain_text_push.
  by rewrite <- (assoc_L (++)).
Qed.

Lemma map_segments_visible l : visible_text (map_segments l) = mjoin (plain_text <$> l).
Proof.
  unfold map_segments. simpl. rewrite <- list_fmap_compose. f_equal. apply list_fmap_ext.
  intros _ [|[]|[]|[]] _; done.
Qed.

Lemma map_segments_merge a b : same_plan (map_segments (merge a b)) (chunk_append (map_segments a) (map_segments b)).
Proof.
  split.
  - change (visible_text (chunk_append (map_segments a) (map_segments b)))
      with (visible_text (map_segments a) ++ visible_text (map_segments b)).
    rewrite !map_segments_visible. apply plain_text_merge.
  - unfold plan_coalesce. simpl. rewrite fmap_app, !unmap_map_list. unfold coalesce.
    rewrite merge_merge. unfold merge. by rewrite foldl_app.
Qed.

#[export] Instance plan_laws : StreamLaws ProposedPlanParser ProposedPlanSegment.
Proof.
  refine {| stream_inv := λ _, True; same_chunk := same_plan |}.
  - split.
    + done.
    + intros a b [??]. by split.
    + intros a b c [??] [??]. split; congruence.
  - intros a a' [H1 H2] b b' [H3 H4]. split; simpl; [congruence|].
    by rewrite !plan_coalesce_app, !merge_plan_coalesce, H2, H4.
  - done.
  - intros [q] _. done.
  - intros a b [q] _. simpl. rewrite tagged_parse_app.
    destruct (tagged_parse a q) as [p1 s1]. simpl. destruct (tagged_parse b p1) as [p2 s2]. simpl.
    split; [done|]. apply map_segments_merge.
Defined.

(** * Results *)

(** on every text, the line parser followed by its flush emits exactly the
    segments of the reference that looks at complete lines: a line is a tag
    only when, trimmed, it is an opening tag outside a block or the closing tag
    of the open block, and no other text is lost or reordered. *)
Theorem tagged_lines_correct {T} `{EqDecision T} (sp : list (TagSpec T)) (text : str) :
  let '(p, segs) := tagged_parse text (tagged_new sp) in
  merge segs (snd (tagged_finish p)) = block_segments sp text.
Proof.
  rewrite tagged_parse_steps.
  exact (steps_document (length text) text (tagged_new sp) [] (le_n _) eq_refl eq_refl).
Qed.

(** the plan parser does not depend on how the text is cut into chunks: the
    visible text is the same, and the segments are the same once adjacent
    pieces of one segment are joined. *)
Theorem plan_chunking_irrelevant (chunks : list str) :
  let whole := collect [mjoin chunks] plan_new in
  let pieces := collect chunks plan_new in
  visible_text pieces = visible_text whole
  ∧ plan_coalesce (extracted pieces) = plan_coalesce (extracted whole).
Proof. exact (collect_chunking chunks plan_new I). Qed.

(** stripping plan blocks keeps exactly the text of the lines outside them. *)
Theorem strip_plan_blocks_correct text :
  strip_proposed_plan_blocks text = mjoin (plain_text <$> block_segments plan_specs text).
Proof.
  pose proof (steps_document (length text) text (tagged_new plan_specs) [] (le_n _) eq_refl eq_refl) as H.
  rewrite <- tagged_parse_steps in H. unfold strip_proposed_plan_blocks. simpl.
  destruct (tagged_parse text (tagged_new plan_specs)) as [p segs]. simpl.
  destruct (tagged_finish p) as [q tail] eqn:E. simpl in *. unfold block_segments.
  rewrite <- H, plain_text_merge. by rewrite <- !map_segments_visible.
Qed.
