(* ===== verification/InlineTag.v ===== *)
(** utils/stream-parser/src/inline_hidden_tag.rs, citation.rs and
    assistant_text.rs: inline tags hidden from the visible text.

    Offsets of the source are byte offsets at character boundaries, so they are
    positions in the character sequence here.  The loop of [push_str] consumes
    at least one character in every iteration that continues; it runs on fuel,
    one more than the characters pending ([inline_loop_fuel]). *)
From S2P Require Import Prelude Str StreamText TaggedLine.

(** * inline_hidden_tag.rs *)

Section Inline.
Context {T : Type}.

Record ExtractedInlineTag := mkExtracted { ex_tag : T; ex_content : str }.

Record InlineTagSpec := mkInlineSpec { in_tag : T; in_open : str; in_close : str }.

Record ActiveTag := mkActive { act_tag : T; act_close : str; act_content : str }.

Record InlineHiddenTagParser := mkInline {
  in_specs : list InlineTagSpec;
  pending : str;
  active : option ActiveTag
}.

(** [None]: one of the assertions of [new] fails. *)
Definition inline_new (specs : list InlineTagSpec) : option InlineHiddenTagParser :=
  if match specs with [] => true | _ => false end then None
  else if forallb (λ s, negb (bool_decide (in_open s = [])) && negb (bool_decide (in_close s = []))) specs
  then Some (mkInline specs [] None)
  else None.

(** [filter_map(find).min_by(..)]: the leftmost opener, the longest of them, the
    first of these. *)
Fixpoint find_next_open (specs : list InlineTagSpec) (s : str) : option (nat * InlineTagSpec) :=
  match specs with
  | [] => None
  | spec :: specs =>
      match str_find (in_open spec) s, find_next_open specs s with
      | None, r => r
      | Some pos, None => Some (pos, spec)
      | Some pos, Some (pos', spec') =>
          if (pos' <? pos) || ((pos' =? pos) && (blen (in_open spec) <? blen (in_open spec'))%N)
          then Some (pos', spec') else Some (pos, spec)
      end
  end.

(** The longest proper prefix of [needle] that ends [s]: [k] counts down. *)
Fixpoint suffix_prefix_from (k : nat) (s needle : str) : nat :=
  match k with
  | 0 => 0
  | S k' => if ends_with (take k needle) s then k else suffix_prefix_from k' s needle
  end.

Definition longest_suffix_prefix_len (s needle : str) : nat :=
  suffix_prefix_from (length s `min` (length needle - 1)) s needle.

Definition max_open_prefix_suffix_len (specs : list InlineTagSpec) (s : str) : nat :=
  foldr Nat.max 0 ((λ spec, longest_suffix_prefix_len s (in_open spec)) <$> specs).

Abbreviation inline_out := (StreamTextChunk ExtractedInlineTag).

Definition push_visible (x : str) (out : inline_out) : inline_out :=
  mkStreamChunk (visible_text out ++ x) (extracted out).
Definition push_extracted (x : ExtractedInlineTag) (out : inline_out) : inline_out :=
  mkStreamChunk (visible_text out) (extracted out ++ [x]).
Definition push_content (x : str) (a : ActiveTag) : ActiveTag :=
  mkActive (act_tag a) (act_close a) (act_content a ++ x).

(** The [loop]: [s] is [&self.pending[consumed..]]. *)
Fixpoint inline_loop (fuel : nat) (specs : list InlineTagSpec) (a : option ActiveTag) (s : str)
    (out : inline_out) : option ActiveTag * str * inline_out :=
  match fuel with
  | 0 => (a, s, out)
  | S fuel =>
      match a with
      | Some act =>
          match str_find (act_close act) s with
          | Some close_idx =>
              let act := push_content (take close_idx s) act in
              inline_loop fuel specs None (drop (close_idx + length (act_close act)) s)
                (push_extracted (mkExtracted (act_tag act) (act_content act)) out)
          | None =>
              let n := length s - longest_suffix_prefix_len s (act_close act) in
              (Some (push_content (take n s) act), drop n s, out)
          end
      | None =>
          match find_next_open specs s with
          | Some (open_idx, spec) =>
              inline_loop fuel specs (Some (mkActive (in_tag spec) (in_close spec) []))
                (drop (open_idx + length (in_open spec)) s) (push_visible (take open_idx s) out)
          | None =>
              let n := length s - max_open_prefix_suffix_len specs s in
              (None, drop n s, push_visible (take n s) out)
          end
      end
  end.

Definition inline_push (chunk : str) (p : InlineHiddenTagParser) : InlineHiddenTagParser * inline_out :=
  let s := pending p ++ chunk in
  let '(a, rest, out) := inline_loop (S (length s)) (in_specs p) (active p) s chunk_empty in
  (mkInline (in_specs p) rest a, out).

Definition inline_finish (p : InlineHiddenTagParser) : InlineHiddenTagParser * inline_out :=
  match active p with
  | Some act =>
      (mkInline (in_specs p) [] None,
       push_extracted (mkExtracted (act_tag act) (act_content act ++ pending p)) chunk_empty)
  | None => (mkInline (in_specs p) [] None, push_visible (pending p) chunk_empty)
  end.
End Inline.
Arguments ExtractedInlineTag : clear implicits.
Arguments InlineTagSpec : clear implicits.
Arguments ActiveTag : clear implicits.
Arguments InlineHiddenTagParser : clear implicits.

#[export] Instance inline_stream {T} : StreamTextParser (InlineHiddenTagParser T) (ExtractedInlineTag T) := {
  push_str := inline_push;
  stream_finish := inline_finish
}.

(** * citation.rs *)

Inductive CitationTag := Citation.

Definition CITATION_OPEN : str := lit "<oai-mem-citation>".
Definition CITATION_CLOSE : str := lit "</oai-mem-citation>".

Record CitationStreamParser := mkCitation { citation_inner : InlineHiddenTagParser CitationTag }.

Definition citation_spec : InlineTagSpec CitationTag := mkInlineSpec Citation CITATION_OPEN CITATION_CLOSE.

Definition citation_new : CitationStreamParser := mkCitation (mkInline [citation_spec] [] None).

Definition contents_only {T} (c : StreamTextChunk (ExtractedInlineTag T)) : StreamTextChunk str :=
  mkStreamChunk (visible_text c) (ex_content <$> extracted c).

#[export] Instance citation_stream : StreamTextParser CitationStreamParser str := {
  push_str chunk p :=
    let '(inner, out) := inline_push chunk (citation_inner p) in (mkCitation inner, contents_only out);
  stream_finish p :=
    let '(inner, out) := inline_finish (citation_inner p) in (mkCitation inner, contents_only out)
}.

Definition strip_citations (text : str) : str * list str :=
  let '(p, out) := push_str text citation_new in
  let tail := snd (stream_finish p) in
  (visible_text out ++ visible_text tail, extracted out ++ extracted tail).

(** * assistant_text.rs *)

Record AssistantTextChunk := mkAssistantChunk {
  at_visible : str; at_citations : list str; at_plan_segments : list ProposedPlanSegment }.

Record AssistantTextStreamParser := mkAssistant {
  plan_mode : bool; at_citation : CitationStreamParser; at_plan : ProposedPlanParser }.

Definition assistant_new (plan_mode : bool) : AssistantTextStreamParser :=
  mkAssistant plan_mode citation_new plan_new.

Definition parse_visible_text (text : str) (p : AssistantTextStreamParser)
    : AssistantTextStreamParser * AssistantTextChunk :=
  if negb (plan_mode p) then (p, mkAssistantChunk text [] [])
  else
    let '(plan, out) := push_str text (at_plan p) in
    (mkAssistant (plan_mode p) (at_citation p) plan, mkAssistantChunk (visible_text out) [] (extracted out)).

Definition assistant_push (chunk : str) (p : AssistantTextStreamParser)
    : AssistantTextStreamParser * AssistantTextChunk :=
  let '(citation, c) := push_str chunk (at_citation p) in
  let p := mkAssistant (plan_mode p) citation (at_plan p) in
  let '(p, out) := parse_visible_text (visible_text c) p in
  (p, mkAssistantChunk (at_visible out) (extracted c) (at_plan_segments out)).

Definition assistant_finish (p : AssistantTextStreamParser) : AssistantTextStreamParser * AssistantTextChunk :=
  let '(citation, c) := stream_finish (at_citation p) in
  let p := mkAssistant (plan_mode p) citation (at_plan p) in
  let '(p, out) := parse_visible_text (visible_text c) p in
  if plan_mode p then
    let '(plan, tail) := stream_finish (at_plan p) in
    (mkAssistant (plan_mode p) (at_citation p) plan,
     mkAssistantChunk (at_visible out ++ visible_text tail) (extracted c)
       (at_plan_segments out ++ extracted tail))
  else (p, mkAssistantChunk (at_visible out) (extracted c) (at_plan_segments out)).

(** * Searching across a chunk boundary *)

Section Search.
Implicit Types (d s b : str).

Lemma ends_with_spec d s : ends_with d s = true ↔ ∃ t, s = t ++ d.
Proof.
  unfold ends_with. destruct (strip_suffix d s) as [t|] eqn:E.
  - apply strip_suffix_Some in E. naive_solver.
  - split; [done|]. intros [t Ht]. apply strip_suffix_Some in Ht. congruence.
Qed.

(** Position [i] of [s] starts an occurrence of [d]. *)
Definition occurs d s i : Prop := d `prefix_of` drop i s.

Lemma str_find_iff d s i :
  str_find d s = Some i ↔ occurs d s i ∧ i ≤ length s ∧ ∀ j, j < i → ¬ occurs d s j.
Proof.
  unfold occurs. split.
  - intros Hf. destruct (str_find_Some _ _ _ Hf) as (Hs & Hl & Hn). split_and!; [|lia|done].
    rewrite Hs. rewrite drop_app_exact by (rewrite length_take; lia). by eexists.
  - intros (Ho & Hl & Hn). destruct (str_find d s) as [j|] eqn:E; [|by eapply str_find_None in E].
    destruct (str_find_Some _ _ _ E) as (Hs & Hlj & Hnj).
    assert (Hoj : d `prefix_of` drop j s).
    { rewrite Hs. rewrite drop_app_exact by (rewrite length_take; lia). by eexists. }
    f_equal. destruct (decide (j < i)); [by destruct (Hn j)|].
    destruct (decide (i < j)); [by destruct (Hnj i)|]. lia.
Qed.

Lemma str_find_None_iff d s : str_find d s = None ↔ ∀ j, ¬ occurs d s j.
Proof.
  split; [apply str_find_None|]. intros Hn. destruct (str_find d s) as [i|] eqn:E; [|done].
  apply str_find_iff in E as [Ho _]. by destruct (Hn i).
Qed.

Lemma suffix_prefix_from_spec k s d :
  let n := suffix_prefix_from k s d in
  n ≤ k ∧ (n = 0 ∨ ends_with (take n d) s = true)
  ∧ ∀ m, n < m ≤ k → ends_with (take m d) s = false.
Proof.
  induction k as [|k IH]; simpl; [split_and!; [lia|by left|lia]|].
  destruct (ends_with (take (S k) d) s) eqn:E; [split_and!; [lia|by right|lia]|].
  destruct IH as (H1 & H2 & H3). split_and!; [lia|done|].
  intros m Hm. destruct (decide (m = S k)) as [->|]; [done|]. apply H3. lia.
Qed.

(** What is kept back: the last [n] characters of [s] start [d], and no longer
    end of [s] does. *)
Lemma keep_spec d s :
  let n := longest_suffix_prefix_len s d in
  n ≤ length s ∧ n ≤ length d - 1
  ∧ drop (length s - n) s = take n d
  ∧ ∀ j, j < length s - n → length s - j < length d → ¬ drop j s `prefix_of` d.
Proof.
  unfold longest_suffix_prefix_len. pose proof (suffix_prefix_from_spec (length s `min` (length d - 1)) s d) as H.
  cbv zeta in H. set (n := suffix_prefix_from _ s d) in *. destruct H as (H1 & H2 & H3).
  split_and!; [lia|lia|..].
  - destruct H2 as [->|H2]; [rewrite Nat.sub_0_r, drop_all; done|].
    apply ends_with_spec in H2 as [t Ht]. rewrite Ht. rewrite length_app, length_take.
    apply drop_app_exact. lia.
  - intros j Hj Hlen [r Hr].
    specialize (H3 (length s - j) ltac:(lia)).
    assert (Ht : take (length s - j) d = drop j s).
    { rewrite Hr. apply take_app_exact. by rewrite length_drop. }
    rewrite Ht in H3. assert (ends_with (drop j s) s = true); [|congruence].
    apply ends_with_spec. exists (take j s). by rewrite take_drop.
Qed.

(** An occurrence of [d] in [s ++ b] that starts in [s] is in [s], or what is
    left of [s] there is a proper prefix of [d]. *)
Lemma occurs_app d s b j :
  j ≤ length s → occurs d (s ++ b) j →
  occurs d s j ∨ (length s - j < length d ∧ drop j s `prefix_of` d).
Proof.
  unfold occurs. intros Hj [r Hr]. rewrite drop_app_le in Hr by done.
  destruct (decide (length d ≤ length (drop j s))) as [Hle|Hgt].
  - left. apply (f_equal (take (length d))) in Hr.
    rewrite take_app_le, take_app_length in Hr by done. exists (drop (length d) (drop j s)).
    by rewrite <- Hr at 1; rewrite take_drop.
  - right. rewrite length_drop in Hgt. split; [lia|].
    apply (f_equal (take (length (drop j s)))) in Hr.
    rewrite take_app_length, take_app_le in Hr by (rewrite length_drop; lia).
    exists (drop (length (drop j s)) d). by rewrite Hr, take_drop at 1.
Qed.

Lemma occurs_app_l d s b j : occurs d s j → occurs d (s ++ b) j.
Proof.
  unfold occurs. intros [r Hr]. destruct (decide (j ≤ length s)).
  - rewrite drop_app_le, Hr by done. exists (r ++ b). by rewrite (assoc_L (++)).
  - rewrite drop_ge in Hr by lia. symmetry in Hr. apply app_nil in Hr as [-> _]. apply prefix_nil.
Qed.

(** Found in the first part: found at the same place in the whole. *)
Lemma find_app_found d s b i : str_find d s = Some i → str_find d (s ++ b) = Some i.
Proof.
  intros Hf. pose proof Hf as (_ & Hl & _)%str_find_Some. apply str_find_iff in Hf as (Ho & Hi & Hn).
  apply str_find_iff. split_and!.
  - by apply occurs_app_l.
  - rewrite length_app. lia.
  - intros j Hj Hoj. apply occurs_app in Hoj as [Hoj|[Hlen _]]; [by destruct (Hn j)|lia|lia].
Qed.

(** Not found in the first part: the search may forget what is not kept. *)
Lemma find_app_none d s b :
  str_find d s = None →
  let t := length s - longest_suffix_prefix_len s d in
  str_find d (s ++ b) = (λ k, t + k) <$> str_find d (drop t s ++ b).
Proof.
  intros Hf t. rewrite str_find_None_iff in Hf.
  destruct (keep_spec d s) as (Hk1 & Hk2 & Hk3 & Hk4). fold t in Hk3, Hk4.
  assert (Ht : t ≤ length s) by lia.
  assert (Hshift : ∀ k, occurs d (drop t s ++ b) k ↔ occurs d (s ++ b) (t + k)).
  { intros k. unfold occurs. by rewrite <- drop_drop, (drop_app_le s b t) by done. }
  assert (Hearly : ∀ j, j < t → ¬ occurs d (s ++ b) j).
  { intros j Hj Ho. apply occurs_app in Ho as [Ho|[Hlen Hp]]; [by destruct (Hf j)| |lia].
    by apply (Hk4 j Hj Hlen). }
  destruct (str_find d (drop t s ++ b)) as [k|] eqn:E; simpl.
  - apply str_find_iff in E as (Ho & Hl & Hn). apply str_find_iff. split_and!.
    + by apply Hshift.
    + rewrite length_app, length_drop in *. lia.
    + intros j Hj. destruct (decide (j < t)); [by apply Hearly|].
      replace j with (t + (j - t)) by lia. rewrite <- Hshift. apply Hn. lia.
  - apply str_find_None_iff. intros j Ho. destruct (decide (j < t)); [by apply (Hearly j)|].
    rewrite str_find_None_iff in E. apply (E (j - t)), Hshift. by replace (t + (j - t)) with j by lia.
Qed.

(** ... and what is kept of the whole is what is kept of the rest. *)
Lemma keep_app d s b :
  str_find d s = None →
  let t := length s - longest_suffix_prefix_len s d in
  longest_suffix_prefix_len (s ++ b) d = longest_suffix_prefix_len (drop t s ++ b) d.
Proof.
  intros Hf t. destruct (keep_spec d s) as (Hk1 & Hk2 & Hk3 & Hk4). fold t in Hk3, Hk4.
  destruct (keep_spec d (s ++ b)) as (Ha1 & Ha2 & Ha3 & Ha4).
  destruct (keep_spec d (drop t s ++ b)) as (Hb1 & Hb2 & Hb3 & Hb4).
  set (x := longest_suffix_prefix_len (s ++ b) d) in *.
  set (y := longest_suffix_prefix_len (drop t s ++ b) d) in *.
  assert (Hlen : length (s ++ b) = t + length (drop t s ++ b)).
  { rewrite !length_app, length_drop. lia. }
  assert (Hdrop : ∀ k, drop (t + k) (s ++ b) = drop k (drop t s ++ b)).
  { intros k. by rewrite <- drop_drop, (drop_app_le s b t) by lia. }
  destruct (decide (x < y)) as [Hxy|Hxy].
  - exfalso. apply (Ha4 (length (s ++ b) - y)); [lia|lia|].
    replace (length (s ++ b) - y) with (t + (length (drop t s ++ b) - y)) by lia.
    rewrite Hdrop, Hb3. apply prefix_take.
  - destruct (decide (x ≤ length (drop t s ++ b))) as [Hle|Hgt].
    + destruct (decide (y < x)) as [Hyx|]; [|lia]. exfalso.
      apply (Hb4 (length (drop t s ++ b) - x)); [lia|lia|].
      rewrite <- Hdrop. replace (t + (length (drop t s ++ b) - x)) with (length (s ++ b) - x) by lia.
      rewrite Ha3. apply prefix_take.
    + exfalso. apply (Hk4 (length (s ++ b) - x)); [lia| |].
      * rewrite length_app in *. lia.
      * rewrite drop_app_le in Ha3 by (rewrite length_app in *; lia).
        assert (Hp : drop (length (s ++ b) - x) s `prefix_of` take x d) by (rewrite <- Ha3; by eexists).
        etrans; [exact Hp|apply prefix_take].
Qed.

Lemma keep_idem d s :
  str_find d s = None →
  let t := length s - longest_suffix_prefix_len s d in
  str_find d (drop t s) = None ∧ longest_suffix_prefix_len (drop t s) d = length (drop t s).
Proof.
  intros Hf t. pose proof (find_app_none d s [] Hf) as H1. pose proof (keep_app d s [] Hf) as H2.
  cbv zeta in *. fold t in H1, H2. rewrite !app_nil_r in *. rewrite Hf in H1. split.
  - by destruct (str_find d (drop t s)).
  - rewrite <- H2, length_drop. destruct (keep_spec d s) as (? & _). lia.
Qed.
End Search.

(** * One tag *)

Section OneTag.
Context {T : Type} (spec : InlineTagSpec T).
Context (Hopen : in_open spec ≠ []) (Hclose : in_close spec ≠ []).
Implicit Types (a : option (ActiveTag T)) (out : StreamTextChunk (ExtractedInlineTag T)) (s : str).

(** The delimiter looked for. *)
Definition delim a : str := match a with Some act => act_close act | None => in_open spec end.

(** Text goes to the visible text, or to the open tag. *)
Definition emit (x : str) (ao : option (ActiveTag T) * StreamTextChunk (ExtractedInlineTag T)) :=
  match ao with
  | (Some act, out) => (Some (push_content x act), out)
  | (None, out) => (None, push_visible x out)
  end.

Definition toggle (ao : option (ActiveTag T) * StreamTextChunk (ExtractedInlineTag T)) :=
  match ao with
  | (Some act, out) => (None, push_extracted (mkExtracted (act_tag act) (act_content act)) out)
  | (None, out) => (Some (mkActive (in_tag spec) (in_close spec) []), out)
  end.

Definition closes_right a : Prop := match a with Some act => act_close act = in_close spec | None => True end.

Lemma emit_emit x y ao : emit y (emit x ao) = emit (x ++ y) ao.
Proof.
  destruct ao as [[act|] out]; unfold emit, push_content, push_visible; simpl; by rewrite (assoc_L (++)).
Qed.

Lemma emit_nil ao : emit [] ao = ao.
Proof.
  destruct ao as [[[]|] []]; unfold emit, push_content, push_visible; simpl; by rewrite app_nil_r.
Qed.

Lemma emit_delim x a out : delim (fst (emit x (a, out))) = delim a.
Proof. by destruct a. Qed.

Lemma emit_right x a out : closes_right a → closes_right (fst (emit x (a, out))).
Proof. by destruct a. Qed.

Lemma toggle_right a out : closes_right (fst (toggle (a, out))).
Proof. by destruct a. Qed.

Lemma delim_nonempty a : closes_right a → delim a ≠ [].
Proof. destruct a as [act|]; simpl; [by intros ->|done]. Qed.

(** One iteration of the loop, for both kinds of delimiter. *)
Lemma inline_loop_one fuel a s out :
  inline_loop (S fuel) [spec] a s out =
  match str_find (delim a) s with
  | Some i =>
      let '(a', out') := toggle (emit (take i s) (a, out)) in
      inline_loop fuel [spec] a' (drop (i + length (delim a)) s) out'
  | None =>
      let n := length s - longest_suffix_prefix_len s (delim a) in
      let '(a', out') := emit (take n s) (a, out) in (a', drop n s, out')
  end.
Proof.
  destruct a as [act|]; simpl; [done|]. unfold max_open_prefix_suffix_len. simpl.
  rewrite Nat.max_0_r. by destruct (str_find (in_open spec) s).
Qed.

(** Enough fuel: every iteration that continues drops a delimiter. *)
Lemma inline_loop_fuel n m a s out :
  closes_right a → length s < n → length s < m →
  inline_loop n [spec] a s out = inline_loop m [spec] a s out.
Proof.
  revert m a s out. induction n as [|n IH]; intros m a s out Ha Hn Hm; [lia|].
  destruct m as [|m]; [lia|]. rewrite !inline_loop_one.
  destruct (str_find (delim a) s) as [i|] eqn:E; [|done].
  apply str_find_Some in E as (_ & Hl & _). pose proof (delim_nonempty a Ha) as Hd.
  assert (0 < length (delim a)) by (destruct (delim a); [done|simpl; lia]).
  pose proof (toggle_right (fst (emit (take i s) (a, out))) (snd (emit (take i s) (a, out)))) as Ht.
  rewrite <- surjective_pairing in Ht. destruct (toggle _) as [a' out'].
  apply IH; [done|rewrite length_drop; lia..].
Qed.

Lemma inline_loop_right n a s out :
  closes_right a →
  closes_right (fst (fst (inline_loop n [spec] a s out)))
  ∧ length (snd (fst (inline_loop n [spec] a s out))) ≤ length s.
Proof.
  revert a s out. induction n as [|n IH]; intros a s out Ha; [done|]. rewrite inline_loop_one.
  destruct (str_find (delim a) s) as [i|].
  - pose proof (toggle_right (fst (emit (take i s) (a, out))) (snd (emit (take i s) (a, out)))) as Ht.
    rewrite <- surjective_pairing in Ht. destruct (toggle _) as [a' out'].
    destruct (IH a' (drop (i + length (delim a)) s) out' Ht) as [H1 H2]. split; [done|].
    rewrite length_drop in H2. lia.
  - cbv zeta. set (t := length s - _). pose proof (emit_right (take t s) a out Ha) as Hr.
    destruct (emit (take t s) (a, out)) as [a' out']. simpl in *. split; [done|]. rewrite length_drop. lia.
Qed.

(** The loop on [s ++ b] is the loop on [s], then on what it kept and [b]. *)
Lemma inline_loop_app n s b a out :
  closes_right a → length s < n →
  inline_loop (n + length b) [spec] a (s ++ b) out =
  let '(a1, rest, out1) := inline_loop n [spec] a s out in
  inline_loop (n + length b) [spec] a1 (rest ++ b) out1.
Proof.
  revert a s out. induction n as [|n IH]; intros a s out Ha Hn; [lia|].
  change (S n + length b) with (S (n + length b)). rewrite (inline_loop_one n a s out).
  destruct (str_find (delim a) s) as [i|] eqn:E.
  - pose proof (find_app_found _ _ b _ E) as Eb.
    apply str_find_Some in E as (_ & Hl & _). pose proof (delim_nonempty a Ha) as Hd.
    assert (0 < length (delim a)) by (destruct (delim a); [done|simpl; lia]).
    rewrite inline_loop_one, Eb. rewrite take_app_le by lia. rewrite drop_app_le by lia.
    pose proof (toggle_right (fst (emit (take i s) (a, out))) (snd (emit (take i s) (a, out)))) as Ht.
    rewrite <- surjective_pairing in Ht. destruct (toggle _) as [a' out']. simpl in Ht.
    rewrite IH by (done || rewrite length_drop; lia).
    pose proof (inline_loop_right n a' (drop (i + length (delim a)) s) out' Ht) as Hr.
    destruct (inline_loop n [spec] a' _ out') as [[a1 rest] out1] eqn:El. simpl in Hr.
    destruct Hr as [Hr Hlr]. rewrite length_drop in Hlr.
    apply inline_loop_fuel; [done|rewrite length_app; lia..].
  - pose proof (find_app_none _ _ b E) as Eb. pose proof (keep_app _ _ b E) as Ek. cbv zeta in *.
    set (t := length s - longest_suffix_prefix_len s (delim a)) in *.
    assert (Ht : t ≤ length s) by lia.
    pose proof (emit_right (take t s) a out Ha) as Hr. pose proof (emit_delim (take t s) a out) as Hdl.
    destruct (emit (take t s) (a, out)) as [a1 out1] eqn:Ee. simpl in Hr, Hdl.
    rewrite !inline_loop_one, Hdl, Eb.
    assert (Htk : ∀ k, take (t + k) (s ++ b) = take t s ++ take k (drop t s ++ b)).
    { intros k. by rewrite <- take_take_drop, take_app_le, drop_app_le by done. }
    assert (Hdr : ∀ k, drop (t + k) (s ++ b) = drop k (drop t s ++ b)).
    { intros k. by rewrite <- drop_drop, (drop_app_le s b t). }
    destruct (str_find (delim a) (drop t s ++ b)) as [k|]; cbn [fmap option_fmap option_map].
    + rewrite Htk, <- emit_emit, Ee, <- Hdr. rewrite <- Nat.add_assoc.
      replace (t + (k + length (delim a))) with (t + k + length (delim a)) by lia. done.
    + cbv zeta. rewrite Ek. set (y := longest_suffix_prefix_len (drop t s ++ b) (delim a)).
      assert (Hy : y ≤ length (drop t s ++ b)) by (by destruct (keep_spec (delim a) (drop t s ++ b))).
      replace (length (s ++ b) - y) with (t + (length (drop t s ++ b) - y))
        by (rewrite !length_app, length_drop in *; lia).
      by rewrite Htk, <- emit_emit, Ee, Hdr.
Qed.

(** Nothing more can be emitted from [s] alone. *)
Definition settled a s : Prop :=
  str_find (delim a) s = None ∧ longest_suffix_prefix_len s (delim a) = length s.

Lemma inline_loop_settled n a s out :
  closes_right a → length s < n →
  settled (fst (fst (inline_loop n [spec] a s out))) (snd (fst (inline_loop n [spec] a s out))).
Proof.
  revert a s out. induction n as [|n IH]; intros a s out Ha Hn; [lia|]. rewrite inline_loop_one.
  destruct (str_find (delim a) s) as [i|] eqn:E.
  - apply str_find_Some in E as (_ & Hl & _). pose proof (delim_nonempty a Ha) as Hd.
    assert (0 < length (delim a)) by (destruct (delim a); [done|simpl; lia]).
    pose proof (toggle_right (fst (emit (take i s) (a, out))) (snd (emit (take i s) (a, out)))) as Ht.
    rewrite <- surjective_pairing in Ht. destruct (toggle _) as [a' out'].
    apply IH; [done|rewrite length_drop; lia].
  - cbv zeta. set (t := length s - _). pose proof (emit_delim (take t s) a out) as Hdl.
    destruct (emit (take t s) (a, out)) as [a' out']. simpl in *. unfold settled. rewrite Hdl.
    by apply keep_idem.
Qed.

Lemma inline_loop_at_rest n a s out : settled a s → inline_loop (S n) [spec] a s out = (a, s, out).
Proof.
  intros [Hf Hk]. rewrite inline_loop_one, Hf. cbv zeta. rewrite Hk, Nat.sub_diag.
  change (take 0 s) with (@nil N). by rewrite emit_nil.
Qed.

Lemma inline_loop_out n a s o out :
  inline_loop n [spec] a s (chunk_append o out) =
  let '(a', r, out') := inline_loop n [spec] a s out in (a', r, chunk_append o out').
Proof.
  revert a s out. induction n as [|n IH]; intros a s out; [done|]. rewrite !inline_loop_one.
  assert (Happ : ∀ x, emit x (a, chunk_append o out) =
                      (fst (emit x (a, out)), chunk_append o (snd (emit x (a, out))))).
  { intros x. destruct a; [done|]. unfold emit, push_visible, chunk_append. simpl. by rewrite (assoc_L (++)). }
  destruct (str_find (delim a) s) as [i|]; cbv zeta; rewrite Happ.
  - assert (Htog : ∀ a' o', toggle (a', chunk_append o o') =
                            (fst (toggle (a', o')), chunk_append o (snd (toggle (a', o'))))).
    { intros [act|] o'; [|done]. unfold toggle, push_extracted, chunk_append. simpl. by rewrite (assoc_L (++)). }
    destruct (emit (take i s) (a, out)) as [a1 o1]. cbn [fst snd]. rewrite Htog.
    destruct (toggle (a1, o1)) as [a2 o2]. apply IH.
  - by destruct (emit _ (a, out)).
Qed.

Definition one_tag_inv (p : InlineHiddenTagParser T) : Prop :=
  in_specs p = [spec] ∧ closes_right (active p) ∧ settled (active p) (pending p).

Lemma inline_push_inv c p : one_tag_inv p → one_tag_inv (fst (inline_push c p)).
Proof.
  intros (Hs & Ha & _). unfold inline_push. rewrite Hs.
  pose proof (inline_loop_right (S (length (pending p ++ c))) (active p) (pending p ++ c) chunk_empty Ha) as [Hr _].
  pose proof (inline_loop_settled (S (length (pending p ++ c))) (active p) (pending p ++ c) chunk_empty Ha
                ltac:(lia)) as Hst.
  destruct (inline_loop _ [spec] (active p) (pending p ++ c) chunk_empty) as [[a r] o]. done.
Qed.

Lemma inline_push_nil p : one_tag_inv p → inline_push [] p = (p, chunk_empty).
Proof.
  intros (Hs & Ha & Hst). unfold inline_push. rewrite app_nil_r, Hs, inline_loop_at_rest by done.
  destruct p. simpl in *. by subst.
Qed.

Lemma inline_push_app x y p :
  one_tag_inv p →
  inline_push (x ++ y) p =
  let '(p1, o1) := inline_push x p in let '(p2, o2) := inline_push y p1 in (p2, chunk_append o1 o2).
Proof.
  intros (Hs & Ha & _). unfold inline_push. rewrite Hs, (assoc_L (++)).
  set (s := pending p ++ x). rewrite (inline_loop_fuel _ (S (length s) + length y))
    by (done || rewrite ?length_app; lia).
  rewrite inline_loop_app by (done || lia).
  pose proof (inline_loop_right (S (length s)) (active p) s chunk_empty Ha) as [Hr Hl].
  destruct (inline_loop (S (length s)) [spec] (active p) s chunk_empty) as [[a1 r1] o1]. simpl in Hr, Hl.
  cbn [in_specs active pending]. rewrite <- (chunk_append_empty o1) at 1. rewrite inline_loop_out.
  rewrite (inline_loop_fuel _ (S (length (r1 ++ y)))) by (done || rewrite ?length_app; lia).
  by destruct (inline_loop _ [spec] a1 (r1 ++ y) chunk_empty) as [[a2 r2] o2].
Qed.
End OneTag.

(** The citation parser meets the contract of the interface. *)
Lemma contents_only_append {T} (a b : StreamTextChunk (ExtractedInlineTag T)) :
  contents_only (chunk_append a b) = chunk_append (contents_only a) (contents_only b).
Proof. unfold contents_only, chunk_append. simpl. by rewrite fmap_app. Qed.

Lemma citation_open_nonempty : in_open citation_spec ≠ []. Proof. done. Qed.
Lemma citation_close_nonempty : in_close citation_spec ≠ []. Proof. done. Qed.

#[export] Instance citation_laws : StreamLaws CitationStreamParser str.
Proof.
  refine {| stream_inv := λ p, one_tag_inv citation_spec (citation_inner p); same_chunk := eq |}.
  - intros c [p] Hp. simpl in *.
    pose proof (inline_push_inv citation_spec citation_open_nonempty citation_close_nonempty c p Hp) as H.
    by destruct (inline_push c p).
  - intros [p] Hp. simpl in *. by rewrite (inline_push_nil citation_spec).
  - intros a b [p] Hp. simpl in *.
    rewrite (inline_push_app citation_spec citation_open_nonempty citation_close_nonempty a b p Hp).
    destruct (inline_push a p) as [p1 o1]. simpl. destruct (inline_push b p1) as [p2 o2]. simpl.
    split; [done|]. apply contents_only_append.
Defined.

(** * Reference: a complete text *)

(** Splitting a text at its citations, one after the other; an unclosed one
    extends to the end. *)
Fixpoint split_citations (fuel : nat) (s : str) : str * list str :=
  match fuel with
  | 0 => (s, [])
  | S fuel =>
      match split_once CITATION_OPEN s with
      | None => (s, [])
      | Some (before, rest) =>
          match split_once CITATION_CLOSE rest with
          | None => (before, [rest])
          | Some (body, rest) =>
              let '(visible, bodies) := split_citations fuel rest in (before ++ visible, body :: bodies)
          end
      end
  end.

(** What the loop and the flush emit in the end. *)
Definition flushed (r : option (ActiveTag CitationTag) * str * StreamTextChunk (ExtractedInlineTag CitationTag))
    : StreamTextChunk (ExtractedInlineTag CitationTag) :=
  let '(a, rest, out) := r in chunk_append out (snd (inline_finish (mkInline [citation_spec] rest a))).

Lemma citation_loop_spec n s out :
  length s < n →
  contents_only (flushed (inline_loop (n + n) [citation_spec] None s out)) =
  chunk_append (contents_only out)
    (mkStreamChunk (fst (split_citations n s)) (snd (split_citations n s))).
Proof.
  revert s out. induction n as [|n IH]; intros s out Hn; [lia|].
  replace (S n + S n) with (S (S (n + n))) by lia. rewrite inline_loop_one. cbn [split_citations delim].
  change (in_open citation_spec) with CITATION_OPEN. unfold split_once.
  destruct (str_find CITATION_OPEN s) as [i|] eqn:E; cbn [mbind option_bind].
  2:{ unfold flushed, contents_only, chunk_append. simpl.
      by rewrite !app_nil_r, <- (assoc_L (++)), take_drop. }
  apply str_find_Some in E as (_ & Hl & _). change (length CITATION_OPEN) with 18 in *.
  set (s1 := drop (i + 18) s). assert (Hs1 : length s1 < n) by (unfold s1; rewrite length_drop; lia).
  cbn [emit toggle]. rewrite inline_loop_one. cbn [delim act_close in_close citation_spec].
  destruct (str_find CITATION_CLOSE s1) as [j|]; cbn [mbind option_bind].
  2:{ unfold flushed, contents_only, chunk_append. simpl.
      by rewrite ?app_nil_r, ?fmap_app, take_drop. }
  cbn [emit toggle push_content act_tag act_content]. rewrite IH by (rewrite length_drop; lia).
  destruct (split_citations n (drop (j + length CITATION_CLOSE) s1)) as [vis bodies].
  unfold contents_only, chunk_append. simpl. by rewrite fmap_app, <- !(assoc_L (++)).
Qed.

(** * The assistant's text *)

(** Feeding the assistant parser chunk by chunk, and the flush. *)
Definition assistant_append (a b : AssistantTextChunk) : AssistantTextChunk :=
  mkAssistantChunk (at_visible a ++ at_visible b) (at_citations a ++ at_citations b)
    (at_plan_segments a ++ at_plan_segments b).

Fixpoint assistant_push_all (chunks : list str) (p : AssistantTextStreamParser)
    : AssistantTextStreamParser * AssistantTextChunk :=
  match chunks with
  | [] => (p, mkAssistantChunk [] [] [])
  | c :: chunks =>
      let '(p1, o1) := assistant_push c p in
      let '(p2, o2) := assistant_push_all chunks p1 in (p2, assistant_append o1 o2)
  end.

Definition same_assistant (a b : AssistantTextChunk) : Prop :=
  at_visible a = at_visible b ∧ at_citations a = at_citations b
  ∧ plan_coalesce (at_plan_segments a) = plan_coalesce (at_plan_segments b).

Lemma same_assistant_append a a' b b' :
  same_assistant a a' → same_assistant b b' → same_assistant (assistant_append a b) (assistant_append a' b').
Proof.
  intros (H1 & H2 & H3) (H4 & H5 & H6). split_and!; simpl; [congruence..|].
  by rewrite !plan_coalesce_app, !merge_plan_coalesce, H3, H6.
Qed.

Lemma assistant_push_app x y p :
  one_tag_inv citation_spec (citation_inner (at_citation p)) →
  fst (assistant_push (x ++ y) p) = fst (assistant_push y (fst (assistant_push x p)))
  ∧ same_assistant (snd (assistant_push (x ++ y) p))
      (assistant_append (snd (assistant_push x p)) (snd (assistant_push y (fst (assistant_push x p))))).
Proof.
  intros Hp. destruct p as [mode c pl]. unfold assistant_push, parse_visible_text. cbn [at_citation plan_mode at_plan].
  destruct (@push_app _ _ _ citation_laws x y c Hp) as [Hf Hs]. 
  destruct (push_str x c) as [c1 o1] eqn:E1. cbn [fst snd] in *.
  destruct mode; cbn [negb].
  - destruct (push_str (visible_text o1) pl) as [pl1 q1] eqn:Eq1. cbn [fst snd at_citation at_plan plan_mode].
    destruct (push_str y c1) as [c2 o2] eqn:E2. cbn [fst snd] in *.
    destruct (push_str (x ++ y) c) as [c3 o3]. cbn [fst snd] in *. subst c3.
    change (o3 = chunk_append o1 o2) in Hs. subst o3. cbn [chunk_append visible_text extracted negb].
    destruct (@push_app _ _ _ plan_laws (visible_text o1) (visible_text o2) pl I) as [Hpf Hps]. rewrite Eq1 in Hpf, Hps.
    cbn [fst snd] in *. destruct (push_str (visible_text o2) pl1) as [pl2 q2].
    destruct (push_str (visible_text o1 ++ visible_text o2) pl) as [pl3 q3]. cbn [fst snd] in *. subst pl3.
    split; [done|]. destruct Hps as [Hv Hc]. split_and!; simpl; done.
  - cbn [fst snd at_citation at_plan plan_mode].
    destruct (push_str y c1) as [c2 o2] eqn:E2. cbn [fst snd negb] in *.
    destruct (push_str (x ++ y) c) as [c3 o3]. cbn [fst snd] in *. subst c3.
    change (o3 = chunk_append o1 o2) in Hs. subst o3. split; [done|]. by split_and!.
Qed.

Lemma assistant_push_inv x p :
  one_tag_inv citation_spec (citation_inner (at_citation p)) →
  one_tag_inv citation_spec (citation_inner (at_citation (fst (assistant_push x p)))).
Proof.
  intros Hp. pose proof (@inv_push _ _ _ citation_laws x (at_citation p) Hp) as Hi. unfold assistant_push, parse_visible_text.
  destruct (push_str x (at_citation p)) as [c o]. simpl in *. destruct (plan_mode p); simpl; [|done].
  by destruct (tagged_parse _ _).
Qed.

Lemma assistant_push_nil p :
  one_tag_inv citation_spec (citation_inner (at_citation p)) →
  assistant_push [] p = (p, mkAssistantChunk [] [] []).
Proof.
  intros Hp. destruct p as [mode c pl]. unfold assistant_push, parse_visible_text. cbn [at_citation plan_mode at_plan].
  rewrite (@push_nil _ _ _ citation_laws c Hp). simpl. destruct mode; [|done]. simpl. by destruct pl.
Qed.

Lemma assistant_new_inv mode : one_tag_inv citation_spec (citation_inner (at_citation (assistant_new mode))).
Proof. split_and!; [done..|]. split; reflexivity. Qed.

Lemma assistant_chunks chunks p :
  one_tag_inv citation_spec (citation_inner (at_citation p)) →
  fst (assistant_push_all chunks p) = fst (assistant_push (mjoin chunks) p)
  ∧ same_assistant (snd (assistant_push_all chunks p)) (snd (assistant_push (mjoin chunks) p)).
Proof.
  revert p. induction chunks as [|c chunks IH]; intros p Hp; simpl.
  { rewrite assistant_push_nil by done. done. }
  destruct (assistant_push_app c (mjoin chunks) p Hp) as [Hf Hs].
  destruct (IH (fst (assistant_push c p)) (assistant_push_inv c p Hp)) as [IHf IHs].
  destruct (assistant_push c p) as [p1 o1]. cbn [fst snd] in *.
  destruct (assistant_push_all chunks p1) as [p2 o2]. cbn [fst snd] in *.
  split; [congruence|]. destruct Hs as (H1 & H2 & H3).
  destruct (same_assistant_append o1 o1 o2 _ ltac:(done) IHs) as (H4 & H5 & H6).
  split_and!; congruence.
Qed.

(** * Results *)

(** however a text is cut into chunks, the citation parser gives the same
    visible text and the same citations; a tag split over chunks is recognised
    and no character before a possible tag is held back for good. *)
Theorem citation_chunking_irrelevant (chunks : list str) :
  collect chunks citation_new = collect [mjoin chunks] citation_new.
Proof.
  apply (@collect_chunking _ _ _ citation_laws chunks citation_new).
  exact (assistant_new_inv false).
Qed.

(** stripping citations is the reference that splits the text at the tags: the
    visible text is what lies outside them, the citations are what lies inside,
    in order, and an unclosed citation runs to the end. *)
Theorem strip_citations_correct text :
  strip_citations text = split_citations (S (length text)) text.
Proof.
  pose proof (citation_loop_spec (S (length text)) text chunk_empty ltac:(lia)) as H.
  rewrite (inline_loop_fuel citation_spec citation_open_nonempty citation_close_nonempty _
             (S (length text))) in H by (done || lia).
  unfold strip_citations. cbn [push_str citation_stream citation_inner citation_new].
  unfold inline_push. cbn [in_specs active pending app].
  destruct (inline_loop (S (length text)) [citation_spec] None text chunk_empty) as [[a r] o].
  unfold flushed in H. cbn [stream_finish citation_stream citation_inner].
  destruct (inline_finish (mkInline [citation_spec] r a)) as [q tail]. cbn [fst snd] in *.
  unfold contents_only, chunk_append in *. cbn [visible_text extracted] in *. rewrite fmap_app in H.
  destruct (split_citations (S (length text)) text). cbn [fst snd app fmap list_fmap] in H.
  by injection H as -> ->.
Qed.

(** C36: the composed assistant parser (citations first, then plan blocks on what
    stays visible) gives the same result for every way of cutting the text. *)
Theorem assistant_chunking_irrelevant mode (chunks : list str) :
  fst (assistant_push_all chunks (assistant_new mode)) = fst (assistant_push (mjoin chunks) (assistant_new mode))
  ∧ same_assistant (snd (assistant_push_all chunks (assistant_new mode)))
      (snd (assistant_push (mjoin chunks) (assistant_new mode))).
Proof. apply assistant_chunks, assistant_new_inv. Qed.

(** With several tags the chunks matter: when one opener is a prefix of another,
    the shorter one is taken before the rest of the longer one has arrived. *)
Example two_openers_chunking :
  let p := mkInline [mkInlineSpec 0 (lit "<a") (lit ">"); mkInlineSpec 1 (lit "<ab") (lit ">")] [] None in
  ex_tag <$> extracted (collect [lit "<ab>"] p) = [1]
  ∧ ex_tag <$> extracted (collect [lit "<a"; lit "b>"] p) = [0].
Proof. split; reflexivity. Qed.
