(* ===== verification/Utf8Stream.v ===== *)
(** utils/stream-parser/src/utf8_stream.rs: decoding a byte stream in front of a
    [StreamTextParser].

    [from_utf8] models [std::str::from_utf8] with [valid_up_to] and [error_len]:
    the well-formed byte sequences of the Unicode standard, the length of the
    ill-formed part where decoding stops, and [None] at an unexpected end. *)
From S2P Require Import Prelude Str StreamText TaggedLine InlineTag.

(** * std::str::from_utf8 *)

Section Decode.
Local Open Scope N_scope.

Definition in_range (lo hi b : N) : bool := (lo <=? b) && (b <=? hi).
Definition is_cont (b : N) : bool := in_range 128 191 b.

Inductive decoded :=
| DChar (c : N) (width : nat)
| DInvalid (error_len : nat)
| DIncomplete.

(** The second byte of a three- or four-byte sequence, by its first byte. *)
Definition second_ok3 (b0 b1 : N) : bool :=
  ((b0 =? 224) && in_range 160 191 b1) || (in_range 225 236 b0 && is_cont b1)
  || ((b0 =? 237) && in_range 128 159 b1) || (in_range 238 239 b0 && is_cont b1).
Definition second_ok4 (b0 b1 : N) : bool :=
  ((b0 =? 240) && in_range 144 191 b1) || (in_range 241 243 b0 && is_cont b1)
  || ((b0 =? 244) && in_range 128 143 b1).

(** The first character of a non-empty byte sequence. *)
Definition decode_one (bytes : list N) : decoded :=
  match bytes with
  | [] => DIncomplete
  | b0 :: bytes =>
      if b0 <? 128 then DChar b0 1
      else if in_range 194 223 b0 then
        match bytes with
        | [] => DIncomplete
        | b1 :: _ => if is_cont b1 then DChar ((b0 - 192) * 64 + (b1 - 128)) 2 else DInvalid 1
        end
      else if in_range 224 239 b0 then
        match bytes with
        | [] => DIncomplete
        | b1 :: bytes =>
            if negb (second_ok3 b0 b1) then DInvalid 1
            else match bytes with
                 | [] => DIncomplete
                 | b2 :: _ =>
                     if is_cont b2
                     then DChar ((b0 - 224) * 4096 + (b1 - 128) * 64 + (b2 - 128)) 3 else DInvalid 2
                 end
        end
      else if in_range 240 244 b0 then
        match bytes with
        | [] => DIncomplete
        | b1 :: bytes =>
            if negb (second_ok4 b0 b1) then DInvalid 1
            else match bytes with
                 | [] => DIncomplete
                 | b2 :: bytes =>
                     if negb (is_cont b2) then DInvalid 2
                     else match bytes with
                          | [] => DIncomplete
                          | b3 :: _ =>
                              if is_cont b3
                              then DChar ((b0 - 240) * 262144 + (b1 - 128) * 4096 + (b2 - 128) * 64
                                          + (b3 - 128)) 4
                              else DInvalid 3
                          end
                 end
        end
      else DInvalid 1
  end.
End Decode.

(** How the validation ends: at the end of the input, or with [error_len]. *)
Inductive utf8_status := Valid | Invalid (error_len : nat) | Incomplete.

(** The longest valid prefix, decoded, the bytes from [valid_up_to] on, and why
    it stops there. *)
Fixpoint decode_all (fuel : nat) (bytes : list N) : str * list N * utf8_status :=
  match fuel, bytes with
  | _, [] => ([], [], Valid)
  | 0, _ => ([], bytes, Incomplete)
  | S fuel, _ =>
      match decode_one bytes with
      | DChar c width =>
          let '(text, rest, status) := decode_all fuel (drop width bytes) in (c :: text, rest, status)
      | DInvalid n => ([], bytes, Invalid n)
      | DIncomplete => ([], bytes, Incomplete)
      end
  end.

Definition from_utf8 (bytes : list N) : str * list N * utf8_status := decode_all (length bytes) bytes.

(** * Utf8StreamParser *)

Inductive Utf8StreamParserError :=
| InvalidUtf8 (valid_up_to error_len : nat)
| IncompleteUtf8AtEof.

Section Utf8.
Context {S T : Type} `{StreamTextParser S T}.

Record Utf8StreamParser := mkUtf8 { utf8_inner : S; pending_utf8 : list N }.

Definition utf8_new (inner : S) : Utf8StreamParser := mkUtf8 inner [].

Definition push_bytes (chunk : list N) (p : Utf8StreamParser)
    : Utf8StreamParser * result Utf8StreamParserError (StreamTextChunk T) :=
  let bytes := pending_utf8 p ++ chunk in
  match from_utf8 bytes with
  | (text, _, Valid) =>
      let '(inner, out) := push_str text (utf8_inner p) in (mkUtf8 inner [], Ok out)
  | (_, rest, Invalid error_len) =>
      (mkUtf8 (utf8_inner p) (take (length (pending_utf8 p)) bytes),
       Err (InvalidUtf8 (length bytes - length rest) error_len))
  | (text, rest, Incomplete) =>
      let valid_up_to := length bytes - length rest in
      if valid_up_to =? 0 then (mkUtf8 (utf8_inner p) bytes, Ok chunk_empty)
      else
        let '(inner, out) := push_str text (utf8_inner p) in
        (mkUtf8 inner (drop valid_up_to bytes), Ok out)
  end.

Definition utf8_finish (p : Utf8StreamParser)
    : Utf8StreamParser * result Utf8StreamParserError (StreamTextChunk T) :=
  match from_utf8 (pending_utf8 p) with
  | (_, rest, Invalid error_len) =>
      (p, Err (InvalidUtf8 (length (pending_utf8 p) - length rest) error_len))
  | (_, _, Incomplete) => (p, Err IncompleteUtf8AtEof)
  | (text, _, Valid) =>
      let '(inner, out) :=
        if bool_decide (pending_utf8 p = []) then (utf8_inner p, chunk_empty)
        else push_str text (utf8_inner p) in
      let '(inner, tail) := stream_finish inner in
      (mkUtf8 inner [], Ok (chunk_append out tail))
  end.

Definition into_inner (p : Utf8StreamParser) : result Utf8StreamParserError S :=
  match from_utf8 (pending_utf8 p) with
  | (_, _, Valid) => Ok (utf8_inner p)
  | (_, rest, Invalid error_len) => Err (InvalidUtf8 (length (pending_utf8 p) - length rest) error_len)
  | (_, _, Incomplete) => Err IncompleteUtf8AtEof
  end.

Definition into_inner_lossy (p : Utf8StreamParser) : S := utf8_inner p.

(** Feeding all chunks; the first error stops. *)
Fixpoint push_bytes_all (chunks : list (list N)) (p : Utf8StreamParser)
    : Utf8StreamParser * result Utf8StreamParserError (StreamTextChunk T) :=
  match chunks with
  | [] => (p, Ok chunk_empty)
  | c :: chunks =>
      match push_bytes c p with
      | (p1, Err e) => (p1, Err e)
      | (p1, Ok o1) =>
          match push_bytes_all chunks p1 with
          | (p2, Err e) => (p2, Err e)
          | (p2, Ok o2) => (p2, Ok (chunk_append o1 o2))
          end
      end
  end.

Definition collect_bytes (chunks : list (list N)) (p : Utf8StreamParser)
    : result Utf8StreamParserError (StreamTextChunk T) :=
  match push_bytes_all chunks p with
  | (_, Err e) => Err e
  | (p1, Ok o) =>
      match utf8_finish p1 with
      | (_, Err e) => Err e
      | (_, Ok tail) => Ok (chunk_append o tail)
      end
  end.
End Utf8.

(** * Decoding in two parts *)

Lemma decode_one_width bytes c w : decode_one bytes = DChar c w → 1 ≤ w ≤ length bytes.
Proof.
  unfold decode_one. intros H. repeat case_match; simplify_eq; simpl; lia.
Qed.

(** A character of [a ++ b] is in [a], or [a] stops inside it. *)
Lemma decode_one_app a b c w :
  a ≠ [] → decode_one (a ++ b) = DChar c w →
  (w ≤ length a ∧ decode_one a = DChar c w) ∨ (length a < w ∧ decode_one a = DIncomplete).
Proof.
  intros Ha Hd. destruct a as [|b0 a]; [done|].
  destruct a as [|b1 a]; [|destruct a as [|b2 a]; [|destruct a as [|b3 a]]];
    simpl in *; repeat (case_match; simplify_eq/=); simpl; auto with lia.
Qed.

Lemma decode_all_fuel n m bytes :
  length bytes ≤ n → length bytes ≤ m → decode_all n bytes = decode_all m bytes.
Proof.
  revert m bytes. induction n as [|n IH]; intros m bytes Hn Hm.
  { destruct bytes; [by destruct m|simpl in *; lia]. }
  destruct m as [|m]; [destruct bytes; [done|simpl in *; lia]|].
  destruct bytes as [|b0 bytes]; [done|]. cbn [decode_all].
  destruct (decode_one (b0 :: bytes)) as [c w| |] eqn:E; [|done..].
  apply decode_one_width in E. rewrite (IH m); [done|rewrite length_drop; simpl in *; lia..].
Qed.

Lemma decode_all_rest n bytes :
  length bytes ≤ n →
  let '(text, rest, status) := decode_all n bytes in
  length rest ≤ length bytes ∧ drop (length bytes - length rest) bytes = rest
  ∧ (status = Valid → rest = []) ∧ (rest = bytes → text = []).
Proof.
  revert bytes. induction n as [|n IH]; intros bytes Hn.
  { destruct bytes; [done|simpl in *; lia]. }
  destruct bytes as [|b0 bytes]; [done|]. cbn [decode_all].
  destruct (decode_one (b0 :: bytes)) as [c w| |] eqn:E; [|rewrite Nat.sub_diag; done..].
  apply decode_one_width in E. specialize (IH (drop w (b0 :: bytes))).
  destruct (decode_all n (drop w (b0 :: bytes))) as [[text rest] status].
  destruct IH as (H1 & H2 & H3 & H4); [rewrite length_drop; simpl in *; lia|].
  rewrite length_drop in *. split_and!; [lia| |done|].
  - rewrite <- H2 at 2. rewrite drop_drop. f_equal. lia.
  - intros ->. lia.
Qed.

Lemma decode_all_cons n b0 bytes :
  decode_all (S n) (b0 :: bytes) =
  match decode_one (b0 :: bytes) with
  | DChar c width =>
      let '(text, rest, status) := decode_all n (drop width (b0 :: bytes)) in (c :: text, rest, status)
  | DInvalid k => ([], b0 :: bytes, Invalid k)
  | DIncomplete => ([], b0 :: bytes, Incomplete)
  end.
Proof. done. Qed.

(** Decoding a valid [a ++ b] by way of [a]: never invalid, and the part of the
    text that is missing is decoded from the kept bytes and [b]. *)
Lemma decode_all_app n a b text :
  length (a ++ b) ≤ n → decode_all n (a ++ b) = (text, [], Valid) →
  ∃ text1 text2 rest status, decode_all n a = (text1, rest, status)
    ∧ (status = Valid ∧ rest = [] ∨ status = Incomplete)
    ∧ decode_all n (rest ++ b) = (text2, [], Valid) ∧ text = text1 ++ text2.
Proof.
  revert a text. induction n as [|n IH]; intros a text Hn Hd.
  { destruct a; [|simpl in *; lia]. destruct b; [|simpl in *; lia]. simplify_eq/=. exists [], [], [], Valid. split_and!; auto. }
  destruct a as [|a0 a]; [exists [], text, [], Valid; split_and!; auto|].
  pose proof Hd as Hd0. rewrite <- app_comm_cons, decode_all_cons in Hd. rewrite decode_all_cons.
  rewrite app_comm_cons in Hd.
  destruct (decode_one ((a0 :: a) ++ b)) as [c w| |] eqn:E; [|done..].
  destruct (decode_one_app (a0 :: a) b c w ltac:(done) E) as [[Hw Ea]|[Hw Ea]]; rewrite Ea.
  - rewrite drop_app_le in Hd by done.
    destruct (decode_all n (drop w (a0 :: a) ++ b)) as [[text' rest'] st'] eqn:Ed. simplify_eq.
    pose proof (decode_one_width _ _ _ Ea).
    assert (Hlen : length (drop w (a0 :: a) ++ b) ≤ n).
    { rewrite !length_app, length_drop in *. simpl in *. lia. }
    destruct (IH _ _ Hlen Ed) as (t1 & t2 & rest & st & H1 & H2 & H3 & ->).
    exists (c :: t1), t2, rest, st. rewrite H1. split_and!; [done..| |done].
    rewrite (decode_all_fuel (S n) n); [done| |].
    all: pose proof (decode_all_rest n (drop w (a0 :: a))) as Hr; rewrite H1 in Hr;
      destruct Hr as (Hr & _); [rewrite length_app in Hlen; lia|]; rewrite !length_app in *; lia.
  - exists [], text, (a0 :: a), Incomplete. split_and!; [done|by right| |done].
    exact Hd0.
Qed.

(** * Over a lawful parser *)

Section Lawful.
Context {S T : Type} `{StreamLaws S T}.
Implicit Types (p : Utf8StreamParser (S := S)).

(** A chunk that decodes, possibly up to an incomplete character. *)
Lemma push_bytes_decoded c p t rest status :
  stream_inv (utf8_inner p) →
  from_utf8 (pending_utf8 p ++ c) = (t, rest, status) →
  (status = Valid ∧ rest = [] ∨ status = Incomplete) →
  push_bytes c p = (mkUtf8 (fst (push_str t (utf8_inner p))) rest, Ok (snd (push_str t (utf8_inner p)))).
Proof.
  intros Hi Hd Hst. unfold push_bytes. rewrite Hd.
  destruct Hst as [[-> ->]| ->]; [by destruct (push_str t (utf8_inner p))|].
  pose proof (decode_all_rest (length (pending_utf8 p ++ c)) (pending_utf8 p ++ c) (le_n _)) as Hr.
  unfold from_utf8 in Hd. rewrite Hd in Hr. destruct Hr as (Hl & Hdr & _ & Ht).
  destruct (length (pending_utf8 p ++ c) - length rest =? 0) eqn:E; bool_facts.
  - rewrite E, drop_0 in Hdr. subst rest. rewrite (Ht eq_refl), push_nil by done. done.
  - rewrite Hdr. by destruct (push_str t (utf8_inner p)).
Qed.

Lemma utf8_finish_decoded p t rest :
  stream_inv (utf8_inner p) → from_utf8 (pending_utf8 p) = (t, rest, Valid) →
  snd (utf8_finish p) =
  Ok (chunk_append (snd (push_str t (utf8_inner p))) (snd (stream_finish (fst (push_str t (utf8_inner p)))))).
Proof.
  intros Hi Hd. unfold utf8_finish. rewrite Hd. case_bool_decide as Hp.
  - rewrite Hp in Hd. injection Hd as <- <-. rewrite push_nil by done. simpl. by destruct (stream_finish _).
  - destruct (push_str t (utf8_inner p)) as [i o]. simpl. by destruct (stream_finish i).
Qed.

Lemma from_utf8_app a b text :
  from_utf8 (a ++ b) = (text, [], Valid) →
  ∃ text1 text2 rest status, from_utf8 a = (text1, rest, status)
    ∧ (status = Valid ∧ rest = [] ∨ status = Incomplete)
    ∧ from_utf8 (rest ++ b) = (text2, [], Valid) ∧ text = text1 ++ text2.
Proof.
  unfold from_utf8. intros Hd.
  destruct (decode_all_app (length (a ++ b)) a b text (le_n _) Hd) as (t1 & t2 & rest & st & H1 & H2 & H3 & H4).
  rewrite (decode_all_fuel _ (length a)) in H1 by (rewrite ?length_app; lia).
  exists t1, t2, rest, st. split_and!; [done..| |done].
  pose proof (decode_all_rest (length a) a (le_n _)) as Hr. rewrite H1 in Hr. destruct Hr as (Hr & _).
  rewrite <- H3. apply decode_all_fuel; rewrite !length_app; lia.
Qed.

Lemma collect_bytes_valid chunks p text :
  stream_inv (utf8_inner p) → from_utf8 (pending_utf8 p ++ mjoin chunks) = (text, [], Valid) →
  ∃ o, collect_bytes chunks p = Ok o ∧ same_chunk o (collect [text] (utf8_inner p)).
Proof.
  revert p text. induction chunks as [|c chunks IH]; intros p text Hi Hd.
  - rewrite app_nil_r in Hd. unfold collect_bytes. simpl.
    pose proof (utf8_finish_decoded p text [] Hi Hd) as Hf. destruct (utf8_finish p) as [p' r]. simpl in Hf.
    subst r. eexists. split; [done|]. unfold collect. simpl.
    destruct (push_str text (utf8_inner p)) as [i o]. simpl. by rewrite chunk_append_empty.
  - simpl in Hd. rewrite (assoc_L (++)) in Hd.
    destruct (from_utf8_app _ _ _ Hd) as (t1 & t2 & rest & st & H1 & H2 & H3 & ->).
    pose proof (push_bytes_decoded c p t1 rest st Hi H1 H2) as Hp.
    pose proof (inv_push t1 (utf8_inner p) Hi) as Hi1.
    destruct (push_app t1 t2 (utf8_inner p) Hi) as [Hf Hs].
    destruct (IH (mkUtf8 (fst (push_str t1 (utf8_inner p))) rest) t2 Hi1 H3) as (o & Ho & Hso).
    unfold collect_bytes in *. cbn [push_bytes_all]. rewrite Hp.
    destruct (push_bytes_all chunks _) as [p2 [o2|e]]; [|done].
    destruct (utf8_finish p2) as [p3 [tail|e]]; [|done]. injection Ho as <-.
    eexists. split; [done|]. rewrite chunk_append_assoc, Hso. unfold collect. simpl in *.
    destruct (push_str t1 (utf8_inner p)) as [i1 o1]. simpl in *.
    destruct (push_str t2 i1) as [i2 o2']. destruct (push_str (t1 ++ t2) (utf8_inner p)) as [i3 o3].
    simpl in *. subst i3. by rewrite Hs, !chunk_append_empty, chunk_append_assoc.
Qed.
End Lawful.

(** * Results *)

(** whatever way a valid UTF-8 stream is cut into byte chunks, even inside a
    character, every chunk is accepted and the wrapped parser produces what it
    produces for the decoded text pushed at once. *)
Theorem utf8_chunking_irrelevant {S T} `{StreamLaws S T} (chunks : list (list N)) (inner : S) text :
  stream_inv inner → from_utf8 (mjoin chunks) = (text, [], Valid) →
  ∃ o, collect_bytes chunks (utf8_new inner) = Ok o ∧ same_chunk o (collect [text] inner).
Proof. intros Hi Hd. by apply collect_bytes_valid. Qed.

Lemma utf8_chunking_irrelevant_witness :
  ∃ o, collect_bytes [[99; 97; 102; 195]; [169; 60]]%N (utf8_new citation_new) = Ok o
       ∧ o = collect [[99; 97; 102; 233; 60]%N] citation_new.
Proof.
  apply (@utf8_chunking_irrelevant _ _ _ citation_laws
           [[99; 97; 102; 195]; [169; 60]]%N citation_new [99; 97; 102; 233; 60]%N).
  - exact (assistant_new_inv false).
  - vm_compute. reflexivity.
Defined.

(** a chunk that is not valid UTF-8 is rolled back whole: the wrapped parser
    has not seen any of it and the bytes kept from earlier chunks are still
    there. *)
Theorem utf8_invalid_rolls_back {S T} `{StreamTextParser S T} (chunk : list N) (p p' : Utf8StreamParser) e :
  push_bytes chunk p = (p', Err e) → p' = p ∧ e ≠ IncompleteUtf8AtEof.
Proof.
  unfold push_bytes. destruct (from_utf8 (pending_utf8 p ++ chunk)) as [[t rest] [|k|]].
  - destruct (push_str t (utf8_inner p)). done.
  - intros [= <- <-]. split; [|done]. rewrite take_app_length. by destruct p.
  - case_match; [done|]. destruct (push_str t (utf8_inner p)). done.
Qed.

Lemma utf8_invalid_rolls_back_witness :
  let p := mkUtf8 citation_new [195]%N in
  p = p ∧ InvalidUtf8 0 1 ≠ IncompleteUtf8AtEof.
Proof.
  apply (utf8_invalid_rolls_back [255]%N (mkUtf8 citation_new [195]%N) (mkUtf8 citation_new [195]%N)).
  vm_compute. reflexivity.
Defined.
