(* ===== verification/HeadTailBuffer.v ===== *)
(** core/src/unified_exec/head_tail_buffer.rs: a capped buffer that keeps the
    beginning and the end of an output stream.

    Specification: a buffer that represents a stream holds its first
    [HEAD_BUDGET] bytes, the last [TAIL_BUDGET] bytes of the rest, and the
    number of bytes in between.  Every operation is shown to refine the
    operation on streams, appending; counters saturate at [usize::MAX]. *)
From S2P Require Import Prelude Str.
From stdpp Require Import pretty.

Section HeadTail.
Context (MAX_BYTES : nat).

Definition HEAD_BUDGET : nat := MAX_BYTES / 2.
Definition TAIL_BUDGET : nat := MAX_BYTES - HEAD_BUDGET.

Record HeadTailBuffer := mkBuffer { buf_head : list N; buf_tail : list N; omitted_bytes : N }.

Definition buffer_default : HeadTailBuffer := mkBuffer [] [] 0%N.

Definition retained_bytes (b : HeadTailBuffer) : N :=
  sat_add (N.of_nat (length (buf_head b))) (N.of_nat (length (buf_tail b))).

Definition total_bytes (b : HeadTailBuffer) : N := sat_add (retained_bytes b) (omitted_bytes b).

(** [fill_head]: the new buffer and the bytes that did not fit. *)
Definition fill_head (chunk : list N) (b : HeadTailBuffer) : HeadTailBuffer * list N :=
  let remaining_head := HEAD_BUDGET - length (buf_head b) in
  let '(chunk_head, chunk_tail) :=
    if remaining_head <=? length chunk then (take remaining_head chunk, drop remaining_head chunk)
    else (chunk, []) in
  (mkBuffer (buf_head b ++ chunk_head) (buf_tail b) (omitted_bytes b), chunk_tail).

Definition push_tail (chunk : list N) (b : HeadTailBuffer) : HeadTailBuffer :=
  let remaining_tail := TAIL_BUDGET - length (buf_tail b) in
  let excess_tail := length chunk - remaining_tail in
  let omitted := sat_add (omitted_bytes b) (N.of_nat excess_tail) in
  if excess_tail <? length (buf_tail b) then
    mkBuffer (buf_head b) (drop excess_tail (buf_tail b) ++ chunk) omitted
  else
    let skip := excess_tail - length (buf_tail b) in
    mkBuffer (buf_head b) (drop skip chunk) omitted.

Definition push_chunk (chunk : list N) (b : HeadTailBuffer) : HeadTailBuffer :=
  let '(b, chunk) := fill_head chunk b in push_tail chunk b.

Definition to_bytes (b : HeadTailBuffer) : list N := buf_head b ++ buf_tail b.

(** [push_buffer]: [slices] is where [VecDeque::as_slices] splits the tail. *)
Definition push_buffer (slices : nat) (buffer b : HeadTailBuffer) : HeadTailBuffer :=
  let tail := buf_tail buffer in
  let b := mkBuffer (buf_head b) (buf_tail b) (sat_add (omitted_bytes b) (omitted_bytes buffer)) in
  let '(b, overflow) :=
    match buf_head b with
    | [] => (mkBuffer (buf_head buffer) (buf_tail b) (omitted_bytes b), [])
    | _ => fill_head (buf_head buffer) b
    end in
  if length tail =? TAIL_BUDGET then
    mkBuffer (buf_head b) tail
      (sat_add (sat_add (omitted_bytes b) (N.of_nat (length (buf_tail b)))) (N.of_nat (length overflow)))
  else
    let b := push_tail overflow b in
    match buf_tail b with
    | [] => mkBuffer (buf_head b) tail (omitted_bytes b)
    | _ => push_tail (drop slices tail) (push_tail (take slices tail) b)
    end.

Definition format_output_omission_marker (omitted : N) : str :=
  lit "... " ++ lit (pretty omitted) ++ lit " bytes omitted ...".

Definition to_bytes_with_omission_marker (b : HeadTailBuffer) : list N :=
  if N.eqb (omitted_bytes b) 0 then to_bytes b
  else buf_head b ++ [LF] ++ format_output_omission_marker (omitted_bytes b) ++ [LF] ++ buf_tail b.

(** * Specification *)

Definition lastn {A} (n : nat) (l : list A) : list A := drop (length l - n) l.

Definition represents (b : HeadTailBuffer) (stream : list N) : Prop :=
  buf_head b = take HEAD_BUDGET stream
  ∧ buf_tail b = lastn TAIL_BUDGET (drop HEAD_BUDGET stream)
  ∧ omitted_bytes b = N.min (N.of_nat (length stream - MAX_BYTES)) usize_max.

(** * Lemmas *)

Lemma budgets : HEAD_BUDGET + TAIL_BUDGET = MAX_BYTES ∧ HEAD_BUDGET ≤ TAIL_BUDGET.
Proof.
  unfold TAIL_BUDGET, HEAD_BUDGET. pose proof (Nat.Div0.mul_div_le MAX_BYTES 2). lia.
Qed.

Lemma length_lastn {A} n (l : list A) : length (lastn n l) = n `min` length l.
Proof. unfold lastn. rewrite length_drop. lia. Qed.

Lemma lastn_all {A} n (l : list A) : length l ≤ n → lastn n l = l.
Proof. intros H. unfold lastn. replace (length l - n) with 0 by lia. done. Qed.

Lemma lastn_app_r {A} n (l k : list A) : n ≤ length k → lastn n (l ++ k) = lastn n k.
Proof.
  intros H. unfold lastn. rewrite length_app, drop_app_ge by lia. f_equal. lia.
Qed.

Lemma lastn_drop {A} n j (l : list A) : j + n ≤ length l → lastn n (drop j l) = lastn n l.
Proof. intros H. unfold lastn. rewrite length_drop, drop_drop. f_equal. lia. Qed.

(** Keeping the last [n] of a stream needs only the last [n] of its beginning. *)
Lemma lastn_lastn_app {A} n (l k : list A) : lastn n (lastn n l ++ k) = lastn n (l ++ k).
Proof.
  unfold lastn at 1 3. rewrite !length_app, length_lastn. unfold lastn.
  destruct (decide (length k ≤ n)).
  - rewrite !drop_app_le by (rewrite ?length_drop; lia). rewrite drop_drop. do 2 f_equal. lia.
  - rewrite !drop_app_ge by (rewrite ?length_drop; lia). rewrite length_drop. f_equal. lia.
Qed.

Lemma push_tail_spec chunk b :
  length (buf_tail b) ≤ TAIL_BUDGET →
  push_tail chunk b =
  mkBuffer (buf_head b) (lastn TAIL_BUDGET (buf_tail b ++ chunk))
    (sat_add (omitted_bytes b) (N.of_nat (length (buf_tail b ++ chunk) - TAIL_BUDGET))).
Proof.
  intros Hl. unfold push_tail, lastn. rewrite length_app.
  replace (length chunk - (TAIL_BUDGET - length (buf_tail b)))
    with (length (buf_tail b) + length chunk - TAIL_BUDGET) by lia.
  set (e := length (buf_tail b) + length chunk - TAIL_BUDGET).
  destruct (e <? length (buf_tail b)) eqn:E; bool_facts.
  - by rewrite drop_app_le by lia.
  - by rewrite drop_app_ge by lia.
Qed.

Lemma fill_head_spec chunk b :
  length (buf_head b) ≤ HEAD_BUDGET →
  fill_head chunk b =
  (mkBuffer (buf_head b ++ take (HEAD_BUDGET - length (buf_head b)) chunk) (buf_tail b) (omitted_bytes b),
   drop (HEAD_BUDGET - length (buf_head b)) chunk).
Proof.
  intros Hl. unfold fill_head. destruct (_ <=? length chunk) eqn:E; [done|]. bool_facts.
  rewrite take_ge, drop_ge by lia. done.
Qed.

Lemma sat_add_min a b : sat_add (N.min a usize_max) b = N.min (a + b) usize_max.
Proof. unfold sat_add. generalize usize_max. lia. Qed.

Lemma sat_add_min_min a b :
  sat_add (N.min a usize_max) (N.min b usize_max) = N.min (a + b) usize_max.
Proof. unfold sat_add. generalize usize_max. lia. Qed.

Lemma represents_lengths b s :
  represents b s → length (buf_head b) ≤ HEAD_BUDGET ∧ length (buf_tail b) ≤ TAIL_BUDGET.
Proof. intros (-> & -> & _). rewrite length_take, length_lastn. lia. Qed.

Lemma represents_default : represents buffer_default [].
Proof. split_and!; simpl; [by rewrite take_nil|by rewrite drop_nil|done]. Qed.

Lemma push_chunk_represents b s chunk : represents b s → represents (push_chunk chunk b) (s ++ chunk).
Proof.
  intros Hr. destruct (represents_lengths b s Hr) as [Hh Ht]. destruct Hr as (H1 & H2 & H3).
  pose proof budgets as Hb. unfold push_chunk. rewrite fill_head_spec, push_tail_spec by done. simpl.
  rewrite H1, H2, H3, length_take in *. split_and!; simpl.
  - rewrite take_app. f_equal. f_equal. lia.
  - rewrite lastn_lastn_app. f_equal. rewrite drop_app. f_equal. f_equal. lia.
  - rewrite sat_add_min. f_equal. rewrite length_app, length_lastn, !length_drop, length_app. lia.
Qed.

(** A piece of stream that belongs behind the head. *)
Lemma push_tail_represents b s chunk :
  represents b s → HEAD_BUDGET ≤ length s → represents (push_tail chunk b) (s ++ chunk).
Proof.
  intros Hr Hs. pose proof (push_chunk_represents b s chunk Hr) as Hp.
  destruct (represents_lengths b s Hr) as [Hh _]. unfold push_chunk in Hp.
  rewrite fill_head_spec in Hp by done.
  assert (Hlen : HEAD_BUDGET - length (buf_head b) = 0).
  { destruct Hr as (-> & _). rewrite length_take. lia. }
  rewrite Hlen, take_0, drop_0, app_nil_r in Hp. by destruct b.
Qed.

(** Replacing the tail by a full one. *)
Lemma full_tail_represents b s t (overflow : list N) :
  represents b s → HEAD_BUDGET + TAIL_BUDGET ≤ length t →
  length overflow = length (drop HEAD_BUDGET (s ++ take HEAD_BUDGET t)) - length (drop HEAD_BUDGET s) →
  represents
    (mkBuffer (take HEAD_BUDGET (s ++ take HEAD_BUDGET t)) (lastn TAIL_BUDGET (drop HEAD_BUDGET t))
       (sat_add (sat_add (sat_add (omitted_bytes b) (N.min (N.of_nat (length t - MAX_BYTES)) usize_max))
                   (N.of_nat (length (buf_tail b)))) (N.of_nat (length overflow))))
    (s ++ t).
Proof.
  intros (H1 & H2 & H3) Hlen Ho. pose proof budgets as Hb. split_and!; simpl.
  - rewrite !take_app, take_take. f_equal. f_equal. lia.
  - rewrite !lastn_drop by (rewrite ?length_app; lia). symmetry. apply lastn_app_r. lia.
  - rewrite H2, H3, sat_add_min_min, !sat_add_min. f_equal.
    rewrite length_lastn, Ho, !length_drop, !length_app, length_take. lia.
Qed.

Lemma push_buffer_represents slices a s b t :
  represents a s → represents b t → represents (push_buffer slices b a) (s ++ t).
Proof.
  intros Ha Hb. pose proof budgets as Hbud. unfold push_buffer.
  set (a1 := mkBuffer (buf_head a) (buf_tail a) (sat_add (omitted_bytes a) (omitted_bytes b))).
  destruct (represents_lengths a s Ha) as [Hha Hta].
  assert (Hfill : ∃ a2 overflow,
    match buf_head a1 with
    | [] => (mkBuffer (buf_head b) (buf_tail a1) (omitted_bytes a1), [])
    | _ => fill_head (buf_head b) a1
    end = (a2, overflow)
    ∧ buf_head a2 = take HEAD_BUDGET (s ++ take HEAD_BUDGET t) ∧ buf_tail a2 = buf_tail a
    ∧ omitted_bytes a2 = sat_add (omitted_bytes a) (omitted_bytes b)
    ∧ overflow = drop (HEAD_BUDGET - length s) (take HEAD_BUDGET t)).
  { pose proof Ha as (Hah & _). pose proof Hb as (Hbh & _). unfold a1 at 1. cbn [buf_head].
    destruct (buf_head a) as [|x l] eqn:E.
    - do 2 eexists. split; [done|]. simpl. rewrite Hbh.
      assert (Hs : s = [] ∨ HEAD_BUDGET = 0).
      { destruct s; [by left|]. destruct HEAD_BUDGET; [by right|done]. }
      destruct Hs as [->|Hz]; [|rewrite Hz, !take_0; done].
      simpl. rewrite take_take, Nat.min_id, drop_ge; [done|]. rewrite length_take. lia.
    - rewrite fill_head_spec by exact Hha.
      do 2 eexists. split; [done|]. unfold a1. simpl buf_head. rewrite Hbh.
      assert (Hl : length (x :: l) = HEAD_BUDGET `min` length s) by (rewrite Hah; apply length_take).
      simpl in Hl. split_and!; [|done|done|].
      + rewrite take_app, <- Hah. simpl. do 2 f_equal. f_equal. lia.
      + simpl. f_equal. lia. }
  destruct Hfill as (a2 & overflow & -> & Hh2 & Ht2 & Ho2 & Hov).
  pose proof Hb as (Hb1 & Hb2 & Hb3).
  assert (Htl : length (buf_tail b) = TAIL_BUDGET `min` (length t - HEAD_BUDGET)).
  { by rewrite Hb2, length_lastn, length_drop. }
  destruct (length (buf_tail b) =? TAIL_BUDGET) eqn:Efull; bool_facts.
  { rewrite Hh2, Ht2, Ho2, Hb2, Hb3. apply full_tail_represents; [done|lia|].
    rewrite Hov, !length_drop, length_app, length_take. lia. }
  assert (Hb0 : buf_tail b = drop HEAD_BUDGET t).
  { rewrite Hb2. apply lastn_all. rewrite length_drop. lia. }
  assert (Hom : sat_add (omitted_bytes a) (omitted_bytes b) = omitted_bytes a).
  { destruct Ha as (_ & _ & ->). rewrite Hb3, sat_add_min_min. f_equal. lia. }
  set (s1 := s ++ take HEAD_BUDGET t).
  assert (H3 : represents (push_tail overflow a2) s1).
  { pose proof (push_chunk_represents a s (take HEAD_BUDGET t) Ha) as Hp. unfold push_chunk in Hp.
    rewrite fill_head_spec in Hp by done. fold s1 in Hp, Hh2.
    destruct Ha as (Ha1 & _). rewrite Ha1, length_take in Hp.
    replace (HEAD_BUDGET - HEAD_BUDGET `min` length s) with (HEAD_BUDGET - length s) in Hp by lia.
    rewrite <- Hov in Hp. destruct a2 as [h2 t2 o2]. simpl in Hh2, Ht2, Ho2. subst t2. rewrite Ho2, Hom, Hh2.
    unfold s1. rewrite take_app. replace (HEAD_BUDGET - length s) with (HEAD_BUDGET - length s) by lia.
    exact Hp. }
  assert (Hst : s ++ t = s1 ++ buf_tail b) by (unfold s1; rewrite Hb0, <- (assoc_L (++)), take_drop; done).
  assert (Hlen1 : length s1 = length s + HEAD_BUDGET `min` length t)
    by (unfold s1; rewrite length_app, length_take; done).
  pose proof H3 as (H31 & H32 & H33).
  destruct (buf_tail (push_tail overflow a2)) as [|y ys] eqn:E3.
  - apply (f_equal length) in H32. rewrite length_lastn, length_drop in H32. simpl in H32.
    rewrite Hst. split_and!; simpl; [rewrite H31|..|].
    + rewrite take_app. destruct (decide (length t ≤ HEAD_BUDGET)).
      * assert (buf_tail b = []) as -> by (apply length_zero_iff_nil; lia).
        by rewrite take_nil, app_nil_r.
      * replace (HEAD_BUDGET - length s1) with 0 by lia. by rewrite take_0, app_nil_r.
    + rewrite drop_app, (drop_ge s1) by lia. simpl. destruct (decide (length t ≤ HEAD_BUDGET)).
      * assert (buf_tail b = []) as -> by (apply length_zero_iff_nil; lia). by rewrite drop_nil.
      * replace (HEAD_BUDGET - length s1) with 0 by lia. rewrite drop_0. symmetry. apply lastn_all. lia.
    + rewrite H33, length_app. f_equal. f_equal. lia.
  - apply (f_equal length) in H32. rewrite length_lastn, length_drop in H32. simpl in H32.
    replace (s ++ t) with ((s1 ++ take slices (buf_tail b)) ++ drop slices (buf_tail b))
      by (by rewrite <- (assoc_L (++)), take_drop).
    apply push_tail_represents; [apply push_tail_represents; [done|lia]|]. rewrite length_app. lia.
Qed.
End HeadTail.

(** * Results *)

(** The buffer after a sequence of chunks. *)
Definition push_chunks (max : nat) (chunks : list (list N)) : HeadTailBuffer :=
  foldl (λ b c, push_chunk max c b) buffer_default chunks.

Lemma push_chunks_represents max chunks : represents max (push_chunks max chunks) (mjoin chunks).
Proof.
  unfold push_chunks. induction chunks as [|c chunks IH] using rev_ind; [apply represents_default|].
  rewrite foldl_app, mjoin_app. simpl. rewrite app_nil_r. by apply push_chunk_represents.
Qed.

(** after any sequence of chunks the buffer holds exactly the first half
    budget of the whole output, the last half budget of the rest, and the number
    of bytes between them; it never retains more than its capacity. *)
Theorem buffer_keeps_ends max chunks :
  let stream := mjoin chunks in
  let b := push_chunks max chunks in
  buf_head b = take (HEAD_BUDGET max) stream
  ∧ buf_tail b = lastn (TAIL_BUDGET max) (drop (HEAD_BUDGET max) stream)
  ∧ omitted_bytes b = N.min (N.of_nat (length stream - max)) usize_max
  ∧ length (to_bytes b) ≤ max.
Proof.
  cbv zeta. pose proof (push_chunks_represents max chunks) as Hr.
  destruct (represents_lengths max _ _ Hr). destruct Hr as (H1 & H2 & H3). split_and!; [done..|].
  unfold to_bytes. rewrite length_app. pose proof (budgets max). lia.
Qed.

(** output that fits the capacity is kept whole and shown without a marker. *)
Theorem buffer_small_output max chunks :
  length (mjoin chunks) ≤ max →
  to_bytes_with_omission_marker (push_chunks max chunks) = mjoin chunks.
Proof.
  intros Hl. pose proof (push_chunks_represents max chunks) as (H1 & H2 & H3). pose proof (budgets max).
  unfold to_bytes_with_omission_marker, to_bytes. rewrite H3.
  replace (length (mjoin chunks) - max) with 0 by lia. simpl. rewrite H1, H2.
  rewrite lastn_all by (rewrite length_drop; lia). by rewrite take_drop.
Qed.

Lemma buffer_small_output_witness :
  to_bytes_with_omission_marker (push_chunks 8 [[1; 2; 3]; [4; 5]]%N) = [1; 2; 3; 4; 5]%N.
Proof. apply (buffer_small_output 8 [[1; 2; 3]; [4; 5]]%N). vm_compute. lia. Defined.

(** appending a later buffer gives the buffer of the concatenated output, with
    the right omission count, however the source's tail is laid out in memory. *)
Theorem push_buffer_concatenates max slices chunks1 chunks2 :
  represents max (push_buffer max slices (push_chunks max chunks2) (push_chunks max chunks1))
    (mjoin (chunks1 ++ chunks2)).
Proof. rewrite mjoin_app. apply push_buffer_represents; apply push_chunks_represents. Qed.
