(* ===== verification/Truncate.v ===== *)
(** utils/string/src/truncate.rs and utils/output-truncation/src/lib.rs:
    shortening text to byte and token budgets.

    Budgets and lengths are bytes ([blen]), at the width of [usize]; a slice at a
    character boundary is [take_bytes] / [drop_bytes].  Parameters of the last
    section: the JSON serializer of serde_json and the audio cost estimate. *)
From S2P Require Import Prelude Str.
From stdpp Require Import pretty.

Local Open Scope N_scope.

(** * Slices at character boundaries *)

(** [&s[..s.floor_char_boundary(i)]]: the longest prefix of at most [i] bytes. *)
Fixpoint take_bytes (i : N) (s : str) : str :=
  match s with
  | [] => []
  | c :: s => if len_utf8 c <=? i then c :: take_bytes (i - len_utf8 c) s else []
  end.

(** [&s[s.ceil_char_boundary(i)..]]: what starts at the first boundary from [i] on. *)
Fixpoint drop_bytes (i : N) (s : str) : str :=
  match s with
  | [] => []
  | c :: s' => if i =? 0 then s else drop_bytes (i - len_utf8 c) s'
  end.

(** * utils/string/src/truncate.rs *)

Definition APPROX_BYTES_PER_TOKEN : N := 4.

Definition approx_token_count (text : str) : N :=
  sat_add (blen text) (sat_sub APPROX_BYTES_PER_TOKEN 1) / APPROX_BYTES_PER_TOKEN.

Definition approx_bytes_for_tokens (tokens : N) : N := sat_mul tokens APPROX_BYTES_PER_TOKEN.

Definition approx_tokens_from_byte_count (bytes : N) : N :=
  sat_add bytes (sat_sub APPROX_BYTES_PER_TOKEN 1) / APPROX_BYTES_PER_TOKEN.

Definition split_budget (budget : N) : N * N := let left := budget / 2 in (left, budget - left).

(** The state of the loop over [char_indices] in [split_string]. *)
Record split_state := mkSplit {
  prefix_end : N; suffix_start : N; removed_chars : N; suffix_started : bool }.

Fixpoint split_loop (s : str) (idx beginning_bytes tail_start_target : N) (st : split_state) : split_state :=
  match s with
  | [] => st
  | ch :: s =>
      let char_end := idx + len_utf8 ch in
      let st :=
        if char_end <=? beginning_bytes
        then mkSplit char_end (suffix_start st) (removed_chars st) (suffix_started st)
        else if tail_start_target <=? idx then
          if suffix_started st then st else mkSplit (prefix_end st) idx (removed_chars st) true
        else mkSplit (prefix_end st) (suffix_start st) (sat_add (removed_chars st) 1) (suffix_started st) in
      split_loop s char_end beginning_bytes tail_start_target st
  end.

Definition split_string (s : str) (beginning_bytes end_bytes : N) : N * str * str :=
  if bool_decide (s = []) then (0, [], [])
  else
    let len := blen s in
    let st := split_loop s 0 beginning_bytes (sat_sub len end_bytes) (mkSplit 0 len 0 false) in
    let start := if suffix_start st <? prefix_end st then prefix_end st else suffix_start st in
    (removed_chars st, take_bytes (prefix_end st) s, drop_bytes start s).

Definition ELLIPSIS : N := 8230.

Definition format_truncation_marker (use_tokens : bool) (removed_count : N) : str :=
  [ELLIPSIS] ++ lit (pretty removed_count)
  ++ (if use_tokens then lit " tokens truncated" else lit " chars truncated") ++ [ELLIPSIS].

Definition removed_units (use_tokens : bool) (removed_bytes removed : N) : N :=
  if use_tokens then approx_tokens_from_byte_count removed_bytes else N.min removed u64_max.

Definition assemble_truncated_output (prefix suffix marker : str) : str := prefix ++ marker ++ suffix.

Definition truncate_with_byte_estimate (s : str) (max_bytes : N) (use_tokens : bool) : str :=
  if bool_decide (s = []) then []
  else if max_bytes =? 0 then
    let total_chars := if use_tokens then 0 else N.of_nat (length s) in
    format_truncation_marker use_tokens (removed_units use_tokens (blen s) total_chars)
  else if blen s <=? max_bytes then s
  else
    let total_bytes := blen s in
    let '(left_budget, right_budget) := split_budget max_bytes in
    let '(removed, before, after) :=
      if use_tokens then (0, take_bytes left_budget s, drop_bytes (total_bytes - right_budget) s)
      else split_string s left_budget right_budget in
    let marker :=
      format_truncation_marker use_tokens
        (removed_units use_tokens (sat_sub total_bytes max_bytes) removed) in
    assemble_truncated_output before after marker.

Definition truncate_middle_chars (s : str) (max_bytes : N) : str :=
  truncate_with_byte_estimate s max_bytes false.

Definition truncate_middle_with_marker (s : str) (max_bytes : N) (marker : str) : str :=
  if blen s <=? max_bytes then s
  else if max_bytes <? blen marker then take_bytes max_bytes s
  else
    let '(left_budget, right_budget) := split_budget (max_bytes - blen marker) in
    assemble_truncated_output (take_bytes left_budget s)
      (drop_bytes (sat_sub (blen s) right_budget) s) marker.

Definition truncate_middle_with_token_budget (s : str) (max_tokens : N) : str * option N :=
  if bool_decide (s = []) then ([], None)
  else if (0 <? max_tokens) && (blen s <=? approx_bytes_for_tokens max_tokens) then (s, None)
  else
    let truncated := truncate_with_byte_estimate s (approx_bytes_for_tokens max_tokens) true in
    let total_tokens := approx_token_count s in
    if truncated =s s then (truncated, None) else (truncated, Some total_tokens).

(** * TruncationPolicy (protocol.rs) *)

Inductive TruncationPolicy := Bytes (n : N) | Tokens (n : N).

Definition token_budget (p : TruncationPolicy) : N :=
  match p with Bytes b => approx_tokens_from_byte_count b | Tokens t => t end.

Definition byte_budget (p : TruncationPolicy) : N :=
  match p with Bytes b => b | Tokens t => approx_bytes_for_tokens t end.

(** * utils/output-truncation/src/lib.rs *)

Definition truncate_text (content : str) (policy : TruncationPolicy) : str :=
  match policy with
  | Bytes bytes => truncate_middle_chars content bytes
  | Tokens tokens => fst (truncate_middle_with_token_budget content tokens)
  end.

Definition formatted_truncate_text (content : str) (policy : TruncationPolicy) : str :=
  if blen content <=? byte_budget policy then content
  else
    lit "Warning: truncated output (original token count: " ++ lit (pretty (approx_token_count content))
    ++ lit ")" ++ [LF] ++ lit "Total output lines: " ++ lit (pretty (N.of_nat (length (lines content))))
    ++ [LF; LF] ++ truncate_text content policy.

Inductive ImageDetail := Auto | Low | High | Original.
Inductive ImageReference := Inline (image_url : str) | File (file_id : str).

Inductive ContentItem :=
| InputText (text : str)
| InputImage (image : ImageReference) (detail : option ImageDetail)
| InputAudio (audio_url : str)
| EncryptedContent (content : str).

Definition item_text (i : ContentItem) : option str := match i with InputText t => Some t | _ => None end.

(** [combined]: the text items joined by line feeds, an empty start skipped. *)
Definition combine_text (combined text : str) : str :=
  if bool_decide (combined = []) then text else combined ++ [LF] ++ text.

Definition formatted_truncate_text_content_items_with_policy (items : list ContentItem)
    (policy : TruncationPolicy) : list ContentItem * option N :=
  let text_segments := omap item_text items in
  match text_segments with
  | [] => (items, None)
  | _ =>
      let combined := foldl combine_text [] text_segments in
      if blen combined <=? byte_budget policy then (items, None)
      else
        (InputText (formatted_truncate_text combined policy)
           :: filter (λ i, item_text i = None) items,
         Some (approx_token_count combined))
  end.

Section Items.
Context (policy : TruncationPolicy) (estimate_audio_token_count : str → N).

Definition text_cost (text : str) : N :=
  match policy with Bytes _ => blen text | Tokens _ => approx_token_count text end.

Definition audio_cost (url : str) : N :=
  match policy with
  | Bytes _ => approx_bytes_for_tokens (estimate_audio_token_count url)
  | Tokens _ => estimate_audio_token_count url
  end.

Definition snippet_policy (remaining : N) : TruncationPolicy :=
  match policy with Bytes _ => Bytes remaining | Tokens _ => Tokens remaining end.

(** [(out, remaining_budget, omitted_text_items, omitted_audio_items)] *)
Record items_state := mkItems {
  out_items : list ContentItem; remaining_budget : N; omitted_text : N; omitted_audio : N }.

Definition item_step (st : items_state) (item : ContentItem) : items_state :=
  match item with
  | InputText text =>
      if bool_decide (text = []) then st
      else if remaining_budget st =? 0
      then mkItems (out_items st) (remaining_budget st) (omitted_text st + 1) (omitted_audio st)
      else if text_cost text <=? remaining_budget st
      then mkItems (out_items st ++ [InputText text]) (sat_sub (remaining_budget st) (text_cost text))
             (omitted_text st) (omitted_audio st)
      else
        let snippet := truncate_text text (snippet_policy (remaining_budget st)) in
        if bool_decide (snippet = [])
        then mkItems (out_items st) 0 (omitted_text st + 1) (omitted_audio st)
        else mkItems (out_items st ++ [InputText snippet]) 0 (omitted_text st) (omitted_audio st)
  | InputImage _ _ | EncryptedContent _ =>
      mkItems (out_items st ++ [item]) (remaining_budget st) (omitted_text st) (omitted_audio st)
  | InputAudio url =>
      if audio_cost url <=? remaining_budget st
      then mkItems (out_items st ++ [item]) (sat_sub (remaining_budget st) (audio_cost url))
             (omitted_text st) (omitted_audio st)
      else mkItems (out_items st) (remaining_budget st) (omitted_text st) (omitted_audio st + 1)
  end.

Definition omitted_note (n : N) (what : string) : list ContentItem :=
  if 0 <? n then [InputText (lit "[omitted " ++ lit (pretty n) ++ lit what ++ lit " items ...]")] else [].

Definition truncate_function_output_items_with_policy (items : list ContentItem) : list ContentItem :=
  let budget := match policy with Bytes _ => byte_budget policy | Tokens _ => token_budget policy end in
  let st := foldl item_step (mkItems [] budget 0 0) items in
  out_items st ++ omitted_note (omitted_text st) " text" ++ omitted_note (omitted_audio st) " audio".

Inductive FunctionCallOutputBody := Text (text : str) | ContentItems (items : list ContentItem).
Record FunctionCallOutputPayload := mkPayload { body : FunctionCallOutputBody; success : option bool }.

Definition truncate_function_output_payload (output : FunctionCallOutputPayload) : FunctionCallOutputPayload :=
  mkPayload
    match body output with
    | Text text => Text (truncate_text text policy)
    | ContentItems items => ContentItems (truncate_function_output_items_with_policy items)
    end
    (success output).
End Items.

Definition i64_max : Z := 9223372036854775807.

Definition approx_tokens_from_byte_count_i64 (bytes : Z) : Z :=
  if (bytes <=? 0)%Z then 0%Z
  else Z.min (Z.of_N (approx_tokens_from_byte_count (Z.to_N bytes))) i64_max.

(** ** truncate_mcp_tool_result *)

Section Mcp.
Context {J : Type}.

Record CallToolResult := mkResult {
  content : list J; structured_content : option J; is_error : option bool; meta : option J }.

Context (to_string : CallToolResult → option str) (text_json : str → J).

Definition mcp_preview (result : CallToolResult) (preview : str) : CallToolResult :=
  mkResult [text_json preview] None (is_error result) None.

(** The [loop]; [None] is running out of fuel. *)
Fixpoint mcp_loop (fuel : nat) (result : CallToolResult) (serialized : str) (max_bytes preview_budget : N)
    : option CallToolResult :=
  match fuel with
  | 0%nat => None
  | S fuel =>
      let preview := if preview_budget =? 0 then [] else truncate_text serialized (Bytes preview_budget) in
      let truncated := mcp_preview result preview in
      match to_string truncated with
      | None => Some result
      | Some truncated_serialized =>
          let truncated_len := blen truncated_serialized in
          if (truncated_len <=? max_bytes) || (preview_budget =? 0) then Some truncated
          else
            mcp_loop fuel result serialized max_bytes
              (N.min (sat_mul preview_budget max_bytes / truncated_len) (sat_sub preview_budget 1))
      end
  end.

Definition truncate_mcp_tool_result (result : CallToolResult) (max_bytes : N) : option CallToolResult :=
  match to_string result with
  | None => Some result
  | Some serialized =>
      if blen serialized <=? max_bytes then Some result
      else mcp_loop (S (N.to_nat max_bytes)) result serialized max_bytes max_bytes
  end.
End Mcp.

(** * Slices *)

Ltac n_facts :=
  repeat match goal with
  | H : (_ <=? _) = true |- _ => apply N.leb_le in H
  | H : (_ <=? _) = false |- _ => apply N.leb_gt in H
  | H : (_ <? _) = true |- _ => apply N.ltb_lt in H
  | H : (_ <? _) = false |- _ => apply N.ltb_ge in H
  | H : (_ =? _) = true |- _ => apply N.eqb_eq in H
  | H : (_ =? _) = false |- _ => apply N.eqb_neq in H
  end.

Lemma take_bytes_prefix i s : take_bytes i s `prefix_of` s.
Proof.
  revert i. induction s as [|c s IH]; intros i; simpl; [done|].
  case_match; [apply prefix_cons, IH | apply prefix_nil].
Qed.

Lemma take_bytes_blen i s : blen (take_bytes i s) <= i.
Proof.
  revert i. induction s as [|c s IH]; intros i; simpl; [lia|].
  case_match; n_facts; simpl; [|lia]. specialize (IH (i - len_utf8 c)). lia.
Qed.

(** [take_bytes i s] is the longest prefix of at most [i] bytes. *)
Lemma take_bytes_longest i p s : p `prefix_of` s → blen p <= i → p `prefix_of` take_bytes i s.
Proof.
  revert i s. induction p as [|c p IH]; intros i s; [intros; apply prefix_nil|].
  intros [t ->] Hp; simpl in *. pose proof (len_utf8_pos c).
  destruct (_ <=? i) eqn:E; n_facts; [|lia].
  apply prefix_cons, IH; [by exists t | lia].
Qed.

Lemma take_bytes_app p t : take_bytes (blen p) (p ++ t) = p.
Proof.
  induction p as [|c p IH]; simpl.
  - destruct t as [|c t]; simpl; [done|]. pose proof (len_utf8_pos c). by case_match; n_facts; [lia|].
  - case_match; n_facts; [|lia]. f_equal.
    by replace (len_utf8 c + blen p - len_utf8 c) with (blen p) by lia.
Qed.

Lemma drop_bytes_0 s : drop_bytes 0 s = s.
Proof. by destruct s. Qed.

Lemma drop_bytes_app p t i : blen p <= i → drop_bytes i (p ++ t) = drop_bytes (i - blen p) t.
Proof.
  revert i. induction p as [|c p IH]; intros i Hi; simpl in *; [by rewrite N.sub_0_r|].
  pose proof (len_utf8_pos c). case_match; n_facts; [lia|].
  rewrite IH by lia. f_equal. lia.
Qed.

Lemma drop_bytes_blen i s : blen (drop_bytes i s) <= blen s - i.
Proof.
  revert i. induction s as [|c s IH]; intros i; simpl; [lia|].
  case_match; n_facts; simpl; [lia|]. specialize (IH (i - len_utf8 c)). lia.
Qed.

Lemma drop_bytes_suffix i s : drop_bytes i s `suffix_of` s.
Proof.
  revert i. induction s as [|c s IH]; intros i; simpl; [done|].
  case_match; [done|]. by apply suffix_cons_r.
Qed.

(** [drop_bytes i s] is the longest suffix that starts at byte [i] or later. *)
Lemma drop_bytes_longest i p t s :
  s = p ++ t → i <= blen p → t `suffix_of` drop_bytes i s.
Proof.
  revert i s. induction p as [|c p IH]; intros i s -> Hi; simpl in *.
  - replace i with 0 by lia. by rewrite drop_bytes_0.
  - case_match; n_facts; [by exists (c :: p)|]. apply IH; [done|lia].
Qed.

(** Cutting a prefix of at most [i] bytes and what starts from byte [j >= i] on
    leaves the middle. *)
Lemma take_drop_middle i j s :
  i <= j → ∃ mid, s = take_bytes i s ++ mid ++ drop_bytes j s.
Proof.
  intros Hij. destruct (take_bytes_prefix i s) as [rest Hs].
  pose proof (take_bytes_blen i s) as Hb. set (p := take_bytes i s) in *.
  assert (drop_bytes j s = drop_bytes (j - blen p) rest) as ->.
  { rewrite Hs. apply drop_bytes_app. lia. }
  destruct (drop_bytes_suffix (j - blen p) rest) as [mid Hr].
  exists mid. congruence.
Qed.

(** * The loop of [split_string] *)

Section SplitLoop.
Context (b t len : N).

(** While characters end within the budget, they extend the prefix. *)
Lemma split_loop_prefix idx s n :
  idx <= b →
  let p := take_bytes (b - idx) s in
  ∃ rest, s = p ++ rest
    ∧ (∀ c, head rest = Some c → b < idx + blen p + len_utf8 c)
    ∧ split_loop s idx b t (mkSplit idx len n false)
      = split_loop rest (idx + blen p) b t (mkSplit (idx + blen p) len n false).
Proof.
  revert idx. induction s as [|c s IH]; intros idx Hidx; simpl.
  - exists []. split_and!; [done|done|]. by rewrite N.add_0_r.
  - destruct (len_utf8 c <=? b - idx) eqn:E; n_facts.
    + destruct (IH (idx + len_utf8 c)) as (rest & Hs & Hc & Hl); [lia|].
      replace (b - (idx + len_utf8 c)) with (b - idx - len_utf8 c) in * by lia.
      exists rest. simpl. rewrite N.add_assoc. split_and!; [congruence|done|].
      destruct (idx + len_utf8 c <=? b) eqn:E'; n_facts; [|lia]. exact Hl.
    + exists (c :: s). simpl. rewrite N.add_0_r. split_and!; [done|intros ? [= <-]; lia|done].
Qed.

(** Once the suffix has started, the rest of the loop changes nothing. *)
Lemma split_loop_suffix idx s pe ss n :
  t <= idx → b < idx →
  split_loop s idx b t (mkSplit pe ss n true) = mkSplit pe ss n true.
Proof.
  revert idx. induction s as [|c s IH]; intros idx Ht Hb; simpl; [done|].
  pose proof (len_utf8_pos c).
  destruct (idx + len_utf8 c <=? b) eqn:E; n_facts; [lia|].
  destruct (t <=? idx) eqn:E'; n_facts; [|lia]. apply IH; lia.
Qed.

(** Between the two, each character is counted as removed. *)
Lemma split_loop_middle idx s pe n :
  b <= t → n + blen s <= usize_max →
  (∀ c, head s = Some c → b < idx + len_utf8 c) →
  ∃ mid, s = mid ++ drop_bytes (t - idx) s
    ∧ split_loop s idx b t (mkSplit pe len n false)
      = mkSplit pe (if bool_decide (drop_bytes (t - idx) s = []) then len else idx + blen mid)
          (n + N.of_nat (length mid)) (negb (bool_decide (drop_bytes (t - idx) s = []))).
Proof.
  revert idx n. induction s as [|c s IH]; intros idx n Hbt Hn Hc; simpl.
  { exists []. split; [done|]. by rewrite N.add_0_r. }
  specialize (Hc c eq_refl). pose proof (len_utf8_pos c). simpl in Hn.
  destruct (idx + len_utf8 c <=? b) eqn:E; n_facts; [lia|].
  destruct (t <=? idx) eqn:E'; n_facts.
  - replace (t - idx) with 0 by lia. exists []. simpl. split; [done|].
    rewrite !N.add_0_r. apply split_loop_suffix; lia.
  - destruct (t - idx =? 0) eqn:E0; n_facts; [lia|].
    assert (sat_add n 1 = n + 1) as -> by (unfold sat_add; apply N.min_l; lia).
    destruct (IH (idx + len_utf8 c) (n + 1)) as (mid & Hs & Hl); [done|lia| |].
    { intros d _. pose proof (len_utf8_pos d). lia. }
    replace (t - (idx + len_utf8 c)) with (t - idx - len_utf8 c) in * by lia.
    exists (c :: mid). split; [simpl; congruence|]. rewrite Hl. simpl.
    f_equal; [case_bool_decide; [done|lia] | lia].
Qed.
End SplitLoop.

(** [split_string] returns the longest prefix of [b] bytes, the longest suffix of
    [e] bytes and the number of characters between them. *)
Lemma split_string_spec s b e :
  s ≠ [] → b + e <= blen s → blen s <= usize_max →
  ∃ mid, s = take_bytes b s ++ mid ++ drop_bytes (blen s - e) s
    ∧ split_string s b e = (N.of_nat (length mid), take_bytes b s, drop_bytes (blen s - e) s).
Proof.
  intros Hne Hbe Hlen. unfold split_string, sat_sub. rewrite bool_decide_eq_false_2 by done.
  destruct (split_loop_prefix b (blen s - e) (blen s) 0 s 0) as (rest & Hs & Hc & ->); [lia|].
  rewrite N.sub_0_r, N.add_0_l in *. set (p := take_bytes b s) in *.
  assert (blen p <= b) as Hp by apply take_bytes_blen.
  pose proof (f_equal blen Hs) as Hl. rewrite blen_app in Hl.
  destruct (split_loop_middle b (blen s - e) (blen s) (blen p) rest (blen p) 0)
    as (mid & Hr & ->); [lia|lia|by intros; apply Hc|].
  assert (drop_bytes (blen s - e) s = drop_bytes (blen s - e - blen p) rest) as Hd.
  { rewrite Hs at 2. apply drop_bytes_app. lia. }
  rewrite <-Hd in *. set (after := drop_bytes (blen s - e) s) in *.
  assert (s = (p ++ mid) ++ after) as Hs' by (rewrite <-(assoc_L (++)); congruence).
  exists mid. split; [by rewrite (assoc_L (++))|]. cbn [removed_chars prefix_end suffix_start].
  assert ((if bool_decide (after = []) then blen s else blen p + blen mid) = blen (p ++ mid)) as ->.
  { rewrite blen_app. case_bool_decide as Ha; [|done].
    rewrite Hs', Ha, app_nil_r, blen_app. done. }
  rewrite blen_app. destruct (_ <? blen p) eqn:E; n_facts; [lia|]. rewrite <-blen_app.
  rewrite N.add_0_l. f_equal; [f_equal|].
  - rewrite Hs at 1. apply take_bytes_app.
  - rewrite Hs' at 1. rewrite drop_bytes_app by lia. by rewrite N.sub_diag, drop_bytes_0.
Qed.

(** * Properties of the truncations *)

Lemma split_budget_sum n : fst (split_budget n) + snd (split_budget n) = n.
Proof. unfold split_budget. simpl. pose proof (N.Div0.div_le_mono n n 2). assert (n / 2 <= n) by (apply N.Div0.div_le_upper_bound; lia). lia. Qed.

(** What a truncation that cuts keeps of [s]: a prefix and a suffix within the
    budget, on character boundaries, around a marker. *)
Definition keeps_ends (s : str) (budget : N) (marker : N → str) (r : str) : Prop :=
  ∃ before mid after,
    s = before ++ mid ++ after
    ∧ r = before ++ marker (N.of_nat (length mid)) ++ after
    ∧ blen before <= budget / 2
    ∧ blen before + blen after <= budget
    ∧ (∀ p, p `prefix_of` s → blen p <= budget / 2 → p `prefix_of` before).

Lemma keeps_ends_cut s budget marker mid :
  budget <= blen s →
  let l := fst (split_budget budget) in let r := snd (split_budget budget) in
  s = take_bytes l s ++ mid ++ drop_bytes (blen s - r) s →
  keeps_ends s budget marker
    (take_bytes l s ++ marker (N.of_nat (length mid)) ++ drop_bytes (blen s - r) s).
Proof.
  intros Hb l r Hs. exists (take_bytes l s), mid, (drop_bytes (blen s - r) s).
  pose proof (split_budget_sum budget) as Hsum. fold l r in Hsum.
  pose proof (take_bytes_blen l s). pose proof (drop_bytes_blen (blen s - r) s).
  split_and!; [done|done|done|lia|]. intros p Hp Hl. by apply take_bytes_longest.
Qed.

(** [truncate_middle_with_marker] honours its hard limit: the result is
    never longer than [max_bytes]; text that fits is returned unchanged; when the
    marker fits the result is the text's two ends around it; when it does not,
    the result is the longest prefix of the text that fits. *)
Theorem truncate_middle_with_marker_fits (s : str) (max_bytes : N) (marker : str) :
  let r := truncate_middle_with_marker s max_bytes marker in
  blen r <= max_bytes
  ∧ (blen s <= max_bytes → r = s)
  ∧ (max_bytes < blen s → blen marker <= max_bytes →
     keeps_ends s (max_bytes - blen marker) (λ _, marker) r)
  ∧ (max_bytes < blen s → max_bytes < blen marker →
     r `prefix_of` s ∧ ∀ p, p `prefix_of` s → blen p <= max_bytes → p `prefix_of` r).
Proof.
  unfold truncate_middle_with_marker, sat_sub, assemble_truncated_output.
  destruct (blen s <=? max_bytes) eqn:E1; n_facts; [split_and!; (done || lia)|].
  destruct (max_bytes <? blen marker) eqn:E2; n_facts; cbv zeta.
  { pose proof (take_bytes_blen max_bytes s). split_and!; [lia|lia|lia|]. intros _ _.
    split; [apply take_bytes_prefix | intros p; apply take_bytes_longest]. }
  set (budget := max_bytes - blen marker).
  pose proof (split_budget_sum budget) as Hsum. destruct (split_budget budget) as [l r] eqn:Eb.
  simpl in Hsum.
  destruct (take_drop_middle l (blen s - r) s) as [mid Hs]; [lia|].
  split_and!; [|lia| |lia].
  - rewrite !blen_app. pose proof (take_bytes_blen l s). pose proof (drop_bytes_blen (blen s - r) s). lia.
  - intros _ _. pose proof (keeps_ends_cut s budget (λ _, marker) mid) as Hk.
    rewrite Eb in Hk. apply Hk; [lia|done].
Qed.

(** The marker [truncate_text] puts between the kept ends: for a byte policy it
    counts the removed characters, for a token policy the approximate tokens
    over budget. *)
Definition policy_marker (policy : TruncationPolicy) (s : str) (removed : N) : str :=
  match policy with
  | Bytes _ => format_truncation_marker false removed
  | Tokens _ => format_truncation_marker true (approx_tokens_from_byte_count (blen s - byte_budget policy))
  end.

Definition policy_tokens (policy : TruncationPolicy) : bool :=
  match policy with Bytes _ => false | Tokens _ => true end.

Lemma truncate_text_cut s policy :
  byte_budget policy < blen s →
  truncate_text s policy = truncate_with_byte_estimate s (byte_budget policy) (policy_tokens policy).
Proof.
  intros Hb. assert (s ≠ []) as Hne by (intros ->; simpl in Hb; lia).
  destruct policy as [n|n]; simpl in *; [done|].
  unfold truncate_middle_with_token_budget. rewrite bool_decide_eq_false_2 by done.
  replace (blen s <=? approx_bytes_for_tokens n) with false by (symmetry; apply N.leb_gt; lia).
  rewrite andb_false_r. by case_bool_decide.
Qed.

Lemma truncate_text_fits s policy : blen s <= byte_budget policy → truncate_text s policy = s.
Proof.
  intros Hb. destruct policy as [n|n]; simpl in *.
  - unfold truncate_middle_chars, truncate_with_byte_estimate. case_bool_decide; [done|].
    destruct (n =? 0) eqn:E; n_facts.
    { subst. assert (s = []) by (apply blen_zero; lia). done. }
    by replace (blen s <=? n) with true by (symmetry; by apply N.leb_le).
  - unfold truncate_middle_with_token_budget. case_bool_decide; [done|].
    destruct (0 <? n) eqn:E; n_facts.
    + by replace (blen s <=? approx_bytes_for_tokens n) with true by (symmetry; by apply N.leb_le).
    + replace n with 0 in Hb by lia. change (approx_bytes_for_tokens 0) with 0 in Hb.
      assert (s = []) by (apply blen_zero; lia). done.
Qed.

(** With no budget at all the whole text is replaced by the marker. *)
Lemma truncate_zero_budget s policy :
  s ≠ [] → blen s <= usize_max → byte_budget policy = 0 →
  truncate_with_byte_estimate s 0 (policy_tokens policy)
  = policy_marker policy s (N.of_nat (length s)).
Proof.
  intros Hne Hs H0. unfold truncate_with_byte_estimate. rewrite bool_decide_eq_false_2 by done.
  pose proof (blen_length s). unfold usize_max in Hs.
  destruct policy as [n|n]; cbn [policy_tokens policy_marker]; unfold removed_units.
  - by rewrite N.eqb_refl, N.min_l by lia.
  - by rewrite N.eqb_refl, H0, N.sub_0_r.
Qed.

(** [truncate_text] leaves text within the policy's byte budget unchanged and
    replaces the middle of a longer text by one marker: what it keeps is a prefix
    (the longest one in half the budget) and a suffix on character boundaries,
    together within the budget; under a byte policy the marker's count is
    exactly the number of characters removed. *)
Theorem truncate_text_keeps_ends (s : str) (policy : TruncationPolicy) (Hs : blen s <= usize_max) :
  (blen s <= byte_budget policy → truncate_text s policy = s)
  ∧ (byte_budget policy < blen s →
     keeps_ends s (byte_budget policy) (policy_marker policy s) (truncate_text s policy)).
Proof.
  split; intros Hb; [by apply truncate_text_fits|].
  rewrite truncate_text_cut by done.
  assert (s ≠ []) as Hne by (intros ->; simpl in Hb; lia).
  pose proof (blen_length s) as Hlen.
  destruct (N.eq_dec (byte_budget policy) 0) as [E|E].
  { rewrite E, truncate_zero_budget by done.
    exists [], s, []. rewrite !app_nil_r. split_and!; [done|done|by vm_compute|by vm_compute|].
    intros p _ Hp. assert (p = []) as -> by (apply blen_zero; change (0 / 2) with 0 in Hp; lia). done. }
  set (m := byte_budget policy) in *.
  unfold truncate_with_byte_estimate. rewrite bool_decide_eq_false_2 by done.
  rewrite (proj2 (N.eqb_neq m 0)) by done. rewrite (proj2 (N.leb_gt (blen s) m)) by done.
  pose proof (split_budget_sum m) as Hsum.
  pose proof (keeps_ends_cut s m (policy_marker policy s)) as Hk.
  destruct (split_budget m) as [l r]. simpl in Hsum, Hk.
  unfold sat_sub, assemble_truncated_output.
  destruct policy as [n|n]; cbn [policy_tokens policy_marker] in *.
  - destruct (split_string_spec s l r) as (mid & Hmid & ->); [done|lia|done|].
    unfold removed_units. rewrite N.min_l; [apply Hk; [lia|done]|].
    apply (f_equal length) in Hmid. rewrite !length_app in Hmid. unfold usize_max in Hs. lia.
  - destruct (take_drop_middle l (blen s - r) s) as [mid Hmid]; [lia|].
    apply (Hk mid); [lia|done].
Qed.

Lemma truncate_text_keeps_ends_witness :
  keeps_ends (lit "0123456789abcdef") 7 (policy_marker (Bytes 7) (lit "0123456789abcdef"))
    (lit "012" ++ [ELLIPSIS] ++ lit "9 chars truncated" ++ [ELLIPSIS] ++ lit "cdef").
Proof.
  change (lit "012" ++ [ELLIPSIS] ++ lit "9 chars truncated" ++ [ELLIPSIS] ++ lit "cdef")
    with (truncate_text (lit "0123456789abcdef") (Bytes 7)).
  refine (proj2 (truncate_text_keeps_ends (lit "0123456789abcdef") (Bytes 7) _) _); by vm_compute.
Defined.

(** * Content items *)

Lemma filter_none {A} (P : A → Prop) `{∀ x, Decision (P x)} (l : list A) :
  Forall (λ x, ¬ P x) l → filter P l = [].
Proof. induction 1; [done|]. by rewrite filter_cons_False. Qed.

Section ItemLaws.
Context (policy : TruncationPolicy) (estimate : str → N).
Local Abbreviation step := (item_step policy estimate).

(** What an item takes from the budget when it is kept as it is. *)
Definition item_cost (item : ContentItem) : N :=
  match item with
  | InputText text => text_cost policy text
  | InputAudio url => audio_cost policy estimate url
  | InputImage _ _ | EncryptedContent _ => 0
  end.

Fixpoint total_cost (items : list ContentItem) : N :=
  match items with [] => 0 | i :: items => item_cost i + total_cost items end.

Definition items_budget : N :=
  match policy with Bytes _ => byte_budget policy | Tokens _ => token_budget policy end.

(** Images and encrypted items: what no budget removes. *)
Definition is_media (item : ContentItem) : Prop :=
  match item with InputImage _ _ | EncryptedContent _ => True | _ => False end.
#[global] Instance is_media_dec item : Decision (is_media item).
Proof. destruct item; simpl; apply _. Defined.

Definition non_empty (item : ContentItem) : Prop := item ≠ InputText [].
#[global] Instance non_empty_dec item : Decision (non_empty item).
Proof. destruct item as [[|c t]| | |]; first [left; discriminate | right; intros H; by apply H]. Defined.

Lemma total_cost_app l1 l2 : total_cost (l1 ++ l2) = total_cost l1 + total_cost l2.
Proof. induction l1 as [|i l1 IH]; simpl; [done|]. rewrite IH. lia. Qed.

Lemma text_cost_pos c text : 0 < text_cost policy (c :: text).
Proof.
  pose proof (len_utf8_pos c). unfold text_cost. destruct policy; simpl; [lia|].
  unfold approx_token_count, sat_add, sat_sub, APPROX_BYTES_PER_TOKEN, usize_max, u64_max.
  apply N.div_str_pos. simpl. lia.
Qed.

(** A text that costs more than the budget is longer than the bytes the budget stands for. *)
Lemma snippet_cut text rem : rem < text_cost policy text → byte_budget (snippet_policy policy rem) < blen text.
Proof.
  unfold text_cost, snippet_policy. destruct policy; cbn [byte_budget]; [done|].
  unfold approx_token_count, approx_bytes_for_tokens, sat_add, sat_sub, sat_mul, APPROX_BYTES_PER_TOKEN. intros Hr.
  assert (rem + 1 <= (blen text + 3) / 4) as Hd.
  { etransitivity; [|apply N.Div0.div_le_mono, (N.le_min_l _ usize_max)]. change (4 - 1) with 3 in Hr. lia. }
  pose proof (N.Div0.mul_div_le (blen text + 3) 4). lia.
Qed.

Lemma snippet_nonempty text rem : rem < text_cost policy text → truncate_text text (snippet_policy policy rem) ≠ [].
Proof.
  intros Hr%snippet_cut. rewrite truncate_text_cut by done. assert (text ≠ []) as Hne by (intros ->; simpl in Hr; lia).
  unfold truncate_with_byte_estimate. rewrite bool_decide_eq_false_2 by done. case_match; [done|]. case_match; [done|].
  destruct (split_budget _) as [l r]. destruct (if policy_tokens _ then _ else _) as [[n before] aft].
  unfold assemble_truncated_output, format_truncation_marker. destruct before; done.
Qed.

(** The texts and the audios among omitted items. *)
Definition count_texts (l : list ContentItem) : N :=
  N.of_nat (length (List.filter (λ i, match i with InputText _ => true | _ => false end) l)).
Definition count_audios (l : list ContentItem) : N :=
  N.of_nat (length (List.filter (λ i, match i with InputAudio _ => true | _ => false end) l)).

(** Where the budget goes: [k1] is paid in full. If a text was cut, it was the first that cost more than
    was left, and got exactly what was left; what came after it costs nothing. *)
Definition spent (budget : N) (k1 : list ContentItem) (cut : option str) (k2 : list ContentItem) (left : N) : Prop :=
  match cut with
  | None => k2 = [] ∧ total_cost k1 + left = budget
  | Some text => total_cost k1 < budget ∧ budget - total_cost k1 < text_cost policy text ∧ total_cost k2 = 0 ∧ left = 0
  end.

(** The cut text, shortened to what was left. *)
Definition shortened (budget : N) (k1 : list ContentItem) (cut : option str) : list ContentItem :=
  option_list ((λ text, InputText (truncate_text text (snippet_policy policy (budget - total_cost k1)))) <$> cut).

(** The loop's invariant after the items [seen]: what is out is some of them, in order and paid from
    the budget, with at most one shortened text among them; what is omitted costs more than is left. *)
Definition items_inv (budget : N) (seen : list ContentItem) (st : items_state) : Prop :=
  filter is_media (out_items st) = filter is_media seen
  ∧ ∃ k1 cut k2 omitted,
      out_items st = k1 ++ shortened budget k1 cut ++ k2
      ∧ k1 ++ option_list (InputText <$> cut) ++ k2 `sublist_of` seen
      ∧ filter non_empty seen ≡ₚ k1 ++ option_list (InputText <$> cut) ++ k2 ++ omitted
      ∧ spent budget k1 cut k2 (remaining_budget st)
      ∧ Forall (λ i, remaining_budget st < item_cost i) omitted
      ∧ omitted_text st = count_texts omitted ∧ omitted_audio st = count_audios omitted.

Lemma items_inv_empty budget seen st : items_inv budget seen st → items_inv budget (seen ++ [InputText []]) st.
Proof.
  intros (Hm & k1 & cut & k2 & om & Ho & Hs & Hp & Hrest). split; [rewrite filter_app; by rewrite app_nil_r|].
  exists k1, cut, k2, om. split_and!; try apply Hrest; [done|by apply sublist_inserts_r|].
  rewrite filter_app, filter_cons_False, filter_nil, app_nil_r by (intros H; by apply H). done.
Qed.

Lemma items_inv_drop budget seen st i nt na :
  ¬ is_media i → non_empty i → remaining_budget st < item_cost i → nt = omitted_text st + count_texts [i] →
  na = omitted_audio st + count_audios [i] → items_inv budget seen st →
  items_inv budget (seen ++ [i]) (mkItems (out_items st) (remaining_budget st) nt na).
Proof.
  intros Hi Hne Hr -> -> (Hm & k1 & cut & k2 & om & Ho & Hs & Hp & Hsp & Hf & Ht & Ha). split.
  - by rewrite filter_app, filter_cons_False, filter_nil, app_nil_r.
  - exists k1, cut, k2, (om ++ [i]). cbn [out_items remaining_budget omitted_text omitted_audio].
    split_and!; [done|by apply sublist_inserts_r| |done| |..].
    + rewrite filter_app, Hp, filter_cons_True, filter_nil by done. by rewrite <- !(assoc_L (++)).
    + apply Forall_app. split; [done|]. by apply Forall_singleton.
    + rewrite Ht. unfold count_texts. rewrite List.filter_app, length_app. lia.
    + rewrite Ha. unfold count_audios. rewrite List.filter_app, length_app. lia.
Qed.

Lemma items_inv_keep budget seen st i :
  non_empty i → item_cost i <= remaining_budget st → items_inv budget seen st →
  items_inv budget (seen ++ [i])
    (mkItems (out_items st ++ [i]) (remaining_budget st - item_cost i) (omitted_text st) (omitted_audio st)).
Proof.
  intros Hne Hi (Hm & k1 & cut & k2 & om & Ho & Hs & Hp & Hsp & Hf & Ht & Ha). split.
  { cbn [out_items]. by rewrite !filter_app, Hm. }
  cbn [out_items remaining_budget omitted_text omitted_audio]. rewrite filter_app, (filter_cons_True _ i), filter_nil by done.
  assert (Forall (λ i', remaining_budget st - item_cost i < item_cost i') om) as Hf'.
  { eapply Forall_impl; [exact Hf|]. simpl. lia. }
  destruct cut as [text|]; cbn in *.
  - destruct Hsp as (H1 & H2 & H3 & H4). exists k1, (Some text), (k2 ++ [i]), om. cbn. rewrite Ho.
    split_and!; try done; [by rewrite <- !(assoc_L (++))| | |rewrite total_cost_app; simpl; lia|lia].
    + rewrite app_comm_cons, (assoc_L (++)). by apply sublist_app.
    + rewrite Hp. rewrite <- !(assoc_L (++)). f_equiv. rewrite <- !app_comm_cons. f_equiv. rewrite <- !(assoc_L (++)). f_equiv. apply Permutation_app_comm.
  - destruct Hsp as [-> Hsp]. exists (k1 ++ [i]), None, [], om. cbn in *. rewrite Ho, !app_nil_r in *.
    split_and!; try done; [by apply sublist_app| |rewrite total_cost_app; simpl; lia].
    rewrite Hp. rewrite <- !(assoc_L (++)). f_equiv. apply Permutation_app_comm.
Qed.

Lemma items_inv_snippet budget seen st text :
  remaining_budget st ≠ 0 → text ≠ [] → remaining_budget st < text_cost policy text → items_inv budget seen st →
  items_inv budget (seen ++ [InputText text])
    (mkItems (out_items st ++ [InputText (truncate_text text (snippet_policy policy (remaining_budget st)))]) 0
       (omitted_text st) (omitted_audio st)).
Proof.
  intros Hr Hne Hc (Hm & k1 & cut & k2 & om & Ho & Hs & Hp & Hsp & Hf & Ht & Ha).
  destruct cut as [t|]; [by destruct Hsp as (_ & _ & _ & ?)|]. destruct Hsp as [-> Hsp]. split.
  { cbn [out_items]. rewrite !filter_app, Hm. by rewrite !filter_cons_False by (simpl; tauto). }
  exists k1, (Some text), [], om. cbn in *. rewrite !app_nil_r in *.
  assert (budget - total_cost k1 = remaining_budget st) as -> by lia.
  split_and!; try done; [by rewrite Ho|by apply sublist_app| |lia|].
  - rewrite filter_app, Hp, filter_cons_True, filter_nil by (intros [=]; done). rewrite <- (assoc_L (++)). f_equiv. apply Permutation_app_comm.
  - eapply Forall_impl; [exact Hf|]. simpl. lia.
Qed.

Lemma item_step_inv budget seen st i :
  items_inv budget seen st → items_inv budget (seen ++ [i]) (step st i).
Proof.
  intros Hinv. destruct i as [text|image detail|url|content]; simpl.
  - case_bool_decide as Ht; [subst text; by apply items_inv_empty|].
    assert (0 < text_cost policy text) as Hpos by (destruct text; [done|apply text_cost_pos]).
    destruct (_ =? 0) eqn:E0; n_facts; [apply items_inv_drop; try done; [intros []|by intros [=]|simpl; lia|unfold count_audios; simpl; lia]|].
    destruct (_ <=? _) eqn:E1; n_facts; [by apply (items_inv_keep _ _ _ (InputText text)); [intros [=]|..]|].
    rewrite bool_decide_eq_false_2 by (by apply snippet_nonempty). by apply items_inv_snippet.
  - rewrite <-(N.sub_0_r (remaining_budget st)) at 1. apply (items_inv_keep _ _ _ (InputImage image detail)); [done|simpl; lia|done].
  - destruct (_ <=? _) eqn:E1; n_facts; [by apply (items_inv_keep _ _ _ (InputAudio url))|].
    apply items_inv_drop; try done; [intros []|unfold count_texts; simpl; lia].
  - rewrite <-(N.sub_0_r (remaining_budget st)) at 1. apply (items_inv_keep _ _ _ (EncryptedContent content)); [done|simpl; lia|done].
Qed.

Lemma item_fold_inv budget items seen st :
  items_inv budget seen st → items_inv budget (seen ++ items) (foldl step st items).
Proof.
  revert seen st. induction items as [|i items IH]; intros seen st Hinv; simpl; [by rewrite app_nil_r|].
  rewrite (cons_middle i seen items), (assoc_L (++)). by apply IH, item_step_inv.
Qed.

(** Within the budget every item is kept, but for the empty texts. *)
Lemma item_fold_fits items out rem :
  total_cost items <= rem →
  foldl step (mkItems out rem 0 0) items
  = mkItems (out ++ filter non_empty items) (rem - total_cost items) 0 0.
Proof.
  revert out rem. induction items as [|i items IH]; intros out rem Hc; simpl in *.
  { by rewrite filter_nil, app_nil_r, N.sub_0_r. }
  rewrite N.sub_add_distr. destruct i as [text|image detail|url|content]; simpl in *.
  - destruct text as [|c text].
    { rewrite filter_cons_False by (intros H; by apply H). simpl.
      assert (text_cost policy [] = 0) as Hz by (destruct policy; vm_compute; done).
      rewrite Hz in *. rewrite N.sub_0_r. apply IH. lia. }
    rewrite filter_cons_True by discriminate. rewrite bool_decide_eq_false_2 by done.
    pose proof (text_cost_pos c text).
    destruct (rem =? 0) eqn:E0; n_facts; [lia|].
    destruct (_ <=? rem) eqn:E1; n_facts; [|lia]. rewrite IH by (unfold sat_sub; lia).
    by rewrite <-(assoc_L (++)).
  - rewrite filter_cons_True by discriminate. rewrite IH by lia. by rewrite <-(assoc_L (++)), N.sub_0_r.
  - rewrite filter_cons_True by discriminate.
    destruct (_ <=? rem) eqn:E1; n_facts; [|lia]. rewrite IH by (unfold sat_sub; lia).
    by rewrite <-(assoc_L (++)).
  - rewrite filter_cons_True by discriminate. rewrite IH by lia. by rewrite <-(assoc_L (++)), N.sub_0_r.
Qed.
End ItemLaws.

(** The note that [n] items of a kind are left out. *)
Definition note (n : N) (what : string) : list ContentItem :=
  if n =? 0 then [] else [InputText (lit "[omitted " ++ lit (pretty n) ++ lit what ++ lit " items ...]")].

(** C37: [truncate_function_output_items_with_policy]: the items but the empty texts are those kept, at most
    one text that is cut, and those omitted. The result is, in the order of the input, what is kept
    verbatim and paid in full from the budget, with the cut text shortened to what was left of the
    budget when it came (more than nothing, less than its cost; its two ends within that budget
    around a marker of what was removed, for texts below usize::MAX bytes), and then a note with
    the number of omitted texts and one with the number of omitted audios. After a cut only items
    without cost are kept; every omitted item costs more than is left at the end. Images and
    encrypted items all survive. When everything fits, the result is the input without its empty texts. *)
Theorem truncated_items_within_budget (policy : TruncationPolicy) (estimate : str → N)
    (items : list ContentItem) :
  let r := truncate_function_output_items_with_policy policy estimate items in
  let budget := items_budget policy in
  filter is_media r = filter is_media items
  ∧ (∃ k1 cut k2 omitted left,
       let kept := k1 ++ option_list (InputText <$> cut) ++ k2 in
       r = k1 ++ shortened policy estimate budget k1 cut ++ k2
             ++ note (count_texts omitted) " text" ++ note (count_audios omitted) " audio"
       ∧ kept `sublist_of` items ∧ filter non_empty items ≡ₚ kept ++ omitted
       ∧ spent policy estimate budget k1 cut k2 left ∧ Forall (λ i, left < item_cost policy estimate i) omitted
       ∧ (∀ text, cut = Some text → blen text <= usize_max →
            let rest := snippet_policy policy (budget - total_cost policy estimate k1) in
            keeps_ends text (byte_budget rest) (policy_marker rest text) (truncate_text text rest)))
  ∧ (total_cost policy estimate items <= budget → r = filter non_empty items).
Proof.
  unfold truncate_function_output_items_with_policy. fold (items_budget policy). cbv zeta.
  destruct (item_fold_inv policy estimate (items_budget policy) items [] (mkItems [] (items_budget policy) 0 0))
    as (Hm & k1 & cut & k2 & om & Ho & Hs & Hp & Hsp & Hf & Ht & Ha).
  { split; [done|]. exists [], None, [], []. simpl. split_and!; (done || constructor). }
  set (st := foldl _ _ items) in *.
  assert (∀ n what, omitted_note n what = note n what) as Hnote.
  { intros n what. unfold omitted_note, note. by destruct n. }
  assert (∀ n what, Forall (λ i, ¬ is_media i) (note n what)) as Hn.
  { intros n what. unfold note. case_match; repeat constructor; by intros []. }
  split_and!.
  - rewrite !filter_app, Hm, !Hnote. rewrite !(filter_none is_media (note _ _) (Hn _ _)). by rewrite app_nil_r.
  - exists k1, cut, k2, om, (remaining_budget st). rewrite Ho, Ht, Ha, !Hnote. rewrite <- !(assoc_L (++)). split_and!; try done.
    intros text -> Hlen. destruct Hsp as (_ & Hc & _).
    apply truncate_text_keeps_ends; [done|]. by apply snippet_cut.
  - intros Hfit. unfold st. rewrite item_fold_fits by done. simpl. by rewrite app_nil_r.
Qed.

(** A text that fits, one that is cut, an audio and a text that are left out. *)
Lemma truncated_items_example :
  truncate_function_output_items_with_policy (Bytes 10) (λ _, 1)
    [InputText (lit "abcd"); InputAudio (lit "a"); InputText (lit "0123456789"); InputText (lit "x"); InputAudio (lit "b")]
  = [InputText (lit "abcd"); InputAudio (lit "a");
     InputText (lit "0" ++ [ELLIPSIS] ++ lit "8 chars truncated" ++ [ELLIPSIS] ++ lit "9");
     InputText (lit "[omitted 1 text items ...]"); InputText (lit "[omitted 1 audio items ...]")].
Proof. by vm_compute. Qed.

(** * MCP results *)

Section McpLaws.
Context {J : Type} (to_string : @CallToolResult J → option str) (text_json : str → J).

(** The preview budget falls in every round, so the loop ends. *)
Lemma mcp_loop_total fuel result serialized max_bytes budget :
  (N.to_nat budget < fuel)%nat →
  ∃ r, mcp_loop to_string text_json fuel result serialized max_bytes budget = Some r
    ∧ (r = result
       ∨ ∃ preview out, r = mcp_preview text_json result preview ∧ to_string r = Some out
           ∧ (blen out <= max_bytes ∨ preview = [])).
Proof.
  revert budget. induction fuel as [|fuel IH]; intros budget Hf; [lia|]. cbn [mcp_loop].
  set (preview := if budget =? 0 then [] else _).
  destruct (to_string (mcp_preview text_json result preview)) as [out|] eqn:Eout; [|by eauto].
  destruct (_ || _) eqn:E.
  - eexists; split; [done|]. right. exists preview, out. split_and!; [done|done|].
    apply orb_true_iff in E as [E|E]; n_facts; [by left|]. right.
    unfold preview. by rewrite E.
  - apply orb_false_iff in E as [E1 E2]; n_facts. apply IH. unfold sat_sub. lia.
Qed.
End McpLaws.

(** [truncate_mcp_tool_result] always returns, whatever the serializer does:
    its loop runs at most [max_bytes + 1] rounds.  What it returns is the result
    itself (when it fits, or when serialization fails) or a text preview that
    keeps the error flag and whose serialization fits [max_bytes], unless even the
    empty preview does not. *)
Theorem truncate_mcp_tool_result_total {J} (to_string : @CallToolResult J → option str)
    (text_json : str → J) (result : CallToolResult) (max_bytes : N) :
  ∃ r, truncate_mcp_tool_result to_string text_json result max_bytes = Some r
    ∧ is_error r = is_error result
    ∧ (∀ out, to_string result = Some out → blen out <= max_bytes → r = result)
    ∧ (r = result
       ∨ ∃ preview out, r = mcp_preview text_json result preview ∧ to_string r = Some out
           ∧ (blen out <= max_bytes ∨ preview = [])).
Proof.
  unfold truncate_mcp_tool_result.
  destruct (to_string result) as [serialized|] eqn:E; [|by eauto 10].
  destruct (_ <=? max_bytes) eqn:Efit; n_facts; [by eauto 10|].
  destruct (mcp_loop_total to_string text_json (S (N.to_nat max_bytes)) result serialized max_bytes max_bytes)
    as (r & Hr & Hcases); [lia|].
  exists r. split_and!; [done| |intros ? [= <-]; lia|done].
  destruct Hcases as [->|(preview & out & -> & _)]; done.
Qed.
