(* ===== verification/Template.v ===== *)
(** utils/template/src/lib.rs: strict templates for prompts and text assets.

    The cursor of the scanner is a byte offset kept beside the rest of the source;
    the slice [source[literal_start..cursor]] is the accumulated [literal].
    [BTreeMap] and [BTreeSet] are lists sorted by key, so that the iteration order,
    which decides the error reported first, is the source's. *)
From S2P Require Import Prelude Str.

(** * Sorted maps *)

(** [str::cmp]: lexicographic on bytes, which UTF-8 makes the order on code points. *)
Fixpoint str_compare (a b : str) : comparison :=
  match a, b with
  | [], [] => Eq
  | [], _ :: _ => Lt
  | _ :: _, [] => Gt
  | x :: a, y :: b => match N.compare x y with Eq => str_compare a b | c => c end
  end.

(** [BTreeMap::insert], with the value it replaces *)
Fixpoint btree_insert {V} (k : str) (v : V) (m : list (str * V)) : list (str * V) * option V :=
  match m with
  | [] => ([(k, v)], None)
  | (k', v') :: m' =>
      match str_compare k k' with
      | Lt => ((k, v) :: m, None)
      | Eq => ((k, v) :: m', Some v')
      | Gt => let '(r, old) := btree_insert k v m' in ((k', v') :: r, old)
      end
  end.

Fixpoint btree_get {V} (k : str) (m : list (str * V)) : option V :=
  match m with
  | [] => None
  | (k', v) :: m => if k =s k' then Some v else btree_get k m
  end.

Definition contains_key {V} (k : str) (m : list (str * V)) : bool :=
  match btree_get k m with Some _ => true | None => false end.

(** * Data *)

Inductive TemplateParseError :=
| EmptyPlaceholder (start : N)
| NestedPlaceholder (start : N)
| UnmatchedClosingDelimiter (start : N)
| UnterminatedPlaceholder (start : N).

Inductive TemplateRenderError :=
| DuplicateValue (name : str)
| ExtraValue (name : str)
| MissingValue (name : str).

Inductive TemplateError :=
| Parse (e : TemplateParseError)
| Render (e : TemplateRenderError).

Inductive Segment := Literal (s : str) | Placeholder (name : str).
#[global] Instance segment_eq_dec : EqDecision Segment.
Proof. solve_decision. Defined.

(** [placeholders] is a [BTreeSet], a [BTreeMap] to the unit. *)
Record Template := mkTemplate { placeholders : list (str * unit); segments : list Segment }.

Definition LB : N := 123.
Definition RB : N := 125.

(** * Parsing *)

Definition push_literal (segs : list Segment) (literal : str) : list Segment :=
  if bool_decide (literal = []) then segs
  else match last segs with
       | Some (Literal _) =>
           update_last (λ s, match s with Literal e => Literal (e ++ literal) | p => p end) segs
       | _ => segs ++ [Literal literal]
       end.

(** The loop of [parse_placeholder]: [raw] is [source[placeholder_start..cursor]];
    returns the trimmed name, the raw text and what follows the closing braces. *)
Fixpoint parse_placeholder (rest raw : str) (start : N)
    : result TemplateParseError (str * str * str) :=
  match rest with
  | [] => Err (UnterminatedPlaceholder start)
  | ch :: rest' =>
      if starts_with [LB; LB] rest then Err (NestedPlaceholder start)
      else if starts_with [RB; RB] rest then
        let placeholder := trim raw in
        if bool_decide (placeholder = []) then Err (EmptyPlaceholder start)
        else Ok (placeholder, raw, drop 2 rest)
      else parse_placeholder rest' (raw ++ [ch]) start
  end.

(** The [while] loop of [Template::parse]; [None] is running out of fuel. *)
Fixpoint parse_loop (fuel : nat) (cursor : N) (rest literal : str) (names : list (str * unit))
    (segs : list Segment) : option (result TemplateParseError Template) :=
  match fuel with
  | 0 => None
  | S fuel =>
      match rest with
      | [] => Some (Ok (mkTemplate names (push_literal segs literal)))
      | ch :: rest' =>
          if starts_with [LB; LB; LB; LB] rest then
            parse_loop fuel (cursor + 4)%N (drop 4 rest) [] names
              (push_literal (push_literal segs literal) [LB; LB])
          else if starts_with [RB; RB; RB; RB] rest then
            parse_loop fuel (cursor + 4)%N (drop 4 rest) [] names
              (push_literal (push_literal segs literal) [RB; RB])
          else if starts_with [LB; LB] rest then
            match parse_placeholder (drop 2 rest) [] cursor with
            | Err e => Some (Err e)
            | Ok (name, raw, after) =>
                parse_loop fuel (cursor + 2 + blen raw + 2)%N after []
                  (fst (btree_insert name tt names))
                  (push_literal segs literal ++ [Placeholder name])
            end
          else if starts_with [RB; RB] rest then Some (Err (UnmatchedClosingDelimiter cursor))
          else parse_loop fuel (cursor + len_utf8 ch)%N rest' (literal ++ [ch]) names segs
      end
  end.

Definition template_parse (source : str) : option (result TemplateParseError Template) :=
  parse_loop (S (length source)) 0 source [] [] [].

(** * Rendering *)

Fixpoint build_variable_map_from (map : list (str * str)) (variables : list (str * str))
    : result TemplateRenderError (list (str * str)) :=
  match variables with
  | [] => Ok map
  | (name, value) :: variables =>
      match btree_insert name value map with
      | (_, Some _) => Err (DuplicateValue name)
      | (map, None) => build_variable_map_from map variables
      end
  end.

Definition build_variable_map (variables : list (str * str)) := build_variable_map_from [] variables.

Fixpoint render_segments (segs : list Segment) (variables : list (str * str)) (rendered : str)
    : result TemplateRenderError str :=
  match segs with
  | [] => Ok rendered
  | Literal literal :: segs => render_segments segs variables (rendered ++ literal)
  | Placeholder name :: segs =>
      match btree_get name variables with
      | None => Err (MissingValue name)
      | Some value => render_segments segs variables (rendered ++ value)
      end
  end.

Definition template_render (t : Template) (variables : list (str * str)) : result TemplateRenderError str :=
  let? variables := build_variable_map variables in
  match find (λ p, negb (contains_key p variables)) (placeholders t).*1 with
  | Some placeholder => Err (MissingValue placeholder)
  | None =>
      match find (λ n, negb (contains_key n (placeholders t))) variables.*1 with
      | Some name => Err (ExtraValue name)
      | None => render_segments (segments t) variables []
      end
  end.

Definition render (template : str) (variables : list (str * str)) : option (result TemplateError str) :=
  r ← template_parse template;
  Some (let? t := map_err Parse r in map_err Render (template_render t variables)).

Example render_1 :
  render (lit "{{ a }} is {{{{ {{b}} }}}}") [(lit "b", lit "2"); (lit "a", lit "1")]
  = Some (Ok (lit "1 is {{ 2 }}")).
Proof. reflexivity. Qed.

Example render_2 : render (lit "Hello, {{ n {{ i }} }}.") [] = Some (Err (Parse (NestedPlaceholder 7))).
Proof. reflexivity. Qed.

(** * Laws of the sorted maps *)

Definition str_lt (a b : str) : Prop := str_compare a b = Lt.

Lemma str_compare_eq a b : str_compare a b = Eq ↔ a = b.
Proof.
  revert b. induction a as [|x a IH]; intros [|y b]; simpl; try done.
  destruct (N.compare_spec x y); [subst; rewrite IH; naive_solver|split; [done|intros [= ]; lia]..].
Qed.

Lemma str_compare_gt a b : str_compare a b = Gt → str_lt b a.
Proof.
  unfold str_lt. revert b. induction a as [|x a IH]; intros [|y b]; simpl; try done.
  rewrite (N.compare_antisym x y). destruct (N.compare x y); simpl; auto; done.
Qed.

#[global] Instance str_lt_trans : Transitive str_lt.
Proof.
  unfold str_lt. intros a. induction a as [|x a IH]; intros [|y b] [|z c]; simpl; try done.
  destruct (N.compare_spec x y), (N.compare_spec y z), (N.compare_spec x z);
    subst; try done; try lia; eauto.
Qed.

Lemma str_lt_irrefl a : ¬ str_lt a a.
Proof. unfold str_lt. rewrite (proj2 (str_compare_eq a a)); done. Qed.

Definition sorted_map {V} (m : list (str * V)) : Prop := StronglySorted str_lt m.*1.

Lemma btree_get_elem {V} k (m : list (str * V)) : is_Some (btree_get k m) ↔ k ∈ m.*1.
Proof.
  induction m as [|[k' v] m IH]; simpl; [split; [by intros []|by intros ?%elem_of_nil]|].
  rewrite elem_of_cons. case_bool_decide; [naive_solver eauto|]. rewrite IH. naive_solver.
Qed.

Lemma btree_get_not_elem {V} k (m : list (str * V)) : k ∉ m.*1 → btree_get k m = None.
Proof. intros Hk. destruct (btree_get k m) eqn:E; [|done]. destruct Hk. apply btree_get_elem. eauto. Qed.

Lemma contains_key_spec {V} k (m : list (str * V)) : contains_key k m = true ↔ k ∈ m.*1.
Proof.
  rewrite <-btree_get_elem. unfold contains_key.
  destruct (btree_get k m); [naive_solver eauto|split; [done|by intros []]].
Qed.

Lemma not_contains_key {V} k (m : list (str * V)) : negb (contains_key k m) = true ↔ k ∉ m.*1.
Proof. rewrite negb_true_iff, <-not_true_iff_false, contains_key_spec. done. Qed.

(** [insert] keeps the keys sorted, returns the value it replaces and changes
    nothing else. *)
Lemma btree_insert_spec {V} k (v : V) m :
  sorted_map m →
  let r := btree_insert k v m in
  sorted_map r.1
  ∧ r.2 = btree_get k m
  ∧ (∀ k', btree_get k' r.1 = if k' =s k then Some v else btree_get k' m)
  ∧ (∀ k', k' ∈ r.1.*1 ↔ k' = k ∨ k' ∈ m.*1).
Proof.
  unfold sorted_map. induction m as [|[k0 v0] m IH]; intros Hm; simpl in *.
  { split_and!; [by repeat constructor|done|done|intros k'; rewrite !elem_of_cons; tauto]. }
  apply StronglySorted_inv in Hm as [Hm Hk0]. rewrite Forall_forall in Hk0.
  destruct (str_compare k k0) eqn:E; simpl.
  - apply str_compare_eq in E as ->. rewrite bool_decide_eq_true_2 by done.
    split_and!; [constructor; [done|by apply Forall_forall]|done| |intros k'; rewrite !elem_of_cons; tauto].
    intros k'. by case_bool_decide.
  - assert (k ∉ (k0 :: m.*1)) as Hnk.
    { rewrite elem_of_cons. intros [->|Hin]; [by apply (str_lt_irrefl k0)|].
      apply (str_lt_irrefl k). transitivity k0; [exact E|by apply Hk0]. }
    split_and!.
    + constructor; [by constructor; [|apply Forall_forall]|].
      apply Forall_cons; split; [exact E|]. apply Forall_forall. intros x Hx.
      transitivity k0; [exact E|by apply Hk0].
    + symmetry. apply (btree_get_not_elem k ((k0, v0) :: m)). done.
    + done.
    + intros k'. rewrite !elem_of_cons. tauto.
  - apply str_compare_gt in E. destruct (IH Hm) as (H1 & H2 & H3 & H4).
    destruct (btree_insert k v m) as [r old]. simpl in *.
    assert (k ≠ k0) by (intros ->; by apply (str_lt_irrefl k0)).
    split_and!.
    + constructor; [done|]. apply Forall_forall. intros x [->|Hx]%H4; [exact E|by apply Hk0].
    + by rewrite bool_decide_eq_false_2.
    + intros k'. rewrite H3. repeat case_bool_decide; congruence.
    + intros k'. rewrite !elem_of_cons, H4. tauto.
Qed.

(** * Rendering *)

Definition placeholder_name (s : Segment) : option str :=
  match s with Placeholder n => Some n | Literal _ => None end.

(** What holds of every parsed template: its set of placeholders is sorted and is
    the set of the names in its segments. *)
Definition template_wf (t : Template) : Prop :=
  sorted_map (placeholders t)
  ∧ ∀ n, n ∈ (placeholders t).*1 ↔ n ∈ omap placeholder_name (segments t).

(** The reference rendering: every placeholder replaced by its value. *)
Definition segment_value (variables : list (str * str)) (s : Segment) : str :=
  match s with
  | Literal l => l
  | Placeholder n => default [] (btree_get n variables)
  end.

Lemma find_first {A} (f : A → bool) (R : A → A → Prop) l x :
  StronglySorted R l → find f l = Some x →
  x ∈ l ∧ f x = true ∧ ∀ y, y ∈ l → f y = true → y = x ∨ R x y.
Proof.
  induction 1 as [|y l Hl IH Hy]; simpl; [done|]. rewrite Forall_forall in Hy.
  destruct (f y) eqn:E.
  - intros [= <-]. split_and!; [left|done|]. intros z [->|Hz]%elem_of_cons _; auto.
  - intros Hf. destruct (IH Hf) as (Hx & Hfx & Hmin). split_and!; [by right|done|].
    intros z [->|Hz]%elem_of_cons Hfz; [congruence|auto].
Qed.

Lemma find_none_forall {A} (f : A → bool) l : find f l = None → ∀ x, x ∈ l → f x = false.
Proof.
  induction l as [|y l IH]; simpl; [intros _ x ?%elem_of_nil; done|].
  destruct (f y) eqn:E; [done|]. intros Hf x [->|Hx]%elem_of_cons; auto.
Qed.

(** [build_variable_map] fails exactly on a repeated name, and otherwise holds
    the given values. *)
Lemma build_variable_map_from_spec m variables :
  sorted_map m →
  match build_variable_map_from m variables with
  | Ok r =>
      sorted_map r ∧ NoDup variables.*1 ∧ (∀ k, k ∈ variables.*1 → k ∉ m.*1)
      ∧ (∀ k, k ∈ r.*1 ↔ k ∈ variables.*1 ∨ k ∈ m.*1)
      ∧ ∀ k, btree_get k r = match btree_get k m with Some v => Some v | None => btree_get k variables end
  | Err (DuplicateValue n) =>
      ∃ before v after, variables = before ++ (n, v) :: after ∧ (n ∈ before.*1 ∨ n ∈ m.*1)
  | Err _ => False
  end.
Proof.
  revert m. induction variables as [|[k v] variables IH]; intros m Hm; simpl.
  { split_and!; [done|constructor|intros ? ?%elem_of_nil; done| |].
    - intros k. rewrite elem_of_nil. tauto.
    - intros k. by destruct (btree_get k m). }
  destruct (btree_insert_spec k v m Hm) as (H1 & H2 & H3 & H4).
  destruct (btree_insert k v m) as [m' [old|]]; simpl in *.
  { exists [], v, variables. split; [done|]. right. apply btree_get_elem. eauto. }
  assert (k ∉ m.*1) as Hk by (rewrite <-btree_get_elem, <-H2; by intros []).
  specialize (IH m' H1). destruct (build_variable_map_from m' variables) as [r|[n|n|n]].
  - destruct IH as (Hr & Hnd & Hout & Hin & Hget). split_and!; [done| | | |].
    + constructor; [intros Hkv; apply (Hout k Hkv), H4; by left|done].
    + intros x [->|Hx]%elem_of_cons; [done|]. intros Hxm. apply (Hout x Hx), H4. by right.
    + intros x. rewrite Hin, H4, elem_of_cons. tauto.
    + intros x. rewrite Hget, H3. case_bool_decide as Hx; [|done]. subst x.
      by rewrite <-H2.
  - destruct IH as (before & w & after & -> & Hn). exists ((k, v) :: before), w, after.
    split; [done|]. simpl. rewrite elem_of_cons, H4 in *. naive_solver.
  - done.
  - done.
Qed.

Lemma render_segments_ok segs variables rendered :
  (∀ n, n ∈ omap placeholder_name segs → n ∈ variables.*1) →
  render_segments segs variables rendered
  = Ok (rendered ++ mjoin (segment_value variables <$> segs)).
Proof.
  revert rendered. induction segs as [|[l|n] segs IH]; intros rendered Hn; simpl.
  - by rewrite app_nil_r.
  - rewrite IH by done. by rewrite (assoc_L (++)).
  - assert (n ∈ variables.*1) as [v Hv]%btree_get_elem by (apply Hn; simpl; left).
    rewrite Hv. simpl. rewrite IH by (intros x Hx; apply Hn; simpl; by right).
    by rewrite (assoc_L (++)).
Qed.

Lemma segment_value_ext v1 v2 (segs : list Segment) :
  (∀ k, btree_get k v1 = btree_get k v2) → segment_value v1 <$> segs = segment_value v2 <$> segs.
Proof. intros H. apply list_fmap_ext. intros i [l|n] _; simpl; [done|by rewrite H]. Qed.

(** [Template::render] is exact.  It succeeds just when every placeholder has
    one value and every value a placeholder, and then the result is the template
    with the values in place of the placeholders; otherwise it reports a repeated
    name, else the first placeholder (in name order) without a value, else the
    first value (in name order) without a placeholder. *)
Theorem render_exact (t : Template) (variables : list (str * str)) (Hwf : template_wf t) :
  match template_render t variables with
  | Ok out =>
      NoDup variables.*1
      ∧ (∀ n, n ∈ variables.*1 ↔ n ∈ omap placeholder_name (segments t))
      ∧ out = mjoin (segment_value variables <$> segments t)
  | Err (DuplicateValue n) =>
      ∃ before v after, variables = before ++ (n, v) :: after ∧ n ∈ before.*1
  | Err (MissingValue n) =>
      NoDup variables.*1
      ∧ n ∈ omap placeholder_name (segments t) ∧ n ∉ variables.*1
      ∧ ∀ n', n' ∈ omap placeholder_name (segments t) → n' ∉ variables.*1 → n' = n ∨ str_lt n n'
  | Err (ExtraValue n) =>
      NoDup variables.*1
      ∧ (∀ n', n' ∈ omap placeholder_name (segments t) → n' ∈ variables.*1)
      ∧ n ∈ variables.*1 ∧ n ∉ omap placeholder_name (segments t)
      ∧ ∀ n', n' ∈ variables.*1 → n' ∉ omap placeholder_name (segments t) → n' = n ∨ str_lt n n'
  end.
Proof.
  destruct Hwf as [Hsort Hnames]. unfold template_render, build_variable_map.
  pose proof (build_variable_map_from_spec [] variables ltac:(constructor)) as Hb.
  destruct (build_variable_map_from [] variables) as [m|[n|n|n]]; simpl; [|naive_solver set_solver|done..].
  destruct Hb as (Hm & Hnd & _ & Hin & Hget). simpl in Hget.
  assert (∀ k, k ∈ m.*1 ↔ k ∈ variables.*1) as Hkeys.
  { intros k. rewrite Hin. simpl. rewrite elem_of_nil. tauto. }
  destruct (find _ (placeholders t).*1) as [n|] eqn:Emiss.
  { destruct (find_first _ str_lt _ _ Hsort Emiss) as (H1 & H2 & H3).
    apply not_contains_key in H2. rewrite Hkeys in H2. apply Hnames in H1.
    split_and!; [done|done|done|]. intros n' Hn' Hv. apply H3; [by apply Hnames|].
    apply not_contains_key. by rewrite Hkeys. }
  assert (∀ n', n' ∈ omap placeholder_name (segments t) → n' ∈ variables.*1) as Hall.
  { intros n' Hn'%Hnames. pose proof (find_none_forall _ _ Emiss n' Hn') as Hc.
    by apply negb_false_iff, contains_key_spec, Hkeys in Hc. }
  destruct (find _ m.*1) as [n|] eqn:Eextra.
  { destruct (find_first _ str_lt _ _ Hm Eextra) as (H1 & H2 & H3).
    apply not_contains_key in H2. rewrite Hnames in H2. apply Hkeys in H1.
    split_and!; [done|done|done|done|]. intros n' Hn' Hp. apply H3; [by apply Hkeys|].
    apply not_contains_key. by rewrite Hnames. }
  rewrite render_segments_ok by (intros n Hn; apply Hkeys; auto).
  split_and!; [done| |simpl; f_equal; by apply segment_value_ext].
  intros n. split; [|apply Hall]. intros Hn%Hkeys.
  pose proof (find_none_forall _ _ Eextra n Hn) as Hc.
  by apply negb_false_iff, contains_key_spec, Hnames in Hc.
Qed.

Lemma render_exact_witness :
  template_wf (mkTemplate [(lit "n", tt)] [Literal (lit "hi "); Placeholder (lit "n")])
  ∧ lit "hi you" = mjoin (segment_value [(lit "n", lit "you")] <$> [Literal (lit "hi "); Placeholder (lit "n")]).
Proof.
  assert (template_wf (mkTemplate [(lit "n", tt)] [Literal (lit "hi "); Placeholder (lit "n")])) as Hwf.
  { split; [by repeat constructor | done]. }
  split; [exact Hwf|].
  exact (proj2 (proj2 (render_exact
    (mkTemplate [(lit "n", tt)] [Literal (lit "hi "); Placeholder (lit "n")]) [(lit "n", lit "you")] Hwf))).
Defined.

(** * Parsing *)

(** Adjacent literals are merged. *)
Fixpoint alternating (segs : list Segment) : bool :=
  match segs with
  | Literal _ :: ((Literal _ :: _)) => false
  | _ :: segs => alternating segs
  | [] => true
  end.

Definition is_literal (s : Segment) : bool := match s with Literal _ => true | _ => false end.

Lemma alternating_snoc segs x :
  alternating (segs ++ [x])
  = alternating segs && negb (is_literal x && match last segs with Some s => is_literal s | None => false end).
Proof.
  induction segs as [|s segs IH]; [by destruct x|].
  destruct segs as [|s' segs]; [by destruct s, x|].
  change ((s :: s' :: segs) ++ [x]) with (s :: s' :: (segs ++ [x])).
  change (last (s :: s' :: segs)) with (last (s' :: segs)).
  change ((s' :: segs) ++ [x]) with (s' :: (segs ++ [x])) in IH.
  destruct s, s'; simpl alternating in *; auto.
Qed.

(** A literal is not empty; a name is a non-empty trimmed slice. *)
Definition segment_ok (s : Segment) : Prop :=
  match s with
  | Literal l => l ≠ []
  | Placeholder n => n ≠ [] ∧ ∃ raw, n = trim raw
  end.

Definition segments_ok (segs : list Segment) : Prop := Forall segment_ok segs ∧ alternating segs = true.

Lemma push_literal_snoc segs e l : l ≠ [] → push_literal (segs ++ [Literal e]) l = segs ++ [Literal (e ++ l)].
Proof.
  intros Hl. unfold push_literal. rewrite bool_decide_eq_false_2 by done.
  by rewrite last_snoc, update_last_snoc.
Qed.

Lemma push_literal_new segs l :
  l ≠ [] → match last segs with Some s => is_literal s | None => false end = false →
  push_literal segs l = segs ++ [Literal l].
Proof.
  intros Hl Hs. unfold push_literal. rewrite bool_decide_eq_false_2 by done.
  by destruct (last segs) as [[?|?]|].
Qed.

(** The cases of [push_literal]. *)
Lemma push_literal_cases segs l :
  l = [] ∧ push_literal segs l = segs
  ∨ l ≠ [] ∧ (∃ segs' e, segs = segs' ++ [Literal e] ∧ push_literal segs l = segs' ++ [Literal (e ++ l)])
  ∨ l ≠ [] ∧ match last segs with Some s => is_literal s | None => false end = false
    ∧ push_literal segs l = segs ++ [Literal l].
Proof.
  destruct (decide (l = [])) as [->|Hl]; [left; done|right].
  destruct (list_snoc_inv segs) as [->|(segs' & [e|n] & ->)].
  - right. split_and!; [done|done|by apply push_literal_new].
  - left. split; [done|]. exists segs', e. split; [done|by apply push_literal_snoc].
  - right. rewrite last_snoc. split_and!; [done|done|]. apply push_literal_new; [done|by rewrite last_snoc].
Qed.

Lemma push_literal_ok segs l : segments_ok segs → segments_ok (push_literal segs l).
Proof.
  intros [Hf Ha].
  destruct (push_literal_cases segs l) as [[-> ->]|[(Hl & segs' & e & -> & ->)|(Hl & Hs & ->)]]; [done| |].
  - rewrite Forall_app, Forall_singleton, alternating_snoc in *.
    split; [|by rewrite alternating_snoc]. apply Forall_app. split; [apply Hf|].
    apply Forall_singleton. simpl. intros [? ?]%app_eq_nil. done.
  - split; [apply Forall_app; split; [done|by apply Forall_singleton]|].
    rewrite alternating_snoc, Ha. simpl. by rewrite Hs.
Qed.

Lemma push_literal_names segs l : omap placeholder_name (push_literal segs l) = omap placeholder_name segs.
Proof.
  destruct (push_literal_cases segs l) as [[-> ->]|[(Hl & segs' & e & -> & ->)|(Hl & Hs & ->)]]; [done| |].
  - by rewrite !omap_app.
  - by rewrite omap_app, app_nil_r.
Qed.

Lemma push_literal_app segs a b : push_literal (push_literal segs a) b = push_literal segs (a ++ b).
Proof.
  destruct (decide (b = [])) as [->|Hb]; [by rewrite app_nil_r|].
  destruct (push_literal_cases segs a) as [[-> ->]|[(Ha & segs' & e & -> & ->)|(Ha & Hs & ->)]]; [done| |].
  - rewrite !push_literal_snoc; [by rewrite (assoc_L (++))|intros [? ?]%app_eq_nil; done|done].
  - rewrite push_literal_snoc by done. symmetry. apply push_literal_new; [|done].
    intros [? ?]%app_eq_nil; done.
Qed.

Lemma placeholder_snoc_ok segs n : segments_ok segs → segment_ok (Placeholder n) → segments_ok (segs ++ [Placeholder n]).
Proof.
  intros [Hf Ha] Hn. split; [apply Forall_app; split; [done|by apply Forall_singleton]|].
  by rewrite alternating_snoc, Ha.
Qed.

(** What [parse_placeholder] consumes, and where its errors point. *)
Lemma parse_placeholder_spec rest raw start :
  match parse_placeholder rest raw start with
  | Ok (name, raw', after) =>
      name = trim raw' ∧ name ≠ []
      ∧ ∃ more, raw' = raw ++ more ∧ rest = more ++ [RB; RB] ++ after
  | Err (EmptyPlaceholder s | NestedPlaceholder s | UnterminatedPlaceholder s) => s = start
  | Err (UnmatchedClosingDelimiter _) => False
  end.
Proof.
  revert raw. induction rest as [|ch rest IH]; intros raw; cbn [parse_placeholder]; [done|].
  destruct (starts_with [LB; LB] _) eqn:E1; [done|].
  destruct (starts_with [RB; RB] _) eqn:E2.
  - case_bool_decide; [done|]. split_and!; [done|done|]. exists []. split; [by rewrite app_nil_r|].
    apply starts_with_spec in E2 as [t Ht]. by rewrite Ht.
  - specialize (IH (raw ++ [ch])).
    destruct (parse_placeholder rest (raw ++ [ch]) start) as [[[name raw'] after]|[]]; try done.
    destruct IH as (H1 & H2 & more & -> & ->). split_and!; [done|done|].
    exists (ch :: more). by rewrite <-(assoc_L (++)).
Qed.

(** The byte offset of an error is that of the delimiter it is about. *)
Definition error_at (source : str) (e : TemplateParseError) : Prop :=
  ∃ before after,
    match e with
    | UnmatchedClosingDelimiter s => source = before ++ [RB; RB] ++ after ∧ s = blen before
    | EmptyPlaceholder s | NestedPlaceholder s | UnterminatedPlaceholder s =>
        source = before ++ [LB; LB] ++ after ∧ s = blen before
    end.

Definition names_of (names : list (str * unit)) (segs : list Segment) : Prop :=
  sorted_map names ∧ ∀ n, n ∈ names.*1 ↔ n ∈ omap placeholder_name segs.

Lemma names_of_insert names segs l n :
  names_of names segs →
  names_of (fst (btree_insert n tt names)) (push_literal segs l ++ [Placeholder n]).
Proof.
  intros [Hs Hn]. destruct (btree_insert_spec n tt names Hs) as (H1 & _ & _ & H4).
  split; [done|]. intros k. rewrite H4, Hn, omap_app, push_literal_names, elem_of_app. simpl.
  rewrite list_elem_of_singleton. tauto.
Qed.

Lemma parse_loop_spec fuel source before rest literal names segs :
  length rest < fuel → source = before ++ rest →
  segments_ok segs → names_of names segs →
  ∃ r, parse_loop fuel (blen before) rest literal names segs = Some r
    ∧ match r with
      | Ok t => template_wf t ∧ segments_ok (segments t)
      | Err e => error_at source e
      end.
Proof.
  revert before rest literal names segs.
  induction fuel as [|fuel IH]; intros before rest literal names segs Hf Hs Hok Hn; [lia|].
  destruct rest as [|ch rest]; cbn [parse_loop].
  { eexists. split; [done|]. split; [|by apply push_literal_ok].
    destruct Hn as [? Hn]. split; [done|]. intros n. cbn [segments]. by rewrite push_literal_names. }
  assert (∀ p q literal', ch :: rest = p ++ q → p ≠ [] →
    ∀ segs', segments_ok segs' → omap placeholder_name segs' = omap placeholder_name segs →
    ∃ r, parse_loop fuel (blen before + blen p)%N q literal' names segs' = Some r
      ∧ match r with Ok t => template_wf t ∧ segments_ok (segments t) | Err e => error_at source e end) as Hstep.
  { intros p q literal' Hpq Hp segs' Hok' Hnames. rewrite <-blen_app.
    apply IH; [|by rewrite Hs, Hpq, (assoc_L (++))|done|].
    - apply (f_equal length) in Hpq. rewrite length_app in Hpq. simpl in Hpq, Hf.
      destruct p; [done|simpl in Hpq; lia].
    - destruct Hn as [? Hn]. split; [done|]. intros n. by rewrite Hnames. }
  destruct (starts_with [LB; LB; LB; LB] _) eqn:E1.
  { apply starts_with_spec in E1 as [q Hq]. rewrite Hq.
    apply (Hstep [LB; LB; LB; LB] q []); [done|done|by do 2 apply push_literal_ok|by rewrite !push_literal_names]. }
  destruct (starts_with [RB; RB; RB; RB] _) eqn:E2.
  { apply starts_with_spec in E2 as [q Hq]. rewrite Hq.
    apply (Hstep [RB; RB; RB; RB] q []); [done|done|by do 2 apply push_literal_ok|by rewrite !push_literal_names]. }
  destruct (starts_with [LB; LB] _) eqn:E3.
  { apply starts_with_spec in E3 as [q Hq]. rewrite Hq.
    change (drop 2 ([LB; LB] ++ q)) with (drop 0 q). rewrite drop_0.
    pose proof (parse_placeholder_spec q [] (blen before)) as Hp.
    assert (∃ b a, source = b ++ [LB; LB] ++ a ∧ blen before = blen b) as Hat
      by (exists before, q; split; [by rewrite Hs, Hq|done]).
    destruct (parse_placeholder q [] (blen before)) as [[[name raw] after]|e].
    - destruct Hp as (Hname & Hne & more & -> & ->). rewrite app_nil_l.
      replace (blen before + 2 + blen more + 2)%N
        with (blen (before ++ [LB; LB] ++ more ++ [RB; RB])) 
        by (rewrite !blen_app; change (blen [LB; LB]) with 2%N; change (blen [RB; RB]) with 2%N; lia).
      apply IH.
      + apply (f_equal length) in Hq. simpl in Hq, Hf. rewrite length_app in Hq. simpl in Hq. lia.
      + rewrite Hs, Hq. by rewrite <-!(assoc_L (++)).
      + apply placeholder_snoc_ok; [by apply push_literal_ok|]. split; [done|by eexists].
      + by apply names_of_insert.
    - eexists. split; [done|]. destruct e; try done; rewrite Hp; exact Hat. }
  destruct (starts_with [RB; RB] _) eqn:E4.
  { apply starts_with_spec in E4 as [q Hq]. eexists. split; [done|].
    exists before, q. split; [by rewrite Hs, Hq|done]. }
  replace (len_utf8 ch) with (blen [ch]) by (simpl; lia).
  by apply (Hstep [ch] rest).
Qed.

(** [Template::parse] always returns.  A parsed template is well formed: its
    set of placeholders is sorted and is the set of the names in its segments,
    no literal is empty, adjacent literals are merged and names are trimmed and
    non-empty (so [render]'s own check of a missing value never fires late); a
    parse error carries the byte offset of the delimiter it is about. *)
Theorem template_parse_wf (source : str) :
  ∃ r, template_parse source = Some r
    ∧ match r with
      | Ok t => template_wf t ∧ segments_ok (segments t)
      | Err e => error_at source e
      end.
Proof.
  apply (parse_loop_spec _ source [] source); [lia|done|by split|].
  split; [constructor|]. done.
Qed.

(** * Round trip *)

(** The documented escapes: a literal double brace is written doubled. *)
Fixpoint escape (s : str) : str :=
  match s with
  | [] => []
  | c :: s' =>
      match s' with
      | d :: r =>
          if N.eqb c LB && N.eqb d LB then [LB; LB; LB; LB] ++ escape r
          else if N.eqb c RB && N.eqb d RB then [RB; RB; RB; RB] ++ escape r
          else c :: escape s'
      | [] => [c]
      end
  end.

(** A literal whose last brace is single and opening cannot be followed by a
    placeholder: the scanner takes the first two of three opening braces. *)
Fixpoint lone_open (s : str) : bool :=
  match s with
  | [] => false
  | c :: s' =>
      match s' with
      | d :: r =>
          if N.eqb c LB && N.eqb d LB then lone_open r
          else if N.eqb c RB && N.eqb d RB then lone_open r
          else lone_open s'
      | [] => N.eqb c LB
      end
  end.

(** No double brace inside a name. *)
Fixpoint no_double (s : str) : bool :=
  match s with
  | [] => true
  | c :: s' => negb (starts_with [LB; LB] s) && negb (starts_with [RB; RB] s) && no_double s'
  end.

Definition SP : N := 32.

Definition segment_source (s : Segment) : str :=
  match s with
  | Literal l => escape l
  | Placeholder n => [LB; LB; SP] ++ n ++ [SP; RB; RB]
  end.

Definition template_source (segs : list Segment) : str := mjoin (segment_source <$> segs).

Fixpoint printable (segs : list Segment) : bool :=
  match segs with
  | [] => true
  | Literal l :: rest =>
      negb (bool_decide (l = []))
      && match rest with
         | Literal _ :: _ => false
         | Placeholder _ :: _ => negb (lone_open l)
         | [] => true
         end
      && printable rest
  | Placeholder n :: rest => negb (bool_decide (n = [])) && trimmed n && no_double n && printable rest
  end.

Lemma starts_2 a x s : starts_with [a; a] (x :: s) = N.eqb a x && match s with y :: _ => N.eqb a y | [] => false end.
Proof. unfold starts_with. simpl. destruct (N.eqb a x); [|done]. destruct s as [|y s]; [done|]. by destruct (N.eqb a y). Qed.

Lemma starts_4_2 a s : starts_with [a; a] s = false → starts_with [a; a; a; a] s = false.
Proof.
  intros H. apply not_true_iff_false. intros [t ->]%starts_with_spec.
  rewrite (proj2 (starts_with_spec [a; a] _)) in H; [done|]. by exists (a :: a :: t).
Qed.

(** One ordinary character. *)
Lemma parse_loop_char fuel cursor c rest literal names segs :
  starts_with [LB; LB] (c :: rest) = false → starts_with [RB; RB] (c :: rest) = false →
  parse_loop (S fuel) cursor (c :: rest) literal names segs
  = parse_loop fuel (cursor + len_utf8 c)%N rest (literal ++ [c]) names segs.
Proof. intros H1 H2. cbn [parse_loop]. by rewrite (starts_4_2 LB), (starts_4_2 RB), H1, H2. Qed.

Lemma parse_loop_escape fuel cursor rest literal names segs a :
  a = LB ∨ a = RB →
  parse_loop (S fuel) cursor ([a; a; a; a] ++ rest) literal names segs
  = parse_loop fuel (cursor + 4)%N rest [] names (push_literal segs (literal ++ [a; a])).
Proof. intros [->| ->]; cbn -[push_literal]; by rewrite drop_0, push_literal_app. Qed.

(** What may follow an escaped literal. *)
Definition follows (s tail : str) : Prop := tail = [] ∨ (∃ r, tail = [LB; LB] ++ r) ∧ lone_open s = false.

Lemma escape_head d r : ∃ e, escape (d :: r) = d :: e.
Proof.
  simpl. destruct r as [|x r]; [by eexists|].
  destruct (N.eqb d LB && N.eqb x LB) eqn:E1; [|destruct (N.eqb d RB && N.eqb x RB) eqn:E2].
  - apply andb_true_iff in E1 as [->%N.eqb_eq _]. by eexists.
  - apply andb_true_iff in E2 as [->%N.eqb_eq _]. by eexists.
  - by eexists.
Qed.

Lemma escape_2 c d r :
  escape (c :: d :: r)
  = if N.eqb c LB && N.eqb d LB then [LB; LB; LB; LB] ++ escape r
    else if N.eqb c RB && N.eqb d RB then [RB; RB; RB; RB] ++ escape r
    else c :: escape (d :: r).
Proof. done. Qed.

Lemma lone_open_2 c d r :
  lone_open (c :: d :: r)
  = if N.eqb c LB && N.eqb d LB then lone_open r
    else if N.eqb c RB && N.eqb d RB then lone_open r else lone_open (d :: r).
Proof. done. Qed.

(** An escaped literal is scanned back to the literal. *)
Lemma parse_loop_literal n s fuel cursor tail literal names segs :
  length s ≤ n → length (escape s ++ tail) < fuel → follows s tail →
  ∃ fuel' cursor' literal' segs',
    length tail < fuel'
    ∧ push_literal segs' literal' = push_literal segs (literal ++ s)
    ∧ parse_loop fuel cursor (escape s ++ tail) literal names segs
      = parse_loop fuel' cursor' tail literal' names segs'.
Proof.
  revert s fuel cursor literal segs.
  induction n as [|n IH]; intros s fuel cursor literal segs Hn Hf Ht.
  { destruct s; [|simpl in Hn; lia]. exists fuel, cursor, literal, segs. by rewrite app_nil_r. }
  destruct s as [|c [|d r]]; cbn [length] in Hn; (destruct fuel as [|fuel]; [lia|]).
  - exists (S fuel), cursor, literal, segs. by rewrite app_nil_r.
  - cbn [escape app] in *. rewrite parse_loop_char; [|rewrite starts_2..].
    + eexists fuel, _, _, segs. split; [simpl in Hf; lia|done].
    + destruct Ht as [->|[[q ->] Hl]]; [by rewrite andb_false_r|]. simpl in Hl.
      by rewrite N.eqb_sym, Hl.
    + destruct Ht as [->|[[q ->] Hl]]; by rewrite andb_false_r.
  - rewrite escape_2 in Hf |- *. unfold follows in Ht. rewrite lone_open_2 in Ht.
    assert (∀ a, a = LB ∨ a = RB → length (([a; a; a; a] ++ escape r) ++ tail) < S fuel → follows r tail →
      ∃ fuel' cursor' literal' segs', length tail < fuel'
        ∧ push_literal segs' literal' = push_literal segs (literal ++ a :: a :: r)
        ∧ parse_loop (S fuel) cursor (([a; a; a; a] ++ escape r) ++ tail) literal names segs
          = parse_loop fuel' cursor' tail literal' names segs') as Hesc.
    { intros a Ha Hf' Ht'. rewrite <-app_assoc, (parse_loop_escape _ _ _ _ _ _ a) by done.
      destruct (IH r fuel (cursor + 4)%N [] (push_literal segs (literal ++ [a; a])))
        as (f' & c' & l' & s' & H1 & H2 & H3); [lia|rewrite !length_app in *; simpl in Hf'; lia|done|].
      exists f', c', l', s'. split_and!; [done| |done].
      by rewrite H2, push_literal_app, <-app_assoc. }
    destruct (N.eqb c LB && N.eqb d LB) eqn:E1.
    { apply andb_true_iff in E1 as [->%N.eqb_eq ->%N.eqb_eq]. by apply Hesc; [left| |]. }
    destruct (N.eqb c RB && N.eqb d RB) eqn:E2.
    { apply andb_true_iff in E2 as [->%N.eqb_eq ->%N.eqb_eq]. by apply Hesc; [right| |]. }
    destruct (escape_head d r) as [e He].
    change ((c :: escape (d :: r)) ++ tail) with (c :: (escape (d :: r) ++ tail)).
    rewrite parse_loop_char; [|rewrite starts_2, He; cbn [app]; by rewrite (N.eqb_sym _ c), (N.eqb_sym _ d)..].
    destruct (IH (d :: r) fuel (cursor + len_utf8 c)%N (literal ++ [c]) segs)
      as (f' & c' & l' & s' & H1 & H2 & H3); [cbn [length]; lia|simpl in Hf |- *; lia|exact Ht|].
    exists f', c', l', s'. split_and!; [done| |done]. by rewrite H2, <-app_assoc.
Qed.

(** A padded name is scanned back to the name. *)
Lemma parse_placeholder_padded x raw start tail :
  no_double (x ++ [SP]) = true → trim (raw ++ x ++ [SP]) ≠ [] →
  parse_placeholder (x ++ [SP; RB; RB] ++ tail) raw start
  = Ok (trim (raw ++ x ++ [SP]), raw ++ x ++ [SP], tail).
Proof.
  revert raw. induction x as [|c x IH]; intros raw Hx Hne.
  - cbn. rewrite drop_0. by rewrite bool_decide_eq_false_2.
  - cbn [app parse_placeholder]. cbn [no_double app] in Hx. rewrite !starts_2 in *.
    apply andb_true_iff in Hx as [[H1%negb_true_iff H2%negb_true_iff]%andb_true_iff H3].
    assert (∀ a, match x ++ SP :: RB :: RB :: tail with y :: _ => N.eqb a y | [] => false end
      = match x ++ [SP] with y :: _ => N.eqb a y | [] => false end) as Hh by (by destruct x).
    rewrite !Hh, H1, H2. specialize (IH (raw ++ [c])). rewrite <-!app_assoc in IH. by apply IH.
Qed.

Lemma trim_padded n : trimmed n = true → n ≠ [] → trim ((SP :: n) ++ [SP]) = n.
Proof.
  intros Hn Hne. rewrite <-(trim_fixpoint n Hn) at 2. unfold trim, trim_start.
  cbn [app drop_while]. change (is_whitespace SP) with true. cbv match.
  assert (∃ c n', n = c :: n' ∧ is_whitespace c = false) as (c & n' & -> & Hc).
  { destruct n as [|c n']; [done|]. exists c, n'. split; [done|].
    unfold trimmed in Hn. destruct (last (c :: n')) eqn:E; [|by apply last_None in E].
    cbn [head] in Hn. by destruct (is_whitespace c). }
  rewrite (drop_while_head _ c n') by done. change ((c :: n') ++ [SP]) with (c :: (n' ++ [SP])).
  rewrite drop_while_head by done. apply (trim_end_by_snoc_drop _ (c :: n')). done.
Qed.

Lemma no_double_snoc x c : c ≠ LB → c ≠ RB → no_double x = true → no_double (x ++ [c]) = true.
Proof.
  intros H1 H2. induction x as [|d x IH]; simpl; [by rewrite !starts_2, !andb_false_r|].
  rewrite !starts_2, !andb_true_iff, !negb_true_iff. intros [[Ha Hb] Hx].
  split_and!; [| |by apply IH]; destruct x as [|y x]; try done; cbn [app];
    apply andb_false_iff; right; apply N.eqb_neq; congruence.
Qed.

Definition add_name (m : list (str * unit)) (n : str) : list (str * unit) := fst (btree_insert n tt m).

Definition starts_literal (segs : list Segment) : bool :=
  match segs with Literal _ :: _ => true | _ => false end.

Lemma parse_loop_placeholder fuel cursor n tail literal names segs :
  n ≠ [] → trimmed n = true → no_double n = true →
  ∃ cursor',
    parse_loop (S fuel) cursor (segment_source (Placeholder n) ++ tail) literal names segs
    = parse_loop fuel cursor' tail [] (add_name names n) (push_literal segs literal ++ [Placeholder n]).
Proof.
  intros Hne Ht Hd.
  assert (parse_placeholder ((SP :: n) ++ [SP; RB; RB] ++ tail) [] cursor
          = Ok (n, (SP :: n) ++ [SP], tail)) as Hp.
  { rewrite (parse_placeholder_padded (SP :: n)), app_nil_l, trim_padded; [done|done|done| |].
    - apply (no_double_snoc (SP :: n)); [done|done|]. cbn [no_double]. by rewrite !starts_2.
    - by rewrite app_nil_l, trim_padded. }
  assert (segment_source (Placeholder n) ++ tail = [LB; LB] ++ (SP :: n) ++ [SP; RB; RB] ++ tail) as ->
    by (cbn [segment_source]; by rewrite <-!app_assoc).
  eexists. cbn [parse_loop app].
  rewrite (skipn_cons 1), (skipn_cons 0), drop_0.
  cbn [app] in Hp. rewrite Hp. done.
Qed.

Lemma parse_loop_print todo fuel cursor literal names segs :
  printable todo = true → length (template_source todo) < fuel →
  (starts_literal todo = true →
   match last (push_literal segs literal) with Some s => is_literal s | None => false end = false) →
  parse_loop fuel cursor (template_source todo) literal names segs
  = Some (Ok (mkTemplate (foldl add_name names (omap placeholder_name todo))
                (push_literal segs literal ++ todo))).
Proof.
  revert fuel cursor literal names segs.
  induction todo as [|s todo IH]; intros fuel cursor literal names segs Hp Hf Hl.
  { destruct fuel; [simpl in Hf; lia|]. cbn. by rewrite app_nil_r. }
  change (template_source (s :: todo)) with (segment_source s ++ template_source todo) in *.
  destruct s as [l|n]; cbn [printable] in Hp.
  - apply andb_true_iff in Hp as [[Hne%negb_true_iff%bool_decide_eq_false Hnext]%andb_true_iff Hp].
    destruct (parse_loop_literal (length l) l fuel cursor (template_source todo) literal names segs)
      as (f & c & lt & sg & H1 & H2 & H3); [done|done| |].
    { destruct todo as [|[?|n] todo]; [by left|done|right]. split; [by eexists|by apply negb_true_iff]. }
    cbn [segment_source]. rewrite H3, IH; [|done|done|].
    + rewrite H2, <-push_literal_app, push_literal_new, <-app_assoc; [done|done|by apply Hl].
    + by destruct todo as [|[?|n] todo].
  - apply andb_true_iff in Hp as [[[Hne%negb_true_iff%bool_decide_eq_false Ht]%andb_true_iff Hd]%andb_true_iff Hp].
    destruct fuel as [|fuel]; [lia|].
    destruct (parse_loop_placeholder fuel cursor n (template_source todo) literal names segs) as [c ->]; [done..|].
    rewrite IH; [|done| |].
    + cbn. by rewrite <-app_assoc.
    + rewrite length_app in Hf. simpl in Hf. lia.
    + intros _. cbn. by rewrite last_snoc.
Qed.

(** Round trip: the source written for a template (double braces of its
    literals escaped, its names between padded braces) parses back to exactly its
    segments, with the set of its names as placeholders. *)
Theorem template_roundtrip (segs : list Segment) (Hp : printable segs = true) :
  template_parse (template_source segs)
  = Some (Ok (mkTemplate (foldl add_name [] (omap placeholder_name segs)) segs)).
Proof. unfold template_parse. by rewrite parse_loop_print; [|done|lia|]. Qed.

Lemma template_roundtrip_witness :
  template_parse (lit "a {{{{ b }}}}}{{ x }}{{ y }}")
  = Some (Ok (mkTemplate [(lit "x", tt); (lit "y", tt)]
      [Literal (lit "a {{ b }}}"); Placeholder (lit "x"); Placeholder (lit "y")])).
Proof.
  exact (template_roundtrip
    [Literal (lit "a {{ b }}}"); Placeholder (lit "x"); Placeholder (lit "y")] eq_refl).
Defined.

(** Any text, escaped, renders to itself. *)
Lemma render_escape (s : str) : render (escape s) [] = Some (Ok s).
Proof.
  destruct (decide (s = [])) as [->|Hs]; [done|]. unfold render, template_parse.
  pose proof (parse_loop_print [Literal s] (S (length (escape s))) 0 [] [] []) as H.
  change (template_source [Literal s]) with (escape s ++ []) in H. rewrite app_nil_r in H.
  rewrite H; [done| |lia|done]. simpl. by rewrite bool_decide_eq_false_2.
Qed.
