(* ===== verification/HistoryNormalize.v ===== *)
(** core/src/context_manager/normalize.rs: the history sent to the model.  Every tool
    call gets an output, every output has its call, media the model cannot take are
    replaced by a note.

    Fields of response items that this code neither reads nor writes are one opaque
    value [rest] of type [X].  The
    panics of [error_or_panic] in debug builds are [None].  Parameter: the UUID
    derived from a name ([Uuid::new_v5]). *)
From S2P Require Import Prelude Str Truncate.

(** * Response items *)

Section History.
Context {X : Type}.

(** [InternalChatMessageMetadataPassthrough] *)
Record Passthrough := mkPass { content_item_kinds : option (list str); pass_rest : X }.

(** [ContentItem] of a message *)
Inductive MessageItem :=
| MsgInputText (text : str)
| MsgInputImage (image : ImageReference) (detail : option ImageDetail)
| MsgInputAudio (audio_url : str)
| MsgOutputText (text : str) (rest : X).

Inductive ResponseItem :=
| Message (content : list MessageItem) (passthrough : option Passthrough) (rest : X)
| LocalShellCall (id call_id : option str) (rest : X)
| FunctionCall (id : option str) (call_id : str) (rest : X)
| ToolSearchCall (id call_id : option str) (rest : X)
| FunctionCallOutput (id call_id name namespace : option str) (output : FunctionCallOutputPayload)
    (passthrough : option Passthrough)
| CustomToolCall (id : option str) (call_id : str) (rest : X)
| CustomToolCallOutput (id : option str) (call_id : str) (name : option str)
    (output : FunctionCallOutputPayload) (passthrough : option Passthrough)
| ToolSearchOutput (id call_id : option str) (status execution : str) (tools : list X)
    (passthrough : option Passthrough)
| ImageGenerationCall (image_result : str) (rest : X)
| AdditionalTools (rest : X)
| AgentMessage (rest : X)
| Reasoning (rest : X)
| WebSearchCall (rest : X)
| Compaction (rest : X)
| ConfigurationUpdate (rest : X)
| CompactionTrigger
| ContextCompaction (rest : X)
| Other.

Record Metadata := mkMetadata { inherited_user_message : bool; metadata_rest : X }.

Record Envelope := mkEnvelope { item : ResponseItem; metadata : option Metadata }.

Definition envelope_new (i : ResponseItem) : Envelope := mkEnvelope i None.

(** [error_or_panic]: [None] in a build with debug assertions. *)
Definition error_or_panic {A} (debug : bool) (k : A) : option A := if debug then None else Some k.

(** * ensure_call_outputs_present *)

Context (uuid_v5 : str → str).

Definition synthetic_output_id (prefix : str) (item_id : option str) : option str :=
  match item_id with
  | Some source_id =>
      if bool_decide (source_id = []) then None
      else Some (prefix ++ lit "_" ++ uuid_v5 (prefix ++ lit ":" ++ source_id))
  | None => None
  end.

Definition from_text (content : str) : FunctionCallOutputPayload := mkPayload (Text content) None.

(** The three sets of output ids, by a loop over the items. *)
Definition collect_ids (f : ResponseItem → option str) (items : list Envelope) : gset str :=
  foldl (λ s e, match f (item e) with Some c => {[c]} ∪ s | None => s end) ∅ items.

Definition function_output_id (i : ResponseItem) : option str :=
  match i with FunctionCallOutput _ call_id _ _ _ _ => call_id | _ => None end.
Definition tool_search_output_id (i : ResponseItem) : option str :=
  match i with ToolSearchOutput _ call_id _ _ _ _ => call_id | _ => None end.
Definition custom_tool_output_id (i : ResponseItem) : option str :=
  match i with CustomToolCallOutput _ call_id _ _ _ => Some call_id | _ => None end.

Definition inherited (e : Envelope) : bool :=
  match metadata e with Some m => inherited_user_message m | None => false end.

Definition aborted : FunctionCallOutputPayload := from_text (lit "aborted").

(** The output inserted after a call that has none; the outer [None] is a panic. *)
Definition missing_output (debug : bool) (fids sids cids : gset str) (e : Envelope) : option (option Envelope) :=
  match item e with
  | FunctionCall id call_id _ =>
      if bool_decide (call_id ∈ fids) then Some None
      else Some (Some (envelope_new
             (FunctionCallOutput (synthetic_output_id (lit "fco") id) (Some call_id) None None aborted None)))
  | ToolSearchCall id (Some call_id) _ =>
      if bool_decide (call_id ∈ sids) then Some None
      else Some (Some (envelope_new
             (ToolSearchOutput (synthetic_output_id (lit "tso") id) (Some call_id) (lit "completed")
                (lit "client") [] None)))
  | CustomToolCall id call_id _ =>
      if bool_decide (call_id ∈ cids) then Some None
      else
        let out := Some (envelope_new
             (CustomToolCallOutput (synthetic_output_id (lit "ctco") id) call_id None aborted None)) in
        if inherited e then Some out else error_or_panic debug out
  | LocalShellCall id (Some call_id) _ =>
      if bool_decide (call_id ∈ fids) then Some None
      else
        let out := Some (envelope_new
             (FunctionCallOutput (synthetic_output_id (lit "fco") id) (Some call_id) None None aborted None)) in
        if inherited e then Some out else error_or_panic debug out
  | _ => Some None
  end.

(** The loop that collects [missing_outputs_to_insert]. *)
Fixpoint missing_outputs (debug : bool) (fids sids cids : gset str) (idx : nat) (items : list Envelope)
    : option (list (nat * Envelope)) :=
  match items with
  | [] => Some []
  | e :: items =>
      m ← missing_output debug fids sids cids e;
      rest ← missing_outputs debug fids sids cids (S idx) items;
      Some (match m with Some o => (idx, o) :: rest | None => rest end)
  end.

(** [Vec::insert] *)
Definition vec_insert {A} (i : nat) (x : A) (l : list A) : list A := take i l ++ x :: drop i l.

Definition ensure_call_outputs_present (debug : bool) (items : list Envelope) : option (list Envelope) :=
  let fids := collect_ids function_output_id items in
  let sids := collect_ids tool_search_output_id items in
  let cids := collect_ids custom_tool_output_id items in
  missing ← missing_outputs debug fids sids cids 0 items;
  Some (foldl (λ items '(idx, output_item), vec_insert (idx + 1) output_item items) items (rev missing)).

(** * remove_orphan_outputs *)

Definition function_call_id (i : ResponseItem) : option str :=
  match i with FunctionCall _ c _ => Some c | LocalShellCall _ c _ => c | _ => None end.
Definition tool_search_call_id (i : ResponseItem) : option str :=
  match i with ToolSearchCall _ c _ => c | _ => None end.
Definition custom_tool_call_id (i : ResponseItem) : option str :=
  match i with CustomToolCall _ c _ => Some c | _ => None end.

Definition is_orphan (fids sids cids : gset str) (i : ResponseItem) : bool :=
  match i with
  | FunctionCallOutput _ (Some c) _ _ _ _ => negb (bool_decide (c ∈ fids))
  | CustomToolCallOutput _ c _ _ _ => negb (bool_decide (c ∈ cids))
  | ToolSearchOutput _ (Some c) _ execution _ _ =>
      negb (execution =s lit "server") && negb (bool_decide (c ∈ sids))
  | _ => false
  end.

Fixpoint orphan_positions (debug : bool) (fids sids cids : gset str) (position : nat) (items : list Envelope)
    : option (list nat) :=
  match items with
  | [] => Some []
  | e :: items =>
      if is_orphan fids sids cids (item e) then
        _ ← error_or_panic debug ();
        rest ← orphan_positions debug fids sids cids (S position) items;
        Some (position :: rest)
      else orphan_positions debug fids sids cids (S position) items
  end.

(** [items.retain] with the peekable iterator over the positions. *)
Fixpoint retain_loop (position : nat) (positions : list nat) (items : list Envelope) : list Envelope :=
  match items with
  | [] => []
  | e :: items =>
      if bool_decide (head positions = Some position)
      then retain_loop (S position) (tail positions) items
      else e :: retain_loop (S position) positions items
  end.

Definition remove_orphan_outputs (debug : bool) (items : list Envelope) : option (list Envelope) :=
  let fids := collect_ids function_call_id items in
  let sids := collect_ids tool_search_call_id items in
  let cids := collect_ids custom_tool_call_id items in
  positions ← orphan_positions debug fids sids cids 0 items;
  Some (if bool_decide (positions = []) then items else retain_loop 0 positions items).

(** * remove_corresponding_for *)

(** [position] and [Vec::remove] *)
Fixpoint remove_first_matching (predicate : ResponseItem → bool) (items : list Envelope) : list Envelope :=
  match items with
  | [] => []
  | e :: items => if predicate (item e) then items else e :: remove_first_matching predicate items
  end.

Definition is_function_output (c : str) (i : ResponseItem) : bool := bool_decide (function_output_id i = Some c).
Definition is_function_call (c : str) (i : ResponseItem) : bool :=
  match i with FunctionCall _ d _ => bool_decide (d = c) | _ => false end.
Definition is_local_shell_call (c : str) (i : ResponseItem) : bool :=
  match i with LocalShellCall _ d _ => bool_decide (d = Some c) | _ => false end.
Definition is_tool_search_output (c : str) (i : ResponseItem) : bool := bool_decide (tool_search_output_id i = Some c).
Definition is_tool_search_call (c : str) (i : ResponseItem) : bool := bool_decide (tool_search_call_id i = Some c).
Definition is_custom_output (c : str) (i : ResponseItem) : bool := bool_decide (custom_tool_output_id i = Some c).
Definition is_custom_call (c : str) (i : ResponseItem) : bool := bool_decide (custom_tool_call_id i = Some c).

Definition remove_corresponding_for (items : list Envelope) (i : ResponseItem) : list Envelope :=
  match i with
  | FunctionCall _ c _ => remove_first_matching (is_function_output c) items
  | FunctionCallOutput _ (Some c) _ _ _ _ =>
      if existsb (λ e, is_function_call c (item e)) items
      then remove_first_matching (is_function_call c) items
      else remove_first_matching (is_local_shell_call c) items
  | ToolSearchCall _ (Some c) _ => remove_first_matching (is_tool_search_output c) items
  | ToolSearchOutput _ (Some c) _ _ _ _ => remove_first_matching (is_tool_search_call c) items
  | CustomToolCall _ c _ => remove_first_matching (is_custom_output c) items
  | CustomToolCallOutput _ c _ _ _ => remove_first_matching (is_custom_call c) items
  | LocalShellCall _ (Some c) _ => remove_first_matching (is_function_output c) items
  | _ => items
  end.

(** [ContextManager::remove_first_item], on the items. *)
Definition remove_first_item (items : list Envelope) : list Envelope :=
  match items with
  | [] => []
  | removed :: items => remove_corresponding_for items (item removed)
  end.

(** * Unsupported media *)

(** [InternalChatMessageMetadataPassthrough::default] beyond the content kinds *)
Context (default_rest : X).

Inductive InputModality := TextModality | ImageModality | AudioModality.
#[global] Instance InputModality_eq_dec : EqDecision InputModality.
Proof. solve_decision. Defined.

(** [UnsupportedMedia]: its text and content kind; [render] is the text. *)
Record UnsupportedMedia := mkUnsupported { media_text : str; media_kind : str }.
Definition UNSUPPORTED_IMAGE : UnsupportedMedia :=
  mkUnsupported (lit "image content omitted because you do not support image input") (lit "images.unsupported").
Definition UNSUPPORTED_AUDIO : UnsupportedMedia :=
  mkUnsupported (lit "audio content omitted because you do not support audio input") (lit "audio.unsupported").

(** [kinds.into_iter().chain(repeat("unknown"))] zipped with the content *)
Fixpoint annotate (content : list MessageItem) (kinds : list str) : list (MessageItem * str) :=
  match content with
  | [] => []
  | c :: content =>
      match kinds with
      | k :: kinds => (c, k) :: annotate content kinds
      | [] => (c, lit "unknown") :: annotate content []
      end
  end.

Definition to_annotated_content (content : list MessageItem) (passthrough : option Passthrough)
    : list (MessageItem * str) :=
  annotate content (match passthrough with Some p => default [] (content_item_kinds p) | None => [] end).

Definition set_annotated_content (annotated : list (MessageItem * str)) (passthrough : option Passthrough)
    : list MessageItem * option Passthrough :=
  (annotated.*1,
   Some (mkPass (Some annotated.*2) (match passthrough with Some p => pass_rest p | None => default_rest end))).

Section Strip.
(** [is_message_media] and [is_output_media] are the two [matches!] of a medium. *)
Context (unsupported : UnsupportedMedia) (is_message_media : MessageItem → bool)
  (is_output_media : ContentItem → bool) (clears_images : bool).

Definition strip_message (a : MessageItem * str) : MessageItem * str :=
  if is_message_media a.1 then (MsgInputText (media_text unsupported), media_kind unsupported) else a.

Definition strip_output_item (c : ContentItem) : ContentItem :=
  if is_output_media c then InputText (media_text unsupported) else c.

Definition strip_output (output : FunctionCallOutputPayload) : FunctionCallOutputPayload :=
  match body output with
  | Text _ => output
  | ContentItems items => mkPayload (ContentItems (strip_output_item <$> items)) (success output)
  end.

Definition strip_item (i : ResponseItem) : ResponseItem :=
  match i with
  | Message content passthrough rest =>
      let annotated := strip_message <$> to_annotated_content content passthrough in
      let '(content, passthrough) := set_annotated_content annotated passthrough in
      Message content passthrough rest
  | FunctionCallOutput id call_id name namespace output p =>
      FunctionCallOutput id call_id name namespace (strip_output output) p
  | CustomToolCallOutput id call_id name output p =>
      CustomToolCallOutput id call_id name (strip_output output) p
  | ImageGenerationCall result rest =>
      if clears_images then ImageGenerationCall [] rest else i
  | i => i
  end.
End Strip.

Definition is_message_image (c : MessageItem) : bool := match c with MsgInputImage _ _ => true | _ => false end.
Definition is_message_audio (c : MessageItem) : bool := match c with MsgInputAudio _ => true | _ => false end.
Definition is_output_image (c : ContentItem) : bool := match c with InputImage _ _ => true | _ => false end.
Definition is_output_audio (c : ContentItem) : bool := match c with InputAudio _ => true | _ => false end.

Definition strip_image_item : ResponseItem → ResponseItem :=
  strip_item UNSUPPORTED_IMAGE is_message_image is_output_image true.
Definition strip_audio_item : ResponseItem → ResponseItem :=
  strip_item UNSUPPORTED_AUDIO is_message_audio is_output_audio false.

Definition on_item (f : ResponseItem → ResponseItem) (e : Envelope) : Envelope :=
  mkEnvelope (f (item e)) (metadata e).

Definition strip_images_when_unsupported (input_modalities : list InputModality) (items : list Envelope)
    : list Envelope :=
  if bool_decide (ImageModality ∈ input_modalities) then items else on_item strip_image_item <$> items.

Definition strip_audio_when_unsupported (input_modalities : list InputModality) (items : list Envelope)
    : list Envelope :=
  if bool_decide (AudioModality ∈ input_modalities) then items else on_item strip_audio_item <$> items.

(** [ContextManager::normalize_history], on the items. *)
Definition normalize_history (debug : bool) (input_modalities : list InputModality) (items : list Envelope)
    : option (list Envelope) :=
  items ← ensure_call_outputs_present debug items;
  items ← remove_orphan_outputs debug items;
  let items := strip_images_when_unsupported input_modalities items in
  Some (strip_audio_when_unsupported input_modalities items).

(** * The two passes as list functions *)

Lemma collect_ids_elem f items c : c ∈ collect_ids f items ↔ ∃ e, e ∈ items ∧ f (item e) = Some c.
Proof. clear uuid_v5.
  unfold collect_ids. assert (∀ s : gset str, c ∈ foldl (λ s e, match f (item e) with Some c => {[c]} ∪ s | None => s end) s items
    ↔ c ∈ s ∨ ∃ e, e ∈ items ∧ f (item e) = Some c) as H; [|rewrite H; set_solver].
  induction items as [|e items IH]; intros s; simpl; [set_solver|].
  rewrite IH. setoid_rewrite elem_of_cons. destruct (f (item e)) eqn:E; set_solver.
Qed.

(** Inserting in reverse order puts each output right behind its call. *)
Lemma insert_missing fids sids cids debug items missing idx pre :
  missing_outputs debug fids sids cids idx items = Some missing → length pre = idx →
  ∃ outs, mapM (missing_output debug fids sids cids) items = Some outs
    ∧ foldl (λ items '(idx, output_item), vec_insert (idx + 1) output_item items) (pre ++ items) (rev missing)
      = pre ++ mjoin (zip_with (λ e o, e :: option_list o) items outs).
Proof.
  revert missing idx pre. induction items as [|e items IH]; intros missing idx pre; simpl.
  { intros [= <-] _. by exists []. }
  destruct (missing_output debug fids sids cids e) as [m|] eqn:Em; [|done]. simpl.
  destruct (missing_outputs debug fids sids cids (S idx) items) as [rest|] eqn:Er; [|done]. simpl.
  intros [= <-] Hl.
  destruct (IH rest (S idx) (pre ++ [e]) Er) as (outs & Houts & Hf); [rewrite length_app; simpl; lia|].
  rewrite <-!(assoc_L (++)) in Hf. cbn [app] in Hf. exists (m :: outs). rewrite Houts. split; [done|].
  set (tl := mjoin (zip_with (λ e o, e :: option_list o) items outs)) in *.
  destruct m as [o|]; cbn [rev].
  - rewrite foldl_app, Hf. cbn [foldl]. unfold vec_insert.
    replace (idx + 1) with (length (pre ++ [e])) by (rewrite length_app; simpl; lia).
    change (pre ++ e :: tl) with (pre ++ [e] ++ tl).
    rewrite (assoc_L (++)), take_app_length, drop_app_length. by rewrite <-!(assoc_L (++)).
  - rewrite Hf. done.
Qed.
Lemma missing_output_release debug fids sids cids e o :
  missing_output debug fids sids cids e = Some o → missing_output false fids sids cids e = Some o.
Proof. unfold missing_output, error_or_panic. intros H. repeat case_match; simplify_eq; done. Qed.

Lemma missing_output_total fids sids cids e : is_Some (missing_output false fids sids cids e).
Proof. unfold missing_output, error_or_panic. repeat case_match; eauto. Qed.

(** The output the code makes up for a call without one. *)
Definition synthetic (items : list Envelope) (e : Envelope) : option Envelope :=
  default None (missing_output false (collect_ids function_output_id items)
                  (collect_ids tool_search_output_id items) (collect_ids custom_tool_output_id items) e).

Definition with_output (items : list Envelope) (e : Envelope) : list Envelope :=
  e :: option_list (synthetic items e).

Definition completed (items : list Envelope) : list Envelope := mjoin (with_output items <$> items).

Lemma ensure_completed debug items r : ensure_call_outputs_present debug items = Some r → r = completed items.
Proof.
  unfold ensure_call_outputs_present. intros H. destruct (missing_outputs _ _ _ _ _ _) as [missing|] eqn:Em; [|done].
  simpl in H. injection H as <-.
  destruct (insert_missing _ _ _ _ _ _ 0 [] Em eq_refl) as (outs & Houts & Hf).
  cbn [app] in Hf. rewrite Hf. unfold completed. f_equal.
  apply mapM_Some_1 in Houts. clear Em Hf. unfold with_output, synthetic. revert Houts.
  generalize (collect_ids function_output_id items) (collect_ids tool_search_output_id items)
    (collect_ids custom_tool_output_id items). intros fids sids cids Houts.
  induction Houts as [|e o l l' He Hl IH]; [done|]. cbn [zip_with]. rewrite fmap_cons.
  rewrite (missing_output_release _ _ _ _ _ _ He). by f_equal.
Qed.

Lemma missing_outputs_total fids sids cids idx items : is_Some (missing_outputs false fids sids cids idx items).
Proof.
  revert idx. induction items as [|e items IH]; intros idx; simpl; [eauto|].
  destruct (missing_output_total fids sids cids e) as [m ->]. destruct (IH (S idx)) as [rest ->]. simpl. eauto.
Qed.

Lemma ensure_release items : ensure_call_outputs_present false items = Some (completed items).
Proof.
  destruct (ensure_call_outputs_present false items) as [r|] eqn:E; [f_equal; by eapply ensure_completed|].
  unfold ensure_call_outputs_present in E.
  destruct (missing_outputs_total (collect_ids function_output_id items) (collect_ids tool_search_output_id items)
    (collect_ids custom_tool_output_id items) 0 items) as [m Hm]. by rewrite Hm in E.
Qed.

(** An output no call of [items] belongs to. *)
Definition orphan (items : list Envelope) (e : Envelope) : bool :=
  is_orphan (collect_ids function_call_id items) (collect_ids tool_search_call_id items)
    (collect_ids custom_tool_call_id items) (item e).

Lemma retain_spec fids sids cids position items :
  ∃ ps, orphan_positions false fids sids cids position items = Some ps
    ∧ Forall (λ i, position ≤ i) ps
    ∧ retain_loop position ps items = filter (λ e, is_orphan fids sids cids (item e) = false) items
    ∧ (ps = [] → filter (λ e, is_orphan fids sids cids (item e) = false) items = items).
Proof.
  revert position. induction items as [|e items IH]; intros position; simpl; [by exists []|].
  destruct (IH (S position)) as (ps & Hps & Hf & Hr & Hn). rewrite Hps.
  assert (Forall (λ i, position ≤ i) ps) as Hf' by (eapply Forall_impl; [exact Hf|simpl; lia]).
  destruct (is_orphan fids sids cids (item e)) eqn:E; simpl.
  - exists (position :: ps). split_and!; [done|by constructor| |done].
    simpl. rewrite bool_decide_eq_true_2 by done. rewrite Hr, filter_cons_False; [done|congruence].
  - exists ps. rewrite filter_cons_True by done. split_and!; [done|done| |intros ->; by rewrite Hn].
    rewrite bool_decide_eq_false_2, Hr; [done|].
    destruct ps as [|i ps]; [done|]. apply Forall_cons in Hf as [Hi _]. simpl. intros [= ->]. lia.
Qed.

Lemma remove_orphans_release items :
  remove_orphan_outputs false items = Some (filter (λ e, orphan items e = false) items).
Proof.
  unfold remove_orphan_outputs, orphan.
  destruct (retain_spec (collect_ids function_call_id items) (collect_ids tool_search_call_id items)
    (collect_ids custom_tool_call_id items) 0 items) as (ps & -> & _ & Hr & Hn). simpl.
  case_bool_decide as Hps; [by rewrite Hn|by rewrite Hr].
Qed.
(** * Pairing *)

(** The families of calls: function and shell calls share one. *)
Inductive family := FunctionFamily | SearchFamily | CustomFamily.
#[global] Instance family_eq_dec : EqDecision family.
Proof. solve_decision. Defined.

Definition call_key (i : ResponseItem) : option (family * str) :=
  match i with
  | FunctionCall _ c _ | LocalShellCall _ (Some c) _ => Some (FunctionFamily, c)
  | ToolSearchCall _ (Some c) _ => Some (SearchFamily, c)
  | CustomToolCall _ c _ => Some (CustomFamily, c)
  | _ => None
  end.

Definition output_key (i : ResponseItem) : option (family * str) :=
  match i with
  | FunctionCallOutput _ (Some c) _ _ _ _ => Some (FunctionFamily, c)
  | ToolSearchOutput _ (Some c) _ _ _ _ => Some (SearchFamily, c)
  | CustomToolCallOutput _ c _ _ _ => Some (CustomFamily, c)
  | _ => None
  end.

(** A tool search the server ran itself: its output stands alone. *)
Definition server_side (i : ResponseItem) : bool :=
  match i with ToolSearchOutput _ _ _ execution _ _ => execution =s lit "server" | _ => false end.

Definition has_key (f : ResponseItem → option (family * str)) (k : family * str) (items : list Envelope) : Prop :=
  ∃ e, e ∈ items ∧ f (item e) = Some k.

#[global] Instance has_key_dec f k items : Decision (has_key f k items).
Proof.
  refine (cast_if (decide (Exists (λ e, f (item e) = Some k) items)));
    unfold has_key; by rewrite <-Exists_exists.
Defined.

(** Every call has an output, every output of the client has a call. *)
Definition paired (items : list Envelope) : Prop :=
  (∀ k, has_key call_key k items → has_key output_key k items)
  ∧ (∀ e k, e ∈ items → output_key (item e) = Some k → server_side (item e) = false →
       has_key call_key k items).

Lemma has_key_collect (fam : family) (g : ResponseItem → option (family * str)) (h : ResponseItem → option str) c items :
  (∀ i, g i = Some (fam, c) ↔ h i = Some c) → has_key g (fam, c) items ↔ c ∈ collect_ids h items.
Proof. clear uuid_v5. intros Hgh. rewrite collect_ids_elem. unfold has_key. setoid_rewrite Hgh. done. Qed.

Lemma output_keys i c :
  (output_key i = Some (FunctionFamily, c) ↔ function_output_id i = Some c)
  ∧ (output_key i = Some (SearchFamily, c) ↔ tool_search_output_id i = Some c)
  ∧ (output_key i = Some (CustomFamily, c) ↔ custom_tool_output_id i = Some c).
Proof. clear uuid_v5. destruct i; simpl; repeat case_match; naive_solver. Qed.

Lemma call_keys i c :
  (call_key i = Some (FunctionFamily, c) ↔ function_call_id i = Some c)
  ∧ (call_key i = Some (SearchFamily, c) ↔ tool_search_call_id i = Some c)
  ∧ (call_key i = Some (CustomFamily, c) ↔ custom_tool_call_id i = Some c).
Proof. clear uuid_v5. destruct i; simpl; repeat case_match; naive_solver. Qed.

Lemma has_output_collect c items :
  (has_key output_key (FunctionFamily, c) items ↔ c ∈ collect_ids function_output_id items)
  ∧ (has_key output_key (SearchFamily, c) items ↔ c ∈ collect_ids tool_search_output_id items)
  ∧ (has_key output_key (CustomFamily, c) items ↔ c ∈ collect_ids custom_tool_output_id items).
Proof. split_and!; apply has_key_collect; try done; intros i; apply output_keys. Qed.

Lemma has_call_collect c items :
  (has_key call_key (FunctionFamily, c) items ↔ c ∈ collect_ids function_call_id items)
  ∧ (has_key call_key (SearchFamily, c) items ↔ c ∈ collect_ids tool_search_call_id items)
  ∧ (has_key call_key (CustomFamily, c) items ↔ c ∈ collect_ids custom_tool_call_id items).
Proof. split_and!; apply has_key_collect; try done; intros i; apply call_keys. Qed.

(** A synthetic output belongs to its call and is made exactly when it is missing. *)
Lemma synthetic_spec items e :
  match synthetic items e with
  | Some o => ∃ k, call_key (item e) = Some k ∧ ¬ has_key output_key k items
                   ∧ output_key (item o) = Some k ∧ server_side (item o) = false ∧ call_key (item o) = None
  | None => ∀ k, call_key (item e) = Some k → has_key output_key k items
  end.
Proof.
  unfold synthetic, missing_output, error_or_panic.
  destruct (item e) as [| ? [c|] ?|? c ?|? [c|] ?| |? c ?| | | | | | | | | | | |]; simpl; try (by intros k [=]);
    pose proof (has_output_collect c items) as (H1 & H2 & H3);
    case_bool_decide as Hin; simpl; try (intros k [= <-]; tauto);
    try (destruct (inherited e); simpl); eexists; split_and!; try done; tauto.
Qed.

(** The orphan test is about keys. *)
Lemma orphan_spec items e :
  orphan items e = true ↔
  ∃ k, output_key (item e) = Some k ∧ server_side (item e) = false ∧ ¬ has_key call_key k items.
Proof.
  unfold orphan, is_orphan.
  destruct (item e) as [| | | |? [c|] ? ? ? ?| |? c ? ? ?|? [c|] ? ex ? ?| | | | | | | | | |]; simpl;
    try (split; [done|]; by intros (k & [=] & _));
    pose proof (has_call_collect c items) as (H1 & H2 & H3);
    rewrite ?andb_true_iff, ?negb_true_iff, ?bool_decide_eq_false, <-?H1, <-?H2, <-?H3; split.
  all: try (intros Hc; eexists; split_and!; [done|done|exact Hc]).
  all: try (intros (k & [= <-] & _ & Hc); exact Hc).
  - intros [Hs Hc]. eexists. split_and!; [done|by apply bool_decide_eq_false|exact Hc].
  - intros (k & [= <-] & Hs & Hc). split; [by apply bool_decide_eq_false in Hs|done].
Qed.
Lemma call_not_output i k : call_key i = Some k → output_key i = None.
Proof. by destruct i. Qed.

Lemma completed_elem items x :
  x ∈ completed items ↔ ∃ e, e ∈ items ∧ (x = e ∨ synthetic items e = Some x).
Proof.
  unfold completed. rewrite list_elem_of_join. setoid_rewrite list_elem_of_fmap. split.
  - intros (l & Hx & e & -> & He). exists e. split; [done|]. unfold with_output in Hx.
    apply elem_of_cons in Hx as [->|Hx]; [by left|right].
    destruct (synthetic items e); simpl in Hx; [|by apply elem_of_nil in Hx].
    by apply list_elem_of_singleton in Hx as ->.
  - intros (e & He & Hx). exists (with_output items e). split; [|eauto]. unfold with_output.
    destruct Hx as [->| ->]; [left|right]. simpl. left.
Qed.

Lemma completed_calls items k : has_key call_key k (completed items) ↔ has_key call_key k items.
Proof.
  unfold has_key. setoid_rewrite completed_elem. split.
  - intros (x & (e & He & [->|Hs]) & Hk); [by exists e|].
    pose proof (synthetic_spec items e) as Hsp. rewrite Hs in Hsp.
    destruct Hsp as (? & _ & _ & _ & _ & Hn). congruence.
  - intros (e & He & Hk). exists e. eauto.
Qed.

Lemma completed_outputs items k :
  has_key call_key k items → has_key output_key k (completed items).
Proof.
  intros (e & He & Hk). pose proof (synthetic_spec items e) as Hsp.
  destruct (synthetic items e) as [o|] eqn:Es.
  - destruct Hsp as (k' & Hk' & _ & Ho & _). exists o. split; [|congruence].
    apply completed_elem. eauto.
  - destruct (Hsp k Hk) as (o & Ho & Hok). exists o. split; [|done]. apply completed_elem. eauto.
Qed.

Lemma orphan_ext items items' e :
  (∀ k, has_key call_key k items ↔ has_key call_key k items') → orphan items e = orphan items' e.
Proof. intros H. apply eq_true_iff_eq. rewrite !orphan_spec. by setoid_rewrite H. Qed.

(** What both passes together leave: the items that are not orphans, each call
    followed by its output when it had none. *)
Definition paired_items (items : list Envelope) : list Envelope :=
  mjoin (with_output items <$> filter (λ e, orphan items e = false) items).

Lemma filter_completed items :
  filter (λ e, orphan (completed items) e = false) (completed items) = paired_items items.
Proof.
  unfold paired_items, completed at 2.
  assert (∀ e, orphan (completed items) e = orphan items e) as Ho.
  { intros e. apply orphan_ext, completed_calls. }
  assert (∀ l, l ⊆ items → filter (λ e, orphan (completed items) e = false) (mjoin (with_output items <$> l))
    = mjoin (with_output items <$> filter (λ e, orphan items e = false) l)) as H; [|by apply H].
  induction l as [|e l IH]; [done|]. intros Hsub. rewrite fmap_cons.
  change (mjoin (with_output items e :: ?x)) with (with_output items e ++ mjoin x).
  rewrite filter_app, IH by (intros x Hx; apply Hsub; by right).
  pose proof (synthetic_spec items e) as Hsp. unfold with_output at 1.
  destruct (orphan items e) eqn:Ee.
  - rewrite filter_cons_False by (rewrite Ho; congruence).
    rewrite (filter_cons_False _ e l) by congruence.
    destruct (synthetic items e) as [o|]; [|done]. exfalso.
    apply orphan_spec in Ee as (k & Hk & _). destruct Hsp as (k' & Hk' & _).
    apply call_not_output in Hk'. congruence.
  - rewrite filter_cons_True by (by rewrite Ho). rewrite (filter_cons_True _ e l) by done.
    rewrite fmap_cons. unfold with_output at 2.
    change (mjoin (?x :: ?y)) with (x ++ mjoin y). f_equal.
    destruct (synthetic items e) as [o|] eqn:Es; [|done]. simpl.
    rewrite filter_cons_True; [done|]. rewrite Ho. apply not_true_iff_false.
    intros (k & Hk & _ & Hn)%orphan_spec. apply Hn. destruct Hsp as (k' & Hk' & _ & Ho' & _).
    exists e. split; [apply Hsub; by left|congruence].
Qed.

Lemma paired_elem items e :
  e ∈ paired_items items ↔ e ∈ completed items ∧ orphan (completed items) e = false.
Proof. rewrite <-filter_completed, list_elem_of_filter. tauto. Qed.

Lemma paired_items_calls items k : has_key call_key k (paired_items items) ↔ has_key call_key k items.
Proof.
  rewrite <-(completed_calls items). split; intros (e & He & Hk).
  - exists e. split; [by apply paired_elem in He as [? _]|done].
  - exists e. split; [|done]. apply paired_elem. split; [done|]. apply not_true_iff_false.
    intros (k' & Ho & _)%orphan_spec. apply call_not_output in Hk. congruence.
Qed.

Lemma paired_items_paired items : paired (paired_items items).
Proof.
  split.
  - intros k Hc. rewrite paired_items_calls in Hc. destruct (completed_outputs _ _ Hc) as (o & Ho & Hk).
    exists o. split; [|done]. apply paired_elem. split; [done|]. apply not_true_iff_false.
    intros (k' & Hk' & _ & Hn)%orphan_spec. apply Hn. rewrite completed_calls.
    by replace k' with k by congruence.
  - intros e k [He Hor]%paired_elem Hk Hs. apply paired_items_calls, completed_calls.
    apply dec_stable. intros Hn. assert (orphan (completed items) e = true); [|congruence].
    apply orphan_spec. eauto.
Qed.
(** * Stripping media *)

(** An item a pass over one medium leaves as it is: no such medium in it, and a
    message has one kind per content item. *)
Definition clean (is_message_media : MessageItem → bool) (is_output_media : ContentItem → bool)
    (clears_images : bool) (i : ResponseItem) : Prop :=
  match i with
  | Message content passthrough _ =>
      Forall (λ c, is_message_media c = false) content
      ∧ ∃ kinds rest, passthrough = Some (mkPass (Some kinds) rest) ∧ length kinds = length content
  | FunctionCallOutput _ _ _ _ output _ | CustomToolCallOutput _ _ _ output _ =>
      match body output with Text _ => True | ContentItems l => Forall (λ c, is_output_media c = false) l end
  | ImageGenerationCall result _ => clears_images = true → result = []
  | _ => True
  end.

Lemma annotate_fst content kinds : (annotate content kinds).*1 = content.
Proof.
  revert kinds. induction content as [|c content IH]; intros [|k kinds]; simpl; [done..| |]; by rewrite IH.
Qed.

Lemma annotate_snd content kinds : length kinds = length content → (annotate content kinds).*2 = kinds.
Proof.
  revert kinds. induction content as [|c content IH]; intros [|k kinds]; simpl; try done.
  intros [= H]. by rewrite IH.
Qed.

Lemma fmap_fix {A} (f : A → A) (P : A → Prop) l : (∀ x, P x → f x = x) → Forall P l → f <$> l = l.
Proof. intros Hf. induction 1 as [|x l Hx _ IH]; [done|]. rewrite fmap_cons. by rewrite Hf, IH. Qed.

Lemma strip_fix u im om ci i : clean im om ci i → strip_item u im om ci i = i.
Proof.
  destruct i as [content p rest| | | |id c n ns [b s] p| |id c n [b s] p| |r rest| | | | | | | | |]; simpl; try done.
  - intros (Hc & kinds & prest & -> & Hk). unfold to_annotated_content. simpl.
    rewrite (fmap_fix _ (λ a, im a.1 = false)); [|unfold strip_message; by intros a ->|].
    + by rewrite annotate_fst, annotate_snd.
    + rewrite <-(annotate_fst content kinds) in Hc.
      by apply Forall_fmap in Hc.
  - unfold strip_output. simpl. destruct b as [|l]; [done|]. intros Hl.
    rewrite (fmap_fix _ (λ c, om c = false)); [done|unfold strip_output_item; by intros ? ->|done].
  - unfold strip_output. simpl. destruct b as [|l]; [done|]. intros Hl.
    rewrite (fmap_fix _ (λ c, om c = false)); [done|unfold strip_output_item; by intros ? ->|done].
  - destruct ci; [|done]. intros H. by rewrite H.
Qed.
Lemma forall_strip_message u im (P : MessageItem → Prop) content kinds :
  (∀ s, P (MsgInputText s)) → Forall (λ c, im c = false → P c) content →
  Forall P (strip_message u im <$> annotate content kinds).*1.
Proof.
  intros Ht Hc. rewrite <-(annotate_fst content kinds) in Hc. rewrite !Forall_fmap in *.
  eapply Forall_impl; [exact Hc|]. intros a Ha. simpl in *. unfold strip_message.
  destruct (im a.1); [apply Ht|by apply Ha].
Qed.

Lemma forall_strip_output u om (P : ContentItem → Prop) l :
  (∀ s, P (InputText s)) → Forall (λ c, om c = false → P c) l → Forall P (strip_output_item u om <$> l).
Proof.
  intros Ht Hc. apply Forall_fmap. eapply Forall_impl; [exact Hc|]. intros c Ha. simpl in *.
  unfold strip_output_item. destruct (om c); [apply Ht|by apply Ha].
Qed.

Lemma set_annotated_lengths u im content p :
  ∃ kinds rest,
    (set_annotated_content (strip_message u im <$> to_annotated_content content p) p).2 = Some (mkPass (Some kinds) rest)
    ∧ length kinds = length (strip_message u im <$> to_annotated_content content p).*1.
Proof. simpl. eexists _, _. split; [done|]. by rewrite !length_fmap. Qed.

Section Clean.
Context (im : MessageItem → bool) (om : ContentItem → bool) (ci : bool).
Hypothesis im_text : ∀ s, im (MsgInputText s) = false.
Hypothesis om_text : ∀ s, om (InputText s) = false.

(** A pass removes its medium. *)
Lemma strip_clean u i : clean im om ci (strip_item u im om ci i).
Proof.
  destruct i as [content p rest| | | |id c n ns [[|l] s] p| |id c n [[|l] s] p| |r rest| | | | | | | | |]; simpl; try done.
  - split; [|apply set_annotated_lengths]. apply forall_strip_message; [done|]. by apply Forall_true.
  - apply forall_strip_output; [done|]. by apply Forall_true.
  - apply forall_strip_output; [done|]. by apply Forall_true.
  - destruct ci; done.
Qed.

(** A pass over one medium does not bring another back. *)
Lemma strip_keeps_clean u im' om' ci' i : clean im om ci i → clean im om ci (strip_item u im' om' ci' i).
Proof.
  destruct i as [content p rest| | | |id c n ns [[|l] s] p| |id c n [[|l] s] p| |r rest| | | | | | | | |]; simpl; try done.
  - intros [Hc _]. split; [|apply set_annotated_lengths]. apply forall_strip_message; [done|].
    eapply Forall_impl; [exact Hc|]. by intros.
  - intros Hc. apply forall_strip_output; [done|]. eapply Forall_impl; [exact Hc|]. by intros.
  - intros Hc. apply forall_strip_output; [done|]. eapply Forall_impl; [exact Hc|]. by intros.
  - intros Hc. by destruct ci'.
Qed.
End Clean.

Definition image_clean : ResponseItem → Prop := clean is_message_image is_output_image true.
Definition audio_clean : ResponseItem → Prop := clean is_message_audio is_output_audio false.

(** Stripping does not touch what pairs calls and outputs. *)
Lemma strip_keys u im om ci i :
  call_key (strip_item u im om ci i) = call_key i ∧ output_key (strip_item u im om ci i) = output_key i
  ∧ server_side (strip_item u im om ci i) = server_side i.
Proof. destruct i; simpl; try done. by destruct ci. Qed.

(** The two passes over the media, as one map. *)
Definition strip_media (mods : list InputModality) (e : Envelope) : Envelope :=
  let e := if bool_decide (ImageModality ∈ mods) then e else on_item strip_image_item e in
  if bool_decide (AudioModality ∈ mods) then e else on_item strip_audio_item e.

Lemma strip_passes mods items :
  strip_audio_when_unsupported mods (strip_images_when_unsupported mods items) = strip_media mods <$> items.
Proof.
  unfold strip_audio_when_unsupported, strip_images_when_unsupported, strip_media.
  repeat case_bool_decide; rewrite <-?list_fmap_compose, ?list_fmap_id; done.
Qed.

Lemma strip_media_keys mods e :
  call_key (item (strip_media mods e)) = call_key (item e)
  ∧ output_key (item (strip_media mods e)) = output_key (item e)
  ∧ server_side (item (strip_media mods e)) = server_side (item e).
Proof.
  unfold strip_media. repeat case_bool_decide; simpl; split_and!; try done;
    unfold strip_audio_item, strip_image_item; repeat (rewrite (proj1 (strip_keys _ _ _ _ _))
      || rewrite (proj1 (proj2 (strip_keys _ _ _ _ _))) || rewrite (proj2 (proj2 (strip_keys _ _ _ _ _)))); done.
Qed.

Lemma strip_media_clean mods e :
  (ImageModality ∉ mods → image_clean (item (strip_media mods e)))
  ∧ (AudioModality ∉ mods → audio_clean (item (strip_media mods e))).
Proof.
  unfold strip_media. split; intros H; rewrite (bool_decide_eq_false_2 _ H); case_bool_decide; simpl;
    try (by apply strip_clean). by apply strip_keeps_clean, strip_clean.
Qed.

Lemma strip_media_fix mods e :
  (ImageModality ∉ mods → image_clean (item e)) → (AudioModality ∉ mods → audio_clean (item e)) →
  strip_media mods e = e.
Proof.
  intros Hi Ha. unfold strip_media, on_item, strip_image_item, strip_audio_item. destruct e as [i m].
  repeat case_bool_decide; simpl in *; [done| | |];
    rewrite ?(strip_fix UNSUPPORTED_IMAGE), ?(strip_fix UNSUPPORTED_AUDIO) by (by apply Hi || by apply Ha); done.
Qed.
Lemma strip_media_has_key mods items k :
  (has_key call_key k (strip_media mods <$> items) ↔ has_key call_key k items)
  ∧ (has_key output_key k (strip_media mods <$> items) ↔ has_key output_key k items).
Proof.
  unfold has_key. setoid_rewrite list_elem_of_fmap. split; split.
  1,3: intros (? & (e & -> & He) & Hk); exists e; split; [done|]; by rewrite <-Hk; symmetry; apply strip_media_keys.
  all: intros (e & He & Hk); exists (strip_media mods e); split; [eauto|]; rewrite <-Hk; apply strip_media_keys.
Qed.

Lemma strip_media_paired mods items : paired items → paired (strip_media mods <$> items).
Proof.
  intros [Hc Ho]. split.
  - intros k. destruct (strip_media_has_key mods items k) as [Hc' Ho']. rewrite Hc', Ho'. apply Hc.
  - intros ? k (e & -> & He)%list_elem_of_fmap. destruct (strip_media_keys mods e) as (_ & -> & ->).
    destruct (strip_media_has_key mods items k) as [Hc' _]. rewrite Hc'. eauto.
Qed.

(** In a paired history nothing is missing and nothing is orphaned, so neither pass
    changes it and neither can panic. *)
Lemma paired_ensure debug items : paired items → ensure_call_outputs_present debug items = Some items.
Proof.
  intros [Hc _]. unfold ensure_call_outputs_present.
  enough (∀ idx l, l ⊆ items → missing_outputs debug (collect_ids function_output_id items)
    (collect_ids tool_search_output_id items) (collect_ids custom_tool_output_id items) idx l = Some []) as ->; [done|done|].
  intros idx l. revert idx. induction l as [|e l IH]; intros idx Hsub; [done|]. simpl.
  rewrite IH by (intros x Hx; apply Hsub; by right).
  assert (∀ k, call_key (item e) = Some k → has_key output_key k items) as Hk.
  { intros k Hk. apply Hc. exists e. split; [apply Hsub; by left|done]. }
  replace (missing_output debug _ _ _ e) with (Some (@None Envelope)); [done|].
  unfold missing_output. destruct (item e) as [| ? [c|] ?|? c ?|? [c|] ?| |? c ?| | | | | | | | | | | |]; try done;
    pose proof (has_output_collect c items) as (H1 & H2 & H3); specialize (Hk _ eq_refl);
    rewrite bool_decide_eq_true_2 by tauto; done.
Qed.

Lemma paired_orphans debug items : paired items → remove_orphan_outputs debug items = Some items.
Proof.
  intros [_ Ho]. unfold remove_orphan_outputs.
  enough (∀ position l, l ⊆ items → orphan_positions debug (collect_ids function_call_id items)
    (collect_ids tool_search_call_id items) (collect_ids custom_tool_call_id items) position l = Some []) as ->;
    [done|done|].
  intros position l. revert position. induction l as [|e l IH]; intros position Hsub; [done|]. cbn [orphan_positions].
  fold (orphan items e). replace (orphan items e) with false.
  - apply IH. intros x Hx. apply Hsub. by right.
  - symmetry. apply not_true_iff_false. intros (k & Hk & Hs & Hn)%orphan_spec. apply Hn.
    eapply Ho; [apply Hsub; by left|done|done].
Qed.

Lemma paired_normalize debug mods items :
  paired items → normalize_history debug mods items = Some (strip_media mods <$> items).
Proof.
  intros Hp. unfold normalize_history. rewrite paired_ensure by done. simpl.
  rewrite paired_orphans by done. simpl. by rewrite strip_passes.
Qed.

Lemma normalize_release mods items :
  normalize_history false mods items = Some (strip_media mods <$> paired_items items).
Proof.
  unfold normalize_history. rewrite ensure_release. simpl. rewrite remove_orphans_release, filter_completed. simpl.
  by rewrite strip_passes.
Qed.
(** * What the model is sent *)

Definition carries_image (i : ResponseItem) : bool :=
  match i with
  | Message content _ _ => existsb is_message_image content
  | FunctionCallOutput _ _ _ _ output _ | CustomToolCallOutput _ _ _ output _ =>
      match body output with Text _ => false | ContentItems l => existsb is_output_image l end
  | ImageGenerationCall result _ => negb (bool_decide (result = []))
  | _ => false
  end.

Definition carries_audio (i : ResponseItem) : bool :=
  match i with
  | Message content _ _ => existsb is_message_audio content
  | FunctionCallOutput _ _ _ _ output _ | CustomToolCallOutput _ _ _ output _ =>
      match body output with Text _ => false | ContentItems l => existsb is_output_audio l end
  | _ => false
  end.

Lemma existsb_Forall {A} (f : A → bool) l : Forall (λ x, f x = false) l → existsb f l = false.
Proof. induction 1 as [|x l Hx _ IH]; [done|]. simpl. by rewrite Hx, IH. Qed.

Lemma image_clean_none i : image_clean i → carries_image i = false.
Proof.
  unfold image_clean. destruct i as [| | | |????[[|l] ?]?| |???[[|l] ?]?| |result ?| | | | | | | | |]; simpl; try done;
    try apply existsb_Forall.
  - intros [Hc _]. by apply existsb_Forall.
  - intros H. by rewrite H.
Qed.

Lemma audio_clean_none i : audio_clean i → carries_audio i = false.
Proof.
  unfold audio_clean. destruct i as [| | | |????[[|l] ?]?| |???[[|l] ?]?| |result ?| | | | | | | | |]; simpl; try done;
    try apply existsb_Forall.
  intros [Hc _]. by apply existsb_Forall.
Qed.

(** C29: Normalising a history always succeeds in a release build.  What it gives is the
    history with the orphaned outputs dropped, each call without an output followed by
    a synthetic one, and the media the model does not take stripped; in it every call
    has an output, every output of a client-side tool has its call, and no message,
    tool output or image generation carries an image (audio) if the model takes no
    images (audio). *)
Theorem normalize_history_paired mods items :
  ∃ r, normalize_history false mods items = Some r
    ∧ r = strip_media mods <$> paired_items items
    ∧ paired r
    ∧ (ImageModality ∉ mods → Forall (λ e, carries_image (item e) = false) r)
    ∧ (AudioModality ∉ mods → Forall (λ e, carries_audio (item e) = false) r).
Proof.
  exists (strip_media mods <$> paired_items items). split_and!; [apply normalize_release|done| | |].
  - apply strip_media_paired, paired_items_paired.
  - intros H. apply Forall_fmap, Forall_true. intros e. by apply image_clean_none, strip_media_clean.
  - intros H. apply Forall_fmap, Forall_true. intros e. by apply audio_clean_none, strip_media_clean.
Qed.

(** Normalisation is idempotent: the prompt of a history is a history that
    normalises to itself, also in a build whose assertions panic on missing and
    orphaned outputs. *)
Theorem normalize_history_idempotent mods items :
  ∃ r, normalize_history false mods items = Some r ∧ ∀ debug, normalize_history debug mods r = Some r.
Proof.
  exists (strip_media mods <$> paired_items items). split; [apply normalize_release|]. intros debug.
  rewrite paired_normalize by apply strip_media_paired, paired_items_paired. f_equal.
  rewrite <-list_fmap_compose. apply list_fmap_ext. intros _ e _. simpl.
  destruct (strip_media_clean mods e). by apply strip_media_fix.
Qed.

(** * Dropping the oldest item *)

Lemma remove_first_ext p q items : (∀ e, e ∈ items → p (item e) = q (item e)) →
  remove_first_matching p items = remove_first_matching q items.
Proof.
  induction items as [|e items IH]; intros H; [done|]. simpl. rewrite <-(H e) by left.
  destruct (p (item e)); [done|]. f_equal. apply IH. intros. apply H. by right.
Qed.

Definition keyed (f : ResponseItem → option (family * str)) (k : family * str) (i : ResponseItem) : bool :=
  bool_decide (f i = Some k).

Lemma remove_first_elem f k items e : NoDup (omap (f ∘ item) items) →
  e ∈ remove_first_matching (keyed f k) items ↔ e ∈ items ∧ f (item e) ≠ Some k.
Proof.
  unfold keyed. induction items as [|e' items IH]; simpl; [set_solver|].
  assert (∀ k', f (item e) = Some k' → e ∈ items → k' ∈ omap (f ∘ item) items) as Hin.
  { intros k' Hk He. apply list_elem_of_omap. by exists e. }
  intros Hnd. destruct (f (item e')) as [k'|] eqn:Ek; simpl in Hnd.
  - apply NoDup_cons in Hnd as [Hk' Hnd]. case_bool_decide as Hd.
    + simplify_eq. rewrite elem_of_cons. split; [|naive_solver]. intros He. split; [by right|]. intros Hk. eauto.
    + rewrite !elem_of_cons, IH by done. naive_solver congruence.
  - rewrite bool_decide_eq_false_2 by done. rewrite !elem_of_cons, IH by done. naive_solver congruence.
Qed.
Lemma keyed_split c i :
  keyed call_key (FunctionFamily, c) i = is_function_call c i || is_local_shell_call c i.
Proof. clear uuid_v5.
  unfold keyed. destruct i as [| ? [d|] ?|? d ?|? [d|] ?| | | | | | | | | | | | | |]; simpl; repeat case_bool_decide; naive_solver.
Qed.

(** The search for a function call and then for a shell call finds the one there is. *)
Lemma remove_function_or_shell c items : NoDup (omap (call_key ∘ item) items) →
  (if existsb (λ e, is_function_call c (item e)) items
   then remove_first_matching (is_function_call c) items
   else remove_first_matching (is_local_shell_call c) items)
  = remove_first_matching (keyed call_key (FunctionFamily, c)) items.
Proof.
  induction items as [|e items IH]; [done|]. intros Hnd. simpl. pose proof (keyed_split c (item e)) as Hk.
  rewrite Hk. destruct (is_function_call c (item e)) eqn:Ef; [done|]. simpl in *.
  destruct (is_local_shell_call c (item e)) eqn:El.
  - replace (existsb _ items) with false; [done|]. symmetry. apply existsb_Forall, Forall_forall. intros e' He'.
    apply not_true_iff_false. intros Hf. pose proof (keyed_split c (item e')) as Hk'. rewrite Hf in Hk'.
    apply bool_decide_eq_true in Hk, Hk'. rewrite Hk in Hnd. apply NoDup_cons in Hnd as [Hn _]. apply Hn.
    apply list_elem_of_omap. by exists e'.
  - rewrite <-IH; [by destruct (existsb _ items)|]. destruct (call_key (item e)); [|done].
    by apply NoDup_cons in Hnd as [_ ?].
Qed.

Lemma remove_corresponding_spec items i : NoDup (omap (call_key ∘ item) items) →
  remove_corresponding_for items i =
  match call_key i, output_key i with
  | Some k, _ => remove_first_matching (keyed output_key k) items
  | None, Some k => remove_first_matching (keyed call_key k) items
  | None, None => items
  end.
Proof.
  intros Hnd. destruct i as [| ? [c|] ?|? c ?|? [c|] ?|? [c|] ????|? c ?|? c ???|? [c|] ????| | | | | | | | | |]; simpl; try done.
  4: by apply remove_function_or_shell.
  all: apply remove_first_ext; intros e _; apply bool_decide_ext; symmetry.
  all: apply output_keys || apply call_keys.
Qed.

Lemma omap_cons_key (f : ResponseItem → option (family * str)) (e : Envelope) l :
  NoDup (omap (f ∘ item) (e :: l)) →
  NoDup (omap (f ∘ item) l) ∧ ∀ k, f (item e) = Some k → ¬ has_key f k l.
Proof.
  simpl. destruct (f (item e)) as [k|]; [|done]. intros [Hn Hnd]%NoDup_cons. split; [done|].
  intros ? [= <-] (e' & He' & Hk'). apply Hn, list_elem_of_omap. by exists e'.
Qed.

(** Dropping the oldest item of a paired history in which no two calls and no two
    outputs share a call id leaves a paired history: a call goes with its output and
    an output with its call. *)
Theorem remove_first_keeps_pairs items :
  paired items → NoDup (omap (call_key ∘ item) items) → NoDup (omap (output_key ∘ item) items) →
  paired (remove_first_item items).
Proof.
  destruct items as [|e items]; [done|]. intros [Hc Ho] [Hnc Huc]%omap_cons_key [Hno Huo]%omap_cons_key. simpl.
  assert (∀ f k, has_key f k (e :: items) ↔ f (item e) = Some k ∨ has_key f k items) as Hcons.
  { intros f k. unfold has_key. setoid_rewrite elem_of_cons. naive_solver. }
  setoid_rewrite Hcons in Hc. setoid_rewrite Hcons in Ho.
  rewrite remove_corresponding_spec by done.
  destruct (call_key (item e)) as [k|] eqn:Ek; [|destruct (output_key (item e)) as [k|] eqn:Eo].
  - pose proof (call_not_output _ _ Ek) as Eo.
    assert (∀ e', e' ∈ remove_first_matching (keyed output_key k) items ↔ e' ∈ items ∧ output_key (item e') ≠ Some k)
      as Hr by (intros; by apply remove_first_elem). split.
    + intros k' (c & [Hci _]%Hr & Hk'). assert (has_key call_key k' items) as Hck by (by exists c).
      destruct (Hc k') as [?|(o & Hoi & Hok)]; [by right|congruence|]. exists o. split; [|done].
      apply Hr. split; [done|]. intros Hok'. apply (Huc k eq_refl). naive_solver congruence.
    + intros o k' [Hoi Hok]%Hr Hk' Hs. destruct (Ho o k') as [?|(c & Hci & Hck)]; [by right|done|done|congruence|].
      exists c. split; [|done]. apply Hr. split; [done|]. by rewrite (call_not_output _ _ Hck).
  - assert (∀ e', e' ∈ remove_first_matching (keyed call_key k) items ↔ e' ∈ items ∧ call_key (item e') ≠ Some k)
      as Hr by (intros; by apply remove_first_elem). split.
    + intros k' (c & [Hci Hck]%Hr & Hk'). destruct (Hc k') as [?|(o & Hoi & Hok)]; [right; by exists c|congruence|].
      exists o. split; [|done]. apply Hr. split; [done|]. intros Hoc%call_not_output. congruence.
    + intros o k' [Hoi _]%Hr Hk' Hs. destruct (Ho o k') as [?|(c & Hci & Hck)]; [by right|done|done|congruence|].
      exists c. split; [|done]. apply Hr. split; [done|]. intros Hck'. apply (Huo k eq_refl). exists o.
      split; [done|congruence].
  - split; [intros k Hk; destruct (Hc k); naive_solver|].
    intros e' k He' Hk Hs. destruct (Ho e' k); [by right|done|done|naive_solver|done].
Qed.
End History.

(** A shell call and its output, then a custom call whose output is synthetic. *)
Lemma remove_first_keeps_pairs_witness :
  let e i := mkEnvelope (X := unit) i None in
  let items := paired_items (λ s, s)
    [e (LocalShellCall None (Some (lit "a")) ()); e (CustomToolCall (Some (lit "i")) (lit "b") ());
     e (FunctionCallOutput None (Some (lit "a")) None None (from_text (lit "ok")) None)] in
  length items = 4 ∧ length (remove_first_item items) = 2 ∧ paired (remove_first_item items).
Proof.
  intros e items. split; [by vm_compute|]. split; [by vm_compute|]. apply remove_first_keeps_pairs.
  - exact (paired_items_paired (λ s, s) _).
  - refine (bool_decide_unpack _ _); by vm_compute.
  - refine (bool_decide_unpack _ _); by vm_compute.
Defined.
