(* ===== verification/IpAddr.v ===== *)
(** std::net as network-proxy uses it (parsing of address literals, the standard
    classifications), and the address classes of network-proxy/src/policy.rs.

    The parser's position is the rest of the text.  It reads bytes; every character it
    accepts is ASCII, so reading characters is the same. *)
From S2P Require Import Prelude Str.

(** * Addresses *)

(** [Ipv4Addr]: four octets. *)
Record Ipv4Addr := mkV4 { oct0 : N; oct1 : N; oct2 : N; oct3 : N }.
#[global] Instance Ipv4Addr_eq_dec : EqDecision Ipv4Addr.
Proof. solve_decision. Defined.

(** [Ipv6Addr]: eight segments. *)
Record Ipv6Addr := mkV6 { seg0 : N; seg1 : N; seg2 : N; seg3 : N; seg4 : N; seg5 : N; seg6 : N; seg7 : N }.
#[global] Instance Ipv6Addr_eq_dec : EqDecision Ipv6Addr.
Proof. solve_decision. Defined.

Inductive IpAddr := V4 (ip : Ipv4Addr) | V6 (ip : Ipv6Addr).
#[global] Instance IpAddr_eq_dec : EqDecision IpAddr.
Proof. solve_decision. Defined.

(** [u32::from] *)
Definition u32_of (ip : Ipv4Addr) : N := (oct0 ip * 16777216 + oct1 ip * 65536 + oct2 ip * 256 + oct3 ip)%N.

Definition v4_wf (ip : Ipv4Addr) : Prop := (oct0 ip < 256 ∧ oct1 ip < 256 ∧ oct2 ip < 256 ∧ oct3 ip < 256)%N.

(** * The address parser of the standard library *)

(** [char::to_digit] for radix 10 and 16 *)
Definition to_digit (radix c : N) : option N :=
  let d := if is_ascii_digit c then Some (c - 48)%N
           else if is_ascii_alphabetic c then Some (ascii_lower c - 87)%N
           else None in
  match d with Some d => if (d <? radix)%N then Some d else None | None => None end.

(** The digits of [read_number]: [None] when there are more than [max_digits]. *)
Fixpoint read_digits (radix : N) (max_digits : nat) (result : N) (digit_count : nat) (p : str)
    : option (N * nat * str) :=
  match p with
  | c :: p' =>
      match to_digit radix c with
      | Some digit =>
          if max_digits <? S digit_count then None
          else read_digits radix max_digits (result * radix + digit)%N (S digit_count) p'
      | None => Some (result, digit_count, p)
      end
  | [] => Some (result, digit_count, p)
  end.

(** [read_number] into an integer type of maximum [max]. *)
Definition read_number (radix : N) (max_digits : nat) (allow_zero_prefix : bool) (max : N) (p : str)
    : option (N * str) :=
  let has_leading_zero := bool_decide (head p = Some 48%N) in
  match read_digits radix max_digits 0 0 p with
  | Some (result, digit_count, p) =>
      if digit_count =? 0 then None
      else if negb allow_zero_prefix && has_leading_zero && (1 <? digit_count) then None
      else if (result <=? max)%N then Some (result, p) else None
  | None => None
  end.

Definition read_given_char (c : N) (p : str) : option str :=
  match p with d :: p => if N.eqb d c then Some p else None | [] => None end.

Definition read_separator {A} (sep : N) (index : nat) (inner : str → option (A * str)) (p : str)
    : option (A * str) :=
  if 0 <? index then p ← read_given_char sep p; inner p else inner p.

Definition read_octet (i : nat) (p : str) : option (N * str) :=
  read_separator 46 i (read_number 10 3 false 255) p.

Definition read_ipv4_addr (p : str) : option (Ipv4Addr * str) :=
  '(a, p) ← read_octet 0 p;
  '(b, p) ← read_octet 1 p;
  '(c, p) ← read_octet 2 p;
  '(d, p) ← read_octet 3 p;
  Some (mkV4 a b c d, p).

(** [read_groups]: the groups read, whether they end in an embedded IPv4 address,
    and the rest; [left] counts the slots left of [limit]. *)
Fixpoint read_groups (left_slots i limit : nat) (groups : list N) (p : str) : list N * bool * str :=
  match left_slots with
  | 0 => (groups, false, p)
  | S left_slots =>
      match (if i <? limit - 1 then read_separator 58 i read_ipv4_addr p else None) with
      | Some (v4, p) => (groups ++ [oct0 v4 * 256 + oct1 v4; oct2 v4 * 256 + oct3 v4]%N, true, p)
      | None =>
          match read_separator 58 i (read_number 16 4 true 65535) p with
          | Some (g, p) => read_groups left_slots (S i) limit (groups ++ [g]) p
          | None => (groups, false, p)
          end
      end
  end.

Definition segments_of (l : list N) : Ipv6Addr :=
  let s i := nth i l 0%N in mkV6 (s 0) (s 1) (s 2) (s 3) (s 4) (s 5) (s 6) (s 7).

Definition read_ipv6_addr (p : str) : option (Ipv6Addr * str) :=
  let '(head, head_ipv4, p) := read_groups 8 0 8 [] p in
  if length head =? 8 then Some (segments_of head, p)
  else if head_ipv4 then None
  else
    p ← read_given_char 58 p;
    p ← read_given_char 58 p;
    let limit := 8 - (length head + 1) in
    let '(tail, _, p) := read_groups limit 0 limit [] p in
    Some (segments_of (head ++ replicate (8 - length head - length tail) 0%N ++ tail), p).

(** [parse_with]: the whole text is read. *)
Definition parse_with {A} (inner : str → option (A * str)) (s : str) : option A :=
  match inner s with Some (a, []) => Some a | _ => None end.

Definition read_ip_addr (p : str) : option (IpAddr * str) :=
  match read_ipv4_addr p with
  | Some (ip, p) => Some (V4 ip, p)
  | None => match read_ipv6_addr p with Some (ip, p) => Some (V6 ip, p) | None => None end
  end.

(** [str::parse::<IpAddr>] and [str::parse::<Ipv6Addr>] *)
Definition parse_ip (s : str) : option IpAddr := parse_with read_ip_addr s.
Definition parse_ipv6 (s : str) : option Ipv6Addr := parse_with read_ipv6_addr s.

Definition is_ip (s : str) : bool := match parse_ip s with Some _ => true | None => false end.
Definition is_ipv6 (s : str) : bool := match parse_ipv6 s with Some _ => true | None => false end.

Example parse_v4 : parse_ip (lit "127.0.0.1") = Some (V4 (mkV4 127 0 0 1)).
Proof. by vm_compute. Qed.
Example parse_v4_octal : parse_ip (lit "127.0.0.01") = None.
Proof. by vm_compute. Qed.
Example parse_v6_mapped : parse_ip (lit "::ffff:10.0.0.1") = Some (V6 (mkV6 0 0 0 0 0 65535 2560 1)).
Proof. by vm_compute. Qed.
Example parse_v6_middle : parse_ip (lit "fe80::1:2") = Some (V6 (mkV6 65152 0 0 0 0 0 1 2)).
Proof. by vm_compute. Qed.
Example parse_v6_full : parse_ip (lit "1:2:3:4:5:6:7:8") = Some (V6 (mkV6 1 2 3 4 5 6 7 8)).
Proof. by vm_compute. Qed.
Example parse_v6_too_long : parse_ip (lit "1:2:3:4:5:6:7:8::") = None.
Proof. by vm_compute. Qed.

(** * Classification in the standard library *)

Local Open Scope N_scope.

Definition is_loopback4 (ip : Ipv4Addr) : bool := oct0 ip =? 127.
Definition is_private (ip : Ipv4Addr) : bool :=
  (oct0 ip =? 10) || ((oct0 ip =? 172) && (16 <=? oct1 ip) && (oct1 ip <=? 31))
  || ((oct0 ip =? 192) && (oct1 ip =? 168)).
Definition is_link_local (ip : Ipv4Addr) : bool := (oct0 ip =? 169) && (oct1 ip =? 254).
Definition is_unspecified4 (ip : Ipv4Addr) : bool := u32_of ip =? 0.
Definition is_multicast4 (ip : Ipv4Addr) : bool := (224 <=? oct0 ip) && (oct0 ip <=? 239).
Definition is_broadcast (ip : Ipv4Addr) : bool := u32_of ip =? 4294967295.

Definition LOCALHOST4 : Ipv4Addr := mkV4 127 0 0 1.
Definition LOCALHOST6 : Ipv6Addr := mkV6 0 0 0 0 0 0 0 1.
Definition UNSPECIFIED6 : Ipv6Addr := mkV6 0 0 0 0 0 0 0 0.
Definition is_loopback6 (ip : Ipv6Addr) : bool := bool_decide (ip = LOCALHOST6).
Definition is_unspecified6 (ip : Ipv6Addr) : bool := bool_decide (ip = UNSPECIFIED6).
Definition is_multicast6 (ip : Ipv6Addr) : bool := N.shiftr (seg0 ip) 8 =? 255.
Definition is_unique_local (ip : Ipv6Addr) : bool := N.land (seg0 ip) 0xfe00 =? 0xfc00.
Definition is_unicast_link_local (ip : Ipv6Addr) : bool := N.land (seg0 ip) 0xffc0 =? 0xfe80.

Definition is_loopback (ip : IpAddr) : bool :=
  match ip with V4 ip => is_loopback4 ip | V6 ip => is_loopback6 ip end.

(** [Ipv6Addr::to_ipv4]: IPv4-compatible and IPv4-mapped addresses. *)
Definition to_ipv4 (ip : Ipv6Addr) : option Ipv4Addr :=
  match ip with
  | mkV6 0 0 0 0 0 s ab cd =>
      if (s =? 0) || (s =? 0xffff)
      then Some (mkV4 (N.shiftr ab 8) (N.land ab 255) (N.shiftr cd 8) (N.land cd 255))
      else None
  | _ => None
  end.

(** * policy.rs *)

Definition u32_max : N := 4294967295.

Definition ipv4_in_cidr (ip base : Ipv4Addr) (prefix : N) : bool :=
  let ip := u32_of ip in
  let base := u32_of base in
  let mask := if prefix =? 0 then 0 else N.land (N.shiftl u32_max (32 - prefix)) u32_max in
  N.land ip mask =? N.land base mask.

Definition is_non_public_ipv4 (ip : Ipv4Addr) : bool :=
  is_loopback4 ip || is_private ip || is_link_local ip || is_unspecified4 ip || is_multicast4 ip || is_broadcast ip
  || ipv4_in_cidr ip (mkV4 0 0 0 0) 8
  || ipv4_in_cidr ip (mkV4 100 64 0 0) 10
  || ipv4_in_cidr ip (mkV4 192 0 0 0) 24
  || ipv4_in_cidr ip (mkV4 192 0 2 0) 24
  || ipv4_in_cidr ip (mkV4 198 18 0 0) 15
  || ipv4_in_cidr ip (mkV4 198 51 100 0) 24
  || ipv4_in_cidr ip (mkV4 203 0 113 0) 24
  || ipv4_in_cidr ip (mkV4 240 0 0 0) 4.

Definition is_non_public_ipv6 (ip : Ipv6Addr) : bool :=
  match to_ipv4 ip with
  | Some v4 => is_non_public_ipv4 v4 || is_loopback6 ip
  | None =>
      is_loopback6 ip || is_unspecified6 ip || is_multicast6 ip || is_unique_local ip || is_unicast_link_local ip
  end.

Definition is_non_public_ip (ip : IpAddr) : bool :=
  match ip with V4 ip => is_non_public_ipv4 ip | V6 ip => is_non_public_ipv6 ip end.

Definition is_private_network_ip4 (ip : Ipv4Addr) : bool :=
  is_private ip || ipv4_in_cidr ip (mkV4 100 64 0 0) 10.

Definition is_private_network_ip (ip : IpAddr) : bool :=
  match ip with
  | V4 ip => is_private_network_ip4 ip
  | V6 ip => match to_ipv4 ip with Some ip => is_private_network_ip4 ip | None => is_unique_local ip end
  end.

(** * The classes as ranges *)

(** The shifted mask keeps the bits from [k] on. *)
Lemma land_mask n x k : x < 2 ^ n →
  N.land x (N.land (N.shiftl (N.ones n) k) (N.ones n)) = N.shiftl (N.shiftr x k) k.
Proof.
  intros Hx. apply N.bits_inj. intros i. rewrite !N.land_spec.
  destruct (decide (i < k)) as [Hi|Hi].
  { rewrite !N.shiftl_spec_low by done. by rewrite andb_false_r. }
  rewrite !N.shiftl_spec_high', N.shiftr_spec' by lia. replace (i - k + k) with i by lia.
  destruct (decide (i < n)) as [Hn|Hn].
  - rewrite (N.ones_spec_low n (i - k)), (N.ones_spec_low n i) by lia. by rewrite !andb_true_r.
  - rewrite (N.ones_spec_high n i), !andb_false_r by lia. symmetry.
    destruct (decide (x = 0)) as [->|]; [apply N.bits_0|]. apply N.bits_above_log2.
    apply N.log2_lt_pow2; [lia|]. eapply N.lt_le_trans; [exact Hx|]. apply N.pow_le_mono_r; lia.
Qed.

Lemma div_block k x b : k ≠ 0 → b mod k = 0 → x / k = b / k ↔ b <= x < b + k.
Proof.
  intros Hk Hb. pose proof (N.div_mod b k Hk) as Eb. pose proof (N.div_mod x k Hk) as Ex.
  pose proof (N.mod_lt x k Hk) as Hr. rewrite Hb in Eb. clear Hb. revert Eb Ex Hr.
  generalize (x / k) (b / k) (x mod k). intros q q' r -> -> Hr. split; [intros ->; lia|]. intros Hx.
  assert (q = q' ∨ q + 1 <= q' ∨ q' + 1 <= q) as [?|[?|?]] by lia; [done|nia|nia].
Qed.

(** Equal leading bits: the block of [b]. *)
Lemma land_block n x b k : x < 2 ^ n → b < 2 ^ n → b mod 2 ^ k = 0 →
  let mask := N.land (N.shiftl (N.ones n) k) (N.ones n) in
  (N.land x mask =? N.land b mask) = (b <=? x) && (x <? b + 2 ^ k).
Proof.
  intros Hx Hb Hm mask. unfold mask. rewrite !land_mask by done. apply eq_true_iff_eq.
  rewrite andb_true_iff, N.eqb_eq, N.leb_le, N.ltb_lt.
  assert (2 ^ k ≠ 0) as Hk by (by apply N.pow_nonzero). rewrite <-div_block by done.
  rewrite !N.shiftl_mul_pow2, !N.shiftr_div_pow2. split; [|by intros ->].
  intros E. by apply N.mul_cancel_r in E.
Qed.

Definition in_block (x b prefix : N) : bool := (b <=? x) && (x <? b + 2 ^ (32 - prefix)).

Lemma u32_of_bound ip : v4_wf ip → u32_of ip < 2 ^ 32.
Proof. unfold v4_wf, u32_of. change (2 ^ 32) with 4294967296. lia. Qed.

Lemma cidr_block ip base prefix :
  v4_wf ip → v4_wf base → 1 <= prefix <= 32 → u32_of base mod 2 ^ (32 - prefix) = 0 →
  ipv4_in_cidr ip base prefix = in_block (u32_of ip) (u32_of base) prefix.
Proof.
  intros Hi Hb Hp Hm. unfold ipv4_in_cidr, in_block. destruct (N.eqb_spec prefix 0); [lia|].
  apply (land_block 32); [by apply u32_of_bound..|done].
Qed.

(** The blocks of IPv4 addresses that are not public. *)
Definition non_public_blocks : list (Ipv4Addr * N) :=
  [(mkV4 0 0 0 0, 8); (mkV4 10 0 0 0, 8); (mkV4 100 64 0 0, 10); (mkV4 127 0 0 0, 8); (mkV4 169 254 0 0, 16);
   (mkV4 172 16 0 0, 12); (mkV4 192 0 0 0, 24); (mkV4 192 0 2 0, 24); (mkV4 192 168 0 0, 16);
   (mkV4 198 18 0 0, 15); (mkV4 198 51 100 0, 24); (mkV4 203 0 113 0, 24); (mkV4 224 0 0 0, 3)].

Definition non_public_v4 (ip : Ipv4Addr) : bool :=
  existsb (λ '(base, prefix), in_block (u32_of ip) (u32_of base) prefix) non_public_blocks.

Ltac bool_lia :=
  apply eq_true_iff_eq; rewrite ?orb_true_iff, ?andb_true_iff, ?N.eqb_eq, ?N.leb_le, ?N.ltb_lt; lia.

(** A block fixes the leading octets. *)
Lemma block_octets ip : v4_wf ip →
  (∀ a, in_block (u32_of ip) (u32_of (mkV4 a 0 0 0)) 8 = (oct0 ip =? a))
  ∧ (∀ a b, b < 256 → in_block (u32_of ip) (u32_of (mkV4 a b 0 0)) 16 = (oct0 ip =? a) && (oct1 ip =? b))
  ∧ (∀ a b c, b < 256 → c < 256 → in_block (u32_of ip) (u32_of (mkV4 a b c 0)) 24
       = (oct0 ip =? a) && (oct1 ip =? b) && (oct2 ip =? c)).
Proof.
  destruct ip as [w x y z]. unfold v4_wf, in_block, u32_of. cbn [oct0 oct1 oct2 oct3]. intros Hwf.
  change (2 ^ (32 - 8)) with 16777216. change (2 ^ (32 - 16)) with 65536. change (2 ^ (32 - 24)) with 256.
  split_and!; intros; bool_lia.
Qed.

Lemma block_octets_part ip : v4_wf ip →
  in_block (u32_of ip) (u32_of (mkV4 100 64 0 0)) 10 = (oct0 ip =? 100) && (64 <=? oct1 ip) && (oct1 ip <? 128)
  ∧ in_block (u32_of ip) (u32_of (mkV4 172 16 0 0)) 12 = (oct0 ip =? 172) && (16 <=? oct1 ip) && (oct1 ip <=? 31)
  ∧ in_block (u32_of ip) (u32_of (mkV4 198 18 0 0)) 15 = (oct0 ip =? 198) && (18 <=? oct1 ip) && (oct1 ip <=? 19)
  ∧ in_block (u32_of ip) (u32_of (mkV4 240 0 0 0)) 4 = (240 <=? oct0 ip)
  ∧ in_block (u32_of ip) (u32_of (mkV4 224 0 0 0)) 3 = (224 <=? oct0 ip).
Proof.
  destruct ip as [w x y z]. unfold v4_wf, in_block, u32_of. cbn [oct0 oct1 oct2 oct3]. intros Hwf.
  change (2 ^ (32 - 10)) with 4194304. change (2 ^ (32 - 12)) with 1048576. change (2 ^ (32 - 15)) with 131072.
  change (2 ^ (32 - 4)) with 268435456. change (2 ^ (32 - 3)) with 536870912. split_and!; bool_lia.
Qed.

Lemma non_public_v4_correct ip : v4_wf ip → is_non_public_ipv4 ip = non_public_v4 ip.
Proof.
  intros Hwf. unfold is_non_public_ipv4.
  rewrite !cidr_block by (try done; vm_compute; repeat split; done).
  unfold non_public_v4, non_public_blocks, existsb.
  destruct (block_octets ip Hwf) as (H8 & H16 & H24).
  destruct (block_octets_part ip Hwf) as (-> & -> & -> & -> & ->).
  rewrite !H8, !H16, !H24 by done. clear H8 H16 H24.
  assert (is_unspecified4 ip = true → (oct0 ip =? 0) = true) as Hu.
  { unfold is_unspecified4, u32_of. rewrite !N.eqb_eq. lia. }
  assert (is_broadcast ip = true → (240 <=? oct0 ip) = true) as Hb.
  { unfold is_broadcast, u32_of, v4_wf in *. rewrite N.eqb_eq, N.leb_le. lia. }
  assert ((224 <=? oct0 ip) = is_multicast4 ip || (240 <=? oct0 ip)) as ->.
  { unfold is_multicast4. bool_lia. }
  unfold is_loopback4, is_private, is_link_local.
  destruct (is_unspecified4 ip); [rewrite (Hu eq_refl)|]; destruct (is_broadcast ip); try rewrite (Hb eq_refl).
  all: rewrite ?orb_false_r, ?orb_true_r; try done; apply eq_true_iff_eq;
    rewrite ?orb_true_iff; tauto.
Qed.

(** The ranges of IPv6 addresses that are not public, beyond those that embed an IPv4
    address (compatible or mapped). *)
Definition embeds_v4 (ip : Ipv6Addr) : bool :=
  (seg0 ip =? 0) && (seg1 ip =? 0) && (seg2 ip =? 0) && (seg3 ip =? 0) && (seg4 ip =? 0)
  && ((seg5 ip =? 0) || (seg5 ip =? 65535)).
Definition embedded_v4 (ip : Ipv6Addr) : Ipv4Addr :=
  mkV4 (seg6 ip / 256) (seg6 ip mod 256) (seg7 ip / 256) (seg7 ip mod 256).

Definition non_public_v6 (ip : Ipv6Addr) : bool :=
  if embeds_v4 ip then non_public_v4 (embedded_v4 ip)
  else ((0xfc00 <=? seg0 ip) && (seg0 ip <=? 0xfdff)) || ((0xfe80 <=? seg0 ip) && (seg0 ip <=? 0xfebf))
       || (0xff00 <=? seg0 ip).

Definition v6_wf (ip : Ipv6Addr) : Prop := seg0 ip < 65536 ∧ seg6 ip < 65536 ∧ seg7 ip < 65536.

Lemma to_ipv4_embedded ip : to_ipv4 ip = if embeds_v4 ip then Some (embedded_v4 ip) else None.
Proof.
  unfold embedded_v4, embeds_v4. destruct ip as [[|?] [|?] [|?] [|?] [|?] s ab cd]; try done.
  cbn [to_ipv4 seg0 seg1 seg2 seg3 seg4 seg5 seg6 seg7 N.eqb andb].
  destruct ((s =? 0) || (s =? 65535)); [|done]. change 255 with (N.ones 8).
  by rewrite !N.shiftr_div_pow2, !N.land_ones.
Qed.

Lemma non_public_v6_correct ip : v6_wf ip → is_non_public_ipv6 ip = non_public_v6 ip.
Proof.
  intros (H0 & H6 & H7). unfold is_non_public_ipv6, non_public_v6. rewrite to_ipv4_embedded.
  destruct (embeds_v4 ip) eqn:E.
  - rewrite non_public_v4_correct.
    + unfold is_loopback6. case_bool_decide as Hl; [by subst ip|]. by rewrite orb_false_r.
    + unfold v4_wf, embedded_v4. cbn [oct0 oct1 oct2 oct3].
      split_and!; try (by apply N.mod_lt); by apply N.div_lt_upper_bound.
  - assert (is_loopback6 ip = false ∧ is_unspecified6 ip = false) as [-> ->].
    { unfold is_loopback6, is_unspecified6. split; case_bool_decide; [by subst ip|done|by subst ip|done]. }
    unfold is_multicast6, is_unique_local, is_unicast_link_local.
    pose proof (land_block 16 (seg0 ip) 0xfc00 9 H0 eq_refl eq_refl) as Hu. cbv zeta in Hu.
    pose proof (land_block 16 (seg0 ip) 0xfe80 6 H0 eq_refl eq_refl) as Hl. cbv zeta in Hl.
    change (N.land (N.shiftl (N.ones 16) 9) (N.ones 16)) with 0xfe00 in Hu.
    change (N.land (N.shiftl (N.ones 16) 6) (N.ones 16)) with 0xffc0 in Hl.
    change (N.land 0xfc00 0xfe00) with 0xfc00 in Hu. change (N.land 0xfe80 0xffc0) with 0xfe80 in Hl.
    rewrite Hu, Hl. assert ((N.shiftr (seg0 ip) 8 =? 255) = (0xff00 <=? seg0 ip)) as ->.
    { apply eq_true_iff_eq. rewrite N.eqb_eq, N.leb_le, N.shiftr_div_pow2. change 255 with (0xff00 / 2 ^ 8).
      rewrite div_block by done. change (0xff00 + 2 ^ 8) with 65536. lia. }
    change (0xfc00 + 2 ^ 9) with 0xfe00. change (0xfe80 + 2 ^ 6) with 0xfec0. cbn [orb].
    apply eq_true_iff_eq. rewrite !orb_true_iff, !andb_true_iff, !N.leb_le, !N.ltb_lt. lia.
Qed.

(** * What the parser yields *)

Definition ip_wf (ip : IpAddr) : Prop := match ip with V4 ip => v4_wf ip | V6 ip => v6_wf ip end.
Definition non_public (ip : IpAddr) : bool := match ip with V4 ip => non_public_v4 ip | V6 ip => non_public_v6 ip end.

Lemma non_public_correct ip : ip_wf ip → is_non_public_ip ip = non_public ip.
Proof. destruct ip; [apply non_public_v4_correct|apply non_public_v6_correct]. Qed.

Lemma read_separator_inner {A} sep i (inner : str → option (A * str)) p r :
  read_separator sep i inner p = Some r → ∃ p', inner p' = Some r.
Proof.
  unfold read_separator. destruct (0 <? i)%nat; [|eauto]. destruct (read_given_char sep p); [|done]. simpl. eauto.
Qed.

Lemma read_number_max radix digits z max p n p' : read_number radix digits z max p = Some (n, p') → n <= max.
Proof.
  unfold read_number. destruct (read_digits _ _ _ _ _) as [[[m c] q]|]; [|done].
  repeat case_match; intros [= <- <-] || intros ?; try done. by apply N.leb_le.
Qed.

Lemma read_octet_max i p n p' : read_octet i p = Some (n, p') → n < 256.
Proof. intros (q & Hq)%read_separator_inner. apply read_number_max in Hq. lia. Qed.

Lemma read_ipv4_wf p ip p' : read_ipv4_addr p = Some (ip, p') → v4_wf ip.
Proof.
  unfold read_ipv4_addr. destruct (read_octet 0 p) as [[a p0]|] eqn:E0; [|done]. simpl.
  destruct (read_octet 1 p0) as [[b p1]|] eqn:E1; [|done]. simpl.
  destruct (read_octet 2 p1) as [[c p2]|] eqn:E2; [|done]. simpl.
  destruct (read_octet 3 p2) as [[d p3]|] eqn:E3; [|done]. simpl. intros [= <- <-].
  split_and!; simpl; by eapply read_octet_max.
Qed.

Lemma read_groups_wf left_slots i limit groups p r b p' :
  Forall (λ g, g < 65536) groups → read_groups left_slots i limit groups p = (r, b, p') → Forall (λ g, g < 65536) r.
Proof.
  revert i groups p. induction left_slots as [|n IH]; intros i groups p Hg; cbn [read_groups]; [by intros [= <- _ _]|].
  destruct (if (i <? limit - 1)%nat then read_separator 58 i read_ipv4_addr p else None) as [[v4 q]|] eqn:E4.
  - intros [= <- _ _]. destruct (i <? limit - 1)%nat; [|done].
    apply read_separator_inner in E4 as (q' & E4). apply read_ipv4_wf in E4 as (H0 & H1 & H2 & H3).
    apply Forall_app. split; [done|]. repeat constructor; lia.
  - destruct (read_separator 58 i (read_number 16 4 true 65535) p) as [[g q]|] eqn:Eg; [|by intros [= <- _ _]].
    apply IH, Forall_app. split; [done|]. apply read_separator_inner in Eg as (q' & Eg).
    apply read_number_max in Eg. repeat constructor. lia.
Qed.

Lemma segments_of_wf l : Forall (λ g, g < 65536) l → v6_wf (segments_of l).
Proof.
  intros H. assert (∀ i, nth i l 0 < 65536) as Hn.
  { intros i. destruct (Nat.lt_ge_cases i (length l)); [|by rewrite nth_overflow].
    eapply Forall_forall in H; [exact H|]. by apply list_elem_of_In, nth_In. }
  by split_and!; apply Hn.
Qed.

Lemma read_ipv6_wf p ip p' : read_ipv6_addr p = Some (ip, p') → v6_wf ip.
Proof.
  unfold read_ipv6_addr. destruct (read_groups 8 0 8 [] p) as [[hd b] q] eqn:Eh.
  apply read_groups_wf in Eh; [|done].
  destruct (length hd =? 8)%nat; [intros [= <- _]; by apply segments_of_wf|]. destruct b; [done|].
  destruct (read_given_char 58 q) as [q1|]; [|done]. simpl.
  destruct (read_given_char 58 q1) as [q2|]; [|done]. simpl.
  destruct (read_groups _ _ _ _ q2) as [[tl b'] q3] eqn:Et. apply read_groups_wf in Et; [|done].
  intros [= <- _]. apply segments_of_wf. rewrite !Forall_app. split_and!; [done| |done]. by apply Forall_replicate.
Qed.

Lemma parse_ip_wf s ip : parse_ip s = Some ip → ip_wf ip.
Proof.
  unfold parse_ip, parse_with, read_ip_addr.
  destruct (read_ipv4_addr s) as [[v4 [|]]|] eqn:E4; try done; [intros [= <-]; by eapply read_ipv4_wf|].
  destruct (read_ipv6_addr s) as [[v6 [|]]|] eqn:E6; try done. intros [= <-]. by eapply read_ipv6_wf.
Qed.

(** The classification of address literals for the protection of local networks is
    exact: an address read from a text is non-public if and only if it is in one of
    the listed IPv4 blocks, embeds such an address (compatible or mapped), or is in
    fc00::/7, fe80::/10 or ff00::/8. *)
Theorem non_public_literals (s : str) (ip : IpAddr) :
  parse_ip s = Some ip → is_non_public_ip ip = non_public ip.
Proof. intros H. by apply non_public_correct, (parse_ip_wf s). Qed.

Lemma non_public_literals_witness :
  parse_ip (lit "::ffff:169.254.169.254") = Some (V6 (mkV6 0 0 0 0 0 65535 43518 43518))
  ∧ is_non_public_ip (V6 (mkV6 0 0 0 0 0 65535 43518 43518)) = true.
Proof.
  split; [by vm_compute|].
  rewrite (non_public_literals (lit "::ffff:169.254.169.254")); by vm_compute.
Defined.

(** * IPv4 addresses as text *)

(** [Display] of an octet and of an [Ipv4Addr] *)
Definition show_octet (n : N) : str :=
  if n <? 10 then [48 + n]
  else if n <? 100 then [48 + n / 10; 48 + n mod 10]
  else [48 + n / 100; 48 + n / 10 mod 10; 48 + n mod 10].

Definition show_v4 (ip : Ipv4Addr) : str :=
  show_octet (oct0 ip) ++ 46 :: show_octet (oct1 ip) ++ 46 :: show_octet (oct2 ip) ++ 46 :: show_octet (oct3 ip).

(** What follows a number does not change how it is read, unless it is a digit. *)
Lemma read_digits_app radix m r c p rest :
  (∀ d, head rest = Some d → to_digit radix d = None) → Forall (λ d, to_digit radix d ≠ None) p →
  read_digits radix m r c (p ++ rest) = match read_digits radix m r c p with
                                        | Some (r, c, _) => Some (r, c, rest)
                                        | None => None
                                        end.
Proof.
  intros Hrest Hp. revert r c. induction Hp as [|d p Hd _ IH]; intros r c; simpl.
  - destruct rest as [|d rest]; [done|]. simpl. by rewrite Hrest.
  - destruct (to_digit radix d); [|done]. destruct (m <? S c)%nat; [done|]. apply IH.
Qed.

Lemma below_256 (P : N → Prop) : (∀ i, (i < 256)%nat → P (N.of_nat i)) → ∀ n, n < 256 → P n.
Proof. intros H n Hn. rewrite <-(N2Nat.id n). apply H. lia. Qed.

Definition octet_ok (n : N) : bool :=
  forallb (λ d, is_ascii_digit d) (show_octet n) && bool_decide (show_octet n ≠ [])
  && bool_decide (read_number 10 3 false 255 (show_octet n) = Some (n, [])).

Lemma show_octet_ok n : n < 256 → octet_ok n = true.
Proof.
  revert n. apply below_256. intros i Hi.
  assert (forallb (λ i, octet_ok (N.of_nat i)) (List.seq 0 256) = true) as H by (by vm_compute).
  rewrite forallb_forall in H. apply H, in_seq. lia.
Qed.

Lemma show_octet_digits n : n < 256 → Forall (λ d, is_ascii_digit d = true) (show_octet n) ∧ show_octet n ≠ [].
Proof.
  intros H%show_octet_ok. unfold octet_ok in H. rewrite !andb_true_iff in H. destruct H as [[H1 H2] _].
  apply bool_decide_eq_true in H2. split; [|done].
  rewrite forallb_forall in H1. apply Forall_forall. intros d Hd%list_elem_of_In. by apply H1.
Qed.

Lemma digit_to_digit d : is_ascii_digit d = true → to_digit 10 d ≠ None.
Proof.
  unfold to_digit. intros Hd. rewrite Hd. unfold is_ascii_digit in Hd. rewrite andb_true_iff, !N.leb_le in Hd.
  destruct (N.ltb_spec (d - 48) 10); [done|lia].
Qed.

Lemma read_octet_show i n rest : n < 256 → (∀ d, head rest = Some d → to_digit 10 d = None) →
  read_octet 0 (show_octet n ++ rest) = Some (n, rest) ∧ read_octet (S i) (46 :: show_octet n ++ rest) = Some (n, rest).
Proof.
  intros Hn Hrest. unfold read_octet, read_separator.
  assert (read_number 10 3 false 255 (show_octet n ++ rest) = Some (n, rest)) as Hr.
  { destruct (show_octet_digits n Hn) as [Hd Hne]. pose proof (show_octet_ok n Hn) as Hok.
    unfold octet_ok in Hok. rewrite !andb_true_iff in Hok. destruct Hok as [_ Hok%bool_decide_eq_true].
    unfold read_number in *. rewrite read_digits_app; [|done|eapply Forall_impl; [exact Hd|apply digit_to_digit]].
    destruct (show_octet n) as [|d s]; [done|]. cbn [head app] in *.
    destruct (read_digits 10 3 0 0 (d :: s)) as [[[r c] q]|]; [|done].
    repeat case_match; simplify_eq; done. }
  done.
Qed.

Lemma read_ipv4_show ip rest : v4_wf ip → (∀ d, head rest = Some d → to_digit 10 d = None) →
  read_ipv4_addr (show_v4 ip ++ rest) = Some (ip, rest).
Proof.
  destruct ip as [a b c d]. intros (Ha & Hb & Hc & Hd) Hrest. simpl in *. unfold show_v4, read_ipv4_addr.
  cbn [oct0 oct1 oct2 oct3]. rewrite <-!(assoc_L (++)). cbn [app]. rewrite <-!(assoc_L (++)). cbn [app].
  rewrite <-!(assoc_L (++)). cbn [app].
  assert (∀ l d, head (46 :: l) = Some d → to_digit 10 d = None) as Hdot by (by intros l ? [= <-]).
  rewrite (proj1 (read_octet_show 0 a _ Ha (Hdot _))). cbn [mbind option_bind].
  rewrite (proj2 (read_octet_show 0 b _ Hb (Hdot _))). cbn [mbind option_bind].
  rewrite (proj2 (read_octet_show 1 c _ Hc (Hdot _))). cbn [mbind option_bind].
  by rewrite (proj2 (read_octet_show 2 d _ Hd Hrest)).
Qed.

(** A printed IPv4 address reads back. *)
Lemma parse_show_v4 ip : v4_wf ip → parse_ip (show_v4 ip) = Some (V4 ip).
Proof.
  intros Hwf. unfold parse_ip, parse_with, read_ip_addr. rewrite <-(app_nil_r (show_v4 ip)).
  by rewrite read_ipv4_show.
Qed.

(** The characters of a printed address, and its first and last. *)
Lemma show_v4_chars ip : v4_wf ip →
  Forall (λ c, is_ascii_digit c = true ∨ c = 46) (show_v4 ip)
  ∧ (∀ c, head (show_v4 ip) = Some c → is_ascii_digit c = true)
  ∧ (∀ c, last (show_v4 ip) = Some c → is_ascii_digit c = true) ∧ show_v4 ip ≠ [].
Proof.
  destruct ip as [a b c d]. intros (Ha & Hb & Hc & Hd). simpl in *. unfold show_v4. cbn [oct0 oct1 oct2 oct3].
  destruct (show_octet_digits a Ha) as [Fa Na], (show_octet_digits b Hb) as [Fb _],
    (show_octet_digits c Hc) as [Fc _], (show_octet_digits d Hd) as [Fd Nd].
  assert (∀ l, Forall (λ d, is_ascii_digit d = true) l → Forall (λ c, is_ascii_digit c = true ∨ c = 46) l) as Hl.
  { intros l H. eapply Forall_impl; [exact H|]. by left. }
  split_and!.
  - rewrite !Forall_app, !Forall_cons, !Forall_app, !Forall_cons, !Forall_app, !Forall_cons.
    split_and!; try (by apply Hl); by right.
  - destruct (show_octet a); [done|]. simpl. intros ? [= <-]. by apply Forall_cons in Fa as [? _].
  - intros x Hx. rewrite !last_app, !last_cons, !last_app, !last_cons, !last_app, !last_cons in Hx.
    destruct (last (show_octet d)) as [y|] eqn:Ey; [|by apply last_None in Ey].
    simplify_eq. eapply Forall_forall in Fd; [exact Fd|]. by apply last_Some_elem_of.
  - by destruct (show_octet a).
Qed.
