(* ===== verification/NetworkDomain.v ===== *)
(** network-proxy/src/domain_matcher.rs and the domain patterns of policy.rs: which
    hosts a network policy's patterns match.

    Patterns and hosts are matched as UTF-8 bytes.  The indices [p] and [h] of the
    wildcard matcher are the rests [pattern[p..]] and [host[h..]] they point at.
    Parameter: the host parser of the [url] crate. *)
From S2P Require Import Prelude Str IpAddr.

Definition STAR : N := 42.
Definition QUESTION : N := 63.
Definition DOT : N := 46.
Definition COLON_CH : N := 58.

(** * The wildcard matcher *)

(** [u8::eq_ignore_ascii_case] *)
Definition byte_eq_ignore_case (a b : N) : bool := N.eqb (ascii_lower a) (ascii_lower b).

(** The [while] loop of [matches]; [star] holds [pattern[resume..]] and
    [host[consumed..]].  [None] is running out of fuel. *)
Fixpoint match_loop (fuel : nat) (p h : list N) (star : option (list N * list N)) : option bool :=
  match fuel with
  | 0 => None
  | S fuel =>
      match h with
      | [] => Some (forallb (N.eqb STAR) p)
      | b :: h' =>
          let retry :=
            match star with
            | Some (resume, consumed) =>
                match_loop fuel resume (drop 1 consumed) (Some (resume, drop 1 consumed))
            | None => Some false
            end in
          match p with
          | c :: p' =>
              if N.eqb c STAR then match_loop fuel p' h (Some (p', h))
              else if N.eqb c QUESTION || byte_eq_ignore_case c b then match_loop fuel p' h' star
              else retry
          | [] => retry
          end
      end
  end.

(** The number of rounds is bounded by the lengths' product. *)
Definition match_fuel (pattern host : list N) : nat :=
  S ((length pattern + length host + 1) * (length host + 2)).

Definition pattern_match (pattern host : list N) : option bool :=
  match_loop (match_fuel pattern host) pattern host None.

(** * Hosts and patterns *)

Definition cont_byte (shift c : N) : N := (128 + N.land (N.shiftr c shift) 63)%N.

(** [str::as_bytes] *)
Definition utf8_bytes_of (c : N) : list N :=
  (if c <? 128 then [c]
   else if c <? 2048 then [192 + N.shiftr c 6; cont_byte 0 c]
   else if c <? 65536 then [224 + N.shiftr c 12; cont_byte 6 c; cont_byte 0 c]
   else [240 + N.shiftr c 18; cont_byte 12 c; cont_byte 6 c; cont_byte 0 c])%N.

Definition as_bytes (s : str) : list N := mjoin (utf8_bytes_of <$> s).

Inductive GlobalWildcard := AllowGlobal | RejectGlobal.

Inductive domain_error :=
| GlobalWildcardError
| UnsupportedSyntax (pattern : str)
| RepeatedWildcard (pattern : str)
| BadBrackets (pattern : str)
| EmptyPattern.

Definition has_char (cs s : str) : bool := existsb (λ c, bool_decide (c ∈ cs)) s.

Definition normalize_ip_literal (host : str) : option str :=
  if is_ip host then Some host
  else
    let try (delimiter : str) :=
      match split_once delimiter host with
      | Some (ip, scope) => if is_ip ip then Some (ip ++ lit "%" ++ scope) else None
      | None => None
      end in
    match try (lit "%25") with Some r => Some r | None => try (lit "%") end.

Definition normalize_dns_host_or_ip_literal (host : str) : str :=
  let host := trim_end_by (N.eqb DOT) (to_ascii_lowercase host) in
  default host (normalize_ip_literal host).

Definition normalize_host (host : str) : str :=
  let host := trim host in
  match (if starts_with (lit "[") host then str_find (lit "]") host else None) with
  | Some i => normalize_dns_host_or_ip_literal (drop 1 (take i host))
  | None =>
      if length (filter (λ c, c = COLON_CH) host) =? 1
      then normalize_dns_host_or_ip_literal
             (match split_once [COLON_CH] host with Some (h, _) => h | None => host end)
      else normalize_dns_host_or_ip_literal host
  end.

Definition unscoped_ip_literal (host : str) : option str :=
  match split_once (lit "%") host with
  | Some (ip, _) => if is_ip ip then Some ip else None
  | None => None
  end.

(** The wildcard prefix of a pattern, if it has one. *)
Definition strip_wildcard (pattern : str) : option (str * str) :=
  match strip_prefix (lit "**.") pattern with
  | Some domain => Some (lit "**.", domain)
  | None =>
      match strip_prefix (lit "*.") pattern with
      | Some domain => Some (lit "*.", domain)
      | None => None
      end
  end.

Definition normalize_pattern (pattern : str) : str :=
  let pattern := trim pattern in
  if pattern =s lit "*" then lit "*"
  else
    let '(prefix, remainder) := default ([], pattern) (strip_wildcard pattern) in
    prefix ++ normalize_host remainder.

Definition expand_domain_pattern (pattern : str) : list str :=
  let pattern := trim pattern in
  match strip_wildcard pattern with
  | None => [pattern]
  | Some (_, domain) =>
      let domain := trim domain in
      if bool_decide (domain = []) then [[]]
      else if starts_with (lit "**.") pattern then [domain; lit "?*." ++ domain]
      else [lit "?*." ++ domain]
  end.

Definition is_global_wildcard_domain_pattern (pattern : str) : bool :=
  existsb (λ candidate, candidate =s lit "*") (expand_domain_pattern (normalize_pattern pattern)).

(** The check of brackets: only around an IPv6 literal or a star. *)
Definition brackets_ok (host : str) : bool :=
  match strip_prefix (lit "[") host with
  | None => false
  | Some s =>
      match split_once (lit "]") s with
      | None => false
      | Some (ip, suffix) =>
          let normalized := normalize_dns_host_or_ip_literal ip in
          let unscoped := match split_once (lit "%") normalized with Some (a, _) => a | None => normalized end in
          negb (has_char (lit "[]") ip)
          && ((normalized =s lit "*") || is_ipv6 unscoped)
          && negb (has_char (lit "[]") suffix)
          && (forallb (N.eqb DOT) suffix || starts_with [COLON_CH] suffix)
      end
  end.

(** The checks of one pattern. *)
Definition check_pattern (global_wildcard : GlobalWildcard) (pattern : str) : result domain_error unit :=
  if (match global_wildcard with RejectGlobal => true | AllowGlobal => false end)
     && is_global_wildcard_domain_pattern pattern
  then Err GlobalWildcardError
  else
    let raw := trim pattern in
    if has_char (lit "{}\/") raw || existsb is_whitespace raw then Err (UnsupportedSyntax pattern)
    else
      let host := match strip_wildcard raw with Some (_, h) => h | None => raw end in
      if str_contains (lit "**") host then Err (RepeatedWildcard pattern)
      else if has_char (lit "[]") host && negb (brackets_ok host) then Err (BadBrackets pattern)
      else Ok tt.

(** The loop over the candidates of one pattern. *)
Fixpoint add_candidates (candidates : list str) (seen : gset str) (compiled : list (list N))
    : result domain_error (gset str * list (list N)) :=
  match candidates with
  | [] => Ok (seen, compiled)
  | candidate :: candidates =>
      if bool_decide (candidate ∈ seen) then add_candidates candidates seen compiled
      else if bool_decide (candidate = []) then Err EmptyPattern
      else add_candidates candidates ({[candidate]} ∪ seen) (compiled ++ [as_bytes candidate])
  end.

Fixpoint compile_patterns (global_wildcard : GlobalWildcard) (patterns : list str) (seen : gset str)
    (compiled : list (list N)) : result domain_error (list (list N)) :=
  match patterns with
  | [] => Ok compiled
  | pattern :: patterns =>
      let? _ := check_pattern global_wildcard pattern in
      let? ' (seen, compiled) :=
        add_candidates (expand_domain_pattern (normalize_pattern pattern)) seen compiled in
      compile_patterns global_wildcard patterns seen compiled
  end.

Definition domain_pattern_set (patterns : list str) (global_wildcard : GlobalWildcard)
    : result domain_error (list (list N)) :=
  compile_patterns global_wildcard patterns ∅ [].

Definition compile_allowlist (patterns : list str) := domain_pattern_set patterns AllowGlobal.
Definition compile_denylist (patterns : list str) := domain_pattern_set patterns RejectGlobal.

(** [DomainPatternSet::is_match] *)
Definition set_is_match (compiled : list (list N)) (host : str) : bool :=
  existsb (λ pattern, bool_decide (pattern_match pattern (as_bytes host) = Some true)) compiled.

(** * policy.rs: patterns as constraints *)

Inductive DomainPattern :=
| ApexAndSubdomains (domain : str)
| SubdomainsOnly (domain : str)
| ExactDomain (domain : str).

Definition normalize_domain (domain : str) : str := to_ascii_lowercase (trim_end_by (N.eqb DOT) domain).

Definition domain_eq (a b : str) : bool := normalize_domain a =s normalize_domain b.

Definition is_subdomain_or_equal (child parent : str) : bool :=
  let child := normalize_domain child in
  let parent := normalize_domain parent in
  (child =s parent) || ends_with (DOT :: parent) child.

Definition is_strict_subdomain (child parent : str) : bool :=
  let child := normalize_domain child in
  let parent := normalize_domain parent in
  negb (child =s parent) && ends_with (DOT :: parent) child.

Definition allows (self candidate : DomainPattern) : bool :=
  match self, candidate with
  | ExactDomain domain, ExactDomain c => domain_eq c domain
  | ExactDomain _, _ => false
  | SubdomainsOnly domain, ExactDomain c => is_strict_subdomain c domain
  | SubdomainsOnly domain, SubdomainsOnly c => is_subdomain_or_equal c domain
  | SubdomainsOnly domain, ApexAndSubdomains c => is_strict_subdomain c domain
  | ApexAndSubdomains domain, (ExactDomain c | SubdomainsOnly c | ApexAndSubdomains c) =>
      is_subdomain_or_equal c domain
  end.

Section Constraints.
(** [url::Host::parse], rendered back. *)
Context (url_host : str → option str).

Definition parse_domain_for_constraints (domain : str) : str :=
  let domain := trim_end_by (N.eqb DOT) (trim domain) in
  if bool_decide (domain = []) then []
  else
    let host := if starts_with (lit "[") domain && ends_with (lit "]") domain
                then drop 1 (take (length domain - 1) domain) else domain in
    if has_char (lit "*?%") host then domain
    else default [] (url_host host).

Definition parse_for_constraints (input : str) : DomainPattern :=
  let input := trim input in
  if bool_decide (input = []) then ExactDomain []
  else match strip_prefix (lit "**.") input with
       | Some domain => ApexAndSubdomains (parse_domain_for_constraints domain)
       | None =>
           match strip_prefix (lit "*.") input with
           | Some domain => SubdomainsOnly (parse_domain_for_constraints domain)
           | None => ExactDomain (parse_domain_for_constraints input)
           end
       end.
End Constraints.

Example match_1 : pattern_match (lit "?*.ex*le.com") (lit "a.b.Example.com") = Some true.
Proof. vm_compute. reflexivity. Qed.
Example match_2 : pattern_match (lit "?*.example.com") (lit ".example.com") = Some false.
Proof. vm_compute. reflexivity. Qed.

(** * The reference semantics of patterns *)

(** Some suffix satisfies [m]: what a star stands for. *)
Fixpoint some_suffix (m : list N → bool) (h : list N) : bool :=
  m h || match h with [] => false | _ :: h' => some_suffix m h' end.

(** A star matches any bytes, a question mark one byte, another byte itself in
    either case. *)
Fixpoint glob (p h : list N) : bool :=
  match p with
  | [] => bool_decide (h = [])
  | c :: p' =>
      if N.eqb c STAR then some_suffix (glob p') h
      else match h with
           | [] => false
           | b :: h' => (N.eqb c QUESTION || byte_eq_ignore_case c b) && glob p' h'
           end
  end.

Lemma some_suffix_true m h : some_suffix m h = true ↔ ∃ x h', h = x ++ h' ∧ m h' = true.
Proof.
  induction h as [|b h IH]; simpl.
  - rewrite orb_false_r. split; [intros H; by exists [], []|].
    intros (x & h' & Hh & Hm). symmetry in Hh. by apply app_eq_nil in Hh as [-> ->].
  - rewrite orb_true_iff, IH. split.
    + intros [H|(x & h' & -> & H)]; [by exists [], (b :: h)|by exists (b :: x), h'].
    + intros ([|y x] & h' & Hh & Hm); simpl in Hh; [by subst; left|]. injection Hh as -> ->. eauto.
Qed.

Definition star_free (q : list N) : Prop := Forall (λ c, c ≠ STAR) q.

(** A star-free part of a pattern consumes as many bytes as it has. *)
Lemma glob_star_free q p h :
  star_free q → glob (q ++ p) h = true → ∃ x h', h = x ++ h' ∧ length x = length q ∧ glob p h' = true.
Proof.
  revert h. induction q as [|c q IH]; intros h Hq Hg; simpl in Hg; [by exists [], h|].
  apply Forall_cons in Hq as [Hc Hq]. apply N.eqb_neq in Hc. rewrite Hc in Hg.
  destruct h as [|b h]; [done|]. apply andb_true_iff in Hg as [_ Hg].
  destruct (IH h Hq Hg) as (x & h' & -> & Hl & Hp). exists (b :: x), h'. simpl. auto.
Qed.

Lemma glob_nil p : glob p [] = forallb (N.eqb STAR) p.
Proof.
  induction p as [|c p IH]; [done|]. cbn [glob forallb]. rewrite (N.eqb_sym STAR c).
  destruct (N.eqb c STAR); [|done]. simpl. by rewrite orb_false_r, IH.
Qed.

(** What retrying the latest star can still find: a match of the rest of the
    pattern further on in the host. *)
Definition retries (star : option (list N * list N)) : Prop :=
  match star with
  | Some (r, c) => ∃ x c', c = x ++ c' ∧ x ≠ [] ∧ glob r c' = true
  | None => False
  end.

(** Since the latest star, pattern and host have advanced in step. *)
Definition in_step (p h : list N) (star : option (list N * list N)) : Prop :=
  match star with
  | Some (r, c) => ∃ q x, r = q ++ p ∧ c = x ++ h ∧ length q = length x ∧ star_free q
  | None => True
  end.

(** A later match of what follows an earlier star goes through the current place. *)
Lemma retries_here p h star :
  in_step p h star → retries star → ∃ y h', h = y ++ h' ∧ y ≠ [] ∧ glob p h' = true.
Proof.
  destruct star as [[r c]|]; [|done]. intros (q & x & -> & -> & Hl & Hq) (z & c' & Hc & Hz & Hg).
  destruct (glob_star_free q p c' Hq Hg) as (x' & h' & -> & Hl' & Hp).
  exists (drop (length x) (z ++ x')), h'. split_and!; [| |done].
  - apply (f_equal (drop (length x))) in Hc. rewrite drop_app_length in Hc.
    rewrite Hc, (assoc_L (++)), (drop_app_le (z ++ x') h') by (rewrite length_app; lia). done.
  - intros Hd. apply (f_equal length) in Hd. rewrite length_drop, length_app in Hd. simpl in Hd.
    destruct z; [done|]. simpl in Hd. lia.
Qed.

Lemma retries_star r h : glob r h = true ∨ retries (Some (r, h)) ↔ some_suffix (glob r) h = true.
Proof.
  rewrite some_suffix_true. simpl. split.
  - intros [H|(x & h' & -> & _ & H)]; [by exists [], h|by exists x, h'].
  - intros ([|b x] & h' & -> & H); [by left|right; by exists (b :: x), h'].
Qed.

Definition slack (host : nat) (star : option (list N * list N)) : nat :=
  match star with Some (_, c) => length c | None => S host end.

Lemma in_step_length p h star host : length h ≤ host → in_step p h star → length h ≤ slack host star.
Proof.
  destruct star as [[r c]|]; simpl; [|lia]. intros _ (q & x & _ & -> & _). rewrite length_app. lia.
Qed.

Definition star_bounded (P host : nat) (star : option (list N * list N)) : Prop :=
  match star with Some (r, c) => length r ≤ P ∧ length c ≤ host | None => True end.

(** The loop ends, and finds a match exactly when there is one from here or from a
    later place of the latest star. *)
Lemma match_loop_spec P host fuel p h star :
  length p ≤ P → length h ≤ host → star_bounded P host star → in_step p h star →
  (P + host + 1) * slack host star + length p + length h < fuel →
  ∃ b, match_loop fuel p h star = Some b ∧ (b = true ↔ glob p h = true ∨ retries star).
Proof.
  revert p h star. induction fuel as [|fuel IH]; intros p h star Hp Hh Hb Hs Hf; [lia|].
  pose proof (in_step_length p h star host Hh Hs) as Hsl.
  destruct h as [|b h]; cbn [match_loop].
  { eexists. split; [done|]. rewrite glob_nil. split; [by left|]. intros [H|H]; [done|].
    destruct (retries_here p [] star Hs H) as (y & h' & Hy & Hne & _).
    symmetry in Hy. by apply app_eq_nil in Hy as [-> _]. }
  assert (glob p (b :: h) = false → ∃ r, match star with
      | Some (resume, consumed) => match_loop fuel resume (drop 1 consumed) (Some (resume, drop 1 consumed))
      | None => Some false
      end = Some r ∧ (r = true ↔ glob p (b :: h) = true ∨ retries star)) as Hretry.
  { intros Hg. destruct star as [[r c]|].
    - destruct Hs as (q & x & Hr & Hc & Hl & Hq). destruct Hb as [Hb1 Hb2].
      assert (∃ d c', c = d :: c') as (d & c' & ->) by (rewrite Hc; destruct x; simpl; eauto).
      cbn [drop]. rewrite drop_0. cbn [slack length] in *.
      destruct (IH r c' (Some (r, c'))) as (v & Hv & Hiff); [lia|lia|simpl; lia| |simpl; lia|].
      { exists [], []. split_and!; [done..|constructor]. }
      exists v. split; [done|]. rewrite Hiff, retries_star, some_suffix_true, Hg. simpl. split.
      + intros (x' & h' & -> & Hm). right. exists (d :: x'), h'. done.
      + intros [?|([|d' x'] & h' & He & Hne & Hm)]; [done|done|]. injection He as <- ->. eauto.
    - exists false. rewrite Hg. simpl. split; [done|]. by intuition. }
  destruct p as [|c p]; [by apply Hretry|]. cbn [length] in Hp, Hf.
  destruct (N.eqb c STAR) eqn:Ec.
  - destruct (IH p (b :: h) (Some (p, b :: h))) as (v & Hv & Hiff); [lia|done|simpl in *; lia| | |].
    { exists [], []. split_and!; [done..|constructor]. }
    { cbn [slack length] in *. nia. }
    exists v. split; [done|]. rewrite Hiff, retries_star. cbn [glob]. rewrite Ec. split; [by left|].
    intros [H|H]; [done|]. destruct (retries_here _ _ _ Hs H) as (y & h' & Hy & _ & Hg).
    cbn [glob] in Hg. rewrite Ec in Hg. apply some_suffix_true in Hg as (x & h'' & -> & Hm).
    apply some_suffix_true. exists (y ++ x), h''. by rewrite <-(assoc_L (++)).
  - destruct (N.eqb c QUESTION || byte_eq_ignore_case c b) eqn:Em.
    + destruct (IH p h star) as (v & Hv & Hiff); [lia|simpl in Hh; lia|done| |simpl in Hf; lia|].
      { destruct star as [[r c']|]; [|done]. destruct Hs as (q & x & -> & -> & Hl & Hq).
        exists (q ++ [c]), (x ++ [b]). rewrite <-!(assoc_L (++)), !length_app. simpl.
        split_and!; [done|done|lia|]. apply Forall_app; split; [done|].
        apply Forall_singleton. by apply N.eqb_neq. }
      exists v. split; [done|]. rewrite Hiff. cbn [glob]. by rewrite Ec, Em.
    + apply Hretry. cbn [glob]. by rewrite Ec, Em.
Qed.

Lemma pattern_match_glob (pattern host : list N) : pattern_match pattern host = Some (glob pattern host).
Proof.
  unfold pattern_match, match_fuel.
  destruct (match_loop_spec (length pattern) (length host)
    (S ((length pattern + length host + 1) * (length host + 2))) pattern host None)
    as (b & -> & Hb); [lia|lia|done|done|simpl; nia|].
  f_equal. apply eq_true_iff_eq. rewrite Hb. simpl. tauto.
Qed.

(** the iterative wildcard matcher, which remembers only the latest star, always
    ends and agrees with the recursive meaning of patterns. *)
Theorem pattern_match_correct (pattern host : list N) :
  pattern_match pattern host = Some (glob pattern host).
Proof. apply pattern_match_glob. Qed.

(** * What the documented patterns match *)

(** A domain as it is usually written: lower-case letters, digits, dashes and dots,
    not ending in a dot. *)
Definition domain_char (c : N) : bool :=
  is_ascii_lower c || is_ascii_digit c || N.eqb c 45 || N.eqb c DOT.

Definition plain_domain (d : str) : bool :=
  forallb domain_char d && match last d with Some c => negb (N.eqb c DOT) | None => false end.

Lemma domain_char_facts c :
  domain_char c = true →
  is_whitespace c = false ∧ ascii_lower c = c ∧ utf8_bytes_of c = [c]
  ∧ c ≠ STAR ∧ c ≠ QUESTION ∧ (c ∉ lit "[]{}\/%:").
Proof.
  unfold domain_char, is_ascii_lower, is_ascii_digit, DOT. intros H.
  assert ((97 ≤ c ∧ c ≤ 122) ∨ (48 ≤ c ∧ c ≤ 57) ∨ c = 45 ∨ c = 46)%N as Hc.
  { rewrite !orb_true_iff, !andb_true_iff, !N.leb_le, !N.eqb_eq in H. tauto. }
  assert (c < 128)%N by lia.
  split_and!.
  - unfold is_whitespace. repeat (apply orb_false_iff; split); try apply andb_false_iff;
      rewrite ?N.leb_gt, ?N.eqb_neq; lia.
  - unfold ascii_lower, is_ascii_upper. case_match eqn:E; [|done].
    apply andb_true_iff in E as [?%N.leb_le ?%N.leb_le]. lia.
  - unfold utf8_bytes_of. by rewrite (proj2 (N.ltb_lt c 128)).
  - unfold STAR. lia.
  - unfold QUESTION. lia.
  - change (c ∉ [91; 93; 123; 125; 92; 47; 37; 58])%N. rewrite !not_elem_of_cons. split_and!; try lia.
    apply not_elem_of_nil.
Qed.

Lemma plain_domain_chars d c : plain_domain d = true → c ∈ d → domain_char c = true.
Proof.
  unfold plain_domain. intros [H _]%andb_true_iff Hc. rewrite forallb_forall in H.
  apply H. by apply list_elem_of_In.
Qed.

(** A character that no plain domain has. *)
Lemma plain_domain_no d c : plain_domain d = true → c ∈ lit "[]{}\/%:" → c ∉ d.
Proof. intros Hd Hc Hin. eapply domain_char_facts; [by eapply plain_domain_chars|done]. Qed.

Lemma str_find_no c s : c ∉ s → str_find [c] s = None.
Proof.
  induction s as [|b s IH]; simpl; [done|]. rewrite not_elem_of_cons. intros [Hb Hs].
  unfold starts_with. simpl. rewrite (proj2 (N.eqb_neq c b)) by done. by rewrite IH.
Qed.

Lemma str_find_no_first c p s : c ∉ s → str_find (c :: p) s = None.
Proof.
  induction s as [|b s IH]; simpl; [done|]. rewrite not_elem_of_cons. intros [Hb Hs].
  unfold starts_with. simpl. rewrite (proj2 (N.eqb_neq c b)) by done. by rewrite IH.
Qed.

Lemma plain_trimmed d : plain_domain d = true → trim d = d.
Proof.
  intros Hd. apply trim_fixpoint. unfold trimmed.
  destruct (head d) as [a|] eqn:Ea; [|done]. destruct (last d) as [b|] eqn:Eb; [|done].
  assert (a ∈ d ∧ b ∈ d) as [Ha Hb].
  { split; [destruct d; [done|]; injection Ea as ->; left|].
    apply last_Some in Eb as [d' ->]. apply elem_of_app. right. left. }
  destruct (domain_char_facts a) as [-> _]; [by eapply plain_domain_chars|].
  destruct (domain_char_facts b) as [-> _]; [by eapply plain_domain_chars|]. done.
Qed.

Lemma plain_lower d : plain_domain d = true → to_ascii_lowercase d = d.
Proof.
  intros Hd. unfold to_ascii_lowercase. rewrite <-(list_fmap_id d) at 2. apply list_fmap_ext.
  intros i c Hc. apply domain_char_facts. eapply plain_domain_chars; [done|]. by eapply list_elem_of_lookup_2.
Qed.

Lemma plain_no_end_dot d : plain_domain d = true → trim_end_by (N.eqb DOT) d = d.
Proof.
  intros Hd. unfold plain_domain in Hd. apply andb_true_iff in Hd as [_ Hd].
  apply trim_end_by_fixpoint. intros c Hc. rewrite Hc in Hd. rewrite N.eqb_sym. by apply negb_true_iff.
Qed.

Lemma plain_as_bytes d : plain_domain d = true → as_bytes d = d.
Proof.
  intros Hd. unfold as_bytes. assert (Forall (λ c, domain_char c = true) d) as Hf.
  { apply Forall_forall. intros c. by apply plain_domain_chars. }
  clear Hd. induction Hf as [|c d Hc Hf IH]; [done|].
  change (utf8_bytes_of c ++ mjoin (utf8_bytes_of <$> d) = c :: d).
  rewrite IH. by rewrite (proj1 (proj2 (proj2 (domain_char_facts c Hc)))).
Qed.

(** Membership in a literal, by evaluation. *)
Ltac in_lit := refine (bool_decide_unpack _ _); by vm_compute.

Lemma normalize_host_plain d : plain_domain d = true → normalize_host d = d.
Proof.
  intros Hd. unfold normalize_host. rewrite (plain_trimmed d Hd).
  assert (normalize_dns_host_or_ip_literal d = d) as Hn.
  { unfold normalize_dns_host_or_ip_literal, normalize_ip_literal, split_once.
    rewrite (plain_lower d Hd), (plain_no_end_dot d Hd). destruct (is_ip d); [done|].
    assert (37%N ∉ d) as H37 by (apply plain_domain_no; [done|in_lit]).
    change (lit "%25") with [37; 50; 53]%N. change (lit "%") with [37%N].
    by rewrite !str_find_no_first. }
  assert (starts_with (lit "[") d = false) as ->.
  { apply not_true_iff_false. intros [t Ht]%starts_with_spec.
    apply (plain_domain_no d 91%N Hd); [in_lit|]. rewrite Ht. left. }
  case_match eqn:E; [|done]. exfalso.
  apply Nat.eqb_eq in E. destruct (filter _ d) as [|c l] eqn:Ef; [done|].
  assert (c ∈ filter (λ c, c = COLON_CH) d) as [-> Hin]%list_elem_of_filter by (rewrite Ef; left).
  by apply (plain_domain_no d 58%N Hd); [in_lit|].
Qed.

(** The three documented forms: exact, subdomains, apex and subdomains. *)
Definition wildcard_prefix (w : str) : Prop := w = [] ∨ w = lit "*." ∨ w = lit "**.".

Lemma plain_no_char d cs : 
  plain_domain d = true → forallb (λ c, bool_decide (c ∈ lit "[]{}\/%:")) cs = true → has_char cs d = false.
Proof.
  intros Hd Hcs. apply not_true_iff_false. unfold has_char. rewrite existsb_exists.
  intros (c & Hin%list_elem_of_In & Hc%bool_decide_eq_true).
  apply (plain_domain_no d c Hd); [|done]. rewrite forallb_forall in Hcs.
  exact (bool_decide_eq_true_1 _ (Hcs c (proj1 (list_elem_of_In _ _) Hc))).
Qed.

Lemma plain_no_star d : plain_domain d = true → STAR ∉ d.
Proof. intros Hd Hin. destruct (domain_char_facts STAR) as (_ & _ & _ & H & _); [by eapply plain_domain_chars|done]. Qed.

Lemma plain_not_empty d : plain_domain d = true → d ≠ [].
Proof. intros Hd ->. done. Qed.

Lemma prefix_first_no c p (s : str) : c ∉ s → strip_prefix (c :: p) s = None.
Proof.
  destruct s as [|b s]; [done|]. rewrite not_elem_of_cons. intros [Hb _]. simpl.
  by rewrite (proj2 (N.eqb_neq c b)).
Qed.

Lemma strip_wildcard_plain d : plain_domain d = true → strip_wildcard d = None.
Proof.
  intros Hd%plain_no_star. unfold strip_wildcard.
  by rewrite (prefix_first_no STAR (lit "*.")), (prefix_first_no STAR (lit ".")).
Qed.

Lemma strip_wildcard_prefix w d : w = lit "*." ∨ w = lit "**." → strip_wildcard (w ++ d) = Some (w, d).
Proof. intros [->| ->]; reflexivity. Qed.

Lemma wildcard_trim w d : wildcard_prefix w → plain_domain d = true → trim (w ++ d) = w ++ d.
Proof.
  intros Hw Hd. destruct Hw as [->|Hw]; [by apply plain_trimmed|].
  apply trim_fixpoint. pose proof (plain_trimmed d Hd) as Ht. pose proof Hd as Hd'.
  unfold plain_domain in Hd'. apply andb_true_iff in Hd' as [_ Hl].
  destruct (last d) as [b|] eqn:Eb; [|done]. unfold trimmed.
  assert (last (w ++ d) = Some b) as ->.
  { apply last_Some in Eb as [d' ->]. by rewrite (assoc_L (++)), last_snoc. }
  assert (is_whitespace b = false) as ->.
  { apply domain_char_facts. apply (plain_domain_chars d); [done|].
    apply last_Some in Eb as [d' ->]. apply elem_of_app. right. left. }
  destruct Hw as [->| ->]; reflexivity.
Qed.

Definition candidates (w d : str) : list str :=
  if bool_decide (w = []) then [d]
  else if bool_decide (w = lit "**.") then [d; lit "?*." ++ d] else [lit "?*." ++ d].

Lemma normalize_pattern_plain w d :
  wildcard_prefix w → plain_domain d = true → normalize_pattern (w ++ d) = w ++ d.
Proof.
  intros Hw Hd. unfold normalize_pattern. rewrite (wildcard_trim w d) by done.
  rewrite bool_decide_eq_false_2.
  - destruct Hw as [->|Hw].
    + rewrite app_nil_l, strip_wildcard_plain by done. simpl. by apply normalize_host_plain.
    + rewrite strip_wildcard_prefix by done. simpl. by rewrite normalize_host_plain.
  - destruct Hw as [->|[->| ->]].
    + simpl. intros ->. by apply (plain_no_star _ Hd); left.
    + apply plain_not_empty in Hd. by destruct d.
    + apply plain_not_empty in Hd. by destruct d.
Qed.

Lemma expand_plain w d :
  wildcard_prefix w → plain_domain d = true → expand_domain_pattern (w ++ d) = candidates w d.
Proof.
  intros Hw Hd. unfold expand_domain_pattern. rewrite (wildcard_trim w d) by done.
  pose proof (plain_not_empty d Hd). destruct Hw as [->|Hw].
  - by rewrite app_nil_l, strip_wildcard_plain.
  - rewrite strip_wildcard_prefix, (plain_trimmed d Hd), (bool_decide_eq_false_2 (d = [])) by done.
    destruct Hw as [->| ->]; reflexivity.
Qed.

Lemma check_plain gw w d :
  wildcard_prefix w → plain_domain d = true → check_pattern gw (w ++ d) = Ok tt.
Proof.
  intros Hw Hd. unfold check_pattern, is_global_wildcard_domain_pattern.
  rewrite normalize_pattern_plain, expand_plain, (wildcard_trim w d) by done.
  assert (existsb (λ c, c =s lit "*") (candidates w d) = false) as ->.
  { assert (d ≠ lit "*") by (intros ->; by apply (plain_no_star _ Hd); left).
    destruct Hw as [->|[->| ->]]; simpl; rewrite ?(bool_decide_eq_false_2 (d = lit "*")) by done; done. }
  rewrite andb_false_r.
  assert (has_char (lit "{}\/") (w ++ d) || existsb is_whitespace (w ++ d) = false) as ->.
  { unfold has_char. rewrite !existsb_app.
    change (existsb (λ c, bool_decide (c ∈ lit "{}\/")) d) with (has_char (lit "{}\/") d).
    rewrite plain_no_char by (done || by vm_compute). assert (existsb is_whitespace d = false) as ->.
    { apply not_true_iff_false. rewrite existsb_exists. intros (c & Hc%list_elem_of_In & Hws).
      pose proof (domain_char_facts c (plain_domain_chars d c Hd Hc)) as [? _]. congruence. }
    destruct Hw as [->|[->| ->]]; reflexivity. }
  assert (match strip_wildcard (w ++ d) with Some (_, h) => h | None => w ++ d end = d) as ->.
  { destruct Hw as [->|Hw]; [by rewrite app_nil_l, strip_wildcard_plain|by rewrite strip_wildcard_prefix]. }
  unfold str_contains. change (lit "**") with [STAR; STAR].
  rewrite str_find_no_first by (by apply plain_no_star).
  by rewrite plain_no_char by (done || by vm_compute).
Qed.

(** A literal pattern matches the same bytes in either case. *)
Lemma glob_literal d h :
  Forall (λ c, c ≠ STAR ∧ c ≠ QUESTION ∧ ascii_lower c = c) d →
  glob d h = true ↔ ascii_lower <$> h = d.
Proof.
  intros Hd. revert h. induction Hd as [|c d (H1 & H2 & H3) Hd IH]; intros h; cbn [glob].
  - rewrite bool_decide_eq_true. destruct h; simpl; split; congruence.
  - rewrite (proj2 (N.eqb_neq c STAR)), (proj2 (N.eqb_neq c QUESTION)) by done.
    destruct h as [|b h]; [simpl; split; congruence|].
    rewrite orb_false_l, andb_true_iff, IH. unfold byte_eq_ignore_case. rewrite N.eqb_eq, H3.
    rewrite fmap_cons. naive_solver.
Qed.

(** A subdomain: at least one byte, a dot, the domain. *)
Definition below (d : str) (h : list N) : Prop := ∃ x y, x ≠ [] ∧ h = x ++ DOT :: y ∧ ascii_lower <$> y = d.

Lemma glob_below d h :
  Forall (λ c, c ≠ STAR ∧ c ≠ QUESTION ∧ ascii_lower c = c) d →
  glob (lit "?*." ++ d) h = true ↔ below d h.
Proof.
  intros Hd. change (lit "?*." ++ d) with (QUESTION :: STAR :: DOT :: d). split.
  - destruct h as [|b h]; [done|]. cbn [glob]. change (N.eqb QUESTION STAR) with false. cbv match.
    change (N.eqb QUESTION QUESTION) with true. rewrite orb_true_l, andb_true_l.
    change (N.eqb STAR STAR) with true. cbv match. rewrite some_suffix_true.
    intros (x & h' & -> & Hg). change (N.eqb DOT STAR) with false in Hg. destruct h' as [|c h']; [done|].
    apply andb_true_iff in Hg as [Hc Hg]. change (N.eqb DOT QUESTION) with false in Hc.
    rewrite orb_false_l in Hc. unfold byte_eq_ignore_case in Hc. apply N.eqb_eq in Hc.
    assert (c = DOT) as ->.
    { change (ascii_lower DOT) with 46%N in Hc. unfold ascii_lower, is_ascii_upper, DOT in *.
      case_match eqn:E; [|done]. apply andb_true_iff in E as [?%N.leb_le ?%N.leb_le]. lia. }
    exists (b :: x), h'. split_and!; [done|done|]. by apply glob_literal.
  - intros ([|b x] & y & Hx & -> & Hy); [done|]. cbn [glob app]. change (N.eqb QUESTION STAR) with false. cbv match.
    change (N.eqb QUESTION QUESTION) with true. rewrite orb_true_l, andb_true_l.
    change (N.eqb STAR STAR) with true. cbv match. apply some_suffix_true. exists x, (DOT :: y).
    split; [done|]. change (N.eqb DOT STAR) with false. cbv match. apply andb_true_iff. split; [done|].
    by apply glob_literal.
Qed.

Lemma plain_literal d : plain_domain d = true → Forall (λ c, c ≠ STAR ∧ c ≠ QUESTION ∧ ascii_lower c = c) d.
Proof.
  intros Hd. apply Forall_forall. intros c Hc.
  pose proof (domain_char_facts c (plain_domain_chars d c Hd Hc)) as (_ & ? & _ & ? & ? & _). done.
Qed.

Lemma set_is_match_true compiled host :
  set_is_match compiled host = true ↔ ∃ p, p ∈ compiled ∧ glob p (as_bytes host) = true.
Proof.
  unfold set_is_match. rewrite existsb_exists. split.
  - intros (p & Hp%list_elem_of_In & Hm%bool_decide_eq_true). exists p. split; [done|].
    rewrite pattern_match_glob in Hm. congruence.
  - intros (p & Hp & Hm). exists p. split; [by apply list_elem_of_In|].
    apply bool_decide_eq_true. by rewrite pattern_match_glob, Hm.
Qed.

Lemma as_bytes_app a b : as_bytes (a ++ b) = as_bytes a ++ as_bytes b.
Proof. unfold as_bytes. by rewrite fmap_app, mjoin_app. Qed.

Lemma add_candidates_new l seen compiled :
  NoDup l → Forall (λ c, c ≠ []) l → (∀ c, c ∈ l → c ∉ seen) →
  ∃ seen', add_candidates l seen compiled = Ok (seen', compiled ++ (as_bytes <$> l)).
Proof.
  intros Hl. revert seen compiled. induction Hl as [|c l Hc Hl IH]; intros seen compiled Hf Hs; cbn [add_candidates].
  - exists seen. by rewrite app_nil_r.
  - apply Forall_cons in Hf as [Hcne Hf].
    rewrite bool_decide_eq_false_2 by (apply Hs; left). rewrite bool_decide_eq_false_2 by done.
    destruct (IH ({[c]} ∪ seen) (compiled ++ [as_bytes c]) Hf) as [seen' ->].
    { intros x Hx. rewrite not_elem_of_union, not_elem_of_singleton. split; [by intros ->|].
      apply Hs. by right. }
    exists seen'. by rewrite <-(assoc_L (++)).
Qed.

Lemma candidates_spec w d :
  wildcard_prefix w → d ≠ [] →
  NoDup (candidates w d) ∧ Forall (λ c, c ≠ []) (candidates w d)
  ∧ ∀ c, c ∈ candidates w d ↔ (w ≠ lit "*." ∧ c = d) ∨ (w ≠ [] ∧ c = lit "?*." ++ d).
Proof.
  intros Hw Hd. assert (d ≠ lit "?*." ++ d) as Hdiff.
  { intros He. apply (f_equal length) in He. rewrite length_app in He. simpl in He. lia. }
  destruct Hw as [->|[->| ->]].
  - change (candidates [] d) with [d]. split_and!; [apply NoDup_singleton|by apply Forall_singleton|].
    intros c. rewrite list_elem_of_singleton. naive_solver.
  - change (candidates (lit "*.") d) with [lit "?*." ++ d].
    split_and!; [apply NoDup_singleton|by apply Forall_singleton|].
    intros c. rewrite list_elem_of_singleton. naive_solver.
  - change (candidates (lit "**.") d) with [d; lit "?*." ++ d]. split_and!.
    + apply NoDup_cons. split; [by rewrite list_elem_of_singleton|apply NoDup_singleton].
    + repeat (apply Forall_cons; split; [done|]). constructor.
    + intros c. rewrite elem_of_cons, list_elem_of_singleton. naive_solver.
Qed.

(** the documented domain patterns mean what they say, for every domain written
    with letters, digits, dashes and dots: [d] matches the host [d], [*.d] its
    subdomains only, [**.d] both, in any case of letters. *)
Theorem domain_patterns_meaning (gw : GlobalWildcard) (w d host : str)
    (Hw : wildcard_prefix w) (Hd : plain_domain d = true) :
  ∃ compiled,
    domain_pattern_set [w ++ d] gw = Ok compiled
    ∧ (set_is_match compiled host = true ↔
         (w ≠ lit "*." ∧ ascii_lower <$> as_bytes host = d) ∨ (w ≠ [] ∧ below d (as_bytes host))).
Proof.
  exists (as_bytes <$> candidates w d).
  pose proof (plain_not_empty d Hd) as Hne. pose proof (plain_literal d Hd) as Hlit.
  destruct (candidates_spec w d Hw Hne) as (Hnd & Hf & Hc). split.
  - unfold domain_pattern_set. cbn [compile_patterns].
    rewrite (check_plain gw w d Hw Hd). cbn [res_bind].
    rewrite (normalize_pattern_plain w d Hw Hd), (expand_plain w d Hw Hd).
    destruct (add_candidates_new (candidates w d) ∅ [] Hnd Hf) as [seen ->]; [set_solver|done].
  - rewrite set_is_match_true, <-(glob_literal d _ Hlit), <-(glob_below d _ Hlit).
    assert (as_bytes d = d) as Hb by (by apply plain_as_bytes).
    assert (as_bytes (lit "?*." ++ d) = lit "?*." ++ d) as Hb' by (by rewrite as_bytes_app, Hb).
    setoid_rewrite list_elem_of_fmap. setoid_rewrite Hc. split.
    + intros (p & (c & -> & [[Hw' ->]|[Hw' ->]]) & Hg); [left; by rewrite Hb in Hg|right; by rewrite Hb' in Hg].
    + intros [[Hw' Hg]|[Hw' Hg]]; [exists d|exists (lit "?*." ++ d)]; (split; [|done]).
      * exists d. rewrite Hb. auto.
      * exists (lit "?*." ++ d). rewrite Hb'. auto.
Qed.

Lemma domain_patterns_meaning_witness :
  ∃ compiled,
    domain_pattern_set [lit "**.example.com"] RejectGlobal = Ok compiled
    ∧ (set_is_match compiled (lit "API.example.com") = true ↔
         (lit "**." ≠ lit "*." ∧ ascii_lower <$> as_bytes (lit "API.example.com") = lit "example.com")
         ∨ (lit "**." ≠ [] ∧ below (lit "example.com") (as_bytes (lit "API.example.com")))).
Proof.
  apply (domain_patterns_meaning RejectGlobal (lit "**.") (lit "example.com")
           (lit "API.example.com")); [right; right; reflexivity | reflexivity].
Defined.

(** * Constraints between patterns *)

Definition pattern_domain (p : DomainPattern) : str :=
  match p with ApexAndSubdomains d | SubdomainsOnly d | ExactDomain d => d end.

(** The hosts a pattern stands for. *)
Definition covers (p : DomainPattern) (host : str) : bool :=
  match p with
  | ExactDomain d => domain_eq host d
  | SubdomainsOnly d => is_strict_subdomain host d
  | ApexAndSubdomains d => is_subdomain_or_equal host d
  end.

(** [c] is [d] with more labels in front. *)
Definition extends (c d : str) : Prop := ∃ x, c = x ++ DOT :: d.

Lemma ends_with_dot d c : ends_with (DOT :: d) c = true ↔ extends c d.
Proof.
  unfold ends_with, extends. split.
  - destruct (strip_suffix _ c) as [x|] eqn:E; [|done]. apply strip_suffix_Some in E. eauto.
  - intros [x Hx]. by rewrite (proj2 (strip_suffix_Some (DOT :: d) c x)).
Qed.

Lemma extends_trans a b c : extends a b → extends b c → extends a c.
Proof. intros [x ->] [y ->]. exists (x ++ DOT :: y). by rewrite <-(assoc_L (++)). Qed.

Lemma extends_neq c d : extends c d → c ≠ d.
Proof. intros [x ->] He. apply (f_equal length) in He. rewrite length_app in He. simpl in He. lia. Qed.

Lemma domain_eq_true a b : domain_eq a b = true ↔ normalize_domain a = normalize_domain b.
Proof. apply bool_decide_eq_true. Qed.

Lemma subdomain_or_equal_true a b :
  is_subdomain_or_equal a b = true
  ↔ normalize_domain a = normalize_domain b ∨ extends (normalize_domain a) (normalize_domain b).
Proof. unfold is_subdomain_or_equal. by rewrite orb_true_iff, bool_decide_eq_true, ends_with_dot. Qed.

Lemma strict_subdomain_true a b :
  is_strict_subdomain a b = true ↔ extends (normalize_domain a) (normalize_domain b).
Proof.
  unfold is_strict_subdomain. rewrite andb_true_iff, negb_true_iff, bool_decide_eq_false, ends_with_dot.
  split; [tauto|]. intros H. split; [by apply extends_neq|done].
Qed.

Lemma trim_end_by_keep p c s : trim_end_by p s ≠ [] → trim_end_by p (c :: s) = c :: trim_end_by p s.
Proof. simpl. by destruct (trim_end_by p s). Qed.

(** A label in front of a domain survives normalisation. *)
Lemma normalize_label l d :
  is_ascii_lower l = true → normalize_domain d ≠ [] →
  normalize_domain (l :: DOT :: d) = l :: DOT :: normalize_domain d.
Proof.
  intros Hl Hd. unfold normalize_domain in *.
  assert (trim_end_by (N.eqb DOT) d ≠ []) as Ht by (by intros Ht; rewrite Ht in Hd).
  rewrite trim_end_by_keep; rewrite (trim_end_by_keep _ DOT d) by done; [|done].
  unfold to_ascii_lowercase. rewrite !fmap_cons. f_equal.
  unfold ascii_lower, is_ascii_upper. unfold is_ascii_lower in Hl.
  case_match eqn:E; [|done]. apply andb_true_iff in E as [?%N.leb_le ?%N.leb_le], Hl as [?%N.leb_le ?%N.leb_le].
  lia.
Qed.

(** With one letter and a dot in front of [c], only [c] itself and what it extends
    lie below. *)
Lemma extends_label l c d : l ≠ DOT → extends (l :: DOT :: c) d → c = d ∨ extends c d.
Proof.
  intros Hl ([|a [|b x]] & He); simpl in He; [congruence|left; congruence|].
  right. exists x. congruence.
Qed.

Lemma pick_label (e : str) : ∃ l, is_ascii_lower l = true ∧ l ≠ DOT ∧ head e ≠ Some l.
Proof.
  destruct (decide (head e = Some 97%N)) as [H|H]; [exists 98%N; rewrite H|exists 97%N]; done.
Qed.

(** [DomainPattern::allows] is exact: one pattern allows another just when every
    host the other stands for is one of its own (for a candidate whose domain is
    not empty), so a managed constraint can neither be widened nor refuse a
    narrower pattern. *)
Theorem allows_exact (self candidate : DomainPattern)
    (Hc : normalize_domain (pattern_domain candidate) ≠ []) :
  allows self candidate = true ↔ ∀ host, covers candidate host = true → covers self host = true.
Proof.
  split.
  - destruct self as [d|d|d], candidate as [c|c|c]; cbn [allows covers]; try done; intros Ha h;
      rewrite ?subdomain_or_equal_true, ?strict_subdomain_true, ?domain_eq_true in *;
      intuition (try congruence); eauto using extends_trans.
    all: repeat match goal with H : normalize_domain _ = normalize_domain _ |- _ => rewrite H in * end;
      eauto using extends_trans.
  - intros Hcov. destruct (pick_label (normalize_domain (pattern_domain self))) as (l & Hl & Hdot & Hhd).
    destruct candidate as [c|c|c]; cbn [pattern_domain] in Hc;
      pose proof (Hcov (l :: DOT :: c)) as Hsub; pose proof (Hcov c) as Hself; clear Hcov;
      destruct self as [d|d|d]; cbn [allows covers pattern_domain] in *;
      rewrite ?subdomain_or_equal_true, ?strict_subdomain_true, ?domain_eq_true,
        ?normalize_label in * by done;
      assert (extends (l :: DOT :: normalize_domain c) (normalize_domain c)) as Hext by (by exists [l]);
      assert (l :: DOT :: normalize_domain c ≠ normalize_domain d) as Hne by (intros He; by rewrite <-He in Hhd);
      try (by apply Hself; auto).
    + exfalso. apply Hne. apply Hsub. auto.
    + destruct (Hsub Hext) as [?|?]; [done|]. by apply (extends_label l).
    + by apply (extends_label l), Hsub.
    + exfalso. apply Hne. auto.
Qed.

Lemma allows_exact_witness :
  normalize_domain (lit "api.example.com") ≠ []
  ∧ (allows (SubdomainsOnly (lit "Example.com.")) (ApexAndSubdomains (lit "api.example.com")) = true ↔
     ∀ host, covers (ApexAndSubdomains (lit "api.example.com")) host = true →
             covers (SubdomainsOnly (lit "Example.com.")) host = true).
Proof.
  split; [discriminate|].
  apply (allows_exact (SubdomainsOnly (lit "Example.com.")) (ApexAndSubdomains (lit "api.example.com"))).
  discriminate.
Defined.
