(* ===== verification/NetworkPolicy.v ===== *)
(** network-proxy: the policy a request's host is checked against (config.rs, the host
    functions of policy.rs, the decisions of runtime.rs and network_policy.rs).

    Fields of the configuration this code does not read are one opaque value.  DNS is
    the parameter [lookup], [None] when it fails or times out; the decider is a
    function of the request.  The reloader's next answers are part of the state: each
    is a failure, no change, or a new state. *)
From S2P Require Import Prelude Str IpAddr NetworkDomain.

(** * config.rs: domain permissions *)

Inductive NetworkDomainPermission := PermNone | PermAllow | PermDeny.
#[global] Instance NetworkDomainPermission_eq_dec : EqDecision NetworkDomainPermission.
Proof. solve_decision. Defined.

(** The derived order: [None < Allow < Deny]. *)
Definition permission_rank (p : NetworkDomainPermission) : nat :=
  match p with PermNone => 0 | PermAllow => 1 | PermDeny => 2 end.

Record NetworkDomainPermissionEntry := mkEntry { pattern : str; permission : NetworkDomainPermission }.
#[global] Instance NetworkDomainPermissionEntry_eq_dec : EqDecision NetworkDomainPermissionEntry.
Proof. solve_decision. Defined.

(** The first loop of [effective_entries]: the patterns in order and the strongest
    permission of each. *)
Fixpoint effective_loop (entries : list NetworkDomainPermissionEntry) (order : list str)
    (effective : gmap str NetworkDomainPermission) : list str * gmap str NetworkDomainPermission :=
  match entries with
  | [] => (order, effective)
  | entry :: entries =>
      match effective !! pattern entry with
      | None =>
          effective_loop entries (order ++ [pattern entry]) (<[pattern entry := permission entry]> effective)
      | Some p =>
          effective_loop entries order
            (if permission_rank p <? permission_rank (permission entry)
             then <[pattern entry := permission entry]> effective else effective)
      end
  end.

(** The second: each pattern takes its permission out of the map. *)
Fixpoint take_permissions (order : list str) (effective : gmap str NetworkDomainPermission)
    : list NetworkDomainPermissionEntry :=
  match order with
  | [] => []
  | p :: order =>
      match effective !! p with
      | Some perm => mkEntry p perm :: take_permissions order (delete p effective)
      | None => take_permissions order effective
      end
  end.

Definition effective_entries (entries : list NetworkDomainPermissionEntry) : list NetworkDomainPermissionEntry :=
  let '(order, effective) := effective_loop entries [] ∅ in take_permissions order effective.

Inductive NetworkMode := Limited | Full.
#[global] Instance NetworkMode_eq_dec : EqDecision NetworkMode.
Proof. solve_decision. Defined.

Definition allows_method (self : NetworkMode) (method : str) : bool :=
  match self with
  | Full => true
  | Limited => (method =s lit "GET") || (method =s lit "HEAD") || (method =s lit "OPTIONS")
  end.

Inductive NetworkUnixSocketPermission := SocketAllow | SocketDeny.
#[global] Instance NetworkUnixSocketPermission_eq_dec : EqDecision NetworkUnixSocketPermission.
Proof. solve_decision. Defined.

(** [rest] stands for the fields no function here reads. *)
Record NetworkProxyConfig {R : Type} := mkConfig {
  enabled : bool;
  allow_upstream_proxy : bool;
  dangerously_allow_non_loopback_proxy : bool;
  dangerously_allow_all_unix_sockets : option bool;
  mode : NetworkMode;
  domains : option (list NetworkDomainPermissionEntry);
  unix_sockets : option (gmap str NetworkUnixSocketPermission);
  allow_local_binding : option bool;
  mitm_enabled : bool;
  has_mitm_ca : bool;
  credential_broker : bool;
  cfg_rest : R;
}.
Arguments NetworkProxyConfig : clear implicits.

Section Config.
Context {R : Type}.
Implicit Type cfg : NetworkProxyConfig R.

Definition set_domains (d : option (list NetworkDomainPermissionEntry)) (cfg : NetworkProxyConfig R)
    : NetworkProxyConfig R :=
  mkConfig R (enabled cfg) (allow_upstream_proxy cfg) (dangerously_allow_non_loopback_proxy cfg)
    (dangerously_allow_all_unix_sockets cfg) (mode cfg) d (unix_sockets cfg) (allow_local_binding cfg)
    (mitm_enabled cfg) (has_mitm_ca cfg) (credential_broker cfg) (cfg_rest cfg).

Definition domain_entries (cfg : NetworkProxyConfig R) (perm : NetworkDomainPermission) : option (list str) :=
  match domains cfg with
  | None => None
  | Some d =>
      let entries := pattern <$> filter (λ e, permission e = perm) (effective_entries d) in
      if bool_decide (entries = []) then None else Some entries
  end.

Definition allowed_domains (cfg : NetworkProxyConfig R) : option (list str) := domain_entries cfg PermAllow.
Definition denied_domains (cfg : NetworkProxyConfig R) : option (list str) := domain_entries cfg PermDeny.

Definition non_empty (d : list NetworkDomainPermissionEntry) : option (list NetworkDomainPermissionEntry) :=
  if bool_decide (d = []) then None else Some d.

Definition upsert_domain_permission (normalize : str → str) (host : str) (perm : NetworkDomainPermission)
    (cfg : NetworkProxyConfig R) : NetworkProxyConfig R :=
  let entries := default [] (domains cfg) in
  let normalized_host := normalize host in
  let entries := filter (λ e, normalize (pattern e) ≠ normalized_host) entries in
  set_domains (non_empty (entries ++ [mkEntry host perm])) cfg.

(** The loop of [set_domain_entries]. *)
Fixpoint add_entries (perm : NetworkDomainPermission) (l : list str) (entries : list NetworkDomainPermissionEntry)
    : list NetworkDomainPermissionEntry :=
  match l with
  | [] => entries
  | p :: l =>
      add_entries perm l
        (if existsb (λ e, (pattern e =s p) && bool_decide (permission e = perm)) entries
         then entries else entries ++ [mkEntry p perm])
  end.

Definition set_domain_entries (l : list str) (perm : NetworkDomainPermission) (cfg : NetworkProxyConfig R)
    : NetworkProxyConfig R :=
  let entries := filter (λ e, permission e ≠ perm) (default [] (domains cfg)) in
  set_domains (non_empty (add_entries perm l entries)) cfg.

Definition set_allowed_domains (l : list str) : NetworkProxyConfig R → NetworkProxyConfig R :=
  set_domain_entries l PermAllow.
Definition set_denied_domains (l : list str) : NetworkProxyConfig R → NetworkProxyConfig R :=
  set_domain_entries l PermDeny.
End Config.

(** * policy.rs: hosts *)

(** [Host::parse]; [None] when the host is empty. *)
Definition Host_parse (input : str) : option str :=
  let normalized := normalize_host input in
  if bool_decide (normalized = []) then None else Some normalized.

Definition is_loopback_host (host : str) : bool :=
  let host := default host (unscoped_ip_literal host) in
  if host =s lit "localhost" then true
  else match parse_ip host with Some ip => is_loopback ip | None => false end.

Definition is_default_proxy_bypass_host (host : str) : bool :=
  let host := normalize_host host in
  match parse_ip host with
  | Some (V4 ip) => bool_decide (ip = LOCALHOST4) || is_private ip
  | Some (V6 ip) => bool_decide (ip = LOCALHOST6)
  | None => (host =s lit "localhost") || ends_with (lit ".localhost") host
  end.

(** * runtime.rs: the decision about a host *)

Inductive HostBlockReason := Denied | NotAllowed | NotAllowedLocal.
#[global] Instance HostBlockReason_eq_dec : EqDecision HostBlockReason.
Proof. solve_decision. Defined.

Definition reason_str (r : HostBlockReason) : str :=
  match r with
  | Denied => lit "denied"
  | NotAllowed => lit "not_allowed"
  | NotAllowedLocal => lit "not_allowed_local"
  end.

Inductive HostBlockDecision := Allowed | Blocked (reason : HostBlockReason).
#[global] Instance HostBlockDecision_eq_dec : EqDecision HostBlockDecision.
Proof. solve_decision. Defined.

Inductive HostAuthorization := RequireAllowlist | Approved.
#[global] Instance HostAuthorization_eq_dec : EqDecision HostAuthorization.
Proof. solve_decision. Defined.

Inductive LocalBindingPolicy := DefaultFalse | RequireTrue.
#[global] Instance LocalBindingPolicy_eq_dec : EqDecision LocalBindingPolicy.
Proof. solve_decision. Defined.

Definition domains_match_host_or_unscoped (compiled : list (list N)) (host : str) : bool :=
  set_is_match compiled host
  || match unscoped_ip_literal host with Some ip => set_is_match compiled ip | None => false end.

Definition is_explicit_local_allowlisted (allowed : list str) (host : str) : bool :=
  existsb (λ pattern,
    let pattern := trim pattern in
    if (pattern =s lit "*") || starts_with (lit "*.") pattern || starts_with (lit "**.") pattern then false
    else if str_contains (lit "*") pattern || str_contains (lit "?") pattern then false
    else
      let normalized_pattern := normalize_host pattern in
      (normalized_pattern =s host)
      || match unscoped_ip_literal host with Some ip => normalized_pattern =s ip | None => false end) allowed.

(** DNS: the addresses of a host and port. *)
Definition Lookup : Type := str → N → option (list IpAddr).

Definition host_resolves_to_non_public_ip (lookup : Lookup) (host : str) (port : N) : bool :=
  match parse_ip host with
  | Some ip => is_non_public_ip ip
  | None =>
      match lookup host port with
      | None => true
      | Some addrs => existsb is_non_public_ip addrs
      end
  end.

Definition local_literal (host : str) : bool :=
  let host_no_scope := default host (unscoped_ip_literal host) in
  if is_loopback_host host then true
  else match parse_ip host_no_scope with Some ip => is_non_public_ip ip | None => false end.

(** What the decision reads of the state. *)
Record HostPolicy := mkPolicy {
  denied_set : list (list N);
  allowed_set : list (list N);
  binding_allowed : bool;
  policy_allowed : list str;
}.

(** The body of [host_blocked_with_lookup] behind the reload and the read of the state. *)
Definition decide_host (policy : HostPolicy) (lookup : Lookup) (authorization : HostAuthorization)
    (host : str) (port : N) : HostBlockDecision :=
  match Host_parse host with
  | None => Blocked NotAllowed
  | Some host =>
      if domains_match_host_or_unscoped (denied_set policy) host then Blocked Denied
      else
        let is_authorized :=
          bool_decide (authorization = Approved) || domains_match_host_or_unscoped (allowed_set policy) host in
        let final := if negb is_authorized then Blocked NotAllowed else Allowed in
        if negb (binding_allowed policy) then
          if local_literal host then
            if negb (is_explicit_local_allowlisted (policy_allowed policy) host) then Blocked NotAllowedLocal
            else final
          else if is_authorized && host_resolves_to_non_public_ip lookup host port
               then Blocked NotAllowedLocal
               else final
        else final
  end.

(** * The state behind the decisions *)

Record NetworkProxyConstraints := mkConstraints {
  c_enabled : option bool;
  c_mode : option NetworkMode;
  c_allow_upstream_proxy : option bool;
  c_dangerously_allow_non_loopback_proxy : option bool;
  c_dangerously_allow_all_unix_sockets : option bool;
  c_allowed_domains : option (list str);
  c_allowlist_expansion_enabled : option bool;
  c_denied_domains : option (list str);
  c_denylist_expansion_enabled : option bool;
  c_allow_unix_sockets : option (list str);
  c_allow_local_binding : option bool;
}.
#[global] Instance NetworkProxyConstraints_eq_dec : EqDecision NetworkProxyConstraints.
Proof. solve_decision. Defined.

(** [BlockedRequest]: what the request was, and the execution it came from. *)
Record BlockedRequest {B : Type} := mkBlocked { blocked_what : B; execution_id : option str }.
Arguments BlockedRequest : clear implicits.

(** utils/path-uri: the executor's platform. *)
Inductive Platform := Linux | Macos | Windows | Unknown.
#[global] Instance Platform_eq_dec : EqDecision Platform.
Proof. solve_decision. Defined.

(** [M] is the MITM state with its compiled hooks. *)
Record ConfigState {R B M : Type} := mkState {
  executor_os : Platform;
  config : NetworkProxyConfig R;
  brokerage_created_default_allowlist : bool;
  allow_set : list (list N);
  deny_set : list (list N);
  mitm_state : M;
  constraints : NetworkProxyConstraints;
  blocked : list (BlockedRequest B);
  blocked_total : N;
}.
Arguments ConfigState : clear implicits.

Section State.
Context {R B M Er : Type}.

(** A state as the reloader builds it takes over the log of the old one. *)
Definition keep_log (old new : ConfigState R B M) : ConfigState R B M :=
  mkState R B M (executor_os new) (config new) (brokerage_created_default_allowlist new) (allow_set new)
    (deny_set new) (mitm_state new) (constraints new) (blocked old) (blocked_total old).

(** [NetworkProxyState]: the shared state and what the reloader will answer;
    an exhausted list answers that nothing changed. *)
Record NetworkProxyState := mkProxy {
  state : ConfigState R B M;
  reloads : list (result Er (option (ConfigState R B M)));
  local_binding_policy : LocalBindingPolicy;
  proxy_execution_id : option str;
}.

Definition with_state (s : ConfigState R B M) (p : NetworkProxyState) : NetworkProxyState :=
  mkProxy s (reloads p) (local_binding_policy p) (proxy_execution_id p).

Definition reload_if_needed : stE NetworkProxyState Er unit := fun p =>
  match reloads p with
  | [] => (p, Ok tt)
  | answer :: rest =>
      let p := mkProxy (state p) rest (local_binding_policy p) (proxy_execution_id p) in
      match answer with
      | Err e => (p, Err e)
      | Ok None => (p, Ok tt)
      | Ok (Some new_state) => (with_state (keep_log (state p) new_state) p, Ok tt)
      end
  end.

Definition resolve_binding (self : LocalBindingPolicy) (cfg : NetworkProxyConfig R) : bool :=
  default (enabled cfg && bool_decide (self = RequireTrue)) (allow_local_binding cfg).

(** The values [host_blocked_with_lookup] copies from the state. *)
Definition read_policy (allow_binding : option bool) (p : NetworkProxyState) : HostPolicy :=
  let cfg := config (state p) in
  mkPolicy (deny_set (state p)) (allow_set (state p))
    (default (resolve_binding (local_binding_policy p) cfg) allow_binding
     && negb (bool_decide (allow_local_binding cfg = Some false)))
    (default [] (allowed_domains cfg)).

Definition host_blocked_with_lookup (lookup : Lookup) (allow_binding : option bool)
    (authorization : HostAuthorization) (host : str) (port : N)
    : stE NetworkProxyState Er HostBlockDecision :=
  reload_if_needed ;;;
  p <- st_get ;;
  st_ret (decide_host (read_policy allow_binding p) lookup authorization host port).

Definition host_blocked (lookup : Lookup) (host : str) (port : N) : stE NetworkProxyState Er HostBlockDecision :=
  host_blocked_with_lookup lookup None RequireAllowlist host port.
End State.
Arguments NetworkProxyState : clear implicits.

(** * network_policy.rs: decisions with a decider *)

Inductive NetworkPolicyDecision := DecisionDeny | DecisionAsk.
Inductive NetworkDecisionSource := BaselinePolicy | ModeGuard | ProxyState | Decider.
Inductive NetworkDecision :=
| DecideAllow
| DecideDeny (reason : str) (source : NetworkDecisionSource) (decision : NetworkPolicyDecision).

Definition deny_with_source (reason : str) (source : NetworkDecisionSource) : NetworkDecision :=
  DecideDeny (if bool_decide (reason = []) then lit "policy_denied" else reason) source DecisionDeny.

Definition map_decider_decision (d : NetworkDecision) : NetworkDecision :=
  match d with
  | DecideAllow => DecideAllow
  | DecideDeny reason _ decision => DecideDeny reason Decider decision
  end.

Section Evaluate.
Context {R B M Er Q : Type}.

(** The request: its host and port, the rest of it is for the decider. *)
Record NetworkPolicyRequest := mkRequest {
  req_host : str;
  req_port : N;
  req_environment_id : option str;
  req_execution_id : option str;
  req_rest : Q;
}.

(** The request as the decider sees it; [env] is the state's environment. *)
Definition attribute (env exec : option str) (r : NetworkPolicyRequest) : NetworkPolicyRequest :=
  mkRequest (req_host r) (req_port r)
    (match req_environment_id r with None => env | Some e => Some e end) exec (req_rest r).

(** The two lookups may answer differently. *)
Definition evaluate_host_policy (lookup1 lookup2 : Lookup) (env : option str)
    (decider : option (NetworkPolicyRequest → NetworkDecision)) (request : NetworkPolicyRequest)
    : stE (NetworkProxyState R B M Er) Er NetworkDecision :=
  p <- st_get ;;
  let exec := proxy_execution_id p in
  host_decision <- host_blocked lookup1 (req_host request) (req_port request) ;;
  match host_decision with
  | Allowed => st_ret DecideAllow
  | Blocked NotAllowed =>
      match decider with
      | Some decide =>
          let decider_decision := map_decider_decision (decide (attribute env exec request)) in
          match decider_decision with
          | DecideAllow =>
              again <- host_blocked_with_lookup lookup2 None Approved (req_host request) (req_port request) ;;
              match again with
              | Blocked reason => st_ret (deny_with_source (reason_str reason) BaselinePolicy)
              | Allowed => st_ret DecideAllow
              end
          | _ => st_ret decider_decision
          end
      | None => st_ret (deny_with_source (reason_str NotAllowed) BaselinePolicy)
      end
  | Blocked reason => st_ret (deny_with_source (reason_str reason) BaselinePolicy)
  end.
End Evaluate.
Arguments NetworkPolicyRequest : clear implicits.

(** * What an allowed host is *)

Definition no_scope (host : str) : str := default host (unscoped_ip_literal host).

(** Not a way into the local network: a host listed by name, a public address, or a
    name all of whose addresses are public. *)
Definition local_safe (policy : HostPolicy) (lookup : Lookup) (host : str) (port : N) : Prop :=
  is_explicit_local_allowlisted (policy_allowed policy) host = true
  ∨ match parse_ip (no_scope host) with
    | Some ip => non_public ip = false
    | None => no_scope host ≠ lit "localhost"
              ∧ ∃ addrs, lookup host port = Some addrs ∧ Forall (λ a, is_non_public_ip a = false) addrs
    end.

Definition authorized (policy : HostPolicy) (auth : HostAuthorization) (host : str) : Prop :=
  auth = Approved ∨ domains_match_host_or_unscoped (allowed_set policy) host = true.

Lemma unscoped_parse host ip : unscoped_ip_literal host = Some ip → ∃ a, parse_ip ip = Some a.
Proof.
  unfold unscoped_ip_literal, is_ip. repeat case_match; intros [= <-] || intros ?; try done; eauto.
Qed.

Lemma not_local_safe policy lookup host port :
  local_literal host = false → host_resolves_to_non_public_ip lookup host port = false →
  local_safe policy lookup host port.
Proof.
  unfold local_literal, host_resolves_to_non_public_ip, local_safe. fold (no_scope host). intros Hl Hr. right.
  destruct (is_loopback_host host) eqn:Elo; [done|].
  destruct (parse_ip (no_scope host)) as [ip|] eqn:Eip.
  - rewrite <-Hl. symmetry. by apply non_public_correct, (parse_ip_wf (no_scope host)).
  - split.
    + intros Hn. unfold is_loopback_host in Elo. fold (no_scope host) in Elo. by rewrite Hn in Elo.
    + unfold no_scope in Eip. destruct (unscoped_ip_literal host) as [u|] eqn:Eu.
      * destruct (unscoped_parse _ _ Eu) as [a Ha]. simpl in Eip. congruence.
      * simpl in Eip. rewrite Eip in Hr. destruct (lookup host port) as [addrs|]; [|done].
        exists addrs. split; [done|]. apply Forall_forall. intros a Ha. apply not_true_iff_false. intros Hp.
        apply not_true_iff_false in Hr. apply Hr, existsb_exists. exists a. split; [|done]. by apply list_elem_of_In.
Qed.

Lemma decide_allowed policy lookup auth host port :
  decide_host policy lookup auth host port = Allowed →
  ∃ h, Host_parse host = Some h ∧ domains_match_host_or_unscoped (denied_set policy) h = false
    ∧ authorized policy auth h ∧ (binding_allowed policy = true ∨ local_safe policy lookup h port).
Proof.
  unfold decide_host. destruct (Host_parse host) as [h|] eqn:Eh; [|done]. intros H. exists h.
  destruct (domains_match_host_or_unscoped (denied_set policy) h) eqn:Ed; [done|].
  destruct (bool_decide (auth = Approved) || domains_match_host_or_unscoped (allowed_set policy) h) eqn:Ea.
  - split_and!; [done|done| |].
    + apply orb_true_iff in Ea as [?%bool_decide_eq_true|?]; [by left|by right].
    + destruct (binding_allowed policy); [by left|right]. simpl in H.
      destruct (local_literal h) eqn:El.
      * destruct (is_explicit_local_allowlisted _ h) eqn:Ee; [by left|done].
      * destruct (host_resolves_to_non_public_ip lookup h port) eqn:Er; [done|]. by apply not_local_safe.
  - destruct (binding_allowed policy); [done|]. simpl in H. by repeat case_match.
Qed.

Lemma host_blocked_allowed {R B M Er} lookup binding auth host port (p p' : NetworkProxyState R B M Er) :
  host_blocked_with_lookup lookup binding auth host port p = (p', Ok Allowed) →
  ∃ h, Host_parse host = Some h ∧ domains_match_host_or_unscoped (deny_set (state p')) h = false
    ∧ authorized (read_policy binding p') auth h
    ∧ (binding_allowed (read_policy binding p') = true ∨ local_safe (read_policy binding p') lookup h port).
Proof.
  unfold host_blocked_with_lookup, st_bind, st_get, st_ret. destruct (reload_if_needed p) as [q [[]|e]]; [|done].
  intros [= -> Hd]. by apply decide_allowed in Hd.
Qed.

(** C4: A request the proxy lets through is safe with respect to the state it was last
    checked against, whatever the decider says and however the configuration was
    reloaded meanwhile: its host matches no deny pattern; it matches an allow pattern
    or the decider approved it; and unless local binding is enabled, the host was
    listed by name, is a public address, or is a name (not localhost) all of whose
    addresses are public. *)
Theorem allowed_request_safe {R B M Er Q} lookup1 lookup2 env
    (decider : option (NetworkPolicyRequest Q → NetworkDecision)) request (p p' : NetworkProxyState R B M Er) :
  evaluate_host_policy lookup1 lookup2 env decider request p = (p', Ok DecideAllow) →
  let policy := read_policy None p' in
  ∃ h, Host_parse (req_host request) = Some h
    ∧ domains_match_host_or_unscoped (deny_set (state p')) h = false
    ∧ (domains_match_host_or_unscoped (allow_set (state p')) h = true
       ∨ ∃ decide r, decider = Some decide ∧ decide r = DecideAllow ∧ req_host r = req_host request)
    ∧ (binding_allowed policy = true
       ∨ ∃ lookup, (lookup = lookup1 ∨ lookup = lookup2) ∧ local_safe policy lookup h (req_port request)).
Proof.
  unfold evaluate_host_policy. cbv beta zeta delta [st_bind st_get st_ret]. unfold host_blocked.
  destruct (host_blocked_with_lookup lookup1 None RequireAllowlist (req_host request) (req_port request) p)
    as [q [[|[]]|e]] eqn:E1; try done; cbv beta iota.
  - intros [= <-]. apply host_blocked_allowed in E1 as (h & Hh & Hd & [Ha|Ha] & Hl); [done|].
    exists h. split_and!; [done|done|by left|]. destruct Hl; [by left|right; eauto].
  - destruct decider as [decide|]; [|done]. unfold map_decider_decision.
    destruct (decide (attribute env (proxy_execution_id p) request)) eqn:Ed; [|done].
    destruct (host_blocked_with_lookup lookup2 None Approved (req_host request) (req_port request) q)
      as [q' [[|]|e]] eqn:E2; try done. intros [= <-].
    apply host_blocked_allowed in E2 as (h & Hh & Hd & _ & Hl). exists h. split_and!; [done|done| |].
    + right. by exists decide, (attribute env (proxy_execution_id p) request).
    + destruct Hl; [by left|right; eauto].
Qed.

(** * Local addresses *)

Lemma digit_facts c : is_ascii_digit c = true →
  is_whitespace c = false ∧ N.eqb DOT c = false ∧ ascii_lower c = c ∧ c ≠ 91%N ∧ c ≠ 58%N ∧ c ≠ 37%N.
Proof.
  intros Hd. assert (c ∈ lit "0123456789") as Hin.
  { unfold is_ascii_digit in Hd. rewrite andb_true_iff, !N.leb_le in Hd.
    change (lit "0123456789") with [48;49;50;51;52;53;54;55;56;57]%N. rewrite !elem_of_cons. lia. }
  clear Hd. revert c Hin. apply Forall_forall. refine (bool_decide_unpack _ _). by vm_compute.
Qed.

Section Literals.
Context (ip : Ipv4Addr) (Hwf : v4_wf ip).

Lemma show_v4_no c : c ∈ lit "[:%" → c ∉ show_v4 ip.
Proof using Hwf.
  intros Hc Hin. destruct (show_v4_chars ip Hwf) as (Hf & _). eapply Forall_forall in Hf; [|exact Hin].
  assert (c = 91 ∨ c = 58 ∨ c = 37)%N as Hc'.
  { change (lit "[:%") with [91; 58; 37]%N in Hc. rewrite !elem_of_cons, elem_of_nil in Hc. tauto. }
  destruct Hf as [Hd|Hd]; [apply digit_facts in Hd; tauto|]. subst c. lia.
Qed.

Lemma show_v4_host : normalize_host (show_v4 ip) = show_v4 ip.
Proof using Hwf.
  destruct (show_v4_chars ip Hwf) as (Hf & Hhd & Hla & Hne). unfold normalize_host.
  assert (trim (show_v4 ip) = show_v4 ip) as ->.
  { apply trim_fixpoint. unfold trimmed. destruct (head (show_v4 ip)) as [a|] eqn:Ea; [|done].
    destruct (last (show_v4 ip)) as [b|] eqn:Eb; [|done].
    destruct (digit_facts a (Hhd a eq_refl)) as [-> _], (digit_facts b (Hla b eq_refl)) as [-> _]. done. }
  assert (normalize_dns_host_or_ip_literal (show_v4 ip) = show_v4 ip) as Hn.
  { unfold normalize_dns_host_or_ip_literal.
    assert (to_ascii_lowercase (show_v4 ip) = show_v4 ip) as ->.
    { unfold to_ascii_lowercase. rewrite <-(list_fmap_id (show_v4 ip)) at 2. apply list_fmap_ext. intros i c Hc. simpl.
      eapply Forall_lookup_1 in Hf; [|exact Hc]. destruct Hf as [Hd|Hd]; [|by subst c].
      by destruct (digit_facts c Hd) as (_ & _ & -> & _). }
    rewrite trim_end_by_fixpoint by (intros c Hc; by destruct (digit_facts c (Hla c Hc)) as (_ & ? & _)).
    unfold normalize_ip_literal, is_ip. by rewrite (parse_show_v4 ip Hwf). }
  assert (starts_with (lit "[") (show_v4 ip) = false) as ->.
  { apply not_true_iff_false. intros [t Ht]%starts_with_spec. apply (show_v4_no 91%N); [in_lit|]. rewrite Ht. left. }
  case_match eqn:E; [|done]. exfalso. apply Nat.eqb_eq in E. destruct (filter _ (show_v4 ip)) as [|c l] eqn:Ef; [done|].
  assert (c ∈ filter (λ c, c = COLON_CH) (show_v4 ip)) as [-> Hin]%list_elem_of_filter by (rewrite Ef; left).
  by apply (show_v4_no 58%N); [in_lit|].
Qed.

Lemma show_v4_parse : Host_parse (show_v4 ip) = Some (show_v4 ip).
Proof using Hwf.
  unfold Host_parse. rewrite show_v4_host. rewrite bool_decide_eq_false_2; [done|]. by apply show_v4_chars.
Qed.

Lemma show_v4_unscoped : unscoped_ip_literal (show_v4 ip) = None.
Proof using Hwf.
  unfold unscoped_ip_literal, split_once. change (lit "%") with [37%N].
  rewrite str_find_no_first; [done|]. apply show_v4_no. in_lit.
Qed.
End Literals.

(** An IPv4 address of a private, loopback, link-local or other non-public block is
    blocked as long as local binding is off and no allow pattern is that address
    itself: no wildcard and no approval opens it. *)
Theorem local_v4_blocked (policy : HostPolicy) lookup auth (ip : Ipv4Addr) port :
  v4_wf ip → non_public_v4 ip = true → binding_allowed policy = false →
  Forall (λ p, normalize_host (trim p) ≠ show_v4 ip) (policy_allowed policy) →
  decide_host policy lookup auth (show_v4 ip) port = Blocked Denied
  ∨ decide_host policy lookup auth (show_v4 ip) port = Blocked NotAllowedLocal.
Proof.
  intros Hwf Hnp Hb Hal. unfold decide_host. rewrite show_v4_parse by done.
  destruct (domains_match_host_or_unscoped _ _); [by left|right]. rewrite Hb.
  assert (local_literal (show_v4 ip) = true) as ->.
  { unfold local_literal. destruct (is_loopback_host (show_v4 ip)); [done|].
    rewrite show_v4_unscoped by done. simpl. rewrite parse_show_v4 by done. by rewrite non_public_correct. }
  assert (is_explicit_local_allowlisted (policy_allowed policy) (show_v4 ip) = false) as ->; [|done].
  unfold is_explicit_local_allowlisted. rewrite show_v4_unscoped by done.
  induction Hal as [|p l Hp _ IH]; [done|]. cbn [existsb]. rewrite IH, orb_false_r.
  repeat (case_match; [done|]). by rewrite orb_false_r, bool_decide_eq_false_2.
Qed.

Lemma local_v4_blocked_witness :
  let policy := mkPolicy [] [lit "*"] false [lit "*"] in
  decide_host policy (λ _ _, Some []) Approved (show_v4 (mkV4 169 254 169 254)) 80 = Blocked Denied
  ∨ decide_host policy (λ _ _, Some []) Approved (show_v4 (mkV4 169 254 169 254)) 80 = Blocked NotAllowedLocal.
Proof.
  apply local_v4_blocked; [by vm_compute|by vm_compute|done|].
  constructor; [by vm_compute|constructor].
Defined.

(** * Permissions in effect *)

Definition stronger (a : option NetworkDomainPermission) (b : NetworkDomainPermission) : option NetworkDomainPermission :=
  match a with
  | None => Some b
  | Some a => Some (if permission_rank a <? permission_rank b then b else a)
  end.

(** The strongest permission an entry gives a pattern, from [a] on. *)
Definition strongest (p : str) (a : option NetworkDomainPermission) (entries : list NetworkDomainPermissionEntry)
    : option NetworkDomainPermission :=
  foldl (λ a e, if pattern e =s p then stronger a (permission e) else a) a entries.

Lemma effective_loop_spec entries order m order' m' :
  effective_loop entries order m = (order', m') → NoDup order → (∀ p, p ∈ order ↔ is_Some (m !! p)) →
  NoDup order' ∧ (∀ p, p ∈ order' ↔ is_Some (m' !! p)) ∧ ∀ p, m' !! p = strongest p (m !! p) entries.
Proof.
  revert order m. induction entries as [|e entries IH]; intros order m; simpl.
  { intros [= <- <-] Hnd Hin. done. }
  destruct (m !! pattern e) as [q|] eqn:Eq; intros H Hnd Hin.
  - apply IH in H as (Hnd' & Hin' & Hs); [|done|].
    + split_and!; [done|done|]. intros p. rewrite Hs. f_equal. case_bool_decide as Hp.
      * subst p. rewrite Eq. simpl. case_match; [apply lookup_insert_eq|done].
      * case_match; [|done]. by rewrite lookup_insert_ne.
    + intros p. rewrite Hin. case_match; [|done]. destruct (decide (pattern e = p)) as [<-|Hp].
      * rewrite lookup_insert_eq, Eq. split; eauto.
      * by rewrite lookup_insert_ne.
  - apply IH in H as (Hnd' & Hin' & Hs).
    + split_and!; [done|done|]. intros p. rewrite Hs. f_equal. case_bool_decide as Hp.
      * subst p. by rewrite lookup_insert_eq, Eq.
      * by rewrite lookup_insert_ne.
    + apply NoDup_app. split_and!; [done| |apply NoDup_singleton].
      intros p Hp%Hin ->%list_elem_of_singleton. rewrite Eq in Hp. by destruct Hp.
    + intros p. rewrite elem_of_app, list_elem_of_singleton, Hin. destruct (decide (pattern e = p)) as [<-|Hp].
      * rewrite lookup_insert_eq. split; eauto.
      * rewrite lookup_insert_ne by done. naive_solver.
Qed.

Lemma take_permissions_elem order m e : NoDup order →
  e ∈ take_permissions order m ↔ pattern e ∈ order ∧ m !! pattern e = Some (permission e).
Proof.
  intros Hnd. revert m. induction Hnd as [|p order Hp Hnd IH]; intros m; simpl.
  { rewrite !elem_of_nil. tauto. }
  destruct (m !! p) as [perm|] eqn:Em.
  - rewrite !elem_of_cons, IH. destruct e as [q perm']. simpl. split.
    + intros [[= -> ->]|[Hin Hl]]; [auto|]. rewrite lookup_delete_ne in Hl by (intros ->; done). auto.
    + intros [[->|Hin] Hl]; [left; congruence|]. right. rewrite lookup_delete_ne by (intros ->; done). auto.
  - rewrite elem_of_cons, IH. split; [naive_solver|]. intros [[->|Hin] Hl]; [congruence|done].
Qed.

Lemma effective_entries_elem entries e :
  e ∈ effective_entries entries ↔ strongest (pattern e) None entries = Some (permission e).
Proof.
  unfold effective_entries. destruct (effective_loop entries [] ∅) as [order m] eqn:E.
  apply effective_loop_spec in E as (Hnd & Hin & Hs); [|constructor|].
  - rewrite take_permissions_elem by done. rewrite Hs, lookup_empty. split; [tauto|]. intros H. split; [|done].
    apply Hin. rewrite Hs, lookup_empty, H. eauto.
  - intros p. rewrite lookup_empty, elem_of_nil. split; [done|]. by intros [].
Qed.

Lemma strongest_cons p a e entries :
  strongest p a (e :: entries) = strongest p (if pattern e =s p then stronger a (permission e) else a) entries.
Proof. done. Qed.

Lemma strongest_deny p entries : ∀ a,
  strongest p a entries = Some PermDeny ↔ a = Some PermDeny ∨ mkEntry p PermDeny ∈ entries.
Proof.
  induction entries as [|[q perm] entries IH]; intros a.
  { rewrite elem_of_nil. simpl. naive_solver. }
  rewrite strongest_cons, IH, elem_of_cons. simpl. case_bool_decide as Hq; [subst q|naive_solver].
  destruct a as [[]|], perm; simpl; naive_solver.
Qed.

Lemma strongest_allow p entries : ∀ a,
  strongest p a entries = Some PermAllow ↔
  (a = Some PermAllow ∨ mkEntry p PermAllow ∈ entries) ∧ a ≠ Some PermDeny ∧ mkEntry p PermDeny ∉ entries.
Proof.
  induction entries as [|[q perm] entries IH]; intros a.
  { rewrite !elem_of_nil. simpl. naive_solver. }
  rewrite strongest_cons, IH, !elem_of_cons. simpl. case_bool_decide as Hq; [subst q|naive_solver].
  destruct a as [[]|], perm; simpl; naive_solver.
Qed.

Lemma domain_entries_elem {R} (cfg : NetworkProxyConfig R) perm p :
  p ∈ default [] (domain_entries cfg perm) ↔ strongest p None (default [] (domains cfg)) = Some perm.
Proof.
  unfold domain_entries. destruct (domains cfg) as [d|]; simpl; [|by rewrite elem_of_nil].
  assert (p ∈ pattern <$> filter (λ e, permission e = perm) (effective_entries d) ↔ strongest p None d = Some perm) as Hp.
  { rewrite list_elem_of_fmap. setoid_rewrite list_elem_of_filter. setoid_rewrite effective_entries_elem. split.
    - by intros (e & -> & <- & H).
    - intros H. by exists (mkEntry p perm). }
  case_bool_decide as He; [|done]. simpl. by rewrite <-He.
Qed.

Lemma effective_entries_NoDup entries : NoDup (pattern <$> effective_entries entries).
Proof.
  unfold effective_entries. destruct (effective_loop entries [] ∅) as [order m] eqn:E.
  apply effective_loop_spec in E as (Hnd & _); [|constructor|].
  - revert m. induction Hnd as [|p order Hp Hnd IH]; intros m; simpl; [constructor|].
    case_match; [|apply IH]. rewrite fmap_cons. constructor; [|apply IH]. simpl.
    intros (e & -> & He)%list_elem_of_fmap. by apply take_permissions_elem in He as [? _].
  - intros p. rewrite lookup_empty, elem_of_nil. split; [done|]. by intros [].
Qed.

(** Duplicate patterns of a network configuration resolve to the strongest
    permission: a pattern is denied as soon as one entry denies it, and allowed only
    if an entry allows it and none denies it; no pattern is listed twice. *)
Theorem deny_entry_wins {R} (cfg : NetworkProxyConfig R) (p : str) :
  (p ∈ default [] (denied_domains cfg) ↔ mkEntry p PermDeny ∈ default [] (domains cfg))
  ∧ (p ∈ default [] (allowed_domains cfg) ↔
       mkEntry p PermAllow ∈ default [] (domains cfg) ∧ mkEntry p PermDeny ∉ default [] (domains cfg))
  ∧ NoDup (default [] (denied_domains cfg)) ∧ NoDup (default [] (allowed_domains cfg)).
Proof.
  unfold denied_domains, allowed_domains. rewrite !domain_entries_elem, strongest_deny, strongest_allow.
  assert (∀ perm, NoDup (default [] (domain_entries cfg perm))) as Hnd.
  { intros perm. unfold domain_entries. destruct (domains cfg) as [d|]; [|constructor]. simpl.
    case_bool_decide; [constructor|]. simpl. pose proof (effective_entries_NoDup d) as Hd.
    eapply sublist_NoDup; [exact Hd|]. by apply fmap_sublist, sublist_filter. }
  split_and!; [naive_solver|naive_solver|apply Hnd..].
Qed.

(** A host the decider approves, with an address that is public. *)
Definition example_proxy : NetworkProxyState unit unit unit unit :=
  let cfg := mkConfig unit true true false None Full (Some [mkEntry (lit "bad.example.com") PermDeny]) None None
               false false false tt in
  mkProxy (mkState unit unit unit Linux cfg false [] [lit "bad.example.com"] tt
             (mkConstraints None None None None None None None None None None None) [] 0) [Ok None] DefaultFalse None.

Lemma allowed_request_safe_witness :
  let dns : Lookup := λ _ _, Some [V4 (mkV4 93 184 215 14)] in
  let p' := (evaluate_host_policy dns dns None (Some (λ _, DecideAllow))
               (mkRequest (lit "Example.com:443") 443 None None tt) example_proxy).1 in
  ∃ h, Host_parse (lit "Example.com:443") = Some h
    ∧ domains_match_host_or_unscoped (deny_set (state p')) h = false
    ∧ (binding_allowed (read_policy None p') = true
       ∨ ∃ lookup, (lookup = dns ∨ lookup = dns) ∧ local_safe (read_policy None p') lookup h 443).
Proof.
  intros dns p'.
  destruct (allowed_request_safe dns dns None (Some (λ _, DecideAllow))
    (mkRequest (lit "Example.com:443") 443 None None tt) example_proxy p') as (h & Hh & Hd & _ & Hl).
  - by vm_compute.
  - by exists h.
Defined.
