(* ===== verification/NetworkState.v ===== *)
(** network-proxy: managed constraints (state.rs) and the shared state the proxy's
    tasks read and write (runtime.rs, socket_path.rs).

    Each method is a sequence of accesses to the state under its lock.  Between the
    read and the write of a method that retries, other tasks may change the state: the
    changes are an argument, one per round.  Texts of constraint errors beyond the
    field name are left out.  Parameters: the validation of MITM hooks (a function of
    the hooks and of whether MITM is on) and the construction of the MITM state. *)
From S2P Require Import Prelude Str IpAddr NetworkDomain NetworkPolicy.

(** * socket_path.rs *)

Inductive PathConvention := Posix | WindowsPaths.

Definition path_convention (self : Platform) : option PathConvention :=
  match self with
  | Linux | Macos => Some Posix
  | Windows => Some WindowsPaths
  | Unknown => None
  end.

Definition is_slash (c : N) : bool := N.eqb c 92 || N.eqb c 47.

Definition windows_path_is_absolute (path : str) : bool :=
  match path with
  | drive :: colon :: sep :: _ =>
      is_ascii_alphabetic drive && N.eqb colon 58 && is_slash sep
  | _ => false
  end
  || match path with
     | a :: b :: rest =>
         is_slash a && is_slash b
         && (starts_with (lit "\\?\") path
             || match rest with dot :: sep :: _ => N.eqb dot 46 && is_slash sep | _ => false end
             || match split_by is_slash rest with
                | server :: share :: _ => negb (bool_decide (server = [])) && negb (bool_decide (share = []))
                | _ => false
                end)
     | _ => false
     end.

Definition socket_path_is_absolute (platform : Platform) (path : str) : bool :=
  starts_with (lit "/") path
  || match path_convention platform with
     | Some Posix => false
     | Some WindowsPaths | None => windows_path_is_absolute path
     end.

(** * state.rs: constraints *)

(** [NetworkProxyConstraintError::InvalidValue] *)
Inductive NetworkProxyConstraintError := InvalidValue (field_name : str).

Definition network_mode_rank (m : NetworkMode) : nat := match m with Limited => 0 | Full => 1 end.

Definition validate_non_global_wildcard_domain_patterns (field_name : str) (patterns : list str)
    : result NetworkProxyConstraintError unit :=
  if existsb is_global_wildcard_domain_pattern patterns then Err (InvalidValue field_name) else Ok tt.

(** [iter().map(to_ascii_lowercase).collect::<HashSet<_>>()] *)
Definition lower_set (l : list str) : gset str := list_to_set (to_ascii_lowercase <$> l).

Definition allow_unix_sockets {R} (cfg : NetworkProxyConfig R) : list str :=
  match unix_sockets cfg with
  | Some m => (filter (λ '(_, p), p = SocketAllow) (map_to_list m)).*1
  | None => []
  end.

Definition check (ok : bool) (field_name : str) : result NetworkProxyConstraintError unit :=
  if ok then Ok tt else Err (InvalidValue field_name).

Section Constraints.
Context {R : Type} (url_host : str → option str) (hooks_valid : bool → R → bool).

(** The three ways a managed allowlist limits the configured one. *)
Definition allowed_domains_ok (expansion : option bool) (managed candidate denied : list str) : bool :=
  match expansion with
  | Some true => bool_decide (lower_set managed ⊆ lower_set candidate ∪ lower_set denied)
  | Some false => bool_decide (lower_set candidate = lower_set managed ∖ lower_set denied)
  | None =>
      forallb (λ entry,
        existsb (λ m, allows (parse_for_constraints url_host m) (parse_for_constraints url_host entry)) managed)
        candidate
  end.

Definition denied_domains_ok (expansion : option bool) (managed candidate : list str) : bool :=
  match expansion with
  | Some false => bool_decide (lower_set candidate = lower_set managed)
  | Some true | None => bool_decide (lower_set managed ⊆ lower_set candidate)
  end.

Definition validate_policy_against_constraints (cfg : NetworkProxyConfig R) (c : NetworkProxyConstraints)
    : result NetworkProxyConstraintError unit :=
  let config_allowed := default [] (allowed_domains cfg) in
  let config_denied := default [] (denied_domains cfg) in
  let sockets := allow_unix_sockets cfg in
  let? _ := check (hooks_valid (mitm_enabled cfg) (cfg_rest cfg)) (lit "network.mitm_hooks") in
  let? _ := validate_non_global_wildcard_domain_patterns (lit "network.denied_domains") config_denied in
  let? _ := match c_enabled c with
            | Some max_enabled => check (negb (enabled cfg && negb max_enabled)) (lit "network.enabled")
            | None => Ok tt
            end in
  let? _ := match c_mode c with
            | Some max_mode => check (network_mode_rank (mode cfg) <=? network_mode_rank max_mode) (lit "network.mode")
            | None => Ok tt
            end in
  let? _ := match c_allow_upstream_proxy c with
            | Some true | None => Ok tt
            | Some false => check (negb (allow_upstream_proxy cfg)) (lit "network.allow_upstream_proxy")
            end in
  let? _ := match c_dangerously_allow_non_loopback_proxy c with
            | Some true | None => Ok tt
            | Some false => check (negb (dangerously_allow_non_loopback_proxy cfg))
                              (lit "network.dangerously_allow_non_loopback_proxy")
            end in
  let allow_all_unix_sockets :=
    default (bool_decide (c_allow_unix_sockets c = None)) (c_dangerously_allow_all_unix_sockets c) in
  let? _ := check (negb (default false (dangerously_allow_all_unix_sockets cfg) && negb allow_all_unix_sockets))
              (lit "network.dangerously_allow_all_unix_sockets") in
  let? _ := match c_allow_local_binding c with
            | Some b => check (negb (default false (allow_local_binding cfg) && negb b))
                          (lit "network.allow_local_binding")
            | None => Ok tt
            end in
  let? _ := match c_allowed_domains c with
            | Some managed =>
                let? _ := validate_non_global_wildcard_domain_patterns (lit "network.allowed_domains") managed in
                check (allowed_domains_ok (c_allowlist_expansion_enabled c) managed config_allowed config_denied)
                  (lit "network.allowed_domains")
            | None => Ok tt
            end in
  let? _ := match c_denied_domains c with
            | Some managed =>
                let? _ := validate_non_global_wildcard_domain_patterns (lit "network.denied_domains") managed in
                check (denied_domains_ok (c_denylist_expansion_enabled c) managed config_denied)
                  (lit "network.denied_domains")
            | None => Ok tt
            end in
  match c_allow_unix_sockets c with
  | Some managed =>
      check (forallb (λ entry, bool_decide (to_ascii_lowercase entry ∈ lower_set managed)) sockets)
        (lit "network.allow_unix_sockets")
  | None => Ok tt
  end.
End Constraints.

(** * state.rs: building a state *)

Inductive BuildError {Er : Type} :=
| SocketPathError
| BrokerNeedsMitm
| CaNeedsMitm
| ConstraintError (e : NetworkProxyConstraintError)
| PatternError (e : domain_error)
| MitmError (e : Er).
Arguments BuildError : clear implicits.

(** Failures of the methods below. *)
Inductive StateError {Er : Type} :=
| ReloadError (e : Er)
| InvalidHost
| Constrained (e : NetworkProxyConstraintError)
| BuildFailed (e : BuildError Er).
Arguments StateError : clear implicits.

Section Runtime.
Context {R B M Er : Type} `{EqDecision R}.
Context (url_host : str → option str) (hooks_valid : bool → R → bool)
  (build_mitm : NetworkProxyConfig R → result Er M).

Definition set_broker (b : bool) (cfg : NetworkProxyConfig R) : NetworkProxyConfig R :=
  mkConfig R (enabled cfg) (allow_upstream_proxy cfg) (dangerously_allow_non_loopback_proxy cfg)
    (dangerously_allow_all_unix_sockets cfg) (mode cfg) (domains cfg) (unix_sockets cfg) (allow_local_binding cfg)
    (mitm_enabled cfg) (has_mitm_ca cfg) b (cfg_rest cfg).
Definition set_enabled (b : bool) (cfg : NetworkProxyConfig R) : NetworkProxyConfig R :=
  mkConfig R b (allow_upstream_proxy cfg) (dangerously_allow_non_loopback_proxy cfg)
    (dangerously_allow_all_unix_sockets cfg) (mode cfg) (domains cfg) (unix_sockets cfg) (allow_local_binding cfg)
    (mitm_enabled cfg) (has_mitm_ca cfg) (credential_broker cfg) (cfg_rest cfg).
Definition set_mode (m : NetworkMode) (cfg : NetworkProxyConfig R) : NetworkProxyConfig R :=
  mkConfig R (enabled cfg) (allow_upstream_proxy cfg) (dangerously_allow_non_loopback_proxy cfg)
    (dangerously_allow_all_unix_sockets cfg) m (domains cfg) (unix_sockets cfg) (allow_local_binding cfg)
    (mitm_enabled cfg) (has_mitm_ca cfg) (credential_broker cfg) (cfg_rest cfg).
Definition set_binding (b : option bool) (cfg : NetworkProxyConfig R) : NetworkProxyConfig R :=
  mkConfig R (enabled cfg) (allow_upstream_proxy cfg) (dangerously_allow_non_loopback_proxy cfg)
    (dangerously_allow_all_unix_sockets cfg) (mode cfg) (domains cfg) (unix_sockets cfg) b
    (mitm_enabled cfg) (has_mitm_ca cfg) (credential_broker cfg) (cfg_rest cfg).

#[global] Instance NetworkProxyConfig_eq_dec : EqDecision (NetworkProxyConfig R).
Proof. solve_decision. Defined.

Definition validate_unix_socket_allowlist_paths (cfg : NetworkProxyConfig R) (os : Platform) : bool :=
  forallb (λ path, socket_path_is_absolute os path && negb (bool_decide (0%N ∈ path))) (allow_unix_sockets cfg).

Definition ensure (ok : bool) (e : BuildError Er) : result (BuildError Er) unit := if ok then Ok tt else Err e.

Definition build_config_state (cfg : NetworkProxyConfig R) (c : NetworkProxyConstraints) (os : Platform)
    : result (BuildError Er) (ConfigState R B M) :=
  let cfg := if bool_decide (c_enabled c = Some false) then set_broker false cfg else cfg in
  let brokerage_created_proxy := credential_broker cfg && negb (enabled cfg) in
  let brokerage_created_default_allowlist :=
    brokerage_created_proxy && bool_decide (allowed_domains cfg = None) && bool_decide (c_allowed_domains c = None) in
  let cfg := if brokerage_created_proxy then set_enabled true cfg else cfg in
  let cfg := if brokerage_created_default_allowlist then set_allowed_domains [lit "*"] cfg else cfg in
  let? _ := ensure (validate_unix_socket_allowlist_paths cfg os) SocketPathError in
  let? _ := ensure (negb (credential_broker cfg) || mitm_enabled cfg) BrokerNeedsMitm in
  let? _ := ensure (negb (has_mitm_ca cfg) || mitm_enabled cfg) CaNeedsMitm in
  let allowed := default [] (allowed_domains cfg) in
  let denied := default [] (denied_domains cfg) in
  let? _ := map_err ConstraintError
              (validate_non_global_wildcard_domain_patterns (lit "network.denied_domains") denied) in
  let? deny := map_err PatternError (compile_denylist denied) in
  let? allow := map_err PatternError (compile_allowlist allowed) in
  let? m := map_err MitmError (build_mitm cfg) in
  Ok (mkState R B M os cfg brokerage_created_default_allowlist allow deny m c [] 0).

(** * runtime.rs: the methods that change the state *)

Local Abbreviation proxy := (NetworkProxyState R B M Er).
Local Abbreviation conf := (ConfigState R B M).

Definition reload : stE proxy (StateError Er) unit := fun p =>
  match reload_if_needed p with
  | (p, Ok u) => (p, Ok u)
  | (p, Err e) => (p, Err (ReloadError e))
  end.

Definition on_state (f : conf → conf) : stE proxy (StateError Er) unit :=
  st_modify (λ p, with_state (f (state p)) p).

Definition lift {A} {E} (f : E → StateError Er) (r : result E A) : stE proxy (StateError Er) A :=
  match r with Ok a => st_ret a | Err e => st_throw (f e) end.

Definition set_log (l : list (BlockedRequest B)) (total : N) (s : conf) : conf :=
  mkState R B M (executor_os s) (config s) (brokerage_created_default_allowlist s) (allow_set s) (deny_set s)
    (mitm_state s) (constraints s) l total.

Definition set_config (cfg : NetworkProxyConfig R) (s : conf) : conf :=
  mkState R B M (executor_os s) cfg (brokerage_created_default_allowlist s) (allow_set s) (deny_set s)
    (mitm_state s) (constraints s) (blocked s) (blocked_total s).

Definition MAX_BLOCKED_EVENTS : nat := 200.

(** [push_back], then [pop_front] while the log is too long. *)
Definition push_blocked (entry : BlockedRequest B) (s : conf) : conf :=
  let l := blocked s ++ [entry] in
  set_log (drop (length l - MAX_BLOCKED_EVENTS) l) (sat_add (blocked_total s) 1) s.

Definition record_blocked (entry : BlockedRequest B) : stE proxy (StateError Er) unit :=
  reload ;;;
  p <- st_get ;;
  on_state (push_blocked (mkBlocked B (blocked_what entry) (proxy_execution_id p))).

Definition blocked_snapshot : stE proxy (StateError Er) (list (BlockedRequest B)) :=
  reload ;;;
  p <- st_get ;;
  st_ret (blocked (state p)).

Definition drain_blocked : stE proxy (StateError Er) (list (BlockedRequest B)) :=
  reload ;;;
  p <- st_get ;;
  on_state (λ s, set_log [] (blocked_total s) s) ;;;
  st_ret (blocked (state p)).

(** [answer] is the reloader's. *)
Definition force_reload (answer : result Er conf) : stE proxy (StateError Er) unit :=
  match answer with
  | Ok new_state => on_state (λ s, set_log (blocked s) (blocked_total new_state) new_state)
  | Err e => st_throw (ReloadError e)
  end.

Definition replace_config_state (new_state : conf) : stE proxy (StateError Er) unit :=
  reload ;;; on_state (λ s, keep_log s new_state).

Definition resolved_config (self : LocalBindingPolicy) (cfg : NetworkProxyConfig R) : NetworkProxyConfig R :=
  set_binding (Some (resolve_binding self cfg)) cfg.

(** [others]: what other tasks do to the state between this one's read and write, a
    change per round; the last round is undisturbed. *)
Fixpoint set_network_mode (m : NetworkMode) (others : list (conf → conf)) : stE proxy (StateError Er) unit :=
  reload ;;;
  p <- st_get ;;
  let candidate := set_mode m (config (state p)) in
  let snapshot := constraints (state p) in
  let resolved := resolved_config (local_binding_policy p) candidate in
  lift Constrained (validate_policy_against_constraints url_host hooks_valid resolved snapshot) ;;;
  match others with
  | [] => on_state (λ s, set_config (set_mode m (config s)) s)
  | f :: others =>
      on_state f ;;;
      p <- st_get ;;
      if bool_decide (constraints (state p) = snapshot)
      then on_state (λ s, set_config (set_mode m (config s)) s)
      else set_network_mode m others
  end.

Inductive DomainListKind := AllowList | DenyList.
Definition kind_permission (k : DomainListKind) : NetworkDomainPermission :=
  match k with AllowList => PermAllow | DenyList => PermDeny end.
Definition kind_entries (k : DomainListKind) (cfg : NetworkProxyConfig R) : list str :=
  default [] (match k with AllowList => allowed_domains cfg | DenyList => denied_domains cfg end).
Definition opposite_entries (k : DomainListKind) (cfg : NetworkProxyConfig R) : list str :=
  default [] (match k with AllowList => denied_domains cfg | DenyList => allowed_domains cfg end).

(** One round's work on the snapshot: the state to install, [None] when the list
    has the host already. *)
Definition prepare_update (lbp : LocalBindingPolicy) (normalized_host : str) (target : DomainListKind) (s : conf)
    : result (StateError Er) (option conf) :=
  let has l := existsb (λ e, normalize_host e =s normalized_host) l in
  if has (kind_entries target (config s)) && negb (has (opposite_entries target (config s))) then Ok None
  else
    let candidate := upsert_domain_permission normalize_host normalized_host (kind_permission target) (config s) in
    let? _ := map_err Constrained
      (validate_policy_against_constraints url_host hooks_valid (resolved_config lbp candidate) (constraints s)) in
    let? new_state := map_err BuildFailed (build_config_state candidate (constraints s) (executor_os s)) in
    Ok (Some (set_log (blocked s) (blocked_total s) new_state)).

Definition unchanged (snapshot s : conf) : bool :=
  bool_decide (constraints s = constraints snapshot) && bool_decide (config s = config snapshot)
  && bool_decide (executor_os s = executor_os snapshot).

Fixpoint update_loop (normalized_host : str) (target : DomainListKind) (others : list (conf → conf))
    : stE proxy (StateError Er) unit :=
  reload ;;;
  p <- st_get ;;
  r <- lift id (prepare_update (local_binding_policy p) normalized_host target (state p)) ;;
  match r with
  | None => st_ret tt
  | Some new_state =>
      match others with
      | [] => on_state (λ _, new_state)
      | f :: others =>
          on_state f ;;;
          q <- st_get ;;
          if unchanged (state p) (state q) then on_state (λ _, new_state)
          else update_loop normalized_host target others
      end
  end.

Definition update_domain_list (host : str) (target : DomainListKind) (others : list (conf → conf))
    : stE proxy (StateError Er) unit :=
  match Host_parse host with
  | None => st_throw InvalidHost
  | Some normalized_host => update_loop normalized_host target others
  end.

Definition add_allowed_domain (host : str) := update_domain_list host AllowList.
Definition add_denied_domain (host : str) := update_domain_list host DenyList.
End Runtime.

(** * Validation, clause by clause *)

Section Facts.
Context {R B M Er : Type} `{EqDecision R}.
Context (url_host : str → option str) (hooks_valid : bool → R → bool)
  (build_mitm : NetworkProxyConfig R → result Er M).
Local Abbreviation validate := (validate_policy_against_constraints url_host hooks_valid).

Lemma check_ok b f : check b f = Ok tt ↔ b = true.
Proof. by destruct b. Qed.

Lemma bind_ok {E A} (r : result E unit) (k : result E A) a :
  res_bind r (λ _, k) = Ok a ↔ r = Ok tt ∧ k = Ok a.
Proof. destruct r as [[]|]; simpl; naive_solver. Qed.

(** Changing the mode or the credential broker affects the clause of the mode only. *)
Lemma validate_set_mode cfg cfg' m c :
  validate cfg c = Ok tt → validate (set_mode m cfg') c = Ok tt → validate (set_mode m cfg) c = Ok tt.
Proof.
  unfold validate_policy_against_constraints. cbv zeta.
  change (allowed_domains (set_mode m cfg)) with (allowed_domains cfg).
  change (denied_domains (set_mode m cfg)) with (denied_domains cfg).
  change (allow_unix_sockets (set_mode m cfg)) with (allow_unix_sockets cfg).
  rewrite !bind_ok. cbn [set_mode mode enabled allow_upstream_proxy dangerously_allow_non_loopback_proxy
    dangerously_allow_all_unix_sockets allow_local_binding mitm_enabled cfg_rest]. tauto.
Qed.

Lemma validate_set_broker b cfg c : validate (set_broker b cfg) c = validate cfg c.
Proof. done. Qed.
End Facts.

(** * Compiled lists and plain hosts *)

Lemma drop_while_first p s c : head (drop_while p s) = Some c → p c = false.
Proof. induction s as [|d s IH]; simpl; [done|]. destruct (p d) eqn:Ed; [done|]. by intros [= <-]. Qed.

Lemma trim_idemp s : trim (trim s) = trim s.
Proof.
  apply trim_fixpoint. unfold trimmed, trim, trim_end, trim_start.
  destruct (drop_while is_whitespace s) as [|c t] eqn:Et; [done|].
  assert (is_whitespace c = false) as Hc by (apply (drop_while_first is_whitespace s); by rewrite Et).
  destruct (last (trim_end_by is_whitespace (c :: t))) as [b|] eqn:Eb; [|by case_match].
  apply trim_end_by_last in Eb. rewrite trim_end_by_cons by done. simpl. by rewrite Hc, Eb.
Qed.

(** A pattern that begins with a star never normalises to a plain host. *)
Lemma star_not_ip s : is_ip (STAR :: s) = false.
Proof. done. Qed.

Lemma split_once_star p s a b : head p ≠ Some STAR → p ≠ [] → split_once p (STAR :: s) = Some (a, b) → ∃ a', a = STAR :: a'.
Proof.
  intros Hp Hne. unfold split_once. simpl. destruct p as [|c p]; [done|].
  unfold starts_with. cbn [strip_prefix]. destruct (N.eqb_spec c STAR) as [->|Hc]; [done|].
  destruct (str_find (c :: p) s) as [i|]; [|done]. simpl. intros [= <- _]. eauto.
Qed.

Lemma star_normalize_dns s : ∃ s', normalize_dns_host_or_ip_literal (STAR :: s) = STAR :: s'.
Proof.
  unfold normalize_dns_host_or_ip_literal, to_ascii_lowercase. rewrite fmap_cons.
  change (ascii_lower STAR) with STAR. rewrite trim_end_by_cons by done.
  set (h := trim_end_by _ _). unfold normalize_ip_literal. rewrite star_not_ip. cbv zeta.
  assert (∀ d, d = lit "%25" ∨ d = lit "%" →
    match split_once d (STAR :: h) with
    | Some (ip, scope) => if is_ip ip then Some (ip ++ lit "%" ++ scope) else None
    | None => None
    end = None) as Hd.
  { intros d Hd. destruct (split_once d (STAR :: h)) as [[a b]|] eqn:E; [|done].
    apply split_once_star in E as [a' ->]; [by rewrite star_not_ip|by destruct Hd as [->| ->]..]. }
  rewrite !Hd by auto. simpl. eauto.
Qed.

Lemma star_normalize e s : trim e = STAR :: s → ∃ s', normalize_host e = STAR :: s'.
Proof.
  intros He. unfold normalize_host. rewrite He. cbv zeta.
  change (starts_with (lit "[") (STAR :: s)) with false. cbv iota.
  destruct (_ =? 1); [|apply star_normalize_dns].
  destruct (split_once [COLON_CH] (STAR :: s)) as [[a b]|] eqn:E; [|apply star_normalize_dns].
  apply split_once_star in E as [a' ->]; [apply star_normalize_dns|done|done].
Qed.

Lemma plain_not_star d s : plain_domain d = true → d ≠ STAR :: s.
Proof. intros Hd ->. apply (plain_no_star _ Hd). left. Qed.

Lemma normalize_pattern_host e d : normalize_host e = d → plain_domain d = true → normalize_pattern e = d.
Proof.
  intros He Hd. unfold normalize_pattern. case_bool_decide as Hs.
  { destruct (star_normalize e [] Hs) as [s' Hs']. exfalso.
    apply (plain_not_star d s' Hd). by rewrite <-He. }
  destruct (strip_wildcard (trim e)) as [[w r]|] eqn:Ew.
  - exfalso. assert (∃ s, trim e = STAR :: s) as [s Hs'].
    { unfold strip_wildcard in Ew. destruct (strip_prefix (lit "**.") (trim e)) eqn:E1.
      - apply strip_prefix_Some in E1. rewrite E1. eauto.
      - destruct (strip_prefix (lit "*.") (trim e)) eqn:E2; [|done]. apply strip_prefix_Some in E2. rewrite E2. eauto. }
    destruct (star_normalize e s Hs') as [s' Hs'']. apply (plain_not_star d s' Hd). by rewrite <-He.
  - simpl. rewrite <-He. unfold normalize_host. by rewrite trim_idemp.
Qed.

(** Written in other case, a plain host normalises to itself. *)
Lemma lower_host e d : to_ascii_lowercase e = d → plain_domain d = true → normalize_host e = d.
Proof.
  intros He Hd. assert (∀ c, c ∈ e → ascii_lower c = c → domain_char c = true) as Hc.
  { intros c Hin Hl. apply (plain_domain_chars d); [done|]. rewrite <-He. apply list_elem_of_fmap. by exists c. }
  assert (∀ c, is_ascii_upper c = false → ascii_lower c = c) as Hup by (intros c Hu; unfold ascii_lower; by rewrite Hu).
  assert (∀ c, c ∈ e → is_whitespace c = false) as Hws.
  { intros c Hin. destruct (is_ascii_upper c) eqn:Eu.
    - unfold is_ascii_upper in Eu. apply andb_true_iff in Eu as [?%N.leb_le ?%N.leb_le].
      unfold is_whitespace. repeat (apply orb_false_iff; split); try apply andb_false_iff;
        rewrite ?N.leb_gt, ?N.eqb_neq; lia.
    - by destruct (domain_char_facts c (Hc c Hin (Hup c Eu))) as [? _]. }
  assert (∀ c, c ∈ lit "[:" → c ∉ e) as Hno.
  { intros c Hl Hin. assert (c = 91 ∨ c = 58)%N as Hcc.
    { change (lit "[:") with [91; 58]%N in Hl. rewrite !elem_of_cons, elem_of_nil in Hl. tauto. }
    assert (ascii_lower c = c) as Hlc by (by destruct Hcc as [->| ->]).
    pose proof (Hc c Hin Hlc) as Hdc. by destruct Hcc as [->| ->]. }
  unfold normalize_host. rewrite trim_fixpoint; cycle 1.
  { unfold trimmed. destruct (head e) as [a|] eqn:Ea; [|done]. destruct (last e) as [b|] eqn:Eb; [|done].
    rewrite (Hws a) by (by apply head_Some_elem_of). by rewrite (Hws b) by (by apply last_Some_elem_of). }
  cbv zeta. assert (starts_with (lit "[") e = false) as ->.
  { apply not_true_iff_false. intros [t Ht]%starts_with_spec. apply (Hno 91%N); [in_lit|]. rewrite Ht. left. }
  assert (normalize_dns_host_or_ip_literal e = d) as Hn.
  { pose proof (normalize_host_plain d Hd) as Hp. unfold normalize_dns_host_or_ip_literal. rewrite He.
    unfold normalize_ip_literal, split_once. rewrite (plain_no_end_dot d Hd). destruct (is_ip d); [done|].
    assert (37%N ∉ d) as H37 by (apply plain_domain_no; [done|in_lit]).
    change (lit "%25") with [37; 50; 53]%N. change (lit "%") with [37%N]. by rewrite !str_find_no_first. }
  destruct (Nat.eqb_spec (length (filter (λ c, c = COLON_CH) e)) 1) as [E|E]; [|done]. exfalso.
  destruct (filter _ e) as [|c l] eqn:Ef; [done|].
  assert (c ∈ filter (λ c, c = COLON_CH) e) as [-> Hin]%list_elem_of_filter by (rewrite Ef; left).
  by apply (Hno 58%N); [in_lit|].
Qed.

(** Every candidate of every pattern is compiled. *)
Lemma add_candidates_elem l seen compiled seen' compiled' :
  add_candidates l seen compiled = Ok (seen', compiled') → (∀ c, c ∈ seen → as_bytes c ∈ compiled) →
  (∀ c, c ∈ seen' → as_bytes c ∈ compiled') ∧ (∀ c, c ∈ l → as_bytes c ∈ compiled')
  ∧ (∀ b, b ∈ compiled → b ∈ compiled').
Proof.
  revert seen compiled. induction l as [|c l IH]; intros seen compiled; simpl.
  { intros [= <- <-] H. split_and!; [done|by intros ? ?%elem_of_nil|done]. }
  case_bool_decide as Hc; [|case_bool_decide as Hn; [done|]]; intros H Hseen;
    apply IH in H as (H1 & H2 & H3); try done.
  - split_and!; [done| |done]. intros c' [->|Hc']%elem_of_cons; [|by apply H2]. by apply H3, Hseen.
  - split_and!; [done| |].
    + intros c' [->|Hc']%elem_of_cons; [|by apply H2]. apply H3, elem_of_app. right. by apply list_elem_of_singleton.
    + intros b Hb. apply H3, elem_of_app. by left.
  - intros c' [->%elem_of_singleton|Hc']%elem_of_union; apply elem_of_app;
      [right; by apply list_elem_of_singleton|left; by apply Hseen].
Qed.

Lemma compile_patterns_elem gw ps seen compiled out :
  compile_patterns gw ps seen compiled = Ok out → (∀ c, c ∈ seen → as_bytes c ∈ compiled) →
  (∀ b, b ∈ compiled → b ∈ out)
  ∧ ∀ p c, p ∈ ps → c ∈ expand_domain_pattern (normalize_pattern p) → as_bytes c ∈ out.
Proof.
  revert seen compiled. induction ps as [|p ps IH]; intros seen compiled; simpl.
  { intros [= <-] H. split; [done|]. by intros ? ? ?%elem_of_nil. }
  destruct (check_pattern gw p) as [[]|]; [|done]. simpl.
  destruct (add_candidates _ seen compiled) as [[seen' compiled']|] eqn:Ea; [|done]. simpl. intros H Hs.
  apply add_candidates_elem in Ea as (H1 & H2 & H3); [|done]. apply IH in H as [H4 H5]; [|done]. split.
  - auto.
  - intros q c [->|Hq]%elem_of_cons Hc; [by apply H4, H2|by eapply H5].
Qed.

(** A compiled list with an entry that normalises to a plain host matches the host. *)
Lemma compiled_matches gw ps out e d :
  domain_pattern_set ps gw = Ok out → e ∈ ps → normalize_host e = d → plain_domain d = true →
  set_is_match out d = true.
Proof.
  intros Hc He Hn Hd. apply compile_patterns_elem in Hc as [_ Hin]; [|by intros ? ?%elem_of_empty].
  pose proof (normalize_pattern_host e d Hn Hd) as Hp. apply set_is_match_true. exists (as_bytes d).
  rewrite (plain_as_bytes d Hd). split.
  - rewrite <-(plain_as_bytes d Hd). eapply Hin; [exact He|]. rewrite Hp.
    change d with ([] ++ d) at 2. rewrite expand_plain; [|by left|done]. by apply list_elem_of_singleton.
  - apply glob_literal; [by apply plain_literal|by apply plain_lower].
Qed.

Lemma denied_set_blocks policy lookup auth host d port :
  Host_parse host = Some d → set_is_match (denied_set policy) d = true →
  decide_host policy lookup auth host port = Blocked Denied.
Proof. intros Hh Hm. unfold decide_host, domains_match_host_or_unscoped. by rewrite Hh, Hm. Qed.

(** * The invariant of the shared state *)

Section Invariant.
Context {R B M Er : Type} `{EqDecision R}.
Context (url_host : str → option str) (hooks_valid : bool → R → bool)
  (build_mitm : NetworkProxyConfig R → result Er M).
Local Abbreviation validate := (validate_policy_against_constraints url_host hooks_valid).
Local Abbreviation proxy := (NetworkProxyState R B M Er).
Local Abbreviation conf := (ConfigState R B M).

(** The compiled sets are those of the lists in effect. *)
Definition compiled_ok (s : conf) : Prop :=
  compile_denylist (default [] (denied_domains (config s))) = Ok (deny_set s)
  ∧ compile_allowlist (default [] (allowed_domains (config s))) = Ok (allow_set s).

(** A configuration as it is, or with local binding resolved. *)
Definition view_config (l : option LocalBindingPolicy) (cfg : NetworkProxyConfig R) : NetworkProxyConfig R :=
  match l with Some lbp => resolved_config lbp cfg | None => cfg end.

(** The configuration was checked against the managed constraints. *)
Definition policy_ok (s : conf) : Prop :=
  compiled_ok s ∧ (∃ l, validate (view_config l (config s)) (constraints s) = Ok tt)
  ∧ (credential_broker (config s) = true → enabled (config s) = true).

Definition state_ok (s : conf) : Prop :=
  policy_ok s ∧ length (blocked s) ≤ MAX_BLOCKED_EVENTS.

Definition answer_ok (a : result Er (option conf)) : Prop :=
  match a with Ok (Some s) => policy_ok s | _ => True end.

Definition proxy_ok (p : proxy) : Prop :=
  state_ok (state p) ∧ Forall (answer_ok) (reloads p).

(** A task that keeps the invariant, as interference. *)
Definition task_ok (f : conf → conf) : Prop := ∀ s, state_ok s → state_ok (f s).

Definition keeps {E A} (lbp : LocalBindingPolicy) (m : stE proxy E A) : Prop :=
  ∀ p, proxy_ok p → local_binding_policy p = lbp → proxy_ok (m p).1 ∧ local_binding_policy (m p).1 = lbp.

Lemma proxy_keeps_bind {E A C} lbp (m : stE proxy E A) (k : A → stE proxy E C) :
  keeps lbp m → (∀ a, keeps lbp (k a)) → keeps lbp (st_bind m k).
Proof.
  intros Hm Hk p Hp Hl. unfold st_bind. destruct (Hm p Hp Hl) as [Hp' Hl'].
  destruct (m p) as [p' [a|e]]; [|done]. by apply Hk.
Qed.

(** As [proxy_keeps_bind], with what the first computation did. *)
Lemma proxy_keeps_get {E A} lbp (k : proxy → stE proxy E A) :
  (∀ p, proxy_ok p → local_binding_policy p = lbp → proxy_ok (k p p).1 ∧ local_binding_policy (k p p).1 = lbp) →
  keeps lbp (p <- st_get ;; k p).
Proof. intros Hk p Hp Hl. by apply Hk. Qed.

Lemma proxy_keeps_ret {E A} lbp (a : A) : keeps (E := E) lbp (st_ret a).
Proof. by intros p Hp Hl. Qed.

Lemma policy_ok_log s l n : policy_ok (set_log l n s) ↔ policy_ok s.
Proof. done. Qed.

Lemma keeps_on_state lbp f : task_ok f → keeps lbp (on_state (Er := Er) f).
Proof. intros Hf p [Hs Hr] <-. split; [|done]. split; [by apply Hf|done]. Qed.

Lemma keeps_reload lbp : keeps lbp reload.
Proof.
  intros [s rs l x] [Hs Hr] Hl. simpl in *. subst l. unfold reload, reload_if_needed. simpl.
  destruct rs as [|a rs]; [done|]. apply Forall_cons in Hr as [Ha Hr].
  destruct a as [[s'|]|e]; simpl; (split; [|done]); split; simpl; try done.
  by destruct Hs as [_ Hlog].
Qed.

Lemma push_blocked_ok e : task_ok (push_blocked e).
Proof.
  intros s [Hp Hl]. split; [done|]. simpl. rewrite length_drop, length_app. simpl. unfold MAX_BLOCKED_EVENTS in *. lia.
Qed.

Lemma keeps_record lbp e : keeps lbp (record_blocked (Er := Er) e).
Proof.
  apply proxy_keeps_bind; [apply keeps_reload|intros _]. apply proxy_keeps_get. intros p Hp Hl.
  by apply (keeps_on_state lbp _ (push_blocked_ok _)).
Qed.

Lemma keeps_drain lbp : keeps lbp drain_blocked.
Proof.
  apply proxy_keeps_bind; [apply keeps_reload|intros _]. apply proxy_keeps_get. intros p Hp Hl.
  apply (proxy_keeps_bind lbp (on_state _)); [|intros _; apply proxy_keeps_ret|done|done].
  apply keeps_on_state. intros s [Hs _]. split; [done|]. simpl. lia.
Qed.

Lemma keeps_force_reload lbp a : (∀ s, a = Ok s → policy_ok s) → keeps lbp (force_reload a).
Proof.
  intros Ha. destruct a as [s|e]; [|intros p Hp Hl; by split]. apply keeps_on_state. intros s' [_ Hl].
  split; [exact (Ha s eq_refl)|done].
Qed.

Lemma keeps_replace lbp s : policy_ok s → keeps lbp (replace_config_state s).
Proof.
  intros Hs. apply proxy_keeps_bind; [apply keeps_reload|intros _]. apply keeps_on_state.
  intros s' [_ Hl]. by split.
Qed.
(** ** Changing the mode *)

Lemma resolved_set_mode lbp m (cfg : NetworkProxyConfig R) :
  resolved_config lbp (set_mode m cfg) = set_mode m (resolved_config lbp cfg).
Proof. done. Qed.

Lemma mode_task_ok lbp m c cfg s :
  validate (resolved_config lbp (set_mode m cfg)) c = Ok tt → constraints s = c → state_ok s →
  state_ok (set_config (set_mode m (config s)) s).
Proof.
  rewrite resolved_set_mode. intros Hv Hc [(Hcomp & [l Hval] & Hb) Hl]. split; [|done]. split_and!; [done| |done].
  exists l. simpl. assert (view_config l (set_mode m (config s)) = set_mode m (view_config l (config s))) as -> by (by destruct l).
  rewrite Hc in *. by eapply validate_set_mode.
Qed.

Lemma keeps_set_mode lbp m others : Forall task_ok others →
  keeps lbp (set_network_mode url_host hooks_valid m others).
Proof.
  induction 1 as [|f others Hf _ IH]; cbn [set_network_mode];
    (apply proxy_keeps_bind; [apply keeps_reload|intros _]); apply proxy_keeps_get; intros p Hp Hl; rewrite Hl; unfold lift;
    destruct (validate _ _) as [[]|e] eqn:Ev; try (by split).
  - split; [|done]. destruct Hp as [Hs Hr]. split; [|done]. by eapply mode_task_ok.
  - apply (proxy_keeps_bind lbp (st_ret tt)); [apply proxy_keeps_ret|intros _|done|done].
    apply proxy_keeps_bind; [by apply keeps_on_state|intros _]. apply proxy_keeps_get. intros q Hq Hlq.
    case_bool_decide as Hc; [|by apply IH]. split; [|done]. destruct Hq as [Hs Hr]. split; [|done].
    by eapply mode_task_ok.
Qed.
(** ** Changing a domain list *)

Lemma build_ok l (cfg : NetworkProxyConfig R) c os (s : conf) :
  build_config_state build_mitm cfg c os = Ok s →
  compiled_ok s ∧ constraints s = c ∧ (credential_broker (config s) = true → enabled (config s) = true)
  ∧ ((credential_broker cfg = true → enabled cfg = true) →
     validate (view_config l cfg) c = Ok tt → validate (view_config l (config s)) c = Ok tt)
  ∧ (denied_domains (config s) = denied_domains cfg ∨ (credential_broker cfg = true ∧ enabled cfg = false)).
Proof.
  unfold build_config_state. cbv zeta. set (cfg1 := if bool_decide _ then _ else cfg).
  assert (enabled cfg1 = enabled cfg ∧ (credential_broker cfg1 = true → credential_broker cfg = true)
    ∧ denied_domains cfg1 = denied_domains cfg
    ∧ (validate (view_config l cfg) c = Ok tt → validate (view_config l cfg1) c = Ok tt)) as (He & Hb & Hd & Hv).
  { unfold cfg1. case_bool_decide; [|done]. by destruct l. }
  clearbody cfg1. set (proxy_created := credential_broker cfg1 && negb (enabled cfg1)).
  set (cfg2 := if proxy_created then set_enabled true cfg1 else cfg1).
  set (cfg3 := if _ && _ then set_allowed_domains [lit "*"] cfg2 else cfg2).
  intros H. unfold ensure in H.
  repeat match type of H with
  | res_bind (if ?b then _ else _) _ = _ => destruct b; [|done]; cbn [res_bind] in H
  | res_bind (map_err _ ?r) _ = _ => destruct r eqn:?; [|done]; cbn [map_err res_bind] in H
  end.
  injection H as <-. cbn [config constraints]. split_and!; [done|done| | |].
  - unfold cfg3, cfg2, proxy_created. destruct (credential_broker cfg1) eqn:Eb, (enabled cfg1) eqn:Ee; simpl;
      repeat case_match; simpl; congruence.
  - intros Hbe Hval. assert (proxy_created = false) as Hpc.
    { unfold proxy_created. destruct (credential_broker cfg1) eqn:Eb; [|done]. rewrite He, (Hbe (Hb eq_refl)). done. }
    unfold cfg3, cfg2. rewrite Hpc. simpl. by apply Hv.
  - destruct (credential_broker cfg) eqn:Eb; [|left]; [destruct (enabled cfg) eqn:Ee; [left|by right]|];
      (assert (proxy_created = false) as Hpc;
       [unfold proxy_created; destruct (credential_broker cfg1); [rewrite He|]; naive_solver|]);
      unfold cfg3, cfg2; rewrite Hpc; simpl; done.
Qed.
Local Abbreviation prepare := (prepare_update url_host hooks_valid build_mitm).

Lemma prepare_ok lbp h target (s s' : conf) :
  state_ok s → prepare lbp h target s = Ok (Some s') →
  state_ok s' ∧ blocked s' = blocked s ∧ blocked_total s' = blocked_total s
  ∧ denied_domains (config s')
    = denied_domains (upsert_domain_permission normalize_host h (kind_permission target) (config s)).
Proof.
  intros [(Hcomp & Hval & Hb) Hlog]. unfold prepare_update. cbv zeta. case_match; [done|].
  set (candidate := upsert_domain_permission _ _ _ _).
  destruct (validate (resolved_config lbp candidate) (constraints s)) as [[]|] eqn:Ev; [|done]. cbn [map_err res_bind].
  destruct (build_config_state build_mitm candidate (constraints s) (executor_os s)) as [n|] eqn:En; [|done].
  cbn [map_err res_bind]. intros [= <-]. destruct (build_ok (Some lbp) _ _ _ _ En) as (H1 & H2 & H3 & H4 & H5).
  split_and!; [split; [split_and!|]|done|done|]; try done.
  - exists (Some lbp). change (validate (view_config (Some lbp) (config n)) (constraints n) = Ok tt). rewrite H2. by apply H4.
  - destruct H5 as [H5|[H5 H5']]; [done|]. exfalso. pose proof (Hb H5). simpl in H5'. congruence.
Qed.

Lemma keeps_update_loop lbp h target others : Forall task_ok others →
  keeps lbp (update_loop url_host hooks_valid build_mitm h target others).
Proof.
  induction 1 as [|f others Hf _ IH]; cbn [update_loop];
    (apply proxy_keeps_bind; [apply keeps_reload|intros _]); apply proxy_keeps_get; intros p Hp Hl; rewrite Hl; unfold lift;
    destruct (prepare lbp h target (state p)) as [[s'|]|e] eqn:Ep; try (by split);
    pose proof Hp as [Hs Hr]; destruct (prepare_ok _ _ _ _ _ Hs Ep) as (Hs' & _).
  - apply (keeps_on_state lbp (λ _, s')); [by intros ? _|done|done].
  - enough (keeps lbp (on_state f ;;; (q <- st_get ;; if unchanged (state p) (state q) then on_state (λ _, s')
      else update_loop url_host hooks_valid build_mitm h target others))) as Hk by (by apply (Hk p Hp Hl)).
    apply proxy_keeps_bind; [by apply keeps_on_state|intros _]. apply proxy_keeps_get. intros q Hq Hlq.
    destruct (unchanged (state p) (state q)); [|by apply IH].
    apply (keeps_on_state lbp (λ _, s')); [by intros ? _|done|done].
Qed.

Lemma keeps_update lbp host target others : Forall task_ok others →
  keeps lbp (update_domain_list url_host hooks_valid build_mitm host target others).
Proof.
  intros Ho. unfold update_domain_list. destruct (Host_parse host) as [h|]; [by apply keeps_update_loop|].
  intros p Hp Hl. by split.
Qed.

(** ** Where states come from *)

(** [NetworkProxySpec::build_config_state_for_spec] of core/src/config/network_proxy_spec.rs. *)
Definition build_config_state_for_spec (cfg : NetworkProxyConfig R) (c : NetworkProxyConstraints) (os : Platform)
    : result (BuildError Er) conf :=
  build_config_state build_mitm (if enabled cfg then cfg else set_broker false cfg) c os.

(** A state built for a specification; each constructor of one ends with this validation. *)
Definition from_spec (s : conf) : Prop :=
  ∃ cfg c os, validate cfg c = Ok tt ∧ build_config_state_for_spec cfg c os = Ok s.

Lemma from_spec_ok s : from_spec s → policy_ok s.
Proof.
  intros (cfg & c & os & Hv & Hb). unfold build_config_state_for_spec in Hb.
  destruct (build_ok None _ _ _ _ Hb) as (H1 & <- & H3 & H4 & _). split_and!; [done| |done].
  exists None. apply H4; [by destruct (enabled cfg) eqn:E|by destruct (enabled cfg)].
Qed.

(** A proxy as it is started: a fresh state and a source of reloads, all built for
    specifications. *)
Definition started (p : proxy) : Prop :=
  from_spec (state p) ∧ blocked (state p) = []
  ∧ Forall (λ a : result Er (option conf), match a with Ok (Some s) => from_spec s | _ => True end) (reloads p).

Lemma started_proxy_ok p : started p → proxy_ok p.
Proof.
  intros (Hs & Hb & Hr). split; [split; [by apply from_spec_ok|rewrite Hb; cbn; lia]|].
  eapply Forall_impl; [exact Hr|]. intros [[s|]|e]; [|done..]. apply from_spec_ok.
Qed.

(** ** Reachable states *)

(** One call of a method. The states that a forced reload or a replacement installs are built
    for specifications; [others] are steps of other tasks that keep the invariant. *)
Inductive proxy_step (p : proxy) : proxy → Prop :=
| step_reload p' r : reload p = (p', r) → proxy_step p p'
| step_record e p' r : record_blocked e p = (p', r) → proxy_step p p'
| step_drain p' r : drain_blocked p = (p', r) → proxy_step p p'
| step_force_reload a p' r :
    (∀ s, a = Ok s → from_spec s) → force_reload a p = (p', r) → proxy_step p p'
| step_replace s p' r :
    from_spec s → replace_config_state s p = (p', r) → proxy_step p p'
| step_mode m others p' r :
    Forall task_ok others →
    set_network_mode url_host hooks_valid m others p = (p', r) → proxy_step p p'
| step_update host target others p' r :
    Forall task_ok others →
    update_domain_list url_host hooks_valid build_mitm host target others p = (p', r) → proxy_step p p'.

Lemma step_ok p p' : proxy_ok p → proxy_step p p' → proxy_ok p'.
Proof.
  intros Hp Hs. set (lbp := local_binding_policy p).
  assert (∀ A E (m : stE proxy E A) r, keeps lbp m → m p = (p', r) → proxy_ok p') as Hk.
  { intros A E m r Hm Hmp. destruct (Hm p Hp eq_refl) as [Hp' _]. by rewrite Hmp in Hp'. }
  destruct Hs; eapply Hk; try eassumption.
  - apply keeps_reload.
  - apply keeps_record.
  - apply keeps_drain.
  - apply keeps_force_reload. intros s ->. by apply from_spec_ok, H.
  - by apply keeps_replace, from_spec_ok.
  - by apply keeps_set_mode.
  - by apply keeps_update.
Qed.

Lemma reachable_ok p p' : proxy_ok p → rtc proxy_step p p' → proxy_ok p'.
Proof. intros Hp Hr. induction Hr as [|p q p' Hs _ IH]; [done|]. apply IH. by eapply step_ok. Qed.

(** A deny entry that is a plain host in any case blocks the host. *)
Lemma denied_entry_blocks binding (p : proxy) lookup auth host h e port :
  proxy_ok p → Host_parse host = Some h → plain_domain h = true →
  e ∈ default [] (denied_domains (config (state p))) → normalize_host e = h →
  decide_host (read_policy binding p) lookup auth host port = Blocked Denied.
Proof.
  intros [[((Hc & _) & _) _] _] Hh Hd He Hn. eapply denied_set_blocks; [exact Hh|].
  by eapply (compiled_matches RejectGlobal); [exact Hc|exact He| |].
Qed.

Lemma plain_Host_parse d : plain_domain d = true → Host_parse d = Some d.
Proof.
  intros Hd. unfold Host_parse. rewrite (normalize_host_plain d Hd).
  rewrite bool_decide_eq_false_2; [done|]. by apply plain_not_empty.
Qed.

(** C27: Managed denials hold, for a proxy whose configurations (the one it starts with, and
    all that a reload or a replacement installs, which the proxy itself does not check)
    were built from validated specifications: whatever sequence of reloads, replacements,
    mode changes, domain changes and log accesses its tasks perform, interleaved with other
    tasks that keep the invariant, a plain domain name (lower case, no wildcard) on the
    deny list of the constraints in effect is blocked as denied, also when it is approved, and
    the log never has more than its maximum of entries. *)
Theorem managed_deny_enforced (p p' : proxy) managed d binding lookup auth port :
  started p → rtc proxy_step p p' →
  c_denied_domains (constraints (state p')) = Some managed → d ∈ managed → plain_domain d = true →
  decide_host (read_policy binding p') lookup auth d port = Blocked Denied
  ∧ length (blocked (state p')) ≤ MAX_BLOCKED_EVENTS.
Proof.
  intros Hp%started_proxy_ok Hr Hm Hd Hpl. assert (proxy_ok p') as Hp' by (by eapply reachable_ok).
  split; [|by destruct Hp' as [[_ ?] _]].
  assert (∃ e, e ∈ default [] (denied_domains (config (state p'))) ∧ to_ascii_lowercase e = d) as (e & He & Hl).
  { destruct Hp' as [[(_ & [l Hv] & _) _] _]. unfold validate_policy_against_constraints in Hv. cbv zeta in Hv.
    rewrite !bind_ok in Hv. destruct Hv as (_ & _ & _ & _ & _ & _ & _ & _ & _ & Hv & _). rewrite Hm in Hv.
    apply bind_ok in Hv as [_ Hv%check_ok].
    assert (lower_set managed ⊆ lower_set (default [] (denied_domains (config (state p'))))) as Hsub.
    { unfold denied_domains_ok in Hv. repeat case_match; apply bool_decide_eq_true in Hv; try done.
      all: assert (denied_domains (view_config l (config (state p'))) = denied_domains (config (state p'))) as El by (by destruct l).
      all: rewrite El in Hv; by rewrite Hv. }
    assert (to_ascii_lowercase d ∈ lower_set managed) as Hin.
    { apply elem_of_list_to_set, list_elem_of_fmap. by exists d. }
    apply Hsub, elem_of_list_to_set, list_elem_of_fmap in Hin as (e & He & Hin). exists e.
    split; [done|]. by rewrite <-He, plain_lower. }
  eapply (denied_entry_blocks _ _ _ _ d d e); [done|by apply plain_Host_parse|done|done|].
  by apply lower_host.
Qed.

Lemma upsert_denied h (cfg : NetworkProxyConfig R) :
  h ∈ default [] (denied_domains (upsert_domain_permission normalize_host h PermDeny cfg)).
Proof.
  unfold denied_domains. apply domain_entries_elem, strongest_deny. right.
  unfold upsert_domain_permission, non_empty. cbv zeta. cbn [set_domains domains].
  rewrite bool_decide_eq_false_2 by (by intros [_ ?]%app_nil). simpl. apply elem_of_app. right.
  by apply list_elem_of_singleton.
Qed.

(** What a round leaves or installs lists the host. *)
Lemma prepare_denied lbp h (s : conf) r :
  plain_domain h = true → state_ok s → prepare lbp h DenyList s = Ok r →
  ∃ e, e ∈ default [] (denied_domains (config (default s r))) ∧ normalize_host e = h.
Proof.
  intros Hh Hs Hr. destruct r as [s'|]; simpl.
  - destruct (prepare_ok _ _ _ _ _ Hs Hr) as (_ & _ & _ & Hd). exists h. rewrite Hd.
    split; [apply upsert_denied|by apply normalize_host_plain].
  - unfold prepare_update in Hr. cbv zeta in Hr.
    destruct (existsb _ (kind_entries DenyList _)) eqn:Ee.
    + apply existsb_exists in Ee as (e & He%list_elem_of_In & Hn%bool_decide_eq_true). by exists e.
    + cbn [andb] in Hr. destruct (map_err Constrained _); [|done]. cbn [res_bind] in Hr.
      by destruct (map_err BuildFailed _).
Qed.

Lemma update_loop_denied h others p p' :
  plain_domain h = true → Forall task_ok others → proxy_ok p →
  update_loop url_host hooks_valid build_mitm h DenyList others p = (p', Ok tt) →
  ∃ e, e ∈ default [] (denied_domains (config (state p'))) ∧ normalize_host e = h.
Proof.
  intros Hh Ho. revert p Ho. induction others as [|f others IH]; intros p Ho Hp; cbn [update_loop]; unfold st_bind at 1;
    (destruct (keeps_reload (local_binding_policy p) p Hp eq_refl) as [Hq Hlq];
     destruct (reload p) as [q [[]|?]]; [|done]; cbn [fst] in Hq, Hlq);
    unfold st_bind at 1, st_get at 1; unfold st_bind at 1, lift;
    (destruct (prepare (local_binding_policy q) h DenyList (state q)) as [r|e] eqn:Ep; [|done]); cbn [st_ret];
    pose proof (prepare_denied _ _ _ _ Hh (proj1 Hq) Ep) as Hd; (destruct r as [s'|]; [|by intros [= <-]]).
  - by intros [= <-].
  - apply Forall_cons in Ho as [Hf Ho]. unfold st_bind at 1, on_state at 1, st_modify at 1.
    unfold st_bind at 1, st_get at 1. set (q' := with_state (f (state q)) q).
    destruct (unchanged (state q) (state q')); [by intros [= <-]|].
    apply IH; [done|].
    apply (keeps_on_state _ f Hf q Hq eq_refl).
Qed.

(** After a host is added to the deny list it is blocked, however the additions,
    reloads and other tasks interleave: when the call succeeds, a check of the host
    against the state it leaves says denied, also for an approved request. *)
Theorem added_deny_blocks host h others (p p' : proxy) binding lookup auth port :
  proxy_ok p → Forall task_ok others →
  Host_parse host = Some h → plain_domain h = true →
  add_denied_domain url_host hooks_valid build_mitm host others p = (p', Ok tt) →
  decide_host (read_policy binding p') lookup auth host port = Blocked Denied.
Proof.
  intros Hp Ho Hh Hpl Hu. unfold add_denied_domain in Hu.
  destruct (keeps_update (local_binding_policy p) host DenyList others Ho p Hp eq_refl) as [Hp' _].
  rewrite Hu in Hp'. unfold update_domain_list in Hu. rewrite Hh in Hu.
  destruct (update_loop_denied h others p p' Hpl Ho Hp Hu) as (e & He & Hn).
  by eapply denied_entry_blocks.
Qed.

(** ** The log *)

Definition attributed (p : proxy) (e : BlockedRequest B) : BlockedRequest B :=
  mkBlocked B (blocked_what e) (proxy_execution_id p).

Lemma reload_log (p p' : proxy) r : reload p = (p', r) →
  blocked (state p') = blocked (state p) ∧ blocked_total (state p') = blocked_total (state p)
  ∧ proxy_execution_id p' = proxy_execution_id p.
Proof.
  unfold reload, reload_if_needed. destruct (reloads p) as [|[[s|]|e] rs]; by intros [= <- <-].
Qed.

Lemma drop_extra {A} (l1 l2 : list A) n :
  drop (length (drop (length l1 - n) l1 ++ l2) - n) (drop (length l1 - n) l1 ++ l2) = drop (length (l1 ++ l2) - n) (l1 ++ l2).
Proof.
  rewrite !length_app, length_drop.
  replace (drop (length l1 - n) l1 ++ l2) with (drop (length l1 - n) (l1 ++ l2)) by (apply drop_app_le; lia).
  rewrite drop_drop. f_equal. lia.
Qed.

Lemma record_log e (p p' : proxy) : record_blocked e p = (p', Ok tt) →
  let all := blocked (state p) ++ [attributed p e] in
  blocked (state p') = drop (length all - MAX_BLOCKED_EVENTS) all
  ∧ blocked_total (state p') = sat_add (blocked_total (state p)) 1 ∧ proxy_execution_id p' = proxy_execution_id p.
Proof.
  unfold record_blocked, st_bind, st_get. destruct (reload p) as [q [[]|]] eqn:Erl; [|done].
  apply reload_log in Erl as (Hb & Ht & Hx). unfold on_state, st_modify. intros [= <-]. simpl.
  unfold attributed. by rewrite Hb, Ht, Hx.
Qed.

Lemma sat_step t n : N.min (sat_add t 1 + N.of_nat n) u64_max = N.min (t + N.of_nat (S n)) u64_max.
Proof. unfold sat_add, usize_max. generalize u64_max. intros. lia. Qed.

Lemma record_all es : ∀ p p' : proxy,
  length (blocked (state p)) ≤ MAX_BLOCKED_EVENTS → (blocked_total (state p) <= u64_max)%N →
  st_for es record_blocked p = (p', Ok tt) →
  let all := blocked (state p) ++ (attributed p <$> es) in
  blocked (state p') = drop (length all - MAX_BLOCKED_EVENTS) all
  ∧ blocked_total (state p') = N.min (blocked_total (state p) + N.of_nat (length es)) u64_max.
Proof.
  induction es as [|e es IH]; intros p p' Hl Ht; cbn [st_for].
  { intros [= <-]. cbv zeta. change (attributed p <$> []) with (@nil (BlockedRequest B)). rewrite app_nil_r.
    replace (length (blocked (state p)) - MAX_BLOCKED_EVENTS) with 0 by lia. rewrite drop_0. split; [done|].
    symmetry. change (N.of_nat (length [])) with 0%N. rewrite N.add_0_r. by apply N.min_l. }
  unfold st_bind. destruct (record_blocked e p) as [q [[]|]] eqn:Erl; [|done]. intros Hes.
  apply record_log in Erl as (Hb & Hbt & Hx). apply IH in Hes as [Hb' Ht'].
  - cbv zeta in *. rewrite fmap_cons. change (attributed p e :: ?l) with ([attributed p e] ++ l). rewrite (assoc_L (++)).
    rewrite Hb', Ht', Hbt, Hb. assert (attributed q <$> es = attributed p <$> es) as ->.
    { apply list_fmap_ext. intros _ x _. unfold attributed. by rewrite Hx. }
    split; [apply drop_extra|by apply sat_step].
  - rewrite Hb, length_drop. lia.
  - rewrite Hbt. apply N.le_min_r.
Qed.

(** The log of blocked requests is the last entries recorded: recording a list of
    requests leaves the last [MAX_BLOCKED_EVENTS] of all entries so far in order, each
    with the proxy's execution id, counts every one of them up to the largest [u64],
    and survives the reloads that happen meanwhile; draining returns those entries and
    empties the log. *)
Theorem blocked_log_latest es (p p' p'' : proxy) out :
  length (blocked (state p)) ≤ MAX_BLOCKED_EVENTS → (blocked_total (state p) <= u64_max)%N →
  st_for es record_blocked p = (p', Ok tt) → drain_blocked p' = (p'', Ok out) →
  let all := blocked (state p) ++ (attributed p <$> es) in
  out = drop (length all - MAX_BLOCKED_EVENTS) all
  ∧ blocked_total (state p'') = N.min (blocked_total (state p) + N.of_nat (length es)) u64_max
  ∧ blocked (state p'') = [].
Proof.
  intros Hl Ht Hes. destruct (record_all es p p' Hl Ht Hes) as [Hb Hbt]. unfold drain_blocked, st_bind, st_get.
  destruct (reload p') as [q [[]|]] eqn:Erl; [|done]. apply reload_log in Erl as (Hb' & Ht' & _).
  unfold on_state, st_modify. intros [= <- <-]. simpl. by rewrite Hb', Ht'.
Qed.

(** ** What is lost *)

(** A forced reload keeps the logged requests but not their count: a freshly built
    state counts none, so the count drops to zero, while a replaced configuration
    keeps it. *)
Theorem force_reload_forgets_count cfg c os (new : conf) (p : proxy) :
  build_config_state build_mitm cfg c os = Ok new →
  let forced := (force_reload (Ok new) p).1 in
  let replaced := (replace_config_state new p).1 in
  blocked (state forced) = blocked (state p) ∧ blocked_total (state forced) = 0%N
  ∧ blocked (state replaced) = blocked (state p) ∧ blocked_total (state replaced) = blocked_total (state p).
Proof.
  intros Hb. assert (blocked_total new = 0%N) as H0.
  { revert Hb. unfold build_config_state, ensure. cbv zeta. intros H.
    repeat match type of H with
    | res_bind (if ?b then _ else _) _ = _ => destruct b; [|done]; cbn [res_bind] in H
    | res_bind (map_err _ ?r) _ = _ => destruct r; [|done]; cbn [map_err res_bind] in H
    end. by injection H as <-. }
  cbv zeta. unfold replace_config_state, st_bind. destruct (reload p) as [q [[]|]] eqn:Erl;
    apply reload_log in Erl as (H1 & H2 & _); simpl; rewrite ?H1, ?H2; done.
Qed.

(** A request recorded while a domain list is being updated is lost: if another
    task records a blocked request between the update's read and its write, the
    update still goes through and puts back the log and the count it read before. *)
Theorem update_loses_blocked host h target e (p : proxy) s' :
  Host_parse host = Some h → reloads p = [] →
  prepare_update url_host hooks_valid build_mitm (local_binding_policy p) h target (state p) = Ok (Some s') →
  let run := update_domain_list url_host hooks_valid build_mitm host target [push_blocked e] p in
  run.2 = Ok tt ∧ blocked (state run.1) = blocked (state p) ∧ blocked_total (state run.1) = blocked_total (state p).
Proof.
  intros Hh Hr Hp. cbv zeta. unfold update_domain_list. rewrite Hh.
  assert (blocked s' = blocked (state p) ∧ blocked_total s' = blocked_total (state p)) as [Hb Ht].
  { revert Hp. unfold prepare_update. cbv zeta. case_match; [done|].
    destruct (map_err Constrained _); [|done]. cbn [res_bind]. destruct (map_err BuildFailed _); [|done].
    cbn [res_bind]. by intros [= <-]. }
  assert (update_loop url_host hooks_valid build_mitm h target [push_blocked e] p
    = (with_state s' (with_state (push_blocked e (state p)) p), Ok tt)) as ->; [|done].
  cbn [update_loop]. assert (reload p = (p, Ok tt)) as Hrel by (unfold reload, reload_if_needed; by rewrite Hr).
  unfold st_bind at 1. rewrite Hrel. unfold st_bind at 1, st_get at 1. rewrite Hp.
  unfold lift, st_bind, st_ret, on_state, st_modify, st_get. cbn [state with_state].
  assert (unchanged (state p) (push_blocked e (state p)) = true) as ->; [|done].
  unfold unchanged. simpl. by rewrite !bool_decide_eq_true_2.
Qed.
End Invariant.

(** * Concrete runs *)

Definition example_constraints : NetworkProxyConstraints :=
  mkConstraints None None None None None None None (Some [lit "bad.example.com"]) None None None.

Definition example_config : NetworkProxyConfig unit :=
  mkConfig unit true true false None Full
    (Some [mkEntry (lit "*") PermAllow; mkEntry (lit "Bad.Example.com") PermDeny]) None None false false false tt.

Definition example_state : ConfigState unit nat unit :=
  mkState unit nat unit Linux example_config false [lit "*"] [lit "bad.example.com"] tt example_constraints [] 0.

Definition start : NetworkProxyState unit nat unit unit := mkProxy example_state [] DefaultFalse (Some (lit "exec")).

Definition some_host (s : str) : option str := Some s.
Definition any_hooks (_ : bool) (_ : unit) : bool := true.
Definition no_mitm (_ : NetworkProxyConfig unit) : result unit unit := Ok tt.

Lemma start_started : started some_host any_hooks no_mitm start.
Proof. split_and!; [|done|constructor]. exists example_config, example_constraints, Linux. by split; vm_compute. Qed.

Lemma start_ok : proxy_ok some_host any_hooks start.
Proof. eapply started_proxy_ok, start_started. Qed.

Lemma example_built : build_config_state no_mitm example_config example_constraints Linux = Ok example_state.
Proof. by vm_compute. Qed.

Lemma managed_deny_enforced_witness :
  let p' := (set_network_mode some_host any_hooks Limited [push_blocked (mkBlocked nat 1 None)] start).1 in
  decide_host (read_policy None p') (λ _ _, Some []) Approved (lit "bad.example.com") 443 = Blocked Denied
  ∧ length (blocked (state p')) ≤ MAX_BLOCKED_EVENTS.
Proof.
  intros p'. apply (managed_deny_enforced some_host any_hooks no_mitm start p' [lit "bad.example.com"]).
  - apply start_started.
  - eapply rtc_once, step_mode; [|apply surjective_pairing].
    constructor; [apply push_blocked_ok|constructor].
  - by vm_compute.
  - left.
  - by vm_compute.
Defined.

Lemma added_deny_blocks_witness :
  let p' := (add_denied_domain some_host any_hooks no_mitm (lit "Evil.org:443") [] start).1 in
  decide_host (read_policy None p') (λ _ _, Some []) Approved (lit "Evil.org:443") 443 = Blocked Denied.
Proof.
  intros p'. apply (added_deny_blocks some_host any_hooks no_mitm (lit "Evil.org:443") (lit "evil.org") [] start p').
  - apply start_ok.
  - constructor.
  - by vm_compute.
  - by vm_compute.
  - by vm_compute.
Defined.

Lemma blocked_log_latest_witness :
  let es := (λ n, mkBlocked nat n None) <$> seq 0 3 in
  let p' := (st_for es record_blocked start).1 in
  let p'' := (drain_blocked p').1 in
  let all := blocked (state start) ++ (attributed start <$> es) in
  blocked (state p') = drop (length all - MAX_BLOCKED_EVENTS) all
  ∧ blocked_total (state p'') = N.min (blocked_total (state start) + N.of_nat (length es)) u64_max
  ∧ blocked (state p'') = [].
Proof.
  intros es p' p'' all. apply (blocked_log_latest es start p' p'' (blocked (state p'))); try (by vm_compute).
  vm_compute. lia.
Defined.

Lemma force_reload_forgets_count_witness :
  let p := (st_for [mkBlocked nat 1 None] record_blocked start).1 in
  blocked_total (state p) = 1%N ∧ blocked_total (state (force_reload (Ok example_state) p).1) = 0%N
  ∧ blocked_total (state (replace_config_state example_state p).1) = 1%N.
Proof.
  intros p. split; [by vm_compute|].
  destruct (force_reload_forgets_count no_mitm example_config example_constraints Linux example_state p example_built)
    as (_ & H1 & _ & H2).
  split; [exact H1|]. rewrite H2. by vm_compute.
Defined.

Lemma update_loses_blocked_witness :
  let run := update_domain_list some_host any_hooks no_mitm (lit "evil.org") DenyList
               [push_blocked (mkBlocked nat 1 None)] start in
  run.2 = Ok tt ∧ blocked (state run.1) = blocked (state start)
  ∧ blocked_total (state run.1) = blocked_total (state start).
Proof.
  apply (update_loses_blocked some_host any_hooks no_mitm (lit "evil.org") (lit "evil.org") DenyList
    (mkBlocked nat 1 None) start
    (match prepare_update some_host any_hooks no_mitm DefaultFalse (lit "evil.org") DenyList (state start) with
     | Ok (Some s) => s | _ => example_state end)); by vm_compute.
Defined.
