(* ===== verification/ShellSyntax.v ===== *)
(** shell-command/src/bash.rs, and the shell detection of shell_detect.rs and
    powershell.rs it needs: which commands a [bash -lc] script runs.

    The parser (tree-sitter with its bash grammar) is a parameter.  A [Node] holds
    what the code asks of a tree-sitter node: its kind, whether it is named, where
    it starts, its text in the source it was parsed from ([utf8_text(..).ok()]) and
    its children.  The two loops over an explicit stack take the number of nodes as
    fuel, which is what they visit. *)
From S2P Require Import Prelude Str.

(** * Paths of the Unix build *)

Definition SLASH : N := 47.
Definition DOT : N := 46.
Definition starts_with_root (s : str) : bool := starts_with [SLASH] s.

(** [Path::components]: empty pieces vanish, and so does a [.] that does not open a
    relative path. *)
Definition components (s : str) : bool * list str :=
  let root := starts_with_root s in
  let pieces := split_by (N.eqb SLASH) s in
  let keep (p : str) := negb (bool_decide (p = [])) && negb (bool_decide (p = [DOT])) in
  (root, match pieces with
         | first :: others =>
             (if keep first || (negb root && bool_decide (first = [DOT])) then [first] else [])
             ++ filter (λ p, keep p = true) others
         | [] => []
         end).

(** [Path::file_name]: the last component when it is a normal one. *)
Definition path_file_name (s : str) : option str :=
  match last (components s).2 with
  | Some name => if bool_decide (name ∈ [[DOT]; [DOT; DOT]]) then None else Some name
  | None => None
  end.

(** [Path::file_stem]: up to the last dot, unless that is the first character. *)
Definition path_file_stem (s : str) : option str :=
  name ← path_file_name s;
  Some (match rsplit_once DOT name with
        | Some (before, _) => if bool_decide (before = []) then name else before
        | None => name
        end).

(** * shell_detect.rs *)

Inductive ShellType := Zsh | Bash | PowerShell | Sh | Cmd.

#[export] Instance ShellType_eq_dec : EqDecision ShellType.
Proof. solve_decision. Defined.

Definition shell_name (t : ShellType) : str :=
  match t with
  | Zsh => lit "zsh" | Bash => lit "bash" | PowerShell => lit "powershell" | Sh => lit "sh" | Cmd => lit "cmd"
  end.

(** The names the match lists. *)
Definition known_shell (shell_path : str) : option ShellType :=
  if shell_path =s lit "zsh" then Some Zsh
  else if shell_path =s lit "sh" then Some Sh
  else if shell_path =s lit "cmd" then Some Cmd
  else if shell_path =s lit "bash" then Some Bash
  else if shell_path =s lit "pwsh" then Some PowerShell
  else if shell_path =s lit "powershell" then Some PowerShell
  else None.

Fixpoint detect_shell_type_fuel (fuel : nat) (shell_path : str) : option ShellType :=
  match known_shell shell_path with
  | Some t => Some t
  | None =>
      match path_file_stem shell_path with
      | Some shell_name =>
          if negb (bool_decide (components shell_name = components shell_path)) then
            match fuel with
            | S fuel => detect_shell_type_fuel fuel shell_name
            | O => None
            end
          else None
      | None => None
      end
  end.

Definition detect_shell_type (shell_path : str) : option ShellType :=
  detect_shell_type_fuel (length shell_path) shell_path.

(** * The syntax tree *)

Inductive Node := mkNode (kind : str) (is_named : bool) (start_byte : nat) (utf8_text : option str)
                         (children : list Node).

Definition kind (n : Node) : str := let '(mkNode k _ _ _ _) := n in k.
Definition is_named (n : Node) : bool := let '(mkNode _ b _ _ _) := n in b.
Definition start_byte (n : Node) : nat := let '(mkNode _ _ p _ _) := n in p.
Definition utf8_text (n : Node) : option str := let '(mkNode _ _ _ t _) := n in t.
Definition children (n : Node) : list Node := let '(mkNode _ _ _ _ c) := n in c.
Definition named_children (n : Node) : list Node := filter (λ c, is_named c = true) (children n).

Record Tree := mkTree { root_node : Node; has_error : bool }.

Fixpoint node_size (n : Node) : nat :=
  match n with mkNode _ _ _ _ c => S (sum_list_with node_size c) end.
Definition forest_size (ns : list Node) : nat := sum_list_with node_size ns.

(** * Words *)

Definition QUOTE : N := 34.
Definition TICK : N := 39.
Definition BACKSLASH : N := 92.
Definition EXPANSION_CHARS : str := lit "{}*?[]\~^#$`".

Definition literal_text (word : str) : bool :=
  negb (starts_with (lit "=") word) && negb (existsb (λ c, bool_decide (c ∈ EXPANSION_CHARS)) word).

Definition is_word_or_number (k : str) : bool := bool_decide (k ∈ [lit "word"; lit "number"]).

Definition is_literal_word_or_number (n : Node) : bool :=
  if negb (is_word_or_number (kind n)) then false
  else bool_decide (named_children n = [])
       && match utf8_text n with Some word => literal_text word | None => false end.

(** [windows(2).any(..)]: a backslash that double quotes would remove. *)
Fixpoint has_removed_escape (s : str) : bool :=
  match s with
  | a :: s' =>
      (N.eqb a BACKSLASH
       && match s' with b :: _ => bool_decide (b ∈ [36; 96; QUOTE; BACKSLASH; LF]%N) | [] => false end)
      || has_removed_escape s'
  | [] => false
  end.

(** [strip_prefix(q).and_then(|s| s.strip_suffix(q))] *)
Definition strip_quotes (q : N) (s : str) : option str := strip_prefix [q] s ≫= strip_suffix [q].

Definition parse_double_quoted_string (n : Node) : option str :=
  if negb (kind n =s lit "string") then None
  else if existsb (λ part, negb (kind part =s lit "string_content")) (named_children n) then None
  else
    raw ← utf8_text n;
    stripped ← strip_quotes QUOTE raw;
    if has_removed_escape stripped then None else Some stripped.

Definition parse_raw_string (n : Node) : option str :=
  if negb (kind n =s lit "raw_string") then None
  else raw_string ← utf8_text n; strip_quotes TICK raw_string.

(** One argument of a plain command, or a part of a concatenation. *)
Definition parse_plain_part (n : Node) : option str :=
  if is_word_or_number (kind n) then utf8_text n
  else if kind n =s lit "string" then parse_double_quoted_string n
  else if kind n =s lit "raw_string" then parse_raw_string n
  else None.

Definition non_empty_text (s : str) : option str := if bool_decide (s = []) then None else Some s.

Definition parse_plain_child (child : Node) : option str :=
  if kind child =s lit "command_name" then
    word_node ← head (named_children child);
    if negb (kind word_node =s lit "word") then None else utf8_text word_node
  else if kind child =s lit "concatenation" then
    concatenated ← mapM parse_plain_part (named_children child);
    non_empty_text (mjoin concatenated)
  else parse_plain_part child.

Definition parse_plain_command_from_node (cmd : Node) : option (list str) :=
  if negb (kind cmd =s lit "command") then None
  else mapM parse_plain_child (named_children cmd).

(** The recursion is through concatenations; the parts are the node's named children. *)
Fixpoint parse_literal_shell_word (n : Node) : option str :=
  match n with
  | mkNode k named pos text cs =>
      if is_word_or_number k then
        if is_literal_word_or_number n then text else None
      else if k =s lit "string" then parse_double_quoted_string n
      else if k =s lit "raw_string" then parse_raw_string n
      else if k =s lit "concatenation" then
        let parts :=
          (fix go (cs : list Node) : option (list str) :=
             match cs with
             | [] => Some []
             | c :: cs =>
                 if is_named c then
                   w ← parse_literal_shell_word c; ws ← go cs; Some (w :: ws)
                 else go cs
             end) cs in
        concatenated ← parts;
        non_empty_text (mjoin concatenated)
      else None
  end.

(** The loop of [parse_literal_command_from_node] over the named children; its state
    is the words so far and [found_command_name]. *)
Fixpoint parse_literal_children (cs : list Node) (words : list str) (found : bool) : option (list str) :=
  match cs with
  | [] => if found then Some words else None
  | child :: cs =>
      if kind child =s lit "command_name" then
        name ← head (named_children child);
        command_name ← parse_literal_shell_word name;
        parse_literal_children cs (words ++ [command_name]) true
      else if found then
        match parse_literal_shell_word child with
        | Some word => parse_literal_children cs (words ++ [word]) found
        | None => parse_literal_children cs words found
        end
      else parse_literal_children cs words found
  end.

Definition parse_literal_command_from_node (cmd : Node) : option (list str) :=
  if negb (kind cmd =s lit "command") then None
  else parse_literal_children (named_children cmd) [] false.

(** * The two walks *)

Definition ALLOWED_KINDS : list str :=
  [lit "program"; lit "list"; lit "pipeline"; lit "command"; lit "command_name"; lit "word"; lit "string";
   lit "string_content"; lit "raw_string"; lit "number"; lit "concatenation"].

Definition ALLOWED_PUNCT_TOKENS : list str := [lit "&&"; lit "||"; lit ";"; lit "|"; [QUOTE]; [TICK]].

(** What the walk requires of a node. *)
Definition node_allowed (n : Node) : bool :=
  let k := kind n in
  if is_named n then
    if negb (bool_decide (k ∈ ALLOWED_KINDS)) then false
    else if is_word_or_number k && negb (is_literal_word_or_number n) then false
    else true
  else if existsb (λ c, bool_decide (c ∈ lit "&;|")) k && negb (bool_decide (k ∈ ALLOWED_PUNCT_TOKENS)) then false
  else if negb (bool_decide (k ∈ ALLOWED_PUNCT_TOKENS) || bool_decide (trim k = [])) then false
  else true.

(** [while let Some(node) = stack.pop()]: the end of the source's vector is the head. *)
Fixpoint word_only_walk (fuel : nat) (stack command_nodes : list Node) : option (list Node) :=
  match fuel, stack with
  | _, [] => Some command_nodes
  | O, _ => None
  | S fuel, node :: stack =>
      if negb (node_allowed node) then None
      else
        let command_nodes :=
          if is_named node && (kind node =s lit "command") then command_nodes ++ [node] else command_nodes in
        word_only_walk fuel (reverse (children node) ++ stack) command_nodes
  end.

(** [sort_by_key(Node::start_byte)] is stable: insertion sort. *)
Fixpoint insert_by_start (n : Node) (l : list Node) : list Node :=
  match l with
  | [] => [n]
  | m :: l' => if start_byte n <=? start_byte m then n :: l else m :: insert_by_start n l'
  end.
Definition sort_by_start (l : list Node) : list Node := foldr insert_by_start [] l.

Definition try_parse_word_only_commands_sequence (t : Tree) : option (list (list str)) :=
  if has_error t then None
  else
    command_nodes ← word_only_walk (node_size (root_node t)) [root_node t] [];
    mapM parse_plain_command_from_node (sort_by_start command_nodes).

Fixpoint literal_walk (fuel : nat) (stack : list Node) (commands : list (list str)) : list (list str) :=
  match fuel, stack with
  | _, [] => commands
  | O, _ => commands
  | S fuel, node :: stack =>
      let commands :=
        if kind node =s lit "command" then
          match parse_literal_command_from_node node with
          | Some command => commands ++ [command]
          | None => commands
          end
        else commands in
      literal_walk fuel (reverse (named_children node) ++ stack) commands
  end.

Definition extract_bash_command (command : list str) : option (str * str) :=
  match command with
  | [shell; flag; script] =>
      if negb (bool_decide (flag ∈ [lit "-lc"; lit "-c"]))
         || negb (bool_decide (detect_shell_type shell ∈ [Some Zsh; Some Bash; Some Sh]))
      then None
      else Some (shell, script)
  | _ => None
  end.

(** * powershell.rs *)

Definition POWERSHELL_FLAGS : list str := [lit "-nologo"; lit "-noprofile"; lit "-command"; lit "-c"].

(** The loop [while i + 1 < command.len()] over the arguments from [i] on. *)
Fixpoint find_powershell_script (args : list str) : option str :=
  match args with
  | flag :: ((script :: _) as args') =>
      if negb (bool_decide (to_ascii_lowercase flag ∈ POWERSHELL_FLAGS)) then None
      else if eq_ignore_ascii_case flag (lit "-Command") || eq_ignore_ascii_case flag (lit "-c")
      then Some script
      else find_powershell_script args'
  | _ => None
  end.

Definition extract_powershell_command (command : list str) : option (str * str) :=
  if length command <? 3 then None
  else match command with
       | shell :: args =>
           if negb (bool_decide (detect_shell_type shell = Some PowerShell)) then None
           else script ← find_powershell_script args; Some (shell, script)
       | [] => None
       end.

Definition UTF8_OUTPUT_PREFIX : str :=
  lit "try { [Console]::OutputEncoding=[System.Text.Encoding]::UTF8 } catch {}" ++ [LF].

Definition prefix_powershell_script_with_utf8 (command : list str) : list str :=
  match extract_powershell_command command with
  | None => command
  | Some (_, script) =>
      let script := if starts_with UTF8_OUTPUT_PREFIX (trim_start script) then script
                    else UTF8_OUTPUT_PREFIX ++ script in
      take (length command - 1) command ++ [script]
  end.

(** * Scripts *)

Section Scripts.
Context (try_parse_shell : str → option Tree).

Definition parse_shell_script_into_commands (script : str) : option (list (list str)) :=
  tree ← try_parse_shell script; try_parse_word_only_commands_sequence tree.

Definition parse_shell_lc_plain_commands (command : list str) : option (list (list str)) :=
  '(_, script) ← extract_bash_command command; parse_shell_script_into_commands script.

Definition parse_shell_lc_literal_commands (command : list str) : option (list (list str)) :=
  '(_, script) ← extract_bash_command command;
  tree ← try_parse_shell script;
  if has_error tree then None
  else Some (literal_walk (node_size (root_node tree)) [root_node tree] []).
End Scripts.

(** * Facts about paths and shells *)

Lemma rsplit_once_length c s a b : rsplit_once c s = Some (a, b) → length a < length s.
Proof.
  revert a b. induction s as [|d s IH]; intros a b; simpl; [done|].
  destruct (rsplit_once c s) as [[a' b']|].
  - intros [= <- <-]. simpl. specialize (IH a' b' eq_refl). lia.
  - case_match; [|done]. intros [= <- <-]. simpl. lia.
Qed.

Lemma split_by_piece_length p s w : w ∈ split_by p s → length w ≤ length s.
Proof.
  revert w. induction s as [|c s IH]; intros w; simpl; [set_solver|].
  destruct (p c).
  - rewrite elem_of_cons. intros [->|Hw]; simpl; [lia|]. specialize (IH w Hw). lia.
  - destruct (split_by p s) as [|v vs] eqn:E; rewrite ?elem_of_cons.
    + intros [->|[]%not_elem_of_nil]. simpl. lia.
    + intros [->|Hw]; simpl; [|specialize (IH w); set_solver by lia].
      specialize (IH v (list_elem_of_here _ _)). lia.
Qed.

(** A piece as long as the text is the text. *)
Lemma split_by_piece_whole p s w : w ∈ split_by p s → length w = length s → w = s.
Proof.
  revert w. induction s as [|c s IH]; intros w; simpl; [set_solver|].
  pose proof (split_by_piece_length p s) as Hl. intros Hw Hlen. destruct (p c).
  - apply elem_of_cons in Hw as [->|Hw]; [done|]. specialize (Hl w Hw). lia.
  - destruct (split_by p s) as [|v vs] eqn:E; apply elem_of_cons in Hw as [->|Hw].
    + by destruct s; simpl in Hlen.
    + by apply not_elem_of_nil in Hw.
    + f_equal. apply IH; [left|]. simpl in Hlen. lia.
    + specialize (Hl w (list_elem_of_further _ _ _ Hw)). lia.
Qed.

Lemma components_pieces s p : p ∈ (components s).2 → p ∈ split_by (N.eqb SLASH) s.
Proof.
  unfold components. cbn [snd]. destruct (split_by _ s) as [|first others]; [done|].
  rewrite elem_of_app, list_elem_of_filter, elem_of_cons. case_match; set_solver.
Qed.

Lemma file_stem_shorter s stem : path_file_stem s = Some stem → stem = s ∨ length stem < length s.
Proof.
  unfold path_file_stem, path_file_name. intros H.
  destruct (last (components s).2) as [name|] eqn:El; [|done].
  assert (name ∈ split_by (N.eqb SLASH) s) as Hin.
  { apply components_pieces. apply last_Some in El as [l' ->]. set_solver. }
  pose proof (split_by_piece_length _ _ _ Hin). pose proof (split_by_piece_whole _ _ _ Hin).
  assert (stem = name ∨ length stem < length name) as [->|?]; [|destruct (decide (length name = length s))..];
    [|auto with lia..].
  case_bool_decide; [done|]. simpl in H.
  destruct (rsplit_once DOT name) as [[before after]|] eqn:Er; simplify_eq/=; [|by left].
  apply rsplit_once_length in Er. case_bool_decide; [by left|by right].
Qed.

(** The fuel of the recursion on the stem is enough. *)
Lemma detect_fuel_enough m n s :
  length s ≤ m → length s ≤ n → detect_shell_type_fuel m s = detect_shell_type_fuel n s.
Proof.
  revert n s. induction m as [|m IH]; intros n s Hm Hn.
  - destruct s; [|simpl in Hm; lia]. by destruct n.
  - destruct n as [|n]; [destruct s; [done|simpl in Hn; lia]|]. simpl.
    destruct (known_shell s); [done|]. destruct (path_file_stem s) as [stem|] eqn:E; [|done].
    destruct (file_stem_shorter s stem E) as [->|Hlt]; [by rewrite bool_decide_true|].
    rewrite (IH n stem); [done|lia|lia].
Qed.

Lemma detect_unfold s :
  detect_shell_type s =
    match known_shell s with
    | Some t => Some t
    | None => stem ← path_file_stem s;
              if bool_decide (components stem = components s) then None else detect_shell_type stem
    end.
Proof.
  unfold detect_shell_type at 1. rewrite (detect_fuel_enough _ (S (length s))); [|lia..]. simpl.
  destruct (known_shell s); [done|]. destruct (path_file_stem s) as [stem|] eqn:E; [|done]. simpl.
  case_bool_decide; [done|]. simpl. apply detect_fuel_enough; [|done].
  destruct (file_stem_shorter s stem E) as [->|]; lia.
Qed.

(** What the recursion means: the extensions are taken off until a known name is left. *)
Inductive shell_of : str → ShellType → Prop :=
| shell_of_name s t : known_shell s = Some t → shell_of s t
| shell_of_stem s stem t :
    known_shell s = None → path_file_stem s = Some stem → components stem ≠ components s →
    shell_of stem t → shell_of s t.

Lemma detect_shell_of s t : detect_shell_type s = Some t ↔ shell_of s t.
Proof.
  split.
  - induction s as [s IH] using (induction_ltof1 _ length). rewrite detect_unfold.
    destruct (known_shell s) as [t'|] eqn:Ek; [intros [= ->]; by constructor|].
    destruct (path_file_stem s) as [stem|] eqn:E; [|done]. simpl. case_bool_decide; [done|].
    intros Ht. econstructor 2; eauto. apply IH; [|done].
    destruct (file_stem_shorter s stem E) as [->|]; [done|]. done.
  - induction 1 as [s t Ek|s stem t Ek E Hne _ IH]; rewrite detect_unfold, Ek; [done|].
    rewrite E. simpl. by rewrite bool_decide_false.
Qed.

(** * Facts about trees *)

Section NodeInd.
Context (P : Node → Prop).
Hypothesis step : ∀ k b p t cs, Forall P cs → P (mkNode k b p t cs).

Fixpoint node_ind' (n : Node) : P n :=
  match n with
  | mkNode k b p t cs =>
      step k b p t cs
        ((fix go (cs : list Node) : Forall P cs :=
            match cs with
            | [] => List.Forall_nil P
            | c :: cs => @List.Forall_cons _ P c cs (node_ind' c) (go cs)
            end) cs)
  end.
End NodeInd.

(** The nodes of a tree in the order a walk that pushes [next n] visits them. *)
Fixpoint visit_all (n : Node) : list Node :=
  match n with mkNode _ _ _ _ cs => n :: mjoin (reverse (visit_all <$> cs)) end.

Fixpoint visit_named (n : Node) : list Node :=
  match n with
  | mkNode _ _ _ _ cs => n :: mjoin (reverse ((λ c, if is_named c then visit_named c else []) <$> cs))
  end.

Lemma visit_all_unfold n : visit_all n = n :: mjoin (visit_all <$> reverse (children n)).
Proof. destruct n. simpl. by rewrite fmap_reverse. Qed.

Lemma visit_named_unfold n : visit_named n = n :: mjoin (visit_named <$> reverse (named_children n)).
Proof.
  destruct n as [k b p t cs]. unfold named_children. simpl. f_equal.
  rewrite fmap_reverse. induction cs as [|c cs IH]; [done|].
  cbn [fmap list_fmap]. rewrite filter_cons, reverse_cons, mjoin_app, IH. simpl.
  case_decide as E.
  - rewrite fmap_cons, reverse_cons, mjoin_app, E. done.
  - destruct (is_named c); [done|]. simpl. by rewrite app_nil_r.
Qed.

Lemma forest_size_app l k : forest_size (l ++ k) = forest_size l + forest_size k.
Proof. apply sum_list_with_app. Qed.

Lemma forest_size_reverse l : forest_size (reverse l) = forest_size l.
Proof. apply sum_list_with_reverse. Qed.

Lemma forest_size_filter (P : Node → Prop) `{∀ x, Decision (P x)} l : forest_size (filter P l) ≤ forest_size l.
Proof.
  induction l as [|x l IH]; [done|]. rewrite filter_cons. unfold forest_size in *.
  case_decide; simpl; lia.
Qed.

Lemma node_size_children n : node_size n = S (forest_size (children n)).
Proof. by destruct n. Qed.

Definition is_command_node (n : Node) : bool := is_named n && (kind n =s lit "command").

(** The walk with enough fuel: all visited nodes are allowed, and the command nodes are
    collected in the order of the visit. *)
Lemma word_only_walk_spec fuel stack acc :
  forest_size stack ≤ fuel →
  word_only_walk fuel stack acc =
    (if forallb node_allowed (mjoin (visit_all <$> stack))
     then Some (acc ++ filter (λ n, is_command_node n = true) (mjoin (visit_all <$> stack))) else None).
Proof.
  revert stack acc. induction fuel as [|fuel IH]; intros [|n stack] acc Hf; simpl.
  - by rewrite app_nil_r.
  - unfold forest_size in Hf. simpl in Hf. rewrite node_size_children in Hf. lia.
  - by rewrite app_nil_r.
  - rewrite visit_all_unfold. cbn [app forallb]. destruct (node_allowed n); cbn [negb andb]; [|done].
    rewrite IH.
    2: { unfold forest_size in Hf. simpl in Hf. rewrite node_size_children in Hf.
         rewrite forest_size_app, forest_size_reverse. unfold forest_size in *. lia. }
    rewrite fmap_app, mjoin_app. destruct (forallb _ _); [|done]. f_equal. rewrite filter_cons.
    change (is_named n && _) with (is_command_node n).
    destruct (is_command_node n); rewrite ?decide_True, ?decide_False by done; [|done].
    by rewrite <- (assoc_L (++)).
Qed.

Lemma literal_command_kind n : kind n ≠ lit "command" → parse_literal_command_from_node n = None.
Proof. intros Hk. unfold parse_literal_command_from_node. by rewrite bool_decide_false. Qed.

Lemma literal_walk_spec fuel stack acc :
  forest_size stack ≤ fuel →
  literal_walk fuel stack acc =
    acc ++ omap parse_literal_command_from_node (mjoin (visit_named <$> stack)).
Proof.
  revert stack acc. induction fuel as [|fuel IH]; intros [|n stack] acc Hf; simpl.
  - by rewrite app_nil_r.
  - unfold forest_size in Hf. simpl in Hf. rewrite node_size_children in Hf. lia.
  - by rewrite app_nil_r.
  - rewrite visit_named_unfold. rewrite IH.
    2: { unfold forest_size in Hf. simpl in Hf. rewrite node_size_children in Hf.
         rewrite forest_size_app, forest_size_reverse.
         pose proof (forest_size_filter (λ c, is_named c = true) (children n)) as Hc.
         unfold named_children, forest_size in *. lia. }
    rewrite fmap_app, mjoin_app. cbn [app omap list_omap].
    case_bool_decide as Hk; [|by rewrite (literal_command_kind n Hk)].
    destruct (parse_literal_command_from_node n); [|done]. by rewrite <- (assoc_L (++)).
Qed.

Lemma insert_by_start_perm n l : insert_by_start n l ≡ₚ n :: l.
Proof. induction l as [|m l IH]; simpl; [done|]. case_match; [done|]. rewrite IH. constructor. Qed.

Lemma sort_by_start_perm l : sort_by_start l ≡ₚ l.
Proof. induction l as [|n l IH]; simpl; [done|]. by rewrite insert_by_start_perm, IH. Qed.

Definition starts_before (n m : Node) : Prop := start_byte n ≤ start_byte m.

Lemma insert_node_sorted n l : StronglySorted starts_before l → StronglySorted starts_before (insert_by_start n l).
Proof.
  induction 1 as [|m l Hs IH Hm]; simpl; [by repeat constructor|].
  destruct (start_byte n <=? start_byte m) eqn:E; bool_facts.
  - constructor; [by constructor|]. constructor; [done|]. eapply Forall_impl; [exact Hm|].
    unfold starts_before. lia.
  - constructor; [done|]. rewrite insert_by_start_perm. constructor; [unfold starts_before; lia|done].
Qed.

Lemma sort_nodes_sorted l : StronglySorted starts_before (sort_by_start l).
Proof. induction l; simpl; [constructor|]. by apply insert_node_sorted. Qed.

(** * What a word of a script is *)

(** A node that stands for the word [w] whatever the environment: an unquoted word no
    expansion touches, a quoted text, or such pieces side by side. *)
Inductive shell_word : Node → str → Prop :=
| word_plain n w :
    is_word_or_number (kind n) = true → named_children n = [] → utf8_text n = Some w →
    literal_text w = true → shell_word n w
| word_double n w :
    kind n = lit "string" → Forall (λ part, kind part = lit "string_content") (named_children n) →
    utf8_text n = Some ([QUOTE] ++ w ++ [QUOTE]) → has_removed_escape w = false → shell_word n w
| word_raw n w :
    kind n = lit "raw_string" → utf8_text n = Some ([TICK] ++ w ++ [TICK]) → shell_word n w
| word_concat n ws :
    kind n = lit "concatenation" → Forall2 shell_word (named_children n) ws → mjoin ws ≠ [] →
    shell_word n (mjoin ws).

Lemma strip_quotes_Some q s w : strip_quotes q s = Some w ↔ s = [q] ++ w ++ [q].
Proof.
  unfold strip_quotes. rewrite bind_Some. setoid_rewrite strip_prefix_Some. setoid_rewrite strip_suffix_Some.
  split; [by intros (? & -> & ->)|eauto].
Qed.

Lemma parse_literal_unfold n :
  parse_literal_shell_word n =
    if is_word_or_number (kind n) then if is_literal_word_or_number n then utf8_text n else None
    else if kind n =s lit "string" then parse_double_quoted_string n
    else if kind n =s lit "raw_string" then parse_raw_string n
    else if kind n =s lit "concatenation" then
      concatenated ← mapM parse_literal_shell_word (named_children n); non_empty_text (mjoin concatenated)
    else None.
Proof.
  destruct n as [k b p t cs]. cbn [parse_literal_shell_word kind utf8_text].
  destruct (is_word_or_number k); [done|]. do 2 (case_bool_decide; [done|]). case_bool_decide; [|done]. f_equal.
  unfold named_children. cbn [children]. induction cs as [|c cs IH]; [done|].
  rewrite filter_cons. destruct (is_named c); rewrite ?decide_True, ?decide_False by done; [|done].
  cbn [mapM]. by rewrite <- IH.
Qed.

Lemma kind_cases k :
  (is_word_or_number k = true → k ≠ lit "string" ∧ k ≠ lit "raw_string" ∧ k ≠ lit "concatenation" ∧
                                k ≠ lit "command_name").
Proof.
  unfold is_word_or_number. rewrite bool_decide_eq_true, !elem_of_cons, elem_of_nil.
  intros [->|[->|[]]]; repeat split; by apply (bool_decide_unpack _).
Qed.

Lemma literal_word_spec n w :
  is_word_or_number (kind n) = true →
  (is_literal_word_or_number n = true ∧ utf8_text n = Some w) ↔
  (named_children n = [] ∧ utf8_text n = Some w ∧ literal_text w = true).
Proof.
  intros Hk. unfold is_literal_word_or_number. rewrite Hk. cbn [negb].
  rewrite andb_true_iff, bool_decide_eq_true. destruct (utf8_text n); naive_solver.
Qed.

Lemma double_quoted_spec n w :
  parse_double_quoted_string n = Some w ↔
  kind n = lit "string" ∧ Forall (λ part, kind part = lit "string_content") (named_children n) ∧
  utf8_text n = Some ([QUOTE] ++ w ++ [QUOTE]) ∧ has_removed_escape w = false.
Proof.
  unfold parse_double_quoted_string. case_bool_decide as Hk; cbn [negb]; [|naive_solver].
  destruct (existsb _ _) eqn:Ee.
  - split; [done|]. intros (_ & Hf & _). apply existsb_exists in Ee as (part & Hin & Hp).
    rewrite Forall_forall in Hf. specialize (Hf part). rewrite list_elem_of_In in Hf.
    rewrite bool_decide_true in Hp; [done|auto].
  - assert (Forall (λ part, kind part = lit "string_content") (named_children n)) as Hf.
    { apply Forall_forall. intros part Hin. destruct (decide (kind part = lit "string_content")); [done|].
      assert (existsb (λ part, negb (kind part =s lit "string_content")) (named_children n) = true) as Ht; [|congruence].
      apply existsb_exists. exists part. rewrite <- list_elem_of_In. by rewrite bool_decide_false. }
    rewrite bind_Some. setoid_rewrite bind_Some. setoid_rewrite strip_quotes_Some. split.
    + intros (raw & Ht & stripped & -> & Hs). destruct (has_removed_escape stripped) eqn:?; naive_solver.
    + intros (_ & _ & Ht & Hs). eexists. split; [exact Ht|]. exists w. by rewrite Hs.
Qed.

Lemma raw_string_spec n w :
  parse_raw_string n = Some w ↔ kind n = lit "raw_string" ∧ utf8_text n = Some ([TICK] ++ w ++ [TICK]).
Proof.
  unfold parse_raw_string. case_bool_decide as Hk; cbn [negb]; [|naive_solver].
  rewrite bind_Some. setoid_rewrite strip_quotes_Some. naive_solver.
Qed.

Lemma non_empty_text_Some s w : non_empty_text s = Some w ↔ w = s ∧ s ≠ [].
Proof. unfold non_empty_text. case_bool_decide; naive_solver. Qed.

(** The words the literal extraction takes are exactly those. *)
Lemma parse_literal_shell_word_spec n w : parse_literal_shell_word n = Some w ↔ shell_word n w.
Proof.
  revert w. induction n as [k b p t cs IH] using node_ind'. intros w.
  set (n := mkNode k b p t cs). rewrite parse_literal_unfold.
  assert (∀ ws, mapM parse_literal_shell_word (named_children n) = Some ws ↔
                Forall2 shell_word (named_children n) ws) as HM.
  { intros ws. rewrite mapM_Some.
    assert (Forall (λ c, ∀ w, parse_literal_shell_word c = Some w ↔ shell_word c w) (named_children n)) as Hn.
    { apply Forall_forall. intros c [_ Hc]%list_elem_of_filter. by rewrite Forall_forall in IH; apply IH. }
    clear IH. revert ws. induction Hn as [|c l Hc Hl IHl]; intros ws; split; inversion 1; subst; constructor;
      try (by apply Hc); by apply IHl. }
  destruct (is_word_or_number (kind n)) eqn:Ek.
  { pose proof (literal_word_spec n w Ek) as Hl. destruct (kind_cases _ Ek) as (? & ? & ? & ?). split.
    - intros Ht. destruct (is_literal_word_or_number n); [|done]. destruct Hl as [Hl _].
      apply word_plain; tauto.
    - inversion 1; subst; try congruence. destruct Hl as [_ Hl]. destruct Hl as [-> ?]; auto. }
  case_bool_decide as Es.
  { rewrite double_quoted_spec. split; [intros (? & ? & ? & ?); by apply word_double|].
    inversion 1; subst; try congruence; try done; rewrite Es in *; done. }
  case_bool_decide as Er.
  { rewrite raw_string_spec. split; [intros (? & ?); by apply word_raw|].
    inversion 1; subst; try congruence; try done; rewrite Er in *; done. }
  case_bool_decide as Ec.
  - rewrite bind_Some. setoid_rewrite HM. setoid_rewrite non_empty_text_Some. split.
    + intros (ws & Hws & -> & Hne). by apply word_concat.
    + inversion 1; subst; try congruence. eauto.
  - split; [done|]. inversion 1; subst; congruence.
Qed.

(** * The commands of an accepted script *)

Definition tree_allowed (n : Node) : Prop := Forall (λ m, node_allowed m = true) (visit_all n).

Lemma visit_all_child n c m : c ∈ children n → m ∈ visit_all c → m ∈ visit_all n.
Proof.
  intros Hc Hm. rewrite (visit_all_unfold n). right. apply list_elem_of_join. exists (visit_all c). split; [done|].
  apply list_elem_of_fmap. exists c. split; [done|]. by apply elem_of_reverse.
Qed.

Lemma visit_all_self n : n ∈ visit_all n.
Proof. rewrite visit_all_unfold. left. Qed.

Lemma named_child_spec n c : c ∈ named_children n ↔ is_named c = true ∧ c ∈ children n.
Proof. unfold named_children. by rewrite list_elem_of_filter. Qed.

Lemma tree_allowed_child n c : tree_allowed n → c ∈ children n → tree_allowed c.
Proof. unfold tree_allowed. rewrite !Forall_forall. eauto using visit_all_child. Qed.

Lemma tree_allowed_sub n m : tree_allowed n → m ∈ visit_all n → tree_allowed m.
Proof.
  revert m. induction n as [k b p t cs IH] using node_ind'. intros m Ha Hm.
  rewrite visit_all_unfold in Hm. apply elem_of_cons in Hm as [->|Hm]; [done|].
  apply list_elem_of_join in Hm as (vs & Hm & (c & -> & Hc)%list_elem_of_fmap).
  rewrite elem_of_reverse in Hc.
  rewrite Forall_forall in IH. eapply IH; eauto. by eapply tree_allowed_child.
Qed.

Lemma tree_allowed_node n : tree_allowed n → node_allowed n = true.
Proof. unfold tree_allowed. rewrite Forall_forall. auto using visit_all_self. Qed.

Lemma allowed_literal n :
  tree_allowed n → is_named n = true → is_word_or_number (kind n) = true → is_literal_word_or_number n = true.
Proof.
  intros Ha%tree_allowed_node Hn Hk. unfold node_allowed in Ha. rewrite Hn, Hk in Ha.
  destruct (is_literal_word_or_number n); [done|]. by case_match.
Qed.

Lemma plain_part_spec n w :
  tree_allowed n → is_named n = true →
  parse_plain_part n = Some w ↔ shell_word n w ∧ kind n ≠ lit "concatenation".
Proof.
  intros Ha Hn. rewrite <- parse_literal_shell_word_spec, parse_literal_unfold. unfold parse_plain_part.
  destruct (is_word_or_number (kind n)) eqn:Ek.
  { rewrite (allowed_literal n) by done. apply kind_cases in Ek. naive_solver. }
  case_bool_decide as Es; [rewrite Es; naive_solver|].
  case_bool_decide as Er; [rewrite Er; naive_solver|].
  case_bool_decide as Ec; naive_solver.
Qed.

(** A named child of a command: its name, or an argument. *)
Definition plain_child (c : Node) (w : str) : Prop :=
  if decide (kind c = lit "command_name") then
    ∃ name, head (named_children c) = Some name ∧ kind name = lit "word" ∧ shell_word name w
  else shell_word c w ∧
       (kind c = lit "concatenation" → Forall (λ p, kind p ≠ lit "concatenation") (named_children c)).

Definition command_words (cmd : Node) (words : list str) : Prop :=
  kind cmd = lit "command" ∧ Forall2 plain_child (named_children cmd) words.

Lemma mapM_plain_part l ws :
  Forall (λ c, tree_allowed c ∧ is_named c = true) l →
  mapM parse_plain_part l = Some ws ↔ Forall2 shell_word l ws ∧ Forall (λ p, kind p ≠ lit "concatenation") l.
Proof.
  intros Hl. rewrite mapM_Some. revert ws. induction Hl as [|c l [Ha Hn] Hl IH]; intros ws.
  - split; [inversion 1; subst; repeat constructor|intros [Hw _]; by inversion Hw].
  - split.
    + inversion 1; subst. apply plain_part_spec in H2 as []; [|done..]. apply IH in H4 as []. split; by constructor.
    + intros [Hw Hc]. inversion Hw; subst. apply Forall_cons in Hc as [].
      constructor; [by apply plain_part_spec|]. by apply IH.
Qed.

Lemma named_children_allowed n :
  tree_allowed n → Forall (λ c, tree_allowed c ∧ is_named c = true) (named_children n).
Proof.
  intros Ha. apply Forall_forall. intros c [Hn Hc]%named_child_spec. eauto using tree_allowed_child.
Qed.

Lemma plain_child_spec c w :
  tree_allowed c → is_named c = true → parse_plain_child c = Some w ↔ plain_child c w.
Proof.
  intros Ha Hn. unfold parse_plain_child, plain_child. pose proof (named_children_allowed c Ha) as Hcs.
  case_bool_decide as Hk; [rewrite decide_True by done|rewrite decide_False by done].
  - rewrite bind_Some. apply exist_proper. intros name. destruct (head (named_children c)) as [name'|] eqn:Eh;
      [|naive_solver].
    assert (name' ∈ named_children c) as Hin by (destruct (named_children c); simplify_eq/=; left).
    rewrite Forall_forall in Hcs. destruct (Hcs name' Hin) as [Ha' Hn'].
    case_bool_decide as Hw; cbn [negb]; [|naive_solver].
    assert (Some name' = Some name → utf8_text name = Some w ↔ shell_word name w) as Hiff; [|naive_solver].
    intros [= ->]. rewrite <- parse_literal_shell_word_spec, parse_literal_unfold.
    assert (is_word_or_number (kind name) = true) as Hwn by (rewrite Hw; by vm_compute).
    rewrite Hwn. by rewrite (allowed_literal name).
  - case_bool_decide as Hc.
    + rewrite bind_Some. setoid_rewrite mapM_plain_part; [|done]. setoid_rewrite non_empty_text_Some. split.
      * intros (ws & [Hws Hnc] & -> & Hne). split; [by apply word_concat|done].
      * intros [Hw Hnc]. assert (is_word_or_number (kind c) = false) by (rewrite Hc; by vm_compute).
        inversion Hw; subst; [congruence|by rewrite Hc in *|by rewrite Hc in *|]. eexists. split; [split; [done|auto]|done].
    + rewrite plain_part_spec by done. naive_solver.
Qed.

Lemma plain_command_spec n ws :
  tree_allowed n → parse_plain_command_from_node n = Some ws ↔ command_words n ws.
Proof.
  intros Ha. unfold parse_plain_command_from_node, command_words.
  case_bool_decide as Hk; cbn [negb]; [|naive_solver]. rewrite mapM_Some.
  assert (Forall2 (λ x y, parse_plain_child x = Some y) (named_children n) ws ↔
          Forall2 plain_child (named_children n) ws) as ->; [|naive_solver].
  pose proof (named_children_allowed n Ha) as Hcs. clear Hk. revert ws.
  induction Hcs as [|c l [Hc Hn] Hl IH]; intros ws; split; inversion 1; subst; constructor;
    try (by apply plain_child_spec); by apply IH.
Qed.

Lemma visit_commands_allowed t :
  tree_allowed (root_node t) →
  Forall tree_allowed (sort_by_start (filter (λ n, is_command_node n = true) (visit_all (root_node t)))).
Proof.
  intros Ha. rewrite sort_by_start_perm. apply Forall_forall. intros n [_ Hn]%list_elem_of_filter.
  by eapply tree_allowed_sub.
Qed.

Definition script_commands (t : Tree) : list Node :=
  sort_by_start (filter (λ n, is_command_node n = true) (visit_all (root_node t))).

Lemma word_only_spec t cmds :
  try_parse_word_only_commands_sequence t = Some cmds ↔
  has_error t = false ∧ tree_allowed (root_node t) ∧ Forall2 command_words (script_commands t) cmds.
Proof.
  unfold try_parse_word_only_commands_sequence. destruct (has_error t); [naive_solver|].
  rewrite word_only_walk_spec by (simpl; lia). simpl. rewrite !app_nil_r.
  destruct (forallb _ _) eqn:Ef.
  - simpl. assert (tree_allowed (root_node t)) as Ha.
    { apply Forall_forall. intros n Hn. rewrite forallb_forall in Ef. apply Ef. by apply list_elem_of_In. }
    fold (script_commands t). rewrite mapM_Some.
    pose proof (visit_commands_allowed t Ha) as Hc. fold (script_commands t) in Hc.
    assert (Forall2 (λ x y, parse_plain_command_from_node x = Some y) (script_commands t) cmds ↔
            Forall2 command_words (script_commands t) cmds) as ->; [|naive_solver].
    clear Ef Ha. revert cmds. induction Hc as [|c l Hc Hl IH]; intros cmds; split; inversion 1; subst; constructor;
      try (by apply plain_command_spec); by apply IH.
  - split; [done|]. intros (_ & Ha & _). exfalso. apply not_true_iff_false in Ef. apply Ef.
    apply forallb_forall. intros n Hn%list_elem_of_In. unfold tree_allowed in Ha. rewrite Forall_forall in Ha. auto.
Qed.

(** * The two extractions agree *)

(** What the bash grammar says of the trees it gives: anonymous tokens are leaves, and a
    command has a name, with only assignments, redirections and comments before it. *)
Record bash_grammar (t : Tree) : Prop := {
  tokens_are_leaves n : n ∈ visit_all (root_node t) → is_named n = false → children n = [];
  command_has_name n :
    n ∈ visit_all (root_node t) → is_command_node n = true →
    ∃ before name args,
      named_children n = before ++ name :: args ∧ kind name = lit "command_name" ∧
      Forall (λ c, kind c ∈ [lit "variable_assignment"; lit "file_redirect"; lit "herestring_redirect";
                             lit "comment"]) before
}.

Lemma plain_child_literal c w :
  plain_child c w →
  (if kind c =s lit "command_name" then name ← head (named_children c); parse_literal_shell_word name
   else parse_literal_shell_word c) = Some w.
Proof.
  unfold plain_child. case_bool_decide; [rewrite decide_True by done|rewrite decide_False by done].
  - intros (name & -> & _ & Hw). by apply parse_literal_shell_word_spec.
  - intros [Hw _]. by apply parse_literal_shell_word_spec.
Qed.

Lemma literal_children_words cs ws acc :
  Forall2 plain_child cs ws → parse_literal_children cs acc true = Some (acc ++ ws).
Proof.
  intros H. revert acc. induction H as [|c w cs ws Hc%plain_child_literal Hcs IH]; intros acc; simpl.
  - by rewrite app_nil_r.
  - case_bool_decide.
    + destruct (head (named_children c)) as [name|]; [|done]. simpl in *. rewrite Hc. simpl.
      by rewrite IH, <- (assoc_L (++)).
    + by rewrite Hc, IH, <- (assoc_L (++)).
Qed.

Lemma before_name_empty t n before name args :
  tree_allowed (root_node t) → n ∈ visit_all (root_node t) → named_children n = before ++ name :: args →
  Forall (λ c, kind c ∈ [lit "variable_assignment"; lit "file_redirect"; lit "herestring_redirect";
                         lit "comment"]) before → before = [].
Proof.
  intros Ha Hn Hcs Hb. destruct before as [|c before]; [done|]. exfalso.
  apply Forall_cons in Hb as [Hk _]. pose proof (tree_allowed_sub _ _ Ha Hn) as Han.
  assert (c ∈ named_children n) as [Hnc Hc]%named_child_spec by (rewrite Hcs; left).
  apply (tree_allowed_child n c) in Han; [|done]. apply tree_allowed_node in Han.
  unfold node_allowed in Han. rewrite Hnc in Han. revert Han.
  rewrite !elem_of_cons, elem_of_nil in Hk. by destruct Hk as [->|[->|[->|[->|[]]]]]; vm_compute.
Qed.

Lemma plain_command_literal t n ws :
  tree_allowed (root_node t) → bash_grammar t → n ∈ visit_all (root_node t) → is_command_node n = true →
  command_words n ws → parse_literal_command_from_node n = Some ws.
Proof.
  intros Ha Hg Hn Hc [Hk Hw]. destruct (command_has_name t Hg n Hn Hc) as (before & name & args & Hcs & Hname & Hb).
  rewrite (before_name_empty t n before name args) in Hcs by done.
  unfold parse_literal_command_from_node. rewrite bool_decide_true by done. cbn [negb]. rewrite Hcs in *. simpl in Hw.
  inversion Hw as [|? w ? ws' Hf Hr]; subst. simpl. apply plain_child_literal in Hf.
  rewrite bool_decide_true in Hf |- * by done. destruct (head (named_children name)) as [nm|]; [|done]. simpl in *.
  rewrite Hf. simpl. by rewrite literal_children_words with (ws := ws').
Qed.

Lemma visit_named_complete t :
  (∀ n, n ∈ visit_all (root_node t) → is_named n = false → children n = []) →
  ∀ n, n ∈ visit_all (root_node t) → is_named n = true → n ∈ visit_named (root_node t).
Proof.
  generalize (root_node t). clear t. intros root. induction root as [k b p tx cs IH] using node_ind'.
  intros Hleaf n Hn Hnamed. rewrite visit_named_unfold.
  rewrite visit_all_unfold in Hn. apply elem_of_cons in Hn as [->|Hn]; [left|right].
  apply list_elem_of_join in Hn as (vs & Hn & (c & -> & Hc)%list_elem_of_fmap). rewrite elem_of_reverse in Hc.
  assert (is_named c = true) as Hcn.
  { destruct (is_named c) eqn:E; [done|]. rewrite visit_all_unfold in Hn.
    rewrite (Hleaf c) in Hn; [|by eapply visit_all_child, visit_all_self|done].
    apply elem_of_cons in Hn as [->|Hn]; [congruence|by apply not_elem_of_nil in Hn]. }
  apply list_elem_of_join. exists (visit_named c). split.
  - rewrite Forall_forall in IH. apply IH; [done| |done|done]. intros m Hm. apply Hleaf. by eapply visit_all_child.
  - apply list_elem_of_fmap. exists c. split; [done|]. rewrite elem_of_reverse. by apply named_child_spec.
Qed.

Lemma plain_subset_literal t cmds cmd :
  bash_grammar t → try_parse_word_only_commands_sequence t = Some cmds → cmd ∈ cmds →
  cmd ∈ literal_walk (node_size (root_node t)) [root_node t] [].
Proof.
  intros Hg (_ & Ha & Hw)%word_only_spec Hin. rewrite literal_walk_spec by (simpl; lia).
  rewrite app_nil_l. simpl. rewrite app_nil_r. apply list_elem_of_omap.
  apply list_elem_of_lookup in Hin as [i Hi]. destruct (Forall2_lookup_r _ _ _ _ _ Hw Hi) as (n & Hn & Hcw).
  assert (n ∈ script_commands t) as Hs by (by eapply list_elem_of_lookup_2).
  unfold script_commands in Hs. rewrite sort_by_start_perm in Hs. apply list_elem_of_filter in Hs as [Hc Hv].
  exists n. split; [|by eapply plain_command_literal].
  apply visit_named_complete; [apply (tokens_are_leaves t Hg)|done|].
  unfold is_command_node in Hc. by apply andb_true_iff in Hc as [].
Qed.

(** * Theorems *)

(** Detecting the shell of a path always ends with an answer, and the answer is
    that of taking the file's extensions off, one after the other, until a known shell
    name is left; the recursion needs no more steps than the path has characters. *)
Theorem detect_shell_type_total s t fuel :
  length s ≤ fuel →
  (detect_shell_type_fuel fuel s = Some t ↔ shell_of s t) ∧ (detect_shell_type s = Some t ↔ shell_of s t).
Proof.
  intros Hf. rewrite (detect_fuel_enough fuel (length s)) by lia. split; apply detect_shell_of.
Qed.

Lemma detect_shell_type_total_witness :
  detect_shell_type (lit "/usr/bin/bash.exe") = Some Bash ∧ shell_of (lit "/usr/bin/bash.exe") Bash.
Proof.
  split; [by vm_compute|].
  by apply (detect_shell_type_total (lit "/usr/bin/bash.exe") Bash 17); [simpl; lia|vm_compute].
Defined.

(** The tree of the script [echo 'a b' && rm -f x]. *)
Definition leaf (k : str) (named : bool) (at_ : nat) (text : str) : Node := mkNode k named at_ (Some text) [].
Definition name_node (at_ : nat) (text : str) : Node :=
  mkNode (lit "command_name") true at_ (Some text) [leaf (lit "word") true at_ text].
Definition sample_tree : Tree :=
  mkTree
    (mkNode (lit "program") true 0 (Some (lit "echo 'a b' && rm -f x"))
       [mkNode (lit "list") true 0 (Some (lit "echo 'a b' && rm -f x"))
          [mkNode (lit "command") true 0 (Some (lit "echo 'a b'"))
             [name_node 0 (lit "echo"); leaf (lit "raw_string") true 5 (lit "'a b'")];
           leaf (lit "&&") false 11 (lit "&&");
           mkNode (lit "command") true 14 (Some (lit "rm -f x"))
             [name_node 14 (lit "rm"); leaf (lit "word") true 17 (lit "-f"); leaf (lit "word") true 20 (lit "x")]]])
    false.

Definition sample_commands : list (list str) :=
  [[lit "echo"; lit "a b"]; [lit "rm"; lit "-f"; lit "x"]].

(** A script is taken as a sequence of plain commands exactly when its tree has no
    error, every node of it is of an allowed kind (with no word that an expansion could
    change), and each command's words are those its nodes stand for; the commands come in
    the order of the source, each command node once. *)
Theorem plain_commands_exact t cmds :
  (try_parse_word_only_commands_sequence t = Some cmds ↔
   has_error t = false ∧ Forall (λ n, node_allowed n = true) (visit_all (root_node t)) ∧
   Forall2 command_words (script_commands t) cmds) ∧
  script_commands t ≡ₚ filter (λ n, is_command_node n = true) (visit_all (root_node t)) ∧
  StronglySorted starts_before (script_commands t).
Proof.
  split; [apply word_only_spec|]. split; [apply sort_by_start_perm|apply sort_nodes_sorted].
Qed.

(** Every command of a script that is accepted as plain commands is among the literal
    commands extracted from it, with the same words: the danger check of a wrapper sees
    what the policy sees. *)
Theorem literal_commands_cover_plain (try_parse_shell : str → option Tree) command cmds cmd :
  (∀ script t, try_parse_shell script = Some t → bash_grammar t) →
  parse_shell_lc_plain_commands try_parse_shell command = Some cmds → cmd ∈ cmds →
  ∃ lits, parse_shell_lc_literal_commands try_parse_shell command = Some lits ∧ cmd ∈ lits.
Proof.
  intros Hg. unfold parse_shell_lc_plain_commands, parse_shell_lc_literal_commands, parse_shell_script_into_commands.
  destruct (extract_bash_command command) as [[shell script]|]; [|done]. simpl.
  destruct (try_parse_shell script) as [t|] eqn:Et; [|done]. simpl. intros Hp Hin.
  pose proof Hp as (-> & _ & _)%word_only_spec. eexists. split; [done|].
  by eapply plain_subset_literal; eauto.
Qed.

Lemma sample_tree_grammar : bash_grammar sample_tree.
Proof.
  split.
  - intros n Hn Hl.
    assert (Forall (λ n, is_named n = true ∨ children n = []) (visit_all (root_node sample_tree))) as Hf.
    { vm_compute. repeat constructor; by (left + right). }
    rewrite Forall_forall in Hf. destruct (Hf n Hn); [congruence|done].
  - intros n Hn Hc.
    assert (filter (λ n, is_command_node n = true) (visit_all (root_node sample_tree)) =
      [mkNode (lit "command") true 14 (Some (lit "rm -f x"))
         [name_node 14 (lit "rm"); leaf (lit "word") true 17 (lit "-f"); leaf (lit "word") true 20 (lit "x")];
       mkNode (lit "command") true 0 (Some (lit "echo 'a b'"))
         [name_node 0 (lit "echo"); leaf (lit "raw_string") true 5 (lit "'a b'")]]) as Hf by (by vm_compute).
    assert (n ∈ filter (λ n, is_command_node n = true) (visit_all (root_node sample_tree))) as Hin
      by (by apply list_elem_of_filter).
    rewrite Hf, !elem_of_cons, elem_of_nil in Hin. destruct Hin as [->|[->|[]]]; exists []; eexists _, _;
      (split; [reflexivity|]); by split; [|constructor].
Qed.

Lemma literal_commands_cover_plain_witness :
  ∃ lits, parse_shell_lc_literal_commands (λ _, Some sample_tree) [lit "bash"; lit "-lc"; lit "s"] = Some lits ∧
          [lit "rm"; lit "-f"; lit "x"] ∈ lits.
Proof.
  apply (literal_commands_cover_plain (λ _, Some sample_tree) _ sample_commands).
  - intros script t [= <-]. apply sample_tree_grammar.
  - by vm_compute.
  - right. left.
Defined.

(** The prefix that asks PowerShell for UTF-8 output is added once: a script that has it
    is left alone, and every argument before the script is kept. *)
Theorem utf8_prefix_once args shell script :
  extract_powershell_command (args ++ [script]) = Some (shell, script) →
  prefix_powershell_script_with_utf8 (args ++ [script]) =
    args ++ [if starts_with UTF8_OUTPUT_PREFIX (trim_start script) then script
             else UTF8_OUTPUT_PREFIX ++ script].
Proof.
  intros H. unfold prefix_powershell_script_with_utf8. rewrite H, length_app. simpl.
  rewrite take_app_exact by lia. done.
Qed.
