(* ===== verification/CommandSafety.v ===== *)
(** shell-command/src/command_safety: commands that must not run without approval
    (is_dangerous_command.rs and windows_dangerous_commands.rs).

    Parameters: the bash parser of [ShellSyntax], shlex's [split], the regular
    expression that takes a URL out of a token ([re_captures]: its first group) and the
    scheme the url crate finds in a text.  The recursion through wrappers takes fuel; the
    depth limit of the code bounds it. *)
From S2P Require Import Prelude Str ShellSyntax.

(** * The data of is_dangerous_command.rs *)

Inductive DangerousCommandPlatform := Posix | Windows.
Inductive DangerousCommandMatch := ForcedRm | Other.

#[export] Instance DangerousCommandPlatform_eq_dec : EqDecision DangerousCommandPlatform.
Proof. solve_decision. Defined.
#[export] Instance DangerousCommandMatch_eq_dec : EqDecision DangerousCommandMatch.
Proof. solve_decision. Defined.

Definition MAX_DANGEROUS_COMMAND_WRAPPER_DEPTH : nat := 8.

(** * windows_dangerous_commands.rs: names, flags and tokens *)

Definition is_separator (c : N) : bool := N.eqb c SLASH || N.eqb c BACKSLASH.

(** [rsplit(..).next().filter(|name| !name.is_empty())] *)
Definition last_piece (p : N → bool) (raw : str) : option str :=
  name ← last (split_by p raw); if bool_decide (name = []) then None else Some name.

(** [match name.as_bytes() { [drive, b':', ..] if drive.is_ascii_alphabetic() => &name[2..], .. }] *)
Definition drop_drive (name : str) : str :=
  match name with
  | drive :: colon :: tail => if N.eqb colon 58 && is_ascii_alphabetic drive then tail else name
  | _ => name
  end.

Definition executable_basename (exe : str) : option str :=
  name ← last_piece is_separator exe;
  let name := drop_drive name in
  if bool_decide (name = []) then None else Some (to_ascii_lowercase name).

Definition is_powershell_executable (exe : str) : bool :=
  match executable_basename exe with
  | Some name => bool_decide (name ∈ [lit "powershell"; lit "powershell.exe"; lit "pwsh"; lit "pwsh.exe"])
  | None => false
  end.

Definition is_browser_executable (name : str) : bool :=
  bool_decide (name ∈ [lit "chrome"; lit "chrome.exe"; lit "msedge"; lit "msedge.exe"; lit "firefox";
                       lit "firefox.exe"; lit "iexplore"; lit "iexplore.exe"]).

Definition has_flag_cmd (flag : str) (args : list str) : bool := existsb (λ a, eq_ignore_ascii_case a flag) args.
Definition has_force_flag_cmd : list str → bool := has_flag_cmd (lit "/f").
Definition has_recursive_flag_cmd : list str → bool := has_flag_cmd (lit "/s").
Definition has_quiet_flag_cmd : list str → bool := has_flag_cmd (lit "/q").

Definition is_operator_char (c : N) : bool := bool_decide (c ∈ lit "&|").

Definition push_non_empty (cur : str) (parts : list str) : list str :=
  if bool_decide (cur = []) then parts else cur :: parts.

(** The loop over [char_indices]; [cur] is [token[start..i]]. *)
Fixpoint split_operators (cur token : str) : list str :=
  match token with
  | [] => push_non_empty cur []
  | ch :: token' =>
      if is_operator_char ch then
        push_non_empty cur
          (match token' with
           | next :: token'' =>
               if N.eqb next ch then [ch; next] :: split_operators [] token''
               else [ch] :: split_operators [] token'
           | [] => [ch] :: split_operators [] token'
           end)
      else split_operators (cur ++ [ch]) token'
  end.

Definition split_embedded_cmd_operators (token : str) : list str :=
  filter (λ s, trim s ≠ []) (split_operators [] token).

(** [slice::split] *)
Fixpoint split_list {A} (p : A → bool) (l : list A) : list (list A) :=
  match l with
  | [] => [[]]
  | x :: l' =>
      if p x then [] :: split_list p l'
      else match split_list p l' with
           | [] => [[x]]
           | w :: ws => (x :: w) :: ws
           end
  end.

(** ** Forced deletion in PowerShell *)

Definition DELETE_CMDLETS : list str :=
  [lit "remove-item"; lit "ri"; lit "rm"; lit "del"; lit "erase"; lit "rd"; lit "rmdir"].
Definition TAB : N := 9.
Definition SEG_SEPS : list N := lit ";|&" ++ [LF; CR; TAB].
Definition SOFT_SEPS : list N := lit "{}()[],;".

(** [if let Some(segment) = segments.last_mut() && !s.is_empty() { segment.push(s) }] *)
Definition push_trimmed (segments : list (list str)) (cur : str) : list (list str) :=
  let s := trim cur in
  if bool_decide (s = []) then segments else update_last (λ segment, segment ++ [s]) segments.

Definition segment_char (st : list (list str) * str) (ch : N) : list (list str) * str :=
  let '(segments, cur) := st in
  if bool_decide (ch ∈ SEG_SEPS) then
    let segments := push_trimmed segments cur in
    match last segments with
    | Some ((_ :: _)) => (segments ++ [[]], [])
    | _ => (segments, [])
    end
  else (segments, cur ++ [ch]).

Definition segment_token (segments : list (list str)) (tok : str) : list (list str) :=
  let '(segments, cur) := foldl segment_char (segments, []) tok in push_trimmed segments cur.

Definition segments_of (tokens : list str) : list (list str) := foldl segment_token [[]] tokens.

Definition atoms_of (seg : list str) : list str :=
  filter (λ s, s ≠ []) (trim <$> (seg ≫= split_by (λ c, bool_decide (c ∈ SOFT_SEPS)))).

(** [a.get(..n)]: the first [n] bytes, when a character ends there. *)
Fixpoint get_bytes (n : N) (s : str) : option str :=
  if N.eqb n 0 then Some []
  else match s with
       | [] => None
       | c :: s' => if N.leb (len_utf8 c) n then cons c <$> get_bytes (n - len_utf8 c) s' else None
       end.

Definition is_delete_atom (a : str) : bool := existsb (λ cmd, eq_ignore_ascii_case a cmd) DELETE_CMDLETS.
Definition is_force_atom (a : str) : bool :=
  eq_ignore_ascii_case a (lit "-force")
  || match get_bytes 7 a with Some p => eq_ignore_ascii_case p (lit "-force:") | None => false end.

Definition has_force_delete_cmdlet (tokens : list str) : bool :=
  existsb (λ seg, existsb is_delete_atom (atoms_of seg) && existsb is_force_atom (atoms_of seg))
    (segments_of tokens).

Section Safety.
Context (try_parse_shell : str → option Tree).
Context (shlex_split : str → option (list str)).
Context (re_captures : str → option str) (url_scheme : str → option str).

(** ** URLs *)

Definition looks_like_url (token : str) : bool :=
  let lowercase_token := to_ascii_lowercase token in
  let urlish :=
    match str_find (lit "https://") lowercase_token with
    | Some idx => drop idx token
    | None => match str_find (lit "http://") lowercase_token with
              | Some idx => drop idx token
              | None => token
              end
    end in
  let candidate := default urlish (re_captures urlish) in
  match url_scheme candidate with
  | Some scheme => bool_decide (scheme ∈ [lit "http"; lit "https"])
  | None => false
  end.

Definition args_have_url (args : list str) : bool := existsb looks_like_url args.

(** ** PowerShell *)

Definition trim_matches (c : N) (s : str) : str := trim_end_by (N.eqb c) (drop_while (N.eqb c) s).

Definition opens_url (t : str) : bool :=
  bool_decide (t ∈ [lit "start-process"; lit "start"; lit "saps"; lit "invoke-item"; lit "ii"])
  || str_contains (lit "start-process") t || str_contains (lit "invoke-item") t.

Definition is_dangerous_powershell_words (words : list str) : bool :=
  let tokens_lc := (λ t, to_ascii_lowercase (trim_matches QUOTE (trim_matches TICK t))) <$> words in
  let has_url := args_have_url words in
  if has_url && existsb opens_url tokens_lc then true
  else if has_url && existsb (λ t, str_contains (lit "shellexecute") t
                                   || str_contains (lit "shell.application") t) tokens_lc then true
  else
    let by_first :=
      match tokens_lc with
      | first :: _ =>
          if (first =s lit "rundll32")
             && existsb (str_contains (lit "url.dll,fileprotocolhandler")) tokens_lc && has_url then true
          else if (first =s lit "mshta") && has_url then true
          else if is_browser_executable first && has_url then true
          else bool_decide (first ∈ [lit "explorer"; lit "explorer.exe"]) && has_url
      | [] => false
      end in
    if by_first then true else has_force_delete_cmdlet tokens_lc.

Fixpoint parse_powershell_invocation (args : list str) : option (list str) :=
  match args with
  | [] => None
  | arg :: tail =>
      let lower := to_ascii_lowercase arg in
      if bool_decide (lower ∈ [lit "-command"; lit "/command"; lit "-c"]) then
        match tail with
        | [script] => shlex_split script
        | _ => None
        end
      else if starts_with (lit "-command:") lower || starts_with (lit "/command:") lower then
        match tail with
        | [] => '(_, script) ← split_once (lit ":") arg; shlex_split script
        | _ => None
        end
      else if bool_decide (lower ∈ [lit "-nologo"; lit "-noprofile"; lit "-noninteractive"; lit "-mta"; lit "-sta"])
      then parse_powershell_invocation tail
      else if starts_with (lit "-") lower then parse_powershell_invocation tail
      else Some args
  end.

Definition is_dangerous_powershell (command : list str) : bool :=
  match command with
  | [] => false
  | exe :: rest =>
      if negb (is_powershell_executable exe) then false
      else match parse_powershell_invocation rest with
           | Some tokens => is_dangerous_powershell_words tokens
           | None => false
           end
  end.

(** ** cmd.exe *)

(** The loop [for arg in iter.by_ref()]; what is left of the iterator after it, or
    [None] where the function returns false. *)
Fixpoint cmd_body (rest : list str) : option (list str) :=
  match rest with
  | [] => Some []
  | arg :: rest =>
      let lower := to_ascii_lowercase arg in
      if bool_decide (lower ∈ [lit "/c"; lit "/r"; lit "-c"]) then Some rest
      else if starts_with (lit "/") lower then cmd_body rest
      else None
  end.

Definition CMD_SEPARATORS : list str := [lit "&"; lit "&&"; lit "|"; lit "||"].

Definition is_dangerous_segment (segment : list str) : bool :=
  match segment with
  | [] => false
  | cmd :: _ =>
      if eq_ignore_ascii_case cmd (lit "start") && args_have_url segment then true
      else if (eq_ignore_ascii_case cmd (lit "del") || eq_ignore_ascii_case cmd (lit "erase"))
              && has_force_flag_cmd segment then true
      else (eq_ignore_ascii_case cmd (lit "rd") || eq_ignore_ascii_case cmd (lit "rmdir"))
           && has_recursive_flag_cmd segment && has_quiet_flag_cmd segment
  end.

Definition cmd_tokens (remaining : list str) : list str :=
  match remaining with
  | [only] => default [only] (shlex_split only)
  | _ => remaining
  end ≫= split_embedded_cmd_operators.

Definition is_dangerous_cmd (command : list str) : bool :=
  match command with
  | [] => false
  | exe :: rest =>
      match executable_basename exe with
      | None => false
      | Some base =>
          if negb (base =s lit "cmd") && negb (base =s lit "cmd.exe") then false
          else match cmd_body rest with
               | None | Some [] => false
               | Some remaining =>
                   existsb is_dangerous_segment
                     (split_list (λ t, bool_decide (t ∈ CMD_SEPARATORS)) (cmd_tokens remaining))
               end
      end
  end.

(** ** Direct launches *)

Definition is_direct_gui_launch (command : list str) : bool :=
  match command with
  | [] => false
  | exe :: rest =>
      match executable_basename exe with
      | None => false
      | Some base =>
          if bool_decide (base ∈ [lit "explorer"; lit "explorer.exe"]) && args_have_url rest then true
          else if bool_decide (base ∈ [lit "mshta"; lit "mshta.exe"]) && args_have_url rest then true
          else if ((base =s lit "rundll32") || (base =s lit "rundll32.exe"))
                  && existsb (λ t, str_contains (lit "url.dll,fileprotocolhandler") (to_ascii_lowercase t)) rest
                  && args_have_url rest then true
          else is_browser_executable base && args_have_url rest
      end
  end.

Definition is_dangerous_command_windows (command : list str) : bool :=
  if is_dangerous_powershell command then true
  else if is_dangerous_cmd command then true
  else is_direct_gui_launch command.

(** * is_dangerous_command.rs *)

(** [for suffix in [..] { if let Some(stripped) = name.strip_suffix(suffix) { return .. } }] *)
Fixpoint strip_first_suffix (suffixes : list str) (name : str) : option str :=
  match suffixes with
  | [] => None
  | suffix :: suffixes =>
      match strip_suffix suffix name with
      | Some stripped => Some stripped
      | None => strip_first_suffix suffixes name
      end
  end.

Definition executable_name_lookup_key (raw : str) (platform : DangerousCommandPlatform) : option str :=
  match platform with
  | Posix => last_piece (N.eqb SLASH) raw
  | Windows =>
      name ← last_piece is_separator raw;
      let name := to_ascii_lowercase (drop_drive name) in
      match strip_first_suffix [lit ".exe"; lit ".cmd"; lit ".bat"; lit ".com"] name with
      | Some stripped => Some stripped
      | None => if bool_decide (name = []) then None else Some name
      end
  end.

(** [take_while] *)
Fixpoint take_while {A} (p : A → bool) (l : list A) : list A :=
  match l with [] => [] | x :: l => if p x then x :: take_while p l else [] end.

Definition is_force_option (arg : str) : bool :=
  (arg =s lit "--force")
  || match strip_prefix (lit "-") arg with
     | Some flags => negb (starts_with (lit "-") flags) && existsb (N.eqb 102) flags
     | None => false
     end.

Definition rm_args_include_force_option (args : list str) : bool :=
  existsb is_force_option (take_while (λ arg, negb (arg =s lit "--")) args).

(** What the loop of [env] skips. *)
Definition env_skips (argument : str) : bool :=
  bool_decide (argument ∈ [lit "-i"; lit "--ignore-environment"])
  || match split_once (lit "=") argument with
     | Some (name, _) => negb (bool_decide (name = [])) && negb (starts_with (lit "-") name)
     | None => false
     end.

(** The arguments of [env] from [command_index] on. *)
Fixpoint env_command (args : list str) : list str :=
  match args with
  | [] => []
  | argument :: tail =>
      if argument =s lit "--" then tail
      else if env_skips argument then env_command tail
      else args
  end.

Definition dangerous_command_match_for_env (recurse : list str → option DangerousCommandMatch)
    (command : list str) : option DangerousCommandMatch :=
  recurse (env_command (tail command)).

Definition dangerous_command_match_for_trap (recurse : list str → option DangerousCommandMatch)
    (command : list str) : option DangerousCommandMatch :=
  let action_index := if bool_decide (command !! 1 = Some (lit "--")) then 2 else 1 in
  action ← command !! action_index;
  if starts_with (lit "-") action then None
  else recurse [lit "sh"; lit "-c"; action].

Definition dangerous_command_match_for_exec (recurse : list str → option DangerousCommandMatch)
    (command : list str) (platform : DangerousCommandPlatform) : option DangerousCommandMatch :=
  match command with
  | [] => None
  | exe :: args =>
      match executable_name_lookup_key exe platform with
      | Some cmd0 =>
          if (cmd0 =s lit "rm") && rm_args_include_force_option args then Some ForcedRm
          else if cmd0 =s lit "sudo" then recurse args
          else if cmd0 =s lit "env" then dangerous_command_match_for_env recurse command
          else if cmd0 =s lit "trap" then dangerous_command_match_for_trap recurse command
          else None
      | None => None
      end
  end.

Fixpoint dangerous_command_match_with_depth (fuel : nat) (command : list str) (wrapper_depth : nat)
    (platform : DangerousCommandPlatform) : option DangerousCommandMatch :=
  if MAX_DANGEROUS_COMMAND_WRAPPER_DEPTH <? wrapper_depth then Some Other
  else match fuel with
       | O => None
       | S fuel =>
           let recurse command := dangerous_command_match_with_depth fuel command (wrapper_depth + 1) platform in
           match dangerous_command_match_for_exec recurse command platform with
           | Some dangerous_match => Some dangerous_match
           | None =>
               match parse_shell_lc_literal_commands try_parse_shell command ≫= find_map recurse with
               | Some dangerous_match => Some dangerous_match
               | None =>
                   if bool_decide (platform = Windows) && is_dangerous_command_windows command
                   then Some Other else None
               end
           end
       end.

Definition dangerous_command_match_for_platform (command : list str) (platform : DangerousCommandPlatform)
    : option DangerousCommandMatch :=
  dangerous_command_match_with_depth (S MAX_DANGEROUS_COMMAND_WRAPPER_DEPTH) command 0 platform.

Definition dangerous_powershell_words_match (command : list str) (platform : DangerousCommandPlatform)
    : option DangerousCommandMatch :=
  if bool_decide (platform = Windows) then
    if is_dangerous_powershell_words command then Some Other else None
  else None.
End Safety.

(** * Facts *)

Lemma elem_of_take_while {A} (p : A → bool) l x :
  x ∈ take_while p l ↔ ∃ pre post, l = pre ++ x :: post ∧ Forall (λ y, p y = true) pre ∧ p x = true.
Proof.
  induction l as [|y l IH]; simpl.
  - split; [by intros ?%not_elem_of_nil|]. by intros ([] & post & ? & _).
  - destruct (p y) eqn:E.
    + rewrite elem_of_cons, IH. split.
      * intros [->|(pre & post & -> & Hp & Hx)]; [by exists [], l|]. exists (y :: pre), post. auto.
      * intros ([|z pre] & post & Heq & Hp & Hx); simplify_eq/=; [by left|right].
        apply Forall_cons in Hp as []. eauto.
    + split; [by intros ?%not_elem_of_nil|].
      intros ([|z pre] & post & Heq & Hp & Hx); simplify_eq/=; [congruence|]. apply Forall_cons in Hp as []. congruence.
Qed.

Lemma split_operators_unfold_op cur ch token :
  is_operator_char ch = true →
  split_operators cur (ch :: token) =
    push_non_empty cur
      (match token with
       | next :: token'' => if N.eqb next ch then [ch; next] :: split_operators [] token''
                            else [ch] :: split_operators [] token
       | [] => [[ch]]
       end).
Proof. intros H. cbn [split_operators]. rewrite H. by destruct token. Qed.

Lemma mjoin_push_non_empty cur parts : mjoin (push_non_empty cur parts) = cur ++ mjoin parts.
Proof. unfold push_non_empty. by case_bool_decide; subst. Qed.

Definition operator_or_plain (part : str) : Prop :=
  part ∈ CMD_SEPARATORS ∨ Forall (λ c, is_operator_char c = false) part.

Lemma operator_char_cases ch : is_operator_char ch = true → ch = 38%N ∨ ch = 124%N.
Proof.
  unfold is_operator_char. rewrite bool_decide_eq_true. unfold lit. simpl.
  rewrite !elem_of_cons, elem_of_nil. naive_solver.
Qed.

Lemma mjoin_cons {A} (x : list A) l : mjoin (x :: l) = x ++ mjoin l.
Proof. done. Qed.

Lemma operator_single ch : is_operator_char ch = true → operator_or_plain [ch].
Proof. intros [->| ->]%operator_char_cases; left; by apply (bool_decide_unpack _). Qed.
Lemma operator_double ch : is_operator_char ch = true → operator_or_plain [ch; ch].
Proof. intros [->| ->]%operator_char_cases; left; by apply (bool_decide_unpack _). Qed.

Lemma push_non_empty_parts cur parts :
  Forall (λ c, is_operator_char c = false) cur → Forall operator_or_plain parts →
  Forall operator_or_plain (push_non_empty cur parts).
Proof. intros. unfold push_non_empty. case_bool_decide; [done|]. constructor; [by right|done]. Qed.

(** Nothing of the token is lost, and each part is an operator or has none. *)
Lemma split_operators_spec token : ∀ cur,
  mjoin (split_operators cur token) = cur ++ token ∧
  (Forall (λ c, is_operator_char c = false) cur → Forall operator_or_plain (split_operators cur token)).
Proof.
  induction token as [token IH] using (induction_ltof1 _ length). unfold ltof in IH. intros cur.
  destruct token as [|ch token].
  { simpl. rewrite mjoin_push_non_empty. split; [done|]. intros. by apply push_non_empty_parts. }
  destruct (is_operator_char ch) eqn:Ec.
  - rewrite split_operators_unfold_op, mjoin_push_non_empty by done.
    assert (let parts := match token with
              | next :: token'' => if N.eqb next ch then [ch; next] :: split_operators [] token''
                                   else [ch] :: split_operators [] token
              | [] => [[ch]] end in
            mjoin parts = ch :: token ∧ Forall operator_or_plain parts) as [Hj Hp].
    { destruct token as [|next token'']; [simpl; split; [done|]; constructor; [by apply operator_single|done]|].
      cbv zeta. destruct (N.eqb next ch) eqn:En.
      - apply N.eqb_eq in En as ->. destruct (IH token'' ltac:(simpl; lia) []) as [Hj Hp].
        split; [rewrite mjoin_cons; by rewrite Hj|].
        constructor; [by apply operator_double|by apply Hp].
      - destruct (IH (next :: token'') ltac:(simpl; lia) []) as [Hj Hp].
        split; [rewrite mjoin_cons; by rewrite Hj|]. constructor; [by apply operator_single|by apply Hp]. }
    rewrite Hj. split; [done|]. intros. by apply push_non_empty_parts.
  - cbn [split_operators]. rewrite Ec. destruct (IH token ltac:(simpl; lia) (cur ++ [ch])) as [Hj Hp].
    rewrite Hj, <- (assoc_L (++)). split; [done|]. intros Hc. apply Hp. apply Forall_app. auto.
Qed.

Lemma force_option_spec arg :
  is_force_option arg = true ↔
  arg = lit "--force" ∨ ∃ flags, arg = 45%N :: flags ∧ head flags ≠ Some 45%N ∧ 102%N ∈ flags.
Proof.
  unfold is_force_option. rewrite orb_true_iff, bool_decide_eq_true. apply or_iff_compat_l.
  destruct (strip_prefix (lit "-") arg) as [flags|] eqn:Es.
  - apply strip_prefix_Some in Es as ->. rewrite andb_true_iff, negb_true_iff, existsb_exists.
    assert (starts_with (lit "-") flags = false ↔ head flags ≠ Some 45%N) as ->.
    { rewrite <- not_true_iff_false, starts_with_spec. change (lit "-") with [45%N]. apply not_iff_compat.
      split; [by intros [k ->]|]. destruct flags as [|c flags]; [done|]. intros [= ->]. by exists flags. }
    setoid_rewrite <- list_elem_of_In. setoid_rewrite N.eqb_eq. split.
    + intros [Hh (c & Hc & <-)]. by exists flags.
    + intros (flags' & [= <-] & Hh & Hc). eauto.
  - split; [done|]. intros (flags & -> & _). apply strip_prefix_None in Es. destruct Es. by exists flags.
Qed.

Section Facts.
Context (try_parse_shell : str → option Tree).
Context (shlex_split : str → option (list str)).
Context (re_captures : str → option str) (url_scheme : str → option str).

Local Abbreviation dangerous := (dangerous_command_match_with_depth try_parse_shell shlex_split re_captures url_scheme).

(** Only [recurse]'s values matter. *)
Lemma for_exec_ext r1 r2 command platform :
  (∀ c, r1 c = r2 c) →
  dangerous_command_match_for_exec r1 command platform = dangerous_command_match_for_exec r2 command platform.
Proof.
  intros H. unfold dangerous_command_match_for_exec, dangerous_command_match_for_env, dangerous_command_match_for_trap.
  destruct command as [|exe args]; [done|]. destruct (executable_name_lookup_key exe platform); [|done].
  destruct (_ && _); [done|]. do 2 (case_bool_decide; [apply H|]). case_bool_decide; [|done].
  cbv zeta. generalize (if (exe :: args) !! 1 =s Some (lit "--") then 2 else 1). intros i.
  destruct ((exe :: args) !! i); [|done]. simpl. case_match; [done|apply H].
Qed.

Lemma for_exec_mono r1 r2 command platform :
  (∀ c, is_Some (r1 c) → is_Some (r2 c)) →
  is_Some (dangerous_command_match_for_exec r1 command platform) →
  is_Some (dangerous_command_match_for_exec r2 command platform).
Proof.
  intros H. unfold dangerous_command_match_for_exec, dangerous_command_match_for_env, dangerous_command_match_for_trap.
  destruct command as [|exe args]; [done|]. destruct (executable_name_lookup_key exe platform); [|done].
  destruct (_ && _); [done|]. do 2 (case_bool_decide; [apply H|]). case_bool_decide; [|done].
  cbv zeta. generalize (if (exe :: args) !! 1 =s Some (lit "--") then 2 else 1). intros i.
  destruct ((exe :: args) !! i); [|done]. simpl. case_match; [done|apply H].
Qed.

Lemma depth_deep fuel command depth platform : 8 < depth → dangerous fuel command depth platform = Some Other.
Proof.
  intros H%Nat.ltb_lt. change 8 with MAX_DANGEROUS_COMMAND_WRAPPER_DEPTH in H.
  destruct fuel; cbn [dangerous_command_match_with_depth]; by rewrite H.
Qed.

Lemma depth_step fuel command depth platform :
  depth ≤ 8 →
  dangerous (S fuel) command depth platform =
    let recurse command := dangerous fuel command (depth + 1) platform in
    match dangerous_command_match_for_exec recurse command platform with
    | Some m => Some m
    | None =>
        match parse_shell_lc_literal_commands try_parse_shell command ≫= find_map recurse with
        | Some m => Some m
        | None =>
            if bool_decide (platform = Windows)
               && is_dangerous_command_windows shlex_split re_captures url_scheme command
            then Some Other else None
        end
    end.
Proof.
  intros H%Nat.ltb_ge. change 8 with MAX_DANGEROUS_COMMAND_WRAPPER_DEPTH in H.
  cbn [dangerous_command_match_with_depth]. by rewrite H.
Qed.

(** A fuel of one more than the levels left is enough. *)
Lemma depth_fuel_enough m n command depth platform :
  9 - depth ≤ m → 9 - depth ≤ n → dangerous m command depth platform = dangerous n command depth platform.
Proof.
  revert n command depth. induction m as [|m IH]; intros n command depth Hm Hn;
    (destruct (decide (8 < depth)); [by rewrite !depth_deep|]); [lia|].
  destruct n as [|n]; [lia|].
  assert (∀ c, dangerous m c (depth + 1) platform = dangerous n c (depth + 1) platform) as Hr
    by (intros c; apply IH; lia).
  rewrite !depth_step by lia. cbv zeta. rewrite (for_exec_ext _ _ _ _ Hr).
  destruct (dangerous_command_match_for_exec _ _ _); [done|].
  destruct (parse_shell_lc_literal_commands try_parse_shell command); [|done].
  cbn [mbind option_bind]. by rewrite (find_map_ext _ _ _ Hr).
Qed.

Definition matched (command : list str) (depth : nat) (platform : DangerousCommandPlatform) : Prop :=
  is_Some (dangerous 9 command depth platform).

Lemma matched_deep command depth platform : 8 < depth → matched command depth platform.
Proof. intros H. unfold matched. rewrite depth_deep by done. eauto. Qed.

(** The three ways a command is matched below the limit. *)
Lemma matched_unfold command depth platform :
  depth ≤ 8 →
  matched command depth platform ↔
  is_Some (dangerous_command_match_for_exec (λ c, dangerous 9 c (depth + 1) platform) command platform) ∨
  (∃ lits c, parse_shell_lc_literal_commands try_parse_shell command = Some lits ∧ c ∈ lits ∧
             matched c (depth + 1) platform) ∨
  (platform = Windows ∧ is_dangerous_command_windows shlex_split re_captures url_scheme command = true).
Proof.
  intros Hd. unfold matched. rewrite (depth_fuel_enough 9 10) by lia. rewrite depth_step by done. cbv zeta.
  destruct (dangerous_command_match_for_exec _ _ _) eqn:Ee; [split; eauto|].
  destruct (parse_shell_lc_literal_commands _ command ≫= _) eqn:Ef.
  - split; [|eauto]. intros _. right. left. apply bind_Some in Ef as (lits & Hl & Ef).
    destruct (proj1 (find_map_Some _ lits) (mk_is_Some _ _ Ef)) as (c & Hc & Hs). eauto.
  - destruct (bool_decide (platform = Windows) && _) eqn:Ew.
    + apply andb_true_iff in Ew as [?%bool_decide_eq_true ?]. split; eauto.
    + split; [by intros []|]. intros [[]|[(lits & c & Hl & Hc & Hs)|[-> Hw]]]; [done| |].
      * rewrite Hl in Ef. cbn [mbind option_bind] in Ef.
        destruct (proj2 (find_map_Some (λ c, dangerous 9 c (depth + 1) platform) lits)) as [? Hx]; [eauto|].
        rewrite Ef in Hx. done.
      * rewrite bool_decide_true, Hw in Ew by done. done.
Qed.

(** Going deeper never hides a match. *)
Lemma matched_mono command depth platform : matched command depth platform → matched command (depth + 1) platform.
Proof.
  remember (9 - depth) as n eqn:Hn. revert command depth Hn.
  induction n as [|n IH]; intros command depth Hn Hm; [apply matched_deep; lia|].
  destruct (decide (8 < depth + 1)); [by apply matched_deep|].
  rewrite matched_unfold in Hm |- * by lia. destruct Hm as [He|[(lits & c & Hl & Hc & Hm)|Hw]]; [left| |auto].
  - eapply for_exec_mono; [|exact He]. intros c Hc. apply IH; [lia|done].
  - right. left. exists lits, c. split; [done|]. split; [done|]. apply IH; [lia|done].
Qed.

(** The wrappers the code looks through. *)
Inductive wraps (platform : DangerousCommandPlatform) : list str → list str → Prop :=
| wraps_sudo exe args : executable_name_lookup_key exe platform = Some (lit "sudo") → wraps platform args (exe :: args)
| wraps_env exe args :
    executable_name_lookup_key exe platform = Some (lit "env") → wraps platform (env_command args) (exe :: args)
| wraps_trap exe action args :
    executable_name_lookup_key exe platform = Some (lit "trap") → starts_with (lit "-") action = false →
    wraps platform [lit "sh"; lit "-c"; action] (exe :: action :: args)
| wraps_shell command lits inner :
    parse_shell_lc_literal_commands try_parse_shell command = Some lits → inner ∈ lits → wraps platform inner command.

Lemma for_exec_wraps r platform exe args key :
  executable_name_lookup_key exe platform = Some key →
  (key = lit "sudo" → dangerous_command_match_for_exec r (exe :: args) platform = r args) ∧
  (key = lit "env" → dangerous_command_match_for_exec r (exe :: args) platform = r (env_command args)) ∧
  (key = lit "trap" → dangerous_command_match_for_exec r (exe :: args) platform =
                      dangerous_command_match_for_trap r (exe :: args)).
Proof. intros Hk. unfold dangerous_command_match_for_exec. rewrite Hk. repeat split; by intros ->. Qed.

Lemma matched_wraps platform inner outer depth :
  wraps platform inner outer → matched inner (depth + 1) platform → matched outer depth platform.
Proof.
  intros Hw Hm. destruct (decide (8 < depth)); [by apply matched_deep|]. apply matched_unfold; [lia|].
  destruct Hw as [exe args Hk|exe args Hk|exe action args Hk Ha|command lits inner Hl Hin];
    [left; destruct (for_exec_wraps (λ c, dangerous 9 c (depth + 1) platform) _ _ args _ Hk) as (Hs & He & _)..
    |left|right; left; eauto].
  - by rewrite Hs.
  - by rewrite He.
  - destruct (for_exec_wraps (λ c, dangerous 9 c (depth + 1) platform) _ _ (action :: args) _ Hk) as (_ & _ & ->);
      [|done].
    unfold dangerous_command_match_for_trap. case_bool_decide as E.
    + injection E as ->. by vm_compute in Ha.
    + cbn [lookup list_lookup mbind option_bind]. by rewrite Ha.
Qed.
End Facts.

(** * Theorems *)

(** No chain of wrappers hides a dangerous command: if a command is matched on its
    own, it is matched behind any number of [sudo], [env] with assignments, [trap] actions
    and shell scripts that contain it (beyond the depth limit everything is matched). *)
Theorem wrapped_danger_found try_parse_shell shlex_split re_captures url_scheme platform inner outer :
  rtc (wraps try_parse_shell platform) inner outer →
  is_Some (dangerous_command_match_for_platform try_parse_shell shlex_split re_captures url_scheme inner platform) →
  is_Some (dangerous_command_match_for_platform try_parse_shell shlex_split re_captures url_scheme outer platform).
Proof.
  induction 1 as [|inner mid outer Hw _ IH]; [done|]. intros Hm. apply IH.
  eapply matched_wraps; [exact Hw|]. by apply (matched_mono _ _ _ _ inner 0).
Qed.

Definition no_tree : str → option Tree := λ _, None.
Definition no_text : str → option str := λ _, None.
Definition no_words : str → option (list str) := λ _, None.
Definition forced_rm : list str := [lit "/bin/rm"; lit "-rf"; lit "x"].

Lemma wrapped_danger_found_witness :
  is_Some (dangerous_command_match_for_platform no_tree no_words no_text no_text
             [lit "sudo"; lit "env"; lit "-i"; lit "A=1"; lit "/bin/rm"; lit "-rf"; lit "x"] Posix).
Proof.
  apply (wrapped_danger_found no_tree no_words no_text no_text Posix forced_rm).
  - apply rtc_l with (y := [lit "env"; lit "-i"; lit "A=1"; lit "/bin/rm"; lit "-rf"; lit "x"]).
    + exact (wraps_env no_tree Posix (lit "env") [lit "-i"; lit "A=1"; lit "/bin/rm"; lit "-rf"; lit "x"] eq_refl).
    + apply rtc_once. by apply wraps_sudo.
  - by exists ForcedRm.
Defined.

(** The classification always ends, whatever the parser makes of scripts that contain
    scripts: nine levels of recursion give the same answer as any larger number, and a
    command reached below more than eight wrappers is matched. *)
Theorem dangerous_match_terminates try_parse_shell shlex_split re_captures url_scheme command depth platform fuel :
  9 ≤ depth + fuel →
  dangerous_command_match_with_depth try_parse_shell shlex_split re_captures url_scheme fuel command depth platform =
  dangerous_command_match_with_depth try_parse_shell shlex_split re_captures url_scheme 9 command depth platform ∧
  (MAX_DANGEROUS_COMMAND_WRAPPER_DEPTH < depth →
   dangerous_command_match_with_depth try_parse_shell shlex_split re_captures url_scheme fuel command depth platform =
   Some Other).
Proof.
  intros Hf. split; [apply depth_fuel_enough; lia|]. apply depth_deep.
Qed.

(** A shell script whose only command is itself. *)
Definition self_tree : Tree :=
  mkTree (mkNode (lit "program") true 0 (Some [])
            [mkNode (lit "command") true 0 (Some [])
               [name_node 0 (lit "sh"); leaf (lit "word") true 3 (lit "-c"); leaf (lit "word") true 6 (lit "x")]])
    false.

Lemma dangerous_match_terminates_witness :
  dangerous_command_match_with_depth (λ _, Some self_tree) no_words no_text no_text 11
    [lit "sh"; lit "-c"; lit "x"] 0 Posix = Some Other.
Proof.
  rewrite (proj1 (dangerous_match_terminates (λ _, Some self_tree) no_words no_text no_text
                    [lit "sh"; lit "-c"; lit "x"] 0 Posix 11 ltac:(lia))).
  by vm_compute.
Defined.

(** The force option of [rm] is found exactly when an argument before [--] is
    [--force] or a cluster of short flags with an [f], and such a call is matched as a
    forced removal whatever the path of [rm]. *)
Theorem forced_rm_exact try_parse_shell shlex_split re_captures url_scheme platform exe args :
  executable_name_lookup_key exe platform = Some (lit "rm") →
  (rm_args_include_force_option args = true ↔
   ∃ before arg after, args = before ++ arg :: after ∧ lit "--" ∉ before ∧
     (arg = lit "--force" ∨ ∃ flags, arg = 45%N :: flags ∧ head flags ≠ Some 45%N ∧ 102%N ∈ flags)) ∧
  (rm_args_include_force_option args = true →
   dangerous_command_match_for_platform try_parse_shell shlex_split re_captures url_scheme (exe :: args) platform =
   Some ForcedRm).
Proof.
  intros Hk. split.
  - unfold rm_args_include_force_option. rewrite existsb_exists. setoid_rewrite <- list_elem_of_In.
    setoid_rewrite elem_of_take_while. split.
    + intros (arg & (before & after & -> & Hb & _) & Hf). exists before, arg, after. split; [done|].
      split; [|by apply force_option_spec]. intros Hin. rewrite Forall_forall in Hb. specialize (Hb _ Hin).
      by rewrite bool_decide_true in Hb.
    + intros (before & arg & after & -> & Hb & Hf). exists arg. split; [|by apply force_option_spec].
      exists before, after. split; [done|]. split.
      * apply Forall_forall. intros x Hx. rewrite bool_decide_false; [done|]. by intros ->.
      * rewrite bool_decide_false; [done|]. intros ->.
        destruct Hf as [|(flags & [= <-] & Hh & _)]; [done|]. by apply Hh.
  - intros Hf. unfold dangerous_command_match_for_platform. rewrite depth_step by lia. cbv zeta.
    unfold dangerous_command_match_for_exec. rewrite Hk, Hf. by rewrite bool_decide_true.
Qed.

Lemma forced_rm_exact_witness :
  dangerous_command_match_for_platform no_tree no_words no_text no_text
    [lit "C:\Tools\RM.EXE"; lit "-vf"; lit "x"] Windows = Some ForcedRm.
Proof.
  apply (forced_rm_exact no_tree no_words no_text no_text Windows (lit "C:\Tools\RM.EXE") [lit "-vf"; lit "x"]);
    by vm_compute.
Defined.

(** When a shell script is taken apart into plain commands and one of them is
    dangerous on its own, the shell invocation as a whole is matched too. *)
Theorem dangerous_plain_command_flags_script try_parse_shell shlex_split re_captures url_scheme platform
    command cmds cmd :
  (∀ script t, try_parse_shell script = Some t → bash_grammar t) →
  parse_shell_lc_plain_commands try_parse_shell command = Some cmds → cmd ∈ cmds →
  is_Some (dangerous_command_match_for_platform try_parse_shell shlex_split re_captures url_scheme cmd platform) →
  is_Some (dangerous_command_match_for_platform try_parse_shell shlex_split re_captures url_scheme command platform).
Proof.
  intros Hg Hp Hin Hm. eapply matched_wraps; [|by apply (matched_mono _ _ _ _ cmd 0)].
  unfold parse_shell_lc_plain_commands, parse_shell_script_into_commands in Hp.
  destruct (extract_bash_command command) as [[shell script]|] eqn:Ee; [|done]. simpl in Hp.
  destruct (try_parse_shell script) as [t|] eqn:Et; [|done]. simpl in Hp.
  pose proof Hp as (He & _ & _)%word_only_spec.
  eapply wraps_shell; [|exact (plain_subset_literal t cmds cmd (Hg script t Et) Hp Hin)].
  unfold parse_shell_lc_literal_commands. rewrite Ee. simpl. rewrite Et. simpl. by rewrite He.
Qed.

Lemma dangerous_plain_command_flags_script_witness :
  is_Some (dangerous_command_match_for_platform (λ _, Some sample_tree) no_words no_text no_text
             [lit "bash"; lit "-lc"; lit "s"] Posix).
Proof.
  apply (dangerous_plain_command_flags_script (λ _, Some sample_tree) no_words no_text no_text Posix
           [lit "bash"; lit "-lc"; lit "s"] sample_commands [lit "rm"; lit "-f"; lit "x"]).
  - intros script t [= <-]. apply sample_tree_grammar.
  - by vm_compute.
  - right. left.
  - exists ForcedRm. by vm_compute.
Defined.

(** Splitting the operators out of a token of a cmd.exe line loses nothing but blank
    pieces, and each piece is an operator or has no operator in it. *)
Theorem cmd_operators_split token :
  mjoin (split_operators [] token) = token ∧
  Forall operator_or_plain (split_embedded_cmd_operators token) ∧
  ∀ part, part ∈ split_operators [] token → trim part ≠ [] → part ∈ split_embedded_cmd_operators token.
Proof.
  destruct (split_operators_spec token []) as [Hj Hp]. split; [done|]. unfold split_embedded_cmd_operators.
  split; [|intros part Hin Ht; by apply list_elem_of_filter].
  apply Forall_forall. intros part [_ Hin]%list_elem_of_filter. specialize (Hp (Forall_nil_2 _)).
  rewrite Forall_forall in Hp. auto.
Qed.

(** On POSIX the rules for Windows shells are never consulted. *)
Theorem posix_ignores_windows_rules try_parse_shell command shlex_split re_captures url_scheme
    shlex_split' re_captures' url_scheme' :
  dangerous_command_match_for_platform try_parse_shell shlex_split re_captures url_scheme command Posix =
  dangerous_command_match_for_platform try_parse_shell shlex_split' re_captures' url_scheme' command Posix.
Proof.
  unfold dangerous_command_match_for_platform. generalize 0 as depth.
  generalize (S MAX_DANGEROUS_COMMAND_WRAPPER_DEPTH) as fuel. intros fuel. revert command.
  induction fuel as [|fuel IH]; intros command depth; [done|].
  cbn [dangerous_command_match_with_depth]. case_match; [done|]. cbv zeta.
  rewrite (for_exec_ext _ _ command Posix (λ c, IH c (depth + 1))).
  destruct (dangerous_command_match_for_exec _ _ _); [done|].
  rewrite !(bool_decide_false (Posix = Windows)) by done.
  destruct (parse_shell_lc_literal_commands try_parse_shell command) as [lits|]; [|done].
  cbn [mbind option_bind]. by rewrite (find_map_ext _ _ lits (λ c, IH c (depth + 1))).
Qed.
