(* ===== verification/ApprovalTypes.v ===== *)
(** The types through which approvals, sandboxes and permissions speak to each other:
    the approval policy (protocol/src/protocol.rs), what a command asks of its sandbox
    (protocol/src/models.rs, protocol/src/sandbox.rs), what running it requires
    (core/src/tools/sandboxing.rs), and, as classes, what the approval code asks of a
    permission profile and of a file system policy. *)
From S2P Require Import Prelude Str.

Record GranularApprovalConfig := mkGranular {
  sandbox_approval : bool; granular_rules : bool; skill_approval : bool;
  request_permissions : bool; mcp_elicitations : bool }.

Definition allows_sandbox_approval (g : GranularApprovalConfig) : bool := sandbox_approval g.
Definition allows_rules_approval (g : GranularApprovalConfig) : bool := granular_rules g.

Inductive AskForApproval := UnlessTrusted | OnRequest | Granular (config : GranularApprovalConfig) | Never.

Inductive SandboxPermissions := UseDefault | RequireEscalated | WithAdditionalPermissions.

Definition requires_escalated_permissions (p : SandboxPermissions) : bool :=
  match p with RequireEscalated => true | _ => false end.
Definition requests_sandbox_override (p : SandboxPermissions) : bool :=
  match p with UseDefault => false | _ => true end.
Definition uses_additional_permissions (p : SandboxPermissions) : bool :=
  match p with WithAdditionalPermissions => true | _ => false end.

Inductive SandboxOverride := NoOverride | EscalatedSandboxWithRestrictions | BypassSandboxFirstAttempt.
Inductive FileSystemSandboxKind := Restricted | Unrestricted | ExternalSandbox.
Inductive WindowsSandboxLevel := WindowsDisabled | RestrictedToken | Elevated.

#[export] Instance GranularApprovalConfig_eq_dec : EqDecision GranularApprovalConfig.
Proof. solve_decision. Defined.
#[export] Instance AskForApproval_eq_dec : EqDecision AskForApproval.
Proof. solve_decision. Defined.
#[export] Instance SandboxPermissions_eq_dec : EqDecision SandboxPermissions.
Proof. solve_decision. Defined.
#[export] Instance SandboxOverride_eq_dec : EqDecision SandboxOverride.
Proof. solve_decision. Defined.
#[export] Instance FileSystemSandboxKind_eq_dec : EqDecision FileSystemSandboxKind.
Proof. solve_decision. Defined.
#[export] Instance WindowsSandboxLevel_eq_dec : EqDecision WindowsSandboxLevel.
Proof. solve_decision. Defined.

(** An [ExecPolicyAmendment] is the command prefix it holds. *)
Inductive ExecApprovalRequirement :=
| Skip (bypass_sandbox : bool) (proposed_execpolicy_amendment : option (list str))
| NeedsApproval (reason : option str) (proposed_execpolicy_amendment : option (list str))
| ForbiddenRequirement (reason : str).

Definition proposed_execpolicy_amendment (r : ExecApprovalRequirement) : option (list str) :=
  match r with
  | Skip _ amendment => amendment
  | NeedsApproval _ amendment => amendment
  | ForbiddenRequirement _ => None
  end.

(** What is asked of a [FileSystemSandboxPolicy]. *)
Class FileSystemPolicyOps (F : Type) := {
  policy_kind : F → FileSystemSandboxKind;
  has_full_disk_write_access : F → bool;
  has_denied_read_restrictions : F → bool
}.

(** What is asked of a [PermissionProfile]. *)
Class PermissionProfileOps (P F : Type) := {
  file_system_sandbox_policy : P → F;
  profile_is_managed : P → bool
}.
