(* ===== verification/PolicyAmend.v ===== *)
(** execpolicy/src/amend.rs: appending a rule to a policy file.

    The state is the text of the policy file, [None] when there is no such file.  The
    outcome of each system call is an argument ([PolicyIo]: an error, or none); a write
    that fails may have written part of its text.  serde_json's rendering of a string is a
    parameter. *)
From S2P Require Import Prelude Str ExecPolicy.

(** The kinds of [std::io::Error] the code tells apart. *)
Inductive IoKind := AlreadyExists | Unsupported | OtherIo.

#[export] Instance IoKind_eq_dec : EqDecision IoKind.
Proof. solve_decision. Defined.

Inductive AmendError :=
| EmptyPrefix
| InvalidNetworkRule (message : str)
| MissingParent
| CreatePolicyDir (source : IoKind)
| OpenPolicyFile (source : IoKind)
| WritePolicyFile (source : IoKind)
| LockPolicyFile (source : IoKind)
| SeekPolicyFile (source : IoKind)
| ReadPolicyFile (source : IoKind).

(** A failed write has written the first characters of its text. *)
Record PolicyIo := mkIo {
  io_has_parent : bool;
  io_create_dir : option IoKind;
  io_open : option IoKind;
  io_lock : option IoKind;
  io_seek : option IoKind;
  io_read : option IoKind;
  io_write_newline : option (nat * IoKind);
  io_write_line : option (nat * IoKind)
}.

Definition io_fine : PolicyIo := mkIo true None None None None None None None.

Definition is_unsupported_file_lock_error (k : IoKind) : bool := bool_decide (k = Unsupported).

Definition amend_m := stE (option str) AmendError.

Definition io_step (outcome : option IoKind) (err : IoKind → AmendError) : amend_m unit :=
  match outcome with Some k => st_throw (err k) | None => st_ret tt end.

(** [write_all] on a file opened for appending. *)
Definition append_text (text : str) (outcome : option (nat * IoKind)) : amend_m unit := fun file =>
  match outcome with
  | None => (Some (default [] file ++ text), Ok tt)
  | Some (n, k) => (Some (default [] file ++ take n text), Err (WritePolicyFile k))
  end.

Definition append_locked_line (io : PolicyIo) (line : str) : amend_m unit :=
  io_step (io_open io) OpenPolicyFile ;;;
  st_modify (λ file, Some (default [] file)) ;;;
  io_step (match io_lock io with
           | Some k => if is_unsupported_file_lock_error k then None else Some k
           | None => None
           end) LockPolicyFile ;;;
  io_step (io_seek io) SeekPolicyFile ;;;
  io_step (io_read io) ReadPolicyFile ;;;
  file <- st_get ;;
  let contents := default [] file in
  if existsb (λ existing, existing =s line) (lines contents) then st_ret tt
  else
    (if negb (bool_decide (contents = [])) && negb (ends_with [LF] contents)
     then append_text [LF] (io_write_newline io) else st_ret tt) ;;;
    append_text (line ++ [LF]) (io_write_line io).

Definition append_rule_line (io : PolicyIo) (rule : str) : amend_m unit :=
  if negb (io_has_parent io) then st_throw MissingParent
  else
    io_step (match io_create_dir io with
             | Some AlreadyExists => None
             | outcome => outcome
             end) CreatePolicyDir ;;;
    append_locked_line io rule.

Section Amend.
Context (json_string : str → str) (error_to_string : Error → str).

Definition allow_prefix_line (prefix : list str) : str :=
  let tokens := json_string <$> prefix in
  lit "prefix_rule(pattern=[" ++ join (lit ", ") tokens ++ lit "], decision=" ++ [34%N] ++ lit "allow"
  ++ [34%N] ++ lit ")".

Definition blocking_append_allow_prefix_rule (io : PolicyIo) (prefix : list str) : amend_m unit :=
  if bool_decide (prefix = []) then st_throw EmptyPrefix
  else append_rule_line io (allow_prefix_line prefix).

Definition network_rule_line (host : str) (protocol : NetworkRuleProtocol) (d : Decision) (j : option str) : str :=
  let args :=
    [lit "host=" ++ json_string host;
     lit "protocol=" ++ json_string (as_policy_string protocol);
     lit "decision=" ++ json_string (match d with Allow => lit "allow" | Prompt => lit "prompt"
                                                | Forbidden => lit "deny" end)]
    ++ match j with Some justification => [lit "justification=" ++ json_string justification] | None => [] end in
  lit "network_rule(" ++ join (lit ", ") args ++ lit ")".

Definition blocking_append_network_rule (io : PolicyIo) (host : str) (protocol : NetworkRuleProtocol)
    (d : Decision) (j : option str) : amend_m unit :=
  match normalize_network_rule_host host with
  | Err e => st_throw (InvalidNetworkRule (error_to_string e))
  | Ok host =>
      if match j with Some raw => bool_decide (trim raw = []) | None => false end
      then st_throw (InvalidNetworkRule (lit "justification cannot be empty"))
      else append_rule_line io (network_rule_line host protocol d j)
  end.
End Amend.

(** * Facts *)

Lemma split_inclusive_app c s :
  c = [] ∨ last c = Some LF → split_inclusive (c ++ s) = split_inclusive c ++ split_inclusive s.
Proof.
  induction c as [|x c IH]; intros Hc; [done|]. destruct Hc as [|Hl]; [done|]. simpl.
  destruct c as [|y c].
  - injection Hl as ->. done.
  - assert (last (y :: c) = Some LF) as Hl' by done. rewrite (IH (or_intror Hl')).
    case_match; [done|]. destruct (split_inclusive (y :: c)) eqn:E; [|done].
    simpl in E. by repeat case_match.
Qed.

Lemma strip_line_end_line line : last line ≠ Some CR → strip_line_end (line ++ [LF]) = line.
Proof.
  intros Hc. unfold strip_line_end. rewrite (proj2 (strip_suffix_Some [LF] (line ++ [LF]) line)) by done.
  destruct (strip_suffix [CR] line) as [t|] eqn:E; [|done]. apply strip_suffix_Some in E as ->.
  by rewrite last_snoc in Hc.
Qed.

Lemma lines_append c line :
  c = [] ∨ last c = Some LF → LF ∉ line → last line ≠ Some CR → lines (c ++ line ++ [LF]) = lines c ++ [line].
Proof.
  intros Hc Hl Hr. unfold lines. rewrite split_inclusive_app, fmap_app by done. f_equal.
  rewrite split_inclusive_line by done. simpl. by rewrite strip_line_end_line.
Qed.

Lemma ends_with_LF c : ends_with [LF] c = true ↔ last c = Some LF.
Proof.
  unfold ends_with. destruct (strip_suffix [LF] c) as [t|] eqn:E.
  - apply strip_suffix_Some in E as ->. by rewrite last_snoc.
  - split; [done|]. intros [t ->]%last_Some. by rewrite (proj2 (strip_suffix_Some [LF] (t ++ [LF]) t)) in E.
Qed.

(** The outcome of the calls before the file is written. *)
Definition io_ready (io : PolicyIo) : Prop :=
  io_has_parent io = true ∧ (io_create_dir io = None ∨ io_create_dir io = Some AlreadyExists) ∧
  io_open io = None ∧ (io_lock io = None ∨ io_lock io = Some Unsupported) ∧ io_seek io = None ∧ io_read io = None.

(** What a successful or failed append does to the text. *)
Definition terminator (c : str) : str := if decide (c = [] ∨ last c = Some LF) then [] else [LF].

Lemma terminator_test c :
  (negb (bool_decide (c = [])) && negb (ends_with [LF] c)) = true ↔ ¬ (c = [] ∨ last c = Some LF).
Proof. rewrite andb_true_iff, !negb_true_iff, bool_decide_eq_false, <- not_true_iff_false, ends_with_LF. tauto. Qed.

Lemma append_ready io line file :
  io_ready io →
  append_rule_line io line file =
    let c := default [] file in
    if existsb (λ existing, existing =s line) (lines c) then (Some c, Ok tt)
    else ((if negb (bool_decide (c = [])) && negb (ends_with [LF] c)
           then append_text [LF] (io_write_newline io) else st_ret tt) ;;;
          append_text (line ++ [LF]) (io_write_line io)) (Some c).
Proof.
  intros (Hp & Hd & Ho & Hl & Hs & Hr). unfold append_rule_line, append_locked_line. rewrite Hp, Ho, Hs, Hr.
  cbn [negb]. unfold st_bind, io_step, st_get, st_ret, st_modify, is_unsupported_file_lock_error.
  destruct Hd as [->| ->], Hl as [->| ->]; rewrite ?(bool_decide_true (Unsupported = Unsupported)) by done; cbn.
  all: by destruct (existsb _ _).
Qed.

Lemma append_not_ready io line file :
  ¬ io_ready io →
  ∃ e, (append_rule_line io line file).2 = Err e ∧
       default [] (append_rule_line io line file).1 = default [] file.
Proof.
  intros Hn. unfold append_rule_line, append_locked_line, io_ready, st_bind, io_step, st_ret, st_throw, st_modify,
    st_get, is_unsupported_file_lock_error in *.
  destruct io as [p d o l s r wn wl]. cbn in *.
  destruct p, d as [[]|], o as [?|], l as [[]|], s as [?|], r as [?|]; cbn; eauto; exfalso; apply Hn; tauto.
Qed.

(** The old text stays in front, whatever happens. *)
Lemma append_extends io line file :
  ∃ added, default [] (append_rule_line io line file).1 = default [] file ++ added.
Proof.
  destruct (decide (io_ready io)) as [Hr|Hr].
  - rewrite append_ready by done. cbv zeta. case_match; [exists []; by rewrite app_nil_r|].
    unfold st_bind, append_text, st_ret. destruct (_ && _).
    + destruct (io_write_newline io) as [[n k]|]; [eauto|]. destruct (io_write_line io) as [[m k]|]; cbn;
        rewrite <- (assoc_L (++)); eauto.
    + destruct (io_write_line io) as [[m k]|]; cbn; eauto.
  - destruct (append_not_ready io line file Hr) as (e & _ & ->). exists []. by rewrite app_nil_r.
Qed.

Lemma append_success io line file file' :
  append_rule_line io line file = (file', Ok tt) →
  io_ready io ∧
  (line ∈ lines (default [] file) ∧ file' = Some (default [] file) ∨
   line ∉ lines (default [] file) ∧
   file' = Some (default [] file ++ terminator (default [] file) ++ line ++ [LF])).
Proof.
  intros H. destruct (decide (io_ready io)) as [Hr|Hr].
  2: { destruct (append_not_ready io line file Hr) as (e & He & _). by rewrite H in He. }
  split; [done|]. rewrite append_ready in H by done. cbv zeta in H. set (c := default [] file) in *.
  destruct (existsb _ _) eqn:Ee.
  - left. apply existsb_exists in Ee as (x & Hx & ->%bool_decide_eq_true). rewrite <- list_elem_of_In in Hx.
    by injection H as <-.
  - right. split.
    { intros Hin. rewrite <- not_true_iff_false in Ee. apply Ee. apply existsb_exists. exists line.
      rewrite <- list_elem_of_In. by rewrite bool_decide_true. }
    unfold terminator. unfold st_bind, append_text, st_ret in H.
    destruct (_ && _) eqn:Et in H.
    + apply terminator_test in Et. rewrite decide_False by done.
      destruct (io_write_newline io) as [[]|]; [done|]. destruct (io_write_line io) as [[]|]; [done|].
      injection H as <-. cbn. by rewrite <- (assoc_L (++)).
    + rewrite decide_True by (apply dec_stable; by rewrite <- terminator_test, Et).
      destruct (io_write_line io) as [[]|]; [done|]. by injection H as <-.
Qed.

Lemma terminator_line c : c ++ terminator c = [] ∨ last (c ++ terminator c) = Some LF.
Proof.
  unfold terminator. case_decide; [by rewrite app_nil_r|]. right. by rewrite last_snoc.
Qed.

Lemma append_success_line io line file file' :
  LF ∉ line → last line ≠ Some CR → append_rule_line io line file = (file', Ok tt) →
  line ∈ lines (default [] file').
Proof.
  intros Hl Hr (_ & [[Hin ->]|[_ ->]])%append_success; [done|].
  change (default [] (Some ?x)) with x. rewrite (assoc_L (++) (default [] file) (terminator (default [] file)) (line ++ [LF])), lines_append; [set_solver|apply terminator_line|done|done].
Qed.

(** A line that is there is not written again. *)
Lemma append_present io line file :
  io_ready io → line ∈ lines (default [] file) → append_rule_line io line file = (Some (default [] file), Ok tt).
Proof.
  intros Hr Hin. rewrite append_ready by done. cbv zeta.
  replace (existsb _ _) with true; [done|]. symmetry. apply existsb_exists. exists line.
  rewrite <- list_elem_of_In. by rewrite bool_decide_true.
Qed.

Lemma join_no_LF sep l : LF ∉ sep → Forall (λ s, LF ∉ s) l → LF ∉ join sep l.
Proof.
  intros Hs. induction 1 as [|x l Hx Hl IH]; simpl; [set_solver|]. destruct l; [done|]. set_solver.
Qed.

Lemma allow_prefix_line_ok json_string prefix :
  (∀ s, LF ∉ json_string s) →
  LF ∉ allow_prefix_line json_string prefix ∧ last (allow_prefix_line json_string prefix) ≠ Some CR.
Proof.
  intros Hj. unfold allow_prefix_line. split.
  - assert (LF ∉ join (lit ", ") (json_string <$> prefix)) as Hjoin.
    { apply join_no_LF; [by apply (bool_decide_unpack _)|]. apply Forall_fmap, Forall_forall. intros s _. apply Hj. }
    rewrite !not_elem_of_app. split_and!; [|done|..]; by apply (bool_decide_unpack _).
  - rewrite !last_app. by vm_compute.
Qed.

(** * Theorems *)

(** Appending an allow rule to a policy file keeps every byte that was there in every
    outcome, an error included; when it succeeds the rule is a line of the file, and doing
    it again changes nothing. *)
Theorem append_allow_rule_persists json_string io prefix file :
  (∀ s, LF ∉ json_string s) →
  let run := blocking_append_allow_prefix_rule json_string io prefix in
  let file' := (run file).1 in
  (∃ added, default [] file' = default [] file ++ added) ∧
  ((run file).2 = Ok tt →
   allow_prefix_line json_string prefix ∈ lines (default [] file') ∧
   (run file').1 = file' ∧ (run file').2 = Ok tt).
Proof.
  intros Hj. cbv zeta. unfold blocking_append_allow_prefix_rule.
  case_bool_decide as Hp; [split; [exists []; by rewrite app_nil_r|done]|]. split; [apply append_extends|].
  destruct (append_rule_line io _ file) as [file' r] eqn:E. cbn [fst snd]. intros ->.
  destruct (allow_prefix_line_ok json_string prefix Hj) as [Hl Hr].
  pose proof (append_success_line _ _ _ _ Hl Hr E) as Hin. split; [done|].
  destruct (append_success _ _ _ _ E) as (Hready & Hf). rewrite append_present by done. cbn.
  split; [|done]. by destruct Hf as [[_ ->]|[_ ->]].
Qed.

Definition sample_json (s : str) : str := [34%N] ++ filter (λ c, c ≠ LF) s ++ [34%N].

Lemma append_allow_rule_persists_witness :
  ∃ file', blocking_append_allow_prefix_rule sample_json io_fine [lit "git"; lit "status"] (Some (lit "# rules"))
           = (file', Ok tt) ∧
           allow_prefix_line sample_json [lit "git"; lit "status"] ∈ lines (default [] file').
Proof.
  assert (∀ s, LF ∉ sample_json s) as Hj.
  { intros s. unfold sample_json. rewrite !not_elem_of_app, list_elem_of_filter.
    split_and!; [by apply (bool_decide_unpack _)|naive_solver|by apply (bool_decide_unpack _)]. }
  eexists. split; [vm_compute; reflexivity|].
  by apply (append_allow_rule_persists sample_json io_fine [lit "git"; lit "status"] (Some (lit "# rules")) Hj).
Defined.
