(* ===== verification/ExecApproval.v ===== *)
(** core/src/exec_policy.rs with exec_policy/model_policy.rs and
    exec_policy/executable_identity.rs: what running a command requires, from the policy
    of [ExecPolicy], the scripts of [ShellSyntax] and the dangers of [CommandSafety]; and
    the choices of core/src/tools/sandboxing.rs and core/src/shell.rs.

    Parameters: those of the parts used; the lowering of PowerShell scripts
    (powershell_parser); whether the build is for Windows ([cfg!(windows)]).  The shared
    policy and its file are a state, the update lock makes each update one step.  [None] is
    the panic of [Evaluation::from_matches] on no matches. *)
From S2P Require Import Prelude Str ExecPolicy ShellSyntax CommandSafety ApprovalTypes PolicyAmend.

Definition PROMPT_CONFLICT_REASON : str :=
  lit "approval required by policy, but AskForApproval is set to Never".
Definition REJECT_SANDBOX_APPROVAL_REASON : str :=
  lit "approval required by policy, but AskForApproval::Granular.sandbox_approval is false".
Definition REJECT_RULES_APPROVAL_REASON : str :=
  lit "approval required by policy rule, but AskForApproval::Granular.rules is false".

Definition BANNED_PREFIX_SUGGESTIONS : list (list str) :=
  [[lit "/bin/bash"]; [lit "/bin/bash"; lit "-c"]; [lit "/bin/bash"; lit "-lc"]; [lit "/bin/sh"];
   [lit "/bin/sh"; lit "-c"]; [lit "/bin/sh"; lit "-lc"]; [lit "/bin/zsh"];
   [lit "/bin/zsh"; lit "-c"]; [lit "/bin/zsh"; lit "-lc"]; [lit "Rscript"]; [lit "bash"];
   [lit "bash"; lit "-c"]; [lit "bash"; lit "-lc"]; [lit "bun"]; [lit "bun"; lit "-e"];
   [lit "bun"; lit "run"]; [lit "cmd"]; [lit "cmd"; lit "/c"]; [lit "cmd"; lit "/k"];
   [lit "cmd.exe"]; [lit "cmd.exe"; lit "/c"]; [lit "cmd.exe"; lit "/k"]; [lit "dash"];
   [lit "dash"; lit "-c"]; [lit "deno"]; [lit "deno"; lit "eval"]; [lit "env"]; [lit "fish"];
   [lit "fish"; lit "-c"]; [lit "git"]; [lit "julia"]; [lit "julia"; lit "-e"]; [lit "ksh"];
   [lit "ksh"; lit "-c"]; [lit "lua"]; [lit "lua"; lit "-e"]; [lit "node"]; [lit "node"; lit "-e"];
   [lit "nodejs"]; [lit "nodejs"; lit "-e"]; [lit "npm"; lit "run"]; [lit "osascript"];
   [lit "perl"]; [lit "perl"; lit "-e"]; [lit "php"]; [lit "php"; lit "-r"];
   [lit "pnpm"; lit "run"]; [lit "powershell"]; [lit "powershell"; lit "-Command"];
   [lit "powershell"; lit "-EncodedCommand"]; [lit "powershell"; lit "-File"];
   [lit "powershell"; lit "-c"]; [lit "powershell.exe"]; [lit "powershell.exe"; lit "-Command"];
   [lit "powershell.exe"; lit "-EncodedCommand"]; [lit "powershell.exe"; lit "-File"];
   [lit "powershell.exe"; lit "-c"]; [lit "pwsh"]; [lit "pwsh"; lit "-Command"];
   [lit "pwsh"; lit "-EncodedCommand"]; [lit "pwsh"; lit "-File"]; [lit "pwsh"; lit "-c"];
   [lit "pwsh"; lit "-e"]; [lit "pwsh"; lit "-ec"]; [lit "pwsh"; lit "-f"]; [lit "py"];
   [lit "py"; lit "-3"]; [lit "pypy"]; [lit "pypy3"]; [lit "python"]; [lit "python"; lit "-"];
   [lit "python"; lit "-c"]; [lit "python3"]; [lit "python3"; lit "-"]; [lit "python3"; lit "-c"];
   [lit "pythonw"]; [lit "pyw"]; [lit "rm"]; [lit "ruby"]; [lit "ruby"; lit "-e"]; [lit "sh"];
   [lit "sh"; lit "-c"]; [lit "sh"; lit "-lc"]; [lit "sudo"]; [lit "yarn"; lit "run"]; [lit "zsh"];
   [lit "zsh"; lit "-c"]; [lit "zsh"; lit "-lc"]].

Inductive ExecPolicyCommandOrigin := GenericOrigin | PowerShellOrigin.

Record ExecPolicyCommands := mkCommands {
  policy_commands : list (list str); command_origin : ExecPolicyCommandOrigin }.

Inductive AllowPrefixRules := Honor | IgnoreForCyberModel.

#[export] Instance AllowPrefixRules_eq_dec : EqDecision AllowPrefixRules.
Proof. solve_decision. Defined.

Definition prompt_is_rejected_by_policy (approval_policy : AskForApproval) (prompt_is_rule : bool) : option str :=
  match approval_policy with
  | Never => Some PROMPT_CONFLICT_REASON
  | OnRequest => None
  | UnlessTrusted => None
  | Granular granular_config =>
      if prompt_is_rule then
        if negb (allows_rules_approval granular_config) then Some REJECT_RULES_APPROVAL_REASON else None
      else if negb (allows_sandbox_approval granular_config) then Some REJECT_SANDBOX_APPROVAL_REASON
      else None
  end.

Definition dangerous_command_rejection_reason (m : DangerousCommandMatch) : str :=
  match m with
  | ForcedRm => lit "rm -f style commands are not permitted. Use a safer approach"
  | Other => lit "blocked by policy"
  end.

Definition derive_rejected_prompt_reason (fallback_reason : str) (m : option DangerousCommandMatch) : str :=
  match m with
  | Some ForcedRm => dangerous_command_rejection_reason ForcedRm
  | Some Other | None => fallback_reason
  end.

(** [Iterator::max_by_key]: of several largest elements the last one. *)
Definition max_by_key {X} (key : X → nat) (l : list X) : option X :=
  foldl (λ best x, match best with
                   | None => Some x
                   | Some b => if key b <=? key x then Some x else Some b
                   end) None l.

(** * core/src/shell.rs *)

Record Shell := mkShell { shell_type : ShellType; shell_path : str }.

Definition derive_exec_args (shell : Shell) (command : str) (use_login_shell : bool) : list str :=
  match shell_type shell with
  | Zsh | Bash | Sh => [shell_path shell; if use_login_shell then lit "-lc" else lit "-c"; command]
  | ShellSyntax.PowerShell =>
      [shell_path shell] ++ (if use_login_shell then [] else [lit "-NoProfile"]) ++ [lit "-Command"; command]
  | Cmd => [shell_path shell; lit "/c"; command]
  end.

(** [Path::parent] of the Unix build, as components. *)
Definition parent_components (path : str) : option (bool * list str) :=
  let '(root, parts) := components path in
  match parts with [] => None | _ => Some (root, removelast parts) end.

(** The build for other platforms than Windows. *)
Definition shell_approval_command (command : list str) (configured_shell : Shell) : list str :=
  match command with
  | [] => command
  | executable :: _ =>
      let is_system_shell :=
        match parent_components executable with
        | Some parent => bool_decide (parent = components (lit "/bin"))
                         || bool_decide (parent = components (lit "/usr/bin"))
        | None => false
        end in
      let is_configured_shell := bool_decide (components executable = components (shell_path configured_shell)) in
      if is_configured_shell || is_system_shell then command else [executable]
  end.

(** * core/src/tools/sandboxing.rs *)

Section Sandboxing.
Context {F : Type} `{!FileSystemPolicyOps F}.

Definition default_exec_approval_requirement (policy : AskForApproval) (fs : F) : ExecApprovalRequirement :=
  let needs_approval :=
    match policy with
    | Never => false
    | OnRequest | Granular _ => bool_decide (policy_kind fs = Restricted)
    | UnlessTrusted => true
    end in
  if needs_approval && match policy with Granular g => negb (allows_sandbox_approval g) | _ => false end
  then ForbiddenRequirement (lit "approval policy disallowed sandbox approval prompt")
  else if needs_approval then NeedsApproval None None
  else Skip false None.

Definition unsandboxed_execution_allowed (fs : F) : bool := negb (has_denied_read_restrictions fs).

Definition sandbox_override_for_first_attempt (sandbox_permissions : SandboxPermissions)
    (requirement : ExecApprovalRequirement) (fs : F) (sandbox_unavailable already_approved : bool)
    : SandboxOverride :=
  if negb (unsandboxed_execution_allowed fs) then
    if requires_escalated_permissions sandbox_permissions && already_approved
    then EscalatedSandboxWithRestrictions else NoOverride
  else if sandbox_unavailable && already_approved
          && match requirement with NeedsApproval _ _ => true | _ => false end
  then BypassSandboxFirstAttempt
  else if match requirement with Skip true _ => true | _ => false end then BypassSandboxFirstAttempt
  else if requires_escalated_permissions sandbox_permissions then BypassSandboxFirstAttempt
  else NoOverride.

Definition sandbox_permissions_preserving_denied_reads (p : SandboxPermissions) (fs : F) : SandboxPermissions :=
  if requires_escalated_permissions p && negb (unsandboxed_execution_allowed fs) then UseDefault else p.
End Sandboxing.

(** * exec_policy.rs *)

Section Approval.
Context {A : Type} `{!EqDecision A}.
Context (abs_path_try_from : str → option A) (file_name : A → option str).
Context (try_parse_shell : str → option Tree) (shlex_split : str → option (list str)).
Context (re_captures : str → option str) (url_scheme : str → option str).
Context (try_parse_powershell_commands : str → option (list (list str))).
Context (shlex_try_join : list str → option str).
Context {P F : Type} `{!FileSystemPolicyOps F} `{!PermissionProfileOps P F}.
Context (cfg_windows : bool).

Local Abbreviation Policy := (ExecPolicy.Policy (A := A)).
Local Abbreviation RuleMatch := (ExecPolicy.RuleMatch (A := A)).
Local Abbreviation Evaluation := (ExecPolicy.Evaluation (A := A)).

Record UnmatchedCommandContext := mkContext {
  context_approval_policy : AskForApproval;
  context_permission_profile : P;
  context_windows_sandbox_level : WindowsSandboxLevel;
  context_sandbox_permissions : SandboxPermissions;
  context_command_origin : ExecPolicyCommandOrigin }.

Definition is_policy_match (m : RuleMatch) : bool :=
  match m with PrefixRuleMatch _ _ _ _ => true | HeuristicsRuleMatch _ _ => false end.

Definition dangerous_command_match_for_origin (command : list str) (origin : ExecPolicyCommandOrigin)
    (platform : DangerousCommandPlatform) : option DangerousCommandMatch :=
  match origin with
  | GenericOrigin =>
      dangerous_command_match_for_platform try_parse_shell shlex_split re_captures url_scheme command platform
  | PowerShellOrigin => dangerous_powershell_words_match re_captures url_scheme command platform
  end.

Definition dangerous_command_match_for_heuristics (e : Evaluation) (d : Decision)
    (origin : ExecPolicyCommandOrigin) (platform : DangerousCommandPlatform) : option DangerousCommandMatch :=
  find_map (λ m, match m with
                 | HeuristicsRuleMatch command matched_decision =>
                     if bool_decide (matched_decision = d)
                     then dangerous_command_match_for_origin command origin platform else None
                 | _ => None
                 end) (matched_rules e).

Definition profile_has_managed_filesystem_restrictions (profile : P) : bool :=
  let fs := file_system_sandbox_policy (F := F) profile in
  profile_is_managed (F := F) profile && bool_decide (policy_kind fs = Restricted)
  && negb (has_full_disk_write_access fs).

Definition render_decision_for_unmatched_command_for_platform (command : list str)
    (context : UnmatchedCommandContext) (platform : DangerousCommandPlatform) : Decision :=
  let dangerous := dangerous_command_match_for_origin command (context_command_origin context) platform in
  let approval_policy := context_approval_policy context in
  let fs := file_system_sandbox_policy (F := F) (context_permission_profile context) in
  let windows_managed_fs_restrictions_without_sandbox_backend :=
    cfg_windows && bool_decide (context_windows_sandbox_level context = WindowsDisabled)
    && profile_has_managed_filesystem_restrictions (context_permission_profile context) in
  let by_kind :=
    match policy_kind fs with
    | Unrestricted | ExternalSandbox => Allow
    | Restricted => if requests_sandbox_override (context_sandbox_permissions context) then Prompt else Allow
    end in
  if bool_decide (is_Some dangerous) || windows_managed_fs_restrictions_without_sandbox_backend then
    match approval_policy with
    | Never => Forbidden
    | OnRequest | UnlessTrusted | Granular _ => Prompt
    end
  else
    match approval_policy with
    | Never => Allow
    | UnlessTrusted => Prompt
    | OnRequest => by_kind
    | Granular _ => by_kind
    end.

Definition non_empty_commands (o : option (list (list str))) : option (list (list str)) :=
  match o with Some [] => None | o => o end.

Definition parse_powershell_command_into_plain_commands (command : list str) : option (list (list str)) :=
  '(_, script) ← extract_powershell_command command; try_parse_powershell_commands script.

Definition commands_for_exec_policy_for_platform (command : list str) (platform : DangerousCommandPlatform)
    : ExecPolicyCommands :=
  match non_empty_commands (parse_shell_lc_plain_commands try_parse_shell command) with
  | Some commands => mkCommands commands GenericOrigin
  | None =>
      match (if bool_decide (platform = Windows)
             then non_empty_commands (parse_powershell_command_into_plain_commands command) else None) with
      | Some commands => mkCommands commands PowerShellOrigin
      | None => mkCommands [command] GenericOrigin
      end
  end.

(** ** Amendments *)

Definition try_derive_execpolicy_amendment_for_prompt_rules (matched : list RuleMatch) : option (list str) :=
  if existsb (λ m, is_policy_match m && bool_decide (match_decision m = Prompt)) matched then None
  else find_map (λ m, match m with HeuristicsRuleMatch command Prompt => Some command | _ => None end) matched.

Definition try_derive_execpolicy_amendment_for_allow_rules (matched : list RuleMatch) : option (list str) :=
  if existsb is_policy_match matched then None
  else find_map (λ m, match m with HeuristicsRuleMatch command Allow => Some command | _ => None end) matched.

Definition prefix_rule_would_approve_all_commands (p : Policy) (prefix_rule : list str)
    (commands : list (list str)) (fallback : list str → Decision) : option bool :=
  match add_prefix_rule prefix_rule Allow p with
  | (_, Err _) => Some false
  | (with_rule, Ok _) =>
      foldr (λ command acc,
        e ← check_with_options abs_path_try_from file_name with_rule command fallback true;
        if bool_decide (eval_decision e = Allow) then acc else Some false) (Some true) commands
  end.

Definition derive_requested_execpolicy_amendment_from_prefix_rule (prefix_rule : option (list str))
    (matched : list RuleMatch) (p : Policy) (commands : list (list str)) (fallback : list str → Decision)
    : option (option (list str)) :=
  match prefix_rule with
  | None => Some None
  | Some prefix_rule =>
      if bool_decide (prefix_rule = []) then Some None
      else if existsb (λ banned, bool_decide (prefix_rule = banned)) BANNED_PREFIX_SUGGESTIONS then Some None
      else if existsb is_policy_match matched then Some None
      else
        approves ← prefix_rule_would_approve_all_commands p prefix_rule commands fallback;
        Some (if (approves : bool) then Some prefix_rule else None)
  end.

(** ** Reasons *)

Definition render_shlex_command (args : list str) : str :=
  default (join (lit " ") args) (shlex_try_join args).

Definition matches_with (d : Decision) (e : Evaluation) : list (list str * option str) :=
  omap (λ m, match m with
             | PrefixRuleMatch matched_prefix d' _ justification =>
                 if bool_decide (d' = d) then Some (matched_prefix, justification) else None
             | _ => None
             end) (matched_rules e).

Definition derive_prompt_reason (command_args : list str) (e : Evaluation) : option str :=
  let command := render_shlex_command command_args in
  match max_by_key (λ m : list str * option str, length m.1) (matches_with Prompt e) with
  | Some (_, Some justification) => Some (lit "`" ++ command ++ lit "` requires approval: " ++ justification)
  | Some (_, None) => Some (lit "`" ++ command ++ lit "` requires approval by policy")
  | None => None
  end.

Definition derive_forbidden_reason (command_args : list str) (e : Evaluation)
    (dangerous : option DangerousCommandMatch) : str :=
  let command := render_shlex_command command_args in
  match max_by_key (λ m : list str * option str, length m.1) (matches_with Forbidden e) with
  | Some (_, Some justification) => lit "`" ++ command ++ lit "` rejected: " ++ justification
  | Some (matched_prefix, None) =>
      lit "`" ++ command ++ lit "` rejected: policy forbids commands starting with `"
      ++ render_shlex_command matched_prefix ++ lit "`"
  | None =>
      match dangerous with
      | Some m => lit "`" ++ command ++ lit "` rejected: " ++ dangerous_command_rejection_reason m
      | None => lit "`" ++ command ++ lit "` rejected: blocked by policy"
      end
  end.

(** ** The policy in force (model_policy.rs) *)

Definition is_allow_prefix (r : PrefixRule) : bool := bool_decide (decision r = Allow).

Definition current_for_prefix_rules (policy : Policy) (allow_prefix_rules : AllowPrefixRules) : Policy :=
  if bool_decide (allow_prefix_rules = Honor) then policy
  else mkPolicy (omap (λ rules, match filter (λ r, is_allow_prefix r = false) rules with
                                | [] => None
                                | rules => Some rules
                                end) (rules_by_program policy))
         (network_rules policy) (host_executables_by_name policy).

Definition current_for_environment (policy : Policy) (environment_policy : option Policy)
    (allow_prefix_rules : AllowPrefixRules) : Policy :=
  let policy := current_for_prefix_rules policy allow_prefix_rules in
  match environment_policy with
  | Some environment_policy => merge_overlay policy environment_policy
  | None => policy
  end.

(** ** Requirements *)

Record ExecApprovalRequest := mkRequest {
  command : list str;
  approval_policy : AskForApproval;
  permission_profile : P;
  environment_policy : option Policy;
  windows_sandbox_level : WindowsSandboxLevel;
  sandbox_permissions : SandboxPermissions;
  prefix_rule : option (list str);
  allow_prefix_rules : AllowPrefixRules }.

Definition fallback_for (req : ExecApprovalRequest) (origin : ExecPolicyCommandOrigin)
    (platform : DangerousCommandPlatform) (cmd : list str) : Decision :=
  render_decision_for_unmatched_command_for_platform cmd
    (mkContext (approval_policy req) (permission_profile req) (windows_sandbox_level req)
       (sandbox_permissions req) origin) platform.

Definition requirement_of_evaluation (req : ExecApprovalRequest) (exec_policy : Policy)
    (cmds : ExecPolicyCommands) (platform : DangerousCommandPlatform) (e : Evaluation)
    (requested_amendment : option (list str)) : ExecApprovalRequirement :=
  let auto_amendment_allowed := bool_decide (allow_prefix_rules req = Honor) in
  match eval_decision e with
  | Forbidden =>
      ForbiddenRequirement (derive_forbidden_reason (command req) e
        (dangerous_command_match_for_heuristics e Forbidden (command_origin cmds) platform))
  | Prompt =>
      let prompt_is_rule :=
        existsb (λ m, is_policy_match m && bool_decide (match_decision m = Prompt)) (matched_rules e) in
      match prompt_is_rejected_by_policy (approval_policy req) prompt_is_rule with
      | Some reason =>
          if prompt_is_rule then ForbiddenRequirement reason
          else ForbiddenRequirement (derive_rejected_prompt_reason reason
                 (dangerous_command_match_for_heuristics e Prompt (command_origin cmds) platform))
      | None =>
          NeedsApproval (derive_prompt_reason (command req) e)
            (match requested_amendment with
             | Some amendment => Some amendment
             | None => if auto_amendment_allowed
                       then try_derive_execpolicy_amendment_for_prompt_rules (matched_rules e) else None
             end)
      end
  | Allow =>
      Skip (forallb (λ cmd,
              existsb (λ m, is_policy_match m && bool_decide (match_decision m = Allow))
                (matches_for_command_with_options abs_path_try_from file_name exec_policy cmd None true))
              (policy_commands cmds))
        (if auto_amendment_allowed
         then try_derive_execpolicy_amendment_for_allow_rules (matched_rules e) else None)
  end.

Definition create_exec_approval_requirement_for_parsed_commands (policy : Policy) (req : ExecApprovalRequest)
    (cmds : ExecPolicyCommands) (platform : DangerousCommandPlatform) : option ExecApprovalRequirement :=
  let exec_policy := current_for_environment policy (environment_policy req) (allow_prefix_rules req) in
  let fallback := fallback_for req (command_origin cmds) platform in
  e ← check_multiple_with_options abs_path_try_from file_name exec_policy (policy_commands cmds) fallback true;
  requested_amendment ←
    (if bool_decide (allow_prefix_rules req = Honor)
     then derive_requested_execpolicy_amendment_from_prefix_rule (prefix_rule req) (matched_rules e) exec_policy
            (policy_commands cmds) fallback
     else Some None);
  Some (requirement_of_evaluation req exec_policy cmds platform e requested_amendment).

Definition create_exec_approval_requirement_for_command_platform (policy : Policy) (req : ExecApprovalRequest)
    (platform : DangerousCommandPlatform) : option ExecApprovalRequirement :=
  create_exec_approval_requirement_for_parsed_commands policy req
    (commands_for_exec_policy_for_platform (command req) platform) platform.

(** executable_identity.rs *)
Definition set_command (c : list str) (req : ExecApprovalRequest) : ExecApprovalRequest :=
  mkRequest c (approval_policy req) (permission_profile req) (environment_policy req) (windows_sandbox_level req)
    (sandbox_permissions req) (prefix_rule req) (allow_prefix_rules req).

Definition commands_behind_executable (cmd : list str) (platform : DangerousCommandPlatform) : ExecPolicyCommands :=
  if bool_decide (platform = Windows) then
    match extract_powershell_command cmd with
    | Some (_, script) => mkCommands (default [cmd] (try_parse_powershell_commands script)) PowerShellOrigin
    | None => commands_for_exec_policy_for_platform cmd platform
    end
  else commands_for_exec_policy_for_platform cmd platform.

Definition create_exec_approval_requirement_for_shell (policy : Policy) (req : ExecApprovalRequest)
    (configured_shell : Shell) (platform : DangerousCommandPlatform) : option ExecApprovalRequirement :=
  let executable := shell_approval_command (command req) configured_shell in
  if length executable =? length (command req) then
    create_exec_approval_requirement_for_command_platform policy req platform
  else
    let cmds := commands_behind_executable (command req) platform in
    create_exec_approval_requirement_for_parsed_commands policy (set_command executable req)
      (mkCommands (executable :: policy_commands cmds) (command_origin cmds)) platform.

(** ** Updates *)

(** The manager's policy and the text of its rules file. *)
Record ManagerState := mkManager { manager_policy : Policy; rules_file : option str }.

Inductive ExecPolicyUpdateError := AppendRule (source : AmendError) | AddRule (source : Error).

Context (json_string : str → str) (error_to_string : Error → str).

Definition on_file (m : amend_m unit) : stE ManagerState ExecPolicyUpdateError unit := fun s =>
  let '(file, r) := m (rules_file s) in
  (mkManager (manager_policy s) file, map_err AppendRule r).

(** [self.policy.store(..)] after a method of the copy, with its [?]. *)
Definition store_updated (update : Policy → Policy * result Error unit)
    : stE ManagerState ExecPolicyUpdateError unit := fun s =>
  match update (manager_policy s) with
  | (p, Ok _) => (mkManager p (rules_file s), Ok tt)
  | (_, Err e) => (s, Err (AddRule e))
  end.

Definition already_allowed (p : Policy) (amendment : list str) : option bool :=
  e ← check_multiple_with_options abs_path_try_from file_name p [amendment] (λ _, Forbidden) true;
  Some (bool_decide (eval_decision e = Allow)
        && existsb (λ m, is_policy_match m && bool_decide (match_decision m = Allow)) (matched_rules e)).

Definition append_amendment_and_update (io : PolicyIo) (amendment : list str)
    : stE ManagerState ExecPolicyUpdateError unit :=
  on_file (blocking_append_allow_prefix_rule json_string io amendment) ;;;
  s <- st_get ;;
  if default false (already_allowed (manager_policy s) amendment) then st_ret tt
  else store_updated (add_prefix_rule amendment Allow).

Definition append_network_rule_and_update (io : PolicyIo) (host : str) (protocol : NetworkRuleProtocol)
    (d : Decision) (j : option str) : stE ManagerState ExecPolicyUpdateError unit :=
  on_file (blocking_append_network_rule json_string error_to_string io host protocol d j) ;;;
  store_updated (add_network_rule host protocol d j).
End Approval.

(** * Facts *)

Section ApprovalFacts.
Context {A : Type} `{!EqDecision A}.
Context (abs_path_try_from : str → option A) (file_name : A → option str).
Context (try_parse_shell : str → option Tree) (shlex_split : str → option (list str)).
Context (re_captures : str → option str) (url_scheme : str → option str).
Context (try_parse_powershell_commands : str → option (list (list str))).
Context (shlex_try_join : list str → option str).
Context {P F : Type} `{!FileSystemPolicyOps F} `{!PermissionProfileOps P F}.
Context (cfg_windows : bool).
Implicit Types (p : Policy (A := A)) (req : ExecApprovalRequest (A := A) (P := P)).

Local Abbreviation rules_for := (rule_match_list abs_path_try_from file_name).
Local Abbreviation check_all := (check_multiple_with_options abs_path_try_from file_name).
Local Abbreviation dangerous_for :=
  (dangerous_command_match_for_origin try_parse_shell shlex_split re_captures url_scheme).
Local Abbreviation fallback :=
  (fallback_for (A := A) (P := P) (F := F) try_parse_shell shlex_split re_captures url_scheme cfg_windows).
Local Abbreviation requirement :=
  (create_exec_approval_requirement_for_parsed_commands (A := A) (P := P) (F := F) abs_path_try_from file_name
     try_parse_shell shlex_split re_captures url_scheme shlex_try_join cfg_windows).

Lemma check_multiple_total p cmds f :
  cmds ≠ [] →
  ∃ e, check_all p cmds f true = Some e ∧
       matched_rules e = cmds ≫= (λ cmd, matches_for_command_with_options abs_path_try_from file_name p cmd (Some f) true) ∧
       strictest (eval_decision e) (match_decision <$> matched_rules e).
Proof.
  intros Hne. unfold check_multiple_with_options. set (ms := cmds ≫= _).
  pose proof (from_matches_spec ms) as Hs. destruct (from_matches ms) as [e|].
  - destruct Hs as [<- Hs]. eauto.
  - exfalso. destruct cmds as [|cmd cmds]; [done|]. unfold ms in Hs. rewrite bind_cons in Hs.
    apply app_nil in Hs as [Hs _]. by apply matches_non_empty in Hs.
Qed.

(** Every command is allowed exactly when the evaluation is. *)
Lemma check_allow_iff p cmds f e :
  check_all p cmds f true = Some e →
  eval_decision e = Allow ↔
  ∀ cmd, cmd ∈ cmds → (rules_for p cmd true = [] ∧ f cmd = Allow) ∨
                      (rules_for p cmd true ≠ [] ∧ ∀ m, m ∈ rules_for p cmd true → match_decision m = Allow).
Proof.
  intros He. assert (cmds ≠ []) as Hne by (intros ->; by vm_compute in He).
  destruct (check_multiple_total p cmds f Hne) as (e' & He' & Hm & Hs). simplify_eq.
  assert (eval_decision e = Allow ↔ ∀ m, m ∈ matched_rules e → match_decision m = Allow) as ->.
  { destruct Hs as [Hin Hmax]. split.
    - intros Ha m Hm'. specialize (Hmax (match_decision m) (list_elem_of_fmap_2 _ _ _ Hm')).
      rewrite Ha in Hmax. simpl in Hmax. destruct (match_decision m); simpl in Hmax; [done|lia|lia].
    - intros Hall. apply list_elem_of_fmap in Hin as (m & -> & Hm'). auto. }
  rewrite Hm. split.
  - intros Hall cmd Hc.
    assert (∀ m, m ∈ matches_for_command_with_options abs_path_try_from file_name p cmd (Some f) true →
                 match_decision m = Allow) as Hcm.
    { intros m Hmm. apply Hall. apply list_elem_of_bind. eauto. }
    rewrite matches_unfold in Hcm. destruct (rules_for p cmd true) as [|m ms]; [left|right].
    + split; [done|]. apply (Hcm (HeuristicsRuleMatch cmd (f cmd))). left.
    + split; [done|]. exact Hcm.
  - intros Hall m (cmd & Hmm & Hc)%list_elem_of_bind. rewrite matches_unfold in Hmm.
    destruct (Hall cmd Hc) as [[Hr Hf]|[Hr Ha]].
    + rewrite Hr in Hmm. apply list_elem_of_singleton in Hmm as ->. done.
    + destruct (rules_for p cmd true); [done|]. auto.
Qed.

Lemma rule_forbids p cmds f e cmd m :
  check_all p cmds f true = Some e → cmd ∈ cmds → m ∈ rules_for p cmd true → match_decision m = Forbidden →
  eval_decision e = Forbidden.
Proof.
  intros He Hc Hm Hf. assert (cmds ≠ []) as Hne by (by intros ->; apply elem_of_nil in Hc).
  destruct (check_multiple_total p cmds f Hne) as (e' & He' & Hms & [_ Hmax]). simplify_eq.
  assert (Forbidden ∈ match_decision <$> matched_rules e) as Hin.
  { rewrite <- Hf. apply list_elem_of_fmap_2. rewrite Hms. apply list_elem_of_bind. exists cmd. split; [|done].
    rewrite matches_unfold. destruct (rules_for p cmd true); [by apply elem_of_nil in Hm|done]. }
  specialize (Hmax Forbidden Hin). destruct (eval_decision e); simpl in *; [lia|lia|done].
Qed.

(** A fallback that forbids a command no rule matches forbids the whole. *)
Lemma check_multiple_forbidden p cmds f e cmd :
  check_all p cmds f true = Some e → cmd ∈ cmds → rules_for p cmd true = [] → f cmd = Forbidden →
  eval_decision e = Forbidden.
Proof.
  intros He Hc Hnil Hf. assert (cmds ≠ []) as Hne by (by intros ->; apply elem_of_nil in Hc).
  destruct (check_multiple_total p cmds f Hne) as (e' & He' & Hms & [_ Hmax]). simplify_eq.
  assert (Forbidden ∈ match_decision <$> matched_rules e) as Hin.
  { rewrite Hms. apply list_elem_of_fmap. exists (HeuristicsRuleMatch cmd Forbidden). split; [done|].
    apply list_elem_of_bind. exists cmd. split; [|done]. rewrite matches_unfold, Hnil, Hf. left. }
  specialize (Hmax Forbidden Hin). destruct (eval_decision e); simpl in *; [lia|lia|done].
Qed.

Lemma would_approve_total p prefix commands f :
  ∃ b, prefix_rule_would_approve_all_commands abs_path_try_from file_name p prefix commands f = Some b ∧
       (b = true → ∃ p', add_prefix_rule prefix Allow p = (p', Ok tt) ∧
          ∀ cmd, cmd ∈ commands → ∃ e, check_with_options abs_path_try_from file_name p' cmd f true = Some e ∧
                                       eval_decision e = Allow).
Proof.
  unfold prefix_rule_would_approve_all_commands.
  destruct (add_prefix_rule prefix Allow p) as [p' [[]|err]]; [|by exists false].
  induction commands as [|cmd commands (b & IH & Hb)]; simpl.
  - exists true. split; [done|]. intros _. exists p'. split; [done|]. by intros ? ?%elem_of_nil.
  - rewrite IH. destruct (check_total abs_path_try_from file_name p' cmd f true) as (e & He & _ & _).
    rewrite He. simpl. case_bool_decide as Ha; [|by exists false]. exists b. split; [done|].
    intros Hbt. destruct (Hb Hbt) as (p'' & [= <-] & Hall). exists p'. split; [done|].
    intros cmd' [->|Hc]%elem_of_cons; eauto.
Qed.

Lemma derive_requested_total prefix matched p commands f :
  ∃ am, derive_requested_execpolicy_amendment_from_prefix_rule abs_path_try_from file_name prefix matched p commands f
        = Some am ∧
        ∀ rule, am = Some rule →
          prefix = Some rule ∧ rule ∉ BANNED_PREFIX_SUGGESTIONS ∧ (∀ m, m ∈ matched → is_policy_match m = false) ∧
          prefix_rule_would_approve_all_commands abs_path_try_from file_name p rule commands f = Some true.
Proof.
  unfold derive_requested_execpolicy_amendment_from_prefix_rule. destruct prefix as [rule|]; [|by exists None].
  case_bool_decide; [by exists None|]. destruct (existsb _ BANNED_PREFIX_SUGGESTIONS) eqn:Eb; [by exists None|].
  destruct (existsb is_policy_match matched) eqn:Em; [by exists None|].
  destruct (would_approve_total p rule commands f) as (b & Hb & _). rewrite Hb. simpl.
  exists (if b then Some rule else None). split; [done|]. destruct b; [|done]. intros rule' [= <-].
  split_and!; [done| | |done].
  - intros Hin. rewrite <- not_true_iff_false in Eb. apply Eb, existsb_exists. exists rule.
    rewrite <- list_elem_of_In. by rewrite bool_decide_true.
  - intros m Hin. apply not_true_is_false. intros Ht. rewrite <- not_true_iff_false in Em. apply Em, existsb_exists.
    exists m. by rewrite <- list_elem_of_In.
Qed.

(** The requirement never panics on a command, and comes from an evaluation. *)
Lemma requirement_spec p req cmds platform :
  policy_commands cmds ≠ [] →
  let ep := current_for_environment p (environment_policy req) (allow_prefix_rules req) in
  ∃ e am, check_all ep (policy_commands cmds) (fallback req (command_origin cmds) platform) true = Some e ∧
          (if bool_decide (allow_prefix_rules req = Honor)
           then derive_requested_execpolicy_amendment_from_prefix_rule abs_path_try_from file_name (prefix_rule req)
                  (matched_rules e) ep (policy_commands cmds) (fallback req (command_origin cmds) platform)
           else Some None) = Some am ∧
          requirement p req cmds platform =
            Some (requirement_of_evaluation abs_path_try_from file_name try_parse_shell shlex_split re_captures
                    url_scheme shlex_try_join req ep cmds platform e am).
Proof.
  intros Hne. cbv zeta. unfold create_exec_approval_requirement_for_parsed_commands.
  set (ep := current_for_environment _ _ _).
  destruct (check_multiple_total ep (policy_commands cmds) (fallback req (command_origin cmds) platform) Hne)
    as (e & He & _). rewrite He. cbn [mbind option_bind]. exists e.
  case_bool_decide.
  - destruct (derive_requested_total (prefix_rule req) (matched_rules e) ep (policy_commands cmds)
                (fallback req (command_origin cmds) platform)) as (am & Ham & _).
    exists am. rewrite Ham. done.
  - by exists None.
Qed.

Lemma non_empty_commands_Some o l : non_empty_commands o = Some l → l ≠ [].
Proof using Type. destruct o as [[|x xs]|]; simpl; [done| |done]. by intros [= <-]. Qed.

Lemma commands_for_policy_non_empty cmd platform :
  policy_commands (commands_for_exec_policy_for_platform try_parse_shell try_parse_powershell_commands cmd platform)
  ≠ [].
Proof using try_parse_shell try_parse_powershell_commands.
  unfold commands_for_exec_policy_for_platform.
  destruct (non_empty_commands (parse_shell_lc_plain_commands try_parse_shell cmd)) eqn:E;
    [by apply non_empty_commands_Some in E|].
  destruct (if bool_decide _ then _ else _) as [l|] eqn:E2; [|done].
  case_match; [by apply non_empty_commands_Some in E2|done].
Qed.

(** What the fallback needs to allow a command. *)
Lemma fallback_allow req origin platform cmd :
  fallback req origin platform cmd = Allow →
  dangerous_for cmd origin platform = None ∧ approval_policy req ≠ UnlessTrusted ∧
  (approval_policy req ≠ Never →
   policy_kind (file_system_sandbox_policy (F := F) (permission_profile req)) = Restricted →
   sandbox_permissions req = UseDefault).
Proof.
  clear shlex_try_join try_parse_powershell_commands.
  unfold fallback_for, render_decision_for_unmatched_command_for_platform. cbn.
  case_bool_decide as Hd; simpl; [by case_match|].
  apply eq_None_not_Some in Hd. rewrite Hd. destruct (cfg_windows && _ && _); [by case_match|].
  destruct (approval_policy req), (policy_kind _), (sandbox_permissions req); naive_solver.
Qed.

Lemma fallback_dangerous req origin platform cmd :
  is_Some (dangerous_for cmd origin platform) →
  fallback req origin platform cmd = match approval_policy req with Never => Forbidden | _ => Prompt end.
Proof.
  clear shlex_try_join try_parse_powershell_commands.
  intros Hd. unfold fallback_for, render_decision_for_unmatched_command_for_platform. cbn.
  rewrite bool_decide_true by done. simpl. by case_match.
Qed.

Lemma fallback_never req origin platform cmd :
  approval_policy req = Never → fallback req origin platform cmd ≠ Prompt.
Proof.
  clear shlex_try_join try_parse_powershell_commands.
  intros Hn. unfold fallback_for, render_decision_for_unmatched_command_for_platform. cbn. rewrite Hn.
  by case_match.
Qed.

(** An allow rule matches a command in every way it is looked up. *)
Lemma bypass_test p cmd :
  existsb (λ m, is_policy_match m && bool_decide (match_decision m = Allow))
    (matches_for_command_with_options abs_path_try_from file_name p cmd None true) = true ↔
  ∃ m, m ∈ rules_for p cmd true ∧ match_decision m = Allow.
Proof.
  clear shlex_try_join try_parse_powershell_commands.
  rewrite existsb_exists, matches_unfold. setoid_rewrite <- list_elem_of_In.
  replace (match rules_for p cmd true with [] => _ | _ => _ end) with (rules_for p cmd true)
    by (by destruct (rules_for p cmd true)).
  apply exist_proper. intros m. split.
  - intros [Hm Hb]. apply andb_true_iff in Hb as [_ ?%bool_decide_eq_true]. done.
  - intros [Hm Ha]. split; [done|]. apply andb_true_iff. split; [|by apply bool_decide_eq_true].
    apply rule_match_prefix in Hm. by destruct m.
Qed.

(** ** Policies with the same rules *)

(** Policies that differ in the order of their rules only. *)
Definition same_rules p q : Prop :=
  (∀ k, default [] (rules_by_program p !! k) ≡ₚ default [] (rules_by_program q !! k)) ∧
  host_executables_by_name p = host_executables_by_name q.

#[export] Instance same_rules_equivalence : Equivalence same_rules.
Proof.
  split.
  - by split.
  - intros p q [Hr Hh]. by split; [intros k; symmetry|].
  - intros p q r [Hr Hh] [Hr' Hh']. split; [intros k; exact (Permutation_trans (Hr k) (Hr' k))|congruence].
Qed.

Lemma host_rules_unfold p cmd :
  match_host_executable_rules abs_path_try_from file_name p cmd =
  match cmd with
  | [] => []
  | first :: tokens =>
      match abs_path_try_from first ≫= (λ program, (λ name, (program, name)) <$> file_name program) with
      | None => []
      | Some (program, basename) =>
          if match host_executables_by_name p !! basename with
             | Some paths => negb (existsb (λ path, bool_decide (path = program)) paths)
             | None => false
             end
          then []
          else with_resolved_program program <$>
               omap (rule_matches (basename :: tokens)) (default [] (rules_by_program p !! basename))
      end
  end.
Proof.
  destruct cmd as [|first tokens]; [done|]. simpl. destruct (abs_path_try_from first) as [program|]; [|done]. simpl.
  unfold executable_path_lookup_key, executable_lookup_key. destruct (file_name program) as [basename|]; [|done]. simpl.
  destruct (rules_by_program p !! basename); [done|]. simpl. by repeat case_match.
Qed.

#[export] Instance rules_for_proper : Proper (same_rules ==> eq ==> eq ==> Permutation)
  (rule_match_list abs_path_try_from file_name).
Proof.
  intros p q [Hr Hh] cmd ? <- opt ? <-. unfold rule_match_list. rewrite !exact_matches_unfold.
  assert (∀ c k, omap (rule_matches (A := A) c) (default [] (rules_by_program p !! k)) ≡ₚ
                 omap (rule_matches c) (default [] (rules_by_program q !! k))) as Hp
    by (intros c k; by rewrite (Hr k)).
  assert (match_host_executable_rules abs_path_try_from file_name p cmd ≡ₚ
          match_host_executable_rules abs_path_try_from file_name q cmd) as Hhost.
  { rewrite !host_rules_unfold, Hh. destruct cmd as [|first tokens]; [done|]. 
    destruct (abs_path_try_from first ≫= _) as [[program basename]|]; [|done].
    destruct (match host_executables_by_name q !! basename with Some _ => _ | None => _ end); [done|].
    by rewrite Hp. }
  destruct cmd as [|c cmd]; [by destruct opt|].
  specialize (Hp (c :: cmd) c). case_bool_decide as E1; case_bool_decide as E2; [by destruct opt|..|done].
  - rewrite E1 in Hp. by apply Permutation_nil_l in Hp.
  - rewrite E2 in Hp. by apply Permutation_nil_r in Hp.
Qed.

Lemma add_rule_spec prefix d p p' :
  add_prefix_rule prefix d p = (p', Ok tt) →
  ∃ first_token rest, prefix = first_token :: rest ∧
    host_executables_by_name p' = host_executables_by_name p ∧
    ∀ k, default [] (rules_by_program p' !! k) =
         default [] (rules_by_program p !! k) ++
         (if decide (k = first_token) then [mkRule (mkPattern first_token (Single <$> rest)) d None] else []).
Proof.
  unfold add_prefix_rule. destruct prefix as [|first_token rest]; [done|]. intros [= <-].
  exists first_token, rest. split_and!; [done..|]. intros k. apply multimap_insert_lookup.
Qed.

(** Adding a rule before or after the environment's rules gives the same rules. *)
Lemma add_rule_environment prefix p p' q q' env :
  add_prefix_rule prefix Allow p = (p', Ok tt) →
  q = current_for_environment p env Honor → add_prefix_rule prefix Allow q = (q', Ok tt) →
  same_rules (current_for_environment p' env Honor) q'.
Proof.
  intros Hp Hq Hq'. destruct (add_rule_spec _ _ _ _ Hp) as (first_token & rest & -> & Hh & Hr).
  destruct (add_rule_spec _ _ _ _ Hq') as (? & ? & [= <- <-] & Hh' & Hr'). subst q.
  unfold current_for_environment, current_for_prefix_rules in *. cbn [bool_decide decide] in *.
  rewrite bool_decide_true in * by done. destruct env as [env|].
  - split.
    + intros k. rewrite merge_overlay_rules, Hr', merge_overlay_rules, Hr.
      rewrite <- !(assoc_L (++)). apply Permutation_app_head, Permutation_app_comm.
    + rewrite Hh'. simpl. by rewrite Hh.
  - split; [intros k; by rewrite Hr, Hr'|congruence].
Qed.

Lemma check_single p cmd f :
  check_all p [cmd] f true = check_with_options abs_path_try_from file_name p cmd f true.
Proof. unfold check_multiple_with_options, check_with_options. simpl. by rewrite app_nil_r. Qed.

Lemma check_each p cmds f e :
  check_all p cmds f true = Some e →
  (∀ cmd, cmd ∈ cmds → ∃ ec, check_with_options abs_path_try_from file_name p cmd f true = Some ec ∧
                             eval_decision ec = Allow) →
  eval_decision e = Allow.
Proof.
  intros He Hall. apply (check_allow_iff p cmds f e He). intros cmd Hc. destruct (Hall cmd Hc) as (ec & Hec & Ha).
  rewrite <- check_single in Hec. rewrite (check_allow_iff _ _ _ _ Hec) in Ha. apply Ha. left.
Qed.

Lemma check_same_rules p q cmds f e e' :
  same_rules p q → check_all p cmds f true = Some e → check_all q cmds f true = Some e' →
  eval_decision e = Allow ↔ eval_decision e' = Allow.
Proof.
  intros Hs He He'. rewrite (check_allow_iff p cmds f e He), (check_allow_iff q cmds f e' He').
  apply forall_proper. intros cmd.
  pose proof (rules_for_proper p q Hs cmd cmd eq_refl true true eq_refl) as Hp.
  assert (rules_for p cmd true = [] ↔ rules_for q cmd true = []) as Hnil.
  { split; intros E; rewrite E in Hp; [by apply Permutation_nil_l in Hp|by apply Permutation_nil_r in Hp]. }
  unfold not. rewrite Hnil. setoid_rewrite Hp. done.
Qed.

(** A stored amendment: the line is in the file and the rule in the policy. *)
Lemma update_adds_rule json_string io (s s' : ManagerState (A := A)) am :
  (∀ text, LF ∉ json_string text) →
  already_allowed abs_path_try_from file_name (manager_policy s) am = Some false →
  append_amendment_and_update abs_path_try_from file_name json_string io am s = (s', Ok tt) →
  allow_prefix_line json_string am ∈ lines (default [] (rules_file s')) ∧
  ∃ p', add_prefix_rule am Allow (manager_policy s) = (p', Ok tt) ∧ s' = mkManager p' (rules_file s').
Proof.
  intros Hj Haa Hup. unfold append_amendment_and_update in Hup. apply st_bind_inv in Hup as (s1 & [] & Hf & Hup).
  unfold on_file in Hf. destruct (blocking_append_allow_prefix_rule json_string io am (rules_file s)) as [file r] eqn:Eb.
  destruct r as [[]|]; [|done]. injection Hf as <-.
  assert (allow_prefix_line json_string am ∈ lines (default [] file)) as Hin.
  { unfold blocking_append_allow_prefix_rule in Eb. case_bool_decide; [done|].
    destruct (allow_prefix_line_ok json_string am Hj). by eapply append_success_line. }
  apply st_bind_inv in Hup as (s2 & s3 & [= <- <-] & Hup). cbn [manager_policy] in Hup. rewrite Haa in Hup.
  cbn [default from_option id] in Hup. unfold store_updated in Hup. cbn [manager_policy rules_file] in Hup.
  destruct (add_prefix_rule am Allow (manager_policy s)) as [p' [[]|]]; [|done]. injection Hup as <-. cbn. eauto.
Qed.
End ApprovalFacts.

(** * Theorems *)

Section ApprovalTheorems.
Context {A : Type} `{!EqDecision A}.
Context (abs_path_try_from : str → option A) (file_name : A → option str).
Context (try_parse_shell : str → option Tree) (shlex_split : str → option (list str)).
Context (re_captures : str → option str) (url_scheme : str → option str).
Context (try_parse_powershell_commands : str → option (list (list str))).
Context (shlex_try_join : list str → option str).
Context {P F : Type} `{!FileSystemPolicyOps F} `{!PermissionProfileOps P F}.
Context (cfg_windows : bool).
Implicit Types (p : Policy (A := A)) (req : ExecApprovalRequest (A := A) (P := P)).

Local Abbreviation rules_for := (rule_match_list abs_path_try_from file_name).
Local Abbreviation dangerous_for :=
  (dangerous_command_match_for_origin try_parse_shell shlex_split re_captures url_scheme).
Local Abbreviation requirement_parsed :=
  (create_exec_approval_requirement_for_parsed_commands (A := A) (P := P) (F := F) abs_path_try_from file_name
     try_parse_shell shlex_split re_captures url_scheme shlex_try_join cfg_windows).
Local Abbreviation requirement_for :=
  (create_exec_approval_requirement_for_command_platform (A := A) (P := P) (F := F) abs_path_try_from file_name
     try_parse_shell shlex_split re_captures url_scheme try_parse_powershell_commands shlex_try_join cfg_windows).
Local Abbreviation commands_of :=
  (commands_for_exec_policy_for_platform try_parse_shell try_parse_powershell_commands).

(** The policy a request is checked against. *)
Definition policy_in_force p req : Policy :=
  current_for_environment p (environment_policy req) (allow_prefix_rules req).

(** Every rule that matches the command allows it, and one does. *)
Definition allowed_by_rules p (cmd : list str) : Prop :=
  rules_for p cmd true ≠ [] ∧ ∀ m, m ∈ rules_for p cmd true → match_decision m = Allow.

(** C2: A command runs without approval only if each command it is made of is explicitly
    allowed by the rules, or no rule speaks of it, it is not dangerous, the project is
    trusted and, in a restricted sandbox that may prompt, it asks for nothing beyond the
    sandbox; and it leaves the sandbox only if the rules allow each of its commands. *)
Theorem skip_means_allowed_or_harmless p req platform bypass amendment :
  requirement_for p req platform = Some (Skip bypass amendment) →
  let cmds := commands_of (command req) platform in
  let ep := policy_in_force p req in
  (∀ cmd, cmd ∈ policy_commands cmds →
     allowed_by_rules ep cmd ∨
     rules_for ep cmd true = [] ∧ dangerous_for cmd (command_origin cmds) platform = None ∧
     approval_policy req ≠ UnlessTrusted ∧
     (approval_policy req ≠ Never →
      policy_kind (file_system_sandbox_policy (F := F) (permission_profile req)) = Restricted →
      sandbox_permissions req = UseDefault)) ∧
  (bypass = true ↔ ∀ cmd, cmd ∈ policy_commands cmds → allowed_by_rules ep cmd).
Proof.
  intros Hreq cmds ep. unfold create_exec_approval_requirement_for_command_platform in Hreq. fold cmds in Hreq.
  assert (policy_commands cmds ≠ []) as Hne by apply commands_for_policy_non_empty.
  destruct (requirement_spec abs_path_try_from file_name try_parse_shell shlex_split re_captures url_scheme
              shlex_try_join cfg_windows p req cmds platform Hne) as (e & am & He & _ & Hr).
  rewrite Hreq in Hr. injection Hr as Hr. fold (policy_in_force p req) in He, Hr. fold ep in He, Hr.
  assert (eval_decision e = Allow) as Ha.
  { unfold requirement_of_evaluation in Hr. destruct (eval_decision e); [done| |done]. by repeat case_match. }
  rewrite (check_allow_iff _ _ _ _ _ _ He) in Ha.
  assert (∀ cmd, cmd ∈ policy_commands cmds → (∃ m, m ∈ rules_for ep cmd true ∧ match_decision m = Allow) ↔
                 allowed_by_rules ep cmd) as Hany.
  { intros cmd Hc. split; [|intros [Hn Hall]; destruct (rules_for ep cmd true) as [|m ms]; [done|]; exists m].
    - intros (m & Hm & _). destruct (Ha cmd Hc) as [[Hnil _]|[Hn Hall]]; [|done].
      rewrite Hnil in Hm. by apply elem_of_nil in Hm.
    - split; [left|]. apply Hall. left. }
  split.
  - intros cmd Hc. destruct (Ha cmd Hc) as [[Hnil Hf]|Hall]; [right|by left].
    apply fallback_allow in Hf as (? & ? & ?). auto.
  - apply (check_allow_iff _ _ _ _ _ _ He) in Ha. unfold requirement_of_evaluation in Hr. rewrite Ha in Hr.
    injection Hr as -> _. rewrite forallb_forall. setoid_rewrite <- list_elem_of_In. setoid_rewrite bypass_test.
    fold ep. split; intros Hall cmd Hc; apply Hany; auto.
Qed.

(** C39: The requirement is always computed (no input makes the evaluation panic); a rule
    that forbids one of the commands forbids the whole; and when no prompt may be shown,
    none is asked for and a dangerous command no rule speaks of is forbidden. *)
Theorem requirement_fails_closed p req platform :
  let cmds := commands_of (command req) platform in
  let ep := policy_in_force p req in
  ∃ r, requirement_for p req platform = Some r ∧
    ((∃ cmd m, cmd ∈ policy_commands cmds ∧ m ∈ rules_for ep cmd true ∧ match_decision m = Forbidden) →
     ∃ reason, r = ForbiddenRequirement reason) ∧
    (approval_policy req = Never →
     (∀ reason am, r ≠ NeedsApproval reason am) ∧
     ((∃ cmd, cmd ∈ policy_commands cmds ∧ rules_for ep cmd true = [] ∧
              is_Some (dangerous_for cmd (command_origin cmds) platform)) →
      ∃ reason, r = ForbiddenRequirement reason)).
Proof.
  intros cmds ep. assert (policy_commands cmds ≠ []) as Hne by apply commands_for_policy_non_empty.
  destruct (requirement_spec abs_path_try_from file_name try_parse_shell shlex_split re_captures url_scheme
              shlex_try_join cfg_windows p req cmds platform Hne) as (e & am & He & _ & Hr).
  eexists. split; [exact Hr|]. fold (policy_in_force p req) in He |- *. fold ep in He |- *.
  unfold requirement_of_evaluation. split; [|intros Hn; split].
  - intros (cmd & m & Hc & Hm & Hf). rewrite (rule_forbids _ _ _ _ _ _ _ _ He Hc Hm Hf). eauto.
  - intros reason am'. rewrite Hn. cbn [prompt_is_rejected_by_policy]. by repeat case_match.
  - intros (cmd & Hc & Hnil & Hd). rewrite (check_multiple_forbidden _ _ _ _ _ _ _ He Hc Hnil); [eauto|].
    rewrite fallback_dangerous by done. by rewrite Hn.
Qed.

Lemma rules_subset_skip p req cmds cmds' platform bypass amendment :
  command_origin cmds' = command_origin cmds → policy_commands cmds' ≠ [] →
  policy_commands cmds' ⊆ policy_commands cmds →
  requirement_parsed p req cmds platform = Some (Skip bypass amendment) →
  ∃ bypass' amendment', requirement_parsed p req cmds' platform = Some (Skip bypass' amendment') ∧
                        (bypass = true → bypass' = true).
Proof.
  intros Ho Hne' Hsub Hreq.
  assert (policy_commands cmds ≠ []) as Hne.
  { intros E. destruct (policy_commands cmds') as [|c cs] eqn:E'; [done|].
    assert (c ∈ policy_commands cmds) as Hc by (apply Hsub; left). rewrite E in Hc. by apply elem_of_nil in Hc. }
  destruct (requirement_spec abs_path_try_from file_name try_parse_shell shlex_split re_captures url_scheme
              shlex_try_join cfg_windows p req cmds platform Hne) as (e & am & He & _ & Hr).
  destruct (requirement_spec abs_path_try_from file_name try_parse_shell shlex_split re_captures url_scheme
              shlex_try_join cfg_windows p req cmds' platform Hne') as (e' & am' & He' & _ & Hr').
  rewrite Hreq in Hr. injection Hr as Hr. rewrite Ho in He'.
  assert (eval_decision e = Allow) as Ha.
  { unfold requirement_of_evaluation in Hr. destruct (eval_decision e); [done| |done]. by repeat case_match. }
  assert (eval_decision e' = Allow) as Ha'.
  { rewrite (check_allow_iff _ _ _ _ _ _ He) in Ha. apply (check_allow_iff _ _ _ _ _ _ He').
    intros cmd Hc. apply Ha. by apply Hsub. }
  unfold requirement_of_evaluation in Hr, Hr'. rewrite Ha in Hr. rewrite Ha' in Hr'. injection Hr as -> _.
  eexists _, _. split; [exact Hr'|]. rewrite !forallb_forall. setoid_rewrite <- list_elem_of_In.
  intros Hall cmd Hc. apply Hall. by apply Hsub.
Qed.

(** A shell executable that is neither the configured shell nor in a system directory
    is judged as an executable of its own: what its arguments seem to run can only make the
    requirement stricter.  If the call may run without approval, so may the bare executable,
    and if the call leaves the sandbox, so may the bare executable. *)
Theorem unfamiliar_shell_gains_no_trust p req configured_shell platform bypass amendment :
  let executable := shell_approval_command (command req) configured_shell in
  let inner := commands_behind_executable try_parse_shell try_parse_powershell_commands (command req) platform in
  length executable ≠ length (command req) →
  create_exec_approval_requirement_for_shell (F := F) abs_path_try_from file_name try_parse_shell shlex_split
    re_captures url_scheme try_parse_powershell_commands shlex_try_join cfg_windows p req configured_shell platform
    = Some (Skip bypass amendment) →
  ∃ bypass' amendment',
    requirement_parsed p (set_command executable req) (mkCommands [executable] (command_origin inner)) platform
    = Some (Skip bypass' amendment') ∧ (bypass = true → bypass' = true).
Proof.
  cbv zeta. intros Hlen. unfold create_exec_approval_requirement_for_shell.
  rewrite (proj2 (Nat.eqb_neq _ _)) by done. apply rules_subset_skip; [done..|]. cbn. set_solver.
Qed.

(** The amendment a request's prefix rule leads to. *)
Definition requested_amendment p req (cmds : ExecPolicyCommands) (platform : DangerousCommandPlatform)
    : option (list str) :=
  let ep := policy_in_force p req in
  let fallback := fallback_for (F := F) try_parse_shell shlex_split re_captures url_scheme cfg_windows req
                    (command_origin cmds) platform in
  e ← check_multiple_with_options abs_path_try_from file_name ep (policy_commands cmds) fallback true;
  am ← derive_requested_execpolicy_amendment_from_prefix_rule abs_path_try_from file_name (prefix_rule req)
         (matched_rules e) ep (policy_commands cmds) fallback;
  am.

(** An amendment derived from the prefix a request suggests is never one of the banned
    prefixes, and accepting it works: once it is stored, its rule is a line of the rules
    file and the same request needs no approval any more. *)
Theorem accepted_amendment_takes_effect json_string io (s s' : ManagerState (A := A)) req cmds platform am :
  (∀ text, LF ∉ json_string text) →
  requested_amendment (manager_policy s) req cmds platform = Some am → allow_prefix_rules req = Honor →
  already_allowed abs_path_try_from file_name (manager_policy s) am = Some false →
  append_amendment_and_update abs_path_try_from file_name json_string io am s = (s', Ok tt) →
  am ∉ BANNED_PREFIX_SUGGESTIONS ∧
  allow_prefix_line json_string am ∈ lines (default [] (rules_file s')) ∧
  ∃ bypass am', requirement_parsed (manager_policy s') req cmds platform = Some (Skip bypass am').
Proof.
  intros Hj Ham Hh Haa Hup. unfold requested_amendment in Ham.
  set (ep := policy_in_force (manager_policy s) req) in *.
  destruct (check_multiple_with_options _ _ ep _ _ _) as [e|] eqn:He; [|done]. cbn [mbind option_bind] in Ham.
  destruct (derive_requested_total abs_path_try_from file_name (prefix_rule req) (matched_rules e) ep
              (policy_commands cmds)
              (fallback_for (F := F) try_parse_shell shlex_split re_captures url_scheme cfg_windows req
                 (command_origin cmds) platform)) as (am' & Hd & Hspec).
  rewrite Hd in Ham. cbn [mbind option_bind] in Ham. subst am'.
  destruct (Hspec am eq_refl) as (_ & Hban & _ & Happ). split; [done|].
  destruct (update_adds_rule abs_path_try_from file_name json_string io s s' am Hj Haa Hup) as (Hline & p' & Hp' & ->).
  split; [done|].
  assert (policy_commands cmds ≠ []) as Hne by (intros E; rewrite E in He; by vm_compute in He).
  destruct (requirement_spec abs_path_try_from file_name try_parse_shell shlex_split re_captures url_scheme
              shlex_try_join cfg_windows p' req cmds platform Hne) as (e' & am' & He' & _ & Hr').
  cbn [manager_policy]. assert (eval_decision e' = Allow) as Ha'.
  { destruct (would_approve_total abs_path_try_from file_name ep am (policy_commands cmds)
                (fallback_for (F := F) try_parse_shell shlex_split re_captures url_scheme cfg_windows req
                   (command_origin cmds) platform)) as (b & Hb & Htrue).
    rewrite Happ in Hb. injection Hb as <-. destruct (Htrue eq_refl) as (q' & Hq' & Hall).
    destruct (check_multiple_total abs_path_try_from file_name q' (policy_commands cmds)
                (fallback_for (F := F) try_parse_shell shlex_split re_captures url_scheme cfg_windows req
                   (command_origin cmds) platform) Hne) as (eq' & Heq & _ & _).
    rewrite Hh in He'. eapply check_same_rules; [|exact He'|exact Heq|by eapply check_each].
    eapply add_rule_environment; [exact Hp'| |exact Hq']. unfold ep, policy_in_force. by rewrite Hh. }
  rewrite Hr'. unfold requirement_of_evaluation. rewrite Ha'. eauto.
Qed.
End ApprovalTheorems.

(** A profile that is only its kind of sandbox. *)
#[export] Instance kind_policy : FileSystemPolicyOps FileSystemSandboxKind :=
  {| policy_kind := id; has_full_disk_write_access := λ k, negb (bool_decide (k = Restricted));
     has_denied_read_restrictions := λ _, false |}.
#[export] Instance kind_profile : PermissionProfileOps FileSystemSandboxKind FileSystemSandboxKind :=
  {| file_system_sandbox_policy := id; profile_is_managed := λ _, true |}.

Definition sample_policy_with (prefix : list str) (d : Decision) : Policy (A := unit) :=
  (add_prefix_rule prefix d policy_empty).1.

Definition sample_request (cmd : list str) (approval : AskForApproval) (prefix : option (list str))
    : ExecApprovalRequest (A := unit) (P := FileSystemSandboxKind) :=
  mkRequest cmd approval Restricted None WindowsDisabled UseDefault prefix Honor.

Definition no_commands : str → option (list (list str)) := λ _, None.
Definition no_join : list str → option str := λ _, None.

Lemma skip_means_allowed_or_harmless_witness :
  allowed_by_rules no_path no_name (sample_policy_with [lit "rm"] Allow) [lit "rm"; lit "-f"; lit "x"].
Proof.
  pose proof (proj2 (skip_means_allowed_or_harmless no_path no_name (λ _, Some sample_tree) no_words no_text no_text
    no_commands no_join (F := FileSystemSandboxKind) false (sample_policy_with [lit "rm"] Allow)
    (sample_request [lit "rm"; lit "-f"; lit "x"] OnRequest None) Posix true None
    ltac:(vm_compute; reflexivity))) as Hb.
  apply (proj1 Hb eq_refl). vm_compute. left.
Defined.

Lemma unfamiliar_shell_gains_no_trust_witness :
  ∃ bypass' amendment',
    create_exec_approval_requirement_for_parsed_commands (A := unit) (F := FileSystemSandboxKind) no_path no_name
      (λ _, Some sample_tree) no_words no_text no_text no_join false (sample_policy_with [lit "/tmp/bash"] Allow)
      (set_command [lit "/tmp/bash"] (sample_request [lit "/tmp/bash"; lit "-i"] OnRequest None))
      (mkCommands [[lit "/tmp/bash"]] GenericOrigin) Posix = Some (Skip bypass' amendment') ∧
    (true = true → bypass' = true).
Proof.
  apply (unfamiliar_shell_gains_no_trust no_path no_name (λ _, Some sample_tree) no_words no_text no_text no_commands
           no_join (F := FileSystemSandboxKind) false (sample_policy_with [lit "/tmp/bash"] Allow)
           (sample_request [lit "/tmp/bash"; lit "-i"] OnRequest None) (mkShell Bash (lit "/bin/bash")) Posix true None).
  - by vm_compute.
  - by vm_compute.
Defined.

Definition sample_manager : ManagerState (A := unit) := mkManager policy_empty None.

Lemma accepted_amendment_takes_effect_witness :
  ∃ s', append_amendment_and_update no_path no_name sample_json io_fine [lit "git"; lit "push"] sample_manager
        = (s', Ok tt) ∧
        ∃ bypass am', create_exec_approval_requirement_for_parsed_commands (F := FileSystemSandboxKind) no_path no_name
          no_tree no_words no_text no_text no_join false (manager_policy s')
          (sample_request [lit "git"; lit "push"; lit "origin"] UnlessTrusted (Some [lit "git"; lit "push"]))
          (mkCommands [[lit "git"; lit "push"; lit "origin"]] GenericOrigin) Posix = Some (Skip bypass am').
Proof.
  eexists. split; [vm_compute; reflexivity|].
  refine (proj2 (proj2 (accepted_amendment_takes_effect no_path no_name no_tree no_words no_text no_text no_join
    (F := FileSystemSandboxKind) false sample_json io_fine sample_manager _
    (sample_request [lit "git"; lit "push"; lit "origin"] UnlessTrusted (Some [lit "git"; lit "push"]))
    (mkCommands [[lit "git"; lit "push"; lit "origin"]] GenericOrigin) Posix [lit "git"; lit "push"] _ _ _ _ _))).
  - intros s. unfold sample_json. rewrite !not_elem_of_app, list_elem_of_filter.
    split_and!; [by apply (bool_decide_unpack _)|naive_solver|by apply (bool_decide_unpack _)].
  - by vm_compute.
  - done.
  - by vm_compute.
  - by vm_compute.
Defined.

(** What a shell is made to run is what the policy later reads: taking apart the
    arguments derived for a POSIX shell or a PowerShell gives back the script. *)
Theorem derived_args_roundtrip shell script login :
  detect_shell_type (shell_path shell) = Some (shell_type shell) →
  match shell_type shell with
  | Zsh | Bash | Sh => extract_bash_command (derive_exec_args shell script login) = Some (shell_path shell, script)
  | ShellSyntax.PowerShell =>
      extract_powershell_command (derive_exec_args shell script login) = Some (shell_path shell, script)
  | Cmd => derive_exec_args shell script login = [shell_path shell; lit "/c"; script]
  end.
Proof.
  intros Hd. unfold derive_exec_args, extract_bash_command, extract_powershell_command.
  destruct (shell_type shell) eqn:Et; try done.
  all: try (rewrite Hd; destruct login; by vm_compute).
  destruct login; cbn [app length Nat.ltb Nat.leb]; rewrite Hd; rewrite bool_decide_true by done; cbn [negb].
  - done.
  - done.
Qed.

Lemma derived_args_roundtrip_witness :
  extract_powershell_command (derive_exec_args (mkShell ShellSyntax.PowerShell (lit "pwsh")) (lit "ls") false)
  = Some (lit "pwsh", lit "ls").
Proof. apply (derived_args_roundtrip (mkShell ShellSyntax.PowerShell (lit "pwsh")) (lit "ls") false). by vm_compute. Defined.

(** A model that does not honor prefix rules keeps every rule but the allowing ones, takes
    the environment's rules whole, and is offered no amendment. *)
Theorem cyber_model_drops_allow_rules {A} `{EqDecision A} (p : Policy (A := A)) env k :
  default [] (rules_by_program (current_for_environment p (Some env) IgnoreForCyberModel) !! k) =
  filter (λ r, is_allow_prefix r = false) (default [] (rules_by_program p !! k))
  ++ default [] (rules_by_program env !! k).
Proof.
  unfold current_for_environment. rewrite merge_overlay_rules. f_equal.
  unfold current_for_prefix_rules. rewrite bool_decide_false by done. cbn [rules_by_program].
  rewrite lookup_omap. destruct (rules_by_program p !! k) as [rules|]; [|done]. cbn.
  by destruct (filter _ rules).
Qed.

(** Denied reads keep the sandbox: the first attempt bypasses it only when no read is
    denied and the command was allowed by a rule, asked to be escalated, or was approved
    where there is no sandbox. *)
Theorem first_attempt_bypass {F} `{!FileSystemPolicyOps F} perms requirement (fs : F) unavailable approved :
  sandbox_override_for_first_attempt perms requirement fs unavailable approved = BypassSandboxFirstAttempt →
  has_denied_read_restrictions fs = false ∧
  ((unavailable = true ∧ approved = true ∧ ∃ reason am, requirement = NeedsApproval reason am) ∨
   (∃ am, requirement = Skip true am) ∨ perms = RequireEscalated).
Proof.
  unfold sandbox_override_for_first_attempt, unsandboxed_execution_allowed.
  destruct (has_denied_read_restrictions fs); cbn [negb]; [by case_match|].
  intros H. split; [done|]. destruct requirement as [[]| |], unavailable, approved, perms; simpl in H; try done;
    eauto 10.
Qed.
