(* ===== verification/UriPath.v ===== *)
(** utils/path-uri/src/lib.rs and absolute_path_normalization.rs: [file:] URIs with the
    lexical path operations of the platform they belong to.

    A [Url] is the authority and the percent-encoded path segments of a file URL (the
    path [/a/b] has the segments [a] and [b], the path [/] one empty segment), with the
    segment operations the url crate documents.  Parameters, in the class [UrlCodec]:
    percent-decoding, the encoding of a pushed segment, hosts, base64; the laws used are
    in [UrlCodecLaws], and an instance shows that they can hold. *)
From S2P Require Import Prelude Str.

Inductive PathConvention := Posix | Windows.

#[export] Instance PathConvention_eq_dec : EqDecision PathConvention.
Proof. solve_decision. Defined.

Record Url := mkUrl { url_host : option str; url_segments : list str }.

#[export] Instance Url_eq_dec : EqDecision Url.
Proof. solve_decision. Defined.

(** What the parser gives before it is known to be a file URL without extras. *)
Record RawUrl := mkRawUrl {
  raw_scheme : str; raw_username : str; raw_password : option str; raw_port : option N;
  raw_url : Url; raw_query : option str; raw_fragment : option str }.

Inductive PathUriParseError :=
| UnsupportedScheme (scheme : str)
| InvalidFileUriPath
| CredentialsNotAllowed
| PortNotAllowed
| QueryNotAllowed
| FragmentNotAllowed
| JoinPathMustBeDescendant (path : str).

Class UrlCodec := {
  decode_binary : str → list N;
  url_decode : str → option str;
  encode_segment : str → str;
  b64_encode : list N → str;
  b64_decode : str → option (list N);
  parse_host : str → option str
}.

(** * Characters and bytes *)

Definition SLASH : N := 47.
Definition BACKSLASH : N := 92.
Definition COLON : N := 58.

Definition is_windows_separator_char (c : N) : bool := N.eqb c BACKSLASH || N.eqb c SLASH.

Definition utf8_of_char (c : N) : list N :=
  if N.ltb c 128 then [c]
  else if N.ltb c 2048 then [192 + c / 64; 128 + c mod 64]%N
  else if N.ltb c 65536 then [224 + c / 4096; 128 + (c / 64) mod 64; 128 + c mod 64]%N
  else [240 + c / 262144; 128 + (c / 4096) mod 64; 128 + (c / 64) mod 64; 128 + c mod 64]%N.

(** [str::as_bytes] *)
Definition as_bytes (s : str) : list N := s ≫= utf8_of_char.

(** [encode_utf16().flat_map(u16::to_le_bytes)] *)
Definition utf16_of_char (c : N) : list N :=
  let le (u : N) := [u mod 256; u / 256]%N in
  if N.ltb c 65536 then le c
  else le (55296 + (c - 65536) / 1024)%N ++ le (56320 + (c - 65536) mod 1024)%N.
Definition utf16le_bytes (s : str) : list N := s ≫= utf16_of_char.

Definition ascii_lower_byte (b : N) : N := ascii_lower b.
Definition bytes_eq_ignore_case (a b : list N) : bool :=
  bool_decide (ascii_lower_byte <$> a = ascii_lower_byte <$> b).

(** * PathConvention *)

Definition path_segments (c : PathConvention) (path : str) : list str :=
  split_by (λ ch, match c with Posix => N.eqb ch SLASH | Windows => is_windows_separator_char ch end) path.

Definition home_relative_suffix (c : PathConvention) (path : str) : option str :=
  suffix ← strip_prefix (lit "~") path;
  if bool_decide (suffix = []) || starts_with [SLASH] suffix
     || (bool_decide (c = Windows) && starts_with [BACKSLASH] suffix)
  then Some suffix else None.

Definition infer_opaque_path_convention (bytes : list N) : option PathConvention :=
  if starts_with [SLASH] bytes && negb (starts_with [SLASH; 0%N] bytes) then Some Posix
  else if negb (N.eqb (N.of_nat (length bytes) mod 2) 0) then None
  else
    match bytes with
    | a0 :: a1 :: b0 :: b1 :: _ =>
        let first := (a0 + 256 * a1)%N in
        let second := (b0 + 256 * b1)%N in
        let has_drive := N.ltb first 256 && is_ascii_alphabetic first && N.eqb second COLON in
        let has_unc_prefix := is_windows_separator_char first && is_windows_separator_char second in
        if has_drive || has_unc_prefix then Some Windows else None
    | _ => None
    end.

(** [[drive, b':'] | [drive, b'%', b'3', b'A' | b'a']] *)
Definition is_windows_drive_uri_segment (segment : str) : bool :=
  match segment with
  | [drive; c] => N.eqb c COLON && is_ascii_alphabetic drive
  | [drive; c1; c2; c3] =>
      N.eqb c1 37 && N.eqb c2 51 && (N.eqb c3 65 || N.eqb c3 97) && is_ascii_alphabetic drive
  | _ => false
  end.

(** * The url crate's path segments *)

Definition pop_if_empty (segs : list str) : list str :=
  match segs with
  | _ :: _ :: _ => if bool_decide (last segs = Some []) then removelast segs else segs
  | _ => segs
  end.

Definition pop_segment (segs : list str) : list str :=
  match segs with
  | _ :: _ :: _ => removelast segs
  | _ => [[]]
  end.

Definition non_empty_segments (u : Url) : list str := filter (λ s, s ≠ []) (url_segments u).

(** The path text: each segment behind a slash. *)
Definition url_path (u : Url) : str := url_segments u ≫= cons SLASH.

Definition BAD_PATH_SEGMENTS : list str := [lit "%00"; lit "bad"; lit "path"].

Section PathUri.
Context `{!UrlCodec}.

Definition push_segment (s : str) (segs : list str) : list str :=
  if bool_decide (segs = [[]]) then [encode_segment s] else segs ++ [encode_segment s].

(** ** Opaque fallbacks *)

Definition decode_bad_path_uri (u : Url) : option (list N) :=
  match u with
  | mkUrl None [a; b; c; encoded_path] =>
      if negb (bool_decide ([a; b; c] = BAD_PATH_SEGMENTS)) then None
      else if bool_decide (encoded_path = []) then None
      else
        path_bytes ← b64_decode encoded_path;
        if bool_decide (b64_encode path_bytes = encoded_path) then Some path_bytes else None
  | _ => None
  end.

Definition is_opaque (u : Url) : bool := bool_decide (is_Some (decode_bad_path_uri u)).

Definition from_opaque_path_bytes (bytes : list N) : Url := mkUrl None (BAD_PATH_SEGMENTS ++ [b64_encode bytes]).

Definition windows_opaque_path_uri (path : str) : Url := from_opaque_path_bytes (utf16le_bytes path).

Definition infer_path_convention (u : Url) : option PathConvention :=
  match decode_bad_path_uri u with
  | Some path_bytes => infer_opaque_path_convention path_bytes
  | None =>
      if bool_decide (is_Some (url_host u)) then Some Windows
      else match head (non_empty_segments u) with
           | Some segment => if is_windows_drive_uri_segment segment then Some Windows else Some Posix
           | None => Some Posix
           end
  end.

(** ** Construction *)

Definition without_localhost_authority (u : Url) : Url :=
  if bool_decide (url_host u = Some (lit "localhost")) then mkUrl None (url_segments u) else u.

(** Upper case for the letter of the first segment that is not empty. *)
Fixpoint upper_drive (segs : list str) : list str :=
  match segs with
  | [] => []
  | [] :: segs => [] :: upper_drive segs
  | drive :: segs =>
      if negb (is_windows_drive_uri_segment drive) then drive :: segs
      else match drive with
           | c :: tail => ((if is_ascii_upper c then c else if is_ascii_lower c then c - 32 else c)%N :: tail) :: segs
           | [] => drive :: segs
           end
  end.

Definition with_normalized_windows_drive_letter (u : Url) : Url :=
  if bool_decide (is_Some (url_host u)) then u else mkUrl None (upper_drive (url_segments u)).

Definition validate_file_url (u : Url) : result PathUriParseError unit :=
  if bool_decide (0%N ∈ decode_binary (url_path u)) && negb (is_opaque u) then Err InvalidFileUriPath else Ok tt.

Definition validate_common_known_uri (r : RawUrl) : result PathUriParseError unit :=
  if negb (bool_decide (raw_username r = [])) || bool_decide (is_Some (raw_password r)) then Err CredentialsNotAllowed
  else if bool_decide (is_Some (raw_port r)) then Err PortNotAllowed
  else if bool_decide (is_Some (raw_query r)) then Err QueryNotAllowed
  else if bool_decide (is_Some (raw_fragment r)) then Err FragmentNotAllowed
  else Ok tt.

(** The part of [try_from] after the checks that a file URL made here always passes. *)
Definition finish_url (u : Url) : result PathUriParseError Url :=
  let? _ := validate_file_url u in
  Ok (with_normalized_windows_drive_letter (without_localhost_authority u)).

Definition path_uri_try_from (r : RawUrl) : result PathUriParseError Url :=
  if negb (raw_scheme r =s lit "file") then Err (UnsupportedScheme (raw_scheme r))
  else
    let? _ := validate_common_known_uri r in
    finish_url (raw_url r).

(** ** Identity *)

Definition has_encoded_separator (segment : str) : bool :=
  existsb is_windows_separator_char (decode_binary segment).

Definition windows_identity_path_bytes (u : Url) : option (list N) :=
  if negb (bool_decide (infer_path_convention u = Some Windows)) || is_opaque u
     || existsb has_encoded_separator (url_segments u)
  then None
  else Some (decode_binary (url_path u)).

Definition uri_eqb (a b : Url) : bool :=
  if bool_decide (a = b) then true
  else match windows_identity_path_bytes a, windows_identity_path_bytes b with
       | Some path, Some other_path =>
           bool_decide (url_host a = url_host b) && bytes_eq_ignore_case path other_path
       | _, _ => false
       end.

(** What is fed to the hasher: the URL itself, or the host, a length and folded bytes. *)
Definition uri_hash_input (u : Url) : Url + option str * nat * list N :=
  match windows_identity_path_bytes u with
  | None => inl u
  | Some path => inr (url_host u, length path, ascii_lower_byte <$> path)
  end.

(** ** Inspection *)

Definition decode_uri_path (s : str) : str := default s (url_decode s).

Definition basename (u : Url) : option str :=
  if is_opaque u then None
  else decode_uri_path <$> last (non_empty_segments u).

Definition anchor_depth (c : PathConvention) : nat := match c with Windows => 1 | Posix => 0 end.

Definition parent (u : Url) : option Url :=
  if is_opaque u then None
  else
    convention ← infer_path_convention u;
    if length (non_empty_segments u) <=? anchor_depth convention then None
    else Some (mkUrl (url_host u) (pop_segment (pop_if_empty (url_segments u)))).

(** [successors(Some(self), parent)]; each parent has a segment less. *)
Fixpoint ancestors_fuel (fuel : nat) (u : Url) : list Url :=
  u :: match fuel, parent u with
       | S fuel, Some p => ancestors_fuel fuel p
       | _, _ => []
       end.
Definition ancestors (u : Url) : list Url := ancestors_fuel (length (url_segments u)) u.

Definition containment_path_segments (u : Url) (c : PathConvention) : option (list str) :=
  let segments := non_empty_segments u in
  if existsb (λ segment,
       existsb (λ byte, N.eqb byte SLASH || (bool_decide (c = Windows) && N.eqb byte BACKSLASH))
         (decode_binary segment)) segments
  then None else Some segments.

Definition segments_match (c : PathConvention) (path base : str) : bool :=
  match c with
  | Posix => bool_decide (decode_binary path = decode_binary base)
  | Windows => eq_ignore_ascii_case path base
               || eq_ignore_ascii_case (decode_uri_path path) (decode_uri_path base)
  end.

Definition native_path_segments_start_with (path base : list str) (c : PathConvention) : bool :=
  (length base <=? length path) && forallb (λ '(p, b), segments_match c p b) (zip path base).

Definition uri_starts_with (u base : Url) : bool :=
  if uri_eqb u base then true
  else if is_opaque u || is_opaque base then false
  else if negb (bool_decide (url_host u = url_host base)) then false
  else
    let convention := infer_path_convention u in
    if negb (bool_decide (convention = infer_path_convention base)) then false
    else
      let convention := default Posix convention in
      match containment_path_segments u convention, containment_path_segments base convention with
      | Some path_segments, Some base_segments =>
          native_path_segments_start_with path_segments base_segments convention
      | _, _ => false
      end.

Definition lexical_depth (u : Url) : option nat :=
  if is_opaque u then None
  else
    convention ← infer_path_convention u;
    length <$> containment_path_segments u convention.

Definition overlaps (u other : Url) : option bool :=
  if uri_eqb u other then Some true
  else
    _ ← lexical_depth u;
    _ ← lexical_depth other;
    Some (uri_starts_with u other || uri_starts_with other u).

Definition relative_path_from (u base : Url) : option str :=
  if uri_eqb u base then Some []
  else if is_opaque u || is_opaque base || negb (bool_decide (url_host u = url_host base))
          || negb (bool_decide (infer_path_convention u = infer_path_convention base))
  then None
  else
    convention ← infer_path_convention u;
    path_segments ← containment_path_segments u convention;
    base_segments ← containment_path_segments base convention;
    if negb (native_path_segments_start_with path_segments base_segments convention) then None
    else
      let separator := match convention with Posix => [SLASH] | Windows => [BACKSLASH] end in
      Some (join separator (decode_uri_path <$> drop (length base_segments) path_segments)).

(** ** Absolute paths *)

(** The loop of [path_uri_from_segments]: the segments kept, their number, and whether a
    separator ends the text. *)
Definition normalize_step (anchor : nat) (st : list str * nat * bool) (segment : str) : list str * nat * bool :=
  let '(normalized, depth, trailing) := st in
  if bool_decide (segment = []) then (normalized, depth, true)
  else if segment =s lit "." then (normalized, depth, false)
  else if segment =s lit ".." then
    if anchor <? depth then (removelast normalized, depth - 1, false) else (normalized, depth, false)
  else (normalized ++ [segment], depth + 1, false).

Definition path_uri_from_segments (c : PathConvention) (host : option str) (segments : list str) : option Url :=
  url_host ← match host with None => Some None | Some h => Some <$> parse_host h end;
  let anchor := anchor_depth c in
  let '(normalized, depth, trailing) := foldl (normalize_step anchor) ([], 0, false) segments in
  let normalized :=
    if trailing || (bool_decide (c = Windows) && bool_decide (host = None) && (depth =? anchor))
    then normalized ++ [[]] else normalized in
  match finish_url (mkUrl url_host (foldl (λ segs s, push_segment s segs) [[]] normalized)) with
  | Ok u => Some u
  | Err _ => None
  end.

Definition parse_posix_path (path : str) : option Url :=
  rest ← strip_prefix [SLASH] path;
  if bool_decide (0%N ∈ rest) then Some (from_opaque_path_bytes (as_bytes path))
  else path_uri_from_segments Posix None (split_by (N.eqb SLASH) rest).

Definition normalize_windows_device_path (path : str) : option str :=
  let is_drive_absolute (p : str) :=
    match p with
    | d :: c :: s :: _ => is_ascii_alphabetic d && N.eqb c COLON && is_windows_separator_char s
    | _ => false
    end in
  match strip_prefix (lit "\\?\UNC\") path with
  | Some unc => Some (lit "\\" ++ unc)
  | None =>
      match strip_prefix (lit "\\.\UNC\") path with
      | Some unc => Some (lit "\\" ++ unc)
      | None =>
          match (p ← strip_prefix (lit "\\?\") path; if is_drive_absolute p then Some p else None) with
          | Some p => Some p
          | None => p ← strip_prefix (lit "\\.\") path; if is_drive_absolute p then Some p else None
          end
      end
  end.

Definition is_dots (s : str) : bool := bool_decide (s ∈ [lit "."; lit ".."]).

Definition parse_unnormalized_windows_path (path : str) : option Url :=
  let uses_namespace :=
    match path with
    | first :: second :: namespace :: separator :: _ =>
        is_windows_separator_char first && is_windows_separator_char second && is_windows_separator_char separator
        && bool_decide (namespace ∈ lit ".?")
    | _ => false
    end in
  if uses_namespace || bool_decide (0%N ∈ path) then Some (windows_opaque_path_uri path)
  else
    match path with
    | first :: second :: rest =>
        if is_ascii_alphabetic first && N.eqb second COLON
           && match rest with separator :: _ => is_windows_separator_char separator | [] => false end
        then path_uri_from_segments Windows None ([first; second] :: split_by is_windows_separator_char (tail rest))
        else if is_windows_separator_char first && is_windows_separator_char second then
          match split_by is_windows_separator_char rest with
          | host :: share :: components =>
              if bool_decide (host = []) then None
              else if bool_decide (share = []) then None
              else if is_dots host || is_dots share then Some (windows_opaque_path_uri path)
              else
                match path_uri_from_segments Windows (Some host) (share :: components) with
                | Some uri =>
                    if match url_host uri with Some parsed => eq_ignore_ascii_case parsed host | None => false end
                    then Some uri else Some (windows_opaque_path_uri path)
                | None => Some (windows_opaque_path_uri path)
                end
          | _ => None
          end
        else None
    | _ => None
    end.

Definition parse_windows_path (path : str) : option Url :=
  match normalize_windows_device_path path with
  | Some normalized_path =>
      let unc := strip_prefix (lit "\\") normalized_path in
      let bad_unc :=
        match unc with
        | Some unc_path =>
            let bad (o : option str) :=
              match o with None => true | Some s => bool_decide (s = []) || is_dots s end in
            let components := split_by is_windows_separator_char unc_path in
            bad (components !! 0) || bad (components !! 1)
        | None => false
        end in
      if bad_unc then Some (windows_opaque_path_uri path)
      else
        Some (match parse_unnormalized_windows_path normalized_path with
              | Some uri =>
                  if bool_decide (infer_path_convention uri = Some Windows) && negb (is_opaque uri)
                     && (negb (bool_decide (is_Some unc))
                         || match url_host uri with Some host => negb (bool_decide (host = [])) | None => false end)
                  then uri else windows_opaque_path_uri path
              | None => windows_opaque_path_uri path
              end)
  | None => parse_unnormalized_windows_path path
  end.

Definition from_absolute_native_path (path : str) (c : PathConvention) : option Url :=
  uri ← match c with Posix => parse_posix_path path | Windows => parse_windows_path path end;
  if negb (bool_decide (url_host uri = Some [])) && bool_decide (infer_path_convention uri = Some c)
  then Some uri
  else Some (match c with
             | Posix => from_opaque_path_bytes (as_bytes path)
             | Windows => windows_opaque_path_uri path
             end).

(** ** Joining *)

(** One component of the text; the state is the segments and their number. *)
Definition join_step (anchor : nat) (st : list str * nat) (component : str) : list str * nat :=
  let '(segs, depth) := st in
  if bool_decide (component = []) || (component =s lit ".") then (segs, depth)
  else if component =s lit ".." then
    if anchor <? depth then (pop_segment segs, depth - 1) else (segs, depth)
  else (push_segment component segs, depth + 1).

(** [while depth > anchor_depth { segments.pop(); depth -= 1; }] *)
Definition pop_to_anchor (anchor : nat) (st : list str * nat) : list str * nat :=
  let '(segs, depth) := st in
  (Nat.iter (depth - anchor) pop_segment segs, if anchor <? depth then anchor else depth).

Definition is_drive_relative (c : PathConvention) (path : str) : bool :=
  match c, path with
  | Windows, drive :: colon :: _ => N.eqb colon COLON && is_ascii_alphabetic drive
  | _, _ => false
  end.

Definition same_drive (u : Url) (path : str) : bool :=
  match head (non_empty_segments u), path with
  | Some segment, drive :: _ =>
      is_windows_drive_uri_segment segment
      && match segment with c :: _ => N.eqb (ascii_lower c) (ascii_lower drive) | [] => false end
  | _, _ => false
  end.

Definition join_relative (u : Url) (c : PathConvention) (path : str) : result PathUriParseError Url :=
  let anchor := anchor_depth c in
  let windows_root_relative :=
    bool_decide (c = Windows)
    && match path with
       | first :: rest =>
           is_windows_separator_char first
           && match rest with second :: _ => negb (is_windows_separator_char second) | [] => true end
       | [] => false
       end in
  let st := (pop_if_empty (url_segments u), length (non_empty_segments u)) in
  let st := if windows_root_relative then pop_to_anchor anchor st else st in
  let '(segs, _) := foldl (join_step anchor) st (path_segments c path) in
  finish_url (mkUrl (url_host u) segs).

Definition uri_join (u : Url) (path : str) : result PathUriParseError Url :=
  if bool_decide (0%N ∈ path) then Err InvalidFileUriPath
  else if bool_decide (path = []) then Ok u
  else
    match infer_path_convention u with
    | None => Err InvalidFileUriPath
    | Some convention =>
        match from_absolute_native_path path convention with
        | Some absolute => Ok absolute
        | None =>
            if is_drive_relative convention path && negb (same_drive u path) then Err InvalidFileUriPath
            else
              let path := if is_drive_relative convention path then drop 2 path else path in
              if is_opaque u then Err InvalidFileUriPath
              else join_relative u convention path
        end
    end.

Definition join_descendant (u : Url) (path : str) : result PathUriParseError Url :=
  let? descendant := uri_join u path in
  let windows := bool_decide (infer_path_convention u = Some Windows) in
  if starts_with [SLASH] path
     || (windows && (starts_with [BACKSLASH] path
                     || existsb (λ segment, existsb (N.eqb COLON) segment) (path_segments Windows path)))
     || negb (uri_starts_with descendant u)
  then Err (JoinPathMustBeDescendant path)
  else Ok descendant.
End PathUri.

(** * Laws of the codec *)

(** Scalar values that the url crate keeps in a pushed segment: it drops tabs and line
    ends, and reads a bar as the colon of a drive. *)
Definition url_char (c : N) : Prop :=
  ((c < 55296)%N ∨ (57344 ≤ c)%N ∧ (c < 1114112)%N) ∧ c ∉ [9; 10; 13; 124]%N.

#[export] Instance url_char_dec c : Decision (url_char c).
Proof. unfold url_char. apply _. Defined.

(** Plain ASCII characters stand for themselves, a slash ends every escape, encoding a
    pushed segment keeps its bytes and hides its slashes, base64 is injective. *)
Class UrlCodecLaws `{!UrlCodec} : Prop := {
  decode_nil : decode_binary [] = [];
  decode_plain c s : (c < 128)%N → c ≠ 37%N → decode_binary (c :: s) = c :: decode_binary s;
  decode_escaped_nul : decode_binary (lit "%00") = [0%N];
  decode_escaped_colon a : (a = 65 ∨ a = 97)%N → decode_binary [37; 51; a]%N = [COLON];
  decode_slash a b : decode_binary (a ++ SLASH :: b) = decode_binary a ++ SLASH :: decode_binary b;
  encode_decode s : Forall url_char s → decode_binary (encode_segment s) = as_bytes s;
  url_decode_bytes s t : url_decode s = Some t → decode_binary s = as_bytes t;
  encode_nil : encode_segment [] = [];
  encode_no_slash s : SLASH ∉ encode_segment s;
  b64_inverse bytes : b64_decode (b64_encode bytes) = Some bytes;
  b64_non_empty bytes : bytes ≠ [] → b64_encode bytes ≠ [];
  b64_no_slash bytes : SLASH ∉ b64_encode bytes
}.

(** * Equality and hashing *)

Section Identity.
Context `{!UrlCodec}.

Lemma uri_eqb_refl u : uri_eqb u u = true.
Proof. unfold uri_eqb. by rewrite bool_decide_true. Qed.

(** The key equality compares: the hasher's input without the length. *)
Lemma uri_eqb_spec a b :
  uri_eqb a b = true ↔
  a = b ∨ ∃ p q, windows_identity_path_bytes a = Some p ∧ windows_identity_path_bytes b = Some q ∧
                 url_host a = url_host b ∧ ascii_lower_byte <$> p = ascii_lower_byte <$> q.
Proof.
  unfold uri_eqb, bytes_eq_ignore_case. case_bool_decide; [naive_solver|].
  destruct (windows_identity_path_bytes a), (windows_identity_path_bytes b);
    rewrite ?andb_true_iff, ?bool_decide_eq_true; naive_solver.
Qed.

Lemma uri_eqb_sym a b : uri_eqb a b = true → uri_eqb b a = true.
Proof. rewrite !uri_eqb_spec. intros [->|(p & q & ? & ? & ? & ?)]; [by left|]. right. exists q, p. auto. Qed.

Lemma uri_eqb_trans a b c : uri_eqb a b = true → uri_eqb b c = true → uri_eqb a c = true.
Proof.
  rewrite !uri_eqb_spec. intros [->|(p & q & Ha & Hb & Hh & He)]; [done|].
  intros [<-|(q' & r & Hb' & Hc & Hh' & He')]; [right; by exists p, q|]. simplify_eq.
  right. exists p, r. split_and!; congruence.
Qed.

Lemma uri_eqb_hash a b : uri_eqb a b = true → uri_hash_input a = uri_hash_input b.
Proof.
  rewrite uri_eqb_spec. intros [->|(p & q & Ha & Hb & Hh & He)]; [done|].
  unfold uri_hash_input. rewrite Ha, Hb, Hh, He. do 2 f_equal. f_equal.
  apply (f_equal length) in He. by rewrite !length_fmap in He.
Qed.
End Identity.

(** * Segments *)

Section Segments.
Context `{!UrlCodec, !UrlCodecLaws}.
Implicit Types (u : Url) (segs : list str).

Lemma decode_segments (l : list str) (s : str) :
  decode_binary (s ++ (l ≫= cons SLASH)) = decode_binary s ++ (l ≫= λ t, SLASH :: decode_binary t).
Proof.
  revert s. induction l as [|t l IH]; intros s; [by rewrite !app_nil_r|].
  rewrite !bind_cons. simpl. rewrite decode_slash, IH. done.
Qed.

Lemma decode_path u : decode_binary (url_path u) = url_segments u ≫= λ t, SLASH :: decode_binary t.
Proof. unfold url_path. rewrite <- (app_nil_l (_ ≫= _)), decode_segments, decode_nil. done. Qed.

Lemma path_no_nul u :
  0%N ∉ decode_binary (url_path u) ↔ Forall (λ t, 0%N ∉ decode_binary t) (url_segments u).
Proof.
  rewrite decode_path. induction (url_segments u) as [|t l IH]; [by split; [constructor|set_solver]|].
  rewrite bind_cons, Forall_cons, not_elem_of_app, IH, not_elem_of_cons. unfold SLASH. naive_solver.
Qed.

Lemma filter_removelast_empty segs :
  last segs = Some [] → filter (λ s : str, s ≠ []) (removelast segs) = filter (λ s, s ≠ []) segs.
Proof.
  intros [l ->]%last_Some. rewrite removelast_snoc, filter_app. rewrite (filter_cons_False (λ s : str, s ≠ [])) by auto.
  by rewrite app_nil_r.
Qed.

Lemma filter_removelast_prefix segs :
  filter (λ s : str, s ≠ []) (removelast segs) `prefix_of` filter (λ s, s ≠ []) segs.
Proof.
  destruct (list_snoc_inv segs) as [->|(l & x & ->)]; [done|]. rewrite removelast_snoc, filter_app.
  by apply prefix_app_r.
Qed.

Lemma pop_if_empty_filter segs :
  filter (λ s : str, s ≠ []) (pop_if_empty segs) = filter (λ s, s ≠ []) segs.
Proof.
  unfold pop_if_empty. destruct segs as [|x [|y segs]]; [done..|].
  case_bool_decide as Hl; [by apply filter_removelast_empty|done].
Qed.

Lemma pop_segment_prefix segs :
  filter (λ s : str, s ≠ []) (pop_segment segs) `prefix_of` filter (λ s, s ≠ []) segs.
Proof.
  unfold pop_segment. destruct segs as [|x [|y segs]]; [done| |apply filter_removelast_prefix].
  apply prefix_nil.
Qed.

Lemma pop_if_empty_sub segs : pop_if_empty segs `prefix_of` segs.
Proof.
  unfold pop_if_empty. destruct segs as [|x [|y segs]]; [done..|]. case_bool_decide; [|done].
  destruct (list_snoc_inv (x :: y :: segs)) as [|(l & z & ->)]; [done|]. rewrite removelast_snoc. by apply prefix_app_r.
Qed.

(** Popping leaves a prefix, or the empty path. *)
Lemma pop_segment_sub segs : pop_segment segs = [[]] ∨ pop_segment segs `prefix_of` segs.
Proof.
  unfold pop_segment. destruct segs as [|x [|y segs]]; [by left..|right].
  destruct (list_snoc_inv (x :: y :: segs)) as [|(l & z & ->)]; [done|]. rewrite removelast_snoc. by apply prefix_app_r.
Qed.

Lemma pop_segment_length segs : segs ≠ [] → S (length (pop_segment segs)) ≤ length segs ∨ length segs = 1.
Proof.
  unfold pop_segment. destruct segs as [|x [|y segs]]; [done|by right|left].
  destruct (list_snoc_inv (x :: y :: segs)) as [|(l & z & ->)]; [done|]. rewrite removelast_snoc, length_app. simpl. lia.
Qed.

Lemma pop_segment_ne segs : pop_segment segs ≠ [].
Proof.
  unfold pop_segment. destruct segs as [|x [|y segs]]; [done..|].
  destruct (list_snoc_inv (x :: y :: segs)) as [|(l & z & E)]; [done|]. rewrite E, removelast_snoc.
  intros ->. by apply (f_equal length) in E.
Qed.

Lemma pop_if_empty_ne segs : segs ≠ [] → pop_if_empty segs ≠ [].
Proof.
  unfold pop_if_empty. destruct segs as [|x [|y segs]]; [done..|]. intros _. case_bool_decide; [|done].
  destruct (list_snoc_inv (x :: y :: segs)) as [|(l & z & E)]; [done|]. rewrite E, removelast_snoc.
  intros ->. by apply (f_equal length) in E.
Qed.

Lemma pop_if_empty_length segs : length (pop_if_empty segs) ≤ length segs.
Proof. apply prefix_length, pop_if_empty_sub. Qed.
End Segments.

(** * The invariant *)

Section Invariant.
Context `{!UrlCodec, !UrlCodecLaws}.
Implicit Types (u : Url) (segs : list str).

(** What every [PathUri] satisfies: there is a path, no segment has a slash, no byte is
    null unless the URI is an opaque fallback, the authority is not localhost and the
    letter of a drive is upper case. *)
Record well_formed u : Prop := {
  wf_segments : url_segments u ≠ [];
  wf_slashes : Forall (λ s, SLASH ∉ s) (url_segments u);
  wf_nul : is_opaque u = true ∨ Forall (λ s, 0%N ∉ decode_binary s) (url_segments u);
  wf_host : url_host u ≠ Some (lit "localhost");
  wf_drive : url_host u = None → upper_drive (url_segments u) = url_segments u
}.

Definition upper_char (c : N) : N := if is_ascii_upper c then c else if is_ascii_lower c then (c - 32)%N else c.

Lemma upper_char_spec c :
  is_ascii_alphabetic c = true →
  is_ascii_alphabetic (upper_char c) = true ∧ upper_char (upper_char c) = upper_char c ∧
  (upper_char c < 128)%N ∧ upper_char c ≠ 37%N ∧ upper_char c ≠ SLASH ∧ (c < 128)%N ∧ c ≠ 37%N.
Proof.
  unfold is_ascii_alphabetic, upper_char, is_ascii_upper, is_ascii_lower, SLASH. rewrite orb_true_iff, !andb_true_iff.
  intros Hc. destruct ((65 <=? c) && (c <=? 90))%N eqn:E1.
  - apply andb_true_iff in E1 as [?%N.leb_le ?%N.leb_le].
    rewrite (proj2 (N.leb_le 65 c)), (proj2 (N.leb_le c 90)) by lia. simpl. repeat split; lia.
  - destruct Hc as [[H1 H2]|[H1 H2]]; [by rewrite H1, H2 in E1|]. rewrite H1, H2. simpl.
    apply N.leb_le in H1, H2. rewrite (proj2 (N.leb_le 65 (c - 32))), (proj2 (N.leb_le (c - 32) 90)) by lia.
    simpl. repeat split; lia.
Qed.

(** A drive segment is a letter and two ways to write a colon. *)
Lemma drive_segment_cases s :
  is_windows_drive_uri_segment s = true →
  ∃ c t, s = c :: t ∧ is_ascii_alphabetic c = true ∧ (t = [COLON] ∨ ∃ a, t = [37; 51; a]%N ∧ (a = 65 ∨ a = 97)%N) ∧
         ∀ d, is_ascii_alphabetic d = true → is_windows_drive_uri_segment (d :: t) = true.
Proof.
  unfold is_windows_drive_uri_segment. intros Hs. destruct s as [|c [|a [|b [|d [|]]]]]; try done.
  - apply andb_true_iff in Hs as [H1%N.eqb_eq H2]. subst. exists c, [COLON]. split_and!; [done|done|by left|].
    intros d ->. by rewrite N.eqb_refl.
  - rewrite !andb_true_iff in Hs. destruct Hs as [[[H1%N.eqb_eq H2%N.eqb_eq] H3] H4]. subst.
    exists c, [37; 51; d]%N. split_and!; [done|done| |].
    + right. exists d. split; [done|]. apply orb_true_iff in H3 as [?%N.eqb_eq|?%N.eqb_eq]; auto.
    + intros e ->. by rewrite H3.
Qed.

Lemma upper_drive_spec segs :
  upper_drive segs = segs ∨
  ∃ pre c t post, segs = pre ++ (c :: t) :: post ∧ Forall (λ s, s = []) pre ∧
    is_windows_drive_uri_segment (c :: t) = true ∧ is_ascii_alphabetic c = true ∧
    upper_drive segs = pre ++ (upper_char c :: t) :: post.
Proof.
  induction segs as [|s segs IH]; [by left|]. destruct s as [|c t].
  - simpl. destruct IH as [->|(pre & c & t & post & -> & Hp & Hd & Hc & ->)]; [by left|right].
    exists ([] :: pre), c, t, post. split_and!; [done|by constructor|done..].
  - cbn [upper_drive]. destruct (is_windows_drive_uri_segment (c :: t)) eqn:Ed; cbn [negb]; [|by left].
    right. exists [], c, t, segs. split_and!; [done|done|done| |done].
    by destruct (drive_segment_cases _ Ed) as (c' & t' & [= <- <-] & Hc & _).
Qed.

Lemma upper_drive_idem segs : upper_drive (upper_drive segs) = upper_drive segs.
Proof.
  induction segs as [|s segs IH]; [done|]. destruct s as [|c t]; [simpl; by rewrite IH|].
  cbn [upper_drive]. destruct (is_windows_drive_uri_segment (c :: t)) eqn:Ed; cbn [negb upper_drive]; [|by rewrite Ed].
  destruct (drive_segment_cases _ Ed) as (c' & t' & [= <- <-] & Hc & _ & Hall).
  fold (upper_char c). destruct (upper_char_spec c Hc) as (Hu & Huu & _). rewrite (Hall _ Hu). cbn [negb].
  fold (upper_char (upper_char c)). by rewrite Huu.
Qed.

Lemma upper_drive_ne segs : segs ≠ [] → upper_drive segs ≠ [].
Proof. by destruct segs as [|[|c t] segs]; [done|..]; simpl; repeat case_match. Qed.

Lemma upper_drive_slashes segs : Forall (λ s, SLASH ∉ s) segs → Forall (λ s, SLASH ∉ s) (upper_drive segs).
Proof.
  destruct (upper_drive_spec segs) as [->|(pre & c & t & post & -> & Hp & Hd & Hc & ->)]; [done|].
  rewrite !Forall_app, !Forall_cons. intros (? & Hs & ?). split_and!; [done| |done].
  apply not_elem_of_cons in Hs as [_ Hs]. apply not_elem_of_cons. split; [|done].
  destruct (upper_char_spec c Hc) as (_ & _ & _ & _ & Hn & _). congruence.
Qed.

Lemma upper_drive_nul segs :
  Forall (λ s, 0%N ∉ decode_binary s) segs → Forall (λ s, 0%N ∉ decode_binary s) (upper_drive segs).
Proof.
  destruct (upper_drive_spec segs) as [->|(pre & c & t & post & -> & Hp & Hd & Hc & ->)]; [done|].
  destruct (upper_char_spec c Hc) as (Hu & _ & H128 & H37 & _ & Hc128 & Hc37).
  rewrite !Forall_app, !Forall_cons. intros (? & Hs & ?). split_and!; [done| |done].
  rewrite decode_plain in Hs |- * by done. apply not_elem_of_cons in Hs as [_ Hs]. apply not_elem_of_cons.
  split; [|done]. intros E. rewrite <- E in Hu. by vm_compute in Hu.
Qed.

Lemma upper_drive_prefix segs post : upper_drive (segs ++ post) = segs ++ post → upper_drive segs = segs.
Proof.
  induction segs as [|s segs IH]; [done|]. destruct s as [|c t]; simpl.
  - intros [= E]. by rewrite (IH E).
  - destruct (negb _); [done|]. intros [= E]. by rewrite E.
Qed.

Lemma opaque_shape u : is_opaque u = true → ∃ e, u = mkUrl None (BAD_PATH_SEGMENTS ++ [e]) ∧ e ≠ [].
Proof.
  unfold is_opaque. rewrite bool_decide_eq_true. intros [bytes Hd]. unfold decode_bad_path_uri in Hd.
  destruct u as [[h|] [|a [|b [|c [|e [|]]]]]]; try done.
  case_bool_decide as Hs; [|done]. cbn [negb] in Hd. case_bool_decide as He; [done|]. injection Hs as -> -> ->. by exists e.
Qed.

Lemma normalized_wf segs :
  segs ≠ [] → Forall (λ s, SLASH ∉ s) segs → Forall (λ s, 0%N ∉ decode_binary s) segs →
  well_formed (mkUrl None (upper_drive segs)).
Proof.
  intros Hne Hs Hn. split; cbn [url_host url_segments].
  - by apply upper_drive_ne.
  - by apply upper_drive_slashes.
  - right. by apply upper_drive_nul.
  - done.
  - intros _. apply upper_drive_idem.
Qed.

Lemma finish_url_wf u u' :
  url_segments u ≠ [] → Forall (λ s, SLASH ∉ s) (url_segments u) → finish_url u = Ok u' → well_formed u'.
Proof.
  intros Hne Hs. unfold finish_url, validate_file_url.
  destruct (bool_decide (0%N ∈ decode_binary (url_path u)) && negb (is_opaque u)) eqn:En; [done|].
  cbn [res_bind]. intros [= <-].
  destruct (is_opaque u) eqn:Eo.
  - destruct (opaque_shape u Eo) as (e & -> & He).
    assert (with_normalized_windows_drive_letter (without_localhost_authority (mkUrl None (BAD_PATH_SEGMENTS ++ [e]))) =
            mkUrl None (BAD_PATH_SEGMENTS ++ [e])) as -> by done.
    split; [done|done|by left|done|done].
  - rewrite andb_true_r in En. apply bool_decide_eq_false, path_no_nul in En.
    unfold without_localhost_authority. case_bool_decide as Hl; unfold with_normalized_windows_drive_letter.
    + cbn [url_host url_segments]. rewrite bool_decide_false by (by intros []). by apply normalized_wf.
    + case_bool_decide as Hh; [|by apply normalized_wf].
      split; auto. intros E. rewrite E in Hh. by destruct Hh.
Qed.

Lemma from_opaque_wf bytes : bytes ≠ [] → well_formed (from_opaque_path_bytes bytes).
Proof.
  intros Hne. split; try done.
  - unfold from_opaque_path_bytes. cbn [url_segments]. rewrite Forall_app, Forall_singleton.
    split; [|apply b64_no_slash]. unfold BAD_PATH_SEGMENTS. repeat constructor; by apply (bool_decide_unpack _).
  - left. unfold is_opaque, from_opaque_path_bytes. apply bool_decide_eq_true. unfold decode_bad_path_uri. simpl.
    rewrite !bool_decide_false by (by apply b64_non_empty). rewrite b64_inverse. simpl. rewrite bool_decide_true by done. eauto.
Qed.
End Invariant.

Section Preservation.
Context `{!UrlCodec, !UrlCodecLaws}.
Implicit Types (u : Url) (segs : list str).

(** The shape the segment operations keep. *)
Definition segments_ok segs : Prop := segs ≠ [] ∧ Forall (λ s, SLASH ∉ s) segs.

Lemma segments_ok_root : segments_ok [[]].
Proof. split; [done|]. repeat constructor. set_solver. Qed.

Lemma push_segment_ok s segs : segments_ok segs → segments_ok (push_segment s segs).
Proof.
  intros [Hne Hs]. unfold push_segment. case_bool_decide; split; try done.
  - repeat constructor. apply encode_no_slash.
  - by destruct segs.
  - rewrite Forall_app, Forall_singleton. split; [done|apply encode_no_slash].
Qed.

Lemma prefix_slashes segs segs' :
  segs' `prefix_of` segs → Forall (λ s, SLASH ∉ s) segs → Forall (λ s, SLASH ∉ s) segs'.
Proof. intros [k ->] [? _]%Forall_app. done. Qed.

Lemma pop_segment_ok segs : segments_ok segs → segments_ok (pop_segment segs).
Proof.
  intros [Hne Hs]. split; [apply pop_segment_ne|].
  destruct (pop_segment_sub segs) as [->|Hp]; [apply segments_ok_root|by eapply prefix_slashes].
Qed.

Lemma pop_if_empty_ok segs : segments_ok segs → segments_ok (pop_if_empty segs).
Proof.
  intros [Hne Hs]. split; [by apply pop_if_empty_ne|]. eapply prefix_slashes; [apply pop_if_empty_sub|done].
Qed.

Lemma foldl_push_ok l segs : segments_ok segs → segments_ok (foldl (λ segs s, push_segment s segs) segs l).
Proof. revert segs. induction l as [|s l IH]; intros segs Hs; simpl; [done|]. by apply IH, push_segment_ok. Qed.

Lemma finish_ok host segs u : segments_ok segs → finish_url (mkUrl host segs) = Ok u → well_formed u.
Proof. intros [Hne Hs]. by apply finish_url_wf. Qed.

Lemma from_segments_wf c host segs u : path_uri_from_segments c host segs = Some u → well_formed u.
Proof.
  unfold path_uri_from_segments. intros Hu. apply bind_Some in Hu as (h & _ & Hu).
  destruct (foldl _ _ segs) as [[normalized depth] trailing].
  destruct (finish_url _) as [u'|] eqn:Ef; [|done]. injection Hu as <-.
  eapply finish_ok; [|exact Ef]. apply foldl_push_ok, segments_ok_root.
Qed.

Lemma as_bytes_ne s : s ≠ [] → as_bytes s ≠ [].
Proof. destruct s as [|c s]; [done|]. intros _. unfold as_bytes, utf8_of_char. simpl. by repeat case_match. Qed.

Lemma utf16_ne s : s ≠ [] → utf16le_bytes s ≠ [].
Proof. destruct s as [|c s]; [done|]. intros _. unfold utf16le_bytes, utf16_of_char. simpl. by case_match. Qed.

Lemma windows_opaque_wf path : path ≠ [] → well_formed (windows_opaque_path_uri path).
Proof. intros Hne. apply from_opaque_wf. by apply utf16_ne. Qed.

Lemma parse_posix_wf path u : parse_posix_path path = Some u → well_formed u.
Proof.
  unfold parse_posix_path. intros Hu. apply bind_Some in Hu as (rest & ->%strip_prefix_Some & Hu).
  case_bool_decide; [|by eapply from_segments_wf]. injection Hu as <-. by apply from_opaque_wf, (as_bytes_ne (SLASH :: rest)).
Qed.

Lemma parse_unnormalized_wf path u : parse_unnormalized_windows_path path = Some u → well_formed u.
Proof.
  unfold parse_unnormalized_windows_path. intros Hu.
  destruct (_ || _) eqn:Eo; [injection Hu as <-; apply windows_opaque_wf; by intros ->|].
  destruct path as [|first [|second rest]]; [done..|].
  destruct (is_ascii_alphabetic first && _ && _); [by eapply from_segments_wf|].
  destruct (_ && _); [|done]. destruct (split_by _ rest) as [|host [|share components]]; [done..|].
  do 2 (case_bool_decide; [done|]).
  destruct (is_dots host || is_dots share); [injection Hu as <-; by apply windows_opaque_wf|].
  destruct (path_uri_from_segments _ _ _) eqn:Ef; [|injection Hu as <-; by apply windows_opaque_wf].
  apply from_segments_wf in Ef. destruct (match url_host u0 with Some _ => _ | None => _ end);
    injection Hu as <-; [done|by apply windows_opaque_wf].
Qed.

Lemma device_path_ne path normalized : normalize_windows_device_path path = Some normalized → path ≠ [].
Proof. by intros Hn ->. Qed.

Lemma parse_windows_wf path u : parse_windows_path path = Some u → well_formed u.
Proof.
  unfold parse_windows_path. destruct (normalize_windows_device_path path) as [normalized|] eqn:En;
    [|apply parse_unnormalized_wf].
  apply device_path_ne in En. pose proof (windows_opaque_wf path En) as Hw.
  match goal with |- (if ?b then _ else _) = _ → _ => destruct b end; [by intros [= <-]|].
  intros [= <-]. destruct (parse_unnormalized_windows_path normalized) as [uri|] eqn:Ep; [|done].
  case_match; [by eapply parse_unnormalized_wf|done].
Qed.

Lemma from_absolute_ne path c u : from_absolute_native_path path c = Some u → path ≠ [].
Proof. intros Hu ->. by destruct c. Qed.

Lemma from_absolute_wf path c u : from_absolute_native_path path c = Some u → well_formed u.
Proof.
  intros Hu. pose proof (from_absolute_ne _ _ _ Hu) as Hne. unfold from_absolute_native_path in Hu.
  apply bind_Some in Hu as (uri & Huri & Hu).
  assert (well_formed uri) as Hw by (destruct c; [by eapply parse_posix_wf|by eapply parse_windows_wf]).
  destruct (_ && _); injection Hu as <-; [done|].
  destruct c; [by apply from_opaque_wf, as_bytes_ne|by apply windows_opaque_wf].
Qed.

Lemma join_step_ok anchor st component : segments_ok st.1 → segments_ok (join_step anchor st component).1.
Proof.
  destruct st as [segs depth]. cbn [fst]. intros Hs. unfold join_step.
  destruct (_ || _); [done|]. case_bool_decide; [|by apply push_segment_ok].
  case_match; [by apply pop_segment_ok|done].
Qed.

Lemma join_steps_ok anchor l st : segments_ok st.1 → segments_ok (foldl (join_step anchor) st l).1.
Proof. revert st. induction l as [|c l IH]; intros st Hs; simpl; [done|]. by apply IH, join_step_ok. Qed.

Lemma pop_to_anchor_ok anchor st : segments_ok st.1 → segments_ok (pop_to_anchor anchor st).1.
Proof.
  destruct st as [segs depth]. cbn. intros Hs. induction (depth - anchor) as [|n IH]; [done|].
  simpl. by apply pop_segment_ok.
Qed.

Lemma join_relative_wf u c path u' : well_formed u → join_relative u c path = Ok u' → well_formed u'.
Proof.
  intros Hw. unfold join_relative.
  match goal with |- context [foldl _ ?st _] => set (st0 := st) end.
  assert (segments_ok st0.1) as Hst.
  { unfold st0. assert (segments_ok (pop_if_empty (url_segments u))) as Hp
      by (apply pop_if_empty_ok; split; apply Hw).
    case_match; [by apply pop_to_anchor_ok|done]. }
  pose proof (join_steps_ok (anchor_depth c) (path_segments c path) st0 Hst) as Hs.
  destruct (foldl _ st0 _) as [segs depth]. by apply finish_ok.
Qed.

Lemma uri_join_wf u path u' : well_formed u → uri_join u path = Ok u' → well_formed u'.
Proof.
  intros Hw. unfold uri_join. case_bool_decide; [done|]. case_bool_decide; [by intros [= <-]|].
  destruct (infer_path_convention u) as [c|]; [|done].
  destruct (from_absolute_native_path path c) eqn:Ea; [intros [= <-]; by eapply from_absolute_wf|].
  destruct (_ && _); [done|]. destruct (is_opaque u); [done|]. by apply join_relative_wf.
Qed.

Lemma parent_shape u p :
  parent u = Some p →
  is_opaque u = false ∧ p = mkUrl (url_host u) (pop_segment (pop_if_empty (url_segments u))) ∧
  ∃ c, infer_path_convention u = Some c ∧ anchor_depth c < length (non_empty_segments u).
Proof.
  unfold parent. destruct (is_opaque u); [done|]. intros Hp. apply bind_Some in Hp as (c & Hc & Hp).
  destruct (_ <=? _) eqn:El; [done|]. apply Nat.leb_gt in El. injection Hp as <-. eauto.
Qed.

Lemma parent_wf u p : well_formed u → parent u = Some p → well_formed p.
Proof.
  intros Hw (Ho & -> & c & Hc & Hd)%parent_shape.
  assert (segments_ok (pop_segment (pop_if_empty (url_segments u)))) as [Hne Hs]
    by (apply pop_segment_ok, pop_if_empty_ok; split; apply Hw).
  assert (pop_segment (pop_if_empty (url_segments u)) = [[]] ∨
          pop_segment (pop_if_empty (url_segments u)) `prefix_of` url_segments u) as Hsub.
  { destruct (pop_segment_sub (pop_if_empty (url_segments u))) as [->|Hp]; [by left|right].
    etrans; [exact Hp|apply pop_if_empty_sub]. }
  split; cbn [url_host url_segments]; [done|done| |apply Hw|].
  - right. destruct (wf_nul u Hw) as [?|Hn]; [congruence|]. destruct Hsub as [->|[k Hk]].
    + repeat constructor. rewrite decode_nil. set_solver.
    + rewrite Hk in Hn. by apply Forall_app in Hn as [].
  - intros Hh. pose proof (wf_drive u Hw Hh) as Hup. destruct Hsub as [->|[k Hk]]; [done|].
    rewrite Hk in Hup. by eapply upper_drive_prefix.
Qed.
End Preservation.

(** * Containment *)

Section Containment.
Context `{!UrlCodec, !UrlCodecLaws}.
Implicit Types (u b : Url) (c : PathConvention).

Lemma segments_match_refl c s : segments_match c s s = true.
Proof.
  destruct c; cbn; [by apply bool_decide_eq_true|]. apply orb_true_iff. left. by apply bool_decide_eq_true.
Qed.

Lemma start_with_prefix path base c : base `prefix_of` path → native_path_segments_start_with path base c = true.
Proof.
  intros [k ->]. unfold native_path_segments_start_with. apply andb_true_iff. split.
  - apply Nat.leb_le. rewrite length_app. lia.
  - induction base as [|s base IH]; [by destruct k|]. simpl. by rewrite segments_match_refl, IH.
Qed.

Lemma start_with_length path base c : native_path_segments_start_with path base c = true → length base ≤ length path.
Proof. unfold native_path_segments_start_with. by intros [?%Nat.leb_le _]%andb_true_iff. Qed.

Lemma start_with_posix path base :
  native_path_segments_start_with path base Posix = true ↔
  decode_binary <$> base `prefix_of` decode_binary <$> path.
Proof.
  unfold native_path_segments_start_with. revert path. induction base as [|s base IH]; intros path.
  - split; [intros _; apply prefix_nil|]. intros _. by destruct path.
  - destruct path as [|t path]; simpl.
    + split; [done|]. by intros ?%prefix_nil_not.
    + specialize (IH path). rewrite andb_true_iff in IH |- *. rewrite andb_true_iff, bool_decide_eq_true.
      split.
      * intros (Hl & Ht & Hf). rewrite Ht. apply prefix_cons. by apply IH.
      * intros Hp. pose proof (prefix_cons_inv_1 _ _ _ _ Hp) as Ht. apply prefix_cons_inv_2, IH in Hp as []. auto.
Qed.

Definition exposes_segments u c : Prop := is_Some (containment_path_segments u c).

Lemma containment_Some u c l : containment_path_segments u c = Some l → l = non_empty_segments u.
Proof. unfold containment_path_segments. case_match; [done|]. by intros [= <-]. Qed.

Lemma lexical_depth_spec u d :
  lexical_depth u = Some d ↔
  is_opaque u = false ∧ ∃ c, infer_path_convention u = Some c ∧ exposes_segments u c ∧ d = length (non_empty_segments u).
Proof.
  unfold lexical_depth, exposes_segments. destruct (is_opaque u); [split; [done|by intros [? _]]|].
  destruct (infer_path_convention u) as [c|]; [|split; [done|by intros (_ & ? & ? & _)]]. cbn.
  destruct (containment_path_segments u c) as [l|] eqn:E; cbn.
  - pose proof (containment_Some _ _ _ E) as ->. split.
    + intros [= <-]. split; [done|]. exists c. split; [done|]. rewrite E. eauto.
    + intros (_ & c' & [= <-] & _ & ->). done.
  - split; [done|]. intros (_ & c' & [= <-] & Hs & _). rewrite E in Hs. by destruct Hs.
Qed.

Lemma exposes_prefix u b c :
  exposes_segments u c → non_empty_segments b `prefix_of` non_empty_segments u → exposes_segments b c.
Proof.
  unfold exposes_segments, containment_path_segments. intros Hu [k Hk]. rewrite Hk, existsb_app in Hu.
  destruct (existsb _ (non_empty_segments b)); [by destruct Hu|eauto].
Qed.

(** A URI is below the URIs its segments begin with. *)
Lemma prefix_starts_with u b :
  is_opaque u = false → is_opaque b = false → url_host u = url_host b →
  infer_path_convention u = infer_path_convention b → is_Some (lexical_depth u) →
  non_empty_segments b `prefix_of` non_empty_segments u → uri_starts_with u b = true.
Proof.
  intros Hou Hob Hh Hc [d (_ & c & Hu & Hs & _)%lexical_depth_spec] Hp. unfold uri_starts_with.
  destruct (uri_eqb u b); [done|]. rewrite Hou, Hob. cbn [orb]. rewrite bool_decide_true by done. cbn [negb].
  rewrite bool_decide_true by done. cbn [negb]. rewrite Hu. cbn [default from_option id].
  pose proof (exposes_prefix u b c Hs Hp) as Hb. destruct Hs as [l Hl], Hb as [k Hk]. rewrite Hl, Hk.
  apply containment_Some in Hl as ->, Hk as ->. by apply start_with_prefix.
Qed.

(** ** POSIX *)

Definition posix u : Prop := infer_path_convention u = Some Posix ∧ is_opaque u = false.

Lemma posix_identity u : posix u → windows_identity_path_bytes u = None.
Proof. intros [Hc _]. unfold windows_identity_path_bytes. by rewrite Hc. Qed.

Lemma posix_host u : posix u → url_host u = None.
Proof.
  intros [Hc Ho]. unfold infer_path_convention in Hc. unfold is_opaque in Ho. apply bool_decide_eq_false in Ho.
  apply eq_None_not_Some in Ho. rewrite Ho in Hc. case_bool_decide as Hh; [done|]. by apply eq_None_not_Some.
Qed.

Definition decoded u : list (list N) := decode_binary <$> non_empty_segments u.

Lemma starts_with_posix u b :
  posix u → posix b →
  uri_starts_with u b = true ↔
  u = b ∨ is_Some (lexical_depth u) ∧ is_Some (lexical_depth b) ∧ decoded b `prefix_of` decoded u.
Proof.
  intros Hu Hb. unfold uri_starts_with, uri_eqb. rewrite (posix_identity u Hu). case_bool_decide as He; [split; [by left|done]|].
  pose proof (posix_host u Hu) as Hhu. pose proof (posix_host b Hb) as Hhb. destruct Hu as [Hcu Hou], Hb as [Hcb Hob].
  rewrite Hou, Hob, Hhu, Hhb, Hcu, Hcb. rewrite !bool_decide_true by done. cbn [orb negb default from_option id].
  unfold lexical_depth. rewrite Hou, Hob, Hcu, Hcb. cbn [mbind option_bind].
  destruct (containment_path_segments u Posix) as [l|] eqn:El; [|split; [done|by intros [?|([? [=]] & _)]]].
  destruct (containment_path_segments b Posix) as [k|] eqn:Ek; [|split; [done|by intros [?|(_ & [? [=]] & _)]]].
  apply containment_Some in El as ->, Ek as ->. rewrite start_with_posix. cbn.
  split; [intros Hp; right; eauto|]. intros [->|(_ & _ & Hp)]; done.
Qed.

Lemma starts_with_depth u b du db :
  posix u → posix b → uri_starts_with u b = true → lexical_depth u = Some du → lexical_depth b = Some db → db ≤ du.
Proof.
  intros Hu Hb Hs Hdu Hdb. apply starts_with_posix in Hs as [->|(_ & _ & Hp)]; [|..|done|done]; [simplify_eq; lia|].
  apply lexical_depth_spec in Hdu as (_ & _ & _ & _ & ->), Hdb as (_ & _ & _ & _ & ->).
  apply prefix_length in Hp. unfold decoded in Hp. by rewrite !length_fmap in Hp.
Qed.
End Containment.

(** * Parents *)

Section Parents.
Context `{!UrlCodec, !UrlCodecLaws}.
Implicit Types (u p : Url).

Lemma parent_segments u p :
  parent u = Some p →
  non_empty_segments p `prefix_of` non_empty_segments u ∧
  length (non_empty_segments u) ≤ S (length (non_empty_segments p)).
Proof.
  intros (_ & -> & _)%parent_shape. unfold non_empty_segments. cbn [url_segments].
  rewrite <- (pop_if_empty_filter (url_segments u)). split; [apply pop_segment_prefix|].
  generalize (pop_if_empty (url_segments u)) as segs. intros segs. unfold pop_segment.
  destruct segs as [|x [|y segs]]; [simpl; lia| |].
  - rewrite filter_cons. case_decide; simpl; lia.
  - destruct (list_snoc_inv (x :: y :: segs)) as [|(l & z & ->)]; [done|].
    rewrite removelast_snoc, filter_app, length_app, filter_cons. case_decide; simpl; lia.
Qed.

Lemma opaque_prefix u segs :
  well_formed u → is_opaque u = false → segs `prefix_of` url_segments u → is_opaque (mkUrl (url_host u) segs) = false.
Proof.
  intros Hw Ho [k Hk]. apply not_true_iff_false. intros (e & [= _ ->] & _)%opaque_shape.
  destruct (wf_nul u Hw) as [?|Hn]; [congruence|]. rewrite Hk in Hn. inversion Hn as [|? ? H1]; subst.
  rewrite decode_escaped_nul in H1. set_solver.
Qed.

Lemma parent_not_opaque u p : well_formed u → parent u = Some p → is_opaque p = false.
Proof.
  intros Hw (Ho & -> & _)%parent_shape. destruct (pop_segment_sub (pop_if_empty (url_segments u))) as [->|Hp].
  - apply not_true_iff_false. by intros (e & [=] & _)%opaque_shape.
  - apply opaque_prefix; [done..|]. etrans; [exact Hp|apply pop_if_empty_sub].
Qed.

Lemma infer_not_opaque u :
  is_opaque u = false →
  infer_path_convention u =
    if bool_decide (is_Some (url_host u)) then Some Windows
    else match head (non_empty_segments u) with
         | Some segment => if is_windows_drive_uri_segment segment then Some Windows else Some Posix
         | None => Some Posix
         end.
Proof.
  unfold is_opaque, infer_path_convention. rewrite bool_decide_eq_false. by intros ->%eq_None_not_Some.
Qed.

Lemma parent_convention u p :
  well_formed u → parent u = Some p → infer_path_convention p = infer_path_convention u.
Proof.
  intros Hw Hp. pose proof (parent_not_opaque u p Hw Hp) as Hop. pose proof (parent_segments u p Hp) as [[k Hk] Hl].
  apply parent_shape in Hp as (Ho & -> & c & Hc & Hd). rewrite infer_not_opaque in Hc by done.
  rewrite !infer_not_opaque by done. cbn [url_host].
  case_bool_decide as Hh; [done|]. set (p := mkUrl _ _) in *. destruct (non_empty_segments p) as [|s l] eqn:Es.
  - rewrite Hk in Hc, Hd, Hl |- *. cbn [app head] in *. destruct k as [|s k]; [done|]. cbn in *.
    destruct (is_windows_drive_uri_segment s); [injection Hc as <-; simpl in Hd; lia|done].
  - by rewrite Hk.
Qed.

(** The parent is a URI of the same kind that the URI is below. *)
Lemma parent_below u p :
  well_formed u → is_Some (lexical_depth u) → parent u = Some p →
  uri_starts_with u p = true ∧ is_Some (lexical_depth p) ∧ infer_path_convention p = infer_path_convention u ∧
  url_host p = url_host u.
Proof.
  intros Hw Hd Hp. pose proof (parent_not_opaque u p Hw Hp) as Hop. pose proof (parent_convention u p Hw Hp) as Hc.
  pose proof (parent_segments u p Hp) as [Hpre _].
  assert (url_host p = url_host u) as Hh by (by apply parent_shape in Hp as (_ & -> & _)).
  assert (is_opaque u = false) as Ho by (by apply parent_shape in Hp as (? & _)).
  split_and!; [by apply prefix_starts_with| |done|done].
  destruct Hd as [d (_ & c & Hcu & Hs & _)%lexical_depth_spec]. exists (length (non_empty_segments p)).
  apply lexical_depth_spec. split; [done|]. exists c. split_and!; [congruence|by eapply exposes_prefix|done].
Qed.

(** Each parent is closer to the root. *)
Definition steps_up u : nat := length (url_segments u) + (if decide (non_empty_segments u = []) then 0 else 1) - 1.

Lemma parent_steps u p : well_formed u → parent u = Some p → steps_up p < steps_up u.
Proof.
  intros Hw Hp. pose proof (parent_shape u p Hp) as (_ & -> & c & _ & Hd). unfold steps_up. cbn [url_segments].
  rewrite (decide_False (P := non_empty_segments u = [])) by (intros E; rewrite E in Hd; simpl in Hd; lia).
  pose proof (pop_if_empty_length (url_segments u)) as Hl.
  pose proof (pop_if_empty_ne (url_segments u) (wf_segments u Hw)) as Hne.
  assert (1 ≤ length (url_segments u)) by (pose proof (wf_segments u Hw); destruct (url_segments u); [done|simpl; lia]).
  destruct (pop_if_empty (url_segments u)) as [|x [|y segs]]; [done| |].
  - cbn [pop_segment length]. rewrite decide_True by done. lia.
  - destruct (pop_segment_length (x :: y :: segs) ltac:(done)) as [Hs|Hs]; [|done]. case_decide; lia.
Qed.

Lemma ancestors_fuel_last fuel u :
  well_formed u → steps_up u ≤ fuel →
  ∃ r, last (ancestors_fuel fuel u) = Some r ∧ parent r = None.
Proof.
  revert u. induction fuel as [|fuel IH]; intros u Hw Hf.
  - destruct (parent u) as [p|] eqn:Hp; [pose proof (parent_steps u p Hw Hp); lia|]. exists u. simpl. by rewrite Hp.
  - cbn [ancestors_fuel]. destruct (parent u) as [p|] eqn:Hp; [|by exists u].
    destruct (IH p) as (r & Hr & Hn); [by eapply parent_wf|pose proof (parent_steps u p Hw Hp); lia|].
    exists r. split; [|done]. destruct (ancestors_fuel fuel p) eqn:E; [done|]. by rewrite last_cons_cons.
Qed.

Lemma steps_up_bound u : well_formed u → steps_up u ≤ length (url_segments u).
Proof. intros Hw. unfold steps_up. case_decide; lia. Qed.

Lemma ancestors_fuel_below fuel u a :
  well_formed u → is_Some (lexical_depth u) → a ∈ ancestors_fuel fuel u →
  is_opaque a = false ∧ well_formed a ∧ is_Some (lexical_depth a) ∧ url_host a = url_host u ∧
  infer_path_convention a = infer_path_convention u ∧ non_empty_segments a `prefix_of` non_empty_segments u.
Proof.
  revert u. induction fuel as [|fuel IH]; intros u Hw Hd Ha.
  - cbn [ancestors_fuel] in Ha. apply elem_of_cons in Ha as [->|[]%not_elem_of_nil].
    split_and!; try done. by destruct Hd as [d (? & _)%lexical_depth_spec].
  - cbn [ancestors_fuel] in Ha. apply elem_of_cons in Ha as [->|Ha].
    { split_and!; try done. by destruct Hd as [d (? & _)%lexical_depth_spec]. }
    destruct (parent u) as [p|] eqn:Hp; [|by apply not_elem_of_nil in Ha].
    destruct (parent_below u p Hw Hd Hp) as (_ & Hdp & Hcp & Hhp).
    destruct (IH p) as (Ho & Hwa & Hda & Hha & Hca & Hpa); [by eapply parent_wf|done|done|].
    split_and!; [done|done|done|congruence|congruence|]. etrans; [exact Hpa|]. by apply parent_segments.
Qed.
End Parents.

(** * Joining on POSIX *)

Section Joining.
Context `{!UrlCodec, !UrlCodecLaws}.
Implicit Types (u : Url) (segs : list str).

(** Reference: the components one after the other, never above the root. *)
Definition resolve_component (acc : list str) (component : str) : list str :=
  if decide (component = [] ∨ component = lit ".") then acc
  else if decide (component = lit "..") then removelast acc
  else acc ++ [encode_segment component].
Definition resolve_components (base components : list str) : list str := foldl resolve_component base components.

(** No empty segment but that of the root. *)
Definition clean segs : Prop := segs = [[]] ∨ segs ≠ [] ∧ Forall (λ s, s ≠ []) segs.

Definition scalar_text (s : str) : Prop := Forall url_char s ∧ 0%N ∉ s.

Lemma filter_all (l : list str) : Forall (λ s, s ≠ []) l → filter (λ s : str, s ≠ []) l = l.
Proof. induction 1 as [|x l Hx _ IH]; [done|]. rewrite filter_cons_True by done. by rewrite IH. Qed.

Lemma utf8_nul c : 0%N ∈ utf8_of_char c → c = 0%N.
Proof.
  assert (∀ a b, a ≠ 0 → 0 ≠ a + b)%N as Hadd by lia.
  unfold utf8_of_char. repeat (case_match; [|]); rewrite ?elem_of_cons, ?elem_of_nil.
  - naive_solver.
  - intros [E|[E|[]]]; by apply Hadd in E.
  - intros [E|[E|[E|[]]]]; by apply Hadd in E.
  - intros [E|[E|[E|[E|[]]]]]; by apply Hadd in E.
Qed.

Lemma as_bytes_nul s : 0%N ∉ s → 0%N ∉ as_bytes s.
Proof. unfold as_bytes. rewrite list_elem_of_bind. intros Hs (c & Hc%utf8_nul & Hin). by subst. Qed.

Lemma encode_ne s : scalar_text s → s ≠ [] → encode_segment s ≠ [].
Proof.
  intros [Hs _] Hne E. apply (as_bytes_ne s Hne). rewrite <- encode_decode by done. by rewrite E, decode_nil.
Qed.

Lemma encode_nul s : scalar_text s → 0%N ∉ decode_binary (encode_segment s).
Proof. intros [Hs Hn]. rewrite encode_decode by done. by apply as_bytes_nul. Qed.

Definition no_nul segs : Prop := Forall (λ s, 0%N ∉ decode_binary s) segs.

Lemma no_nul_root : no_nul [[]].
Proof. repeat constructor. rewrite decode_nil. set_solver. Qed.

Lemma push_clean s segs :
  clean segs → no_nul segs → scalar_text s → s ≠ [] →
  clean (push_segment s segs) ∧ no_nul (push_segment s segs) ∧
  filter (λ s : str, s ≠ []) (push_segment s segs) = filter (λ s, s ≠ []) segs ++ [encode_segment s].
Proof.
  intros Hc Hn Hs Hne. pose proof (encode_ne s Hs Hne) as He. pose proof (encode_nul s Hs) as Hz. unfold push_segment.
  case_bool_decide as E.
  - subst. split_and!; [right; by repeat constructor|by repeat constructor|].
    by rewrite filter_cons_True.
  - destruct Hc as [->|[Hne' Hf]]; [done|]. split_and!.
    + right. split; [by destruct segs|]. rewrite Forall_app, Forall_singleton. done.
    + unfold no_nul. rewrite Forall_app, Forall_singleton. done.
    + rewrite filter_app. by rewrite filter_cons_True.
Qed.

Lemma pop_clean segs :
  clean segs → no_nul segs → filter (λ s : str, s ≠ []) segs ≠ [] →
  clean (pop_segment segs) ∧ no_nul (pop_segment segs) ∧
  filter (λ s : str, s ≠ []) (pop_segment segs) = removelast (filter (λ s, s ≠ []) segs).
Proof.
  intros Hc Hn Hf. destruct Hc as [->|[Hne Hall]]; [done|]. rewrite (filter_all segs) by done.
  unfold pop_segment. destruct segs as [|x [|y segs]]; [done| |].
  - split_and!; [by left|apply no_nul_root|done].
  - destruct (list_snoc_inv (x :: y :: segs)) as [|(l & z & E)]; [done|]. rewrite E in *. rewrite removelast_snoc.
    unfold no_nul in *. apply Forall_app in Hall as [Hl _], Hn as [Hnl _]. split_and!; [|done|by apply filter_all].
    right. split; [|done]. intros ->. by apply (f_equal length) in E.
Qed.

Lemma join_fold segs depth components :
  clean segs → no_nul segs → depth = length (filter (λ s : str, s ≠ []) segs) →
  Forall scalar_text components →
  let st := foldl (join_step 0) (segs, depth) components in
  clean st.1 ∧ no_nul st.1 ∧
  filter (λ s : str, s ≠ []) st.1 = resolve_components (filter (λ s, s ≠ []) segs) components.
Proof.
  intros Hc Hn Hd Hs. revert segs depth Hc Hn Hd.
  induction Hs as [|component components Hco Hs IH]; intros segs depth Hc Hn Hd; [done|].
  cbn [foldl resolve_components]. unfold join_step at 2 4 6. unfold resolve_component at 2.
  case_bool_decide as E1; cbn [orb].
  { rewrite decide_True by auto. by apply IH. }
  case_bool_decide as E2; cbn [orb].
  { rewrite decide_True by auto. by apply IH. }
  rewrite decide_False by tauto. case_bool_decide as E3; [rewrite decide_True by done|rewrite decide_False by done].
  - destruct (0 <? depth) eqn:El.
    + apply Nat.ltb_lt in El. destruct (pop_clean segs Hc Hn) as (Hc' & Hn' & Hf').
      { intros E. rewrite E in Hd. simpl in Hd. lia. }
      rewrite <- Hf'. apply IH; [done|done|]. rewrite Hf', Hd.
      destruct (list_snoc_inv (filter (λ s : str, s ≠ []) segs)) as [->|(l & x & ->)]; [done|].
      rewrite removelast_snoc, length_app. simpl. lia.
    + apply Nat.ltb_ge in El. destruct (filter (λ s : str, s ≠ []) segs) as [|x l] eqn:Ef; [|simpl in Hd; lia].
      replace (removelast (@nil str)) with (filter (λ s : str, s ≠ []) segs) by done. apply IH; [done|done|by rewrite Ef].
  - destruct (push_clean component segs Hc Hn Hco E1) as (Hc' & Hn' & Hf'). rewrite <- Hf'.
    apply IH; [done|done|]. rewrite Hf', length_app, Hd. simpl. lia.
Qed.

Lemma upper_drive_filter segs :
  filter (λ s : str, s ≠ []) (upper_drive segs) = upper_drive (filter (λ s, s ≠ []) segs).
Proof.
  induction segs as [|s segs IH]; [done|]. destruct s as [|c t].
  - cbn [upper_drive]. rewrite !filter_cons, !(decide_False (P := ([] : str) ≠ [])) by (by intros Hn). exact IH.
  - rewrite (filter_cons_True (λ s : str, s ≠ []) (c :: t)) by done. cbn [upper_drive].
    destruct (negb _); by rewrite filter_cons_True.
Qed.

Lemma split_by_elem (p : N → bool) s w c : w ∈ split_by p s → c ∈ w → c ∈ s.
Proof.
  revert w. induction s as [|d s IH]; intros w; simpl; [by intros ->%list_elem_of_singleton|]. destruct (p d).
  - rewrite elem_of_cons. intros [->|Hw] Hc; [by apply not_elem_of_nil in Hc|]. right. eauto.
  - destruct (split_by p s) as [|v vs]; rewrite !elem_of_cons.
    + intros [->|Hw]; [by intros ->%list_elem_of_singleton; left|by apply not_elem_of_nil in Hw].
    + intros [->|Hw] Hc; [|right; apply (IH w); [by right|done]].
      apply elem_of_cons in Hc as [->|Hc]; [by left|right]. apply (IH v); [by left|done].
Qed.

Lemma scalar_pieces (p : N → bool) s : scalar_text s → Forall scalar_text (split_by p s).
Proof.
  intros [Hs Hn]. rewrite Forall_forall in Hs. apply Forall_forall. intros w Hw. split.
  - apply Forall_forall. intros c Hc. by eapply Hs, split_by_elem.
  - intros Hc. by eapply Hn, split_by_elem.
Qed.

Lemma posix_join_spec u path :
  well_formed u → posix u → clean (pop_if_empty (url_segments u)) → scalar_text path → path ≠ [] →
  starts_with [SLASH] path = false →
  ∃ u', uri_join u path = Ok u' ∧ url_host u' = None ∧
        non_empty_segments u' = upper_drive (resolve_components (non_empty_segments u) (path_segments Posix path)).
Proof.
  intros Hw Hp Hcl Hsc Hne Hst. pose proof (posix_host u Hp) as Hh. destruct Hp as [Hc Ho].
  unfold uri_join. rewrite (bool_decide_false (0%N ∈ path)) by apply Hsc. rewrite bool_decide_false by done. rewrite Hc.
  assert (from_absolute_native_path path Posix = None) as ->.
  { unfold from_absolute_native_path, parse_posix_path. unfold starts_with in Hst.
    by destruct (strip_prefix [SLASH] path). }
  cbn [is_drive_relative andb]. rewrite Ho. unfold join_relative. rewrite bool_decide_false by done. cbn [andb anchor_depth].
  assert (no_nul (pop_if_empty (url_segments u))) as Hn.
  { destruct (wf_nul u Hw) as [?|Hn]; [congruence|]. destruct (pop_if_empty_sub (url_segments u)) as [k Hk].
    rewrite Hk in Hn. by apply Forall_app in Hn as []. }
  pose proof (join_fold (pop_if_empty (url_segments u)) (length (non_empty_segments u)) (path_segments Posix path)
    Hcl Hn ltac:(by rewrite pop_if_empty_filter) (scalar_pieces _ _ Hsc)) as (Hc' & Hn' & Hf').
  destruct (foldl _ _ _) as [segs depth]. cbn [fst] in *. unfold finish_url, validate_file_url. rewrite Hh.
  rewrite (bool_decide_false (0%N ∈ _)) by (by apply path_no_nul). cbn [andb res_bind].
  exists (mkUrl None (upper_drive segs)). split; [done|]. split; [done|].
  unfold non_empty_segments. cbn [url_segments].
  by rewrite upper_drive_filter, Hf', pop_if_empty_filter.
Qed.
End Joining.

(** * A codec *)

Definition hex_value (c : N) : option N :=
  if is_ascii_digit c then Some (c - 48)%N
  else if N.leb 65 c && N.leb c 70 then Some (c - 55)%N
  else if N.leb 97 c && N.leb c 102 then Some (c - 87)%N
  else None.

Fixpoint pct_decode (s : str) : list N :=
  match s with
  | [] => []
  | c :: t =>
      if N.eqb c 37 then
        match t with
        | a :: ((b :: t') as _t) =>
            match hex_value a, hex_value b with
            | Some x, Some y => (16 * x + y)%N :: pct_decode t'
            | _, _ => 37%N :: pct_decode t
            end
        | _ => 37%N :: pct_decode t
        end
      else utf8_of_char c ++ pct_decode t
  end.

Definition hex_digit (n : N) : N := if N.ltb n 10 then (48 + n)%N else (55 + n)%N.
Definition escape (b : N) : str := [37; hex_digit (b / 16); hex_digit (b mod 16)]%N.
Definition plain_char (c : N) : bool := is_ascii_alphanumeric c || bool_decide (c ∈ lit "-._~:").
Definition pct_encode (s : str) : str := s ≫= λ c, if plain_char c then [c] else as_bytes [c] ≫= escape.

#[export] Instance pct_codec : UrlCodec := {|
  decode_binary := pct_decode;
  url_decode := λ s, if forallb (λ b, N.ltb b 128) (pct_decode s) then Some (pct_decode s) else None;
  encode_segment := pct_encode;
  b64_encode := λ bytes, (λ b, b + 256)%N <$> bytes;
  b64_decode := λ s, Some ((λ c, c - 256)%N <$> s);
  parse_host := Some |}.

Lemma pct_decode_slash a b : pct_decode (a ++ SLASH :: b) = pct_decode a ++ SLASH :: pct_decode b.
Proof.
  induction a as [a IH] using (induction_ltof1 _ length). unfold ltof in IH. destruct a as [|c a]; [done|].
  assert (∀ l, pct_decode (SLASH :: l) = SLASH :: pct_decode l) as Hs by done.
  cbn [app pct_decode]. destruct (N.eqb c 37) eqn:Ec.
  - destruct a as [|x [|y a]].
    + cbn [app]. destruct b as [|y b]; [done|]. cbn [hex_value]. by rewrite Hs.
    + cbn [app]. change (hex_value SLASH) with (@None N). destruct (hex_value x);
        rewrite (IH [x] ltac:(simpl; lia) : pct_decode (x :: SLASH :: b) = _); done.
    + cbn [app]. specialize (IH (x :: y :: a)) as IH1. pose proof (IH a ltac:(simpl; lia)) as IH2.
      cbn [app] in IH1. destruct (hex_value x) as [hx|], (hex_value y) as [hy|];
        rewrite ?IH2, ?IH1 by (simpl; lia); done.
  - rewrite (IH a ltac:(simpl; lia)). by rewrite (assoc_L (++)).
Qed.

Lemma hex_digit_value n : (n < 16)%N → hex_value (hex_digit n) = Some n.
Proof.
  intros Hn. assert (n ∈ (N.of_nat <$> seq 0 16)) as Hin.
  { apply list_elem_of_fmap. exists (N.to_nat n). split; [lia|]. apply elem_of_seq. lia. }
  revert Hin. generalize n. apply Forall_forall. vm_compute. repeat constructor.
Qed.

Lemma pct_decode_escape b s : (b < 256)%N → pct_decode (escape b ++ s) = b :: pct_decode s.
Proof.
  intros Hb. unfold escape. cbn [app pct_decode]. rewrite N.eqb_refl, !hex_digit_value.
  - f_equal. pose proof (N.div_mod b 16). lia.
  - apply N.mod_lt. lia.
  - apply N.Div0.div_lt_upper_bound. lia.
Qed.

Lemma pct_decode_escapes bytes s :
  Forall (λ b, b < 256)%N bytes → pct_decode ((bytes ≫= escape) ++ s) = bytes ++ pct_decode s.
Proof.
  induction 1 as [|b bytes Hb _ IH]; [done|]. rewrite bind_cons, <- (assoc_L (++)), pct_decode_escape by done.
  by rewrite IH.
Qed.

Lemma utf8_bytes_bound c : (c < 1114112)%N → Forall (λ b, b < 256)%N (utf8_of_char c).
Proof.
  intros Hc. assert (∀ x, x mod 64 < 64)%N as Hm by (intros; apply N.mod_lt; lia).
  unfold utf8_of_char. destruct (N.ltb c 128) eqn:E1; [apply N.ltb_lt in E1; repeat constructor; lia|].
  assert (∀ a b x, a + x < 256 → b < x → a + b < 256)%N as Hadd by lia.
  destruct (N.ltb c 2048) eqn:E2; [|destruct (N.ltb c 65536) eqn:E3]; apply N.ltb_lt in E2 || idtac;
    try apply N.ltb_lt in E3; repeat constructor;
    try (apply (Hadd _ _ 64%N); [lia|apply Hm]).
  - apply (Hadd _ _ 32%N); [lia|]. apply N.Div0.div_lt_upper_bound. lia.
  - apply (Hadd _ _ 16%N); [lia|]. apply N.Div0.div_lt_upper_bound. lia.
  - apply (Hadd _ _ 8%N); [lia|]. apply N.Div0.div_lt_upper_bound. lia.
Qed.

Lemma plain_char_spec c : plain_char c = true → (c < 128)%N ∧ c ≠ 37%N ∧ c ≠ SLASH.
Proof.
  unfold plain_char. rewrite orb_true_iff, bool_decide_eq_true. intros [Ha|Hin].
  - unfold is_ascii_alphanumeric, is_ascii_alphabetic, is_ascii_upper, is_ascii_lower, is_ascii_digit in Ha.
    rewrite !orb_true_iff, !andb_true_iff, !N.leb_le in Ha. unfold SLASH. lia.
  - revert c Hin. apply Forall_forall. vm_compute. repeat constructor; done.
Qed.

Lemma pct_encode_decode s : Forall url_char s → pct_decode (pct_encode s) = as_bytes s.
Proof.
  induction 1 as [|c s Hc _ IH]; [done|]. unfold pct_encode, as_bytes in *. rewrite !bind_cons.
  destruct (plain_char c) eqn:Ep.
  - destruct (plain_char_spec c Ep) as (H1 & H2 & _). cbn [app pct_decode]. rewrite (proj2 (N.eqb_neq c 37)) by done.
    by rewrite IH.
  - change ([c] ≫= utf8_of_char) with (utf8_of_char c ++ []). rewrite app_nil_r.
    destruct Hc as [Hc _]. rewrite pct_decode_escapes by (apply utf8_bytes_bound; lia). by rewrite IH.
Qed.

Lemma hex_digit_slash n : hex_digit n ≠ SLASH.
Proof. unfold hex_digit, SLASH. case_match; [|lia]. lia. Qed.

Lemma pct_encode_slash s : SLASH ∉ pct_encode s.
Proof.
  unfold pct_encode. rewrite list_elem_of_bind. intros (c & Hin & _). destruct (plain_char c) eqn:Ep.
  - apply list_elem_of_singleton in Hin as <-. by apply plain_char_spec in Ep as (_ & _ & ?).
  - apply list_elem_of_bind in Hin as (b & Hb & _). unfold escape in Hb. rewrite !elem_of_cons, elem_of_nil in Hb.
    destruct Hb as [?|[E|[E|[]]]]; [done|by apply (hex_digit_slash (b / 16))|by apply (hex_digit_slash (b mod 16))].
Qed.

#[export] Instance pct_codec_laws : UrlCodecLaws.
Proof.
  split.
  - done.
  - intros c s Hc Hn. cbn. rewrite (proj2 (N.eqb_neq c 37)) by done. unfold utf8_of_char.
    by rewrite (proj2 (N.ltb_lt c 128)).
  - by vm_compute.
  - by intros a [->| ->].
  - apply pct_decode_slash.
  - apply pct_encode_decode.
  - intros s t. cbn. destruct (forallb _ _) eqn:Eb; [|done]. intros [= <-]. revert Eb.
    induction (pct_decode s) as [|b l IH]; [done|]. cbn [forallb]. rewrite andb_true_iff. intros [Hb Hl].
    unfold as_bytes in *. rewrite bind_cons, <- IH by done. unfold utf8_of_char. by rewrite Hb.
  - done.
  - apply pct_encode_slash.
  - intros bytes. cbn. f_equal. rewrite <- list_fmap_compose. rewrite <- (list_fmap_id bytes) at 2.
    apply list_fmap_ext. intros i b _. cbn. lia.
  - by intros [|b bytes].
  - intros bytes. cbn. rewrite list_elem_of_fmap. unfold SLASH. intros (b & E & _). lia.
Qed.

(** * Theorems *)

(** C35: Every way to make a path URI gives a well-formed one: a checked URL, an absolute
    path of either convention, joining, joining a descendant, and taking the parent; and
    the invariant says that segments have no slash, that no byte is null outside opaque
    fallbacks, that localhost is dropped and drive letters are upper case. *)
Theorem path_uri_invariant `{!UrlCodec, !UrlCodecLaws} (u u' : Url) (raw : RawUrl) path c :
  well_formed u →
  (path_uri_try_from raw = Ok u' → segments_ok (url_segments (raw_url raw)) → well_formed u') ∧
  (from_absolute_native_path path c = Some u' → well_formed u') ∧
  (uri_join u path = Ok u' → well_formed u') ∧
  (join_descendant u path = Ok u' → well_formed u') ∧
  (parent u = Some u' → well_formed u').
Proof.
  intros Hw. split_and!.
  - unfold path_uri_try_from. case_bool_decide; [|done]. cbn [negb].
    destruct (validate_common_known_uri raw); [|done]. cbn [res_bind]. intros Hf Hok.
    destruct (raw_url raw) as [h segs] eqn:E. by eapply finish_ok.
  - apply from_absolute_wf.
  - by apply uri_join_wf.
  - unfold join_descendant. destruct (uri_join u path) as [d|] eqn:Ej; [|done]. cbn [res_bind].
    case_match; [done|]. intros [= <-]. by eapply uri_join_wf.
  - by apply parent_wf.
Qed.

Definition root_uri : Url := mkUrl None [[]].
Definition uri_of (segs : list str) : Url := mkUrl None segs.

Lemma root_uri_wf `{!UrlCodec, !UrlCodecLaws} : well_formed root_uri.
Proof.
  split; cbn; [done|apply segments_ok_root|right; apply no_nul_root|done|done].
Qed.

Lemma path_uri_invariant_witness :
  ∃ u', uri_join root_uri (lit "a/../b c") = Ok u' ∧ well_formed u'.
Proof.
  exists (mkUrl None [lit "b%20c"]). split; [by vm_compute|].
  destruct (path_uri_invariant root_uri (mkUrl None [lit "b%20c"]) (mkRawUrl [] [] None None root_uri None None)
              (lit "a/../b c") Posix root_uri_wf) as (_ & _ & Hjoin & _).
  apply Hjoin. by vm_compute.
Defined.

(** Equality of path URIs is an equivalence relation, and equal URIs are fed to the
    hasher alike. *)
Theorem uri_equality_lawful `{!UrlCodec} (a b c : Url) :
  uri_eqb a a = true ∧ (uri_eqb a b = true → uri_eqb b a = true) ∧
  (uri_eqb a b = true → uri_eqb b c = true → uri_eqb a c = true) ∧
  (uri_eqb a b = true → uri_hash_input a = uri_hash_input b).
Proof.
  split_and!; [apply uri_eqb_refl|apply uri_eqb_sym|apply uri_eqb_trans|apply uri_eqb_hash].
Qed.

(** On POSIX paths containment is a partial order up to the spelling of the segments:
    a path contains itself, containment is transitive, what contains is never deeper, and
    it compares whole decoded segments from the root. *)
Theorem posix_containment_order `{!UrlCodec, !UrlCodecLaws} (a b c : Url) :
  posix a → posix b → posix c →
  uri_starts_with a a = true ∧
  (uri_starts_with a b = true → uri_starts_with b c = true → uri_starts_with a c = true) ∧
  (∀ da db, uri_starts_with a b = true → lexical_depth a = Some da → lexical_depth b = Some db → db ≤ da) ∧
  (is_Some (lexical_depth a) → is_Some (lexical_depth b) →
   (uri_starts_with a b = true ↔ decoded b `prefix_of` decoded a)) ∧
  (uri_starts_with a b = true → uri_starts_with b a = true → decoded a = decoded b).
Proof.
  intros Ha Hb Hc. split_and!.
  - by apply starts_with_posix; [..|left].
  - rewrite !starts_with_posix by done. intros [->|(? & ? & Hp1)]; [done|].
    intros [<-|(? & ? & Hp2)]; [by right|]. right. split_and!; [done..|]. by etrans.
  - intros da db. by apply starts_with_depth.
  - intros Hda Hdb. rewrite starts_with_posix by done. split; [|by right]. by intros [->|(_ & _ & ?)].
  - rewrite !starts_with_posix by done. intros [->|(_ & _ & Hp1)]; [done|]. intros [->|(_ & _ & Hp2)]; [done|].
    by apply (anti_symm prefix).
Qed.

Lemma posix_containment_order_witness :
  uri_starts_with (uri_of [lit "a%62"; lit "c"]) (uri_of [lit "ab"; []]) = true ∧
  decoded (uri_of [lit "ab"; []]) `prefix_of` decoded (uri_of [lit "a%62"; lit "c"]).
Proof.
  split; [by vm_compute|].
  apply (posix_containment_order (uri_of [lit "a%62"; lit "c"]) (uri_of [lit "ab"; []]) root_uri);
    [by split|by split|by split|by eexists; vm_compute|by eexists; vm_compute|by vm_compute].
Defined.

(** Going from parent to parent ends at a root that has no parent, after at most as
    many steps as the URI has segments, and the URI is below each of them. *)
Theorem ancestors_reach_root `{!UrlCodec, !UrlCodecLaws} (u : Url) :
  well_formed u → is_Some (lexical_depth u) →
  (∃ r, last (ancestors u) = Some r ∧ parent r = None) ∧
  (∀ a, a ∈ ancestors u →
     uri_starts_with u a = true ∧ is_Some (lexical_depth a) ∧ infer_path_convention a = infer_path_convention u).
Proof.
  intros Hw Hd. split; [apply ancestors_fuel_last; [done|by apply steps_up_bound]|].
  intros a Ha. destruct (ancestors_fuel_below _ _ _ Hw Hd Ha) as (Ho & Hwa & Hda & Hh & Hc & Hp).
  split_and!; [|done|done]. apply prefix_starts_with; [|done..].
  by destruct Hd as [d (? & _)%lexical_depth_spec].
Qed.

Lemma sample_uri_wf : well_formed (uri_of [lit "w"; lit "src"]).
Proof.
  split; cbn [url_segments url_host uri_of]; [done| |right|done|done].
  all: repeat constructor; by apply (bool_decide_unpack _).
Qed.

Lemma ancestors_reach_root_witness :
  ancestors (uri_of [lit "w"; lit "src"]) = [uri_of [lit "w"; lit "src"]; uri_of [lit "w"]; root_uri] ∧
  uri_starts_with (uri_of [lit "w"; lit "src"]) root_uri = true.
Proof.
  split; [by vm_compute|].
  apply (ancestors_reach_root (uri_of [lit "w"; lit "src"]) sample_uri_wf).
  - by exists 2; vm_compute.
  - right. right. left.
Defined.

(** Joining a relative POSIX path follows its components one by one: empty ones and
    [.] do nothing, [..] removes the last segment and stops at the root, every other one
    is appended; so no such path escapes the root, and absolute ones replace the base. *)
Theorem posix_join_resolves `{!UrlCodec, !UrlCodecLaws} (u : Url) path :
  well_formed u → posix u → clean (pop_if_empty (url_segments u)) → scalar_text path → path ≠ [] →
  starts_with [SLASH] path = false →
  ∃ u', uri_join u path = Ok u' ∧ url_host u' = None ∧
        non_empty_segments u' = upper_drive (resolve_components (non_empty_segments u) (path_segments Posix path)).
Proof. apply posix_join_spec. Qed.

Lemma posix_join_resolves_witness :
  ∃ u', uri_join (uri_of [lit "w"; lit "src"]) (lit "../../../x/./y") = Ok u' ∧
        non_empty_segments u' = [lit "x"; lit "y"].
Proof.
  destruct (posix_join_resolves (uri_of [lit "w"; lit "src"]) (lit "../../../x/./y") sample_uri_wf) as (u' & Hj & _ & Hn).
  - by split.
  - right. split; [done|]. repeat constructor; done.
  - split; apply (bool_decide_unpack _); by vm_compute.
  - done.
  - done.
  - exists u'. split; [done|]. by rewrite Hn.
Defined.

(** Joining the relative path [c:/x] to the POSIX root gives a Windows path on drive
    C: the drive-shaped first segment is not guarded as it is for absolute paths, which
    become opaque instead. *)
Theorem posix_join_can_leave_posix :
  ∃ u', uri_join root_uri (lit "c:/x") = Ok u' ∧ infer_path_convention root_uri = Some Posix ∧
        infer_path_convention u' = Some Windows ∧ url_segments u' = [lit "C:"; lit "x"] ∧
        ∃ o, from_absolute_native_path (lit "/c:/x") Posix = Some o ∧ is_opaque o = true.
Proof. eexists. split; [vm_compute; reflexivity|]. split_and!; [by vm_compute..|]. eexists. split; [vm_compute; reflexivity|by vm_compute]. Qed.
