(* ===== verification/NativePath.v ===== *)
(** utils/path-uri/src/api_path_string.rs and config_path.rs: path URIs as the text of the
    platform they belong to, and back, and the paths written in configuration files.

    The lossy decodings are the standard library's: every maximal ill-formed part becomes
    one replacement character. *)
From S2P Require Import Prelude Str Utf8Stream UriPath.

(** * Lossy decoding *)

Definition REPLACEMENT : N := 65533.

(** [String::from_utf8_lossy] *)
Fixpoint utf8_lossy (fuel : nat) (bytes : list N) : str :=
  match fuel, bytes with
  | _, [] => []
  | 0, _ => []
  | S fuel, _ =>
      match decode_one bytes with
      | DChar c width => c :: utf8_lossy fuel (drop width bytes)
      | DInvalid n => REPLACEMENT :: utf8_lossy fuel (drop n bytes)
      | DIncomplete => [REPLACEMENT]
      end
  end.
Definition from_utf8_lossy (bytes : list N) : str := utf8_lossy (length bytes) bytes.

(** [String::from_utf16_lossy] *)
Definition is_high_surrogate (u : N) : bool := N.leb 55296 u && N.ltb u 56320.
Definition is_low_surrogate (u : N) : bool := N.leb 56320 u && N.ltb u 57344.

Fixpoint from_utf16_lossy (units : list N) : str :=
  match units with
  | [] => []
  | u :: rest =>
      if is_high_surrogate u then
        match rest with
        | v :: rest' =>
            if is_low_surrogate v
            then (65536 + (u - 55296) * 1024 + (v - 56320))%N :: from_utf16_lossy rest'
            else REPLACEMENT :: from_utf16_lossy rest
        | [] => [REPLACEMENT]
        end
      else (if is_low_surrogate u then REPLACEMENT else u) :: from_utf16_lossy rest
  end.

(** [chunks_exact(2).map(u16::from_le_bytes)] *)
Fixpoint units_of (bytes : list N) : list N :=
  match bytes with
  | a :: b :: bytes => (a + 256 * b)%N :: units_of bytes
  | _ => []
  end.

(** * LegacyAppPathString *)

Inductive LegacyAppPathStringError :=
| OpaqueFallback (path : str)
| IncompatibleConvention (path : str) (convention : PathConvention)
| InvalidNativePath (path : str) (convention : option PathConvention)
| UnsupportedConfigPath (path : str) (convention : PathConvention)
| MissingBaseConvention (cwd : str)
| MissingHomeDirectory (path : str)
| MismatchedConvention (path : str) (path_convention : PathConvention) (cwd : str) (convention : PathConvention)
| PathUriError (source : PathUriParseError).

(** [Display] of a file URL. *)
Definition url_to_string (u : Url) : str := lit "file://" ++ default [] (url_host u) ++ url_path u.

Definition infer_absolute_path_convention (path : str) : option PathConvention :=
  let has_windows_drive_root :=
    match path with
    | drive :: colon :: separator :: _ =>
        is_ascii_alphabetic drive && N.eqb colon COLON && is_windows_separator_char separator
    | _ => false
    end in
  let has_windows_unc_root :=
    match path with
    | first :: second :: _ => is_windows_separator_char first && is_windows_separator_char second
    | _ => false
    end in
  if has_windows_drive_root || has_windows_unc_root then Some Windows
  else if starts_with [SLASH] path then Some Posix
  else None.

Definition render_windows_opaque_fallback (path_bytes : list N) : option str :=
  if negb (length path_bytes mod 2 =? 0) then None
  else
    let path_wide := units_of path_bytes in
    let has_drive_root :=
      match path_wide with
      | drive :: colon :: separator :: _ =>
          is_ascii_alphabetic drive && N.eqb colon COLON && is_windows_separator_char separator
      | _ => false
      end in
    let has_namespace_or_unc_root :=
      match path_wide with
      | first :: second :: _ => is_windows_separator_char first && is_windows_separator_char second
      | _ => false
      end in
    if has_drive_root || has_namespace_or_unc_root then Some (from_utf16_lossy path_wide) else None.

Definition GLOB_METACHARACTERS : list N := lit "*?[]{}".
Definition contains_glob_metacharacter (path : str) : bool :=
  existsb (λ c, bool_decide (c ∈ GLOB_METACHARACTERS)) path.

Definition contains_char (c : N) (s : str) : bool := existsb (N.eqb c) s.

Section Native.
Context `{!UrlCodec}.

Definition decode_native_segment (segment : str) : str := from_utf8_lossy (decode_binary segment).

Definition render_opaque_fallback (path : Url) (path_bytes : list N) (c : PathConvention)
    : result LegacyAppPathStringError str :=
  let rendered :=
    match c with
    | Posix => if starts_with [SLASH] path_bytes then Some (from_utf8_lossy path_bytes) else None
    | Windows => render_windows_opaque_fallback path_bytes
    end in
  match rendered with Some text => Ok text | None => Err (OpaqueFallback (url_to_string path)) end.

Definition incompatible_convention (path : Url) (c : PathConvention) : LegacyAppPathStringError :=
  IncompatibleConvention (url_to_string path) c.

Definition render_posix_path (path : Url) : result LegacyAppPathStringError str :=
  match url_host path with
  | Some _ => Err (incompatible_convention path Posix)
  | None => Ok (url_segments path ≫= λ segment, SLASH :: decode_native_segment segment)
  end.

(** What a Windows path starts with: the host and share, or the drive. *)
Definition render_windows_root (path : Url) : result LegacyAppPathStringError (str * list str) :=
  match url_host path, url_segments path with
  | _, [] => Err (incompatible_convention path Windows)
  | Some host, share :: segments =>
      let share := decode_native_segment share in
      if bool_decide (share = []) then Err (incompatible_convention path Windows)
      else Ok ([BACKSLASH; BACKSLASH] ++ host ++ [BACKSLASH] ++ share, segments)
  | None, drive :: segments =>
      match decode_native_segment drive with
      | [letter; colon] =>
          if negb (is_ascii_alphabetic letter) || negb (N.eqb colon COLON)
          then Err (incompatible_convention path Windows)
          else Ok ([letter; colon], segments)
      | _ => Err (incompatible_convention path Windows)
      end
  end.

Definition render_windows_path (path : Url) : result LegacyAppPathStringError str :=
  let? '(rendered, segments) := render_windows_root path in
  let rendered := rendered ++ (segments ≫= λ segment, BACKSLASH :: decode_native_segment segment) in
  Ok (match rendered with
      | [_; colon] => if N.eqb colon COLON then rendered ++ [BACKSLASH] else rendered
      | _ => rendered
      end).

Definition from_path_uri (path : Url) (c : PathConvention) : result LegacyAppPathStringError str :=
  match decode_bad_path_uri path with
  | Some path_bytes => render_opaque_fallback path path_bytes c
  | None => match c with Posix => render_posix_path path | Windows => render_windows_path path end
  end.

Definition inferred_native_path_string (path : Url) : str :=
  match infer_path_convention path with
  | Some c => match from_path_uri path c with Ok text => text | Err _ => url_to_string path end
  | None => url_to_string path
  end.

Definition to_path_uri (path : str) (c : PathConvention) : result LegacyAppPathStringError Url :=
  match from_absolute_native_path path c with
  | Some u => Ok u
  | None => Err (InvalidNativePath path (Some c))
  end.

(** [TryFrom<LegacyAppPathString> for PathUri] *)
Definition path_uri_of_legacy (path : str) : result LegacyAppPathStringError Url :=
  match infer_absolute_path_convention path with
  | None => Err (InvalidNativePath path None)
  | Some c => to_path_uri path c
  end.

Definition to_inferred_path_uri (path : str) : option Url :=
  match path_uri_of_legacy path with Ok u => Some u | Err _ => None end.

Definition render_for_ui (path : str) : str :=
  match to_inferred_path_uri path with Some u => inferred_native_path_string u | None => path end.

Definition join_legacy (base : Url) (path : str) : result LegacyAppPathStringError Url :=
  map_err PathUriError (uri_join base path).

Definition resolve_against (path : str) (cwd : Url) (user_home_dir : option Url)
    : result LegacyAppPathStringError Url :=
  match infer_path_convention cwd with
  | None => Err (MissingBaseConvention (url_to_string cwd))
  | Some c =>
      let is_windows := bool_decide (c = Windows) in
      match home_relative_suffix c path with
      | Some suffix =>
          match user_home_dir with
          | None => Err (MissingHomeDirectory path)
          | Some home =>
              join_legacy home
                (drop_while (λ ch, N.eqb ch SLASH || (is_windows && N.eqb ch BACKSLASH)) suffix)
          end
      | None =>
          if is_windows && (starts_with [SLASH; SLASH] path || starts_with [BACKSLASH; BACKSLASH] path)
          then to_path_uri path Windows
          else
            match infer_absolute_path_convention path with
            | Some path_convention =>
                if bool_decide (path_convention = c) then to_path_uri path c
                else if bool_decide (path_convention = Posix) && is_windows then join_legacy cwd path
                else Err (MismatchedConvention path path_convention (url_to_string cwd) c)
            | None => join_legacy cwd path
            end
      end
  end.

(** * Configuration paths *)

(** A colon in a component, the drive of the first one aside. *)
Definition component_colon (index : nat) (segment : str) : bool :=
  match index, segment with
  | 0, letter :: colon :: rest =>
      if is_ascii_alphabetic letter && N.eqb colon COLON then contains_char COLON rest
      else contains_char COLON segment
  | _, _ => contains_char COLON segment
  end.

Definition mixed_home_separators (suffix : str) : bool :=
  (starts_with [SLASH] suffix && starts_with [BACKSLASH] (drop_while (N.eqb SLASH) suffix))
  || (starts_with [BACKSLASH] suffix && starts_with [SLASH] (drop_while (N.eqb BACKSLASH) suffix)).

Definition validate_config_path_text (input : str) (c : PathConvention)
    : result LegacyAppPathStringError unit :=
  let native_input := default input (normalize_windows_device_path input) in
  let windows := bool_decide (c = Windows) in
  let has_windows_component_colon :=
    windows && existsb (λ '(i, s), component_colon i s) (imap pair (path_segments c native_input)) in
  let mixed :=
    windows && match home_relative_suffix c input with Some suffix => mixed_home_separators suffix | None => false end in
  let bare_windows_drive :=
    windows && match native_input with
               | [drive; colon] => N.eqb colon COLON && is_ascii_alphabetic drive
               | _ => false
               end in
  if contains_char 0 input || has_windows_component_colon || mixed || bare_windows_drive
  then Err (UnsupportedConfigPath input c) else Ok tt.

Definition is_valid_utf8 (bytes : list N) : bool :=
  match from_utf8 bytes with (_, _, Valid) => true | _ => false end.

Definition validate_config_path (u : Url) (c : PathConvention) : result LegacyAppPathStringError unit :=
  if negb (bool_decide (infer_path_convention u = Some c))
  then Err (IncompatibleConvention (url_to_string u) c)
  else
    let bytes := decode_binary (url_path u) in
    if bool_decide (lexical_depth u = None) || bool_decide (0%N ∈ bytes) || negb (is_valid_utf8 bytes)
    then Err (PathUriError InvalidFileUriPath)
    else
      let? text := from_path_uri u c in
      validate_config_path_text text c.

Definition validate_glob_directory (u : Url) (c : PathConvention) : result LegacyAppPathStringError unit :=
  let? _ := validate_config_path u c in
  let? path := from_path_uri u c in
  if contains_glob_metacharacter path || (bool_decide (c = Posix) && contains_char BACKSLASH path)
  then Err (UnsupportedConfigPath path c) else Ok tt.

Definition resolve_config_path_uri (input : str) (c : PathConvention) (base user_home_dir : option Url)
    : result LegacyAppPathStringError Url :=
  let? _ := validate_config_path_text input c in
  let? resolved :=
    if bool_decide (is_Some (home_relative_suffix c input)) then
      match user_home_dir with
      | None => Err (MissingHomeDirectory input)
      | Some home =>
          let? _ := validate_config_path home c in
          let? _ := (if contains_glob_metacharacter input then validate_glob_directory home c else Ok tt) in
          resolve_against input home (Some home)
      end
    else
      match to_path_uri input c with
      | Ok absolute => Ok absolute
      | Err error =>
          match base with
          | None => Err error
          | Some base =>
              let? _ := validate_config_path base c in
              let? _ := (if contains_glob_metacharacter input then validate_glob_directory base c else Ok tt) in
              resolve_against input base None
          end
      end in
  let? _ := validate_config_path resolved c in
  join_legacy resolved (lit ".").

Definition to_config_path_string (u : Url) (c : PathConvention) : result LegacyAppPathStringError str :=
  let? rendered := from_path_uri u c in
  Ok (if bool_decide (is_Some (url_host u)) && bool_decide (parent u = None)
      then rendered ++ [BACKSLASH] else rendered).

Definition resolve_config_path (input : str) (c : PathConvention) (base user_home_dir : option Url)
    : result LegacyAppPathStringError str :=
  let? u := resolve_config_path_uri input c base user_home_dir in
  to_config_path_string u c.
End Native.

(** * UTF-8 round trips *)

Ltac div_lia := zify; Z.to_euclidean_division_equations; lia.

Definition scalar (c : N) : Prop := (c < 55296)%N ∨ (57344 ≤ c)%N ∧ (c < 1114112)%N.

Lemma leb_true a b : (a ≤ b)%N → N.leb a b = true.
Proof. apply N.leb_le. Qed.

Lemma in_range_true lo hi b : (lo ≤ b)%N → (b ≤ hi)%N → in_range lo hi b = true.
Proof. intros. unfold in_range. by rewrite !leb_true. Qed.

Lemma in_range_low lo hi b : (b < lo)%N → in_range lo hi b = false.
Proof. intros. unfold in_range. apply andb_false_iff. left. apply N.leb_gt. done. Qed.

Lemma in_range_high lo hi b : (hi < b)%N → in_range lo hi b = false.
Proof. intros. unfold in_range. apply andb_false_iff. right. apply N.leb_gt. done. Qed.

Lemma cont_true x : is_cont (128 + x mod 64) = true.
Proof. apply in_range_true; div_lia. Qed.

Lemma decode_one_utf8 c rest : scalar c → decode_one (utf8_of_char c ++ rest) = DChar c (length (utf8_of_char c)).
Proof.
  intros Hc. unfold scalar in Hc. unfold utf8_of_char.
  destruct (N.ltb_spec c 128) as [H1|H1]; [cbn; by rewrite (proj2 (N.ltb_lt c 128))|].
  destruct (N.ltb_spec c 2048) as [H2|H2]; [|destruct (N.ltb_spec c 65536) as [H3|H3]]; cbn [app decode_one length].
  - rewrite (proj2 (N.ltb_ge _ 128)) by div_lia. rewrite in_range_true by div_lia. rewrite cont_true. f_equal. div_lia.
  - rewrite (proj2 (N.ltb_ge _ 128)) by div_lia. rewrite in_range_high by div_lia. rewrite in_range_true by div_lia.
    assert (second_ok3 (224 + c / 4096) (128 + (c / 64) mod 64) = true) as ->.
    { unfold second_ok3. rewrite !orb_true_iff, !andb_true_iff, cont_true.
      assert (c / 4096 = 0 ∨ (1 ≤ c / 4096 ≤ 12) ∨ c / 4096 = 13 ∨ (14 ≤ c / 4096 ≤ 15))%N as [E|[E|[E|E]]] by div_lia.
      - left. left. left. rewrite E. split; [done|]. apply in_range_true; div_lia.
      - left. left. right. split; [|done]. apply in_range_true; div_lia.
      - left. right. rewrite E. split; [done|]. apply in_range_true; div_lia.
      - right. split; [|done]. apply in_range_true; div_lia. }
    cbn [negb]. rewrite cont_true. f_equal. div_lia.
  - rewrite (proj2 (N.ltb_ge _ 128)) by div_lia. rewrite !in_range_high by div_lia. rewrite in_range_true by div_lia.
    assert (second_ok4 (240 + c / 262144) (128 + (c / 4096) mod 64) = true) as ->.
    { unfold second_ok4. rewrite !orb_true_iff, !andb_true_iff, cont_true.
      assert (c / 262144 = 0 ∨ (1 ≤ c / 262144 ≤ 3) ∨ c / 262144 = 4)%N as [E|[E|E]] by div_lia.
      - left. left. rewrite E. split; [done|]. apply in_range_true; div_lia.
      - left. right. split; [|done]. apply in_range_true; div_lia.
      - right. rewrite E. split; [done|]. apply in_range_true; div_lia. }
    cbn [negb]. rewrite !cont_true. cbn [negb]. f_equal. div_lia.
Qed.

Lemma utf8_of_char_ne c : 1 ≤ length (utf8_of_char c).
Proof. unfold utf8_of_char. repeat case_match; cbn; lia. Qed.

Lemma utf8_lossy_chars fuel s : Forall scalar s → length (as_bytes s) ≤ fuel → utf8_lossy fuel (as_bytes s) = s.
Proof.
  intros Hs. revert fuel. induction Hs as [|c s Hc Hs IH]; intros fuel Hf; [by destruct fuel|].
  unfold as_bytes in *. rewrite bind_cons in Hf |- *. rewrite length_app in Hf. pose proof (utf8_of_char_ne c) as Hne.
  destruct fuel as [|fuel]; [lia|]. cbn [utf8_lossy].
  destruct (utf8_of_char c ++ (s ≫= utf8_of_char)) eqn:E; [apply app_nil in E as [E _]; rewrite E in Hne; cbn in Hne; lia|].
  rewrite <- E, decode_one_utf8, drop_app_length by done. f_equal. apply IH. lia.
Qed.

Lemma from_utf8_lossy_chars s : Forall scalar s → from_utf8_lossy (as_bytes s) = s.
Proof. intros. by apply utf8_lossy_chars. Qed.

Lemma in_range_spec lo hi b : in_range lo hi b = true → (lo ≤ b ≤ hi)%N.
Proof. unfold in_range. rewrite andb_true_iff, !N.leb_le. done. Qed.

Lemma second_ok3_spec b0 b1 :
  second_ok3 b0 b1 = true → (128 ≤ b1 ≤ 191 ∧ (b0 = 224 → 160 ≤ b1) ∧ (b0 = 237 → b1 ≤ 159))%N.
Proof.
  unfold second_ok3, is_cont. rewrite !orb_true_iff, !andb_true_iff, N.eqb_eq, N.eqb_eq.
  intros [[[[? H]|[H0 H]]|[? H]]|[H0 H]]; apply in_range_spec in H; try apply in_range_spec in H0; lia.
Qed.

Lemma second_ok4_spec b0 b1 :
  second_ok4 b0 b1 = true → (128 ≤ b1 ≤ 191 ∧ (b0 = 240 → 144 ≤ b1) ∧ (b0 = 244 → b1 ≤ 143))%N.
Proof.
  unfold second_ok4, is_cont. rewrite !orb_true_iff, !andb_true_iff, N.eqb_eq, N.eqb_eq.
  intros [[[? H]|[H0 H]]|[? H]]; apply in_range_spec in H; try apply in_range_spec in H0; lia.
Qed.

(** What is decoded is encoded by the same bytes. *)
Lemma decode_one_bytes bytes c w : decode_one bytes = DChar c w → utf8_of_char c = take w bytes ∧ scalar c.
Proof.
  destruct bytes as [|b0 bytes]; [done|]. cbn [decode_one].
  destruct (N.ltb_spec b0 128) as [H0|H0].
  { intros [= <- <-]. split; [|left; lia]. unfold utf8_of_char. by rewrite (proj2 (N.ltb_lt b0 128)). }
  destruct (in_range 194 223 b0) eqn:E1; [apply in_range_spec in E1|clear E1].
  { destruct bytes as [|b1 bytes]; [done|]. destruct (is_cont b1) eqn:C1; [apply in_range_spec in C1|done].
    intros [= <- <-]. split; [|unfold scalar; lia]. cbn [take]. unfold utf8_of_char. rewrite (proj2 (N.ltb_ge _ 128)) by lia.
    rewrite (proj2 (N.ltb_lt _ 2048)) by lia. f_equal; [|f_equal]; div_lia. }
  destruct (in_range 224 239 b0) eqn:E2; [apply in_range_spec in E2|clear E2].
  { destruct bytes as [|b1 bytes]; [done|]. destruct (second_ok3 b0 b1) eqn:S3; [apply second_ok3_spec in S3|done].
    cbn [negb]. destruct bytes as [|b2 bytes]; [done|]. destruct (is_cont b2) eqn:C2; [apply in_range_spec in C2|done].
    intros [= <- <-]. split; [|unfold scalar; lia]. cbn [take]. unfold utf8_of_char. rewrite (proj2 (N.ltb_ge _ 128)) by lia.
    rewrite (proj2 (N.ltb_ge _ 2048)) by lia. rewrite (proj2 (N.ltb_lt _ 65536)) by lia.
    f_equal; [|f_equal; [|f_equal]]; div_lia. }
  destruct (in_range 240 244 b0) eqn:E3; [apply in_range_spec in E3|done].
  destruct bytes as [|b1 bytes]; [done|]. destruct (second_ok4 b0 b1) eqn:S4; [apply second_ok4_spec in S4|done].
  cbn [negb]. destruct bytes as [|b2 bytes]; [done|]. destruct (is_cont b2) eqn:C2; [apply in_range_spec in C2|done].
  cbn [negb]. destruct bytes as [|b3 bytes]; [done|]. destruct (is_cont b3) eqn:C3; [apply in_range_spec in C3|done].
  intros [= <- <-]. split; [|unfold scalar; lia]. cbn [take]. unfold utf8_of_char. rewrite (proj2 (N.ltb_ge _ 128)) by lia.
  rewrite (proj2 (N.ltb_ge _ 2048)) by lia. rewrite (proj2 (N.ltb_ge _ 65536)) by lia.
  f_equal; [|f_equal; [|f_equal; [|f_equal]]]; div_lia.
Qed.

Lemma lossy_of_valid fuel bytes text rest :
  decode_all fuel bytes = (text, rest, Valid) → utf8_lossy fuel bytes = text ∧ as_bytes text = bytes ∧ Forall scalar text.
Proof.
  revert bytes text. induction fuel as [|fuel IH]; intros bytes text; destruct bytes as [|b bytes]; cbn [decode_all utf8_lossy];
    try by intros [= <- <-].
  destruct (decode_one (b :: bytes)) as [c w| |] eqn:E; try by intros ?.
  destruct (decode_all fuel (drop w (b :: bytes))) as [[t r] st] eqn:Ed. intros [= <- -> ->].
  destruct (IH _ _ Ed) as (-> & Hb & Hs). destruct (decode_one_bytes _ _ _ E) as [Hc Hsc].
  split_and!; [done| |by constructor]. unfold as_bytes in *. rewrite bind_cons, Hb, Hc. apply take_drop.
Qed.

Lemma utf8_slash c : SLASH ∈ utf8_of_char c → c = SLASH.
Proof.
  unfold utf8_of_char, SLASH. destruct (N.ltb c 128); [by intros ->%list_elem_of_singleton|].
  repeat case_match; rewrite ?elem_of_cons, ?elem_of_nil; intros Hin;
    repeat destruct Hin as [Hin|Hin]; try done; exfalso; revert Hin; clear; div_lia.
Qed.

(** Text splits where its bytes have a slash. *)
Lemma as_bytes_split t x y :
  as_bytes t = x ++ SLASH :: y → ∃ t1 t2, t = t1 ++ SLASH :: t2 ∧ as_bytes t1 = x ∧ as_bytes t2 = y.
Proof.
  revert x. induction t as [|c t IH]; intros x; [by destruct x|]. unfold as_bytes in *. rewrite bind_cons.
  intros [[k [Hx Hk]]|[k [Hc Hk]]]%app_eq_inv.
  - destruct k as [|b k]; cbn in Hk.
    + rewrite app_nil_r in Hx. destruct (IH [] (eq_sym Hk)) as (t1 & t2 & -> & H1 & H2).
      exists (c :: t1), t2. split_and!; [done| |done]. by rewrite bind_cons, H1, app_nil_r.
    + injection Hk as <- Hk. assert (c = SLASH) as ->.
      { apply utf8_slash. rewrite Hx. rewrite elem_of_app, elem_of_cons. by right; left. }
      destruct x as [|b' x]; [|exfalso; cbn in Hx; by destruct x]. cbn in Hx. injection Hx as <-. by exists [], t.
  - destruct (IH _ Hk) as (t1 & t2 & -> & H1 & H2). exists (c :: t1), t2. split_and!; [done| |done].
    by rewrite bind_cons, H1, Hc.
Qed.

Section Lossless.
Context `{!UrlCodec, !UrlCodecLaws}.

Lemma lossy_segments segs t :
  segs ≠ [] → Forall scalar t → as_bytes t = (segs ≫= λ s, SLASH :: decode_binary s) →
  (segs ≫= λ s, SLASH :: decode_native_segment s) = t.
Proof.
  revert t. induction segs as [|s segs IH]; intros t Hne Ht Hb; [done|]. clear Hne. rewrite bind_cons in Hb |- *.
  destruct (as_bytes_split t [] (decode_binary s ++ (segs ≫= λ s, SLASH :: decode_binary s)) Hb) as (t1 & t2 & -> & H1 & H2).
  clear Hb.
  destruct t1 as [|c t1]; [|pose proof (utf8_of_char_ne c); apply (f_equal length) in H1;
    unfold as_bytes in H1; rewrite bind_cons, length_app in H1; cbn in H1; lia].
  cbn [app] in *. apply Forall_cons in Ht as [_ Ht]. unfold decode_native_segment at 1. destruct segs as [|s' segs].
  - assert (as_bytes t2 = decode_binary s) as <- by (rewrite H2; apply app_nil_r).
    rewrite from_utf8_lossy_chars by done. apply (app_nil_r (SLASH :: t2)).
  - destruct (as_bytes_split t2 (decode_binary s) 
      (decode_binary s' ++ mbind (M:=list) (λ s, SLASH :: decode_binary s) segs) H2) as (u1 & u2 & -> & Hu1 & Hu2).
    apply Forall_app in Ht as [Hs1 Hs2]. rewrite <- Hu1, from_utf8_lossy_chars by done. f_equal. f_equal.
    apply IH; [done|done|]. rewrite bind_cons. cbn [app]. rewrite <- Hu2. unfold as_bytes. by rewrite bind_cons.
Qed.

(** The text of a checked configuration path has exactly the bytes of the URI's path. *)
Lemma config_path_text u :
  validate_config_path u Posix = Ok tt → url_segments u ≠ [] →
  ∃ text, from_path_uri u Posix = Ok text ∧ as_bytes text = decode_binary (url_path u) ∧ 0%N ∉ text.
Proof.
  unfold validate_config_path. case_bool_decide as Hc; [|done]. cbn [negb].
  destruct (bool_decide (lexical_depth u = None)) eqn:Hd; [done|]. apply bool_decide_eq_false in Hd.
  destruct (bool_decide (0%N ∈ decode_binary (url_path u))) eqn:Hn; [done|]. apply bool_decide_eq_false in Hn.
  destruct (is_valid_utf8 (decode_binary (url_path u))) eqn:Hv; [|done]. cbn [orb negb].
  unfold is_valid_utf8, from_utf8 in Hv. destruct (decode_all _ _) as [[text rest] [| |]] eqn:Ed; try done.
  destruct (lossy_of_valid _ _ _ _ Ed) as (_ & Hb & Hs). intros Ht Hsegs.
  assert (decode_bad_path_uri u = None) as Ho.
  { unfold lexical_depth, is_opaque in Hd. case_bool_decide as Hop; [done|]. by apply eq_None_not_Some. }
  unfold from_path_uri in *. rewrite Ho in *. unfold render_posix_path in *.
  destruct (url_host u) as [h|] eqn:Hh.
  { unfold infer_path_convention in Hc. rewrite Ho, Hh in Hc. done. }
  eexists. split; [done|]. rewrite decode_path in Hb. rewrite (lossy_segments _ text) by done.
  rewrite decode_path. split; [done|]. intros Hin. apply Hn. rewrite decode_path, <- Hb. unfold as_bytes.
  apply list_elem_of_bind. by exists 0%N; split; [left|].
Qed.
End Lossless.

(** * Absolute POSIX text *)

Section PosixText.
Context `{!UrlCodec, !UrlCodecLaws}.

(** A component that is kept as it is. *)
Definition plain_component (w : str) : Prop :=
  w ≠ [] ∧ w ≠ lit "." ∧ w ≠ lit ".." ∧ SLASH ∉ w ∧ scalar_text w.

Lemma normalize_components l acc tr :
  Forall (λ w, SLASH ∉ w ∧ scalar_text w) l → Forall plain_component acc →
  ∃ acc' tr', foldl (normalize_step 0) (acc, length acc, tr) l = (acc', length acc', tr') ∧ Forall plain_component acc'.
Proof.
  intros Hl. revert acc tr. induction Hl as [|w l [Hs Hw] _ IH]; intros acc tr Hacc; [by exists acc, tr|].
  cbn [foldl normalize_step]. case_bool_decide as E1; [by apply IH|].
  case_bool_decide as E2; [by apply IH|]. case_bool_decide as E3.
  - destruct (list_snoc_inv acc) as [->|(acc' & x & ->)]; [by apply (IH [])|].
    rewrite removelast_snoc, length_app, (proj2 (Nat.ltb_lt _ _)) by (cbn; lia).
    replace (length acc' + length [x] - 1) with (length acc') by (cbn; lia).
    apply IH. by apply Forall_app in Hacc as [].
  - replace (length acc + 1) with (length (acc ++ [w])) by (rewrite length_app; done). apply IH.
    apply Forall_app. split; [done|]. apply Forall_singleton. unfold plain_component. by split_and!.
Qed.

Lemma normalize_plain l acc d tr :
  Forall plain_component l →
  foldl (normalize_step 0) (acc, d, tr) l = (acc ++ l, d + length l, match l with [] => tr | _ => false end).
Proof.
  intros Hl. revert acc d tr. induction Hl as [|w l (Hne & H1 & H2 & _) _ IH]; intros acc d tr.
  - cbn. by rewrite app_nil_r, Nat.add_0_r.
  - cbn [foldl normalize_step]. rewrite !bool_decide_false by done. rewrite IH, <- (assoc_L (++)). cbn.
    f_equal; [f_equal; lia|by destruct l].
Qed.

Lemma push_all l segs : segs ≠ [[]] → segs ≠ [] → foldl (λ segs s, push_segment s segs) segs l = segs ++ (encode_segment <$> l).
Proof.
  revert segs. induction l as [|w l IH]; intros segs Hs Hne; cbn; [by rewrite app_nil_r|].
  unfold push_segment at 2. rewrite bool_decide_false by done. rewrite IH; [by rewrite <- (assoc_L (++))| |by destruct segs].
  destruct segs as [|x [|y segs]]; done.
Qed.

(** The names of a normalised path: plain components, then an empty one for a slash at
    the end. *)
Definition names_ok (l : list str) : Prop := ∃ acc tl, l = acc ++ tl ∧ Forall plain_component acc ∧ (tl = [] ∨ tl = [[]]).

Definition segments_of_names (l : list str) : list str := match l with [] => [[]] | _ => encode_segment <$> l end.
Definition text_of_names (l : list str) : str := match l with [] => [SLASH] | _ => l ≫= cons SLASH end.

Lemma push_names l : names_ok l → foldl (λ segs s, push_segment s segs) [[]] l = segments_of_names l.
Proof.
  intros (acc & tl & -> & Hacc & Htl). destruct acc as [|w acc].
  - destruct Htl as [->| ->]; [done|]. cbn. unfold push_segment. by rewrite bool_decide_true, encode_nil.
  - cbn [app foldl segments_of_names]. unfold push_segment at 2. rewrite bool_decide_true by done.
    apply Forall_cons in Hacc as [(Hne & _ & _ & _ & Hw) _]. rewrite push_all; [done| |done].
    intros [= E]. by apply (encode_ne w Hw).
Qed.

Lemma names_segments_ne l : segments_of_names l ≠ [].
Proof. by destruct l. Qed.

Lemma plain_nul w : plain_component w → 0%N ∉ decode_binary (encode_segment w).
Proof. intros (_ & _ & _ & _ & Hw). by apply encode_nul. Qed.

Lemma names_no_nul l : names_ok l → no_nul (segments_of_names l).
Proof.
  intros (acc & tl & -> & Hacc & Htl). assert (no_nul (encode_segment <$> acc)) as Ha.
  { apply Forall_fmap. eapply Forall_impl; [exact Hacc|]. apply plain_nul. }
  assert (no_nul (encode_segment <$> tl)) as Ht.
  { destruct Htl as [->| ->]; [constructor|]. cbn. rewrite encode_nil. apply no_nul_root. }
  pose proof (Forall_app_2 _ _ _ Ha Ht) as Hat. rewrite <- fmap_app in Hat.
  destruct (acc ++ tl); [apply no_nul_root|exact Hat].
Qed.

Lemma names_native l : names_ok l → (segments_of_names l ≫= λ s, SLASH :: decode_native_segment s) = text_of_names l.
Proof.
  intros (acc & tl & -> & Hacc & Htl).
  assert (∀ w, scalar_text w → decode_native_segment (encode_segment w) = w) as Hd.
  { intros w [Hw _]. unfold decode_native_segment. rewrite encode_decode by done. apply from_utf8_lossy_chars.
    eapply Forall_impl; [exact Hw|]. intros c [Hc _]. done. }
  assert (Forall scalar_text (acc ++ tl)) as Hall.
  { apply Forall_app. split; [eapply Forall_impl; [exact Hacc|]; intros w (_ & _ & _ & _ & Hw); exact Hw|].
    destruct Htl as [->| ->]; repeat constructor. set_solver. }
  destruct (acc ++ tl) as [|w l] eqn:E; [cbn; unfold decode_native_segment; by rewrite decode_nil|]. unfold segments_of_names, text_of_names.
  clear E. induction Hall as [|x l' Hx _ IH]; [done|]. rewrite fmap_cons, !bind_cons, IH. by rewrite Hd.
Qed.

Lemma split_by_free (p : N → bool) s w c : w ∈ split_by p s → c ∈ w → p c = false.
Proof.
  revert w. induction s as [|d s IH]; intros w; simpl; [intros ->%list_elem_of_singleton; by intros ?%not_elem_of_nil|].
  destruct (p d) eqn:Ep.
  - rewrite elem_of_cons. intros [->|Hw] Hc; [by apply not_elem_of_nil in Hc|eauto].
  - destruct (split_by p s) as [|v vs]; rewrite !elem_of_cons.
    + intros [->|Hw]; [by intros ->%list_elem_of_singleton|by apply not_elem_of_nil in Hw].
    + intros [->|Hw] Hc; [|by eapply (IH w); [right|]].
      apply elem_of_cons in Hc as [->|Hc]; [done|]. by eapply (IH v); [left|].
Qed.

Lemma split_plain w rest :
  SLASH ∉ w → split_by (N.eqb SLASH) (w ++ SLASH :: rest) = w :: split_by (N.eqb SLASH) rest.
Proof.
  induction w as [|c w IH]; [done|]. rewrite not_elem_of_cons. intros [Hc Hw]. cbn [app split_by].
  rewrite (proj2 (N.eqb_neq _ _)) by done. by rewrite IH.
Qed.

Lemma split_plain_end w : SLASH ∉ w → split_by (N.eqb SLASH) w = [w].
Proof.
  induction w as [|c w IH]; [done|]. rewrite not_elem_of_cons. intros [Hc Hw]. cbn [split_by].
  rewrite (proj2 (N.eqb_neq _ _)) by done. by rewrite IH.
Qed.

Lemma split_by_eqb_sym s : split_by (λ ch, N.eqb ch SLASH) s = split_by (N.eqb SLASH) s.
Proof. induction s as [|c s IH]; [done|]. cbn [split_by]. by rewrite IH, N.eqb_sym. Qed.

Lemma posix_single_segment name : SLASH ∉ name → path_segments Posix name = [name].
Proof. intros Hs. unfold path_segments. rewrite split_by_eqb_sym. by apply split_plain_end. Qed.

Lemma split_names w l :
  Forall (λ w, SLASH ∉ w) (w :: l) → split_by (N.eqb SLASH) (w ++ (l ≫= cons SLASH)) = w :: l.
Proof.
  revert w. induction l as [|x l IH]; intros w Hw; apply Forall_cons in Hw as [Hw Hl].
  - change ([] ≫= cons SLASH) with (@nil N). rewrite app_nil_r. by apply split_plain_end.
  - rewrite bind_cons. cbn [app]. rewrite split_plain by done. by rewrite IH.
Qed.

Lemma names_slash l : names_ok l → Forall (λ w, SLASH ∉ w) l.
Proof.
  intros (acc & tl & -> & Hacc & Htl). apply Forall_app. split.
  - eapply Forall_impl; [exact Hacc|]. intros w (_ & _ & _ & Hw & _). exact Hw.
  - destruct Htl as [->| ->]; repeat constructor. set_solver.
Qed.

(** Normalising names gives them back. *)
Lemma normalize_names l d acc tr :
  names_ok l → l ≠ [] → foldl (normalize_step 0) ([], 0, false) l = (acc, d, tr) →
  acc ++ (if tr then [[]] else []) = l.
Proof.
  intros (a & tl & -> & Ha & Htl) Hne. rewrite foldl_app, normalize_plain by done. cbn [app].
  destruct Htl as [->| ->]; cbn; intros [= <- _ <-]; [|done]. by destruct a.
Qed.

Lemma no_nul_not_bad segs : no_nul segs → decode_bad_path_uri (mkUrl None segs) = None.
Proof.
  intros Hn. destruct segs as [|a [|b [|c [|e [|]]]]]; try done. cbn [decode_bad_path_uri].
  case_bool_decide as E; [|done]. exfalso. injection E as -> _ _. apply Forall_cons in Hn as [Hn _].
  apply Hn. rewrite decode_escaped_nul. by left.
Qed.

Lemma posix_upper_drive segs :
  no_nul segs → infer_path_convention (mkUrl None (upper_drive segs)) = Some Posix → upper_drive segs = segs.
Proof.
  intros Hn. destruct (upper_drive_spec segs) as [?|(pre & c & t & post & -> & Hpre & Hd & Hc & E)]; [done|].
  rewrite E. unfold infer_path_convention. rewrite no_nul_not_bad; [|rewrite <- E; by apply upper_drive_nul].
  rewrite bool_decide_false by (by intros []). cbn [url_host].
  assert (non_empty_segments (mkUrl None (pre ++ (upper_char c :: t) :: post))
          = (upper_char c :: t) :: filter (λ s : str, s ≠ []) post) as ->.
  { unfold non_empty_segments. cbn [url_segments]. rewrite filter_app.
    assert (filter (λ s : str, s ≠ []) pre = []) as ->.
    { clear Hn E. induction Hpre as [|s pre -> _ IH]; [done|]. rewrite filter_cons_False; [exact IH|by intros []]. }
    by rewrite filter_cons_True. }
  cbn [head]. destruct (drive_segment_cases _ Hd) as (c' & t' & [= <- <-] & _ & _ & Hup).
  rewrite Hup; [done|]. by apply upper_char_spec.
Qed.

Lemma finish_names l :
  names_ok l → finish_url (mkUrl None (segments_of_names l)) = Ok (mkUrl None (upper_drive (segments_of_names l))).
Proof.
  intros Hl. unfold finish_url, validate_file_url.
  rewrite (bool_decide_false (0%N ∈ _)) by (by apply path_no_nul, names_no_nul). done.
Qed.

Lemma from_segments_names comps :
  Forall (λ w, SLASH ∉ w ∧ scalar_text w) comps →
  ∃ l, names_ok l ∧ path_uri_from_segments Posix None comps = Some (mkUrl None (upper_drive (segments_of_names l))) ∧
       (names_ok comps → comps ≠ [] → l = comps).
Proof.
  intros Hc. destruct (normalize_components comps [] false Hc) as (acc & tr & Hf & Hacc); [done|].
  cbn [length] in Hf. exists (acc ++ (if tr then [[]] else [])).
  assert (names_ok (acc ++ (if tr then [[]] else []))) as Hok.
  { exists acc, (if tr then [[]] else []). split_and!; [done|done|]. destruct tr; auto. }
  split; [done|]. split; [|by intros ??; eapply normalize_names].
  unfold path_uri_from_segments. cbn [anchor_depth mbind option_bind]. rewrite Hf.
  rewrite (bool_decide_false (Posix = Windows)) by done. cbn [andb]. rewrite orb_false_r.
  replace (if tr then acc ++ [[]] else acc) with (acc ++ (if tr then [[]] else [])) by (destruct tr; [done|by rewrite app_nil_r]).
  by rewrite push_names, finish_names.
Qed.

Lemma names_no_dots l :
  names_ok l → Forall (λ w, w ≠ lit "." ∧ w ≠ lit "..") (path_segments Posix (drop 1 (text_of_names l))).
Proof.
  intros Hl. unfold path_segments. destruct l as [|w l]; [by repeat constructor|].
  rewrite split_by_eqb_sym.
  change (drop 1 (text_of_names (w :: l))) with (w ++ (l ≫= cons SLASH)).
  rewrite split_names by (by apply names_slash). destruct Hl as (acc & tl & -> & Hacc & Htl). apply Forall_app. split.
  - eapply Forall_impl; [exact Hacc|]. by intros x (_ & ? & ? & _).
  - destruct Htl as [->| ->]; by repeat constructor.
Qed.

Lemma opaque_text path :
  scalar_text path → starts_with [SLASH] path = true →
  from_path_uri (from_opaque_path_bytes (as_bytes path)) Posix = Ok path ∧
  is_opaque (from_opaque_path_bytes (as_bytes path)) = true.
Proof.
  intros [Hs _] Hst. destruct path as [|c path]; [done|].
  assert (c = SLASH) as ->.
  { unfold starts_with in Hst. destruct (strip_prefix [SLASH] (c :: path)) eqn:E; [|done].
    apply strip_prefix_Some in E. by injection E. }
  assert (decode_bad_path_uri (from_opaque_path_bytes (as_bytes (SLASH :: path))) = Some (as_bytes (SLASH :: path))) as Hd.
  { unfold from_opaque_path_bytes, decode_bad_path_uri. cbn [app BAD_PATH_SEGMENTS].
    rewrite (bool_decide_true (_ = BAD_PATH_SEGMENTS)) by done. cbn [negb].
    rewrite bool_decide_false by (apply b64_non_empty; by apply as_bytes_ne). rewrite b64_inverse. cbn [mbind option_bind].
    by rewrite bool_decide_true. }
  unfold from_path_uri, is_opaque. rewrite Hd. split; [|by rewrite bool_decide_true].
  unfold render_opaque_fallback. change (starts_with [SLASH] (as_bytes (SLASH :: path))) with true. cbn iota.
  rewrite from_utf8_lossy_chars; [done|]. eapply Forall_impl; [exact Hs|]. by intros c [Hc _].
Qed.

Lemma parse_names l :
  names_ok l →
  parse_posix_path (text_of_names l) = Some (mkUrl None (upper_drive (segments_of_names l))).
Proof.
  intros Hl. destruct l as [|w l].
  - change (parse_posix_path (text_of_names [])) with (path_uri_from_segments Posix None [[]]).
    destruct (from_segments_names [[]]) as (l & Hok & -> & Hl'); [repeat constructor; set_solver|].
    rewrite Hl'; [|by exists [], [[]]; auto|done]. cbn. by rewrite encode_nil.
  - assert (parse_posix_path (text_of_names (w :: l))
            = (if bool_decide (0%N ∈ w ++ (l ≫= cons SLASH)) then Some (from_opaque_path_bytes (as_bytes (text_of_names (w :: l))))
               else path_uri_from_segments Posix None (split_by (N.eqb SLASH) (w ++ (l ≫= cons SLASH))))) as -> by done.
    assert (Forall (λ w, SLASH ∉ w ∧ scalar_text w) (w :: l)) as Hsc.
    { pose proof (names_slash _ Hl) as Hsl. destruct Hl as (acc & tl & E & Hacc & Htl). rewrite E in *.
      apply Forall_app in Hsl as [_ Hsl]. apply Forall_app. split.
      - eapply Forall_impl; [exact Hacc|]. intros x (_ & _ & _ & ? & ?). done.
      - destruct Htl as [->| ->]; repeat constructor; set_solver. }
    rewrite bool_decide_false.
    + rewrite split_names by (by apply names_slash).
      destruct (from_segments_names (w :: l) Hsc) as (l' & Hok & -> & Hl'). by rewrite Hl'.
    + rewrite elem_of_app, list_elem_of_bind. apply Forall_cons in Hsc as [[_ [_ Hw]] Hsc].
      intros [?|(x & Hin & Hx)]; [done|]. rewrite Forall_forall in Hsc. destruct (Hsc x Hx) as (_ & _ & Hx0).
      apply elem_of_cons in Hin as [?|?]; done.
Qed.

Lemma parse_posix_names path :
  scalar_text path → starts_with [SLASH] path = true →
  ∃ l, names_ok l ∧ parse_posix_path path = Some (mkUrl None (upper_drive (segments_of_names l))).
Proof.
  intros [Hs Hn] Hst. unfold parse_posix_path, starts_with in *.
  destruct (strip_prefix [SLASH] path) as [rest|] eqn:Er; [|done]. apply strip_prefix_Some in Er as ->.
  cbn [app mbind option_bind]. apply Forall_cons in Hs as [_ Hs]. apply not_elem_of_cons in Hn as [_ Hn].
  rewrite bool_decide_false by done.
  destruct (from_segments_names (split_by (N.eqb SLASH) rest)) as (l & Hl & E & _); [|eauto].
  apply Forall_forall. intros w Hw. split.
  - intros Hin. pose proof (split_by_free _ _ _ _ Hw Hin) as E. by rewrite N.eqb_refl in E.
  - pose proof (scalar_pieces (N.eqb SLASH) rest (conj Hs Hn)) as Hp. rewrite Forall_forall in Hp. by apply Hp.
Qed.

Lemma from_absolute_names path l :
  names_ok l → parse_posix_path path = Some (mkUrl None (upper_drive (segments_of_names l))) →
  from_absolute_native_path path Posix =
  Some (if bool_decide (infer_path_convention (mkUrl None (upper_drive (segments_of_names l))) = Some Posix)
        then mkUrl None (segments_of_names l) else from_opaque_path_bytes (as_bytes path)).
Proof.
  intros Hl E. unfold from_absolute_native_path. rewrite E. cbn [mbind option_bind url_host].
  rewrite (bool_decide_false (None = Some [])) by done. cbn [negb andb]. case_bool_decide as Ec; [|done].
  by rewrite (posix_upper_drive _ (names_no_nul l Hl) Ec).
Qed.
End PosixText.

(** * Theorems *)

(** Reading absolute POSIX text and writing the URI back loses nothing: the text that
    is written is read as the same URI; it is the original text where the URI is opaque,
    and has no [.] and [..] component elsewhere. *)
Theorem posix_text_roundtrip `{!UrlCodec, !UrlCodecLaws} (path : str) :
  scalar_text path → starts_with [SLASH] path = true →
  ∃ u text, from_absolute_native_path path Posix = Some u ∧ from_path_uri u Posix = Ok text ∧
            from_absolute_native_path text Posix = Some u ∧
            (if is_opaque u then text = path
             else Forall (λ w, w ≠ lit "." ∧ w ≠ lit "..") (path_segments Posix (drop 1 text))).
Proof.
  intros Hsc Hst. destruct (parse_posix_names path Hsc Hst) as (l & Hl & Hp).
  pose proof (from_absolute_names path l Hl Hp) as Hu. case_bool_decide as Ec.
  - exists (mkUrl None (segments_of_names l)), (text_of_names l). split; [done|].
    unfold from_path_uri, is_opaque. rewrite no_nul_not_bad by (by apply names_no_nul).
    unfold render_posix_path. cbn [url_host url_segments]. rewrite names_native by done. split; [done|]. split.
    + rewrite (from_absolute_names _ l Hl (parse_names l Hl)). by rewrite bool_decide_true.
    + rewrite bool_decide_false by (by intros []). by apply names_no_dots.
  - destruct (opaque_text path Hsc Hst) as [Ht Ho].
    exists (from_opaque_path_bytes (as_bytes path)), path. by rewrite Ho.
Qed.

Lemma posix_text_roundtrip_witness :
  ∃ u, from_absolute_native_path (lit "/w/./src//../a b/") Posix = Some u ∧ from_path_uri u Posix = Ok (lit "/w/a b/").
Proof.
  destruct (posix_text_roundtrip (lit "/w/./src//../a b/")) as (u & text & Hu & Ht & _).
  - split; apply (bool_decide_unpack _); by vm_compute.
  - by vm_compute.
  - exists u. split; [done|]. rewrite Ht. vm_compute in Hu. injection Hu as <-. by vm_compute in Ht.
Defined.

(** A configuration path that passes the check is written as text with exactly the
    bytes of the URI's path, and without a null character. *)
Theorem config_path_lossless `{!UrlCodec, !UrlCodecLaws} (u : Url) :
  well_formed u → validate_config_path u Posix = Ok tt →
  ∃ text, from_path_uri u Posix = Ok text ∧ as_bytes text = decode_binary (url_path u) ∧ 0%N ∉ text.
Proof. intros Hw Hv. apply config_path_text; [done|]. apply (wf_segments u Hw). Qed.

Lemma config_path_lossless_witness :
  ∃ text, from_path_uri (uri_of [lit "w"; lit "src"]) Posix = Ok text ∧ 0%N ∉ text.
Proof.
  destruct (config_path_lossless (uri_of [lit "w"; lit "src"]) sample_uri_wf) as (text & Ht & _ & Hn).
  - by vm_compute.
  - by exists text.
Defined.
