(* ===== verification/Permissions.v ===== *)
(** protocol/src/permissions.rs, permissions/target.rs and deny_read_validator.rs: which
    files a sandboxed command may read and write, for the paths of the executor it runs
    on.

    Entries give access to concrete paths, globs and symbolic places; a context resolves
    the symbolic ones.  The globset crate is a parameter ([GlobEngine]), as is the
    convention of the platform the program is built for.  The operations that look at the
    local disk (canonical paths, git directories, macOS aliases) are not modelled. *)
From S2P Require Import Prelude Str UriPath NativePath ApprovalTypes.

(** * Data *)

Inductive FileSystemAccessMode := Read | Write | Deny.

#[export] Instance FileSystemAccessMode_eq_dec : EqDecision FileSystemAccessMode.
Proof. solve_decision. Defined.

Definition can_read (a : FileSystemAccessMode) : bool := match a with Deny => false | _ => true end.
Definition can_write (a : FileSystemAccessMode) : bool := match a with Write => true | _ => false end.

(** The derived order: [Read < Write < Deny]. *)
Definition access_rank (a : FileSystemAccessMode) : nat := match a with Read => 0 | Write => 1 | Deny => 2 end.

Inductive FileSystemSpecialPath :=
| Root
| Minimal
| ProjectRoots (subpath : option str)
| Tmpdir
| SlashTmp
| UnknownSpecial (path : str) (subpath : option str).

#[export] Instance FileSystemSpecialPath_eq_dec : EqDecision FileSystemSpecialPath.
Proof. solve_decision. Defined.

Inductive FileSystemPath :=
| PathEntry (path : Url)
| GlobPattern (pattern : str)
| Special (value : FileSystemSpecialPath).

Inductive MissingPathBehavior := SkipMissing.

#[export] Instance MissingPathBehavior_eq_dec : EqDecision MissingPathBehavior.
Proof. solve_decision. Defined.

Record FileSystemSandboxEntry := mkEntry {
  entry_path : FileSystemPath;
  entry_access : FileSystemAccessMode;
  missing_path_behavior : option MissingPathBehavior
}.

Definition entry_new (path : FileSystemPath) (access : FileSystemAccessMode) : FileSystemSandboxEntry :=
  mkEntry path access None.
Definition skip_missing_path (path : FileSystemPath) (access : FileSystemAccessMode) : FileSystemSandboxEntry :=
  mkEntry path access (Some SkipMissing).
Definition skips_missing_path (e : FileSystemSandboxEntry) : bool :=
  bool_decide (missing_path_behavior e = Some SkipMissing).

Record FileSystemSandboxPolicy := mkPolicy {
  fs_kind : FileSystemSandboxKind;
  glob_scan_max_depth : option nat;
  entries : list FileSystemSandboxEntry
}.

Record PolicyContext := mkPolicyContext {
  ctx_cwd : Url;
  workspace_roots : list Url;
  user_home_dir : option Url;
  temporary_directories : option (list Url)
}.

Definition PROTECTED_METADATA_PATH_NAMES : list str := [lit ".git"; lit ".agents"; lit ".codex"; lit ".aws"].

Definition is_protected_metadata_name (name : str) : bool :=
  existsb (λ metadata_name, name =s metadata_name) PROTECTED_METADATA_PATH_NAMES.

Definition PROJECT_ROOTS_GLOB_PATTERN_PREFIX : str := lit "codex-project-roots://".

(** * Constructors *)

Definition restricted (l : list FileSystemSandboxEntry) : FileSystemSandboxPolicy := mkPolicy Restricted None l.
Definition unrestricted : FileSystemSandboxPolicy := mkPolicy Unrestricted None [].
Definition external_sandbox : FileSystemSandboxPolicy := mkPolicy ExternalSandbox None [].
Definition read_only_file_system_entries : list FileSystemSandboxEntry := [entry_new (Special Root) Read].
Definition read_only : FileSystemSandboxPolicy := restricted read_only_file_system_entries.

Definition set_entries (l : list FileSystemSandboxEntry) (p : FileSystemSandboxPolicy) : FileSystemSandboxPolicy :=
  mkPolicy (fs_kind p) (glob_scan_max_depth p) l.

Definition is_restricted (p : FileSystemSandboxPolicy) : bool := bool_decide (fs_kind p = Restricted).

Definition remove_skip_missing_path_entries (p : FileSystemSandboxPolicy) : FileSystemSandboxPolicy :=
  set_entries (filter (λ e, skips_missing_path e = false) (entries p)) p.

(** * Questions about the entries *)

Definition has_root_access (predicate : FileSystemAccessMode → bool) (p : FileSystemSandboxPolicy) : bool :=
  is_restricted p
  && existsb (λ e, match entry_path e with Special Root => predicate (entry_access e) | _ => false end) (entries p).

Definition is_deny (e : FileSystemSandboxEntry) : bool := bool_decide (entry_access e = Deny).

Definition has_denied_read_restrictions_for_convention (c : option PathConvention) (p : FileSystemSandboxPolicy) : bool :=
  is_restricted p
  && existsb (λ e, is_deny e
                   && negb match entry_path e with
                           | Special SlashTmp => bool_decide (c = Some Windows)
                           | _ => false
                           end) (entries p).

Definition has_full_disk_read_access_for_convention (c : option PathConvention) (p : FileSystemSandboxPolicy) : bool :=
  match fs_kind p with
  | Unrestricted | ExternalSandbox => true
  | Restricted => has_root_access can_read p && negb (has_denied_read_restrictions_for_convention c p)
  end.

Definition include_platform_defaults (native : PathConvention) (p : FileSystemSandboxPolicy) : bool :=
  negb (has_full_disk_read_access_for_convention (Some native) p)
  && is_restricted p
  && existsb (λ e, match entry_path e with Special Minimal => can_read (entry_access e) | _ => false end) (entries p).

Definition special_paths_share_target (lhs rhs : FileSystemSpecialPath) : bool :=
  match lhs, rhs with
  | Root, Root | Minimal, Minimal | Tmpdir, Tmpdir | SlashTmp, SlashTmp => true
  | ProjectRoots l, ProjectRoots r => bool_decide (l = r)
  | UnknownSpecial l ls, UnknownSpecial r rs => bool_decide (l = r) && bool_decide (ls = rs)
  | _, _ => false
  end.

(** [Iterator::max_by_key]: the last of the greatest. *)
Definition max_by {A} (leb : A → A → bool) (l : list A) : option A :=
  foldl (λ best x, match best with
                   | None => Some x
                   | Some b => if leb b x then Some x else Some b
                   end) None l.

(** [(depth, access)] in lexicographic order. *)
Definition key_leb (a b : Url * FileSystemAccessMode * nat) : bool :=
  let '(_, aa, da) := a in
  let '(_, ab, db) := b in
  (da <? db) || ((da =? db) && (access_rank aa <=? access_rank ab)).

Section Policy.
Context `{!UrlCodec}.
Implicit Types (p : FileSystemSandboxPolicy) (ctx : PolicyContext).

(** The derived equalities, on top of that of path URIs. *)
Definition fs_path_eqb (a b : FileSystemPath) : bool :=
  match a, b with
  | PathEntry a, PathEntry b => uri_eqb a b
  | GlobPattern a, GlobPattern b => bool_decide (a = b)
  | Special a, Special b => bool_decide (a = b)
  | _, _ => false
  end.
Definition entry_eqb (a b : FileSystemSandboxEntry) : bool :=
  fs_path_eqb (entry_path a) (entry_path b) && bool_decide (entry_access a = entry_access b)
  && bool_decide (missing_path_behavior a = missing_path_behavior b).
Definition contains_entry (e : FileSystemSandboxEntry) (l : list FileSystemSandboxEntry) : bool :=
  existsb (λ x, entry_eqb x e) l.

Definition special_path_matches_path_uri (value : FileSystemSpecialPath) (path : Url) : bool :=
  match value with
  | Root => bool_decide (is_Some (lexical_depth path)) && bool_decide (parent path = None)
  | SlashTmp =>
      bool_decide (infer_path_convention path = Some Posix)
      && bool_decide (lexical_depth path = Some 1)
      && bool_decide (basename path = Some (lit "tmp"))
  | _ => false
  end.

Definition file_system_paths_share_target (lhs rhs : FileSystemPath) (c : PathConvention) : bool :=
  match lhs, rhs with
  | PathEntry lhs, PathEntry rhs => uri_eqb lhs rhs
  | Special lhs, Special rhs => special_paths_share_target lhs rhs
  | PathEntry path, Special value | Special value, PathEntry path =>
      bool_decide (infer_path_convention path = Some c) && special_path_matches_path_uri value path
  | GlobPattern lhs, GlobPattern rhs => bool_decide (lhs = rhs)
  | GlobPattern _, _ | _, GlobPattern _ => false
  end.

Definition has_same_target_write_override (e : FileSystemSandboxEntry) (c : PathConvention) p : bool :=
  existsb (λ candidate, can_write (entry_access candidate)
                        && (access_rank (entry_access e) <? access_rank (entry_access candidate))
                        && file_system_paths_share_target (entry_path candidate) (entry_path e) c) (entries p).

Definition narrows_write (c : PathConvention) p (e : FileSystemSandboxEntry) : bool :=
  if can_write (entry_access e) then false
  else match entry_path e with
       | PathEntry _ => negb (has_same_target_write_override e c p)
       | GlobPattern _ => true
       | Special Root => bool_decide (entry_access e = Deny)
       | Special SlashTmp =>
           if bool_decide (c = Windows) then false else negb (has_same_target_write_override e c p)
       | Special Minimal | Special (UnknownSpecial _ _) => false
       | Special _ => negb (has_same_target_write_override e c p)
       end.

Definition has_write_narrowing_entries (c : PathConvention) p : bool :=
  is_restricted p && existsb (narrows_write c p) (entries p).

Definition has_full_disk_write_access_for_convention (c : option PathConvention) p : bool :=
  match fs_kind p with
  | Unrestricted | ExternalSandbox => true
  | Restricted =>
      match c with
      | Some c => has_root_access can_write p && negb (has_write_narrowing_entries c p)
      | None => false
      end
  end.

Definition has_full_disk_write_access_with_context ctx p : bool :=
  has_full_disk_write_access_for_convention (infer_path_convention (ctx_cwd ctx)) p.

(** * Resolving *)

Definition file_system_root ctx : option Url :=
  _ ← lexical_depth (ctx_cwd ctx);
  last (ancestors (ctx_cwd ctx)).

Definition option_list {A} (o : option A) : list A := match o with Some a => [a] | None => [] end.
Definition ok_list {E A} (r : result E A) : list A := match r with Ok a => [a] | Err _ => [] end.

Definition entry_targets ctx (path : FileSystemPath) : list Url :=
  match path with
  | PathEntry path => [path]
  | GlobPattern _ => []
  | Special Root => option_list (file_system_root ctx)
  | Special (ProjectRoots subpath) =>
      workspace_roots ctx ≫= λ root,
        match subpath with Some subpath => ok_list (uri_join root subpath) | None => [root] end
  | Special Tmpdir => default [] (temporary_directories ctx)
  | Special SlashTmp =>
      if bool_decide (infer_path_convention (ctx_cwd ctx) = Some Posix)
      then ok_list (uri_join (ctx_cwd ctx) (lit "/tmp")) else []
  | Special Minimal | Special (UnknownSpecial _ _) => []
  end.

Definition resolve_entry ctx (e : FileSystemSandboxEntry) : list (Url * FileSystemAccessMode) :=
  (λ path, (path, entry_access e)) <$>
    filter (λ path, infer_path_convention path = infer_path_convention (ctx_cwd ctx))
      (entry_targets ctx (entry_path e)).

Definition resolved_entries ctx p : list (Url * FileSystemAccessMode) := entries p ≫= resolve_entry ctx.

(** The [try_fold] of [resolve_access]: each root with its depth. *)
Definition depth_step (acc : option (list (Url * FileSystemAccessMode * nat))) (entry : Url * FileSystemAccessMode)
    : option (list (Url * FileSystemAccessMode * nat)) :=
  l ← acc;
  let '(root, access) := entry in
  match lexical_depth root with
  | Some depth => Some (l ++ [(root, access, depth)])
  | None => if is_opaque root then Some l else None
  end.

Definition resolve_access p (path : Url) ctx : FileSystemAccessMode :=
  match fs_kind p with
  | Unrestricted | ExternalSandbox => Write
  | Restricted =>
      match infer_path_convention (ctx_cwd ctx) with
      | None => Deny
      | Some convention =>
          if negb (bool_decide (infer_path_convention path = Some convention))
             || bool_decide (lexical_depth path = None) || bool_decide (lexical_depth (ctx_cwd ctx) = None)
          then Deny
          else
            match foldl depth_step (Some []) (resolved_entries ctx p) with
            | None => Deny
            | Some with_depth =>
                match max_by key_leb (filter (λ e, uri_starts_with path e.1.1 = true) with_depth) with
                | Some (_, access, _) => access
                | None => Deny
                end
            end
      end
  end.

Definition can_read_path p (path : Url) ctx : bool := can_read (resolve_access p path ctx).

(** * Protected metadata *)

(** The first protected directory of a writable root that contains the path. *)
Definition protected_directory (path : Url) (root : Url) : option (Url * str) :=
  find_map (λ metadata_name,
    match join_descendant root metadata_name with
    | Ok protected => if uri_starts_with path protected then Some (protected, metadata_name) else None
    | Err _ => None
    end) PROTECTED_METADATA_PATH_NAMES.

Definition metadata_write_denial p (path : Url) ctx : option str :=
  if negb (is_restricted p) then None
  else
    let l := resolved_entries ctx p in
    '(protected, metadata_name) ←
      find_map (λ e, protected_directory path e.1) (filter (λ e, can_write e.2 = true) l);
    if existsb (λ e, can_write e.2 && uri_starts_with path e.1 && uri_starts_with e.1 protected) l
    then None else Some metadata_name.

Definition can_write_path p (path : Url) ctx : bool :=
  if negb (can_write (resolve_access p path ctx)) then false
  else has_full_disk_write_access_with_context ctx p || bool_decide (metadata_write_denial p path ctx = None).

(** [forbidden_agent_metadata_write], for a path and context already made. *)
Definition forbidden_agent_metadata_write p (path : Url) ctx : option str :=
  if negb (is_restricted p) then None
  else if can_write_path p path ctx then None else metadata_write_denial p path ctx.

(** * Keeping denials *)

Definition push_missing (l : list FileSystemSandboxEntry) (e : FileSystemSandboxEntry) : list FileSystemSandboxEntry :=
  if contains_entry e l then l else l ++ [e].

Definition deny_entries p : list FileSystemSandboxEntry := filter (λ e, entry_access e = Deny) (entries p).

Definition preserve_deny_read_restrictions_from (existing : FileSystemSandboxPolicy) p : FileSystemSandboxPolicy :=
  let p :=
    if bool_decide (fs_kind p = Unrestricted) && existsb is_deny (entries existing)
    then restricted [entry_new (Special Root) Write] else p in
  if negb (is_restricted p) then p
  else
    mkPolicy (fs_kind p)
      (match glob_scan_max_depth p with None => glob_scan_max_depth existing | depth => depth end)
      (foldl push_missing (entries p) (deny_entries existing)).
End Policy.

(** * Deny globs *)

(** The globset crate: [GlobBuilder] with the options the code sets, and matching. *)
Class GlobEngine := {
  GlobMatcher : Type;
  glob_build (pattern : str) (backslash_escape case_insensitive : bool) : result str GlobMatcher;
  glob_is_match : GlobMatcher → list N → bool
}.

Inductive InvalidDenyReadGlobBehavior := FailClosed | ReturnError.

Inductive TargetError :=
| GlobWithoutHome (pattern : str)
| UnsafeGlobRoot (source : LegacyAppPathStringError)
| UnresolvedGlob (pattern : str)
| InvalidGlob (pattern err : str)
| InvalidPath
| MissingTemporaryDirectories
| UnreportedTemporaryDirectories
| UnsafeTemporaryDirectories
| Shadowed.

Definition backslashes_to_slashes (s : str) : str := (λ c, if N.eqb c BACKSLASH then SLASH else c) <$> s.

Section Globs.
Context `{!UrlCodec, !GlobEngine}.
Implicit Types (p : FileSystemSandboxPolicy) (ctx : PolicyContext).

Record PreparedReadDenyMatcher := mkPrepared {
  denied_roots : list Url;
  deny_read_matchers : list GlobMatcher;
  invalid_pattern : bool
}.

Definition build_glob_matcher (pattern : str) (c : PathConvention) : result str GlobMatcher :=
  let windows := bool_decide (c = Windows) in
  glob_build (if windows then backslashes_to_slashes pattern else pattern) (bool_decide (c = Posix)) windows.

(** One deny glob, resolved against the home or the working directory. *)
Definition deny_read_glob ctx (pattern : str) : result TargetError str :=
  let is_windows := bool_decide (infer_path_convention (ctx_cwd ctx) = Some Windows) in
  let home_relative :=
    match strip_prefix (lit "~/") pattern with
    | Some suffix => Some suffix
    | None => if is_windows then strip_prefix (lit "~\") pattern else None
    end in
  let? '(root, pattern) :=
    match home_relative with
    | Some suffix =>
        match user_home_dir ctx with
        | Some home => Ok (home, drop_while (λ c, N.eqb c SLASH || (is_windows && N.eqb c BACKSLASH)) suffix)
        | None => Err (GlobWithoutHome pattern)
        end
    | None => Ok (ctx_cwd ctx, pattern)
    end in
  let convention := if is_windows then Windows else Posix in
  let? _ :=
    if is_ok (to_path_uri pattern convention) then Ok tt
    else map_err UnsafeGlobRoot (validate_glob_directory root convention) in
  match uri_join root pattern with
  | Ok path => Ok (inferred_native_path_string path)
  | Err _ => Err (UnresolvedGlob pattern)
  end.

(** [collect::<Result<Vec<_>, _>>()] *)
Fixpoint collect_results {E A} (l : list (result E A)) : result E (list A) :=
  match l with
  | [] => Ok []
  | r :: l => let? a := r in let? rest := collect_results l in Ok (a :: rest)
  end.

Definition deny_glob_of (e : FileSystemSandboxEntry) : list str :=
  match entry_path e with GlobPattern pattern => if is_deny e then [pattern] else [] | _ => [] end.

Definition deny_read_globs ctx p : result TargetError (list str) :=
  collect_results (deny_read_glob ctx <$> (entries p ≫= deny_glob_of)).

Definition is_file_system_root (root : option Url) (path : Url) : bool :=
  match root with Some r => uri_starts_with path r && uri_starts_with r path | None => false end.

Definition prepared_denied_roots ctx p : list Url :=
  fst <$> filter (λ e, e.2 = Deny ∧ is_file_system_root (file_system_root ctx) e.1 = false) (resolved_entries ctx p).

(** The loop over the patterns: the matchers, and whether a pattern was invalid. *)
Fixpoint build_matchers (behavior : InvalidDenyReadGlobBehavior) (c : PathConvention) (patterns : list str)
    (matchers : list GlobMatcher) (invalid : bool) : result TargetError (list GlobMatcher * bool) :=
  match patterns with
  | [] => Ok (matchers, invalid)
  | pattern :: patterns =>
      match build_glob_matcher pattern c with
      | Ok m => build_matchers behavior c patterns (matchers ++ [m]) invalid
      | Err err =>
          match behavior with
          | FailClosed => build_matchers behavior c patterns matchers true
          | ReturnError => Err (InvalidGlob pattern err)
          end
      end
  end.

Definition prepare_deny_read_matcher ctx (behavior : InvalidDenyReadGlobBehavior) p
    : result TargetError PreparedReadDenyMatcher :=
  let roots := prepared_denied_roots ctx p in
  match infer_path_convention (ctx_cwd ctx) with
  | None => Ok (mkPrepared roots [] true)
  | Some convention =>
      match deny_read_globs ctx p with
      | Err err => match behavior with FailClosed => Ok (mkPrepared roots [] true) | ReturnError => Err err end
      | Ok patterns =>
          let? '(matchers, invalid) := build_matchers behavior convention patterns [] false in
          Ok (mkPrepared roots matchers invalid)
      end
  end.

Definition candidate_bytes (c : PathConvention) (path : Url) : list N :=
  match c with
  | Posix => decode_binary (url_path path)
  | Windows => as_bytes (backslashes_to_slashes (inferred_native_path_string path))
  end.

Definition matches_prepared_read_deny (path : Url) ctx (prepared : PreparedReadDenyMatcher) : bool :=
  match infer_path_convention (ctx_cwd ctx) with
  | None => true
  | Some convention =>
      if negb (bool_decide (infer_path_convention path = Some convention))
         || bool_decide (lexical_depth path = None) || bool_decide (lexical_depth (ctx_cwd ctx) = None)
      then true
      else if invalid_pattern prepared then true
      else existsb (uri_starts_with path) (denied_roots prepared)
           || existsb (λ m, glob_is_match m (candidate_bytes convention path)) (deny_read_matchers prepared)
  end.

(** [ReadDenyMatcher::from_context] *)
Definition read_deny_matcher_from_context ctx p : option PreparedReadDenyMatcher :=
  if existsb is_deny (entries p) then
    match prepare_deny_read_matcher ctx FailClosed p with Ok prepared => Some prepared | Err _ => None end
  else None.

(** * Workspace roots *)

Definition resolve_scoped_workspace_path (root : Url) (subpath : str) : option Url :=
  convention ← infer_path_convention root;
  if starts_with [SLASH] subpath
     || (bool_decide (convention = Windows) && starts_with [BACKSLASH] subpath)
     || existsb is_dots (path_segments convention subpath)
     || (bool_decide (convention = Windows) && existsb (contains_char COLON) (path_segments convention subpath))
  then None
  else match uri_join root subpath with
       | Ok path => if uri_starts_with path root then Some path else None
       | Err _ => None
       end.

(** The subpath of a symbolic entry, and whether it is a glob. *)
Definition project_root_entry (path : FileSystemPath) : option (option str * bool) :=
  match path with
  | Special (ProjectRoots subpath) => Some (subpath, false)
  | GlobPattern pattern => (λ rest, (Some rest, true)) <$> strip_prefix PROJECT_ROOTS_GLOB_PATTERN_PREFIX pattern
  | _ => None
  end.

Definition glob_root_unsafe (root : Url) : bool :=
  match infer_path_convention root with
  | None => true
  | Some convention => negb (is_ok (validate_glob_directory root convention))
  end.

Definition materialize_entry (e : FileSystemSandboxEntry) (subpath : option str) (is_glob : bool) (root : Url)
    : option FileSystemSandboxEntry :=
  let path :=
    if is_glob && glob_root_unsafe root then None
    else match subpath with None => Some root | Some subpath => resolve_scoped_workspace_path root subpath end in
  match path with
  | Some path =>
      Some (mkEntry (if is_glob then GlobPattern (inferred_native_path_string path) else PathEntry path)
              (entry_access e) (missing_path_behavior e))
  | None =>
      if can_write (entry_access e) then None
      else Some (mkEntry (PathEntry root) Deny (missing_path_behavior e))
  end.

(** A home-relative denial, whose target the workspace roots do not tell. *)
Definition home_relative_denial (roots : list Url) (e : FileSystemSandboxEntry) (subpath : option str) : bool :=
  is_deny e
  && match subpath with
     | None => false
     | Some subpath =>
         existsb (λ root, match infer_path_convention root with
                          | Some c => bool_decide (is_Some (home_relative_suffix c subpath))
                          | None => false
                          end) roots
     end.

Fixpoint materialize_entries (roots : list Url) (l : list FileSystemSandboxEntry)
    : option (list FileSystemSandboxEntry) :=
  match l with
  | [] => Some []
  | e :: l =>
      match project_root_entry (entry_path e) with
      | None => cons e <$> materialize_entries roots l
      | Some (subpath, is_glob) =>
          if home_relative_denial roots e subpath then None
          else app (omap (materialize_entry e subpath is_glob) roots) <$> materialize_entries roots l
      end
  end.

Definition try_materialize_project_roots_with_path_uris (roots : list Url) p : option FileSystemSandboxPolicy :=
  (λ l, set_entries l p) <$> materialize_entries roots (entries p).

Definition materialize_project_roots_with_path_uris (roots : list Url) p : FileSystemSandboxPolicy :=
  default (restricted []) (try_materialize_project_roots_with_path_uris roots p).

Definition with_materialized_project_roots_for_path_uris (roots : list Url) p : FileSystemSandboxPolicy :=
  match try_materialize_project_roots_with_path_uris roots p with
  | None => restricted []
  | Some materialized => set_entries (foldl push_missing (entries p) (entries materialized)) p
  end.

(** * Executor contexts *)

Definition has_context_read_denials p ctx : bool :=
  is_restricted p
  && existsb (λ e, is_deny e
                   && negb match entry_path e with
                           | Special SlashTmp => negb (bool_decide (infer_path_convention (ctx_cwd ctx) = Some Posix))
                           | _ => false
                           end) (entries p).

Definition valid_context_path (c : PathConvention) (path : Url) : bool :=
  bool_decide (infer_path_convention path = Some c) && bool_decide (is_Some (lexical_depth path)).

Definition validate_entry_path ctx (c : PathConvention) (e : FileSystemSandboxEntry) : result TargetError unit :=
  match entry_path e with
  | PathEntry path => if valid_context_path c path then Ok tt else Err InvalidPath
  | Special Tmpdir =>
      match temporary_directories ctx with
      | None => Err MissingTemporaryDirectories
      | Some directories => if forallb (valid_context_path c) directories then Ok tt else Err UnsafeTemporaryDirectories
      end
  | Special (ProjectRoots (Some subpath)) =>
      if forallb (λ root, is_ok (uri_join root subpath)) (workspace_roots ctx) then Ok tt else Err InvalidPath
  | GlobPattern pattern =>
      if (starts_with (lit "~/") pattern || (bool_decide (c = Windows) && starts_with (lit "~\") pattern))
         && negb match user_home_dir ctx with Some home => valid_context_path c home | None => false end
      then Err InvalidPath else Ok tt
  | _ => Ok tt
  end.

Definition validate_context_paths p ctx : result TargetError unit :=
  match infer_path_convention (ctx_cwd ctx) with
  | None => Err InvalidPath
  | Some c =>
      if negb (valid_context_path c (ctx_cwd ctx)) || negb (forallb (valid_context_path c) (workspace_roots ctx))
      then Err InvalidPath
      else let? _ := collect_results (validate_entry_path ctx c <$> entries p) in Ok tt
  end.

(** [ReadDenyMatcher::try_new_with_context] *)
Definition try_new_with_context p ctx : result TargetError (option PreparedReadDenyMatcher) :=
  if negb (has_context_read_denials p ctx) then Ok None
  else
    let? _ := validate_context_paths p ctx in
    let? prepared := prepare_deny_read_matcher ctx ReturnError p in
    Ok (Some prepared).

Definition matcher_denies (m : option PreparedReadDenyMatcher) (path : Url) ctx : bool :=
  match m with Some m => matches_prepared_read_deny path ctx m | None => false end.

(** The loop over the metadata names; [None] keeps the original policy. *)
Fixpoint grant_metadata (m : option PreparedReadDenyMatcher) ctx (root : Url) (names : list str)
    (l : list FileSystemSandboxEntry) : option (list FileSystemSandboxEntry) :=
  match names with
  | [] => Some l
  | name :: names =>
      match join_descendant root name with
      | Err _ => None
      | Ok path =>
          grant_metadata m ctx root names
            (if matcher_denies m path ctx then l else l ++ [entry_new (PathEntry path) Write])
      end
  end.

Definition for_approved_command p ctx : FileSystemSandboxPolicy :=
  if negb (is_restricted p) then p
  else
    let approved := preserve_deny_read_restrictions_from p (restricted [entry_new (Special Root) Write]) in
    if bool_decide (workspace_roots ctx = [])
       && existsb (λ e, bool_decide (is_Some (project_root_entry (entry_path e)))) (entries approved)
    then p
    else
      default p (
        approved ← try_materialize_project_roots_with_path_uris (workspace_roots ctx) approved;
        root ← file_system_root ctx;
        matcher ← match try_new_with_context approved ctx with Ok m => Some m | Err _ => None end;
        if negb (can_write (resolve_access approved root ctx)) || matcher_denies matcher root ctx then None
        else (λ l, set_entries l approved) <$> grant_metadata matcher ctx root PROTECTED_METADATA_PATH_NAMES (entries approved)).

(** [seen.insert(..)]: the first of equal paths. *)
Fixpoint dedup_uris (seen l : list Url) : list Url :=
  match l with
  | [] => []
  | u :: l => if existsb (uri_eqb u) seen then dedup_uris seen l else u :: dedup_uris (u :: seen) l
  end.

Definition get_unreadable_roots_with_context p ctx : result TargetError (list Url) :=
  if negb (is_restricted p) then Ok []
  else if bool_decide (temporary_directories ctx = None)
          && existsb (λ e, is_deny e && match entry_path e with Special Tmpdir => true | _ => false end) (entries p)
  then Err UnreportedTemporaryDirectories
  else Ok (dedup_uris [] (prepared_denied_roots ctx p)).

(** * DenyReadValidator *)

Record DenyReadValidator := mkValidator {
  required_entries : list FileSystemSandboxEntry;
  validator_matcher : option PreparedReadDenyMatcher
}.

Inductive DenyReadViolation := MissingRequiredDeny | ReadablePath (path : Url).

Definition validator_new (required : FileSystemSandboxPolicy) ctx : result TargetError DenyReadValidator :=
  let? m :=
    (if has_context_read_denials required ctx
     then let? prepared := prepare_deny_read_matcher ctx ReturnError required in Ok (Some prepared)
     else Ok None) in
  Ok (mkValidator (entries required) m).

Definition violating_root (v : DenyReadValidator) ctx (e : FileSystemSandboxEntry) : option Url :=
  match entry_path e with
  | PathEntry path =>
      if can_read (entry_access e)
         && bool_decide (infer_path_convention path = infer_path_convention (ctx_cwd ctx))
         && matcher_denies (validator_matcher v) path ctx
      then Some path else None
  | _ => None
  end.

Definition validate (v : DenyReadValidator) (selected : FileSystemSandboxPolicy) ctx : result DenyReadViolation unit :=
  match find_map (violating_root v ctx) (entries selected) with
  | Some path => Err (ReadablePath path)
  | None =>
      if forallb (λ e, contains_entry e (entries selected)) (required_entries v)
      then Ok tt else Err MissingRequiredDeny
  end.

Definition validate_managed_deny_read p (required : FileSystemSandboxPolicy) ctx : result TargetError unit :=
  let? v := validator_new required ctx in
  map_err (λ _, Shadowed) (validate v p ctx).
End Globs.

(** * Facts: which entry decides *)

Definition key_le (a b : Url * FileSystemAccessMode * nat) : Prop :=
  a.2 < b.2 ∨ a.2 = b.2 ∧ access_rank a.1.2 ≤ access_rank b.1.2.

Lemma key_leb_spec a b : key_leb a b = true ↔ key_le a b.
Proof.
  destruct a as [[ra aa] da], b as [[rb ab] db]. unfold key_leb, key_le. cbn [fst snd].
  rewrite orb_true_iff, andb_true_iff, Nat.ltb_lt, Nat.eqb_eq, Nat.leb_le. done.
Qed.

Lemma key_leb_false a b : key_leb a b = false → key_le b a.
Proof.
  destruct a as [[ra aa] da], b as [[rb ab] db]. unfold key_leb, key_le. cbn [fst snd].
  rewrite orb_false_iff, andb_false_iff, Nat.ltb_ge, Nat.eqb_neq, Nat.leb_gt. lia.
Qed.

Lemma key_le_refl a : key_le a a.
Proof. unfold key_le. lia. Qed.

Lemma key_le_trans a b c : key_le a b → key_le b c → key_le a c.
Proof. unfold key_le. lia. Qed.

Lemma max_by_spec l :
  match max_by key_leb l with
  | Some m => m ∈ l ∧ ∀ x, x ∈ l → key_le x m
  | None => l = []
  end.
Proof.
  unfold max_by. induction l as [|x l IH] using rev_ind; [done|]. rewrite foldl_app. cbn [foldl].
  destruct (foldl _ None l) as [m|].
  - destruct IH as [Hm Hall]. destruct (key_leb m x) eqn:E.
    + apply key_leb_spec in E. split; [set_solver|]. intros y [Hy|Hy%list_elem_of_singleton]%elem_of_app; [|subst; apply key_le_refl].
      eapply key_le_trans; [by apply Hall|done].
    + apply key_leb_false in E. split; [set_solver|]. intros y [Hy|Hy%list_elem_of_singleton]%elem_of_app; [by apply Hall|by subst].
  - subst l. split; [set_solver|]. intros y ->%list_elem_of_singleton. apply key_le_refl.
Qed.

Lemma access_rank_inj a b : access_rank a = access_rank b → a = b.
Proof. by destruct a, b. Qed.

Section Access.
Context `{!UrlCodec}.
Implicit Types (p : FileSystemSandboxPolicy) (ctx : PolicyContext) (path root : Url).

Definition unresolvable (e : Url * FileSystemAccessMode) : bool :=
  bool_decide (lexical_depth e.1 = None) && negb (is_opaque e.1).

Definition with_depth (e : Url * FileSystemAccessMode) : list (Url * FileSystemAccessMode * nat) :=
  match lexical_depth e.1 with Some d => [(e, d)] | None => [] end.

Lemma depth_fold l acc :
  foldl depth_step (Some acc) l = if existsb unresolvable l then None else Some (acc ++ (l ≫= with_depth)).
Proof.
  revert acc. induction l as [|[root a] l IH]; intros acc; [cbn; by rewrite app_nil_r|].
  cbn [foldl existsb]. unfold unresolvable at 1. rewrite bind_cons. unfold with_depth at 1. cbn [depth_step mbind option_bind fst].
  assert (∀ l, foldl depth_step None l = None) as Hnone by (intros l'; by induction l').
  destruct (lexical_depth root) as [d|] eqn:Ed.
  - rewrite bool_decide_false by done. cbn [andb orb]. rewrite IH. by rewrite <- (assoc_L (++)).
  - rewrite bool_decide_true by done. destruct (is_opaque root); cbn [negb andb orb]; [apply IH|apply Hnone].
Qed.

(** Paths of the executor's convention that have a lexical depth. *)
Definition lexical_in ctx path : Prop :=
  ∃ c, infer_path_convention (ctx_cwd ctx) = Some c ∧ infer_path_convention path = Some c ∧
       is_Some (lexical_depth path) ∧ is_Some (lexical_depth (ctx_cwd ctx)).

Definition resolvable p ctx : Prop := Forall (λ e, unresolvable e = false) (resolved_entries ctx p).

(** An entry whose root contains the path, with the root's depth. *)
Definition applies p ctx path root (a : FileSystemAccessMode) (d : nat) : Prop :=
  (root, a) ∈ resolved_entries ctx p ∧ lexical_depth root = Some d ∧ uri_starts_with path root = true.

Lemma existsb_unresolvable p ctx : resolvable p ctx → existsb unresolvable (resolved_entries ctx p) = false.
Proof.
  intros Hr. destruct (existsb _ _) eqn:E; [|done]. apply existsb_exists in E as (e & He & Hu).
  unfold resolvable in Hr. rewrite Forall_forall in Hr. rewrite Hr in Hu; [done|]. by apply list_elem_of_In.
Qed.

Lemma elem_of_applying p ctx path root a d :
  (root, a, d) ∈ filter (λ e, uri_starts_with path e.1.1 = true) (resolved_entries ctx p ≫= with_depth)
  ↔ applies p ctx path root a d.
Proof.
  rewrite list_elem_of_filter, list_elem_of_bind. unfold applies, with_depth. cbn. split.
  - intros (Hp & [r' a'] & Hin & He). cbn in Hin. destruct (lexical_depth r') as [d'|] eqn:Ed;
      [|by apply not_elem_of_nil in Hin]. apply list_elem_of_singleton in Hin as [= -> -> ->]. done.
  - intros (Hin & Hd & Hp). split; [done|]. exists (root, a). cbn. rewrite Hd. split; [by left|done].
Qed.

Lemma resolve_access_unfold p ctx path :
  fs_kind p = Restricted → lexical_in ctx path → resolvable p ctx →
  resolve_access p path ctx =
  match max_by key_leb (filter (λ e, uri_starts_with path e.1.1 = true) (resolved_entries ctx p ≫= with_depth)) with
  | Some (_, access, _) => access
  | None => Deny
  end.
Proof.
  intros Hk (c & Hc & Hp & [d Hd] & [dc Hdc]) Hr. unfold resolve_access. rewrite Hk, Hc, Hp, Hd, Hdc.
  rewrite bool_decide_true, !bool_decide_false by done. cbn [negb orb].
  rewrite depth_fold, existsb_unresolvable by done. done.
Qed.

(** The deepest entry decides, and among equally deep ones the strictest. *)
Lemma resolve_access_decides p ctx path :
  fs_kind p = Restricted → lexical_in ctx path → resolvable p ctx →
  (∃ root d, applies p ctx path root (resolve_access p path ctx) d ∧
     ∀ root' a' d', applies p ctx path root' a' d' →
       d' < d ∨ d' = d ∧ access_rank a' ≤ access_rank (resolve_access p path ctx)) ∨
  (resolve_access p path ctx = Deny ∧ ∀ root a d, ¬ applies p ctx path root a d).
Proof.
  intros Hk Hl Hr. rewrite resolve_access_unfold by done.
  pose proof (max_by_spec (filter (λ e, uri_starts_with path e.1.1 = true) (resolved_entries ctx p ≫= with_depth))) as Hm.
  destruct (max_by _ _) as [[[root a] d]|].
  - destruct Hm as [Hin Hall]. left. exists root, d. split; [by apply elem_of_applying|].
    intros root' a' d' Ha. apply elem_of_applying in Ha. apply (Hall _ Ha).
  - right. split; [done|]. intros root a d Ha. apply elem_of_applying in Ha. rewrite Hm in Ha. by apply not_elem_of_nil in Ha.
Qed.

Lemma resolve_access_unique p ctx path root a d :
  fs_kind p = Restricted → lexical_in ctx path → resolvable p ctx → applies p ctx path root a d →
  (∀ root' a' d', applies p ctx path root' a' d' → d' < d ∨ d' = d ∧ access_rank a' ≤ access_rank a) →
  resolve_access p path ctx = a.
Proof.
  intros Hk Hl Hr Ha Hmax. destruct (resolve_access_decides p ctx path Hk Hl Hr) as [(r & d' & Hr' & Hm)|[_ Hno]];
    [|by destruct (Hno _ _ _ Ha)].
  apply access_rank_inj. specialize (Hm _ _ _ Ha). specialize (Hmax _ _ _ Hr'). lia.
Qed.

Lemma resolve_access_unresolvable p ctx path :
  fs_kind p = Restricted → ¬ resolvable p ctx → resolve_access p path ctx = Deny.
Proof.
  intros Hk Hr. unfold resolve_access. rewrite Hk. destruct (infer_path_convention _); [|done].
  destruct (_ || _ || _); [done|]. rewrite depth_fold. destruct (existsb _ _) eqn:E; [done|].
  exfalso. apply Hr. apply Forall_forall. intros e He. destruct (unresolvable e) eqn:Eu; [|done].
  assert (existsb unresolvable (resolved_entries ctx p) = true); [|congruence].
  apply existsb_exists. exists e. split; [by apply list_elem_of_In|done].
Qed.

Lemma resolve_access_not_lexical p ctx path :
  fs_kind p = Restricted → ¬ lexical_in ctx path → resolve_access p path ctx = Deny.
Proof.
  intros Hk Hl. unfold resolve_access. rewrite Hk. destruct (infer_path_convention (ctx_cwd ctx)) as [c|] eqn:Ec; [|done].
  destruct (_ || _ || _) eqn:E; [done|]. exfalso. apply Hl. exists c.
  rewrite !orb_false_iff, negb_false_iff, bool_decide_eq_true, !bool_decide_eq_false in E.
  destruct E as [[Hp Hd] Hcd]. split_and!; [done|done|by destruct (lexical_depth path)|by destruct (lexical_depth (ctx_cwd ctx))].
Qed.
End Access.

(** * The deciding entry *)

(** The context of a command that runs in [/w]. *)
Definition sample_context : PolicyContext := mkPolicyContext (uri_of [lit "w"]) [uri_of [lit "w"]] None None.

Definition grant (segs : list str) : FileSystemSandboxEntry := entry_new (PathEntry (uri_of segs)) Write.
Definition deny (segs : list str) : FileSystemSandboxEntry := entry_new (PathEntry (uri_of segs)) Deny.

Lemma sample_lexical : lexical_in sample_context (uri_of [lit "w"; lit "src"]).
Proof. exists Posix. split_and!; [by vm_compute..|by exists 2; vm_compute|by exists 1; vm_compute]. Qed.


