(* ===== verification/AccessRules.v ===== *)
(** What the file system policies of [Permissions] guarantee: which entry decides, what the
    full-disk flags, the protected metadata, the preserved denials and the policy of an
    approved command amount to. *)
From S2P Require Import Prelude Str UriPath NativePath ApprovalTypes Permissions.

(** * POSIX contexts *)

Section PosixContexts.
Context `{!UrlCodec, !UrlCodecLaws}.
Implicit Types (p : FileSystemSandboxPolicy) (ctx : PolicyContext) (path root u : Url).

Definition lexical_posix u : Prop := infer_path_convention u = Some Posix ∧ is_Some (lexical_depth u).

Lemma lexical_not_opaque u : is_Some (lexical_depth u) → is_opaque u = false.
Proof. by intros [d (? & _)%lexical_depth_spec]. Qed.

Lemma lexical_posix_posix u : lexical_posix u → posix u.
Proof. intros [Hc Hd]. split; [done|]. by apply lexical_not_opaque. Qed.

Lemma depth_decoded u d : lexical_depth u = Some d → d = length (decoded u).
Proof. intros (_ & c & _ & _ & ->)%lexical_depth_spec. unfold decoded. by rewrite length_fmap. Qed.

Lemma posix_contains path root :
  lexical_posix path → lexical_posix root → uri_starts_with path root = true ↔ decoded root `prefix_of` decoded path.
Proof.
  intros Hp Hr. rewrite starts_with_posix by (by apply lexical_posix_posix). destruct Hp, Hr. split; [|by right].
  by intros [->|(_ & _ & ?)].
Qed.

Lemma posix_eqb u v : lexical_posix u → uri_eqb u v = true → u = v.
Proof.
  intros Hu. rewrite uri_eqb_spec. intros [->|(x & y & Hx & _)]; [done|].
  by rewrite posix_identity in Hx by (by apply lexical_posix_posix).
Qed.

Lemma uri_eqb_posix u v : lexical_posix v → uri_eqb u v = true → u = v.
Proof. intros Hv Heq. symmetry. apply posix_eqb; [done|]. by apply uri_eqb_sym. Qed.

(** A POSIX context: the working directory is a POSIX path with segments. *)
Definition posix_context ctx : Prop := well_formed (ctx_cwd ctx) ∧ lexical_posix (ctx_cwd ctx).

Lemma posix_parent_none u : lexical_posix u → parent u = None → decoded u = [].
Proof.
  intros [Hc Hd] Hp. unfold parent in Hp. rewrite (lexical_not_opaque u Hd), Hc in Hp. cbn [mbind option_bind anchor_depth] in Hp.
  destruct (_ <=? 0) eqn:E; [|done]. apply Nat.leb_le in E. unfold decoded.
  destruct (non_empty_segments u); [done|]. cbn in E. lia.
Qed.

Lemma posix_root ctx :
  posix_context ctx → ∃ root, file_system_root ctx = Some root ∧ lexical_posix root ∧ decoded root = [] ∧
                              well_formed root ∧ parent root = None.
Proof.
  intros [Hw [Hc Hd]]. unfold file_system_root. destruct Hd as [d Hd]. rewrite Hd. cbn [mbind option_bind].
  destruct (ancestors_fuel_last (length (url_segments (ctx_cwd ctx))) (ctx_cwd ctx) Hw (steps_up_bound _ Hw)) as (r & Hl & Hp).
  unfold ancestors. rewrite Hl. exists r. split; [done|].
  assert (r ∈ ancestors_fuel (length (url_segments (ctx_cwd ctx))) (ctx_cwd ctx)) as Hin.
  { apply last_Some in Hl as [l' ->]. set_solver. }
  destruct (ancestors_fuel_below _ (ctx_cwd ctx) r Hw (mk_is_Some _ _ Hd) Hin) as (_ & Hwr & Hdr & _ & Hcr & _).
  assert (lexical_posix r) as Hr by (split; [congruence|done]). split_and!; [done|by apply posix_parent_none|done|done].
Qed.

Lemma lexical_posix_in ctx path : posix_context ctx → lexical_posix path → lexical_in ctx path.
Proof. intros [_ [Hc Hd]] [Hp Hdp]. by exists Posix. Qed.

Lemma applies_posix p ctx path root a d :
  posix_context ctx → applies p ctx path root a d → lexical_posix root ∧ d = length (decoded root).
Proof.
  intros [_ [Hc _]] (Hin & Hd & _). split; [|by apply depth_decoded]. split; [|by eexists].
  apply list_elem_of_bind in Hin as (e & He & _). unfold resolve_entry in He. apply list_elem_of_fmap in He as (u & [= -> ->] & Hu).
  apply list_elem_of_filter in Hu as [Hu _]. by rewrite Hu.
Qed.

Lemma applies_intro p ctx path root a :
  lexical_posix path → lexical_posix root → (root, a) ∈ resolved_entries ctx p → decoded root `prefix_of` decoded path →
  applies p ctx path root a (length (decoded root)).
Proof.
  intros Hp Hr Hin Hpre. split; [done|]. split; [|by apply posix_contains].
  destruct Hr as [_ [d Hd]]. rewrite Hd. f_equal. by apply depth_decoded.
Qed.

Lemma resolved_intro p ctx e u :
  e ∈ entries p → u ∈ entry_targets ctx (entry_path e) → infer_path_convention u = infer_path_convention (ctx_cwd ctx) →
  (u, entry_access e) ∈ resolved_entries ctx p.
Proof.
  intros He Hu Hc. apply list_elem_of_bind. exists e. split; [|done]. unfold resolve_entry. apply list_elem_of_fmap.
  exists u. split; [done|]. by apply list_elem_of_filter.
Qed.

Lemma resolved_elim p ctx u a :
  (u, a) ∈ resolved_entries ctx p →
  ∃ e, e ∈ entries p ∧ a = entry_access e ∧ u ∈ entry_targets ctx (entry_path e) ∧
       infer_path_convention u = infer_path_convention (ctx_cwd ctx).
Proof.
  intros Hin. apply list_elem_of_bind in Hin as (e & He & Hine). unfold resolve_entry in He.
  apply list_elem_of_fmap in He as (u' & [= -> ->] & Hu). apply list_elem_of_filter in Hu as [Hc Hu]. by exists e.
Qed.

(** ** The directory /tmp *)

Lemma drive_decodes s : is_windows_drive_uri_segment s = true → length (decode_binary s) = 2.
Proof.
  intros Hs. destruct (drive_segment_cases s Hs) as (c & t & -> & Hc & [->|(a & -> & Ha)] & _).
  all: assert ((c < 128)%N ∧ c ≠ 37%N) as [H1 H2] by (split; apply upper_char_spec in Hc; tauto).
  - rewrite !decode_plain by done. by rewrite decode_nil.
  - rewrite decode_plain by done. by rewrite decode_escaped_colon.
Qed.

Definition tmp_uri : Url := mkUrl None [encode_segment (lit "tmp")].

Lemma tmp_scalar : scalar_text (lit "tmp").
Proof. split; apply (bool_decide_unpack _); by vm_compute. Qed.

Lemma tmp_names : names_ok [lit "tmp"].
Proof.
  exists [lit "tmp"], []. split_and!; [done| |by left]. apply Forall_singleton.
  unfold plain_component. split_and!; [done|done|done| |apply tmp_scalar]. apply (bool_decide_unpack _). by vm_compute.
Qed.

Lemma tmp_not_bad : is_opaque tmp_uri = false.
Proof.
  unfold is_opaque. apply bool_decide_eq_false. unfold tmp_uri. rewrite no_nul_not_bad; [by intros []|].
  apply (names_no_nul _ tmp_names).
Qed.

Lemma tmp_decoded : decoded tmp_uri = [lit "tmp"].
Proof.
  unfold decoded, tmp_uri, non_empty_segments. cbn [url_segments]. rewrite filter_cons_True by (by apply encode_ne; [apply tmp_scalar|]).
  change (filter _ []) with (@nil str). cbn. f_equal. rewrite encode_decode by apply tmp_scalar. done.
Qed.

Lemma tmp_posix : lexical_posix tmp_uri.
Proof.
  assert (infer_path_convention tmp_uri = Some Posix) as Hc.
  { rewrite infer_not_opaque by apply tmp_not_bad. rewrite bool_decide_false by (by intros []).
    assert (non_empty_segments tmp_uri = [encode_segment (lit "tmp")]) as ->.
    { unfold tmp_uri, non_empty_segments. cbn [url_segments]. by rewrite filter_cons_True by (by apply encode_ne; [apply tmp_scalar|]). }
    cbn [head]. destruct (is_windows_drive_uri_segment _) eqn:E; [|done]. apply drive_decodes in E.
    rewrite encode_decode in E by apply tmp_scalar. done. }
  split; [done|]. unfold lexical_depth. rewrite tmp_not_bad, Hc. cbn [mbind option_bind]. unfold containment_path_segments.
  assert (non_empty_segments tmp_uri = [encode_segment (lit "tmp")]) as ->.
  { unfold tmp_uri, non_empty_segments. cbn [url_segments]. by rewrite filter_cons_True by (by apply encode_ne; [apply tmp_scalar|]). }
  cbn [existsb]. rewrite encode_decode by apply tmp_scalar. by eexists.
Qed.

Lemma join_tmp ctx : posix_context ctx → uri_join (ctx_cwd ctx) (lit "/tmp") = Ok tmp_uri.
Proof.
  intros [_ [Hc _]]. unfold uri_join. rewrite (bool_decide_false (0%N ∈ _)) by (by apply (bool_decide_unpack _); vm_compute).
  rewrite bool_decide_false by done. rewrite Hc.
  change (lit "/tmp") with (text_of_names [lit "tmp"]).
  pose proof (parse_names [lit "tmp"] tmp_names) as Hp. rewrite (from_absolute_names _ _ tmp_names Hp).
  assert (upper_drive (segments_of_names [lit "tmp"]) = segments_of_names [lit "tmp"]) as ->.
  { cbn [segments_of_names fmap list_fmap upper_drive]. destruct (encode_segment (lit "tmp")) as [|c t] eqn:E; [done|].
    destruct (is_windows_drive_uri_segment (c :: t)) eqn:Ed; [|done]. rewrite <- E in Ed. apply drive_decodes in Ed.
    rewrite encode_decode in Ed by apply tmp_scalar. done. }
  by rewrite bool_decide_true by apply tmp_posix.
Qed.
End PosixContexts.

(** * Full-disk access *)

Section FullDisk.
Context `{!UrlCodec, !UrlCodecLaws}.
Implicit Types (p : FileSystemSandboxPolicy) (ctx : PolicyContext) (path root u : Url).

Lemma slash_tmp_decoded u : lexical_posix u → special_path_matches_path_uri SlashTmp u = true → decoded u = [lit "tmp"].
Proof.
  intros [Hc Hd]. cbn [special_path_matches_path_uri]. rewrite !andb_true_iff, !bool_decide_eq_true. intros [[_ H1] Hb].
  unfold basename in Hb. rewrite (lexical_not_opaque u Hd) in Hb. apply depth_decoded in H1. unfold decoded in *.
  destruct (non_empty_segments u) as [|s [|]]; try done. cbn in Hb. injection Hb as Hb. cbn. f_equal.
  unfold decode_uri_path in Hb. destruct (url_decode s) as [t|] eqn:E; cbn in Hb; subst.
  - by rewrite (url_decode_bytes _ _ E).
  - change (lit "tmp") with [116; 109; 112]%N. rewrite !decode_plain by done. by rewrite decode_nil.
Qed.

Lemma root_write_resolved p ctx :
  posix_context ctx → has_root_access can_write p = true →
  ∃ root, lexical_posix root ∧ (root, Write) ∈ resolved_entries ctx p ∧ decoded root = [].
Proof.
  intros Hctx. destruct (posix_root ctx Hctx) as (r & Hr & Hl & Hd & _). unfold has_root_access.
  rewrite andb_true_iff, existsb_exists. intros [_ (e & He%list_elem_of_In & Hw)]. exists r. split; [done|]. split; [|done].
  destruct (entry_path e) as [| |[]] eqn:Ep; try done. destruct (entry_access e) eqn:Ea; try done.
  rewrite <- Ea. apply resolved_intro; [done| |].
  - rewrite Ep. cbn. rewrite Hr. by left.
  - destruct Hl as [-> _]. by destruct Hctx as [_ [-> _]].
Qed.

(** An entry that shares its target with another resolves to the same place. *)
Lemma shared_target ctx (lhs rhs : FileSystemPath) root :
  posix_context ctx → lexical_posix root → root ∈ entry_targets ctx rhs →
  file_system_paths_share_target lhs rhs Posix = true →
  ∃ root', root' ∈ entry_targets ctx lhs ∧ lexical_posix root' ∧ decoded root' = decoded root.
Proof.
  intros Hctx Hroot Hin Hsh. destruct (posix_root ctx Hctx) as (r & Hr & Hlr & Hdr & _).
  destruct lhs as [l| |lv], rhs as [q| |rv]; try done; cbn [file_system_paths_share_target] in Hsh.
  - cbn in Hin. apply list_elem_of_singleton in Hin as ->. apply uri_eqb_posix in Hsh as ->; [|done]. exists q. split; [by left|done].
  - apply andb_true_iff in Hsh as [Hc%bool_decide_eq_true Hm]. exists l. split; [by left|]. destruct rv; try done.
    + cbn in Hm. rewrite andb_true_iff, !bool_decide_eq_true in Hm. destruct Hm as [Hd Hp].
      assert (lexical_posix l) as Hl by done. split; [done|]. rewrite (posix_parent_none l Hl Hp).
      cbn in Hin. rewrite Hr in Hin. cbn in Hin. apply list_elem_of_singleton in Hin as ->. done.
    + assert (lexical_posix l) as Hl.
      { split; [done|]. cbn in Hm. rewrite !andb_true_iff, !bool_decide_eq_true in Hm. destruct Hm as [[_ ->] _]. by eexists. }
      split; [done|]. rewrite (slash_tmp_decoded l Hl Hm). cbn in Hin. destruct Hctx as [Hw [Hc0 Hd0]].
      rewrite bool_decide_true in Hin by done. rewrite join_tmp in Hin by done. cbn in Hin.
      apply list_elem_of_singleton in Hin as ->. by rewrite tmp_decoded.
  - by apply not_elem_of_nil in Hin.
  - apply andb_true_iff in Hsh as [Hc%bool_decide_eq_true Hm]. cbn in Hin. apply list_elem_of_singleton in Hin as ->.
    destruct lv; try done.
    + cbn in Hm. rewrite andb_true_iff, !bool_decide_eq_true in Hm. destruct Hm as [_ Hp].
      exists r. cbn. rewrite Hr. split; [by left|]. split; [done|]. by rewrite (posix_parent_none q Hroot Hp).
    + exists tmp_uri. split; [|split; [apply tmp_posix|by rewrite (slash_tmp_decoded q Hroot Hm), tmp_decoded]].
      cbn [entry_targets]. rewrite bool_decide_true by apply Hctx. rewrite join_tmp by done. by left.
  - exists root. split; [|done]. destruct lv, rv; try done; cbn in Hsh.
    apply bool_decide_eq_true in Hsh as ->. done.
Qed.

Lemma override_resolved p ctx e root :
  posix_context ctx → lexical_posix root → root ∈ entry_targets ctx (entry_path e) →
  has_same_target_write_override e Posix p = true →
  entry_access e = Read ∧ ∃ root', lexical_posix root' ∧ (root', Write) ∈ resolved_entries ctx p ∧ decoded root' = decoded root.
Proof.
  intros Hctx Hroot Hin. unfold has_same_target_write_override. rewrite existsb_exists.
  intros (cand & Hc%list_elem_of_In & [[Hw Hlt%Nat.ltb_lt]%andb_true_iff Hsh]%andb_true_iff).
  destruct (entry_access cand) eqn:Ea; try done. split; [destruct (entry_access e); cbn in Hlt; [done|lia|lia]|].
  destruct (shared_target ctx _ _ root Hctx Hroot Hin Hsh) as (r & Hr & Hl & Hd). exists r. split; [done|]. split; [|done].
  rewrite <- Ea. apply resolved_intro; [done|done|]. destruct Hl as [-> _]. by destruct Hctx as [_ [-> _]].
Qed.

(** Without narrowing entries every entry that is not a grant has a grant beside it. *)
Lemma no_narrowing p ctx e root :
  posix_context ctx → has_root_access can_write p = true → narrows_write Posix p e = false →
  entry_access e ≠ Write → lexical_posix root → root ∈ entry_targets ctx (entry_path e) →
  entry_access e = Read ∧ ∃ root', lexical_posix root' ∧ (root', Write) ∈ resolved_entries ctx p ∧ decoded root' = decoded root.
Proof.
  intros Hctx Hrw Hn Hne Hroot Hin. unfold narrows_write in Hn.
  destruct (can_write (entry_access e)) eqn:Ew; [by destruct (entry_access e)|].
  assert (has_same_target_write_override e Posix p = true → entry_access e = Read ∧
    ∃ root', lexical_posix root' ∧ (root', Write) ∈ resolved_entries ctx p ∧ decoded root' = decoded root) as Hov
    by (by apply override_resolved).
  rewrite (bool_decide_false (Posix = Windows)) in Hn by done.
  destruct (entry_path e) as [q| |[]] eqn:Ep; try done; try (by apply Hov, negb_false_iff);
    try (by apply not_elem_of_nil in Hin).
  apply bool_decide_eq_false in Hn. destruct (entry_access e); try done.
  destruct (root_write_resolved p ctx Hctx Hrw) as (r & Hr & Hres & Hd). split; [done|]. exists r. split; [done|]. split; [done|].
  destruct (posix_root ctx Hctx) as (r' & Hr' & _ & Hd' & _). cbn in Hin. rewrite Hr' in Hin. cbn in Hin.
  apply list_elem_of_singleton in Hin as ->. congruence.
Qed.

Lemma full_disk_write_access p ctx path :
  fs_kind p = Restricted → posix_context ctx → lexical_posix path → resolvable p ctx →
  has_full_disk_write_access_with_context ctx p = true → resolve_access p path ctx = Write.
Proof.
  intros Hk Hctx Hp Hres Hf. unfold has_full_disk_write_access_with_context, has_full_disk_write_access_for_convention in Hf.
  rewrite Hk in Hf. destruct Hctx as [Hw [Hc Hd]]. rewrite Hc in Hf. assert (posix_context ctx) as Hctx by done.
  apply andb_true_iff in Hf as [Hrw Hnn%negb_true_iff].
  assert (∀ e, e ∈ entries p → narrows_write Posix p e = false) as Hnarrow.
  { intros e He. unfold has_write_narrowing_entries, is_restricted in Hnn. rewrite Hk, bool_decide_true in Hnn by done.
    cbn [andb] in Hnn. destruct (narrows_write Posix p e) eqn:E; [|done].
    assert (existsb (narrows_write Posix p) (entries p) = true); [|congruence].
    apply existsb_exists. exists e. split; [by apply list_elem_of_In|done]. }
  destruct (root_write_resolved p ctx Hctx Hrw) as (r & Hr & Hrr & Hdr).
  destruct (resolve_access_decides p ctx path Hk (lexical_posix_in _ _ Hctx Hp) Hres) as [(root & d & Ha & Hmax)|[_ Hno]].
  - destruct (decide (resolve_access p path ctx = Write)) as [?|Hne]; [done|exfalso].
    destruct (applies_posix _ _ _ _ _ _ Hctx Ha) as [Hroot ->]. destruct Ha as (Hin & _ & Hst).
    apply resolved_elim in Hin as (e & He & Eacc & Ht & _).
    destruct (no_narrowing p ctx e root Hctx Hrw (Hnarrow e He)) as (Er & r' & Hr' & Hin' & Hd'); [congruence|done|done|].
    assert (applies p ctx path r' Write (length (decoded r'))) as Ha'.
    { apply applies_intro; [done..|]. rewrite Hd'. by apply posix_contains. }
    specialize (Hmax _ _ _ Ha'). rewrite Hd', Eacc, Er in Hmax. cbn in Hmax. lia.
  - exfalso. apply (Hno r Write (length (decoded r))). apply applies_intro; [done..|]. rewrite Hdr. apply prefix_nil.
Qed.
End FullDisk.

(** * Preserved denials *)

Section Preserved.
Context `{!UrlCodec}.
Implicit Types (p existing : FileSystemSandboxPolicy) (ctx : PolicyContext) (path root : Url).

Lemma entry_eqb_refl e : entry_eqb e e = true.
Proof.
  unfold entry_eqb. rewrite !bool_decide_true by done. rewrite !andb_true_r. destruct (entry_path e); cbn.
  - apply uri_eqb_refl.
  - by apply bool_decide_eq_true.
  - by apply bool_decide_eq_true.
Qed.

Lemma contains_entry_app e l l' : contains_entry e (l ++ l') = contains_entry e l || contains_entry e l'.
Proof. unfold contains_entry. apply existsb_app. Qed.

(** What is pushed comes from the list, and everything of the list is there after. *)
Lemma push_missing_fold ds l :
  ∃ ds', foldl push_missing l ds = l ++ ds' ∧ (∀ e, e ∈ ds' → e ∈ ds) ∧
         (∀ e, e ∈ ds → contains_entry e (l ++ ds') = true).
Proof.
  revert l. induction ds as [|d ds IH]; intros l; [exists []; rewrite app_nil_r; set_solver|]. cbn [foldl].
  assert (push_missing l d = if contains_entry d l then l else l ++ [d]) as -> by done.
  destruct (contains_entry d l) eqn:E.
  - destruct (IH l) as (ds' & -> & Hsub & Hall). exists ds'. split; [done|]. split; [set_solver|].
    intros e [->|He]%elem_of_cons; [|by apply Hall]. by rewrite contains_entry_app, E.
  - destruct (IH (l ++ [d])) as (ds' & -> & Hsub & Hall). rewrite <- (assoc_L (++)) in *. exists ([d] ++ ds'). split; [done|].
    split; [set_solver|]. intros e [->|He]%elem_of_cons; [|by apply Hall].
    rewrite !contains_entry_app. cbn. rewrite entry_eqb_refl. cbn. by rewrite orb_true_r.
Qed.

Lemma resolved_app l l' p ctx : entries p = l ++ l' → resolved_entries ctx p = (l ≫= resolve_entry ctx) ++ (l' ≫= resolve_entry ctx).
Proof. intros E. unfold resolved_entries. by rewrite E, bind_app. Qed.

(** Entries that only deny can only turn an access into a denial. *)
Lemma denials_reduce p q ctx path ds :
  fs_kind p = Restricted → fs_kind q = Restricted → entries q = entries p ++ ds → Forall (λ e, entry_access e = Deny) ds →
  resolve_access q path ctx = Deny ∨ resolve_access q path ctx = resolve_access p path ctx.
Proof.
  intros Hkp Hkq Eq Hds. pose proof (resolved_app _ _ _ ctx Eq) as Er. change (entries p ≫= resolve_entry ctx) with (resolved_entries ctx p) in Er.
  destruct (decide (resolve_access q path ctx = Deny)) as [?|Hnd]; [by left|right].
  destruct (decide (existsb unresolvable (resolved_entries ctx q) = true)) as [Hu|Hu].
  { destruct Hnd. apply resolve_access_unresolvable; [done|]. intros Hr. apply existsb_unresolvable in Hr. congruence. }
  assert (resolvable q ctx) as Hrq.
  { apply Forall_forall. intros e He. destruct (unresolvable e) eqn:E; [|done]. destruct Hu. apply existsb_exists.
    exists e. split; [by apply list_elem_of_In|done]. }
  assert (resolvable p ctx) as Hrp by (unfold resolvable in *; rewrite Er in Hrq; by apply Forall_app in Hrq as []).
  assert (lexical_in ctx path) as Hl.
  { destruct (infer_path_convention (ctx_cwd ctx)) as [c|] eqn:Ec; [|by unfold resolve_access in Hnd; rewrite Hkq, Ec in Hnd].
    unfold resolve_access in Hnd. rewrite Hkq, Ec in Hnd. destruct (_ || _ || _) eqn:E; [done|].
    rewrite !orb_false_iff, negb_false_iff, bool_decide_eq_true, !bool_decide_eq_false in E. destruct E as [[H1 H2] H3].
    exists c. split_and!; [done|done|by destruct (lexical_depth path)|by destruct (lexical_depth (ctx_cwd ctx))]. }
  destruct (resolve_access_decides q ctx path Hkq Hl Hrq) as [(root & d & (Hin & Hd & Hst) & Hmax)|[? _]]; [|done].
  rewrite Er in Hin. apply elem_of_app in Hin as [Hin|Hin].
  - symmetry. eapply resolve_access_unique; [done..|by split_and!|]. intros r' a' d' (Hin' & Hd' & Hst').
    apply (Hmax r'). split_and!; [|done..]. rewrite Er. set_solver.
  - destruct Hnd. apply list_elem_of_bind in Hin as (e & He & Hine). rewrite Forall_forall in Hds.
    unfold resolve_entry in He. apply list_elem_of_fmap in He as (u & [= _ E] & _). rewrite E. by apply Hds.
Qed.

Lemma access_from_entries p ctx path :
  fs_kind p = Restricted → resolve_access p path ctx = Deny ∨ ∃ e, e ∈ entries p ∧ entry_access e = resolve_access p path ctx.
Proof.
  intros Hk. unfold resolve_access. rewrite Hk. destruct (infer_path_convention _); [|by left].
  destruct (_ || _ || _); [by left|]. rewrite depth_fold. destruct (existsb _ _); [by left|]. cbn [app].
  pose proof (max_by_spec (filter (λ e, uri_starts_with path e.1.1 = true) (resolved_entries ctx p ≫= with_depth))) as Hm.
  destruct (max_by _ _) as [[[root a] d]|]; [|by left]. destruct Hm as [Hin _]. apply elem_of_applying in Hin as (Hin & _ & _).
  apply list_elem_of_bind in Hin as (e & He & Hine). unfold resolve_entry in He. apply list_elem_of_fmap in He as (u & [= -> ->] & _).
  right. by exists e.
Qed.

Lemma preserve_entries existing p :
  fs_kind p = Restricted →
  ∃ ds, entries (preserve_deny_read_restrictions_from existing p) = entries p ++ ds ∧
        fs_kind (preserve_deny_read_restrictions_from existing p) = Restricted ∧
        Forall (λ e, e ∈ entries existing ∧ entry_access e = Deny) ds ∧
        ∀ e, e ∈ entries existing → entry_access e = Deny → contains_entry e (entries p ++ ds) = true.
Proof.
  intros Hk. unfold preserve_deny_read_restrictions_from. rewrite Hk, bool_decide_false by done. cbn [andb].
  unfold is_restricted. rewrite Hk, bool_decide_true by done. cbn [negb entries fs_kind].
  destruct (push_missing_fold (deny_entries existing) (entries p)) as (ds & -> & Hsub & Hall). exists ds. split_and!; [done|done| |].
  - apply Forall_forall. intros e He. apply Hsub in He. unfold deny_entries in He. apply list_elem_of_filter in He as []. done.
  - intros e He Ha. apply Hall. by apply list_elem_of_filter.
Qed.
End Preserved.

(** * Materialised entries *)

Section Materialised.
Context `{!UrlCodec}.

Lemma materialize_elem roots l l' e' :
  materialize_entries roots l = Some l' → e' ∈ l' →
  (e' ∈ l ∧ project_root_entry (entry_path e') = None) ∨
  ∃ e subpath is_glob root, e ∈ l ∧ project_root_entry (entry_path e) = Some (subpath, is_glob) ∧ root ∈ roots ∧
    materialize_entry e subpath is_glob root = Some e'.
Proof.
  revert l'. induction l as [|e l IH]; intros l'; cbn [materialize_entries]; [by intros [= <-] ?%not_elem_of_nil|].
  destruct (project_root_entry (entry_path e)) as [[subpath is_glob]|] eqn:Ep.
  - destruct (home_relative_denial roots e subpath); [done|]. destruct (materialize_entries roots l) as [rest|]; [|done].
    cbn. intros [= <-] [Hin|Hin]%elem_of_app.
    + apply list_elem_of_omap in Hin as (root & Hr & Hm). right. exists e, subpath, is_glob, root. split_and!; [by left|done..].
    + destruct (IH rest eq_refl Hin) as [[? ?]|(e0 & s & g & r & ? & ?)]; [left; set_solver|].
      right. exists e0, s, g, r. split; [by right|done].
  - destruct (materialize_entries roots l) as [rest|]; [|done]. cbn. intros [= <-] [->|Hin]%elem_of_cons; [left; set_solver|].
    destruct (IH rest eq_refl Hin) as [[? ?]|(e0 & s & g & r & ? & ?)]; [left; set_solver|].
    right. exists e0, s, g, r. split; [by right|done].
Qed.

Lemma materialize_keeps roots l l' e :
  materialize_entries roots l = Some l' → e ∈ l → project_root_entry (entry_path e) = None → e ∈ l'.
Proof.
  revert l'. induction l as [|x l IH]; intros l'; cbn [materialize_entries]; [by intros _ ?%not_elem_of_nil|].
  destruct (project_root_entry (entry_path x)) as [[subpath is_glob]|] eqn:Ep.
  - destruct (home_relative_denial roots x subpath); [done|]. destruct (materialize_entries roots l) as [rest|]; [|done].
    cbn. intros [= <-] [->|He]%elem_of_cons Hn; [congruence|]. apply elem_of_app. right. by apply IH.
  - destruct (materialize_entries roots l) as [rest|]; [|done]. cbn. intros [= <-] [->|He]%elem_of_cons Hn; [by left|].
    right. by apply IH.
Qed.

Lemma materialize_deny e subpath is_glob root e' :
  materialize_entry e subpath is_glob root = Some e' → entry_access e' = entry_access e ∨ entry_access e' = Deny.
Proof.
  unfold materialize_entry. destruct (if is_glob && glob_root_unsafe root then _ else _).
  - intros [= <-]. by left.
  - destruct (can_write (entry_access e)); [done|]. intros [= <-]. by right.
Qed.
End Materialised.

(** * Approved commands *)

Section Approved.
Context `{!UrlCodec, !UrlCodecLaws, !GlobEngine}.
Implicit Types (p : FileSystemSandboxPolicy) (ctx : PolicyContext) (path root u : Url).

Lemma contains_lexical path root : lexical_posix path → uri_starts_with path root = true → lexical_posix root.
Proof.
  intros Hp. unfold uri_starts_with. destruct (uri_eqb path root) eqn:E; [intros _; by apply posix_eqb in E as <-|].
  destruct (is_opaque path || is_opaque root) eqn:Eo; [done|]. apply orb_false_iff in Eo as [_ Eo].
  destruct (negb (bool_decide (url_host path = url_host root))); [done|]. destruct Hp as [Hc _]. rewrite Hc.
  case_bool_decide as Ec; cbn [negb]; [|done]. cbn [default from_option id].
  destruct (containment_path_segments path Posix); [|done]. destruct (containment_path_segments root Posix) eqn:Es; [|done].
  intros _. split; [done|]. unfold lexical_depth. rewrite Eo, <- Ec. cbn [mbind option_bind]. rewrite Es. by eexists.
Qed.

Lemma filter_upper_drive segs :
  length (filter (λ s : str, s ≠ []) (upper_drive segs)) = length (filter (λ s : str, s ≠ []) segs).
Proof.
  destruct (upper_drive_spec segs) as [->|(pre & c & t & post & -> & _ & _ & _ & ->)]; [done|].
  rewrite !filter_app, !length_app, !filter_cons_True by done. done.
Qed.

Lemma push_segment_count s segs :
  length (filter (λ s : str, s ≠ []) (push_segment s segs)) ≤ length (filter (λ s : str, s ≠ []) segs) + 1.
Proof.
  assert (∀ s : str, length (filter (λ s : str, s ≠ []) [s]) ≤ 1) as Hone.
  { intros [|c t]; [rewrite filter_cons_False by (by intros [])|rewrite filter_cons_True by done]; rewrite filter_nil; cbn; lia. }
  unfold push_segment. case_bool_decide as E; [|rewrite filter_app, length_app; pose proof (Hone (encode_segment s)); lia].
  pose proof (Hone (encode_segment s)). lia.
Qed.

(** A metadata name is one component. *)
Lemma metadata_component name :
  name ∈ PROTECTED_METADATA_PATH_NAMES →
  path_segments Posix name = [name] ∧ from_absolute_native_path name Posix = None ∧ name ≠ [] ∧ 0%N ∉ name ∧
  name ≠ lit "." ∧ name ≠ lit "..".
Proof.
  revert name. apply Forall_forall.
  repeat constructor; try (by apply (bool_decide_unpack _); vm_compute); try done; intros ?; by apply (bool_decide_unpack _); vm_compute.
Qed.

Lemma join_metadata_depth u name v :
  lexical_posix u → name ∈ PROTECTED_METADATA_PATH_NAMES → join_descendant u name = Ok v →
  length (decoded v) ≤ length (decoded u) + 1.
Proof.
  intros [Hc Hd] Hname. destruct (metadata_component name Hname) as (Hseg & Habs & Hne & Hn & Hdot & Hdots).
  unfold join_descendant. destruct (uri_join u name) as [w|] eqn:Ej; [|done]. cbn [res_bind].
  destruct (_ || _ || _); [done|]. intros [= <-]. unfold uri_join in Ej.
  rewrite (bool_decide_false (0%N ∈ name)), bool_decide_false, Hc, Habs in Ej by done. cbn [is_drive_relative andb] in Ej.
  rewrite (lexical_not_opaque u Hd) in Ej. unfold join_relative in Ej. rewrite (bool_decide_false (Posix = Windows)) in Ej by done.
  cbn [andb] in Ej. rewrite Hseg in Ej. cbn [foldl join_step] in Ej.
  rewrite !bool_decide_false in Ej by done. cbn [orb] in Ej. unfold finish_url in Ej.
  destruct (validate_file_url _); [|done]. cbn [res_bind] in Ej. injection Ej as <-.
  rewrite (posix_host u (lexical_posix_posix u (conj Hc Hd))). unfold without_localhost_authority. cbn [url_host].
  rewrite bool_decide_false by done. unfold with_normalized_windows_drive_letter. cbn [url_host].
  rewrite bool_decide_false by (by intros []). unfold decoded, non_empty_segments. rewrite !length_fmap. cbn [url_segments].
  rewrite filter_upper_drive. etrans; [apply push_segment_count|]. by rewrite pop_if_empty_filter.
Qed.

(** The entries of an approved command: the root, the denials, and metadata below the root. *)
Definition approved_entry ctx root (e : FileSystemSandboxEntry) : Prop :=
  entry_access e = Deny ∨
  entry_access e = Write ∧ (entry_path e = Special Root ∨
    ∃ name q, name ∈ PROTECTED_METADATA_PATH_NAMES ∧ join_descendant root name = Ok q ∧ entry_path e = PathEntry q).

Lemma grant_metadata_spec m ctx root names l l' :
  grant_metadata m ctx root names l = Some l' →
  ∃ extra, l' = l ++ extra ∧ ∀ e, e ∈ extra → ∃ name q, name ∈ names ∧ join_descendant root name = Ok q ∧ e = entry_new (PathEntry q) Write.
Proof.
  revert l. induction names as [|name names IH]; intros l; cbn [grant_metadata].
  - intros [= <-]. exists []. split; [by rewrite app_nil_r|]. by intros e ?%not_elem_of_nil.
  - destruct (join_descendant root name) as [q|] eqn:Ej; [|done]. intros (extra & -> & Hx)%IH.
    destruct (matcher_denies m q ctx).
    + exists extra. split; [done|]. intros e He. destruct (Hx e He) as (n & q' & Hn & ?). exists n, q'. split; [by right|done].
    + rewrite <- (assoc_L (++)). exists ([entry_new (PathEntry q) Write] ++ extra). split; [done|].
      intros e [->%list_elem_of_singleton|He]%elem_of_app.
      * exists name, q. split; [by left|done].
      * destruct (Hx e He) as (n & q' & Hn & ?). exists n, q'. split; [by right|done].
Qed.

(** The policy an approved command gets, when it is not the original one. *)
Lemma approved_shape p ctx :
  for_approved_command p ctx = p ∨
  ∃ root approved extra,
    file_system_root ctx = Some root ∧ fs_kind approved = Restricted ∧
    for_approved_command p ctx = set_entries (entries approved ++ extra) approved ∧
    can_write (resolve_access approved root ctx) = true ∧
    Forall (approved_entry ctx root) (entries approved ++ extra) ∧
    (∀ e, e ∈ entries p → entry_access e = Deny → project_root_entry (entry_path e) = None →
       contains_entry e (entries approved) = true) ∧
    (∀ e, e ∈ entries approved → entry_access e = Write → entry_path e = Special Root).
Proof.
  unfold for_approved_command. destruct (is_restricted p); [|by left]. cbn [negb]. destruct (_ && _); [by left|].
  destruct (preserve_entries p (restricted [entry_new (Special Root) Write]) eq_refl) as (ds & Eds & Hk & Hds & Hall).
  set (a1 := preserve_deny_read_restrictions_from p _) in *. unfold try_materialize_project_roots_with_path_uris.
  destruct (materialize_entries (workspace_roots ctx) (entries a1)) as [l|] eqn:Em; [|by left]. cbn [mbind option_bind fmap option_fmap option_map].
  destruct (file_system_root ctx) as [root|]; [|by left]. cbn [mbind option_bind].
  destruct (try_new_with_context (set_entries l a1) ctx) as [m|]; [|by left]. cbn [mbind option_bind].
  destruct (can_write (resolve_access (set_entries l a1) root ctx)) eqn:Ew; [|by left]. cbn [negb orb].
  destruct (matcher_denies m root ctx); [by left|].
  destruct (grant_metadata _ _ _ _ _) as [l'|] eqn:Eg; [|by left]. cbn [fmap option_fmap option_map default from_option id].
  destruct (grant_metadata_spec _ _ _ _ _ _ Eg) as (extra & -> & Hextra). right. exists root, (set_entries l a1), extra.
  assert (∀ e, e ∈ l → entry_access e = Deny ∨ entry_access e = Write ∧ entry_path e = Special Root) as Hl.
  { intros e He. rewrite Eds in Em. rewrite Forall_forall in Hds.
    destruct (materialize_elem _ _ _ _ Em He) as [[Hin _]|(e0 & s & g & r & Hin & Hpr & _ & Hm)];
      cbn in Hin; apply elem_of_cons in Hin as [->|Hin]; [by right|left; by apply Hds| |].
    - done.
    - left. destruct (Hds _ Hin) as [_ Ed]. destruct (materialize_deny _ _ _ _ _ Hm) as [E|E]; congruence. }
  split_and!; [done|done|done|done| | |].
  - apply Forall_app. split; apply Forall_forall; intros e He.
    + destruct (Hl e He) as [?|[? ?]]; [by left|right; by split; [|left]].
    + destruct (Hextra e He) as (name & q & Hn & Hj & ->). right. split; [done|]. right. by exists name, q.
  - intros e He Ha Hp. pose proof (Hall e He Ha) as Hc. rewrite <- Eds in Hc. unfold contains_entry in *.
    rewrite existsb_exists in Hc |- *. destruct Hc as (x & Hx%list_elem_of_In & Heq). exists x. split; [|done].
    apply list_elem_of_In. eapply materialize_keeps; [done|done|].
    unfold entry_eqb in Heq. rewrite !andb_true_iff in Heq. destruct Heq as [[Heq _] _].
    destruct (entry_path x), (entry_path e); try done; cbn in Heq; apply bool_decide_eq_true in Heq; by subst.
  - intros e He Ha. destruct (Hl e He) as [?|[_ ?]]; [congruence|done].
Qed.

Lemma denied_entry_resolved p ctx e d path :
  posix_context ctx → lexical_posix path → uri_starts_with path d = true →
  entry_path e = PathEntry d → entry_access e = Deny → contains_entry e (entries p) = true →
  applies p ctx path d Deny (length (decoded d)).
Proof.
  intros Hctx Hp Hst Ep Ea Hc. pose proof (contains_lexical _ _ Hp Hst) as Hd. apply applies_intro; [done|done| |by apply posix_contains].
  unfold contains_entry in Hc. apply existsb_exists in Hc as (x & Hx%list_elem_of_In & Heq).
  unfold entry_eqb in Heq. rewrite !andb_true_iff, !bool_decide_eq_true in Heq. destruct Heq as [[Heq Hac] _].
  rewrite Ep in Heq. destruct (entry_path x) as [q| |] eqn:Eq; try done. cbn in Heq. apply uri_eqb_posix in Heq as ->; [|done].
  rewrite <- Ea, <- Hac. apply resolved_intro; [done|rewrite Eq; by left|]. destruct Hd as [-> _]. by destruct Hctx as [_ [-> _]].
Qed.

Lemma approved_denies p ctx e d path :
  posix_context ctx → lexical_posix path → uri_starts_with path d = true →
  e ∈ entries p → entry_path e = PathEntry d → entry_access e = Deny →
  for_approved_command p ctx = p ∨ resolve_access (for_approved_command p ctx) path ctx = Deny.
Proof.
  intros Hctx Hp Hst He Ep Ea. destruct (approved_shape p ctx) as [?|(root & ap & extra & Hroot & Hk & -> & Hw & Hall & Hkeep & Hwr)]; [by left|right].
  pose proof (Hkeep e He Ea ltac:(by rewrite Ep)) as Hc. set (q := set_entries _ ap).
  assert (fs_kind q = Restricted) as Hkq by done.
  destruct (decide (resolve_access q path ctx = Deny)) as [?|Hnd]; [done|exfalso].
  destruct (decide (existsb unresolvable (resolved_entries ctx q) = true)) as [Hu|Hu].
  { destruct Hnd. apply resolve_access_unresolvable; [done|]. intros Hr. apply existsb_unresolvable in Hr. congruence. }
  assert (resolvable q ctx) as Hrq.
  { apply Forall_forall. intros x Hx. destruct (unresolvable x) eqn:E; [|done]. destruct Hu. apply existsb_exists.
    exists x. split; [by apply list_elem_of_In|done]. }
  assert (applies q ctx path d Deny (length (decoded d))) as Hd.
  { eapply denied_entry_resolved; [done..|]. cbn [entries q set_entries]. rewrite contains_entry_app. by rewrite Hc. }
  destruct (resolve_access_decides q ctx path Hkq (lexical_posix_in _ _ Hctx Hp) Hrq) as [(r & dr & Hr & Hmax)|[? _]]; [|done].
  pose proof (Hmax _ _ _ Hd) as Hle. destruct (applies_posix _ _ _ _ _ _ Hctx Hr) as [Hlr ->]. destruct Hr as (Hin & _ & _).
  apply resolved_elim in Hin as (x & Hx & Eacc & Ht & _). rewrite Forall_forall in Hall.
  destruct (Hall x Hx) as [E|[E Hpath]]; [congruence|]. rewrite Eacc, E in Hle. cbn [access_rank] in Hle.
  destruct (posix_root ctx Hctx) as (root' & Hroot' & Hlroot & Hdroot & _). rewrite Hroot in Hroot'. injection Hroot' as <-.
  assert (length (decoded r) ≤ 1) as Hr1.
  { destruct Hpath as [Hs|(name & v & Hn & Hj & Hs)]; rewrite Hs in Ht; cbn in Ht.
    - rewrite Hroot in Ht. cbn in Ht. apply list_elem_of_singleton in Ht as ->. rewrite Hdroot. cbn. lia.
    - apply list_elem_of_singleton in Ht as ->. pose proof (join_metadata_depth root name v Hlroot Hn Hj) as Hj'.
      rewrite Hdroot in Hj'. cbn in Hj'. lia. }
  assert (decoded d = []) as Hd0 by (destruct (decoded d); [done|cbn in Hle; lia]).
  assert (resolve_access ap root ctx = Deny) as Hdeny; [|by rewrite Hdeny in Hw].
  pose proof (contains_lexical _ _ Hp Hst) as Hld.
  eapply (resolve_access_unique ap ctx root d Deny 0); [done|by apply lexical_posix_in| | |].
  - apply Forall_forall. intros y Hy. unfold resolvable in Hrq. rewrite Forall_forall in Hrq. apply Hrq.
    unfold resolved_entries in *. cbn [entries q set_entries]. rewrite bind_app. set_solver.
  - pose proof (denied_entry_resolved ap ctx e d root Hctx Hlroot) as Hx'. rewrite Hd0 in Hx'. apply Hx'; [|done..].
    apply posix_contains; [done|done|]. rewrite Hd0. apply prefix_nil.
  - intros r' a' d' Ha'. destruct (applies_posix _ _ _ _ _ _ Hctx Ha') as [Hr' ->]. destruct Ha' as (_ & _ & Hst').
    apply posix_contains in Hst'; [|done|done]. rewrite Hdroot in Hst'. apply prefix_nil_inv in Hst' as ->. right. split; [done|].
    destruct a'; cbn; lia.
Qed.
End Approved.

(** * Protected metadata, workspace grants and the read-deny matcher *)

Section Guards.
Context `{!UrlCodec, !GlobEngine}.
Implicit Types (p : FileSystemSandboxPolicy) (ctx : PolicyContext) (path root : Url).

(** The path is in a protected directory of a writable root. *)
Definition in_protected p ctx path : Prop :=
  ∃ root name protected, (root, Write) ∈ resolved_entries ctx p ∧ name ∈ PROTECTED_METADATA_PATH_NAMES ∧
    join_descendant root name = Ok protected ∧ uri_starts_with path protected = true.

(** A grant that lies in a protected directory and contains the path. *)
Definition granted_inside p ctx path : Prop :=
  ∃ root, (root, Write) ∈ resolved_entries ctx p ∧ uri_starts_with path root = true ∧ in_protected p ctx root.

Lemma protected_directory_Some path root protected name :
  protected_directory path root = Some (protected, name) →
  name ∈ PROTECTED_METADATA_PATH_NAMES ∧ join_descendant root name = Ok protected ∧ uri_starts_with path protected = true.
Proof.
  unfold protected_directory. intros Hf. apply find_map_inv in Hf as (n & Hn & Hm).
  destruct (join_descendant root n) eqn:Ej; [|done]. destruct (uri_starts_with path a) eqn:E; [|done]. by injection Hm as <- <-.
Qed.

Lemma metadata_denied p ctx path :
  fs_kind p = Restricted → in_protected p ctx path → ¬ granted_inside p ctx path → is_Some (metadata_write_denial p path ctx).
Proof.
  intros Hk (root & name & prot & Hin & Hname & Hj & Hst) Hno. unfold metadata_write_denial, is_restricted.
  rewrite Hk, bool_decide_true by done. cbn [negb].
  assert (is_Some (find_map (λ e : Url * FileSystemAccessMode, protected_directory path e.1)
            (filter (λ e, can_write e.2 = true) (resolved_entries ctx p)))) as [[pr n] Hf].
  { apply find_map_Some. exists (root, Write). split; [by apply list_elem_of_filter|]. unfold protected_directory.
    apply find_map_Some. exists name. split; [done|]. cbn [fst]. rewrite Hj, Hst. by eexists. }
  rewrite Hf. cbn [mbind option_bind]. destruct (existsb _ _) eqn:E; [exfalso|by eexists].
  apply find_map_inv in Hf as ([r a] & Hr & Hp). apply list_elem_of_filter in Hr as [Hw Hr]. cbn in Hw, Hp. destruct a; try done.
  apply protected_directory_Some in Hp as (Hn & Hj' & _).
  apply existsb_exists in E as ([g b] & Hg%list_elem_of_In & Hb). cbn in Hb. rewrite !andb_true_iff in Hb. destruct Hb as [[Hb1 Hb2] Hb3].
  destruct b; try done. apply Hno. exists g. split_and!; [done|done|]. by exists r, n, pr.
Qed.

(** Where materialising puts the entries for workspace roots. *)
Lemma materialized_in_root e subpath is_glob root e' :
  materialize_entry e subpath is_glob root = Some e' → can_write (entry_access e') = true → is_glob = false →
  ∃ q, entry_path e' = PathEntry q ∧ uri_starts_with q root = true ∧ entry_access e = Write.
Proof.
  unfold materialize_entry. intros Hm Hw ->. cbn [andb] in Hm.
  destruct (match subpath with None => Some root | Some s => resolve_scoped_workspace_path root s end) as [q|] eqn:E.
  - injection Hm as <-. cbn in Hw. exists q. split; [done|]. split; [|by destruct (entry_access e)]. destruct subpath as [s|].
    + unfold resolve_scoped_workspace_path in E. destruct (infer_path_convention root) as [c|]; [|done]. cbn [mbind option_bind] in E.
      destruct (_ || _ || _ || _); [done|]. destruct (uri_join root s); [|done]. destruct (uri_starts_with a root) eqn:Es; [|done].
      by injection E as <-.
    + injection E as <-. unfold uri_starts_with. by rewrite uri_eqb_refl.
  - destruct (can_write (entry_access e)); [done|]. by injection Hm as <-.
Qed.

Lemma build_matchers_closed c patterns ms b :
  ∃ ms' b', build_matchers FailClosed c patterns ms b = Ok (ms', b') ∧
    (b = true → b' = true) ∧
    (∀ pattern err, pattern ∈ patterns → build_glob_matcher pattern c = Err err → b' = true) ∧
    (∀ m, m ∈ ms → m ∈ ms') ∧
    (∀ pattern m, pattern ∈ patterns → build_glob_matcher pattern c = Ok m → m ∈ ms').
Proof.
  revert ms b. induction patterns as [|pat pats IH]; intros ms b; cbn [build_matchers].
  { exists ms, b. split_and!; [done|done|by intros ?? ?%not_elem_of_nil|done|by intros ?? ?%not_elem_of_nil]. }
  destruct (build_glob_matcher pat c) as [m|err] eqn:Eb.
  - destruct (IH (ms ++ [m]) b) as (ms' & b' & -> & H1 & H2 & H3 & H4). exists ms', b'. split_and!; [done|done| | |].
    + intros q e [->|Hq]%elem_of_cons Hb; [congruence|by eapply H2].
    + intros x Hx. apply H3. set_solver.
    + intros q x [->|Hq]%elem_of_cons Hb; [|by eapply H4]. rewrite Eb in Hb. injection Hb as ->. apply H3. set_solver.
  - destruct (IH ms true) as (ms' & b' & -> & H1 & H2 & H3 & H4). exists ms', b'. split_and!; [done|by intros; apply H1| |done|].
    + intros q e [->|Hq]%elem_of_cons Hb; [by apply H1|by eapply H2].
    + intros q x [->|Hq]%elem_of_cons Hb; [congruence|by eapply H4].
Qed.

Lemma collect_results_Ok {E A} (l : list (result E A)) l' : collect_results l = Ok l' → l = Ok <$> l'.
Proof.
  revert l'. induction l as [|r l IH]; intros l'; cbn [collect_results]; [by intros [= <-]|].
  destruct r as [a|]; [|done]. cbn [res_bind]. destruct (collect_results l) as [rest|]; [|done]. cbn [res_bind].
  intros [= <-]. by rewrite (IH rest).
Qed.

Lemma prepare_closed ctx p :
  ∃ m, prepare_deny_read_matcher ctx FailClosed p = Ok m ∧ denied_roots m = prepared_denied_roots ctx p ∧
    ∀ pattern c, pattern ∈ (entries p ≫= deny_glob_of) → infer_path_convention (ctx_cwd ctx) = Some c →
      match deny_read_glob ctx pattern with
      | Err _ => invalid_pattern m = true
      | Ok resolved =>
          invalid_pattern m = true ∨ ∃ g, build_glob_matcher resolved c = Ok g ∧ g ∈ deny_read_matchers m
      end.
Proof.
  unfold prepare_deny_read_matcher. destruct (infer_path_convention (ctx_cwd ctx)) as [c|]; [|by eexists; split_and!].
  destruct (deny_read_globs ctx p) as [patterns|err] eqn:Eg.
  - destruct (build_matchers_closed c patterns [] false) as (ms & b & -> & _ & Herr & _ & Hok). cbn [res_bind].
    eexists. split_and!; [done|done|]. intros pattern c' Hp [= <-]. cbn.
    unfold deny_read_globs in Eg. apply collect_results_Ok in Eg.
    assert (deny_read_glob ctx pattern ∈ (Ok <$> patterns : list (result TargetError str))) as Hin.
    { rewrite <- Eg. apply list_elem_of_fmap. by exists pattern. }
    apply list_elem_of_fmap in Hin as (r & -> & Hr). destruct (build_glob_matcher r c) as [g|e'] eqn:Eb.
    + right. exists g. split; [done|]. by eapply Hok.
    + left. by eapply Herr.
  - eexists. split_and!; [done|done|]. intros pattern c' _ _. destruct (deny_read_glob ctx pattern); by try left.
Qed.
End Guards.

(** * Theorems *)

Lemma sample_context_posix : posix_context sample_context.
Proof.
  split; [|split; [by vm_compute|by exists 1; vm_compute]].
  split; cbn [url_segments url_host uri_of ctx_cwd sample_context]; [done| |right|done|done].
  all: repeat constructor; by apply (bool_decide_unpack _).
Qed.

(** When a restricted policy is said to give full-disk write access, every path is
    writable: no entry of it narrows the grant on the root. *)
Theorem full_disk_write_sound `{!UrlCodec, !UrlCodecLaws} (p : FileSystemSandboxPolicy) (ctx : PolicyContext) (path : Url) :
  posix_context ctx → lexical_posix path → resolvable p ctx →
  has_full_disk_write_access_with_context ctx p = true →
  resolve_access p path ctx = Write ∧ can_write_path p path ctx = true.
Proof.
  intros Hctx Hp Hr Hf. assert (resolve_access p path ctx = Write) as Hw.
  { destruct (fs_kind p) eqn:Ek; [by apply full_disk_write_access|by unfold resolve_access; rewrite Ek..]. }
  split; [done|]. unfold can_write_path. rewrite Hw. cbn [can_write negb]. by rewrite Hf.
Qed.

Lemma full_disk_write_sound_witness :
  can_write_path (restricted [entry_new (Special Root) Write; entry_new (Special SlashTmp) Read; grant [lit "tmp"]])
    (uri_of [lit "etc"; lit ".git"]) sample_context = true.
Proof.
  apply (full_disk_write_sound (restricted [entry_new (Special Root) Write; entry_new (Special SlashTmp) Read; grant [lit "tmp"]])
           sample_context (uri_of [lit "etc"; lit ".git"]) sample_context_posix).
  - split; [by vm_compute|by exists 2; vm_compute].
  - repeat constructor.
  - by vm_compute.
Defined.

(** Metadata of a writable root ([.git], [.agents], [.codex], [.aws]) is not writable
    unless a grant lies inside protected metadata and contains the path. *)
Theorem metadata_protected `{!UrlCodec} (p : FileSystemSandboxPolicy) (ctx : PolicyContext) (path : Url) :
  fs_kind p = Restricted → has_full_disk_write_access_with_context ctx p = false →
  in_protected p ctx path → ¬ granted_inside p ctx path → can_write_path p path ctx = false.
Proof.
  intros Hk Hf Hin Hno. unfold can_write_path. destruct (can_write _); [|done]. cbn [negb]. rewrite Hf. cbn [orb].
  destruct (metadata_denied p ctx path Hk Hin Hno) as [name ->]. done.
Qed.

Lemma metadata_protected_witness :
  can_write_path (restricted [grant [lit "w"]]) (uri_of [lit "w"; lit ".git"; lit "config"]) sample_context = false.
Proof.
  apply (metadata_protected (restricted [grant [lit "w"]]) sample_context (uri_of [lit "w"; lit ".git"; lit "config"]) eq_refl).
  - by vm_compute.
  - exists (uri_of [lit "w"]), (lit ".git"), (uri_of [lit "w"; lit ".git"]).
    split_and!; [vm_compute; left|left|by vm_compute|by vm_compute].
  - intros (root & Hin & _ & r & name & prot & Hr & Hn & Hj & Hst).
    assert (∀ x, x ∈ resolved_entries sample_context (restricted [grant [lit "w"]]) → x = (uri_of [lit "w"], Write)) as Hall.
    { intros x Hx. vm_compute in Hx. by apply list_elem_of_singleton in Hx. }
    apply Hall in Hin, Hr. injection Hin as ->. injection Hr as ->. unfold PROTECTED_METADATA_PATH_NAMES in Hn.
    rewrite !elem_of_cons, elem_of_nil in Hn.
    destruct Hn as [->|[->|[->|[->|[]]]]]; vm_compute in Hj; injection Hj as <-; by vm_compute in Hst.
Defined.

(** The protection depends on the order of the entries: with the grants [/w] and
    [/w/.git/x] the metadata directory [/w/.git/x/.codex] is writable, with the same
    grants in the other order it is not. *)
Theorem metadata_protection_depends_on_order :
  let path := uri_of [lit "w"; lit ".git"; lit "x"; lit ".codex"; lit "f"] in
  can_write_path (restricted [grant [lit "w"]; grant [lit "w"; lit ".git"; lit "x"]]) path sample_context = true ∧
  can_write_path (restricted [grant [lit "w"; lit ".git"; lit "x"]; grant [lit "w"]]) path sample_context = false.
Proof. split; by vm_compute. Qed.

(** Taking over the denials of another policy never widens access: each access stays
    or becomes a denial; every denial of the other policy is then an entry, also when the
    policy was unrestricted. *)
Theorem preserved_denials `{!UrlCodec} (p existing : FileSystemSandboxPolicy) (ctx : PolicyContext) (path : Url) :
  let q := preserve_deny_read_restrictions_from existing p in
  (resolve_access q path ctx = Deny ∨ resolve_access q path ctx = resolve_access p path ctx) ∧
  ∀ e, e ∈ entries existing → entry_access e = Deny → fs_kind p ≠ ExternalSandbox →
       fs_kind q = Restricted ∧ contains_entry e (entries q) = true.
Proof.
  cbv zeta. destruct (fs_kind p) eqn:Ek.
  - destruct (preserve_entries existing p Ek) as (ds & E & Hk & Hds & Hall). split.
    + apply (denials_reduce p _ ctx path ds Ek Hk E). eapply Forall_impl; [exact Hds|]. by intros e [_ ?].
    + intros e He Ha _. split; [done|]. rewrite E. by apply Hall.
  - destruct (existsb is_deny (entries existing)) eqn:Ed.
    + assert (preserve_deny_read_restrictions_from existing p
              = preserve_deny_read_restrictions_from existing (restricted [entry_new (Special Root) Write])) as ->.
      { unfold preserve_deny_read_restrictions_from. by rewrite Ek, Ed. }
      destruct (preserve_entries existing (restricted [entry_new (Special Root) Write]) eq_refl) as (ds & E & Hk & Hds & Hall).
      split; [|intros e He Ha _; split; [done|]; rewrite E; by apply Hall].
      destruct (access_from_entries _ ctx path Hk) as [?|(e & He & Ha)]; [by left|]. rewrite E in He.
      rewrite Forall_forall in Hds. apply elem_of_app in He as [->%list_elem_of_singleton|He]; [right|left].
      * rewrite <- Ha. unfold resolve_access. by rewrite Ek.
      * rewrite <- Ha. by apply Hds.
    + split.
      * right. unfold preserve_deny_read_restrictions_from, is_restricted. rewrite Ed, andb_false_r, Ek. done.
      * intros e He Ha _. exfalso. assert (existsb is_deny (entries existing) = true); [|congruence].
        apply existsb_exists. exists e. split; [by apply list_elem_of_In|]. unfold is_deny. by apply bool_decide_eq_true.
  - split; [|done]. right. unfold preserve_deny_read_restrictions_from.
    rewrite Ek, (bool_decide_false (ExternalSandbox = Unrestricted)) by done. cbn [andb]. unfold is_restricted.
    by rewrite Ek, bool_decide_false.
Qed.

(** C30: On an executor with POSIX paths (the working directory and the accessed path are
    lexical POSIX paths; Windows paths are not covered), approving a command keeps the denials
    of concrete paths: under the policy it then runs with, every path below a denied path is
    denied, unless the original policy is kept as it was. Percent encoding and decoding, of
    the url crate, are assumed to be inverse and to keep slashes apart, as documented. *)
Theorem approved_command_keeps_denials `{!UrlCodec, !UrlCodecLaws, !GlobEngine} (p : FileSystemSandboxPolicy)
    (ctx : PolicyContext) (e : FileSystemSandboxEntry) (d path : Url) :
  posix_context ctx → lexical_posix path → uri_starts_with path d = true →
  e ∈ entries p → entry_path e = PathEntry d → entry_access e = Deny →
  for_approved_command p ctx = p ∨ resolve_access (for_approved_command p ctx) path ctx = Deny.
Proof. apply approved_denies. Qed.

(** Globs that match nothing. *)
#[local] Instance no_globs : GlobEngine :=
  {| GlobMatcher := unit; glob_build := λ _ _ _, Ok tt; glob_is_match := λ _ _, false |}.

Lemma approved_command_keeps_denials_witness :
  resolve_access (for_approved_command (restricted [grant [lit "w"]; deny [lit "w"; lit "src"]]) sample_context)
    (uri_of [lit "w"; lit "src"; lit "a"]) sample_context = Deny ∧
  resolve_access (for_approved_command (restricted [grant [lit "w"]; deny [lit "w"; lit "src"]]) sample_context)
    (uri_of [lit "etc"]) sample_context = Write.
Proof.
  split; [|by vm_compute].
  destruct (approved_command_keeps_denials (restricted [grant [lit "w"]; deny [lit "w"; lit "src"]]) sample_context
              (deny [lit "w"; lit "src"]) (uri_of [lit "w"; lit "src"]) (uri_of [lit "w"; lit "src"; lit "a"])) as [Hp|Hd].
  - apply sample_context_posix.
  - split; [by vm_compute|by exists 3; vm_compute].
  - by vm_compute.
  - right. left.
  - done.
  - done.
  - by vm_compute in Hp.
  - exact Hd.
Defined.

(** Replacing the symbolic workspace roots by concrete ones keeps every grant inside a
    workspace root: an entry that grants writing was there before, is a glob, or is a path
    below one of the roots that comes from a symbolic grant. *)
Theorem materialized_grants_scoped `{!UrlCodec} (p q : FileSystemSandboxPolicy) (roots : list Url) (e : FileSystemSandboxEntry) :
  try_materialize_project_roots_with_path_uris roots p = Some q → e ∈ entries q → can_write (entry_access e) = true →
  (e ∈ entries p ∧ project_root_entry (entry_path e) = None) ∨ (∃ pattern, entry_path e = GlobPattern pattern) ∨
  ∃ u root e0 subpath, entry_path e = PathEntry u ∧ root ∈ roots ∧ uri_starts_with u root = true ∧
    e0 ∈ entries p ∧ entry_path e0 = Special (ProjectRoots subpath) ∧ entry_access e0 = Write.
Proof.
  unfold try_materialize_project_roots_with_path_uris. destruct (materialize_entries roots (entries p)) as [l|] eqn:Em; [|done].
  intros [= <-] He Hw. cbn [entries set_entries] in He. destruct (materialize_elem _ _ _ _ Em He) as [?|(e0 & s & g & r & He0 & Hp & Hr & Hm)];
    [by left|right]. destruct g.
  - left. unfold materialize_entry in Hm. destruct (if _ && _ then _ else _); [injection Hm as <-; by eexists|].
    destruct (can_write (entry_access e0)); [done|]. by injection Hm as <-.
  - right. destruct (materialized_in_root _ _ _ _ _ Hm Hw eq_refl) as (u & Hu & Hst & Ha).
    exists u, r, e0, s. split_and!; [done..| |done]. unfold project_root_entry in Hp.
    destruct (entry_path e0) as [|pat|[]]; try done; [by destruct (strip_prefix _ pat)|]. by injection Hp as <-.
Qed.

Lemma materialized_grants_scoped_witness :
  ∃ q, try_materialize_project_roots_with_path_uris [uri_of [lit "w"]]
         (restricted [entry_new (Special (ProjectRoots (Some (lit "out")))) Write]) = Some q ∧
       uri_starts_with (uri_of [lit "w"; lit "out"]) (uri_of [lit "w"]) = true ∧
       entries q = [grant [lit "w"; lit "out"]].
Proof.
  exists (restricted [grant [lit "w"; lit "out"]]). split; [by vm_compute|]. split; [|done].
  destruct (materialized_grants_scoped (restricted [entry_new (Special (ProjectRoots (Some (lit "out")))) Write])
              (restricted [grant [lit "w"; lit "out"]]) [uri_of [lit "w"]] (grant [lit "w"; lit "out"]))
    as [[Hin _]|[[pat Hpat]|(u & root & _ & _ & [= <-] & Hr & Hst & _)]].
  - by vm_compute.
  - left.
  - done.
  - by apply list_elem_of_singleton in Hin.
  - done.
  - by apply list_elem_of_singleton in Hr as ->.
Defined.

(** The matcher of denied reads fails closed: whenever a policy denies anything there is
    one; it denies every path it cannot compare, every path below a denied root, and every
    path a deny glob matches; and a deny glob that cannot be resolved or built denies all. *)
Theorem read_deny_matcher_fails_closed `{!UrlCodec, !GlobEngine} (p : FileSystemSandboxPolicy) (ctx : PolicyContext) :
  existsb is_deny (entries p) = true →
  ∃ m, read_deny_matcher_from_context ctx p = Some m ∧
    (∀ path, ¬ lexical_in ctx path → matches_prepared_read_deny path ctx m = true) ∧
    (∀ path root, (root, Deny) ∈ resolved_entries ctx p → is_file_system_root (file_system_root ctx) root = false →
       uri_starts_with path root = true → matches_prepared_read_deny path ctx m = true) ∧
    (∀ path pattern, pattern ∈ (entries p ≫= deny_glob_of) →
       match deny_read_glob ctx pattern with
       | Err _ => matches_prepared_read_deny path ctx m = true
       | Ok resolved => ∀ c, infer_path_convention (ctx_cwd ctx) = Some c →
           match build_glob_matcher resolved c with
           | Err _ => matches_prepared_read_deny path ctx m = true
           | Ok g => glob_is_match g (candidate_bytes c path) = true → matches_prepared_read_deny path ctx m = true
           end
       end).
Proof.
  intros Hd. unfold read_deny_matcher_from_context. rewrite Hd. destruct (prepare_closed ctx p) as (m & -> & Hroots & Hglobs).
  exists m. split; [done|]. unfold matches_prepared_read_deny.
  destruct (infer_path_convention (ctx_cwd ctx)) as [c|] eqn:Ec.
  2: { split_and!; [done|done|]. intros path pattern _. by case_match. }
  split_and!.
  - intros path Hl. destruct (_ || _ || _) eqn:E; [done|]. exfalso. apply Hl. exists c.
    rewrite !orb_false_iff, negb_false_iff, bool_decide_eq_true, !bool_decide_eq_false in E. destruct E as [[H1 H2] H3].
    split_and!; [done|done|by destruct (lexical_depth path)|by destruct (lexical_depth (ctx_cwd ctx))].
  - intros path root Hin Hnr Hst. destruct (_ || _ || _); [done|]. destruct (invalid_pattern m); [done|].
    apply orb_true_iff. left. rewrite Hroots. apply existsb_exists. exists root. split; [|done]. apply list_elem_of_In.
    unfold prepared_denied_roots. apply list_elem_of_fmap. exists (root, Deny). split; [done|]. by apply list_elem_of_filter.
  - intros path pattern Hp. specialize (Hglobs pattern c Hp eq_refl).
    destruct (_ || _ || _).
    { destruct (deny_read_glob ctx pattern) as [r|]; [|done]. intros c' _. clear Hglobs. destruct (build_glob_matcher r c'); done. }
    destruct (deny_read_glob ctx pattern) as [r|]; [|by rewrite Hglobs]. intros c' [= <-].
    destruct (invalid_pattern m); [by destruct (build_glob_matcher r c)|]. destruct Hglobs as [?|(g & Hg & Hin)]; [done|]. rewrite Hg.
    intros Hm. apply orb_true_iff. right. apply existsb_exists. exists g. split; [by apply list_elem_of_In|done].
Qed.

Lemma read_deny_matcher_fails_closed_witness :
  ∃ m, read_deny_matcher_from_context sample_context (restricted [deny [lit "w"; lit "src"]]) = Some m ∧
       matches_prepared_read_deny (uri_of [lit "w"; lit "src"; lit "a"]) sample_context m = true.
Proof.
  destruct (read_deny_matcher_fails_closed (restricted [deny [lit "w"; lit "src"]]) sample_context eq_refl) as (m & Hm & _ & Hr & _).
  exists m. split; [done|]. apply (Hr _ (uri_of [lit "w"; lit "src"])); [vm_compute; left|by vm_compute|by vm_compute].
Defined.
