(* ===== verification/PermissionProfile.v ===== *)
(** protocol/src/models.rs (permission profiles) and the symbolic defaults of
    protocol/src/permissions.rs: what a conversation, turn or command may do, as the policy
    the sandbox is built from, and the workspace-write defaults.

    The operations that take paths of the local disk are not modelled; [usize] limits that
    must not be zero are [positive]. *)
From S2P Require Import Prelude Str UriPath NativePath ApprovalTypes Permissions AccessRules.

(** * Data *)

Inductive NetworkSandboxPolicy := NetworkRestricted | NetworkEnabled.

#[export] Instance NetworkSandboxPolicy_eq_dec : EqDecision NetworkSandboxPolicy.
Proof. solve_decision. Defined.

Definition is_enabled (n : NetworkSandboxPolicy) : bool := match n with NetworkEnabled => true | _ => false end.

Inductive SandboxEnforcement := EnforcementManaged | EnforcementDisabled | EnforcementExternal.

#[export] Instance SandboxEnforcement_eq_dec : EqDecision SandboxEnforcement.
Proof. solve_decision. Defined.

Inductive ManagedFileSystemPermissions :=
| ManagedRestricted (entries : list FileSystemSandboxEntry) (glob_scan_max_depth : option positive)
| ManagedUnrestricted.

Inductive PermissionProfile :=
| Managed (file_system : ManagedFileSystemPermissions) (network : NetworkSandboxPolicy)
| Disabled
| External (network : NetworkSandboxPolicy).

(** * Profiles and runtime policies *)

(** [NonZeroUsize::new] *)
Definition non_zero (n : nat) : option positive := match n with 0 => None | S _ => Some (Pos.of_nat n) end.

(** [None] is the [unreachable!]. *)
Definition from_sandbox_policy (p : FileSystemSandboxPolicy) : option ManagedFileSystemPermissions :=
  match fs_kind p with
  | Restricted => Some (ManagedRestricted (entries p) (glob_scan_max_depth p ≫= non_zero))
  | Unrestricted => Some ManagedUnrestricted
  | ExternalSandbox => None
  end.

Definition to_sandbox_policy (m : ManagedFileSystemPermissions) : FileSystemSandboxPolicy :=
  match m with
  | ManagedRestricted l depth => mkPolicy Restricted (Pos.to_nat <$> depth) l
  | ManagedUnrestricted => unrestricted
  end.

Definition from_runtime_permissions_with_enforcement (enforcement : SandboxEnforcement) (p : FileSystemSandboxPolicy)
    (network : NetworkSandboxPolicy) : option PermissionProfile :=
  match fs_kind p with
  | ExternalSandbox => Some (External network)
  | Unrestricted =>
      if bool_decide (enforcement = EnforcementDisabled) then Some Disabled
      else (λ m, Managed m network) <$> from_sandbox_policy p
  | Restricted => (λ m, Managed m network) <$> from_sandbox_policy p
  end.

Definition from_runtime_permissions (p : FileSystemSandboxPolicy) (network : NetworkSandboxPolicy) : option PermissionProfile :=
  let enforcement :=
    match fs_kind p with
    | Restricted | Unrestricted => EnforcementManaged
    | ExternalSandbox => EnforcementExternal
    end in
  from_runtime_permissions_with_enforcement enforcement p network.

Definition enforcement (profile : PermissionProfile) : SandboxEnforcement :=
  match profile with
  | Managed _ _ => EnforcementManaged
  | Disabled => EnforcementDisabled
  | External _ => EnforcementExternal
  end.

Definition profile_file_system (profile : PermissionProfile) : FileSystemSandboxPolicy :=
  match profile with
  | Managed file_system _ => to_sandbox_policy file_system
  | Disabled => unrestricted
  | External _ => external_sandbox
  end.

Definition network_sandbox_policy (profile : PermissionProfile) : NetworkSandboxPolicy :=
  match profile with
  | Managed _ network | External network => network
  | Disabled => NetworkEnabled
  end.

Definition to_runtime_permissions (profile : PermissionProfile) : FileSystemSandboxPolicy * NetworkSandboxPolicy :=
  (profile_file_system profile, network_sandbox_policy profile).

Definition read_only_access (a : FileSystemAccessMode) : FileSystemAccessMode :=
  match a with Read | Write => Read | Deny => Deny end.

Definition read_only_entry (e : FileSystemSandboxEntry) : FileSystemSandboxEntry :=
  mkEntry (entry_path e) (read_only_access (entry_access e)) (missing_path_behavior e).

(** The policy [intersect_with_read_only] makes a profile of. *)
Definition read_only_policy (p : FileSystemSandboxPolicy) : option FileSystemSandboxPolicy :=
  match fs_kind p with
  | Restricted => Some (set_entries (read_only_entry <$> entries p) p)
  | Unrestricted => Some read_only
  | ExternalSandbox => None
  end.

Definition intersect_with_read_only (profile : PermissionProfile) : option PermissionProfile :=
  p ← read_only_policy (profile_file_system profile);
  from_runtime_permissions p NetworkRestricted.

(** * Workspace-write defaults *)

Section Defaults.
Context `{!UrlCodec} (native : PathConvention).

Definition append_default_read_only_entry_if_no_explicit_rule (l : list FileSystemSandboxEntry) (path : FileSystemPath)
    : list FileSystemSandboxEntry :=
  if existsb (λ e, file_system_paths_share_target (entry_path e) path native) l then l
  else l ++ [skip_missing_path path Read].

Definition append_default_read_only_project_root_subpath_if_no_explicit_rule (l : list FileSystemSandboxEntry)
    (subpath : str) : list FileSystemSandboxEntry :=
  append_default_read_only_entry_if_no_explicit_rule l (Special (ProjectRoots (Some subpath))).

(** [workspace_write(&[], ..)] *)
Definition workspace_write (exclude_tmpdir_env_var exclude_slash_tmp : bool) : FileSystemSandboxPolicy :=
  let l := [entry_new (Special Root) Read; entry_new (Special (ProjectRoots None)) Write] in
  let l := if exclude_slash_tmp then l else l ++ [entry_new (Special SlashTmp) Write] in
  let l := if exclude_tmpdir_env_var then l else l ++ [entry_new (Special Tmpdir) Write] in
  restricted (foldl append_default_read_only_project_root_subpath_if_no_explicit_rule l
                [lit ".git"; lit ".agents"; lit ".codex"; lit ".aws"]).

Definition workspace_write_with_path_uris (roots : list Url) (exclude_tmpdir_env_var exclude_slash_tmp : bool)
    : FileSystemSandboxPolicy :=
  with_materialized_project_roots_for_path_uris roots (workspace_write exclude_tmpdir_env_var exclude_slash_tmp).

(** [PermissionProfile::materialize_project_roots_with_path_uris] *)
Definition materialize_profile (roots : list Url) (profile : PermissionProfile) : option PermissionProfile :=
  match profile with
  | Managed file_system network =>
      (λ m, Managed m network) <$>
        from_sandbox_policy (materialize_project_roots_with_path_uris roots (to_sandbox_policy file_system))
  | Disabled => Some Disabled
  | External network => Some (External network)
  end.

(** What the approval code asks of policies and profiles. *)
#[export] Instance policy_ops : FileSystemPolicyOps FileSystemSandboxPolicy :=
  {| policy_kind := fs_kind;
     has_full_disk_write_access := has_full_disk_write_access_for_convention (Some native);
     has_denied_read_restrictions := has_denied_read_restrictions_for_convention (Some native) |}.

#[export] Instance profile_ops : PermissionProfileOps PermissionProfile FileSystemSandboxPolicy :=
  {| file_system_sandbox_policy := profile_file_system;
     profile_is_managed := λ profile, bool_decide (enforcement profile = EnforcementManaged) |}.
End Defaults.

(** * Read-only intersection *)

Section ReadOnly.
Context `{!UrlCodec}.
Implicit Types (p q : FileSystemSandboxPolicy) (ctx : PolicyContext) (path root : Url).

Lemma read_only_rank a b : access_rank a ≤ access_rank b → access_rank (read_only_access a) ≤ access_rank (read_only_access b).
Proof. destruct a, b; cbn; lia. Qed.

Lemma read_only_resolved p q ctx :
  entries q = read_only_entry <$> entries p →
  resolved_entries ctx q = (λ e, (e.1, read_only_access e.2)) <$> resolved_entries ctx p.
Proof.
  intros E. unfold resolved_entries. rewrite E. clear E. generalize (entries p). induction l as [|e l IH]; [done|].
  rewrite fmap_cons, !bind_cons, fmap_app, IH. f_equal. unfold resolve_entry. cbn [read_only_entry entry_path entry_access].
  rewrite <- list_fmap_compose. done.
Qed.

Lemma read_only_applies p q ctx path root a d :
  entries q = read_only_entry <$> entries p →
  applies q ctx path root a d ↔ ∃ b, applies p ctx path root b d ∧ a = read_only_access b.
Proof.
  intros E. unfold applies. rewrite (read_only_resolved p q ctx E), list_elem_of_fmap. split.
  - intros (([r b] & [= -> ->] & Hin) & Hd & Hst). by exists b.
  - intros (b & (Hin & Hd & Hst) & ->). split_and!; [|done..]. by exists (root, b).
Qed.

Lemma read_only_resolvable p q ctx : entries q = read_only_entry <$> entries p → resolvable p ctx → resolvable q ctx.
Proof. intros E Hr. unfold resolvable. rewrite (read_only_resolved p q ctx E). by apply Forall_fmap. Qed.

Lemma read_only_resolvable_inv p q ctx : entries q = read_only_entry <$> entries p → resolvable q ctx → resolvable p ctx.
Proof. intros E Hr. unfold resolvable in Hr. rewrite (read_only_resolved p q ctx E) in Hr. by apply Forall_fmap in Hr. Qed.

Lemma lexical_in_dec ctx path : lexical_in ctx path ∨ ¬ lexical_in ctx path.
Proof.
  unfold lexical_in. destruct (infer_path_convention (ctx_cwd ctx)) as [c|]; [|right; by intros (? & ? & _)].
  destruct (decide (infer_path_convention path = Some c)) as [E|E]; [|right; intros (c' & [= <-] & ? & _); done].
  destruct (lexical_depth path) as [d|]; [|right; by intros (? & _ & _ & [] & _)].
  destruct (lexical_depth (ctx_cwd ctx)) as [d'|]; [|right; by intros (? & _ & _ & _ & [])]. left. exists c. split_and!; eauto.
Qed.

Lemma resolvable_dec p ctx : resolvable p ctx ∨ ¬ resolvable p ctx.
Proof.
  unfold resolvable. destruct (decide (Forall (λ e, unresolvable e = false) (resolved_entries ctx p))); auto.
Qed.

Lemma read_only_access_exact p q ctx path :
  fs_kind p = Restricted → fs_kind q = Restricted → entries q = read_only_entry <$> entries p →
  resolve_access q path ctx = read_only_access (resolve_access p path ctx).
Proof.
  intros Hkp Hkq E. destruct (lexical_in_dec ctx path) as [Hl|Hl]; [|by rewrite !resolve_access_not_lexical].
  destruct (resolvable_dec p ctx) as [Hr|Hr].
  2: { rewrite !resolve_access_unresolvable; [done|done|done|done|]. intros Hq. by eapply Hr, read_only_resolvable_inv. }
  pose proof (read_only_resolvable p q ctx E Hr) as Hrq.
  destruct (resolve_access_decides p ctx path Hkp Hl Hr) as [(root & d & Ha & Hmax)|[-> Hno]].
  - eapply resolve_access_unique; [done|done|done| |].
    + apply (read_only_applies p q); [done|]. by exists (resolve_access p path ctx).
    + intros r' a' d' Ha'. apply (read_only_applies p q) in Ha' as (b & Hb & ->); [|done].
      destruct (Hmax _ _ _ Hb) as [?|[-> Hrank]]; [by left|right; split; [done|]]. by apply read_only_rank.
  - destruct (resolve_access_decides q ctx path Hkq Hl Hrq) as [(root & d & Ha & _)|[-> _]]; [|done].
    apply (read_only_applies p q) in Ha as (b & Hb & _); [|done]. by destruct (Hno _ _ _ Hb).
Qed.
End ReadOnly.

(** * Workspace-write access *)

Section Workspace.
Context `{!UrlCodec, !UrlCodecLaws} (native : PathConvention).
Implicit Types (ctx : PolicyContext) (w path v : Url) (name : str).

Lemma posix_head_not_drive w s : lexical_posix w → head (non_empty_segments w) = Some s → is_windows_drive_uri_segment s = false.
Proof.
  intros [Hc Hd] Hs. rewrite infer_not_opaque in Hc by (by apply lexical_not_opaque). rewrite Hs in Hc.
  case_bool_decide; [done|]. by destruct (is_windows_drive_uri_segment s).
Qed.

Lemma upper_drive_posix segs s :
  (∀ x, head segs = Some x → is_windows_drive_uri_segment x = false) → is_windows_drive_uri_segment s = false →
  Forall (λ x, x ≠ []) segs → upper_drive (segs ++ [s]) = segs ++ [s].
Proof.
  intros Hh Hs Hne. destruct segs as [|[|c t] segs]; cbn [app upper_drive].
  - destruct s; [done|]. by rewrite Hs.
  - by apply Forall_cons in Hne as [].
  - by rewrite (Hh _ eq_refl).
Qed.

Lemma name_not_drive name : scalar_text name → length (as_bytes name) ≠ 2 → is_windows_drive_uri_segment (encode_segment name) = false.
Proof.
  intros Hsc Hlen. destruct (is_windows_drive_uri_segment _) eqn:E; [|done]. apply drive_decodes in E.
  by rewrite encode_decode in E by apply Hsc.
Qed.

Lemma child_not_opaque w v name :
  well_formed w → is_opaque w = false → non_empty_segments v = non_empty_segments w ++ [encode_segment name] → is_opaque v = false.
Proof.
  intros Hw Ho Hn. destruct (is_opaque v) eqn:E; [|done]. apply opaque_shape in E as (e & -> & He).
  destruct (wf_nul w Hw) as [?|Hnul]; [congruence|]. exfalso.
  assert (lit "%00" ∈ non_empty_segments w) as Hin.
  { unfold non_empty_segments at 1 in Hn. cbn [url_segments BAD_PATH_SEGMENTS app] in Hn. rewrite !filter_cons_True in Hn by done.
    destruct (non_empty_segments w) as [|x xs]; cbn in Hn; [done|]. injection Hn as <- _. by left. }
  unfold non_empty_segments in Hin. apply list_elem_of_filter in Hin as [_ Hin]. rewrite Forall_forall in Hnul.
  apply (Hnul _ Hin). rewrite decode_escaped_nul. by left.
Qed.

(** A directory's child by a plain name is a POSIX path below it. *)
Lemma child_posix w v name :
  well_formed w → lexical_posix w → url_host v = None → scalar_text name → SLASH ∉ name → length (as_bytes name) ≠ 2 →
  non_empty_segments v = non_empty_segments w ++ [encode_segment name] →
  lexical_posix v ∧ decoded v = decoded w ++ [as_bytes name].
Proof.
  intros Hw Hp Hh Hsc Hsl Hlen Hn. pose proof (lexical_not_opaque w (proj2 Hp)) as Ho.
  pose proof (child_not_opaque w v name Hw Ho Hn) as Hov.
  assert (infer_path_convention v = Some Posix) as Hcv.
  { rewrite infer_not_opaque by done. rewrite Hh, bool_decide_false by (by intros []). rewrite Hn.
    destruct (non_empty_segments w) as [|x xs] eqn:Ew; cbn [app head]; [by rewrite name_not_drive|].
    by rewrite (posix_head_not_drive w x Hp) by (by rewrite Ew). }
  split; [split; [done|]|unfold decoded; rewrite Hn, fmap_app; cbn; by rewrite encode_decode by apply Hsc].
  destruct Hp as [Hc [d Hd]]. apply lexical_depth_spec in Hd as (_ & c & Hc' & [l Hl] & _). rewrite Hc in Hc'. injection Hc' as <-.
  unfold lexical_depth. rewrite Hov, Hcv. cbn [mbind option_bind]. unfold containment_path_segments in *.
  rewrite Hn, existsb_app. destruct (existsb _ (non_empty_segments w)) in Hl |- *; [done|]. cbn [existsb orb].
  rewrite encode_decode by apply Hsc. rewrite (bool_decide_false (Posix = Windows)) by done. cbn [andb].
  destruct (existsb _ (as_bytes name)) eqn:Ex; [|by eexists]. exfalso. apply existsb_exists in Ex as (b & Hb%list_elem_of_In & Hbs).
  rewrite orb_false_r in Hbs. apply N.eqb_eq in Hbs as ->. unfold as_bytes in Hb. apply list_elem_of_bind in Hb as (c & Hcb & Hcn).
  by apply utf8_slash in Hcb as ->.
Qed.

(** Joining one plain name below a POSIX directory. *)
Lemma join_name w name :
  well_formed w → lexical_posix w → clean (pop_if_empty (url_segments w)) → plain_component name → length (as_bytes name) ≠ 2 →
  ∃ v, uri_join w name = Ok v ∧ lexical_posix v ∧ decoded v = decoded w ++ [as_bytes name].
Proof.
  intros Hw Hp Hcl (Hne & H1 & H2 & Hsl & Hsc) Hlen.
  assert (starts_with [SLASH] name = false) as Hst.
  { destruct name as [|c name]; [done|]. unfold starts_with. destruct (strip_prefix [SLASH] (c :: name)) eqn:E; [|done].
    apply strip_prefix_Some in E. injection E as -> _. by apply not_elem_of_cons in Hsl as []. }
  destruct (posix_join_spec w name Hw (lexical_posix_posix w Hp) Hcl Hsc Hne Hst) as (v & Hj & Hh & Hn). exists v. split; [done|].
  rewrite posix_single_segment in Hn by done. cbn [resolve_components foldl] in Hn. unfold resolve_component in Hn.
  rewrite decide_False in Hn by tauto. rewrite decide_False in Hn by done.
  rewrite upper_drive_posix in Hn; [|by intros; eapply posix_head_not_drive|by apply name_not_drive|].
  - by apply child_posix.
  - unfold non_empty_segments. apply Forall_forall. intros x Hx. by apply list_elem_of_filter in Hx as [].
Qed.

(** ** The entries of the defaults in a context with one workspace root *)

Lemma metadata_plain name :
  name ∈ PROTECTED_METADATA_PATH_NAMES → plain_component name ∧ length (as_bytes name) ≠ 2 ∧ as_bytes name = name.
Proof.
  revert name. apply Forall_forall. unfold PROTECTED_METADATA_PATH_NAMES.
  repeat (apply Forall_cons; split;
    [split; [unfold plain_component; split_and!; try (split; apply (bool_decide_unpack _); by vm_compute);
             apply (bool_decide_unpack _); by vm_compute|by vm_compute]|]). constructor.
Qed.

Lemma workspace_entries :
  entries (workspace_write native true true) =
  [entry_new (Special Root) Read; entry_new (Special (ProjectRoots None)) Write] ++
  ((λ name, skip_missing_path (Special (ProjectRoots (Some name))) Read) <$> PROTECTED_METADATA_PATH_NAMES).
Proof. reflexivity. Qed.

Definition one_workspace ctx w : Prop :=
  posix_context ctx ∧ workspace_roots ctx = [w] ∧ well_formed w ∧ lexical_posix w ∧ clean (pop_if_empty (url_segments w)).

Lemma workspace_name ctx w name :
  one_workspace ctx w → name ∈ PROTECTED_METADATA_PATH_NAMES →
  ∃ v, uri_join w name = Ok v ∧ lexical_posix v ∧ decoded v = decoded w ++ [name].
Proof.
  intros (_ & _ & Hw & Hp & Hcl) Hn. destruct (metadata_plain name Hn) as (Hpl & Hlen & Hb).
  destruct (join_name w name Hw Hp Hcl Hpl Hlen) as (v & Hj & Hv & Hd). exists v. by rewrite Hb in Hd.
Qed.

Lemma workspace_resolved ctx w u a :
  one_workspace ctx w →
  (u, a) ∈ resolved_entries ctx (workspace_write native true true) ↔
  (file_system_root ctx = Some u ∧ a = Read) ∨ (u = w ∧ a = Write) ∨
  (a = Read ∧ ∃ name, name ∈ PROTECTED_METADATA_PATH_NAMES ∧ uri_join w name = Ok u).
Proof.
  intros Hone. pose proof Hone as (Hctx & Hroots & Hw & Hp & Hcl). split.
  - intros (e & He & -> & Ht & _)%resolved_elim. rewrite workspace_entries in He. rewrite elem_of_app, !elem_of_cons, elem_of_nil in He.
    destruct He as [[->|[->|[]]]|He]; cbn in Ht.
    + left. destruct (file_system_root ctx); cbn in Ht; [|by apply not_elem_of_nil in Ht]. by apply list_elem_of_singleton in Ht as ->.
    + right. left. rewrite Hroots in Ht. cbn in Ht. by apply list_elem_of_singleton in Ht as ->.
    + right. right. apply list_elem_of_fmap in He as (name & -> & Hname). split; [done|]. exists name. split; [done|].
      cbn in Ht. rewrite Hroots in Ht. cbn in Ht. rewrite app_nil_r in Ht.
      destruct (workspace_name ctx w name Hone Hname) as (v & Hj & _). rewrite Hj in Ht |- *. cbn in Ht.
      by apply list_elem_of_singleton in Ht as ->.
  - destruct Hctx as [Hwc [Hcc Hdc]]. destruct (posix_root ctx (conj Hwc (conj Hcc Hdc))) as (r & Hr & [Hcr _] & _).
    intros [[Hu ->]|[[-> ->]|[-> (name & Hname & Hj)]]].
    + rewrite Hr in Hu. injection Hu as <-. apply (resolved_intro _ ctx (entry_new (Special Root) Read));
        [rewrite workspace_entries; set_solver| |congruence]. cbn. rewrite Hr. by left.
    + apply (resolved_intro _ ctx (entry_new (Special (ProjectRoots None)) Write));
        [rewrite workspace_entries; set_solver| |by destruct Hp as [-> _]]. cbn. rewrite Hroots. by left.
    + destruct (workspace_name ctx w name Hone Hname) as (v & Hj' & [Hcv _] & _). rewrite Hj in Hj'. injection Hj' as <-.
      apply (resolved_intro _ ctx (skip_missing_path (Special (ProjectRoots (Some name))) Read)); [| |congruence].
      * rewrite workspace_entries. apply elem_of_app. right. apply list_elem_of_fmap. by exists name.
      * cbn. rewrite Hroots. cbn. rewrite Hj. by left.
Qed.

Lemma workspace_resolvable ctx w : one_workspace ctx w → resolvable (workspace_write native true true) ctx.
Proof.
  intros Hone. apply Forall_forall. intros [u a] Hin. apply (workspace_resolved ctx w u a Hone) in Hin.
  assert (is_Some (lexical_depth u)) as [d Hd]; [|unfold unresolvable; cbn; rewrite Hd; by rewrite bool_decide_false].
  pose proof Hone as (Hctx & _ & _ & [_ Hdw] & _). destruct Hin as [[Hu _]|[[-> _]|[_ (name & Hn & Hj)]]]; [|done|].
  - destruct (posix_root ctx Hctx) as (r & Hr & [_ Hdr] & _). congruence.
  - destruct (workspace_name ctx w name Hone Hn) as (v & Hj' & [_ Hdv] & _). congruence.
Qed.

(** In the workspace, below one of its protected names. *)
Definition in_metadata w path : Prop :=
  ∃ name, name ∈ PROTECTED_METADATA_PATH_NAMES ∧ decoded w ++ [name] `prefix_of` decoded path.

Lemma workspace_applies ctx w path root a d :
  one_workspace ctx w → lexical_posix path → applies (workspace_write native true true) ctx path root a d →
  (a = Read ∧ d = 0) ∨ (a = Write ∧ d = length (decoded w) ∧ decoded w `prefix_of` decoded path) ∨
  (a = Read ∧ d = length (decoded w) + 1 ∧ in_metadata w path).
Proof.
  intros Hone Hpath Ha. pose proof Hone as (Hctx & _ & _ & Hp & _). destruct (applies_posix _ _ _ _ _ _ Hctx Ha) as [Hl ->].
  destruct Ha as (Hin & _ & Hst). apply posix_contains in Hst; [|done|done].
  apply (workspace_resolved ctx w root a Hone) in Hin as [[Hu ->]|[[-> ->]|[-> (name & Hn & Hj)]]].
  - left. destruct (posix_root ctx Hctx) as (r & Hr & _ & Hd & _). rewrite Hr in Hu. injection Hu as <-. by rewrite Hd.
  - by right; left.
  - right. right. destruct (workspace_name ctx w name Hone Hn) as (v & Hj' & _ & Hd). rewrite Hj in Hj'. injection Hj' as <-.
    rewrite Hd in *. rewrite length_app. cbn. split_and!; [done|done|]. by exists name.
Qed.

Lemma workspace_access ctx w path :
  one_workspace ctx w → lexical_posix path →
  (in_metadata w path → resolve_access (workspace_write native true true) path ctx = Read) ∧
  (decoded w `prefix_of` decoded path → ¬ in_metadata w path →
     resolve_access (workspace_write native true true) path ctx = Write) ∧
  (¬ decoded w `prefix_of` decoded path → resolve_access (workspace_write native true true) path ctx = Read).
Proof.
  intros Hone Hpath. pose proof Hone as (Hctx & _ & _ & Hp & _). pose proof (lexical_posix_in _ _ Hctx Hpath) as Hl.
  pose proof (workspace_resolvable ctx w Hone) as Hr. split_and!.
  - intros (name & Hn & Hpre). destruct (workspace_name ctx w name Hone Hn) as (v & Hj & Hv & Hd).
    eapply (resolve_access_unique _ ctx path v Read (length (decoded v))); [done|done|done| |].
    + apply applies_intro; [done|done| |by rewrite Hd]. apply (workspace_resolved ctx w v Read Hone). right; right. eauto.
    + rewrite Hd, length_app. intros r' a' d' Ha'. cbn.
      destruct (workspace_applies _ _ _ _ _ _ Hone Hpath Ha') as [[-> ->]|[(-> & -> & _)|(-> & -> & _)]]; cbn; lia.
  - intros Hpre Hno. eapply (resolve_access_unique _ ctx path w Write (length (decoded w))); [done|done|done| |].
    + apply applies_intro; [done|done| |done]. apply (workspace_resolved ctx w w Write Hone). right; left. eauto.
    + intros r' a' d' Ha'. destruct (workspace_applies _ _ _ _ _ _ Hone Hpath Ha') as [[-> ->]|[(-> & -> & _)|(_ & _ & ?)]];
        [cbn; lia|cbn; lia|done].
  - intros Hno. destruct (posix_root ctx Hctx) as (r & Hroot & Hlr & Hd & _).
    eapply (resolve_access_unique _ ctx path r Read 0); [done|done|done| |].
    + pose proof (applies_intro (workspace_write native true true) ctx path r Read Hpath Hlr) as Hx. rewrite Hd in Hx. apply Hx.
      * apply (workspace_resolved ctx w r Read Hone). by left.
      * apply prefix_nil.
    + intros r' a' d' Ha'. destruct (workspace_applies _ _ _ _ _ _ Hone Hpath Ha') as [[-> ->]|[(_ & _ & ?)|(_ & _ & (name & _ & Hpre))]];
        [right; split; [done|cbn; lia]|done|]. destruct Hno. etrans; [|exact Hpre]. by apply prefix_app_r.
Qed.

Lemma workspace_metadata_none ctx w path :
  one_workspace ctx w → lexical_posix path → ¬ in_metadata w path →
  metadata_write_denial (workspace_write native true true) path ctx = None.
Proof.
  intros Hone Hpath Hno. unfold metadata_write_denial. change (is_restricted (workspace_write native true true)) with true. cbn [negb].
  destruct (find_map _ _) as [[prot name]|] eqn:E; [exfalso|done].
  apply find_map_inv in E as ([u a] & Hin & Hprot). apply list_elem_of_filter in Hin as [Hwr Hin]. cbn in Hwr, Hprot.
  apply (workspace_resolved ctx w u a Hone) in Hin as [[_ ->]|[[-> _]|[-> _]]]; [done| |done].
  apply protected_directory_Some in Hprot as (Hn & Hj & Hst). destruct (workspace_name ctx w name Hone Hn) as (v & Hjv & Hv & Hd).
  unfold join_descendant in Hj. rewrite Hjv in Hj. cbn [res_bind] in Hj. destruct (_ || _ || _) in Hj; [done|]. injection Hj as <-.
  apply Hno. exists name. split; [done|]. rewrite <- Hd. by apply posix_contains.
Qed.
End Workspace.

(** * Theorems *)

(** A profile is the runtime policy it stands for: taking the policies of a profile and
    building the profile again gives it back, every policy has a profile, and the policies
    of that profile are the original ones wherever the glob depth is not zero and a policy
    without restrictions carries no entries. *)
Theorem profile_roundtrip (profile : PermissionProfile) (p : FileSystemSandboxPolicy) (network : NetworkSandboxPolicy) :
  from_runtime_permissions_with_enforcement (enforcement profile) (profile_file_system profile) (network_sandbox_policy profile)
    = Some profile ∧
  ∃ q, from_runtime_permissions p network = Some q ∧
    (glob_scan_max_depth p ≠ Some 0 → (fs_kind p ≠ Restricted → entries p = [] ∧ glob_scan_max_depth p = None) →
     to_runtime_permissions q = (p, network)).
Proof.
  split.
  - destruct profile as [[l [d|]|] n| |n]; try done. cbn. f_equal. f_equal. f_equal. cbn.
    destruct (Pos.to_nat d) eqn:E; [lia|]. cbn [non_zero]. f_equal. rewrite <- E. apply Pos2Nat.id.
  - destruct p as [[] depth l]; cbn; eexists; (split; [done|]); intros Hd Hr.
    + unfold to_runtime_permissions. cbn. f_equal. f_equal. destruct depth as [[|n]|]; [done| |done]. cbn. f_equal. lia.
    + destruct (Hr ltac:(done)) as [-> ->]. done.
    + destruct (Hr ltac:(done)) as [-> ->]. done.
Qed.

(** Intersecting a profile with read-only access gives one that restricts the network,
    never lets anything be written, and reads exactly what the original one lets read. *)
Theorem read_only_intersection `{!UrlCodec} (profile restricted_profile : PermissionProfile) (path : Url) (ctx : PolicyContext) :
  intersect_with_read_only profile = Some restricted_profile →
  network_sandbox_policy restricted_profile = NetworkRestricted ∧
  resolve_access (profile_file_system restricted_profile) path ctx ≠ Write ∧
  (fs_kind (profile_file_system profile) = Restricted →
   resolve_access (profile_file_system restricted_profile) path ctx
   = read_only_access (resolve_access (profile_file_system profile) path ctx)).
Proof.
  unfold intersect_with_read_only, read_only_policy. destruct (fs_kind (profile_file_system profile)) eqn:Ek; [| |done].
  - cbn [mbind option_bind]. unfold from_runtime_permissions, from_runtime_permissions_with_enforcement, from_sandbox_policy.
    cbn [fs_kind set_entries]. rewrite Ek. cbn. intros [= <-]. split; [done|]. cbn [profile_file_system to_sandbox_policy].
    erewrite (read_only_access_exact (profile_file_system profile)); [|done|done|done].
    split; [|done]. by destruct (resolve_access _ _ _).
  - cbn. intros [= <-]. split; [done|]. split; [|done]. cbn [profile_file_system to_sandbox_policy].
    destruct (access_from_entries (mkPolicy Restricted (Pos.to_nat <$> None) read_only_file_system_entries) ctx path eq_refl)
      as [E|(e & He & E)]; rewrite ?E; [done|]. apply list_elem_of_singleton in He as ->. cbn in *. congruence.
Qed.

Lemma read_only_intersection_witness :
  ∃ profile, intersect_with_read_only (Managed (ManagedRestricted [grant [lit "w"]; deny [lit "w"; lit "src"]] None) NetworkEnabled)
               = Some profile ∧
    resolve_access (profile_file_system profile) (uri_of [lit "w"; lit "a"]) sample_context = Read.
Proof.
  eexists. split; [reflexivity|].
  destruct (read_only_intersection (Managed (ManagedRestricted [grant [lit "w"]; deny [lit "w"; lit "src"]] None) NetworkEnabled) _
              (uri_of [lit "w"; lit "a"]) sample_context eq_refl) as (_ & _ & He).
  rewrite He by done. by vm_compute.
Defined.

(** The workspace-write defaults mean what they say: with one workspace root, exactly
    what lies in the workspace and not below its [.git], [.agents], [.codex] or [.aws] may
    be written, and everything else may be read. *)
Theorem workspace_write_exact `{!UrlCodec, !UrlCodecLaws} (native : PathConvention) (ctx : PolicyContext) (w path : Url) :
  one_workspace ctx w → lexical_posix path →
  let policy := workspace_write native true true in
  (decoded w `prefix_of` decoded path → ¬ in_metadata w path →
     resolve_access policy path ctx = Write ∧ can_write_path policy path ctx = true) ∧
  (in_metadata w path ∨ ¬ decoded w `prefix_of` decoded path →
     resolve_access policy path ctx = Read ∧ can_write_path policy path ctx = false).
Proof.
  intros Hone Hpath. cbv zeta. destruct (workspace_access native ctx w path Hone Hpath) as (Hmeta & Hin & Hout). split.
  - intros Hpre Hno. split; [by apply Hin|]. unfold can_write_path. rewrite (Hin Hpre Hno). cbn [can_write negb].
    rewrite (workspace_metadata_none native ctx w path Hone Hpath Hno). by rewrite bool_decide_true, orb_true_r.
  - intros Hcase. assert (resolve_access (workspace_write native true true) path ctx = Read) as E by (destruct Hcase; auto).
    split; [done|]. unfold can_write_path. by rewrite E.
Qed.

Lemma sample_workspace : one_workspace sample_context (uri_of [lit "w"]).
Proof.
  destruct sample_context_posix as [Hw Hp]. split_and!; [by split|done|exact Hw|exact Hp|].
  right. split; [done|]. by repeat constructor.
Qed.

Lemma workspace_write_exact_witness :
  can_write_path (workspace_write Posix true true) (uri_of [lit "w"; lit "src"]) sample_context = true ∧
  can_write_path (workspace_write Posix true true) (uri_of [lit "etc"]) sample_context = false.
Proof.
  split.
  - apply (workspace_write_exact Posix sample_context (uri_of [lit "w"]) (uri_of [lit "w"; lit "src"]) sample_workspace).
    + split; [by vm_compute|by exists 2; vm_compute].
    + by exists [lit "src"].
    + intros (name & Hn & [k Hk]). vm_compute in Hk. injection Hk as Hk _. subst name.
      revert Hn. apply (bool_decide_unpack _). by vm_compute.
  - apply (workspace_write_exact Posix sample_context (uri_of [lit "w"]) (uri_of [lit "etc"]) sample_workspace).
    + split; [by vm_compute|by exists 1; vm_compute].
    + right. apply (bool_decide_unpack _). by vm_compute.
Defined.
