(* ===== verification/PolicyTransforms.v ===== *)
(** sandboxing/src/policy_transforms.rs and the partial profiles of protocol/src/models.rs:
    how permissions asked for one command or turn are normalised, merged into a profile, and
    cut down to what was both requested and granted.

    [usize] limits that must not be zero are [positive]; error texts are kept, with the
    [Display] of a path URI as a parameter. *)
From S2P Require Import Prelude Str UriPath NativePath ApprovalTypes Permissions AccessRules PermissionProfile.

(** * Data *)

(** [NetworkPermissions { enabled }] *)
Definition NetworkPermissions : Type := option bool.

Record FileSystemPermissions := mkFsPermissions {
  fp_entries : list FileSystemSandboxEntry;
  fp_glob_scan_max_depth : option positive
}.

Record AdditionalPermissionProfile := mkAdditional {
  ap_network : option NetworkPermissions;
  ap_file_system : option FileSystemPermissions
}.

Definition network_is_empty (n : NetworkPermissions) : bool := match n with None => true | _ => false end.
Definition fs_is_empty (f : FileSystemPermissions) : bool := match fp_entries f with [] => true | _ => false end.
Definition ap_is_empty (p : AdditionalPermissionProfile) : bool :=
  match ap_network p, ap_file_system p with None, None => true | _, _ => false end.

(** [FileSystemPermissions::from_read_write_path_uris] *)
Definition from_read_write_path_uris (read write : option (list Url)) : FileSystemPermissions :=
  mkFsPermissions
    (((λ path, entry_new (PathEntry path) Read) <$> default [] read)
     ++ ((λ path, entry_new (PathEntry path) Write) <$> default [] write)) None.

(** [Option::filter] *)
Definition opt_filter {A} (keep : A → bool) (o : option A) : option A :=
  match o with Some a => if keep a then Some a else None | None => None end.

Inductive GlobScanDepth := Bounded (depth : nat) | Unbounded.

Definition is_deny_glob (e : FileSystemSandboxEntry) : bool :=
  is_deny e && match entry_path e with GlobPattern _ => true | _ => false end.

Definition effective_glob_scan_depth (l : list FileSystemSandboxEntry) (depth : option nat) : option GlobScanDepth :=
  if existsb is_deny_glob l
  then Some match depth with Some depth => Bounded depth | None => Unbounded end else None.

Definition merge_glob_scan_max_depth (left_entries : list FileSystemSandboxEntry) (left_depth : option nat)
    (right_entries : list FileSystemSandboxEntry) (right_depth : option nat) : option nat :=
  match effective_glob_scan_depth left_entries left_depth, effective_glob_scan_depth right_entries right_depth with
  | Some Unbounded, _ | _, Some Unbounded => None
  | Some (Bounded l), Some (Bounded r) => Some (Nat.max l r)
  | Some (Bounded depth), None | None, Some (Bounded depth) => Some depth
  | None, None => None
  end.

Definition access_covers (requested granted : FileSystemAccessMode) : bool :=
  match granted with
  | Read => can_read requested
  | Write => can_write requested
  | Deny => false
  end.

Definition is_root_entry (e : FileSystemSandboxEntry) : bool :=
  match entry_path e with Special Root => true | _ => false end.

Definition materialized_path_entry (e : FileSystemSandboxEntry) (path : Url) : FileSystemSandboxEntry :=
  mkEntry (PathEntry path) (entry_access e) (missing_path_behavior e).

Definition is_glob_char (c : N) : bool := existsb (N.eqb c) (lit "*?[]").

Section Transforms.
Context `{!UrlCodec, !GlobEngine} (display : Url → str).
Implicit Types (ctx : PolicyContext) (e : FileSystemSandboxEntry).
Implicit Types (l base permissions source accepted output : list FileSystemSandboxEntry).

(** * Normalisation *)

Fixpoint normalize_entries (acc l : list FileSystemSandboxEntry) : result str (list FileSystemSandboxEntry) :=
  match l with
  | [] => Ok acc
  | e :: l =>
      if match entry_path e with GlobPattern _ => negb (is_deny e) | _ => false end
      then Err (lit "glob file system permissions only support deny-read entries")
      else normalize_entries (push_missing acc e) l
  end.

Definition normalize_additional_permissions (p : AdditionalPermissionProfile)
    : result str AdditionalPermissionProfile :=
  let network := opt_filter (λ n, negb (network_is_empty n)) (ap_network p) in
  match ap_file_system p with
  | Some f =>
      let? l := normalize_entries [] (fp_entries f) in
      Ok (mkAdditional network
            (opt_filter (λ f, negb (fs_is_empty f)) (Some (mkFsPermissions l (fp_glob_scan_max_depth f)))))
  | None => Ok (mkAdditional network None)
  end.

(** The check of one entry against the executor's working directory. *)
Definition foreign_path ctx e : option Url :=
  match entry_path e with
  | PathEntry path =>
      if bool_decide (infer_path_convention path = None)
         || negb (bool_decide (infer_path_convention path = infer_path_convention (ctx_cwd ctx)))
         || match uri_join path (lit ".") with Err _ => true | Ok _ => false end
      then Some path else None
  | _ => None
  end.

Definition normalize_additional_permissions_with_context (p : AdditionalPermissionProfile) ctx
    : result str AdditionalPermissionProfile :=
  let? normalized := normalize_additional_permissions p in
  match find_map (foreign_path ctx) (default [] (fp_entries <$> ap_file_system normalized)) with
  | Some path =>
      Err (lit "permission path `" ++ display path ++ lit "` does not match executor cwd `"
           ++ display (ctx_cwd ctx) ++ lit "`")
  | None => Ok normalized
  end.

(** * Materialisation *)

Definition set_workspace_roots (roots : list Url) ctx : PolicyContext :=
  mkPolicyContext (ctx_cwd ctx) roots (user_home_dir ctx) (temporary_directories ctx).

Definition resolve_permission_path (path : FileSystemPath) ctx : option Url :=
  match path with
  | PathEntry path => Some path
  | GlobPattern _ => None
  | Special Root => file_system_root ctx
  | Special (ProjectRoots subpath) =>
      root ← head (workspace_roots ctx);
      match subpath with
      | Some subpath => match uri_join root subpath with Ok path => Some path | Err _ => None end
      | None => Some root
      end
  | Special Tmpdir => temporary_directories ctx ≫= head
  | Special SlashTmp =>
      if bool_decide (infer_path_convention (ctx_cwd ctx) = Some Posix)
      then match uri_join (ctx_cwd ctx) (lit "/tmp") with Ok path => Some path | Err _ => None end
      else None
  | Special Minimal | Special (UnknownSpecial _ _) => None
  end.

Definition materialize_cwd_dependent_entry e ctx : option FileSystemSandboxEntry :=
  match entry_path e with
  | GlobPattern pattern =>
      let is_windows := bool_decide (infer_path_convention (ctx_cwd ctx) = Some Windows) in
      let home_relative :=
        match strip_prefix (lit "~/") pattern with
        | Some suffix => Some suffix
        | None => if pattern =s lit "~" then Some []
                  else if is_windows then strip_prefix (lit "~\") pattern else None
        end in
      '(root, pattern) ←
        match home_relative with
        | Some suffix =>
            home ← user_home_dir ctx;
            Some (home, drop_while (λ c, N.eqb c SLASH || (is_windows && N.eqb c BACKSLASH)) suffix)
        | None => Some (ctx_cwd ctx, pattern)
        end;
      match uri_join root pattern with
      | Ok path =>
          Some (mkEntry (GlobPattern (inferred_native_path_string path)) (entry_access e) (missing_path_behavior e))
      | Err _ => None
      end
  | PathEntry _ | Special _ => Some e
  end.

(** The inner loop over the workspace roots. *)
Fixpoint materialize_roots e ctx (roots : list Url) : option (list FileSystemSandboxEntry) :=
  match roots with
  | [] => Some []
  | root :: roots =>
      match resolve_permission_path (entry_path e) (set_workspace_roots [root] ctx) with
      | Some path => cons (materialized_path_entry e path) <$> materialize_roots e ctx roots
      | None => if is_deny e then None else materialize_roots e ctx roots
      end
  end.

(** What one entry adds; [None] is the [return None]. *)
Definition materialize_context_dependent_entry e ctx : option (list FileSystemSandboxEntry) :=
  match entry_path e with
  | Special (ProjectRoots _) =>
      resolved ← materialize_roots e ctx (workspace_roots ctx);
      if is_deny e && bool_decide (resolved = []) then None else Some resolved
  | Special Tmpdir =>
      match temporary_directories ctx with
      | None => if is_deny e then None else Some [e]
      | Some directories => Some (materialized_path_entry e <$> directories)
      end
  | Special Root => _ ← resolve_permission_path (entry_path e) ctx; Some [e]
  | _ =>
      match materialize_cwd_dependent_entry e ctx with
      | Some e => Some [e]
      | None => if is_deny e then None else Some []
      end
  end.

Fixpoint materialize_context_dependent_entries l ctx : option (list FileSystemSandboxEntry) :=
  match l with
  | [] => Some []
  | e :: l =>
      new ← materialize_context_dependent_entry e ctx;
      app new <$> materialize_context_dependent_entries l ctx
  end.

Definition materialize_additional_permissions_with_context (p : AdditionalPermissionProfile) ctx
    : result str AdditionalPermissionProfile :=
  let? p :=
    match ap_file_system p with
    | Some f =>
        match materialize_context_dependent_entries (fp_entries f) ctx with
        | Some l => Ok (mkAdditional (ap_network p) (Some (mkFsPermissions l (fp_glob_scan_max_depth f))))
        | None => Err (lit "unable to resolve permission path in `" ++ display (ctx_cwd ctx) ++ lit "`")
        end
    | None => Ok p
    end in
  normalize_additional_permissions_with_context p ctx.

(** * Merging *)

Definition merge_permission_entries base permissions : list FileSystemSandboxEntry :=
  foldl push_missing [] (base ++ permissions).

Definition network_granted (n : option NetworkPermissions) : bool :=
  match n with Some (Some true) => true | _ => false end.

Definition merge_permission_profiles (base permissions : option AdditionalPermissionProfile)
    : option AdditionalPermissionProfile :=
  match permissions with
  | None => base
  | Some permissions =>
      opt_filter (λ p, negb (ap_is_empty p))
        match base with
        | Some base =>
            let network :=
              if network_granted (ap_network base) || network_granted (ap_network permissions)
              then Some (Some true) else None in
            let file_system :=
              match ap_file_system base, ap_file_system permissions with
              | Some b, Some p =>
                  opt_filter (λ f, negb (fs_is_empty f))
                    (Some (mkFsPermissions (merge_permission_entries (fp_entries b) (fp_entries p))
                       (merge_glob_scan_max_depth (fp_entries b) (Pos.to_nat <$> fp_glob_scan_max_depth b)
                          (fp_entries p) (Pos.to_nat <$> fp_glob_scan_max_depth p) ≫= non_zero)))
              | Some b, None => Some b
              | None, Some p => Some p
              | None, None => None
              end in
            Some (mkAdditional network file_system)
        | None => Some permissions
        end
  end.

Definition merge_file_system_policy_with_additional_permissions (p : FileSystemSandboxPolicy)
    (additional : FileSystemPermissions) : FileSystemSandboxPolicy :=
  match fs_kind p with
  | Restricted =>
      mkPolicy Restricted
        (merge_glob_scan_max_depth (entries p) (glob_scan_max_depth p)
           (fp_entries additional) (Pos.to_nat <$> fp_glob_scan_max_depth additional))
        (foldl push_missing (entries p) (fp_entries additional))
  | Unrestricted | ExternalSandbox => p
  end.

Definition effective_file_system_sandbox_policy (p : FileSystemSandboxPolicy)
    (additional : option AdditionalPermissionProfile) : FileSystemSandboxPolicy :=
  match additional ≫= ap_file_system with
  | None => p
  | Some f => if fs_is_empty f then p else merge_file_system_policy_with_additional_permissions p f
  end.

Definition merge_network_access (base : bool) (additional : AdditionalPermissionProfile) : bool :=
  base || default false (n ← ap_network additional; n).

Definition effective_network_sandbox_policy (n : NetworkSandboxPolicy)
    (additional : option AdditionalPermissionProfile) : NetworkSandboxPolicy :=
  match additional with
  | Some additional => if merge_network_access (is_enabled n) additional then NetworkEnabled else NetworkRestricted
  | None => n
  end.

(** [None] is the [unreachable!] of the conversion. *)
Definition effective_permission_profile (profile : PermissionProfile)
    (additional : option AdditionalPermissionProfile) : option PermissionProfile :=
  let '(p, n) := to_runtime_permissions profile in
  from_runtime_permissions_with_enforcement (enforcement profile)
    (effective_file_system_sandbox_policy p additional) (effective_network_sandbox_policy n additional).

(** * Intersection *)

Definition granted_file_system_entry_within_request (requested : FileSystemPermissions)
    (requested_policy : FileSystemSandboxPolicy) (matcher : option PreparedReadDenyMatcher) e ctx : bool :=
  if negb (can_read (entry_access e))
     || match entry_path e with
        | Special SlashTmp => negb (bool_decide (infer_path_convention (ctx_cwd ctx) = Some Posix))
        | _ => false
        end
  then false
  else if bool_decide (infer_path_convention (ctx_cwd ctx) = Some Windows) && is_root_entry e
          && negb (existsb (λ r : FileSystemSandboxEntry, is_root_entry r && access_covers (entry_access r) (entry_access e)) (fp_entries requested))
  then false
  else match resolve_permission_path (entry_path e) ctx with
       | Some path =>
           if negb (bool_decide (infer_path_convention path = infer_path_convention (ctx_cwd ctx)))
              || matcher_denies matcher path ctx
           then false
           else access_covers (resolve_access requested_policy path ctx) (entry_access e)
       | None =>
           existsb (λ r : FileSystemSandboxEntry, access_covers (entry_access r) (entry_access e) && fs_path_eqb (entry_path r) (entry_path e))
             (fp_entries requested)
       end.

Definition glob_static_prefix_path (pattern : str) ctx : option Url :=
  let is_windows := bool_decide (infer_path_convention (ctx_cwd ctx) = Some Windows) in
  let static : option (str * bool) :=
    match list_find (λ c, is_glob_char c = true) pattern with
    | Some (0, _) => None
    | Some (index, _) =>
        let prefix := take index pattern in
        Some (prefix, negb (ends_with [SLASH] prefix || (is_windows && ends_with [BACKSLASH] prefix)))
    | None => Some (pattern, false)
    end in
  '(prefix, wildcard_in_segment) ← static;
  match uri_join (ctx_cwd ctx) prefix with
  | Ok prefix => if wildcard_in_segment : bool then parent prefix else Some prefix
  | Err _ => None
  end.

Definition paths_overlap (lhs rhs : Url) : bool := default true (overlaps lhs rhs).

Definition deny_entry_constrains_accepted_grant e accepted ctx : bool :=
  existsb (λ grant : FileSystemSandboxEntry,
    if is_root_entry grant then true
    else match resolve_permission_path (entry_path grant) ctx with
         | None => true
         | Some grant_path =>
             match entry_path e with
             | GlobPattern pattern =>
                 match glob_static_prefix_path pattern ctx with
                 | Some prefix => paths_overlap prefix grant_path
                 | None => true
                 end
             | PathEntry _ | Special _ =>
                 match resolve_permission_path (entry_path e) ctx with
                 | Some deny_path => paths_overlap deny_path grant_path
                 | None => true
                 end
             end
         end) (filter (λ e, can_read (entry_access e) = true) accepted).

(** The retained denials; the loop pushes each into the output unless it is there. *)
Definition retained_deny_entries source accepted ctx : list FileSystemSandboxEntry :=
  filter (λ e, entry_access e = Deny ∧ deny_entry_constrains_accepted_grant e accepted ctx = true) source.

Definition retain_constraining_deny_entries source accepted ctx output
    : list FileSystemSandboxEntry * list FileSystemSandboxEntry :=
  let retained := retained_deny_entries source accepted ctx in
  (retained, foldl push_missing output retained).

Definition intersect_file_system (requested granted : FileSystemPermissions) ctx : option FileSystemPermissions :=
  requested_entries ← materialize_context_dependent_entries (fp_entries requested) ctx;
  granted_entries ← materialize_context_dependent_entries (fp_entries granted) ctx;
  let requested_policy := restricted requested_entries in
  let matcher := read_deny_matcher_from_context ctx requested_policy in
  let accepted :=
    foldl push_missing []
      (filter (λ e, granted_file_system_entry_within_request requested requested_policy matcher e ctx = true)
         granted_entries) in
  let '(requested_retained, l) := retain_constraining_deny_entries requested_entries accepted ctx accepted in
  let '(granted_retained, l) := retain_constraining_deny_entries granted_entries accepted ctx l in
  Some (mkFsPermissions l
          (merge_glob_scan_max_depth requested_retained (Pos.to_nat <$> fp_glob_scan_max_depth requested)
             granted_retained (Pos.to_nat <$> fp_glob_scan_max_depth granted) ≫= non_zero)).

Definition intersect_permission_profiles_with_context (requested granted : AdditionalPermissionProfile) ctx
    : AdditionalPermissionProfile :=
  mkAdditional
    (if network_granted (ap_network requested) && network_granted (ap_network granted) then Some (Some true) else None)
    (opt_filter (λ f, negb (fs_is_empty f))
       (requested ← ap_file_system requested;
        intersect_file_system requested (default (mkFsPermissions [] None) (ap_file_system granted)) ctx)).
End Transforms.

(** * Platform sandboxes *)

Definition should_require_platform_sandbox `{!FileSystemPolicyOps FileSystemSandboxPolicy} (p : FileSystemSandboxPolicy)
    (n : NetworkSandboxPolicy) (has_managed_network_requirements : bool) : bool :=
  if has_managed_network_requirements then true
  else if negb (is_enabled n) then negb (bool_decide (fs_kind p = ExternalSandbox))
  else match fs_kind p with
       | Restricted => negb (has_full_disk_write_access p)
       | Unrestricted | ExternalSandbox => false
       end.

(** * Materialised entries *)

Section Materialised.
Context `{!UrlCodec}.
Implicit Types (ctx : PolicyContext) (e : FileSystemSandboxEntry) (l : list FileSystemSandboxEntry) (u : Url).

(** Entries whose targets no longer depend on the list of workspace roots or temporary directories. *)
Definition materialized ctx e : Prop :=
  match entry_path e with
  | Special (ProjectRoots _) => False
  | Special Tmpdir => temporary_directories ctx = None
  | _ => True
  end.

Lemma materialized_targets ctx e :
  materialized ctx e → entry_targets ctx (entry_path e) = option_list (resolve_permission_path (entry_path e) ctx).
Proof.
  unfold materialized. destruct (entry_path e) as [| |[]]; cbn; try done.
  - by intros ->.
  - intros _. case_bool_decide; [|done]. by destruct (uri_join _ _).
Qed.

Lemma materialized_resolves ctx e u :
  materialized ctx e → u ∈ entry_targets ctx (entry_path e) → resolve_permission_path (entry_path e) ctx = Some u.
Proof.
  intros Hm. rewrite materialized_targets by done. destruct (resolve_permission_path _ _); cbn.
  - by intros ->%list_elem_of_singleton.
  - by intros ?%not_elem_of_nil.
Qed.

Definition targets_of ctx l : list (Url * FileSystemAccessMode) := l ≫= resolve_entry ctx.

Lemma targets_path_entries ctx e (us : list Url) :
  targets_of ctx (materialized_path_entry e <$> us) =
  (λ path, (path, entry_access e)) <$>
    filter (λ path, infer_path_convention path = infer_path_convention (ctx_cwd ctx)) us.
Proof.
  unfold targets_of. induction us as [|u us IH]; [done|]. rewrite fmap_cons, bind_cons, IH.
  unfold resolve_entry. cbn [materialized_path_entry entry_path entry_access entry_targets].
  rewrite (filter_cons _ u us), (filter_cons _ u []). by case_decide.
Qed.

Lemma materialize_roots_spec e ctx subpath roots l :
  entry_path e = Special (ProjectRoots subpath) → materialize_roots e ctx roots = Some l →
  l = materialized_path_entry e <$>
        (roots ≫= λ root, match subpath with Some s => ok_list (uri_join root s) | None => [root] end).
Proof.
  intros Hp. revert l. induction roots as [|root roots IH]; cbn [materialize_roots]; intros l; [by intros [= <-]|].
  rewrite bind_cons, fmap_app. rewrite Hp. cbn [resolve_permission_path set_workspace_roots workspace_roots head mbind option_bind].
  destruct subpath as [s|]; [destruct (uri_join root s) as [u|]; cbn [ok_list]|]; cbn.
  - destruct (materialize_roots e ctx roots) as [l'|]; [|done]. intros [= <-]. f_equal. by apply IH.
  - destruct (is_deny e); [done|]. apply IH.
  - destruct (materialize_roots e ctx roots) as [l'|]; [|done]. intros [= <-]. f_equal. by apply IH.
Qed.

Lemma materialize_entry_spec e ctx l :
  materialize_context_dependent_entry e ctx = Some l →
  targets_of ctx l = resolve_entry ctx e ∧ Forall (materialized ctx) l ∧ Forall (λ e', entry_access e' = entry_access e) l.
Proof.
  assert (∀ us, Forall (materialized ctx) (materialized_path_entry e <$> us) ∧
                Forall (λ e', entry_access e' = entry_access e) (materialized_path_entry e <$> us)) as Hpath.
  { intros us. split; by apply Forall_fmap, Forall_forall. }
  assert (∀ e', targets_of ctx [e'] = resolve_entry ctx e') as Hone.
  { intros e'. unfold targets_of. cbn. by rewrite app_nil_r. }
  unfold materialize_context_dependent_entry. destruct (entry_path e) as [u|pattern|[]] eqn:Ep.
  2: { unfold materialize_cwd_dependent_entry. rewrite Ep. assert (resolve_entry ctx e = []) as -> by (unfold resolve_entry; by rewrite Ep).
       destruct (mbind _ _) as [e'|] eqn:E.
       - intros [= <-]. apply bind_Some in E as ([root pat] & _ & E). destruct (uri_join root pat); [|done].
         injection E as <-. split_and!; [done|by apply Forall_singleton|by apply Forall_singleton].
       - destruct (is_deny e); [done|]. intros [= <-]. split_and!; by try constructor. }
  all: unfold materialize_cwd_dependent_entry; rewrite ?Ep; try (intros [= <-]; split_and!;
    [apply Hone|apply Forall_singleton; unfold materialized; by rewrite Ep|by apply Forall_singleton]).
  - destruct (resolve_permission_path _ _); cbn; [|done]. intros [= <-]. split_and!;
      [apply Hone|apply Forall_singleton; unfold materialized; by rewrite Ep|by apply Forall_singleton].
  - destruct (materialize_roots _ _ _) as [l'|] eqn:E; cbn [mbind option_bind]; [|done]. destruct (_ && _); [done|].
    intros [= <-]. apply (materialize_roots_spec e ctx _ _ _ Ep) in E as ->. split; [|apply Hpath].
    rewrite targets_path_entries. unfold resolve_entry. by rewrite Ep.
  - destruct (temporary_directories ctx) as [us|] eqn:Et.
    + intros [= <-]. split; [|apply Hpath]. rewrite targets_path_entries. unfold resolve_entry. rewrite Ep. cbn. by rewrite Et.
    + destruct (is_deny e); [done|]. intros [= <-].
      split_and!; [apply Hone|apply Forall_singleton; unfold materialized; by rewrite Ep|by apply Forall_singleton].
Qed.

(** Materialisation changes what entries are written as, not what they resolve to. *)
Lemma materialize_entries_spec l ctx l' :
  materialize_context_dependent_entries l ctx = Some l' →
  resolved_entries ctx (restricted l') = resolved_entries ctx (restricted l) ∧ Forall (materialized ctx) l'.
Proof.
  revert l'. induction l as [|e l IH]; cbn [materialize_context_dependent_entries]; intros l'; [by intros [= <-]|].
  destruct (materialize_context_dependent_entry e ctx) as [new|] eqn:E; cbn [mbind option_bind]; [|done].
  destruct (materialize_context_dependent_entries l ctx) as [rest|]; cbn; [|done]. intros [= <-].
  destruct (IH _ eq_refl) as [Hr Hm]. apply materialize_entry_spec in E as (Ht & Hm' & _). split; [|by apply Forall_app].
  change (targets_of ctx rest = targets_of ctx l) in Hr. change (targets_of ctx (new ++ rest) = targets_of ctx (e :: l)).
  unfold targets_of in *. by rewrite bind_app, bind_cons, Hr, Ht.
Qed.

Lemma resolved_access p q path ctx :
  fs_kind p = Restricted → fs_kind q = Restricted → resolved_entries ctx p = resolved_entries ctx q →
  resolve_access p path ctx = resolve_access q path ctx.
Proof. intros Hp Hq E. unfold resolve_access. by rewrite Hp, Hq, E. Qed.
End Materialised.

(** * What an intersection allows *)

Section Within.
Context `{!UrlCodec, !UrlCodecLaws}.
Implicit Types (ctx : PolicyContext) (e : FileSystemSandboxEntry) (l : list FileSystemSandboxEntry) (u root path : Url).

(** An entry that is contained up to the equality of URIs resolves to the same place. *)
Lemma contains_resolved l ctx e u :
  posix_context ctx → lexical_posix u → u ∈ entry_targets ctx (entry_path e) → contains_entry e l = true →
  (u, entry_access e) ∈ resolved_entries ctx (restricted l).
Proof.
  intros Hctx Hu Ht Hc. unfold contains_entry in Hc. apply existsb_exists in Hc as (x & Hx%list_elem_of_In & Heq).
  unfold entry_eqb in Heq. rewrite !andb_true_iff, !bool_decide_eq_true in Heq. destruct Heq as [[Heq <-] _].
  apply resolved_intro; [done| |destruct Hu as [-> _]; by destruct Hctx as [_ [-> _]]].
  destruct (entry_path x) as [v| |] eqn:Ex, (entry_path e) as [w| |]; try done; cbn in Heq.
  - cbn in Ht. apply list_elem_of_singleton in Ht as ->. apply uri_eqb_posix in Heq as ->; [|done]. by left.
  - by apply bool_decide_eq_true in Heq as ->.
Qed.

Lemma access_covers_readable requested granted : access_covers requested granted = true → can_read requested = true.
Proof. by destruct requested, granted. Qed.

Lemma applies_below p ctx path root r a d :
  posix_context ctx → lexical_posix path → lexical_posix root → decoded root `prefix_of` decoded path →
  applies p ctx root r a d → applies p ctx path r a d.
Proof.
  intros Hctx Hp Hroot Hpre Ha. destruct (applies_posix _ _ _ _ _ _ Hctx Ha) as [Hr ->]. destruct Ha as (Hin & _ & Hst).
  apply applies_intro; [done..|]. apply posix_contains in Hst; [|done..]. by etrans.
Qed.

Lemma applies_above p ctx path root r a d :
  posix_context ctx → lexical_posix path → lexical_posix root → decoded root `prefix_of` decoded path →
  applies p ctx path r a d → d ≤ length (decoded root) → applies p ctx root r a d.
Proof.
  intros Hctx Hp Hroot Hpre Ha Hd. destruct (applies_posix _ _ _ _ _ _ Hctx Ha) as [Hr ->]. destruct Ha as (Hin & _ & Hst).
  apply applies_intro; [done..|]. apply posix_contains in Hst; [|done..].
  destruct (prefix_weak_total _ _ _ Hst Hpre) as [?|Hx]; [done|]. by rewrite (prefix_length_eq _ _ Hx Hd).
Qed.

Lemma readable_decides p ctx path :
  fs_kind p = Restricted → can_read (resolve_access p path ctx) = true →
  lexical_in ctx path ∧ resolvable p ctx ∧
  ∃ root d, applies p ctx path root (resolve_access p path ctx) d ∧
    ∀ root' a' d', applies p ctx path root' a' d' →
      d' < d ∨ d' = d ∧ access_rank a' ≤ access_rank (resolve_access p path ctx).
Proof.
  intros Hk Hr. destruct (lexical_in_dec ctx path) as [Hl|Hl]; [|by rewrite resolve_access_not_lexical in Hr].
  destruct (resolvable_dec p ctx) as [Hres|Hres]; [|by rewrite resolve_access_unresolvable in Hr].
  split_and!; [done..|]. destruct (resolve_access_decides p ctx path Hk Hl Hres) as [?|[E _]]; [done|by rewrite E in Hr].
Qed.

(** A denial that applies to a path below a grant constrains the grant. *)
Lemma deny_constrains ctx path e grant accepted u root :
  posix_context ctx → lexical_posix path → materialized ctx e → materialized ctx grant → grant ∈ accepted →
  can_read (entry_access grant) = true → root ∈ entry_targets ctx (entry_path grant) →
  u ∈ entry_targets ctx (entry_path e) → lexical_posix u → lexical_posix root →
  decoded u `prefix_of` decoded path → decoded root `prefix_of` decoded path →
  deny_entry_constrains_accepted_grant e accepted ctx = true.
Proof.
  intros Hctx Hp Hme Hmg Hin Hread Hroot Hu Hlu Hlr Hpu Hpr. unfold deny_entry_constrains_accepted_grant.
  apply existsb_exists. exists grant. split; [by apply list_elem_of_In, list_elem_of_filter|].
  destruct (is_root_entry grant); [done|]. rewrite (materialized_resolves _ _ _ Hmg Hroot).
  pose proof (materialized_resolves _ _ _ Hme Hu) as Hres.
  assert (paths_overlap u root = true) as Hov.
  { unfold paths_overlap, overlaps. destruct (uri_eqb u root); [done|]. destruct Hlu as [Hc1 [d1 Hd1]], Hlr as [Hc2 [d2 Hd2]].
    rewrite Hd1, Hd2. cbn [mbind option_bind default]. apply orb_true_iff.
    destruct (prefix_weak_total _ _ _ Hpu Hpr); [right|left]; apply posix_contains; done. }
  destruct (entry_path e); [by rewrite Hres|done|by rewrite Hres].
Qed.

(** Every denial of either side that constrains an accepted entry is in the output. *)
Lemma retained_contained source accepted ctx output e :
  e ∈ source → entry_access e = Deny → deny_entry_constrains_accepted_grant e accepted ctx = true →
  contains_entry e (retain_constraining_deny_entries source accepted ctx output).2 = true.
Proof.
  intros He Ha Hc. unfold retain_constraining_deny_entries. cbn [snd].
  destruct (push_missing_fold (retained_deny_entries source accepted ctx) output) as (ds & -> & _ & Hall).
  apply Hall. unfold retained_deny_entries. by apply list_elem_of_filter.
Qed.

Lemma retain_elem source accepted ctx output e :
  e ∈ (retain_constraining_deny_entries source accepted ctx output).2 → e ∈ output ∨ e ∈ source ∧ entry_access e = Deny.
Proof.
  unfold retain_constraining_deny_entries. cbn [snd].
  destruct (push_missing_fold (retained_deny_entries source accepted ctx) output) as (ds & -> & Hsub & _).
  intros [?|Hds]%elem_of_app; [by left|right]. apply Hsub in Hds. unfold retained_deny_entries in Hds.
  by apply list_elem_of_filter in Hds as [[? _] ?].
Qed.

Lemma retain_keeps source accepted ctx output e :
  contains_entry e output = true → contains_entry e (retain_constraining_deny_entries source accepted ctx output).2 = true.
Proof.
  unfold retain_constraining_deny_entries. cbn [snd].
  destruct (push_missing_fold (retained_deny_entries source accepted ctx) output) as (ds & -> & _).
  intros Hc. by rewrite contains_entry_app, Hc.
Qed.
End Within.

Section Intersection.
Context `{!UrlCodec, !UrlCodecLaws, !GlobEngine}.
Implicit Types (ctx : PolicyContext) (e : FileSystemSandboxEntry) (u root path : Url) (rq gr f : FileSystemPermissions).

Lemma intersect_shape rq gr ctx f :
  intersect_file_system rq gr ctx = Some f →
  ∃ re ge accepted,
    materialize_context_dependent_entries (fp_entries rq) ctx = Some re ∧
    materialize_context_dependent_entries (fp_entries gr) ctx = Some ge ∧
    (∀ e, e ∈ accepted → e ∈ ge ∧
       granted_file_system_entry_within_request rq (restricted re)
         (read_deny_matcher_from_context ctx (restricted re)) e ctx = true) ∧
    (∀ e, e ∈ fp_entries f → e ∈ accepted ∨ entry_access e = Deny) ∧
    (∀ e, e ∈ re ∨ e ∈ ge → entry_access e = Deny → deny_entry_constrains_accepted_grant e accepted ctx = true →
       contains_entry e (fp_entries f) = true).
Proof.
  unfold intersect_file_system. destruct (materialize_context_dependent_entries (fp_entries rq) ctx) as [re|] eqn:Er; [|done].
  destruct (materialize_context_dependent_entries (fp_entries gr) ctx) as [ge|] eqn:Eg; [|done]. cbn [mbind option_bind]. cbv zeta.
  set (accepted := foldl push_missing [] _).
  destruct (retain_constraining_deny_entries re accepted ctx accepted) as [r1 l1] eqn:E1.
  destruct (retain_constraining_deny_entries ge accepted ctx l1) as [r2 l2] eqn:E2.
  assert (l1 = (retain_constraining_deny_entries re accepted ctx accepted).2) as Hl1 by (by rewrite E1).
  assert (l2 = (retain_constraining_deny_entries ge accepted ctx l1).2) as Hl2 by (by rewrite E2).
  intros [= <-]. exists re, ge, accepted. cbn [fp_entries]. split_and!; [done..| | |].
  - intros e. unfold accepted. destruct (push_missing_fold (filter (λ e, granted_file_system_entry_within_request rq (restricted re)
      (read_deny_matcher_from_context ctx (restricted re)) e ctx = true) ge) []) as (ds & -> & Hsub & _).
    cbn [app]. intros He%Hsub. by apply list_elem_of_filter in He as [].
  - intros e. rewrite Hl2. intros [He|[_ ?]]%retain_elem; [|by right]. rewrite Hl1 in He.
    apply retain_elem in He as [?|[_ ?]]; [by left|by right].
  - intros e [He|He] Ha Hc; rewrite Hl2.
    + apply retain_keeps. rewrite Hl1. by apply retained_contained.
    + by apply retained_contained.
Qed.

(** An accepted entry lies where the request is readable. *)
Lemma accepted_within rq re m e ctx u :
  granted_file_system_entry_within_request rq (restricted re) m e ctx = true → materialized ctx e →
  u ∈ entry_targets ctx (entry_path e) →
  can_read (entry_access e) = true ∧ access_covers (resolve_access (restricted re) u ctx) (entry_access e) = true
  ∧ matcher_denies m u ctx = false.
Proof.
  intros Hw Hm Hu. unfold granted_file_system_entry_within_request in Hw. destruct (can_read (entry_access e)); [|done].
  cbn [negb orb] in Hw. destruct (match entry_path e with Special SlashTmp => _ | _ => _ end); [done|].
  destruct (_ && _ && _); [done|]. rewrite (materialized_resolves _ _ _ Hm Hu) in Hw.
  destruct (negb _ || matcher_denies m u ctx) eqn:E; [done|]. by apply orb_false_iff in E as [_ ->].
Qed.

(** A denial that decides a path below the accepted entry that decides the intersection lies strictly above it. *)
Lemma deciding_denial_above ctx path f l accepted e u u1 d1 :
  posix_context ctx → lexical_posix path → Forall (materialized ctx) l → materialized ctx e → e ∈ accepted →
  can_read (entry_access e) = true → u ∈ entry_targets ctx (entry_path e) →
  applies (restricted (fp_entries f)) ctx path u (entry_access e) (length (decoded u)) →
  (∀ r a d, applies (restricted (fp_entries f)) ctx path r a d →
     d < length (decoded u) ∨ d = length (decoded u) ∧ access_rank a ≤ access_rank (entry_access e)) →
  (∀ e', e' ∈ l → entry_access e' = Deny → deny_entry_constrains_accepted_grant e' accepted ctx = true →
     contains_entry e' (fp_entries f) = true) →
  applies (restricted l) ctx path u1 Deny d1 → d1 < length (decoded u).
Proof.
  intros Hctx Hp Hml Hme Hin Hread Hu Ha Hmax Hret Ha1. destruct (applies_posix _ _ _ _ _ _ Hctx Ha) as [Hlu _].
  destruct (applies_posix _ _ _ _ _ _ Hctx Ha1) as [Hlu1 ->]. destruct Ha as (_ & _ & Hst), Ha1 as (Hin1 & _ & Hst1).
  apply posix_contains in Hst; [|done..]. apply posix_contains in Hst1; [|done..].
  apply resolved_elim in Hin1 as (e1 & He1 & Ea & Ht1 & _). cbn [entries restricted] in He1. rewrite Forall_forall in Hml.
  assert (contains_entry e1 (fp_entries f) = true) as Hc.
  { apply Hret; [done|done|]. eapply (deny_constrains ctx path e1 e); try done. by apply Hml. }
  pose proof (contains_resolved _ _ _ _ Hctx Hlu1 Ht1 Hc) as Hres. rewrite <- Ea in Hres.
  destruct (Hmax u1 Deny (length (decoded u1))) as [?|[_ Hrank]]; [by apply applies_intro|done|].
  destruct (entry_access e); cbn in *; [lia|lia|done].
Qed.

Lemma intersection_within rq gr ctx f path :
  posix_context ctx → lexical_posix path → intersect_file_system rq gr ctx = Some f →
  can_read_path (restricted (fp_entries f)) path ctx = true →
  can_read_path (restricted (fp_entries rq)) path ctx = true ∧
  (resolvable (restricted (fp_entries gr)) ctx → can_read_path (restricted (fp_entries gr)) path ctx = true).
Proof.
  intros Hctx Hp Hi Hread. unfold can_read_path in *.
  destruct (intersect_shape _ _ _ _ Hi) as (re & ge & accepted & Hre & Hge & Hacc & Hf & Hret).
  apply materialize_entries_spec in Hre as [Erq Hmr]. apply materialize_entries_spec in Hge as [Egr Hmg].
  rewrite <- (resolved_access (restricted re) (restricted (fp_entries rq)) path ctx eq_refl eq_refl Erq).
  rewrite <- (resolved_access (restricted ge) (restricted (fp_entries gr)) path ctx eq_refl eq_refl Egr).
  assert (resolvable (restricted (fp_entries gr)) ctx ↔ resolvable (restricted ge) ctx) as -> by (unfold resolvable; by rewrite Egr).
  destruct (readable_decides (restricted (fp_entries f)) ctx path eq_refl Hread) as (Hl & Hresf & root & d & Ha & Hmax).
  destruct (applies_posix _ _ _ _ _ _ Hctx Ha) as [Hlr ->]. pose proof Ha as (Hin & _ & Hst).
  apply posix_contains in Hst; [|done..]. apply resolved_elim in Hin as (e & He & Ea & Ht & _). cbn [entries restricted] in He.
  rewrite Ea in *. destruct (Hf e He) as [Hea|Hd]; [|by rewrite Hd in Hread]. destruct (Hacc e Hea) as [Heg Hw].
  pose proof (proj1 (Forall_forall _ _) Hmg e Heg) as Hme. destruct (accepted_within _ _ _ _ _ _ Hw Hme Ht) as (_ & Hcov & _).
  apply access_covers_readable in Hcov. split.
  - destruct (readable_decides (restricted re) ctx root eq_refl Hcov) as (_ & Hresr & r0 & d0 & Ha0 & Hmax0).
    pose proof (applies_below _ _ path root _ _ _ Hctx Hp Hlr Hst Ha0) as Ha0x.
    destruct (can_read (resolve_access (restricted re) path ctx)) eqn:Ex; [done|exfalso].
    assert (resolve_access (restricted re) path ctx = Deny) as ED by (by destruct (resolve_access (restricted re) path ctx)).
    destruct (resolve_access_decides (restricted re) ctx path eq_refl Hl Hresr) as [(r1 & d1 & Ha1 & Hmax1)|[_ Hno]];
      [|by apply Hno in Ha0x]. rewrite ED in Ha1, Hmax1.
    assert (d1 < length (decoded root)) as Hlt
      by (eapply (deciding_denial_above ctx path f re accepted e root r1 d1); try done; intros; by apply Hret; [left|..]).
    assert (applies (restricted re) ctx root r1 Deny d1) as Hr1 by (apply (applies_above _ _ path); [done..|lia]).
    specialize (Hmax0 _ _ _ Hr1). specialize (Hmax1 _ _ _ Ha0x).
    destruct (resolve_access (restricted re) root ctx); cbn in Hmax0, Hmax1; [lia|lia|done].
  - intros Hresg. destruct (can_read (resolve_access (restricted ge) path ctx)) eqn:Ex; [done|exfalso].
    assert (resolve_access (restricted ge) path ctx = Deny) as ED by (by destruct (resolve_access (restricted ge) path ctx)).
    assert (applies (restricted ge) ctx path root (entry_access e) (length (decoded root))) as Hg.
    { apply applies_intro; [done..| |done]. apply resolved_intro; [done|done|]. destruct Hlr as [-> _]. by destruct Hctx as [_ [-> _]]. }
    destruct (resolve_access_decides (restricted ge) ctx path eq_refl Hl Hresg) as [(r1 & d1 & Ha1 & Hmax1)|[_ Hno]];
      [|by apply Hno in Hg]. rewrite ED in Ha1, Hmax1. specialize (Hmax1 _ _ _ Hg).
    assert (d1 < length (decoded root)) as Hlt
      by (eapply (deciding_denial_above ctx path f ge accepted e root r1 d1); try done; intros; by apply Hret; [right|..]). lia.
Qed.
End Intersection.

(** * Merged permissions *)

Section Merged.
Context `{!UrlCodec}.
Implicit Types (p : FileSystemSandboxPolicy) (ctx : PolicyContext) (path : Url) (f : FileSystemPermissions).

Lemma merged_entries p f :
  fs_kind p = Restricted →
  ∃ new, entries (merge_file_system_policy_with_additional_permissions p f) = entries p ++ new ∧
         (∀ e, e ∈ new → e ∈ fp_entries f).
Proof.
  intros Hk. unfold merge_file_system_policy_with_additional_permissions. rewrite Hk. cbn [entries].
  destruct (push_missing_fold (fp_entries f) (entries p)) as (new & -> & Hsub & _). by exists new.
Qed.

Lemma resolved_from_list l ctx u a :
  (u, a) ∈ (l ≫= resolve_entry ctx) → ∃ e, e ∈ l ∧ a = entry_access e ∧ u ∈ entry_targets ctx (entry_path e).
Proof. intros Hin. destruct (resolved_elim (restricted l) ctx u a Hin) as (e & ? & ? & ? & _). by exists e. Qed.

Lemma merged_grant p f ctx path :
  fs_kind p = Restricted → resolve_access p path ctx = Deny → resolvable p ctx →
  can_read (resolve_access (merge_file_system_policy_with_additional_permissions p f) path ctx) = true →
  ∃ e u d, e ∈ fp_entries f ∧ u ∈ entry_targets ctx (entry_path e) ∧ lexical_depth u = Some d ∧
    uri_starts_with path u = true ∧
    entry_access e = resolve_access (merge_file_system_policy_with_additional_permissions p f) path ctx ∧
    ∀ r a' d', applies p ctx path r a' d' → d' < d.
Proof.
  intros Hk Hden Hres Hread. destruct (merged_entries p f Hk) as (new & Enew & Hsub).
  set (q := merge_file_system_policy_with_additional_permissions p f) in *.
  assert (fs_kind q = Restricted) as Hq by (unfold q, merge_file_system_policy_with_additional_permissions; by rewrite Hk).
  destruct (readable_decides q ctx path Hq Hread) as (Hl & _ & root & d & Ha & Hmax).
  pose proof (resolved_app _ _ q ctx Enew) as Er. change (entries p ≫= resolve_entry ctx) with (resolved_entries ctx p) in Er.
  assert (∀ r a' d', applies p ctx path r a' d' → applies q ctx path r a' d') as Hup.
  { intros r a' d' (Hin & ? & ?). split; [|done]. rewrite Er. set_solver. }
  assert (∀ r a' d', applies p ctx path r a' d' → d' < d) as Hall.
  { intros r a' d' Hap. destruct (resolve_access_decides p ctx path Hk Hl Hres) as [(r1 & d1 & Ha1 & Hm1)|[_ Hno]]; [|by apply Hno in Hap].
    rewrite Hden in Ha1, Hm1. specialize (Hm1 _ _ _ Hap). specialize (Hmax _ _ _ (Hup _ _ _ Ha1)).
    destruct (resolve_access q path ctx); cbn in Hmax; [lia|lia|done]. }
  pose proof Ha as (Hin & Hd & Hst). rewrite Er in Hin. apply elem_of_app in Hin as [Hin|Hin].
  - exfalso. specialize (Hall root (resolve_access q path ctx) d). lapply Hall; [lia|done].
  - apply resolved_from_list in Hin as (e & He & Ea & Ht). exists e, root, d. split_and!; auto.
Qed.
End Merged.

(** * Claims *)

(** Only what was both requested and granted is allowed: a path the intersection of two
    permission profiles makes readable is readable under the request and, when the paths of
    the grant have segments, under the grant; network access needs both. *)
Theorem intersection_reads_within_both `{!UrlCodec, !UrlCodecLaws, !GlobEngine}
    (requested granted : AdditionalPermissionProfile) (ctx : PolicyContext) (rq gr f : FileSystemPermissions) (path : Url) :
  posix_context ctx → lexical_posix path →
  ap_file_system requested = Some rq → ap_file_system granted = Some gr →
  ap_file_system (intersect_permission_profiles_with_context requested granted ctx) = Some f →
  can_read_path (restricted (fp_entries f)) path ctx = true →
  can_read_path (restricted (fp_entries rq)) path ctx = true ∧
  (resolvable (restricted (fp_entries gr)) ctx → can_read_path (restricted (fp_entries gr)) path ctx = true) ∧
  (network_granted (ap_network (intersect_permission_profiles_with_context requested granted ctx)) = true →
   network_granted (ap_network requested) = true ∧ network_granted (ap_network granted) = true).
Proof.
  intros Hctx Hp Hr Hg Hi Hread. unfold intersect_permission_profiles_with_context in *. cbn [ap_network ap_file_system] in *.
  rewrite Hr, Hg in Hi. cbn [mbind option_bind default] in Hi.
  destruct (intersect_file_system rq _ ctx) as [f'|] eqn:E; [|done]. cbn [opt_filter] in Hi.
  destruct (negb _); [injection Hi as ->|done].
  destruct (intersection_within rq gr ctx f path Hctx Hp E Hread) as [? ?]. split_and!; [done..|].
  destruct (network_granted (ap_network requested)), (network_granted (ap_network granted)); done.
Qed.

#[local] Instance no_globs : GlobEngine :=
  {| GlobMatcher := unit; glob_build := λ _ _ _, Ok tt; glob_is_match := λ _ _, false |}.

Definition permissions_of (l : list FileSystemSandboxEntry) : AdditionalPermissionProfile :=
  mkAdditional (Some (Some true)) (Some (mkFsPermissions l None)).

Definition read_entry (segs : list str) : FileSystemSandboxEntry := entry_new (PathEntry (uri_of segs)) Read.

Lemma intersection_reads_within_both_witness :
  can_read_path (restricted [grant [lit "w"]; deny [lit "w"; lit "src"]]) (uri_of [lit "w"; lit "a"]) sample_context = true ∧
  ap_file_system (intersect_permission_profiles_with_context (permissions_of [grant [lit "w"]; deny [lit "w"; lit "src"]])
    (permissions_of [grant [lit "w"]; grant [lit "etc"]]) sample_context)
  = Some (mkFsPermissions [grant [lit "w"]; deny [lit "w"; lit "src"]] None).
Proof.
  assert (ap_file_system (intersect_permission_profiles_with_context (permissions_of [grant [lit "w"]; deny [lit "w"; lit "src"]])
    (permissions_of [grant [lit "w"]; grant [lit "etc"]]) sample_context)
    = Some (mkFsPermissions [grant [lit "w"]; deny [lit "w"; lit "src"]] None)) as E by (by vm_compute).
  split; [|exact E].
  refine (proj1 (intersection_reads_within_both (permissions_of [grant [lit "w"]; deny [lit "w"; lit "src"]])
    (permissions_of [grant [lit "w"]; grant [lit "etc"]]) sample_context _ _ _ (uri_of [lit "w"; lit "a"])
    sample_context_posix _ eq_refl eq_refl E _)).
  - split; [by vm_compute|by exists 2; vm_compute].
  - by vm_compute.
Defined.

(** For writing the request is no bound: of the request only denials are kept, so a
    directory requested read-only below a writable one becomes writable when just the
    writable one is granted. *)
Theorem intersection_can_widen_writes :
  let requested := [grant [lit "w"]; read_entry [lit "w"; lit "vendor"]] in
  let path := uri_of [lit "w"; lit "vendor"; lit "f"] in
  resolve_access (restricted requested) path sample_context = Read ∧
  ∃ f, ap_file_system (intersect_permission_profiles_with_context (permissions_of requested)
         (permissions_of [grant [lit "w"]]) sample_context) = Some f ∧
       resolve_access (restricted (fp_entries f)) path sample_context = Write.
Proof. split; [by vm_compute|]. exists (mkFsPermissions [grant [lit "w"]] None). split; by vm_compute. Qed.

(** Additional permissions open a denied path only by an entry that is more specific
    than everything the policy says about it: if the merged policy makes readable what the
    policy denied, the access is that of an additional entry whose target contains the path
    and lies deeper than each entry of the policy that applies to it. *)
Theorem additional_permissions_reach `{!UrlCodec} (p : FileSystemSandboxPolicy) (additional : AdditionalPermissionProfile)
    (ctx : PolicyContext) (path : Url) :
  fs_kind p = Restricted → resolvable p ctx → resolve_access p path ctx = Deny →
  can_read_path (effective_file_system_sandbox_policy p (Some additional)) path ctx = true →
  ∃ f e u d, ap_file_system additional = Some f ∧ e ∈ fp_entries f ∧ u ∈ entry_targets ctx (entry_path e) ∧
    lexical_depth u = Some d ∧ uri_starts_with path u = true ∧
    entry_access e = resolve_access (effective_file_system_sandbox_policy p (Some additional)) path ctx ∧
    ∀ r a' d', applies p ctx path r a' d' → d' < d.
Proof.
  intros Hk Hres Hden. unfold can_read_path, effective_file_system_sandbox_policy. cbn [mbind option_bind].
  destruct (ap_file_system additional) as [f|]; [|by rewrite Hden]. destruct (fs_is_empty f); [by rewrite Hden|].
  intros Hread. destruct (merged_grant p f ctx path Hk Hden Hres Hread) as (e & u & d & ?). by exists f, e, u, d.
Qed.

Lemma additional_permissions_reach_witness :
  ∃ f e u d, ap_file_system (permissions_of [grant [lit "w"; lit "src"; lit "gen"]]) = Some f ∧ e ∈ fp_entries f ∧
    u ∈ entry_targets sample_context (entry_path e) ∧ lexical_depth u = Some d ∧
    uri_starts_with (uri_of [lit "w"; lit "src"; lit "gen"; lit "a"]) u = true.
Proof.
  destruct (additional_permissions_reach (restricted [grant [lit "w"]; deny [lit "w"; lit "src"]])
              (permissions_of [grant [lit "w"; lit "src"; lit "gen"]]) sample_context
              (uri_of [lit "w"; lit "src"; lit "gen"; lit "a"])) as (f & e & u & d & H1 & H2 & H3 & H4 & H5 & _).
  - done.
  - repeat constructor.
  - by vm_compute.
  - by vm_compute.
  - by exists f, e, u, d.
Defined.
