(* ===== verification/Orchestrator.v ===== *)
(** core/src/tools/orchestrator.rs: how one tool call is approved, sandboxed, run and, when
    the sandbox denies it, run again; with core/src/tools/sandboxing.rs, the sandbox selection
    of sandboxing/src/manager.rs and core/src/network_policy_decision.rs.

    The orchestrator is a program over calls it does not decide: the user or guardian that
    approves, the exec server, the network approval service and the tool itself. The calls are
    events of a free monad whose answers are arbitrary, so a property of every execution holds
    whatever they answer. Telemetry is not modelled. [cfg!(target_os)] is a parameter; the
    attempt keeps the fields decided here and the paths passed on. *)
From S2P Require Import Prelude Str NetworkPolicy UriPath NativePath ApprovalTypes Permissions AccessRules PermissionProfile PolicyTransforms ExecApproval.

(** * Programs that call out *)

Section Programs.
Context {E : Type → Type}.

(** [Panic] is a reached [unreachable!]. *)
Inductive io (A : Type) : Type :=
| Ret (a : A)
| Panic
| Ask {R : Type} (e : E R) (k : R → io A).

Arguments Ret {A}.
Arguments Panic {A}.
Arguments Ask {A R}.

Fixpoint io_bind {A B} (p : io A) (f : A → io B) : io B :=
  match p with
  | Ret a => f a
  | Panic => Panic
  | Ask e k => Ask e (λ r, io_bind (k r) f)
  end.

Definition call {R} (e : E R) : io R := Ask e Ret.

(** [?] on a [Result], and a value that must be there. *)
Definition try_io {Er A B} (p : io (result Er A)) (f : A → io (result Er B)) : io (result Er B) :=
  io_bind p (λ r, match r with Ok a => f a | Err e => Ret (Err e) end).
Definition expect {A} (o : option A) : io A := match o with Some a => Ret a | None => Panic end.

Inductive observed := | Called {R : Type} (e : E R) (answer : R).

(** An execution: the calls made with their answers, and what is returned ([None] for a panic). *)
Inductive execution {A} : io A → list observed → option A → Prop :=
| execution_ret a : execution (Ret a) [] (Some a)
| execution_panic : execution Panic [] None
| execution_ask R (e : E R) (k : R → io A) r t o : execution (k r) t o → execution (Ask e k) (Called e r :: t) o.

(** [always P Q h p]: after the calls [h], every call of [p] satisfies [P] and what is returned
    satisfies [Q], both of the calls made before; and [p] does not panic. *)
Fixpoint always {A} (P : list observed → ∀ R, E R → Prop) (Q : list observed → A → Prop) (h : list observed) (p : io A) : Prop :=
  match p with
  | Ret a => Q h a
  | Panic => False
  | Ask e k => P h _ e ∧ ∀ r, always P Q (h ++ [Called e r]) (k r)
  end.

Lemma always_bind {A B} P Q Q' h (p : io A) (f : A → io B) :
  always P Q h p → (∀ h' a, h `prefix_of` h' → Q h' a → always P Q' h' (f a)) → always P Q' h (io_bind p f).
Proof.
  revert h. induction p as [a| |R e k IH]; intros h; cbn [always io_bind]; [|done|].
  - intros Hq Hf. by apply Hf.
  - intros [He Hk] Hf. split; [done|]. intros r. apply IH; [done|]. intros h' a Hp. apply Hf. etrans; [|done]. by apply prefix_app_r.
Qed.

Lemma always_mono {A} P Q Q' h (p : io A) :
  always P Q h p → (∀ h' a, h `prefix_of` h' → Q h' a → Q' h' a) → always P Q' h p.
Proof.
  revert h. induction p as [a| |R e k IH]; intros h; cbn [always]; [|done|].
  - intros Hq Hf. by apply Hf.
  - intros [He Hk] Hf. split; [done|]. intros r. eapply IH; [done|]. intros h' a Hp. apply Hf. etrans; [|done]. by apply prefix_app_r.
Qed.

Lemma always_call {R} P (Q : list observed → R → Prop) h (e : E R) :
  P h R e → (∀ r, Q (h ++ [Called e r]) r) → always P Q h (call e).
Proof. intros He Hq. by split. Qed.

Lemma always_try {Er A B} P (Q : list observed → result Er A → Prop) Q' h p (f : A → io (result Er B)) :
  always P Q h p → (∀ h' a, h `prefix_of` h' → Q h' (Ok a) → always P Q' h' (f a)) →
  (∀ h' e, h `prefix_of` h' → Q h' (Err e) → Q' h' (Err e)) → always P Q' h (try_io p f).
Proof. intros Hp Hok Herr. eapply always_bind; [done|]. intros h' [a|e] Hpre Hq; [by apply Hok|by apply Herr]. Qed.

(** What always holds, holds of each call in each execution, and there is no panic. *)
Lemma always_sound {A} P Q h (p : io A) t o :
  always P Q h p → execution p t o →
  (∃ a, o = Some a ∧ Q (h ++ t) a) ∧
  ∀ pre c post, t = pre ++ c :: post → match c with @Called R e _ => P (h ++ pre) R e end.
Proof.
  intros Ha Hx. revert h Ha. induction Hx as [a| |R e k r t o Hx IH]; intros h; cbn [always]; [|done|].
  - intros Hq. split; [exists a; by rewrite app_nil_r|]. intros [|? ?] c post E'; discriminate E'.
  - intros [He Hk]. destruct (IH _ (Hk r)) as [(a & -> & Hq) Hcalls]. rewrite <- (assoc_L (++)) in Hq. split; [by exists a|].
    intros [|c' pre] c post; cbn [app]; intros [= <- Et]; [by rewrite app_nil_r|].
    specialize (Hcalls pre c post Et). destruct c. by rewrite <- (assoc_L (++)) in Hcalls.
Qed.
End Programs.

Arguments io : clear implicits.
Arguments Ret {E A}.
Arguments Panic {E A}.
Arguments Ask {E A R}.
Arguments observed : clear implicits.

Notation "'let!' x := p 'in' q" := (io_bind p (λ x, q)) (at level 200, x name, p at level 100, q at level 200).
Notation "'let!?' x := p 'in' q" := (try_io p (λ x, q)) (at level 200, x name, p at level 100, q at level 200).

(** * Data *)

Inductive SandboxType := SandboxNone | MacosSeatbelt | LinuxSeccomp | WindowsRestrictedToken | WindowsMxc.
Inductive SandboxablePreference := Auto | Require | Forbid.
Inductive TargetOs := MacosTarget | LinuxTarget | WindowsTarget | AndroidTarget | OtherTarget.

#[export] Instance SandboxType_eq_dec : EqDecision SandboxType.
Proof. solve_decision. Defined.
#[export] Instance TargetOs_eq_dec : EqDecision TargetOs.
Proof. solve_decision. Defined.

Inductive NetworkApprovalProtocol := ApprovalHttp | ApprovalHttps | ApprovalSocks5Tcp | ApprovalSocks5Udp.

Record NetworkPolicyDecisionPayload := mkPayload {
  payload_decision : NetworkPolicyDecision; payload_source : NetworkDecisionSource;
  payload_protocol : option NetworkApprovalProtocol; payload_host : option str;
  payload_reason : option str; payload_port : option N }.

Record NetworkApprovalContext := mkNetworkContext { approval_host : str; approval_protocol : NetworkApprovalProtocol }.

(** The details of a [CodexErr] the orchestrator tells apart; the output of a denied command is
    passed on unread. *)
Inductive CodexErr :=
| SandboxDenied (output : str) (network_policy_decision : option NetworkPolicyDecisionPayload)
| SandboxTimeout | SandboxSignal (signal : Z) | OtherError (text : str).

Inductive ToolError := Rejected (message : str) | Codex (err : CodexErr).

Record ApprovalContext := mkApprovalContext {
  ac_strict_auto_review : bool; ac_approval_reason : option str; ac_retry_reason : option str;
  ac_network_approval_context : option NetworkApprovalContext }.

(** An active network approval: its registration, if the approval outlives the attempt. *)
Record ActiveNetworkApproval := mkActive { registration_id : option str }.
Definition into_deferred (n : ActiveNetworkApproval) : option str := registration_id n.

Record SandboxAttempt := mkAttempt {
  at_sandbox_override : SandboxOverride;
  at_sandbox : SandboxType;
  at_sandbox_requested : bool;
  at_permissions : PermissionProfile;
  at_exec_server_permissions : PermissionProfile;
  at_enforce_managed_network : bool;
  at_sandbox_cwd : Url;
  at_workspace_roots : list Url;
  at_sandbox_exe : option str;
  at_use_legacy_landlock : bool;
  at_windows_sandbox_type : SandboxType;
  at_windows_sandbox_level : WindowsSandboxLevel;
  at_network_approval : option ActiveNetworkApproval
}.

(** The turn environment a tool runs in, as far as it is read. *)
Record TurnEnvironment := mkTurnEnvironment {
  env_permission_profile : PermissionProfile;
  env_cwd : Url;
  env_workspace_roots : list Url;
  env_user_home_dir : option Url;
  env_temporary_directories : option (list Url);
  env_requires_proxy : option bool;   (* [network_policy], with its [requires_proxy] *)
  env_is_remote : bool;
  env_windows_sandbox_type : SandboxType;
  env_windows_sandbox_level : WindowsSandboxLevel;
  env_use_legacy_landlock : bool
}.

Record Turn := mkTurn {
  turn_approval_policy : AskForApproval;
  turn_strict_auto_review : bool;
  turn_config_network : option bool;   (* the configured proxy, if any, and whether it is enabled *)
  turn_network : bool;                 (* a proxy is running *)
  turn_codex_self_exe : option str;
  turn_codex_linux_sandbox_exe : option str
}.

(** What the traits [Approvable], [Sandboxable] and [ToolRuntime] say of a request. *)
Record Tool := mkTool {
  tool_requirement : option ExecApprovalRequirement;
  tool_sandbox_permissions : SandboxPermissions;
  tool_sandbox_preference : SandboxablePreference;
  tool_escalate_on_failure : bool;
  tool_wants_no_sandbox_approval : AskForApproval → bool;
  tool_executor_managed : bool;
  tool_network_approval_spec : option (option AdditionalPermissionProfile);  (* with the trigger's permissions *)
  tool_sandbox_cwd : option Url
}.

(** The default of [Approvable::wants_no_sandbox_approval], and that of the patch tool. *)
Definition default_wants_no_sandbox_approval (policy : AskForApproval) : bool :=
  match policy with
  | UnlessTrusted => true
  | Never => false
  | OnRequest => false
  | Granular config => sandbox_approval config
  end.
Definition apply_patch_wants_no_sandbox_approval (policy : AskForApproval) : bool :=
  match policy with
  | Never => false
  | Granular config => allows_sandbox_approval config
  | OnRequest => true
  | UnlessTrusted => true
  end.

Definition should_bypass_approval (policy : AskForApproval) (already_approved : bool) : bool :=
  if already_approved then true else match policy with Never => true | _ => false end.

(** The calls out, with the type of their answers. *)
Inductive event (Out : Type) : Type → Type :=
| PrepareApprovalAction : event Out (result str unit)
| RequestApproval (context : ApprovalContext) : event Out (result ToolError unit)
| ExecServerInfo : event Out (result str (option str * bool))  (* platform, and the capability asked for *)
| BeginNetworkApproval (managed_network_active : bool) (spec : option (option AdditionalPermissionProfile))
    : event Out (result ToolError (option ActiveNetworkApproval))
| RunTool (attempt : SandboxAttempt) : event Out (result ToolError Out)
| FinishNetworkApproval (registration : str) : event Out (result ToolError unit).

Arguments PrepareApprovalAction {Out}.
Arguments RequestApproval {Out}.
Arguments ExecServerInfo {Out}.
Arguments BeginNetworkApproval {Out}.
Arguments RunTool {Out}.
Arguments FinishNetworkApproval {Out}.

(** * Sandbox selection *)

Definition get_platform_sandbox (os : TargetOs) (windows_sandbox_enabled : bool) : option SandboxType :=
  match os with
  | MacosTarget => Some MacosSeatbelt
  | LinuxTarget => Some LinuxSeccomp
  | WindowsTarget => if windows_sandbox_enabled then Some WindowsRestrictedToken else None
  | AndroidTarget | OtherTarget => None
  end.

Definition effective_windows_sandbox_type (t : SandboxType) (level : WindowsSandboxLevel) : SandboxType :=
  match t, level with
  | WindowsMxc, _ => WindowsMxc
  | _, WindowsDisabled => SandboxNone
  | _, (RestrictedToken | Elevated) => WindowsRestrictedToken
  end.

Definition sandbox_unavailable_by_construction (os : TargetOs) : bool := bool_decide (os = AndroidTarget).

Definition ensure_native_sandbox (o : SandboxOverride) (sandbox : SandboxType) : result ToolError unit :=
  if bool_decide (o = EscalatedSandboxWithRestrictions) && bool_decide (sandbox = SandboxNone)
  then Err (Rejected (lit "command escalation with denied reads requires an available filesystem sandbox"))
  else Ok tt.

Definition is_ask_from_decider (p : NetworkPolicyDecisionPayload) : bool :=
  match payload_decision p, payload_source p with DecisionAsk, Decider => true | _, _ => false end.

Definition network_approval_context_from_payload (p : NetworkPolicyDecisionPayload) : option NetworkApprovalContext :=
  if negb (is_ask_from_decider p) then None
  else
    protocol ← payload_protocol p;
    host ← payload_host p;
    if bool_decide (trim host = []) then None else Some (mkNetworkContext (trim host) protocol).

Definition build_denial_reason_from_output (output : str) : str := lit "command failed; retry without sandbox?".

Definition native_convention (os : TargetOs) : PathConvention :=
  match os with WindowsTarget => Windows | _ => Posix end.

(** * The orchestrator *)

Section Orchestrator.
Context `{!UrlCodec, !GlobEngine} (os : TargetOs) {Out : Type}.

#[local] Instance os_policy_ops : FileSystemPolicyOps FileSystemSandboxPolicy := policy_ops (native_convention os).

Definition should_sandbox (profile : PermissionProfile) (pref : SandboxablePreference) (managed_network : bool) : bool :=
  match pref with
  | Forbid => false
  | Require => true
  | Auto =>
      let '(p, n) := to_runtime_permissions profile in
      should_require_platform_sandbox p n managed_network
  end.

Definition select_initial (profile : PermissionProfile) (pref : SandboxablePreference) (windows_sandbox_type : SandboxType)
    (managed_network : bool) : SandboxType :=
  if negb (should_sandbox profile pref managed_network) then SandboxNone
  else if bool_decide (os = WindowsTarget) && bool_decide (windows_sandbox_type = WindowsMxc) then WindowsMxc
  else default SandboxNone (get_platform_sandbox os (negb (bool_decide (windows_sandbox_type = SandboxNone)))).

Definition is_escalated (a : SandboxAttempt) : bool :=
  negb (at_sandbox_requested a) && should_sandbox (at_permissions a) Auto (at_enforce_managed_network a).

Notation prog A := (io (event Out) A).

(** ** One attempt *)

Definition finish_deferred_network_approval (deferred : option str) : prog (result ToolError unit) :=
  match deferred with
  | None => Ret (Ok tt)
  | Some registration => call (FinishNetworkApproval registration)
  end.

Definition with_network_approval (n : option ActiveNetworkApproval) (a : SandboxAttempt) : SandboxAttempt :=
  mkAttempt (at_sandbox_override a) (at_sandbox a) (at_sandbox_requested a) (at_permissions a)
    (at_exec_server_permissions a) (at_enforce_managed_network a) (at_sandbox_cwd a) (at_workspace_roots a)
    (at_sandbox_exe a) (at_use_legacy_landlock a) (at_windows_sandbox_type a) (at_windows_sandbox_level a) n.

Definition run_attempt (attempt : SandboxAttempt) (spec : option (option AdditionalPermissionProfile))
    : prog (result ToolError Out * option str) :=
  let! begun := call (BeginNetworkApproval (at_enforce_managed_network attempt) spec) in
  match begun with
  | Err err => Ret (Err err, None)
  | Ok network_approval =>
      let! run_result := call (RunTool (with_network_approval network_approval attempt)) in
      match network_approval with
      | None => Ret (run_result, None)
      | Some network_approval =>
          let deferred := into_deferred network_approval in
          match run_result with
          | Err _ =>
              let! finalized := finish_deferred_network_approval deferred in
              match finalized with
              | Err err => Ret (Err err, None)
              | Ok _ => Ret (run_result, None)
              end
          | Ok _ => Ret (run_result, deferred)
          end
      end
  end.

(** ** Approval *)

Definition ask_approval (context : ApprovalContext) : prog (result ToolError unit) :=
  let! action := call PrepareApprovalAction in
  match action with
  | Err err => Ret (Err (Rejected (lit "could not prepare approval action: " ++ err)))
  | Ok _ => call (RequestApproval context)
  end.

Context (tool : Tool) (env : TurnEnvironment) (turn : Turn).

Definition requirement_for (p : FileSystemSandboxPolicy) : ExecApprovalRequirement :=
  default (default_exec_approval_requirement (turn_approval_policy turn) p) (tool_requirement tool).

(** Step 1; the answer is [already_approved]. *)
Definition approve (requirement : ExecApprovalRequirement) : prog (result ToolError bool) :=
  let strict := turn_strict_auto_review turn in
  match requirement with
  | Skip _ _ =>
      if strict then
        let!? _ := ask_approval (mkApprovalContext strict None None None) in Ret (Ok true)
      else Ret (Ok false)
  | ForbiddenRequirement reason => Ret (Err (Rejected reason))
  | NeedsApproval reason _ =>
      let!? _ := ask_approval (mkApprovalContext strict reason None None) in Ret (Ok true)
  end.

(** ** The first attempt's permissions *)

Definition env_context : PolicyContext :=
  mkPolicyContext (env_cwd env) (env_workspace_roots env) (env_user_home_dir env) (env_temporary_directories env).

Definition policy_eqb (p q : FileSystemSandboxPolicy) : bool :=
  bool_decide (fs_kind p = fs_kind q) && bool_decide (glob_scan_max_depth p = glob_scan_max_depth q)
  && (length (entries p) =? length (entries q)) && forallb (λ '(a, b), entry_eqb a b) (zip (entries p) (entries q)).

Definition writable_metadata (p : FileSystemSandboxPolicy) : bool :=
  match file_system_root env_context with
  | None => false
  | Some root =>
      can_write_path p root env_context
      && existsb (λ name, match join_descendant root name with
                          | Ok path => can_write_path p path env_context
                          | Err _ => false
                          end) PROTECTED_METADATA_PATH_NAMES
  end.

(** [(escalated_profile, writable_root_metadata)] *)
Definition escalation (o : SandboxOverride) : prog (option PermissionProfile * bool) :=
  if bool_decide (o = EscalatedSandboxWithRestrictions) then
    let baseline := profile_file_system (env_permission_profile env) in
    let file_system := for_approved_command baseline env_context in
    let metadata := writable_metadata file_system in
    if negb (policy_eqb file_system baseline)
       && negb (policy_eqb file_system (materialize_project_roots_with_path_uris (env_workspace_roots env) baseline))
    then
      let! profile := expect (from_runtime_permissions_with_enforcement (enforcement (env_permission_profile env))
                                file_system (network_sandbox_policy (env_permission_profile env))) in
      Ret (Some profile, metadata)
    else Ret (None, metadata)
  else Ret (None, false).

Definition verify_remote_support (escalated_profile : option PermissionProfile) (metadata : bool)
    : prog (result ToolError unit) :=
  if (bool_decide (is_Some escalated_profile) || metadata) && env_is_remote env then
    let! info := call ExecServerInfo in
    match info with
    | Err err =>
        Ret (Err (Rejected (lit "could not verify exec-server support for escalation with denied reads: " ++ err)))
    | Ok (platform_os, preserves) =>
        if negb match platform_os with Some s => (s =s lit "windows") || (s =s lit "macos") | None => false end
           && negb preserves
        then Ret (Err (Rejected (lit "this exec-server cannot safely escalate with denied reads; upgrade the exec-server and retry")))
        else Ret (Ok tt)
    end
  else Ret (Ok tt).

Definition managed_network_active : bool :=
  match env_requires_proxy env with
  | Some requires_proxy =>
      default false (turn_config_network turn)
      || requires_proxy
      || ((bool_decide (is_Some (tool_network_approval_spec tool))
           || requires_escalated_permissions (tool_sandbox_permissions tool))
          && is_enabled (effective_network_sandbox_policy (network_sandbox_policy (env_permission_profile env))
                           (spec ← tool_network_approval_spec tool; spec)))
  | None => turn_network turn
  end.

Definition windows_type : SandboxType :=
  effective_windows_sandbox_type (env_windows_sandbox_type env) (env_windows_sandbox_level env).

Definition sandbox_exe : option str :=
  if bool_decide (os = WindowsTarget) then turn_codex_self_exe turn else turn_codex_linux_sandbox_exe turn.

Definition make_attempt (o : SandboxOverride) (sandbox : SandboxType) (requested : bool)
    (permissions exec_server_permissions : PermissionProfile) (exe : option str) : SandboxAttempt :=
  mkAttempt o sandbox requested permissions exec_server_permissions managed_network_active
    (default (env_cwd env) (tool_sandbox_cwd tool)) (env_workspace_roots env) exe (env_use_legacy_landlock env)
    windows_type (env_windows_sandbox_level env) None.

(** The sandbox of an attempt whose request for one is known. *)
Definition sandbox_for (requested : bool) (permissions : PermissionProfile) : SandboxType :=
  if requested && negb (tool_executor_managed tool)
  then select_initial permissions (tool_sandbox_preference tool) windows_type managed_network_active
  else SandboxNone.

(** ** The second attempt *)

Definition prompts_for_network (p : FileSystemSandboxPolicy) (network : option NetworkApprovalContext) : bool :=
  match turn_approval_policy turn with OnRequest => true | _ => false end
  && bool_decide (is_Some network)
  && match default_exec_approval_requirement (turn_approval_policy turn) p with NeedsApproval _ _ => true | _ => false end.

(** The guards before a retry: [false] surfaces the denial. *)
Definition may_retry (p : FileSystemSandboxPolicy) (unsandboxed_allowed : bool)
    (decision : option NetworkPolicyDecisionPayload) (network : option NetworkApprovalContext) : bool :=
  if bool_decide (is_Some decision) && bool_decide (network = None) then false
  else if negb (tool_escalate_on_failure tool) then false
  else if negb (tool_wants_no_sandbox_approval tool (turn_approval_policy turn)) && negb (prompts_for_network p network)
  then false
  else negb (negb unsandboxed_allowed && bool_decide (network = None)).

Definition QUOTE : N := 34.

Definition retry_reason (output : str) (network : option NetworkApprovalContext) : str :=
  match network with
  | Some n => lit "Network access to " ++ [QUOTE] ++ approval_host n ++ [QUOTE] ++ lit " is blocked by policy."
  | None => build_denial_reason_from_output output
  end.

Definition retry_approval (requirement : ExecApprovalRequirement) (already_approved : bool) (output : str)
    (network : option NetworkApprovalContext) : prog (result ToolError unit) :=
  if negb (turn_strict_auto_review turn) && should_bypass_approval (turn_approval_policy turn) already_approved
     && bool_decide (network = None)
  then Ret (Ok tt)
  else
    let reason := match requirement with NeedsApproval reason _ => reason | _ => None end in
    ask_approval (mkApprovalContext (turn_strict_auto_review turn) reason (Some (retry_reason output network)) network).

Definition OrchestratorRunResult : Type := Out * option str.

Definition attempt_result (r : result ToolError Out * option str) : result ToolError OrchestratorRunResult :=
  match r with
  | (Ok out, deferred) => Ok (out, deferred)
  | (Err err, _) => Err err
  end.

Definition run : prog (result ToolError OrchestratorRunResult) :=
  let! permissions :=
    if tool_executor_managed tool then Ret (env_permission_profile env)
    else expect (materialize_profile (env_workspace_roots env) (env_permission_profile env)) in
  let p := profile_file_system permissions in
  let requirement := requirement_for p in
  let!? already_approved := approve requirement in
  let unsandboxed_allowed :=
    (negb (bool_decide (is_Some (env_requires_proxy env))) && unsandboxed_execution_allowed p)
    || sandbox_unavailable_by_construction os in
  let sandbox_override :=
    if unsandboxed_allowed
    then sandbox_override_for_first_attempt (tool_sandbox_permissions tool) requirement p
           (sandbox_unavailable_by_construction os) already_approved
    else NoOverride in
  let! escalated := escalation sandbox_override in
  let!? _ := verify_remote_support escalated.1 escalated.2 in
  let! initial_permissions :=
    match escalated.1 with
    | Some profile =>
        if tool_executor_managed tool then Ret profile else expect (materialize_profile (env_workspace_roots env) profile)
    | None => Ret permissions
    end in
  let requests_sandbox :=
    should_sandbox initial_permissions (tool_sandbox_preference tool) managed_network_active in
  let sandbox_requested :=
    match sandbox_override with BypassSandboxFirstAttempt => false | _ => requests_sandbox end in
  let initial_sandbox := sandbox_for sandbox_requested initial_permissions in
  let!? _ := Ret (if tool_executor_managed tool then Ok tt else ensure_native_sandbox sandbox_override initial_sandbox) in
  let exec_server_permissions := default (env_permission_profile env) escalated.1 in
  let! first :=
    run_attempt (make_attempt sandbox_override initial_sandbox sandbox_requested initial_permissions
                   exec_server_permissions sandbox_exe) (tool_network_approval_spec tool) in
  match first.1 with
  | Err (Codex (SandboxDenied output decision)) =>
      let network := if managed_network_active then decision ≫= network_approval_context_from_payload else None in
      if negb (may_retry p unsandboxed_allowed decision network)
      then Ret (Err (Codex (SandboxDenied output decision)))
      else
        let!? _ := retry_approval requirement already_approved output network in
        let retry_requested := negb unsandboxed_allowed && requests_sandbox in
        let! retried :=
          run_attempt (make_attempt sandbox_override (sandbox_for retry_requested initial_permissions) retry_requested
                         initial_permissions exec_server_permissions
                         (if unsandboxed_allowed then None else sandbox_exe)) (tool_network_approval_spec tool) in
        Ret (attempt_result retried)
  | _ => Ret (attempt_result first)
  end.
End Orchestrator.

(** * What holds of every execution *)

Section Observed.
Context {Out : Type}.
Implicit Types (h : list (observed (event Out))) (a : SandboxAttempt).

(** The runs of the tool among the calls, with what they returned. *)
Definition run_of (c : observed (event Out)) : list (SandboxAttempt * result ToolError Out) :=
  match c with
  | @Called _ R e r =>
      match e in event _ R return R → list (SandboxAttempt * result ToolError Out) with
      | RunTool a => λ r, [(a, r)]
      | _ => λ _, []
      end r
  end.
Definition runs h : list (SandboxAttempt * result ToolError Out) := h ≫= run_of.

(** The call was approved by the user or guardian. *)
Definition approved h : Prop := ∃ c, Called (RequestApproval c) (Ok tt) ∈ h.

(** A condition on the runs of the tool. *)
Definition on_run (C : list (observed (event Out)) → SandboxAttempt → Prop) h R (e : event Out R) : Prop :=
  match e with RunTool a => C h a | _ => True end.

Lemma runs_of_app h h' : runs (h ++ h') = runs h ++ runs h'.
Proof. apply bind_app. Qed.

Lemma approved_mono h h' : h `prefix_of` h' → approved h → approved h'.
Proof. intros [t ->] [c Hc]. exists c. set_solver. Qed.

(** A condition on the runs that is kept by calls that do not run the tool. *)
Definition stable_from (C : list (observed (event Out)) → SandboxAttempt → Prop) h a : Prop :=
  ∀ h' n, h `prefix_of` h' → runs h' = runs h → C h' (with_network_approval n a).

Lemma ask_approval_always C h c :
  always (on_run C) (λ h' r, runs h' = runs h ∧ match r with Ok _ => approved h' | Err _ => True end) h (ask_approval c).
Proof.
  unfold ask_approval. eapply always_bind; [apply (always_call _ (λ h' _, runs h' = runs h)); [done|]|].
  - intros r. by rewrite runs_of_app, app_nil_r.
  - intros h' [[]|err] _ Hr; [|by split]. split; [done|]. intros r. split; [by rewrite runs_of_app, app_nil_r|].
    destruct r as [[]|]; [|done]. exists c. apply elem_of_app. right. by left.
Qed.

Lemma run_attempt_always C h a spec :
  stable_from C h a →
  always (on_run C) (λ h' r, length (runs h') ≤ S (length (runs h))) h (run_attempt a spec).
Proof.
  intros Hst. unfold run_attempt. eapply always_bind; [apply (always_call _ (λ h' _, runs h' = runs h)); [done|]|].
  { intros r. by rewrite runs_of_app, app_nil_r. }
  intros h1 [n|err] Hp1 Hr1; [|cbn [always]; rewrite Hr1; lia].
  eapply always_bind; [apply (always_call _ (λ h' _, length (runs h') = S (length (runs h)))); [by apply Hst|]|].
  { intros r. rewrite runs_of_app, length_app, Hr1. cbn. lia. }
  intros h2 x _ Hl. cbv beta in Hl. destruct n as [n|]; [|cbn [always]; lia]. destruct x as [out|err]; [cbn [always]; lia|].
  destruct (into_deferred n) as [reg|]; cbn [finish_deferred_network_approval io_bind always]; [|lia].
  split; [done|]. intros r.
  assert (length (runs (h2 ++ [Called (FinishNetworkApproval reg) r])) ≤ S (length (runs h))) as Hl'
    by (rewrite runs_of_app, length_app; cbn; lia). destruct r; exact Hl'.
Qed.
End Observed.

Section Facts.
Context `{!UrlCodec, !GlobEngine} (os : TargetOs) {Out : Type} (tool : Tool) (env : TurnEnvironment) (turn : Turn).
Implicit Types (h : list (observed (event Out))) (a : SandboxAttempt).

#[local] Hint Extern 0 (FileSystemPolicyOps FileSystemSandboxPolicy) => exact (os_policy_ops os) : typeclass_instances.

(** The permissions of the first attempt before any escalation. *)
Definition ambient (permissions : PermissionProfile) : Prop :=
  (if tool_executor_managed tool then Some (env_permission_profile env)
   else materialize_profile (env_workspace_roots env) (env_permission_profile env)) = Some permissions.

Definition unsandboxed_allowed_for (p : FileSystemSandboxPolicy) : bool :=
  (negb (bool_decide (is_Some (env_requires_proxy env))) && unsandboxed_execution_allowed p)
  || sandbox_unavailable_by_construction os.

Definition override_for (p : FileSystemSandboxPolicy) (already_approved : bool) : SandboxOverride :=
  if unsandboxed_allowed_for p
  then sandbox_override_for_first_attempt (tool_sandbox_permissions tool) (requirement_for os tool turn p) p
         (sandbox_unavailable_by_construction os) already_approved
  else NoOverride.

Definition is_forbidden (r : ExecApprovalRequirement) : bool := match r with ForbiddenRequirement _ => true | _ => false end.
Definition is_skip (r : ExecApprovalRequirement) : bool := match r with Skip _ _ => true | _ => false end.

(** Whether the first attempt asks for a sandbox; whether the second does. *)
Definition requests (permissions : PermissionProfile) : bool :=
  should_sandbox os permissions (tool_sandbox_preference tool) (managed_network_active tool env turn).
Definition first_requests (o : SandboxOverride) (permissions : PermissionProfile) : bool :=
  match o with BypassSandboxFirstAttempt => false | _ => requests permissions end.

(** The approval a second attempt has, or needs not. *)
Definition retry_authorised h (already_approved : bool) (network : option NetworkApprovalContext) : Prop :=
  approved h ∨
  turn_strict_auto_review turn = false ∧ network = None ∧
  should_bypass_approval (turn_approval_policy turn) already_approved = true.

(** All that is known when the tool is run. *)
Definition run_facts h a : Prop :=
  ∃ permissions initial already_approved,
    ambient permissions ∧
    let p := profile_file_system permissions in
    let o := override_for p already_approved in
    is_forbidden (requirement_for os tool turn p) = false ∧
    (if already_approved then approved h
     else is_skip (requirement_for os tool turn p) = true ∧ turn_strict_auto_review turn = false) ∧
    at_sandbox_override a = o ∧ at_permissions a = initial ∧
    at_enforce_managed_network a = managed_network_active tool env turn ∧
    (o ≠ EscalatedSandboxWithRestrictions → initial = permissions) ∧
    (runs h = [] ∧ at_sandbox_requested a = first_requests o initial ∨
     length (runs h) ≤ 1 ∧ at_sandbox_requested a = negb (unsandboxed_allowed_for p) && requests initial ∧
     ∃ decision network,
       may_retry os tool turn p (unsandboxed_allowed_for p) decision network = true ∧
       (network ≠ None → managed_network_active tool env turn = true) ∧
       retry_authorised h already_approved network).

Lemma approve_always C requirement :
  always (on_run C)
    (λ h r, runs h = [] ∧ match r with
            | Ok true => approved h
            | Ok false => is_skip requirement = true ∧ turn_strict_auto_review turn = false
            | Err _ => True
            end ∧ (match r with Ok _ => is_forbidden requirement = false | Err _ => True end)) [] (approve (Out := Out) turn requirement).
Proof.
  unfold approve. destruct requirement as [b am|reason am|reason]; [|..].
  - destruct (turn_strict_auto_review turn) eqn:Es; [|by cbn].
    eapply always_try; [apply ask_approval_always| |].
    + intros h [] _ [Hr Ha]. by cbn.
    + intros h e _ [Hr _]. by cbn.
  - eapply always_try; [apply ask_approval_always| |].
    + intros h [] _ [Hr Ha]. by cbn.
    + intros h e _ [Hr _]. by cbn.
  - by cbn.
Qed.

Lemma retry_approval_always C requirement already output network h :
  always (on_run C) (λ h' r, runs h' = runs h ∧ match r with Ok _ => retry_authorised h' already network | Err _ => True end) h
    (retry_approval (Out := Out) turn requirement already output network).
Proof.
  unfold retry_approval. destruct (_ && _ && _) eqn:E.
  - rewrite !andb_true_iff, negb_true_iff, bool_decide_eq_true in E. destruct E as [[Es Eb] En]. cbn. split; [done|]. by right.
  - eapply always_mono; [apply ask_approval_always|]. intros h' [[]|e] _ [Hr Ha]; [|done]. split; [done|]. by left.
Qed.

Lemma from_sandbox_total p : fs_kind p ≠ ExternalSandbox → is_Some (from_sandbox_policy p).
Proof. unfold from_sandbox_policy. by destruct (fs_kind p). Qed.

Lemma from_runtime_total e p n : is_Some (from_runtime_permissions_with_enforcement e p n).
Proof.
  unfold from_runtime_permissions_with_enforcement. destruct (fs_kind p) eqn:Ek; [| |by eexists].
  - destruct (from_sandbox_total p) as [m ->]; [by rewrite Ek|by eexists].
  - case_bool_decide; [by eexists|]. destruct (from_sandbox_total p) as [m ->]; [by rewrite Ek|by eexists].
Qed.

Lemma materialize_total roots profile : is_Some (materialize_profile roots profile).
Proof.
  destruct profile as [m n| |n]; [|by eexists..]. unfold materialize_profile.
  destruct (from_sandbox_total (materialize_project_roots_with_path_uris roots (to_sandbox_policy m))) as [q ->]; [|by eexists].
  unfold materialize_project_roots_with_path_uris, try_materialize_project_roots_with_path_uris.
  destruct (materialize_entries _ _); [|done]. by destruct m.
Qed.

(** Nothing is called while the escalated profile is made; it is made only for that override. *)
Lemma escalation_always C h o :
  always (on_run C) (λ h' x, h' = h ∧ (o ≠ EscalatedSandboxWithRestrictions → x = (None, false))) h
    (escalation (Out := Out) env o).
Proof.
  unfold escalation. case_bool_decide; [|by cbn]. destruct (_ && _); [|by cbn].
  destruct (from_runtime_total (enforcement (env_permission_profile env))
    (for_approved_command (profile_file_system (env_permission_profile env)) (env_context env))
    (network_sandbox_policy (env_permission_profile env))) as [q ->]. by cbn.
Qed.

Lemma verify_remote_always C h x m :
  always (on_run C) (λ h' _, runs h' = runs h) h (verify_remote_support (Out := Out) env x m).
Proof.
  unfold verify_remote_support. destruct (_ && _); [|by cbn]. cbn [io_bind call always]. split; [done|]. intros r.
  assert (runs (h ++ [Called ExecServerInfo r]) = runs h) as Hr by (by rewrite runs_of_app, app_nil_r).
  destruct r as [[platform b]|err]; [|exact Hr]. destruct (_ && _); exact Hr.
Qed.

Lemma expect_always {A} C h (o : option A) Q :
  is_Some o → (∀ x, o = Some x → Q h x) → always (on_run (Out := Out) C) Q h (expect o).
Proof. intros [x ->] HQ. by apply HQ. Qed.

(** The facts that do not depend on which attempt it is. *)
Lemma facts_intro h1 h permissions initial (already : bool) sandbox requested exec_permissions exe n :
  ambient permissions → is_forbidden (requirement_for os tool turn (profile_file_system permissions)) = false →
  (if already then approved h1
   else is_skip (requirement_for os tool turn (profile_file_system permissions)) = true ∧ turn_strict_auto_review turn = false) →
  (override_for (profile_file_system permissions) already ≠ EscalatedSandboxWithRestrictions → initial = permissions) →
  h1 `prefix_of` h →
  (runs h = [] ∧ requested = first_requests (override_for (profile_file_system permissions) already) initial ∨
   length (runs h) ≤ 1 ∧ requested = negb (unsandboxed_allowed_for (profile_file_system permissions)) && requests initial ∧
   ∃ decision network,
     may_retry os tool turn (profile_file_system permissions) (unsandboxed_allowed_for (profile_file_system permissions))
       decision network = true ∧
     (network ≠ None → managed_network_active tool env turn = true) ∧ retry_authorised h already network) →
  run_facts h (with_network_approval n
    (make_attempt tool env turn (override_for (profile_file_system permissions) already) sandbox requested initial
       exec_permissions exe)).
Proof.
  intros Ha Hf Hap Hi Hp Hreq. exists permissions, initial, already. split; [done|]. cbv zeta.
  split_and!; [done| |done..]. destruct already; [by eapply approved_mono|done].
Qed.

(** The tool is run at most twice, each time with these facts, and nothing panics. *)
Lemma run_always :
  always (on_run run_facts) (λ h _, length (runs h) ≤ 2) [] (run (Out := Out) os tool env turn).
Proof.
  unfold run. eapply (always_bind _ (λ h permissions, h = [] ∧ ambient permissions)).
  { unfold ambient. destruct (tool_executor_managed tool); [by cbn|]. apply expect_always; [apply materialize_total|done]. }
  intros h0 permissions _ [-> Hamb]. cbv zeta. set (p := profile_file_system permissions).
  eapply always_try; [apply approve_always| |]; cycle 1.
  { intros h e _ (Hr & _). rewrite Hr. cbn. lia. }
  intros h1 already _ (Hr1 & Hap & Hnf). fold (unsandboxed_allowed_for p). fold (override_for p already).
  set (ua := unsandboxed_allowed_for p) in *. set (o := override_for p already) in *.
  eapply always_bind; [apply escalation_always|]. intros h2 [esc metadata] _ [-> Hesc].
  eapply always_try; [apply verify_remote_always| |]; cycle 1.
  { intros h e _ Hr. rewrite Hr, Hr1. cbn. lia. }
  intros h2 [] Hp2 Hr2. cbn [fst snd] in *.
  eapply (always_bind _ (λ h initial, h = h2 ∧ (o ≠ EscalatedSandboxWithRestrictions → initial = permissions))).
  { destruct esc as [profile|]; [|by cbn]. assert (o = EscalatedSandboxWithRestrictions) as Ho.
    { destruct (decide (o = EscalatedSandboxWithRestrictions)); [done|]. by specialize (Hesc n). }
    destruct (tool_executor_managed tool); [by cbn; split|]. apply expect_always; [apply materialize_total|]. intros x _. by split. }
  intros h3 initial _ [-> Hinit]. fold (requests initial). fold (first_requests o initial).
  eapply (always_try _ (λ h _, h = h2)); [by cbn| |]; cycle 1.
  { intros h e _ ->. rewrite Hr2, Hr1. cbn. lia. }
  intros h4 [] _ ->.
  assert (match already with
          | true => approved h1
          | false => is_skip (requirement_for os tool turn p) = true ∧ turn_strict_auto_review turn = false
          end) as Hap' by (by destruct already).
  eapply always_bind.
  { apply run_attempt_always. intros h n Hp Hr. eapply facts_intro; [done|done|exact Hap'|done|by etrans|].
    left. split; [congruence|done]. }
  intros h5 [first deferred] Hp5 Hl5. cbv beta in Hl5. rewrite Hr2, Hr1 in Hl5. cbn [length fst] in *.
  destruct first as [out|[message|err]]; [cbn; lia|cbn; lia|]. destruct err as [output decision| | |]; [|cbn; lia..].
  set (network := if managed_network_active tool env turn then _ else None).
  destruct (negb _) eqn:Em; [cbn; lia|]. apply negb_false_iff in Em.
  eapply always_try; [apply retry_approval_always| |]; cycle 1.
  { intros h e _ [-> _]. lia. }
  intros h6 [] Hp6 [Hr6 Hauth]. eapply always_bind.
  { apply run_attempt_always. intros h n Hp Hr. eapply facts_intro; [done|done|exact Hap'|done|by do 3 (etrans; [done|])|].
    right. split; [rewrite Hr, Hr6; lia|]. split; [done|]. exists decision, network. split; [done|]. split.
    - unfold network. by destruct (managed_network_active tool env turn).
    - destruct Hauth as [Hauth|?]; [left; by eapply approved_mono|by right]. }
  intros h7 r _ Hl. cbv beta in Hl. rewrite Hr6 in Hl. cbn. lia.
Qed.
End Facts.

(** * Interpretation *)

(** Running a program against answers that may depend on what was called before. *)
Fixpoint interp {E : Type → Type} {A} (answer : list (observed E) → ∀ R, E R → R) (h : list (observed E)) (p : io E A)
    : list (observed E) * option A :=
  match p with
  | Ret a => ([], Some a)
  | Panic => ([], None)
  | Ask e k =>
      let r := answer h _ e in
      let '(t, o) := interp answer (h ++ [Called e r]) (k r) in
      (Called e r :: t, o)
  end.

Lemma interp_execution {E : Type → Type} {A} answer h (p : io E A) :
  execution p (interp answer h p).1 (interp answer h p).2.
Proof.
  revert h. induction p as [a| |R e k IH]; intros h; cbn [interp]; [constructor..|].
  specialize (IH (answer h R e) (h ++ [Called e (answer h R e)])). destruct (interp _ _ _) as [t o]. by constructor.
Qed.

Section Consequences.
Context `{!UrlCodec, !GlobEngine} (os : TargetOs) {Out : Type} (tool : Tool) (env : TurnEnvironment) (turn : Turn).
Implicit Types (t : list (observed (event Out))) (a : SandboxAttempt) (p : FileSystemSandboxPolicy).

#[local] Hint Extern 0 (FileSystemPolicyOps FileSystemSandboxPolicy) => exact (os_policy_ops os) : typeclass_instances.

Lemma execution_facts t o :
  execution (run (Out := Out) os tool env turn) t o →
  is_Some o ∧ length (runs t) ≤ 2 ∧
  ∀ pre a r post, t = pre ++ Called (RunTool a) r :: post → run_facts os tool env turn pre a.
Proof.
  intros Hx. destruct (always_sound _ _ [] _ _ _ (run_always os tool env turn) Hx) as [(x & -> & Hl) Hc].
  split; [by eexists|]. split; [done|]. intros pre a r post Et. apply (Hc pre _ post Et).
Qed.

(** An override that bypasses the sandbox comes from a rule, an approval or a request to escalate,
    and never with denied reads. *)
Lemma bypass_reason p already :
  override_for os tool env turn p already = BypassSandboxFirstAttempt →
  has_denied_read_restrictions p = false ∧
  (already = true ∨ (∃ am, requirement_for os tool turn p = Skip true am) ∨
   requires_escalated_permissions (tool_sandbox_permissions tool) = true).
Proof.
  unfold override_for, sandbox_override_for_first_attempt, unsandboxed_execution_allowed.
  destruct (unsandboxed_allowed_for os env p); [|done]. rewrite negb_involutive.
  destruct (has_denied_read_restrictions p); [by destruct (_ && _)|]. intros Hb. split; [done|].
  destruct already; [by left|]. rewrite andb_false_r in Hb. cbn [andb] in Hb.
  destruct (requirement_for os tool turn p) as [[] am| |]; [right; left; by exists am|..];
    right; right; by destruct (requires_escalated_permissions _).
Qed.

Lemma not_escalated p already : os ≠ AndroidTarget → override_for os tool env turn p already ≠ EscalatedSandboxWithRestrictions.
Proof.
  intros Hos. unfold override_for, unsandboxed_allowed_for, sandbox_unavailable_by_construction.
  rewrite (bool_decide_false (os = AndroidTarget)) by done. rewrite orb_false_r. cbn [andb].
  destruct (negb (bool_decide (is_Some (env_requires_proxy env)))); [|done]. cbn [andb].
  unfold sandbox_override_for_first_attempt. destruct (unsandboxed_execution_allowed p); [|done]. cbn [negb].
  destruct (requirement_for os tool turn p) as [[] am| |]; [done|..];
    by destruct (requires_escalated_permissions (tool_sandbox_permissions tool)).
Qed.

Lemma never_retries p ua decision network :
  tool_wants_no_sandbox_approval tool Never = false → turn_approval_policy turn = Never →
  may_retry os tool turn p ua decision network = false.
Proof.
  intros Hw Hn. unfold may_retry, prompts_for_network. rewrite Hn, Hw. cbn. destruct (_ && _); [done|]. by destruct (negb _).
Qed.

(** A denial of something the entries can resolve to: it narrows what may be written as well. *)
Definition denies_paths p : Prop :=
  fs_kind p = Restricted ∧ ∃ e, e ∈ entries p ∧ entry_access e = Deny ∧
    match entry_path e with
    | Special Minimal | Special (UnknownSpecial _ _) => False
    | Special SlashTmp => os ≠ WindowsTarget
    | _ => True
    end.

Lemma denies_has p : denies_paths p → has_denied_read_restrictions p = true.
Proof.
  intros (Hk & e & He & Ha & Hs).
  change (has_denied_read_restrictions_for_convention (Some (native_convention os)) p = true).
  unfold has_denied_read_restrictions_for_convention, is_restricted.
  rewrite Hk, bool_decide_true by done. cbn [andb]. apply existsb_exists. exists e. split; [by apply list_elem_of_In|].
  unfold is_deny. rewrite Ha, bool_decide_true by done. cbn [andb]. destruct (entry_path e) as [| |[]]; try done.
  rewrite bool_decide_false; [done|]. by destruct os.
Qed.

Lemma denies_narrows p : denies_paths p → has_full_disk_write_access p = false.
Proof.
  intros (Hk & e & He & Ha & Hs).
  change (has_full_disk_write_access_for_convention (Some (native_convention os)) p = false).
  unfold has_full_disk_write_access_for_convention. rewrite Hk. apply andb_false_iff. right. apply negb_false_iff.
  unfold has_write_narrowing_entries, is_restricted. rewrite Hk, bool_decide_true by done. cbn [andb].
  apply existsb_exists. exists e. split; [by apply list_elem_of_In|].
  assert (∀ c, has_same_target_write_override e c p = false) as Hov.
  { intros c. apply not_true_is_false. unfold has_same_target_write_override. rewrite existsb_exists, Ha.
    intros (x & _ & Hx). by destruct (entry_access x). }
  unfold narrows_write. rewrite Ha. cbn [can_write]. destruct (entry_path e) as [| |[]]; try done; rewrite ?Hov; try done.
  rewrite bool_decide_false; [done|]. by destruct os.
Qed.

Lemma denies_requests permissions managed pref :
  denies_paths (profile_file_system permissions) → pref ≠ Forbid → should_sandbox os permissions pref managed = true.
Proof.
  intros Hd Hp. destruct pref; [|done|done]. cbn. unfold should_require_platform_sandbox. destruct managed; [done|].
  pose proof (denies_narrows _ Hd) as Hf. destruct Hd as (Hk & _). rewrite Hk in *. rewrite bool_decide_false by done.
  destruct (negb _); [done|]. by rewrite Hf.
Qed.
End Consequences.

(** * Claims *)

Section Claims.
Context `{!UrlCodec, !GlobEngine} (os : TargetOs) {Out : Type} (tool : Tool) (env : TurnEnvironment) (turn : Turn).
Implicit Types (t pre post : list (observed (event Out))) (a : SandboxAttempt).

#[local] Hint Extern 0 (FileSystemPolicyOps FileSystemSandboxPolicy) => exact (os_policy_ops os) : typeclass_instances.

(** C3: Denied reads are never dropped where the platform has a sandbox, for a tool whose
    sandbox preference is not Forbid (no tool of the code has that preference): with a
    Restricted policy that denies reads of paths, each run of the tool, the first or the
    retry, asks for the sandbox and is no bypass of it, whatever rule allows the command;
    and it runs under the ambient permissions, which only an approved request to escalate,
    kept in the sandbox with its restrictions, may widen. *)
Theorem denied_reads_stay_sandboxed t o permissions pre a r post :
  os ≠ AndroidTarget → tool_sandbox_preference tool ≠ Forbid →
  ambient tool env permissions → denies_paths os (profile_file_system permissions) →
  execution (run (Out := Out) os tool env turn) t o → t = pre ++ Called (RunTool a) r :: post →
  at_sandbox_requested a = true ∧ at_sandbox_override a ≠ BypassSandboxFirstAttempt ∧
  (at_permissions a = permissions ∨
   at_sandbox_override a = EscalatedSandboxWithRestrictions ∧ approved pre ∧
   requires_escalated_permissions (tool_sandbox_permissions tool) = true).
Proof.
  intros Hos Hpref Hamb Hd Hx Et. destruct (execution_facts os tool env turn t o Hx) as (_ & _ & Hf).
  destruct (Hf _ _ _ _ Et) as (q & initial & already & Hq & _ & _ & Ho & Hperm & _ & Hinit & Hreq). clear Hf.
  unfold ambient in *. rewrite Hamb in Hq. injection Hq as <-. pose proof (denies_has os _ Hd) as Hden.
  assert (unsandboxed_allowed_for os env (profile_file_system permissions) = false) as Hua.
  { unfold unsandboxed_allowed_for, unsandboxed_execution_allowed, sandbox_unavailable_by_construction.
    rewrite Hden, andb_false_r. by rewrite bool_decide_false. }
  assert (override_for os tool env turn (profile_file_system permissions) already = NoOverride) as Eo
    by (unfold override_for; by rewrite Hua).
  rewrite Eo in *. assert (initial = permissions) as -> by (by apply Hinit).
  assert (requests os tool env turn permissions = true) as Hr by (by apply denies_requests).
  rewrite Ho. split; [|split; [done|by left]].
  destruct Hreq as [[_ ->]|(_ & -> & _)]; [by cbn|]. by rewrite Hua, Hr.
Qed.

(** C25: A tool runs outside the sandbox its policy asks for only with authority: the call was
    approved before, or an allow rule trusts the command, or it asked to escalate and needed
    no approval; and the policy then denies no reads, or the platform has no sandbox. *)
Theorem unsandboxed_run_authorised t o pre a r post :
  tool_wants_no_sandbox_approval tool Never = false →
  execution (run (Out := Out) os tool env turn) t o → t = pre ++ Called (RunTool a) r :: post →
  requests os tool env turn (at_permissions a) = true → at_sandbox_requested a = false →
  ∃ permissions, ambient tool env permissions ∧
    (approved pre ∨
     (∃ amendment, requirement_for os tool turn (profile_file_system permissions) = Skip true amendment) ∨
     is_skip (requirement_for os tool turn (profile_file_system permissions)) = true ∧
     requires_escalated_permissions (tool_sandbox_permissions tool) = true) ∧
    (has_denied_read_restrictions (profile_file_system permissions) = false ∨ os = AndroidTarget).
Proof.
  intros Hw Hx Et Hreqs Hns. destruct (execution_facts os tool env turn t o Hx) as (_ & _ & Hf).
  destruct (Hf _ _ _ _ Et) as (q & initial & already & Hq & _ & Hap & Ho & Hperm & _ & _ & Hreq). clear Hf.
  exists q. split; [done|]. rewrite Hperm in Hreqs. rewrite Hns in Hreq.
  destruct Hreq as [[_ Hb]|(_ & Hb & decision & network & Hm & _ & Hauth)].
  - unfold first_requests in Hb. rewrite Hreqs in Hb.
    destruct (override_for os tool env turn (profile_file_system q) already) eqn:Eo; [done|done|].
    apply bypass_reason in Eo as [Hden Hwhy]. split; [|by left].
    destruct already; [by left|]. destruct Hap as [Hskip _].
    destruct Hwhy as [?|[?|?]]; [done|right; by left|right; by right].
  - rewrite Hreqs, andb_true_r in Hb. symmetry in Hb. apply negb_false_iff in Hb. split.
    + left. destruct Hauth as [?|(_ & -> & Hby)]; [done|]. unfold should_bypass_approval in Hby. destruct already; [done|].
      destruct (turn_approval_policy turn) eqn:En; try done. by rewrite (never_retries os tool turn _ _ _ _ Hw En) in Hm.
    + unfold unsandboxed_allowed_for, sandbox_unavailable_by_construction in Hb.
      apply orb_true_iff in Hb as [[_ Hb]%andb_true_iff|Hb%bool_decide_eq_true]; [left|by right].
      unfold unsandboxed_execution_allowed in Hb. by apply negb_true_iff in Hb.
Qed.

(** A forbidden call never reaches the tool: it is rejected with the reason, without any
    call out. *)
Theorem forbidden_never_runs t o permissions reason :
  ambient tool env permissions → requirement_for os tool turn (profile_file_system permissions) = ForbiddenRequirement reason →
  execution (run (Out := Out) os tool env turn) t o → t = [] ∧ o = Some (Err (Rejected reason)).
Proof.
  intros Hamb Hreq Hx. assert (run (Out := Out) os tool env turn = Ret (Err (Rejected reason))) as E.
  { unfold run. unfold ambient in Hamb. destruct (tool_executor_managed tool).
    - injection Hamb as ->. cbn [io_bind]. cbv zeta. by rewrite Hreq.
    - rewrite Hamb. cbn [expect io_bind]. cbv zeta. by rewrite Hreq. }
  rewrite E in Hx. by inversion Hx.
Qed.

(** C33: Whatever the user, the exec server and the tool answer, the orchestrator returns a
    result and runs the tool at most twice. *)
Theorem orchestrator_terminates (answer : list (observed (event Out)) → ∀ R, event Out R → R) :
  ∃ result, (interp answer [] (run os tool env turn)).2 = Some result ∧
            length (runs (interp answer [] (run os tool env turn)).1) ≤ 2.
Proof.
  destruct (execution_facts os tool env turn _ _ (interp_execution answer [] (run os tool env turn))) as ([x Hx] & Hl & _).
  by exists x.
Qed.

(** The escalation that widens the file system and keeps the denied reads is dead code
    where there is a sandbox: it is chosen for policies with denied reads, but with denied
    reads the choice is not made. *)
Theorem restricted_escalation_unreachable t o pre a r post :
  os ≠ AndroidTarget → execution (run (Out := Out) os tool env turn) t o → t = pre ++ Called (RunTool a) r :: post →
  at_sandbox_override a ≠ EscalatedSandboxWithRestrictions.
Proof.
  intros Hos Hx Et. destruct (execution_facts os tool env turn t o Hx) as (_ & _ & Hf).
  destruct (Hf _ _ _ _ Et) as (q & initial & already & _ & _ & _ & -> & _). by apply not_escalated.
Qed.
End Claims.

(** * Samples *)

#[local] Instance no_globs_here : GlobEngine :=
  {| GlobMatcher := unit; glob_build := λ _ _ _, Ok tt; glob_is_match := λ _ _, false |}.

Definition sample_profile (denied : bool) : PermissionProfile :=
  Managed (ManagedRestricted ([entry_new (Special Root) Read; grant [lit "w"]]
                              ++ if denied then [deny [lit "w"; lit "src"]] else []) None) NetworkRestricted.

Definition sample_env (denied : bool) : TurnEnvironment :=
  mkTurnEnvironment (sample_profile denied) (uri_of [lit "w"]) [uri_of [lit "w"]] None None None false
    SandboxNone WindowsDisabled false.

Definition sample_tool (requirement : ExecApprovalRequirement) (permissions : SandboxPermissions) : Tool :=
  mkTool (Some requirement) permissions Auto true default_wants_no_sandbox_approval false None None.

Definition sample_turn : Turn := mkTurn UnlessTrusted false None false None None.

(** Approvals are granted; the tool is denied by the sandbox when it asked for one. *)
Definition sample_answer (h : list (observed (event unit))) (R : Type) (e : event unit R) : R :=
  match e with
  | PrepareApprovalAction => Ok tt
  | RequestApproval _ => Ok tt
  | ExecServerInfo => Ok (None, false)
  | BeginNetworkApproval _ _ => Ok None
  | RunTool a => if at_sandbox_requested a then Err (Codex (SandboxDenied [] None)) else Ok tt
  | FinishNetworkApproval _ => Ok tt
  end.

Definition sample_run (os : TargetOs) (requirement : ExecApprovalRequirement) (permissions : SandboxPermissions) (denied : bool)
    : list (observed (event unit)) * option (result ToolError (OrchestratorRunResult (Out := unit))) :=
  interp sample_answer [] (run os (sample_tool requirement permissions) (sample_env denied) sample_turn).

Lemma sample_execution os requirement permissions denied o :
  (sample_run os requirement permissions denied).2 = o →
  execution (run os (sample_tool requirement permissions) (sample_env denied) sample_turn)
    (sample_run os requirement permissions denied).1 o.
Proof. intros <-. apply interp_execution. Qed.

Lemma sample_denies os : denies_paths os (profile_file_system (sample_profile true)).
Proof. split; [done|]. exists (deny [lit "w"; lit "src"]). split; [by right; right; left|done]. Qed.

Lemma denied_reads_stay_sandboxed_witness :
  ∃ t a r post, execution (run LinuxTarget (sample_tool (NeedsApproval None None) RequireEscalated) (sample_env true) sample_turn) t
      (Some (Err (Codex (SandboxDenied [] None)))) ∧
    (∃ pre, t = pre ++ Called (RunTool (Out := unit) a) r :: post) ∧ at_sandbox_requested a = true.
Proof.
  pose (t := (sample_run LinuxTarget (NeedsApproval None None) RequireEscalated true).1).
  assert (execution (run LinuxTarget (sample_tool (NeedsApproval None None) RequireEscalated) (sample_env true) sample_turn) t
      (Some (Err (Codex (SandboxDenied [] None))))) as Hx.
  { apply sample_execution. by vm_compute. }
  pose (a := match runs t with (a, _) :: _ => a | [] => make_attempt (sample_tool (NeedsApproval None None) UseDefault) (sample_env true)
       sample_turn NoOverride SandboxNone false (sample_profile true) (sample_profile true) None end).
  assert (t = take 3 t ++ Called (RunTool a) (Err (Codex (SandboxDenied [] None))) :: []) as Et by (by vm_compute).
  exists t, a, (Err (Codex (SandboxDenied [] None))), []. split; [exact Hx|]. split; [by exists (take 3 t)|].
  refine (proj1 (denied_reads_stay_sandboxed LinuxTarget (sample_tool (NeedsApproval None None) RequireEscalated) (sample_env true)
    sample_turn t _ (sample_profile true) (take 3 t) a _ [] _ _ _ (sample_denies _) Hx Et)); [done|done|by vm_compute].
Defined.

Lemma unsandboxed_run_authorised_witness :
  ∃ t a pre, execution (run LinuxTarget (sample_tool (NeedsApproval None None) RequireEscalated) (sample_env false) sample_turn) t
      (Some (Ok (tt, None))) ∧
    t = pre ++ Called (RunTool (Out := unit) a) (Ok tt) :: [] ∧ at_sandbox_requested a = false ∧
    ∃ permissions, ambient (sample_tool (NeedsApproval None None) RequireEscalated) (sample_env false) permissions ∧
      (has_denied_read_restrictions (FileSystemPolicyOps := os_policy_ops LinuxTarget) (profile_file_system permissions) = false
       ∨ LinuxTarget = AndroidTarget).
Proof.
  pose (t := (sample_run LinuxTarget (NeedsApproval None None) RequireEscalated false).1).
  assert (execution (run LinuxTarget (sample_tool (NeedsApproval None None) RequireEscalated) (sample_env false) sample_turn) t
      (Some (Ok (tt, None)))) as Hx.
  { apply sample_execution. by vm_compute. }
  pose (a := match runs t with (a, _) :: _ => a | [] => make_attempt (sample_tool (NeedsApproval None None) UseDefault) (sample_env true)
       sample_turn NoOverride SandboxNone true (sample_profile true) (sample_profile true) None end).
  assert (t = take 3 t ++ Called (RunTool a) (Ok tt) :: []) as Et by (by vm_compute).
  exists t, a, (take 3 t). split; [exact Hx|]. split; [exact Et|]. split; [by vm_compute|].
  destruct (unsandboxed_run_authorised LinuxTarget (sample_tool (NeedsApproval None None) RequireEscalated) (sample_env false)
    sample_turn t _ (take 3 t) a _ [] eq_refl Hx Et) as (permissions & Hamb & _ & Hd); [by vm_compute|by vm_compute|].
  by exists permissions.
Defined.

Lemma forbidden_never_runs_witness :
  sample_run LinuxTarget (ForbiddenRequirement (lit "no")) UseDefault true = ([], Some (Err (Rejected (lit "no")))).
Proof.
  destruct (forbidden_never_runs LinuxTarget (sample_tool (ForbiddenRequirement (lit "no")) UseDefault) (sample_env true) sample_turn
    _ _ (sample_profile true) (lit "no") ltac:(by vm_compute) eq_refl
    (interp_execution sample_answer [] (run LinuxTarget (sample_tool (ForbiddenRequirement (lit "no")) UseDefault) (sample_env true) sample_turn)))
    as [H1 H2].
  unfold sample_run. destruct (interp _ _ _). cbn in H1, H2. by rewrite H1, H2.
Defined.

Lemma restricted_escalation_unreachable_witness :
  ∃ a r, runs (sample_run LinuxTarget (NeedsApproval None None) RequireEscalated true).1 = [(a, r)] ∧
         at_sandbox_override a ≠ EscalatedSandboxWithRestrictions.
Proof.
  pose (t := (sample_run LinuxTarget (NeedsApproval None None) RequireEscalated true).1).
  pose (a := match runs t with (a, _) :: _ => a | [] => make_attempt (sample_tool (NeedsApproval None None) UseDefault) (sample_env true)
       sample_turn NoOverride SandboxNone false (sample_profile true) (sample_profile true) None end).
  exists a, (Err (Codex (SandboxDenied [] None))). split; [by vm_compute|].
  refine (restricted_escalation_unreachable LinuxTarget (sample_tool (NeedsApproval None None) RequireEscalated) (sample_env true)
    sample_turn t _ (take 3 t) a (Err (Codex (SandboxDenied [] None))) [] _ (interp_execution sample_answer [] _) _); [done|by vm_compute].
Defined.

(** Where the platform has no sandbox the denied reads do not survive the retry: an
    approved command whose first attempt is denied is run again without any sandbox, though
    its policy denies reads. *)
Theorem android_retry_drops_denied_reads :
  let tool := sample_tool (NeedsApproval None None) UseDefault in
  ∃ t first second, execution (run AndroidTarget tool (sample_env true) sample_turn) t (Some (Ok (tt, None))) ∧
    runs t = [(first, Err (Codex (SandboxDenied [] None))); (second, Ok tt)] ∧
    ambient tool (sample_env true) (sample_profile true) ∧ denies_paths AndroidTarget (profile_file_system (sample_profile true)) ∧
    at_sandbox_requested first = true ∧ at_sandbox_requested second = false ∧ at_permissions second = sample_profile true.
Proof.
  pose (t := (sample_run AndroidTarget (NeedsApproval None None) UseDefault true).1).
  pose (attempt := λ i, default (make_attempt (sample_tool (NeedsApproval None None) UseDefault) (sample_env true)
       sample_turn NoOverride SandboxNone true (sample_profile true) (sample_profile true) None) (fst <$> runs t !! i)).
  exists t, (attempt 0), (attempt 1). split; [|split_and!; [by vm_compute|by vm_compute|apply sample_denies|by vm_compute..]].
  apply sample_execution. by vm_compute.
Qed.
