(* ===== verification/TurnDiff.v ===== *)
(** core/src/turn_diff_tracker.rs: the net text diff of a turn, kept from the deltas of the
    patches that were applied, without reading the files again.

    The tracker is a record; its hash maps are [gmap]s, and the order in which a hash map is
    iterated is a parameter ([key_order], [pair_order]): of the keys, only that it is a
    permutation is used, of the rename pairs, nothing. The unified diff of the similar crate
    (as a function of the two texts and their headers) and SHA-1 in hexadecimal are
    parameters; the paths are those of the interface [PathUri], with [relative_path_from]
    beside it. A revision is a [u64] that counts stored texts; it is not bounded here. *)
From stdpp Require Import pretty.
From S2P Require Import Prelude Str PatchParser FileUpdate FileSystem ApplyPatch.

Definition ZERO_OID : str := lit "0000000000000000000000000000000000000000".
Definition DEV_NULL : str := lit "/dev/null".
Definition REGULAR_FILE_MODE : str := lit "100644".

Record TrackedContent := mkTracked { tracked_text : str; revision : N }.

Definition git_path (s : str) : str := (λ c, if N.eqb c 92 then 47%N else c) <$> s.

Section Tracker.
Context {P : Type} `{!PathUri P, !Countable P}.

(** [TrackedPath]: the environment and the path. *)
Definition TrackedPath : Type := str * P.
Definition DiffCacheKey : Type := TrackedPath * option N * (TrackedPath * option N).

Context (relative_path_from : P → P → option str) (sha1_hex : str → str).
Context (unified_text : str → str → str → str → str).
Context (key_order : list TrackedPath → list TrackedPath).
Context (pair_order : list (TrackedPath * TrackedPath) → list (TrackedPath * TrackedPath)).

Record TurnDiffTracker := mkTracker {
  valid : bool;
  display_roots_by_environment : gmap str P;
  baseline_by_path : gmap TrackedPath TrackedContent;
  current_by_path : gmap TrackedPath TrackedContent;
  origin_by_current_path : gmap TrackedPath TrackedPath;
  next_revision : N;
  rendered_diffs : gmap DiffCacheKey (option str);
  unified_diff : option str
}.

Implicit Types (t : TurnDiffTracker) (p dest : TrackedPath).

Definition with_environment_display_roots (roots : gmap str P) : TurnDiffTracker :=
  mkTracker true roots ∅ ∅ ∅ 0 ∅ None.
Definition tracker_new : TurnDiffTracker := with_environment_display_roots ∅.

Definition set_maps (baseline current : gmap TrackedPath TrackedContent) (origin : gmap TrackedPath TrackedPath) (next : N) t
    : TurnDiffTracker :=
  mkTracker (valid t) (display_roots_by_environment t) baseline current origin next (rendered_diffs t) (unified_diff t).
Definition set_baseline b t := set_maps b (current_by_path t) (origin_by_current_path t) (next_revision t) t.
Definition set_current c t := set_maps (baseline_by_path t) c (origin_by_current_path t) (next_revision t) t.
Definition set_origin o t := set_maps (baseline_by_path t) (current_by_path t) o (next_revision t) t.

Definition tracked_content (text : str) t : TurnDiffTracker * TrackedContent :=
  (set_maps (baseline_by_path t) (current_by_path t) (origin_by_current_path t) (next_revision t + 1) t,
   mkTracked text (next_revision t)).

(** [map.insert(path, self.tracked_content(text))] on either map. *)
Definition store_baseline p (text : str) t : TurnDiffTracker :=
  let '(t, c) := tracked_content text t in set_baseline (<[p:=c]> (baseline_by_path t)) t.
Definition store_current p (text : str) t : TurnDiffTracker :=
  let '(t, c) := tracked_content text t in set_current (<[p:=c]> (current_by_path t)) t.

Definition contains_key {A} (m : gmap TrackedPath A) p : bool := bool_decide (is_Some (m !! p)).

Definition untracked p t : bool :=
  negb (contains_key (current_by_path t) p) && negb (contains_key (baseline_by_path t) p).

(** * Changes *)

Definition td_add p (content : str) (overwritten_content : option str) t : TurnDiffTracker :=
  let t := set_origin (delete p (origin_by_current_path t)) t in
  let t := match overwritten_content with
           | Some over => if untracked p t then store_baseline p over t else t
           | None => t
           end in
  store_current p content t.

Definition td_delete p (content : str) t : TurnDiffTracker :=
  let removed := current_by_path t !! p in
  let t := set_current (delete p (current_by_path t)) t in
  let t := if bool_decide (removed = None) && negb (contains_key (baseline_by_path t) p)
           then store_baseline p content t else t in
  set_origin (delete p (origin_by_current_path t)) t.

Definition td_update p (move_path : option TrackedPath) (old_content : str) (overwritten_move_content : option str)
    (new_content : str) t : TurnDiffTracker :=
  let t := if untracked p t then store_baseline p old_content t else t in
  match move_path with
  | Some dest =>
      let t := match overwritten_move_content with
               | Some over => if untracked dest t then store_baseline dest over t else t
               | None => t
               end in
      let origin := default p (origin_by_current_path t !! p) in
      let t := set_origin (delete p (origin_by_current_path t)) t in
      let t := set_current (delete p (current_by_path t)) t in
      let t := store_current dest new_content t in
      let t := set_origin (delete dest (origin_by_current_path t)) t in
      if decide (dest = origin) then t else set_origin (<[dest:=origin]> (origin_by_current_path t)) t
  | None => store_current p new_content t
  end.

Definition apply_change (environment_id : str) (c : AppliedPatchChange P) t : TurnDiffTracker :=
  let source := (environment_id, change_path c) in
  match change c with
  | ChangeAdd content overwritten => td_add source content overwritten t
  | ChangeDelete content => td_delete source content t
  | ChangeUpdate move_path old over new => td_update source (pair environment_id <$> move_path) old over new t
  end.

(** * The diff *)

Definition display_path t p : str :=
  let display :=
    default (inferred_native_path_string p.2)
      (root ← display_roots_by_environment t !! p.1; relative_path_from p.2 root) in
  if (1 <? size (display_roots_by_environment t)) && negb (bool_decide (p.1 = []))
  then p.1 ++ lit "/" ++ display else display.

(** Of the bytes of a text; the header is ASCII, so the hashed bytes are those of one text. *)
Definition git_blob_oid (content : str) : str := sha1_hex (lit "blob " ++ lit (pretty (blen content)) ++ [0%N] ++ content).

Definition render_diff t (left_path : TrackedPath) (left_content : option str) (right_path : TrackedPath)
    (right_content : option str) : option str :=
  if bool_decide (left_content = right_content) then None
  else
    let left_display := git_path (display_path t left_path) in
    let right_display := git_path (display_path t right_path) in
    let left_oid := match left_content with Some c => git_blob_oid c | None => ZERO_OID end in
    let right_oid := match right_content with Some c => git_blob_oid c | None => ZERO_OID end in
    let head := lit "diff --git a/" ++ left_display ++ lit " b/" ++ right_display ++ [LF] in
    mode ← match left_content, right_content with
           | None, Some _ => Some (lit "new file mode " ++ REGULAR_FILE_MODE ++ [LF])
           | Some _, None => Some (lit "deleted file mode " ++ REGULAR_FILE_MODE ++ [LF])
           | Some _, Some _ => Some []
           | None, None => None
           end;
    let old_header := if left_content is Some _ then lit "a/" ++ left_display else DEV_NULL in
    let new_header := if right_content is Some _ then lit "b/" ++ right_display else DEV_NULL in
    Some (head ++ mode ++ lit "index " ++ left_oid ++ lit ".." ++ right_oid ++ [LF]
          ++ unified_text (default [] left_content) (default [] right_content) old_header new_header).

Definition is_rename t (pair : TrackedPath * TrackedPath) : bool :=
  let '(dest, origin) := pair in
  negb (bool_decide (dest = origin)
        || contains_key (current_by_path t) origin
        || negb (contains_key (current_by_path t) dest)
        || negb (contains_key (baseline_by_path t) origin)
        || contains_key (baseline_by_path t) dest).

(** [collect]: a later pair replaces an earlier one of the same origin. *)
Definition rename_pairs t : gmap TrackedPath TrackedPath :=
  foldl (λ m '(dest, origin), if is_rename t (dest, origin) then <[origin:=dest]> m else m) ∅
    (pair_order (map_to_list (origin_by_current_path t))).

Definition diff_paths t : list TrackedPath :=
  dedup_by (λ p q, bool_decide (p = q)) (sort_by_key (display_path t)
    (key_order ((map_to_list (baseline_by_path t)).*1) ++ key_order ((map_to_list (current_by_path t)).*1))).

Definition push_diff (aggregated : str) (rendered : option str) : str :=
  match rendered with
  | Some diff =>
      let aggregated := aggregated ++ diff in
      if ends_with [LF] aggregated then aggregated else aggregated ++ [LF]
  | None => aggregated
  end.

(** The loop of [refresh_unified_diff]: handled paths, the old and the new cache, the text. *)
Definition refresh_state : Type :=
  gset TrackedPath * gmap DiffCacheKey (option str) * gmap DiffCacheKey (option str) * str.

Definition refresh_step t (pairs : gmap TrackedPath TrackedPath) (destinations : gset TrackedPath)
    (s : refresh_state) p : refresh_state :=
  let '(handled, previous, rendered_diffs, aggregated) := s in
  if decide (p ∈ handled) then s
  else
    let handled := {[p]} ∪ handled in
    if decide (p ∈ destinations) then (handled, previous, rendered_diffs, aggregated)
    else
      let '(handled, right_path) :=
        match pairs !! p with Some dest => ({[dest]} ∪ handled, dest) | None => (handled, p) end in
      let left_content := baseline_by_path t !! p in
      let right_content := current_by_path t !! right_path in
      let key : DiffCacheKey := ((p, revision <$> left_content), (right_path, revision <$> right_content)) in
      let rendered :=
        match previous !! key with
        | Some rendered => rendered
        | None => render_diff t p (tracked_text <$> left_content) right_path (tracked_text <$> right_content)
        end in
      (handled, delete key previous, <[key:=rendered]> rendered_diffs, push_diff aggregated rendered).

Definition refresh_unified_diff t : TurnDiffTracker :=
  let pairs := rename_pairs t in
  let destinations := list_to_set ((map_to_list pairs).*2) in
  let '(_, _, rendered, aggregated) :=
    foldl (refresh_step t pairs destinations) (∅, rendered_diffs t, ∅, []) (diff_paths t) in
  mkTracker (valid t) (display_roots_by_environment t) (baseline_by_path t) (current_by_path t)
    (origin_by_current_path t) (next_revision t) rendered
    (if bool_decide (aggregated = []) then None else Some aggregated).

(** * Operations *)

Definition invalidate t : TurnDiffTracker :=
  mkTracker false (display_roots_by_environment t) (baseline_by_path t) (current_by_path t)
    (origin_by_current_path t) (next_revision t) ∅ None.

Definition track_delta (environment_id : str) (d : AppliedPatchDelta P) t : TurnDiffTracker :=
  if negb (valid t) then t
  else if negb (exact_ d) then invalidate t
  else refresh_unified_diff (foldl (λ t c, apply_change environment_id c t) t (changes d)).

Definition get_unified_diff t : option str := unified_diff t.
Definition has_unified_diff t : bool := bool_decide (is_Some (unified_diff t)).
End Tracker.

(** * The texts before and after *)

Section Texts.
Context {P : Type} `{!PathUri P, !Countable P}.
Notation path := (@TrackedPath P).
Notation tracker := (@TurnDiffTracker P _ _).
Implicit Types (t : tracker) (p k dest : path) (v w : texts path).

Definition text_at (m : gmap path TrackedContent) k : option str := tracked_text <$> m !! k.

(** For each path, the tracker has its text at the start of the turn and its text now, or
    nothing was changed there. *)
Definition tracks_at v0 v t k : Prop :=
  text_at (baseline_by_path t) k = v0 k ∧ text_at (current_by_path t) k = v k ∨
  baseline_by_path t !! k = None ∧ current_by_path t !! k = None ∧ v k = v0 k.
Definition tracks v0 v t : Prop := ∀ k, tracks_at v0 v t k.

(** ... except at some paths, whose text at the start is known. *)
Definition tracks_except (X : list path) v0 v t : Prop :=
  ∀ k, (k ∈ X → text_at (baseline_by_path t) k = v0 k) ∧ (k ∉ X → tracks_at v0 v t k).

Lemma text_at_none m k : m !! k = None → text_at m k = None.
Proof. unfold text_at. by intros ->. Qed.
Lemma text_at_none_inv m k : text_at m k = None → m !! k = None.
Proof. unfold text_at. by destruct (m !! k). Qed.
Lemma text_at_insert m k c : text_at (<[k:=c]> m) k = Some (tracked_text c).
Proof. unfold text_at. by rewrite lookup_insert_eq. Qed.
Lemma text_at_insert_ne m k k' c : k ≠ k' → text_at (<[k':=c]> m) k = text_at m k.
Proof. intros. unfold text_at. by rewrite lookup_insert_ne. Qed.
Lemma text_at_delete m k : text_at (delete k m) k = None.
Proof. unfold text_at. by rewrite lookup_delete_eq. Qed.
Lemma text_at_delete_ne m k k' : k ≠ k' → text_at (delete k' m) k = text_at m k.
Proof. intros. unfold text_at. by rewrite lookup_delete_ne. Qed.

Lemma untracked_spec p t : untracked p t = true ↔ current_by_path t !! p = None ∧ baseline_by_path t !! p = None.
Proof.
  unfold untracked, contains_key. rewrite andb_true_iff, !negb_true_iff, !bool_decide_eq_false, !eq_None_not_Some. done.
Qed.

(** Recording the text a path has before its first change. *)
Definition note p (o : option str) t : tracker :=
  match o with
  | Some text => if untracked p t then store_baseline p text t else t
  | None => t
  end.

Lemma note_current p o t : current_by_path (note p o t) = current_by_path t.
Proof. destruct o as [text|]; [|done]. cbn. by destruct (untracked p t). Qed.

Lemma note_untracked p o q t : q ≠ p → untracked q (note p o t) = untracked q t.
Proof.
  intros Hne. unfold untracked, contains_key. rewrite note_current. destruct o as [text|]; [|done]. cbn [note].
  destruct (untracked p t); [|done]. unfold store_baseline. cbn. by rewrite lookup_insert_ne.
Qed.

Lemma note_tracks X v0 v p t : tracks_except X v0 v t → p ∉ X → tracks_except (p :: X) v0 v (note p (v p) t).
Proof.
  intros Ht Hp k. rewrite elem_of_cons. destruct (Ht p) as [_ Hat]. specialize (Hat Hp).
  assert (∀ m c, (k ∈ X → text_at m k = v0 k) → k = p ∨ k ∈ X → tracked_text c = default [] (v0 p) → is_Some (v0 p) →
          text_at (<[p:=c]> m) k = v0 k) as Hins.
  { intros m c HX Hk Hc [x Hx]. destruct (decide (k = p)) as [->|Hne].
    - rewrite text_at_insert, Hc, Hx. done.
    - rewrite text_at_insert_ne by done. destruct Hk; [done|by apply HX]. }
  destruct (Ht k) as [HX Hk]. destruct (v p) as [text|] eqn:Ev; cbn [note].
  - destruct (untracked p t) eqn:Eu.
    + apply untracked_spec in Eu as [Ec Eb]. assert (v0 p = Some text) as Ep.
      { destruct Hat as [[_ Hc]|(_ & _ & <-)]; [|done]. by rewrite text_at_none, Ev in Hc. }
      unfold store_baseline, tracks_at. cbn. split.
      * intros Hkp. apply Hins; [done|done|by rewrite Ep|by rewrite Ep].
      * intros Hno. assert (k ≠ p ∧ k ∉ X) as [Hne Hnx] by tauto. destruct (Hk Hnx) as [[? ?]|(? & ? & ?)]; [left|right].
        -- by rewrite text_at_insert_ne.
        -- by rewrite lookup_insert_ne.
    + split; [|intros Hno; apply Hk; tauto]. intros [->|?]; [|by apply HX].
      destruct Hat as [[? _]|(Hb & Hc & _)]; [done|]. assert (untracked p t = true) by (by apply untracked_spec). congruence.
  - split; [|intros Hno; apply Hk; tauto]. intros [->|?]; [|by apply HX].
    destruct Hat as [[? _]|(Hb & _ & Hv)]; [done|]. rewrite text_at_none by done. congruence.
Qed.

(** When the paths left out have got their text, everything is tracked. *)
Lemma finish_tracks X v0 v w t t' :
  tracks_except X v0 v t → baseline_by_path t' = baseline_by_path t →
  (∀ k, k ∈ X → text_at (current_by_path t') k = w k) →
  (∀ k, k ∉ X → current_by_path t' !! k = current_by_path t !! k ∧ w k = v k) → tracks v0 w t'.
Proof.
  intros Ht Hb HX Hn k. destruct (Ht k) as [HtX Htn]. unfold tracks_at, text_at in *. rewrite Hb.
  destruct (decide (k ∈ X)) as [Hk|Hk]; [left; split; [by apply HtX|by apply HX]|].
  destruct (Hn k Hk) as [-> ->]. by apply Htn.
Qed.

Lemma tracks_except_nil v0 v t : tracks v0 v t → tracks_except [] v0 v t.
Proof. intros Ht k. split; [by intros ?%not_elem_of_nil|]. intros _. apply Ht. Qed.

(** ** One change *)

(** A change of one environment as a change of tracked paths. *)
Definition lift_change (e : str) (c : AppliedPatchChange P) : AppliedPatchChange path :=
  mkChange (e, change_path c)
    match change c with
    | ChangeAdd content over => ChangeAdd content over
    | ChangeDelete content => ChangeDelete content
    | ChangeUpdate move_path old over new => ChangeUpdate (pair e <$> move_path) old over new
    end.

(** The texts of all environments after those of one became [w]. *)
Definition set_env (e : str) (w : texts P) (v : texts path) : texts path :=
  λ k, if decide (k.1 = e) then w k.2 else v k.

Definition moves_elsewhere {Q} (c : AppliedPatchChange Q) : Prop :=
  match change c with ChangeUpdate (Some dest) _ _ _ => dest ≠ change_path c | _ => True end.

Definition td_change (c : AppliedPatchChange path) t : tracker :=
  match change c with
  | ChangeAdd content over => td_add (change_path c) content over t
  | ChangeDelete content => td_delete (change_path c) content t
  | ChangeUpdate move_path old over new => td_update (change_path c) move_path old over new t
  end.

Lemma apply_change_lift e c t : apply_change e c t = td_change (lift_change e c) t.
Proof. unfold apply_change, td_change. cbn. by destruct (change c). Qed.

Lemma set_text_ne {Q} `{EqDecision Q} (q q' : Q) o (u : texts Q) : q' ≠ q → set_text q o u q' = u q'.
Proof. intros. unfold set_text. by rewrite decide_False. Qed.

Lemma set_text_env e q o (u : texts P) v k : (∀ q', u q' = v (e, q')) →
  set_env e (set_text q o u) v k = set_text (e, q) o v k.
Proof.
  intros Hu. unfold set_env, set_text. destruct k as [e' q']. cbn. repeat case_decide; simplify_eq; try done.
Qed.

Lemma td_add_tracks v0 v w p content t :
  tracks v0 v t → (∀ k, w k = set_text p (Some content) v k) → tracks v0 w (td_add p content (v p) t).
Proof.
  intros Ht Hw. set (t1 := set_origin (delete p (origin_by_current_path t)) t).
  change (td_add p content (v p) t) with (store_current p content (note p (v p) t1)).
  assert (tracks_except [p] v0 v (note p (v p) t1)) as Hn by (apply note_tracks; [by apply tracks_except_nil|by apply not_elem_of_nil]).
  eapply finish_tracks; [exact Hn|done|..]; intros k; rewrite list_elem_of_singleton; unfold store_current; cbn.
  - intros ->. by rewrite text_at_insert, Hw, set_text_same.
  - intros Hne. rewrite lookup_insert_ne by done. by rewrite Hw, set_text_ne.
Qed.

Lemma td_delete_note p content t :
  td_delete p content t =
  set_origin (delete p (origin_by_current_path t)) (set_current (delete p (current_by_path t)) (note p (Some content) t)).
Proof.
  unfold td_delete. cbn [note]. unfold untracked, contains_key. cbn.
  destruct (current_by_path t !! p) eqn:E.
  - rewrite (bool_decide_false (Some _ = None)), (bool_decide_true (is_Some (Some _))) by (done || by eexists). by cbn.
  - rewrite (bool_decide_true (None = None)), (bool_decide_false (is_Some None)) by (done || by intros []). cbn [negb andb].
    by destruct (negb _).
Qed.

Lemma td_delete_tracks v0 v w p content t :
  tracks v0 v t → v p = Some content → (∀ k, w k = set_text p None v k) → tracks v0 w (td_delete p content t).
Proof.
  intros Ht Hv Hw. rewrite td_delete_note, <- Hv.
  assert (tracks_except [p] v0 v (note p (v p) t)) as Hn by (apply note_tracks; [by apply tracks_except_nil|by apply not_elem_of_nil]).
  eapply finish_tracks; [exact Hn|done|..]; intros k; rewrite list_elem_of_singleton; cbn.
  - intros ->. by rewrite text_at_delete, Hw, set_text_same.
  - intros Hne. rewrite lookup_delete_ne, note_current by done. by rewrite Hw, set_text_ne.
Qed.

Lemma td_update_tracks v0 v w p old over new t :
  tracks v0 v t → v p = Some old → (∀ k, w k = set_text p (Some new) v k) → tracks v0 w (td_update p None old over new t).
Proof.
  intros Ht Hv Hw. change (tracks v0 w (store_current p new (note p (Some old) t))). rewrite <- Hv.
  assert (tracks_except [p] v0 v (note p (v p) t)) as Hn by (apply note_tracks; [by apply tracks_except_nil|by apply not_elem_of_nil]).
  eapply finish_tracks; [exact Hn|done|..]; intros k; rewrite list_elem_of_singleton; unfold store_current; cbn.
  - intros ->. by rewrite text_at_insert, Hw, set_text_same.
  - intros Hne. rewrite lookup_insert_ne by done. by rewrite Hw, set_text_ne.
Qed.

Lemma td_move_tracks v0 v w p dest old new t :
  tracks v0 v t → v p = Some old → dest ≠ p → (∀ k, w k = set_text p None (set_text dest (Some new) v) k) →
  tracks v0 w (td_update p (Some dest) old (v dest) new t).
Proof.
  intros Ht Hv Hne Hw. set (t1 := note p (v p) t). set (t2 := note dest (v dest) t1).
  assert (tracks_except [dest; p] v0 v t2) as Hn.
  { apply note_tracks; [apply note_tracks; [by apply tracks_except_nil|by apply not_elem_of_nil]|]. by rewrite list_elem_of_singleton. }
  assert (∃ o, td_update p (Some dest) old (v dest) new t =
               set_origin o (store_current dest new (set_current (delete p (current_by_path t2))
                 (set_origin (delete p (origin_by_current_path t2)) t2)))) as [o ->].
  { unfold td_update, t2, t1. rewrite Hv. cbn [note]. cbv zeta. destruct (v dest); cbn [note];
      (destruct (decide (_ = _)); eexists; reflexivity). }
  eapply finish_tracks; [exact Hn|done|..]; intros k; rewrite elem_of_cons, list_elem_of_singleton; unfold store_current; cbn.
  - rewrite Hw. intros [->| ->].
    + rewrite text_at_insert, set_text_ne, set_text_same by done. done.
    + rewrite text_at_insert_ne, text_at_delete, set_text_same by done. done.
  - intros Hk. assert (k ≠ dest ∧ k ≠ p) as [? ?] by tauto. rewrite lookup_insert_ne, lookup_delete_ne by done.
    by rewrite Hw, !set_text_ne.
Qed.

Lemma tracks_ext v0 v w t : tracks v0 v t → (∀ k, w k = v k) → tracks v0 w t.
Proof. intros Ht Hw k. unfold tracks_at. rewrite Hw. apply Ht. Qed.

Lemma tracks_maps v0 v t t' :
  baseline_by_path t' = baseline_by_path t → current_by_path t' = current_by_path t → tracks v0 v t → tracks v0 v t'.
Proof. intros Hb Hc Ht k. unfold tracks_at. rewrite Hb, Hc. apply Ht. Qed.

Lemma set_env_ext e (u u' : texts P) v k : (∀ q, u q = u' q) → set_env e u v k = set_env e u' v k.
Proof. intros Hu. unfold set_env. case_decide; [apply Hu|done]. Qed.

Lemma change_tracks v0 v e c (u w : texts P) t :
  tracks v0 v t → (∀ q, u q = v (e, q)) → records c u w → moves_elsewhere c →
  tracks v0 (set_env e w v) (apply_change e c t).
Proof.
  intros Ht Hu [H1 H2] Hm. rewrite apply_change_lift. destruct c as [p ch].
  unfold td_change, lift_change, replay_change, undo_change, moves_elsewhere in *. cbn [change change_path] in *.
  pose proof (H2 p) as Hp.
  destruct ch as [content over|content|[dest|] old over new]; cbn [fmap option_fmap option_map change] in *.
  - rewrite set_text_same in Hp. rewrite Hp, Hu. apply td_add_tracks; [done|]. intros k.
    rewrite (set_env_ext e _ _ v k H1). by apply set_text_env.
  - rewrite set_text_same in Hp. apply (td_delete_tracks v0 v); [done|by rewrite <- Hu|]. intros k.
    rewrite (set_env_ext e _ _ v k H1). by apply set_text_env.
  - rewrite set_text_same in Hp. pose proof (H2 dest) as Hd. rewrite set_text_ne, set_text_same in Hd by done.
    rewrite Hd, Hu. apply td_move_tracks; [done|by rewrite <- Hu|congruence|]. intros k.
    rewrite (set_env_ext e _ _ v k H1). unfold set_env, set_text. destruct k as [e' q']. cbn.
    repeat case_decide; simplify_eq; done.
  - rewrite set_text_same in Hp. apply (td_update_tracks v0 v); [done|by rewrite <- Hu|]. intros k.
    rewrite (set_env_ext e _ _ v k H1). by apply set_text_env.
Qed.

Lemma changes_track v0 v e cs (u w : texts P) t :
  tracks v0 v t → (∀ q, u q = v (e, q)) → recorded u cs w → Forall moves_elsewhere cs →
  tracks v0 (set_env e w v) (foldl (λ t c, apply_change e c t) t cs).
Proof.
  intros Ht Hu Hr. induction Hr as [w Hw|cs c w w' Hr IH Hc]; intros Hm.
  - eapply tracks_ext; [done|]. intros [e' q]. unfold set_env. cbn. case_decide; [subst|done]. by rewrite Hw, Hu.
  - apply Forall_app in Hm as [Hm Hc']. rewrite Forall_singleton in Hc'. rewrite foldl_app. cbn [foldl].
    eapply tracks_ext; [eapply (change_tracks v0 (set_env e w v) e c w w'); [by apply IH| |done|done]|].
    + intros q. unfold set_env. by rewrite decide_True.
    + intros k. unfold set_env. by case_decide.
Qed.
End Texts.

(** * The pairs of the diff *)

Section Pairs.
Context {P : Type} `{!PathUri P, !Countable P}.
Notation path := (@TrackedPath P).
Notation tracker := (@TurnDiffTracker P _ _).
Context (relative_path_from : P → P → option str) (sha1_hex : str → str).
Context (unified_text : str → str → str → str → str).
Context (key_order : list path → list path) (pair_order : list (path * path) → list (path * path)).
Hypothesis key_order_perm : ∀ l, key_order l ≡ₚ l.
Implicit Types (t : tracker) (p k dest : path) (v w : texts path) (pairs : gmap path path) (destinations : gset path).

(** The pairs of paths that are compared, without the cache and the text. *)
Definition pair_step pairs destinations (s : gset path * list (path * path)) p : gset path * list (path * path) :=
  let '(handled, acc) := s in
  if decide (p ∈ handled) then s
  else if decide (p ∈ destinations) then ({[p]} ∪ handled, acc)
  else match pairs !! p with
       | Some dest => ({[dest]} ∪ ({[p]} ∪ handled), acc ++ [(p, dest)])
       | None => ({[p]} ∪ handled, acc ++ [(p, p)])
       end.

Definition destinations_of pairs : gset path := list_to_set ((map_to_list pairs).*2).

Definition net_pairs t : list (path * path) :=
  (foldl (pair_step (rename_pairs pair_order t) (destinations_of (rename_pairs pair_order t))) (∅, [])
     (diff_paths relative_path_from key_order t)).2.

Lemma elem_of_destinations pairs dest : dest ∈ destinations_of pairs ↔ ∃ p, pairs !! p = Some dest.
Proof.
  unfold destinations_of. rewrite elem_of_list_to_set, list_elem_of_fmap. split.
  - intros ([p d] & -> & Hin). exists p. by apply elem_of_map_to_list.
  - intros [p Hp]. exists (p, dest). split; [done|]. by apply elem_of_map_to_list.
Qed.

Lemma rename_pairs_spec t p dest : rename_pairs pair_order t !! p = Some dest → is_rename t (dest, p) = true.
Proof.
  unfold rename_pairs. generalize (pair_order (map_to_list (origin_by_current_path t))). intros l.
  assert (∀ m : gmap path path, (∀ o d, m !! o = Some d → is_rename t (d, o) = true) →
    foldl (λ m '(dest, origin), if is_rename t (dest, origin) then <[origin:=dest]> m else m) m l !! p = Some dest →
    is_rename t (dest, p) = true) as Hgen; [|by apply Hgen].
  induction l as [|[d o] l IH]; intros m Hm; cbn [foldl]; [apply Hm|]. apply IH. destruct (is_rename t (d, o)) eqn:E; [|done].
  intros o' d'. rewrite lookup_insert_Some. intros [[<- <-]|[_ ?]]; [done|by apply Hm].
Qed.

Lemma is_rename_spec t p dest :
  is_rename t (dest, p) = true →
  dest ≠ p ∧ current_by_path t !! p = None ∧ is_Some (current_by_path t !! dest) ∧
  is_Some (baseline_by_path t !! p) ∧ baseline_by_path t !! dest = None.
Proof.
  unfold is_rename, contains_key. rewrite negb_true_iff, !orb_false_iff, !negb_false_iff, !bool_decide_eq_false, !bool_decide_eq_true.
  rewrite !eq_None_not_Some. tauto.
Qed.

Lemma elem_of_diff_paths t p :
  p ∈ diff_paths relative_path_from key_order t ↔ is_Some (baseline_by_path t !! p) ∨ is_Some (current_by_path t !! p).
Proof.
  unfold diff_paths. rewrite elem_of_dedup_by, elem_of_sort_by_key, elem_of_app, !key_order_perm.
  assert (∀ m : gmap path TrackedContent, p ∈ (map_to_list m).*1 ↔ is_Some (m !! p)) as Hk; [|by rewrite !Hk].
  intros m. rewrite list_elem_of_fmap. split.
  - intros ([q c] & -> & Hin%elem_of_map_to_list). by exists c.
  - intros [c Hc]. exists (p, c). split; [done|]. by apply elem_of_map_to_list.
Qed.

(** Every path of the loop that is not a destination starts a pair, and pairs are nothing else. *)
Lemma pair_loop pairs ps :
  let acc := (foldl (pair_step pairs (destinations_of pairs)) (∅, []) ps).2 in
  (∀ p, p ∈ ps → p ∉ destinations_of pairs → (p, default p (pairs !! p)) ∈ acc) ∧
  (∀ p q, (p, q) ∈ acc → p ∈ ps ∧ q = default p (pairs !! p)).
Proof.
  assert (∀ handled acc,
    (∀ k, k ∈ handled → k ∈ destinations_of pairs ∨ (k, default k (pairs !! k)) ∈ acc) →
    (∀ p q, (p, q) ∈ acc → q = default p (pairs !! p)) →
    let acc' := (foldl (pair_step pairs (destinations_of pairs)) (handled, acc) ps).2 in
    (∀ pq, pq ∈ acc → pq ∈ acc') ∧
    (∀ p, p ∈ ps → p ∉ destinations_of pairs → (p, default p (pairs !! p)) ∈ acc') ∧
    (∀ p q, (p, q) ∈ acc' → ((p, q) ∈ acc ∨ p ∈ ps) ∧ q = default p (pairs !! p))) as Hgen.
  { induction ps as [|x ps IH]; intros handled acc Hh Hacc; cbn [foldl].
    { cbn. split_and!; [done|by intros ? ?%not_elem_of_nil|]. intros p q Hpq. split; [by left|by apply Hacc]. }
    cbn zeta. unfold pair_step at 2 4 6. destruct (decide (x ∈ handled)) as [Hx|Hx].
    { destruct (IH handled acc Hh Hacc) as (I1 & I2 & I3). split_and!; [done| |].
      - intros p [->|Hp]%elem_of_cons Hd; [|by apply I2]. apply I1. by destruct (Hh _ Hx).
      - intros p q Hpq. destruct (I3 _ _ Hpq) as [[?|?] ?]; (split; [|done]); [by left|right; by right]. }
    destruct (decide (x ∈ destinations_of pairs)) as [Hxd|Hxd].
    { destruct (IH ({[x]} ∪ handled) acc) as (I1 & I2 & I3); [|done|].
      - intros k [->%elem_of_singleton|?]%elem_of_union; [by left|by apply Hh].
      - split_and!; [done| |].
        + intros p [->|Hp]%elem_of_cons Hd; [done|by apply I2].
        + intros p q Hpq. destruct (I3 _ _ Hpq) as [[?|?] ?]; (split; [|done]); [by left|right; by right]. }
    assert (∀ handled',
      (∀ k, k ∈ handled' → k ∈ destinations_of pairs ∨ k = x ∨ k ∈ handled) →
      let acc' := (foldl (pair_step pairs (destinations_of pairs)) (handled', acc ++ [(x, default x (pairs !! x))]) ps).2 in
      (∀ pq, pq ∈ acc → pq ∈ acc') ∧
      (∀ p, p ∈ x :: ps → p ∉ destinations_of pairs → (p, default p (pairs !! p)) ∈ acc') ∧
      (∀ p q, (p, q) ∈ acc' → ((p, q) ∈ acc ∨ p ∈ x :: ps) ∧ q = default p (pairs !! p))) as Hstep.
    { intros handled' Hh'. destruct (IH handled' (acc ++ [(x, default x (pairs !! x))])) as (I1 & I2 & I3).
      - intros k Hk. destruct (Hh' k Hk) as [?|[->|Hk']]; [by left|right; apply elem_of_app; right; by left|].
        destruct (Hh k Hk'); [by left|right; apply elem_of_app; by left].
      - intros p q [Hpq|[= -> ->]%list_elem_of_singleton]%elem_of_app; [by apply Hacc|done].
      - split_and!; [intros pq Hpq; apply I1, elem_of_app; by left| |].
        + intros p [->|Hp]%elem_of_cons Hd; [|by apply I2]. apply I1, elem_of_app. right. by left.
        + intros p q Hpq. destruct (I3 _ _ Hpq) as [[[?|[= -> ->]%list_elem_of_singleton]%elem_of_app|?] ?]; (split; [|done]);
          [by left|right; by left|right; by right]. }
    destruct (pairs !! x) as [dest|] eqn:Ex; cbn [default from_option] in Hstep; unfold id in Hstep; apply Hstep.
    - intros k. rewrite !elem_of_union, !elem_of_singleton. intros [->|[->|?]]; [left|by auto|by auto].
      apply elem_of_destinations. by exists x.
    - intros k. rewrite !elem_of_union, !elem_of_singleton. intros [->|?]; auto. }
  destruct (Hgen ∅ []) as (_ & H2 & H3); [set_solver|by intros ? ? ?%not_elem_of_nil|]. split; [done|].
  intros p q Hpq. destruct (H3 _ _ Hpq) as [[?%not_elem_of_nil|?] ?]; done.
Qed.

(** ** The pairs carry the changes *)

(** A pair read as a change of texts: the left path loses its text, the right one gets its own. *)
Definition apply_pair t (u : texts path) (pq : path * path) : texts path :=
  set_text pq.2 (text_at (current_by_path t) pq.2) (set_text pq.1 None u).

Lemma tracked_key v0 v t k :
  tracks v0 v t → is_Some (baseline_by_path t !! k) ∨ is_Some (current_by_path t !! k) →
  text_at (baseline_by_path t) k = v0 k ∧ text_at (current_by_path t) k = v k.
Proof. intros Ht Hk. destruct (Ht k) as [?|(Hb & Hc & _)]; [done|]. rewrite Hb, Hc in Hk. by destruct Hk as [[]|[]]. Qed.

Lemma net_pair_sides v0 v t p q :
  tracks v0 v t → (p, q) ∈ net_pairs t →
  text_at (baseline_by_path t) p = v0 p ∧ text_at (current_by_path t) q = v q ∧ (p ≠ q → v p = None ∧ v0 q = None).
Proof.
  intros Ht Hpq. destruct (pair_loop (rename_pairs pair_order t) (diff_paths relative_path_from key_order t)) as [_ Hp].
  destruct (Hp p q Hpq) as [Hin ->]. apply elem_of_diff_paths in Hin. destruct (tracked_key v0 v t p Ht Hin) as [Hb Hc].
  destruct (rename_pairs pair_order t !! p) as [dest|] eqn:E; cbn [default from_option]; unfold id; [|by split_and!].
  apply rename_pairs_spec, is_rename_spec in E as (Hne & Hcp & Hcd & Hbp & Hbd).
  destruct (tracked_key v0 v t dest Ht (or_intror Hcd)) as [Hb' Hc']. split_and!; [done..|]. intros _. split.
  - rewrite <- Hc. by apply text_at_none.
  - rewrite <- Hb'. by apply text_at_none.
Qed.

Lemma net_pairs_cover v0 v t k : tracks v0 v t → v k ≠ v0 k → ∃ p q, (p, q) ∈ net_pairs t ∧ (k = p ∨ k = q).
Proof.
  intros Ht Hne. destruct (pair_loop (rename_pairs pair_order t) (diff_paths relative_path_from key_order t)) as [Hcov _].
  assert (k ∈ diff_paths relative_path_from key_order t) as Hk.
  { apply elem_of_diff_paths. destruct (Ht k) as [[Hb Hc]|(_ & _ & ?)]; [|done]. unfold text_at in *.
    destruct (baseline_by_path t !! k); [by left|]. destruct (current_by_path t !! k); [by right|]. cbn in *. congruence. }
  destruct (decide (k ∈ destinations_of (rename_pairs pair_order t))) as [Hd|Hd].
  - apply elem_of_destinations in Hd as [o Ho]. pose proof (is_rename_spec _ _ _ (rename_pairs_spec _ _ _ Ho)) as (_ & _ & _ & Hbo & _).
    exists o, k. split; [|by right]. replace k with (default o (rename_pairs pair_order t !! o)) at 1 by (by rewrite Ho).
    apply Hcov; [apply elem_of_diff_paths; by left|]. intros [o' Ho']%elem_of_destinations.
    destruct (is_rename_spec _ _ _ (rename_pairs_spec _ _ _ Ho')) as (_ & _ & _ & _ & Hno). rewrite Hno in Hbo. by destruct Hbo.
  - eexists k, _. split; [by apply Hcov|by left].
Qed.

Lemma net_pairs_exact v0 v t k : tracks v0 v t → foldl (apply_pair t) v0 (net_pairs t) k = v k.
Proof.
  intros Ht. pose proof (net_pair_sides v0 v t) as Hs. pose proof (net_pairs_cover v0 v t k Ht) as Hc.
  assert (∀ l u, (∀ p q, (p, q) ∈ l → (p, q) ∈ net_pairs t) → u k = v k ∨ (∃ p q, (p, q) ∈ l ∧ (k = p ∨ k = q)) →
          foldl (apply_pair t) u l k = v k) as Hgen.
  { induction l as [|[p q] l IH]; intros u Hl Hu; cbn [foldl].
    { destruct Hu as [?|(? & ? & ?%not_elem_of_nil & _)]; done. }
    apply IH; [intros; apply Hl; by right|].
    destruct (Hs p q Ht (Hl p q (list_elem_of_here _ _))) as (_ & Hq & Hpq).
    unfold apply_pair. cbn [fst snd]. destruct (decide (k = q)) as [->|Hkq]; [left; by rewrite set_text_same|].
    rewrite set_text_ne by done. destruct (decide (k = p)) as [->|Hkp].
    - left. rewrite set_text_same. symmetry. by apply Hpq.
    - rewrite set_text_ne by done. destruct Hu as [?|(p' & q' & [[= -> ->]|Hin]%elem_of_cons & Hor)]; [by left| |right; eauto].
      destruct Hor; done. }
  apply Hgen; [done|]. destruct (decide (v k = v0 k)); [by left|right]. by apply Hc.
Qed.
End Pairs.

(** * The cache *)

Section Cache.
Context {P : Type} `{!PathUri P, !Countable P}.
Notation path := (@TrackedPath P).
Notation tracker := (@TurnDiffTracker P _ _).
Context (relative_path_from : P → P → option str) (sha1_hex : str → str).
Context (unified_text : str → str → str → str → str).
Context (key_order : list path → list path) (pair_order : list (path * path) → list (path * path)).
Implicit Types (t : tracker) (p k dest : path).

Notation render := (render_diff relative_path_from sha1_hex unified_text).
Notation refresh := (refresh_unified_diff relative_path_from sha1_hex unified_text key_order pair_order).
Notation track := (track_delta relative_path_from sha1_hex unified_text key_order pair_order).

(** The rendering of a pair from the texts the tracker holds, and the text of all pairs. *)
Definition render_pair t (pq : path * path) : option str :=
  render t pq.1 (text_at (baseline_by_path t) pq.1) pq.2 (text_at (current_by_path t) pq.2).

Definition net_text t (l : list (path * path)) : str := foldl (λ a pq, push_diff a (render_pair t pq)) [] l.

Definition net_diff t : option str :=
  let text := net_text t (net_pairs relative_path_from key_order pair_order t) in
  if bool_decide (text = []) then None else Some text.

(** A revision names one text; cached diffs are those of the texts their revisions name. *)
Definition held t (hist : N → option str) : Prop :=
  ∀ k c, baseline_by_path t !! k = Some c ∨ current_by_path t !! k = Some c →
    (revision c < next_revision t)%N ∧ hist (revision c) = Some (tracked_text c).
Definition cached t (hist : N → option str) (m : gmap (@DiffCacheKey P) (option str)) : Prop :=
  ∀ (l r : path) (lr rr : option N) x, m !! ((l, lr), (r, rr)) = Some x →
    (∀ n, lr = Some n ∨ rr = Some n → (n < next_revision t)%N) ∧ x = render t l (lr ≫= hist) r (rr ≫= hist).
Definition cache_ok t : Prop := ∃ hist, held t hist ∧ cached t hist (rendered_diffs t).

Lemma held_text t (hist : N → option str) (m : gmap path TrackedContent) k :
  held t hist → m = baseline_by_path t ∨ m = current_by_path t → (revision <$> m !! k) ≫= hist = text_at m k.
Proof.
  intros Hh Hm. unfold text_at. destruct (m !! k) as [c|] eqn:E; [|done]. cbn.
  apply (Hh k c). destruct Hm; subst; [by left|by right].
Qed.

(** Storing a text keeps what the revisions name. *)
Lemma cache_ok_maps t t' :
  cache_ok t → display_roots_by_environment t' = display_roots_by_environment t → rendered_diffs t' = rendered_diffs t →
  next_revision t' = next_revision t →
  (∀ k c, baseline_by_path t' !! k = Some c ∨ current_by_path t' !! k = Some c →
     ∃ k', baseline_by_path t !! k' = Some c ∨ current_by_path t !! k' = Some c) → cache_ok t'.
Proof.
  intros (hist & Hh & Hc) Hd Hr Hn Hm. exists hist. split.
  - intros k c Hk. destruct (Hm k c Hk) as [k' Hk']. rewrite Hn. by apply (Hh k').
  - rewrite Hr. intros l r lr rr x Hx. rewrite Hn. destruct (Hc _ _ _ _ _ Hx) as [Hlt ->]. split; [done|].
    unfold render_diff, display_path. by rewrite Hd.
Qed.

Lemma cache_ok_store t t' text :
  cache_ok t → display_roots_by_environment t' = display_roots_by_environment t → rendered_diffs t' = rendered_diffs t →
  next_revision t' = (next_revision t + 1)%N →
  (∀ k c, baseline_by_path t' !! k = Some c ∨ current_by_path t' !! k = Some c →
     c = mkTracked text (next_revision t) ∨ ∃ k', baseline_by_path t !! k' = Some c ∨ current_by_path t !! k' = Some c) →
  cache_ok t'.
Proof.
  intros (hist & Hh & Hc) Hd Hr Hn Hm. exists (λ n, if N.eqb n (next_revision t) then Some text else hist n). split.
  - intros k c Hk. rewrite Hn. destruct (Hm k c Hk) as [->|[k' Hk']]; cbn; [rewrite N.eqb_refl; split; [lia|done]|].
    destruct (Hh k' c Hk') as [Hlt He]. rewrite (proj2 (N.eqb_neq _ _)) by lia. split; [lia|done].
  - rewrite Hr. intros l r lr rr x Hx. rewrite Hn. destruct (Hc _ _ _ _ _ Hx) as [Hlt ->]. split; [intros n Hn'; specialize (Hlt n Hn'); lia|].
    assert (∀ o : option N, (∀ n, o = Some n → (n < next_revision t)%N) →
      o ≫= (λ n, if N.eqb n (next_revision t) then Some text else hist n) = o ≫= hist) as Ho.
    { intros [n|] Hlt'; [|done]. cbn. rewrite (proj2 (N.eqb_neq _ _)); [done|]. specialize (Hlt' n eq_refl). lia. }
    rewrite !Ho by (intros; apply Hlt; auto). unfold render_diff, display_path. by rewrite Hd.
Qed.

(** Steps of the operations: each stores one text, or none. *)
Lemma cache_ok_baseline t p text : cache_ok t → cache_ok (store_baseline p text t).
Proof.
  intros Hc. eapply (cache_ok_store t _ text); [done|done|done|done|]. intros k c. unfold store_baseline. cbn.
  rewrite lookup_insert_Some. intros [[[_ <-]|[_ ?]]|?]; [by left|right; eauto|right; eauto].
Qed.

Lemma cache_ok_current t p text : cache_ok t → cache_ok (store_current p text t).
Proof.
  intros Hc. eapply (cache_ok_store t _ text); [done|done|done|done|]. intros k c. unfold store_current. cbn.
  rewrite lookup_insert_Some. intros [?|[[_ <-]|[_ ?]]]; [right; eauto|by left|right; eauto].
Qed.

Lemma cache_ok_origin t o : cache_ok t → cache_ok (set_origin o t).
Proof. intros Hc. eapply cache_ok_maps; [done..|]. intros k c Hk. by exists k. Qed.

Lemma cache_ok_delete t p : cache_ok t → cache_ok (set_current (delete p (current_by_path t)) t).
Proof.
  intros Hc. eapply cache_ok_maps; [done..|]. intros k c. cbn. rewrite lookup_delete_Some.
  intros [?|[_ ?]]; exists k; auto.
Qed.

Hint Resolve cache_ok_baseline cache_ok_current cache_ok_origin cache_ok_delete : core.

Lemma cache_ok_change e c t : cache_ok t → cache_ok (apply_change e c t).
Proof.
  intros Hc. unfold apply_change, td_add, td_delete, td_update. cbv zeta.
  repeat match goal with
         | |- context [match ?x with _ => _ end] => destruct x eqn:?
         | |- context [if ?x then _ else _] => destruct x eqn:?
         end; auto 12.
Qed.

(** ** The loop *)

Lemma refresh_loop t (hist : N → option str) (pairs : gmap path path) (ps : list path) : held t hist → cached t hist (rendered_diffs t) →
  ∀ handled previous rendered aggregated acc,
  (∀ key x, previous !! key = Some x → rendered_diffs t !! key = Some x) → cached t hist rendered → aggregated = net_text t acc →
  let s := foldl (refresh_step relative_path_from sha1_hex unified_text t pairs (destinations_of pairs))
             (handled, previous, rendered, aggregated) ps in
  let s' := foldl (pair_step pairs (destinations_of pairs)) (handled, acc) ps in
  s.2 = net_text t s'.2 ∧ cached t hist s.1.2.
Proof.
  intros Hh Hc. induction ps as [|p ps IH]; intros handled previous rendered aggregated acc Hprev Hren Hagg; cbn [foldl]; [done|].
  unfold refresh_step at 2 4, pair_step at 2. destruct (decide (p ∈ handled)) as [|_]; [by apply IH|].
  destruct (decide (p ∈ destinations_of pairs)) as [|_]; [by apply IH|].
  assert (∀ handled' q,
    let key : DiffCacheKey := ((p, revision <$> baseline_by_path t !! p), (q, revision <$> current_by_path t !! q)) in
    let x := match previous !! key with
             | Some x => x
             | None => render t p (tracked_text <$> baseline_by_path t !! p) q (tracked_text <$> current_by_path t !! q)
             end in
    let s := foldl (refresh_step relative_path_from sha1_hex unified_text t pairs (destinations_of pairs))
               (handled', delete key previous, <[key:=x]> rendered, push_diff aggregated x) ps in
    let s' := foldl (pair_step pairs (destinations_of pairs)) (handled', acc ++ [(p, q)]) ps in
    s.2 = net_text t s'.2 ∧ cached t hist s.1.2) as Hstep; [|destruct (pairs !! p); apply Hstep].
  intros handled' q key x.
  assert (x = render_pair t (p, q)) as Hx.
  { unfold x. destruct (previous !! key) as [y|] eqn:E; [|done]. apply Hprev, Hc in E as [_ ->].
    unfold render_pair. cbn [fst snd]. rewrite (held_text t hist (baseline_by_path t)), (held_text t hist (current_by_path t)) by auto. done. }
  apply IH.
  - intros key' y. rewrite lookup_delete_Some. intros [_ ?]. by apply Hprev.
  - intros l r lr rr y. rewrite lookup_insert_Some. intros [[Ek <-]|[_ Hy]]; [|by apply Hren]. unfold key in Ek. simplify_eq. split.
    + intros n [Hn|Hn]; apply fmap_Some in Hn as (c & Hk & ->); eapply Hh; eauto.
    + rewrite Hx. unfold render_pair. cbn [fst snd].
      rewrite (held_text t hist (baseline_by_path t)), (held_text t hist (current_by_path t)) by auto. done.
  - unfold net_text in *. rewrite foldl_app. cbn [foldl]. by rewrite Hagg, Hx.
Qed.

Lemma net_diff_maps t t' :
  display_roots_by_environment t' = display_roots_by_environment t → baseline_by_path t' = baseline_by_path t →
  current_by_path t' = current_by_path t → origin_by_current_path t' = origin_by_current_path t → net_diff t' = net_diff t.
Proof.
  intros Hd Hb Hc Ho. destruct t, t'. cbn in *. subst. done.
Qed.

Lemma refresh_spec t : cache_ok t → unified_diff (refresh t) = net_diff (refresh t) ∧ cache_ok (refresh t).
Proof.
  intros (hist & Hh & Hc).
  destruct (refresh_loop t hist (rename_pairs pair_order t) (diff_paths relative_path_from key_order t) Hh Hc ∅ (rendered_diffs t) ∅ [] [])
    as [Htext Hcached]; [done|by intros ? ? ? ? ? ?%lookup_empty_Some|done|].
  assert (net_diff (refresh t) = net_diff t) as ->.
  { apply net_diff_maps; unfold refresh_unified_diff; by destruct (foldl _ _ _) as [[[? ?] ?] ?]. }
  unfold refresh_unified_diff. fold (destinations_of (rename_pairs pair_order t)).
  destruct (foldl (refresh_step _ _ _ _ _ _) _ _) as [[[h prev] rendered] aggregated]. cbn [fst snd] in *. split.
  - unfold net_diff. cbn [unified_diff]. by rewrite Htext.
  - exists hist. split; [exact Hh|exact Hcached].
Qed.

Lemma refresh_maps t :
  valid (refresh t) = valid t ∧ baseline_by_path (refresh t) = baseline_by_path t ∧ current_by_path (refresh t) = current_by_path t.
Proof. unfold refresh_unified_diff. by destruct (foldl _ _ _) as [[[? ?] ?] ?]. Qed.

Lemma changes_valid e cs t : valid (foldl (λ t c, apply_change e c t) t cs) = valid t.
Proof.
  revert t. induction cs as [|c cs IH]; intros t; [done|]. cbn [foldl]. rewrite IH. unfold apply_change, td_add, td_delete, td_update.
  cbv zeta. repeat match goal with
         | |- context [match ?x with _ => _ end] => destruct x eqn:?
         | |- context [if ?x then _ else _] => destruct x eqn:?
         end; done.
Qed.

Lemma changes_cache e cs t : cache_ok t → cache_ok (foldl (λ t c, apply_change e c t) t cs).
Proof. revert t. induction cs as [|c cs IH]; intros t Hc; [done|]. cbn [foldl]. by apply IH, cache_ok_change. Qed.
End Cache.

(** * A turn *)

Section Turn.
Context {P W : Type} `{FileSystemLaws P W} `{!Countable P}.
Notation path := (@TrackedPath P).
Notation tracker := (@TurnDiffTracker P _ _).
Context (relative_path_from : P → P → option str) (sha1_hex : str → str).
Context (unified_text : str → str → str → str → str).
Context (key_order : list path → list path) (pair_order : list (path * path) → list (path * path)).

Notation track := (track_delta relative_path_from sha1_hex unified_text key_order pair_order).

Hypothesis key_order_perm : ∀ l, key_order l ≡ₚ l.

(** What happens to the files in a turn: a patch is applied to the file system of an
    environment, or something other than a patch changes texts. *)
Inductive turn_event :=
| Patched (w : W) (cwd : P) (hunks : list Hunk) (d : AppliedPatchDelta P)
| Elsewhere.

(** A turn from the texts [v0]: the tracker is given the deltas of the patches, and may be
    told to give up; it does not see other changes of the texts. The texts of an
    environment are those of its file system. *)
Inductive turn (v0 : texts path) : list turn_event → texts path → tracker → Prop :=
| turn_start roots : turn v0 [] v0 (with_environment_display_roots roots)
| turn_patch events v t e follow cwd hunks w s r :
    turn v0 events v t → (∀ q, view w q = v (e, q)) →
    apply_hunks_to_files follow cwd hunks (mkEnv w delta_empty) = (s, r) →
    turn v0 (events ++ [Patched w cwd hunks (delta s)]) (set_env e (view (world s)) v) (track e (delta s) t)
| turn_elsewhere events v v' t : turn v0 events v t → turn v0 (events ++ [Elsewhere]) v' t
| turn_invalidate events v t : turn v0 events v t → turn v0 events v (invalidate t).

(** The changes a tracker can follow: those of a patch of files no other path names, in which
    no hunk moves a file onto itself (such a file is gone although the delta says otherwise). *)
Definition followed (ev : turn_event) : Prop :=
  match ev with
  | Patched w cwd hunks d => unaliased_targets cwd hunks w ∧ Forall moves_elsewhere (changes d)
  | Elsewhere => False
  end.

Lemma turn_invalid v0 events v t : turn v0 events v t → valid t = false → unified_diff t = None.
Proof.
  induction 1 as [roots|events v t e follow cwd hunks w s r _ IH Hw Hrun|events v v' t _ IH|events v t _ _]; try done.
  unfold track_delta. destruct (valid t) eqn:Ev; cbn [negb]; [|by intros; apply IH].
  destruct (exact_ (delta s)); cbn [negb]; [|done]. intros Hf. exfalso.
  rewrite (proj1 (refresh_maps relative_path_from sha1_hex unified_text key_order pair_order _)), changes_valid in Hf.
  congruence.
Qed.

Lemma turn_invariant v0 events v t :
  turn v0 events v t → Forall followed events → valid t = true →
  tracks v0 v t ∧ unified_diff t = net_diff relative_path_from sha1_hex unified_text key_order pair_order t ∧
  cache_ok relative_path_from sha1_hex unified_text t.
Proof.
  induction 1 as [roots|events v t e follow cwd hunks w s r _ IH Hw Hrun|events v v' t _ _|events v t _ _]; intros Hf.
  - intros _. split; [|split].
    + intros k. unfold tracks_at. cbn. right. by rewrite !lookup_empty.
    + unfold net_diff, net_pairs, diff_paths, with_environment_display_roots. cbn [baseline_by_path current_by_path].
      rewrite !map_to_list_empty. cbn [fmap list_fmap]. by rewrite (proj1 (Permutation_nil_r _) (key_order_perm [])).
    + exists (λ _, None). split; [intros k c [Hk|Hk]|intros l r lr rr x Hk]; cbn in Hk; by rewrite lookup_empty in Hk.
  - apply Forall_app in Hf as [Hf [[Hu Hm] _]%Forall_cons].
    unfold track_delta. destruct (valid t) eqn:Ev; cbn [negb]; [|congruence].
    destruct (exact_ (delta s)) eqn:Ee; cbn [negb]; [|intros Hx; discriminate Hx].
    destruct (IH Hf eq_refl) as (Ht & _ & Hc). pose proof (run_recorded _ _ _ _ _ _ Hu Hrun Ee) as Hr.
    set (t1 := foldl (λ t c, apply_change e c t) t (changes (delta s))).
    destruct (refresh_maps relative_path_from sha1_hex unified_text key_order pair_order t1) as (_ & Hb & Hcur).
    destruct (refresh_spec relative_path_from sha1_hex unified_text key_order pair_order t1) as [Hs Hck]; [by apply changes_cache|].
    intros _. split; [|by split]. eapply tracks_maps; [exact Hb|exact Hcur|]. by apply (changes_track v0 v e _ (view w)).
  - by apply Forall_app in Hf as [_ [[] _]%Forall_cons].
  - intros Hx. discriminate Hx.
Qed.

(** C34: The diff shown for a turn is exact in a turn whose texts change only by patches that
    move no file onto itself and write or remove only files no other path names (no links):
    while the tracker is valid, changing the texts of
    the start of the turn by the pairs of the diff gives the texts of now, each pair compares
    the text its left path had with the text its right path has, and the shown diff is the
    rendering of these pairs, although cached renderings are reused. *)
Theorem turn_diff_exact v0 events v t :
  turn v0 events v t → Forall followed events → valid t = true →
  (∀ k, foldl (apply_pair t) v0 (net_pairs relative_path_from key_order pair_order t) k = v k) ∧
  (∀ p q, (p, q) ∈ net_pairs relative_path_from key_order pair_order t →
     render_pair relative_path_from sha1_hex unified_text t (p, q) =
       render_diff relative_path_from sha1_hex unified_text t p (v0 p) q (v q) ∧
     (p ≠ q → v p = None ∧ v0 q = None)) ∧
  get_unified_diff t = net_diff relative_path_from sha1_hex unified_text key_order pair_order t.
Proof.
  intros Ht Hf Hv. destruct (turn_invariant v0 events v t Ht Hf Hv) as (Htr & Hu & _). split_and!; [|intros p q Hpq|done].
  - intros k. by apply (net_pairs_exact _ _ _ key_order_perm).
  - destruct (net_pair_sides _ _ _ key_order_perm v0 v t p q Htr Hpq) as (Hp & Hq & Hne). split; [|done].
    unfold render_pair. cbn [fst snd]. by rewrite Hp, Hq.
Qed.

(** A tracker that saw an inexact delta shows nothing from then on. *)
Theorem invalid_shows_nothing v0 events v t e d :
  turn v0 events v t → valid t = false ∨ exact_ d = false → get_unified_diff (track e d t) = None.
Proof.
  intros Ht Hor. unfold track_delta. pose proof (turn_invalid v0 events v t Ht) as Hi. destruct (valid t) eqn:Ev; cbn [negb].
  - destruct Hor as [?|Hx]; [done|]. by rewrite Hx.
  - by apply Hi.
Qed.
End Turn.

(** A patch that moves and edits a file, adds one and deletes it again. *)
Definition sample_hunks : list Hunk :=
  [AddFile (lit "d/new.txt") (lit "hi" ++ [LF]);
   UpdateFile (lit "a.txt") (Some (lit "b.txt")) [mkChunk None [lit "x"; lit "y"] [lit "x"; lit "z"] [(0, 0)] false];
   DeleteFile (lit "d/new.txt")].

Definition sample_env : @env posix memory :=
  fst (apply_hunks_to_files true (mkPosix []) sample_hunks (mkEnv sample_world delta_empty)).

Definition sample_tracker : @TurnDiffTracker posix _ _ :=
  track_delta (λ _ _, None) (λ _, []) (λ left right _ _, left ++ right) id id [] (delta sample_env)
    (with_environment_display_roots ∅).

Lemma turn_diff_exact_witness :
  net_pairs (λ _ _, None) id id sample_tracker = [(([], mkPosix [lit "a.txt"]), ([], mkPosix [lit "b.txt"]))] ∧
  get_unified_diff sample_tracker =
    net_diff (λ _ _, None) (λ _, []) (λ left right _ _, left ++ right) id id sample_tracker ∧
  is_Some (get_unified_diff sample_tracker).
Proof.
  split; [by vm_compute|]. split; [|by eexists; vm_compute].
  refine (proj2 (proj2 (turn_diff_exact (λ _ _, None) (λ _, []) (λ left right _ _, left ++ right) id id (λ _, reflexivity _)
    (λ k, view sample_world k.2) [Patched sample_world (mkPosix []) sample_hunks (delta sample_env)]
    (set_env [] (view (world sample_env)) (λ k, view sample_world k.2)) sample_tracker _ _ _))).
  - apply (turn_patch _ _ _ _ _ _ [] _ _ [] true (mkPosix []) sample_hunks sample_world sample_env
      (snd (apply_hunks_to_files true (mkPosix []) sample_hunks (mkEnv sample_world delta_empty))));
      [apply turn_start|done|apply surjective_pairing].
  - apply Forall_singleton. split; [apply targets_clear_ok; by vm_compute|].
    vm_compute. repeat constructor. discriminate.
  - by vm_compute.
Defined.
