(* ===== verification/PatchTool.v ===== *)
(** The patch tool around the application of a patch: whether a verified patch runs without
    asking (core/src/safety.rs, core/src/apply_patch.rs), which permissions it asks for and
    how grants of the turn enter (core/src/tools/handlers), and its run under the orchestrator
    (core/src/tools/runtimes/apply_patch.rs). The local matching of paths is
    protocol/src/permissions/local_aliases.rs.

    Parameters: the local platform's [to_abs_path], [normalize_system_aliases] and parent of an
    opaque path, and the [Display] of path URIs. I/O errors are their text. *)
From S2P Require Import Prelude Str PatchParser ApplyPatch Invocation UriPath NativePath ApprovalTypes ExecApproval Permissions AccessRules PermissionProfile PolicyTransforms Orchestrator.

(** * Data *)

(** [ApplyPatchAction], its changes in the order its hash map is iterated. *)
Record PatchAction := mkPatchAction {
  pa_changes : list (Url * ApplyPatchFileChange Url);
  pa_patch : str;
  pa_cwd : Url
}.

Inductive SafetyCheck := AutoApprove | AskUser | Reject (reason : str).

Inductive PatchSandboxRoute := ExecutorManaged | Platform (level : WindowsSandboxLevel).

Record LocalFileSystemPolicyMatcher := mkLocalMatcher { lm_policy : FileSystemSandboxPolicy; lm_context : PolicyContext }.

Record PatchPolicyMatcher := mkPatchMatcher {
  pm_configured_policy : FileSystemSandboxPolicy;
  pm_context : PolicyContext;
  pm_sandbox_route : PatchSandboxRoute;
  pm_local_matching : option LocalFileSystemPolicyMatcher
}.

Record ApplyPatchRuntimeInvocation := mkInvocation {
  inv_action : PatchAction;
  inv_auto_approved : bool;
  inv_requirement : ExecApprovalRequirement
}.

(** [EffectiveAdditionalPermissions] *)
Record EffectiveAdditionalPermissions := mkEffective {
  eff_sandbox_permissions : SandboxPermissions;
  eff_additional_permissions : option AdditionalPermissionProfile;
  eff_permissions_preapproved : bool
}.

Record ApplyPatchRequest := mkRequest {
  req_action : PatchAction;
  req_file_paths : list Url;
  req_requirement : ExecApprovalRequirement;
  req_additional_permissions : option AdditionalPermissionProfile;
  req_permissions_preapproved : bool
}.

(** The grants a turn sees: those of the session and [TurnGrants]. *)
Record Grants := mkGrants {
  session_grants : gmap str AdditionalPermissionProfile;
  granted_permissions_by_environment_id : gmap str AdditionalPermissionProfile;
  strict_auto_review_enabled : bool
}.

Definition PATCH_REJECTED_OUTSIDE_PROJECT_REASON : str :=
  lit "writing outside of the project; rejected by user approval settings".
Definition PATCH_REJECTED_READ_ONLY_REASON : str :=
  lit "writing is blocked by read-only sandbox; rejected by user approval settings".

Definition action_is_empty (action : PatchAction) : bool := match pa_changes action with [] => true | _ => false end.

Definition file_paths_of (c : Url * ApplyPatchFileChange Url) : list Url :=
  match c with
  | (path, FileUpdate _ (Some dest) _) => [path; dest]
  | (path, _) => [path]
  end.
Definition file_paths_for_action (action : PatchAction) : list Url := pa_changes action ≫= file_paths_of.

Definition windows_sandbox_level_for_legacy_checks (t : SandboxType) (level : WindowsSandboxLevel) : WindowsSandboxLevel :=
  if bool_decide (effective_windows_sandbox_type t level = WindowsMxc) then RestrictedToken else level.

Definition require_environment_id (parsed_environment_id : option str) (allow_environment_id : bool)
    : result str (option str) :=
  match parsed_environment_id with
  | Some environment_id =>
      if negb allow_environment_id
      then Err (lit "apply_patch environment selection is unavailable for this turn")
      else Ok (Some environment_id)
  | None => Ok None
  end.

Definition resolve_sandbox_permissions (permissions : option SandboxPermissions) (justification : option str)
    : result str SandboxPermissions :=
  if bool_decide (is_Some justification) && bool_decide (permissions = None)
  then Err (lit "`justification` requires an explicit `sandbox_permissions`; use `sandbox_permissions: " ++ [QUOTE]
            ++ lit "require_escalated" ++ [QUOTE] ++ lit "` for unsandboxed execution, or omit `justification`.")
  else Ok (default UseDefault permissions).

(** The derived [Debug] of an approval policy. *)
Definition debug_policy (policy : AskForApproval) : str :=
  let b (x : bool) := if x then lit "true" else lit "false" in
  match policy with
  | UnlessTrusted => lit "UnlessTrusted"
  | OnRequest => lit "OnRequest"
  | Never => lit "Never"
  | Granular g =>
      lit "Granular(GranularApprovalConfig { sandbox_approval: " ++ b (sandbox_approval g)
      ++ lit ", rules: " ++ b (granular_rules g) ++ lit ", skill_approval: " ++ b (skill_approval g)
      ++ lit ", request_permissions: " ++ b (request_permissions g)
      ++ lit ", mcp_elicitations: " ++ b (mcp_elicitations g) ++ lit " })"
  end.

Section Patch.
Context `{!UrlCodec, !GlobEngine} (os : TargetOs) (display : Url → str).
Context (to_abs_path normalize_system_aliases : Url → result str Url) (native_parent : Url → option Url).
Implicit Types (p : FileSystemSandboxPolicy) (ctx : PolicyContext) (m : PatchPolicyMatcher) (action : PatchAction).

(** * Local matching *)

Definition normalize_local (path : Url) : result str Url :=
  let? local := to_abs_path path in
  map_err (λ err, lit "failed to normalize " ++ display path ++ lit ": " ++ err) (normalize_system_aliases local).

Definition keeps_entry (e : FileSystemSandboxEntry) : bool :=
  match entry_path e with
  | GlobPattern _ | Special Root | Special Minimal | Special (UnknownSpecial _ _) => true
  | _ => false
  end.

Fixpoint normalized_entries (l : list (Url * FileSystemAccessMode)) : result str (list FileSystemSandboxEntry) :=
  match l with
  | [] => Ok []
  | (root, access) :: l =>
      if is_opaque root then normalized_entries l
      else
        let? normalized := normalize_local root in
        let? rest := normalized_entries l in
        Ok (entry_new (PathEntry normalized) access :: rest)
  end.

Definition prepare_local_matching p ctx : result str LocalFileSystemPolicyMatcher :=
  if bool_decide (os = MacosTarget) then
    let? normalized := normalized_entries (resolved_entries ctx p) in
    Ok (mkLocalMatcher (set_entries (filter (λ e, keeps_entry e = true) (entries p) ++ normalized) p) ctx)
  else Ok (mkLocalMatcher p ctx).

Definition with_path {T} (path : Url) (evaluate : Url → T) : result str T :=
  let? path := if bool_decide (os = MacosTarget) then normalize_local path else Ok path in
  Ok (evaluate path).

Definition local_can_write_path (l : LocalFileSystemPolicyMatcher) (path : Url) : result str bool :=
  with_path path (λ path, can_write_path (lm_policy l) path (lm_context l)).

Definition local_resolve_access (l : LocalFileSystemPolicyMatcher) (path : Url) : FileSystemAccessMode :=
  match with_path path (λ path, resolve_access (lm_policy l) path (lm_context l)) with
  | Ok access => access
  | Err _ => Deny
  end.

(** * Safety *)

Definition prepare_matching (route : PatchSandboxRoute) p ctx : result str PatchPolicyMatcher :=
  let? local :=
    match route with
    | Platform _ => let? l := prepare_local_matching p ctx in Ok (Some l)
    | ExecutorManaged => Ok None
    end in
  Ok (mkPatchMatcher p ctx route local).

Definition patch_can_write_path m (path : Url) : result str bool :=
  match pm_local_matching m with
  | Some l => local_can_write_path l path
  | None => Ok (can_write_path (pm_configured_policy m) path (pm_context m))
  end.

Fixpoint all_writable m (paths : list Url) : result str bool :=
  match paths with
  | [] => Ok true
  | path :: paths =>
      let? writable := patch_can_write_path m path in
      if negb writable then Ok false else all_writable m paths
  end.

(** A change checks its path and the place it moves to, in the order of the changes. *)
Definition is_write_patch_constrained_to_writable_paths action m : result str bool :=
  if has_full_disk_write_access_with_context (pm_context m) (pm_configured_policy m) then Ok true
  else all_writable m (file_paths_for_action action).

Definition has_configured_writable_roots p ctx : bool :=
  negb (has_full_disk_write_access_with_context ctx p)
  && existsb (λ '(path, access), can_write access && can_write_path p path ctx) (resolved_entries ctx p).

Definition patch_rejection_reason (profile : PermissionProfile) p ctx : str :=
  let has_no_writable_roots := negb (has_configured_writable_roots p ctx) in
  match profile with
  | Managed _ _ =>
      if negb (has_full_disk_write_access_with_context ctx p) && has_no_writable_roots
      then PATCH_REJECTED_READ_ONLY_REASON else PATCH_REJECTED_OUTSIDE_PROJECT_REASON
  | Disabled | External _ => PATCH_REJECTED_OUTSIDE_PROJECT_REASON
  end.

Definition sandbox_available (route : PatchSandboxRoute) : bool :=
  match route with
  | ExecutorManaged => true
  | Platform level => bool_decide (is_Some (get_platform_sandbox os (negb (bool_decide (level = WindowsDisabled)))))
  end.

Definition rejects_sandbox_approval (policy : AskForApproval) : bool :=
  match policy with Never => true | Granular config => negb (sandbox_approval config) | _ => false end.

Definition assess_patch_safety action (policy : AskForApproval) (profile : PermissionProfile) m : result str SafetyCheck :=
  if action_is_empty action then Ok (Reject (lit "empty patch"))
  else
    match policy with
    | UnlessTrusted => Ok AskUser
    | Never | OnRequest | Granular _ =>
        let? constrained := is_write_patch_constrained_to_writable_paths action m in
        if constrained
           && (match profile with Disabled | External _ => true | Managed _ _ => false end
               || sandbox_available (pm_sandbox_route m))
        then Ok AutoApprove
        else if rejects_sandbox_approval policy
        then Ok (Reject (patch_rejection_reason profile (pm_configured_policy m) (pm_context m)))
        else Ok AskUser
    end.

Definition prepare_apply_patch (policy : AskForApproval) (profile : PermissionProfile) m action
    : result str ApplyPatchRuntimeInvocation :=
  let? check :=
    map_err (λ err, lit "failed to check patch permissions: " ++ err) (assess_patch_safety action policy profile m) in
  match check with
  | AutoApprove => Ok (mkInvocation action true (Skip false None))
  | AskUser => Ok (mkInvocation action false (NeedsApproval None None))
  | Reject reason => Err (lit "patch rejected: " ++ reason)
  end.

(** * Permissions *)

(** The parents to ask for, in the order of the paths. *)
Fixpoint write_paths m (paths : list Url) : result str (list Url) :=
  match paths with
  | [] => Ok []
  | path :: paths =>
      let? writable := patch_can_write_path m path in
      if (writable : bool) then write_paths m paths
      else
        let parent :=
          match parent path with
          | Some parent => parent
          | None =>
              default path match pm_sandbox_route m with Platform _ => native_parent path | ExecutorManaged => None end
          end in
        let? parent_writable := patch_can_write_path m parent in
        let? rest := write_paths m paths in
        Ok (if parent_writable : bool then rest else parent :: rest)
  end.

Definition write_permissions_for_paths (file_paths : list Url) m : result str (option AdditionalPermissionProfile) :=
  let? paths := write_paths m file_paths in
  match dedup_by uri_eqb (sort_by_key display paths) with
  | [] => Ok None
  | paths =>
      let permissions := mkAdditional None (Some (from_read_write_path_uris (Some []) (Some paths))) in
      Ok match match pm_sandbox_route m with
               | Platform _ => normalize_additional_permissions permissions
               | ExecutorManaged => normalize_additional_permissions_with_context display permissions (pm_context m)
               end with
         | Ok permissions => Some permissions
         | Err _ => None
         end
  end.

(** ** Grants of the turn *)

Definition granted_permissions (g : Grants) (environment_id : str) : option AdditionalPermissionProfile :=
  merge_permission_profiles (session_grants g !! environment_id) (granted_permissions_by_environment_id g !! environment_id).

Definition record_granted_permissions (environment_id : str) (permissions : AdditionalPermissionProfile)
    (strict_auto_review : bool) (g : Grants) : Grants :=
  let turn_grants := granted_permissions_by_environment_id g in
  mkGrants (session_grants g)
    match merge_permission_profiles (turn_grants !! environment_id) (Some permissions) with
    | Some granted => <[environment_id:=granted]> turn_grants
    | None => turn_grants
    end
    (strict_auto_review_enabled g || strict_auto_review).

Definition unresolved_special ctx (e : FileSystemSandboxEntry) : bool :=
  match entry_path e with
  | Special Tmpdir => match temporary_directories ctx with None | Some [] => true | Some _ => false end
  | Special (ProjectRoots _) => match workspace_roots ctx with [] => true | _ => false end
  | _ => false
  end.

Definition same_file_system (effective granted : option FileSystemPermissions) : bool :=
  match effective, granted with
  | Some effective, Some granted =>
      bool_decide (fp_glob_scan_max_depth effective = fp_glob_scan_max_depth granted)
      && (length (fp_entries effective) =? length (fp_entries granted))
      && forallb (λ e, contains_entry e (fp_entries granted)) (fp_entries effective)
  | None, None => true
  | _, _ => false
  end.

Definition preapproved_permission_profile (effective_permissions granted : AdditionalPermissionProfile) ctx
    : option AdditionalPermissionProfile :=
  if match ap_file_system effective_permissions with
     | Some f => existsb (unresolved_special ctx) (fp_entries f)
     | None => false
     end
  then None
  else
    match materialize_additional_permissions_with_context display effective_permissions ctx,
          materialize_additional_permissions_with_context display granted ctx with
    | Ok effective, Ok granted' =>
        if negb (bool_decide (ap_network effective = ap_network granted')) then None
        else if same_file_system (ap_file_system effective) (ap_file_system granted') then Some granted else None
    | _, _ => None
    end.

Definition apply_granted_turn_permissions (granted : option AdditionalPermissionProfile) ctx (permissions : SandboxPermissions)
    (additional : option AdditionalPermissionProfile) : EffectiveAdditionalPermissions :=
  if bool_decide (permissions = RequireEscalated) then mkEffective permissions additional false
  else
    let effective := merge_permission_profiles additional granted in
    let preapproved :=
      granted ← granted;
      match additional with
      | None => Some granted
      | Some _ => effective ← effective; preapproved_permission_profile effective granted ctx
      end in
    let effective := match preapproved with Some preapproved => Some preapproved | None => effective end in
    mkEffective
      (if bool_decide (is_Some effective) && negb (uses_additional_permissions permissions)
       then WithAdditionalPermissions else permissions)
      effective (bool_decide (is_Some preapproved)).

Definition implicit_granted_permissions (permissions : SandboxPermissions) (additional : option AdditionalPermissionProfile)
    (effective : EffectiveAdditionalPermissions) : option AdditionalPermissionProfile :=
  if negb (uses_additional_permissions permissions) && negb (bool_decide (permissions = RequireEscalated))
     && bool_decide (additional = None)
  then eff_additional_permissions effective else None.

Definition normalize_and_validate_additional_permissions (additional_permissions_allowed : bool) (policy : AskForApproval)
    (permissions : SandboxPermissions) (additional : option AdditionalPermissionProfile) (permissions_preapproved : bool) ctx
    : result str (option AdditionalPermissionProfile) :=
  let uses := uses_additional_permissions permissions in
  if negb permissions_preapproved && negb additional_permissions_allowed && (uses || bool_decide (is_Some additional))
  then Err (lit "additional permissions are disabled; enable `features.exec_permission_approvals` before using `with_additional_permissions`")
  else if uses then
    if negb permissions_preapproved && negb (bool_decide (policy = OnRequest))
    then Err (lit "approval policy is " ++ debug_policy policy
              ++ lit "; reject command — you cannot request additional permissions unless the approval policy is OnRequest")
    else
      match additional with
      | None => Err (lit "missing `additional_permissions`; provide at least one of `network` or `file_system` when using `with_additional_permissions`")
      | Some additional =>
          let? normalized := normalize_additional_permissions_with_context display additional ctx in
          if ap_is_empty normalized
          then Err (lit "`additional_permissions` must include at least one requested permission in `network` or `file_system`")
          else Ok (Some normalized)
      end
  else if bool_decide (is_Some additional)
  then Err (lit "`additional_permissions` requires `sandbox_permissions` set to `with_additional_permissions`")
  else Ok None.

(** * The tool *)

Definition context_for_cwd (cwd : Url) ctx : PolicyContext :=
  mkPolicyContext cwd (workspace_roots ctx) (user_home_dir ctx) (temporary_directories ctx).

Definition sandbox_route_for (env : TurnEnvironment) : PatchSandboxRoute :=
  if env_is_remote env then ExecutorManaged
  else Platform (windows_sandbox_level_for_legacy_checks (env_windows_sandbox_type env) (env_windows_sandbox_level env)).

(** [execute_verified_patch] until the request for the orchestrator is made. *)
Definition patch_matcher (granted : option AdditionalPermissionProfile) (env : TurnEnvironment) action : result str PatchPolicyMatcher :=
  prepare_matching (sandbox_route_for env)
    (effective_file_system_sandbox_policy (profile_file_system (env_permission_profile env)) granted)
    (context_for_cwd (pa_cwd action) (env_context env)).

Definition patch_request (granted : option AdditionalPermissionProfile) (env : TurnEnvironment) (policy : AskForApproval) action
    : result str ApplyPatchRequest :=
  let file_paths := file_paths_for_action action in
  let? m := map_err (λ err, lit "failed to prepare patch permissions: " ++ err) (patch_matcher granted env action) in
  let? additional :=
    map_err (λ err, lit "failed to check patch permissions: " ++ err) (write_permissions_for_paths file_paths m) in
  let effective :=
    apply_granted_turn_permissions granted (context_for_cwd (pa_cwd action) (env_context env)) UseDefault additional in
  let? apply := prepare_apply_patch policy (env_permission_profile env) m action in
  Ok (mkRequest (inv_action apply) file_paths (inv_requirement apply) (eff_additional_permissions effective)
        (eff_permissions_preapproved effective)).

(** [ApplyPatchRuntime] as the orchestrator sees it. *)
Definition patch_tool (env : TurnEnvironment) (req : ApplyPatchRequest) : Tool :=
  mkTool (Some (req_requirement req)) UseDefault Auto true apply_patch_wants_no_sandbox_approval (env_is_remote env) None
    (Some (pa_cwd (req_action req))).

(** [execute_verified_patch], without its events and the tracking of the delta. *)
Definition execute_verified_patch {Out} (granted : option AdditionalPermissionProfile) (env : TurnEnvironment) (turn : Turn) action
    : io (event Out) (result str (result ToolError (OrchestratorRunResult (Out := Out)))) :=
  match patch_request granted env (turn_approval_policy turn) action with
  | Err err => Ret (Err err)
  | Ok req => let! r := run os (patch_tool env req) env turn in Ret (Ok r)
  end.

(** ** One run *)

(** The permissions of the file system's sandbox context; [None] without a sandbox, and the
    inner [None] is the [unreachable!] of the conversion. *)
Definition sandbox_permissions_for_attempt (req : ApplyPatchRequest) (a : SandboxAttempt) : option (option PermissionProfile) :=
  if negb (at_sandbox_requested a) then None
  else Some (effective_permission_profile (at_exec_server_permissions a) (req_additional_permissions req)).

Definition follow_symlinks_for (a : SandboxAttempt) : bool :=
  at_sandbox_requested a || negb (should_sandbox os (at_permissions a) Auto (at_enforce_managed_network a)).
End Patch.

(** * Safety of patches *)

Section Safety.
Context `{!UrlCodec, !GlobEngine} (os : TargetOs) (display : Url → str).
Context (to_abs_path normalize_system_aliases : Url → result str Url) (native_parent : Url → option Url).
Implicit Types (p : FileSystemSandboxPolicy) (ctx : PolicyContext) (m : PatchPolicyMatcher) (action : PatchAction).

Notation can_write_of := (patch_can_write_path os display to_abs_path normalize_system_aliases).
Notation assess := (assess_patch_safety os display to_abs_path normalize_system_aliases).
Notation request := (patch_request os display to_abs_path normalize_system_aliases native_parent).

(** Every path a patch writes, creates, deletes or moves to is writable. *)
Definition confined m action : Prop :=
  has_full_disk_write_access_with_context (pm_context m) (pm_configured_policy m) = true ∨
  ∀ path, path ∈ file_paths_for_action action → can_write_of m path = Ok true.

Definition unmanaged (profile : PermissionProfile) : Prop := match profile with Managed _ _ => False | _ => True end.

Lemma all_writable_spec m paths :
  all_writable os display to_abs_path normalize_system_aliases m paths = Ok true ↔ ∀ path, path ∈ paths → can_write_of m path = Ok true.
Proof.
  induction paths as [|path paths IH]; cbn [all_writable]; [split; [set_solver|done]|].
  destruct (can_write_of m path) as [[]|err] eqn:E; cbn [res_bind negb].
  - rewrite IH. setoid_rewrite elem_of_cons. split; [intros Hx q [->|Hq]; auto|auto].
  - split; [done|]. intros Hx. specialize (Hx path (list_elem_of_here _ _)). congruence.
  - split; [done|]. intros Hx. specialize (Hx path (list_elem_of_here _ _)). congruence.
Qed.

Lemma constrained_spec action m :
  is_write_patch_constrained_to_writable_paths os display to_abs_path normalize_system_aliases action m = Ok true ↔ confined m action.
Proof.
  unfold is_write_patch_constrained_to_writable_paths, confined. destruct (has_full_disk_write_access_with_context _ _).
  - split; [by left|done].
  - rewrite all_writable_spec. split; [by right|by intros [?|?]].
Qed.

(** A patch is approved without asking exactly when it is not empty, the approval policy
    is not that of untrusted projects, all paths it touches are writable, and a sandbox will
    hold it there (a profile without a sandbox of its own needs none). *)
Theorem auto_approval_exact action policy profile m :
  assess action policy profile m = Ok AutoApprove ↔
  pa_changes action ≠ [] ∧ policy ≠ UnlessTrusted ∧ confined m action ∧
  (unmanaged profile ∨ sandbox_available os (pm_sandbox_route m) = true).
Proof.
  unfold assess_patch_safety. rewrite <- constrained_spec.
  assert (action_is_empty action = true ↔ pa_changes action = []) as He by (unfold action_is_empty; by destruct (pa_changes action)).
  destruct (action_is_empty action); [split; [done|]; intros [Hx _]; by destruct Hx; apply He|].
  assert (pa_changes action ≠ []) as Hne by (intros Hx; by apply He in Hx).
  destruct (is_write_patch_constrained_to_writable_paths _ _ _ _ _ _) as [[]|err]; cbn [res_bind andb].
  - assert (match profile with Managed _ _ => false | _ => true end = true ↔ unmanaged profile) as Hu by (by destruct profile).
    destruct policy; [naive_solver|..]; (destruct (_ || _) eqn:E; [apply orb_true_iff in E; rewrite Hu in E; naive_solver|]);
      apply orb_false_iff in E as [E1 E2]; rewrite E2; (split; [by destruct (rejects_sandbox_approval _)|]);
      intros (_ & _ & _ & [Hx%Hu|?]); congruence.
  - destruct policy; (split; [by repeat case_match|naive_solver]).
  - destruct policy; (split; [done|naive_solver]).
Qed.

(** Writable paths need no permissions. *)
Lemma write_paths_confined m paths :
  (∀ path, path ∈ paths → can_write_of m path = Ok true) →
  write_paths os display to_abs_path normalize_system_aliases native_parent m paths = Ok [].
Proof.
  induction paths as [|path paths IH]; intros Hw; [done|]. cbn [write_paths]. rewrite (Hw path) by (by left). cbn [res_bind].
  apply IH. intros q Hq. apply Hw. by right.
Qed.

Lemma request_inv granted env policy action req :
  request granted env policy action = Ok req →
  ∃ m check, patch_matcher os display to_abs_path normalize_system_aliases granted env action = Ok m ∧
    assess action policy (env_permission_profile env) m = Ok check ∧
    req_action req = action ∧ req_file_paths req = file_paths_for_action action ∧
    match check with
    | AutoApprove => req_requirement req = Skip false None
    | AskUser => req_requirement req = NeedsApproval None None
    | Reject _ => False
    end ∧
    ((∀ path, path ∈ file_paths_for_action action → can_write_of m path = Ok true) → req_additional_permissions req = granted).
Proof.
  unfold patch_request. destruct (patch_matcher _ _ _ _ _ _ _) as [m|] eqn:Em; [|done]. cbn [map_err res_bind].
  destruct (write_permissions_for_paths _ _ _ _ _ _ _) as [additional|] eqn:Ew; [|done]. cbn [map_err res_bind].
  unfold prepare_apply_patch. destruct (assess_patch_safety _ _ _ _ _ _ _ _) as [check|] eqn:Ec; [|done]. cbn [map_err res_bind].
  assert ((∀ path, path ∈ file_paths_for_action action → can_write_of m path = Ok true) → additional = None) as Ha.
  { intros Hw. unfold write_permissions_for_paths in Ew. rewrite (write_paths_confined m _ Hw) in Ew. cbn in Ew. congruence. }
  intros E. exists m, check. split; [done|]. split; [done|].
  destruct check; cbn [res_bind] in E; try discriminate E; injection E as <-; (split_and!; [done..|]);
    intros Hw; cbn [req_additional_permissions]; rewrite (Ha Hw); by destruct granted.
Qed.

Lemma route_of_matcher granted env action m :
  patch_matcher os display to_abs_path normalize_system_aliases granted env action = Ok m → pm_sandbox_route m = sandbox_route_for env.
Proof.
  unfold patch_matcher, prepare_matching. destruct (sandbox_route_for env) as [|level]; cbn [res_bind]; [by intros [= <-]|].
  destruct (prepare_local_matching _ _ _ _ _ _) as [l|]; cbn [res_bind]; [by intros [= <-]|done].
Qed.

(** A run that nobody approved is the first one, and asks for the sandbox its permissions need. *)
Lemma unapproved_run {Out} env turn req (pre : list (observed (event Out))) a :
  (∃ reason, req_requirement req = NeedsApproval reason None) ∨ req_requirement req = Skip false None →
  run_facts os (patch_tool env req) env turn pre a →
  approved pre ∨
  req_requirement req = Skip false None ∧ turn_strict_auto_review turn = false ∧ runs pre = [] ∧
  at_sandbox_requested a = should_sandbox os (at_permissions a) Auto (at_enforce_managed_network a).
Proof.
  intros Hreq (permissions & initial & already & Hamb & _ & Hap & Ho & Hp & Hm & Hinit & Hrun).
  assert (requirement_for os (patch_tool env req) turn (profile_file_system permissions) = req_requirement req) as Er by done.
  rewrite Er in *. destruct already; [by left|]. destruct Hap as [Hskip Hs].
  assert (req_requirement req = Skip false None) as Hr by (destruct Hreq as [[? Hx]|?]; [by rewrite Hx in Hskip|done]).
  destruct Hrun as [[Hr0 Hq]|(_ & _ & decision & network & Hmay & _ & Hauth)].
  - right. split_and!; [done..|]. rewrite Hq, Hp, Hm. unfold first_requests.
    destruct (override_for os (patch_tool env req) env turn (profile_file_system permissions) false) eqn:Eo; [done|done|].
    apply bypass_reason in Eo as (_ & [?|[[am Hx]|?]]); [done| |done]. rewrite Er, Hr in Hx. congruence.
  - left. destruct Hauth as [?|(_ & -> & Hby)]; [done|]. unfold should_bypass_approval in Hby.
    destruct (turn_approval_policy turn) eqn:En; try done. by rewrite (never_retries os (patch_tool env req) turn _ _ _ _ eq_refl En) in Hmay.
Qed.
End Safety.

(** * Grants *)

Section Granting.
Context `{!UrlCodec, !GlobEngine} (display : Url → str).
Implicit Types (ctx : PolicyContext) (e : FileSystemSandboxEntry) (l : list FileSystemSandboxEntry).

Lemma entry_eqb_trans a b c : entry_eqb a b = true → entry_eqb b c = true → entry_eqb a c = true.
Proof.
  unfold entry_eqb. rewrite !andb_true_iff, !bool_decide_eq_true. intros [[Hp ->] ->] [[Hq ->] ->]. split_and!; [|done..].
  destruct (entry_path a), (entry_path b), (entry_path c); try done; cbn in *.
  - by eapply uri_eqb_trans.
  - rewrite bool_decide_eq_true in *. congruence.
  - rewrite bool_decide_eq_true in *. congruence.
Qed.

(** Equal entries are the same, except for how a path is written. *)
Lemma entry_eqb_cases a b :
  entry_eqb a b = true → a = b ∨ ∃ u v, entry_path a = PathEntry u ∧ entry_path b = PathEntry v.
Proof.
  unfold entry_eqb. rewrite !andb_true_iff, !bool_decide_eq_true. intros [[Hp Ha] Hm]. destruct a as [pa aa ma], b as [pb ab mb].
  cbn in *. subst. destruct pa, pb; try done; cbn in Hp; [right; eauto|apply bool_decide_eq_true in Hp; subst; by left..].
Qed.

Lemma contains_entry_of e x l : entry_eqb x e = true → contains_entry x l = true → contains_entry e l = true.
Proof.
  unfold contains_entry. rewrite !existsb_exists. intros He (y & Hy & Hyx). exists y. split; [done|]. by eapply entry_eqb_trans.
Qed.

(** Entries that are equal materialise to equal entries. *)
Lemma materialize_eqb ctx a b la :
  entry_eqb a b = true → materialize_context_dependent_entry a ctx = Some la →
  ∃ lb, materialize_context_dependent_entry b ctx = Some lb ∧ ∀ y, y ∈ lb → contains_entry y la = true.
Proof.
  intros He Ha. destruct (entry_eqb_cases a b He) as [<-|(u & v & Hu & Hv)].
  - exists la. split; [done|]. intros y Hy. apply existsb_exists. exists y. split; [by apply list_elem_of_In|apply entry_eqb_refl].
  - unfold materialize_context_dependent_entry, materialize_cwd_dependent_entry in *. rewrite Hu in Ha. rewrite Hv.
    injection Ha as <-. exists [b]. split; [done|]. intros y ->%list_elem_of_singleton. cbn. by rewrite He.
Qed.

Lemma materialize_has ctx l r e :
  materialize_context_dependent_entries l ctx = Some r → e ∈ l →
  ∃ le, materialize_context_dependent_entry e ctx = Some le ∧ le ⊆ r.
Proof.
  revert r. induction l as [|x l IH]; intros r Hr Hin; [by apply not_elem_of_nil in Hin|]. cbn in Hr.
  apply bind_Some in Hr as (new & Hnew & (rest & Hrest & ->)%fmap_Some).
  apply elem_of_cons in Hin as [->|Hin]; [exists new; split; [done|set_solver]|].
  destruct (IH _ Hrest Hin) as (le & ? & ?). exists le. split; [done|set_solver].
Qed.

(** What covers a list covers what it materialises to, and it does materialise. *)
Lemma materialize_covered ctx l0 l r :
  (∀ e, e ∈ l0 → contains_entry e l = true) → materialize_context_dependent_entries l ctx = Some r →
  ∃ r0, materialize_context_dependent_entries l0 ctx = Some r0 ∧ ∀ y, y ∈ r0 → contains_entry y r = true.
Proof.
  intros Hc Hr. induction l0 as [|e l0 IH]; [exists []; split; [done|by intros y ?%not_elem_of_nil]|].
  destruct IH as (r0 & Er0 & Hr0); [intros x Hx; apply Hc; by right|].
  specialize (Hc e (list_elem_of_here _ _)). unfold contains_entry in Hc. apply existsb_exists in Hc as (a & Ha%list_elem_of_In & He).
  destruct (materialize_has ctx l r a Hr Ha) as (la & Ela & Hsub).
  destruct (materialize_eqb ctx a e la He Ela) as (le & Ele & Hle). exists (le ++ r0). cbn. rewrite Ele, Er0. cbn. split; [done|].
  intros y [Hy|Hy]%elem_of_app; [|by apply Hr0]. specialize (Hle y Hy). unfold contains_entry in *.
  apply existsb_exists in Hle as (x & Hx%list_elem_of_In & Hxy). apply existsb_exists. exists x. split; [|done].
  apply list_elem_of_In. by apply Hsub.
Qed.

Lemma normalize_entries_fold acc l r : normalize_entries acc l = Ok r → r = foldl push_missing acc l.
Proof.
  revert acc. induction l as [|e l IH]; intros acc; cbn [normalize_entries foldl]; [by intros [= ->]|].
  destruct (match entry_path e with GlobPattern _ => _ | _ => _ end); [done|]. apply IH.
Qed.

Lemma fold_covers acc l e : e ∈ l → contains_entry e (foldl push_missing acc l) = true.
Proof. intros He. destruct (push_missing_fold l acc) as (new & -> & _ & Hall). by apply Hall. Qed.

(** A materialised profile covers what its entries materialise to. *)
Lemma materialized_profile ctx (q q' : AdditionalPermissionProfile) :
  materialize_additional_permissions_with_context display q ctx = Ok q' →
  (network_granted (ap_network q) = true → network_granted (ap_network q') = true) ∧
  ∀ f, ap_file_system q = Some f → ∃ r, materialize_context_dependent_entries (fp_entries f) ctx = Some r ∧
    ∀ y, y ∈ r → contains_entry y (default [] (fp_entries <$> ap_file_system q')) = true.
Proof.
  unfold materialize_additional_permissions_with_context, normalize_additional_permissions_with_context, normalize_additional_permissions.
  destruct q as [n [f|]]; cbn [ap_file_system ap_network].
  - destruct (materialize_context_dependent_entries (fp_entries f) ctx) as [r|] eqn:Er; [|done]. cbn [res_bind ap_file_system fp_entries ap_network].
    destruct (normalize_entries [] r) as [r'|] eqn:En; [|done]. cbn [res_bind]. destruct (find_map _ _); [done|]. intros [= <-].
    cbn [ap_network ap_file_system]. split; [by destruct n as [[[]|]|]|]. intros f' [= <-]. exists r. split; [done|].
    intros y Hy. pose proof (fold_covers [] r y Hy) as Hc. rewrite <- (normalize_entries_fold _ _ _ En) in Hc. cbn [opt_filter fs_is_empty].
    destruct r' as [|? ?]; [done|]. exact Hc.
  - cbn. intros [= <-]. cbn. split; [by destruct n as [[[]|]|]|done].
Qed.

Lemma same_file_system_covers fe fg e :
  same_file_system fe fg = true → contains_entry e (default [] (fp_entries <$> fe)) = true →
  contains_entry e (default [] (fp_entries <$> fg)) = true.
Proof.
  destruct fe as [fe|], fg as [fg|]; cbn [same_file_system]; [|done..]. rewrite !andb_true_iff, forallb_forall. intros [_ Hall] Hc.
  cbn [fmap option_fmap option_map default from_option id] in *. unfold id in *. unfold contains_entry in Hc.
  apply existsb_exists in Hc as (x & Hx & Hxe). eapply contains_entry_of; [exact Hxe|by apply Hall].
Qed.

(** Merging keeps what was asked for. *)
Lemma merge_keeps (base permissions merged : AdditionalPermissionProfile) f e :
  merge_permission_profiles (Some base) (Some permissions) = Some merged →
  (network_granted (ap_network base) = true → network_granted (ap_network merged) = true) ∧
  (ap_file_system base = Some f → e ∈ fp_entries f →
   ∃ f', ap_file_system merged = Some f' ∧ contains_entry e (fp_entries f') = true).
Proof.
  cbn [merge_permission_profiles opt_filter]. destruct (negb _); [|done]. intros [= <-]. cbn [ap_network ap_file_system]. split.
  - intros ->. done.
  - intros -> He. assert (contains_entry e (fp_entries f) = true) as Hc.
    { apply existsb_exists. exists e. split; [by apply list_elem_of_In|apply entry_eqb_refl]. }
    destruct (ap_file_system permissions) as [g|]; [|by exists f]. unfold merge_permission_entries.
    pose proof (fold_covers [] (fp_entries f ++ fp_entries g) e) as Hf. cbn [opt_filter fs_is_empty fp_entries].
    destruct (foldl push_missing [] (fp_entries f ++ fp_entries g)) as [|x r]; [by exfalso; lapply Hf; [|set_solver]|].
    eexists. split; [done|]. cbn [fp_entries]. apply Hf. set_solver.
Qed.

(** The directories a patch asks for, one path at a time. *)
Lemma write_paths_needed os to_abs_path normalize_system_aliases native_parent m paths dirs :
  write_paths os display to_abs_path normalize_system_aliases native_parent m paths = Ok dirs →
  ∀ dir, dir ∈ dirs → ∃ path, path ∈ paths ∧
    patch_can_write_path os display to_abs_path normalize_system_aliases m path = Ok false ∧
    patch_can_write_path os display to_abs_path normalize_system_aliases m dir = Ok false ∧
    (parent path = Some dir ∨ parent path = None ∧ (native_parent path = Some dir ∨ dir = path)).
Proof.
  revert dirs. induction paths as [|path paths IH]; intros dirs; cbn [write_paths]; [intros [= <-]; by intros ? ?%not_elem_of_nil|].
  destruct (patch_can_write_path _ _ _ _ m path) as [[]|] eqn:Ep; cbn [res_bind]; [|set (dir := match parent path with Some _ => _ | None => _ end)|done].
  { intros Hd dir Hin. destruct (IH _ Hd dir Hin) as (q & ? & ?). exists q. split; [by right|done]. }
  destruct (patch_can_write_path _ _ _ _ m dir) as [w|] eqn:Ed; [|done]. cbn [res_bind].
  destruct (write_paths _ _ _ _ _ m paths) as [rest|]; [|done]. cbn [res_bind]. specialize (IH _ eq_refl).
  intros [= <-] d Hd. assert (d ∈ rest ∨ w = false ∧ d = dir) as [Hr|[-> ->]].
  { destruct w; [by left|]. apply elem_of_cons in Hd as [?|?]; auto. }
  { destruct (IH d Hr) as (q & ? & ?). exists q. split; [by right|done]. }
  exists path. split_and!; [by left|done..|]. unfold dir. destruct (parent path); [by left|]. right. split; [done|].
  destruct (pm_sandbox_route m); cbn; [by right|]. destruct (native_parent path); [by left|by right].
Qed.

(** Normalising a request to write directories leaves such a request. *)
Lemma asked_entries (dirs : list Url) m asked :
  match match pm_sandbox_route m with
        | Platform _ => normalize_additional_permissions (mkAdditional None (Some (from_read_write_path_uris (Some []) (Some dirs))))
        | ExecutorManaged =>
            normalize_additional_permissions_with_context display
              (mkAdditional None (Some (from_read_write_path_uris (Some []) (Some dirs)))) (pm_context m)
        end with
  | Ok permissions => Some permissions
  | Err _ => None
  end = Some asked →
  ap_network asked = None ∧
  ∀ f e, ap_file_system asked = Some f → e ∈ fp_entries f → ∃ dir, dir ∈ dirs ∧ e = entry_new (PathEntry dir) Write.
Proof.
  intros Ha.
  assert (normalize_additional_permissions (mkAdditional None (Some (from_read_write_path_uris (Some []) (Some dirs)))) = Ok asked) as Hn.
  { unfold normalize_additional_permissions_with_context in Ha. destruct (normalize_additional_permissions _) as [q|].
    - cbn [res_bind] in Ha. destruct (pm_sandbox_route m); [|congruence]. destruct (find_map _ _); congruence.
    - by destruct (pm_sandbox_route m). }
  revert Hn. clear Ha. unfold normalize_additional_permissions. cbn [ap_network ap_file_system opt_filter].
  destruct (normalize_entries [] _) as [r|] eqn:En; [|done]. cbn [res_bind]. intros [= <-]. split; [done|]. intros f e.
  cbn [ap_file_system opt_filter]. destruct (negb _); [|done]. intros [= <-]. cbn [fp_entries]. rewrite (normalize_entries_fold _ _ _ En).
  intros He. match type of He with _ ∈ foldl push_missing [] ?es => destruct (push_missing_fold es []) as (new & Eq & Hs & _) end.
  rewrite Eq in He. apply Hs in He. cbn in He. apply list_elem_of_fmap in He as (dir & -> & Hd). by exists dir.
Qed.
End Granting.

(** * Claims *)

(** C22: A patch that runs without anyone's approval stays where the policy allows writing:
    every path it touches is writable, it is the first attempt, it asks for the sandbox its
    permissions need, such a sandbox exists (or the profile has none of its own), and unless
    the policy allows the whole disk it has no permissions beyond those granted before. *)
Theorem unapproved_patch_confined `{!UrlCodec, !GlobEngine} (os : TargetOs) (display : Url → str)
    (to_abs_path normalize_system_aliases : Url → result str Url) (native_parent : Url → option Url) {Out}
    (granted : option AdditionalPermissionProfile) (env : TurnEnvironment) (turn : Turn) (action : PatchAction)
    (t pre post : list (observed (event Out))) o a r :
  execution (execute_verified_patch os display to_abs_path normalize_system_aliases native_parent granted env turn action) t o →
  t = pre ++ Called (RunTool a) r :: post →
  approved pre ∨
  runs pre = [] ∧ turn_strict_auto_review turn = false ∧
  at_sandbox_requested a = should_sandbox os (at_permissions a) Auto (at_enforce_managed_network a) ∧
  (unmanaged (env_permission_profile env) ∨ sandbox_available os (sandbox_route_for env) = true) ∧
  ∃ m req, patch_matcher os display to_abs_path normalize_system_aliases granted env action = Ok m ∧
    confined os display to_abs_path normalize_system_aliases m action ∧
    patch_request os display to_abs_path normalize_system_aliases native_parent granted env (turn_approval_policy turn) action = Ok req ∧
    (has_full_disk_write_access_with_context (pm_context m) (pm_configured_policy m) = false → req_additional_permissions req = granted).
Proof.
  intros Hx Et. unfold execute_verified_patch in Hx.
  destruct (patch_request _ _ _ _ _ _ _ _ _) as [req|err] eqn:Er; [|inversion Hx; subst; by destruct pre].
  destruct (request_inv _ _ _ _ _ _ _ _ _ _ Er) as (m & check & Em & Ec & _ & _ & Hreq & Hgr).
  assert (run_facts os (patch_tool env req) env turn pre a) as Hf.
  { assert (always (on_run (run_facts os (patch_tool env req) env turn)) (λ _ _, True) []
              (let! r := run (Out := Out) os (patch_tool env req) env turn in Ret (E := event Out) (Ok (E := str) r))) as Ha
      by (eapply always_bind; [apply run_always|done]).
    destruct (always_sound _ _ [] _ _ _ Ha Hx) as [_ Hc]. exact (Hc pre _ post Et). }
  apply unapproved_run in Hf as [?|(Hs & Hstrict & Hruns & Hsb)]; [by left| |destruct check; eauto; done].
  right. destruct check; [|congruence|done]. apply auto_approval_exact in Ec as (_ & _ & Hcon & Hav).
  rewrite (route_of_matcher _ _ _ _ _ _ _ _ Em) in Hav. split_and!; [done..|]. exists m, req. split_and!; [done..|].
  intros Hfd. apply Hgr. destruct Hcon as [?|?]; [congruence|done].
Qed.

(** ** Samples *)

#[local] Instance no_globs_here : GlobEngine :=
  {| GlobMatcher := unit; glob_build := λ _ _ _, Ok tt; glob_is_match := λ _ _, false |}.

(** A patch that moves a file of the workspace, in a turn that asks on request. *)
Definition sample_action : PatchAction :=
  mkPatchAction [(uri_of [lit "w"; lit "a"], FileUpdate [] (Some (uri_of [lit "w"; lit "src"; lit "b"])) [])] [] (uri_of [lit "w"]).
Definition asking_turn : Turn := mkTurn OnRequest false None false None None.

Definition sample_patch : io (event unit) (result str (result ToolError (OrchestratorRunResult (Out := unit)))) :=
  execute_verified_patch LinuxTarget (λ _, []) (λ _, Err []) (λ _, Err []) (λ _, None) None (sample_env false) asking_turn sample_action.

Definition asks_user (c : observed (event unit)) : bool :=
  match c with Called e _ => match e with RequestApproval _ => true | _ => false end end.

Lemma approved_asks h : approved h → existsb asks_user h = true.
Proof. intros [c Hc]. apply existsb_exists. exists (Called (RequestApproval c) (Ok tt)). split; [by apply list_elem_of_In|done]. Qed.

Lemma unapproved_patch_confined_witness :
  ∃ m, patch_matcher LinuxTarget (λ _, []) (λ _, Err []) (λ _, Err []) None (sample_env false) sample_action = Ok m ∧
    confined LinuxTarget (λ _, []) (λ _, Err []) (λ _, Err []) m sample_action.
Proof.
  pose (t := (interp sample_answer [] sample_patch).1).
  pose (a := match runs t with (a, _) :: _ => a | [] => make_attempt (sample_tool (NeedsApproval None None) UseDefault) (sample_env false)
       sample_turn NoOverride SandboxNone true (sample_profile false) (sample_profile false) None end).
  assert (t = take 1 t ++ Called (RunTool a) (Err (Codex (SandboxDenied [] None))) :: drop 2 t) as Et by (by vm_compute).
  destruct (unapproved_patch_confined LinuxTarget (λ _, []) (λ _, Err []) (λ _, Err []) (λ _, None) None (sample_env false) asking_turn
    sample_action t (take 1 t) (drop 2 t) _ a _ (interp_execution sample_answer [] sample_patch) Et)
    as [Hno|(_ & _ & _ & _ & m & req & Hm & Hc & _)]; [|by exists m].
  exfalso. apply approved_asks in Hno. by vm_compute in Hno.
Defined.

(** Permissions count as approved already only when they are the grant itself: a request
    that is preapproved runs with exactly the stored grant, and everything it asks for, seen
    from the turn's context, is in the grant, network access included. *)
Theorem preapproved_within_grant `{!UrlCodec, !GlobEngine} (display : Url → str) (granted : option AdditionalPermissionProfile)
    (ctx : PolicyContext) (permissions : SandboxPermissions) (additional : AdditionalPermissionProfile) :
  eff_permissions_preapproved (apply_granted_turn_permissions display granted ctx permissions (Some additional)) = true →
  ∃ g g', granted = Some g ∧
    eff_additional_permissions (apply_granted_turn_permissions display granted ctx permissions (Some additional)) = Some g ∧
    materialize_additional_permissions_with_context display g ctx = Ok g' ∧
    (network_granted (ap_network additional) = true → network_granted (ap_network g') = true) ∧
    ∀ f, ap_file_system additional = Some f →
      ∃ r, materialize_context_dependent_entries (fp_entries f) ctx = Some r ∧
           ∀ e, e ∈ r → contains_entry e (default [] (fp_entries <$> ap_file_system g')) = true.
Proof.
  unfold apply_granted_turn_permissions. case_bool_decide; [done|]. cbn [eff_permissions_preapproved eff_additional_permissions].
  destruct granted as [g|]; [|done]. cbn [mbind option_bind].
  destruct (merge_permission_profiles (Some additional) (Some g)) as [merged|] eqn:Em; [|done]. cbn [mbind option_bind].
  unfold preapproved_permission_profile. destruct (match ap_file_system merged with Some _ => _ | None => _ end); [done|].
  destruct (materialize_additional_permissions_with_context display merged ctx) as [eff|] eqn:Ee; [|done].
  destruct (materialize_additional_permissions_with_context display g ctx) as [g'|] eqn:Eg; [|done].
  destruct (bool_decide (ap_network eff = ap_network g')) eqn:Hn; cbn [negb]; [apply bool_decide_eq_true in Hn|done].
  destruct (same_file_system _ _) eqn:Hs; [|done]. intros _. exists g, g'.
  destruct (materialized_profile display ctx merged eff Ee) as [Hnet Hfs]. split_and!; [done..| |].
  - intros Hadd. rewrite <- Hn. apply Hnet. by eapply (merge_keeps additional g merged (mkFsPermissions [] None) (entry_new (Special Root) Read)).
  - intros f Hf. destruct (fp_entries f) as [|e0 l0] eqn:El; [exists []; split; [done|by intros e ?%not_elem_of_nil]|].
    destruct (proj2 (merge_keeps additional g merged f e0 Em) Hf) as (f' & Hf' & _); [rewrite El; by left|].
    destruct (Hfs f' Hf') as (r' & Er' & Hr'). destruct (materialize_covered ctx (fp_entries f) (fp_entries f') r') as (r & Er & Hr); [|done|].
    { intros e He. destruct (proj2 (merge_keeps additional g merged f e Em) Hf He) as (f'' & Hf'' & Hc). congruence. }
    exists r. rewrite <- El. split; [done|]. intros e He. eapply same_file_system_covers; [exact Hs|].
    specialize (Hr e He). apply existsb_exists in Hr as (x & Hx%list_elem_of_In & Hxe).
    eapply contains_entry_of; [exact Hxe|]. by apply Hr'.
Qed.

Lemma preapproved_within_grant_witness :
  contains_entry (grant [lit "w"; lit "a"])
    (default [] (fp_entries <$> Some (mkFsPermissions [grant [lit "w"; lit "a"]; grant [lit "etc"]] None))) = true.
Proof.
  assert (eff_permissions_preapproved (apply_granted_turn_permissions (λ _, []) (Some (permissions_of [grant [lit "w"; lit "a"]; grant [lit "etc"]]))
    sample_context UseDefault (Some (permissions_of [grant [lit "w"; lit "a"]]))) = true) as Hpre by (by vm_compute).
  destruct (preapproved_within_grant (λ _, []) (Some (permissions_of [grant [lit "w"; lit "a"]; grant [lit "etc"]])) sample_context UseDefault
    (permissions_of [grant [lit "w"; lit "a"]]) Hpre) as (g & g' & [= <-] & _ & Hg & _ & Hall).
  vm_compute in Hg. injection Hg as <-. destruct (Hall _ eq_refl) as (r & Hr & Hin). vm_compute in Hr. injection Hr as <-.
  apply Hin. by left.
Defined.

(** What a patch asks to write is no more than it needs: each directory asked for is the
    directory of a path of the patch that is not writable, or the path itself where it has
    none, it is not writable either, and nothing else (no read, no network) is asked for. *)
Theorem patch_asks_only_needed `{!UrlCodec, !GlobEngine} (os : TargetOs) (display : Url → str)
    (to_abs_path normalize_system_aliases : Url → result str Url) (native_parent : Url → option Url)
    (paths : list Url) (m : PatchPolicyMatcher) (asked : AdditionalPermissionProfile) :
  write_permissions_for_paths os display to_abs_path normalize_system_aliases native_parent paths m = Ok (Some asked) →
  ap_network asked = None ∧
  ∀ f e, ap_file_system asked = Some f → e ∈ fp_entries f →
    ∃ path dir, e = entry_new (PathEntry dir) Write ∧ path ∈ paths ∧
      patch_can_write_path os display to_abs_path normalize_system_aliases m path = Ok false ∧
      patch_can_write_path os display to_abs_path normalize_system_aliases m dir = Ok false ∧
      (parent path = Some dir ∨ parent path = None ∧ (native_parent path = Some dir ∨ dir = path)).
Proof.
  unfold write_permissions_for_paths. destruct (write_paths _ _ _ _ _ m paths) as [dirs|] eqn:Ew; [|done]. cbn [res_bind].
  pose proof (dedup_by_incl uri_eqb (sort_by_key display dirs)) as Hsub.
  destruct (dedup_by uri_eqb (sort_by_key display dirs)) as [|d0 ds]; [done|]. set (l := d0 :: ds) in *. intros [= Ha].
  destruct (asked_entries display l m asked Ha) as [Hnet Hent].
  split; [done|]. intros f e Hf He. destruct (Hent f e Hf He) as (dir & Hd & ->).
  assert (dir ∈ dirs) as Hin by (apply (elem_of_sort_by_key display); by apply Hsub).
  destruct (write_paths_needed _ _ _ _ _ m paths dirs Ew dir Hin) as (path & ? & ? & ? & ?). by exists path, dir.
Qed.

Lemma patch_asks_only_needed_witness :
  write_permissions_for_paths LinuxTarget (λ _, []) (λ _, Err []) (λ _, Err []) (λ _, None) [uri_of [lit "etc"; lit "x"]]
    (mkPatchMatcher (restricted [grant [lit "w"]]) sample_context ExecutorManaged None)
  = Ok (Some (mkAdditional None (Some (mkFsPermissions [grant [lit "etc"]] None)))) ∧
  ∃ path, parent path = Some (uri_of [lit "etc"]) ∧ path ∈ [uri_of [lit "etc"; lit "x"]].
Proof.
  assert (write_permissions_for_paths LinuxTarget (λ _, []) (λ _, Err []) (λ _, Err []) (λ _, None) [uri_of [lit "etc"; lit "x"]]
    (mkPatchMatcher (restricted [grant [lit "w"]]) sample_context ExecutorManaged None)
    = Ok (Some (mkAdditional None (Some (mkFsPermissions [grant [lit "etc"]] None))))) as E by (by vm_compute).
  split; [exact E|]. destruct (proj2 (patch_asks_only_needed _ _ _ _ _ _ _ _ E) _ _ eq_refl (list_elem_of_here _ _))
    as (path & dir & He & Hin & _ & _ & Hp). unfold grant in He. injection He as <-. exists path. split; [|done].
  destruct Hp as [?|[Hn _]]; [done|]. apply list_elem_of_singleton in Hin as ->. by vm_compute in Hn.
Defined.
