(* ===== verification/PatchProgress.v ===== *)
(** The progress events of a patch that is being streamed
    (core/src/tools/handlers/apply_patch.rs): each piece of the patch goes to the streaming
    parser, and the changes recognised so far are sent, at most one event per interval.

    Times are milliseconds of a clock; the paths of a change are the text of the patch. *)
From S2P Require Import Prelude Str PatchParser.

(** [FileChange], keyed by the path as the patch has it. *)
Inductive FileChange :=
| ChangeAdded (content : str)
| ChangeDeleted (content : str)
| ChangeUpdated (unified_diff : str) (move_path : option str).

Record PatchApplyUpdatedEvent := mkUpdated { event_call_id : str; event_changes : gmap str FileChange }.

Record ApplyPatchArgumentDiffConsumer := mkConsumer {
  consumer_parser : StreamingPatchParser;
  last_sent_at : option N;
  pending : option PatchApplyUpdatedEvent
}.

Definition consumer_default : ApplyPatchArgumentDiffConsumer := mkConsumer parser_default None None.

Definition APPLY_PATCH_ARGUMENT_DIFF_BUFFER_INTERVAL : N := 500.

Definition progress_line (mark : str) (line : str) : str := mark ++ line ++ [LF].

Definition format_chunk (c : UpdateFileChunk) : str :=
  match change_context c with
  | Some context => lit "@@ " ++ context ++ [LF]
  | None => lit "@@" ++ [LF]
  end
  ++ (old_lines c ≫= progress_line (lit "-"))
  ++ (new_lines c ≫= progress_line (lit "+"))
  ++ (if is_end_of_file c then lit "*** End of File" ++ [LF] else []).
Definition format_update_chunks_for_progress (chunks : list UpdateFileChunk) : str := chunks ≫= format_chunk.

Definition hunk_source_path (h : Hunk) : str :=
  match h with AddFile path _ => path | DeleteFile path => path | UpdateFile path _ _ => path end.

Definition progress_change (h : Hunk) : FileChange :=
  match h with
  | AddFile _ contents => ChangeAdded contents
  | DeleteFile _ => ChangeDeleted []
  | UpdateFile _ move_path chunks => ChangeUpdated (format_update_chunks_for_progress chunks) move_path
  end.

(** [collect]: a later hunk of the same path replaces an earlier one. *)
Definition convert_apply_patch_hunks_to_protocol (hunks : list Hunk) : gmap str FileChange :=
  foldl (λ m h, <[hunk_source_path h:=progress_change h]> m) ∅ hunks.

Definition consumer_push_delta (call_id delta : str) (now : N) (c : ApplyPatchArgumentDiffConsumer)
    : ApplyPatchArgumentDiffConsumer * option PatchApplyUpdatedEvent :=
  let '(parser, r) := push_delta delta (consumer_parser c) in
  let c := mkConsumer parser (last_sent_at c) (pending c) in
  match r with
  | Err _ => (c, None)
  | Ok [] => (c, None)
  | Ok hunks =>
      let event := mkUpdated call_id (convert_apply_patch_hunks_to_protocol hunks) in
      if match last_sent_at c with
         | Some last => N.ltb (now - last) APPLY_PATCH_ARGUMENT_DIFF_BUFFER_INTERVAL
         | None => false
         end
      then (mkConsumer parser (last_sent_at c) (Some event), None)
      else (mkConsumer parser (Some now) None, Some event)
  end.

Definition finish_update_on_complete (now : N) (c : ApplyPatchArgumentDiffConsumer)
    : ApplyPatchArgumentDiffConsumer * result ParseError (option PatchApplyUpdatedEvent) :=
  let '(parser, r) := finish (consumer_parser c) in
  match r with
  | Err err => (mkConsumer parser (last_sent_at c) (pending c), Err err)
  | Ok _ =>
      let event := pending c in
      (mkConsumer parser (if event is Some _ then Some now else last_sent_at c) None, Ok event)
  end.

(** [consume_diff], with the feature flag. *)
Definition consume_diff (streaming_events : bool) (call_id diff : str) (now : N) (c : ApplyPatchArgumentDiffConsumer)
    : ApplyPatchArgumentDiffConsumer * option PatchApplyUpdatedEvent :=
  if negb streaming_events then (c, None) else consumer_push_delta call_id diff now c.

Definition option_list {A} (o : option A) : list A := match o with Some a => [a] | None => [] end.

(** * A streamed call *)

Section Stream.
Context (call_id : str).
Implicit Types (c : ApplyPatchArgumentDiffConsumer) (pieces : list (str * N)).

(** The consumer after the pieces of a patch, each with its time, and the events it sent. *)
Fixpoint stream pieces c : ApplyPatchArgumentDiffConsumer * list (N * PatchApplyUpdatedEvent) :=
  match pieces with
  | [] => (c, [])
  | (delta, now) :: pieces =>
      let '(c, sent) := consume_diff true call_id delta now c in
      let '(c, rest) := stream pieces c in
      (c, match sent with Some e => (now, e) :: rest | None => rest end)
  end.

(** What the parser had recognised when it last accepted a piece with any change. *)
Fixpoint recognised pieces (p : StreamingPatchParser) (latest : list Hunk) : list Hunk :=
  match pieces with
  | [] => latest
  | (delta, _) :: pieces =>
      let '(p, r) := push_delta delta p in
      recognised pieces p match r with Ok [] | Err _ => latest | Ok hunks => hunks end
  end.

Definition event_of (hunks : list Hunk) : PatchApplyUpdatedEvent :=
  mkUpdated call_id (convert_apply_patch_hunks_to_protocol hunks).

(** The event not yet shown, or else the last one that was. *)
Definition shown (before : option PatchApplyUpdatedEvent) (sent : list (N * PatchApplyUpdatedEvent)) c : option PatchApplyUpdatedEvent :=
  match pending c with Some e => Some e | None => match last sent with Some (_, e) => Some e | None => before end end.

Definition event_for (hunks : list Hunk) : option PatchApplyUpdatedEvent :=
  match hunks with [] => None | _ => Some (event_of hunks) end.

Definition or_sent (before : option PatchApplyUpdatedEvent) (e : option PatchApplyUpdatedEvent) : option PatchApplyUpdatedEvent :=
  match e with Some e => Some e | None => before end.

(** One piece: what is shown or pending follows what is recognised. *)
Lemma piece_shows delta now c before latest :
  shown before [] c = event_for latest →
  let '(c', sent) := consume_diff true call_id delta now c in
  consumer_parser c' = (push_delta delta (consumer_parser c)).1 ∧
  shown (or_sent before sent) [] c' =
    event_for match (push_delta delta (consumer_parser c)).2 with Ok [] | Err _ => latest | Ok hunks => hunks end.
Proof.
  intros Hs. unfold consume_diff, consumer_push_delta. cbn [negb]. destruct (push_delta delta (consumer_parser c)) as [p [[|h hs]|err]]; [done| |done].
  destruct (match last_sent_at _ with Some _ => _ | None => _ end); done.
Qed.

Lemma shown_cons before x sent c : shown before (x :: sent) c = shown (Some x.2) sent c.
Proof. unfold shown. destruct (pending c); [done|]. destruct x. rewrite last_cons. by destruct (last sent) as [[]|]. Qed.

Lemma stream_shows pieces c before latest :
  shown before [] c = event_for latest →
  let '(c', sent) := stream pieces c in
  shown before sent c' = event_for (recognised pieces (consumer_parser c) latest).
Proof.
  revert c before latest. induction pieces as [|[delta now] pieces IH]; intros c before latest Hs; cbn [stream recognised]; [done|].
  pose proof (piece_shows delta now c before latest Hs) as Hp. destruct (consume_diff true call_id delta now c) as [c1 sent]. destruct Hp as [Ep Hp].
  specialize (IH c1 (or_sent before sent) _ Hp). destruct (stream pieces c1) as [c' rest]. rewrite Ep in IH.
  destruct (push_delta delta (consumer_parser c)) as [p r]. cbn [fst snd] in IH. rewrite <- IH. destruct sent as [e|]; [apply shown_cons|done].
Qed.

(** The last event was sent at [last_sent_at], and the next one waits. *)
Lemma stream_waits pieces c :
  ∀ t e rest c', stream pieces c = (c', (t, e) :: rest) → ∀ last, last_sent_at c = Some last →
  (last + APPLY_PATCH_ARGUMENT_DIFF_BUFFER_INTERVAL <= t)%N.
Proof.
  revert c. induction pieces as [|[delta now] pieces IH]; intros c t e rest c'; cbn [stream]; [done|].
  unfold consume_diff, consumer_push_delta. cbn [negb].
  destruct (push_delta delta (consumer_parser c)) as [p [[|h hs]|err]]; cbn [last_sent_at].
  1, 3: destruct (stream pieces _) as [c1 r] eqn:E; intros [= -> ->]; intros last Hl; by eapply (IH _ _ _ _ _ E).
  destruct (match last_sent_at c with Some _ => _ | None => _ end) eqn:Ew; destruct (stream pieces _) as [c1 r] eqn:E; intros Eq last Hl; inversion Eq; subst.
  - by eapply (IH _ _ _ _ _ E).
  - rewrite Hl in Ew. unfold APPLY_PATCH_ARGUMENT_DIFF_BUFFER_INTERVAL in *. apply N.ltb_ge in Ew. lia.
Qed.

Lemma stream_spaced pieces c c' sent i t1 e1 t2 e2 :
  stream pieces c = (c', sent) → sent !! i = Some (t1, e1) → sent !! S i = Some (t2, e2) →
  (t1 + APPLY_PATCH_ARGUMENT_DIFF_BUFFER_INTERVAL <= t2)%N.
Proof.
  revert c sent i. induction pieces as [|[delta now] pieces IH]; intros c sent i; cbn [stream]; [by intros [= _ <-]|].
  destruct (consume_diff true call_id delta now c) as [c1 s] eqn:Ec. destruct (stream pieces c1) as [c2 rest] eqn:Es. intros [= -> <-].
  destruct s as [e|]; [|exact (IH c1 rest i Es)]. destruct i as [|i]; [|exact (IH c1 rest i Es)]. cbn [lookup list_lookup]. intros [= <- <-] H2.
  destruct rest as [|[t e'] rest]; [done|]. injection H2 as <- <-. eapply (stream_waits pieces c1); [exact Es|].
  unfold consume_diff, consumer_push_delta in Ec. cbn [negb] in Ec. destruct (push_delta delta (consumer_parser c)) as [p [[|? ?]|]]; try discriminate Ec.
  destruct (match last_sent_at _ with Some _ => _ | None => _ end) in Ec; [discriminate Ec|]. by injection Ec as <- _.
Qed.
End Stream.

(** While a patch is streamed, the events never fall behind for good: when the call
    completes, the last event sent shows exactly the changes the parser had recognised when
    it last accepted a piece, although events are held back; and two events of the stream
    are at least the interval apart. *)
Theorem progress_complete (call_id : str) (pieces : list (str * N)) (now : N)
    (c c' : ApplyPatchArgumentDiffConsumer) (sent : list (N * PatchApplyUpdatedEvent)) (e : option PatchApplyUpdatedEvent) :
  stream call_id pieces consumer_default = (c, sent) → finish_update_on_complete now c = (c', Ok e) →
  last (sent.*2 ++ option_list e) = event_for call_id (recognised pieces parser_default []) ∧ pending c' = None ∧
  ∀ i t1 e1 t2 e2, sent !! i = Some (t1, e1) → sent !! S i = Some (t2, e2) →
    (t1 + APPLY_PATCH_ARGUMENT_DIFF_BUFFER_INTERVAL <= t2)%N.
Proof.
  intros Hs Hf. pose proof (stream_shows call_id pieces consumer_default None [] eq_refl) as Hshow. rewrite Hs in Hshow.
  change (consumer_parser consumer_default) with parser_default in Hshow.
  unfold finish_update_on_complete in Hf. destruct (finish (consumer_parser c)) as [p [hs|err]]; [|done]. injection Hf as <- <-.
  split_and!; [|done|intros; by eapply stream_spaced]. rewrite <- Hshow. unfold shown. destruct (pending c) as [e|]; cbn [option_list].
  - by rewrite last_snoc.
  - rewrite app_nil_r, fmap_last. by destruct (last sent) as [[]|].
Qed.

(** A patch in three pieces; the second event waits for the end. *)
Definition sample_pieces : list (str * N) :=
  [(lit "*** Begin Patch" ++ [LF] ++ lit "*** Delete File: a" ++ [LF], 0%N);
   (lit "*** Add File: b" ++ [LF] ++ lit "+x" ++ [LF], 100%N); (lit "*** End Patch", 200%N)].

Lemma progress_complete_witness :
  ∃ e, (finish_update_on_complete 300 (stream (lit "call") sample_pieces consumer_default).1).2 = Ok (Some e) ∧
    Some e = event_for (lit "call") (recognised sample_pieces parser_default []) ∧
    event_changes e = <[lit "b":=ChangeAdded (lit "x" ++ [LF])]> {[lit "a":=ChangeDeleted []]}.
Proof.
  pose (c := (stream (lit "call") sample_pieces consumer_default).1).
  pose (sent := (stream (lit "call") sample_pieces consumer_default).2).
  assert (∃ e, (finish_update_on_complete 300 c).2 = Ok (Some e)) as [e He] by (eexists; by vm_compute).
  exists e. split; [exact He|].
  destruct (progress_complete (lit "call") sample_pieces 300 c (finish_update_on_complete 300 c).1 sent (Some e)) as [Hl _];
    [by unfold c, sent; rewrite <- surjective_pairing|by rewrite <- He, <- surjective_pairing|].
  cbn [option_list] in Hl. rewrite last_snoc in Hl. split; [exact Hl|].
  assert (event_for (lit "call") (recognised sample_pieces parser_default []) =
          Some (mkUpdated (lit "call") (<[lit "b":=ChangeAdded (lit "x" ++ [LF])]> {[lit "a":=ChangeDeleted []]}))) as Hev by (by vm_compute).
  rewrite Hev in Hl. by injection Hl as ->.
Defined.
