(* ===== verification/ShellEnv.v ===== *)
(** The environment of the processes that run for the model (protocol/src/shell_environment.rs):
    [create_env] builds it from the process environment and the shell environment policy.

    A [HashMap<String, String>] is a [gmap str str]; one that the code iterates over (the
    [set] of the policy) is the list of its entries in that order. The target is the section
    variable [windows]. Parameter: the wildcard patterns of the wildmatch crate. *)
From S2P Require Import Prelude Str.

Notation Env := (gmap str str).

(** * Names *)

Definition CODEX_THREAD_ID_ENV_VAR : str := lit "CODEX_THREAD_ID".
Definition CODEX_TOOL_CALL_ID_ENV_VAR : str := lit "CODEX_TOOL_CALL_ID".

Definition NON_INHERITABLE_ENV_VARS : list str :=
  [lit "CODEX_EXEC_SERVER_NOISE_AUTH_TOKEN";
   lit "NODE_REPL_AUTH_TOKEN";
   lit "CODEX_GUARDIAN_DECISIONS_API_KEY";
   lit "OPENAI_FEDERATION_RULE_ID";
   lit "OPENAI_IDENTITY_TOKEN_FILE";
   lit "OPENAI_WORKLOAD_IDENTITY_CONTEXT"].

Definition is_non_inheritable_env_var (name : str) : bool :=
  existsb (λ restricted, eq_ignore_ascii_case restricted name) NON_INHERITABLE_ENV_VARS.

Definition UNIX_CORE_ENV_VARS : list str :=
  [lit "PATH"; lit "SHELL"; lit "TMPDIR"; lit "TEMP"; lit "TMP"; lit "HOME"; lit "LANG"; lit "LC_ALL";
   lit "LC_CTYPE"; lit "LOGNAME"; lit "USER"].

Definition WINDOWS_CORE_ENV_VARS : list str :=
  [lit "PATH"; lit "PATHEXT"; lit "SHELL"; lit "COMSPEC"; lit "SYSTEMROOT"; lit "WINDIR"; lit "SYSTEMDRIVE";
   lit "USERNAME"; lit "USERDOMAIN"; lit "USERPROFILE"; lit "HOMEDRIVE"; lit "HOMEPATH";
   lit "PROGRAMFILES"; lit "PROGRAMFILES(X86)"; lit "PROGRAMW6432"; lit "PROGRAMDATA";
   lit "LOCALAPPDATA"; lit "APPDATA"; lit "TEMP"; lit "TMP"; lit "TMPDIR"; lit "POWERSHELL"; lit "PWSH"].

(** * The policy *)

(** [WildMatchPattern<'*', '?'>] *)
Class WildMatch := {
  EnvironmentVariablePattern : Type;
  new_case_insensitive : str → EnvironmentVariablePattern;
  pattern_matches : EnvironmentVariablePattern → str → bool
}.

Inductive ShellEnvironmentPolicyInherit := InheritCore | InheritAll | InheritNone.

Record ShellEnvironmentPolicy `{WildMatch} := mkShellEnvironmentPolicy {
  inherit : ShellEnvironmentPolicyInherit;
  ignore_default_excludes : bool;
  exclude : list EnvironmentVariablePattern;
  set : list (str * str);
  include_only : list EnvironmentVariablePattern;
  use_profile : bool
}.

(** [HashMap::retain] on the keys *)
Definition retain (p : str → bool) (m : Env) : Env := filter (λ kv, p kv.1 = true) m.

Definition collect (l : list (str * str)) : Env := foldl (λ m kv, <[kv.1 := kv.2]> m) ∅ l.

Section env.
Context `{WildMatch}.
Variable windows : bool.

Definition core_env_vars : list str := if windows then WINDOWS_CORE_ENV_VARS else UNIX_CORE_ENV_VARS.

Definition is_core (name : str) : bool :=
  existsb (λ allowed, eq_ignore_ascii_case allowed name) core_env_vars.

Definition matches_any (name : str) (patterns : list EnvironmentVariablePattern) : bool :=
  existsb (λ p, pattern_matches p name) patterns.

Definition default_excludes : list EnvironmentVariablePattern :=
  [new_case_insensitive (lit "*KEY*"); new_case_insensitive (lit "*SECRET*"); new_case_insensitive (lit "*TOKEN*")].

Definition initial_env (vars : list (str * str)) (i : ShellEnvironmentPolicyInherit) : Env :=
  match i with
  | InheritAll => collect vars
  | InheritNone => ∅
  | InheritCore => collect (List.filter (λ kv, is_core kv.1) vars)
  end.

Definition apply_override (m : Env) (kv : str * str) : Env :=
  let m := if windows then retain (λ existing, negb (eq_ignore_ascii_case existing kv.1)) m else m in
  <[kv.1 := kv.2]> m.

Definition populate_env (vars : list (str * str)) (policy : ShellEnvironmentPolicy) (thread_id : option str) : Env :=
  let env_map := initial_env vars (inherit policy) in
  let env_map :=
    if ignore_default_excludes policy then env_map
    else retain (λ k, negb (matches_any k default_excludes)) env_map in
  let env_map :=
    match exclude policy with
    | [] => env_map
    | _ => retain (λ k, negb (matches_any k (exclude policy))) env_map
    end in
  let env_map := foldl apply_override env_map (set policy) in
  let env_map :=
    match include_only policy with
    | [] => env_map
    | _ => retain (λ k, matches_any k (include_only policy)) env_map
    end in
  let env_map :=
    match thread_id with
    | Some thread_id => <[CODEX_THREAD_ID_ENV_VAR := thread_id]> env_map
    | None => env_map
    end in
  retain (λ name, negb (is_non_inheritable_env_var name)) env_map.

Definition create_env_from_vars (vars : list (str * str)) (policy : ShellEnvironmentPolicy) (thread_id : option str) : Env :=
  let env_map := populate_env vars policy thread_id in
  if windows && negb (existsb (λ kv, eq_ignore_ascii_case kv.1 (lit "PATHEXT")) (map_to_list env_map))
  then <[lit "PATHEXT" := lit ".COM;.EXE;.BAT;.CMD"]> env_map
  else env_map.

(** The identifier of the running call, for the tools that ask for it. *)
Definition set_tool_call_id_env_var (env : Env) (tool_call_id : option str) : Env :=
  let env :=
    if windows then retain (λ name, negb (eq_ignore_ascii_case name CODEX_TOOL_CALL_ID_ENV_VAR)) env
    else delete CODEX_TOOL_CALL_ID_ENV_VAR env in
  match tool_call_id with
  | Some id => if existsb (N.eqb 0) id then env else <[CODEX_TOOL_CALL_ID_ENV_VAR := id]> env
  | None => env
  end.

(** * Commands *)

(** What [std::process::Command] keeps of the environment: a value or a removal per name
    ([env], [env_remove]); the other names are inherited when it runs. *)
Notation CommandEnv := (gmap str (option str)).

Definition env_remove (c : CommandEnv) (name : str) : CommandEnv := <[name := None]> c.

Definition spawned_env (process : Env) (c : CommandEnv) : Env :=
  merge (λ own inherited, match own with Some v => v | None => inherited end) c process.

Definition scrub_non_inheritable_env_vars (process : Env) (c : CommandEnv) : CommandEnv :=
  let configured_names := (map_to_list c).*1 in
  let c := foldl env_remove c NON_INHERITABLE_ENV_VARS in
  foldl (λ c name, if is_non_inheritable_env_var name then env_remove c name else c) c
    ((map_to_list process).*1 ++ configured_names).

(** * What a name is bound to *)

(** Whether an override for [k] replaces the variable [name]. *)
Definition same_variable (name k : str) : bool := if windows then eq_ignore_ascii_case name k else name =s k.

(** The value of [name], by cases on where it comes from. *)
Definition env_value (vars : list (str * str)) (policy : ShellEnvironmentPolicy) (thread_id : option str) (name : str) : option str :=
  let inherited :=
    if (ignore_default_excludes policy || negb (matches_any name default_excludes))
       && negb (matches_any name (exclude policy))
    then initial_env vars (inherit policy) !! name else None in
  let overridden :=
    match find (λ kv, same_variable name kv.1) (rev (set policy)) with
    | Some (k, v) => if k =s name then Some v else None
    | None => inherited
    end in
  let kept := if bool_decide (include_only policy = []) || matches_any name (include_only policy) then overridden else None in
  if is_non_inheritable_env_var name then None
  else if name =s CODEX_THREAD_ID_ENV_VAR then match thread_id with Some t => Some t | None => kept end
  else kept.

End env.

(** * Lookups *)

Lemma retain_lookup p m k : retain p m !! k = if p k then m !! k else None.
Proof.
  unfold retain. rewrite map_lookup_filter. destruct (m !! k) as [v|] eqn:E; simpl; [|by destruct (p k)].
  destruct (p k) eqn:Ep; case_guard; simpl in *; congruence.
Qed.

Lemma eq_ignore_ascii_case_refl s : eq_ignore_ascii_case s s = true.
Proof. unfold eq_ignore_ascii_case. by apply bool_decide_eq_true. Qed.

Lemma eq_ignore_ascii_case_sym s t : eq_ignore_ascii_case s t = eq_ignore_ascii_case t s.
Proof. unfold eq_ignore_ascii_case. apply bool_decide_ext. split; congruence. Qed.

Lemma not_restricted_thread_id : is_non_inheritable_env_var CODEX_THREAD_ID_ENV_VAR = false.
Proof. vm_compute. reflexivity. Qed.

Section facts.
Context `{WildMatch}.
Variable windows : bool.

Lemma same_variable_refl k : same_variable windows k k = true.
Proof. unfold same_variable. destruct windows; [apply eq_ignore_ascii_case_refl|by apply bool_decide_eq_true]. Qed.

Lemma apply_override_lookup m k v name :
  apply_override windows m (k, v) !! name
  = if same_variable windows name k then (if k =s name then Some v else None) else m !! name.
Proof.
  unfold apply_override, same_variable. cbn [fst snd]. destruct (decide (k = name)) as [->|Hne].
  - rewrite lookup_insert_eq. fold (same_variable windows name name).
    rewrite same_variable_refl, bool_decide_true by done. done.
  - rewrite lookup_insert_ne by done. rewrite (bool_decide_false (k = name)) by done.
    destruct windows.
    + rewrite retain_lookup. by destruct (eq_ignore_ascii_case name k).
    + by rewrite bool_decide_false by congruence.
Qed.

Lemma overrides_lookup l m name :
  foldl (apply_override windows) m l !! name
  = match find (λ kv, same_variable windows name kv.1) (rev l) with
    | Some (k, v) => if k =s name then Some v else None
    | None => m !! name
    end.
Proof.
  revert m. induction l as [|[k v] l IH] using rev_ind; intros m; [done|].
  rewrite foldl_snoc, rev_app_distr. cbn [rev app find fst]. rewrite apply_override_lookup.
  destruct (same_variable windows name k); [done|apply IH].
Qed.

Lemma matches_any_nil name : matches_any name [] = false.
Proof. done. Qed.

(** The steps of [populate_env] give each name the value [env_value] describes. *)
Theorem populate_env_lookup vars policy thread_id name :
  populate_env windows vars policy thread_id !! name = env_value windows vars policy thread_id name.
Proof.
  unfold populate_env, env_value. cbv zeta. rewrite retain_lookup.
  destruct (is_non_inheritable_env_var name) eqn:Er; cbn [negb]; [done|].
  assert (Hk : ∀ m : Env, match include_only policy with [] => m | _ => retain (λ k, matches_any k (include_only policy)) m end !! name
    = if bool_decide (include_only policy = []) || matches_any name (include_only policy) then m !! name else None).
  { intros m. destruct (include_only policy); [done|]. by rewrite retain_lookup. }
  assert (Hi : match exclude policy with [] => (if ignore_default_excludes policy then initial_env windows vars (inherit policy)
      else retain (λ k, negb (matches_any k default_excludes)) (initial_env windows vars (inherit policy)))
    | _ => retain (λ k, negb (matches_any k (exclude policy))) (if ignore_default_excludes policy then initial_env windows vars (inherit policy)
      else retain (λ k, negb (matches_any k default_excludes)) (initial_env windows vars (inherit policy))) end !! name
    = if (ignore_default_excludes policy || negb (matches_any name default_excludes)) && negb (matches_any name (exclude policy))
      then initial_env windows vars (inherit policy) !! name else None).
  { destruct (exclude policy); rewrite ?matches_any_nil, ?retain_lookup;
      destruct (ignore_default_excludes policy); rewrite ?retain_lookup; cbn [orb negb andb];
      repeat match goal with |- context [matches_any name ?l] => destruct (matches_any name l) end; done. }
  destruct thread_id as [t|].
  - destruct (decide (name = CODEX_THREAD_ID_ENV_VAR)) as [->|Hn].
    + by rewrite lookup_insert_eq, bool_decide_true by done.
    + rewrite lookup_insert_ne by done. rewrite bool_decide_false by done. by rewrite Hk, overrides_lookup, Hi.
  - rewrite Hk, overrides_lookup, Hi. by destruct (name =s CODEX_THREAD_ID_ENV_VAR).
Qed.

Lemma create_env_lookup vars policy thread_id name :
  create_env_from_vars windows vars policy thread_id !! name = populate_env windows vars policy thread_id !! name
  ∨ name = lit "PATHEXT".
Proof.
  unfold create_env_from_vars. case_match; [|by left].
  destruct (decide (name = lit "PATHEXT")); [by right|left]. by rewrite lookup_insert_ne by congruence.
Qed.

Lemma create_env_restricted vars policy thread_id name :
  is_non_inheritable_env_var name = true → create_env_from_vars windows vars policy thread_id !! name = None.
Proof.
  intros Hr. destruct (create_env_lookup vars policy thread_id name) as [->| ->]; [|by vm_compute in Hr].
  rewrite populate_env_lookup. unfold env_value. by rewrite Hr.
Qed.

Lemma set_tool_call_id_restricted env call name :
  is_non_inheritable_env_var name = true → env !! name = None →
  set_tool_call_id_env_var windows env call !! name = None.
Proof.
  intros Hr Hn. assert (Hne : CODEX_TOOL_CALL_ID_ENV_VAR ≠ name) by (intros <-; by vm_compute in Hr).
  assert (Hd : (if windows then retain (λ name, negb (eq_ignore_ascii_case name CODEX_TOOL_CALL_ID_ENV_VAR)) env
    else delete CODEX_TOOL_CALL_ID_ENV_VAR env) !! name = None).
  { destruct windows; [rewrite retain_lookup; by case_match|by rewrite lookup_delete_ne]. }
  unfold set_tool_call_id_env_var. cbv zeta. repeat case_match; rewrite ?lookup_insert_ne by done; done.
Qed.

End facts.

(** ** Scrubbed commands *)

Lemma env_removes_lookup (p : str → bool) (names : list str) (c : gmap str (option str)) (name : str) :
  foldl (λ c n, if p n then env_remove c n else c) c names !! name
  = if p name && bool_decide (name ∈ names) then Some None else c !! name.
Proof.
  induction names as [|n names IH] using rev_ind.
  { rewrite (bool_decide_false (name ∈ [])) by apply not_elem_of_nil. by rewrite andb_false_r. }
  rewrite foldl_snoc. destruct (decide (name = n)) as [<-|Hne].
  - rewrite (bool_decide_true (name ∈ names ++ [name])) by set_solver. rewrite andb_true_r.
    destruct (p name) eqn:Ep; [apply lookup_insert_eq|by rewrite IH, ?andb_false_l].
  - rewrite (bool_decide_ext (name ∈ names ++ [n]) (name ∈ names)) by set_solver. rewrite <- IH.
    destruct (p n); [|done]. unfold env_remove. by rewrite lookup_insert_ne by done.
Qed.

Lemma scrub_restricted (process : Env) (c : gmap str (option str)) (name : str) :
  is_non_inheritable_env_var name = true →
  spawned_env process (scrub_non_inheritable_env_vars process c) !! name = None.
Proof.
  intros Hr. unfold spawned_env. rewrite lookup_merge. unfold scrub_non_inheritable_env_vars. cbv zeta.
  rewrite env_removes_lookup, Hr. cbn [andb]. case_bool_decide as Hin; [by destruct (process !! name)|].
  assert (Hp : process !! name = None).
  { destruct (process !! name) as [v|] eqn:E; [|done]. exfalso. apply Hin, elem_of_app. left.
    apply elem_of_map_to_list in E. apply (list_elem_of_fmap_2 fst) in E. exact E. }
  rewrite Hp. assert (Hn : foldl env_remove c NON_INHERITABLE_ENV_VARS !! name
    = if bool_decide (name ∈ NON_INHERITABLE_ENV_VARS) then Some None else c !! name)
    by exact (env_removes_lookup (λ _, true) NON_INHERITABLE_ENV_VARS c name).
  assert (Hc : c !! name = None).
  { destruct (c !! name) as [v|] eqn:E; [|done]. exfalso. apply Hin, elem_of_app. right.
    apply elem_of_map_to_list in E. apply (list_elem_of_fmap_2 fst) in E. exact E. }
  rewrite Hc in Hn.
  rewrite Hn. by case_bool_decide.
Qed.

(** * Claims *)

(** C28: A restricted variable reaches no process that runs for the model: whatever is inherited,
    overridden or included, the environment [create_env] builds binds none of the restricted
    names, in any case, nor does it once the identifier of the call is added; and a command
    that was scrubbed runs without them whatever the parent process or the command set. *)
Theorem restricted_never_inherited `{WildMatch} (windows : bool) (vars : list (str * str)) (policy : ShellEnvironmentPolicy)
    (thread_id call : option str) (process : Env) (c : gmap str (option str)) (name : str) :
  is_non_inheritable_env_var name = true →
  set_tool_call_id_env_var windows (create_env_from_vars windows vars policy thread_id) call !! name = None
  ∧ spawned_env process (scrub_non_inheritable_env_vars process c) !! name = None.
Proof.
  intros Hr. split; [|by apply scrub_restricted]. apply set_tool_call_id_restricted; [done|]. by apply create_env_restricted.
Qed.

(** ** Secrets *)

(** [name] contains [w] up to case. *)
Definition contains_ignoring_case (w name : str) : bool := str_contains (to_ascii_lowercase w) (to_ascii_lowercase name).

Definition secret_words : list str := [lit "KEY"; lit "SECRET"; lit "TOKEN"].

Definition secret_name (name : str) : bool := existsb (λ w, contains_ignoring_case w name) secret_words.

(** The documented meaning of a star on both sides of a word. *)
Class StarLaws `{WildMatch} := {
  star_word w name :
    w ∈ secret_words → pattern_matches (new_case_insensitive ([42%N] ++ w ++ [42%N])) name = contains_ignoring_case w name
}.

Section secrets.
Context `{StarLaws}.

Lemma default_excludes_secret name : matches_any name default_excludes = secret_name name.
Proof.
  unfold matches_any, default_excludes, secret_name, secret_words. cbn [existsb].
  rewrite <- (star_word (lit "KEY")), <- (star_word (lit "SECRET")), <- (star_word (lit "TOKEN"))
    by (unfold secret_words; rewrite !elem_of_cons; tauto). done.
Qed.

Lemma find_rev_in {A} (f : A → bool) l x : find f (rev l) = Some x → x ∈ l.
Proof. intros Hf. apply find_some in Hf as [Hf _]. apply in_rev in Hf. by apply list_elem_of_In. Qed.

End secrets.

(** With the default excludes on, a variable whose name contains KEY, SECRET or TOKEN, in any
    case, is in the environment of a command only when the policy sets it itself: nothing
    inherited from the parent process passes, whatever the include patterns say. *)
Theorem secrets_only_when_set `{StarLaws} (windows : bool) (vars : list (str * str)) (policy : ShellEnvironmentPolicy)
    (thread_id : option str) (name v : str) :
  ignore_default_excludes policy = false → secret_name name = true →
  create_env_from_vars windows vars policy thread_id !! name = Some v → (name, v) ∈ set policy.
Proof.
  intros Hi Hs Hl. destruct (create_env_lookup windows vars policy thread_id name) as [E|E]; [|subst; by vm_compute in Hs].
  rewrite E, populate_env_lookup in Hl. clear E. unfold env_value in Hl. cbv zeta in Hl.
  rewrite default_excludes_secret, Hs, Hi in Hl. cbn [orb negb andb] in Hl.
  destruct (is_non_inheritable_env_var name); [done|].
  rewrite (bool_decide_false (name = _)) in Hl by (intros ->; by vm_compute in Hs).
  destruct (_ || _); [|done]. destruct (find _ _) as [[k v']|] eqn:Ef; [|done].
  case_bool_decide; [|done]. simplify_eq. by apply find_rev_in in Ef.
Qed.

(** A pattern matcher for words between stars and for exact names. *)
#[local] Instance word_patterns : WildMatch := {|
  EnvironmentVariablePattern := str;
  new_case_insensitive p := p;
  pattern_matches p name :=
    match strip_prefix [42%N] p ≫= strip_suffix [42%N] with
    | Some w => contains_ignoring_case w name
    | None => p =s name
    end
|}.

#[local] Instance word_patterns_laws : StarLaws.
Proof.
  split. intros w name Hw. apply elem_of_cons in Hw as [->|Hw]; [done|].
  apply elem_of_cons in Hw as [->|Hw]; [done|]. apply list_elem_of_singleton in Hw as ->. done.
Qed.

Definition example_policy : ShellEnvironmentPolicy :=
  mkShellEnvironmentPolicy _ InheritAll false [lit "EDITOR"] [(lit "MY_TOKEN", lit "t"); (lit "node_repl_auth_token", lit "n")] [] false.

Definition example_vars : list (str * str) :=
  [(lit "PATH", lit "/bin"); (lit "EDITOR", lit "vi"); (lit "OPENAI_API_KEY", lit "k"); (lit "NODE_REPL_AUTH_TOKEN", lit "n")].

Lemma restricted_never_inherited_witness :
  set_tool_call_id_env_var false (create_env_from_vars false example_vars example_policy None) (Some (lit "call")) !! lit "node_repl_auth_token" = None
  ∧ spawned_env {[lit "node_repl_auth_token" := lit "x"]}
      (scrub_non_inheritable_env_vars {[lit "node_repl_auth_token" := lit "x"]} ∅) !! lit "node_repl_auth_token" = None.
Proof. apply restricted_never_inherited. vm_compute. reflexivity. Defined.

Lemma secrets_only_when_set_witness : (lit "MY_TOKEN", lit "t") ∈ set example_policy.
Proof. apply (secrets_only_when_set false example_vars example_policy None); vm_compute; reflexivity. Defined.
