(* ===== verification/Hooks.v ===== *)
(** Lifecycle hooks: the data of the engine (hooks/src/engine/mod.rs, protocol/src/protocol.rs),
    its matchers (engine/matcher.rs), the runners of handlers (engine/command_runner.rs,
    engine/mcp_runner.rs) and the dispatcher (engine/dispatcher.rs).

    An absolute path and a path URI are their text. [unreachable!] and [panic!] are [None].
    Parameters: the regex crate ([RegexEngine]); child processes, MCP servers and the clock
    ([HookWorld], indexed by the configured position of the handler that runs); and the order
    in which concurrent futures complete ([FuturesUnordered]). *)
From stdpp Require Import pretty.
From S2P Require Import Prelude Str ShellEnv Truncate.

(** * Protocol *)

Inductive HookEventName :=
| PreToolUse | PermissionRequest | PostToolUse | PreCompact | PostCompact | SessionStart | SessionEnd
| UserPromptSubmit | SubagentStart | SubagentStop | Stop | Interrupt.

Inductive HookHandlerType := TyCommand | TyMcpTool | TyPrompt | TyAgent.

Inductive HookExecutionMode := Sync | Async.

Inductive HookScope := Thread | Turn.

Inductive HookSource :=
| SrcSystem | SrcUser | SrcProject | SrcMdm | SrcSessionFlags | SrcPlugin | SrcCloudRequirements
| SrcCloudManagedConfig | SrcLegacyManagedConfigFile | SrcLegacyManagedConfigMdm | SrcUnknown.

Inductive HookTrustStatus := TrustManaged | TrustUntrusted | TrustTrusted | TrustModified.

Inductive HookRunStatus := Running | Completed | Failed | Blocked | Stopped.

Inductive HookOutputEntryKind := KWarning | KStop | KFeedback | KContext | KError.

Record HookOutputEntry := mkEntry { entry_kind : HookOutputEntryKind; entry_text : str }.

Record HookRunSummary := mkSummary {
  run_builtin : bool;
  run_id_of : str;
  run_event_name : HookEventName;
  run_handler_type : HookHandlerType;
  run_execution_mode : HookExecutionMode;
  run_scope : HookScope;
  run_source_path : str;
  run_source : HookSource;
  run_display_order : Z;
  run_status : HookRunStatus;
  run_status_message : option str;
  run_started_at : Z;
  run_completed_at : option Z;
  run_duration_ms : option Z;
  run_entries : list HookOutputEntry
}.

Record HookCompletedEvent := mkCompleted { ev_turn_id : option str; ev_run : HookRunSummary }.

#[export] Instance HookEventName_eq : EqDecision HookEventName.
Proof. solve_decision. Defined.
#[export] Instance HookExecutionMode_eq : EqDecision HookExecutionMode.
Proof. solve_decision. Defined.
#[export] Instance HookSource_eq : EqDecision HookSource.
Proof. solve_decision. Defined.
#[export] Instance HookRunStatus_eq : EqDecision HookRunStatus.
Proof. solve_decision. Defined.
#[export] Instance HookTrustStatus_eq : EqDecision HookTrustStatus.
Proof. solve_decision. Defined.

(** [serde_json::Value]; a number is its text, an object lists its entries in their order. *)
Inductive Value :=
| VNull
| VBool (b : bool)
| VNumber (n : str)
| VString (s : str)
| VArray (l : list Value)
| VObject (m : list (str * Value)).

Notation JsonMap := (list (str * Value)).

(** * Matchers (engine/matcher.rs) *)

Class RegexEngine := {
  Regex : Type;
  regex_new : str → result str Regex;
  regex_as_str : Regex → str;
  regex_is_match : Regex → str → bool
}.

Section engine.
Context `{RegexEngine}.

Inductive HookMatcher :=
| MatchAll (pattern : str)
| MatchExact (pattern : str)
| MatchRegex (regex : Regex).

(** ['_'] and ['|'] *)
Definition UNDERSCORE : N := 95.
Definition BAR : N := 124.

Definition HookMatcher_new (pattern : str) : result str HookMatcher :=
  if (pattern =s []) || (pattern =s lit "*") then Ok (MatchAll pattern)
  else if forallb (λ ch, is_ascii_alphanumeric ch || N.eqb ch UNDERSCORE || N.eqb ch BAR) pattern
  then Ok (MatchExact pattern)
  else let? regex := regex_new pattern in Ok (MatchRegex regex).

Definition matcher_as_str (m : HookMatcher) : str :=
  match m with MatchAll p | MatchExact p => p | MatchRegex r => regex_as_str r end.

Definition matcher_matches (m : HookMatcher) (input : option str) : bool :=
  match m with
  | MatchAll _ => true
  | MatchExact pattern =>
      match input with
      | Some input => existsb (λ candidate, candidate =s input) (split_by (N.eqb BAR) pattern)
      | None => false
      end
  | MatchRegex regex => match input with Some input => regex_is_match regex input | None => false end
  end.

(** * Handlers (engine/mod.rs) *)

Record AdditionalContextLimit := mkLimit { token_limit : N }.

Definition DEFAULT_HOOK_OUTPUT_TOKEN_LIMIT : N := 2500.

Definition AdditionalContextLimit_from_config (value : option N) : AdditionalContextLimit :=
  mkLimit (default DEFAULT_HOOK_OUTPUT_TOKEN_LIMIT value).

Record AdditionalContext := mkContext { ctx_text : str; ctx_limit : AdditionalContextLimit }.

Inductive HandlerSourcePath :=
| Local (path : str)
| ExecutorScoped (plugin_id environment_id : str) (mcp_environment_id : option str)
    (mcp_metadata : option JsonMap) (manifest_path source_relative_path : str).

Inductive ConfiguredHandlerKind :=
| KCommand (command : str) (env : list (str * str)) (async : bool)
| KMcpTool (server tool : str) (input : JsonMap).

Record ConfiguredHandler := mkHandler {
  builtin : bool;
  event_name : HookEventName;
  matcher : option HookMatcher;
  timeout_sec : N;
  status_message : option str;
  additional_context_limit : AdditionalContextLimit;
  source_path : HandlerSourcePath;
  source : HookSource;
  display_order : Z;
  kind : ConfiguredHandlerKind
}.

Record HandlerRunResult := mkRunResult {
  started_at : Z;
  completed_at : Z;
  duration_ms : Z;
  exit_code : option Z;
  stdout : str;
  stderr : str;
  error : option str
}.

Definition is_executor_scoped (h : ConfiguredHandler) : bool :=
  match source_path h with ExecutorScoped _ _ _ _ _ _ => true | Local _ => false end.

Definition execution_mode (h : ConfiguredHandler) : HookExecutionMode :=
  if is_executor_scoped h then Async
  else match kind h with
       | KCommand _ _ true => Async
       | KCommand _ _ false | KMcpTool _ _ _ => Sync
       end.

Definition can_apply_control_effects (h : ConfiguredHandler) : bool := bool_decide (execution_mode h = Sync).

Definition source_path_display (p : HandlerSourcePath) : str :=
  match p with
  | Local path => path
  | ExecutorScoped _ environment_id _ _ manifest_path source_relative_path =>
      environment_id ++ lit ":" ++ manifest_path ++ lit ":" ++ source_relative_path
  end.

Definition event_name_label (e : HookEventName) : str :=
  match e with
  | PreToolUse => lit "pre-tool-use"
  | PermissionRequest => lit "permission-request"
  | PostToolUse => lit "post-tool-use"
  | PreCompact => lit "pre-compact"
  | PostCompact => lit "post-compact"
  | SessionStart => lit "session-start"
  | SessionEnd => lit "session-end"
  | UserPromptSubmit => lit "user-prompt-submit"
  | SubagentStart => lit "subagent-start"
  | SubagentStop => lit "subagent-stop"
  | Stop => lit "stop"
  | Interrupt => lit "interrupt"
  end.

Definition run_id (h : ConfiguredHandler) : str :=
  event_name_label (event_name h) ++ lit ":" ++ lit (pretty (display_order h)) ++ lit ":"
  ++ source_path_display (source_path h).

Definition handler_type (h : ConfiguredHandler) : HookHandlerType :=
  match kind h with KCommand _ _ _ => TyCommand | KMcpTool _ _ _ => TyMcpTool end.

Definition max_permission_request_timeout (handlers : list ConfiguredHandler) : N :=
  foldr N.max 0%N (timeout_sec <$>
    List.filter (λ h, (bool_decide (event_name h = PermissionRequest)) && can_apply_control_effects h) handlers).

(** * Common to the events (events/common.rs) *)

Definition join_text_chunks (chunks : list str) : option str :=
  match chunks with [] => None | _ => Some (join [LF; LF] chunks) end.

Definition trimmed_non_empty (text : str) : option str :=
  let trimmed := trim text in if trimmed =s [] then None else Some trimmed.

Definition append_additional_context (entries : list HookOutputEntry) (contexts : list AdditionalContext)
    (h : ConfiguredHandler) (additional_context : str) : list HookOutputEntry * list AdditionalContext :=
  (entries ++ [mkEntry KContext additional_context],
   contexts ++ [mkContext additional_context (additional_context_limit h)]).

Definition flatten_additional_contexts (contexts : list (list AdditionalContext)) : list AdditionalContext :=
  mjoin contexts.

Definition matcher_pattern_for_event (e : HookEventName) (matcher : option str) : option str :=
  match e with
  | PreToolUse | PermissionRequest | PostToolUse | SessionStart | SessionEnd | SubagentStart
  | SubagentStop | PreCompact | PostCompact => matcher
  | UserPromptSubmit | Stop | Interrupt => None
  end.

Definition matches_matcher (matcher : option HookMatcher) (input : option str) : bool :=
  match matcher with None => true | Some m => matcher_matches m input end.

Definition matcher_inputs (tool_name : str) (matcher_aliases : list str) : list str := tool_name :: matcher_aliases.

Definition hook_run_for_tool_use (run : HookRunSummary) (tool_use_id : str) : HookRunSummary :=
  let 'mkSummary b id e t m s p src o st msg sa ca d en := run in
  mkSummary b (id ++ lit ":" ++ tool_use_id) e t m s p src o st msg sa ca d en.

Definition hook_completed_for_tool_use (event : HookCompletedEvent) (tool_use_id : str) : HookCompletedEvent :=
  mkCompleted (ev_turn_id event) (hook_run_for_tool_use (ev_run event) tool_use_id).

(** * Summaries (engine/dispatcher.rs) *)

Definition scope_for_event (e : HookEventName) : HookScope :=
  match e with
  | SessionStart | SessionEnd | SubagentStart => Thread
  | PreToolUse | PermissionRequest | PostToolUse | PreCompact | PostCompact | UserPromptSubmit
  | SubagentStop | Stop | Interrupt => Turn
  end.

(** [now h] is the clock when the summary of [h] is made. *)
Definition running_summary (h : ConfiguredHandler) (now : ConfiguredHandler → Z) : option HookRunSummary :=
  match source_path h with
  | ExecutorScoped _ _ _ _ _ _ => None
  | Local path =>
      Some (mkSummary (builtin h) (run_id h) (event_name h) (handler_type h) (execution_mode h)
        (scope_for_event (event_name h)) path (source h) (display_order h) Running (status_message h)
        (now h) None None [])
  end.

Definition completed_summary (h : ConfiguredHandler) (r : HandlerRunResult) (status : HookRunStatus)
    (entries : list HookOutputEntry) : option HookRunSummary :=
  match source_path h with
  | ExecutorScoped _ _ _ _ _ _ => None
  | Local path =>
      Some (mkSummary (builtin h) (run_id h) (event_name h) (handler_type h) (execution_mode h)
        (scope_for_event (event_name h)) path (source h) (display_order h) status (status_message h)
        (started_at r) (Some (completed_at r)) (Some (duration_ms r)) entries)
  end.

Definition serialization_failure_hook_events (handlers : list ConfiguredHandler) (turn_id : option str)
    (error_message : str) (now : ConfiguredHandler → Z) : option (list HookCompletedEvent) :=
  mapM (λ h,
    match running_summary h now with
    | None => None
    | Some (mkSummary b id e t m s p src o _ msg sa _ _ _) =>
        Some (mkCompleted turn_id
          (mkSummary b id e t m s p src o Failed msg sa (Some sa) (Some 0%Z) [mkEntry KError error_message]))
    end)
  (List.filter (λ h, negb (is_executor_scoped h)) handlers).

Definition serialization_failure_hook_events_for_tool_use (handlers : list ConfiguredHandler) (turn_id : option str)
    (error_message : str) (tool_use_id : str) (now : ConfiguredHandler → Z) : option (list HookCompletedEvent) :=
  option_map (map (λ event, hook_completed_for_tool_use event tool_use_id))
    (serialization_failure_hook_events handlers turn_id error_message now).

(** * Selection (engine/dispatcher.rs) *)

Definition select_handlers_for_matcher_inputs (handlers : list ConfiguredHandler) (e : HookEventName)
    (matcher_inputs : list str) : list ConfiguredHandler :=
  List.filter (λ h,
    match e with
    | PreToolUse | PermissionRequest | PostToolUse | SessionStart | SessionEnd | SubagentStart
    | SubagentStop | PreCompact | PostCompact =>
        match matcher_inputs with
        | [] => matches_matcher (matcher h) None
        | _ => existsb (λ input, matches_matcher (matcher h) (Some input)) matcher_inputs
        end
    | UserPromptSubmit | Stop | Interrupt => true
    end)
  (List.filter (λ h, bool_decide (event_name h = e)) handlers).

Definition select_handlers (handlers : list ConfiguredHandler) (e : HookEventName)
    (matcher_input : option str) : list ConfiguredHandler :=
  select_handlers_for_matcher_inputs handlers e (option_list matcher_input).

(** * The command runner (engine/command_runner.rs) *)

Record CommandShell := mkShell { program : str; args : list str }.

Inductive CommandArg := Arg (a : str) | RawArg (a : str).

(** The [Command] that [build_command] makes; its environment starts empty. *)
Record BuiltCommand := mkBuilt { cmd_program : str; cmd_args : list CommandArg; cmd_env : list (str * str) }.

Inductive ChildOutcome :=
| SpawnError (err : str)
| Output (code : option Z) (out err : str)
| StdinError (err : str)
| WaitError (err : str)
| TimedOut.

Record HookMcpCall := mkMcpCall {
  call_server : str;
  call_tool : str;
  call_environment_id : option str;
  call_metadata : option JsonMap;
  call_input : JsonMap;
  call_timeout : N
}.

Class HookWorld := {
  windows : bool;
  (** a child process: its standard input, directory and deadline *)
  run_child : nat → BuiltCommand → str → str → N → ChildOutcome;
  execute_mcp : nat → HookMcpCall → result str str;
  json_from_str : str → option Value;
  json_to_string : Value → result str str;
  (** [started_at], [completed_at] and the milliseconds that passed *)
  clock : nat → Z * Z * N;
  (** the path a spilled output was written to *)
  spill_file : str → option str
}.

Context `{HookWorld}.

Definition default_shell_program (environment : list (str * str)) : str :=
  let variable := if windows then lit "COMSPEC" else lit "SHELL" in
  let fallback := if windows then lit "cmd.exe" else lit "/bin/sh" in
  match find (λ kv, if windows then eq_ignore_ascii_case kv.1 variable else kv.1 =s variable) environment with
  | Some (_, value) => value
  | None => fallback
  end.

Definition build_command (shell : CommandShell) (command_line : str) (environment env : list (str * str)) : BuiltCommand :=
  let default_shell := program shell =s [] in
  let prog := if default_shell then default_shell_program environment else program shell in
  let first := if default_shell then [Arg (if windows then lit "/C" else lit "-lc")] else Arg <$> args shell in
  let last :=
    if windows && (default_shell || existsb (λ arg, eq_ignore_ascii_case arg (lit "/c")) (args shell))
    then RawArg ([34%N] ++ command_line ++ [34%N]) else Arg command_line in
  mkBuilt prog (first ++ [last]) (List.filter (λ kv, negb (is_non_inheritable_env_var kv.1)) (environment ++ env)).

(** [u128::try_into::<i64>().unwrap_or(i64::MAX)] *)
Definition millis_i64 (n : N) : Z := if (Z.of_N n <=? i64_max)%Z then Z.of_N n else i64_max.

Definition finish_run (i : nat) (code : option Z) (out err : str) (e : option str) : HandlerRunResult :=
  let '(started, completed, elapsed) := clock i in
  mkRunResult started completed (millis_i64 elapsed) code out err e.

Definition run_command (i : nat) (shell : CommandShell) (environment : list (str * str)) (h : ConfiguredHandler)
    (command_line : str) (env : list (str * str)) (input_json cwd : str) : HandlerRunResult :=
  match run_child i (build_command shell command_line environment env) input_json cwd (timeout_sec h) with
  | SpawnError err => finish_run i None [] [] (Some err)
  | Output code out err => finish_run i code out err None
  | StdinError err => finish_run i None [] [] (Some (lit "failed to write hook stdin: " ++ err))
  | WaitError err => finish_run i None [] [] (Some err)
  | TimedOut => finish_run i None [] [] (Some (lit "hook timed out after " ++ lit (pretty (timeout_sec h)) ++ lit "s"))
  end.

(** * The MCP runner (engine/mcp_runner.rs) *)

Definition LBRACE : N := 123.
Definition RBRACE : N := 125.
Definition is_brace (c : N) : bool := N.eqb c LBRACE || N.eqb c RBRACE.

(** The longest prefix without braces, and the rest. *)
Fixpoint span_no_brace (s : str) : str * str :=
  match s with
  | [] => ([], [])
  | c :: s' => if is_brace c then ([], s) else let '(a, b) := span_no_brace s' in (c :: a, b)
  end.

(** A match of [\$\{([^{}]+)\}] at the start: the captured path and what follows. *)
Definition placeholder_here (s : str) : option (str * str) :=
  match strip_prefix (lit "${") s with
  | None => None
  | Some s =>
      match span_no_brace s with
      | ([], _) => None
      | (path, c :: rest) => if N.eqb c RBRACE then Some (path, rest) else None
      | (_, []) => None
      end
  end.

(** The first match: the text before, the captured path and the text after. *)
Fixpoint next_placeholder (s : str) : option (str * str * str) :=
  match placeholder_here s with
  | Some (path, rest) => Some ([], path, rest)
  | None =>
      match s with
      | [] => None
      | c :: s' => match next_placeholder s' with Some (before, path, rest) => Some (c :: before, path, rest) | None => None end
      end
  end.

(** All matches, each with the text before it, and the text after the last; every match is
    longer than three characters, so the length of the text is fuel enough. *)
Fixpoint captures_iter (fuel : nat) (s : str) : list (str * str) * str :=
  match fuel with
  | O => ([], s)
  | S fuel =>
      match next_placeholder s with
      | None => ([], s)
      | Some (before, path, rest) => let '(l, tail) := captures_iter fuel rest in ((before, path) :: l, tail)
      end
  end.

(** [Value::get] with a string *)
Definition value_get (v : Value) (field : str) : option Value :=
  match v with
  | VObject m => snd <$> find (λ kv, kv.1 =s field) m
  | _ => None
  end.

Definition placeholder_error (path : str) : str :=
  lit "hook input placeholder `${" ++ path ++ lit "}` was not found".

Fixpoint resolve_fields (v : Value) (path : str) (fields : list str) : result str Value :=
  match fields with
  | [] => Ok v
  | field :: fields => match value_get v field with Some v => resolve_fields v path fields | None => Err (placeholder_error path) end
  end.

Definition resolve_path (hook_event : Value) (path : str) : result str Value :=
  resolve_fields hook_event path (split_by (N.eqb 46) path).

Fixpoint resolve_captures (hook_event : Value) (resolved : str) (captures : list (str * str)) : result str str :=
  match captures with
  | [] => Ok resolved
  | (before, path) :: captures =>
      let? value := resolve_path hook_event path in
      let? text := match value with VString s => Ok s | _ => json_to_string value end in
      resolve_captures hook_event (resolved ++ before ++ text) captures
  end.

Definition resolve_string (text : str) (hook_event : Value) : result str Value :=
  match captures_iter (length text) text with
  | ([], _) => Ok (VString text)
  | ([([], path)], []) => resolve_path hook_event path
  | (captures, tail) =>
      let? resolved := resolve_captures hook_event [] captures in
      Ok (VString (resolved ++ tail))
  end.

Fixpoint resolve_value (value hook_event : Value) {struct value} : result str Value :=
  match value with
  | VObject input =>
      let? input := (fix go (m : list (str * Value)) : result str (list (str * Value)) :=
        match m with
        | [] => Ok []
        | (k, v) :: m => let? v := resolve_value v hook_event in let? m := go m in Ok ((k, v) :: m)
        end) input in
      Ok (VObject input)
  | VArray items =>
      let? items := (fix go (l : list Value) : result str (list Value) :=
        match l with
        | [] => Ok []
        | v :: l => let? v := resolve_value v hook_event in let? l := go l in Ok (v :: l)
        end) items in
      Ok (VArray items)
  | VString text => resolve_string text hook_event
  | _ => Ok value
  end.

Fixpoint expand_mcp_argument_template (template : JsonMap) (hook_event : Value) : result str JsonMap :=
  match template with
  | [] => Ok []
  | (key, value) :: template =>
      let? value := resolve_value value hook_event in
      let? rest := expand_mcp_argument_template template hook_event in
      Ok ((key, value) :: rest)
  end.

(** [Map::insert] and [extend] *)
Fixpoint json_insert (m : JsonMap) (k : str) (v : Value) : JsonMap :=
  match m with
  | [] => [(k, v)]
  | (k', v') :: m => if k' =s k then (k, v) :: m else (k', v') :: json_insert m k v
  end.

Definition json_extend (m new : JsonMap) : JsonMap := foldl (λ m kv, json_insert m kv.1 kv.2) m new.

Definition mcp_call (h : ConfiguredHandler) (server tool : str) (template : JsonMap) (hook_event_json : str)
    (metadata : option JsonMap) : result str HookMcpCall :=
  match json_from_str hook_event_json with
  | None => Err (lit "failed to parse hook event input")
  | Some hook_event =>
      let? input := expand_mcp_argument_template template hook_event in
      let '(environment_id, call_metadata) :=
        match source_path h with
        | Local _ => (None, None)
        | ExecutorScoped _ environment_id mcp_environment_id mcp_metadata _ _ =>
            (Some (default environment_id mcp_environment_id), mcp_metadata)
        end in
      let call_metadata :=
        match metadata with
        | Some metadata => Some (json_extend (default [] call_metadata) metadata)
        | None => call_metadata
        end in
      Ok (mkMcpCall server tool environment_id call_metadata input (timeout_sec h))
  end.

Definition run_mcp_tool (i : nat) (h : ConfiguredHandler) (server tool : str) (template : JsonMap)
    (hook_event_json : str) (metadata : option JsonMap) : HandlerRunResult :=
  match (let? call := mcp_call h server tool template hook_event_json metadata in execute_mcp i call) with
  | Ok output => finish_run i (Some 0%Z) output [] None
  | Err e => finish_run i None [] [] (Some e)
  end.

(** * Spilling (output_spill.rs) *)

Definition spilled_hook_output_preview (text path : str) (token_limit : N) : str :=
  let footer := [LF; LF] ++ lit "Full hook output saved to: " ++ path in
  formatted_truncate_text text (Tokens (sat_sub token_limit (approx_token_count footer))) ++ footer.

Definition maybe_spill_text_with_limit (text : str) (limit : AdditionalContextLimit) : str :=
  let token_limit := token_limit limit in
  if N.eqb token_limit 0 || (approx_token_count text <=? token_limit)%N then text
  else match spill_file text with
       | None => formatted_truncate_text text (Tokens token_limit)
       | Some path => spilled_hook_output_preview text path token_limit
       end.

Definition maybe_spill_text (text : str) : str :=
  maybe_spill_text_with_limit text (AdditionalContextLimit_from_config None).

Definition maybe_spill_additional_contexts (contexts : list AdditionalContext) : list str :=
  map (λ c, maybe_spill_text_with_limit (ctx_text c) (ctx_limit c)) contexts.

Record HookPromptFragment := mkFragment { frag_text : str; frag_hook_run_id : str }.

Definition maybe_spill_prompt_fragments (fragments : list HookPromptFragment) : list HookPromptFragment :=
  map (λ f, mkFragment (maybe_spill_text (frag_text f)) (frag_hook_run_id f)) fragments.

(** * The runtime of asynchronous hooks (engine/command_runner.rs) *)

Inductive HookTask :=
| AsyncHook (h : ConfiguredHandler) (input_json cwd : str) (turn_id : option str)
| ExecutorTask (h : ConfiguredHandler) (input_json cwd : str) (metadata : option JsonMap).

(** [CommandHookRuntime]: [rt_tasks] are the tasks spawned and not yet aborted. *)
Record CommandHookRuntime := mkRuntime {
  rt_shell : CommandShell;
  rt_environment : list (str * str);
  rt_sender_closed : bool;
  rt_limit_closed : bool;
  rt_tasks : list HookTask
}.

Definition schedule_async_task (rt : CommandHookRuntime) (task : HookTask) : CommandHookRuntime :=
  let 'mkRuntime shell environment sender limit tasks := rt in
  if limit then rt else mkRuntime shell environment sender limit (tasks ++ [task]).

Definition schedule_async_hook (rt : CommandHookRuntime) (h : ConfiguredHandler) (input_json cwd : str)
    (turn_id : option str) : CommandHookRuntime :=
  if rt_sender_closed rt then rt else schedule_async_task rt (AsyncHook h input_json cwd turn_id).

Definition shutdown (rt : CommandHookRuntime) : CommandHookRuntime :=
  let 'mkRuntime shell environment sender _ _ := rt in mkRuntime shell environment sender true [].

Record ParsedHandler (T : Type) := mkParsed {
  completed : HookCompletedEvent;
  data : T;
  completion_order : nat
}.

#[global] Arguments mkParsed {T}.
#[global] Arguments completed {T} _.
#[global] Arguments data {T} _.
#[global] Arguments completion_order {T} _.

(** The entries an asynchronous hook reports: context (spilled) and errors in their order, then
    warnings; what would control the turn is dropped. *)
Definition async_entries (h : ConfiguredHandler) (entries : list HookOutputEntry) : list HookOutputEntry :=
  mjoin (map (λ entry,
    match entry_kind entry with
    | KContext =>
        map (mkEntry KContext)
          (maybe_spill_additional_contexts [mkContext (entry_text entry) (additional_context_limit h)])
    | KError => [entry]
    | KWarning | KStop | KFeedback => []
    end) entries)
  ++ List.filter (λ entry, match entry_kind entry with KWarning => true | _ => false end) entries.

(** The event the task of [schedule_async_hook] sends; [Some None] when it sends none. *)
Definition run_async_hook {T} (i : nat) (rt : CommandHookRuntime)
    (parse : ConfiguredHandler → HandlerRunResult → option str → option (ParsedHandler T))
    (h : ConfiguredHandler) (input_json cwd : str) (turn_id : option str) : option (option HookCompletedEvent) :=
  match kind h with
  | KMcpTool _ _ _ => Some None
  | KCommand command env _ =>
      let result := run_command i (rt_shell rt) (rt_environment rt) h command env input_json cwd in
      parsed ← parse h result turn_id;
      let 'mkSummary b id e t m s p src o st msg sa ca d entries := ev_run (completed parsed) in
      Some (Some (mkCompleted (ev_turn_id (completed parsed))
        (mkSummary b id e t m s p src o st msg sa ca d (async_entries h entries))))
  end.

(** * Dispatch (engine/dispatcher.rs) *)

(** [FuturesUnordered]: every future completes once, in an order of its own. *)
Class FuturesUnordered := {
  completions {A} : list A → list A;
  completions_perm {A} (l : list A) : completions l ≡ₚ l
}.

Context `{FuturesUnordered}.

Definition execute_handler (i : nat) (rt : CommandHookRuntime) (h : ConfiguredHandler) (input_json cwd : str)
    (metadata : option JsonMap) : HandlerRunResult :=
  match kind h with
  | KCommand command env _ => run_command i (rt_shell rt) (rt_environment rt) h command env input_json cwd
  | KMcpTool server tool input => run_mcp_tool i h server tool input input_json metadata
  end.

(** The loop over the handlers: the executor-scoped ones, the runtime with the asynchronous
    ones scheduled, and the pending ones with their configured order. *)
Fixpoint partition_handlers (rt : CommandHookRuntime) (configured_order : nat) (handlers : list ConfiguredHandler)
    (input_json cwd : str) (turn_id : option str)
    : list ConfiguredHandler * CommandHookRuntime * list (nat * ConfiguredHandler) :=
  match handlers with
  | [] => ([], rt, [])
  | h :: handlers =>
      if is_executor_scoped h then
        let '(executor, rt, pending) := partition_handlers rt (S configured_order) handlers input_json cwd turn_id in
        (h :: executor, rt, pending)
      else if bool_decide (execution_mode h = Async) then
        partition_handlers (schedule_async_hook rt h input_json cwd turn_id) (S configured_order) handlers input_json cwd turn_id
      else
        let '(executor, rt, pending) := partition_handlers rt (S configured_order) handlers input_json cwd turn_id in
        (executor, rt, (configured_order, h) :: pending)
  end.

Definition with_completion_order {T} (p : ParsedHandler T) (n : nat) : ParsedHandler T :=
  mkParsed (completed p) (data p) n.

(** The loop over the futures as they complete. *)
Fixpoint drain {T} (n : nat) (should_stop should_block : bool) (done : list (nat * ParsedHandler T))
    : list (nat * ParsedHandler T) * bool * bool :=
  match done with
  | [] => ([], should_stop, should_block)
  | (configured_order, parsed) :: done =>
      let status := run_status (ev_run (completed parsed)) in
      let '(l, should_stop, should_block) :=
        drain (S n) (should_stop || bool_decide (status = Stopped)) (should_block || bool_decide (status = Blocked)) done in
      ((configured_order, with_completion_order parsed n) :: l, should_stop, should_block)
  end.

(** [sort_by_key] on the configured order, stable *)
Fixpoint insert_by_order {A} (x : nat * A) (l : list (nat * A)) : list (nat * A) :=
  match l with
  | [] => [x]
  | y :: l' => if (x.1 <=? y.1)%nat then x :: l else y :: insert_by_order x l'
  end.

Definition sort_by_order {A} (l : list (nat * A)) : list (nat * A) := foldr insert_by_order [] l.

Definition execute_handlers_with_metadata {T} (rt : CommandHookRuntime) (handlers : list ConfiguredHandler)
    (input_json cwd : str) (turn_id : option str) (metadata : option JsonMap)
    (parse : ConfiguredHandler → HandlerRunResult → option str → option (ParsedHandler T))
    : option (CommandHookRuntime * list (ParsedHandler T)) :=
  let '(executor_handlers, rt, pending) := partition_handlers rt 0 handlers input_json cwd turn_id in
  done ← mapM (λ '(configured_order, h),
      parsed ← parse h (execute_handler configured_order rt h input_json cwd None) turn_id;
      Some (configured_order, parsed))
    (completions pending);
  let '(results, should_stop, should_block) := drain 0 false false done in
  let results := sort_by_order results in
  let rt :=
    if should_stop || negb should_block
    then foldl (λ rt h, schedule_async_task rt (ExecutorTask h input_json cwd metadata)) rt executor_handlers
    else rt in
  Some (rt, results.*2).

Definition execute_handlers {T} (rt : CommandHookRuntime) (handlers : list ConfiguredHandler)
    (input_json cwd : str) (turn_id : option str)
    (parse : ConfiguredHandler → HandlerRunResult → option str → option (ParsedHandler T))
    : option (CommandHookRuntime * list (ParsedHandler T)) :=
  execute_handlers_with_metadata rt handlers input_json cwd turn_id None parse.

End engine.

(** * What the dispatcher does *)

(** The index of [x] in [l]. *)
Fixpoint position {A} `{EqDecision A} (x : A) (l : list A) : nat :=
  match l with
  | [] => 0
  | y :: l => if decide (x = y) then 0 else S (position x l)
  end.

Lemma imap_position {A B} (f : nat → nat * A → B) (l : list (nat * A)) :
  NoDup l.*1 → imap f l = map (λ x, f (position x.1 l.*1) x) l.
Proof.
  revert f. induction l as [|x l IH]; intros f Hnd; [done|]. cbn in Hnd. apply NoDup_cons in Hnd as [Hx Hnd].
  cbn [imap map position fmap list_fmap]. rewrite decide_True by done. f_equal. rewrite (IH (f ∘ S) Hnd).
  apply map_ext_in. intros y Hy. cbn. rewrite decide_False; [done|]. intros Hyx. apply Hx. rewrite <- Hyx.
  apply list_elem_of_fmap_2. by apply list_elem_of_In.
Qed.

(** Sorting a permutation of an increasing list gives that list. *)
Section sorting.
Context {A : Type}.
Implicit Types l : list (nat * A).

Lemma insert_by_order_perm x l : insert_by_order x l ≡ₚ x :: l.
Proof.
  induction l as [|y l IH]; [done|]. cbn [insert_by_order]. case_match; [done|]. rewrite IH. apply perm_swap.
Qed.

Lemma sort_by_order_perm l : sort_by_order l ≡ₚ l.
Proof. induction l as [|x l IH]; [done|]. cbn. rewrite insert_by_order_perm. by rewrite IH. Qed.

Lemma insert_by_order_sorted x l :
  StronglySorted (λ a b : nat * A, a.1 ≤ b.1) l → StronglySorted (λ a b : nat * A, a.1 ≤ b.1) (insert_by_order x l).
Proof.
  induction l as [|y l IH]; intros Hs; [repeat constructor|]. cbn [insert_by_order].
  inversion Hs as [|?? Hs' Hy]; subst. destruct (Nat.leb_spec x.1 y.1) as [Hle|Hgt].
  - constructor; [done|]. constructor; [done|]. eapply Forall_impl; [exact Hy|]. intros a Ha. cbn in Ha. lia.
  - constructor; [by apply IH|]. rewrite insert_by_order_perm. constructor; [lia|done].
Qed.

Lemma sort_by_order_sorted l : StronglySorted (λ a b : nat * A, a.1 ≤ b.1) (sort_by_order l).
Proof. induction l as [|x l IH]; [constructor|]. by apply insert_by_order_sorted. Qed.

Lemma sorted_unique l1 l2 :
  l1 ≡ₚ l2 → StronglySorted (λ a b : nat * A, a.1 ≤ b.1) l1 → StronglySorted (λ a b : nat * A, a.1 < b.1) l2 → l1 = l2.
Proof.
  revert l1. induction l2 as [|y l2 IH]; intros l1 Hp H1 H2; [by apply Permutation_nil_r|].
  inversion H2 as [|?? H2' Hy]; subst.
  destruct l1 as [|x l1]; [by apply Permutation_nil_l in Hp|]. inversion H1 as [|?? H1' Hx]; subst.
  assert (x = y) as ->.
  { assert (Hin : x ∈ y :: l2) by (rewrite <- Hp; left).
    assert (Hin' : y ∈ x :: l1) by (rewrite Hp; left).
    apply elem_of_cons in Hin as [->|Hin]; [done|]. apply elem_of_cons in Hin' as [->|Hin']; [done|].
    rewrite Forall_forall in Hy, Hx. specialize (Hy x Hin). specialize (Hx y Hin'). lia. }
  f_equal. apply IH; [by apply Permutation_cons_inv in Hp|done|done].
Qed.

Lemma sort_by_order_unique l l' :
  l ≡ₚ l' → StronglySorted (λ a b : nat * A, a.1 < b.1) l' → sort_by_order l = l'.
Proof. intros Hp Hs. apply sorted_unique; [by rewrite sort_by_order_perm|apply sort_by_order_sorted|done]. Qed.

End sorting.

Section dispatch.
Context `{RegexEngine} `{HookWorld} `{FuturesUnordered} {T : Type}.
Implicit Types (rt : CommandHookRuntime) (handlers : list ConfiguredHandler).

(** The handlers that are waited for, with their configured order. *)
Definition sync_handlers handlers : list (nat * ConfiguredHandler) :=
  List.filter (λ ih, can_apply_control_effects ih.2) (imap pair handlers).

Definition async_handlers handlers : list ConfiguredHandler :=
  List.filter (λ h, negb (is_executor_scoped h) && bool_decide (execution_mode h = Async)) handlers.

Definition executor_handlers handlers : list ConfiguredHandler := List.filter is_executor_scoped handlers.

(** The runtime after some tasks were handed to it. *)
Definition schedule_all rt (tasks : list HookTask) : CommandHookRuntime := foldl schedule_async_task rt tasks.

Lemma sync_not_executor h : can_apply_control_effects h = true → is_executor_scoped h = false.
Proof. unfold can_apply_control_effects, execution_mode. intros Hc. bool_facts. by destruct (is_executor_scoped h). Qed.

Lemma partition_executor rt n handlers input cwd turn :
  (partition_handlers rt n handlers input cwd turn).1.1 = executor_handlers handlers.
Proof.
  revert rt n. induction handlers as [|h handlers IH]; intros rt n; [done|].
  cbn [partition_handlers executor_handlers List.filter]. destruct (is_executor_scoped h) eqn:E.
  - specialize (IH rt (S n)). destruct (partition_handlers rt (S n) _ _ _ _) as [[??]?]. cbn in *. by rewrite IH.
  - case_bool_decide; [apply IH|]. specialize (IH rt (S n)).
    destruct (partition_handlers rt (S n) _ _ _ _) as [[??]?]. exact IH.
Qed.

Lemma partition_runtime rt n handlers input cwd turn :
  (partition_handlers rt n handlers input cwd turn).1.2
  = foldl (λ rt h, schedule_async_hook rt h input cwd turn) rt (async_handlers handlers).
Proof.
  revert rt n. induction handlers as [|h handlers IH]; intros rt n; [done|].
  cbn [partition_handlers async_handlers List.filter]. destruct (is_executor_scoped h) eqn:E; cbn [negb andb].
  - specialize (IH rt (S n)). destruct (partition_handlers rt (S n) _ _ _ _) as [[??]?]. exact IH.
  - case_bool_decide; [apply IH|]. specialize (IH rt (S n)).
    destruct (partition_handlers rt (S n) _ _ _ _) as [[??]?]. exact IH.
Qed.

Lemma partition_pending rt n handlers input cwd turn :
  (partition_handlers rt n handlers input cwd turn).2
  = List.filter (λ ih, can_apply_control_effects ih.2) (imap (λ i h, (n + i, h)) handlers).
Proof.
  revert rt n. induction handlers as [|h handlers IH]; intros rt n; [done|].
  cbn [partition_handlers imap List.filter snd]. rewrite Nat.add_0_r.
  assert (Hs : imap ((λ i h, (n + i, h)) ∘ S) handlers = imap (λ i h, (S n + i, h)) handlers).
  { apply imap_ext. intros. cbn. f_equal. lia. }
  rewrite Hs. unfold can_apply_control_effects at 1. destruct (is_executor_scoped h) eqn:E.
  - assert (Hm : execution_mode h = Async) by (unfold execution_mode; by rewrite E). rewrite Hm. cbn [bool_decide].
    specialize (IH rt (S n)). destruct (partition_handlers rt (S n) _ _ _ _) as [[??]?]. rewrite <- IH. done.
  - destruct (execution_mode h) eqn:Hm.
    + specialize (IH rt (S n)). destruct (partition_handlers rt (S n) _ _ _ _) as [[??]?]. rewrite <- IH. done.
    + rewrite <- (IH (schedule_async_hook rt h input cwd turn) (S n)). done.
Qed.

Lemma schedule_async_hook_keeps rt h input cwd turn :
  rt_shell (schedule_async_hook rt h input cwd turn) = rt_shell rt
  ∧ rt_environment (schedule_async_hook rt h input cwd turn) = rt_environment rt.
Proof. unfold schedule_async_hook, schedule_async_task. destruct rt as [?? [] []]; done. Qed.

Lemma execute_handler_scheduled i rt l h input cwd turn input' cwd' metadata :
  execute_handler i (foldl (λ rt h, schedule_async_hook rt h input cwd turn) rt l) h input' cwd' metadata
  = execute_handler i rt h input' cwd' metadata.
Proof.
  revert rt. induction l as [|x l IH]; intros rt; [done|]. cbn [foldl]. rewrite IH. unfold execute_handler.
  destruct (schedule_async_hook_keeps rt x input cwd turn) as [-> ->]. done.
Qed.

Lemma sync_handlers_sorted handlers : StronglySorted (λ a b : nat * ConfiguredHandler, a.1 < b.1) (sync_handlers handlers).
Proof.
  unfold sync_handlers. assert (Hs : ∀ n, StronglySorted (λ a b : nat * ConfiguredHandler, a.1 < b.1)
    (List.filter (λ ih, can_apply_control_effects ih.2) (imap (λ i h, (n + i, h)) handlers))
    ∧ Forall (λ a, n ≤ a.1) (imap (λ i h, (n + i, h)) handlers)).
  { induction handlers as [|h handlers IH]; intros n; [split; constructor|]. cbn [imap].
    rewrite (imap_ext ((λ i h, (n + i, h)) ∘ S) (λ i h, (S n + i, h))) by (intros; cbn; f_equal; lia).
    destruct (IH (S n)) as [Hs Hf]. split.
    - cbn [List.filter snd]. case_match; [|done]. constructor; [done|]. apply Forall_forall. intros a Ha.
      apply list_elem_of_In, filter_In in Ha as [Ha _]. rewrite Forall_forall in Hf.
      specialize (Hf a). cbn. rewrite list_elem_of_In in Hf. specialize (Hf Ha). cbn in *. lia.
    - constructor; [cbn; lia|]. eapply Forall_impl; [exact Hf|]. intros a Ha. cbn in *. lia. }
  rewrite (imap_ext pair (λ i h, (0 + i, h))) by done. apply Hs.
Qed.

Lemma sorted_nodup_fst {A} (l : list (nat * A)) : StronglySorted (λ a b : nat * A, a.1 < b.1) l → NoDup l.*1.
Proof.
  induction 1 as [|a l _ IH Ha]; cbn; [constructor|]. constructor; [|done].
  intros (b & Hb & Hin)%list_elem_of_fmap. rewrite Forall_forall in Ha. specialize (Ha b Hin). lia.
Qed.

Lemma drain_spec (l : list (nat * ParsedHandler T)) n stop block :
  drain n stop block l
  = (imap (λ k x, (x.1, with_completion_order x.2 (n + k))) l,
     stop || existsb (λ x, bool_decide (run_status (ev_run (completed x.2)) = Stopped)) l,
     block || existsb (λ x, bool_decide (run_status (ev_run (completed x.2)) = Blocked)) l).
Proof.
  revert n stop block. induction l as [|[i p] l IH]; intros n stop block; [by rewrite !orb_false_r|].
  cbn [drain imap existsb fst snd]. rewrite IH, Nat.add_0_r, !orb_assoc.
  do 3 f_equal. apply imap_ext. intros. cbn. do 2 f_equal. lia.
Qed.

Lemma existsb_perm {A} (f : A → bool) l1 l2 : l1 ≡ₚ l2 → existsb f l1 = existsb f l2.
Proof.
  induction 1 as [|x l1 l2 _ IH|x y l|l1 l2 l3 _ IH1 _ IH2]; cbn; [done|by rewrite IH| |congruence].
  by rewrite !orb_assoc, (orb_comm (f y)).
Qed.

Lemma mapM_pure {A B} (f : A → option B) (g : A → B) l : (∀ x, x ∈ l → f x = Some (g x)) → mapM f l = Some (map g l).
Proof.
  induction l as [|x l IH]; intros Hf; [done|]. cbn. rewrite (Hf x) by left. cbn.
  rewrite IH; [done|]. intros y Hy. apply Hf. by right.
Qed.

Lemma fmap_map {A B} (f : A → B) l : f <$> l = map f l.
Proof. induction l as [|x l IH]; [done|]. cbn. by rewrite <- IH. Qed.

Lemma existsb_map {A B} (f : B → bool) (g : A → B) l : existsb f (map g l) = existsb (λ x, f (g x)) l.
Proof. induction l as [|x l IH]; [done|]. cbn. by rewrite IH. Qed.

(** Where the run of a handler falls among the completions. *)
Definition completion_position handlers (i : nat) : nat := position i (completions (sync_handlers handlers)).*1.

(** Sorted by their configured order, the completions are the handlers that were waited for. *)
Lemma completed_in_order handlers (P : nat * ConfiguredHandler → ParsedHandler T) :
  sort_by_order (imap (λ k x, (x.1, with_completion_order x.2 (0 + k)))
    (map (λ ih, (ih.1, P ih)) (completions (sync_handlers handlers))))
  = map (λ ih, (ih.1, with_completion_order (P ih) (completion_position handlers ih.1))) (sync_handlers handlers).
Proof.
  apply sort_by_order_unique.
  - rewrite <- (Permutation_map _ (completions_perm (sync_handlers handlers))).
    rewrite <- (fmap_map (λ ih, (ih.1, P ih))), imap_fmap.
    rewrite (imap_ext _ (λ k ih, (ih.1, with_completion_order (P ih) k))) by done.
    rewrite imap_position by (rewrite completions_perm; apply sorted_nodup_fst, sync_handlers_sorted). done.
  - pose proof (sync_handlers_sorted handlers) as Hs. induction Hs as [|a l _ IH Ha]; cbn; constructor; [done|].
    apply Forall_map. done.
Qed.

(** The dispatcher returns the parsed results of the handlers it waits for, in configured order
    and each with the place its run completed at; it schedules the asynchronous handlers, and
    the executor's handlers unless some result blocks and none stops. *)
Lemma execute_handlers_spec rt handlers input cwd turn metadata
    (parse : ConfiguredHandler → HandlerRunResult → option str → option (ParsedHandler T))
    (P : nat * ConfiguredHandler → ParsedHandler T) :
  (∀ ih, ih ∈ sync_handlers handlers → parse ih.2 (execute_handler ih.1 rt ih.2 input cwd None) turn = Some (P ih)) →
  let status ih := run_status (ev_run (completed (P ih))) in
  let should_stop := existsb (λ ih, bool_decide (status ih = Stopped)) (sync_handlers handlers) in
  let should_block := existsb (λ ih, bool_decide (status ih = Blocked)) (sync_handlers handlers) in
  let rt1 := foldl (λ rt h, schedule_async_hook rt h input cwd turn) rt (async_handlers handlers) in
  execute_handlers_with_metadata rt handlers input cwd turn metadata parse
  = Some (if should_stop || negb should_block
          then schedule_all rt1 (map (λ h, ExecutorTask h input cwd metadata) (executor_handlers handlers)) else rt1,
          map (λ ih, with_completion_order (P ih) (completion_position handlers ih.1)) (sync_handlers handlers)).
Proof.
  intros HP status should_stop should_block rt1. unfold execute_handlers_with_metadata.
  pose proof (partition_executor rt 0 handlers input cwd turn) as Hx.
  pose proof (partition_runtime rt 0 handlers input cwd turn) as Hr. fold rt1 in Hr.
  pose proof (partition_pending rt 0 handlers input cwd turn) as Hp. fold (sync_handlers handlers) in Hp.
  destruct (partition_handlers rt 0 handlers input cwd turn) as [[ex rt'] pend]. cbn [fst snd] in *. subst ex rt' pend.
  rewrite (mapM_pure _ (λ ih, (ih.1, P ih))).
  2:{ intros [i h] Hin. rewrite completions_perm in Hin. unfold rt1. rewrite execute_handler_scheduled.
      specialize (HP (i, h) Hin). cbn in HP. by rewrite HP. }
  cbn [mbind option_bind]. rewrite drain_spec. cbn [orb].
  assert (Hst : ∀ s, existsb (λ x : nat * ParsedHandler T, bool_decide (run_status (ev_run (completed x.2)) = s))
      (map (λ ih, (ih.1, P ih)) (completions (sync_handlers handlers)))
    = existsb (λ ih, bool_decide (status ih = s)) (sync_handlers handlers)).
  { intros s. rewrite existsb_map. apply existsb_perm, completions_perm. }
  rewrite !Hst. fold should_stop should_block. f_equal. f_equal.
  { destruct (_ || _); [|done]. unfold schedule_all. generalize rt1.
    induction (executor_handlers handlers) as [|h l IH]; intros r; [done|]. apply IH. }
  etransitivity; [exact (f_equal (fmap snd) (completed_in_order handlers P))|]. by rewrite fmap_map, map_map.
Qed.

End dispatch.
