(* ===== verification/HookOutput.v ===== *)
(** What a hook prints: the wire types (hooks/src/schema.rs) and the output parser
    (hooks/src/engine/output_parser.rs).

    Parameter ([WireDecode]): the deserializers serde derives for the wire types; the parse of
    the text itself is [json_from_str]. *)
From S2P Require Import Prelude Str Hooks.

(** * Wire types *)

Record HookUniversalOutputWire := mkUniversalWire {
  uw_continue : bool;
  uw_stop_reason : option str;
  uw_suppress_output : bool;
  uw_system_message : option str
}.

Inductive PreToolUsePermissionDecisionWire := PermAllow | PermDeny | PermAsk.

Inductive PreToolUseDecisionWire := DecApprove | DecBlock.

Inductive BlockDecisionWire := BlockDecision.

Inductive PermissionRequestBehaviorWire := BehaviorAllow | BehaviorDeny.

Record PreToolUseHookSpecificOutputWire := mkPreSpecific {
  permission_decision : option PreToolUsePermissionDecisionWire;
  permission_decision_reason : option str;
  pre_updated_input : option Value;
  pre_additional_context : option str
}.

Record PreToolUseCommandOutputWire := mkPreWire {
  pre_universal : HookUniversalOutputWire;
  pre_decision : option PreToolUseDecisionWire;
  pre_reason : option str;
  pre_hook_specific_output : option PreToolUseHookSpecificOutputWire
}.

Record PermissionRequestDecisionWire := mkPermDecisionWire {
  behavior : PermissionRequestBehaviorWire;
  updated_input : option Value;
  updated_permissions : option Value;
  message : option str;
  interrupt : bool
}.

(** [PermissionRequestHookSpecificOutputWire] is its optional decision. *)
Record PermissionRequestCommandOutputWire := mkPermWire {
  perm_universal : HookUniversalOutputWire;
  perm_hook_specific_output : option (option PermissionRequestDecisionWire)
}.

Record PostToolUseHookSpecificOutputWire := mkPostSpecific {
  post_additional_context : option str;
  updated_mcp_tool_output : option Value
}.

Record PostToolUseCommandOutputWire := mkPostWire {
  post_universal : HookUniversalOutputWire;
  post_decision : option BlockDecisionWire;
  post_reason : option str;
  post_hook_specific_output : option PostToolUseHookSpecificOutputWire
}.

(** [SessionStartCommandOutputWire] and [SubagentStartCommandOutputWire]: the specific output is
    its optional context. *)
Record StartCommandOutputWire := mkStartWire {
  start_universal : HookUniversalOutputWire;
  start_hook_specific_output : option (option str)
}.

Record UserPromptSubmitCommandOutputWire := mkPromptWire {
  prompt_universal : HookUniversalOutputWire;
  prompt_decision : option BlockDecisionWire;
  prompt_reason : option str;
  prompt_hook_specific_output : option (option str)
}.

(** [StopCommandOutputWire] and [SubagentStopCommandOutputWire] *)
Record StopCommandOutputWire := mkStopWire {
  stop_universal : HookUniversalOutputWire;
  stop_decision : option BlockDecisionWire;
  stop_wire_reason : option str
}.

Record InterruptCommandOutputWire := mkInterruptWire { int_system_message : option str }.

Class WireDecode := {
  pre_tool_use_of_value : Value → option PreToolUseCommandOutputWire;
  permission_request_of_value : Value → option PermissionRequestCommandOutputWire;
  post_tool_use_of_value : Value → option PostToolUseCommandOutputWire;
  (** [PreCompactCommandOutputWire] and [PostCompactCommandOutputWire] *)
  pre_compact_of_value : Value → option HookUniversalOutputWire;
  post_compact_of_value : Value → option HookUniversalOutputWire;
  session_start_of_value : Value → option StartCommandOutputWire;
  subagent_start_of_value : Value → option StartCommandOutputWire;
  user_prompt_submit_of_value : Value → option UserPromptSubmitCommandOutputWire;
  stop_of_value : Value → option StopCommandOutputWire;
  subagent_stop_of_value : Value → option StopCommandOutputWire;
  interrupt_of_value : Value → option InterruptCommandOutputWire
}.

(** * Parsed outputs *)

Record UniversalOutput := mkUniversal {
  continue_processing : bool;
  stop_reason : option str;
  suppress_output : bool;
  system_message : option str
}.

Record SessionStartOutput := mkSessionStartOutput {
  sso_universal : UniversalOutput;
  sso_additional_context : option str
}.

Record PreToolUseOutput := mkPreToolUseOutput {
  pto_universal : UniversalOutput;
  pto_block_reason : option str;
  pto_additional_context : option str;
  pto_updated_input : option Value;
  pto_invalid_reason : option str
}.

Inductive PermissionRequestDecision := Allow | Deny (message : str).

Record PermissionRequestOutput := mkPermissionRequestOutput {
  pro_universal : UniversalOutput;
  pro_decision : option PermissionRequestDecision;
  pro_invalid_reason : option str
}.

Record PostToolUseOutput := mkPostToolUseOutput {
  po_universal : UniversalOutput;
  po_should_block : bool;
  po_reason : option str;
  po_invalid_block_reason : option str;
  po_additional_context : option str;
  po_invalid_reason : option str
}.

Record UserPromptSubmitOutput := mkUserPromptSubmitOutput {
  upo_universal : UniversalOutput;
  upo_should_block : bool;
  upo_reason : option str;
  upo_invalid_block_reason : option str;
  upo_additional_context : option str
}.

Record StopOutput := mkStopOutput {
  so_universal : UniversalOutput;
  so_should_block : bool;
  so_reason : option str;
  so_invalid_block_reason : option str
}.

Record StatelessHookOutput := mkStateless { sl_universal : UniversalOutput; sl_invalid_reason : option str }.

Record InterruptOutput := mkInterruptOutput { io_system_message : option str }.

(** [Option::or_else] and [is_some] *)
Definition or_else {A} (a b : option A) : option A := match a with Some _ => a | None => b end.
Definition is_some {A} (a : option A) : bool := match a with Some _ => true | None => false end.

(** * The parser *)

Definition universal_from (value : HookUniversalOutputWire) : UniversalOutput :=
  mkUniversal (uw_continue value) (uw_stop_reason value) (uw_suppress_output value) (uw_system_message value).

Definition trimmed_reason (reason : str) : option str :=
  let trimmed := trim reason in if trimmed =s [] then None else Some trimmed.

Definition looks_like_json (stdout : str) : bool :=
  let trimmed := trim_start stdout in starts_with (lit "{") trimmed || starts_with (lit "[") trimmed.

Definition invalid_block_message (event_name : string) : str :=
  lit event_name ++ lit " hook returned decision:block without a non-empty reason".

Definition invalid_pre_tool_use_reason_message : str :=
  lit "PreToolUse hook returned permissionDecision:deny without a non-empty permissionDecisionReason".

Definition unsupported_pre_tool_use_universal (u : UniversalOutput) : option str :=
  if negb (continue_processing u) then Some (lit "PreToolUse hook returned unsupported continue:false")
  else if is_some (stop_reason u) then Some (lit "PreToolUse hook returned unsupported stopReason")
  else if suppress_output u then Some (lit "PreToolUse hook returned unsupported suppressOutput")
  else None.

Definition unsupported_permission_request_universal (u : UniversalOutput) : option str :=
  if negb (continue_processing u) then Some (lit "PermissionRequest hook returned unsupported continue:false")
  else if is_some (stop_reason u) then Some (lit "PermissionRequest hook returned unsupported stopReason")
  else if suppress_output u then Some (lit "PermissionRequest hook returned unsupported suppressOutput")
  else None.

Definition unsupported_post_tool_use_universal (u : UniversalOutput) : option str :=
  if suppress_output u then Some (lit "PostToolUse hook returned unsupported suppressOutput") else None.

Definition unsupported_permission_request_hook_specific_output (decision : option PermissionRequestDecisionWire) : option str :=
  match decision with
  | None => None
  | Some decision =>
      if is_some (updated_input decision) then Some (lit "PermissionRequest hook returned unsupported updatedInput")
      else if is_some (updated_permissions decision) then Some (lit "PermissionRequest hook returned unsupported updatedPermissions")
      else if interrupt decision then Some (lit "PermissionRequest hook returned unsupported interrupt:true")
      else None
  end.

Definition permission_request_decision (decision : PermissionRequestDecisionWire) : PermissionRequestDecision :=
  match behavior decision with
  | BehaviorAllow => Allow
  | BehaviorDeny => Deny (default (lit "PermissionRequest hook denied approval") (message decision ≫= trimmed_reason))
  end.

Definition unsupported_post_tool_use_hook_specific_output (output : PostToolUseHookSpecificOutputWire) : option str :=
  if is_some (updated_mcp_tool_output output) then Some (lit "PostToolUse hook returned unsupported updatedMCPToolOutput") else None.

Definition unsupported_pre_tool_use_hook_specific_output (output : PreToolUseHookSpecificOutputWire) : option str :=
  let allows := match permission_decision output with Some PermAllow => true | _ => false end in
  if is_some (pre_updated_input output) && negb allows
  then Some (lit "PreToolUse hook returned updatedInput without permissionDecision:allow")
  else
    match permission_decision output with
    | Some PermAllow =>
        if is_some (pre_updated_input output) then None
        else Some (lit "PreToolUse hook returned unsupported permissionDecision:allow")
    | Some PermAsk => Some (lit "PreToolUse hook returned unsupported permissionDecision:ask")
    | Some PermDeny =>
        if is_some (permission_decision_reason output ≫= trimmed_reason) then None
        else Some invalid_pre_tool_use_reason_message
    | None =>
        if is_some (permission_decision_reason output)
        then Some (lit "PreToolUse hook returned permissionDecisionReason without permissionDecision")
        else None
    end.

Definition unsupported_pre_tool_use_legacy_decision (decision : option PreToolUseDecisionWire) (reason : option str) : option str :=
  match decision with
  | Some DecApprove => Some (lit "PreToolUse hook returned unsupported decision:approve")
  | Some DecBlock => if is_some (reason ≫= trimmed_reason) then None else Some (invalid_block_message "PreToolUse")
  | None => if is_some reason then Some (lit "PreToolUse hook returned reason without decision") else None
  end.

(** A block needs a reason that is not blank. *)
Definition blank_reason (reason : option str) : bool :=
  match reason with Some reason => trim reason =s [] | None => true end.

Section parser.
Context `{HookWorld} `{WireDecode}.

Definition parse_json {T} (from_value : Value → option T) (stdout : str) : option T :=
  let trimmed := trim stdout in
  if trimmed =s [] then None
  else value ← json_from_str trimmed;
       match value with VObject _ => from_value value | _ => None end.

Definition session_start_output (universal : HookUniversalOutputWire) (additional_context : option str) : SessionStartOutput :=
  mkSessionStartOutput (universal_from universal) additional_context.

Definition parse_session_start (stdout : str) : option SessionStartOutput :=
  wire ← parse_json session_start_of_value stdout;
  Some (session_start_output (start_universal wire) (mjoin (start_hook_specific_output wire))).

Definition parse_subagent_start (stdout : str) : option SessionStartOutput :=
  wire ← parse_json subagent_start_of_value stdout;
  Some (session_start_output (start_universal wire) (mjoin (start_hook_specific_output wire))).

Definition pre_tool_use_output (wire : PreToolUseCommandOutputWire) : PreToolUseOutput :=
  let universal := universal_from (pre_universal wire) in
  let specific := pre_hook_specific_output wire in
  let additional_context := specific ≫= pre_additional_context in
  let use_hook_specific_decision :=
    match specific with
    | Some output => is_some (permission_decision output) || is_some (permission_decision_reason output)
                     || is_some (pre_updated_input output)
    | None => false
    end in
  let invalid_reason :=
    or_else (unsupported_pre_tool_use_universal universal)
      (if use_hook_specific_decision then specific ≫= unsupported_pre_tool_use_hook_specific_output
       else unsupported_pre_tool_use_legacy_decision (pre_decision wire) (pre_reason wire)) in
  let block_reason :=
    if is_some invalid_reason then None
    else if use_hook_specific_decision
    then specific ≫= λ output, match permission_decision output with
                               | Some PermDeny => permission_decision_reason output ≫= trimmed_reason
                               | _ => None
                               end
    else match pre_decision wire with
         | Some DecBlock => pre_reason wire ≫= trimmed_reason
         | Some DecApprove | None => None
         end in
  let updated_input :=
    if is_some invalid_reason then None
    else specific ≫= λ output, match permission_decision output with Some PermAllow => pre_updated_input output | _ => None end in
  mkPreToolUseOutput universal block_reason additional_context updated_input invalid_reason.

Definition parse_pre_tool_use (stdout : str) : option PreToolUseOutput :=
  pre_tool_use_output <$> parse_json pre_tool_use_of_value stdout.

Definition permission_request_output (wire : PermissionRequestCommandOutputWire) : PermissionRequestOutput :=
  let universal := universal_from (perm_universal wire) in
  let specific := perm_hook_specific_output wire in
  let decision := mjoin specific in
  let invalid_reason :=
    or_else (unsupported_permission_request_universal universal)
      (specific ≫= unsupported_permission_request_hook_specific_output) in
  let decision := if is_some invalid_reason then None else permission_request_decision <$> decision in
  mkPermissionRequestOutput universal decision invalid_reason.

Definition parse_permission_request (stdout : str) : option PermissionRequestOutput :=
  permission_request_output <$> parse_json permission_request_of_value stdout.

Definition post_tool_use_output (wire : PostToolUseCommandOutputWire) : PostToolUseOutput :=
  let universal := universal_from (post_universal wire) in
  let invalid_reason :=
    or_else (unsupported_post_tool_use_universal universal)
      (post_hook_specific_output wire ≫= unsupported_post_tool_use_hook_specific_output) in
  let should_block := is_some (post_decision wire) in
  let invalid_block_reason :=
    if should_block && blank_reason (post_reason wire) then Some (invalid_block_message "PostToolUse")
    else if negb should_block && continue_processing universal && is_some (post_reason wire)
    then Some (lit "PostToolUse hook returned reason without decision")
    else None in
  mkPostToolUseOutput universal (should_block && negb (is_some invalid_reason) && negb (is_some invalid_block_reason))
    (post_reason wire) invalid_block_reason (post_hook_specific_output wire ≫= post_additional_context) invalid_reason.

Definition parse_post_tool_use (stdout : str) : option PostToolUseOutput :=
  post_tool_use_output <$> parse_json post_tool_use_of_value stdout.

Definition parse_pre_compact (stdout : str) : option StatelessHookOutput :=
  wire ← parse_json pre_compact_of_value stdout; Some (mkStateless (universal_from wire) None).

Definition parse_post_compact (stdout : str) : option StatelessHookOutput :=
  wire ← parse_json post_compact_of_value stdout; Some (mkStateless (universal_from wire) None).

Definition parse_interrupt (stdout : str) : option InterruptOutput :=
  wire ← parse_json interrupt_of_value stdout; Some (mkInterruptOutput (int_system_message wire)).

Definition user_prompt_submit_output (wire : UserPromptSubmitCommandOutputWire) : UserPromptSubmitOutput :=
  let should_block := is_some (prompt_decision wire) in
  let invalid_block_reason :=
    if should_block && blank_reason (prompt_reason wire) then Some (invalid_block_message "UserPromptSubmit") else None in
  mkUserPromptSubmitOutput (universal_from (prompt_universal wire)) (should_block && negb (is_some invalid_block_reason))
    (prompt_reason wire) invalid_block_reason (mjoin (prompt_hook_specific_output wire)).

Definition parse_user_prompt_submit (stdout : str) : option UserPromptSubmitOutput :=
  user_prompt_submit_output <$> parse_json user_prompt_submit_of_value stdout.

Definition stop_output (universal : HookUniversalOutputWire) (decision : option BlockDecisionWire) (reason : option str)
    (event_name : string) : StopOutput :=
  let should_block := is_some decision in
  let invalid_block_reason :=
    if should_block && blank_reason reason then Some (invalid_block_message event_name) else None in
  mkStopOutput (universal_from universal) (should_block && negb (is_some invalid_block_reason)) reason invalid_block_reason.

Definition parse_stop (stdout : str) : option StopOutput :=
  wire ← parse_json stop_of_value stdout;
  Some (stop_output (stop_universal wire) (stop_decision wire) (stop_wire_reason wire) "Stop").

Definition parse_subagent_stop (stdout : str) : option StopOutput :=
  wire ← parse_json subagent_stop_of_value stdout;
  Some (stop_output (stop_universal wire) (stop_decision wire) (stop_wire_reason wire) "SubagentStop").

End parser.
