(* ===== verification/HookEvents.v ===== *)
(** The events of the hooks (hooks/src/events): what each run of a handler amounts to
    ([parse_completed]) and how the runs of an event are combined into its outcome ([run]),
    with the engine around them (hooks/src/engine/mod.rs).

    The serialized input of an event is an argument: [inr] when serialization failed. *)
From stdpp Require Import pretty.
From S2P Require Import Prelude Str Hooks HookOutput.

(** * Shared by the events *)

(** What one run amounts to: its status, the entries it reports and the data of the event. *)
Record RunOutcome (T : Type) := mkOutcome { oc_status : HookRunStatus; oc_entries : list HookOutputEntry; oc_data : T }.

#[global] Arguments mkOutcome {T}.
#[global] Arguments oc_status {T} _.
#[global] Arguments oc_entries {T} _.
#[global] Arguments oc_data {T} _.

(** A failed run reports one error. *)
Definition failed_run {T} (text : str) (d : T) : RunOutcome T := mkOutcome Failed [mkEntry KError text] d.

Definition exited_with_code (code : Z) : str := lit "hook exited with code " ++ lit (pretty code).
Definition exited_without_code : str := lit "hook exited without a status code".
Definition terminated_without_code : str := lit "hook process terminated without an exit code".

Definition warning_entries (system_message : option str) : list HookOutputEntry :=
  match system_message with Some text => [mkEntry KWarning text] | None => [] end.

Definition stop_entries (stop_reason : option str) : list HookOutputEntry :=
  match stop_reason with Some text => [mkEntry KStop text] | None => [] end.

Section events.
Context `{RegexEngine} `{HookWorld} `{WireDecode} `{FuturesUnordered}.

Definition finish_parsed {T} (h : ConfiguredHandler) (r : HandlerRunResult) (turn_id : option str) (o : RunOutcome T)
    : option (ParsedHandler T) :=
  run ← completed_summary h r (oc_status o) (oc_entries o);
  Some (mkParsed (mkCompleted turn_id run) (oc_data o) 0).

(** The context of a parsed output, when it counts. *)
Definition context_entries (h : ConfiguredHandler) (counts : bool) (entries : list HookOutputEntry) (context : option str)
    : list HookOutputEntry * list AdditionalContext :=
  match context with
  | Some text => if counts then append_additional_context entries [] h text else (entries, [])
  | None => (entries, [])
  end.

(** * PreToolUse (events/pre_tool_use.rs) *)

Record PreToolUseHandlerData := mkPreData {
  pd_should_block : bool;
  pd_block_reason : option str;
  pd_additional_contexts : list AdditionalContext;
  pd_updated_input : option Value
}.

Definition pre_none : PreToolUseHandlerData := mkPreData false None [] None.

Definition pre_outcome (h : ConfiguredHandler) (r : HandlerRunResult) : RunOutcome PreToolUseHandlerData :=
  match error r with
  | Some e => failed_run e pre_none
  | None =>
      match exit_code r with
      | Some code =>
          if Z.eqb code 0 then
            if trim (stdout r) =s [] then mkOutcome Completed [] pre_none
            else match parse_pre_tool_use (stdout r) with
            | Some parsed =>
                let entries := warning_entries (system_message (pto_universal parsed)) in
                let '(entries, contexts) :=
                  context_entries h (negb (can_apply_control_effects h) || negb (is_some (pto_invalid_reason parsed)))
                    entries (pto_additional_context parsed) in
                if can_apply_control_effects h then
                  match pto_invalid_reason parsed with
                  | Some invalid => mkOutcome Failed (entries ++ [mkEntry KError invalid]) (mkPreData false None contexts None)
                  | None =>
                      match pto_block_reason parsed with
                      | Some reason => mkOutcome Blocked (entries ++ [mkEntry KFeedback reason]) (mkPreData true (Some reason) contexts None)
                      | None => mkOutcome Completed entries (mkPreData false None contexts (pto_updated_input parsed))
                      end
                  end
                else mkOutcome Completed entries (mkPreData false None contexts None)
            | None =>
                if looks_like_json (stdout r) then failed_run (lit "hook returned invalid pre-tool-use JSON output") pre_none
                else mkOutcome Completed [] pre_none
            end
          else if Z.eqb code 2 && can_apply_control_effects h then
            match trimmed_non_empty (stderr r) with
            | Some reason => mkOutcome Blocked [mkEntry KFeedback reason] (mkPreData true (Some reason) [] None)
            | None => failed_run (lit "PreToolUse hook exited with code 2 but did not write a blocking reason to stderr") pre_none
            end
          else failed_run (exited_with_code code) pre_none
      | None => failed_run exited_without_code pre_none
      end
  end.

Definition pre_parse_completed (h : ConfiguredHandler) (r : HandlerRunResult) (turn_id : option str) :=
  finish_parsed h r turn_id (pre_outcome h r).

(** [Iterator::max_by_key]: the last of the greatest *)
Fixpoint max_by_key {A} (l : list (nat * A)) : option (nat * A) :=
  match l with
  | [] => None
  | x :: l => match max_by_key l with Some y => Some (if (y.1 <? x.1)%nat then x else y) | None => Some x end
  end.

Definition latest_updated_input (results : list (ParsedHandler PreToolUseHandlerData)) : option Value :=
  snd <$> max_by_key (omap (λ r, (λ v, (completion_order r, v)) <$> pd_updated_input (data r)) results).

Record PreToolUseOutcome := mkPreOutcome {
  pre_hook_events : list HookCompletedEvent;
  pre_should_block : bool;
  pre_block_reason : option str;
  pre_additional_contexts : list str;
  pre_updated_input_of : option Value
}.

(** The fields of [PreToolUseRequest] and [PostToolUseRequest] that the events read, and of
    [PermissionRequestRequest] with its [run_id_suffix] last. *)
Record ToolUseRequest := mkToolUse { tu_turn_id : str; tu_cwd : str; tu_tool_name : str; tu_matcher_aliases : list str; tu_tool_use_id : str }.

Definition pre_preview (handlers : list ConfiguredHandler) (req : ToolUseRequest) (now : ConfiguredHandler → Z) : option (list HookRunSummary) :=
  mapM (λ h, s ← running_summary h now; Some (hook_run_for_tool_use s (tu_tool_use_id req)))
    (select_handlers_for_matcher_inputs handlers PreToolUse (matcher_inputs (tu_tool_name req) (tu_matcher_aliases req))).

Definition pre_aggregate (req : ToolUseRequest) (results : list (ParsedHandler PreToolUseHandlerData)) : PreToolUseOutcome :=
  let should_block := existsb (λ r, pd_should_block (data r)) results in
  mkPreOutcome (map (λ r, hook_completed_for_tool_use (completed r) (tu_tool_use_id req)) results)
    should_block
    (find_map (λ r, pd_block_reason (data r)) results)
    (maybe_spill_additional_contexts (flatten_additional_contexts (map (λ r, pd_additional_contexts (data r)) results)))
    (if should_block then None else latest_updated_input results).

Definition pre_run (rt : CommandHookRuntime) (handlers : list ConfiguredHandler) (req : ToolUseRequest)
    (input_json : str + str) (now : ConfiguredHandler → Z) : option (CommandHookRuntime * PreToolUseOutcome) :=
  let matched := select_handlers_for_matcher_inputs handlers PreToolUse (matcher_inputs (tu_tool_name req) (tu_matcher_aliases req)) in
  match matched with
  | [] => Some (rt, mkPreOutcome [] false None [] None)
  | _ =>
      match input_json with
      | inr error =>
          events ← serialization_failure_hook_events_for_tool_use matched (Some (tu_turn_id req))
            (lit "failed to serialize pre tool use hook input: " ++ error) (tu_tool_use_id req) now;
          Some (rt, mkPreOutcome events false None [] None)
      | inl input_json =>
          '(rt, results) ← execute_handlers rt matched input_json (tu_cwd req) (Some (tu_turn_id req)) pre_parse_completed;
          Some (rt, pre_aggregate req results)
      end
  end.

(** * PermissionRequest (events/permission_request.rs) *)

Definition perm_outcome (h : ConfiguredHandler) (r : HandlerRunResult) : RunOutcome (option PermissionRequestDecision) :=
  match error r with
  | Some e => failed_run e None
  | None =>
      match exit_code r with
      | Some code =>
          if Z.eqb code 0 then
            if trim (stdout r) =s [] then mkOutcome Completed [] None
            else match parse_permission_request (stdout r) with
            | Some parsed =>
                let entries := warning_entries (system_message (pro_universal parsed)) in
                if can_apply_control_effects h then
                  match pro_invalid_reason parsed with
                  | Some invalid => mkOutcome Failed (entries ++ [mkEntry KError invalid]) None
                  | None =>
                      match pro_decision parsed with
                      | Some Allow => mkOutcome Completed entries (Some Allow)
                      | Some (Deny message) => mkOutcome Blocked (entries ++ [mkEntry KFeedback message]) (Some (Deny message))
                      | None => mkOutcome Completed entries None
                      end
                  end
                else mkOutcome Completed entries None
            | None =>
                if looks_like_json (stdout r) then failed_run (lit "hook returned invalid permission-request JSON output") None
                else mkOutcome Completed [] None
            end
          else if Z.eqb code 2 && can_apply_control_effects h then
            match trimmed_non_empty (stderr r) with
            | Some message => mkOutcome Blocked [mkEntry KFeedback message] (Some (Deny message))
            | None => failed_run (lit "PermissionRequest hook exited with code 2 but did not write a denial reason to stderr") None
            end
          else failed_run (exited_with_code code) None
      | None => failed_run exited_without_code None
      end
  end.

Definition perm_parse_completed (h : ConfiguredHandler) (r : HandlerRunResult) (turn_id : option str) :=
  finish_parsed h r turn_id (perm_outcome h r).

Fixpoint resolve_decisions (resolved_allow : option PermissionRequestDecision) (decisions : list PermissionRequestDecision)
    : option PermissionRequestDecision :=
  match decisions with
  | [] => resolved_allow
  | Allow :: decisions => resolve_decisions (Some Allow) decisions
  | Deny message :: _ => Some (Deny message)
  end.

Definition resolve_permission_request_decision (decisions : list PermissionRequestDecision) : option PermissionRequestDecision :=
  resolve_decisions None decisions.

Record PermissionRequestOutcome := mkPermOutcome {
  perm_hook_events : list HookCompletedEvent;
  perm_decision : option PermissionRequestDecision
}.

Definition perm_preview (handlers : list ConfiguredHandler) (req : ToolUseRequest) (now : ConfiguredHandler → Z) : option (list HookRunSummary) :=
  mapM (λ h, s ← running_summary h now; Some (hook_run_for_tool_use s (tu_tool_use_id req)))
    (select_handlers_for_matcher_inputs handlers PermissionRequest (matcher_inputs (tu_tool_name req) (tu_matcher_aliases req))).

Definition perm_run (rt : CommandHookRuntime) (handlers : list ConfiguredHandler) (req : ToolUseRequest)
    (input_json : str + str) (now : ConfiguredHandler → Z) : option (CommandHookRuntime * PermissionRequestOutcome) :=
  let matched := select_handlers_for_matcher_inputs handlers PermissionRequest (matcher_inputs (tu_tool_name req) (tu_matcher_aliases req)) in
  match matched with
  | [] => Some (rt, mkPermOutcome [] None)
  | _ =>
      match input_json with
      | inr error =>
          events ← serialization_failure_hook_events_for_tool_use matched (Some (tu_turn_id req))
            (lit "failed to serialize permission request hook input: " ++ error) (tu_tool_use_id req) now;
          Some (rt, mkPermOutcome events None)
      | inl input_json =>
          '(rt, results) ← execute_handlers rt matched input_json (tu_cwd req) (Some (tu_turn_id req)) perm_parse_completed;
          Some (rt, mkPermOutcome (map (λ r, hook_completed_for_tool_use (completed r) (tu_tool_use_id req)) results)
                      (resolve_permission_request_decision (omap data results)))
      end
  end.

(** * PostToolUse (events/post_tool_use.rs) *)

Record PostToolUseHandlerData := mkPostData {
  psd_should_block : bool;
  psd_additional_contexts : list AdditionalContext;
  psd_feedback_messages : list str
}.

Definition post_none : PostToolUseHandlerData := mkPostData false [] [].

Definition post_control (entries : list HookOutputEntry) (contexts : list AdditionalContext) (parsed : PostToolUseOutput)
    : RunOutcome PostToolUseHandlerData :=
  if negb (continue_processing (po_universal parsed)) then
    let stop_text := default (lit "PostToolUse hook stopped execution") (stop_reason (po_universal parsed)) in
    let model_feedback := default stop_text (po_reason parsed ≫= trimmed_non_empty) in
    mkOutcome Stopped (entries ++ [mkEntry KStop stop_text]) (mkPostData false contexts [model_feedback])
  else match po_invalid_reason parsed with
  | Some invalid => mkOutcome Failed (entries ++ [mkEntry KError invalid]) (mkPostData false contexts [])
  | None =>
      match po_invalid_block_reason parsed with
      | Some invalid => mkOutcome Failed (entries ++ [mkEntry KError invalid]) (mkPostData false contexts [])
      | None =>
          if po_should_block parsed then
            match po_reason parsed with
            | Some reason => mkOutcome Blocked (entries ++ [mkEntry KFeedback reason]) (mkPostData true contexts [reason])
            | None => mkOutcome Blocked entries (mkPostData true contexts [])
            end
          else mkOutcome Completed entries (mkPostData false contexts [])
      end
  end.

Definition post_outcome (h : ConfiguredHandler) (r : HandlerRunResult) : RunOutcome PostToolUseHandlerData :=
  match error r with
  | Some e => failed_run e post_none
  | None =>
      match exit_code r with
      | Some code =>
          if Z.eqb code 0 then
            if trim (stdout r) =s [] then mkOutcome Completed [] post_none
            else match parse_post_tool_use (stdout r) with
            | Some parsed =>
                let '(entries, contexts) :=
                  context_entries h
                    (negb (can_apply_control_effects h)
                     || negb (is_some (po_invalid_reason parsed)) && negb (is_some (po_invalid_block_reason parsed)))
                    (warning_entries (system_message (po_universal parsed))) (po_additional_context parsed) in
                if can_apply_control_effects h then post_control entries contexts parsed
                else mkOutcome Completed entries (mkPostData false contexts [])
            | None =>
                if looks_like_json (stdout r) then failed_run (lit "hook returned invalid post-tool-use JSON output") post_none
                else mkOutcome Completed [] post_none
            end
          else if Z.eqb code 2 && can_apply_control_effects h then
            match trimmed_non_empty (stderr r) with
            | Some reason => mkOutcome Blocked [mkEntry KFeedback reason] (mkPostData true [] [reason])
            | None => failed_run (lit "PostToolUse hook exited with code 2 but did not write feedback to stderr") post_none
            end
          else failed_run (exited_with_code code) post_none
      | None => failed_run exited_without_code post_none
      end
  end.

Definition post_parse_completed (h : ConfiguredHandler) (r : HandlerRunResult) (turn_id : option str) :=
  finish_parsed h r turn_id (post_outcome h r).

Record PostToolUseOutcome := mkPostOutcome {
  post_hook_events : list HookCompletedEvent;
  post_should_block : bool;
  post_additional_contexts : list str;
  post_feedback_message : option str
}.

Definition post_run (rt : CommandHookRuntime) (handlers : list ConfiguredHandler) (req : ToolUseRequest)
    (input_json : str + str) (now : ConfiguredHandler → Z) : option (CommandHookRuntime * PostToolUseOutcome) :=
  let matched := select_handlers_for_matcher_inputs handlers PostToolUse (matcher_inputs (tu_tool_name req) (tu_matcher_aliases req)) in
  match matched with
  | [] => Some (rt, mkPostOutcome [] false [] None)
  | _ =>
      match input_json with
      | inr error =>
          events ← serialization_failure_hook_events_for_tool_use matched (Some (tu_turn_id req))
            (lit "failed to serialize post tool use hook input: " ++ error) (tu_tool_use_id req) now;
          Some (rt, mkPostOutcome events false [] None)
      | inl input_json =>
          '(rt, results) ← execute_handlers rt matched input_json (tu_cwd req) (Some (tu_turn_id req)) post_parse_completed;
          Some (rt, mkPostOutcome (map (λ r, hook_completed_for_tool_use (completed r) (tu_tool_use_id req)) results)
                      (existsb (λ r, psd_should_block (data r)) results)
                      (maybe_spill_additional_contexts (flatten_additional_contexts (map (λ r, psd_additional_contexts (data r)) results)))
                      (join_text_chunks (mjoin (map (λ r, psd_feedback_messages (data r)) results))))
      end
  end.

(** [ClaudeHooksEngine::run_post_tool_use]: the feedback is spilled too. *)
Definition run_post_tool_use (rt : CommandHookRuntime) (handlers : list ConfiguredHandler) (req : ToolUseRequest)
    (input_json : str + str) (now : ConfiguredHandler → Z) : option (CommandHookRuntime * PostToolUseOutcome) :=
  '(rt, outcome) ← post_run rt handlers req input_json now;
  let 'mkPostOutcome events block contexts feedback := outcome in
  Some (rt, mkPostOutcome events block contexts (maybe_spill_text <$> feedback)).

(** * Events that can stop the turn: UserPromptSubmit, SessionStart and SubagentStart *)

(** [UserPromptSubmitHandlerData] and [SessionStartHandlerData] *)
Record StopContextData := mkStopContext {
  scd_should_stop : bool;
  scd_stop_reason : option str;
  scd_additional_contexts : list AdditionalContext
}.

Definition no_stop : StopContextData := mkStopContext false None [].

(** ** events/user_prompt_submit.rs *)

Definition prompt_control (entries : list HookOutputEntry) (contexts : list AdditionalContext) (parsed : UserPromptSubmitOutput)
    : RunOutcome StopContextData :=
  if negb (continue_processing (upo_universal parsed)) then
    let reason := stop_reason (upo_universal parsed) in
    mkOutcome Stopped (entries ++ stop_entries reason) (mkStopContext true reason contexts)
  else match upo_invalid_block_reason parsed with
  | Some invalid => mkOutcome Failed (entries ++ [mkEntry KError invalid]) (mkStopContext false None contexts)
  | None =>
      if upo_should_block parsed then
        mkOutcome Blocked (entries ++ match upo_reason parsed with Some reason => [mkEntry KFeedback reason] | None => [] end)
          (mkStopContext true (upo_reason parsed) contexts)
      else mkOutcome Completed entries (mkStopContext false None contexts)
  end.

Definition prompt_outcome (h : ConfiguredHandler) (r : HandlerRunResult) : RunOutcome StopContextData :=
  match error r with
  | Some e => failed_run e no_stop
  | None =>
      match exit_code r with
      | Some code =>
          if Z.eqb code 0 then
            if trim (stdout r) =s [] then mkOutcome Completed [] no_stop
            else match parse_user_prompt_submit (stdout r) with
            | Some parsed =>
                let '(entries, contexts) :=
                  context_entries h (negb (can_apply_control_effects h) || negb (is_some (upo_invalid_block_reason parsed)))
                    (warning_entries (system_message (upo_universal parsed))) (upo_additional_context parsed) in
                if can_apply_control_effects h then prompt_control entries contexts parsed
                else mkOutcome Completed entries (mkStopContext false None contexts)
            | None =>
                if looks_like_json (stdout r) then failed_run (lit "hook returned invalid user prompt submit JSON output") no_stop
                else let '(entries, contexts) := append_additional_context [] [] h (trim (stdout r)) in
                     mkOutcome Completed entries (mkStopContext false None contexts)
            end
          else if Z.eqb code 2 && can_apply_control_effects h then
            match trimmed_non_empty (stderr r) with
            | Some reason => mkOutcome Blocked [mkEntry KFeedback reason] (mkStopContext true (Some reason) [])
            | None => failed_run (lit "UserPromptSubmit hook exited with code 2 but did not write a blocking reason to stderr") no_stop
            end
          else failed_run (exited_with_code code) no_stop
      | None => failed_run exited_without_code no_stop
      end
  end.

Definition prompt_parse_completed (h : ConfiguredHandler) (r : HandlerRunResult) (turn_id : option str) :=
  finish_parsed h r turn_id (prompt_outcome h r).

(** [UserPromptSubmitOutcome] and [SessionStartOutcome] *)
Record StopContextOutcome := mkStopContextOutcome {
  sc_hook_events : list HookCompletedEvent;
  sc_should_stop : bool;
  sc_stop_reason : option str;
  sc_additional_contexts : list str
}.

Definition stop_context_aggregate (results : list (ParsedHandler StopContextData)) : StopContextOutcome :=
  mkStopContextOutcome (map completed results)
    (existsb (λ r, scd_should_stop (data r)) results)
    (find_map (λ r, scd_stop_reason (data r)) results)
    (maybe_spill_additional_contexts (flatten_additional_contexts (map (λ r, scd_additional_contexts (data r)) results))).

Definition prompt_run (rt : CommandHookRuntime) (handlers : list ConfiguredHandler) (turn_id cwd : str)
    (input_json : str + str) (now : ConfiguredHandler → Z) : option (CommandHookRuntime * StopContextOutcome) :=
  let matched := select_handlers handlers UserPromptSubmit None in
  match matched with
  | [] => Some (rt, mkStopContextOutcome [] false None [])
  | _ =>
      match input_json with
      | inr error =>
          events ← serialization_failure_hook_events matched (Some turn_id)
            (lit "failed to serialize user prompt submit hook input: " ++ error) now;
          Some (rt, mkStopContextOutcome events false None [])
      | inl input_json =>
          '(rt, results) ← execute_handlers rt matched input_json cwd (Some turn_id) prompt_parse_completed;
          Some (rt, stop_context_aggregate results)
      end
  end.

(** ** events/session_start.rs *)

Inductive SessionStartSource := Startup | Resume | Clear | Compact | Fork.

Definition session_start_source_str (s : SessionStartSource) : str :=
  match s with
  | Startup => lit "startup" | Resume => lit "resume" | Clear => lit "clear" | Compact => lit "compact" | Fork => lit "fork"
  end.

Inductive StartHookTarget :=
| TargetSessionStart (source : SessionStartSource)
| TargetSubagentStart (turn_id agent_id agent_type : str).

Definition start_event_name (t : StartHookTarget) : HookEventName :=
  match t with TargetSessionStart _ => SessionStart | TargetSubagentStart _ _ _ => SubagentStart end.

Definition start_matcher_input (t : StartHookTarget) : str :=
  match t with TargetSessionStart source => session_start_source_str source | TargetSubagentStart _ _ agent_type => agent_type end.

(** The parser of the event; another event panics. *)
Definition start_parser (e : HookEventName) : option (str → option SessionStartOutput) :=
  match e with
  | SessionStart => Some parse_session_start
  | SubagentStart => Some parse_subagent_start
  | _ => None
  end.

Definition start_outcome (h : ConfiguredHandler) (r : HandlerRunResult) : option (RunOutcome StopContextData) :=
  match error r with
  | Some e => Some (failed_run e no_stop)
  | None =>
      match exit_code r with
      | Some code =>
          if Z.eqb code 0 then
            if trim (stdout r) =s [] then Some (mkOutcome Completed [] no_stop)
            else
              parser ← start_parser (event_name h);
              match parser (stdout r) with
              | Some parsed =>
                  let '(entries, contexts) :=
                    context_entries h true (warning_entries (system_message (sso_universal parsed))) (sso_additional_context parsed) in
                  if can_apply_control_effects h && bool_decide (event_name h = SessionStart)
                     && negb (continue_processing (sso_universal parsed))
                  then let reason := stop_reason (sso_universal parsed) in
                       Some (mkOutcome Stopped (entries ++ stop_entries reason) (mkStopContext true reason contexts))
                  else Some (mkOutcome Completed entries (mkStopContext false None contexts))
              | None =>
                  if looks_like_json (stdout r) then
                    Some (failed_run (if bool_decide (event_name h = SessionStart)
                      then lit "hook returned invalid session start JSON output"
                      else lit "hook returned invalid subagent start JSON output") no_stop)
                  else let '(entries, contexts) := append_additional_context [] [] h (trim (stdout r)) in
                       Some (mkOutcome Completed entries (mkStopContext false None contexts))
              end
          else Some (failed_run (exited_with_code code) no_stop)
      | None => Some (failed_run exited_without_code no_stop)
      end
  end.

Definition start_parse_completed (h : ConfiguredHandler) (r : HandlerRunResult) (turn_id : option str) :=
  outcome ← start_outcome h r; finish_parsed h r turn_id outcome.

Definition start_run (rt : CommandHookRuntime) (handlers : list ConfiguredHandler) (target : StartHookTarget) (cwd : str)
    (turn_id : option str) (input_json : str + str) (now : ConfiguredHandler → Z) : option (CommandHookRuntime * StopContextOutcome) :=
  let matched := select_handlers handlers (start_event_name target) (Some (start_matcher_input target)) in
  let turn_id := match target with TargetSessionStart _ => turn_id | TargetSubagentStart turn_id _ _ => Some turn_id end in
  match matched with
  | [] => Some (rt, mkStopContextOutcome [] false None [])
  | _ =>
      match input_json with
      | inr error =>
          let what := match target with TargetSessionStart _ => lit "session start" | TargetSubagentStart _ _ _ => lit "subagent start" end in
          events ← serialization_failure_hook_events matched turn_id
            (lit "failed to serialize " ++ what ++ lit " hook input: " ++ error) now;
          Some (rt, mkStopContextOutcome events false None [])
      | inl input_json =>
          '(rt, results) ← execute_handlers rt matched input_json cwd turn_id start_parse_completed;
          Some (rt, stop_context_aggregate results)
      end
  end.

(** * Stop and SubagentStop (events/stop.rs) *)

Inductive StopHookTarget :=
| TargetStop
| TargetMemoryConsolidation
| TargetSubagentStop (agent_id agent_type : str).

Definition stop_event_name (t : StopHookTarget) : HookEventName :=
  match t with TargetStop | TargetMemoryConsolidation => Stop | TargetSubagentStop _ _ => SubagentStop end.

Definition stop_matcher_input (t : StopHookTarget) : option str :=
  match t with TargetStop | TargetMemoryConsolidation => None | TargetSubagentStop _ agent_type => Some agent_type end.

Definition is_memory_consolidation (t : StopHookTarget) : bool :=
  match t with TargetMemoryConsolidation => true | _ => false end.

(** The sources whose hooks run for internal memory work. *)
Definition policy_source (s : HookSource) : bool :=
  match s with
  | SrcUser | SrcProject | SrcSessionFlags | SrcPlugin => false
  | SrcSystem | SrcMdm | SrcCloudRequirements | SrcCloudManagedConfig | SrcLegacyManagedConfigFile
  | SrcLegacyManagedConfigMdm | SrcUnknown => true
  end.

Definition stop_select_handlers (t : StopHookTarget) (handlers : list ConfiguredHandler) : list ConfiguredHandler :=
  List.filter (λ h, negb (is_memory_consolidation t) || is_executor_scoped h || policy_source (source h))
    (select_handlers handlers (stop_event_name t) (stop_matcher_input t)).

Record StopHandlerData := mkStopData {
  sd_should_stop : bool;
  sd_stop_reason : option str;
  sd_should_block : bool;
  sd_block_reason : option str;
  sd_continuation_fragments : list HookPromptFragment
}.

(** The run of a stop hook before its continuation prompt gets the identifier of the run. *)
Record StopRun := mkStopRun {
  sr_should_stop : bool;
  sr_stop_reason : option str;
  sr_block_reason : option str
}.

Definition stop_none : StopRun := mkStopRun false None None.

(** The parser of the event; another event panics. *)
Definition stop_parser (e : HookEventName) : option (str → option StopOutput) :=
  match e with
  | Stop => Some parse_stop
  | SubagentStop => Some parse_subagent_stop
  | _ => None
  end.

Definition stop_control (entries : list HookOutputEntry) (parsed : StopOutput) : RunOutcome StopRun :=
  if negb (continue_processing (so_universal parsed)) then
    let reason := stop_reason (so_universal parsed) in
    mkOutcome Stopped (entries ++ stop_entries reason) (mkStopRun true reason None)
  else match so_invalid_block_reason parsed with
  | Some invalid => mkOutcome Failed (entries ++ [mkEntry KError invalid]) stop_none
  | None =>
      match (if so_should_block parsed then so_reason parsed ≫= trimmed_non_empty else None) with
      | Some reason => mkOutcome Blocked (entries ++ [mkEntry KFeedback reason]) (mkStopRun false None (Some reason))
      | None => mkOutcome Completed entries stop_none
      end
  end.

Definition stop_outcome (parser : str → option StopOutput) (h : ConfiguredHandler) (r : HandlerRunResult) : RunOutcome StopRun :=
  let is_stop := bool_decide (event_name h = Stop) in
  match error r with
  | Some e => failed_run e stop_none
  | None =>
      match exit_code r with
      | Some code =>
          if Z.eqb code 0 then
            if trim (stdout r) =s [] then mkOutcome Completed [] stop_none
            else match parser (stdout r) with
            | Some parsed =>
                let entries := warning_entries (system_message (so_universal parsed)) in
                if can_apply_control_effects h then stop_control entries parsed else mkOutcome Completed entries stop_none
            | None =>
                if can_apply_control_effects h || looks_like_json (stdout r) then
                  failed_run (if is_stop then lit "hook returned invalid stop hook JSON output"
                    else lit "hook returned invalid subagent stop hook JSON output") stop_none
                else mkOutcome Completed [] stop_none
            end
          else if Z.eqb code 2 && can_apply_control_effects h then
            match trimmed_non_empty (stderr r) with
            | Some reason => mkOutcome Blocked [mkEntry KFeedback reason] (mkStopRun false None (Some reason))
            | None =>
                failed_run ((if is_stop then lit "Stop" else lit "SubagentStop")
                  ++ lit " hook exited with code 2 but did not write a continuation prompt to stderr") stop_none
            end
          else failed_run (exited_with_code code) stop_none
      | None => failed_run exited_without_code stop_none
      end
  end.

Definition stop_parse_completed (h : ConfiguredHandler) (r : HandlerRunResult) (turn_id : option str) : option (ParsedHandler StopHandlerData) :=
  parser ← stop_parser (event_name h);
  let 'mkOutcome status entries run := stop_outcome parser h r in
  summary ← completed_summary h r status entries;
  let fragments := match sr_block_reason run with Some prompt => [mkFragment prompt (run_id_of summary)] | None => [] end in
  Some (mkParsed (mkCompleted turn_id summary)
    (mkStopData (sr_should_stop run) (sr_stop_reason run) (is_some (sr_block_reason run)) (sr_block_reason run) fragments) 0).

Definition aggregate_results (results : list StopHandlerData) : StopHandlerData :=
  let should_stop := existsb sd_should_stop results in
  let should_block := negb should_stop && existsb sd_should_block results in
  mkStopData should_stop (find_map sd_stop_reason results) should_block
    (if should_block then join_text_chunks (omap sd_block_reason results) else None)
    (if should_block then mjoin (map sd_continuation_fragments (List.filter sd_should_block results)) else []).

Record StopOutcome := mkStopOutcome { st_hook_events : list HookCompletedEvent; st_data : StopHandlerData }.

Definition stop_nothing : StopHandlerData := mkStopData false None false None [].

Definition stop_preview (handlers : list ConfiguredHandler) (t : StopHookTarget) (now : ConfiguredHandler → Z) : option (list HookRunSummary) :=
  mapM (λ h, running_summary h now) (List.filter (λ h, negb (is_executor_scoped h)) (stop_select_handlers t handlers)).

Definition stop_run (rt : CommandHookRuntime) (handlers : list ConfiguredHandler) (t : StopHookTarget) (turn_id cwd : str)
    (request_metadata : option JsonMap) (input_json : str + str) (now : ConfiguredHandler → Z) : option (CommandHookRuntime * StopOutcome) :=
  let matched := stop_select_handlers t handlers in
  match matched with
  | [] => Some (rt, mkStopOutcome [] stop_nothing)
  | _ =>
      let cleanup h := is_memory_consolidation t && is_executor_scoped h in
      let executor_cleanup := List.filter cleanup matched in
      let matched := List.filter (λ h, negb (cleanup h)) matched in
      match input_json with
      | inr error =>
          let what := match t with TargetSubagentStop _ _ => lit "subagent stop" | _ => lit "stop" end in
          events ← serialization_failure_hook_events matched (Some turn_id)
            (lit "failed to serialize " ++ what ++ lit " hook input: " ++ error) now;
          Some (rt, mkStopOutcome events stop_nothing)
      | inl input_json =>
          '(rt, results) ← execute_handlers_with_metadata rt matched input_json cwd (Some turn_id) request_metadata stop_parse_completed;
          rt ← match executor_cleanup with
               | [] => Some rt
               | _ => fst <$> execute_handlers_with_metadata rt executor_cleanup input_json cwd (Some turn_id) request_metadata stop_parse_completed
               end;
          Some (rt, mkStopOutcome (map completed results) (aggregate_results (map data results)))
      end
  end.

(** [ClaudeHooksEngine::run_stop]: the continuation prompts are spilled. *)
Definition run_stop (rt : CommandHookRuntime) (handlers : list ConfiguredHandler) (t : StopHookTarget) (turn_id cwd : str)
    (request_metadata : option JsonMap) (input_json : str + str) (now : ConfiguredHandler → Z) : option (CommandHookRuntime * StopOutcome) :=
  '(rt, outcome) ← stop_run rt handlers t turn_id cwd request_metadata input_json now;
  let 'mkStopData stop reason block block_reason fragments := st_data outcome in
  Some (rt, mkStopOutcome (st_hook_events outcome)
    (mkStopData stop reason block block_reason (maybe_spill_prompt_fragments fragments))).

(** * PreCompact and PostCompact (events/compact.rs) *)

Record CompactHandlerData := mkCompactData { cd_should_stop : bool; cd_stop_reason : option str }.

Definition compact_none : CompactHandlerData := mkCompactData false None.

Definition compact_outcome (event_label : str) (parse_output : str → option StatelessHookOutput) (h : ConfiguredHandler)
    (r : HandlerRunResult) : RunOutcome CompactHandlerData :=
  match error r with
  | Some e => failed_run e compact_none
  | None =>
      match exit_code r with
      | Some code =>
          if Z.eqb code 0 then
            if trim (stdout r) =s [] then mkOutcome Completed [] compact_none
            else match parse_output (stdout r) with
            | Some parsed =>
                let entries := warning_entries (system_message (sl_universal parsed)) in
                if can_apply_control_effects h then
                  if negb (continue_processing (sl_universal parsed)) then
                    let reason := stop_reason (sl_universal parsed) in
                    mkOutcome Stopped (entries ++ [mkEntry KStop (default (event_label ++ lit " hook stopped execution") reason)])
                      (mkCompactData true reason)
                  else match sl_invalid_reason parsed with
                  | Some invalid => mkOutcome Failed (entries ++ [mkEntry KError invalid]) compact_none
                  | None => mkOutcome Completed entries compact_none
                  end
                else mkOutcome Completed entries compact_none
            | None =>
                if looks_like_json (stdout r)
                then failed_run (lit "hook returned invalid " ++ event_label ++ lit " hook JSON output") compact_none
                else mkOutcome Completed [] compact_none
            end
          else failed_run (default (exited_with_code code) (trimmed_non_empty (stderr r))) compact_none
      | None => failed_run terminated_without_code compact_none
      end
  end.

Definition compact_parse_pre_completed (h : ConfiguredHandler) (r : HandlerRunResult) (turn_id : option str) :=
  finish_parsed h r turn_id (compact_outcome (lit "PreCompact") parse_pre_compact h r).

Definition compact_parse_post_completed (h : ConfiguredHandler) (r : HandlerRunResult) (turn_id : option str) :=
  finish_parsed h r turn_id (compact_outcome (lit "PostCompact") parse_post_compact h r).

(** [PreCompactOutcome] and [StatelessHookOutcome] *)
Record CompactOutcome := mkCompactOutcome {
  co_hook_events : list HookCompletedEvent;
  co_should_stop : bool;
  co_stop_reason : option str
}.

Definition compact_aggregate (results : list (ParsedHandler CompactHandlerData)) : CompactOutcome :=
  mkCompactOutcome (map completed results) (existsb (λ r, cd_should_stop (data r)) results)
    (find_map (λ r, cd_stop_reason (data r)) results).

Definition compact_run_pre (rt : CommandHookRuntime) (handlers : list ConfiguredHandler) (trigger turn_id cwd : str)
    (input_json : str + str) (now : ConfiguredHandler → Z) : option (CommandHookRuntime * CompactOutcome) :=
  let matched := select_handlers handlers PreCompact (Some trigger) in
  match matched with
  | [] => Some (rt, mkCompactOutcome [] false None)
  | _ =>
      match input_json with
      | inr error =>
          events ← serialization_failure_hook_events matched (Some turn_id)
            (lit "failed to serialize pre compact hook input: " ++ error) now;
          Some (rt, mkCompactOutcome events false None)
      | inl input_json =>
          '(rt, results) ← execute_handlers rt matched input_json cwd (Some turn_id) compact_parse_pre_completed;
          Some (rt, compact_aggregate results)
      end
  end.

Definition compact_run_post (rt : CommandHookRuntime) (handlers : list ConfiguredHandler) (trigger turn_id cwd : str)
    (input_json : str + str) (now : ConfiguredHandler → Z) : option (CommandHookRuntime * CompactOutcome) :=
  let matched := select_handlers handlers PostCompact (Some trigger) in
  match matched with
  | [] => Some (rt, mkCompactOutcome [] false None)
  | _ =>
      match input_json with
      | inr error =>
          events ← serialization_failure_hook_events matched (Some turn_id)
            (lit "failed to serialize post compact hook input: " ++ error) now;
          Some (rt, mkCompactOutcome events false None)
      | inl input_json =>
          '(rt, results) ← execute_handlers rt matched input_json cwd (Some turn_id) compact_parse_post_completed;
          Some (rt, compact_aggregate results)
      end
  end.

(** * Interrupt and SessionEnd (events/interrupt.rs, events/session_end.rs): they only report *)

Definition interrupt_outcome (r : HandlerRunResult) : RunOutcome unit :=
  match error r with
  | Some e => failed_run e tt
  | None =>
      match exit_code r with
      | Some code =>
          if Z.eqb code 0 then
            if trim (stdout r) =s [] then mkOutcome Completed [] tt
            else match parse_interrupt (stdout r) with
            | Some parsed => mkOutcome Completed (warning_entries (io_system_message parsed)) tt
            | None =>
                failed_run (if looks_like_json (stdout r) then lit "hook returned invalid interrupt hook JSON output"
                  else lit "Interrupt hook returned non-JSON stdout") tt
            end
          else failed_run (exited_with_code code) tt
      | None => failed_run exited_without_code tt
      end
  end.

Definition interrupt_parse_completed (h : ConfiguredHandler) (r : HandlerRunResult) (turn_id : option str) :=
  finish_parsed h r turn_id (interrupt_outcome r).

Definition interrupt_run (rt : CommandHookRuntime) (handlers : list ConfiguredHandler) (turn_id cwd : str)
    (request_metadata : option JsonMap) (input_json : str + str) (now : ConfiguredHandler → Z)
    : option (CommandHookRuntime * list HookCompletedEvent) :=
  let matched := select_handlers handlers Interrupt None in
  match matched with
  | [] => Some (rt, [])
  | _ =>
      match input_json with
      | inr error =>
          events ← serialization_failure_hook_events matched (Some turn_id)
            (lit "failed to serialize interrupt hook input: " ++ error) now;
          Some (rt, events)
      | inl input_json =>
          '(rt, results) ← execute_handlers_with_metadata rt matched input_json cwd (Some turn_id) request_metadata interrupt_parse_completed;
          Some (rt, map completed results)
      end
  end.

Definition SESSION_END_REASON : str := lit "other".

Definition session_end_outcome (r : HandlerRunResult) : RunOutcome unit :=
  match error r, exit_code r with
  | Some e, _ => failed_run e tt
  | None, Some code =>
      if Z.eqb code 0 then mkOutcome Completed [] tt
      else failed_run (default (exited_with_code code) (trimmed_non_empty (stderr r))) tt
  | None, None => failed_run terminated_without_code tt
  end.

Definition session_end_parse_completed (h : ConfiguredHandler) (r : HandlerRunResult) (turn_id : option str) :=
  finish_parsed h r turn_id (session_end_outcome r).

Definition session_end_run (rt : CommandHookRuntime) (handlers : list ConfiguredHandler) (turn_id cwd : str)
    (input_json : str + str) (now : ConfiguredHandler → Z) : option (CommandHookRuntime * list HookCompletedEvent) :=
  let matched := select_handlers handlers SessionEnd (Some SESSION_END_REASON) in
  match matched with
  | [] => Some (rt, [])
  | _ =>
      match input_json with
      | inr error =>
          events ← serialization_failure_hook_events matched (Some turn_id)
            (lit "failed to serialize session end hook input: " ++ error) now;
          Some (rt, events)
      | inl input_json =>
          '(rt, results) ← execute_handlers rt matched input_json cwd (Some turn_id) session_end_parse_completed;
          Some (rt, map completed results)
      end
  end.

(** * Previews *)

Definition post_preview (handlers : list ConfiguredHandler) (req : ToolUseRequest) (now : ConfiguredHandler → Z) : option (list HookRunSummary) :=
  mapM (λ h, s ← running_summary h now; Some (hook_run_for_tool_use s (tu_tool_use_id req)))
    (select_handlers_for_matcher_inputs handlers PostToolUse (matcher_inputs (tu_tool_name req) (tu_matcher_aliases req))).

Definition prompt_preview (handlers : list ConfiguredHandler) (now : ConfiguredHandler → Z) : option (list HookRunSummary) :=
  mapM (λ h, running_summary h now) (select_handlers handlers UserPromptSubmit None).

Definition start_preview (handlers : list ConfiguredHandler) (target : StartHookTarget) (now : ConfiguredHandler → Z) : option (list HookRunSummary) :=
  mapM (λ h, running_summary h now) (select_handlers handlers (start_event_name target) (Some (start_matcher_input target))).

Definition compact_preview_pre (handlers : list ConfiguredHandler) (trigger : str) (now : ConfiguredHandler → Z) : option (list HookRunSummary) :=
  mapM (λ h, running_summary h now) (select_handlers handlers PreCompact (Some trigger)).

Definition compact_preview_post (handlers : list ConfiguredHandler) (trigger : str) (now : ConfiguredHandler → Z) : option (list HookRunSummary) :=
  mapM (λ h, running_summary h now) (select_handlers handlers PostCompact (Some trigger)).

Definition interrupt_preview (handlers : list ConfiguredHandler) (now : ConfiguredHandler → Z) : option (list HookRunSummary) :=
  mapM (λ h, running_summary h now) (List.filter (λ h, negb (is_executor_scoped h)) (select_handlers handlers Interrupt None)).

Definition session_end_preview (handlers : list ConfiguredHandler) (now : ConfiguredHandler → Z) : option (list HookRunSummary) :=
  mapM (λ h, running_summary h now) (select_handlers handlers SessionEnd (Some SESSION_END_REASON)).

End events.
