(* ===== verification/HookControl.v ===== *)
(** What hooks can do to a turn: which runs block a tool call, deny a permission or stop a turn,
    and how the runs of an event combine whatever order they complete in. *)
From S2P Require Import Prelude Str Hooks HookOutput HookEvents.

(** * What an output asks for *)

(** The output carries none of the universal fields the event does not support. *)
Definition plain_universal (u : HookUniversalOutputWire) : Prop :=
  uw_continue u = true ∧ uw_stop_reason u = None ∧ uw_suppress_output u = false.

(** The specific output takes no decision, so the decision of the output itself counts. *)
Definition undecided (specific : option PreToolUseHookSpecificOutputWire) : Prop :=
  match specific with
  | Some o => permission_decision o = None ∧ permission_decision_reason o = None ∧ pre_updated_input o = None
  | None => True
  end.

(** A PreToolUse output that blocks the call, with the reason it gives. *)
Inductive pre_denial (w : PreToolUseCommandOutputWire) : str → Prop :=
| denial_specific o r :
    plain_universal (pre_universal w) → pre_hook_specific_output w = Some o →
    permission_decision o = Some PermDeny → pre_updated_input o = None →
    permission_decision_reason o = Some r → trim r ≠ [] → pre_denial w (trim r)
| denial_legacy r :
    plain_universal (pre_universal w) → undecided (pre_hook_specific_output w) →
    pre_decision w = Some DecBlock → pre_reason w = Some r → trim r ≠ [] → pre_denial w (trim r).

(** A PreToolUse output that rewrites the input of the call. *)
Definition pre_rewrite (w : PreToolUseCommandOutputWire) (v : Value) : Prop :=
  plain_universal (pre_universal w) ∧
  ∃ o, pre_hook_specific_output w = Some o ∧ permission_decision o = Some PermAllow ∧ pre_updated_input o = Some v.

(** A PermissionRequest output that is not rejected as unsupported, and its decision. *)
Definition perm_supported (w : PermissionRequestCommandOutputWire) (d : PermissionRequestDecisionWire) : Prop :=
  plain_universal (perm_universal w) ∧ perm_hook_specific_output w = Some (Some d)
  ∧ updated_input d = None ∧ updated_permissions d = None ∧ interrupt d = false.

Lemma unsupported_pre_universal w :
  unsupported_pre_tool_use_universal (universal_from w) = None ↔ plain_universal w.
Proof.
  unfold unsupported_pre_tool_use_universal, plain_universal. destruct w as [[] [] [] m]; cbn; naive_solver.
Qed.

Lemma unsupported_perm_universal w :
  unsupported_permission_request_universal (universal_from w) = None ↔ plain_universal w.
Proof.
  unfold unsupported_permission_request_universal, plain_universal. destruct w as [[] [] [] m]; cbn; naive_solver.
Qed.

Lemma trimmed_reason_Some r t : trimmed_reason r = Some t ↔ t = trim r ∧ trim r ≠ [].
Proof. unfold trimmed_reason. case_bool_decide as Ht; naive_solver. Qed.

Lemma trimmed_non_empty_Some r t : trimmed_non_empty r = Some t ↔ t = trim r ∧ trim r ≠ [].
Proof. exact (trimmed_reason_Some r t). Qed.

(** The parser keeps a block reason exactly for the outputs that deny. *)
Lemma pre_block_reason_iff w r : pto_block_reason (pre_tool_use_output w) = Some r ↔ pre_denial w r.
Proof.
  unfold pre_tool_use_output. cbn [pto_block_reason]. split.
  - intros Hr. destruct (unsupported_pre_tool_use_universal _) eqn:Hu; cbn [or_else is_some] in Hr; [done|].
    apply unsupported_pre_universal in Hu.
    destruct (pre_hook_specific_output w) as [o|] eqn:Ho; cbn [mbind option_bind] in Hr.
    + destruct (is_some (permission_decision o) || _ || _) eqn:Hd.
      * destruct (unsupported_pre_tool_use_hook_specific_output o) eqn:Hi; cbn [is_some] in Hr; [done|].
        destruct (permission_decision o) as [[]|] eqn:Hp; try done.
        destruct (permission_decision_reason o) as [t|] eqn:Ht; [|done]. cbn in Hr.
        apply trimmed_reason_Some in Hr as [-> Hne]. eapply denial_specific; try done.
        unfold unsupported_pre_tool_use_hook_specific_output in Hi. rewrite Hp in Hi.
        by destruct (pre_updated_input o).
      * apply orb_false_iff in Hd as [[Hd1 Hd2]%orb_false_iff Hd3].
        destruct (permission_decision o) eqn:E1, (permission_decision_reason o) eqn:E2, (pre_updated_input o) eqn:E3; try done.
        destruct (unsupported_pre_tool_use_legacy_decision _ _); cbn [is_some] in Hr; [done|].
        destruct (pre_decision w) as [[]|] eqn:Hp; try done.
        destruct (pre_reason w) as [t|] eqn:Ht; [|done]. cbn in Hr. apply trimmed_reason_Some in Hr as [-> Hne].
        eapply denial_legacy; try done. rewrite Ho. done.
    + destruct (unsupported_pre_tool_use_legacy_decision _ _); cbn [is_some] in Hr; [done|].
      destruct (pre_decision w) as [[]|] eqn:Hp; try done.
      destruct (pre_reason w) as [t|] eqn:Ht; [|done]. cbn in Hr. apply trimmed_reason_Some in Hr as [-> Hne].
      eapply denial_legacy; try done. by rewrite Ho.
  - intros [o t Hu Ho Hp Hi Ht Hne|t Hu Hs Hp Ht Hne].
    + apply unsupported_pre_universal in Hu. rewrite Hu, Ho. cbn [or_else mbind option_bind].
      unfold unsupported_pre_tool_use_hook_specific_output. rewrite Hp, Hi, Ht. cbn [is_some orb andb mbind option_bind].
      assert (Hr : trimmed_reason t = Some (trim t)) by by apply trimmed_reason_Some. rewrite Hr. done.
    + apply unsupported_pre_universal in Hu. rewrite Hu, Hp, Ht. cbn [or_else mbind option_bind].
      assert (Hr : trimmed_reason t = Some (trim t)) by by apply trimmed_reason_Some.
      unfold unsupported_pre_tool_use_legacy_decision. cbn [mbind option_bind]. rewrite Hr.
      destruct (pre_hook_specific_output w) as [o|]; [|done]. destruct Hs as (-> & -> & ->). done.
Qed.

Lemma pre_updated_input_iff w v : pto_updated_input (pre_tool_use_output w) = Some v ↔ pre_rewrite w v.
Proof.
  unfold pre_tool_use_output, pre_rewrite. cbn [pto_updated_input]. rewrite <- unsupported_pre_universal. split.
  - intros Hv. destruct (unsupported_pre_tool_use_universal _) eqn:Hu; cbn [or_else is_some] in Hv; [done|].
    split; [done|]. destruct (pre_hook_specific_output w) as [o|]; cbn [mbind option_bind] in Hv; [|by case_match].
    exists o. split; [done|]. match type of Hv with (if is_some ?x then _ else _) = _ => destruct (is_some x) end; [done|]. by destruct (permission_decision o) as [[]|].
  - intros (Hu & o & Ho & Hp & Hv). rewrite Hu, Ho. cbn [or_else mbind option_bind].
    unfold unsupported_pre_tool_use_hook_specific_output. rewrite Hp, Hv. done.
Qed.

(** The parser keeps a decision exactly for the supported outputs. *)
Lemma perm_decision_iff w d :
  pro_invalid_reason (permission_request_output w) = None ∧ pro_decision (permission_request_output w) = Some d
  ↔ ∃ dw, perm_supported w dw ∧ d = permission_request_decision dw.
Proof.
  unfold permission_request_output, perm_supported. cbn [pro_invalid_reason pro_decision].
  setoid_rewrite <- unsupported_perm_universal. split.
  - intros [Hi Hd]. rewrite Hi in Hd. cbn [is_some] in Hd.
    destruct (unsupported_permission_request_universal _); [done|]. cbn [or_else] in Hi.
    destruct (perm_hook_specific_output w) as [[dw|]|]; cbn in Hi, Hd; try done.
    exists dw. destruct (updated_input dw), (updated_permissions dw), (interrupt dw); naive_solver.
  - intros (dw & (Hu & Ho & H1 & H2 & H3) & ->). rewrite Hu, Ho. cbn [or_else mbind option_bind].
    unfold unsupported_permission_request_hook_specific_output. rewrite H1, H2, H3. done.
Qed.

Lemma perm_invalid_no_decision w : is_Some (pro_invalid_reason (permission_request_output w)) → pro_decision (permission_request_output w) = None.
Proof. unfold permission_request_output. cbn. intros [x Hx]. by rewrite Hx. Qed.

(** * What a run of a handler asks for *)

Section control.
Context `{RegexEngine} `{HookWorld} `{WireDecode} `{FuturesUnordered}.

(** The handler is waited for, and its run ended with this code. *)
Definition controls (h : ConfiguredHandler) (r : HandlerRunResult) (code : Z) : Prop :=
  can_apply_control_effects h = true ∧ error r = None ∧ exit_code r = Some code.

(** The run blocks the tool call, for this reason. *)
Inductive pre_blocks (h : ConfiguredHandler) (r : HandlerRunResult) : str → Prop :=
| pre_blocks_exit : controls h r 2 → trim (stderr r) ≠ [] → pre_blocks h r (trim (stderr r))
| pre_blocks_output w reason :
    controls h r 0 → parse_json pre_tool_use_of_value (stdout r) = Some w → pre_denial w reason → pre_blocks h r reason.

(** The run rewrites the input of the tool call. *)
Definition pre_rewrites (h : ConfiguredHandler) (r : HandlerRunResult) (v : Value) : Prop :=
  controls h r 0 ∧ ∃ w, parse_json pre_tool_use_of_value (stdout r) = Some w ∧ pre_rewrite w v.

(** The run decides a permission request. *)
Inductive perm_decides (h : ConfiguredHandler) (r : HandlerRunResult) : PermissionRequestDecision → Prop :=
| perm_denies_exit : controls h r 2 → trim (stderr r) ≠ [] → perm_decides h r (Deny (trim (stderr r)))
| perm_decides_output w d :
    controls h r 0 → parse_json permission_request_of_value (stdout r) = Some w → perm_supported w d →
    perm_decides h r (permission_request_decision d).

Lemma parse_json_not_blank {T} (f : Value → option T) s x : parse_json f s = Some x → trim s ≠ [].
Proof. unfold parse_json. case_bool_decide; naive_solver. Qed.

Lemma context_entries_pair h b en c : ∃ e' c', context_entries h b en c = (e', c').
Proof. destruct (context_entries h b en c) as [e' c']. eauto. Qed.

(** A PreToolUse run blocks, and rewrites, exactly when it asks for it. *)
Lemma pre_outcome_block h r reason :
  pd_block_reason (oc_data (pre_outcome h r)) = Some reason ↔ pre_blocks h r reason.
Proof.
  unfold pre_outcome. split.
  - intros Hb. destruct (error r) eqn:He; [done|]. destruct (exit_code r) as [code|] eqn:Hc; [|done].
    destruct (Z.eqb_spec code 0) as [->|Hn0].
    + case_bool_decide; [done|]. unfold parse_pre_tool_use in Hb.
      destruct (parse_json _ _) as [w|] eqn:Hp; cbn [fmap option_fmap option_map] in Hb; [|by destruct (looks_like_json _)].
      match type of Hb with context [context_entries ?a ?b ?c ?d] => destruct (context_entries_pair a b c d) as (e' & c' & Hce) end.
      rewrite Hce in Hb. destruct (can_apply_control_effects h) eqn:Hs; [|done].
      destruct (pto_invalid_reason _); [done|]. destruct (pto_block_reason _) eqn:Hbr; [|done].
      cbn in Hb. simplify_eq. apply pre_block_reason_iff in Hbr. by apply (pre_blocks_output _ _ w).
    + destruct (Z.eqb_spec code 2) as [->|?]; [|done]. cbn [andb] in Hb.
      destruct (can_apply_control_effects h) eqn:Hs; [|done].
      destruct (trimmed_non_empty _) eqn:Ht; [|done]. cbn in Hb. simplify_eq. apply trimmed_non_empty_Some in Ht as [-> Hne].
      by apply pre_blocks_exit.
  - intros [(Hs & He & Hc) Hne|w reason' (Hs & He & Hc) Hp Hd]; rewrite He, Hc; cbn [Z.eqb Pos.eqb andb].
    + rewrite Hs. cbn [andb].
      assert (Ht : trimmed_non_empty (stderr r) = Some (trim (stderr r))) by by apply trimmed_non_empty_Some. by rewrite Ht.
    + rewrite bool_decide_false by by eapply parse_json_not_blank.
      unfold parse_pre_tool_use. rewrite Hp. cbn [fmap option_fmap option_map].
      match goal with |- context [context_entries ?a ?b ?c ?d] => destruct (context_entries_pair a b c d) as (e' & c' & Hce) end.
      rewrite Hce, Hs. apply pre_block_reason_iff in Hd.
      destruct (pto_invalid_reason (pre_tool_use_output w)) eqn:Hi; [|by rewrite Hd].
      exfalso. unfold pre_tool_use_output in Hi, Hd. cbn [pto_invalid_reason pto_block_reason] in Hi, Hd. by rewrite Hi in Hd.
Qed.

Lemma pre_outcome_should_block h r :
  pd_should_block (oc_data (pre_outcome h r)) = is_some (pd_block_reason (oc_data (pre_outcome h r))).
Proof.
  unfold pre_outcome. destruct (error r); [done|]. destruct (exit_code r); [|done]. destruct (Z.eqb _ _).
  - case_bool_decide; [done|]. destruct (parse_pre_tool_use _); [|by destruct (looks_like_json _)].
    destruct (context_entries _ _ _ _) as [??]. destruct (can_apply_control_effects h); [|done].
    destruct (pto_invalid_reason _); [done|]. by destruct (pto_block_reason _).
  - destruct (_ && _); [|done]. by destruct (trimmed_non_empty _).
Qed.

Lemma pre_outcome_rewrite h r v :
  pd_updated_input (oc_data (pre_outcome h r)) = Some v ↔ pre_rewrites h r v.
Proof.
  unfold pre_outcome, pre_rewrites, controls. split.
  - intros Hv. destruct (error r) eqn:He; [done|]. destruct (exit_code r) as [code|] eqn:Hc; [|done].
    destruct (Z.eqb_spec code 0) as [->|Hn0]; [|destruct (_ && _); [by destruct (trimmed_non_empty _)|done]].
    case_bool_decide; [done|]. unfold parse_pre_tool_use in Hv.
    destruct (parse_json _ _) as [w|] eqn:Hp; cbn [fmap option_fmap option_map] in Hv; [|by destruct (looks_like_json _)].
    match type of Hv with context [context_entries ?a ?b ?c ?d] => destruct (context_entries_pair a b c d) as (e' & c' & Hce) end.
    rewrite Hce in Hv. destruct (can_apply_control_effects h) eqn:Hs; [|done].
    destruct (pto_invalid_reason _); [done|]. destruct (pto_block_reason _); [done|].
    cbn in Hv. apply pre_updated_input_iff in Hv. split; [done|]. by exists w.
  - intros ((Hs & He & Hc) & w & Hp & Hw). rewrite He, Hc. cbn [Z.eqb].
    rewrite bool_decide_false by by eapply parse_json_not_blank.
    unfold parse_pre_tool_use. rewrite Hp. cbn [fmap option_fmap option_map].
    match goal with |- context [context_entries ?a ?b ?c ?d] => destruct (context_entries_pair a b c d) as (e' & c' & Hce) end.
    rewrite Hce, Hs. apply pre_updated_input_iff in Hw as Hu.
    destruct (pto_invalid_reason (pre_tool_use_output w)) eqn:Hi.
    { exfalso. unfold pre_tool_use_output in Hi, Hu. cbn [pto_invalid_reason pto_updated_input] in Hi, Hu. by rewrite Hi in Hu. }
    destruct (pto_block_reason (pre_tool_use_output w)) eqn:Hb; [|done]. exfalso.
    apply pre_block_reason_iff in Hb. destruct Hw as (_ & o & Ho & Hpa & Hui).
    destruct Hb as [o' t _ Ho' Hp' _ _ _|t _ Hs' _ _ _]; [congruence|]. rewrite Ho in Hs'. destruct Hs' as (? & _). congruence.
Qed.

(** A PermissionRequest run decides exactly when it asks for it. *)
Lemma perm_outcome_decision h r d : oc_data (perm_outcome h r) = Some d ↔ perm_decides h r d.
Proof.
  unfold perm_outcome. split.
  - intros Hd. destruct (error r) eqn:He; [done|]. destruct (exit_code r) as [code|] eqn:Hc; [|done].
    destruct (Z.eqb_spec code 0) as [->|Hn0].
    + case_bool_decide; [done|]. unfold parse_permission_request in Hd.
      destruct (parse_json _ _) as [w|] eqn:Hp; cbn [fmap option_fmap option_map] in Hd; [|by destruct (looks_like_json _)].
      destruct (can_apply_control_effects h) eqn:Hs; [|done].
      destruct (pro_invalid_reason _) eqn:Hi; [done|].
      destruct (pro_decision _) as [d'|] eqn:Hpd; [|done].
      assert (d' = d) as -> by (by destruct d'; cbn in Hd; simplify_eq).
      destruct (proj1 (perm_decision_iff w d) (conj Hi Hpd)) as (dw & Hdw & ->). by apply (perm_decides_output _ _ w).
    + destruct (Z.eqb_spec code 2) as [->|?]; [|done]. cbn [andb] in Hd.
      destruct (can_apply_control_effects h) eqn:Hs; [|done].
      destruct (trimmed_non_empty _) eqn:Ht; [|done]. cbn in Hd. simplify_eq. apply trimmed_non_empty_Some in Ht as [-> Hne].
      by apply perm_denies_exit.
  - intros [(Hs & He & Hc) Hne|w dw (Hs & He & Hc) Hp Hd]; rewrite He, Hc; cbn [Z.eqb Pos.eqb andb]; rewrite Hs.
    + cbn [andb].
      assert (Ht : trimmed_non_empty (stderr r) = Some (trim (stderr r))) by by apply trimmed_non_empty_Some. by rewrite Ht.
    + rewrite bool_decide_false by by eapply parse_json_not_blank.
      unfold parse_permission_request. rewrite Hp. cbn [fmap option_fmap option_map].
      destruct (proj2 (perm_decision_iff w _) (ex_intro _ dw (conj Hd eq_refl))) as [Hi Hpd].
      rewrite Hi, Hpd. by destruct (permission_request_decision dw).
Qed.

(** * The runs of an event *)

Definition local_summary (h : ConfiguredHandler) (r : HandlerRunResult) (status : HookRunStatus) (entries : list HookOutputEntry) : HookRunSummary :=
  mkSummary (builtin h) (run_id h) (event_name h) (handler_type h) (execution_mode h)
    (scope_for_event (event_name h)) (source_path_display (source_path h)) (source h) (display_order h) status
    (status_message h) (started_at r) (Some (completed_at r)) (Some (duration_ms r)) entries.

Lemma completed_summary_local h r status entries :
  is_executor_scoped h = false → completed_summary h r status entries = Some (local_summary h r status entries).
Proof. unfold is_executor_scoped, completed_summary, local_summary. by destruct (source_path h). Qed.

Lemma sync_in handlers (ih : nat * ConfiguredHandler) :
  ih ∈ sync_handlers handlers → can_apply_control_effects ih.2 = true ∧ is_executor_scoped ih.2 = false ∧ ih.2 ∈ handlers.
Proof.
  unfold sync_handlers. intros [Hin Hc]%list_elem_of_In%filter_In. split; [done|]. split; [by apply sync_not_executor|].
  apply list_elem_of_In, elem_of_lookup_imap in Hin as (i & h & -> & Hl). by eapply list_elem_of_lookup_2.
Qed.

(** The results of an event whose runs amount to [outcome]. *)
Definition event_results {T} (rt : CommandHookRuntime) (handlers : list ConfiguredHandler) (input cwd : str) (turn : option str)
    (outcome : ConfiguredHandler → HandlerRunResult → RunOutcome T) : list (ParsedHandler T) :=
  map (λ ih, let r := execute_handler ih.1 rt ih.2 input cwd None in let o := outcome ih.2 r in
             mkParsed (mkCompleted turn (local_summary ih.2 r (oc_status o) (oc_entries o))) (oc_data o)
               (completion_position handlers ih.1))
    (sync_handlers handlers).

Lemma event_execute {T} rt handlers input cwd turn metadata (outcome : ConfiguredHandler → HandlerRunResult → RunOutcome T) :
  ∃ rt', execute_handlers_with_metadata rt handlers input cwd turn metadata (λ h r t, finish_parsed h r t (outcome h r))
         = Some (rt', event_results rt handlers input cwd turn outcome).
Proof.
  pose (P := λ ih : nat * ConfiguredHandler, let r := execute_handler ih.1 rt ih.2 input cwd None in let o := outcome ih.2 r in
    mkParsed (mkCompleted turn (local_summary ih.2 r (oc_status o) (oc_entries o))) (oc_data o) 0).
  eexists. rewrite (execute_handlers_spec rt handlers input cwd turn metadata _ P); [unfold event_results, P; done|].
  intros ih Hin. apply sync_in in Hin as (_ & Hx & _). unfold finish_parsed. by rewrite completed_summary_local.
Qed.

(** The run of one of the handlers an event waits for. *)
Definition run_of (rt : CommandHookRuntime) (input cwd : str) (ih : nat * ConfiguredHandler) : HandlerRunResult :=
  execute_handler ih.1 rt ih.2 input cwd None.

(** ** The latest rewrite *)

Lemma max_by_key_None {A} (l : list (nat * A)) : max_by_key l = None → l = [].
Proof. destruct l as [|x l]; [done|]. cbn. by case_match. Qed.

Lemma max_by_key_Some {A} (l : list (nat * A)) x : max_by_key l = Some x → x ∈ l ∧ ∀ y, y ∈ l → y.1 ≤ x.1.
Proof.
  revert x. induction l as [|a l IH]; intros x Hx; [done|]. cbn [max_by_key] in Hx. destruct (max_by_key l) as [y|] eqn:Hm.
  - destruct (IH y eq_refl) as [Hy Hle]. destruct (Nat.ltb_spec y.1 a.1) as [Hlt|Hge]; simplify_eq.
    + split; [left|]. intros z [->|Hz]%elem_of_cons; [lia|]. specialize (Hle z Hz). lia.
    + split; [by right|]. intros z [->|Hz]%elem_of_cons; [lia|]. by apply Hle.
  - apply max_by_key_None in Hm as ->. simplify_eq. split; [left|]. intros z [->|Hz]%elem_of_cons; [lia|]. by apply not_elem_of_nil in Hz.
Qed.

Lemma position_lookup (l : list nat) i k : NoDup l → l !! k = Some i → position i l = k.
Proof.
  revert k. induction l as [|j l IH]; intros k Hnd Hk; [done|]. apply NoDup_cons in Hnd as [Hj Hnd].
  cbn [position]. destruct k as [|k]; cbn in Hk; simplify_eq; [by rewrite decide_True|].
  rewrite decide_False; [by rewrite (IH k)|]. intros ->. apply Hj. by eapply list_elem_of_lookup_2.
Qed.

(** The last of [l] that [f] maps to something, with its place. *)
Lemma max_by_position {B} (f : nat * ConfiguredHandler → option B) (l sync : list (nat * ConfiguredHandler)) (v : B) :
  l ≡ₚ sync → NoDup l.*1 →
  snd <$> max_by_key (omap (λ ih, (λ v, (position ih.1 l.*1, v)) <$> f ih) sync) = Some v
  ↔ ∃ l1 ih l2, l = l1 ++ ih :: l2 ∧ f ih = Some v ∧ ∀ jh, jh ∈ l2 → f jh = None.
Proof.
  intros Hp Hnd.
  assert (Hpos : ∀ k ih, l !! k = Some ih → position ih.1 l.*1 = k).
  { intros k ih Hk. apply position_lookup; [done|]. by rewrite list_lookup_fmap, Hk. }
  set (L := omap _ _).
  assert (HL : ∀ n b, (n, b) ∈ L ↔ ∃ ih, l !! n = Some ih ∧ f ih = Some b).
  { intros n b. unfold L. rewrite list_elem_of_omap. split.
    - intros (ih & Hin & Hf). rewrite <- Hp in Hin. apply list_elem_of_lookup in Hin as [k Hk].
      rewrite (Hpos k ih Hk) in Hf. destruct (f ih) eqn:E; cbn in Hf; [|done]. simplify_eq. eauto.
    - intros (ih & Hk & Hf). exists ih. split; [rewrite <- Hp; by eapply list_elem_of_lookup_2|].
      by rewrite (Hpos n ih Hk), Hf. }
  clearbody L. split.
  - intros Hm. destruct (max_by_key L) as [[n b]|] eqn:E; cbn in Hm; [|done]. simplify_eq.
    apply max_by_key_Some in E as [Hin Hmax]. apply HL in Hin as (ih & Hk & Hf).
    exists (take n l), ih, (drop (S n) l). split; [symmetry; by apply take_drop_middle|]. split; [done|].
    intros jh Hj. apply list_elem_of_lookup in Hj as [k Hj]. rewrite lookup_drop in Hj.
    destruct (f jh) as [b|] eqn:Ej; [|done]. exfalso.
    assert (Hin : (S n + k, b) ∈ L) by (apply HL; eauto). specialize (Hmax _ Hin). cbn in Hmax. lia.
  - intros (l1 & ih & l2 & -> & Hf & Hnone).
    assert (Hin : (length l1, v) ∈ L) by (apply HL; exists ih; split; [by apply list_lookup_middle|done]).
    destruct (max_by_key L) as [[n b]|] eqn:E; [|apply max_by_key_None in E; subst; by apply not_elem_of_nil in Hin].
    apply max_by_key_Some in E as [Hin' Hmax]. specialize (Hmax _ Hin). cbn in Hmax.
    apply HL in Hin' as (jh & Hk & Hj). destruct (decide (n = length l1)) as [->|Hne].
    + rewrite list_lookup_middle in Hk by done. cbn. congruence.
    + rewrite lookup_app_r in Hk by lia. replace (n - length l1) with (S (n - length l1 - 1)) in Hk by lia. cbn in Hk.
      apply list_elem_of_lookup_2 in Hk. rewrite Hnone in Hj by done. done.
Qed.

(** ** First and any *)

Lemma find_map_first {A B} (f : A → option B) l y :
  find_map f l = Some y ↔ ∃ l1 x l2, l = l1 ++ x :: l2 ∧ f x = Some y ∧ ∀ z, z ∈ l1 → f z = None.
Proof.
  induction l as [|a l IH]; cbn [find_map].
  { split; [done|]. intros (l1 & x & l2 & E & _). by destruct l1. }
  destruct (f a) as [b|] eqn:Ea.
  - split.
    + intros [= <-]. exists [], a, l. split; [done|]. split; [done|]. intros z Hz. by apply not_elem_of_nil in Hz.
    + intros ([|z l1] & x & l2 & E & Hx & Hn); injection E as -> ->; [congruence|]. rewrite Hn in Ea by left. done.
  - rewrite IH. split.
    + intros (l1 & x & l2 & -> & Hx & Hn). exists (a :: l1), x, l2. split; [done|]. split; [done|].
      intros z [->|Hz]%elem_of_cons; [done|by apply Hn].
    + intros ([|z l1] & x & l2 & E & Hx & Hn); injection E as -> ->; [congruence|]. exists l1, x, l2.
      split; [done|]. split; [done|]. intros z' Hz. apply Hn. by right.
Qed.

Lemma find_map_map {A B C} (f : B → option C) (g : A → B) l : find_map f (map g l) = find_map (λ x, f (g x)) l.
Proof. induction l as [|x l IH]; [done|]. cbn. by rewrite IH. Qed.

Lemma omap_map {A B C} (f : B → option C) (g : A → B) l : omap f (map g l) = omap (λ x, f (g x)) l.
Proof. induction l as [|x l IH]; [done|]. cbn. by rewrite IH. Qed.

Lemma existsb_elem {A} (f : A → bool) l : existsb f l = true ↔ ∃ x, x ∈ l ∧ f x = true.
Proof. rewrite existsb_exists. setoid_rewrite list_elem_of_In. done. Qed.

(** The first of [l] that is related to something. *)
Definition first_with {A B} (R : A → B → Prop) (l : list A) (y : B) : Prop :=
  ∃ l1 x l2, l = l1 ++ x :: l2 ∧ R x y ∧ ∀ z y', z ∈ l1 → ¬ R z y'.

(** The last of [l] that is related to something. *)
Definition last_with {A B} (R : A → B → Prop) (l : list A) (y : B) : Prop :=
  ∃ l1 x l2, l = l1 ++ x :: l2 ∧ R x y ∧ ∀ z y', z ∈ l2 → ¬ R z y'.

Lemma find_map_first_with {A B} (f : A → option B) (R : A → B → Prop) l y :
  (∀ x y, f x = Some y ↔ R x y) → find_map f l = Some y ↔ first_with R l y.
Proof.
  intros Hf. rewrite find_map_first. unfold first_with. setoid_rewrite Hf. split; intros (l1 & x & l2 & E & Hx & Hn);
    exists l1, x, l2; (split; [done|]; split; [done|]).
  - intros z y' Hz. rewrite <- Hf. by rewrite (Hn z Hz).
  - intros z Hz. destruct (f z) as [y'|] eqn:E'; [|done]. apply Hf in E'. by destruct (Hn z y' Hz).
Qed.

(** ** PreToolUse *)

Definition pre_matched (handlers : list ConfiguredHandler) (req : ToolUseRequest) : list ConfiguredHandler :=
  select_handlers_for_matcher_inputs handlers PreToolUse (matcher_inputs (tu_tool_name req) (tu_matcher_aliases req)).

Definition perm_matched (handlers : list ConfiguredHandler) (req : ToolUseRequest) : list ConfiguredHandler :=
  select_handlers_for_matcher_inputs handlers PermissionRequest (matcher_inputs (tu_tool_name req) (tu_matcher_aliases req)).

Lemma latest_updated_input_spec rt handlers input cwd turn v :
  latest_updated_input (event_results rt handlers input cwd turn pre_outcome) = Some v
  ↔ last_with (λ ih, pre_rewrites ih.2 (run_of rt input cwd ih)) (completions (sync_handlers handlers)) v.
Proof.
  unfold latest_updated_input, event_results. rewrite omap_map. cbn [completion_order data]. unfold completion_position.
  rewrite (max_by_position (λ ih, pd_updated_input (oc_data (pre_outcome ih.2 (execute_handler ih.1 rt ih.2 input cwd None))))).
  2:{ apply completions_perm. }
  2:{ rewrite completions_perm. apply sorted_nodup_fst, sync_handlers_sorted. }
  unfold last_with. split; intros (l1 & ih & l2 & E & Hf & Hn); exists l1, ih, l2; (split; [done|]).
  - split; [by apply pre_outcome_rewrite|]. intros z y' Hz Hr. apply pre_outcome_rewrite in Hr.
    unfold run_of in Hr. rewrite Hn in Hr by done. done.
  - split; [by apply pre_outcome_rewrite|]. intros z Hz. destruct (pd_updated_input _) as [y'|] eqn:Ez; [|done].
    apply pre_outcome_rewrite in Ez. by destruct (Hn z y' Hz).
Qed.

Lemma pre_aggregate_spec rt handlers input cwd turn req :
  let out := pre_aggregate req (event_results rt handlers input cwd turn pre_outcome) in
  let blocks ih := pre_blocks ih.2 (run_of rt input cwd ih) in
  (pre_should_block out = true ↔ ∃ ih reason, ih ∈ sync_handlers handlers ∧ blocks ih reason)
  ∧ (∀ reason, pre_block_reason out = Some reason ↔ first_with blocks (sync_handlers handlers) reason)
  ∧ (∀ v, pre_updated_input_of out = Some v ↔
       pre_should_block out = false
       ∧ last_with (λ ih, pre_rewrites ih.2 (run_of rt input cwd ih)) (completions (sync_handlers handlers)) v).
Proof.
  intros out blocks. unfold out, pre_aggregate. cbn [pre_should_block pre_block_reason pre_updated_input_of].
  split; [|split].
  - unfold event_results. rewrite existsb_map, existsb_elem. cbn [data].
    split.
    + intros (ih & Hin & Hb). rewrite pre_outcome_should_block in Hb.
      destruct (pd_block_reason _) as [reason|] eqn:E; [|done]. exists ih, reason. split; [done|]. by apply pre_outcome_block.
    + intros (ih & reason & Hin & Hb). exists ih. split; [done|]. apply pre_outcome_block in Hb.
      unfold run_of in Hb. by rewrite pre_outcome_should_block, Hb.
  - intros reason. unfold event_results. rewrite find_map_map. cbn [data].
    apply find_map_first_with. intros ih y. apply pre_outcome_block.
  - intros v. destruct (existsb _ _); [naive_solver|]. rewrite latest_updated_input_spec. naive_solver.
Qed.

Lemma pre_run_spec rt handlers req input now :
  ∃ rt' out, pre_run rt handlers req (inl input) now = Some (rt', out)
  ∧ pre_should_block out = pre_should_block (pre_aggregate req (event_results rt (pre_matched handlers req) input (tu_cwd req) (Some (tu_turn_id req)) pre_outcome))
  ∧ pre_block_reason out = pre_block_reason (pre_aggregate req (event_results rt (pre_matched handlers req) input (tu_cwd req) (Some (tu_turn_id req)) pre_outcome))
  ∧ pre_updated_input_of out = pre_updated_input_of (pre_aggregate req (event_results rt (pre_matched handlers req) input (tu_cwd req) (Some (tu_turn_id req)) pre_outcome)).
Proof.
  unfold pre_run. cbv zeta. fold (pre_matched handlers req). destruct (pre_matched handlers req) as [|h l] eqn:E.
  - eexists _, _. split; [done|]. done.
  - destruct (event_execute rt (h :: l) input (tu_cwd req) (Some (tu_turn_id req)) None pre_outcome) as [rt' Hx].
    unfold execute_handlers. change (λ h r t, finish_parsed h r t (pre_outcome h r)) with pre_parse_completed in Hx.
    rewrite Hx. cbn [mbind option_bind]. eexists _, _. split; [done|]. done.
Qed.

(** ** PermissionRequest *)

Lemma resolve_decisions_spec ds acc :
  resolve_decisions acc ds
  = match find_map (λ d, match d with Deny m => Some m | Allow => None end) ds with
    | Some m => Some (Deny m)
    | None => if existsb (λ d, match d with Allow => true | Deny _ => false end) ds then Some Allow else acc
    end.
Proof.
  revert acc. induction ds as [|[|m] ds IH]; intros acc; [done| |done]. cbn [resolve_decisions find_map existsb orb].
  rewrite IH. destruct (find_map _ ds); [done|]. by destruct (existsb _ ds).
Qed.

Lemma find_map_omap {A B C} (f : B → option C) (g : A → option B) l : find_map f (omap g l) = find_map (λ x, g x ≫= f) l.
Proof. induction l as [|x l IH]; [done|]. cbn. destruct (g x); cbn; [destruct (f b); [done|exact IH]|exact IH]. Qed.

Lemma perm_results_spec rt handlers input cwd turn :
  let decision := resolve_permission_request_decision (omap data (event_results rt handlers input cwd turn perm_outcome)) in
  let decides ih := perm_decides ih.2 (run_of rt input cwd ih) in
  (∀ m, decision = Some (Deny m) ↔ first_with (λ ih m, decides ih (Deny m)) (sync_handlers handlers) m)
  ∧ (decision = Some Allow ↔
       (∃ ih, ih ∈ sync_handlers handlers ∧ decides ih Allow) ∧ ∀ ih m, ih ∈ sync_handlers handlers → ¬ decides ih (Deny m)).
Proof.
  intros decision decides.
  assert (Hd : decision = match find_map (λ ih, oc_data (perm_outcome ih.2 (run_of rt input cwd ih)) ≫= λ d, match d with Deny m => Some m | Allow => None end)
      (sync_handlers handlers) with Some m => Some (Deny m) | None =>
      if existsb (λ d, match d with Allow => true | Deny _ => false end) (omap data (event_results rt handlers input cwd turn perm_outcome))
      then Some Allow else None end).
  { unfold decision, resolve_permission_request_decision. rewrite resolve_decisions_spec.
    unfold event_results at 1. rewrite omap_map, find_map_omap. done. }
  assert (Hf : ∀ ih m, (oc_data (perm_outcome ih.2 (run_of rt input cwd ih)) ≫= λ d, match d with Deny m => Some m | Allow => None end) = Some m
    ↔ decides ih (Deny m)).
  { intros ih m. unfold decides. rewrite <- perm_outcome_decision. destruct (oc_data _) as [[]|]; cbn; naive_solver. }
  pose proof (λ m, find_map_first_with _ (λ ih m, decides ih (Deny m)) (sync_handlers handlers) m Hf) as Hff. split.
  - intros m. rewrite <- Hff, Hd. destruct (find_map _ _); [naive_solver|]. split; [by case_match|done].
  - assert (Hdeny : find_map (λ ih, oc_data (perm_outcome ih.2 (run_of rt input cwd ih)) ≫= λ d, match d with Deny m => Some m | Allow => None end)
        (sync_handlers handlers) = None ↔ ∀ ih m, ih ∈ sync_handlers handlers → ¬ decides ih (Deny m)).
    { rewrite eq_None_not_Some, find_map_Some. setoid_rewrite <- Hf. unfold is_Some. naive_solver. }
    assert (Hall : existsb (λ d, match d with Allow => true | Deny _ => false end) (omap data (event_results rt handlers input cwd turn perm_outcome)) = true
      ↔ ∃ ih, ih ∈ sync_handlers handlers ∧ decides ih Allow).
    { rewrite existsb_elem. unfold event_results. rewrite omap_map. cbn [data]. setoid_rewrite list_elem_of_omap.
      unfold decides. setoid_rewrite <- perm_outcome_decision. split.
      - intros (d & (ih & Hin & Hx) & Hb). exists ih. destruct d; [by split|done].
      - intros (ih & Hin & Hx). exists Allow. split; [by exists ih|done]. }
    rewrite <- Hdeny, <- Hall, Hd. destruct (find_map _ _); [naive_solver|]. by destruct (existsb _ _); naive_solver.
Qed.

Lemma perm_run_spec rt handlers req input now :
  ∃ rt' out, perm_run rt handlers req (inl input) now = Some (rt', out)
  ∧ perm_decision out = resolve_permission_request_decision
      (omap data (event_results rt (perm_matched handlers req) input (tu_cwd req) (Some (tu_turn_id req)) perm_outcome)).
Proof.
  unfold perm_run. cbv zeta. fold (perm_matched handlers req). destruct (perm_matched handlers req) as [|h l] eqn:E.
  - eexists _, _. split; done.
  - destruct (event_execute rt (h :: l) input (tu_cwd req) (Some (tu_turn_id req)) None perm_outcome) as [rt' Hx].
    unfold execute_handlers. change (λ h r t, finish_parsed h r t (perm_outcome h r)) with perm_parse_completed in Hx.
    rewrite Hx. cbn [mbind option_bind]. eexists _, _. split; done.
Qed.

End control.

(** * Claims *)

(** A PreToolUse event returns, and blocks its tool call exactly when some hook that is waited
    for asked to: it exited with code 2 and wrote a reason to stderr, or exited with 0 and printed
    a denial with a reason and no unsupported field. The reason is that of the first such hook
    in configured order, whatever order the runs completed in. The input is rewritten only when
    nothing blocks, by the rewrite that completed last. Hooks that run asynchronously or in an
    executor change none of this. *)
Theorem pre_tool_use_exact `{RegexEngine} `{HookWorld} `{WireDecode} `{FuturesUnordered}
    (rt : CommandHookRuntime) (handlers : list ConfiguredHandler) (req : ToolUseRequest) (input : str) (now : ConfiguredHandler → Z) :
  let sync := sync_handlers (pre_matched handlers req) in
  let blocks ih := pre_blocks ih.2 (run_of rt input (tu_cwd req) ih) in
  let rewrites ih := pre_rewrites ih.2 (run_of rt input (tu_cwd req) ih) in
  ∃ rt' out, pre_run rt handlers req (inl input) now = Some (rt', out)
  ∧ (pre_should_block out = true ↔ ∃ ih reason, ih ∈ sync ∧ blocks ih reason)
  ∧ (∀ reason, pre_block_reason out = Some reason ↔ first_with blocks sync reason)
  ∧ (∀ v, pre_updated_input_of out = Some v ↔ pre_should_block out = false ∧ last_with rewrites (completions sync) v).
Proof.
  intros sync blocks rewrites. destruct (pre_run_spec rt handlers req input now) as (rt' & out & Hr & Hb & Hbr & Hu).
  exists rt', out. split; [done|]. rewrite Hb. setoid_rewrite Hbr. setoid_rewrite Hu.
  apply (pre_aggregate_spec rt (pre_matched handlers req) input (tu_cwd req) (Some (tu_turn_id req)) req).
Qed.

(** A PermissionRequest event returns, and a denial wins: the request is denied exactly when
    some hook that is waited for denied it, with the message of the first that did in configured
    order, and it is approved exactly when some hook approved it and none denied it. The order
    in which the runs complete does not matter. An output with a field that is reserved or
    unsupported decides nothing. *)
Theorem permission_deny_wins `{RegexEngine} `{HookWorld} `{WireDecode} `{FuturesUnordered}
    (rt : CommandHookRuntime) (handlers : list ConfiguredHandler) (req : ToolUseRequest) (input : str) (now : ConfiguredHandler → Z) :
  let sync := sync_handlers (perm_matched handlers req) in
  let decides ih := perm_decides ih.2 (run_of rt input (tu_cwd req) ih) in
  ∃ rt' out, perm_run rt handlers req (inl input) now = Some (rt', out)
  ∧ (∀ m, perm_decision out = Some (Deny m) ↔ first_with (λ ih m, decides ih (Deny m)) sync m)
  ∧ (perm_decision out = Some Allow ↔ (∃ ih, ih ∈ sync ∧ decides ih Allow) ∧ ∀ ih m, ih ∈ sync → ¬ decides ih (Deny m)).
Proof.
  intros sync decides. destruct (perm_run_spec rt handlers req input now) as (rt' & out & Hr & Hd).
  exists rt', out. split; [done|]. setoid_rewrite Hd.
  apply (perm_results_spec rt (perm_matched handlers req) input (tu_cwd req) (Some (tu_turn_id req))).
Qed.

(** * An example *)

(** Patterns match as substrings, the child of the first handler exits with 2 and the reason [no],
    the others print their input; an object is known by its text. *)
Definition example_regex : RegexEngine := {|
  Regex := str;
  regex_new p := Ok p;
  regex_as_str p := p;
  regex_is_match p s := str_contains p s
|}.

Definition example_world : HookWorld := {|
  windows := false;
  run_child i _ stdin _ _ := if decide (i = 0) then Output (Some 2%Z) [] (lit " no ") else Output (Some 0%Z) stdin [];
  execute_mcp _ _ := Ok (lit "{}");
  json_from_str s := Some (VObject [(s, VNull)]);
  json_to_string _ := Ok [];
  clock _ := (0%Z, 0%Z, 0%N);
  spill_file _ := None
|}.

Definition plain_wire : HookUniversalOutputWire := mkUniversalWire true None false None.

Definition example_wires : WireDecode := {|
  pre_tool_use_of_value _ := Some (mkPreWire plain_wire (Some DecBlock) (Some (lit "later")) None);
  permission_request_of_value _ := Some (mkPermWire plain_wire (Some (Some (mkPermDecisionWire BehaviorAllow None None None false))));
  post_tool_use_of_value _ := None;
  pre_compact_of_value _ := Some plain_wire;
  post_compact_of_value _ := Some plain_wire;
  session_start_of_value _ := None;
  subagent_start_of_value _ := None;
  user_prompt_submit_of_value _ := None;
  stop_of_value _ := Some (mkStopWire plain_wire None None);
  subagent_stop_of_value _ := None;
  interrupt_of_value _ := None
|}.

(** The last future completes first. *)
Program Definition example_futures : FuturesUnordered := {| completions A l := rev l |}.
Next Obligation. intros A l. symmetry. apply Permutation_rev. Qed.

Definition example_handler (rx : RegexEngine) (e : HookEventName) (n : Z) : @ConfiguredHandler rx :=
  @mkHandler rx false e None 600 None (mkLimit 2500) (Local (lit "/hooks.json")) SrcUser n (KCommand (lit "check") [] false).

Definition example_runtime : @CommandHookRuntime example_regex :=
  @mkRuntime example_regex (mkShell [] []) [] false false [].

Definition example_request : ToolUseRequest := mkToolUse (lit "turn") (lit "/") (lit "Bash") [] (lit "call").

Lemma pre_tool_use_exact_witness :
  ∃ rt' out, @pre_run example_regex example_world example_wires example_futures example_runtime
    [example_handler example_regex PreToolUse 0; example_handler example_regex PreToolUse 1] example_request (inl (lit "{}")) (λ _, 0%Z) = Some (rt', out)
  ∧ pre_should_block out = true ∧ pre_block_reason out = Some (lit "no") ∧ pre_updated_input_of out = None.
Proof.
  destruct (@pre_tool_use_exact example_regex example_world example_wires example_futures example_runtime
    [example_handler example_regex PreToolUse 0; example_handler example_regex PreToolUse 1] example_request (lit "{}") (λ _, 0%Z))
    as (rt' & out & Hr & _). exists rt', out. split; [exact Hr|]. vm_compute in Hr. injection Hr as <- <-. done.
Defined.

Lemma permission_deny_wins_witness :
  ∃ rt' out, @perm_run example_regex example_world example_wires example_futures example_runtime
    [example_handler example_regex PermissionRequest 0; example_handler example_regex PermissionRequest 1] example_request (inl (lit "{}")) (λ _, 0%Z) = Some (rt', out)
  ∧ perm_decision out = Some (Deny (lit "no")).
Proof.
  destruct (@permission_deny_wins example_regex example_world example_wires example_futures example_runtime
    [example_handler example_regex PermissionRequest 0; example_handler example_regex PermissionRequest 1] example_request (lit "{}") (λ _, 0%Z))
    as (rt' & out & Hr & _). exists rt', out. split; [exact Hr|]. vm_compute in Hr. injection Hr as <- <-. done.
Defined.
