(* ===== verification/HookStop.v ===== *)
(** Stop and SubagentStop hooks: when they end the turn or make it go on, and when the cleanup
    hooks of executors run. *)
From S2P Require Import Prelude Str Hooks HookOutput HookEvents HookControl.

Section stop.
Context `{RegexEngine} `{HookWorld} `{WireDecode} `{FuturesUnordered}.

Definition stop_event (e : HookEventName) : Prop := e = Stop ∨ e = SubagentStop.

(** The deserializer of the event. *)
Definition stop_wire_of (e : HookEventName) : Value → option StopCommandOutputWire :=
  if bool_decide (e = Stop) then stop_of_value else subagent_stop_of_value.

(** The run ends the turn. *)
Definition stop_stops (h : ConfiguredHandler) (r : HandlerRunResult) : Prop :=
  controls h r 0 ∧ ∃ w, parse_json (stop_wire_of (event_name h)) (stdout r) = Some w ∧ uw_continue (stop_universal w) = false.

(** The run makes the turn go on, with this prompt. *)
Inductive stop_blocks (h : ConfiguredHandler) (r : HandlerRunResult) : str → Prop :=
| stop_blocks_exit : controls h r 2 → trim (stderr r) ≠ [] → stop_blocks h r (trim (stderr r))
| stop_blocks_output w reason :
    controls h r 0 → parse_json (stop_wire_of (event_name h)) (stdout r) = Some w →
    uw_continue (stop_universal w) = true → is_some (stop_decision w) = true →
    stop_wire_reason w = Some reason → trim reason ≠ [] → stop_blocks h r (trim reason).

Definition stop_label (e : HookEventName) : string := if bool_decide (e = Stop) then "Stop" else "SubagentStop".

(** The parser of a stop event. *)
Definition stop_parser_of (e : HookEventName) (s : str) : option StopOutput :=
  wire ← parse_json (stop_wire_of e) s;
  Some (stop_output (stop_universal wire) (stop_decision wire) (stop_wire_reason wire) (stop_label e)).

Lemma stop_parser_event e : stop_event e → stop_parser e = Some (stop_parser_of e).
Proof. by intros [-> | ->]. Qed.

(** What the output of a run asks for, by cases. *)
Lemma stop_control_spec entries w label :
  let o := stop_control entries (stop_output (stop_universal w) (stop_decision w) (stop_wire_reason w) label) in
  (sr_should_stop (oc_data o) = negb (uw_continue (stop_universal w)))
  ∧ (oc_status o = Stopped ↔ uw_continue (stop_universal w) = false)
  ∧ (oc_status o = Blocked ↔ is_Some (sr_block_reason (oc_data o)))
  ∧ (∀ reason, sr_block_reason (oc_data o) = Some reason ↔
      uw_continue (stop_universal w) = true ∧ is_some (stop_decision w) = true
      ∧ ∃ r, stop_wire_reason w = Some r ∧ trim r ≠ [] ∧ reason = trim r).
Proof.
  intros o. unfold o, stop_control, stop_output. cbn [so_universal so_invalid_block_reason so_should_block so_reason].
  unfold universal_from. cbn [continue_processing].
  destruct (uw_continue (stop_universal w)); cbn [negb].
  2:{ split; [done|]. split; [done|]. split; [cbn; split; [done|by intros []]|]. cbn. naive_solver. }
  destruct (is_some (stop_decision w)); cbn [andb negb].
  2:{ cbn. repeat split; try done; try by intros []; naive_solver. }
  unfold blank_reason. destruct (stop_wire_reason w) as [r|]; cbn [mbind option_bind is_some negb].
  2:{ cbn. split; [done|]. split; [done|]. split; [split; [done|by intros []]|]. naive_solver. }
  case_bool_decide as Ht; cbn [andb negb is_some].
  - split; [done|]. split; [done|]. split; [cbn; split; [done|by intros []]|]. cbn. naive_solver.
  - assert (Hr : trimmed_non_empty r = Some (trim r)) by by apply trimmed_non_empty_Some. rewrite Hr. cbn. naive_solver.
Qed.

(** A run asks for nothing when its outcome keeps the defaults. *)
Definition stop_quiet (o : RunOutcome StopRun) : Prop :=
  oc_data o = stop_none ∧ oc_status o ≠ Stopped ∧ oc_status o ≠ Blocked.

Definition stop_agrees (h : ConfiguredHandler) (r : HandlerRunResult) (o : RunOutcome StopRun) : Prop :=
  (sr_should_stop (oc_data o) = true ↔ stop_stops h r)
  ∧ (oc_status o = Stopped ↔ stop_stops h r)
  ∧ (oc_status o = Blocked ↔ ∃ reason, stop_blocks h r reason)
  ∧ (∀ reason, sr_block_reason (oc_data o) = Some reason ↔ stop_blocks h r reason).

Lemma quiet_agrees h r o :
  stop_quiet o → ¬ stop_stops h r → (∀ reason, ¬ stop_blocks h r reason) → stop_agrees h r o.
Proof. intros (Hd & K1 & K2) Hs Hb. unfold stop_agrees. rewrite Hd. cbn. naive_solver. Qed.

Lemma not_controls_quiet h r :
  (∀ code, ¬ controls h r code) ∨ (∃ code, exit_code r = Some code ∧ code ≠ 0%Z ∧ code ≠ 2%Z) →
  ¬ stop_stops h r ∧ ∀ reason, ¬ stop_blocks h r reason.
Proof.
  intros [Hn|(code & Hc & H0' & H2')]; split.
  - intros [Hx _]. by destruct (Hn 0%Z).
  - intros reason [Hx|w reason' Hx]; [by destruct (Hn 2%Z)|by destruct (Hn 0%Z)].
  - intros [(_ & _ & Hx) _]. congruence.
  - intros reason [(_ & _ & Hx)|w reason' (_ & _ & Hx)]; congruence.
Qed.

(** A run that exited with 0. *)
Lemma stop_agrees_exit0 h r w entries :
  controls h r 0 → parse_json (stop_wire_of (event_name h)) (stdout r) = Some w →
  stop_agrees h r (stop_control entries (stop_output (stop_universal w) (stop_decision w) (stop_wire_reason w) (stop_label (event_name h)))).
Proof.
  intros Hctl Hp. pose proof (stop_control_spec entries w (stop_label (event_name h))) as (K1 & K2 & K3 & K4).
  assert (Hst : stop_stops h r ↔ uw_continue (stop_universal w) = false).
  { unfold stop_stops. rewrite Hp. naive_solver. }
  assert (Hbl : ∀ reason, stop_blocks h r reason ↔ uw_continue (stop_universal w) = true ∧ is_some (stop_decision w) = true
    ∧ ∃ t, stop_wire_reason w = Some t ∧ trim t ≠ [] ∧ reason = trim t).
  { intros reason. split.
    - intros [(_ & _ & Hx)|w' t _ Hp' Hcont Hd Ht Hne]; [destruct Hctl as (_ & _ & Hc); congruence|].
      rewrite Hp in Hp'. simplify_eq. eauto 8.
    - intros (Hcont & Hd & t & Ht & Hne & ->). by apply (stop_blocks_output _ _ w). }
  unfold stop_agrees. rewrite K1, Hst, K2, K3. unfold is_Some. setoid_rewrite K4. setoid_rewrite Hbl.
  destruct (uw_continue (stop_universal w)); naive_solver.
Qed.

(** A run that exited with 2. *)
Lemma stop_agrees_exit2 h r text :
  controls h r 2 →
  stop_agrees h r match trimmed_non_empty (stderr r) with
                  | Some reason => mkOutcome Blocked [mkEntry KFeedback reason] (mkStopRun false None (Some reason))
                  | None => failed_run text stop_none
                  end.
Proof.
  intros Hctl. assert (Hno0 : ¬ controls h r 0) by (intros (_ & _ & Hx); destruct Hctl as (_ & _ & Hc); congruence).
  assert (Hst : ¬ stop_stops h r) by (intros [Hx _]; done).
  destruct (trimmed_non_empty (stderr r)) as [t|] eqn:Ht.
  - apply trimmed_non_empty_Some in Ht as [-> Hne].
    assert (Hbl : ∀ reason, stop_blocks h r reason ↔ reason = trim (stderr r)).
    { intros reason. split; [by intros [|]|]. intros ->. by apply stop_blocks_exit. }
    unfold stop_agrees. setoid_rewrite Hbl. cbn. naive_solver.
  - apply quiet_agrees; [done|done|]. intros reason [_ Hne|]; [|done].
    assert (Hx : trimmed_non_empty (stderr r) = Some (trim (stderr r))) by by apply trimmed_non_empty_Some. congruence.
Qed.

(** A run of a stop hook stops and blocks exactly when it asks for it. *)
Lemma stop_outcome_spec h r : stop_agrees h r (stop_outcome (stop_parser_of (event_name h)) h r).
Proof.
  unfold stop_outcome. cbv zeta. destruct (error r) eqn:He.
  { apply quiet_agrees; [done| |]; apply not_controls_quiet; left; intros code (_ & Hx & _); congruence. }
  destruct (exit_code r) as [code|] eqn:Hc.
  2:{ apply quiet_agrees; [done| |]; apply not_controls_quiet; left; intros code (_ & _ & Hx); congruence. }
  destruct (Z.eqb_spec code 0) as [->|Hn0].
  - assert (Hno2 : ¬ controls h r 2) by (intros (_ & _ & Hx); congruence).
    case_bool_decide as Hblank.
    { apply quiet_agrees; [done| |].
      - intros (_ & w & Hp & _). by apply parse_json_not_blank in Hp.
      - intros reason [Hx|w reason' Hx Hp]; [done|]. by apply parse_json_not_blank in Hp. }
    unfold stop_parser_of. destruct (parse_json _ _) as [w|] eqn:Hp; cbn [mbind option_bind].
    + destruct (can_apply_control_effects h) eqn:Hs; [by apply stop_agrees_exit0|].
      apply quiet_agrees; [done| |]; apply not_controls_quiet; left; intros ? (Hx & _); congruence.
    + apply quiet_agrees; [by destruct (_ || _)| |].
      * intros (_ & w & Hp' & _). congruence.
      * intros reason [Hx|w reason' Hx Hp']; [done|congruence].
  - destruct (Z.eqb_spec code 2) as [->|Hn2]; cbn [andb].
    + destruct (can_apply_control_effects h) eqn:Hs; [by apply stop_agrees_exit2|].
      apply quiet_agrees; [done| |]; apply not_controls_quiet; left; intros ? (Hx & _); congruence.
    + apply quiet_agrees; [done| |]; apply not_controls_quiet; right; eauto.
Qed.

(** * Tasks *)

Lemma schedule_task_spec rt task :
  rt_tasks (schedule_async_task rt task) = rt_tasks rt ++ (if rt_limit_closed rt then [] else [task])
  ∧ rt_limit_closed (schedule_async_task rt task) = rt_limit_closed rt
  ∧ rt_sender_closed (schedule_async_task rt task) = rt_sender_closed rt.
Proof. destruct rt as [?? ? []]; cbn; by rewrite ?app_nil_r. Qed.

Lemma schedule_all_spec tasks rt :
  rt_limit_closed rt = false →
  rt_tasks (schedule_all rt tasks) = rt_tasks rt ++ tasks ∧ rt_limit_closed (schedule_all rt tasks) = false.
Proof.
  revert rt. induction tasks as [|t tasks IH]; intros rt Ho; [by rewrite app_nil_r|].
  destruct (schedule_task_spec rt t) as (Ht & Hl & _). rewrite Ho in Ht, Hl.
  destruct (IH (schedule_async_task rt t) Hl) as [IH1 IH2]. change (schedule_all rt (t :: tasks)) with (schedule_all (schedule_async_task rt t) tasks).
  rewrite IH1, Ht, <- app_assoc. done.
Qed.

(** The tasks of the asynchronous hooks, unless nobody listens. *)
Definition async_tasks (rt : CommandHookRuntime) (handlers : list ConfiguredHandler) (input cwd : str) (turn : option str) : list HookTask :=
  if rt_sender_closed rt then [] else map (λ h, AsyncHook h input cwd turn) (async_handlers handlers).

Lemma schedule_async_spec rt l input cwd turn :
  rt_limit_closed rt = false →
  let rt' := foldl (λ rt h, schedule_async_hook rt h input cwd turn) rt l in
  rt_tasks rt' = rt_tasks rt ++ (if rt_sender_closed rt then [] else map (λ h, AsyncHook h input cwd turn) l)
  ∧ rt_limit_closed rt' = false.
Proof.
  revert rt. induction l as [|h l IH]; intros rt Ho; cbn [foldl map].
  { destruct (rt_sender_closed rt); by rewrite app_nil_r. }
  unfold schedule_async_hook at 2 4. destruct (rt_sender_closed rt) eqn:Hs.
  - destruct (IH rt Ho) as [IH1 IH2]. rewrite Hs in IH1. done.
  - destruct (schedule_task_spec rt (AsyncHook h input cwd turn)) as (Ht & Hl & Hc). rewrite Ho in Ht, Hl. rewrite Hs in Hc.
    destruct (IH _ Hl) as [IH1 IH2]. rewrite Hc in IH1. cbv zeta. rewrite IH1, Ht, <- app_assoc. done.
Qed.

(** * The runs of a stop event *)

Definition stop_data (h : ConfiguredHandler) (r : HandlerRunResult) : StopHandlerData :=
  let run := oc_data (stop_outcome (stop_parser_of (event_name h)) h r) in
  mkStopData (sr_should_stop run) (sr_stop_reason run) (is_some (sr_block_reason run)) (sr_block_reason run)
    (match sr_block_reason run with Some prompt => [mkFragment prompt (run_id h)] | None => [] end).

Definition stop_status (h : ConfiguredHandler) (r : HandlerRunResult) : HookRunStatus :=
  oc_status (stop_outcome (stop_parser_of (event_name h)) h r).

Definition stop_parsed (turn : option str) (h : ConfiguredHandler) (r : HandlerRunResult) : ParsedHandler StopHandlerData :=
  mkParsed (mkCompleted turn (local_summary h r (stop_status h r) (oc_entries (stop_outcome (stop_parser_of (event_name h)) h r))))
    (stop_data h r) 0.

Lemma stop_parse_completed_local h r turn :
  stop_event (event_name h) → is_executor_scoped h = false →
  stop_parse_completed h r turn = Some (stop_parsed turn h r).
Proof.
  intros He Hx. unfold stop_parse_completed, stop_parsed, stop_data, stop_status. rewrite (stop_parser_event _ He). cbn [mbind option_bind].
  destruct (stop_outcome (stop_parser_of (event_name h)) h r) as [st en d]. cbn [oc_status oc_entries oc_data].
  by rewrite completed_summary_local.
Qed.

(** Dispatching stop hooks: their data in configured order, and the tasks. *)
Lemma stop_execute rt handlers input cwd turn metadata :
  (∀ h, h ∈ handlers → stop_event (event_name h)) → rt_limit_closed rt = false →
  let stops ih := stop_stops ih.2 (run_of rt input cwd ih) in
  let blocks ih := ∃ reason, stop_blocks ih.2 (run_of rt input cwd ih) reason in
  ∃ rt' results, execute_handlers_with_metadata rt handlers input cwd turn metadata stop_parse_completed = Some (rt', results)
  ∧ map data results = map (λ ih, stop_data ih.2 (run_of rt input cwd ih)) (sync_handlers handlers)
  ∧ rt_limit_closed rt' = false
  ∧ ((∃ ih, ih ∈ sync_handlers handlers ∧ stops ih) ∨ (∀ ih, ih ∈ sync_handlers handlers → ¬ blocks ih) →
      rt_tasks rt' = rt_tasks rt ++ async_tasks rt handlers input cwd turn
                     ++ map (λ h, ExecutorTask h input cwd metadata) (executor_handlers handlers))
  ∧ ((∀ ih, ih ∈ sync_handlers handlers → ¬ stops ih) → (∃ ih, ih ∈ sync_handlers handlers ∧ blocks ih) →
      rt_tasks rt' = rt_tasks rt ++ async_tasks rt handlers input cwd turn).
Proof.
  intros Hev Ho stops blocks.
  pose proof (execute_handlers_spec rt handlers input cwd turn metadata stop_parse_completed
    (λ ih, stop_parsed turn ih.2 (run_of rt input cwd ih))) as Hspec. cbv zeta in Hspec. rewrite Hspec; clear Hspec.
  2:{ intros ih Hin. apply sync_in in Hin as (_ & Hx & Hm). apply stop_parse_completed_local; [by apply Hev|done]. }
  cbn [stop_parsed completed ev_run local_summary run_status].
  destruct (schedule_async_spec rt (async_handlers handlers) input cwd turn Ho) as [Hta Hla].
  set (rt1 := foldl _ rt _) in *. fold (async_tasks rt handlers input cwd turn) in Hta.
  destruct (schedule_all_spec (map (λ h, ExecutorTask h input cwd metadata) (executor_handlers handlers)) rt1 Hla) as [Htx Hlx].
  assert (Hstop : existsb (λ ih, bool_decide (stop_status ih.2 (run_of rt input cwd ih) = Stopped)) (sync_handlers handlers) = true
    ↔ ∃ ih, ih ∈ sync_handlers handlers ∧ stops ih).
  { rewrite existsb_elem. setoid_rewrite bool_decide_eq_true. split; intros (ih & Hin & Hx); exists ih; (split; [done|]);
      by apply (stop_outcome_spec ih.2 (run_of rt input cwd ih)). }
  assert (Hblock : existsb (λ ih, bool_decide (stop_status ih.2 (run_of rt input cwd ih) = Blocked)) (sync_handlers handlers) = true
    ↔ ∃ ih, ih ∈ sync_handlers handlers ∧ blocks ih).
  { rewrite existsb_elem. setoid_rewrite bool_decide_eq_true. split; intros (ih & Hin & Hx); exists ih; (split; [done|]);
      by apply (stop_outcome_spec ih.2 (run_of rt input cwd ih)). }
  eexists _, _. split; [reflexivity|]. split; [by rewrite map_map|].
  destruct (existsb _ _) eqn:Es in Hstop |- *; cbn [orb].
  - rewrite Htx, Hta, <- app_assoc. split; [done|]. split; [done|]. intros Hn. exfalso.
    destruct (proj1 Hstop eq_refl) as (ih & Hin & Hx). by apply (Hn ih Hin).
  - destruct (existsb _ _) eqn:Eb in Hblock |- *; cbn [negb].
    + rewrite Hta. split; [done|]. split; [|done]. intros [Hx|Hx]; [by apply Hstop in Hx|].
      exfalso. destruct (proj1 Hblock eq_refl) as (ih & Hin & Hb). by apply (Hx ih Hin).
    + rewrite Htx, Hta, <- app_assoc. split; [done|]. split; [done|]. intros _ Hx. by apply Hblock in Hx.
Qed.

Definition stop_cleanup (t : StopHookTarget) (h : ConfiguredHandler) : bool := is_memory_consolidation t && is_executor_scoped h.

(** The handlers of the first dispatch. *)
Definition stop_waited (t : StopHookTarget) (handlers : list ConfiguredHandler) : list ConfiguredHandler :=
  List.filter (λ h, negb (stop_cleanup t h)) (stop_select_handlers t handlers).

Lemma stop_matched_event t handlers h : h ∈ stop_select_handlers t handlers → stop_event (event_name h).
Proof.
  unfold stop_select_handlers, select_handlers, select_handlers_for_matcher_inputs, stop_event.
  intros [[[_ He]%filter_In _]%filter_In _]%list_elem_of_In%filter_In. bool_facts. rewrite He. destruct t; cbn; tauto.
Qed.

Lemma filter_filter {A} (f g : A → bool) l : List.filter f (List.filter g l) = List.filter (λ x, g x && f x) l.
Proof. induction l as [|x l IH]; [done|]. cbn. destruct (g x); cbn; rewrite IH; done. Qed.

Lemma filter_ext_bool {A} (f g : A → bool) l : (∀ x, f x = g x) → List.filter f l = List.filter g l.
Proof. intros Hfg. induction l as [|x l IH]; [done|]. cbn. by rewrite Hfg, IH. Qed.

Lemma waited_async t handlers : async_handlers (stop_waited t handlers) = async_handlers (stop_select_handlers t handlers).
Proof.
  unfold async_handlers, stop_waited. rewrite filter_filter. apply filter_ext_bool. intros h. unfold stop_cleanup.
  destruct (is_executor_scoped h); rewrite ?andb_false_r; done.
Qed.

Lemma waited_executor t handlers :
  executor_handlers (stop_waited t handlers)
  = if is_memory_consolidation t then [] else executor_handlers (stop_select_handlers t handlers).
Proof.
  unfold executor_handlers, stop_waited. rewrite filter_filter. unfold stop_cleanup. destruct (is_memory_consolidation t); cbn [andb negb].
  - induction (stop_select_handlers t handlers) as [|h l IH]; [done|]. cbn. by destruct (is_executor_scoped h).
  - done.
Qed.

Lemma cleanup_sync t l : sync_handlers (List.filter (stop_cleanup t) l) = [].
Proof.
  destruct (sync_handlers _) as [|ih sync] eqn:E; [done|]. exfalso.
  assert (Hin : ih ∈ sync_handlers (List.filter (stop_cleanup t) l)) by (rewrite E; left).
  apply sync_in in Hin as (_ & Hx & [_ Hc]%list_elem_of_In%filter_In). unfold stop_cleanup in Hc. rewrite Hx, andb_false_r in Hc. done.
Qed.

Lemma cleanup_async t l : async_handlers (List.filter (stop_cleanup t) l) = [].
Proof.
  unfold async_handlers. rewrite filter_filter. induction l as [|h l IH]; [done|]. cbn. unfold stop_cleanup at 1.
  by destruct (is_executor_scoped h); rewrite ?andb_false_r.
Qed.

Lemma cleanup_executor t l :
  executor_handlers (List.filter (stop_cleanup t) l) = if is_memory_consolidation t then executor_handlers l else [].
Proof.
  unfold executor_handlers. rewrite filter_filter. unfold stop_cleanup. destruct (is_memory_consolidation t); cbn [andb].
  - apply filter_ext_bool. intros h. by destruct (is_executor_scoped h).
  - induction l as [|h l IH]; [done|exact IH].
Qed.

(** The combined data stops and blocks by what the runs ask for. *)
Lemma aggregate_spec rt handlers input cwd :
  let stops ih := stop_stops ih.2 (run_of rt input cwd ih) in
  let blocks ih reason := stop_blocks ih.2 (run_of rt input cwd ih) reason in
  let d := aggregate_results (map (λ ih, stop_data ih.2 (run_of rt input cwd ih)) (sync_handlers handlers)) in
  (sd_should_stop d = true ↔ ∃ ih, ih ∈ sync_handlers handlers ∧ stops ih)
  ∧ (sd_should_block d = true ↔ (∀ ih, ih ∈ sync_handlers handlers → ¬ stops ih) ∧ ∃ ih, ih ∈ sync_handlers handlers ∧ ∃ reason, blocks ih reason).
Proof.
  intros stops blocks d. unfold d, aggregate_results. cbn [sd_should_stop sd_should_block]. rewrite !existsb_map.
  assert (Hs : existsb (λ ih, sd_should_stop (stop_data ih.2 (run_of rt input cwd ih))) (sync_handlers handlers) = true
    ↔ ∃ ih, ih ∈ sync_handlers handlers ∧ stops ih).
  { rewrite existsb_elem. split; intros (ih & Hin & Hx); exists ih; (split; [done|]);
      destruct (stop_outcome_spec ih.2 (run_of rt input cwd ih)) as (K & _); [exact (proj1 K Hx)|exact (proj2 K Hx)]. }
  assert (Hb : existsb (λ ih, sd_should_block (stop_data ih.2 (run_of rt input cwd ih))) (sync_handlers handlers) = true
    ↔ ∃ ih, ih ∈ sync_handlers handlers ∧ ∃ reason, blocks ih reason).
  { rewrite existsb_elem. split.
    - intros (ih & Hin & Hx). exists ih. split; [done|]. unfold stop_data in Hx. cbn in Hx.
      destruct (sr_block_reason _) as [reason|] eqn:E; [|done]. exists reason. by apply (stop_outcome_spec ih.2 (run_of rt input cwd ih)).
    - intros (ih & Hin & reason & Hx). exists ih. split; [done|].
      apply (stop_outcome_spec ih.2 (run_of rt input cwd ih)) in Hx. unfold stop_data. cbn. by rewrite Hx. }
  split; [done|]. rewrite andb_true_iff, negb_true_iff, Hb, <- not_true_iff_false, Hs. naive_solver.
Qed.

(** The combined data of the handlers that are waited for. *)
Definition stop_combined (rt : CommandHookRuntime) (handlers : list ConfiguredHandler) (t : StopHookTarget) (input cwd : str) : StopHandlerData :=
  aggregate_results (map (λ ih, stop_data ih.2 (run_of rt input cwd ih)) (sync_handlers (stop_waited t handlers))).

Definition executor_tasks (l : list ConfiguredHandler) (input cwd : str) (metadata : option JsonMap) : list HookTask :=
  map (λ h, ExecutorTask h input cwd metadata) (executor_handlers l).

Lemma stop_first_dispatch rt handlers t turn cwd metadata input :
  rt_limit_closed rt = false →
  let matched := stop_select_handlers t handlers in
  let d := stop_combined rt handlers t input cwd in
  ∃ rt1 results, execute_handlers_with_metadata rt (stop_waited t handlers) input cwd (Some turn) metadata stop_parse_completed = Some (rt1, results)
  ∧ aggregate_results (map data results) = d
  ∧ rt_limit_closed rt1 = false
  ∧ rt_tasks rt1 = rt_tasks rt ++ async_tasks rt matched input cwd (Some turn)
      ++ (if is_memory_consolidation t || sd_should_block d then [] else executor_tasks matched input cwd metadata).
Proof.
  intros Ho matched d.
  destruct (stop_execute rt (stop_waited t handlers) input cwd (Some turn) metadata) as (rt1 & results & Hx & Hd & Ho1 & Hyes & Hno); [|done|].
  { intros h [Hin _]%list_elem_of_In%filter_In. apply list_elem_of_In in Hin. by apply stop_matched_event in Hin. }
  exists rt1, results. split; [done|]. split; [by rewrite Hd|]. split; [done|].
  unfold async_tasks in Hyes, Hno. rewrite waited_async in Hyes, Hno. rewrite waited_executor in Hyes.
  fold matched in Hyes, Hno. fold (async_tasks rt matched input cwd (Some turn)) in Hyes, Hno.
  destruct (aggregate_spec rt (stop_waited t handlers) input cwd) as [Hs Hb]. fold (stop_combined rt handlers t input cwd) in Hs, Hb. fold d in Hs, Hb.
  destruct (sd_should_block d) eqn:Eb.
  - destruct (proj1 Hb eq_refl) as [Hns Hbl]. rewrite (Hno Hns Hbl), orb_true_r. by rewrite app_nil_r.
  - rewrite orb_false_r, Hyes; [by destruct (is_memory_consolidation t)|].
    destruct (sd_should_stop d) eqn:Es; [left; by apply Hs|right]. intros ih Hin Hbl.
    assert (Hf : false = true); [|done]. apply Hb. split; [|by exists ih].
    intros jh Hj Hst. assert (Hf : false = true); [|done]. apply Hs. by exists jh.
Qed.

Lemma stop_cleanup_dispatch rt t matched turn cwd metadata input :
  rt_limit_closed rt = false → (∀ h, h ∈ matched → stop_event (event_name h)) →
  ∃ rt2 results, execute_handlers_with_metadata rt (List.filter (stop_cleanup t) matched) input cwd (Some turn) metadata stop_parse_completed = Some (rt2, results)
  ∧ rt_tasks rt2 = rt_tasks rt ++ (if is_memory_consolidation t then executor_tasks matched input cwd metadata else []).
Proof.
  intros Ho Hev.
  destruct (stop_execute rt (List.filter (stop_cleanup t) matched) input cwd (Some turn) metadata) as (rt2 & results & Hx & _ & _ & Hyes & _); [|done|].
  { intros h [Hin _]%list_elem_of_In%filter_In. apply list_elem_of_In in Hin. by apply Hev. }
  exists rt2, results. split; [done|]. rewrite cleanup_sync in Hyes. unfold async_tasks in Hyes. rewrite cleanup_async, cleanup_executor in Hyes.
  rewrite Hyes by (right; intros ih Hin; by apply not_elem_of_nil in Hin). unfold executor_tasks.
  destruct (rt_sender_closed rt); cbn [map app]; by destruct (is_memory_consolidation t).
Qed.

Lemma stop_run_spec rt handlers t turn cwd metadata input now :
  rt_limit_closed rt = false →
  let matched := stop_select_handlers t handlers in
  let d := stop_combined rt handlers t input cwd in
  ∃ rt' out, stop_run rt handlers t turn cwd metadata (inl input) now = Some (rt', out)
  ∧ st_data out = d
  ∧ rt_tasks rt' = rt_tasks rt ++ async_tasks rt matched input cwd (Some turn)
      ++ (if is_memory_consolidation t || negb (sd_should_block d) then executor_tasks matched input cwd metadata else []).
Proof.
  intros Ho matched d.
  destruct (stop_first_dispatch rt handlers t turn cwd metadata input Ho) as (rt1 & results & Hx & Hd & Ho1 & Ht1).
  destruct (stop_cleanup_dispatch rt1 t matched turn cwd metadata input Ho1) as (rt2 & results2 & Hx2 & Ht2).
  { intros h Hin. by apply stop_matched_event in Hin. }
  change (stop_run rt handlers t turn cwd metadata (inl input) now) with
    (match matched with
     | [] => Some (rt, mkStopOutcome [] stop_nothing)
     | _ => '(rt, results) ← execute_handlers_with_metadata rt (stop_waited t handlers) input cwd (Some turn) metadata stop_parse_completed;
            rt ← match List.filter (stop_cleanup t) matched with
                 | [] => Some rt
                 | _ => fst <$> execute_handlers_with_metadata rt (List.filter (stop_cleanup t) matched) input cwd (Some turn) metadata stop_parse_completed
                 end;
            Some (rt, mkStopOutcome (map completed results) (aggregate_results (map data results)))
     end).
  rewrite Hx. cbn [mbind option_bind]. fold matched d in Hd, Ht1. pose proof (cleanup_executor t matched) as Hce.
  destruct matched as [|h l] eqn:Em.
  - eexists _, _. split; [reflexivity|]. unfold d, stop_combined, stop_waited. fold matched. rewrite Em. split; [done|].
    unfold async_tasks. cbn. rewrite orb_true_r. destruct (rt_sender_closed rt); by rewrite app_nil_r.
  - destruct (List.filter (stop_cleanup t) (h :: l)) as [|c cl].
    + eexists _, _. split; [reflexivity|]. split; [exact Hd|]. rewrite Ht1. unfold executor_tasks.
      destruct (is_memory_consolidation t); cbn [orb]; [by rewrite <- Hce|]. by destruct (sd_should_block d).
    + rewrite Hx2. cbn [fmap option_fmap option_map fst mbind option_bind]. eexists _, _. split; [reflexivity|]. split; [exact Hd|].
      rewrite Ht2, Ht1, <- !app_assoc. destruct (is_memory_consolidation t), (sd_should_block d); by rewrite ?app_nil_r.
Qed.

End stop.

(** * Claims *)

(** Stop hooks combine whatever order they complete in: a Stop or SubagentStop event returns;
    it ends the turn exactly when some hook that is waited for asked to, and makes the turn go
    on exactly when none asked to end it and some hook gave a reason to go on. The cleanup hooks
    of executors are scheduled, each once and in order, exactly when the turn does not go on,
    and for memory consolidation even then; asynchronous hooks are scheduled in any case. *)
Theorem stop_hooks_exact `{RegexEngine} `{HookWorld} `{WireDecode} `{FuturesUnordered}
    (rt : CommandHookRuntime) (handlers : list ConfiguredHandler) (t : StopHookTarget) (turn cwd : str)
    (metadata : option JsonMap) (input : str) (now : ConfiguredHandler → Z) :
  rt_limit_closed rt = false →
  let matched := stop_select_handlers t handlers in
  let sync := sync_handlers (stop_waited t handlers) in
  let stops ih := stop_stops ih.2 (run_of rt input cwd ih) in
  let blocks ih := stop_blocks ih.2 (run_of rt input cwd ih) in
  ∃ rt' out, stop_run rt handlers t turn cwd metadata (inl input) now = Some (rt', out)
  ∧ (sd_should_stop (st_data out) = true ↔ ∃ ih, ih ∈ sync ∧ stops ih)
  ∧ (sd_should_block (st_data out) = true ↔ (∀ ih, ih ∈ sync → ¬ stops ih) ∧ ∃ ih, ih ∈ sync ∧ ∃ reason, blocks ih reason)
  ∧ rt_tasks rt' = rt_tasks rt ++ async_tasks rt matched input cwd (Some turn)
      ++ (if is_memory_consolidation t || negb (sd_should_block (st_data out)) then executor_tasks matched input cwd metadata else []).
Proof.
  intros Ho matched sync stops blocks. destruct (stop_run_spec rt handlers t turn cwd metadata input now Ho) as (rt' & out & Hr & Hd & Ht).
  exists rt', out. split; [done|]. rewrite Hd. destruct (aggregate_spec rt (stop_waited t handlers) input cwd) as [Hs Hb].
  split; [exact Hs|]. split; [exact Hb|]. exact Ht.
Qed.

(** A cleanup hook of an executor. *)
Definition example_cleanup (rx : RegexEngine) : @ConfiguredHandler rx :=
  @mkHandler rx true Stop None 5 None (mkLimit 2500) (ExecutorScoped (lit "p") (lit "e") None None (lit "m") (lit "r")) SrcPlugin 1
    (KMcpTool (lit "node_repl") (lit "turn_ended") []).

Lemma stop_hooks_exact_witness :
  ∃ rt' out, @stop_run example_regex example_world example_wires example_futures example_runtime
    [example_handler example_regex Stop 0; example_cleanup example_regex] TargetStop (lit "turn") (lit "/") None (inl (lit "{}")) (λ _, 0%Z) = Some (rt', out)
  ∧ sd_should_block (st_data out) = true ∧ rt_tasks rt' = [].
Proof.
  destruct (@stop_hooks_exact example_regex example_world example_wires example_futures example_runtime
    [example_handler example_regex Stop 0; example_cleanup example_regex] TargetStop (lit "turn") (lit "/") None (lit "{}") (λ _, 0%Z) eq_refl)
    as (rt' & out & Hr & _ & _ & Ht). exists rt', out. split; [exact Hr|]. vm_compute in Hr. injection Hr as <- <-. done.
Defined.
