(* ===== verification/HookDiscovery.v ===== *)
(** Which hooks run: the configuration of hooks (config/src/hook_config.rs), their discovery in
    the layers of the configuration, in managed requirements and in plugins
    (hooks/src/engine/discovery.rs, hooks/src/config_rules.rs), the allowlist of bundled cleanup
    hooks (plugin/src/bundled_hooks.rs) and the hooks of executors (hooks/src/engine/mod.rs).

    Parameters ([DiscoveryEnv]): the hash of a hook's identity (TOML, SHA-256), the files
    [hooks.json], path resolution, and the [Debug] text of a string. TOML values come decoded:
    a layer holds what its [hooks] table deserializes to. *)
From stdpp Require Import pretty.
From S2P Require Import Prelude Str Hooks HookOutput HookEvents.

(** * Configuration (config/src/hook_config.rs) *)

Inductive HookHandlerConfig :=
| CfgCommand (command : str) (command_windows : option str) (timeout : option N) (async : bool)
    (status_message : option str) (limit : option N)
| CfgMcpTool (server tool : str) (input : JsonMap) (timeout : option N) (status_message : option str)
| CfgPrompt
| CfgAgent.

Record MatcherGroup := mkGroup { group_matcher : option str; group_hooks : list HookHandlerConfig }.

Record HookEventsToml := mkEvents {
  cfg_pre_tool_use : list MatcherGroup;
  cfg_permission_request : list MatcherGroup;
  cfg_post_tool_use : list MatcherGroup;
  cfg_pre_compact : list MatcherGroup;
  cfg_post_compact : list MatcherGroup;
  cfg_session_start : list MatcherGroup;
  cfg_session_end : list MatcherGroup;
  cfg_user_prompt_submit : list MatcherGroup;
  cfg_subagent_start : list MatcherGroup;
  cfg_subagent_stop : list MatcherGroup;
  cfg_stop : list MatcherGroup;
  cfg_interrupt : list MatcherGroup
}.

(** [matcher_groups_mut] and [into_matcher_groups] *)
Definition into_matcher_groups (t : HookEventsToml) : list (HookEventName * list MatcherGroup) :=
  [(PreToolUse, cfg_pre_tool_use t); (PermissionRequest, cfg_permission_request t); (PostToolUse, cfg_post_tool_use t);
   (PreCompact, cfg_pre_compact t); (PostCompact, cfg_post_compact t); (SessionStart, cfg_session_start t);
   (SessionEnd, cfg_session_end t); (UserPromptSubmit, cfg_user_prompt_submit t); (SubagentStart, cfg_subagent_start t);
   (SubagentStop, cfg_subagent_stop t); (Stop, cfg_stop t); (Interrupt, cfg_interrupt t)].

Definition events_is_empty (t : HookEventsToml) : bool :=
  forallb (λ eg, match eg.2 with [] => true | _ => false end) (into_matcher_groups t).

Definition handler_count (t : HookEventsToml) : nat :=
  sum_list (map (λ g, length (group_hooks g)) (mjoin (map snd (into_matcher_groups t)))).

Record HookStateToml := mkState { hs_enabled : option bool; hs_trusted_hash : option str }.

(** * Layers *)

Inductive ConfigLayerSource :=
| LayerPackagedDefaults (file : str)
| LayerMdm (domain key : str)
| LayerSystem (file : str)
| LayerEnterpriseManaged (id name : str)
| LayerUser (file : str) (profile : option str)
| LayerProject (dot_codex_folder : str)
| LayerSessionFlags
| LayerLegacyManagedConfigTomlFromFile (file : str)
| LayerLegacyManagedConfigTomlFromMdm.

(** The [hooks] table of a layer: absent, rejected, or its events. *)
Inductive TomlHooks := NoTomlHooks | BadTomlHooks (err : str) | SomeTomlHooks (events : HookEventsToml).

(** [ConfigLayerEntry]. The [hooks.state] table lists, per key, the state it deserializes to. *)
Record ConfigLayerEntry := mkLayer {
  layer_name : ConfigLayerSource;
  layer_disabled : bool;
  hooks_config_folder_override : option str;
  layer_hooks : TomlHooks;
  layer_hook_state : option (list (str * option HookStateToml))
}.

Inductive RequirementSource :=
| ReqUnknown
| ReqMdmManagedPreferences (domain key : str)
| ReqComposite (sources : list RequirementSource)
| ReqEnterpriseManaged (id name : str)
| ReqSystemRequirementsToml (file : str)
| ReqLegacyManagedConfigTomlFromFile (file : str)
| ReqLegacyManagedConfigTomlFromMdm.

(** [ManagedHooksRequirementsToml] with its source; the directory is that of the platform. *)
Record ManagedHooks := mkManaged {
  managed_dir : option str;
  managed_events : HookEventsToml;
  managed_source : option RequirementSource
}.

Record ConfigLayerStack := mkStack {
  layers : list ConfigLayerEntry;
  allow_managed_hooks_only : option bool;
  managed_hooks : option ManagedHooks
}.

Definition layers_low_to_high (s : ConfigLayerStack) : list ConfigLayerEntry :=
  List.filter (λ l, negb (layer_disabled l)) (layers s).

Record PluginHookSource := mkPluginSource {
  ps_plugin_id : str;
  ps_plugin_root : str;
  ps_plugin_data_root : str;
  ps_source_path : str;
  ps_source_relative_path : str;
  ps_hooks : HookEventsToml
}.

(** The file [hooks.json] of a folder. *)
Inductive HooksJson :=
| JsonNotAFile | JsonUnreadable (err : str) | JsonUnparsable (err : str) | JsonNotAbsolute (err : str)
| JsonHooks (events : HookEventsToml).

(** What a hook is trusted by: the label of its event and the group reduced to it. *)
Record NormalizedHookIdentity := mkIdentity { identity_event : str; identity_group : MatcherGroup }.

Class DiscoveryEnv := {
  version_for_toml : NormalizedHookIdentity → str;
  read_hooks_json : str → HooksJson;
  path_join : str → str → str;
  path_parent : str → option str;
  path_is_absolute : str → bool;
  resolve_against_root : str → str;
  debug_str : str → str;
  (** the order in which a hash map of these entries is iterated *)
  hash_order : list (str * str) → list (str * str)
}.

(** * Hook state (config_rules.rs) *)

Definition layer_writes_state (n : ConfigLayerSource) : bool :=
  match n with LayerUser _ _ | LayerSessionFlags => true | _ => false end.

(** Later layers win field by field. *)
Definition merge_state (old new : HookStateToml) : HookStateToml :=
  mkState (match hs_enabled new with Some e => Some e | None => hs_enabled old end)
    (match hs_trusted_hash new with Some h => Some h | None => hs_trusted_hash old end).

Definition add_state (states : gmap str HookStateToml) (entry : str * option HookStateToml) : gmap str HookStateToml :=
  match entry.2 with
  | None => states
  | Some state =>
      let key := trim entry.1 in
      if key =s [] then states
      else <[key := merge_state (default (mkState None None) (states !! key)) state]> states
  end.

Definition hook_states_from_stack (stack : option ConfigLayerStack) : gmap str HookStateToml :=
  match stack with
  | None => ∅
  | Some stack =>
      foldl (λ states layer,
        if layer_writes_state (layer_name layer) then foldl add_state states (default [] (layer_hook_state layer)) else states)
        ∅ (layers stack)
  end.

(** * Labels and keys (lib.rs, declarations.rs, engine/dispatcher.rs) *)

Definition hook_event_name_label (e : HookEventName) : str :=
  match e with
  | PreToolUse => lit "PreToolUse" | PermissionRequest => lit "PermissionRequest" | PostToolUse => lit "PostToolUse"
  | PreCompact => lit "PreCompact" | PostCompact => lit "PostCompact" | SessionStart => lit "SessionStart"
  | SessionEnd => lit "SessionEnd" | UserPromptSubmit => lit "UserPromptSubmit" | SubagentStart => lit "SubagentStart"
  | SubagentStop => lit "SubagentStop" | Stop => lit "Stop" | Interrupt => lit "Interrupt"
  end.

Definition hook_event_key_label (e : HookEventName) : str :=
  match e with
  | PreToolUse => lit "pre_tool_use" | PermissionRequest => lit "permission_request" | PostToolUse => lit "post_tool_use"
  | PreCompact => lit "pre_compact" | PostCompact => lit "post_compact" | SessionStart => lit "session_start"
  | SessionEnd => lit "session_end" | UserPromptSubmit => lit "user_prompt_submit" | SubagentStart => lit "subagent_start"
  | SubagentStop => lit "subagent_stop" | Stop => lit "stop" | Interrupt => lit "interrupt"
  end.

Definition hook_key (key_source : str) (e : HookEventName) (group_index handler_index : nat) : str :=
  key_source ++ lit ":" ++ hook_event_key_label e ++ lit ":" ++ lit (pretty group_index) ++ lit ":" ++ lit (pretty handler_index).

Definition plugin_hook_key_source (plugin_id source_relative_path : str) : str :=
  plugin_id ++ lit ":" ++ source_relative_path.

(** * Bundled cleanup hooks (plugin/src/bundled_hooks.rs) *)

Inductive BundledHookTarget :=
| BundledMcpServer (server tool : str)
| BundledApp (server connector_id tool : str).

Record BundledHook := mkBundled { bh_plugin_id : str; bh_events : list HookEventName; bh_target : BundledHookTarget }.

Definition cleanup_events : list HookEventName := [Stop; Interrupt; SubagentStop].

Definition ALLOWLISTED_BUNDLED_HOOKS : list BundledHook :=
  [mkBundled (lit "browser@openai-bundled") cleanup_events (BundledMcpServer (lit "node_repl") (lit "turn_ended"));
   mkBundled (lit "chrome@openai-bundled") cleanup_events (BundledMcpServer (lit "node_repl") (lit "turn_ended"));
   mkBundled (lit "chrome-dev@openai-bundled") cleanup_events (BundledMcpServer (lit "node_repl") (lit "turn_ended"));
   mkBundled (lit "chrome-internal@openai-bundled") cleanup_events (BundledMcpServer (lit "node_repl") (lit "turn_ended"));
   mkBundled (lit "computer-use@openai-bundled") cleanup_events (BundledMcpServer (lit "node_repl") (lit "turn_ended"));
   mkBundled (lit "unified-computer-use@openai-bundled") cleanup_events (BundledMcpServer (lit "cua_repl") (lit "turn_ended"));
   mkBundled (lit "browser@openai-curated-remote") cleanup_events
     (BundledApp (lit "codex_apps") (lit "connector_openai_browser") (lit "browser.turn_ended"))].

Definition is_allowlisted_bundled_cleanup_hook (plugin_id : str) (e : HookEventName) (matcher : option str)
    (handler : HookHandlerConfig) (app_connector_id : option str) : bool :=
  match handler with
  | CfgMcpTool server tool input _ _ =>
      negb (is_some matcher)
      && existsb (λ hook,
           (bh_plugin_id hook =s plugin_id) && bool_decide (e ∈ bh_events hook)
           && match bh_target hook with
              | BundledMcpServer expected_server expected_tool => (server =s expected_server) && (tool =s expected_tool)
              | BundledApp expected_server connector_id expected_tool =>
                  (server =s expected_server) && (tool =s expected_tool)
                  && match input with [] => true | _ => false end
                  && bool_decide (app_connector_id = Some connector_id)
              end) ALLOWLISTED_BUNDLED_HOOKS
  | _ => false
  end.

(** * Discovery (engine/discovery.rs) *)

Inductive HookListEntryHandler :=
| ListCommand (command : str) (async : bool)
| ListMcpTool (server tool : str).

Record HookListEntry := mkListEntry {
  le_builtin : bool;
  le_key : str;
  le_event_name : HookEventName;
  le_handler : HookListEntryHandler;
  le_matcher : option str;
  le_timeout_sec : N;
  le_status_message : option str;
  le_additional_context_limit : option N;
  le_source_path : str;
  le_source : HookSource;
  le_plugin_id : option str;
  le_display_order : Z;
  le_enabled : bool;
  le_is_managed : bool;
  le_current_hash : str;
  le_trust_status : HookTrustStatus
}.

(** [HookHandlerSource]; the errors of a required source are those of the discovery. *)
Record HookHandlerSource := mkSource {
  hs_path : str;
  hs_key_source : str;
  hs_source : HookSource;
  hs_is_managed : bool;
  hs_required : bool;
  hs_bypass_hook_trust : bool;
  hs_hook_states : gmap str HookStateToml;
  hs_env : list (str * str);
  hs_plugin_id : option str
}.

Record HookDiscoveryPolicy := mkPolicy { pol_allow_managed_hooks_only : bool; pol_bypass_hook_trust : bool }.

Definition policy_allows (p : HookDiscoveryPolicy) (s : HookHandlerSource) : bool :=
  negb (pol_allow_managed_hooks_only p) || hs_is_managed s.

Record NormalizedHandler := mkNormalized {
  nh_config : HookHandlerConfig;
  nh_kind : ConfiguredHandlerKind;
  nh_timeout_sec : N;
  nh_status_message : option str;
  nh_additional_context_limit : option N
}.

(** [str::replace] for a non-empty pattern; the length of the text is fuel enough. *)
Fixpoint str_replace (fuel : nat) (from to s : str) : str :=
  match fuel with
  | O => s
  | S fuel => match split_once from s with Some (a, b) => a ++ to ++ str_replace fuel from to b | None => s end
  end.

Definition SESSION_END_DEFAULT_TIMEOUT_SEC : N := 1.
Definition SESSION_END_MAX_TIMEOUT_SEC : N := 3.

Definition hook_trust_status (is_managed is_builtin : bool) (current_hash : str) (trusted_hash : option str) : HookTrustStatus :=
  if is_builtin then TrustTrusted
  else if is_managed then TrustManaged
  else match trusted_hash with
       | Some trusted_hash => if trusted_hash =s current_hash then TrustTrusted else TrustModified
       | None => TrustUntrusted
       end.

Definition hook_enabled (is_managed is_builtin : bool) (state : option HookStateToml) : bool :=
  is_builtin || is_managed || negb (bool_decide (state ≫= hs_enabled = Some false)).

Definition hook_trusted_hash (is_managed : bool) (state : option HookStateToml) : option str :=
  if is_managed then None else state ≫= hs_trusted_hash.

Definition hook_metadata_for_config_layer_source (s : ConfigLayerSource) : HookSource * bool :=
  match s with
  | LayerPackagedDefaults _ => (SrcUnknown, false)
  | LayerSystem _ => (SrcSystem, true)
  | LayerUser _ _ => (SrcUser, false)
  | LayerProject _ => (SrcProject, false)
  | LayerMdm _ _ => (SrcMdm, true)
  | LayerEnterpriseManaged _ _ => (SrcCloudManagedConfig, true)
  | LayerSessionFlags => (SrcSessionFlags, false)
  | LayerLegacyManagedConfigTomlFromFile _ => (SrcLegacyManagedConfigFile, true)
  | LayerLegacyManagedConfigTomlFromMdm => (SrcLegacyManagedConfigMdm, true)
  end.

Fixpoint hook_source_for_requirement_source (s : RequirementSource) : HookSource :=
  match s with
  | ReqMdmManagedPreferences _ _ => SrcMdm
  | ReqSystemRequirementsToml _ => SrcSystem
  | ReqLegacyManagedConfigTomlFromFile _ => SrcLegacyManagedConfigFile
  | ReqLegacyManagedConfigTomlFromMdm => SrcLegacyManagedConfigMdm
  | ReqComposite (s :: _) => hook_source_for_requirement_source s
  | ReqComposite [] => SrcUnknown
  | ReqEnterpriseManaged _ _ => SrcCloudRequirements
  | ReqUnknown => SrcUnknown
  end.

Fixpoint escape_xml_text (value : str) : str :=
  match value with
  | [] => []
  | ch :: value =>
      (if N.eqb ch 38 then lit "&amp;"
       else if N.eqb ch 60 then lit "&lt;"
       else if N.eqb ch 62 then lit "&gt;"
       else if N.eqb ch 34 then lit "&quot;"
       else if N.eqb ch 39 then lit "&apos;"
       else [ch]) ++ escape_xml_text value
  end.

Section discovery.
Context `{RegexEngine} `{HookWorld} `{DiscoveryEnv}.

(** What discovery accumulates. *)
Record Discovery := mkDiscovery {
  d_handlers : list ConfiguredHandler;
  d_hook_entries : list HookListEntry;
  d_warnings : list str;
  d_required_load_errors : list str;
  d_display_order : Z
}.

Definition warn (d : Discovery) (w : str) : Discovery :=
  let 'mkDiscovery hs es ws rs o := d in mkDiscovery hs es (ws ++ [w]) rs o.

Definition record_load_failure (s : HookHandlerSource) (d : Discovery) (w : str) : Discovery :=
  let 'mkDiscovery hs es ws rs o := d in
  mkDiscovery hs es (ws ++ [w]) (if hs_required s then rs ++ [w] else rs) o.

Definition normalize_command_hook (e : HookEventName) (timeout : option N) (source_path : str) (d : Discovery) : Discovery * N :=
  match e with
  | SessionEnd | Interrupt =>
      let max := SESSION_END_MAX_TIMEOUT_SEC in
      let d :=
        if match timeout with Some t => (max <? t)%N | None => false end
        then warn d (lit "clamping " ++ hook_event_name_label e ++ lit " hook timeout to " ++ lit (pretty max)
               ++ lit "s in " ++ source_path)
        else d in
      (d, N.max 1 (N.min (default SESSION_END_DEFAULT_TIMEOUT_SEC timeout) max))
  | _ => (d, N.max 1 (default 600%N timeout))
  end.

Definition emits_context (e : HookEventName) : bool :=
  match e with PreToolUse | PostToolUse | SessionStart | UserPromptSubmit | SubagentStart => true | _ => false end.

Definition placeholder (key : str) : str := lit "${" ++ key ++ lit "}".

Definition expand_command (env : list (str * str)) (command : str) : str :=
  foldl (λ command kv, str_replace (length command) (placeholder kv.1) kv.2 command) command env.

(** The match on the handler; [None] skips it. *)
Definition normalize_handler (s : HookHandlerSource) (e : HookEventName) (handler : HookHandlerConfig) (d : Discovery)
    : Discovery * option NormalizedHandler :=
  match handler with
  | CfgCommand command command_windows timeout async status_message limit =>
      let command := if windows then default command command_windows else command in
      if trim command =s [] then (record_load_failure s d (lit "skipping empty hook command in " ++ hs_path s), None)
      else
        let '(d, timeout_sec) := normalize_command_hook e timeout (hs_path s) d in
        let runs_async := async && negb (bool_decide (e = SessionEnd)) in
        let d :=
          if async && negb runs_async
          then warn d (lit "running async " ++ hook_event_name_label e ++ lit " hook synchronously in " ++ hs_path s) else d in
        let '(d, limit) :=
          if emits_context e then (d, limit)
          else (if is_some limit
                then warn d (lit "ignoring additionalContextLimit for " ++ hook_event_name_label e ++ lit " hook in " ++ hs_path s
                       ++ lit ": this event cannot emit additionalContext") else d, None) in
        let normalized_limit :=
          match limit with Some l => if N.eqb l DEFAULT_HOOK_OUTPUT_TOKEN_LIMIT then None else Some l | None => None end in
        (d, Some (mkNormalized
              (CfgCommand command None (Some timeout_sec) async status_message normalized_limit)
              (KCommand (expand_command (hs_env s) command) (hs_env s) runs_async)
              timeout_sec status_message limit))
  | CfgMcpTool server tool input timeout status_message =>
      if bool_decide (e = SessionEnd) then
        (record_load_failure s d (lit "skipping MCP tool hook in " ++ hs_path s ++ lit ": " ++ hook_event_name_label e
           ++ lit " MCP hooks are not supported"), None)
      else if (trim server =s []) || (trim tool =s []) then
        (record_load_failure s d (lit "skipping MCP tool hook in " ++ hs_path s ++ lit ": server and tool must not be empty"), None)
      else
        let '(d, timeout_sec) := normalize_command_hook e timeout (hs_path s) d in
        (d, Some (mkNormalized (CfgMcpTool server tool input (Some timeout_sec) status_message)
              (KMcpTool server tool input) timeout_sec status_message None))
  | CfgPrompt => (record_load_failure s d (lit "skipping prompt hook in " ++ hs_path s ++ lit ": prompt hooks are not supported yet"), None)
  | CfgAgent => (record_load_failure s d (lit "skipping agent hook in " ++ hs_path s ++ lit ": agent hooks are not supported yet"), None)
  end.

Definition hook_hash (e : HookEventName) (matcher : option str) (group : MatcherGroup) (config : HookHandlerConfig) : str :=
  version_for_toml (mkIdentity (hook_event_key_label e) (mkGroup matcher [config])).

(** What becomes of one handler that was normalized: its entry in the list of hooks, and the
    handler itself when it may run. *)
Definition admit_handler (s : HookHandlerSource) (e : HookEventName) (group_index handler_index : nat) (group : MatcherGroup)
    (compiled : option HookMatcher) (n : NormalizedHandler) (d : Discovery) : Discovery :=
  let matcher := matcher_pattern_for_event e (group_matcher group) in
  let current_hash := hook_hash e matcher group (nh_config n) in
  let key := hook_key (hs_key_source s) e group_index handler_index in
  let state := hs_hook_states s !! key in
  let builtin :=
    match hs_plugin_id s with
    | Some plugin_id => is_allowlisted_bundled_cleanup_hook plugin_id e (group_matcher group) (nh_config n) None
    | None => false
    end in
  let enabled := hook_enabled (hs_is_managed s) builtin state in
  let trusted_hash := hook_trusted_hash (hs_is_managed s) state in
  let trust_status := hook_trust_status (hs_is_managed s) builtin current_hash trusted_hash in
  let list_handler :=
    match nh_kind n with
    | KCommand command _ async => ListCommand command async
    | KMcpTool server tool _ => ListMcpTool server tool
    end in
  let 'mkDiscovery handlers entries warnings required order := d in
  let entry := mkListEntry builtin key e list_handler matcher (nh_timeout_sec n) (nh_status_message n)
                 (nh_additional_context_limit n) (hs_path s) (hs_source s) (hs_plugin_id s) order enabled
                 (hs_is_managed s) current_hash trust_status in
  let handlers :=
    if enabled && (hs_bypass_hook_trust s || match trust_status with TrustManaged | TrustTrusted => true | _ => false end)
    then handlers ++ [mkHandler builtin e compiled (nh_timeout_sec n) (nh_status_message n)
                        (AdditionalContextLimit_from_config (nh_additional_context_limit n)) (Local (hs_path s))
                        (hs_source s) order (nh_kind n)]
    else handlers in
  mkDiscovery handlers (entries ++ [entry]) warnings required (order + 1).

Fixpoint append_handlers (s : HookHandlerSource) (e : HookEventName) (group_index handler_index : nat) (group : MatcherGroup)
    (compiled : option HookMatcher) (hooks : list HookHandlerConfig) (d : Discovery) : Discovery :=
  match hooks with
  | [] => d
  | handler :: hooks =>
      let '(d, normalized) := normalize_handler s e handler d in
      let d := match normalized with Some n => admit_handler s e group_index handler_index group compiled n d | None => d end in
      append_handlers s e group_index (S handler_index) group compiled hooks d
  end.

(** [matcher.map(HookMatcher::new).transpose()] *)
Definition compile_matcher (matcher : option str) : result str (option HookMatcher) :=
  match matcher with None => Ok None | Some m => let? c := HookMatcher_new m in Ok (Some c) end.

Fixpoint append_matcher_groups (s : HookHandlerSource) (e : HookEventName) (group_index : nat) (groups : list MatcherGroup)
    (d : Discovery) : Discovery :=
  match groups with
  | [] => d
  | group :: groups =>
      let matcher := matcher_pattern_for_event e (group_matcher group) in
      let d :=
        match compile_matcher matcher with
        | Ok compiled => append_handlers s e group_index 0 group compiled (group_hooks group) d
        | Err err =>
            let warning := lit "invalid matcher " ++ debug_str (default [] matcher) ++ lit " in " ++ hs_path s ++ lit ": " ++ err in
            match group_hooks group with
            | [] => warn d warning
            | _ => record_load_failure s d warning
            end
        end in
      append_matcher_groups s e (S group_index) groups d
  end.

Definition append_hook_events (s : HookHandlerSource) (events : HookEventsToml) (policy : HookDiscoveryPolicy) (d : Discovery) : Discovery :=
  if policy_allows policy s
  then foldl (λ d eg, append_matcher_groups s eg.1 0 eg.2 d) d (into_matcher_groups events)
  else d.

(** ** Sources *)

Definition synthetic_layer_path (path : str) : str := resolve_against_root path.

Definition CONFIG_TOML_FILE : str := lit "config.toml".

Definition config_folder (l : ConfigLayerEntry) : option str :=
  match layer_name l with
  | LayerSystem file | LayerUser file _ => path_parent file
  | LayerProject dot_codex_folder => Some dot_codex_folder
  | LayerPackagedDefaults _ | LayerMdm _ _ | LayerEnterpriseManaged _ _ | LayerSessionFlags
  | LayerLegacyManagedConfigTomlFromFile _ | LayerLegacyManagedConfigTomlFromMdm => None
  end.

Definition hooks_config_folder (l : ConfigLayerEntry) : option str := or_else (hooks_config_folder_override l) (config_folder l).

Definition config_toml_source_path (l : ConfigLayerEntry) : str :=
  match layer_name l with
  | LayerPackagedDefaults file | LayerSystem file | LayerUser file _ | LayerLegacyManagedConfigTomlFromFile file => file
  | LayerProject dot_codex_folder => path_join (default dot_codex_folder (hooks_config_folder l)) CONFIG_TOML_FILE
  | LayerMdm domain key => synthetic_layer_path (lit "<mdm:" ++ domain ++ lit ":" ++ key ++ lit ">/" ++ CONFIG_TOML_FILE)
  | LayerEnterpriseManaged id name =>
      synthetic_layer_path (lit "<enterprise-managed:" ++ name ++ lit ":" ++ id ++ lit ">/" ++ CONFIG_TOML_FILE)
  | LayerLegacyManagedConfigTomlFromMdm => synthetic_layer_path (lit "<legacy-managed-config.toml-mdm>/managed_config.toml")
  | LayerSessionFlags => synthetic_layer_path (lit "<session-flags>/config.toml")
  end.

Definition fallback_managed_hooks_source_path (s : option RequirementSource) : str :=
  match s with
  | Some (ReqSystemRequirementsToml file) | Some (ReqLegacyManagedConfigTomlFromFile file) => file
  | Some (ReqMdmManagedPreferences domain key) =>
      synthetic_layer_path (lit "<mdm:" ++ domain ++ lit ":" ++ key ++ lit ">/requirements.toml")
  | Some (ReqComposite _) => synthetic_layer_path (lit "<requirements-composition>/requirements.toml")
  | Some (ReqEnterpriseManaged id name) =>
      synthetic_layer_path (lit "<enterprise-managed:" ++ escape_xml_text name ++ lit ":" ++ escape_xml_text id ++ lit ">/requirements.toml")
  | Some ReqLegacyManagedConfigTomlFromMdm => synthetic_layer_path (lit "<legacy-managed-config.toml-mdm>/managed_config.toml")
  | Some ReqUnknown | None => synthetic_layer_path (lit "<managed-requirements>/requirements.toml")
  end.

Definition managed_hooks_source_path (m : ManagedHooks) : str :=
  match managed_dir m with
  | Some dir => if path_is_absolute dir then dir else fallback_managed_hooks_source_path (managed_source m)
  | None => fallback_managed_hooks_source_path (managed_source m)
  end.

Definition load_hooks_json (folder : str) (d : Discovery) : Discovery * option (str * HookEventsToml) :=
  let source_path := path_join folder (lit "hooks.json") in
  match read_hooks_json source_path with
  | JsonNotAFile => (d, None)
  | JsonUnreadable err => (warn d (lit "failed to read hooks config " ++ source_path ++ lit ": " ++ err), None)
  | JsonUnparsable err => (warn d (lit "failed to parse hooks config " ++ source_path ++ lit ": " ++ err), None)
  | JsonNotAbsolute err => (warn d (lit "failed to normalize hooks config path " ++ source_path ++ lit ": " ++ err), None)
  | JsonHooks events => (d, if events_is_empty events then None else Some (source_path, events))
  end.

Definition load_toml_hooks_from_layer (l : ConfigLayerEntry) (d : Discovery) : Discovery * option (str * HookEventsToml) :=
  let source_path := config_toml_source_path l in
  match layer_hooks l with
  | NoTomlHooks => (d, None)
  | BadTomlHooks err => (warn d (lit "failed to parse TOML hooks in " ++ source_path ++ lit ": " ++ err), None)
  | SomeTomlHooks events => (d, if events_is_empty events then None else Some (source_path, events))
  end.

(** ** The whole discovery *)

Definition managed_requirement_source (m : ManagedHooks) (states : gmap str HookStateToml) : HookHandlerSource :=
  let path := managed_hooks_source_path m in
  mkSource path path (match managed_source m with Some s => hook_source_for_requirement_source s | None => SrcUnknown end)
    true true false states [] None.

Definition append_managed_requirement_handlers (stack : ConfigLayerStack) (states : gmap str HookStateToml)
    (policy : HookDiscoveryPolicy) (d : Discovery) : Discovery :=
  match managed_hooks stack with
  | None => d
  | Some m => append_hook_events (managed_requirement_source m states) (managed_events m) policy d
  end.

Definition layer_source (l : ConfigLayerEntry) (path : str) (states : gmap str HookStateToml) (bypass : bool) : HookHandlerSource :=
  let '(source, is_managed) := hook_metadata_for_config_layer_source (layer_name l) in
  mkSource path path source is_managed false bypass states [] None.

(** One layer; [visited] are the folders whose [hooks.json] was looked at. *)
Definition append_layer (states : gmap str HookStateToml) (policy : HookDiscoveryPolicy) (st : list str * Discovery)
    (l : ConfigLayerEntry) : list str * Discovery :=
  let '(visited, d) := st in
  if negb (policy_allows policy (layer_source l (config_toml_source_path l) states false)) then (visited, d)
  else
    let '(visited, (d, json)) :=
      match hooks_config_folder l with
      | Some folder =>
          if bool_decide (folder ∈ visited) then (visited, (d, None)) else (visited ++ [folder], load_hooks_json folder d)
      | None => (visited, (d, None))
      end in
    let '(d, toml) := load_toml_hooks_from_layer l d in
    let d :=
      match json, toml with
      | Some (json_path, json_events), Some (toml_path, toml_events) =>
          if negb (events_is_empty json_events) && negb (events_is_empty toml_events)
          then warn d (lit "loading hooks from both " ++ json_path ++ lit " and " ++ toml_path
                 ++ lit "; prefer a single representation for this layer")
          else d
      | _, _ => d
      end in
    (visited,
     foldl (λ d pe, append_hook_events (layer_source l pe.1 states (pol_bypass_hook_trust policy)) pe.2 policy d) d
       (option_list json ++ option_list toml)).

Definition plugin_env (p : PluginHookSource) : list (str * str) :=
  hash_order
    [(lit "PLUGIN_ROOT", ps_plugin_root p); (lit "CLAUDE_PLUGIN_ROOT", ps_plugin_root p);
     (lit "PLUGIN_DATA", ps_plugin_data_root p); (lit "CLAUDE_PLUGIN_DATA", ps_plugin_data_root p)].

Definition plugin_source (p : PluginHookSource) (states : gmap str HookStateToml) (bypass : bool) : HookHandlerSource :=
  mkSource (ps_source_path p) (plugin_hook_key_source (ps_plugin_id p) (ps_source_relative_path p)) SrcPlugin false false bypass
    states (plugin_env p) (Some (ps_plugin_id p)).

Definition append_plugin_hook_sources (plugins : list PluginHookSource) (states : gmap str HookStateToml)
    (policy : HookDiscoveryPolicy) (d : Discovery) : Discovery :=
  foldl (λ d p, append_hook_events (plugin_source p states (pol_bypass_hook_trust policy)) (ps_hooks p) policy d) d plugins.

Definition discovery_policy (stack : option ConfigLayerStack) (bypass : bool) : HookDiscoveryPolicy :=
  mkPolicy (match stack with Some s => default false (allow_managed_hooks_only s) | None => false end) bypass.

Definition discover_handlers (stack : option ConfigLayerStack) (plugins : list PluginHookSource) (load_warnings : list str)
    (bypass : bool) : Discovery :=
  let states := hook_states_from_stack stack in
  let policy := discovery_policy stack bypass in
  let d := mkDiscovery [] [] load_warnings [] 0 in
  let d :=
    match stack with
    | None => d
    | Some stack =>
        let d := append_managed_requirement_handlers stack states policy d in
        (foldl (append_layer states policy) ([], d) (layers_low_to_high stack)).2
    end in
  append_plugin_hook_sources plugins states policy d.

(** * The engine (engine/mod.rs) *)

(** [ClaudeHooksEngine::new]: the handlers, warnings and load errors it keeps. *)
Definition engine_new (enabled : bool) (bypass : bool) (stack : option ConfigLayerStack) (plugins : list PluginHookSource)
    (load_warnings : list str) : list ConfiguredHandler * list str * list str :=
  match enabled, plugins with
  | false, [] => ([], [], [])
  | _, _ =>
      let d := discover_handlers stack plugins load_warnings bypass in
      if enabled then (d_handlers d, d_warnings d, d_required_load_errors d)
      else (List.filter builtin (d_handlers d), [], [])
  end.

Record ExecutorPluginHookSource := mkExecutorSource {
  xs_plugin_id : str;
  xs_environment_id : str;
  xs_mcp_environment_id : option str;
  xs_mcp_metadata : option JsonMap;
  xs_manifest_path : str;
  xs_source_relative_path : str;
  xs_hooks : HookEventsToml
}.

(** ** Admission of the hooks of executors (core-plugins/src/executor_hooks.rs) *)

Definition CODEX_APPS_MCP_SERVER_NAME : str := lit "codex_apps".
Definition MCP_TOOL_CODEX_APPS_META_KEY : str := lit "_codex_apps".
Definition DEFAULT_MCP_SERVER_ENVIRONMENT_ID : str := lit "local".

(** What the admission reads of a [ToolInfo]. *)
Record ToolInfo := mkToolInfo { ti_connector_id : option str; ti_meta : option JsonMap }.

Definition map_events (f : HookEventName → list MatcherGroup → list MatcherGroup) (t : HookEventsToml) : HookEventsToml :=
  mkEvents (f PreToolUse (cfg_pre_tool_use t)) (f PermissionRequest (cfg_permission_request t)) (f PostToolUse (cfg_post_tool_use t))
    (f PreCompact (cfg_pre_compact t)) (f PostCompact (cfg_post_compact t)) (f SessionStart (cfg_session_start t))
    (f SessionEnd (cfg_session_end t)) (f UserPromptSubmit (cfg_user_prompt_submit t)) (f SubagentStart (cfg_subagent_start t))
    (f SubagentStop (cfg_subagent_stop t)) (f Stop (cfg_stop t)) (f Interrupt (cfg_interrupt t)).

Definition with_hooks (s : ExecutorPluginHookSource) (h : HookEventsToml) : ExecutorPluginHookSource :=
  let 'mkExecutorSource p e m md mp sr _ := s in mkExecutorSource p e m md mp sr h.

Section admission.
Variable lookup_enabled_tool : str → str → option ToolInfo.

Definition app_connector_id (handler : HookHandlerConfig) : option str :=
  match handler with
  | CfgMcpTool server tool _ _ _ =>
      if server =s CODEX_APPS_MCP_SERVER_NAME then lookup_enabled_tool server tool ≫= ti_connector_id else None
  | _ => None
  end.

(** [retain_mut] on the groups of an event *)
Definition retain_allowlisted (plugin_id : str) (e : HookEventName) (groups : list MatcherGroup) : list MatcherGroup :=
  List.filter (λ g, match group_hooks g with [] => false | _ => true end)
    (map (λ g, mkGroup (group_matcher g)
      (List.filter (λ handler, is_allowlisted_bundled_cleanup_hook plugin_id e (group_matcher g) handler (app_connector_id handler))
        (group_hooks g))) groups).

Definition resolve_mcp_routing (s : ExecutorPluginHookSource) : option ExecutorPluginHookSource :=
  group ← find_map (λ eg, head eg.2) (into_matcher_groups (xs_hooks s));
  handler ← head (group_hooks group);
  match handler with
  | CfgMcpTool server tool _ _ _ =>
      if negb (server =s CODEX_APPS_MCP_SERVER_NAME) then Some s
      else
        info ← lookup_enabled_tool server tool;
        meta ← ti_meta info;
        routing ← snd <$> find (λ kv, kv.1 =s MCP_TOOL_CODEX_APPS_META_KEY) meta;
        match routing with
        | VObject metadata =>
            uri ← snd <$> find (λ kv, kv.1 =s lit "resource_uri") metadata;
            match uri with
            | VString _ =>
                let 'mkExecutorSource p e _ _ mp sr h := s in
                Some (mkExecutorSource p e (Some DEFAULT_MCP_SERVER_ENVIRONMENT_ID)
                  (Some [(MCP_TOOL_CODEX_APPS_META_KEY, VObject metadata)]) mp sr h)
            | _ => None
            end
        | _ => None
        end
  | _ => None
  end.

(** The sources that are admitted, of those the manifests declare. *)
Definition admit_executor_sources (sources : list ExecutorPluginHookSource) : list ExecutorPluginHookSource :=
  omap (λ s,
    let hooks := map_events (retain_allowlisted (xs_plugin_id s)) (xs_hooks s) in
    if events_is_empty hooks then None else resolve_mcp_routing (with_hooks s hooks)) sources.

End admission.

(** [i64::saturating_add(1)] *)
Definition i64_saturating_succ (n : Z) : Z := if (n <? Truncate.i64_max)%Z then n + 1 else n.

(** Event, environment, server and tool. *)
Definition ExecutorTarget : Type := HookEventName * str * str * str.

(** One event of an executor's source; [None] is [unreachable!]. *)
Definition add_executor_event (src : ExecutorPluginHookSource) (st : list ConfiguredHandler * Z * list ExecutorTarget)
    (eg : HookEventName * list MatcherGroup) : option (list ConfiguredHandler * Z * list ExecutorTarget) :=
  let '(handlers, display_order, seen) := st in
  match mjoin (map group_hooks eg.2) with
  | [] => Some st
  | CfgMcpTool server tool input timeout status_message :: _ =>
      let target := (eg.1, default (xs_environment_id src) (xs_mcp_environment_id src), server, tool) in
      if bool_decide (target ∈ seen) then Some st
      else
        let h := mkHandler true eg.1 None (N.max (default 5%N timeout) 1) status_message (AdditionalContextLimit_from_config None)
                   (ExecutorScoped (xs_plugin_id src) (xs_environment_id src) (xs_mcp_environment_id src) (xs_mcp_metadata src)
                      (xs_manifest_path src) (xs_source_relative_path src))
                   SrcPlugin display_order (KMcpTool server tool input) in
        Some (handlers ++ [h], i64_saturating_succ display_order, seen ++ [target])
  | _ :: _ => None
  end.

Definition fold_option {A B} (f : B → A → option B) (l : list A) (b : B) : option B :=
  foldl (λ b x, b ≫= λ b, f b x) (Some b) l.

Definition set_executor_hooks (handlers : list ConfiguredHandler) (sources : list ExecutorPluginHookSource) : option (list ConfiguredHandler) :=
  if (match sources with [] => true | _ => false end) && negb (existsb is_executor_scoped handlers) then Some handlers
  else
    let handlers := List.filter (λ h, negb (is_executor_scoped h)) handlers in
    let display_order :=
      match map display_order handlers with [] => 0%Z | o :: os => i64_saturating_succ (foldl Z.max o os) end in
    '(handlers, _, _) ← fold_option (λ st src, fold_option (add_executor_event src) (into_matcher_groups (xs_hooks src)) st)
       sources (handlers, display_order, []);
    Some handlers.

End discovery.
