(* ===== verification/HookTrust.v ===== *)
(** Trust in hooks: a hook runs only when it is managed, bundled or trusted by the user; managed
    hooks cannot be turned off or lost silently; the handlers of executors are cleanup hooks only,
    so the engine never reaches the branches that panic. *)
From S2P Require Import Prelude Str Hooks HookOutput HookEvents HookDiscovery HookControl HookStop.

Section trust.
Context `{RegexEngine} `{HookWorld} `{DiscoveryEnv}.

(** * What normalization gives *)

(** The handler runs what its configuration says, within the limits of its event. *)
Definition normalized (e : HookEventName) (n : NormalizedHandler) : Prop :=
  (1 ≤ nh_timeout_sec n)%N ∧ (e = SessionEnd ∨ e = Interrupt → (nh_timeout_sec n ≤ 3)%N)
  ∧ match nh_config n with
    | CfgCommand command None (Some t) async _ _ =>
        t = nh_timeout_sec n
        ∧ ∃ env, nh_kind n = KCommand (expand_command env command) env (async && negb (bool_decide (e = SessionEnd)))
    | CfgMcpTool server tool input (Some t) _ =>
        t = nh_timeout_sec n ∧ nh_kind n = KMcpTool server tool input ∧ e ≠ SessionEnd
    | _ => False
    end.

Lemma normalize_command_hook_bounds e t path d :
  (1 ≤ (normalize_command_hook e t path d).2)%N
  ∧ (e = SessionEnd ∨ e = Interrupt → ((normalize_command_hook e t path d).2 ≤ 3)%N).
Proof.
  unfold normalize_command_hook, SESSION_END_MAX_TIMEOUT_SEC. destruct e; cbn [snd]; (split; [lia|]);
    intros Hx; try (destruct Hx; done); lia.
Qed.

Lemma normalize_handler_ok s e c d d' n : normalize_handler s e c d = (d', Some n) → normalized e n.
Proof.
  destruct c as [command cw t a sm l|server tool input t sm| |]; cbn [normalize_handler]; try done.
  - destruct (_ =s _); [done|]. pose proof (normalize_command_hook_bounds e t (hs_path s) d) as [Hlo Hhi].
    destruct (normalize_command_hook _ _ _ _) as [d1 ts]. cbn [snd] in Hlo, Hhi.
    destruct (emits_context e); intros [= <- <-]; (split; [done|]; split; [done|]; split; [done|]; eauto).
  - case_bool_decide; [done|]. destruct (_ || _); [done|].
    pose proof (normalize_command_hook_bounds e t (hs_path s) d) as [Hlo Hhi].
    destruct (normalize_command_hook _ _ _ _) as [d1 ts]. cbn [snd] in Hlo, Hhi. intros [= <- <-]. done.
Qed.

(** * Properties that discovery maintains *)

(** What every step of discovery preserves holds of its result. *)
Section closure.
Variable P : Discovery → Prop.
Variable good : HookHandlerSource → Prop.
Hypothesis P_warn : ∀ d w, P d → P (warn d w).
Hypothesis P_fail : ∀ s d w, good s → P d → P (record_load_failure s d w).
Hypothesis P_admit : ∀ s e gi hi g c n d, good s → normalized e n → P d → P (admit_handler s e gi hi g c n d).

Lemma normalize_command_hook_P e t path d : P d → P (normalize_command_hook e t path d).1.
Proof. intros Hd. unfold normalize_command_hook. destruct e; cbn [fst]; try done; case_match; auto. Qed.

Lemma normalize_handler_P s e c d : good s → P d → P (normalize_handler s e c d).1.
Proof.
  intros Hs Hd. destruct c as [command cw t a sm l|server tool input t sm| |]; cbn [normalize_handler]; try (cbn; by apply P_fail).
  - destruct (_ =s _); [cbn; by apply P_fail|]. pose proof (normalize_command_hook_P e t (hs_path s) d Hd) as Hn.
    destruct (normalize_command_hook _ _ _ _) as [d' ts]. cbn [fst] in Hn.
    destruct (a && _); destruct (emits_context e); try destruct (is_some l); cbn [fst]; auto.
  - case_bool_decide; [cbn; by apply P_fail|]. destruct (_ || _); [cbn; by apply P_fail|].
    pose proof (normalize_command_hook_P e t (hs_path s) d Hd) as Hn. by destruct (normalize_command_hook _ _ _ _) as [d' ts].
Qed.

Lemma append_handlers_P s e gi g c hooks hi d : good s → P d → P (append_handlers s e gi hi g c hooks d).
Proof.
  intros Hs. revert hi d. induction hooks as [|h hooks IH]; intros hi d Hd; [done|]. cbn [append_handlers].
  pose proof (normalize_handler_P s e h d Hs Hd) as Hn. pose proof (normalize_handler_ok s e h d) as Hok.
  destruct (normalize_handler s e h d) as [d' [n|]]; cbn [fst] in Hn; eauto.
Qed.

Lemma append_matcher_groups_P s e groups gi d : good s → P d → P (append_matcher_groups s e gi groups d).
Proof.
  intros Hs. revert gi d. induction groups as [|g groups IH]; intros gi d Hd; [done|]. cbn [append_matcher_groups]. apply IH.
  destruct (compile_matcher _); [by apply append_handlers_P|]. destruct (group_hooks g); auto.
Qed.

Lemma append_hook_events_P s events policy d :
  (policy_allows policy s = true → good s) → P d → P (append_hook_events s events policy d).
Proof.
  intros Hs Hd. unfold append_hook_events. destruct (policy_allows policy s); [|done]. specialize (Hs eq_refl).
  revert d Hd. induction (into_matcher_groups events) as [|eg l IH]; intros d Hd; [done|]. cbn [foldl]. apply IH.
  by apply append_matcher_groups_P.
Qed.

(** The sources discovery looks at, where the policy allows them. *)
Definition sources_good (states : gmap str HookStateToml) (policy : HookDiscoveryPolicy) : Prop :=
  (∀ l path, policy_allows policy (layer_source l path states (pol_bypass_hook_trust policy)) = true →
       good (layer_source l path states (pol_bypass_hook_trust policy)))
  ∧ (∀ p, policy_allows policy (plugin_source p states (pol_bypass_hook_trust policy)) = true →
       good (plugin_source p states (pol_bypass_hook_trust policy))).

Lemma append_layer_P states policy visited d l :
  sources_good states policy → P d → P (append_layer states policy (visited, d) l).2.
Proof.
  intros (Hl & _) Hd. unfold append_layer. destruct (negb _); [done|].
  assert (Hj : ∀ folder, P (load_hooks_json folder d).1).
  { intros folder. unfold load_hooks_json. destruct (read_hooks_json _); cbn [fst]; auto. }
  assert (Hv : ∃ v' d' json, (match hooks_config_folder l with
      | Some folder => if bool_decide (folder ∈ visited) then (visited, (d, None)) else (visited ++ [folder], load_hooks_json folder d)
      | None => (visited, (d, None)) end) = (v', (d', json)) ∧ P d').
  { destruct (hooks_config_folder l) as [folder|]; [|eauto 6]. case_bool_decide; [eauto 6|].
    specialize (Hj folder). destruct (load_hooks_json folder d) as [d' json]. eauto 6. }
  destruct Hv as (v' & d1 & json & -> & Hd1).
  assert (Ht : P (load_toml_hooks_from_layer l d1).1).
  { unfold load_toml_hooks_from_layer. destruct (layer_hooks l); cbn [fst]; auto. }
  destruct (load_toml_hooks_from_layer l d1) as [d2 toml]. cbn [fst] in Ht. cbn [snd].
  assert (Hd3 : P (match json, toml with
    | Some (jp, je), Some (tp, te) => if negb (events_is_empty je) && negb (events_is_empty te)
        then warn d2 (lit "loading hooks from both " ++ jp ++ lit " and " ++ tp ++ lit "; prefer a single representation for this layer") else d2
    | _, _ => d2 end)).
  { destruct json as [[]|], toml as [[]|]; try done. case_match; auto. }
  revert Hd3. generalize (match json, toml with
    | Some (jp, je), Some (tp, te) => if negb (events_is_empty je) && negb (events_is_empty te)
        then warn d2 (lit "loading hooks from both " ++ jp ++ lit " and " ++ tp ++ lit "; prefer a single representation for this layer") else d2
    | _, _ => d2 end). generalize (option_list json ++ option_list toml).
  intros pes. induction pes as [|pe pes IH]; intros d3 Hd3; [done|]. cbn [foldl]. apply IH. apply append_hook_events_P; auto.
Qed.

Lemma layers_P states policy ls visited d :
  sources_good states policy → P d → P (foldl (append_layer states policy) (visited, d) ls).2.
Proof.
  intros Hg. revert visited d. induction ls as [|l ls IH]; intros v d Hd; [done|]. cbn [foldl].
  pose proof (append_layer_P states policy v d l Hg Hd) as Hl. destruct (append_layer states policy (v, d) l) as [v' d']. by apply IH.
Qed.

Lemma plugins_P states policy plugins d :
  sources_good states policy → P d → P (append_plugin_hook_sources plugins states policy d).
Proof.
  intros Hg. unfold append_plugin_hook_sources. revert d. induction plugins as [|p plugins IH]; intros d Hd; [done|]. cbn [foldl]. apply IH.
  apply append_hook_events_P; [apply Hg|done].
Qed.

Lemma discover_P stack plugins load_warnings bypass :
  sources_good (hook_states_from_stack stack) (discovery_policy stack bypass) →
  (∀ m, good (managed_requirement_source m (hook_states_from_stack stack))) →
  P (mkDiscovery [] [] load_warnings [] 0) → P (discover_handlers stack plugins load_warnings bypass).
Proof.
  intros Hg Hm Hd. unfold discover_handlers. cbv zeta. apply plugins_P; [done|]. destruct stack as [stack|]; [|done].
  apply layers_P; [done|]. unfold append_managed_requirement_handlers. destruct (managed_hooks stack); [|done].
  apply append_hook_events_P; [|done]. intros _. apply Hm.
Qed.

End closure.

(** * Trust *)

(** The entry lists the handler. *)
Definition lists (e : HookListEntry) (h : ConfiguredHandler) : Prop :=
  le_display_order e = display_order h ∧ le_event_name e = event_name h ∧ le_builtin e = builtin h
  ∧ source_path h = Local (le_source_path e) ∧ le_source e = source h ∧ le_timeout_sec e = timeout_sec h
  ∧ le_handler e = match kind h with
                   | KCommand command _ async => ListCommand command async
                   | KMcpTool server tool _ => ListMcpTool server tool
                   end.

(** The user's state lets the hook run: not disabled, and trusted as it is now. *)
Definition user_admits (states : gmap str HookStateToml) (bypass : bool) (e : HookListEntry) : Prop :=
  states !! le_key e ≫= hs_enabled ≠ Some false
  ∧ (bypass = true ∨ states !! le_key e ≫= hs_trusted_hash = Some (le_current_hash e)).

Definition entry_admits (states : gmap str HookStateToml) (bypass : bool) (e : HookListEntry) : Prop :=
  le_is_managed e = true ∨ le_builtin e = true ∨ user_admits states bypass e.

(** A bundled hook is one of the known cleanup calls. *)
Definition bundled_entry (e : HookListEntry) : Prop :=
  le_event_name e ∈ cleanup_events ∧ le_matcher e = None
  ∧ ∃ b server tool, b ∈ ALLOWLISTED_BUNDLED_HOOKS ∧ le_plugin_id e = Some (bh_plugin_id b)
      ∧ bh_target b = BundledMcpServer server tool ∧ le_handler e = ListMcpTool server tool.

Definition trust_inv (states : gmap str HookStateToml) (bypass only : bool) (d : Discovery) : Prop :=
  (∀ h, h ∈ d_handlers d → ∃ e, e ∈ d_hook_entries d ∧ lists e h ∧ entry_admits states bypass e)
  ∧ (only = true → ∀ e, e ∈ d_hook_entries d → le_is_managed e = true)
  ∧ (∀ e, e ∈ d_hook_entries d → le_builtin e = true → bundled_entry e).

Definition trust_source (states : gmap str HookStateToml) (bypass only : bool) (s : HookHandlerSource) : Prop :=
  hs_hook_states s = states ∧ (hs_bypass_hook_trust s = true → bypass = true) ∧ (only = true → hs_is_managed s = true).

Lemma cleanup_events_allowlisted b : b ∈ ALLOWLISTED_BUNDLED_HOOKS → bh_events b = cleanup_events.
Proof. unfold ALLOWLISTED_BUNDLED_HOOKS. rewrite !elem_of_cons, elem_of_nil. intros Hb. by repeat destruct Hb as [->|Hb]. Qed.

Lemma allowlisted_spec plugin_id e m c app :
  is_allowlisted_bundled_cleanup_hook plugin_id e m c app = true →
  e ∈ cleanup_events ∧ m = None
  ∧ ∃ server tool input t sm b, c = CfgMcpTool server tool input t sm ∧ b ∈ ALLOWLISTED_BUNDLED_HOOKS ∧ bh_plugin_id b = plugin_id
      ∧ (bh_target b = BundledMcpServer server tool ∨ ∃ connector, app = Some connector).
Proof.
  destruct c as [|server tool input t sm| |]; cbn [is_allowlisted_bundled_cleanup_hook]; try done.
  intros [Hm (b & Hin & Hb)%existsb_elem]%andb_true_iff. apply andb_true_iff in Hb as [[Hid He]%andb_true_iff Ht]. bool_facts.
  rewrite (cleanup_events_allowlisted b Hin) in He. split; [done|]. split; [by destruct m|].
  exists server, tool, input, t, sm, b. split; [done|]. split; [done|]. split; [done|].
  destruct (bh_target b) as [es et|es ec et]; bool_facts; [left; congruence|right; eauto].
Qed.

Lemma trust_admit states bypass only s e gi hi g c n d :
  trust_source states bypass only s → normalized e n → trust_inv states bypass only d →
  trust_inv states bypass only (admit_handler s e gi hi g c n d).
Proof.
  intros (Hst & Hby & Hon) Hn (I1 & I2 & I3). destruct d as [hs es ws rs o]. cbn [d_handlers d_hook_entries] in *.
  unfold admit_handler. cbv zeta. rewrite Hst.
  match goal with |- trust_inv _ _ _ (mkDiscovery _ (_ ++ [?x]) _ _ _) => set (entry := x) end.
  assert (Hb : le_builtin entry = true → bundled_entry entry).
  { cbn. destruct (hs_plugin_id s) as [pid|] eqn:Hp; [|done]. intros Ha.
    apply allowlisted_spec in Ha as (He & Hm & server & tool & input & t & sm & b & Hc & Hin & Hid & [Ht|[? Hx]]); [|done].
    destruct Hn as (_ & _ & Hn). rewrite Hc in Hn. destruct t; [|done]. destruct Hn as (_ & Hk & _).
    split; [done|]. split; [cbn; rewrite Hm; by destruct e|]. exists b, server, tool. cbn. rewrite Hk, ?Hp, Hid. done. }
  split; [|split].
  - assert (Hold : ∀ h, h ∈ hs → ∃ e0, e0 ∈ es ++ [entry] ∧ lists e0 h ∧ entry_admits states bypass e0).
    { intros h Hin. destruct (I1 h Hin) as (e0 & He0 & Hl). exists e0. split; [set_solver|done]. }
    cbn [d_handlers d_hook_entries]. destruct (hook_enabled _ _ _ && _) eqn:Hen; [|exact Hold].
    intros h [Hin|Hin%list_elem_of_singleton]%elem_of_app; [by apply Hold|]. subst h. exists entry. split; [set_solver|].
    split; [by repeat split|]. apply andb_true_iff in Hen as [Hen Htr]. unfold entry_admits, user_admits. cbn [entry le_is_managed le_builtin le_key le_current_hash].
    unfold hook_enabled in Hen. destruct (hs_is_managed s); [by left|]. right.
    match type of Hen with ?b || _ || _ = true => destruct b end; [by left|]. right. cbn [orb] in Hen. bool_facts. split; [done|].
    apply orb_true_iff in Htr as [Htr|Htr]; [left; by apply Hby|right]. unfold hook_trust_status, hook_trusted_hash in Htr.
    destruct (states !! _ ≫= hs_trusted_hash) as [th|]; [|done]. case_bool_decide; [by subst|done].
  - intros Ho e0 [Hin|Hin%list_elem_of_singleton]%elem_of_app; [by apply I2|]. subst e0. cbn. by apply Hon.
  - intros e0 [Hin|Hin%list_elem_of_singleton]%elem_of_app; [by apply I3|]. by subst e0.
Qed.

Lemma discovered_trust stack plugins load_warnings bypass :
  trust_inv (hook_states_from_stack stack) bypass (pol_allow_managed_hooks_only (discovery_policy stack bypass))
    (discover_handlers stack plugins load_warnings bypass).
Proof.
  set (states := hook_states_from_stack stack). set (only := pol_allow_managed_hooks_only (discovery_policy stack bypass)).
  apply (discover_P (trust_inv states bypass only) (trust_source states bypass only)).
  - intros [] w Hd. exact Hd.
  - intros s [] w _ Hd. exact Hd.
  - intros. by apply trust_admit.
  - fold states.
    assert (Hpol : ∀ s, policy_allows (discovery_policy stack bypass) s = true → only = true → hs_is_managed s = true).
    { intros s Hp Ho. unfold policy_allows in Hp. fold only in Hp. by rewrite Ho in Hp. }
    split.
    + intros l path Hp. specialize (Hpol _ Hp). unfold layer_source in *. destruct (hook_metadata_for_config_layer_source _). done.
    + intros p Hp. specialize (Hpol _ Hp). done.
  - intros m. done.
  - split; [|split]; cbn; intros; by match goal with Hx : _ ∈ [] |- _ => apply not_elem_of_nil in Hx end.
Qed.

(** * Managed hooks *)

(** The handlers a required source adds, and the errors it records instead. *)
Definition adds (s : HookHandlerSource) (count : nat) (d d' : Discovery) : Prop :=
  ∃ hs errs, d_handlers d' = d_handlers d ++ hs ∧ d_required_load_errors d' = d_required_load_errors d ++ errs
  ∧ Forall (λ h, source_path h = Local (hs_path s) ∧ source h = hs_source s) hs
  ∧ (errs = [] → length hs = count).

Lemma adds_refl s d d' :
  d_handlers d' = d_handlers d → d_required_load_errors d' = d_required_load_errors d → adds s 0 d d'.
Proof. intros H1' H2'. exists [], []. rewrite !app_nil_r. done. Qed.

Lemma adds_trans s m n d1 d2 d3 : adds s m d1 d2 → adds s n d2 d3 → adds s (m + n) d1 d3.
Proof.
  intros (hs1 & er1 & Hh1 & He1 & Hf1 & Hc1) (hs2 & er2 & Hh2 & He2 & Hf2 & Hc2).
  exists (hs1 ++ hs2), (er1 ++ er2). rewrite Hh2, Hh1, He2, He1, !app_assoc. split; [done|]. split; [done|].
  split; [by apply Forall_app_2|]. intros [-> ->]%app_nil. rewrite length_app, Hc1, Hc2; done.
Qed.

Lemma adds_fail s n d w : hs_required s = true → adds s n d (record_load_failure s d w).
Proof. intros Hr. destruct d. exists [], [w]. cbn. rewrite Hr, app_nil_r. split; [done|]. split; [done|]. split; [constructor|done]. Qed.

Lemma normalize_command_hook_adds s e t path d : adds s 0 d (normalize_command_hook e t path d).1.
Proof. destruct d. unfold normalize_command_hook. destruct e; cbn [fst]; try (by apply adds_refl); case_match; by apply adds_refl. Qed.

Lemma adds_warn s d w : adds s 0 d (warn d w).
Proof. destruct d. by apply adds_refl. Qed.

Lemma normalize_handler_adds s e c d :
  hs_required s = true →
  let '(d', n) := normalize_handler s e c d in
  match n with Some _ => adds s 0 d d' | None => adds s 1 d d' end.
Proof.
  intros Hr. destruct c as [command cw t a sm l|server tool input t sm| |]; cbn [normalize_handler]; try (by apply adds_fail).
  - destruct (_ =s _); [by apply adds_fail|]. pose proof (normalize_command_hook_adds s e t (hs_path s) d) as Hn.
    destruct (normalize_command_hook _ _ _ _) as [d1 ts]. cbn [fst] in Hn.
    assert (Hw : ∀ d2 w, adds s 0 d d2 → adds s 0 d (warn d2 w)) by (intros d2 w Hd2; apply (adds_trans s 0 0 d d2); [done|apply adds_warn]).
    destruct (a && _); destruct (emits_context e); try destruct (is_some l); auto.
  - case_bool_decide; [by apply adds_fail|]. destruct (_ || _); [by apply adds_fail|].
    pose proof (normalize_command_hook_adds s e t (hs_path s) d) as Hn. by destruct (normalize_command_hook _ _ _ _) as [d1 ts].
Qed.

Lemma admit_managed_adds s e gi hi g c n d :
  hs_is_managed s = true → hs_plugin_id s = None → adds s 1 d (admit_handler s e gi hi g c n d).
Proof.
  intros Hm Hp. destruct d. unfold admit_handler, hook_enabled, hook_trust_status. rewrite Hm, Hp. cbv zeta.
  cbn [orb andb]. rewrite orb_true_r. eexists [_], []. cbn. rewrite app_nil_r. split; [done|]. split; [done|]. split; [by repeat constructor|done].
Qed.

Definition managed_source_ok (s : HookHandlerSource) : Prop :=
  hs_required s = true ∧ hs_is_managed s = true ∧ hs_plugin_id s = None.

Lemma append_handlers_adds s e gi g c hooks hi d :
  managed_source_ok s → adds s (length hooks) d (append_handlers s e gi hi g c hooks d).
Proof.
  intros (Hr & Hm & Hp). revert hi d. induction hooks as [|h hooks IH]; intros hi d; [by apply adds_refl|].
  cbn [append_handlers length]. pose proof (normalize_handler_adds s e h d Hr) as Hn.
  destruct (normalize_handler s e h d) as [d1 [n|]].
  - apply (adds_trans s 1 _ d (admit_handler s e gi hi g c n d1)); [|apply IH].
    by apply (adds_trans s 0 1 d d1); [|apply admit_managed_adds].
  - by apply (adds_trans s 1 _ d d1); [|apply IH].
Qed.

Lemma append_groups_adds s e groups gi d :
  managed_source_ok s →
  adds s (sum_list (map (λ g, length (group_hooks g)) groups)) d (append_matcher_groups s e gi groups d).
Proof.
  intros Hs. revert gi d. induction groups as [|g groups IH]; intros gi d; [by apply adds_refl|].
  cbn [append_matcher_groups map sum_list]. eapply adds_trans; [|apply IH].
  destruct (compile_matcher _); [by apply append_handlers_adds|]. destruct (group_hooks g); [apply adds_warn|].
  destruct Hs. by apply adds_fail.
Qed.

Lemma sum_list_app' l1 l2 : sum_list (l1 ++ l2) = sum_list l1 + sum_list l2.
Proof. induction l1 as [|x l1 IH]; [done|]. cbn. lia. Qed.

Lemma append_events_adds s events policy d :
  managed_source_ok s → adds s (handler_count events) d (append_hook_events s events policy d).
Proof.
  intros Hs. unfold append_hook_events, policy_allows, handler_count. destruct Hs as (Hr & Hm & Hp). rewrite Hm, orb_true_r.
  revert d. induction (into_matcher_groups events) as [|[e gs] l IH]; intros d; [by apply adds_refl|].
  assert (Hj : mjoin (map snd ((e, gs) :: l)) = gs ++ mjoin (map snd l)) by done. rewrite Hj. clear Hj. cbn [foldl fst snd].
  rewrite map_app, sum_list_app'. eapply adds_trans; [by apply append_groups_adds|apply IH].
Qed.

(** Discovery only adds handlers, and what is required adds no later error. *)
Definition grows (d0 d : Discovery) : Prop :=
  (∃ rest, d_handlers d = d_handlers d0 ++ rest) ∧ d_required_load_errors d = d_required_load_errors d0.

Lemma grows_admit d0 s e gi hi g c n d : grows d0 d → grows d0 (admit_handler s e gi hi g c n d).
Proof.
  intros [[rest Hr] He]. destruct d. cbn in *. unfold admit_handler. cbv zeta. split; [|exact He]. cbn.
  destruct (hook_enabled _ _ _ && _); [|eauto]. rewrite Hr, <- app_assoc. eauto.
Qed.

Lemma managed_part stack m plugins load_warnings bypass :
  managed_hooks stack = Some m →
  let states := hook_states_from_stack (Some stack) in
  let d := discover_handlers (Some stack) plugins load_warnings bypass in
  ∃ d1, adds (managed_requirement_source m states) (handler_count (managed_events m)) (mkDiscovery [] [] load_warnings [] 0) d1 ∧ grows d1 d.
Proof.
  intros Hm states d. set (policy := discovery_policy (Some stack) bypass).
  exists (append_hook_events (managed_requirement_source m states) (managed_events m) policy (mkDiscovery [] [] load_warnings [] 0)).
  split; [by apply append_events_adds|]. unfold d, discover_handlers. cbv zeta. fold states policy.
  unfold append_managed_requirement_handlers. rewrite Hm.
  set (d1 := append_hook_events _ _ _ _). pose (good := λ s, hs_required s = false).
  assert (Hg : sources_good good states policy).
  { split; [|done]. intros l path _. unfold good, layer_source. by destruct (hook_metadata_for_config_layer_source _). }
  assert (Hw : ∀ d w, grows d1 d → grows d1 (warn d w)) by (intros [] w Hd; exact Hd).
  assert (Hf : ∀ s d w, good s → grows d1 d → grows d1 (record_load_failure s d w)).
  { intros s [] w Hs [Hd1 Hd2]. split; [exact Hd1|]. cbn. by rewrite Hs. }
  apply (plugins_P (grows d1) good); try done; [by intros; apply grows_admit|].
  apply (layers_P (grows d1) good); try done; [by intros; apply grows_admit|].
  split; [|done]. exists []. by rewrite app_nil_r.
Qed.

(** * Executors *)

(** Executors contribute cleanup hooks only. *)
Definition executor_events_ok (t : HookEventsToml) : Prop :=
  Forall (λ eg, ∀ c, c ∈ mjoin (map group_hooks eg.2) →
    eg.1 ∈ cleanup_events ∧ ∃ server tool input t sm, c = CfgMcpTool server tool input t sm) (into_matcher_groups t).

Definition engine_ok (handlers : list ConfiguredHandler) : Prop :=
  ∀ h, h ∈ handlers → is_executor_scoped h = true → event_name h ∈ cleanup_events.

Lemma retain_allowlisted_ok lookup plugin_id e groups c :
  c ∈ mjoin (map group_hooks (retain_allowlisted lookup plugin_id e groups)) →
  e ∈ cleanup_events ∧ ∃ server tool input t sm, c = CfgMcpTool server tool input t sm.
Proof.
  intros (gh & Hc & Hg)%list_elem_of_join. apply list_elem_of_In, in_map_iff in Hg as (g & <- & Hg).
  unfold retain_allowlisted in Hg. apply filter_In in Hg as [Hg _]. apply in_map_iff in Hg as (g0 & <- & _). cbn in Hc.
  apply list_elem_of_In, filter_In in Hc as [_ Ha]. apply allowlisted_spec in Ha as (He & _ & server & tool & input & t & sm & _ & -> & _).
  split; [done|]. eauto 6.
Qed.

Lemma resolve_mcp_routing_hooks lookup s s' : resolve_mcp_routing lookup s = Some s' → xs_hooks s' = xs_hooks s.
Proof.
  unfold resolve_mcp_routing. destruct s as [p e m md mp sr hk]. cbn [xs_hooks].
  destruct (find_map _ _) as [g|]; cbn [mbind option_bind]; [|done].
  destruct (head _) as [[]|]; cbn [mbind option_bind]; try done. destruct (negb _); [by intros [= <-]|].
  destruct (lookup _ _) as [info|]; cbn [mbind option_bind]; [|done]. destruct (ti_meta info) as [meta|]; cbn [mbind option_bind]; [|done].
  destruct (find _ meta) as [[k []]|]; cbn [fmap option_fmap option_map snd mbind option_bind]; try done.
  destruct (find _ m0) as [[k' []]|]; cbn [fmap option_fmap option_map snd mbind option_bind]; try done. by intros [= <-].
Qed.

Lemma admitted_sources_ok lookup sources s : s ∈ admit_executor_sources lookup sources → executor_events_ok (xs_hooks s).
Proof.
  unfold admit_executor_sources. intros (s0 & _ & Hs)%list_elem_of_omap. cbv zeta in Hs. destruct (events_is_empty _); [done|].
  apply resolve_mcp_routing_hooks in Hs as ->. destruct s0 as [p e m md mp sr hk]. cbn [with_hooks xs_hooks].
  unfold executor_events_ok, into_matcher_groups, map_events.
  repeat (constructor; [cbn [fst snd]; intros c Hc; by eapply retain_allowlisted_ok|]). constructor.
Qed.

Lemma add_executor_event_ok src st eg :
  (∀ c, c ∈ mjoin (map group_hooks eg.2) → eg.1 ∈ cleanup_events ∧ ∃ server tool input t sm, c = CfgMcpTool server tool input t sm) →
  engine_ok st.1.1 →
  ∃ st', add_executor_event src st eg = Some st' ∧ engine_ok st'.1.1
  ∧ List.filter (λ h, negb (is_executor_scoped h)) st'.1.1 = List.filter (λ h, negb (is_executor_scoped h)) st.1.1.
Proof.
  destruct st as [[hs o] seen]. intros Hc Hok. unfold add_executor_event. destruct (mjoin _) as [|c cs] eqn:E; [by eexists|].
  destruct (Hc c) as (He & server & tool & input & t & sm & ->); [left|]. case_bool_decide; [by eexists|].
  eexists. split; [reflexivity|]. cbn [fst]. split.
  - intros h [Hin|Hin%list_elem_of_singleton]%elem_of_app Hx; [by apply Hok|]. subst h. exact He.
  - rewrite List.filter_app. cbn. by rewrite app_nil_r.
Qed.

Lemma fold_option_ok {A B} (f : B → A → option B) (I : B → Prop) l b :
  (∀ b x, x ∈ l → I b → ∃ b', f b x = Some b' ∧ I b') → I b → ∃ b', fold_option f l b = Some b' ∧ I b'.
Proof.
  unfold fold_option. revert b. induction l as [|x l IH]; intros b Hf Hb; [eauto|]. cbn [foldl mbind option_bind].
  destruct (Hf b x) as (b' & Hb' & Hi); [left|done|]. rewrite Hb'. apply IH; [|done]. intros b0 y Hy. apply Hf. by right.
Qed.

(** The hooks of executors replace each other and leave the local ones as they are. *)
Lemma set_executor_hooks_ok handlers sources :
  (∀ s, s ∈ sources → executor_events_ok (xs_hooks s)) →
  ∃ handlers', set_executor_hooks handlers sources = Some handlers' ∧ engine_ok handlers'
  ∧ List.filter (λ h, negb (is_executor_scoped h)) handlers' = List.filter (λ h, negb (is_executor_scoped h)) handlers.
Proof.
  intros Hs. unfold set_executor_hooks. destruct (_ && _) eqn:E.
  { eexists. split; [reflexivity|]. split; [|done]. intros h Hin Hx. apply andb_true_iff in E as [_ E]. bool_facts.
    apply not_true_iff_false in E. destruct E. apply existsb_elem. eauto. }
  set (I := λ st : list ConfiguredHandler * Z * list ExecutorTarget,
    engine_ok st.1.1 ∧ List.filter (λ h, negb (is_executor_scoped h)) st.1.1 = List.filter (λ h, negb (is_executor_scoped h)) handlers).
  destruct (fold_option_ok (λ st src, fold_option (add_executor_event src) (into_matcher_groups (xs_hooks src)) st) I sources
    (List.filter (λ h, negb (is_executor_scoped h)) handlers,
     match map display_order (List.filter (λ h, negb (is_executor_scoped h)) handlers) with [] => 0%Z | o :: os => i64_saturating_succ (foldl Z.max o os) end, []))
    as ([[hs o] seen] & Hf & Hi).
  - intros st src Hin Hi. apply fold_option_ok; [|done]. intros st' eg Heg [Hok Hl].
    specialize (Hs src Hin). unfold executor_events_ok in Hs. rewrite Forall_forall in Hs.
    destruct (add_executor_event_ok src st' eg (Hs eg Heg) Hok) as (st'' & Hst & Hok' & Hl'). exists st''. split; [done|].
    split; [done|]. by rewrite Hl', Hl.
  - split; cbn [fst].
    + intros h [_ Hx]%list_elem_of_In%filter_In Hx'. by rewrite Hx' in Hx.
    + rewrite filter_filter. apply filter_ext_bool. intros h. by destruct (is_executor_scoped h).
  - rewrite Hf. cbn [mbind option_bind]. exists hs. split; [done|exact Hi].
Qed.

End trust.

(** * Totality *)

Section total.
Context `{RegexEngine} `{HookWorld} `{DiscoveryEnv} `{WireDecode} `{FuturesUnordered}.

Lemma select_in handlers e inputs h :
  h ∈ select_handlers_for_matcher_inputs handlers e inputs → h ∈ handlers ∧ event_name h = e.
Proof.
  unfold select_handlers_for_matcher_inputs. intros [[Hin He]%filter_In _]%list_elem_of_In%filter_In. bool_facts.
  split; [by apply list_elem_of_In|done].
Qed.

Lemma mapM_some {A B} (f : A → option B) l : (∀ x, x ∈ l → is_Some (f x)) → is_Some (mapM f l).
Proof. intros Hf. apply mapM_is_Some, Forall_forall, Hf. Qed.

Lemma running_summary_some h now : is_executor_scoped h = false → is_Some (running_summary h now).
Proof. unfold is_executor_scoped, running_summary. destruct (source_path h); [eauto|done]. Qed.

Lemma finish_parsed_some {T} h r turn (o : RunOutcome T) : is_executor_scoped h = false → is_Some (finish_parsed h r turn o).
Proof. intros Hx. unfold finish_parsed. rewrite completed_summary_local by done. cbn. eauto. Qed.

Lemma failure_events_some handlers turn msg now : is_Some (serialization_failure_hook_events handlers turn msg now).
Proof.
  apply mapM_some. intros h [_ Hx]%list_elem_of_In%filter_In. bool_facts.
  destruct (running_summary_some h now Hx) as [[] ->]. eauto.
Qed.

Lemma execute_some {T} rt handlers input cwd turn metadata
    (parse : ConfiguredHandler → HandlerRunResult → option str → option (ParsedHandler T)) :
  (∀ h r, h ∈ handlers → is_executor_scoped h = false → is_Some (parse h r turn)) →
  is_Some (execute_handlers_with_metadata rt handlers input cwd turn metadata parse).
Proof.
  intros Hp. unfold execute_handlers_with_metadata. pose proof (partition_pending rt 0 handlers input cwd turn) as Hpend.
  fold (sync_handlers handlers) in Hpend. destruct (partition_handlers _ _ _ _ _ _) as [[ex rt1] pend]. cbn [snd] in Hpend. subst pend.
  match goal with |- context [mapM ?f ?l] => assert (Hs : is_Some (mapM f l)) end.
  { apply mapM_some. intros [i h] Hin. rewrite completions_perm in Hin. apply sync_in in Hin as (_ & Hx & Hm).
    destruct (Hp h (execute_handler i rt1 h input cwd None) Hm Hx) as [x ->]. cbn. eauto. }
  destruct Hs as [l ->]. cbn [mbind option_bind]. destruct (drain _ _ _ _) as [[??]?]. eauto.
Qed.

Lemma start_parse_some h r turn :
  event_name h = SessionStart ∨ event_name h = SubagentStart → is_executor_scoped h = false → is_Some (start_parse_completed h r turn).
Proof.
  intros He Hx. unfold start_parse_completed. assert (Ho : is_Some (start_outcome h r)).
  { unfold start_outcome. destruct (error r); [eauto|]. destruct (exit_code r); [|eauto]. destruct (Z.eqb _ _); [|eauto].
    destruct (_ =s _); [eauto|]. assert (Hs : is_Some (start_parser (event_name h))) by (destruct He as [-> | ->]; eauto).
    destruct Hs as [p ->]. cbn [mbind option_bind]. destruct (p _) as [parsed|].
    - destruct (context_entries _ _ _ _). destruct (_ && _); eauto.
    - destruct (looks_like_json _); [eauto|]. destruct (append_additional_context _ _ _ _). eauto. }
  destruct Ho as [o ->]. cbn [mbind option_bind]. by apply finish_parsed_some.
Qed.

Lemma stop_parse_some h r turn : stop_event (event_name h) → is_executor_scoped h = false → is_Some (stop_parse_completed h r turn).
Proof. intros He Hx. rewrite stop_parse_completed_local by done. eauto. Qed.

(** The pattern of the events: nothing matched, or a failed serialization, or the dispatch. *)
Lemma event_some {T O} rt (matched : list ConfiguredHandler) (input : str + str) cwd turn metadata
    (parse : ConfiguredHandler → HandlerRunResult → option str → option (ParsedHandler T))
    (none : O) (events : str → option (list HookCompletedEvent)) (fail : list HookCompletedEvent → O) (combine : list (ParsedHandler T) → O) :
  (∀ h r, h ∈ matched → is_executor_scoped h = false → is_Some (parse h r turn)) → (∀ error, is_Some (events error)) →
  is_Some (match matched with
           | [] => Some (rt, none)
           | _ => match input with
                  | inr error => es ← events error; Some (rt, fail es)
                  | inl input => '(rt, results) ← execute_handlers_with_metadata rt matched input cwd turn metadata parse; Some (rt, combine results)
                  end
           end).
Proof.
  intros Hp He. destruct matched as [|h l]; [eauto|]. destruct input as [input|error].
  - destruct (execute_some rt (h :: l) input cwd turn metadata parse Hp) as [[rt' res] ->]. cbn. eauto.
  - destruct (He error) as [es ->]. cbn. eauto.
Qed.

(** Every preview and every event of an engine returns. *)
Definition engine_returns (handlers : list ConfiguredHandler) : Prop :=
  ∀ rt now req start stop turn cwd trigger (turn_id : option str) metadata input,
    is_Some (pre_preview handlers req now) ∧ is_Some (perm_preview handlers req now) ∧ is_Some (post_preview handlers req now)
    ∧ is_Some (prompt_preview handlers now) ∧ is_Some (start_preview handlers start now)
    ∧ is_Some (compact_preview_pre handlers trigger now) ∧ is_Some (compact_preview_post handlers trigger now)
    ∧ is_Some (stop_preview handlers stop now) ∧ is_Some (interrupt_preview handlers now) ∧ is_Some (session_end_preview handlers now)
    ∧ is_Some (pre_run rt handlers req input now) ∧ is_Some (perm_run rt handlers req input now)
    ∧ is_Some (run_post_tool_use rt handlers req input now) ∧ is_Some (prompt_run rt handlers turn cwd input now)
    ∧ is_Some (start_run rt handlers start cwd turn_id input now) ∧ is_Some (compact_run_pre rt handlers trigger turn cwd input now)
    ∧ is_Some (compact_run_post rt handlers trigger turn cwd input now)
    ∧ is_Some (run_stop rt handlers stop turn cwd metadata input now)
    ∧ is_Some (interrupt_run rt handlers turn cwd metadata input now) ∧ is_Some (session_end_run rt handlers turn cwd input now).

Lemma selected_local handlers e inputs h :
  engine_ok handlers → e ∉ cleanup_events → h ∈ select_handlers_for_matcher_inputs handlers e inputs → is_executor_scoped h = false.
Proof.
  intros Hok He [Hin Hev]%select_in. destruct (is_executor_scoped h) eqn:Hx; [|done]. destruct He. rewrite <- Hev. by apply Hok.
Qed.

Lemma preview_some handlers e inputs now :
  engine_ok handlers → e ∉ cleanup_events →
  is_Some (mapM (λ h, running_summary h now) (select_handlers_for_matcher_inputs handlers e inputs)).
Proof. intros Hok He. apply mapM_some. intros h Hin. apply running_summary_some. by eapply selected_local. Qed.

Lemma tool_preview_some handlers e inputs id now :
  engine_ok handlers → e ∉ cleanup_events →
  is_Some (mapM (λ h, s ← running_summary h now; Some (hook_run_for_tool_use s id)) (select_handlers_for_matcher_inputs handlers e inputs)).
Proof.
  intros Hok He. apply mapM_some. intros h Hin. destruct (running_summary_some h now) as [s ->]; [by eapply selected_local|]. cbn. eauto.
Qed.

Lemma local_preview_some l now : is_Some (mapM (λ h, running_summary h now) (List.filter (λ h, negb (is_executor_scoped h)) l)).
Proof. apply mapM_some. intros h [_ Hx]%list_elem_of_In%filter_In. bool_facts. by apply running_summary_some. Qed.

Lemma failure_tool_events_some handlers turn msg id now : is_Some (serialization_failure_hook_events_for_tool_use handlers turn msg id now).
Proof. unfold serialization_failure_hook_events_for_tool_use. destruct (failure_events_some handlers turn msg now) as [l ->]. cbn. eauto. Qed.

Lemma tool_runs_some rt handlers req input now :
  is_Some (pre_run rt handlers req input now) ∧ is_Some (perm_run rt handlers req input now)
  ∧ is_Some (run_post_tool_use rt handlers req input now).
Proof.
  split; [|split].
  - exact (event_some rt (pre_matched handlers req) input (tu_cwd req) (Some (tu_turn_id req)) None pre_parse_completed
      (mkPreOutcome [] false None [] None)
      (λ error, serialization_failure_hook_events_for_tool_use (pre_matched handlers req) (Some (tu_turn_id req))
         (lit "failed to serialize pre tool use hook input: " ++ error) (tu_tool_use_id req) now)
      (λ es, mkPreOutcome es false None [] None) (pre_aggregate req)
      (λ h r _ Hx, finish_parsed_some h r _ _ Hx) (λ _, failure_tool_events_some _ _ _ _ _)).
  - exact (event_some rt (perm_matched handlers req) input (tu_cwd req) (Some (tu_turn_id req)) None perm_parse_completed
      (mkPermOutcome [] None)
      (λ error, serialization_failure_hook_events_for_tool_use (perm_matched handlers req) (Some (tu_turn_id req))
         (lit "failed to serialize permission request hook input: " ++ error) (tu_tool_use_id req) now)
      (λ es, mkPermOutcome es None)
      (λ results, mkPermOutcome (map (λ r, hook_completed_for_tool_use (completed r) (tu_tool_use_id req)) results)
                    (resolve_permission_request_decision (omap data results)))
      (λ h r _ Hx, finish_parsed_some h r _ _ Hx) (λ _, failure_tool_events_some _ _ _ _ _)).
  - unfold run_post_tool_use. assert (Hs : is_Some (post_run rt handlers req input now)); [|destruct Hs as [[rt' []] ->]; cbn; eauto].
    set (m := select_handlers_for_matcher_inputs handlers PostToolUse (matcher_inputs (tu_tool_name req) (tu_matcher_aliases req))).
    exact (event_some rt m input (tu_cwd req) (Some (tu_turn_id req)) None post_parse_completed
      (mkPostOutcome [] false [] None)
      (λ error, serialization_failure_hook_events_for_tool_use m (Some (tu_turn_id req))
         (lit "failed to serialize post tool use hook input: " ++ error) (tu_tool_use_id req) now)
      (λ es, mkPostOutcome es false [] None)
      (λ results, mkPostOutcome (map (λ r, hook_completed_for_tool_use (completed r) (tu_tool_use_id req)) results)
         (existsb (λ r, psd_should_block (data r)) results)
         (maybe_spill_additional_contexts (flatten_additional_contexts (map (λ r, psd_additional_contexts (data r)) results)))
         (join_text_chunks (mjoin (map (λ r, psd_feedback_messages (data r)) results))))
      (λ h r _ Hx, finish_parsed_some h r _ _ Hx) (λ _, failure_tool_events_some _ _ _ _ _)).
Qed.

Lemma turn_runs_some rt handlers turn cwd trigger metadata input now :
  is_Some (prompt_run rt handlers turn cwd input now) ∧ is_Some (compact_run_pre rt handlers trigger turn cwd input now)
  ∧ is_Some (compact_run_post rt handlers trigger turn cwd input now)
  ∧ is_Some (interrupt_run rt handlers turn cwd metadata input now) ∧ is_Some (session_end_run rt handlers turn cwd input now).
Proof.
  split; [|split; [|split; [|split]]].
  - exact (event_some rt _ input cwd (Some turn) None prompt_parse_completed _ (λ error, serialization_failure_hook_events _ (Some turn) _ now)
      (λ es, mkStopContextOutcome es false None []) stop_context_aggregate
      (λ h r _ Hx, finish_parsed_some h r _ _ Hx) (λ _, failure_events_some _ _ _ _)).
  - exact (event_some rt _ input cwd (Some turn) None compact_parse_pre_completed _ (λ error, serialization_failure_hook_events _ (Some turn) _ now)
      (λ es, mkCompactOutcome es false None) compact_aggregate
      (λ h r _ Hx, finish_parsed_some h r _ _ Hx) (λ _, failure_events_some _ _ _ _)).
  - exact (event_some rt _ input cwd (Some turn) None compact_parse_post_completed _ (λ error, serialization_failure_hook_events _ (Some turn) _ now)
      (λ es, mkCompactOutcome es false None) compact_aggregate
      (λ h r _ Hx, finish_parsed_some h r _ _ Hx) (λ _, failure_events_some _ _ _ _)).
  - exact (event_some rt _ input cwd (Some turn) metadata interrupt_parse_completed _ (λ error, serialization_failure_hook_events _ (Some turn) _ now)
      (λ es, es) (map completed) (λ h r _ Hx, finish_parsed_some h r _ _ Hx) (λ _, failure_events_some _ _ _ _)).
  - exact (event_some rt _ input cwd (Some turn) None session_end_parse_completed _ (λ error, serialization_failure_hook_events _ (Some turn) _ now)
      (λ es, es) (map completed) (λ h r _ Hx, finish_parsed_some h r _ _ Hx) (λ _, failure_events_some _ _ _ _)).
Qed.

Lemma start_run_some rt handlers start cwd turn_id input now : is_Some (start_run rt handlers start cwd turn_id input now).
Proof.
  refine (event_some rt _ input cwd (match start with TargetSessionStart _ => turn_id | TargetSubagentStart turn_id _ _ => Some turn_id end)
    None start_parse_completed _ (λ error, serialization_failure_hook_events _ _ _ now)
    (λ es, mkStopContextOutcome es false None []) stop_context_aggregate _ (λ _, failure_events_some _ _ _ _)).
  intros h r [_ He]%select_in Hx. apply start_parse_some; [|done]. destruct start; cbn in He; tauto.
Qed.

Lemma run_stop_some rt handlers t turn cwd metadata input now : is_Some (run_stop rt handlers t turn cwd metadata input now).
Proof.
  unfold run_stop. assert (Hs : is_Some (stop_run rt handlers t turn cwd metadata input now)); [|destruct Hs as [[rt' [es []]] ->]; cbn; eauto].
  assert (Hp : ∀ f h r, h ∈ List.filter f (stop_select_handlers t handlers) → is_executor_scoped h = false →
    is_Some (stop_parse_completed h r (Some turn))).
  { intros f h r [Hin _]%list_elem_of_In%filter_In Hx. apply stop_parse_some; [|done].
    apply list_elem_of_In in Hin. by apply stop_matched_event in Hin. }
  unfold stop_run. cbv zeta. destruct (stop_select_handlers t handlers) as [|h0 l] eqn:E; [eauto|]. rewrite <- E in *. clear h0 l E.
  destruct input as [input|error].
  - match goal with |- context [execute_handlers_with_metadata rt ?m input cwd (Some turn) metadata stop_parse_completed] =>
      destruct (execute_some rt m input cwd (Some turn) metadata stop_parse_completed) as [[rt1 res] ->]; [apply Hp|] end.
    cbn [mbind option_bind].
    match goal with |- context [match ?m with [] => Some rt1 | _ => _ end] => pose proof (Hp _ : ∀ h r, h ∈ m → _) as Hp2; destruct m as [|c cl] end.
    + eauto.
    + destruct (execute_some rt1 (c :: cl) input cwd (Some turn) metadata stop_parse_completed) as [[rt2 res2] ->]; [exact Hp2|]. cbn. eauto.
  - match goal with |- context [serialization_failure_hook_events ?m ?t ?msg ?n] => destruct (failure_events_some m t msg n) as [es ->] end.
    cbn. eauto.
Qed.

(** Where executors contribute cleanup hooks only, nothing panics. *)
Lemma engine_ok_returns handlers : engine_ok handlers → engine_returns handlers.
Proof.
  intros Hok rt now req start stop turn cwd trigger turn_id metadata input.
  destruct (tool_runs_some rt handlers req input now) as (R1 & R2 & R3).
  destruct (turn_runs_some rt handlers turn cwd trigger metadata input now) as (R4 & R5 & R6 & R7 & R8).
  pose proof (start_run_some rt handlers start cwd turn_id input now) as R9.
  pose proof (run_stop_some rt handlers stop turn cwd metadata input now) as R10.
  assert (Hc : ∀ e, e ∉ cleanup_events ↔ e ≠ Stop ∧ e ≠ Interrupt ∧ e ≠ SubagentStop).
  { intros e. unfold cleanup_events. rewrite !not_elem_of_cons. pose proof (not_elem_of_nil e). naive_solver. }
  repeat match goal with |- _ ∧ _ => split end; try assumption;
    try (apply tool_preview_some; [done|by apply Hc]); try (apply preview_some; [done|apply Hc; try done; by destruct start]);
    apply local_preview_some.
Qed.

End total.

(** * Claims *)

(** C5: No hook runs unasked. Every handler that discovery hands to the engine is listed, and its
    listed hook is managed, or one of the bundled cleanup calls, or one the user's own state
    admits: not disabled there, and its hash recorded there as trusted, unless trust is
    bypassed. Where only managed hooks are allowed, every handler is managed. *)
Theorem hooks_run_trusted `{RegexEngine} `{HookWorld} `{DiscoveryEnv} (stack : option ConfigLayerStack)
    (plugins : list PluginHookSource) (load_warnings : list str) (bypass : bool) (h : ConfiguredHandler) :
  let d := discover_handlers stack plugins load_warnings bypass in
  h ∈ d_handlers d →
  ∃ e, e ∈ d_hook_entries d ∧ lists e h
  ∧ (le_is_managed e = true ∨ bundled_entry e ∨ user_admits (hook_states_from_stack stack) bypass e)
  ∧ (pol_allow_managed_hooks_only (discovery_policy stack bypass) = true → le_is_managed e = true).
Proof.
  intros d Hin. destruct (discovered_trust stack plugins load_warnings bypass) as (I1 & I2 & I3). fold d in I1, I2, I3.
  destruct (I1 h Hin) as (e & He & Hl & Ha). exists e. split; [done|]. split; [done|]. split; [|intros Ho; by apply I2].
  destruct Ha as [Ha|[Ha|Ha]]; [by left|right; left; by apply I3|by right; right].
Qed.

(** The handler runs a hook of the source [s]. *)
Definition from_source `{RegexEngine} (s : HookHandlerSource) (h : ConfiguredHandler) : Prop :=
  source_path h = Local (hs_path s) ∧ source h = hs_source s.

(** A managed hook is never lost silently: whatever the user's state says of it, when discovery
    reports no load error for what is required, every hook of the managed requirements is among
    the handlers, ahead of all others. *)
Theorem managed_hooks_kept `{RegexEngine} `{HookWorld} `{DiscoveryEnv} (stack : ConfigLayerStack) (m : ManagedHooks)
    (plugins : list PluginHookSource) (load_warnings : list str) (bypass : bool) :
  let d := discover_handlers (Some stack) plugins load_warnings bypass in
  let s := managed_requirement_source m (hook_states_from_stack (Some stack)) in
  managed_hooks stack = Some m → d_required_load_errors d = [] →
  ∃ hs rest, d_handlers d = hs ++ rest ∧ length hs = handler_count (managed_events m)
  ∧ Forall (from_source s) hs.
Proof.
  intros d s Hm He. destruct (managed_part stack m plugins load_warnings bypass Hm) as (d1 & (hs & errs & Hh & Her & Hf & Hc) & [[rest Hr] He1]).
  cbn in Hh, Her. exists hs, rest. fold d in Hr, He1. rewrite Hr, Hh. split; [done|]. split; [|done]. apply Hc.
  rewrite <- Her, <- He1. exact He.
Qed.

(** The engine never panics. Whatever is configured, and whatever hooks the manifests of executors
    declare, the admitted ones are added without error, the local handlers stay as they are, and
    every preview and every event returns: the branches marked unreachable are. *)
Theorem hooks_never_panic `{RegexEngine} `{HookWorld} `{DiscoveryEnv} `{WireDecode} `{FuturesUnordered}
    (stack : option ConfigLayerStack) (plugins : list PluginHookSource) (load_warnings : list str) (bypass : bool)
    (lookup : str → str → option ToolInfo) (sources : list ExecutorPluginHookSource) :
  let local := d_handlers (discover_handlers stack plugins load_warnings bypass) in
  ∃ handlers, set_executor_hooks local (admit_executor_sources lookup sources) = Some handlers
  ∧ List.filter (λ h, negb (is_executor_scoped h)) handlers = local
  ∧ engine_returns handlers.
Proof.
  intros local. destruct (set_executor_hooks_ok local (admit_executor_sources lookup sources)) as (handlers & Hs & Hok & Hl).
  { intros s Hs. by apply admitted_sources_ok in Hs. }
  exists handlers. split; [done|]. split; [|by apply engine_ok_returns]. rewrite Hl. unfold local.
  destruct (discovered_trust stack plugins load_warnings bypass) as (I1 & _). revert I1.
  generalize (d_hook_entries (discover_handlers stack plugins load_warnings bypass)) (d_handlers (discover_handlers stack plugins load_warnings bypass)).
  intros es hs I1. apply forallb_filter_id, forallb_forall. intros h Hin%list_elem_of_In.
  destruct (I1 h Hin) as (e & _ & (_ & _ & _ & Hp & _) & _). unfold is_executor_scoped. by rewrite Hp.
Qed.

(** * An example *)

Definition example_discovery : DiscoveryEnv := {|
  version_for_toml i := identity_event i;
  read_hooks_json _ := JsonNotAFile;
  path_join a b := a ++ lit "/" ++ b;
  path_parent _ := Some (lit "/home");
  path_is_absolute _ := true;
  resolve_against_root p := lit "/" ++ p;
  debug_str s := s;
  hash_order l := l
|}.

Definition example_events : HookEventsToml :=
  mkEvents [mkGroup (Some (lit "Bash")) [CfgCommand (lit "check") None None false None None]] [] [] [] [] [] [] [] [] [] [] [].

(** The user disables the managed hook and trusts the hook of the same place in the user's file. *)
Definition example_stack : ConfigLayerStack :=
  mkStack
    [mkLayer (LayerUser (lit "/home/config.toml") None) false None (SomeTomlHooks example_events)
       (Some [(lit "/managed:pre_tool_use:0:0", Some (mkState (Some false) None));
              (lit "/home/config.toml:pre_tool_use:0:0", Some (mkState None (Some (lit "pre_tool_use"))))])]
    None
    (Some (mkManaged (Some (lit "/managed")) example_events None)).

Lemma hooks_run_trusted_witness :
  let d := @discover_handlers example_regex example_world example_discovery (Some example_stack) [] [] false in
  ∃ h e, d_handlers d !! 1 = Some h ∧ e ∈ d_hook_entries d ∧ lists e h ∧ le_is_managed e = false.
Proof.
  intros d. destruct (d_handlers d !! 1) as [h|] eqn:Hh; [|by vm_compute in Hh].
  destruct (@hooks_run_trusted example_regex example_world example_discovery (Some example_stack) [] [] false h) as (e & He & Hl & _).
  { by eapply list_elem_of_lookup_2. }
  exists h, e. split; [done|]. split; [done|]. split; [done|].
  assert (Hd : le_display_order e = 1%Z) by (destruct Hl as (-> & _); vm_compute in Hh; by injection Hh as <-).
  vm_compute in He. apply elem_of_cons in He as [->|He]; [done|]. apply list_elem_of_singleton in He as ->. done.
Defined.

Lemma managed_hooks_kept_witness :
  let d := @discover_handlers example_regex example_world example_discovery (Some example_stack) [] [] false in
  ∃ hs rest, d_handlers d = hs ++ rest ∧ length hs = 1.
Proof.
  intros d. destruct (@managed_hooks_kept example_regex example_world example_discovery example_stack
    (mkManaged (Some (lit "/managed")) example_events None) [] [] false) as (hs & rest & Hd & Hl & _); [done|vm_compute; reflexivity|].
  exists hs, rest. split; [exact Hd|exact Hl].
Defined.
