(* ===== verification/NetworkApproval.v ===== *)
(** core/src/tools/network_approval.rs: reviews of network requests that the proxy's policy does
    not allow. Requests of concurrent tasks for the same host in the same turn and call share
    one review; a session remembers approved and denied hosts; a denied request cancels the tool
    call it belongs to. With core/src/network_policy_decision.rs and the persistence of an
    accepted rule in core/src/session/mod.rs.

    Each async function is a program over operations: an operation reads or changes the shared
    service atomically (it is what the code does under one lock), or asks the session and is
    answered arbitrarily. Programs of many tasks are interleaved operation by operation. A task
    may be dropped where it awaits; it then releases the commit lock, if it holds it, and runs
    the destructor of its [PendingHostApprovalOwner]. Telemetry is not modelled. *)
From stdpp Require Import pretty.
From S2P Require Import Prelude Str Truncate NetworkDomain NetworkPolicy ApprovalTypes PermissionProfile Orchestrator ExecPolicy.

(** * Requests *)

Inductive NetworkProtocol := ProtoHttp | ProtoHttpsConnect | ProtoSocks5Tcp | ProtoSocks5Udp.

(** The fields of a request beside its host, port and attribution; whether the handles on its
    disconnection and its cancellation are there. *)
Record RequestRest := mkRest { rest_protocol : NetworkProtocol; rest_disconnect : bool; rest_cancellation : bool }.

Notation Request := (NetworkPolicyRequest RequestRest).

Inductive NetworkRequestCancellationReason := ProcessFinished | ProcessCancelled | ConnectionClosed | CancelTimedOut.

#[export] Instance CancellationReason_eq_dec : EqDecision NetworkRequestCancellationReason.
Proof. solve_decision. Defined.

Definition deny (reason : str) : NetworkDecision := deny_with_source reason Decider.
Definition ask (reason : str) : NetworkDecision :=
  DecideDeny (if bool_decide (reason = []) then lit "policy_denied" else reason) Decider DecisionAsk.

Definition REASON_NOT_ALLOWED : str := lit "not_allowed".

Definition approval_protocol_of (p : NetworkProtocol) : NetworkApprovalProtocol :=
  match p with
  | ProtoHttp => ApprovalHttp
  | ProtoHttpsConnect => ApprovalHttps
  | ProtoSocks5Tcp => ApprovalSocks5Tcp
  | ProtoSocks5Udp => ApprovalSocks5Udp
  end.

Definition protocol_key_label (p : NetworkApprovalProtocol) : str :=
  match p with
  | ApprovalHttp => lit "http"
  | ApprovalHttps => lit "https"
  | ApprovalSocks5Tcp => lit "socks5-tcp"
  | ApprovalSocks5Udp => lit "socks5-udp"
  end.

Record HostApprovalKey := mkHostKey { hk_environment_id : str; hk_host : str; hk_protocol : str; hk_port : N }.

#[export] Instance HostApprovalKey_eq_dec : EqDecision HostApprovalKey.
Proof. solve_decision. Defined.
#[export] Program Instance HostApprovalKey_countable : Countable HostApprovalKey :=
  inj_countable' (λ k, (hk_environment_id k, hk_host k, hk_protocol k, hk_port k)) (λ '(e, h, p, n), mkHostKey e h p n) _.
Next Obligation. by intros []. Qed.

Record PendingHostApprovalKey := mkPendingKey { pk_host : HostApprovalKey; pk_turn_id : str; pk_execution_id : option str }.

#[export] Instance PendingHostApprovalKey_eq_dec : EqDecision PendingHostApprovalKey.
Proof. solve_decision. Defined.
#[export] Program Instance PendingHostApprovalKey_countable : Countable PendingHostApprovalKey :=
  inj_countable' (λ k, (pk_host k, pk_turn_id k, pk_execution_id k)) (λ '(h, t, e), mkPendingKey h t e) _.
Next Obligation. by intros []. Qed.

Definition from_request (request : Request) (protocol : NetworkApprovalProtocol) (environment_id : str) : HostApprovalKey :=
  mkHostKey environment_id (to_ascii_lowercase (req_host request)) (protocol_key_label protocol) (req_port request).

Inductive PendingApprovalDecision := AllowOnce | AllowForSession | DenyPending.

#[export] Instance PendingApprovalDecision_eq_dec : EqDecision PendingApprovalDecision.
Proof. solve_decision. Defined.

Definition to_network_decision (d : PendingApprovalDecision) : NetworkDecision :=
  match d with
  | AllowOnce | AllowForSession => DecideAllow
  | DenyPending => deny (lit "not_allowed")
  end.

Definition allows_network_approval_flow (policy : AskForApproval) : bool :=
  match policy with Never => false | _ => true end.

Definition permission_profile_allows_network_approval_flow (p : PermissionProfile) : bool :=
  match p with Managed _ _ => true | _ => false end.

(** * Turns, calls and reviews *)

(** An environment of a turn that is ready: [cwd] is its directory as a local path, if it is one. *)
Record Environment := mkEnvironment { te_environment_id : str; te_permission_profile : PermissionProfile; te_cwd : option str }.

(** The active turn: its identifier and directory, the approval policy of its next step, the
    environments that are ready and whether review is strict. *)
Record ActiveTurnContext := mkActiveTurn {
  at_sub_id : str; at_cwd : str; at_approval_policy : AskForApproval;
  at_environments : list Environment; at_strict_auto_review : bool }.

(** Cancellation tokens and pending reviews are shared objects, known by their number. *)
Notation token := nat (only parsing).

(** [trigger_cwd] is the directory of the trigger as a local path, if it is one. *)
Record ActiveNetworkApprovalCall := mkCall {
  call_registration_id : str;
  call_turn_id : str;
  call_trigger_cwd : option str;
  call_command : str;
  call_environment_id : str;
  call_permission_profile : PermissionProfile;
  call_environments : list Environment;
  call_cancellation_token : token
}.

Record NetworkRequestAttribution := mkAttribution { owner_call : option ActiveNetworkApprovalCall; attr_environment_id : option str }.

Inductive ActiveNetworkApprovalAttribution := AttrNone | Single (c : ActiveNetworkApprovalCall) | Ambiguous.

Inductive NetworkPolicyRuleAction := RuleAllow | RuleDeny.
Record NetworkPolicyAmendment := mkAmendment { amendment_host : str; amendment_action : NetworkPolicyRuleAction }.

(** The proposed amendment of an [ApprovedExecpolicyAmendment] is not read here. *)
Inductive ReviewDecision :=
| RevApproved | ApprovedExecpolicyAmendment | ApprovedForSession | ApprovedMcpPolicyAmendment
| NetworkPolicyAmendmentDecision (a : NetworkPolicyAmendment) | RevDenied (rejection : str) | RevTimedOut | RevAbort.

(** [ApprovalAction::NetworkAccess]; the trigger is that of the owner's call. *)
Record NetworkAccess := mkAction {
  act_id : str; act_turn_id : str; act_environment_id : str; act_target : str; act_host : str;
  act_protocol : NetworkApprovalProtocol; act_port : N; act_trigger : option str; act_hook_command : str;
  act_hook_run_id : str; act_command : list str; act_cwd : str }.

(** [ApprovalContext] with the approval policy of its review context. *)
Record ReviewContext := mkReviewContext {
  rc_approval_policy : AskForApproval; rc_environments : list Environment; rc_call_id : str; rc_strict_auto_review : bool;
  rc_approval_reason : str; rc_retry_reason : str; rc_network : NetworkApprovalContext }.

(** The errors of a review: a rejection, an aborted turn, or another error with its text. *)
Inductive ReviewError := ReviewRejected (rejection : str) | ReviewTurnAborted | ReviewFailed (err : str).

(** * The service *)

(** The pending reviews by number, with their decisions once they are set; [commit_lock] names the
    task that holds it; [finish_outcomes] are the cells of deferred approvals that are set. *)
Record NetworkApprovalService := mkService {
  active_calls : gmap str ActiveNetworkApprovalCall;
  call_outcomes : gmap str str;
  pending_host_approvals : gmap PendingHostApprovalKey nat;
  pending_decisions : list (option PendingApprovalDecision);
  commit_lock : option nat;
  session_approved_hosts : gset HostApprovalKey;
  session_denied_hosts : gset HostApprovalKey;
  cancelled_tokens : gset nat;
  next_token : nat;
  finish_outcomes : gmap nat (option str)
}.

Definition new_service : NetworkApprovalService := mkService ∅ ∅ ∅ [] None ∅ ∅ ∅ 0 ∅.

(** [decision_on_drop] is kept with the task, see [Owner]. *)
Record PendingHostApprovalOwner := mkOwner {
  ow_key : PendingHostApprovalKey;
  ow_pending : nat;
  ow_execution_cancellation : option token;
  ow_disconnect : bool;
  ow_cancellation : bool;
  decision_on_drop : PendingApprovalDecision
}.

Definition set_decision_on_drop (d : PendingApprovalDecision) (o : PendingHostApprovalOwner) : PendingHostApprovalOwner :=
  let 'mkOwner k p e dis c _ := o in mkOwner k p e dis c d.

Section service.
Implicit Type s : NetworkApprovalService.

Definition with_calls (f : gmap str ActiveNetworkApprovalCall → gmap str ActiveNetworkApprovalCall) (g : gmap str str → gmap str str) s :=
  let 'mkService c o p d l a n t x f' := s in mkService (f c) (g o) p d l a n t x f'.
Definition with_pending (f : gmap PendingHostApprovalKey nat → gmap PendingHostApprovalKey nat)
    (g : list (option PendingApprovalDecision) → list (option PendingApprovalDecision)) s :=
  let 'mkService c o p d l a n t x f' := s in mkService c o (f p) (g d) l a n t x f'.
Definition with_lock (l : option nat) s :=
  let 'mkService c o p d _ a n t x f' := s in mkService c o p d l a n t x f'.
Definition with_hosts (f g : gset HostApprovalKey → gset HostApprovalKey) s :=
  let 'mkService c o p d l a n t x f' := s in mkService c o p d l (f a) (g n) t x f'.
Definition with_cancelled (t : token) s :=
  let 'mkService c o p d l a n ts x f' := s in mkService c o p d l a n ({[t]} ∪ ts) x f'.
Definition with_next_token (x : nat) s :=
  let 'mkService c o p d l a n ts _ f' := s in mkService c o p d l a n ts x f'.
Definition with_finished (t : token) (o : option str) s :=
  let 'mkService c os p d l a n ts x f' := s in mkService c os p d l a n ts x (<[t := o]> f').

(** ** Calls *)

Definition resolve_active_call_attribution s : ActiveNetworkApprovalAttribution :=
  match map_to_list (active_calls s) with
  | [] => AttrNone
  | [(_, c)] => Single c
  | _ => Ambiguous
  end.

Definition resolve_single_active_call s : option ActiveNetworkApprovalCall :=
  match map_to_list (active_calls s) with [(_, c)] => Some c | _ => None end.

Definition resolve_active_call_by_execution_id (execution_id : str) s : option ActiveNetworkApprovalCall :=
  active_calls s !! execution_id.

Definition resolve_request_attribution (request : Request) s : option NetworkRequestAttribution :=
  match req_execution_id request with
  | Some execution_id =>
      c ← resolve_active_call_by_execution_id execution_id s;
      let environment_id := default (call_environment_id c) (req_environment_id request) in
      if bool_decide (call_environment_id c = environment_id)
      then Some (mkAttribution (Some c) (Some environment_id)) else None
  | None =>
      match req_environment_id request with
      | Some environment_id =>
          let owner :=
            match resolve_active_call_attribution s with
            | Single c => if bool_decide (call_environment_id c = environment_id) then Some c else None
            | _ => None
            end in
          Some (mkAttribution owner (Some environment_id))
      | None =>
          match resolve_active_call_attribution s with
          | AttrNone => Some (mkAttribution None None)
          | Single c => Some (mkAttribution (Some c) (Some (call_environment_id c)))
          | Ambiguous => None
          end
      end
  end.

Definition register_call (c : ActiveNetworkApprovalCall) s := with_calls <[call_registration_id c := c]> id s.

Definition store_call_outcome (registration_id outcome : str) s : option token * NetworkApprovalService :=
  match active_calls s !! registration_id with
  | None => (None, s)
  | Some c => (Some (call_cancellation_token c), with_calls id <[registration_id := outcome]> s)
  end.

(** [record_call_outcome_if_absent], up to the cancellation that follows outside the lock. *)
Definition store_call_outcome_if_absent (registration_id outcome : str) s : option token * NetworkApprovalService :=
  match active_calls s !! registration_id with
  | None => (None, s)
  | Some c =>
      (Some (call_cancellation_token c),
       with_calls id (λ os, match os !! registration_id with Some _ => os | None => <[registration_id := outcome]> os end) s)
  end.

Definition remove_call (registration_id : str) s : option str * NetworkApprovalService :=
  (call_outcomes s !! registration_id, with_calls (delete registration_id) (delete registration_id) s).

(** [OnceCell::get_or_init] around [finish_call_outcome]; the cell belongs to the approval with
    the token [t]. *)
Definition finish_once (t : token) (registration_id : str) s : option str * NetworkApprovalService :=
  match finish_outcomes s !! t with
  | Some outcome => (outcome, s)
  | None => let '(outcome, s) := remove_call registration_id s in (outcome, with_finished t outcome s)
  end.

(** ** Pending reviews *)

Definition get_or_create_pending_approval (key : PendingHostApprovalKey) s : nat * bool * NetworkApprovalService :=
  match pending_host_approvals s !! key with
  | Some existing => (existing, false, s)
  | None =>
      let created := length (pending_decisions s) in
      (created, true, with_pending <[key := created]> (λ d, d ++ [None]) s)
  end.

(** The part of [publish_and_remove] under the lock: only this generation is removed. *)
Definition remove_generation (key : PendingHostApprovalKey) (pending : nat) s :=
  if bool_decide (pending_host_approvals s !! key = Some pending) then with_pending (delete key) id s else s.

(** [PendingHostApproval::set_decision]: the first decision stays. *)
Definition set_decision (pending : nat) (d : PendingApprovalDecision) s :=
  match pending_decisions s !! pending with
  | Some None => with_pending id <[pending := Some d]> s
  | _ => s
  end.

Definition decision_of (pending : nat) s : option PendingApprovalDecision := mjoin (pending_decisions s !! pending).

(** [sync_session_approved_hosts_to] *)
Definition sync_session_approved_hosts_to (source target : NetworkApprovalService) : NetworkApprovalService :=
  with_hosts (λ _, session_approved_hosts source) id target.
End service.

(** * Operations *)

Inductive op : Type → Type :=
(* on the service *)
| ResolveRequestAttribution (request : Request) : op (option NetworkRequestAttribution)
| ResolveBlocked (execution_id : option str) : op (option ActiveNetworkApprovalCall)
| NewToken : op nat
| RegisterCall (c : ActiveNetworkApprovalCall) : op unit
| RemoveCall (registration_id : str) : op (option str)
| FinishOnce (t : token) (registration_id : str) : op (option str)
| StoreCallOutcome (registration_id outcome : str) : op (option nat)
| StoreCallOutcomeIfAbsent (registration_id outcome : str) : op (option nat)
| IsCancelled (t : token) : op bool
| Cancel (t : token) : op unit
| LockCommit : op unit
| UnlockCommit : op unit
| DeniedContains (key : HostApprovalKey) : op bool
| DeniedInsert (key : HostApprovalKey) : op unit
| DeniedRemove (key : HostApprovalKey) : op unit
| ApprovedContains (key : HostApprovalKey) : op bool
| ApprovedInsert (key : HostApprovalKey) : op unit
| ApprovedRemove (key : HostApprovalKey) : op unit
| GetOrCreatePending (key : PendingHostApprovalKey) : op (nat * bool)
| WaitForDecision (pending : nat) : op PendingApprovalDecision
| RemoveGeneration (key : PendingHostApprovalKey) (pending : nat) : op unit
| SetDecision (pending : nat) (d : PendingApprovalDecision) : op unit
(* on the task's own owner guard *)
| NewOwner (o : PendingHostApprovalOwner) : op unit
| SetDecisionOnDrop (d : PendingApprovalDecision) : op unit
| DecisionOnDrop : op PendingApprovalDecision
(* answered from outside *)
| CancellationReason : op (option NetworkRequestCancellationReason)
| DisconnectElapsed : op (option N)
| ActiveTurn : op (option ActiveTurnContext)
| NewUuid : op str
| RequestReview (action : NetworkAccess) (context : ReviewContext) (until : option token) : op (option (result ReviewError ReviewDecision))
| AcquireRefresh : op (result unit unit)
| CodexHome : op str
| NetworkProxyRunning : op bool
| UpdateRuntime (action : NetworkPolicyRuleAction) (host : str) : op (result str unit)
| AppendNetworkRule (codex_home host : str) (protocol : NetworkRuleProtocol) (d : Decision) (justification : str) : op (result str unit)
| RecordAmendmentMessage (sub_id : str) (a : NetworkPolicyAmendment) : op unit
| SendWarning (sub_id message : str) : op unit.

Notation prog := (io op).

(** Where the code awaits something that may suspend it: the asynchronous locks, a decision, the
    session. *)
Definition awaits {R} (e : op R) : bool :=
  match e with
  | LockCommit | DeniedContains _ | DeniedInsert _ | DeniedRemove _ | ApprovedContains _ | ApprovedInsert _ | ApprovedRemove _
  | WaitForDecision _ | ActiveTurn | RequestReview _ _ _ | AcquireRefresh | CodexHome | UpdateRuntime _ _
  | AppendNetworkRule _ _ _ _ _ | RecordAmendmentMessage _ _ | SendWarning _ _ => true
  | _ => false
  end.

(** What an operation of task [i] answers and changes; [None] while it is blocked, and for the
    operations that are answered from outside. *)
Definition perform {R} (i : nat) (e : op R) (s : NetworkApprovalService) (g : option PendingHostApprovalOwner)
    : option (R * NetworkApprovalService * option PendingHostApprovalOwner) :=
  match e with
  | ResolveRequestAttribution request => Some (resolve_request_attribution request s, s, g)
  | ResolveBlocked (Some execution_id) => Some (resolve_active_call_by_execution_id execution_id s, s, g)
  | ResolveBlocked None => Some (resolve_single_active_call s, s, g)
  | NewToken => Some (next_token s, with_next_token (S (next_token s)) s, g)
  | RegisterCall c => Some (tt, register_call c s, g)
  | RemoveCall registration_id => Some (remove_call registration_id s, g)
  | FinishOnce t registration_id => Some (finish_once t registration_id s, g)
  | StoreCallOutcome registration_id outcome => Some (store_call_outcome registration_id outcome s, g)
  | StoreCallOutcomeIfAbsent registration_id outcome => Some (store_call_outcome_if_absent registration_id outcome s, g)
  | IsCancelled t => Some (bool_decide (t ∈ cancelled_tokens s), s, g)
  | Cancel t => Some (tt, with_cancelled t s, g)
  | LockCommit => match commit_lock s with None => Some (tt, with_lock (Some i) s, g) | Some _ => None end
  | UnlockCommit => Some (tt, with_lock None s, g)
  | DeniedContains key => Some (bool_decide (key ∈ session_denied_hosts s), s, g)
  | DeniedInsert key => Some (tt, with_hosts id (union {[key]}) s, g)
  | DeniedRemove key => Some (tt, with_hosts id (λ hs, hs ∖ {[key]}) s, g)
  | ApprovedContains key => Some (bool_decide (key ∈ session_approved_hosts s), s, g)
  | ApprovedInsert key => Some (tt, with_hosts (union {[key]}) id s, g)
  | ApprovedRemove key => Some (tt, with_hosts (λ hs, hs ∖ {[key]}) id s, g)
  | GetOrCreatePending key => Some (get_or_create_pending_approval key s, g)
  | WaitForDecision pending => d ← decision_of pending s; Some (d, s, g)
  | RemoveGeneration key pending => Some (tt, remove_generation key pending s, g)
  | SetDecision pending d => Some (tt, set_decision pending d s, None)
  | NewOwner o => Some (tt, s, Some o)
  | SetDecisionOnDrop d => Some (tt, s, set_decision_on_drop d <$> g)
  | DecisionOnDrop => Some (default DenyPending (decision_on_drop <$> g), s, g)
  | _ => None
  end.

(** The operations that are answered from outside, and the answers they may get: a review is cut
    short only by its token. *)
Definition asks {R} (e : op R) : bool :=
  match e with
  | CancellationReason | DisconnectElapsed | ActiveTurn | NewUuid | RequestReview _ _ _ | AcquireRefresh | CodexHome
  | NetworkProxyRunning | UpdateRuntime _ _ | AppendNetworkRule _ _ _ _ _ | RecordAmendmentMessage _ _ | SendWarning _ _ => true
  | _ => false
  end.

Definition may_answer {R} (e : op R) (s : NetworkApprovalService) : R → Prop :=
  match e with
  | RequestReview _ _ until => λ r, r = None → ∃ t, until = Some t ∧ t ∈ cancelled_tokens s
  | _ => λ _, True
  end.

Definition effect {R} (i : nat) (e : op R) (s : NetworkApprovalService) (g : option PendingHostApprovalOwner)
    (r : R) (s' : NetworkApprovalService) (g' : option PendingHostApprovalOwner) : Prop :=
  if asks e then may_answer e s r ∧ s' = s ∧ g' = g else perform i e s g = Some (r, s', g').

(** * Programs *)

(** ** Outcomes of calls *)

Definition cancel_some (t : option nat) : prog unit := match t with Some t => call (Cancel t) | None => Ret tt end.

Definition record_call_outcome (registration_id outcome : str) : prog unit :=
  let! t := call (StoreCallOutcome registration_id outcome) in cancel_some t.

Definition record_call_outcome_if_absent (registration_id outcome : str) : prog unit :=
  let! t := call (StoreCallOutcomeIfAbsent registration_id outcome) in cancel_some t.

(** [if let Some(owner_call) = owner_call.as_ref() { self.record_call_outcome(..) }] *)
Definition record_for (owner : option ActiveNetworkApprovalCall) (outcome : str) : prog unit :=
  match owner with Some c => record_call_outcome (call_registration_id c) outcome | None => Ret tt end.

(** The fields of a blocked request that are read here. *)
Record Blocked := mkBlockedRequest { bl_host : str; bl_reason : str; bl_execution_id : option str; bl_decision : option str }.

Definition parse_network_policy_decision (value : str) : option NetworkPolicyDecision :=
  if value =s lit "deny" then Some DecisionDeny else if value =s lit "ask" then Some DecisionAsk else None.

Definition quote : str := [34%N].

Definition denied_network_policy_message (b : Blocked) : option str :=
  match bl_decision b ≫= parse_network_policy_decision with
  | Some DecisionDeny =>
      let host := trim (bl_host b) in
      if host =s [] then Some (lit "Network access was blocked by policy.")
      else
        let detail :=
          if bl_reason b =s lit "denied" then lit "domain is explicitly denied by policy and cannot be approved from this prompt"
          else if bl_reason b =s lit "not_allowed" then lit "domain is not on the allowlist for the current sandbox mode"
          else if bl_reason b =s lit "not_allowed_local" then lit "local/private network addresses are blocked by the sandbox policy"
          else if bl_reason b =s lit "method_not_allowed" then lit "request method is blocked by the current network mode"
          else if bl_reason b =s lit "proxy_disabled" then lit "network proxy is disabled"
          else lit "request is blocked by network policy" in
        Some (lit "Network access to " ++ quote ++ host ++ quote ++ lit " was blocked: " ++ detail ++ lit ".")
  | _ => None
  end.

Definition record_blocked_request (b : Blocked) : prog unit :=
  match denied_network_policy_message b with
  | None => Ret tt
  | Some message =>
      let! owner := call (ResolveBlocked (bl_execution_id b)) in
      match owner with
      | None => Ret tt
      | Some c => record_call_outcome_if_absent (call_registration_id c) message
      end
  end.

(** ** The owner of a pending review *)

Definition cancel_execution_if_denied (o : PendingHostApprovalOwner) (d : PendingApprovalDecision) : prog unit :=
  match d with DenyPending => cancel_some (ow_execution_cancellation o) | _ => Ret tt end.

Definition publish_and_remove (o : PendingHostApprovalOwner) (d : PendingApprovalDecision) : prog unit :=
  let! _ := call (RemoveGeneration (ow_key o) (ow_pending o)) in call (SetDecision (ow_pending o) d).

Definition complete (o : PendingHostApprovalOwner) (d : PendingApprovalDecision) : prog unit :=
  let! _ := cancel_execution_if_denied o d in publish_and_remove o d.

(** [Drop for PendingHostApprovalOwner], of an owner that is not completed. *)
Definition drop_owner (o : PendingHostApprovalOwner) : prog unit :=
  let! reason := (if ow_cancellation o then call CancellationReason else Ret None) in
  if bool_decide (reason = Some ProcessFinished) then publish_and_remove o (decision_on_drop o)
  else
    let! _ :=
      match decision_on_drop o, pk_execution_id (ow_key o) with
      | DenyPending, Some registration_id =>
          if ow_disconnect o then
            let! elapsed := call DisconnectElapsed in
            match elapsed with
            | Some elapsed_ms =>
                record_call_outcome_if_absent registration_id
                  (lit "Network request disconnected after " ++ lit (pretty elapsed_ms) ++ lit " ms, before approval could complete")
            | None => Ret tt
            end
          else Ret tt
      | _, _ => Ret tt
      end in
    let! _ := cancel_execution_if_denied o (decision_on_drop o) in
    publish_and_remove o (decision_on_drop o).

(** A dropped task: the commit guard is younger than the owner and goes first. *)
Definition drop_task (holds_lock : bool) (g : option PendingHostApprovalOwner) : prog (option NetworkDecision) :=
  let! _ := (if holds_lock then call UnlockCommit else Ret tt) in
  let! _ := match g with Some o => drop_owner o | None => Ret tt end in
  Ret None.

(** ** Accepted rules *)

Definition validated_network_policy_amendment_host (a : NetworkPolicyAmendment) (c : NetworkApprovalContext)
    : result str str :=
  let approved_host := normalize_host (approval_host c) in
  if normalize_host (amendment_host a) =s approved_host then Ok approved_host
  else Err (lit "network policy amendment host '" ++ amendment_host a ++ lit "' does not match approved host '" ++ approval_host c ++ lit "'").

Record ExecPolicyNetworkRuleAmendment := mkRuleAmendment { ra_protocol : NetworkRuleProtocol; ra_decision : Decision; ra_justification : str }.

Definition execpolicy_network_rule_amendment (a : NetworkPolicyAmendment) (c : NetworkApprovalContext) (host : str)
    : ExecPolicyNetworkRuleAmendment :=
  let '(protocol, label) :=
    match approval_protocol c with
    | ApprovalHttp => (Http, lit "http")
    | ApprovalHttps => (Https, lit "https_connect")
    | ApprovalSocks5Tcp => (Socks5Tcp, lit "socks5_tcp")
    | ApprovalSocks5Udp => (Socks5Udp, lit "socks5_udp")
    end in
  let '(d, verb) :=
    match amendment_action a with
    | RuleAllow => (Allow, lit "Allow")
    | RuleDeny => (Forbidden, lit "Deny")
    end in
  mkRuleAmendment protocol d (verb ++ lit " " ++ label ++ lit " access to " ++ host).

(** [persist_network_policy_amendment]: with a running proxy the rule is in force once the proxy
    took it, without one once it is saved; [on_policy_applied] is called at that moment. *)
Definition persist_network_policy_amendment (a : NetworkPolicyAmendment) (c : NetworkApprovalContext) (on_policy_applied : prog unit)
    : prog (result str unit) :=
  let! permit := call AcquireRefresh in
  match permit with
  | Err _ => Ret (Err (lit "managed network proxy refresh semaphore closed"))
  | Ok _ =>
      match validated_network_policy_amendment_host a c with
      | Err e => Ret (Err e)
      | Ok host =>
          let! codex_home := call CodexHome in
          let rule := execpolicy_network_rule_amendment a c host in
          let append :=
            let! saved := call (AppendNetworkRule codex_home host (ra_protocol rule) (ra_decision rule) (ra_justification rule)) in
            Ret (match saved with Ok _ => Ok tt | Err e => Err (lit "failed to persist network policy amendment to execpolicy: " ++ e) end) in
          let! running := call NetworkProxyRunning in
          if (running : bool) then
            let! updated := call (UpdateRuntime (amendment_action a) host) in
            match updated with
            | Err e =>
                let list := match amendment_action a with RuleAllow => lit "allowlist" | RuleDeny => lit "denylist" end in
                Ret (Err (lit "failed to update runtime " ++ list ++ lit ": " ++ e))
            | Ok _ => let! _ := on_policy_applied in append
            end
          else
            let! saved := append in
            match saved with
            | Err e => Ret (Err e)
            | Ok _ => let! _ := on_policy_applied in Ret (Ok tt)
            end
      end
  end.

Definition apply_amendment (sub_id : str) (a : NetworkPolicyAmendment) (c : NetworkApprovalContext) (on_drop : PendingApprovalDecision) : prog unit :=
  let! persisted := persist_network_policy_amendment a c (call (SetDecisionOnDrop on_drop)) in
  match persisted with
  | Ok _ => call (RecordAmendmentMessage sub_id a)
  | Err e => call (SendWarning sub_id (lit "Failed to apply network policy amendment: " ++ e))
  end.

(** ** Requests *)

Definition format_network_target (protocol host : str) (port : N) : str :=
  protocol ++ lit "://" ++ host ++ lit ":" ++ lit (pretty port).

Definition approval_id_for_key (key : HostApprovalKey) : str :=
  lit "network#" ++ hk_environment_id key ++ lit "#" ++ hk_protocol key ++ lit "#" ++ hk_host key ++ lit "#" ++ lit (pretty (hk_port key)).

Definition policy_denial_message (request : Request) (key : HostApprovalKey) : str :=
  let target := format_network_target (hk_protocol key) (req_host request) (hk_port key) in
  lit "Network access to " ++ quote ++ target ++ quote ++ lit " was blocked by policy.".

(** The caches of the session under the commit lock: a denial is looked at first. *)
Definition check_session_hosts (key : HostApprovalKey) : prog (option NetworkDecision) :=
  let! _ := call LockCommit in
  let! denied := call (DeniedContains key) in
  if (denied : bool) then let! _ := call UnlockCommit in Ret (Some (deny REASON_NOT_ALLOWED))
  else
    let! approved := call (ApprovedContains key) in
    let! _ := call UnlockCommit in
    Ret (if (approved : bool) then Some DecideAllow else None).

Definition approve_unless_denied (owner : option ActiveNetworkApprovalCall) (key : HostApprovalKey) (message : str)
    (otherwise : prog PendingApprovalDecision) : prog PendingApprovalDecision :=
  let! denied := call (DeniedContains key) in
  if (denied : bool) then let! _ := record_for owner message in Ret DenyPending else otherwise.

(** What a review's answer means for the request, the caches and the call; the commit lock is held
    for the answers that may change the caches. *)
Definition resolve_review (owner : option ActiveNetworkApprovalCall) (key : HostApprovalKey) (message sub_id : str)
    (c : NetworkApprovalContext) (answer : ReviewDecision) : prog PendingApprovalDecision :=
  match answer with
  | RevApproved | ApprovedExecpolicyAmendment => approve_unless_denied owner key message (Ret AllowOnce)
  | ApprovedForSession =>
      approve_unless_denied owner key message (let! _ := call (ApprovedInsert key) in Ret AllowForSession)
  | NetworkPolicyAmendmentDecision a =>
      match amendment_action a with
      | RuleAllow =>
          let! _ := apply_amendment sub_id a c AllowForSession in
          let! on_drop := call DecisionOnDrop in
          if bool_decide (on_drop = AllowForSession) then
            let! _ := call (DeniedRemove key) in
            let! _ := call (ApprovedInsert key) in
            Ret AllowForSession
          else let! _ := record_for owner message in Ret DenyPending
      | RuleDeny =>
          let! _ := apply_amendment sub_id a c DenyPending in
          let! _ := record_for owner (lit "rejected by user") in
          let! _ := call (ApprovedRemove key) in
          let! _ := call (DeniedInsert key) in
          Ret DenyPending
      end
  | ApprovedMcpPolicyAmendment | RevDenied _ | RevTimedOut | RevAbort =>
      let! _ := record_for owner (lit "Error while requesting approval") in Ret DenyPending
  end.

Definition takes_commit_lock (answer : ReviewDecision) : bool :=
  match answer with
  | RevApproved | ApprovedExecpolicyAmendment | ApprovedForSession | NetworkPolicyAmendmentDecision _ => true
  | _ => false
  end.

Definition is_deny_amendment (answer : ReviewDecision) : bool :=
  match answer with
  | NetworkPolicyAmendmentDecision a => match amendment_action a with RuleDeny => true | RuleAllow => false end
  | _ => false
  end.

(** A denial rule is recorded as the call's outcome before the lock is waited for. *)
Definition store_denial (owner : option ActiveNetworkApprovalCall) (answer : ReviewDecision) : prog unit :=
  match owner with
  | Some oc =>
      if is_deny_amendment answer then
        let! _ := call (StoreCallOutcome (call_registration_id oc) (lit "rejected by user")) in Ret tt
      else Ret tt
  | None => Ret tt
  end.

(** The code after a review, from its answer to the decision that is published and returned. *)
Definition conclude_review (owner : option ActiveNetworkApprovalCall) (o : PendingHostApprovalOwner) (key : HostApprovalKey)
    (message sub_id : str) (c : NetworkApprovalContext) (answer : ReviewDecision) : prog NetworkDecision :=
  let! _ := store_denial owner answer in
  let! _ := (if takes_commit_lock answer then call LockCommit else Ret tt) in
  let! resolved := resolve_review owner key message sub_id c answer in
  let! _ := call (SetDecisionOnDrop resolved) in
  let! _ := complete o resolved in
  let! _ := (if takes_commit_lock answer then call UnlockCommit else Ret tt) in
  Ret (to_network_decision resolved).

Definition deny_review (o : PendingHostApprovalOwner) : prog NetworkDecision :=
  let! _ := complete o DenyPending in Ret (deny REASON_NOT_ALLOWED).

Definition find_environment (environment_id : str) (es : list Environment) : option Environment :=
  find (λ e, te_environment_id e =s environment_id) es.

Definition review_action (turn : ActiveTurnContext) (owner : option ActiveNetworkApprovalCall) (environments : list Environment)
    (environment_id : str) (request : Request) (protocol : NetworkApprovalProtocol) (key : HostApprovalKey) : NetworkAccess :=
  let id := approval_id_for_key key in
  let target := format_network_target (hk_protocol key) (req_host request) (hk_port key) in
  let prompt_command := [lit "network-access"; target] in
  mkAction id (at_sub_id turn) environment_id target (req_host request) protocol (hk_port key)
    (call_registration_id <$> owner)
    (match owner with Some c => call_command c | None => lit "network-access " ++ target end)
    (match owner with Some c => id ++ lit "#" ++ call_registration_id c | None => id end)
    prompt_command
    (match owner ≫= call_trigger_cwd with
     | Some cwd => cwd
     | None => default (at_cwd turn) (find_environment environment_id environments ≫= te_cwd)
     end).

(** The task that created the pending review asks for it and publishes its decision. *)
Definition run_review (turn : ActiveTurnContext) (owner : option ActiveNetworkApprovalCall) (o : PendingHostApprovalOwner)
    (environment_id : str) (request : Request) (protocol : NetworkApprovalProtocol) (key : HostApprovalKey) : prog NetworkDecision :=
  let message := policy_denial_message request key in
  let environments := match owner with Some c => call_environments c | None => at_environments turn end in
  let profile :=
    match owner with
    | Some c => Some (call_permission_profile c)
    | None => te_permission_profile <$> find_environment environment_id environments
    end in
  if negb (default false (permission_profile_allows_network_approval_flow <$> profile)) then
    let! _ := record_for owner message in deny_review o
  else if negb (allows_network_approval_flow (at_approval_policy turn)) then
    let! _ := record_for owner message in deny_review o
  else
    let action := review_action turn owner environments environment_id request protocol key in
    let network := mkNetworkContext (req_host request) protocol in
    let! uuid := call NewUuid in
    let context := mkReviewContext (at_approval_policy turn) environments (act_id action ++ lit "#" ++ uuid) (at_strict_auto_review turn)
                     (req_host request ++ lit " is not in the allowed_domains") message network in
    let! result := call (RequestReview action context (call_cancellation_token <$> owner)) in
    match result with
    | None => deny_review o
    | Some (Ok answer) => conclude_review owner o key message (at_sub_id turn) network answer
    | Some (Err (ReviewRejected rejection)) => let! _ := record_for owner rejection in deny_review o
    | Some (Err ReviewTurnAborted) => let! _ := record_for owner (lit "rejected by user") in deny_review o
    | Some (Err (ReviewFailed err)) => let! _ := record_for owner (lit "Error while requesting approval: " ++ err) in deny_review o
    end.

Definition handle_inline_policy_request (request : Request) : prog NetworkDecision :=
  let protocol := approval_protocol_of (rest_protocol (req_rest request)) in
  let! attribution := call (ResolveRequestAttribution request) in
  match attribution with
  | None => Ret (deny REASON_NOT_ALLOWED)
  | Some attribution =>
      let owner := owner_call attribution in
      let active_environment_id := attr_environment_id attribution in
      let! cancelled := match owner with Some c => call (IsCancelled (call_cancellation_token c)) | None => Ret false end in
      if (cancelled : bool) then Ret (deny REASON_NOT_ALLOWED)
      else
        let! active_turn := call ActiveTurn in
        let environment :=
          match active_environment_id with
          | Some e => Some e
          | None => te_environment_id <$> ((active_turn : option ActiveTurnContext) ≫= (λ t, head (at_environments t)))
          end in
        match environment with
        | None => Ret (deny REASON_NOT_ALLOWED)
        | Some environment_id =>
            let key := from_request request protocol environment_id in
            let! cached := check_session_hosts key in
            match cached with
            | Some d => Ret d
            | None =>
                let message := policy_denial_message request key in
                match active_turn with
                | None => let! _ := record_for owner message in Ret (deny REASON_NOT_ALLOWED)
                | Some turn =>
                    let pending_key :=
                      mkPendingKey key (match owner with Some c => call_turn_id c | None => at_sub_id turn end)
                        (call_registration_id <$> owner) in
                    let! created := call (GetOrCreatePending pending_key) in
                    let '(pending, is_owner) := (created : nat * bool) in
                    if is_owner then
                      let o := mkOwner pending_key pending (call_cancellation_token <$> owner)
                                 (rest_disconnect (req_rest request)) (rest_cancellation (req_rest request)) DenyPending in
                      let! _ := call (NewOwner o) in
                      run_review turn owner o environment_id request protocol key
                    else
                      let! d := call (WaitForDecision pending) in
                      Ret (to_network_decision d)
                end
            end
        end
  end.

(** [build_network_policy_decider]: without a session there is nobody to ask. *)
Definition network_policy_decider (session : bool) (request : Request) : prog NetworkDecision :=
  if session then handle_inline_policy_request request else Ret (ask (lit "not_allowed")).

(** ** Tool calls *)

(** The end of [begin_network_approval]: the call is registered under a new identifier and a new
    token; the proxy for the execution is built before. *)
Definition begin_network_approval (turn_id : str) (trigger_cwd : option str) (command environment_id : str)
    (profile : PermissionProfile) (environments : list Environment) : prog (str * nat) :=
  let! registration_id := call NewUuid in
  let! t := call NewToken in
  let! _ := call (RegisterCall (mkCall registration_id turn_id trigger_cwd command environment_id profile environments t)) in
  Ret (registration_id, t).

Definition ABANDONED_NETWORK_APPROVAL_MESSAGE : str := lit "network approval was cancelled before a decision was returned".

Definition REJECTION_MESSAGE_MAX_TOKENS : N := 900.

Definition truncate_rejection_message (message : str) : str :=
  fst (truncate_middle_with_token_budget message REJECTION_MESSAGE_MAX_TOKENS).

Definition network_approval_outcome_to_result (outcome : option str) : result ToolError unit :=
  match outcome with
  | Some rejection => Err (Rejected (truncate_rejection_message rejection))
  | None => Ok tt
  end.

(** [DeferredNetworkApproval::finish] *)
Definition finish (registration_id : str) (t : token) : prog (result ToolError unit) :=
  let! outcome := call (FinishOnce t registration_id) in
  match outcome with
  | Some o => Ret (network_approval_outcome_to_result (Some o))
  | None =>
      let! cancelled := call (IsCancelled t) in
      Ret (network_approval_outcome_to_result (if (cancelled : bool) then Some ABANDONED_NETWORK_APPROVAL_MESSAGE else None))
  end.
