(* ===== verification/ApprovalSystem.v ===== *)
(** Concurrent network reviews: any number of requests, blocked-request reports, tool calls and
    synchronised caches, interleaved operation by operation with any answers from outside and
    with tasks dropped wherever they await. A small rely-guarantee logic gives what holds of
    every execution: nothing is allowed that nobody approved, a denied host is not allowed by an
    older review, a denial fails its tool call, and no waiting request is left behind. *)
From S2P Require Import Prelude Str Truncate NetworkDomain NetworkPolicy ApprovalTypes PermissionProfile Orchestrator ExecPolicy NetworkApproval.

(** * Systems *)

(** What is seen of an operation: the reviews created, joined and asked for, the cache hits and
    the publications, the latter two with the hosts denied at that moment. *)
Inductive Event :=
| Created (key : PendingHostApprovalKey) (pending : nat)
| Joined (key : PendingHostApprovalKey) (pending : nat)
| Reviewed (action : NetworkAccess) (context : ReviewContext) (answer : ReviewDecision)
| Withdrawn (reason : NetworkRequestCancellationReason)
| CacheHit (key : HostApprovalKey) (denied : gset HostApprovalKey)
| Published (o : PendingHostApprovalOwner) (d : PendingApprovalDecision) (denied : gset HostApprovalKey).

Definition observe {R} (e : op R) (s : NetworkApprovalService) (g : option PendingHostApprovalOwner) : R → list Event :=
  match e with
  | GetOrCreatePending key => λ r, [(if snd r then Created else Joined) key (fst r)]
  | RequestReview action context _ =>
      λ r, match r with Some (Ok answer) => [Reviewed action context answer] | _ => [] end
  | CancellationReason => λ r, match r with Some reason => [Withdrawn reason] | None => [] end
  | ApprovedContains key => λ r, if r then [CacheHit key (session_denied_hosts s)] else []
  | SetDecision _ d => λ _, match g with Some o => [Published o d (session_denied_hosts s)] | None => [] end
  | _ => λ _, []
  end.

(** The history of a system: events of its tasks, and the approved hosts it was given. *)
Inductive Label := Ev (i : nat) (e : Event) | Synced (hosts : gset HostApprovalKey).
Notation history := (list Label).

(** What may run as a task. *)
Inductive job :=
| JobRequest (request : Request)
| JobBlocked (b : Blocked)
| JobBegin (turn_id : str) (trigger_cwd : option str) (command environment_id : str) (profile : PermissionProfile) (environments : list Environment)
| JobFinish (registration_id : str) (t : nat)
| JobUnregister (registration_id : str).

Definition job_prog (j : job) : prog (option NetworkDecision) :=
  match j with
  | JobRequest request => let! d := handle_inline_policy_request request in Ret (Some d)
  | JobBlocked b => let! _ := record_blocked_request b in Ret None
  | JobBegin turn_id cwd command environment_id profile environments =>
      let! _ := begin_network_approval turn_id cwd command environment_id profile environments in Ret None
  | JobFinish registration_id t => let! _ := finish registration_id t in Ret None
  | JobUnregister registration_id => let! _ := call (RemoveCall registration_id) in Ret None
  end.

Record Task := mkTask { task_job : job; task_guard : option PendingHostApprovalOwner; task_prog : prog (option NetworkDecision) }.
Record System := mkSystem { sys_service : NetworkApprovalService; sys_tasks : gmap nat Task }.

Inductive step : history * System → history * System → Prop :=
| step_start h s ts i j :
    ts !! i = None →
    step (h, mkSystem s ts) (h, mkSystem s (<[i := mkTask j None (job_prog j)]> ts))
| step_run h s ts i j g R (e : op R) k r s' g' :
    ts !! i = Some (mkTask j g (Ask e k)) → effect i e s g r s' g' →
    step (h, mkSystem s ts) (h ++ (Ev i <$> observe e s g r), mkSystem s' (<[i := mkTask j g' (k r)]> ts))
| step_drop h s ts i j g R (e : op R) k :
    ts !! i = Some (mkTask j g (Ask e k)) → awaits e = true →
    step (h, mkSystem s ts) (h, mkSystem s (<[i := mkTask j g (drop_task (bool_decide (commit_lock s = Some i)) g)]> ts))
| step_sync h s ts source :
    step (h, mkSystem s ts) (h ++ [Synced (session_approved_hosts source)], mkSystem (sync_session_approved_hosts_to source s) ts).

Definition reachable (c : history * System) : Prop := rtc step ([], mkSystem new_service ∅) c.

(** * What is shown *)

Definition approves (answer : ReviewDecision) : bool :=
  match answer with
  | RevApproved | ApprovedExecpolicyAmendment | ApprovedForSession => true
  | NetworkPolicyAmendmentDecision a => match amendment_action a with RuleAllow => true | RuleDeny => false end
  | _ => false
  end.

Definition is_allow_amendment (answer : ReviewDecision) : bool :=
  match answer with
  | NetworkPolicyAmendmentDecision a => match amendment_action a with RuleAllow => true | RuleDeny => false end
  | _ => false
  end.

Definition for_session (answer : ReviewDecision) : bool :=
  match answer with ApprovedForSession => true | _ => is_allow_amendment answer end.

(** The host, environment, protocol and port that a review is about. *)
Definition action_key (a : NetworkAccess) : HostApprovalKey :=
  mkHostKey (act_environment_id a) (to_ascii_lowercase (act_host a)) (protocol_key_label (act_protocol a)) (act_port a).

(** Task [j] asked about [key], under a policy that lets it ask, and got an answer of the kind [ok]. *)
Definition reviewed (h : history) (j : nat) (key : HostApprovalKey) (ok : ReviewDecision → bool) : Prop :=
  ∃ a c answer, Ev j (Reviewed a c answer) ∈ h ∧ ok answer = true ∧ action_key a = key
  ∧ allows_network_approval_flow (rc_approval_policy c) = true.

Notation world := (history * NetworkApprovalService)%type.
Notation guard := (option PendingHostApprovalOwner).
Implicit Types (w : world) (g : guard) (i j p : nat).

Definition undecided p w : Prop := pending_decisions w.2 !! p = Some None.

(** The invariant of the service and its history. *)
Record Inv w : Prop := {
  inv_map key p : pending_host_approvals w.2 !! key = Some p → undecided p w ∧ ∃ j, Ev j (Created key p) ∈ w.1;
  inv_all p : p < length (pending_decisions w.2) → ∃ j key, Ev j (Created key p) ∈ w.1;
  inv_created j key p : Ev j (Created key p) ∈ w.1 → p < length (pending_decisions w.2);
  inv_unique j j' key key' p : Ev j (Created key p) ∈ w.1 → Ev j' (Created key' p) ∈ w.1 → j = j' ∧ key = key';
  inv_joined i key p : Ev i (Joined key p) ∈ w.1 → ∃ j, Ev j (Created key p) ∈ w.1;
  inv_decided p d : pending_decisions w.2 !! p = Some (Some d) → ∃ j o dn, Ev j (Published o d dn) ∈ w.1 ∧ ow_pending o = p;
  inv_published j o d dn : Ev j (Published o d dn) ∈ w.1 → Ev j (Created (ow_key o) (ow_pending o)) ∈ w.1;
  inv_allowed j o d dn : Ev j (Published o d dn) ∈ w.1 → d ≠ DenyPending →
    reviewed w.1 j (pk_host (ow_key o)) approves
    ∧ (pk_host (ow_key o) ∈ dn → reviewed w.1 j (pk_host (ow_key o)) is_allow_amendment);
  inv_denied j o dn t : Ev j (Published o DenyPending dn) ∈ w.1 → ow_execution_cancellation o = Some t →
    t ∈ cancelled_tokens w.2 ∨ Ev j (Withdrawn ProcessFinished) ∈ w.1;
  inv_cache key : key ∈ session_approved_hosts w.2 →
    (∃ j, reviewed w.1 j key for_session) ∨ ∃ hosts, Synced hosts ∈ w.1 ∧ key ∈ hosts;
  inv_hit i key dn : Ev i (CacheHit key dn) ∈ w.1 → key ∉ dn
    ∧ ((∃ j, reviewed w.1 j key for_session) ∨ ∃ hosts, Synced hosts ∈ w.1 ∧ key ∈ hosts)
}.

(** What a task must know before an operation. *)
Definition pre {R} i (e : op R) w g : Prop :=
  match e with
  | LockCommit => commit_lock w.2 ≠ Some i
  | UnlockCommit | DeniedInsert _ | DeniedRemove _ | ApprovedRemove _ => commit_lock w.2 = Some i
  | ApprovedInsert key => commit_lock w.2 = Some i ∧ reviewed w.1 i key for_session
  | ApprovedContains key => key ∉ session_denied_hosts w.2
  | RequestReview _ c _ => allows_network_approval_flow (rc_approval_policy c) = true
  | WaitForDecision p =>
      commit_lock w.2 ≠ Some i ∧ p < length (pending_decisions w.2) ∧ ∀ key p', Ev i (Created key p') ∉ w.1
  | RemoveGeneration key p => Ev i (Created key p) ∈ w.1
  | SetDecision p d =>
      ∃ o, g = Some o ∧ ow_pending o = p ∧ Ev i (Created (ow_key o) p) ∈ w.1 ∧ undecided p w
      ∧ (∀ key, pending_host_approvals w.2 !! key ≠ Some p)
      ∧ (d ≠ DenyPending → reviewed w.1 i (pk_host (ow_key o)) approves
           ∧ (pk_host (ow_key o) ∈ session_denied_hosts w.2 → reviewed w.1 i (pk_host (ow_key o)) is_allow_amendment))
      ∧ (d = DenyPending → ∀ t, ow_execution_cancellation o = Some t →
           t ∈ cancelled_tokens w.2 ∨ Ev i (Withdrawn ProcessFinished) ∈ w.1)
  | _ => True
  end.

(** What the other tasks leave alone. *)
Record rely i w w' : Prop := {
  rely_prefix : w.1 `prefix_of` w'.1;
  rely_own ev : Ev i ev ∈ w'.1 → Ev i ev ∈ w.1;
  rely_lock : commit_lock w.2 = Some i ↔ commit_lock w'.2 = Some i;
  rely_denied : commit_lock w.2 = Some i → session_denied_hosts w'.2 = session_denied_hosts w.2;
  rely_decided p d : pending_decisions w.2 !! p = Some (Some d) → pending_decisions w'.2 !! p = Some (Some d);
  rely_undecided key p : Ev i (Created key p) ∈ w.1 → undecided p w → undecided p w';
  rely_removed key p : Ev i (Created key p) ∈ w.1 → (∀ k, pending_host_approvals w.2 !! k ≠ Some p) →
    ∀ k, pending_host_approvals w'.2 !! k ≠ Some p;
  rely_length : length (pending_decisions w.2) ≤ length (pending_decisions w'.2);
  rely_cancelled : cancelled_tokens w.2 ⊆ cancelled_tokens w'.2
}.

Lemma reviewed_prefix h h' j key ok : reviewed h j key ok → h `prefix_of` h' → reviewed h' j key ok.
Proof. intros (a & c & an & Hin & Hr) [l ->]. exists a, c, an. split; [|done]. apply elem_of_app. by left. Qed.

Lemma rely_refl i w : rely i w w.
Proof. by split; try done; try lia. Qed.

Lemma rely_trans i w1 w2 w3 : rely i w1 w2 → rely i w2 w3 → rely i w1 w3.
Proof.
  intros Ha Hb. split.
  - etrans; [apply Ha|apply Hb].
  - intros ev Hin. by apply Ha, Hb.
  - by rewrite (rely_lock _ _ _ Ha), (rely_lock _ _ _ Hb).
  - intros Hl. rewrite (rely_denied _ _ _ Hb); [by apply Ha|by apply Ha].
  - intros p d Hp. by apply Hb, Ha.
  - intros key p Hc Hu. eapply Hb; [|by eapply Ha]. destruct (rely_prefix _ _ _ Ha) as [l ->]. apply elem_of_app. by left.
  - intros key p Hc Hr k. eapply Hb; [|by eapply Ha]. destruct (rely_prefix _ _ _ Ha) as [l ->]. apply elem_of_app. by left.
  - etrans; [apply Ha|apply Hb].
  - etrans; [apply Ha|apply Hb].
Qed.

(** * Operations preserve the invariant *)

Definition session_authority (h : history) (key : HostApprovalKey) : Prop :=
  (∃ j, reviewed h j key for_session) ∨ ∃ hosts, Synced hosts ∈ h ∧ key ∈ hosts.

Lemma session_authority_prefix h h' key : session_authority h key → h `prefix_of` h' → session_authority h' key.
Proof.
  intros [[j Hr]|(hosts & Hin & Hk)] Hp; [left; exists j; by eapply reviewed_prefix|right].
  exists hosts. destruct Hp as [l ->]. rewrite elem_of_app. by auto.
Qed.

Lemma label_snoc (l x : Label) (h : history) : l ∈ h ++ [x] ↔ l ∈ h ∨ l = x.
Proof. by rewrite elem_of_app, list_elem_of_singleton. Qed.

Lemma inv_quiet h s s' :
  Inv (h, s) → pending_host_approvals s' = pending_host_approvals s → pending_decisions s' = pending_decisions s →
  session_approved_hosts s' ⊆ session_approved_hosts s → cancelled_tokens s ⊆ cancelled_tokens s' → Inv (h, s').
Proof.
  intros I Em Ed Ha Hc. destruct I. split; unfold undecided in *; cbn [fst snd] in *; rewrite ?Em, ?Ed; try done.
  - intros j o dn t Hp Ht. destruct (inv_denied0 j o dn t Hp Ht); [left; set_solver|by right].
  - intros key Hk. apply inv_cache0. set_solver.
Qed.

(** What an event that creates nothing needs. *)
Definition event_ok (h : history) (s : NetworkApprovalService) (l : Label) : Prop :=
  match l with
  | Ev _ (Created _ _) => False
  | Ev _ (Joined key p) => ∃ j, Ev j (Created key p) ∈ h
  | Ev _ (CacheHit key dn) => key ∉ dn ∧ session_authority h key
  | Ev i (Published o d dn) =>
      Ev i (Created (ow_key o) (ow_pending o)) ∈ h
      ∧ (d ≠ DenyPending → reviewed h i (pk_host (ow_key o)) approves
           ∧ (pk_host (ow_key o) ∈ dn → reviewed h i (pk_host (ow_key o)) is_allow_amendment))
      ∧ (d = DenyPending → ∀ t, ow_execution_cancellation o = Some t → t ∈ cancelled_tokens s ∨ Ev i (Withdrawn ProcessFinished) ∈ h)
  | _ => True
  end.

Ltac snoc_cases := repeat match goal with
  | Hin : _ ∈ _ ++ [_] |- _ => apply label_snoc in Hin as [Hin|Hin]
  end; simplify_eq; try done.

Lemma inv_event h s l : Inv (h, s) → event_ok h s l → Inv (h ++ [l], s).
Proof.
  intros I Hl. assert (h `prefix_of` h ++ [l]) as Hp by (by apply prefix_app_r).
  assert (∀ x, x ∈ h → x ∈ h ++ [l]) as Hs by (intros x Hx; apply label_snoc; by left).
  destruct I. split; unfold undecided in *; cbn [fst snd] in *.
  - intros key p Hk. destruct (inv_map0 key p Hk) as [Hu [j Hj]]. eauto.
  - intros p Hlt. destruct (inv_all0 p Hlt) as (j & key & Hj). eauto.
  - intros j key p Hin. snoc_cases. by eapply inv_created0.
  - intros j j' key key' p Hin Hin'. snoc_cases. by eapply inv_unique0.
  - intros i key p Hin. snoc_cases; [destruct (inv_joined0 i key p Hin) as [j Hj]|destruct Hl as [j Hj]]; eauto.
  - intros p d Hd. destruct (inv_decided0 p d Hd) as (j & o & dn & Hj & Ho). eauto 6.
  - intros j o d dn Hin. snoc_cases; [|by apply Hs, Hl]. apply Hs. by eapply inv_published0.
  - intros j o d dn Hin Hd.
    assert (reviewed h j (pk_host (ow_key o)) approves
      ∧ (pk_host (ow_key o) ∈ dn → reviewed h j (pk_host (ow_key o)) is_allow_amendment)) as [Ha Hn].
    { snoc_cases; [by eapply inv_allowed0|]. by apply Hl. }
    split; [by eapply reviewed_prefix|]. intros Hin'. eapply reviewed_prefix; [by apply Hn|done].
  - intros j o dn t Hin Ht. snoc_cases; [destruct (inv_denied0 j o dn t Hin Ht)|destruct Hl as (_ & _ & Hl); destruct (Hl eq_refl t Ht)]; eauto.
  - intros key Hk. eapply session_authority_prefix; [by apply inv_cache0|done].
  - intros i key dn Hin.
    assert (key ∉ dn ∧ session_authority h key) as [Hk Ha] by (snoc_cases; by eapply inv_hit0).
    split; [done|]. by eapply session_authority_prefix.
Qed.

Lemma inv_insert h s i key :
  Inv (h, s) → reviewed h i key for_session → Inv (h, with_hosts (union {[key]}) id s).
Proof.
  intros I Hr. destruct I. destruct s. split; unfold undecided in *; cbn in *; try done.
  intros k Hk. apply elem_of_union in Hk as [->%elem_of_singleton|Hk]; [left; by exists i|by apply inv_cache0].
Qed.

Lemma inv_remove h s key p : Inv (h, s) → Inv (h, remove_generation key p s).
Proof.
  intros I. unfold remove_generation. case_bool_decide; [|done]. destruct I. destruct s. split; unfold undecided in *; cbn in *; try done.
  intros key' p' Hk. apply lookup_delete_Some in Hk as [_ Hk]. by apply inv_map0.
Qed.

Lemma inv_decide h s j o d dn :
  Inv (h, s) → Ev j (Published o d dn) ∈ h → undecided (ow_pending o) (h, s) →
  (∀ key, pending_host_approvals s !! key ≠ Some (ow_pending o)) → Inv (h, set_decision (ow_pending o) d s).
Proof.
  intros I Hp Hu Hm. unfold set_decision. unfold undecided in Hu. cbn [snd] in Hu. rewrite Hu. clear Hu.
  destruct I. destruct s. split; unfold undecided in *; cbn in *; rewrite ?length_insert; try done.
  - intros key p Hk. destruct (inv_map0 key p Hk) as [Hu Hj]. split; [|done].
    rewrite list_lookup_insert_ne; [done|]. intros <-. by apply (Hm key).
  - intros p d' Hd. apply list_lookup_insert_Some in Hd as [(<- & [= <-] & _)|[_ Hd]]; [by eauto|by apply inv_decided0].
Qed.

Lemma inv_create h s i key :
  Inv (h, s) → pending_host_approvals s !! key = None →
  let p := length (pending_decisions s) in
  Inv (h ++ [Ev i (Created key p)], with_pending <[key := p]> (λ d, d ++ [None]) s).
Proof.
  intros I Hk p. assert (h `prefix_of` h ++ [Ev i (Created key p)]) as Hp by (by apply prefix_app_r).
  assert (∀ x, x ∈ h → x ∈ h ++ [Ev i (Created key p)]) as Hs by (intros x Hx; apply label_snoc; by left).
  destruct I. destruct s as [c os m ds lk a n t x f]. cbn [pending_decisions pending_host_approvals] in *. subst p.
  split; unfold undecided in *; cbn in *; rewrite ?length_app; cbn [length].
  - intros key' p Hk'. apply lookup_insert_Some in Hk' as [[<- <-]|[_ Hk']].
    + split; [by rewrite list_lookup_middle|]. exists i. rewrite label_snoc. by right.
    + destruct (inv_map0 key' p Hk') as [Hu [j Hj]]. split; [|eauto]. apply lookup_app_l_Some. done.
  - intros p Hlt. destruct (decide (p = length ds)) as [->|Hne]; [exists i, key; rewrite label_snoc; by right|].
    destruct (inv_all0 p) as (j & k & Hj); [lia|eauto].
  - intros j k p Hin. snoc_cases; [|lia]. specialize (inv_created0 _ _ _ Hin). lia.
  - intros j j' k k' p Hin Hin'. snoc_cases.
    + by eapply inv_unique0.
    + apply inv_created0 in Hin'. lia.
    + apply inv_created0 in Hin. lia.
  - intros j k p Hin. snoc_cases. destruct (inv_joined0 j k p Hin) as [j' Hj]. eauto.
  - intros p d Hd. rewrite lookup_snoc_Some in Hd. destruct Hd as [[_ Hd]|[_ [=]]].
    destruct (inv_decided0 p d Hd) as (j & o & dn & Hj & Ho). eauto 6.
  - intros j o d dn Hin. snoc_cases. eauto.
  - intros j o d dn Hin Hd. snoc_cases. destruct (inv_allowed0 j o d dn Hin Hd) as [Ha Hn].
    split; [by eapply reviewed_prefix|]. intros Hin'. eapply reviewed_prefix; [by apply Hn|done].
  - intros j o dn u Hin Hu. snoc_cases. destruct (inv_denied0 j o dn u Hin Hu); eauto.
  - intros k Hk'. eapply session_authority_prefix; [by apply inv_cache0|done].
  - intros j k dn Hin. snoc_cases. destruct (inv_hit0 j k dn Hin) as [Hk' Ha]. split; [done|]. by eapply session_authority_prefix.
Qed.

(** The operations that change none of the invariant's parts, or only shrink them. *)
Definition quiet {R} (e : op R) : bool :=
  match e with
  | ApprovedInsert _ | GetOrCreatePending _ | RemoveGeneration _ _ | SetDecision _ _ => false
  | _ => true
  end.

Ltac run_effect Heff :=
  unfold effect in Heff; cbn in Heff;
  unfold store_call_outcome, store_call_outcome_if_absent, finish_once, remove_call, register_call,
    get_or_create_pending_approval, remove_generation, set_decision in Heff; cbn in Heff;
  try (apply bind_Some in Heff as (? & ? & Heff)); try (destruct Heff as (_ & -> & ->)); repeat case_match; simplify_eq; cbn in *.

Lemma effect_quiet {R} i (e : op R) s g r s' g' :
  quiet e = true → effect i e s g r s' g' →
  pending_host_approvals s' = pending_host_approvals s ∧ pending_decisions s' = pending_decisions s
  ∧ session_approved_hosts s' ⊆ session_approved_hosts s ∧ cancelled_tokens s ⊆ cancelled_tokens s'.
Proof.
  intros Hq Heff. destruct s. revert r Heff. destruct e; intros r Heff; try discriminate Hq; run_effect Heff; split_and!; set_solver.
Qed.

Lemma step_inv {R} i (e : op R) h s g r s' g' :
  Inv (h, s) → pre i e (h, s) g → effect i e s g r s' g' → Inv (h ++ (Ev i <$> observe e s g r), s').
Proof.
  intros I Hpre Heff. destruct (quiet e) eqn:Hq.
  - destruct (effect_quiet i e s g r s' g' Hq Heff) as (Em & Ed & Ha & Hc). eapply inv_quiet; [|exact Em|exact Ed|exact Ha|exact Hc].
    clear Em Ed Ha Hc. revert r Heff. destruct e; intros r Heff; try discriminate Hq; cbn [observe fmap list_fmap] in *; try (by rewrite app_nil_r).
    + unfold effect in Heff. cbn in Heff. simplify_eq. case_bool_decide; cbn; [|by rewrite app_nil_r].
      apply inv_event; [done|]. split; [exact Hpre|]. by apply I.
    + destruct r; cbn; [|by rewrite app_nil_r]. by apply inv_event.
    + destruct r as [[answer|]|]; cbn; try (by rewrite app_nil_r). by apply inv_event.
  - revert r Heff. destruct e; try discriminate Hq; intros r Heff; unfold effect in Heff; cbn in Heff; cbn [observe].
    + simplify_eq. cbn [fmap list_fmap]. rewrite app_nil_r. by eapply inv_insert, Hpre.
    + unfold get_or_create_pending_approval in Heff. destruct (pending_host_approvals s !! key) as [p|] eqn:Ek; simplify_eq; cbn.
      * apply inv_event; [done|]. by apply (inv_map _ I key p).
      * by apply inv_create.
    + simplify_eq. cbn. rewrite app_nil_r. by apply inv_remove.
    + simplify_eq. destruct Hpre as (o & -> & <- & Hc & Hu & Hm & Ha & Hd). cbn.
      apply (inv_decide _ _ i o d (session_denied_hosts s)); [|apply label_snoc; by right|exact Hu|exact Hm].
      apply inv_event; [done|]. split; [done|]. split; [exact Ha|exact Hd].
Qed.

Lemma own_events i j (evs : list Event) (h : history) ev : i ≠ j → Ev i ev ∈ h ++ (Ev j <$> evs) → Ev i ev ∈ h.
Proof. intros Hne [Hin|(x & [= -> <-] & _)%list_elem_of_fmap]%elem_of_app; done. Qed.

Lemma effect_lock {R} j (e : op R) h s g r s' g' :
  pre j e (h, s) g → effect j e s g r s' g' →
  commit_lock s' = commit_lock s ∨ (commit_lock s = None ∧ commit_lock s' = Some j) ∨ (commit_lock s = Some j ∧ commit_lock s' = None).
Proof.
  intros Hpre Heff. destruct s. revert r Heff. destruct e; intros r Heff; run_effect Heff; auto.
Qed.

Lemma effect_denied {R} j (e : op R) h s g r s' g' :
  pre j e (h, s) g → effect j e s g r s' g' → session_denied_hosts s' = session_denied_hosts s ∨ commit_lock s = Some j.
Proof.
  intros Hpre Heff. destruct s. revert r Heff. destruct e; intros r Heff; run_effect Heff; auto.
Qed.

(** What an operation of another task leaves of the reviews and tokens. *)
Lemma effect_pending {R} i j (e : op R) h s g r s' g' :
  i ≠ j → Inv (h, s) → pre j e (h, s) g → effect j e s g r s' g' →
  (∀ p d, pending_decisions s !! p = Some (Some d) → pending_decisions s' !! p = Some (Some d))
  ∧ (∀ key p, Ev i (Created key p) ∈ h → undecided p (h, s) → pending_decisions s' !! p = Some None)
  ∧ (∀ key p, Ev i (Created key p) ∈ h → (∀ k, pending_host_approvals s !! k ≠ Some p) → ∀ k, pending_host_approvals s' !! k ≠ Some p)
  ∧ length (pending_decisions s) ≤ length (pending_decisions s') ∧ cancelled_tokens s ⊆ cancelled_tokens s'.
Proof.
  intros Hne I Hpre Heff. unfold undecided. cbn [snd]. destruct (quiet e) eqn:Hq.
  { destruct (effect_quiet j e s g r s' g' Hq Heff) as (Em & Ed & _ & Hc). rewrite Em, Ed. by split_and!; eauto. }
  revert r Heff. destruct e; try discriminate Hq; intros r Heff; unfold effect in Heff; cbn in Heff.
  - simplify_eq. destruct s. by split_and!; eauto.
  - unfold get_or_create_pending_approval in Heff. destruct (pending_host_approvals s !! key) as [p|] eqn:Ek; simplify_eq; [by split_and!; eauto|].
    pose proof (inv_created _ I) as Hlt. cbn [fst snd] in Hlt. destruct s as [c os m ds lk a n t x f]; cbn in *. rewrite length_app. split_and!; try done; try lia.
    + intros p d Hd. by apply lookup_app_l_Some.
    + intros k p _ Hd. by apply lookup_app_l_Some.
    + intros k p Hc Hk k' [[<- <-]|[_ Hk']]%lookup_insert_Some; [|by eapply Hk]. specialize (Hlt _ _ _ Hc). lia.
  - simplify_eq. unfold remove_generation. case_bool_decide; [|by split_and!; eauto]. destruct s; cbn in *. split_and!; try done.
    intros k p Hc Hk k' [_ Hk']%lookup_delete_Some. by eapply Hk.
  - simplify_eq. destruct Hpre as (o & -> & <- & Hc & Hu & _). unfold undecided, set_decision in *. cbn [snd] in Hu. rewrite Hu.
    pose proof (inv_unique _ I) as Hun. cbn [fst] in Hun. destruct s as [c os m ds lk a n t x f]; cbn in *. rewrite length_insert. split_and!; try done.
    + intros p d' Hd. rewrite list_lookup_insert_ne; [done|]. intros <-. by rewrite Hu in Hd.
    + intros k p Hc' Hd. rewrite list_lookup_insert_ne; [done|]. intros <-. by destruct (Hun _ _ _ _ _ Hc' Hc).
Qed.

Lemma effect_rely {R} i j (e : op R) h s g r s' g' :
  i ≠ j → Inv (h, s) → pre j e (h, s) g → effect j e s g r s' g' → rely i (h, s) (h ++ (Ev j <$> observe e s g r), s').
Proof.
  intros Hne I Hpre Heff. destruct (effect_pending i j e h s g r s' g' Hne I Hpre Heff) as (Hd & Hu & Hr & Hl & Hc).
  split; cbn [fst snd]; try done.
  - by apply prefix_app_r.
  - intros ev. by apply own_events.
  - destruct (effect_lock j e h s g r s' g' Hpre Heff) as [->|[[-> ->]|[-> ->]]]; [done|split; naive_solver..].
  - intros Hlk. destruct (effect_denied j e h s g r s' g' Hpre Heff) as [->|Hlj]; [done|]. naive_solver.
Qed.

(** * A logic for one task among others *)

(** What only grows. *)
Record grow w w' : Prop := {
  grow_prefix : w.1 `prefix_of` w'.1;
  grow_decided p d : pending_decisions w.2 !! p = Some (Some d) → pending_decisions w'.2 !! p = Some (Some d);
  grow_cancelled : cancelled_tokens w.2 ⊆ cancelled_tokens w'.2
}.

Lemma grow_refl w : grow w w.
Proof. by split. Qed.

Lemma grow_trans w1 w2 w3 : grow w1 w2 → grow w2 w3 → grow w1 w3.
Proof.
  intros [a b c] [a' b' c']. split; [by etrans|intros p d Hd; by apply b', b|by etrans].
Qed.

Lemma grow_in w w' l : grow w w' → l ∈ w.1 → l ∈ w'.1.
Proof. intros [[x Hx] _ _] Hin. rewrite Hx. apply elem_of_app. by left. Qed.

Lemma rely_grow i w w' : rely i w w' → grow w w'.
Proof. intros []. by split. Qed.

Lemma grow_reviewed w w' j key ok : grow w w' → reviewed w.1 j key ok → reviewed w'.1 j key ok.
Proof. intros [Hp _ _] Hr. by eapply reviewed_prefix. Qed.

(** The world after an operation. *)
Definition after {R} i (e : op R) w g (r : R) (s' : NetworkApprovalService) : world := (w.1 ++ (Ev i <$> observe e w.2 g r), s').

Lemma effect_grow {R} i (e : op R) w g r s' g' : Inv w → pre i e w g → effect i e w.2 g r s' g' → grow w (after i e w g r s').
Proof.
  intros I Hpre Heff. destruct w as [h s].
  destruct (effect_pending (S i) i e h s g r s' g') as (Hd & _ & _ & _ & Hc); [lia|done..|]. split; [by apply prefix_app_r|exact Hd|exact Hc].
Qed.

(** [safe i D Q p g w]: from [w] and guard [g], whatever the other tasks do between its operations,
    task [i] may run [p]: each operation is allowed, where it awaits [D] holds, so that it may be
    dropped there, and it returns with [Q]. *)
Fixpoint safe {A} i (D : world → guard → Prop) (Q : world → guard → A → Prop) (p : prog A) g w : Prop :=
  match p with
  | Ret a => Q w g a
  | Panic => False
  | Ask e k => ∀ w', rely i w w' → Inv w' →
      pre i e w' g ∧ (awaits e = true → D w' g)
      ∧ ∀ r s' g', effect i e w'.2 g r s' g' → Inv (after i e w' g r s') → safe i D Q (k r) g' (after i e w' g r s')
  end.

Lemma safe_bind {A B} i D Q Q' (p : prog A) (f : A → prog B) g w :
  safe i D Q p g w → (∀ w' g' a, grow w w' → Q w' g' a → safe i D Q' (f a) g' w') → safe i D Q' (io_bind p f) g w.
Proof.
  revert g w. induction p as [a| |R e k IH]; intros g w; cbn [safe io_bind]; [|done|].
  - intros Hq Hf. apply Hf; [apply grow_refl|done].
  - intros Hk Hf w' Hr I. destruct (Hk w' Hr I) as (Hpre & Hd & Hk'). split; [done|]. split; [done|].
    intros r s' g' Heff I'. apply IH; [by apply Hk'|]. intros w'' g'' a Hg. apply Hf.
    eapply grow_trans; [by eapply rely_grow|]. eapply grow_trans; [by eapply effect_grow|done].
Qed.

Lemma safe_mono {A} i D Q Q' (p : prog A) g w :
  safe i D Q p g w → (∀ w' g' a, grow w w' → Q w' g' a → Q' w' g' a) → safe i D Q' p g w.
Proof.
  revert g w. induction p as [a| |R e k IH]; intros g w; cbn [safe]; [|done|].
  - intros Hq Hm. apply Hm; [apply grow_refl|done].
  - intros Hk Hm w' Hr I. destruct (Hk w' Hr I) as (Hpre & Hd & Hk'). split; [done|]. split; [done|].
    intros r s' g' Heff I'. apply IH; [by apply Hk'|]. intros w'' g'' a Hg. apply Hm.
    eapply grow_trans; [by eapply rely_grow|]. eapply grow_trans; [by eapply effect_grow|done].
Qed.

Lemma safe_rely {A} i D Q (p : prog A) g w w' :
  (∀ a, Q w g a → Q w' g a) → rely i w w' → safe i D Q p g w → safe i D Q p g w'.
Proof.
  intros Hq Hr. destruct p as [a| |R e k]; cbn [safe]; [apply Hq|done|].
  intros Hk w'' Hr'. apply Hk. by eapply rely_trans.
Qed.

(** ** What a task knows *)

Section task.
Context (i : nat).

Definition locks (lk : bool) w : Prop := bool_decide (commit_lock w.2 = Some i) = lk.

(** Before it has created a review. *)
Definition idle (lk : bool) w g : Prop := g = None ∧ locks lk w ∧ ∀ key p, Ev i (Created key p) ∉ w.1.

(** While it owns one, with the decision [dd] for the case that it is dropped. *)
Definition owning (o : PendingHostApprovalOwner) (lk : bool) (dd : PendingApprovalDecision) w g : Prop :=
  g = Some (set_decision_on_drop dd o) ∧ locks lk w ∧ undecided (ow_pending o) w
  ∧ Ev i (Created (ow_key o) (ow_pending o)) ∈ w.1 ∧ ∀ key p, Ev i (Created key p) ∈ w.1 → p = ow_pending o.

(** After it has decided it. *)
Definition settled (lk : bool) w g : Prop :=
  g = None ∧ locks lk w ∧ ∀ key p, Ev i (Created key p) ∈ w.1 → ∃ d, pending_decisions w.2 !! p = Some (Some d).

(** The operations that change neither the lock nor what the task owns. *)
Definition plain {R} (e : op R) : bool :=
  match e with
  | LockCommit | UnlockCommit | GetOrCreatePending _ | SetDecision _ _ | NewOwner _ | SetDecisionOnDrop _ => false
  | _ => true
  end.

Lemma effect_plain {R} (e : op R) w g r s' g' :
  plain e = true → effect i e w.2 g r s' g' →
  g' = g ∧ commit_lock s' = commit_lock w.2 ∧ pending_decisions s' = pending_decisions w.2
  ∧ ∀ key p, Ev i (Created key p) ∈ (after i e w g r s').1 → Ev i (Created key p) ∈ w.1.
Proof.
  intros Hp Heff. destruct w as [h s]. cbn [fst snd] in *.
  assert (∀ key p, Created key p ∉ observe e s g r) as Hn.
  { revert r Heff. destruct e; intros r Heff key' p'; try discriminate Hp; cbn; repeat case_match; set_solver. }
  assert (g' = g ∧ commit_lock s' = commit_lock s ∧ pending_decisions s' = pending_decisions s) as (-> & El & Ed).
  { destruct s. clear Hn. revert r Heff. destruct e; intros r Heff; try discriminate Hp; run_effect Heff; done. }
  split; [done|]. split; [done|]. split; [done|]. intros key p [Hin|(x & [= <-] & Hx)%list_elem_of_fmap]%elem_of_app; [done|]. by apply Hn in Hx.
Qed.

(** Knowledge that other tasks and plain operations keep. *)
Record kept (K : world → guard → Prop) : Prop := {
  kept_rely w w' g : rely i w w' → K w g → K w' g;
  kept_plain w s' h' g : Inv w → K w g → commit_lock s' = commit_lock w.2 → pending_decisions s' = pending_decisions w.2 →
    w.1 `prefix_of` h' → (∀ key p, Ev i (Created key p) ∈ h' → Ev i (Created key p) ∈ w.1) → K (h', s') g
}.

Lemma locks_rely lk w w' : rely i w w' → locks lk w → locks lk w'.
Proof. intros Hr <-. unfold locks. apply bool_decide_ext. symmetry. apply Hr. Qed.

Lemma idle_kept lk : kept (idle lk).
Proof.
  split.
  - intros w w' g Hr (-> & Hl & Hn). split; [done|]. split; [by eapply locks_rely|]. intros key p Hin. by eapply Hn, Hr.
  - intros w s' h' g _ (-> & Hl & Hn) El _ _ Ho. split; [done|]. split; [unfold locks in *; cbn; by rewrite El|]. intros key p Hin. by eapply Hn, Ho.
Qed.

Lemma owning_kept o lk dd : kept (owning o lk dd).
Proof.
  split.
  - intros w w' g Hr (-> & Hl & Hu & Hc & Ho). split; [done|]. split; [by eapply locks_rely|]. split; [by eapply Hr|].
    split; [eapply grow_in; [by eapply rely_grow|done]|]. intros key p Hin. by eapply Ho, Hr.
  - intros w s' h' g _ (-> & Hl & Hu & Hc & Ho) El Ed [l Hp] Hn. split; [done|]. split; [unfold locks in *; cbn; by rewrite El|].
    split; [unfold undecided in *; cbn; by rewrite Ed|]. split; [cbn; rewrite Hp; apply elem_of_app; by left|].
    intros key p Hin. by eapply Ho, Hn.
Qed.

Lemma settled_kept lk : kept (settled lk).
Proof.
  split.
  - intros w w' g Hr (-> & Hl & Hn). split; [done|]. split; [by eapply locks_rely|]. intros key p Hin.
    destruct (Hn key p) as [d Hd]; [by apply Hr|]. exists d. by apply Hr.
  - intros w s' h' g _ (-> & Hl & Hn) El Ed _ Ho. split; [done|]. split; [unfold locks in *; cbn; by rewrite El|]. intros key p Hin.
    cbn. rewrite Ed. by eapply Hn, Ho.
Qed.

Lemma safe_plain {R} D K Q (e : op R) g w :
  kept K → plain e = true → K w g →
  (∀ w', grow w w' → Inv w' → K w' g → pre i e w' g ∧ (awaits e = true → D w' g)) →
  (∀ w' r s', grow w w' → Inv w' → K w' g → effect i e w'.2 g r s' g → let w'' := after i e w' g r s' in
     grow w w'' → Inv w'' → K w'' g → Q w'' g r) →
  safe i D Q (call e) g w.
Proof.
  intros HK Hp Hk Hpre Hq w' Hr I. pose proof (kept_rely K HK _ _ _ Hr Hk) as Hk'. pose proof (rely_grow _ _ _ Hr) as Hg.
  destruct (Hpre w' Hg I Hk') as [Hpre' Hd]. split; [done|]. split; [done|]. intros r s' g' Heff I'.
  destruct (effect_plain e w' g r s' g' Hp Heff) as (-> & El & Ed & Ho).
  assert (grow w' (after i e w' g r s')) as Hg' by (by eapply effect_grow).
  cbn [safe]. apply (Hq w' r s' Hg I Hk' Heff (grow_trans _ _ _ Hg Hg') I').
  by apply (kept_plain K HK w' s'); try apply Hg'.
Qed.

(** The same for an operation whose answer does not matter. *)
Lemma safe_keep {R} D K (e : op R) g w :
  kept K → plain e = true → K w g →
  (∀ w', grow w w' → Inv w' → K w' g → pre i e w' g ∧ (awaits e = true → D w' g)) →
  safe i D (λ w' g' _, K w' g' ∧ g' = g) (call e) g w.
Proof. intros HK Hp Hk Hpre. by eapply safe_plain. Qed.
End task.
