(* ===== verification/ApprovalSafety.v ===== *)
(** What the concurrent network reviews of [ApprovalSystem] guarantee, by following each program
    of [NetworkApproval] with what its task knows between its operations. *)
From S2P Require Import Prelude Str Truncate NetworkDomain NetworkPolicy ApprovalTypes PermissionProfile Orchestrator ExecPolicy NetworkApproval ApprovalSystem.

Section programs.
Context (i : nat).
Implicit Types (w : history * NetworkApprovalService) (g : option PendingHostApprovalOwner) (D : history * NetworkApprovalService → option PendingHostApprovalOwner → Prop).

(** * The commit lock *)

Record lockable (F : bool → history * NetworkApprovalService → option PendingHostApprovalOwner → Prop) : Prop := {
  lockable_kept lk : kept i (F lk);
  lockable_locks lk w g : F lk w g → locks i lk w;
  lockable_change lk lk' w s' g : F lk w g → (bool_decide (commit_lock s' = Some i) = lk') →
    pending_decisions s' = pending_decisions w.2 → F lk' (w.1, s') g
}.

Lemma idle_lockable : lockable (idle i).
Proof.
  split; [apply idle_kept|by intros lk w g (_ & Hl & _)|]. intros lk lk' w s' g (-> & _ & Hn) Hl _. by split_and!.
Qed.

Lemma owning_lockable o dd : lockable (λ lk, owning i o lk dd).
Proof.
  split; [intros; apply owning_kept|by intros lk w g (_ & Hl & _)|]. intros lk lk' w s' g (-> & _ & Hu & Hc & Ho) Hl Ed.
  split_and!; try done. unfold undecided in *. cbn. by rewrite Ed.
Qed.

Lemma settled_lockable : lockable (settled i).
Proof.
  split; [apply settled_kept|by intros lk w g (_ & Hl & _)|]. intros lk lk' w s' g (-> & _ & Hn) Hl Ed.
  split_and!; try done. cbn. by rewrite Ed.
Qed.

Lemma safe_lock F D g w :
  lockable F → F false w g → (∀ w', grow w w' → F false w' g → D w' g) →
  safe i D (λ w' g' _, F true w' g' ∧ g' = g) (call LockCommit) g w.
Proof.
  intros HF Hf Hd w' Hr I. pose proof (kept_rely _ _ (lockable_kept F HF false) _ _ _ Hr Hf) as Hf'.
  pose proof (lockable_locks F HF _ _ _ Hf') as Hl. unfold locks in Hl. apply bool_decide_eq_false in Hl.
  split; [done|]. split; [intros _; apply Hd; [by eapply rely_grow|done]|]. intros r s' g' Heff I'.
  unfold effect in Heff. cbn in Heff. case_match; simplify_eq. cbn [safe]. split; [|done]. unfold after. cbn. rewrite app_nil_r.
  destruct w' as [h [c os m ds lk a n t x f]]. eapply (lockable_change F HF false true (h, _)); [exact Hf'|by apply bool_decide_eq_true|done].
Qed.

Lemma safe_unlock F D g w :
  lockable F → F true w g → safe i D (λ w' g' _, F false w' g' ∧ g' = g) (call UnlockCommit) g w.
Proof.
  intros HF Hf w' Hr I. pose proof (kept_rely _ _ (lockable_kept F HF true) _ _ _ Hr Hf) as Hf'.
  pose proof (lockable_locks F HF _ _ _ Hf') as Hl. unfold locks in Hl. apply bool_decide_eq_true in Hl.
  split; [done|]. split; [done|]. intros r s' g' Heff I'.
  unfold effect in Heff. cbn in Heff. simplify_eq. cbn [safe]. split; [|done]. unfold after. cbn. rewrite app_nil_r.
  destruct w' as [h [c os m ds lk a n t x f]]. eapply (lockable_change F HF true false (h, _)); [exact Hf'|by apply bool_decide_eq_false|done].
Qed.

(** * Outcomes of calls *)

Section outcomes.
Context (K : history * NetworkApprovalService → option PendingHostApprovalOwner → Prop) (HK : kept i K).

Definition keeps {A} D (p : prog A) : Prop := ∀ w g, K w g → safe i D (λ w' g' _, K w' g' ∧ g' = g) p g w.

Lemma cancel_some_safe D t w g :
  K w g → safe i D (λ w' g' _, (K w' g' ∧ g' = g) ∧ ∀ t', t = Some t' → t' ∈ cancelled_tokens w'.2) (cancel_some t) g w.
Proof.
  intros Hk. destruct t as [t|]; cbn [cancel_some]; [|by split].
  eapply (safe_plain i D K); try done. intros w' r s' _ _ _ Heff w'' _ _ Hk'. split; [done|]. intros ? [= <-].
  unfold effect in Heff. cbn in Heff. simplify_eq. destruct w' as [h []]. cbn. set_solver.
Qed.

Lemma record_call_outcome_keeps D registration_id outcome : keeps D (record_call_outcome registration_id outcome).
Proof.
  intros w g Hk. eapply safe_bind; [by eapply safe_keep|]. intros w' g' t _ [Hk' ->].
  eapply safe_mono; [by apply cancel_some_safe|]. by intros w'' g'' ? _ [? _].
Qed.

Lemma record_call_outcome_if_absent_keeps D registration_id outcome : keeps D (record_call_outcome_if_absent registration_id outcome).
Proof.
  intros w g Hk. eapply safe_bind; [by eapply safe_keep|]. intros w' g' t _ [Hk' ->].
  eapply safe_mono; [by apply cancel_some_safe|]. by intros w'' g'' ? _ [? _].
Qed.

Lemma record_for_keeps D owner outcome : keeps D (record_for owner outcome).
Proof. intros w g Hk. destruct owner; [by apply record_call_outcome_keeps|by split]. Qed.

Lemma store_denial_keeps D owner answer : keeps D (store_denial owner answer).
Proof.
  intros w g Hk. unfold store_denial. destruct owner; [|by split]. destruct (is_deny_amendment answer); [|by split].
  eapply safe_bind; [by eapply safe_keep|]. intros w' g' t _ [Hk' ->]. by split.
Qed.

(** An operation from outside at which the task may be dropped. *)
Lemma ask_keeps {R} D (e : op R) w g :
  asks e = true → K w g → (∀ w', grow w w' → Inv w' → K w' g → pre i e w' g ∧ (awaits e = true → D w' g)) →
  safe i D (λ w' g' _, K w' g' ∧ g' = g) (call e) g w.
Proof. intros Ha Hk Hpre. eapply safe_keep; try done. by destruct e. Qed.
End outcomes.

(** * Publishing a decision *)

(** What a decision needs; [denied] are the hosts denied when it is published. *)
Definition publishable (o : PendingHostApprovalOwner) (d : PendingApprovalDecision) (h : history) (denied : gset HostApprovalKey) : Prop :=
  d ≠ DenyPending → reviewed h i (pk_host (ow_key o)) approves
    ∧ (pk_host (ow_key o) ∈ denied → reviewed h i (pk_host (ow_key o)) is_allow_amendment).

Definition cancelled_for (o : PendingHostApprovalOwner) (d : PendingApprovalDecision) w : Prop :=
  d = DenyPending → ∀ t, ow_execution_cancellation o = Some t → t ∈ cancelled_tokens w.2 ∨ Ev i (Withdrawn ProcessFinished) ∈ w.1.

Lemma publishable_prefix o d h h' denied : publishable o d h denied → h `prefix_of` h' → publishable o d h' denied.
Proof.
  intros Hp Hh Hd. destruct (Hp Hd) as [Ha Hn]. split; [by eapply reviewed_prefix|]. intros Hin. eapply reviewed_prefix; [by apply Hn|done].
Qed.

Lemma cancelled_for_grow o d w w' : grow w w' → cancelled_for o d w → cancelled_for o d w'.
Proof.
  intros Hg Hc Hd t Ht. destruct (Hc Hd t Ht) as [Hin|Hin]; [left|right; by eapply grow_in].
  by apply (grow_cancelled _ _ Hg).
Qed.

(** Removing a generation leaves no entry for it. *)
Lemma remove_generation_gone w key p s' :
  Inv w → Ev i (Created key p) ∈ w.1 → s' = remove_generation key p w.2 → ∀ k, pending_host_approvals s' !! k ≠ Some p.
Proof.
  intros I Hc -> k. unfold remove_generation. destruct w as [h s]. cbn [fst snd] in *.
  assert (∀ k', pending_host_approvals s !! k' = Some p → k' = key) as Hk.
  { intros k' Hk'. destruct (inv_map _ I k' p Hk') as [_ [j Hj]]. by destruct (inv_unique _ I _ _ _ _ _ Hj Hc). }
  case_bool_decide as Hb.
  - destruct s. cbn in *. intros [Hne Hk']%lookup_delete_Some. by apply Hne, eq_sym, Hk.
  - intros Hk'. by rewrite (Hk k Hk') in Hk'.
Qed.

Lemma publish_safe D o lk dd d w g :
  owning i o lk dd w g → cancelled_for o d w →
  (∀ denied, (lk = true → denied = session_denied_hosts w.2) → publishable o d w.1 denied) →
  safe i D (λ w' g' _, settled i lk w' g' ∧ ∃ dn, Ev i (Published (set_decision_on_drop dd o) d dn) ∈ w'.1) (publish_and_remove o d) g w.
Proof.
  intros Ho Hc Hp w1 Hr1 I1. pose proof (kept_rely _ _ (owning_kept i o lk dd) _ _ _ Hr1 Ho) as Ho1.
  split; [apply Ho1|]. split; [done|]. intros r1 s1 g1 Heff1 I1'.
  destruct (effect_plain i (RemoveGeneration (ow_key o) (ow_pending o)) w1 g r1 s1 g1 eq_refl Heff1) as (-> & El & Ed & Hn1).
  assert (s1 = remove_generation (ow_key o) (ow_pending o) w1.2) as Es by (unfold effect in Heff1; cbn in Heff1; by simplify_eq).
  assert (∀ k, pending_host_approvals s1 !! k ≠ Some (ow_pending o)) as Hgone by (eapply remove_generation_gone; [exact I1|apply Ho1|exact Es]).
  assert (session_denied_hosts s1 = session_denied_hosts w1.2) as Edn.
  { rewrite Es. unfold remove_generation. case_bool_decide; [|done]. destruct w1 as [h []]. done. }
  unfold after in *. cbn [observe fmap list_fmap] in *. rewrite app_nil_r in *. cbn [safe call io_bind].
  intros w2 Hr2 I2.
  assert (owning i o lk dd (w1.1, s1) g) as Ho1'.
  { apply (kept_plain _ _ (owning_kept i o lk dd) w1 s1 w1.1 g I1 Ho1 El Ed); [done|exact Hn1]. }
  pose proof (kept_rely _ _ (owning_kept i o lk dd) _ _ _ Hr2 Ho1') as Ho2.
  assert (grow w w2) as Hg.
  { eapply grow_trans; [by eapply rely_grow|]. eapply grow_trans; [|by eapply rely_grow]. split; cbn; [done|by rewrite Ed|].
    rewrite Es. unfold remove_generation. case_bool_decide; [|done]. by destruct w1 as [h []]. }
  assert (lk = true → session_denied_hosts w2.2 = session_denied_hosts w.2) as Edn2.
  { intros ->. rewrite (rely_denied _ _ _ Hr2); [cbn; rewrite Edn; apply (rely_denied _ _ _ Hr1)|].
    - destruct Ho as (_ & Hl & _). by apply bool_decide_eq_true in Hl.
    - destruct Ho1' as (_ & Hl & _). by apply bool_decide_eq_true in Hl. }
  assert (∀ k, pending_host_approvals w2.2 !! k ≠ Some (ow_pending o)) as Hgone2.
  { eapply (rely_removed _ _ _ Hr2); [apply Ho1'|done]. }
  destruct Ho2 as (-> & Hl & Hu & Hcr & Hon). destruct o as [key p ec dis ca dd0]. cbn in *. split.
  { exists (mkOwner key p ec dis ca dd). split_and!; try done.
    - apply (publishable_prefix (mkOwner key p ec dis ca dd0) d w.1); [by apply Hp|apply Hg].
    - by apply (cancelled_for_grow (mkOwner key p ec dis ca dd0) d w). }
  split; [done|]. intros r2 s2 g2 Heff2 I2'. unfold effect in Heff2. cbn in Heff2. simplify_eq. cbn. split; [|exists (session_denied_hosts w2.2); apply label_snoc; by right].
  destruct w2 as [h [c os m ds l a n t x f]]. unfold set_decision, undecided, locks in *. cbn in *. rewrite Hu. split; [done|]. split; [done|].
  intros key' p' [Hin|[=]]%label_snoc. rewrite (Hon _ _ Hin). exists d. cbn. apply list_lookup_insert_eq. by eapply lookup_lt_Some.
Qed.

Lemma complete_safe D o lk dd d w g :
  owning i o lk dd w g → (∀ denied, (lk = true → denied = session_denied_hosts w.2) → publishable o d w.1 denied) →
  safe i D (λ w' g' _, settled i lk w' g' ∧ ∃ dn, Ev i (Published (set_decision_on_drop dd o) d dn) ∈ w'.1) (complete o d) g w.
Proof.
  intros Ho Hp. unfold complete, cancel_execution_if_denied. destruct d; [by apply publish_safe..|].
  eapply safe_bind; [by apply (cancel_some_safe _ (owning_kept i o lk dd))|]. intros w' g' _ _ [[Ho' ->] Hc].
  apply publish_safe; [done| |by intros denied _ []]. intros _ t Ht. left. by apply Hc.
Qed.

Lemma owning_set o lk dd w g : owning i o lk dd w g → owning i (set_decision_on_drop dd o) lk dd w g.
Proof. by destruct o. Qed.

Lemma reviewed_weaken h j key (ok ok' : ReviewDecision → bool) :
  (∀ a, ok a = true → ok' a = true) → reviewed h j key ok → reviewed h j key ok'.
Proof. intros Ho (a & c & an & Hin & Hok & Hr). exists a, c, an. split; [done|]. split; [by apply Ho|done]. Qed.

Lemma allow_amendment_approves a : is_allow_amendment a = true → approves a = true.
Proof. by destruct a. Qed.
Lemma allow_amendment_for_session a : is_allow_amendment a = true → for_session a = true.
Proof. by destruct a. Qed.

Lemma amended_publishable o d h denied : (d ≠ DenyPending → reviewed h i (pk_host (ow_key o)) is_allow_amendment) → publishable o d h denied.
Proof.
  intros Hr Hd. split; [|intros _; by apply Hr]. eapply reviewed_weaken; [apply allow_amendment_approves|by apply Hr].
Qed.

(** * Dropping a task *)

Lemma cancellation_reason_safe D o lk dd w g :
  owning i o lk dd w g →
  safe i D (λ w' g' r, (owning i o lk dd w' g' ∧ g' = g) ∧ (r = Some ProcessFinished → Ev i (Withdrawn ProcessFinished) ∈ w'.1))
    (if ow_cancellation o then call CancellationReason else Ret None) g w.
Proof.
  intros Ho. destruct (ow_cancellation o); [|by split].
  eapply (safe_plain i D (owning i o lk dd)); try done; [apply owning_kept|]. intros w' r s' _ _ _ _ w'' _ _ Ho'. split; [done|].
  intros ->. cbn. apply label_snoc. by right.
Qed.

Lemma drop_owner_safe D o dd w g :
  owning i o false dd w g → (dd ≠ DenyPending → reviewed w.1 i (pk_host (ow_key o)) is_allow_amendment) →
  safe i D (λ w' g' _, settled i false w' g') (drop_owner (set_decision_on_drop dd o)) g w.
Proof.
  intros Ho Hr. apply owning_set in Ho. replace (ow_key o) with (ow_key (set_decision_on_drop dd o)) in Hr by (by destruct o).
  revert Ho Hr. assert (decision_on_drop (set_decision_on_drop dd o) = dd) as Ed by (by destruct o).
  generalize dependent (set_decision_on_drop dd o). clear o. intros o Ed Ho Hr. unfold drop_owner. rewrite Ed.
  eapply safe_bind; [by apply cancellation_reason_safe|]. intros w1 g1 reason Hg1 [[Ho1 ->] Hf].
  assert (dd ≠ DenyPending → reviewed w1.1 i (pk_host (ow_key o)) is_allow_amendment) as Hr1 by (intros; eapply grow_reviewed; eauto).
  case_bool_decide as Hb.
  { eapply safe_mono; [eapply publish_safe; [done|intros _ t _; right; by apply Hf|intros denied _; by apply amended_publishable]|]. by intros w' g' ? _ [? _]. }
  eapply safe_bind with (Q := λ w' g' _, owning i o false dd w' g' ∧ g' = g).
  { destruct dd; try (by split). destruct (pk_execution_id (ow_key o)) as [rid|]; [|by split]. destruct (ow_disconnect o); [|by split].
    eapply safe_bind; [by eapply (safe_keep i D); [apply owning_kept| | |]|]. intros w2 g2 elapsed _ [Ho2 ->].
    destruct elapsed; [|by split]. by apply (record_call_outcome_if_absent_keeps _ (owning_kept i o false DenyPending)). }
  intros w2 g2 _ Hg2 [Ho2 ->].
  eapply safe_mono; [apply (complete_safe D o false dd dd w2 g Ho2); intros denied _; apply amended_publishable; intros; eapply grow_reviewed; eauto|].
  by intros w' g' ? _ [? _].
Qed.

Definition dropped w g (a : option NetworkDecision) : Prop := settled i false w g ∧ a = None.

(** The task may be dropped here. *)
Definition droppable w g : Prop :=
  safe i (λ _ _, False) dropped (drop_task (bool_decide (commit_lock w.2 = Some i)) g) g w.

(** The part of a dropped task after the lock, from any knowledge [F] under which the rest is safe. *)
Lemma drop_task_safe F w g lk :
  lockable F → F lk w g →
  (∀ w', grow w w' → F false w' g →
     safe i (λ _ _, False) (λ w' g' _, settled i false w' g') (match g with Some o => drop_owner o | None => Ret tt end) g w') →
  droppable w g.
Proof.
  intros HF Hf Hrest. pose proof (lockable_locks F HF _ _ _ Hf) as Hl. unfold droppable, drop_task. unfold locks in Hl. rewrite Hl.
  eapply safe_bind with (Q := λ w' g' _, F false w' g' ∧ g' = g).
  { destruct lk; [by apply safe_unlock|by split]. }
  intros w' g' _ Hg [Hf' ->]. eapply safe_bind; [by apply Hrest|]. intros w'' g'' a _ Hs. by split.
Qed.

Lemma idle_settled lk w g : idle i lk w g → settled i lk w g.
Proof. intros (-> & Hl & Hn). split_and!; try done. intros key p Hin. by apply Hn in Hin. Qed.

Lemma settled_droppable lk w g : settled i lk w g → droppable w g.
Proof.
  intros Hs. apply (drop_task_safe (settled i) w g lk settled_lockable Hs). intros w' _ Hs'.
  assert (g = None) as Eg by apply Hs'. rewrite Eg in *. done.
Qed.

Lemma idle_droppable lk w g : idle i lk w g → droppable w g.
Proof. intros Hs. by eapply settled_droppable, idle_settled. Qed.

Lemma owning_droppable o lk dd w g :
  owning i o lk dd w g → (dd ≠ DenyPending → reviewed w.1 i (pk_host (ow_key o)) is_allow_amendment) → droppable w g.
Proof.
  intros Ho Hr. eapply (drop_task_safe _ w g lk (owning_lockable o dd)); [done|]. intros w' Hg Ho'. assert (g = Some (set_decision_on_drop dd o)) as Eg by apply Ho'.
  rewrite Eg at 1. apply drop_owner_safe; [done|]. intros Hd. eapply grow_reviewed; [done|by apply Hr].
Qed.

(** * The caches of the session *)

Lemma denied_contains_safe D K key w g :
  kept i K → K w g → (∀ w', grow w w' → K w' g → D w' g) →
  safe i D (λ w' g' r, (K w' g' ∧ g' = g) ∧ (r = false → key ∉ session_denied_hosts w'.2)) (call (DeniedContains key)) g w.
Proof.
  intros HK Hk Hd. eapply (safe_plain i D K); try done; [intros w' Hg _ Hk'; split; [done|]; intros _; by apply Hd|].
  intros w' r s' _ _ _ Heff w'' _ _ Hk'. split; [done|]. intros ->. unfold effect in Heff. cbn in Heff. simplify_eq.
  by eapply bool_decide_eq_false.
Qed.

(** Denied hosts stay as they are for the task that holds the lock. *)
Lemma held_denied w w' : rely i w w' → locks i true w → session_denied_hosts w'.2 = session_denied_hosts w.2.
Proof. intros Hr Hl%bool_decide_eq_true. by apply Hr. Qed.

Lemma approved_contains_safe key w g :
  idle i true w g → key ∉ session_denied_hosts w.2 →
  safe i droppable (λ w' g' r, (idle i true w' g' ∧ g' = g) ∧ (r = true → ∃ dn, Ev i (CacheHit key dn) ∈ w'.1)) (call (ApprovedContains key)) g w.
Proof.
  intros Hi Hk w' Hr I. pose proof (kept_rely _ _ (idle_kept i true) _ _ _ Hr Hi) as Hi'.
  assert (session_denied_hosts w'.2 = session_denied_hosts w.2) as Ed by (apply held_denied; [done|apply Hi]).
  split; [cbn; by rewrite Ed|]. split; [intros _; by eapply idle_droppable|]. intros r s' g' Heff I'.
  destruct (effect_plain i (ApprovedContains key) w' g r s' g' eq_refl Heff) as (-> & El & Eds & Hn). cbn [safe]. split.
  - split; [|done]. apply (kept_plain _ _ (idle_kept i true) w' s' _ g I Hi' El Eds); [|exact Hn]. by apply prefix_app_r.
  - intros ->. exists (session_denied_hosts w'.2). cbn. apply label_snoc. by right.
Qed.

Lemma check_session_hosts_safe key w g :
  idle i false w g →
  safe i droppable (λ w' g' a, idle i false w' g' ∧ (a = Some DecideAllow → ∃ dn, Ev i (CacheHit key dn) ∈ w'.1)) (check_session_hosts key) g w.
Proof.
  intros Hi. eapply safe_bind; [apply (safe_lock (idle i)); [apply idle_lockable|done|intros w' _; apply idle_droppable]|].
  intros w1 g1 _ _ [H1 ->]. eapply safe_bind; [apply (denied_contains_safe _ (idle i true)); [apply idle_kept|done|intros w' _; apply idle_droppable]|].
  intros w2 g2 denied _ [[H2 ->] Hd]. destruct denied.
  - eapply safe_bind; [by apply (safe_unlock (idle i)); [apply idle_lockable|]|]. intros w3 g3 _ _ [H3 ->]. by split.
  - eapply safe_bind; [by apply approved_contains_safe; [|apply Hd]|]. intros w3 g3 approved _ [[H3 ->] Hh].
    eapply safe_bind; [by apply (safe_unlock (idle i)); [apply idle_lockable|]|]. intros w4 g4 _ Hg [H4 ->]. split; [done|].
    destruct approved; [intros _|done]. destruct (Hh eq_refl) as [dn Hin]. exists dn. by eapply grow_in.
Qed.

(** * Accepted rules *)

(** An owner that may be dropped. *)
Definition owned o lk w g : Prop :=
  ∃ dd, owning i o lk dd w g ∧ (dd ≠ DenyPending → reviewed w.1 i (pk_host (ow_key o)) is_allow_amendment).

Lemma owned_droppable o lk w g : owned o lk w g → droppable w g.
Proof. intros (dd & Ho & Hr). by eapply owning_droppable. Qed.

Lemma owned_lockable o : lockable (owned o).
Proof.
  split.
  - intros lk. split.
    + intros w w' g Hr (dd & Ho & Hd). exists dd. split; [by eapply (kept_rely _ _ (owning_kept i o lk dd))|].
      intros Hn. eapply grow_reviewed; [by eapply rely_grow|by apply Hd].
    + intros w s' h' g I (dd & Ho & Hd) El Ed Hp Hn. exists dd. split; [by eapply (kept_plain _ _ (owning_kept i o lk dd))|].
      intros Hdd. eapply reviewed_prefix; [by apply Hd|done].
  - intros lk w g (dd & Ho & _). apply Ho.
  - intros lk lk' w s' g (dd & Ho & Hd) El Ed. exists dd. split; [|done]. by eapply (lockable_change _ (owning_lockable o dd)).
Qed.

Lemma owned_kept o lk : kept i (owned o lk).
Proof. apply owned_lockable. Qed.

Lemma owned_ask {R} o lk (e : op R) w g :
  plain e = true → (∀ w g, pre i e w g) → owned o lk w g → safe i droppable (λ w' g' _, owned o lk w' g' ∧ g' = g) (call e) g w.
Proof.
  intros He Hpre Ho. apply (safe_keep i); [apply owned_kept|done..|]. intros w' _ _ Ho'. split; [done|]. intros _. by eapply owned_droppable.
Qed.

Lemma set_decision_on_drop_safe D o lk d w g :
  owned o lk w g →
  safe i D (λ w' g' _, owning i o lk d w' g' ∧ (lk = true → session_denied_hosts w'.2 = session_denied_hosts w.2)) (call (SetDecisionOnDrop d)) g w.
Proof.
  intros Ho w' Hr I. pose proof (kept_rely _ _ (owned_kept o lk) _ _ _ Hr Ho) as (dd & Ho' & _). split; [done|]. split; [done|].
  intros r s' g' Heff I'. unfold effect in Heff. cbn in Heff. simplify_eq. unfold after. cbn. rewrite app_nil_r. split.
  - destruct Ho' as (-> & Hl & Hrest). split; [by destruct o|]. by split; destruct w'.
  - intros ->. apply held_denied; [done|]. destruct Ho as (dd' & Ho & _). apply Ho.
Qed.

Lemma on_applied_safe o lk d w g :
  owned o lk w g → (d ≠ DenyPending → reviewed w.1 i (pk_host (ow_key o)) is_allow_amendment) →
  safe i droppable (λ w' g' _, owned o lk w' g') (call (SetDecisionOnDrop d)) g w.
Proof.
  intros Ho Hd. eapply safe_mono; [by apply set_decision_on_drop_safe|]. intros w' g' a Hg [Ho' _]. exists d. split; [done|].
  intros Hn. eapply grow_reviewed; [done|by apply Hd].
Qed.

Lemma persist_safe o lk a c d w g :
  owned o lk w g → (d ≠ DenyPending → reviewed w.1 i (pk_host (ow_key o)) is_allow_amendment) →
  safe i droppable (λ w' g' _, owned o lk w' g') (persist_network_policy_amendment a c (call (SetDecisionOnDrop d))) g w.
Proof.
  intros Ho Hd. unfold persist_network_policy_amendment. eapply safe_bind; [by apply owned_ask|]. intros w1 g1 permit G1 [O1 ->].
  destruct permit; [|done]. destruct (validated_network_policy_amendment_host a c) as [host|]; [|done].
  eapply safe_bind; [by apply owned_ask|]. intros w2 g2 home G2 [O2 ->].
  eapply safe_bind; [by apply owned_ask|]. intros w3 g3 running G3 [O3 ->].
  assert (∀ w' g', owned o lk w' g' → grow w3 w' → safe i droppable (λ w' g' _, owned o lk w' g') (call (SetDecisionOnDrop d)) g' w') as Happ.
  { intros w' g' O' G'. apply on_applied_safe; [done|]. intros Hn. eapply grow_reviewed; [|by apply Hd].
    eapply grow_trans; [exact G1|]. eapply grow_trans; [exact G2|]. by eapply grow_trans. }
  destruct running.
  - eapply safe_bind; [by apply owned_ask|]. intros w4 g4 updated G4 [O4 ->]. destruct updated; [|done].
    eapply safe_bind; [by apply Happ|]. intros w5 g5 ? _ O5. cbn beta in O5. eapply safe_bind; [by apply (owned_ask o lk)|]. by intros w6 g6 saved _ [O6 ->].
  - eapply safe_bind with (Q := λ w' g' _, owned o lk w' g').
    { eapply safe_bind; [by apply owned_ask|]. by intros w6 g6 saved _ [O6 ->]. }
    intros w5 g5 saved G5 O5. destruct saved; [|done]. eapply safe_bind; [by apply Happ|]. by intros w6 g6 ? _ O6.
Qed.

Lemma apply_amendment_safe o lk sub_id a c d w g :
  owned o lk w g → (d ≠ DenyPending → reviewed w.1 i (pk_host (ow_key o)) is_allow_amendment) →
  safe i droppable (λ w' g' _, owned o lk w' g') (apply_amendment sub_id a c d) g w.
Proof.
  intros Ho Hd. eapply safe_bind; [by apply persist_safe|]. intros w1 g1 persisted _ O1.
  destruct persisted; (eapply safe_mono; [by apply owned_ask|by intros w2 g2 ? _ [O2 _]]).
Qed.

(** * Reviews *)

Section review.
Context (o : PendingHostApprovalOwner).
Notation key := (pk_host (ow_key o)).

(** What is known once a review is resolved to [d]. *)
Definition resolved lk w g (d : PendingApprovalDecision) : Prop :=
  owned o lk w g ∧ (d ≠ DenyPending → lk = true) ∧ publishable o d w.1 (session_denied_hosts w.2).

Lemma resolved_deny lk w g : owned o lk w g → resolved lk w g DenyPending.
Proof. intros Ho. split; [done|]. by split; [|intros []]. Qed.

Lemma owned_locks lk w g : owned o lk w g → locks i lk w.
Proof. intros (dd & Ho & _). apply Ho. Qed.

Lemma record_deny_safe lk owner outcome w g :
  owned o lk w g → safe i droppable (resolved lk) (let! _ := record_for owner outcome in Ret DenyPending) g w.
Proof.
  intros Ho. eapply safe_bind; [by apply (record_for_keeps _ (owned_kept o lk))|]. intros w' g' _ _ [O' ->]. by apply resolved_deny.
Qed.

Lemma approve_unless_denied_safe owner message (otherwise : prog PendingApprovalDecision) w g :
  owned o true w g →
  (∀ w' g', grow w w' → owned o true w' g' → key ∉ session_denied_hosts w'.2 → safe i droppable (resolved true) otherwise g' w') →
  safe i droppable (resolved true) (approve_unless_denied owner key message otherwise) g w.
Proof.
  intros Ho Hother. eapply safe_bind; [apply (denied_contains_safe _ (owned o true)); [apply owned_kept|done|intros w' _; apply owned_droppable]|].
  intros w1 g1 denied G1 [[O1 ->] Hd]. destruct denied; [by apply record_deny_safe|]. apply Hother; [done|done|by apply Hd].
Qed.

Lemma locked_op_safe {R} (e : op R) w g :
  plain e = true → (∀ w g, commit_lock w.2 = Some i → pre i e w g) → owned o true w g →
  safe i droppable (λ w' g' _, owned o true w' g' ∧ g' = g) (call e) g w.
Proof.
  intros He Hpre Ho. apply (safe_keep i); [apply owned_kept|done..|]. intros w' _ _ O'. split; [|intros _; by eapply owned_droppable].
  apply Hpre. apply owned_locks in O'. by apply bool_decide_eq_true in O'.
Qed.

Lemma approved_insert_safe w g :
  owned o true w g → reviewed w.1 i key for_session →
  safe i droppable (λ w' g' _, owned o true w' g' ∧ session_denied_hosts w'.2 = session_denied_hosts w.2) (call (ApprovedInsert key)) g w.
Proof.
  intros Ho Hs w' Hr I. pose proof (kept_rely _ _ (owned_kept o true) _ _ _ Hr Ho) as O'.
  pose proof (rely_grow _ _ _ Hr) as G. pose proof (held_denied w w' Hr (owned_locks _ _ _ Ho)) as Ed.
  pose proof (owned_locks _ _ _ O') as Hl. apply bool_decide_eq_true in Hl.
  split; [split; [done|by eapply grow_reviewed]|]. split; [intros _; by eapply owned_droppable|]. intros r s' g' Heff I'.
  destruct (effect_plain i (ApprovedInsert key) w' g r s' g' eq_refl Heff) as (-> & El & Eds & Hn). cbn [safe]. split.
  - apply (kept_plain _ _ (owned_kept o true) w' s' _ g I O' El Eds); [|exact Hn]. by apply prefix_app_r.
  - unfold effect in Heff. cbn in Heff. simplify_eq. cbn. destruct w' as [h []]. exact Ed.
Qed.

Lemma not_denied_publishable d h denied :
  key ∉ denied → (d ≠ DenyPending → reviewed h i key approves) → publishable o d h denied.
Proof. intros Hn Hr Hd. split; [by apply Hr|done]. Qed.

(** The answer of the review is in the history. *)
Definition answered w (answer : ReviewDecision) : Prop := ∀ ok : ReviewDecision → bool, ok answer = true → reviewed w.1 i key ok.

Lemma answered_grow w w' answer : grow w w' → answered w answer → answered w' answer.
Proof. intros G Ha ok Hok. eapply grow_reviewed; [done|by apply Ha]. Qed.

Lemma allow_amendment_safe owner message sub_id c a w g :
  owned o true w g → answered w (NetworkPolicyAmendmentDecision a) → amendment_action a = RuleAllow →
  safe i droppable (resolved true) (resolve_review owner key message sub_id c (NetworkPolicyAmendmentDecision a)) g w.
Proof.
  intros Ho Ha Ea. cbn [resolve_review]. rewrite Ea.
  assert (∀ w', grow w w' → reviewed w'.1 i key is_allow_amendment) as Hr.
  { intros w' G. eapply (answered_grow _ _ _ G Ha). cbn. by rewrite Ea. }
  eapply safe_bind; [apply (apply_amendment_safe o true); [done|intros _; apply Hr, grow_refl]|]. intros w1 g1 ? G1 O1.
  eapply safe_bind; [by apply (locked_op_safe DecisionOnDrop)|]. intros w2 g2 on_drop G2 [O2 ->].
  case_bool_decide; [|by apply record_deny_safe].
  eapply safe_bind; [by apply (locked_op_safe (DeniedRemove _))|]. intros w3 g3 ? G3 [O3 ->].
  assert (grow w w3) as G by (eapply grow_trans; [exact G1|by eapply grow_trans]).
  eapply safe_bind; [apply approved_insert_safe; [done|]|].
  { eapply reviewed_weaken; [apply allow_amendment_for_session|by apply Hr]. }
  intros w4 g4 ? G4 [O4 _]. split; [done|]. split; [done|]. apply amended_publishable. intros _. apply Hr. by eapply grow_trans.
Qed.

Lemma deny_amendment_safe owner message sub_id c a w g :
  owned o true w g → amendment_action a = RuleDeny →
  safe i droppable (resolved true) (resolve_review owner key message sub_id c (NetworkPolicyAmendmentDecision a)) g w.
Proof.
  intros Ho Ea. cbn [resolve_review]. rewrite Ea.
  eapply safe_bind; [by apply (apply_amendment_safe o true)|]. intros w1 g1 ? _ O1.
  eapply safe_bind; [by apply (record_for_keeps _ (owned_kept o true))|]. intros w2 g2 ? _ [O2 ->].
  eapply safe_bind; [by apply (locked_op_safe (ApprovedRemove _))|]. intros w3 g3 ? _ [O3 ->].
  eapply safe_bind; [by apply (locked_op_safe (DeniedInsert _))|]. intros w4 g4 ? _ [O4 ->]. by apply resolved_deny.
Qed.

Lemma resolve_review_safe owner message sub_id c answer w g :
  owned o (takes_commit_lock answer) w g → answered w answer →
  safe i droppable (resolved (takes_commit_lock answer)) (resolve_review owner key message sub_id c answer) g w.
Proof.
  intros Ho Ha.
  assert (∀ w', grow w w' → approves answer = true → reviewed w'.1 i key approves) as Hr by (intros w' G; by apply (answered_grow _ _ _ G Ha)).
  destruct answer as [| | | |a| | |]; cbn [takes_commit_lock] in *; try (by apply record_deny_safe).
  - apply approve_unless_denied_safe; [done|]. intros w' g' G O' Hn. split; [done|]. split; [done|]. apply not_denied_publishable; auto.
  - apply approve_unless_denied_safe; [done|]. intros w' g' G O' Hn. split; [done|]. split; [done|]. apply not_denied_publishable; auto.
  - apply approve_unless_denied_safe; [done|]. intros w' g' G O' Hn.
    eapply safe_bind; [apply approved_insert_safe; [done|by apply (answered_grow _ _ _ G Ha)]|]. intros w2 g2 ? G2 [O2 Ed].
    split; [done|]. split; [done|]. rewrite Ed. apply not_denied_publishable; [done|]. intros _. apply Hr; [by eapply grow_trans|done].
  - destruct (amendment_action a) eqn:Ea; [by apply allow_amendment_safe|by apply deny_amendment_safe].
Qed.

(** What is known when the owner's task returns [d]. *)
Definition concluded w g (d : NetworkDecision) : Prop :=
  settled i false w g
  ∧ (d = DecideAllow → ∃ o' d' dn, Ev i (Published o' d' dn) ∈ w.1 ∧ d' ≠ DenyPending ∧ ow_key o' = ow_key o).

Lemma deny_review_safe lk w g : owned o lk w g → lk = false → safe i droppable concluded (deny_review o) g w.
Proof.
  intros (dd & Ho & _) ->. eapply safe_bind; [apply (complete_safe _ o false dd); [done|by intros denied _ []]|].
  intros w' g' ? _ [Hs _]. by split.
Qed.

Lemma record_deny_review_safe owner outcome w g :
  owned o false w g → safe i droppable concluded (let! _ := record_for owner outcome in deny_review o) g w.
Proof.
  intros Ho. eapply safe_bind; [by apply (record_for_keeps _ (owned_kept o false))|]. intros w' g' ? _ [O' ->]. by eapply deny_review_safe.
Qed.

Lemma finish_review_safe lk d w g :
  resolved lk w g d → safe i droppable concluded
    (let! _ := call (SetDecisionOnDrop d) in let! _ := complete o d in
     let! _ := (if lk then call UnlockCommit else Ret tt) in Ret (to_network_decision d)) g w.
Proof.
  intros (Ho & Hl & Hp). eapply safe_bind; [by apply set_decision_on_drop_safe|]. intros w1 g1 ? G1 [O1 Ed].
  eapply safe_bind; [apply (complete_safe _ o lk d d w1 g1 O1)|].
  { intros denied Hd Hn. specialize (Hl Hn). apply (publishable_prefix o d w.1); [|apply G1|done]. rewrite Hd, Ed by done. exact Hp. }
  intros w2 g2 ? G2 [S2 [dn Hdn]].
  eapply safe_bind with (Q := λ w' g' _, settled i false w' g').
  { destruct lk; [|done]. eapply safe_mono; [apply (safe_unlock (settled i)); [apply settled_lockable|done]|]. by intros w' g' ? _ [? _]. }
  intros w3 g3 ? G3 S3. split; [done|]. intros Hd. exists (set_decision_on_drop d o), d, dn.
  split; [by eapply grow_in|]. split; [by intros ->|]. by destruct o.
Qed.

Lemma conclude_review_safe owner message sub_id c answer w g :
  owned o false w g → answered w answer → safe i droppable concluded (conclude_review owner o key message sub_id c answer) g w.
Proof.
  intros Ho Ha. eapply safe_bind; [by apply (store_denial_keeps _ (owned_kept o false))|]. intros w1 g1 ? G1 [O1 ->].
  eapply safe_bind with (Q := λ w' g' _, owned o (takes_commit_lock answer) w' g').
  { destruct (takes_commit_lock answer); [|done].
    eapply safe_mono; [apply (safe_lock (owned o)); [apply owned_lockable|done|intros w' _; apply owned_droppable]|]. by intros w' g' ? _ [? _]. }
  intros w2 g2 ? G2 O2. eapply safe_bind; [apply resolve_review_safe; [done|]|].
  { eapply answered_grow; [|done]. by eapply grow_trans. }
  intros w3 g3 d G3 R3. by apply finish_review_safe.
Qed.
End review.

Lemma request_review_safe o action context until w g :
  owned o false w g → allows_network_approval_flow (rc_approval_policy context) = true → action_key action = pk_host (ow_key o) →
  safe i droppable (λ w' g' r, (owned o false w' g' ∧ g' = g) ∧ ∀ answer, r = Some (Ok answer) → answered o w' answer)
    (call (RequestReview action context until)) g w.
Proof.
  intros Ho Hp Hk. eapply (safe_plain i droppable (owned o false)); try done; [apply owned_kept| |].
  - intros w' _ _ O'. split; [done|]. intros _. by eapply owned_droppable.
  - intros w' r s' _ _ _ _ w'' _ _ O''. split; [done|]. intros answer -> ok Hok. exists action, context, answer.
    split; [|done]. cbn. apply label_snoc. by right.
Qed.

Lemma run_review_safe turn owner o environment_id request protocol w g :
  pk_host (ow_key o) = from_request request protocol environment_id →
  owned o false w g → safe i droppable (concluded o) (run_review turn owner o environment_id request protocol (pk_host (ow_key o))) g w.
Proof.
  intros Ek Ho. unfold run_review. destruct (negb _); [by apply record_deny_review_safe|].
  destruct (allows_network_approval_flow (at_approval_policy turn)) eqn:Ef; cbn [negb]; [|by apply record_deny_review_safe].
  eapply safe_bind; [by apply (owned_ask o false NewUuid)|]. intros w1 g1 uuid _ [O1 ->].
  eapply safe_bind; [apply (request_review_safe o); [done|done|by rewrite Ek]|]. intros w2 g2 r G2 [[O2 ->] Ha].
  destruct r as [[answer|[rejection| |err]]|].
  - apply conclude_review_safe; [done|by apply Ha].
  - by apply record_deny_review_safe.
  - by apply record_deny_review_safe.
  - by apply record_deny_review_safe.
  - by eapply deny_review_safe.
Qed.

(** * Requests *)

Lemma get_or_create_safe D key w g :
  idle i false w g →
  safe i D (λ w' g' r, g' = None ∧ if (snd r : bool)
      then ∀ o, ow_key o = key → ow_pending o = fst r → decision_on_drop o = DenyPending → owning i o false DenyPending w' (Some o)
      else idle i false w' g' ∧ Ev i (Joined key (fst r)) ∈ w'.1)
    (call (GetOrCreatePending key)) g w.
Proof.
  intros Hi w' Hr I. pose proof (kept_rely _ _ (idle_kept i false) _ _ _ Hr Hi) as (-> & Hl & Hn). split; [done|]. split; [done|].
  intros r s' g' Heff I'. unfold effect in Heff. cbn in Heff. unfold get_or_create_pending_approval in Heff.
  destruct w' as [h [c os m ds lk a n t x f]]. unfold locks in Hl. cbn in *. destruct (m !! key) as [p|] eqn:Ek; simplify_eq; cbn; (split; [done|]).
  - split; [|apply label_snoc; by right]. split; [done|]. split; [done|]. intros key' p' [Hin|[=]]%label_snoc. by apply Hn in Hin.
  - intros o Hok Hop Hod. split; [destruct o; cbn in *; by subst|]. split; [done|]. split; [unfold undecided; cbn; rewrite Hop; by apply list_lookup_middle|].
    split; [rewrite Hok, Hop; apply label_snoc; by right|]. rewrite Hop. intros key' p' [Hin|[= -> ->]]%label_snoc; [by apply Hn in Hin|done].
Qed.

Lemma new_owner_safe D o w :
  owning i o false DenyPending w (Some o) → safe i D (λ w' g' _, owned o false w' g') (call (NewOwner o)) None w.
Proof.
  intros Ho w' Hr I. pose proof (kept_rely _ _ (owning_kept i o false DenyPending) _ _ _ Hr Ho) as Ho'. split; [done|]. split; [done|].
  intros r s' g' Heff I'. unfold effect in Heff. cbn in Heff. simplify_eq. unfold after. cbn. rewrite app_nil_r. exists DenyPending.
  split; [by destruct w'|done].
Qed.

Lemma wait_safe key p w g :
  idle i false w g → Ev i (Joined key p) ∈ w.1 →
  safe i droppable (λ w' g' d, idle i false w' g'
      ∧ (d ≠ DenyPending → ∃ j o dn, Ev j (Published o d dn) ∈ w'.1 ∧ ow_key o = key ∧ ow_pending o = p)) (call (WaitForDecision p)) g w.
Proof.
  intros Hi Hj. eapply (safe_plain i droppable (idle i false)); try done; [apply idle_kept| |].
  - intros w' G I Hi'. split; [|intros _; by eapply idle_droppable]. destruct Hi' as (_ & Hl & Hn). apply bool_decide_eq_false in Hl.
    split; [done|]. split; [|done]. destruct (inv_joined _ I i key p (grow_in _ _ _ G Hj)) as [j Hc]. by eapply (inv_created _ I).
  - intros w' d s' G I _ Heff w'' G'' I'' Hi''. split; [done|]. intros Hd. unfold effect in Heff. cbn in Heff.
    apply bind_Some in Heff as (d' & Hd' & [= -> Es']). unfold decision_of in Hd'. destruct (pending_decisions w'.2 !! p) as [[?|]|] eqn:Ep; cbn in Hd'; simplify_eq.
    destruct (inv_decided _ I p d Ep) as (j & o & dn & Hp & Ho). exists j, o, dn. split; [|split; [|done]].
    + cbn. rewrite app_nil_r. done.
    + destruct (inv_joined _ I i key p (grow_in _ _ _ G Hj)) as [j' Hc]. pose proof (inv_published _ I _ _ _ _ Hp) as Hc'. rewrite Ho in Hc'.
      by destruct (inv_unique _ I _ _ _ _ _ Hc' Hc).
Qed.

(** Where an allowance of [request] came from: a cached approval that was hit, or a review whose
    published decision this task made or joined. *)
Definition granted (h : history) (request : Request) : Prop :=
  ∃ environment_id, (∀ e, req_environment_id request = Some e → environment_id = e) ∧
  let key := from_request request (approval_protocol_of (rest_protocol (req_rest request))) environment_id in
  (∃ dn, Ev i (CacheHit key dn) ∈ h)
  ∨ ∃ j o d dn, Ev j (Published o d dn) ∈ h ∧ d ≠ DenyPending ∧ pk_host (ow_key o) = key
      ∧ (j = i ∨ Ev i (Joined (ow_key o) (ow_pending o)) ∈ h).

(** How a task ends; [a] is the decision it returns, if it handles a request and is not dropped. *)
Definition ended (request : option Request) w g (a : option NetworkDecision) : Prop :=
  settled i false w g ∧ (a = Some DecideAllow → ∃ r, request = Some r ∧ granted w.1 r).

Lemma granted_prefix h h' request : granted h request → h `prefix_of` h' → granted h' request.
Proof.
  intros (e & He & Hg) [l ->]. exists e. split; [done|]. destruct Hg as [[dn Hin]|(j & o & d & dn & Hin & Hd & Hk & Hj)]; [left|right].
  - exists dn. apply elem_of_app. by left.
  - exists j, o, d, dn. rewrite !elem_of_app. naive_solver.
Qed.

(** The environment a request is attributed to. *)
Lemma attribution_environment request s attribution e :
  resolve_request_attribution request s = Some attribution → req_environment_id request = Some e → attr_environment_id attribution = Some e.
Proof.
  intros Ha He. unfold resolve_request_attribution in Ha. rewrite He in Ha. destruct (req_execution_id request).
  - apply bind_Some in Ha as (c & _ & Ha). cbn in Ha. case_bool_decide; by simplify_eq.
  - by simplify_eq.
Qed.

Lemma deny_not_allow reason : deny reason ≠ DecideAllow.
Proof. done. Qed.

Lemma idle_ended request lk w g a : idle i lk w g → lk = false → a ≠ Some DecideAllow → ended request w g a.
Proof. intros Hi -> Ha. split; [by apply idle_settled|done]. Qed.

Lemma idle_ask {R} (e : op R) w g :
  plain e = true → (∀ w g, pre i e w g) → idle i false w g → safe i droppable (λ w' g' _, idle i false w' g' ∧ g' = g) (call e) g w.
Proof.
  intros He Hpre Ho. apply (safe_keep i); [apply idle_kept|done..|]. intros w' _ _ Ho'. split; [done|]. intros _. by eapply idle_droppable.
Qed.

Lemma resolve_attribution_safe request w g :
  idle i false w g →
  safe i droppable (λ w' g' r, (idle i false w' g' ∧ g' = g)
      ∧ ∀ a e, r = Some a → req_environment_id request = Some e → attr_environment_id a = Some e) (call (ResolveRequestAttribution request)) g w.
Proof.
  intros Hi. eapply (safe_plain i droppable (idle i false)); try done; [apply idle_kept|].
  intros w' r s' _ _ _ Heff w'' _ _ Hi''. split; [done|]. intros a e -> He. unfold effect in Heff. cbn in Heff. simplify_eq. by eapply attribution_environment.
Qed.

Lemma request_safe request w g :
  idle i false w g →
  safe i droppable (λ w' g' d, ended (Some request) w' g' (Some d)) (handle_inline_policy_request request) g w.
Proof.
  intros Hi. unfold handle_inline_policy_request. eapply safe_bind; [by apply resolve_attribution_safe|].
  intros w1 g1 [attribution|] _ [[I1 ->] He]; [|by eapply idle_ended]. specialize (He attribution).
  eapply safe_bind with (Q := λ w' g' _, idle i false w' g' ∧ g' = g).
  { destruct (owner_call attribution); [by apply idle_ask|by split]. }
  intros w2 g2 [] _ [I2 ->]; [by eapply idle_ended|].
  eapply safe_bind; [by apply (idle_ask ActiveTurn)|]. intros w3 g3 active_turn _ [I3 ->]. cbv zeta.
  match goal with |- context [match ?x with Some environment_id => _ | None => _ end] => set (environment := x) end.
  assert (∀ e, req_environment_id request = Some e → environment = Some e) as Henv.
  { intros e Hreq. unfold environment. by rewrite (He e). }
  clearbody environment. destruct environment as [environment_id|]; [|by eapply idle_ended].
  set (key := from_request request (approval_protocol_of (rest_protocol (req_rest request))) environment_id).
  assert (∀ h, (∃ dn, Ev i (CacheHit key dn) ∈ h) ∨ (∃ j o d dn, Ev j (Published o d dn) ∈ h ∧ d ≠ DenyPending ∧ pk_host (ow_key o) = key
      ∧ (j = i ∨ Ev i (Joined (ow_key o) (ow_pending o)) ∈ h)) → granted h request) as Hgr.
  { intros h Hh. exists environment_id. split; [|done]. intros e Hreq. by specialize (Henv e Hreq) as [= ->]. }
  eapply safe_bind; [by apply check_session_hosts_safe|]. intros w4 g4 [d|] _ [I4 Hhit].
  { split; [by apply idle_settled|]. intros [= ->]. exists request. split; [done|]. apply Hgr. left. by apply Hhit. }
  destruct active_turn as [turn|].
  2:{ eapply safe_bind; [by apply (record_for_keeps _ (idle_kept i false))|]. intros w5 g5 ? _ [I5 ->]. by eapply idle_ended. }
  eapply safe_bind; [by apply get_or_create_safe|]. intros w5 g5 [p []] _ [-> Hp]; cbn [fst snd] in Hp.
  - eapply safe_bind; [apply new_owner_safe; by apply Hp|]. intros w6 g6 ? _ O6.
    match goal with |- safe _ _ _ (run_review _ _ ?o _ _ ?protocol _) _ _ =>
      pose proof (run_review_safe turn (owner_call attribution) o environment_id request protocol w6 g6 eq_refl O6) as Hrun end.
    eapply safe_mono; [exact Hrun|].
    intros w7 g7 d _ [S7 Hd]. split; [done|]. intros [= ->]. exists request. split; [done|]. apply Hgr. right.
    destruct (Hd eq_refl) as (o' & d' & dn & Hin & Hne & Hk). exists i, o', d', dn. rewrite Hk. by auto.
  - destruct Hp as [I5 Hj]. eapply safe_bind; [by apply (wait_safe _ _ _ _ I5 Hj)|]. intros w6 g6 d G6 [I6 Hd]. split; [by apply idle_settled|].
    intros [= Ea]. exists request. split; [done|]. apply Hgr. right.
    destruct Hd as (j & o & dn & Hin & Hk & Hop); [by intros ->|]. exists j, o, d, dn.
    split; [done|]. split; [by intros ->|]. rewrite Hk. split; [done|]. right. rewrite Hop. by eapply grow_in.
Qed.
End programs.
