(* ===== verification/ApprovalGuarantees.v ===== *)
(** What every execution of the concurrent network reviews guarantees: allowances have an
    authority, a denial fails the tool call it belongs to, and no task is left waiting. *)
From S2P Require Import Prelude Str Truncate NetworkDomain NetworkPolicy ApprovalTypes PermissionProfile Orchestrator ExecPolicy NetworkApproval ApprovalSystem ApprovalSafety.

(** * Every reachable system *)

Definition job_request (j : job) : option Request := match j with JobRequest request => Some request | _ => None end.

Lemma job_safe i j w : idle i false w None → safe i (droppable i) (ended i (job_request j)) (job_prog j) None w.
Proof.
  intros Hi. destruct j as [request|b|turn_id cwd command environment_id profile environments|rid t|rid]; cbn [job_prog job_request].
  - eapply safe_bind; [by apply request_safe|]. by intros w' g' d _ He.
  - eapply safe_bind with (Q := λ w' g' _, idle i false w' g').
    { unfold record_blocked_request. destruct (denied_network_policy_message b); [|done].
      eapply safe_bind; [by apply (idle_ask i)|]. intros w1 g1 [c|] _ [I1 ->]; [|done].
      eapply safe_mono; [by apply (record_call_outcome_if_absent_keeps i _ (idle_kept i false))|]. by intros w2 g2 ? _ [? _]. }
    intros w' g' ? _ Hi'. by eapply idle_ended.
  - eapply safe_bind with (Q := λ w' g' _, idle i false w' g').
    { eapply safe_bind; [by apply (idle_ask i)|]. intros w1 g1 rid _ [I1 ->]. eapply safe_bind; [by apply (idle_ask i)|].
      intros w2 g2 t _ [I2 ->]. eapply safe_bind; [by apply (idle_ask i)|]. by intros w3 g3 ? _ [I3 ->]. }
    intros w' g' ? _ Hi'. by eapply idle_ended.
  - eapply safe_bind with (Q := λ w' g' _, idle i false w' g').
    { eapply safe_bind; [by apply (idle_ask i)|]. intros w1 g1 [outcome|] _ [I1 ->]; [done|].
      eapply safe_bind; [by apply (idle_ask i)|]. by intros w2 g2 ? _ [I2 ->]. }
    intros w' g' ? _ Hi'. by eapply idle_ended.
  - eapply safe_bind; [by apply (idle_ask i)|]. intros w1 g1 ? _ [I1 ->]. by eapply idle_ended.
Qed.

Lemma safe_drop_mono {A} i (D D' : history * NetworkApprovalService → option PendingHostApprovalOwner → Prop) Q (p : prog A) g w :
  (∀ w g, D w g → D' w g) → safe i D Q p g w → safe i D' Q p g w.
Proof.
  intros Hd. revert g w. induction p as [a| |R e k IH]; intros g w; cbn [safe]; [done|done|].
  intros Hs w' Hr I. destruct (Hs w' Hr I) as (Hp & Ha & Hk). split; [done|]. split; [by eauto|]. intros r s' g' Heff I'. apply IH, Hk; done.
Qed.

Lemma ended_rely i request w w' g a : rely i w w' → ended i request w g a → ended i request w' g a.
Proof.
  intros Hr [Hs Ha]. split; [by eapply (kept_rely _ _ (settled_kept i false))|]. intros Ea. destruct (Ha Ea) as (r & -> & Hg).
  exists r. split; [done|]. eapply granted_prefix; [done|apply Hr].
Qed.

Definition task_ok (h : history) (s : NetworkApprovalService) (i : nat) (t : Task) : Prop :=
  safe i (droppable i) (ended i (job_request (task_job t))) (task_prog t) (task_guard t) (h, s).

Record ok (c : history * System) : Prop := {
  ok_inv : Inv (c.1, sys_service c.2);
  ok_task i t : sys_tasks c.2 !! i = Some t → task_ok c.1 (sys_service c.2) i t;
  ok_fresh i : sys_tasks c.2 !! i = None → (∀ ev, Ev i ev ∉ c.1) ∧ commit_lock (sys_service c.2) ≠ Some i
}.

Lemma initial_ok : ok ([], mkSystem new_service ∅).
Proof.
  split; cbn; [|by intros i t|].
  - split; unfold undecided; cbn; intros; repeat match goal with
      | Hin : _ ∈ [] |- _ => by apply not_elem_of_nil in Hin
      | Hin : _ ∈ ∅ |- _ => by apply elem_of_empty in Hin
      end; try done; lia.
  - intros i _. split; [|done]. intros ev. apply not_elem_of_nil.
Qed.

Lemma rely_same i h s : rely i (h, s) (h, s).
Proof. apply rely_refl. Qed.

Lemma task_ok_rely h s h' s' i t : rely i (h, s) (h', s') → task_ok h s i t → task_ok h' s' i t.
Proof. intros Hr. apply safe_rely; [|done]. intros a. by apply ended_rely. Qed.

Lemma sync_inv h s source :
  Inv (h, s) → Inv (h ++ [Synced (session_approved_hosts source)], sync_session_approved_hosts_to source s).
Proof.
  intros I. apply (inv_event _ _ (Synced (session_approved_hosts source))) in I; [|done]. destruct I. destruct s.
  split; unfold undecided in *; cbn in *; try done. intros key Hk. right. eexists. split; [apply label_snoc; by right|done].
Qed.

Lemma sync_rely i h s source :
  rely i (h, s) (h ++ [Synced (session_approved_hosts source)], sync_session_approved_hosts_to source s).
Proof.
  destruct s. split; unfold undecided; cbn; try done; try lia; [by apply prefix_app_r|]. by intros ev [Hin|[=]]%label_snoc.
Qed.

Lemma system_step_ok c c' : step c c' → ok c → ok c'.
Proof.
  intros Hs [I T F]. destruct Hs as [h s ts i j Hi|h s ts i j g R e k r s' g' Hi Heff|h s ts i j g R e k Hi Ha|h s ts source]; cbn in I, T, F.
  - split; cbn; [done| |].
    + intros i' t [[<- <-]|[_ Ht]]%lookup_insert_Some; [|by apply T]. destruct (F i Hi) as [Hn Hl]. apply job_safe.
      split; [done|]. split; [by apply bool_decide_eq_false|]. intros key p. apply Hn.
    + intros i' [Hi' _]%lookup_insert_None. by apply F.
  - pose proof (T i _ Hi) as Hsafe. cbn in Hsafe. destruct (Hsafe _ (rely_same i h s) I) as (Hpre & _ & Hk).
    pose proof (step_inv i e h s g r s' g' I Hpre Heff) as I'. split; cbn; [done| |].
    + intros i' t [[<- <-]|[Hne Ht]]%lookup_insert_Some; [by apply Hk|]. eapply task_ok_rely; [by eapply effect_rely|by apply T].
    + intros i' [Hi' Hne]%lookup_insert_None. destruct (F i' Hi') as [Hn Hl]. split; [intros ev Hin; by apply own_events, Hn in Hin|].
      destruct (effect_rely i' i e h s g r s' g') as [_ _ Hlk]; try done. cbn in Hlk. by rewrite <- Hlk.
  - pose proof (T i _ Hi) as Hsafe. cbn in Hsafe. destruct (Hsafe _ (rely_same i h s) I) as (_ & Hd & _).
    split; cbn; [done| |intros i' [Hi' _]%lookup_insert_None; by apply F].
    intros i' t [[<- <-]|[Hne Ht]]%lookup_insert_Some; [|by apply T]. unfold task_ok. cbn.
    eapply safe_drop_mono; [|eapply safe_mono; [apply (Hd Ha)|]]; [done|]. intros w g0 a _ [S ->]. by split.
  - split; cbn; [by apply sync_inv|intros i t Ht; eapply task_ok_rely; [apply sync_rely|by apply T]|].
    intros i Hi. destruct (F i Hi) as [Hn Hl]. split; [by intros ev [Hin%Hn|[=]]%label_snoc|by destruct s].
Qed.

Lemma system_steps_ok c c' : rtc step c c' → ok c → ok c'.
Proof. induction 1 as [|c c1 c2 Hs _ IH]; [done|]. intros Hok. by apply IH, (system_step_ok c). Qed.

Lemma system_reachable_ok c : reachable c → ok c.
Proof. intros Hr. by eapply system_steps_ok, initial_ok. Qed.

(** * Allowances *)

(** What allows [request] in the environment [environment_id]: a session approval for exactly that
    host, environment, protocol and port, given by a reviewer or taken over from another session,
    and no denial when it was looked up; or a review of exactly that, by this task or one it
    joined, that approved, and no denial when that was published unless the reviewer replaced
    it by a rule. *)
Definition authorised (h : history) (i : nat) (request : Request) (environment_id : str) : Prop :=
  let key := from_request request (approval_protocol_of (rest_protocol (req_rest request))) environment_id in
  (∃ denied, Ev i (CacheHit key denied) ∈ h ∧ key ∉ denied
     ∧ ((∃ j, reviewed h j key for_session) ∨ ∃ hosts, Synced hosts ∈ h ∧ key ∈ hosts))
  ∨ (∃ j o d denied, Ev j (Published o d denied) ∈ h ∧ pk_host (ow_key o) = key
     ∧ (j = i ∨ Ev i (Joined (ow_key o) (ow_pending o)) ∈ h)
     ∧ reviewed h j key approves ∧ (key ∈ denied → reviewed h j key is_allow_amendment)).

(** C6: No request is allowed unasked. However requests are interleaved, joined, dropped and
    answered, a request that is allowed has an approval for its own host, port, protocol and
    environment, given under a policy that permits asking: one remembered for the session,
    looked up while the host was not denied, or one of the review it made or joined; and a host
    denied in the meantime is not allowed by it, unless the reviewer chose the rule that allows
    the host. *)
Theorem allowed_request_authorised (h : history) (sys : System) (i : nat) (request : Request) (g : option PendingHostApprovalOwner) :
  reachable (h, sys) → sys_tasks sys !! i = Some (mkTask (JobRequest request) g (Ret (Some DecideAllow))) →
  ∃ environment_id, (∀ e, req_environment_id request = Some e → environment_id = e) ∧ authorised h i request environment_id.
Proof.
  intros Hr Ht. destruct (system_reachable_ok _ Hr) as [I T _]. destruct (T i _ Ht) as [_ Ha]. destruct (Ha eq_refl) as (r & [= <-] & e & He & Hg).
  exists e. split; [done|]. destruct Hg as [[dn Hin]|(j & o & d & dn & Hin & Hd & Hk & Hj)]; [left|right].
  - exists dn. split; [done|]. by apply (inv_hit _ I i).
  - exists j, o, d, dn. split; [done|]. split; [done|]. split; [done|]. rewrite <- Hk. by apply (inv_allowed _ I j o d dn).
Qed.

(** * Denials *)

(** A program run without interference; [None] when it is blocked or asks. *)
Fixpoint run_alone {A} (i : nat) (p : prog A) (s : NetworkApprovalService) (g : option PendingHostApprovalOwner) : option (A * NetworkApprovalService) :=
  match p with
  | Ret a => Some (a, s)
  | Panic => None
  | Ask e k => match perform i e s g with Some (r, s', g') => run_alone i (k r) s' g' | None => None end
  end.

Lemma step_cancelled c c' : step c c' → ok c → cancelled_tokens (sys_service c.2) ⊆ cancelled_tokens (sys_service c'.2).
Proof.
  intros Hs [I T _]. destruct Hs as [| h s ts i j g R e k r s' g' Hi Heff| |h s ts source]; try done; cbn.
  - pose proof (T i _ Hi) as Hsafe. cbn in Hsafe. destruct (Hsafe _ (rely_same i h s) I) as (Hpre & _ & _).
    destruct (effect_pending (S i) i e h s g r s' g') as (_ & _ & _ & _ & Hc); [lia|done..].
  - by destruct s.
Qed.

Lemma steps_cancelled c c' : rtc step c c' → ok c → cancelled_tokens (sys_service c.2) ⊆ cancelled_tokens (sys_service c'.2).
Proof.
  induction 1 as [|c c1 c2 Hs _ IH]; [done|]. intros Hok. etrans; [by apply step_cancelled|]. apply IH. by apply (system_step_ok c).
Qed.

(** The outcome of a cancelled call is an error. *)
Lemma finish_cancelled i registration_id t s :
  t ∈ cancelled_tokens s → ∃ message s', run_alone i (finish registration_id t) s None = Some (Err (Rejected message), s').
Proof.
  intros Ht. cbn. destruct (finish_once t registration_id s) as [[outcome|] s'] eqn:Ef; [by eexists _, _|].
  assert (cancelled_tokens s' = cancelled_tokens s) as Ec.
  { unfold finish_once, remove_call in Ef. destruct (finish_outcomes s !! t); simplify_eq; [done|]. by destruct s. }
  cbn. rewrite Ec, bool_decide_true by done. by eexists _, _.
Qed.

(** C40: A denied request fails its tool call. Once the owner of a review has published a denial,
    by an answer, an error, a cancellation or because it was dropped, the token of the call the
    review belongs to is cancelled, and from then on the call finishes with a rejection,
    whatever else happens; only a drop because the process had already finished is excepted. *)
Theorem denied_call_fails (h h' : history) (sys sys' : System) (j i : nat) (o : PendingHostApprovalOwner)
    (denied : gset HostApprovalKey) (t : nat) (registration_id : str) :
  reachable (h, sys) → Ev j (Published o DenyPending denied) ∈ h → ow_execution_cancellation o = Some t →
  Ev j (Withdrawn ProcessFinished) ∉ h → rtc step (h, sys) (h', sys') →
  t ∈ cancelled_tokens (sys_service sys')
  ∧ ∃ message s', run_alone i (finish registration_id t) (sys_service sys') None = Some (Err (Rejected message), s').
Proof.
  intros Hr Hp Ht Hw Hs. pose proof (system_reachable_ok _ Hr) as Hok.
  assert (t ∈ cancelled_tokens (sys_service sys')) as Hc.
  { apply (steps_cancelled _ _ Hs Hok). by destruct (inv_denied _ (ok_inv _ Hok) j o denied t Hp Ht). }
  split; [done|]. by apply finish_cancelled.
Qed.

(** * Progress *)

Definition unfinished (t : Task) : Prop := match task_prog t with Ret _ => False | _ => True end.

(** Task [i] can run its next operation. *)
Definition can_run (sys : System) (i : nat) : Prop :=
  ∃ j g R (e : op R) k r s' g', sys_tasks sys !! i = Some (mkTask j g (Ask e k)) ∧ effect i e (sys_service sys) g r s' g'.

(** What an operation waits for: the holder of the lock, or an undecided review. *)
Definition blocked {R} (e : op R) (s : NetworkApprovalService) : option (nat + nat) :=
  match e with
  | LockCommit => inl <$> commit_lock s
  | WaitForDecision p => match decision_of p s with None => Some (inr p) | Some _ => None end
  | _ => None
  end.

Lemma answerable {R} (e : op R) s : asks e = true → ∃ r, may_answer e s r.
Proof.
  destruct e; intros Ha; try discriminate Ha; cbn.
  - by exists None.
  - by exists None.
  - by exists None.
  - by exists [].
  - exists (Some (Ok RevApproved)). discriminate.
  - by exists (Ok tt).
  - by exists [].
  - by exists true.
  - by exists (Ok tt).
  - by exists (Ok tt).
  - by exists tt.
  - by exists tt.
Qed.

Lemma unblocked_runs {R} i (e : op R) s g : blocked e s = None → ∃ r s' g', effect i e s g r s' g'.
Proof.
  intros Hb. unfold effect. destruct (asks e) eqn:Ha.
  { destruct (answerable e s Ha) as [r Hr]. by exists r, s, g. }
  cut (∃ x, perform i e s g = Some x); [intros [[[r s'] g'] Hp]; by exists r, s', g'|].
  destruct e; try discriminate Ha; cbn in *; try (by eexists).
  - destruct execution_id; by eexists.
  - destruct (commit_lock s); [done|]. by eexists.
  - destruct (decision_of pending s); [|done]. by eexists.
Qed.

Section progress.
Context (h : history) (sys : System) (Hok : ok (h, sys)).
Notation s := (sys_service sys).

(** What is known of a task that has not returned. *)
Lemma task_next i t :
  sys_tasks sys !! i = Some t → unfinished t →
  ∃ j g R (e : op R) k, t = mkTask j g (Ask e k) ∧ pre i e (h, s) g.
Proof.
  intros Ht Hu. pose proof (ok_task _ Hok i t Ht) as Hs. destruct t as [j g p]. unfold task_ok in Hs. cbn in *.
  destruct p as [a| |R e k]; [done|done|]. destruct (Hs _ (rely_same i h s) (ok_inv _ Hok)) as (Hpre & _). by exists j, g, R, e, k.
Qed.

Lemma runs_unblocked i j g R (e : op R) k :
  sys_tasks sys !! i = Some (mkTask j g (Ask e k)) → blocked e s = None → can_run sys i.
Proof. intros Ht Hb. destruct (unblocked_runs i e s g Hb) as (r & s' & g' & Heff). by exists j, g, R, e, k, r, s', g'. Qed.

(** A task that holds the lock or owes a decision has not returned. *)
Lemma busy_unfinished i t key p :
  sys_tasks sys !! i = Some t →
  commit_lock s = Some i ∨ (Ev i (Created key p) ∈ h ∧ pending_decisions s !! p = Some None) → unfinished t.
Proof.
  intros Ht Hb. pose proof (ok_task _ Hok i t Ht) as Hs. destruct t as [j g q]. unfold task_ok, unfinished in *. cbn in *.
  destruct q as [a| |]; [|done|done]. destruct Hs as [(_ & Hl & Hd) _]. unfold locks in Hl. apply bool_decide_eq_false in Hl. cbn in *.
  destruct Hb as [Hb|[Hc Hp]]; [done|]. destruct (Hd key p Hc) as [d Hd']. by rewrite Hd' in Hp.
Qed.

Lemma holder_runs i : commit_lock s = Some i → can_run sys i.
Proof.
  intros Hl. destruct (sys_tasks sys !! i) as [t|] eqn:Ht; [|by destruct (ok_fresh _ Hok i Ht)].
  assert (unfinished t) as Hu by (eapply (busy_unfinished i t (mkPendingKey (mkHostKey [] [] [] 0) [] None) 0); [done|by left]).
  destruct (task_next i t Ht Hu) as (j & g & R & e & k & -> & Hpre). eapply runs_unblocked; [done|].
  destruct e; cbn in *; try done. by destruct Hpre.
Qed.

Lemma owner_runs i key p : Ev i (Created key p) ∈ h → pending_decisions s !! p = Some None → ∃ j, can_run sys j.
Proof.
  intros Hc Hp. destruct (sys_tasks sys !! i) as [t|] eqn:Ht; [|by destruct (ok_fresh _ Hok i Ht) as [Hn _]; apply Hn in Hc].
  assert (unfinished t) as Hu by (eapply busy_unfinished; [done|by right]).
  destruct (task_next i t Ht Hu) as (j & g & R & e & k & -> & Hpre).
  destruct (blocked e s) as [b|] eqn:Hb; [|exists i; by eapply runs_unblocked].
  destruct e; try discriminate Hb; cbn in *.
  - destruct (commit_lock s) as [l|] eqn:El; [|done]. exists l. by apply holder_runs.
  - destruct Hpre as (_ & _ & Hn). by apply Hn in Hc.
Qed.
End progress.

(** C7: No request is left behind. In every reachable system in which some task has not returned,
    some task can run: the holder of the commit lock never waits, a review that is waited for
    has an owner that has not returned and does not itself wait for one, and an owner that is
    dropped decides its review. As every program is finite, waiting requests are answered once
    the calls to the outside are. *)
Theorem no_request_left_behind (h : history) (sys : System) (i : nat) (t : Task) :
  reachable (h, sys) → sys_tasks sys !! i = Some t → unfinished t → ∃ j, can_run sys j.
Proof.
  intros Hr Ht Hu. pose proof (system_reachable_ok _ Hr) as Hok.
  destruct (task_next h sys Hok i t Ht Hu) as (j & g & R & e & k & -> & Hpre).
  destruct (blocked e (sys_service sys)) as [b|] eqn:Hb; [|exists i; by eapply runs_unblocked].
  destruct e; try discriminate Hb; cbn in *.
  - destruct (commit_lock (sys_service sys)) as [l|] eqn:El; [|done]. exists l. by eapply holder_runs.
  - destruct Hpre as (_ & Hlt & _). destruct (inv_all _ (ok_inv _ Hok) pending Hlt) as (j' & key & Hc). eapply owner_runs; [done|done|].
    unfold decision_of in Hb. apply lookup_lt_is_Some in Hlt as [[d|] Hd]; [|exact Hd]. cbn in Hd. by rewrite Hd in Hb.
Qed.

(** * Examples *)

(** Executions as scripts: tasks that are started, run one operation, with the reply from outside
    where one is needed, or dropped. *)
Inductive reply := RNone | RTurn (turn : option ActiveTurnContext) | RText (x : str) | RReview (x : result ReviewError ReviewDecision).

Definition reply_to {R} (e : op R) (x : reply) : option R :=
  match e with
  | CancellationReason => Some None
  | DisconnectElapsed => Some None
  | ActiveTurn => match x with RTurn turn => Some turn | _ => None end
  | NewUuid => match x with RText u => Some u | _ => None end
  | RequestReview _ _ _ => match x with RReview a => Some (Some a) | _ => None end
  | _ => None
  end.

Inductive action := Start (i : nat) (j : job) | Run (i : nat) (x : reply) | DropTask (i : nat).

Definition do_action (c : history * System) (a : action) : option (history * System) :=
  let '(h, mkSystem s ts) := c in
  match a with
  | Start i j => match ts !! i with None => Some (h, mkSystem s (<[i := mkTask j None (job_prog j)]> ts)) | Some _ => None end
  | Run i x =>
      match ts !! i with
      | Some (mkTask j g (Ask e k)) =>
          match (if asks e then (λ r, (r, s, g)) <$> reply_to e x else perform i e s g) with
          | Some (r, s', g') => Some (h ++ (Ev i <$> observe e s g r), mkSystem s' (<[i := mkTask j g' (k r)]> ts))
          | None => None
          end
      | _ => None
      end
  | DropTask i =>
      match ts !! i with
      | Some (mkTask j g (Ask e k)) =>
          if awaits e then Some (h, mkSystem s (<[i := mkTask j g (drop_task (bool_decide (commit_lock s = Some i)) g)]> ts)) else None
      | _ => None
      end
  end.

Definition play (l : list action) : option (history * System) :=
  foldl (λ c a, c ≫= (λ c, do_action c a)) (Some ([], mkSystem new_service ∅)) l.

Lemma reply_may {R} (e : op R) x r s : reply_to e x = Some r → may_answer e s r.
Proof. destruct e; cbn; try done. by destruct x; intros [= <-]. Qed.

Lemma do_action_step c a c' : do_action c a = Some c' → step c c'.
Proof.
  destruct c as [h [s ts]]. destruct a as [i j|i x|i]; cbn.
  - destruct (ts !! i) eqn:Ht; [done|]. intros [= <-]. by apply step_start.
  - destruct (ts !! i) as [[j g [| |R e k]]|] eqn:Ht; try done.
    destruct (asks e) eqn:Ha; [destruct (reply_to e x) as [r|] eqn:Hr; [|done]|destruct (perform i e s g) as [[[r s'] g']|] eqn:Hp; [|done]];
      intros [= <-]; eapply step_run; try done; unfold effect; rewrite Ha; [|done]. split; [by eapply reply_may|done].
  - destruct (ts !! i) as [[j g [| |R e k]]|] eqn:Ht; try done. destruct (awaits e) eqn:Ha; [|done]. intros [= <-]. by eapply step_drop.
Qed.

Lemma play_reachable l c : play l = Some c → reachable c.
Proof.
  revert c. induction l as [|a l IH] using rev_ind; intros c; unfold play; [intros [= <-]; apply rtc_refl|].
  rewrite foldl_app. cbn. intros (c1 & H1 & H2)%bind_Some. eapply rtc_r; [by apply IH|by eapply do_action_step].
Qed.

(** The system a script leads to. *)
Definition final (l : list action) : history * System := default ([], mkSystem new_service ∅) (play l).

Lemma final_reachable l : reachable ((final l).1, (final l).2).
Proof. unfold final. destruct (play l) as [[h sys]|] eqn:Hp; cbn; [by eapply play_reachable|apply rtc_refl]. Qed.

Definition example_environment : Environment := mkEnvironment (lit "local") (Managed ManagedUnrestricted NetworkRestricted) None.
Definition example_turn : ActiveTurnContext := mkActiveTurn (lit "turn") (lit "/") OnRequest [example_environment] false.
Definition example_request (execution_id : option str) : Request :=
  mkRequest (lit "Example.com") 443 (Some (lit "local")) execution_id (mkRest ProtoHttpsConnect false false).

Definition run_many (i n : nat) : list action := replicate n (Run i RNone).

(** A request up to the review it creates or joins; with the call it belongs to, [n] is 2. *)
Definition to_review (i n : nat) : list action := run_many i n ++ [Run i (RTurn (Some example_turn))] ++ run_many i 5.

(** Two requests for the same host share a review. *)
Definition example_shared : list action :=
  [Start 0 (JobRequest (example_request None)); Start 1 (JobRequest (example_request None))]
  ++ to_review 0 1 ++ [Run 0 RNone; Run 0 (RText (lit "u"))] ++ to_review 1 1.

Definition example_approved : list action := example_shared ++ [Run 0 (RReview (Ok RevApproved))] ++ run_many 0 6 ++ [Run 1 RNone].

(** A request of a tool call is dropped while its review is pending. *)
Definition example_dropped : list action :=
  [Start 0 (JobBegin (lit "turn") None (lit "curl") (lit "local") (Managed ManagedUnrestricted NetworkRestricted) [example_environment]);
   Run 0 (RText (lit "call")); Run 0 RNone; Run 0 RNone; Start 1 (JobRequest (example_request (Some (lit "call"))))]
  ++ to_review 1 2 ++ [Run 1 RNone; Run 1 (RText (lit "u")); DropTask 1] ++ run_many 1 3.

Lemma allowed_request_authorised_witness :
  ∃ environment_id, (∀ e, Some (lit "local") = Some e → environment_id = e)
  ∧ authorised (final example_approved).1 1 (example_request None) environment_id.
Proof.
  apply (allowed_request_authorised (final example_approved).1 (final example_approved).2 1 (example_request None) None);
    [apply final_reachable|vm_compute; reflexivity].
Defined.

Definition example_owner : PendingHostApprovalOwner :=
  mkOwner (mkPendingKey (from_request (example_request None) ApprovalHttps (lit "local")) (lit "turn") (Some (lit "call"))) 0 (Some 0) false false DenyPending.

(** The events of [example_dropped]. *)
Lemma example_dropped_history :
  (final example_dropped).1 = [Ev 1 (Created (ow_key example_owner) 0); Ev 1 (Published example_owner DenyPending ∅)].
Proof. vm_compute. reflexivity. Qed.

Lemma denied_call_fails_witness :
  0 ∈ cancelled_tokens (sys_service (final example_dropped).2)
  ∧ ∃ message s', run_alone 2 (finish (lit "call") 0) (sys_service (final example_dropped).2) None = Some (Err (Rejected message), s').
Proof.
  apply (denied_call_fails (final example_dropped).1 (final example_dropped).1 (final example_dropped).2 (final example_dropped).2 1 2
    example_owner ∅ 0 (lit "call")); [apply final_reachable| |reflexivity| |apply rtc_refl]; rewrite example_dropped_history.
  - apply list_elem_of_further, list_elem_of_here.
  - intros Hin. repeat (apply elem_of_cons in Hin as [Hin|Hin]; [discriminate Hin|]). by apply not_elem_of_nil in Hin.
Defined.

Lemma no_request_left_behind_witness : ∃ j, can_run (final example_shared).2 j.
Proof.
  assert ((λ t, match task_prog t with Ret _ => false | _ => true end) <$> sys_tasks (final example_shared).2 !! 1 = Some true) as Hu
    by (vm_compute; reflexivity).
  destruct (sys_tasks (final example_shared).2 !! 1) as [t|] eqn:Ht; [|discriminate Hu].
  apply (no_request_left_behind (final example_shared).1 (final example_shared).2 1 t); [apply final_reachable|exact Ht|].
  unfold unfinished. injection Hu as Hu. destruct (task_prog t); [discriminate Hu|exact I|exact I].
Defined.
