(* ===== verification/WorldState.v ===== *)
(** core/src/context/world_state/mod.rs: what the model was told about its surroundings is kept as
    a snapshot per section; changes are recorded as RFC 7386 merge patches, and a resumed
    session replays the records. With the methods of core/src/context_manager/history.rs that
    write the records and the replay of core/src/session/rollout_reconstruction.rs. JSON objects
    are finite maps; the sections, their texts and their (de)serialisation are parameters. *)
From S2P Require Import Prelude Str.

(** * JSON values *)

Inductive Json :=
| JNull
| JBool (b : bool)
| JNumber (n : str)
| JString (s : str)
| JArray (l : list Json)
| JObject (m : gmap str Json).

Fixpoint json_size (j : Json) : nat :=
  match j with
  | JArray l => S (foldr (λ x n, json_size x + n) 0 l)
  | JObject m => S (map_fold (λ _ x n, json_size x + n) 0 m)
  | _ => 1
  end.

Fixpoint json_eqb (a b : Json) : bool :=
  match a, b with
  | JNull, JNull => true
  | JBool x, JBool y => Bool.eqb x y
  | JNumber x, JNumber y => bool_decide (x = y)
  | JString x, JString y => bool_decide (x = y)
  | JArray l, JArray l' =>
      (fix go l l' := match l, l' with [], [] => true | x :: l, y :: l' => json_eqb x y && go l l' | _, _ => false end) l l'
  | JObject m, JObject m' =>
      map_fold (λ k x r, match m' !! k with Some y => json_eqb x y | None => false end && r) true m && bool_decide (size m = size m')
  | _, _ => false
  end.

Definition is_null (j : Json) : bool := match j with JNull => true | _ => false end.

(** * Merge patches *)

Definition as_object (j : Json) : option (gmap str Json) := match j with JObject m => Some m | _ => None end.

(** The fields of the previous object that are gone, as nulls. *)
Definition removals (previous current : gmap str Json) : gmap str Json := (λ _, JNull) <$> (previous ∖ current).

Fixpoint create_merge_patch (previous current : Json) : option Json :=
  if json_eqb previous current then None
  else match current with
  | JObject c =>
      let previous := as_object previous in
      let patch := match previous with Some p => removals p c | None => ∅ end in
      Some (JObject (map_fold (λ key current_value patch,
        match previous ≫= (.!! key) with
        | None => <[key := current_value]> patch
        | Some previous_value =>
            match create_merge_patch previous_value current_value with
            | Some value_patch => <[key := value_patch]> patch
            | None => patch
            end
        end) patch c))
  | _ => Some current
  end.

Fixpoint apply_merge_patch_value (target patch : Json) : Json :=
  match patch with
  | JObject p =>
      JObject (map_fold (λ key value target,
        match value with
        | JNull => delete key target
        | _ =>
            match target !! key with
            | Some current => <[key := apply_merge_patch_value current value]> target
            | None => <[key := apply_merge_patch_value JNull value]> target
            end
        end) (default ∅ (as_object target)) p)
  | _ => patch
  end.

Fixpoint remove_null_object_fields (value : Json) : Json :=
  match value with
  | JObject m =>
      JObject (map_fold (λ key v m, if is_null v then m else <[key := remove_null_object_fields v]> m) ∅ m)
  | _ => value
  end.

(** ** Snapshots *)

Notation WorldStateSnapshot := (gmap str Json).

Definition merge_patch_from (current previous : WorldStateSnapshot) : option (gmap str Json) :=
  let patch :=
    map_fold (λ key value patch,
      match previous !! key with
      | Some previous_value =>
          match create_merge_patch previous_value value with Some v => <[key := v]> patch | None => patch end
      | None => <[key := value]> patch
      end) (removals previous current) current in
  if bool_decide (patch = ∅) then None else Some patch.

Definition apply_merge_patch (sections patch : WorldStateSnapshot) : WorldStateSnapshot :=
  map_fold (λ key value sections,
    if is_null value then delete key sections
    else match sections !! key with
    | Some current => <[key := apply_merge_patch_value current value]> sections
    | None => <[key := apply_merge_patch_value JNull value]> sections
    end) sections patch.

Record WorldStateItem := mkWorldState { ws_full : bool; ws_state : gmap str Json }.
Definition item_full (state : gmap str Json) : WorldStateItem := mkWorldState true state.
Definition item_patch (state : gmap str Json) : WorldStateItem := mkWorldState false state.

(** * Sections *)

Inductive PreviousSectionState {T : Type} := Absent | Unknown | Known (previous : T).
Arguments PreviousSectionState : clear implicits.

Section sections.
Context {Update : Type}.

(** [WorldStateSection]: [to_value] and [of_value] are serde's, [None] where they fail. *)
Record WorldStateSection := mkSection {
  Snapshot : Type;
  should_persist : bool;
  to_value : Snapshot → option Json;
  of_value : Json → option Snapshot;
  typed_render_diff : PreviousSectionState Snapshot → option Snapshot * list Update
}.

(** A section of the program or one contributed by an extension, with its matchers of retained and
    of older texts. *)
Inductive SectionKind :=
| Typed (s : WorldStateSection)
| Extension (render_diff : PreviousSectionState Json → option Json * list Update).

Record ErasedWorldStateSection := mkErased {
  matches_legacy_fragment : str → str → bool;
  has_retained_fragment_matcher : bool;
  matches_retained_fragment : str → str → bool;
  kind : SectionKind
}.

Definition section_snapshot (s : WorldStateSection) (snapshot : Snapshot s) : option Json :=
  if negb (should_persist s) then None
  else
    v ← to_value s snapshot;
    let v := remove_null_object_fields v in
    if is_null v then None else Some v.

(** [ErasedWorldStateSection::render_diff] *)
Definition render_diff (s : ErasedWorldStateSection) (previous : PreviousSectionState Json) : option Json * list Update :=
  match kind s with
  | Typed t =>
      let previous :=
        match previous with
        | Known v => match of_value t v with Some typed => Known typed | None => Unknown end
        | Absent => Absent
        | Unknown => Unknown
        end in
      let '(snapshot, updates) := typed_render_diff t previous in
      ((λ x, default JNull (section_snapshot t x)) <$> snapshot, updates)
  | Extension render => let '(snapshot, updates) := render previous in (remove_null_object_fields <$> snapshot, updates)
  end.

(** The messages of a history: their role and their input texts. *)
Notation messages := (list (str * list str)).

Definition has_retained_fragment (items : messages) (s : ErasedWorldStateSection) : bool :=
  existsb (λ '(role, texts), existsb (matches_retained_fragment s role) texts) items.

Definition has_legacy_fragment (items : messages) (s : ErasedWorldStateSection) : bool :=
  existsb (λ '(role, texts), existsb (matches_legacy_fragment s role) texts) items.

(** [WorldState]: sections by their identifiers, in order. *)
Notation WorldState := (list (str * ErasedWorldStateSection)).

(** A section under an identifier in use is a panic, [None]. *)
Definition add_section (id : str) (section : ErasedWorldStateSection) (w : WorldState) : option WorldState :=
  if existsb (λ e, e.1 =s id) w then None else Some (w ++ [(id, section)]).

(** Host skills go before the permissions. *)
Fixpoint insert_before (before : str) (e : str * ErasedWorldStateSection) (w : WorldState) : option WorldState :=
  match w with
  | [] => None
  | x :: w => if x.1 =s before then Some (e :: x :: w) else cons x <$> insert_before before e w
  end.

Definition add_extension_section (id : str) (section : ErasedWorldStateSection) (w : WorldState) : option WorldState :=
  if existsb (λ e, e.1 =s id) w then None
  else
    match (if id =s lit "host_skills" then insert_before (lit "permissions") (id, section) w else None) with
    | Some w' => Some w'
    | None => Some (w ++ [(id, section)])
    end.

Definition render_section (stored : option WorldStateSnapshot) (previous : str → ErasedWorldStateSection → PreviousSectionState Json)
    (acc : WorldStateSnapshot * list Update) (entry : str * ErasedWorldStateSection) : WorldStateSnapshot * list Update :=
  let '(snapshot, updates) := acc in
  let '(id, section) := entry in
  let '(section_snapshot, section_updates) := render_diff section (previous id section) in
  let section_snapshot := match section_snapshot with Some v => Some v | None => stored ≫= (.!! id) end in
  (match section_snapshot with
   | Some v => if is_null v then snapshot else <[id := v]> snapshot
   | None => snapshot
   end, updates ++ section_updates).

Definition render_with (w : WorldState) (stored : option WorldStateSnapshot)
    (previous : str → ErasedWorldStateSection → PreviousSectionState Json) : WorldStateSnapshot * list Update :=
  foldl (render_section stored previous) (∅, []) w.

Definition render_full (w : WorldState) : WorldStateSnapshot * list Update := render_with w None (λ _ _, Absent).

Definition render_history_diff (w : WorldState) (previous : option WorldStateSnapshot) (items : messages)
    : WorldStateSnapshot * list Update :=
  render_with w previous (λ id section,
    match previous ≫= (.!! id) with
    | Some v => if has_retained_fragment_matcher section && negb (has_retained_fragment items section) then Absent else Known v
    | None => if has_legacy_fragment items section then Unknown else Absent
    end).

(** * A session and its records *)

(** [ContextManager::world_state_item] *)
Definition world_state_item (baseline : option WorldStateSnapshot) (snapshot : WorldStateSnapshot) : option WorldStateItem :=
  match baseline with
  | None => Some (item_full snapshot)
  | Some previous => item_patch <$> merge_patch_from snapshot previous
  end.

(** [ContextManager::update_world_state]: the new baseline, the updates for the model and the
    record to write. *)
Definition update_world_state (baseline : option WorldStateSnapshot) (w : WorldState) (items : messages)
    : option WorldStateSnapshot * list Update * option WorldStateItem :=
  let '(snapshot, updates) := render_history_diff w baseline items in
  (Some snapshot, updates, world_state_item baseline snapshot).

Definition world_state_checkpoint (baseline : option WorldStateSnapshot) : option WorldStateItem := item_full <$> baseline.

(** The records that matter for the baseline: a compaction, which resets it, and the items. *)
Inductive BaselineRecord := CompactedRecord | WorldStateRecord (item : WorldStateItem).

(** The loop of [reconstruct_rollout] over the records in order. *)
Definition replay_record (baseline : option WorldStateSnapshot) (r : BaselineRecord) : option WorldStateSnapshot :=
  match r with
  | CompactedRecord => None
  | WorldStateRecord item =>
      if ws_full item then Some (ws_state item)
      else match baseline with
      | Some b => Some (apply_merge_patch b (ws_state item))
      | None => None
      end
  end.

Definition replay_records (records : list BaselineRecord) : option WorldStateSnapshot := foldl replay_record None records.
End sections.
Arguments WorldStateSection : clear implicits.
Arguments ErasedWorldStateSection : clear implicits.
Arguments SectionKind : clear implicits.

(** * Objects *)

(** A fold that changes one key per entry, key by key. *)
Lemma fold_pointwise {A B} (f : str → A → gmap str B → gmap str B) (u : str → A → option B → option B) (t : gmap str B) (p : gmap str A) (k : str) :
  (∀ key a t k, f key a t !! k = if decide (k = key) then u key a (t !! k) else t !! k) →
  map_fold f t p !! k = match p !! k with Some a => u k a (t !! k) | None => t !! k end.
Proof.
  intros Hf. revert k. apply (map_fold_weak_ind (λ r p, ∀ k, r !! k = match p !! k with Some a => u k a (t !! k) | None => t !! k end)); [done|].
  intros key a m r Hm IH k. rewrite Hf. destruct (decide (k = key)) as [->|Hne].
  - rewrite lookup_insert_eq, (IH key), Hm. done.
  - rewrite lookup_insert_ne by done. apply IH.
Qed.

Lemma fold_andb {A} (q : str → A → bool) (m : gmap str A) :
  map_fold (λ k x r, q k x && r) true m = true ↔ ∀ k x, m !! k = Some x → q k x = true.
Proof.
  apply (map_fold_weak_ind (λ r m, r = true ↔ ∀ k x, m !! k = Some x → q k x = true)).
  - split; [|done]. intros _ k x Hx. by rewrite lookup_empty in Hx.
  - intros k x m' r Hk IH. rewrite andb_true_iff, IH. split.
    + intros [Hq Hm] k' x' [[<- <-]|[_ Hx]]%lookup_insert_Some; [done|by apply Hm].
    + intros Hm. split; [apply Hm; by rewrite lookup_insert_eq|]. intros k' x' Hx. apply Hm. rewrite lookup_insert_ne; [done|]. intros <-. by rewrite Hk in Hx.
Qed.

Lemma fold_sum {A} (f : A → nat) (m : gmap str A) k x : m !! k = Some x → f x ≤ map_fold (λ _ x n, f x + n) 0 m.
Proof.
  revert k x. apply (map_fold_weak_ind (λ r m, ∀ k x, m !! k = Some x → f x ≤ r)).
  - intros k x Hx. by rewrite lookup_empty in Hx.
  - intros k x m' r Hk IH k' x' [[<- <-]|[_ Hx]]%lookup_insert_Some; [lia|]. specialize (IH k' x' Hx). lia.
Qed.

Lemma field_size m k v : m !! k = Some v → json_size v < json_size (JObject m).
Proof. intros Hv. cbn [json_size]. apply (fold_sum json_size) in Hv. lia. Qed.

Lemma element_size l v : v ∈ l → json_size v < json_size (JArray l).
Proof.
  intros Hv. cbn [json_size]. induction l as [|x l IH]; [by apply not_elem_of_nil in Hv|]. cbn [foldr].
  apply elem_of_cons in Hv as [->|Hv]; [lia|]. specialize (IH Hv). lia.
Qed.

Lemma json_size_ind (P : Json → Prop) : (∀ j, (∀ j', json_size j' < json_size j → P j') → P j) → ∀ j, P j.
Proof. intros Hstep j. apply (well_founded_ind (well_founded_ltof _ json_size)). exact Hstep. Qed.

(** Induction over values: fields and elements come first. *)
Lemma json_rect (P : Json → Prop) :
  (∀ j, as_object j = None → (∀ l, j = JArray l → Forall P l) → P j) →
  (∀ m, (∀ k v, m !! k = Some v → P v) → P (JObject m)) → ∀ j, P j.
Proof.
  intros Hother Hobj. apply json_size_ind. intros j IH. destruct j as [| | | |l|m]; try (apply Hother; [done|by intros ? [=]]).
  - apply Hother; [done|]. intros ? [= <-]. apply Forall_forall. intros v Hv. by apply IH, element_size.
  - apply Hobj. intros k v Hv. by eapply IH, field_size.
Qed.

Lemma json_eqb_eq a b : json_eqb a b = true ↔ a = b.
Proof.
  revert b. induction a as [a Ha Hl|m IH] using json_rect; intros b.
  - destruct a as [|x|x|x|l|]; try done; destruct b as [|y|y|y|l'|]; cbn; try (split; (done || (intros [=]; done))).
    + rewrite eqb_true_iff. split; congruence.
    + rewrite bool_decide_eq_true. split; congruence.
    + rewrite bool_decide_eq_true. split; congruence.
    + specialize (Hl l eq_refl). clear Ha. transitivity (l = l'); [|split; congruence].
      revert l'. induction Hl as [|x l Hx Hl IH]; intros [|y l']; try done. rewrite andb_true_iff, Hx, IH. split; [intros [-> ->]; done|intros [= -> ->]; done].
  - destruct b as [| | | | |m']; cbn; try done. rewrite andb_true_iff, fold_andb, bool_decide_eq_true. split.
    + intros [Hm Hs]. f_equal. apply map_subseteq_size_eq; [|lia]. apply map_subseteq_spec. intros k x Hx. specialize (Hm k x Hx).
      destruct (m' !! k) as [y|] eqn:Hy; [|done]. apply (IH k x Hx) in Hm as ->. done.
    + intros [= <-]. split; [|done]. intros k x Hx. rewrite Hx. by apply (IH k x Hx).
Qed.

(** * Merge patches *)

(** What a patch entry does to a field. *)
Definition patch_field (value : Json) (current : option Json) : option Json :=
  match value with JNull => None | _ => Some (apply_merge_patch_value (default JNull current) value) end.

Lemma apply_object t p :
  ∃ r, apply_merge_patch_value t (JObject p) = JObject r
  ∧ ∀ k, r !! k = match p !! k with Some v => patch_field v (default ∅ (as_object t) !! k) | None => default ∅ (as_object t) !! k end.
Proof.
  eexists. split; [reflexivity|]. intros k. apply (fold_pointwise _ (λ _, patch_field)). clear. intros key v t k.
  destruct (decide (k = key)) as [->|Hne].
  - destruct v; cbn [patch_field]; try (destruct (t !! key); by rewrite lookup_insert_eq). by rewrite lookup_delete_eq.
  - destruct v; try (destruct (t !! key); by rewrite lookup_insert_ne). by rewrite lookup_delete_ne.
Qed.

(** No field of an object is null, at any depth; elements of arrays may be. *)
Fixpoint tidy (j : Json) : bool :=
  match j with
  | JObject m => map_fold (λ _ v r, (negb (is_null v) && tidy v) && r) true m
  | _ => true
  end.

Definition tidy_fields (m : gmap str Json) : Prop := ∀ k v, m !! k = Some v → v ≠ JNull ∧ tidy v = true.

Lemma tidy_object m : tidy (JObject m) = true ↔ tidy_fields m.
Proof.
  cbn [tidy]. rewrite (fold_andb (λ _ v, negb (is_null v) && tidy v)). split; intros Hm k v Hv; specialize (Hm k v Hv).
  - apply andb_true_iff in Hm as [Hn Ht]. split; [by intros ->|done].
  - destruct Hm as [Hn ->]. by destruct v.
Qed.

Lemma object_eq (r m : gmap str Json) : (∀ k, r !! k = m !! k) → JObject r = JObject m.
Proof. intros He. f_equal. by apply map_eq. Qed.

(** Applied to what is not an object, a tidy value gives itself. *)
Lemma apply_fresh v t : tidy v = true → as_object t = None → apply_merge_patch_value t v = v.
Proof.
  revert t. induction v as [v Hv _|m IH] using json_rect; intros t Ht Ho; [by destruct v|]. apply tidy_object in Ht.
  destruct (apply_object t m) as (r & -> & Hr). apply object_eq. intros k. rewrite Hr, Ho. cbn [default]. rewrite lookup_empty.
  destruct (m !! k) as [v|] eqn:Hv; [|done]. destruct (Ht k v Hv) as [Hn Htv].
  destruct v; try done; cbn [patch_field default from_option id]; f_equal; by apply (IH k).
Qed.

(** The patch entry for a field that is there now. *)
Definition field_patch (previous : option Json) (current : Json) : option Json :=
  match previous with None => Some current | Some p => create_merge_patch p current end.

(** ** Patches between objects *)

Lemma removals_lookup p c k : removals p c !! k = match c !! k with Some _ => None | None => (λ _, JNull) <$> p !! k end.
Proof.
  unfold removals. rewrite lookup_fmap, lookup_difference. by destruct (c !! k); [|destruct (p !! k)].
Qed.

(** The patch from the fields [p] to the fields [c], field by field. *)
Definition is_patch (p c q : gmap str Json) : Prop :=
  ∀ k, q !! k = match c !! k with Some v => field_patch (p !! k) v | None => (λ _, JNull) <$> p !! k end.

Lemma create_is_patch (p c : gmap str Json) (previous : option (gmap str Json)) :
  default ∅ previous = p →
  is_patch p c (map_fold (λ key current_value patch,
        match previous ≫= (.!! key) with
        | None => <[key := current_value]> patch
        | Some previous_value =>
            match create_merge_patch previous_value current_value with
            | Some value_patch => <[key := value_patch]> patch
            | None => patch
            end
        end) (match previous with Some p => removals p c | None => ∅ end) c).
Proof.
  intros Hp k. assert (previous ≫= (.!! k) = p !! k) as Ek by (subst p; destruct previous; cbn; [done|by rewrite lookup_empty]).
  rewrite (fold_pointwise _ (λ key v t, match field_patch (previous ≫= (.!! key)) v with Some x => Some x | None => t end)).
  - rewrite Ek. assert (match previous with Some p => removals p c | None => ∅ end !! k
        = match c !! k with Some _ => None | None => (λ _, JNull) <$> p !! k end) as ->.
    { subst p. destruct previous as [p|]; [apply removals_lookup|]. cbn. rewrite lookup_empty. by destruct (c !! k). }
    destruct (c !! k); [|done]. by destruct (field_patch _ _).
  - clear. intros key v t k. destruct (previous ≫= (.!! key)) as [pv|]; cbn [field_patch].
    + destruct (create_merge_patch pv v); destruct (decide (k = key)) as [->|Hne]; rewrite ?lookup_insert_eq, ?lookup_insert_ne by done; done.
    + destruct (decide (k = key)) as [->|Hne]; rewrite ?lookup_insert_eq, ?lookup_insert_ne by done; done.
Qed.

(** A patch from [p] to [c], if there is one, takes [p] to [c]. *)
Definition patch_ok (p c : Json) : Prop :=
  match create_merge_patch p c with
  | None => p = c
  | Some q => q ≠ JNull ∧ apply_merge_patch_value p q = c
  end.

Lemma fields_roundtrip (p c q r : gmap str Json) :
  tidy_fields c → is_patch p c q →
  (∀ k v v', c !! k = Some v → p !! k = Some v' → patch_ok v' v) →
  (∀ k, r !! k = match q !! k with Some v => patch_field v (p !! k) | None => p !! k end) → r = c.
Proof.
  intros Ht Hq IH Hr. apply map_eq. intros k. rewrite Hr, Hq. destruct (c !! k) as [v|] eqn:Hc.
  - destruct (Ht k v Hc) as [Hn Htv]. destruct (p !! k) as [v'|] eqn:Hp; cbn [field_patch].
    + specialize (IH k v v' Hc Hp). unfold patch_ok in IH. destruct (create_merge_patch v' v) as [x|]; [|by subst].
      destruct IH as [Hx Ha]. destruct x; try done; cbn [patch_field default from_option id]; by rewrite Ha.
    + assert (apply_merge_patch_value JNull v = v) as Ha by (by apply apply_fresh). destruct v; try done; cbn [patch_field default from_option id]; by rewrite Ha.
  - by destruct (p !! k).
Qed.

Lemma create_ok p c : tidy c = true → c ≠ JNull → patch_ok p c.
Proof.
  revert p. induction c as [c Hc _|c IH] using json_rect; intros p Ht Hn.
  - unfold patch_ok. destruct (json_eqb p c) eqn:He.
    + apply json_eqb_eq in He as ->. destruct c; try done; cbn [create_merge_patch]; rewrite (proj2 (json_eqb_eq _ _) eq_refl); done.
    + destruct c; try done; cbn [create_merge_patch]; rewrite He; done.
  - unfold patch_ok. cbn [create_merge_patch]. destruct (json_eqb p (JObject c)) eqn:He; [by apply json_eqb_eq|]. split; [done|].
    match goal with |- apply_merge_patch_value _ (JObject ?q) = _ => set (patch := q) end.
    assert (is_patch (default ∅ (as_object p)) c patch) as Hq by (by apply create_is_patch).
    destruct (apply_object p patch) as (r & -> & Hr). f_equal. apply tidy_object in Ht.
    eapply (fields_roundtrip _ c patch); [done|done| |done]. intros k v v' Hv _. destruct (Ht k v Hv). by apply (IH k v Hv).
Qed.

(** * Snapshots *)

Lemma merge_patch_from_spec (current previous : WorldStateSnapshot) :
  ∃ patch, is_patch previous current patch ∧ merge_patch_from current previous = if bool_decide (patch = ∅) then None else Some patch.
Proof.
  eexists. split; [|reflexivity]. exact (create_is_patch previous current (Some previous) eq_refl).
Qed.

Lemma apply_merge_patch_lookup (sections patch : WorldStateSnapshot) k :
  apply_merge_patch sections patch !! k = match patch !! k with Some v => patch_field v (sections !! k) | None => sections !! k end.
Proof.
  apply (fold_pointwise _ (λ _, patch_field)). clear. intros key v t k. destruct (decide (k = key)) as [->|Hne].
  - destruct v; cbn; try (destruct (t !! key); by rewrite lookup_insert_eq). by rewrite lookup_delete_eq.
  - destruct v; cbn; try (destruct (t !! key); by rewrite lookup_insert_ne). by rewrite lookup_delete_ne.
Qed.

(** A recorded change, replayed. *)
Lemma merge_patch_roundtrip (current previous : WorldStateSnapshot) :
  tidy_fields current →
  match merge_patch_from current previous with
  | None => previous = current
  | Some patch => apply_merge_patch previous patch = current
  end.
Proof.
  intros Ht. destruct (merge_patch_from_spec current previous) as (patch & Hp & ->).
  assert (apply_merge_patch previous patch = current) as Ha.
  { eapply (fields_roundtrip previous current patch); [done|done| |apply apply_merge_patch_lookup].
    intros k v v' Hv _. destruct (Ht k v Hv). by apply create_ok. }
  case_bool_decide as He; [|done]. subst patch. exact Ha.
Qed.

(** ** What sections render *)

Lemma remove_null_tidy v : tidy (remove_null_object_fields v) = true ∧ is_null (remove_null_object_fields v) = is_null v.
Proof.
  induction v as [v Hv _|m IH] using json_rect; [by destruct v|]. split; [|done]. cbn [remove_null_object_fields]. apply tidy_object. intros k v Hk.
  rewrite (fold_pointwise _ (λ _ v t, if is_null v then t else Some (remove_null_object_fields v))) in Hk.
  - destruct (m !! k) as [x|] eqn:Hx; [|by rewrite lookup_empty in Hk]. destruct (is_null x) eqn:Hn; [by rewrite lookup_empty in Hk|].
    injection Hk as <-. destruct (IH k x Hx) as [Ht En]. split; [|done]. intros E'. rewrite E' in En. by rewrite Hn in En.
  - clear. intros key v t k. destruct (is_null v); destruct (decide (k = key)) as [->|Hne]; rewrite ?lookup_insert_eq, ?lookup_insert_ne by done; done.
Qed.

Section live.
Context {Update : Type}.
Notation section := (ErasedWorldStateSection Update).
Notation messages := (list (str * list str)).

Lemma render_diff_tidy (s : section) previous v updates : render_diff s previous = (Some v, updates) → tidy v = true.
Proof.
  unfold render_diff. destruct (kind s) as [t|render].
  - destruct (typed_render_diff t _) as [[x|] us]; intros [= <- _]. unfold section_snapshot. destruct (negb _); [done|].
    destruct (to_value t x) as [j|]; [|done]. cbn. destruct (is_null _); [done|]. apply remove_null_tidy.
  - destruct (render previous) as [[x|] us]; intros [= <- _]. apply remove_null_tidy.
Qed.

Lemma render_with_tidy (w : list (str * section)) stored previous :
  (∀ b, stored = Some b → tidy_fields b) → tidy_fields (render_with w stored previous).1.
Proof.
  intros Hs. unfold render_with. assert (tidy_fields (∅ : WorldStateSnapshot, [] : list Update).1) as H0 by (intros k v Hk; cbn [fst] in Hk; by rewrite lookup_empty in Hk).
  revert H0. generalize (∅ : WorldStateSnapshot, [] : list Update). induction w as [|[id s] w IH]; intros [b us] Hb; [done|]. cbn [foldl]. apply IH. clear IH.
  cbn [render_section]. destruct (render_diff s (previous id s)) as [v us'] eqn:Hd. cbn [fst] in *.
  assert (∀ x, match v with Some v => Some v | None => stored ≫= (.!! id) end = Some x → tidy x = true) as Hx.
  { intros x. destruct v as [v|]; [intros [= ->]; by eapply render_diff_tidy|]. destruct stored as [b'|]; [|done]. intros Hx. by apply (Hs b' eq_refl id x). }
  destruct (match v with Some v => Some v | None => _ end) as [x|]; [|done]. destruct (is_null x) eqn:Hn; [done|].
  intros k y [[<- <-]|[_ Hk]]%lookup_insert_Some; [|by apply (Hb k)]. split; [by intros ->|by apply Hx].
Qed.

(** * A live session and a resumed one *)

(** What happens to the baseline of a session: the model is told about the changes since it, or
    given the whole context anew, or its history is compacted and the context given anew; when only
    a prefix of the history is compacted, the baseline of the rest stays. *)
Inductive LiveStep :=
| Tell (w : list (str * section)) (items : messages)
| TellAll (w : list (str * section))
| Compaction (w : list (str * section)) (only_prefix : bool).

(** The baseline and the records written, in order. *)
Definition live_step (c : option WorldStateSnapshot * list BaselineRecord) (a : LiveStep) : option WorldStateSnapshot * list BaselineRecord :=
  let '(baseline, log) := c in
  match a with
  | Tell w items =>
      let '(baseline', _, item) := update_world_state baseline w items in
      (baseline', log ++ match item with Some i => [WorldStateRecord i] | None => [] end)
  | TellAll w =>
      let '(snapshot, _) := render_full w in (Some snapshot, log ++ [WorldStateRecord (item_full snapshot)])
  | Compaction w only_prefix =>
      let '(snapshot, _) := render_full w in
      let snapshot := if only_prefix then default snapshot baseline else snapshot in
      (Some snapshot, log ++ [CompactedRecord; WorldStateRecord (item_full snapshot)])
  end.

Definition live_session (l : list LiveStep) : option WorldStateSnapshot * list BaselineRecord := foldl live_step (None, []) l.

Lemma live_step_replayed baseline log a :
  (∀ b, baseline = Some b → tidy_fields b) → replay_records log = baseline →
  let '(baseline', log') := live_step (baseline, log) a in (∀ b, baseline' = Some b → tidy_fields b) ∧ replay_records log' = baseline'.
Proof.
  intros Ht Hr. destruct a as [w items|w|w only_prefix]; cbn [live_step].
  2,3: pose proof (render_with_tidy w None (λ _ _, Absent) ltac:(done)) as Hs; change (tidy_fields (render_full w).1) in Hs;
    destruct (render_full w) as [snapshot updates]; cbn [fst] in Hs; split; [|unfold replay_records; by rewrite foldl_app];
    intros b [= <-]; try done; destruct only_prefix, baseline; (done || by apply Ht).
  unfold update_world_state.
  destruct (render_history_diff w baseline items) as [snapshot updates] eqn:Hd.
  assert (tidy_fields snapshot) as Hs.
  { replace snapshot with (render_history_diff w baseline items).1 by (by rewrite Hd). by apply render_with_tidy. }
  split; [by intros b [= <-]|]. unfold world_state_item. destruct baseline as [previous|]; cbn [fmap option_fmap option_map].
  - pose proof (merge_patch_roundtrip snapshot previous Hs) as Hp. unfold replay_records in *.
    destruct (merge_patch_from snapshot previous) as [patch|]; cbn [option_map]; rewrite ?app_nil_r, ?foldl_app, Hr; cbn; by rewrite Hp.
  - unfold replay_records in *. by rewrite foldl_app.
Qed.

(** C9: A resumed session knows what the model was told. Whatever sections there are, however often
    the session tells the model about changes or everything and compacts its history, replaying the records
    it wrote, full snapshots, merge patches and compactions, gives exactly the baseline it had
    in memory: every patch that is written takes the previous snapshot to the next, and where
    none is written nothing had changed. *)
Theorem world_state_replayed (l : list LiveStep) : replay_records (live_session l).2 = (live_session l).1.
Proof.
  enough ((∀ b, (live_session l).1 = Some b → tidy_fields b) ∧ replay_records (live_session l).2 = (live_session l).1) as [_ Hr]; [done|].
  induction l as [|a l IH] using rev_ind; [by split|]. unfold live_session in *. rewrite foldl_app. cbn [foldl].
  destruct (foldl live_step (None, []) l) as [baseline log]. destruct IH as [Ht Hr]. pose proof (live_step_replayed baseline log a Ht Hr) as Hs.
  by destruct (live_step (baseline, log) a).
Qed.
End live.

(** A patch that removes a field, keeps one and changes one. *)
Example patch_example :
  create_merge_patch (JObject {[lit "a" := JNumber (lit "1"); lit "b" := JNull; lit "c" := JObject {[lit "x" := JBool true]}]})
    (JObject {[lit "a" := JNumber (lit "1"); lit "c" := JObject {[lit "y" := JArray [JNull]]}]})
  = Some (JObject {[lit "b" := JNull; lit "c" := JObject {[lit "x" := JNull; lit "y" := JArray [JNull]]}]}).
Proof. vm_compute. reflexivity. Qed.
