(* ===== verification/RolloutReplay.v ===== *)
(** core/src/session/rollout_reconstruction.rs: the state of a thread rebuilt from its rollout, the
    log of what was recorded. A backward scan gathers each turn into a segment, skips the turns
    that were rolled back and takes each part of the state from the newest segment that has it;
    the history is then replayed forward from the newest surviving compaction. With the
    truncations of core/src/thread_rollout_truncation.rs that look at rollbacks.

    The history itself, [ContextManager], is the class [ThreadHistory]: the operations the replay
    uses of it. Payloads that are only passed on are types of that class; fields of compactions and
    resume metadata that the replay does not read (MCP origins, the response id, token usage, the
    multi-agent version) are left out. *)
From S2P Require Import Prelude Str WorldState.

(** * Rollouts *)

Class ThreadHistory := {
  ResponseItemEnvelope : Type;
  InterAgentCommunication : Type;
  RetainedContextEvent : Type;
  RetainedContext : Type;
  GuardianHistory : Type;
  AttributionRest : Type;
  ContextRest : Type;
  CyberAccessProgram : Type;
  ContextManager : Type;
  is_user_turn_boundary : ResponseItemEnvelope → bool;
  is_user_message : ResponseItemEnvelope → bool;
  replace_annotated : list ResponseItemEnvelope → ContextManager → ContextManager;
  restore_review_context : option RetainedContext → option GuardianHistory → ContextManager → ContextManager;
  record_retained_context : RetainedContextEvent → ContextManager → ContextManager;
  replay_annotated_item : ResponseItemEnvelope → ContextManager → ContextManager;
  record_communication : InterAgentCommunication → ContextManager → ContextManager;
  compact_user_messages : str → ContextManager → ContextManager;
  drop_last_n_user_turns : N → ContextManager → ContextManager;
  annotated_items : ContextManager → list ResponseItemEnvelope;
  retained_context : ContextManager → RetainedContext;
  guardian_history_checkpoint : ContextManager → option GuardianHistory
}.

Section replay.
Context `{ThreadHistory}.

Record TurnAttribution := mkAttribution { ta_turn_id : str; ta_rest : AttributionRest }.

Record PreviousTurnSettings := mkSettings {
  ps_model : str; ps_cyber_access_program : option CyberAccessProgram; ps_comp_hash : option str; ps_realtime_active : option bool }.

Record CompactionResumeMetadata := mkResume {
  rm_last_started_turn_id : option str; rm_turn_attribution : option TurnAttribution; rm_previous_turn_settings : option PreviousTurnSettings }.

Record CompactedItem := mkCompacted {
  ci_message : str;
  ci_replacement_history : option (list ResponseItemEnvelope);
  ci_guardian_history : option GuardianHistory;
  ci_retained_context : option RetainedContext;
  ci_window_number : option N;
  ci_first_window_id : option str;
  ci_previous_window_id : option str;
  ci_window_id : option str;
  ci_resume_metadata : option CompactionResumeMetadata
}.

Record TurnContextItem := mkTurnContext {
  tc_turn_id : option str; tc_model : str; tc_comp_hash : option str; tc_realtime_active : option bool;
  tc_cyber_access_program : option CyberAccessProgram; tc_rest : ContextRest }.

(** The events the replay tells apart. *)
Inductive EventMsg :=
| TurnStarted (turn_id : str) (turn_attribution : option TurnAttribution)
| TurnComplete (turn_id : str)
| TurnAborted (turn_id : option str)
| UserMessage
| ThreadRolledBack (num_turns : N)
| OtherEvent.

(** A session's metadata carries the identity of its first context window. *)
Inductive RolloutItem :=
| SessionMeta (context_window : option str)
| ResponseItem (item : ResponseItemEnvelope)
| InterAgent (communication : InterAgentCommunication)
| InterAgentMetadata (trigger_turn : bool)
| Compacted (compacted : CompactedItem)
| TurnContext (ctx : TurnContextItem)
| TokenUsageRecord
| WorldStateItemLine (state : WorldStateItem)
| SecurityRiskScore
| RetainedContextLine (event : RetainedContextEvent)
| EventLine (event : EventMsg)
| RealtimeItem.

Inductive ThreadHistoryMode := Legacy | Paginated.

(** * The backward scan *)

Record ReconstructedWindow := mkWindow { rw_number : N; rw_first_id : option str; rw_previous_id : option str; rw_id : option str }.

Inductive TurnReferenceContextItem := NeverSet | Cleared | Latest (ctx : TurnContextItem).

Record ReplayCheckpoint := mkCheckpoint { cp_compacted : CompactedItem; cp_suffix : list RolloutItem }.

(** [Uuid::parse_str] with the version check. *)
Context (parse_uuid_v7 : str → option str).

Definition reconstructed_window_from_compaction (c : CompactedItem) : option ReconstructedWindow :=
  number ← ci_window_number c;
  Some (mkWindow number (ci_first_window_id c ≫= parse_uuid_v7) (ci_previous_window_id c ≫= parse_uuid_v7) (ci_window_id c ≫= parse_uuid_v7)).

Definition reconstructed_window_from_session_context_window (window_id : str) : option ReconstructedWindow :=
  id ← parse_uuid_v7 window_id; Some (mkWindow 0 (Some id) None (Some id)).

(** The newest compaction with what follows it. *)
Fixpoint newest_compaction (items : list RolloutItem) : option ReplayCheckpoint :=
  match items with
  | [] => None
  | x :: rest =>
      match newest_compaction rest with
      | Some c => Some c
      | None => match x with Compacted c => Some (mkCheckpoint c rest) | _ => None end
      end
  end.

Definition select_input_compaction (items : list RolloutItem) (mode : ThreadHistoryMode) : option ReplayCheckpoint :=
  cp ← newest_compaction items;
  let c := cp_compacted cp in
  if negb (bool_decide (is_Some (ci_replacement_history c))) || negb (bool_decide (is_Some (ci_window_number c)))
     || (negb (bool_decide (is_Some (ci_resume_metadata c))) && match mode with Paginated => false | Legacy => true end)
  then None else Some cp.

Record ActiveReplaySegment := mkSegment {
  sg_turn_id : option str;
  sg_turn_completed : bool;
  sg_counts_as_user_turn : bool;
  sg_previous_turn_settings : option PreviousTurnSettings;
  sg_reference_context_item : TurnReferenceContextItem;
  sg_turn_attribution : option TurnAttribution;
  sg_world_state_replay : list RolloutItem;
  sg_history_checkpoint : option ReplayCheckpoint;
  sg_window : option ReconstructedWindow
}.

Definition default_segment : ActiveReplaySegment := mkSegment None false false None NeverSet None [] None None.

Definition some_or {A} (a b : option A) : option A := match a with Some _ => a | None => b end.

Definition is_none_or {A} (f : A → bool) (o : option A) : bool := match o with Some a => f a | None => true end.

(** The segment with the attribution, and what is left of the checkpoint's. *)
Definition take_checkpoint_attribution (s : ActiveReplaySegment) (checkpoint : option TurnAttribution)
    : ActiveReplaySegment * option TurnAttribution :=
  match checkpoint with
  | Some a =>
      if is_none_or (λ id, id =s ta_turn_id a) (sg_turn_id s) then
        let 'mkSegment t c u p r att w h win := s in
        (mkSegment t c u p r (some_or att checkpoint) w h win, None)
      else (s, checkpoint)
  | None => (s, checkpoint)
  end.

Definition turn_ids_are_compatible (active item : option str) : bool :=
  is_none_or (λ turn_id, is_none_or (λ item_turn_id, item_turn_id =s turn_id) item) active.

Record ScanState := mkScan {
  sc_history_checkpoint : option ReplayCheckpoint;
  sc_previous_turn_settings : option PreviousTurnSettings;
  sc_reference_context_item : TurnReferenceContextItem;
  sc_turn_attribution : option TurnAttribution;
  sc_world_state_replay : list RolloutItem;
  sc_window : option ReconstructedWindow;
  sc_pending_rollback_turns : N;
  sc_checkpoint_attribution : option TurnAttribution;
  sc_late_completed_turn_ids : gset str;
  sc_active_segment : option ActiveReplaySegment;
  sc_started_turn_ids : list str     (* the rest of the iterator *)
}.

Definition is_compacted (x : RolloutItem) : bool := match x with Compacted _ => true | _ => false end.
Definition is_full_world_state (x : RolloutItem) : bool := match x with WorldStateItemLine w => ws_full w | _ => false end.

Fixpoint take_until {A} (f : A → bool) (l : list A) : list A :=
  match l with [] => [] | x :: l => if f x then [] else x :: take_until f l end.

Definition has_context_baseline (s : ActiveReplaySegment) : bool :=
  sg_counts_as_user_turn s || existsb is_full_world_state (take_until is_compacted (sg_world_state_replay s)).

(** [finalize_active_segment], with the attribution taken up by the caller. *)
Definition finalize_active_segment (s : ActiveReplaySegment) (st : ScanState) : ScanState :=
  let 'mkScan hc ps rc ta ws win pend ca late act started := st in
  if (0 <? pend)%N then
    mkScan hc ps rc ta ws win (if sg_counts_as_user_turn s then pend - 1 else pend)%N ca late act started
  else
    let baseline := has_context_baseline s in
    mkScan (some_or hc (sg_history_checkpoint s))
      (match ps with Some _ => ps | None => if baseline then sg_previous_turn_settings s else None end)
      (match rc with
       | NeverSet => if baseline || match sg_reference_context_item s with Cleared => true | _ => false end
                     then sg_reference_context_item s else NeverSet
       | _ => rc
       end)
      (some_or ta (sg_turn_attribution s)) (ws ++ sg_world_state_replay s) (some_or win (sg_window s)) pend ca late act started.

Definition with_active (f : option ActiveReplaySegment → option ActiveReplaySegment) (st : ScanState) : ScanState :=
  let 'mkScan hc ps rc ta ws win pend ca late act started := st in mkScan hc ps rc ta ws win pend ca late (f act) started.

(** [active_segment.get_or_insert_with(ActiveReplaySegment::default)] and a change of it. *)
Definition on_segment (f : ActiveReplaySegment → ActiveReplaySegment) (st : ScanState) : ScanState :=
  with_active (λ act, Some (f (default default_segment act))) st.

Definition segment_compacted (c : CompactedItem) (suffix : list RolloutItem) (s : ActiveReplaySegment) : ActiveReplaySegment :=
  let 'mkSegment t done u p r att w h win := s in
  mkSegment t done u p (match r with NeverSet => Cleared | _ => r end) att (w ++ [Compacted c])
    (match h with
     | Some _ => h
     | None => if bool_decide (is_Some (ci_replacement_history c)) then Some (mkCheckpoint c suffix) else None
     end)
    (some_or win (reconstructed_window_from_compaction c)).

Definition segment_context (ctx : TurnContextItem) (s : ActiveReplaySegment) : ActiveReplaySegment :=
  let 'mkSegment t done u p r att w h win := s in
  let t := some_or t (tc_turn_id ctx) in
  if turn_ids_are_compatible t (tc_turn_id ctx) then
    mkSegment t done u
      (Some (mkSettings (tc_model ctx) (tc_cyber_access_program ctx) (tc_comp_hash ctx) (tc_realtime_active ctx)))
      (match r with NeverSet => Latest ctx | _ => r end) att w h win
  else mkSegment t done u p r att w h win.

Definition segment_world_state (x : RolloutItem) (s : ActiveReplaySegment) : ActiveReplaySegment :=
  let 'mkSegment t done u p r att w h win := s in mkSegment t done u p r att (w ++ [x]) h win.

Definition segment_counts (b : bool) (s : ActiveReplaySegment) : ActiveReplaySegment :=
  let 'mkSegment t done u p r att w h win := s in mkSegment t done (u || b) p r att w h win.

Definition segment_turn_id (turn_id : option str) (s : ActiveReplaySegment) : ActiveReplaySegment :=
  let 'mkSegment t done u p r att w h win := s in mkSegment (some_or t turn_id) done u p r att w h win.

Definition segment_completed (s : ActiveReplaySegment) : ActiveReplaySegment :=
  let 'mkSegment t _ u p r att w h win := s in mkSegment t true u p r att w h win.

Definition segment_attribution (a : TurnAttribution) (turn_id : str) (s : ActiveReplaySegment) : ActiveReplaySegment :=
  let 'mkSegment t done u p r att w h win := s in
  if turn_ids_are_compatible t (Some turn_id) then mkSegment t done u p r (Some a) w h win else s.

(** The start of a turn closes the active segment, if it belongs to it. *)
Definition scan_turn_started (turn_id : str) (attribution : option TurnAttribution) (st : ScanState) : ScanState :=
  let st := let 'mkScan hc ps rc ta ws win pend ca late act started := st in mkScan hc ps rc ta ws win pend ca late act (tail started) in
  let st :=
    match attribution with
    | Some a => if ta_turn_id a =s turn_id then on_segment (segment_attribution a turn_id) st else st
    | None => st
    end in
  match sc_active_segment st with
  | Some s =>
      if turn_ids_are_compatible (sg_turn_id s) (Some turn_id) then
        let s := segment_turn_id (Some turn_id) s in
        let '(s, ca) := take_checkpoint_attribution s (sc_checkpoint_attribution st) in
        let st := let 'mkScan hc ps rc ta ws win pend _ late _ started := st in mkScan hc ps rc ta ws win pend ca late None started in
        finalize_active_segment s st
      else st
  | None => st
  end.

Definition scan_item (checkpoint_turn_id : option str) (x : RolloutItem) (suffix : list RolloutItem) (st : ScanState) : ScanState :=
  let preceding_turn_id := some_or (head (sc_started_turn_ids st)) checkpoint_turn_id in
  match x with
  | Compacted c => on_segment (segment_compacted c suffix) st
  | EventLine (ThreadRolledBack num_turns) =>
      let 'mkScan hc ps rc ta ws win pend ca late act started := st in
      mkScan hc ps rc ta ws win (sat_add pend num_turns) ca late act started
  | EventLine (TurnComplete turn_id) =>
      if turn_ids_are_compatible preceding_turn_id (Some turn_id)
      then on_segment (λ s, segment_turn_id (Some turn_id) (segment_completed s)) st
      else let 'mkScan hc ps rc ta ws win pend ca late act started := st in
        mkScan hc ps rc ta ws win pend ca ({[turn_id]} ∪ late) act started
  | EventLine (TurnAborted turn_id) =>
      if turn_ids_are_compatible preceding_turn_id turn_id then
        with_active (λ act,
          match act with
          | Some s => Some (segment_turn_id turn_id s)
          | None => match turn_id with Some _ => Some (segment_turn_id turn_id default_segment) | None => None end
          end) st
      else st
  | EventLine UserMessage => on_segment (segment_counts true) st
  | TurnContext ctx => on_segment (segment_context ctx) st
  | WorldStateItemLine _ => on_segment (segment_world_state x) st
  | EventLine (TurnStarted turn_id attribution) => scan_turn_started turn_id attribution st
  | ResponseItem item => on_segment (segment_counts (is_user_turn_boundary item)) st
  | InterAgent _ => on_segment (segment_counts true) st
  | _ => st
  end.

(** The loop over the items from the newest to the oldest, each with the items after it. *)
Fixpoint scan (checkpoint_turn_id : option str) (init : ScanState) (items : list RolloutItem) : ScanState :=
  match items with
  | [] => init
  | x :: rest => scan_item checkpoint_turn_id x rest (scan checkpoint_turn_id init rest)
  end.

Definition started_turn_id (x : RolloutItem) : option str :=
  match x with EventLine (TurnStarted turn_id _) => Some turn_id | _ => None end.

(** The segment left over when the scan reaches the oldest item. *)
Definition close_segment (resume : option CompactionResumeMetadata) (checkpoint_turn_id : option str) (st : ScanState) : ScanState :=
  match sc_active_segment st with
  | None => st
  | Some s =>
      let '(s, ca) := take_checkpoint_attribution s (sc_checkpoint_attribution st) in
      let completed := sg_turn_completed s
        || match some_or (sg_turn_id s) checkpoint_turn_id with Some id => bool_decide (id ∈ sc_late_completed_turn_ids st) | None => false end in
      let s := let 'mkSegment t _ u p r att w h win := s in
        mkSegment t completed u (if bool_decide (is_Some resume) && negb completed then None else p) r att w h win in
      let st := let 'mkScan hc ps rc ta ws win pend _ late _ started := st in mkScan hc ps rc ta ws win pend ca late None started in
      finalize_active_segment s st
  end.

(** * The forward replay *)

(** The history with the flag that a legacy compaction was seen. *)
Definition replay_item (acc : ContextManager * bool) (x : RolloutItem) : ContextManager * bool :=
  let '(history, legacy) := acc in
  match x with
  | RetainedContextLine event => (record_retained_context event history, legacy)
  | ResponseItem item => (replay_annotated_item item history, legacy)
  | InterAgent communication => (record_communication communication history, legacy)
  | Compacted c =>
      match ci_replacement_history c with
      | None => (compact_user_messages (ci_message c) history, true)
      | Some _ => (history, legacy)
      end
  | EventLine (ThreadRolledBack num_turns) => (drop_last_n_user_turns num_turns history, legacy)
  | _ => (history, legacy)
  end.

(** The world-state records; [None] is the branch marked unreachable. *)
Definition baseline_record (x : RolloutItem) : option BaselineRecord :=
  match x with
  | Compacted _ => Some CompactedRecord
  | WorldStateItemLine item => Some (WorldStateRecord item)
  | _ => None
  end.

Record RolloutReconstruction := mkReconstruction {
  rr_history : list ResponseItemEnvelope;
  rr_retained_context : RetainedContext;
  rr_guardian_history : option GuardianHistory;
  rr_last_started_turn_id : option str;
  rr_previous_turn_settings : option PreviousTurnSettings;
  rr_reference_context_item : option TurnContextItem;
  rr_turn_attribution : option TurnAttribution;
  rr_world_state_baseline : option WorldStateSnapshot;
  rr_window : ReconstructedWindow
}.

(** What is read: the items after the selected compaction, or all of them. *)
Definition replay_items (items : list RolloutItem) (mode : ThreadHistoryMode) : list RolloutItem :=
  match select_input_compaction items mode with Some cp => cp_suffix cp | None => items end.

Definition resume_metadata (items : list RolloutItem) (mode : ThreadHistoryMode) : option CompactionResumeMetadata :=
  cp ← select_input_compaction items mode; ci_resume_metadata (cp_compacted cp).

(** The window of the session's first context, unless a compaction without a number was written. *)
Definition initial_window (items : list RolloutItem) : option ReconstructedWindow :=
  if existsb (λ x, match x with Compacted c => negb (bool_decide (is_Some (ci_window_number c))) | _ => false end) items then None
  else find_map (λ x, match x with SessionMeta w => w ≫= reconstructed_window_from_session_context_window | _ => None end) items.

Definition fallback_window (items : list RolloutItem) : ReconstructedWindow :=
  mkWindow (N.of_nat (length (List.filter is_compacted items))) None None None.

(** The state before the backward scan. *)
Definition scan_start (items : list RolloutItem) (mode : ThreadHistoryMode) : ScanState :=
  let input := select_input_compaction items mode in
  mkScan input None NeverSet None [] (input ≫= (λ cp, reconstructed_window_from_compaction (cp_compacted cp))) 0
    (resume_metadata items mode ≫= rm_turn_attribution) ∅ None (rev (omap started_turn_id (replay_items items mode))).

(** The state at its end. *)
Definition scan_rollout (items : list RolloutItem) (mode : ThreadHistoryMode) : ScanState :=
  let resume := resume_metadata items mode in
  let checkpoint_turn_id := resume ≫= (λ m, some_or (rm_last_started_turn_id m) (ta_turn_id <$> rm_turn_attribution m)) in
  close_segment resume checkpoint_turn_id (scan checkpoint_turn_id (scan_start items mode) (replay_items items mode)).

(** The history from the checkpoint on. *)
Definition replay_history (checkpoint : option ReplayCheckpoint) (items : list RolloutItem) (history : ContextManager) : ContextManager * bool :=
  let history :=
    match checkpoint with
    | Some cp =>
        let c := cp_compacted cp in
        match ci_replacement_history c with
        | Some base => restore_review_context (ci_retained_context c) (ci_guardian_history c) (replace_annotated base history)
        | None => history
        end
    | None => history
    end in
  foldl replay_item (history, false) (match checkpoint with Some cp => cp_suffix cp | None => items end).

Definition reconstruct_rollout (items : list RolloutItem) (mode : ThreadHistoryMode) (history : ContextManager) : option RolloutReconstruction :=
  let resume := resume_metadata items mode in
  let last_started := some_or (head (rev (omap started_turn_id (replay_items items mode)))) (resume ≫= rm_last_started_turn_id) in
  let st := scan_rollout items mode in
  let turn_attribution :=
    if (sc_pending_rollback_turns st =? 0)%N then some_or (sc_turn_attribution st) (sc_checkpoint_attribution st) else sc_turn_attribution st in
  let settings := some_or (sc_previous_turn_settings st) (resume ≫= rm_previous_turn_settings) in
  let '(history, legacy) := replay_history (sc_history_checkpoint st) items history in
  let reference := match sc_reference_context_item st with Latest ctx => if (legacy : bool) then None else Some ctx | _ => None end in
  records ← mapM baseline_record (rev (sc_world_state_replay st));
  Some (mkReconstruction (annotated_items history) (retained_context history) (guardian_history_checkpoint history)
    last_started settings reference turn_attribution (replay_records records)
    (default (fallback_window items) (some_or (sc_window st) (initial_window items)))).

(** * thread_rollout_truncation.rs *)

Definition user_position (acc : nat * list nat) (x : RolloutItem) : nat * list nat :=
  let '(idx, positions) := acc in
  (S idx,
   match x with
   | ResponseItem item => if is_user_message item then positions ++ [idx] else positions
   | EventLine (ThreadRolledBack num_turns) => take (length positions - N.to_nat num_turns) positions
   | _ => positions
   end).

Definition user_message_positions_in_rollout (items : list RolloutItem) : list nat := (foldl user_position (0, []) items).2.

Definition truncate_rollout_before_nth_user_message_from_start (items : list RolloutItem) (n_from_start : N) : list RolloutItem :=
  if (n_from_start =? usize_max)%N then items
  else
    match user_message_positions_in_rollout items !! N.to_nat n_from_start with
    | None => items
    | Some cut_idx => take cut_idx items
    end.
End replay.
