(* ===== verification/RolloutTurns.v ===== *)
(** The backward scan of [RolloutReplay] against a forward reading of the rollout: turns are
    pushed on a stack as they start, a rollback pops the newest user turns, and each part of the
    rebuilt state is that of the newest turn left on the stack that has it. What is replayed may
    begin inside a turn: after the compaction the thread is resumed from, the lines of the
    compacted turn follow, and old rollouts do not record the start of turns. *)
From S2P Require Import Prelude Str WorldState RolloutReplay.

Section turns.
Context `{TH : ThreadHistory} (parse_uuid_v7 : str → option str).

(** * A rollout as turns *)

(** [tl_settled]: the settings of its contexts count. Those of a started turn do; the context
    written along with a compaction only restores the baseline, until its turn completes. *)
Record TurnLog := mkTurn { tl_id : str; tl_attribution : option TurnAttribution; tl_settled : bool; tl_body : list RolloutItem }.

(** Turns, rollbacks between them, and lines that belong to no turn. *)
Inductive Block := BTurn (t : TurnLog) | BRollback (num_turns : N) | BOther (x : RolloutItem).

Definition block_items (b : Block) : list RolloutItem :=
  match b with
  | BTurn t => EventLine (TurnStarted (tl_id t) (tl_attribution t)) :: tl_body t
  | BRollback n => [EventLine (ThreadRolledBack n)]
  | BOther x => [x]
  end.

Fixpoint rollout (bs : list Block) : list RolloutItem := match bs with [] => [] | b :: bs => block_items b ++ rollout bs end.

(** Inside a turn no other starts and none is rolled back, and contexts name no other turn;
    completions and aborts may be those of other turns. *)
Definition body_item_ok (id : str) (x : RolloutItem) : bool :=
  match x with
  | EventLine (TurnStarted _ _) | EventLine (ThreadRolledBack _) => false
  | TurnContext c => is_none_or (λ i, i =s id) (tc_turn_id c)
  | _ => true
  end.

Definition other_item_ok (x : RolloutItem) : bool :=
  match x with
  | SessionMeta _ | InterAgentMetadata _ | TokenUsageRecord | SecurityRiskScore | RetainedContextLine _ | EventLine OtherEvent | RealtimeItem => true
  | _ => false
  end.

Definition block_ok (b : Block) : bool :=
  match b with
  | BTurn t => tl_settled t && forallb (body_item_ok (tl_id t)) (tl_body t)
  | BRollback _ => true
  | BOther x => other_item_ok x
  end.

(** ** What a turn says *)

Definition item_counts (x : RolloutItem) : bool :=
  match x with
  | EventLine UserMessage | InterAgent _ => true
  | ResponseItem item => is_user_turn_boundary item
  | _ => false
  end.

Definition is_user_turn (t : TurnLog) : bool := existsb item_counts (tl_body t).

(** The settings of its first context. *)
Definition context_settings (t : TurnLog) : option PreviousTurnSettings :=
  find_map (λ x, match x with
    | TurnContext c => Some (mkSettings (tc_model c) (tc_cyber_access_program c) (tc_comp_hash c) (tc_realtime_active c))
    | _ => None end) (tl_body t).

Definition turn_settings (t : TurnLog) : option PreviousTurnSettings :=
  if tl_settled t then context_settings t else None.

(** Its completion is recorded in it. *)
Definition turn_completed (t : TurnLog) : bool :=
  existsb (λ x, match x with EventLine (TurnComplete i) => i =s tl_id t | _ => false end) (tl_body t).

(** The turns other than [id] whose completion is recorded among [body]. *)
Definition late_completion (id : str) (x : RolloutItem) : option str :=
  match x with EventLine (TurnComplete i) => if i =s id then None else Some i | _ => None end.

Definition late_completions (t : TurnLog) : list str := omap (late_completion (tl_id t)) (tl_body t).

(** Its last context, unless a compaction follows it. *)
Definition item_reference (x : RolloutItem) : option TurnReferenceContextItem :=
  match x with TurnContext c => Some (Latest c) | Compacted _ => Some Cleared | _ => None end.

Definition turn_reference (t : TurnLog) : TurnReferenceContextItem :=
  default NeverSet (find_map item_reference (rev (tl_body t))).

Definition is_world_line (x : RolloutItem) : bool := match x with Compacted _ | WorldStateItemLine _ => true | _ => false end.

(** Its world-state lines in order. *)
Definition turn_world (t : TurnLog) : list RolloutItem := List.filter is_world_line (tl_body t).

(** It has a user message, or a full snapshot after its last compaction. *)
Definition turn_baseline (t : TurnLog) : bool :=
  is_user_turn t || existsb is_full_world_state (take_until is_compacted (rev (turn_world t))).

Definition turn_window (t : TurnLog) : option ReconstructedWindow :=
  find_map (λ x, match x with Compacted c => reconstructed_window_from_compaction parse_uuid_v7 c | _ => None end) (rev (tl_body t)).

(** Its last compaction that replaces the history, with everything after it. *)
Fixpoint last_replacement (body suffix : list RolloutItem) : option ReplayCheckpoint :=
  match body with
  | [] => None
  | x :: rest =>
      match last_replacement rest suffix with
      | Some c => Some c
      | None =>
          match x with
          | Compacted c => if bool_decide (is_Some (ci_replacement_history c)) then Some (mkCheckpoint c (rest ++ suffix)) else None
          | _ => None
          end
      end
  end.

(** ** Turns left after rollbacks, the newest first; each with the blocks after it *)

Fixpoint pop_user_turns (n : N) (stack : list (TurnLog * list Block)) : list (TurnLog * list Block) :=
  if (n =? 0)%N then stack
  else match stack with
  | [] => []
  | t :: stack => pop_user_turns (if is_user_turn t.1 then n - 1 else n)%N stack
  end.

Fixpoint read_blocks (stack : list (TurnLog * list Block)) (bs : list Block) : list (TurnLog * list Block) :=
  match bs with
  | [] => stack
  | BTurn t :: bs => read_blocks ((t, bs) :: stack) bs
  | BRollback n :: bs => read_blocks (pop_user_turns n stack) bs
  | BOther _ :: bs => read_blocks stack bs
  end.

(** The turn [lead], whose start is not part of what is read, is at the bottom. *)
Definition surviving (lead : TurnLog) (bs : list Block) : list (TurnLog * list Block) := read_blocks [(lead, bs)] bs.

Definition turn_checkpoint (t : TurnLog * list Block) : option ReplayCheckpoint := last_replacement (tl_body t.1) (rollout t.2).

Fixpoint rolled_back (bs : list Block) : N :=
  match bs with [] => 0 | BRollback n :: bs => n + rolled_back bs | _ :: bs => rolled_back bs end%N.

(** * One turn *)

Lemma find_map_app {A B} (f : A → option B) l1 l2 : find_map f (l1 ++ l2) = some_or (find_map f l1) (find_map f l2).
Proof. induction l1 as [|x l1 IH]; cbn; [done|]. by destruct (f x). Qed.

Lemma find_map_rev_cons {A B} (f : A → option B) x l : find_map f (rev (x :: l)) = some_or (find_map f (rev l)) (f x).
Proof. cbn [rev]. rewrite find_map_app. cbn. by destruct (f x). Qed.

Lemma some_or_none {A} (o : option A) : some_or o None = o.
Proof. by destruct o. Qed.

(** The parts of the scan's state that are rebuilt. *)
Record Found := mkFound {
  fo_checkpoint : option ReplayCheckpoint;
  fo_settings : option PreviousTurnSettings;
  fo_reference : TurnReferenceContextItem;
  fo_world : list RolloutItem;
  fo_window : option ReconstructedWindow
}.

Definition found (st : ScanState) : Found :=
  mkFound (sc_history_checkpoint st) (sc_previous_turn_settings st) (sc_reference_context_item st) (sc_world_state_replay st) (sc_window st).

(** A segment that says what the turn [t] says. *)
Record says (s : ActiveReplaySegment) (t : TurnLog) (suffix : list RolloutItem) : Prop := {
  says_counts : sg_counts_as_user_turn s = is_user_turn t;
  says_settings : sg_previous_turn_settings s = context_settings t;
  says_reference : sg_reference_context_item s = turn_reference t;
  says_world : sg_world_state_replay s = rev (turn_world t);
  says_checkpoint : sg_history_checkpoint s = last_replacement (tl_body t) suffix;
  says_window : sg_window s = turn_window t;
  says_done : sg_turn_completed s = turn_completed t;
  says_id : is_none_or (λ i, i =s tl_id t) (sg_turn_id s) = true
}.

(** The state after the body of [t] was scanned from [st]. *)
Record body_scanned (t : TurnLog) (suffix : list RolloutItem) (st st' : ScanState) : Prop := {
  bs_says : says (default default_segment (sc_active_segment st')) t suffix;
  bs_found : found st' = found st;
  bs_pending : sc_pending_rollback_turns st' = sc_pending_rollback_turns st;
  bs_started : sc_started_turn_ids st' = sc_started_turn_ids st;
  bs_late : ∀ i, i ∈ sc_late_completed_turn_ids st' ↔ i ∈ late_completions t ∨ i ∈ sc_late_completed_turn_ids st
}.

Lemma says_empty id attribution settled suffix : says default_segment (mkTurn id attribution settled []) suffix.
Proof. by split. Qed.

Lemma compatible_none_or id (o : option str) : turn_ids_are_compatible (Some id) o = is_none_or (λ i, i =s id) o.
Proof. done. Qed.

(** A further (older) item of the body. *)
Definition add_item (x : RolloutItem) (t : TurnLog) : TurnLog := mkTurn (tl_id t) (tl_attribution t) (tl_settled t) (x :: tl_body t).

Lemma reference_found l : find_map item_reference l ≠ Some NeverSet.
Proof. induction l as [|x l IH]; cbn; [done|]. by destruct x. Qed.

(** Items that leave everything a turn says as it is. *)
Definition says_nothing (id : str) (x : RolloutItem) : bool :=
  match x with
  | EventLine (TurnComplete i) => negb (i =s id)
  | Compacted _ | TurnContext _ | WorldStateItemLine _ => false
  | _ => negb (item_counts x)
  end.

Lemma says_nothing_added x t s suffix : says_nothing (tl_id t) x = true → says s t suffix → says s (add_item x t) suffix.
Proof.
  intros Hx [Hc Hp Hr Hw Hh Hwin Hd Hid].
  split; unfold is_user_turn, context_settings, turn_reference, turn_world, turn_window, turn_completed, add_item in *; cbn [tl_body tl_id];
    rewrite ?find_map_rev_cons; [..|done].
  - cbn [existsb]. rewrite Hc. destruct x as [| |?|?|?|?| |?| |?|[]|]; try done; cbn in *; by destruct (is_user_turn_boundary item).
  - rewrite Hp. by destruct x.
  - rewrite Hr. by destruct x; cbn [item_reference]; rewrite ?some_or_none.
  - rewrite Hw. by destruct x.
  - cbn [last_replacement]. rewrite Hh. destruct x; try done; by destruct (last_replacement _ _).
  - rewrite Hwin. by destruct x; cbn beta iota; rewrite ?some_or_none.
  - cbn [existsb]. rewrite Hd. destruct x as [| | | | | | | | | |[]|]; try done. cbn in Hx. apply negb_true_iff in Hx. by rewrite Hx.
Qed.

(** What a turn says, unfolded for a further item. *)
Ltac says_item :=
  split; unfold is_user_turn, context_settings, turn_reference, turn_world, turn_window, turn_completed, add_item in *; cbn [tl_body tl_id];
  rewrite ?find_map_rev_cons.

Lemma says_compacted c t s suffix :
  says s t suffix → says (segment_compacted parse_uuid_v7 c (tl_body t ++ suffix) s) (add_item (Compacted c) t) suffix.
Proof.
  destruct s as [tid done_ u p r att w h win]. intros [Hc Hp Hr Hw Hh Hwin Hd Hid]; cbn in *. says_item; cbn in *; try done.
  - rewrite Hr. pose proof (reference_found (rev (tl_body t))). by destruct (find_map _ (rev (tl_body t))) as [[| |]|].
  - by rewrite Hw.
  - rewrite Hh. by destruct (last_replacement _ _).
  - by rewrite Hwin.
Qed.

Lemma says_context ctx t s suffix :
  body_item_ok (tl_id t) (TurnContext ctx) = true → says s t suffix →
  says (segment_context ctx s) (add_item (TurnContext ctx) t) suffix.
Proof.
  destruct s as [tid done_ u p r att w h win]. intros Hok [Hc Hp Hr Hw Hh Hwin Hd Hid]; cbn in *.
  assert (Hcompat : turn_ids_are_compatible (some_or tid (tc_turn_id ctx)) (tc_turn_id ctx) = true).
  { destruct tid as [i|], (tc_turn_id ctx) as [j|]; cbn in *; try done; apply bool_decide_eq_true; [|done].
    apply bool_decide_eq_true in Hid, Hok. congruence. }
  rewrite Hcompat. says_item; cbn in *; try done.
  - rewrite Hr. pose proof (reference_found (rev (tl_body t))). by destruct (find_map _ (rev (tl_body t))) as [[| |]|].
  - rewrite Hh. by destruct (last_replacement _ _).
  - by rewrite some_or_none.
  - by destruct tid.
Qed.

Lemma says_world_line w t s suffix :
  says s t suffix → says (segment_world_state (WorldStateItemLine w) s) (add_item (WorldStateItemLine w) t) suffix.
Proof.
  destruct s as [tid done_ u p r att ws h win]. intros [Hc Hp Hr Hw Hh Hwin Hd Hid]; cbn in *. says_item; cbn in *; try done.
  - by rewrite some_or_none.
  - by rewrite Hw.
  - rewrite Hh. by destruct (last_replacement _ _).
  - by rewrite some_or_none.
Qed.

Definition is_message (x : RolloutItem) : bool :=
  match x with EventLine UserMessage | InterAgent _ | ResponseItem _ => true | _ => false end.

Lemma says_message x t s suffix :
  is_message x = true → says s t suffix → says (segment_counts (item_counts x) s) (add_item x t) suffix.
Proof.
  destruct s as [tid done_ u p r att ws h win]. intros Hx [Hc Hp Hr Hw Hh Hwin Hd Hid]; cbn in *. says_item; cbn [sg_counts_as_user_turn
    sg_previous_turn_settings sg_reference_context_item sg_world_state_replay sg_history_checkpoint sg_window sg_turn_id segment_counts
    existsb find_map List.filter last_replacement]; try done.
  - by rewrite Hc, orb_comm.
  - rewrite Hp. by destruct x.
  - rewrite Hr. by destruct x; cbn [item_reference]; rewrite ?some_or_none.
  - rewrite Hw. by destruct x.
  - rewrite Hh. destruct x; try done; by destruct (last_replacement _ _).
  - rewrite Hwin. by destruct x; cbn beta iota; rewrite ?some_or_none.
  - rewrite Hd. by destruct x as [| | | | | | | | | |[]|].
Qed.

Lemma says_named turn_id t s suffix :
  is_none_or (λ i, i =s tl_id t) turn_id = true → says s t suffix → says (segment_turn_id turn_id s) t suffix.
Proof.
  destruct s as [tid done_ u p r att ws h win]. intros Hi [Hc Hp Hr Hw Hh Hwin Hd Hid]; cbn in *. split; cbn; try done. by destruct tid.
Qed.

Lemma says_completed turn_id t s suffix :
  (turn_id =s tl_id t) = true → says s t suffix →
  says (segment_completed s) (add_item (EventLine (TurnComplete turn_id)) t) suffix.
Proof.
  destruct s as [tid done_ u p r att ws h win]. intros Hi [Hc Hp Hr Hw Hh Hwin Hd Hid]; cbn in *. says_item; cbn in *; try done.
  - by rewrite some_or_none.
  - rewrite Hh. by destruct (last_replacement _ _).
  - by rewrite some_or_none.
  - by rewrite Hi.
Qed.

(** ** The scan of a body *)

Lemma late_added x t i :
  i ∈ late_completions (add_item x t) ↔ late_completion (tl_id t) x = Some i ∨ i ∈ late_completions t.
Proof.
  unfold late_completions. cbn [tl_id tl_body add_item]. rewrite !list_elem_of_omap. split.
  - intros (y & Hy & Hi). apply elem_of_cons in Hy as [->|Hy]; [by left|right; eauto].
  - intros [Hx|(y & Hy & Hi)]; [exists x|exists y]; (split; [|done]); [by left|by right].
Qed.

Lemma with_active_scanned f x t suffix st st' :
  late_completion (tl_id t) x = None → body_scanned t suffix st st' →
  says (default default_segment (f (sc_active_segment st'))) (add_item x t) suffix →
  body_scanned (add_item x t) suffix st (with_active f st').
Proof.
  destruct st'. intros Hx [Hs Hf Hp Hst Hl] Hsays. split; try done. intros i. rewrite late_added, Hx. cbn. rewrite Hl. naive_solver.
Qed.

Lemma on_segment_scanned f x t suffix st st' :
  late_completion (tl_id t) x = None → body_scanned t suffix st st' → (∀ s, says s t suffix → says (f s) (add_item x t) suffix) →
  body_scanned (add_item x t) suffix st (on_segment f st').
Proof. intros Hx Hb Hf. apply with_active_scanned; [done..|]. apply Hf, Hb. Qed.

Lemma says_nothing_scanned x t suffix st st' :
  says_nothing (tl_id t) x = true → late_completion (tl_id t) x = None → body_scanned t suffix st st' →
  body_scanned (add_item x t) suffix st st'.
Proof.
  intros Hx Hl [Hs Hf Hp Hst Hlate]. split; try done; [by apply says_nothing_added|].
  intros i. rewrite late_added, Hl, Hlate. naive_solver.
Qed.

(** The turn whose lines are scanned is known to be [id], or no turn is and [x] names no other. *)
Definition names (preceding : option str) (id : str) (x : RolloutItem) : bool :=
  match preceding with
  | Some i => i =s id
  | None => match x with
            | EventLine (TurnComplete i) => i =s id
            | EventLine (TurnAborted turn_id) => is_none_or (λ i, i =s id) turn_id
            | _ => true
            end
  end.

(** The completion or the abort of another turn leaves the segment alone; those of this turn
    name it. *)
Lemma turn_end_scanned cti x t suffix st st' :
  match x with EventLine (TurnComplete _) | EventLine (TurnAborted _) => True | _ => False end →
  names (some_or (head (sc_started_turn_ids st)) cti) (tl_id t) x = true → body_scanned t suffix st st' →
  body_scanned (add_item x t) suffix st (scan_item parse_uuid_v7 cti x (tl_body t ++ suffix) st').
Proof.
  intros Hx Hn Hb. pose proof (bs_started _ _ _ _ Hb) as Hst.
  destruct x as [| | | | | | | | | |[| turn_id|turn_id| | |]|]; try done; unfold scan_item; rewrite Hst.
  - assert (turn_ids_are_compatible (some_or (head (sc_started_turn_ids st)) cti) (Some turn_id) = (turn_id =s tl_id t)) as ->.
    { destruct (some_or _ cti) as [i|]; cbn in *; [|by rewrite Hn]. apply bool_decide_eq_true in Hn. by subst i. }
    destruct (turn_id =s tl_id t) eqn:E.
    + apply on_segment_scanned; [cbn; by rewrite E|done|]. intros s Hs. by apply says_named, says_completed.
    + destruct st', Hb as [Hs Hf Hp Hst' Hl]. split; try done.
      * apply says_nothing_added; [cbn; by rewrite E|done].
      * intros i. rewrite late_added. cbn. rewrite E. cbn in Hl. rewrite elem_of_union, elem_of_singleton, Hl. naive_solver.
  - assert (turn_ids_are_compatible (some_or (head (sc_started_turn_ids st)) cti) turn_id = is_none_or (λ i, i =s tl_id t) turn_id) as ->.
    { destruct (some_or _ cti) as [i|]; cbn in *; [|by rewrite Hn]. apply bool_decide_eq_true in Hn. by subst i. }
    destruct (is_none_or _ turn_id) eqn:E; [|by apply says_nothing_scanned].
    apply with_active_scanned; [done..|]. apply says_nothing_added; [done|]. pose proof (bs_says _ _ _ _ Hb) as Hs.
    destruct (sc_active_segment st'); [by apply says_named|]. destruct turn_id; [by apply says_named|done].
Qed.

Lemma body_item_scanned cti x t suffix st st' :
  body_item_ok (tl_id t) x = true → names (some_or (head (sc_started_turn_ids st)) cti) (tl_id t) x = true →
  body_scanned t suffix st st' →
  body_scanned (add_item x t) suffix st (scan_item parse_uuid_v7 cti x (tl_body t ++ suffix) st').
Proof.
  intros Hok Hhead Hb. destruct x as [?|item|?|?|c|ctx| |w| |?|[]|]; try done;
    try (by apply turn_end_scanned); try (by apply says_nothing_scanned);
    (apply on_segment_scanned; [done|done|]; intros s Hs).
  - by apply (says_message (ResponseItem item)).
  - by apply (says_message (InterAgent communication)).
  - by apply says_compacted.
  - by apply says_context.
  - by apply says_world_line.
  - by apply (says_message (EventLine UserMessage)).
Qed.

Lemma body_scan cti init id attribution settled body suffix :
  let st := scan parse_uuid_v7 cti init suffix in
  forallb (body_item_ok id) body = true → forallb (names (some_or (head (sc_started_turn_ids st)) cti) id) body = true →
  sc_active_segment st = None →
  body_scanned (mkTurn id attribution settled body) suffix st (scan parse_uuid_v7 cti init (body ++ suffix)).
Proof.
  intros st Hok Hhead Hact. induction body as [|x body IH].
  - split; try done; [|by intros i; cbn; set_solver]. cbn [app]. fold st. rewrite Hact. apply says_empty.
  - cbn [forallb] in Hok, Hhead. apply andb_true_iff in Hok as [Hx Hok], Hhead as [Hn Hhead]. cbn [app scan].
    apply (body_item_scanned cti x (mkTurn id attribution settled body)); [done|done|by apply IH].
Qed.

Lemma names_known id body : forallb (names (Some id) id) body = true.
Proof. apply forallb_forall. intros x _. by apply bool_decide_eq_true. Qed.

(** * Turns and rollbacks *)

(** What a surviving turn adds to what newer turns said. *)
Definition absorb (f : Found) (t : TurnLog * list Block) : Found :=
  mkFound (some_or (fo_checkpoint f) (turn_checkpoint t))
    (some_or (fo_settings f) (if turn_baseline t.1 then turn_settings t.1 else None))
    (match fo_reference f with
     | NeverSet => if turn_baseline t.1 || match turn_reference t.1 with Cleared => true | _ => false end then turn_reference t.1 else NeverSet
     | r => r
     end)
    (fo_world f ++ rev (turn_world t.1)) (some_or (fo_window f) (turn_window t.1)).

Lemma has_context_baseline_says s t suffix : says s t suffix → has_context_baseline s = turn_baseline t.
Proof. intros [Hc _ _ Hw _ _ _ _]. unfold has_context_baseline, turn_baseline. by rewrite Hc, Hw. Qed.

Lemma finalize_says s t bs st :
  says s t (rollout bs) → sg_previous_turn_settings s = turn_settings t →
  found (finalize_active_segment s st) = (if (0 <? sc_pending_rollback_turns st)%N then found st else absorb (found st) (t, bs))
  ∧ sc_pending_rollback_turns (finalize_active_segment s st)
    = (if (0 <? sc_pending_rollback_turns st)%N && is_user_turn t then sc_pending_rollback_turns st - 1 else sc_pending_rollback_turns st)%N
  ∧ sc_active_segment (finalize_active_segment s st) = sc_active_segment st
  ∧ sc_started_turn_ids (finalize_active_segment s st) = sc_started_turn_ids st
  ∧ sc_late_completed_turn_ids (finalize_active_segment s st) = sc_late_completed_turn_ids st.
Proof.
  intros Hs Hp. pose proof (has_context_baseline_says _ _ _ Hs) as Hb. destruct Hs as [Hc _ Hr Hw Hh Hwin _ _].
  destruct st as [hc ps rc ta ws win pend ca late act started]. unfold finalize_active_segment; cbn [sc_pending_rollback_turns].
  rewrite Hb, Hc, Hp, Hr, Hw, Hh, Hwin. destruct (0 <? pend)%N; cbn; [by destruct (is_user_turn t)|].
  split_and!; try done. by destruct ps, rc.
Qed.

(** A segment that says what [t] says, its settings as they count. *)
Lemma finalize_settled t bs st i completed att :
  found (finalize_active_segment (mkSegment i completed (is_user_turn t) (turn_settings t) (turn_reference t) att
           (rev (turn_world t)) (last_replacement (tl_body t) (rollout bs)) (turn_window t)) st)
  = if (0 <? sc_pending_rollback_turns st)%N then found st else absorb (found st) (t, bs).
Proof.
  destruct st as [hc ps rc ta ws win pend ca late act started]. unfold finalize_active_segment; cbn [sc_pending_rollback_turns].
  change (has_context_baseline _) with (turn_baseline t). destruct (0 <? pend)%N; cbn; [done|]. by destruct ps, rc.
Qed.

Lemma finalize_default st :
  found (finalize_active_segment default_segment st) = found st
  ∧ sc_pending_rollback_turns (finalize_active_segment default_segment st) = sc_pending_rollback_turns st.
Proof.
  destruct st as [hc ps rc ta ws win pend ca late act started]. unfold finalize_active_segment. cbn.
  destruct (0 <? pend)%N; cbn; [done|]. rewrite !some_or_none, app_nil_r. by destruct ps, rc.
Qed.

Lemma says_attribution a id t s suffix : says s t suffix → says (segment_attribution a id s) t suffix.
Proof. destruct s. intros []. unfold segment_attribution. destruct (turn_ids_are_compatible _ _); by split. Qed.

Lemma says_checkpoint_attribution ca t s suffix : says s t suffix → says (take_checkpoint_attribution s ca).1 t suffix.
Proof. intros Hs. destruct ca as [a|]; cbn; [|done]. destruct (is_none_or _ _); [|done]. destruct s, Hs. by split. Qed.

(** ** The start of a turn closes it *)

(** The effect of the turn [t], with the blocks [bs] after it, on a scan between two turns. *)
Record turn_taken (t : TurnLog) (bs : list Block) (st st' : ScanState) : Prop := {
  tt_found : found st' = (if (0 <? sc_pending_rollback_turns st)%N then found st else absorb (found st) (t, bs));
  tt_pending : sc_pending_rollback_turns st'
    = (if (0 <? sc_pending_rollback_turns st)%N && is_user_turn t then sc_pending_rollback_turns st - 1 else sc_pending_rollback_turns st)%N;
  tt_active : sc_active_segment st' = None;
  tt_started : sc_started_turn_ids st' = tail (sc_started_turn_ids st);
  tt_late : ∀ i, i ∈ sc_late_completed_turn_ids st' ↔ i ∈ late_completions t ∨ i ∈ sc_late_completed_turn_ids st
}.

(** A turn whose lines left no segment says nothing. *)
Lemma silent_turn_found t bs st :
  says default_segment t (rollout bs) →
  (if (0 <? sc_pending_rollback_turns st)%N then found st else absorb (found st) (t, bs)) = found st
  ∧ (if (0 <? sc_pending_rollback_turns st)%N && is_user_turn t then sc_pending_rollback_turns st - 1 else sc_pending_rollback_turns st)%N
    = sc_pending_rollback_turns st.
Proof.
  intros Hs. destruct (finalize_default st) as [Hd1 Hd2].
  destruct (finalize_says _ _ _ st Hs) as (Hf' & Hp' & _); [|split; congruence].
  pose proof (says_settings _ _ _ Hs) as Hset. unfold turn_settings. rewrite <- Hset. by destruct (tl_settled t).
Qed.

Lemma says_compatible s t suffix : says s t suffix → turn_ids_are_compatible (sg_turn_id s) (Some (tl_id t)) = true.
Proof.
  intros [_ _ _ _ _ _ _ Hid]. destruct (sg_turn_id s); [|done]. cbn in *. apply bool_decide_eq_true in Hid. by apply bool_decide_eq_true.
Qed.

Lemma says_settled s t suffix : says s t suffix → tl_settled t = true → sg_previous_turn_settings s = turn_settings t.
Proof. intros Hs Ht. rewrite (says_settings _ _ _ Hs). unfold turn_settings. by rewrite Ht. Qed.

Lemma scan_turn_started_taken t bs st st' :
  tl_settled t = true → body_scanned t (rollout bs) st st' → turn_taken t bs st (scan_turn_started (tl_id t) (tl_attribution t) st').
Proof.
  intros Hset [Hs Hf Hp Hst Hl]. unfold scan_turn_started.
  destruct st' as [hc ps rc ta ws win pend ca late act started].
  set (st1 := mkScan hc ps rc ta ws win pend ca late act (tail started)).
  set (st2 := match tl_attribution t with Some a => if ta_turn_id a =s tl_id t then on_segment (segment_attribution a (tl_id t)) st1 else st1 | None => st1 end).
  assert (H2 : ∃ act2, st2 = mkScan hc ps rc ta ws win pend ca late act2 (tail started) ∧ says (default default_segment act2) t (rollout bs)).
  { unfold st2. destruct (tl_attribution t) as [a|]; [destruct (ta_turn_id a =s tl_id t)|]; [|by exists act..].
    eexists. split; [reflexivity|]. by apply says_attribution. }
  destruct H2 as (act2 & -> & Hs2). cbn [sc_active_segment]. clear st1 Hs. cbn in Hf, Hp, Hst, Hl. destruct act2 as [s|]; cbn in Hs2.
  - rewrite (says_compatible _ _ _ Hs2).
    pose proof (says_checkpoint_attribution ca _ _ _ (says_named (Some (tl_id t)) _ _ _ (bool_decide_eq_true_2 _ eq_refl) Hs2)) as Hs3.
    cbn [sc_checkpoint_attribution]. destruct (take_checkpoint_attribution _ _) as [s3 ca3]. cbn in Hs3.
    destruct (finalize_says _ _ _ (mkScan hc ps rc ta ws win pend ca3 late None (tail started)) Hs3 (says_settled _ _ _ Hs3 Hset))
      as (Hf' & Hp' & Ha & Hst' & Hl').
    split; [rewrite Hf', <- Hp, <- Hf|rewrite Hp', <- Hp|rewrite Ha|rewrite Hst', <- Hst|rewrite Hl']; done.
  - destruct (silent_turn_found t bs st Hs2) as [Hf2 Hp2]. split; cbn; try done; [by rewrite Hf2|by rewrite Hp2|by rewrite Hst].
Qed.

(** ** All the blocks *)

Lemma pop_user_turns_0 stack : pop_user_turns 0 stack = stack.
Proof. by destruct stack. Qed.

Lemma pop_user_turns_nil n : pop_user_turns n [] = [].
Proof. cbn. by destruct (n =? 0)%N. Qed.

Lemma pop_user_turns_cons n t stack :
  pop_user_turns n (t :: stack) = if (n =? 0)%N then t :: stack else pop_user_turns (if is_user_turn t.1 then n - 1 else n)%N stack.
Proof. done. Qed.

(** Popping is additive, so pending rollbacks can be added up. *)
Lemma pop_user_turns_add p n stack : pop_user_turns p (pop_user_turns n stack) = pop_user_turns (p + n) stack.
Proof.
  revert n. induction stack as [|t stack IH]; intros n.
  - by rewrite !pop_user_turns_nil.
  - rewrite (pop_user_turns_cons n). destruct (N.eqb_spec n 0) as [->|Hn]; [by rewrite N.add_0_r|].
    rewrite IH, (pop_user_turns_cons (p + n)). destruct (N.eqb_spec (p + n) 0) as [|Hpn]; [lia|].
    destruct (is_user_turn t.1); f_equal; lia.
Qed.

(** The turns whose completion is recorded in a later turn. *)
Definition completed_late (bs : list Block) : list str :=
  flat_map (λ b, match b with BTurn t => late_completions t | _ => [] end) bs.

Definition block_start (b : Block) : option str := match b with BTurn t => Some (tl_id t) | _ => None end.

(** The backward scan of [bs] has taken up the turns [kept] and owes [pending] rollbacks to the
    older ones. *)
Record blocks_scanned (bs : list Block) (kept : list (TurnLog * list Block)) (pending : N) (init st : ScanState) : Prop := {
  bl_reads : ∀ stack, read_blocks stack bs = kept ++ pop_user_turns pending stack;
  bl_found : found st = foldl absorb (found init) kept;
  bl_pending : sc_pending_rollback_turns st = pending;
  bl_bound : (pending ≤ rolled_back bs)%N;
  bl_active : sc_active_segment st = None;
  bl_started : sc_started_turn_ids st = drop (length (omap block_start bs)) (sc_started_turn_ids init);
  bl_late : ∀ i, i ∈ sc_late_completed_turn_ids st ↔ i ∈ completed_late bs ∨ i ∈ sc_late_completed_turn_ids init
}.

Lemma rollback_block cti n suffix st :
  (sc_pending_rollback_turns st + n ≤ usize_max)%N →
  let st' := scan_item parse_uuid_v7 cti (EventLine (ThreadRolledBack n)) suffix st in
  found st' = found st ∧ sc_pending_rollback_turns st' = (sc_pending_rollback_turns st + n)%N
  ∧ sc_active_segment st' = sc_active_segment st ∧ sc_started_turn_ids st' = sc_started_turn_ids st
  ∧ sc_late_completed_turn_ids st' = sc_late_completed_turn_ids st.
Proof. destruct st. cbn. unfold sat_add. intros. split_and!; try done. lia. Qed.

Lemma turn_block_scanned t bs kept pending init st st' :
  blocks_scanned bs kept pending init st → turn_taken t bs st st' →
  ∃ kept' pending', blocks_scanned (BTurn t :: bs) kept' pending' init st'.
Proof.
  intros [Hr Hf Hp Hb Ha Hst Hl] [Htf Htp Hta Hts Htl]. subst pending. set (p := sc_pending_rollback_turns st) in *.
  assert (Hst' : sc_started_turn_ids st' = drop (length (omap block_start (BTurn t :: bs))) (sc_started_turn_ids init)).
  { rewrite Hts, Hst. cbn [omap block_start length]. change (tail ?l) with (drop 1 l). by rewrite drop_drop, Nat.add_1_r. }
  assert (Hl' : ∀ i, i ∈ sc_late_completed_turn_ids st' ↔ i ∈ completed_late (BTurn t :: bs) ∨ i ∈ sc_late_completed_turn_ids init).
  { intros i. rewrite Htl, Hl. unfold completed_late. cbn [flat_map]. rewrite elem_of_app. naive_solver. }
  destruct (N.ltb_spec 0 p) as [Hpos|Hzero]; cbn [andb] in Htp.
  - exists kept, (sc_pending_rollback_turns st'). split; try done; [|by rewrite Htf|cbn; destruct (is_user_turn t); lia].
    intros stack. cbn [read_blocks]. rewrite Hr, pop_user_turns_cons. destruct (N.eqb_spec p 0); [lia|]. by rewrite Htp.
  - assert (Hp0 : p = 0%N) by lia. exists (kept ++ [(t, bs)]), 0%N. split; try done; [| |by rewrite Htp|lia].
    + intros stack. cbn [read_blocks]. rewrite Hr, Hp0, !pop_user_turns_0. by rewrite <- app_assoc.
    + by rewrite foldl_app, Htf, Hf.
Qed.

Lemma other_block cti x suffix st : other_item_ok x = true → scan_item parse_uuid_v7 cti x suffix st = st.
Proof. by destruct x as [| | | | | | | | | |[]|]. Qed.

Lemma blocks_scan cti init pre bs :
  forallb block_ok bs = true → (rolled_back bs ≤ usize_max)%N → sc_active_segment init = None → sc_pending_rollback_turns init = 0%N →
  sc_started_turn_ids init = rev (omap block_start bs) ++ pre →
  ∃ kept pending, blocks_scanned bs kept pending init (scan parse_uuid_v7 cti init (rollout bs)).
Proof.
  intros Hok Hmax Ha Hp. revert pre. induction bs as [|b bs IH]; intros pre Hst.
  { exists [], 0%N. split; try done; [|by intros i; cbn; set_solver]. intros stack. by rewrite pop_user_turns_0. }
  cbn [forallb] in Hok. apply andb_true_iff in Hok as [Hb Hok].
  destruct b as [t|n|x]; cbn [rolled_back] in Hmax.
  - cbn in Hst. rewrite <- app_assoc in Hst. destruct (IH Hok Hmax _ Hst) as (kept & pending & Hbs).
    cbn in Hb. apply andb_true_iff in Hb as [Hset Hb].
    apply (turn_block_scanned t _ _ _ _ _ _ Hbs). cbn [rollout block_items app scan]. apply scan_turn_started_taken; [done|].
    destruct t as [id att settled body]. apply body_scan; [done| |apply Hbs].
    rewrite (bl_started _ _ _ _ _ Hbs), Hst. rewrite drop_app_length' by (symmetry; apply length_rev). apply names_known.
  - destruct (IH Hok ltac:(lia) _ Hst) as (kept & pending & [Hr Hf Hpe Hbd Hac Hs Hl]).
    destruct (rollback_block cti n (rollout bs) (scan parse_uuid_v7 cti init (rollout bs))) as (Hf' & Hp' & Ha' & Hs' & Hl'); [lia|].
    exists kept, (pending + n)%N. split; cbn [rollout block_items app scan];
      [|congruence|congruence|cbn; lia|congruence|exact (eq_trans Hs' Hs)|by rewrite Hl'].
    intros stack. cbn [read_blocks]. by rewrite Hr, pop_user_turns_add.
  - destruct (IH Hok Hmax _ Hst) as (kept & pending & [Hr Hf Hpe Hbd Hac Hs Hl]). exists kept, pending.
    cbn [rollout block_items app scan]. rewrite other_block by done. by split.
Qed.
Lemma started_body id body : forallb (body_item_ok id) body = true → omap started_turn_id body = [].
Proof.
  induction body as [|x body IH]; [done|]. cbn [forallb]. intros [Hx Hb]%andb_true_iff. specialize (IH Hb).
  by destruct x as [| | | | | | | | | |[]|].
Qed.

Lemma started_blocks bs : forallb block_ok bs = true → omap started_turn_id (rollout bs) = omap block_start bs.
Proof.
  induction bs as [|b bs IH]; [done|]. cbn [forallb]. intros [Hb Hok]%andb_true_iff. cbn [rollout].
  rewrite omap_app, IH by done. destruct b as [t|n|x]; cbn in Hb |- *; [|done|by destruct x as [| | | | | | | | | |[]|]].
  apply andb_true_iff in Hb as [_ Hb].
  f_equal. change (omap started_turn_id (tl_body t) ++ omap block_start bs = omap block_start bs). by rewrite (started_body (tl_id t)).
Qed.

(** * Lines before the first start of a turn *)

(** The turn of the compaction that a thread is resumed from. *)
Definition checkpoint_turn_id (items : list RolloutItem) (mode : ThreadHistoryMode) : option str :=
  resume_metadata items mode ≫= (λ m, some_or (rm_last_started_turn_id m) (ta_turn_id <$> rm_turn_attribution m)).

(** The lines [lead] read before any start of a turn are of one turn [id]: the one the resume
    metadata names, or, without such metadata, the only one the lines themselves name. *)
Definition lead_ok (items : list RolloutItem) (mode : ThreadHistoryMode) (id : str) (lead : list RolloutItem) : bool :=
  forallb (body_item_ok id) lead && forallb (names (checkpoint_turn_id items mode) id) lead
  && match resume_metadata items mode with
     | Some _ => match checkpoint_turn_id items mode with Some i => i =s id | None => false end
     | None => true
     end.

Lemma started_lead items mode id lead : lead_ok items mode id lead = true → omap started_turn_id lead = [].
Proof. intros [[Hb _]%andb_true_iff _]%andb_true_iff. by apply (started_body id). Qed.

(** Resumed inside a turn, its settings count once it completes, there or later. *)
Definition lead_turn (items : list RolloutItem) (mode : ThreadHistoryMode) (id : str) (lead : list RolloutItem) (bs : list Block) : TurnLog :=
  mkTurn id None
    (negb (bool_decide (is_Some (resume_metadata items mode))) || turn_completed (mkTurn id None true lead)
     || bool_decide (id ∈ completed_late bs)) lead.

Lemma says_known_id s t suffix : says s t suffix → some_or (sg_turn_id s) (Some (tl_id t)) = Some (tl_id t).
Proof.
  intros [_ _ _ _ _ _ _ Hid]. destruct (sg_turn_id s) as [i|]; [|done]. cbn in *. apply bool_decide_eq_true in Hid. by subst i.
Qed.

(** The end of the scan closes the turn it is in. *)
Lemma lead_taken items mode id lead bs kept pending init :
  let cti := checkpoint_turn_id items mode in
  let st := scan parse_uuid_v7 cti init (rollout bs) in
  lead_ok items mode id lead = true → blocks_scanned bs kept pending init st → sc_started_turn_ids st = [] →
  sc_late_completed_turn_ids init = ∅ →
  found (close_segment (resume_metadata items mode) cti (scan parse_uuid_v7 cti init (lead ++ rollout bs)))
  = foldl absorb (found init) (surviving (lead_turn items mode id lead bs) bs).
Proof.
  intros cti st Hok Hbs Hst Hempty. unfold lead_ok in Hok. apply andb_true_iff in Hok as [[Hbody Hnames]%andb_true_iff Hres].
  destruct Hbs as [Hr Hf Hp _ Ha _ Hl]. set (t := lead_turn items mode id lead bs).
  assert (body_scanned t (rollout bs) st (scan parse_uuid_v7 cti init (lead ++ rollout bs))) as [Hs Hfs Hps _ Hls].
  { apply body_scan; [done| |done]. fold st. by rewrite Hst. }
  unfold surviving. rewrite Hr, foldl_app, <- Hf. fold st.
  assert (foldl absorb (found st) (pop_user_turns pending [(t, bs)])
          = if (0 <? sc_pending_rollback_turns st)%N then found st else absorb (found st) (t, bs)) as ->.
  { rewrite Hp, pop_user_turns_cons, pop_user_turns_nil. by destruct (N.eqb_spec pending 0), (N.ltb_spec 0 pending); try lia. }
  unfold close_segment. destruct (sc_active_segment (scan parse_uuid_v7 cti init (lead ++ rollout bs))) as [s|] eqn:Es;
    [|by rewrite (proj1 (silent_turn_found t bs st Hs))].
  change (says s t (rollout bs)) in Hs. destruct (scan parse_uuid_v7 cti init (lead ++ rollout bs)) as [hc ps rc ta ws win pend ca late act started].
  cbn [sc_checkpoint_attribution sc_late_completed_turn_ids].
  pose proof (says_checkpoint_attribution ca _ _ _ Hs) as Hs2. destruct (take_checkpoint_attribution s ca) as [s2 ca2]. cbn [fst] in Hs2.
  set (completed := sg_turn_completed s2 || _). cbn in Hfs, Hps, Hls.
  assert (Hsettings : (if bool_decide (is_Some (resume_metadata items mode)) && negb completed then None else sg_previous_turn_settings s2)
                      = turn_settings t).
  { rewrite (says_settings _ _ _ Hs2). unfold turn_settings, t, lead_turn. cbn [tl_settled].
    destruct (resume_metadata items mode) as [m|]; [|done]. cbn [andb].
    assert (completed = turn_completed t || bool_decide (id ∈ completed_late bs)) as ->.
    { unfold completed. rewrite (says_done _ _ _ Hs2). f_equal. fold cti in Hres. destruct cti as [i|]; [|done].
      apply bool_decide_eq_true in Hres. subst i. pose proof (says_known_id _ _ _ Hs2) as Hk. cbn [tl_id t lead_turn] in Hk. rewrite Hk.
      apply bool_decide_ext. rewrite Hls, Hl, Hempty. unfold late_completions. cbn [tl_id tl_body t lead_turn].
      rewrite list_elem_of_omap. split; [|naive_solver]. intros [(x & _ & Hx)|[?|?]]; [|done|set_solver].
      unfold late_completion in Hx. destruct x as [| | | | | | | | | |[]|]; try done. destruct (turn_id =s id) eqn:E; [done|].
      injection Hx as ->. by apply bool_decide_eq_false in E. }
    cbn [negb orb]. change (turn_completed t) with (turn_completed (mkTurn id None true lead)). by destruct (_ || _). }
  destruct s2 as [i done_ u p r att w h win2]. cbn [sg_previous_turn_settings] in Hsettings. rewrite Hsettings.
  rewrite <- Hps, <- Hfs. destruct Hs2 as [Hc _ Hr2 Hw2 Hh2 Hwin2 Hd2 Hid2].
  pose proof (finalize_settled t bs (mkScan hc ps rc ta ws win pend ca2 late None started) i completed att) as Hfin.
  cbn in Hc, Hr2, Hw2, Hh2, Hwin2. rewrite Hc, Hr2, Hw2, Hh2, Hwin2. exact Hfin.
Qed.

(** The scan of a rollout made of blocks. *)
Lemma scan_rollout_found items mode id lead bs :
  replay_items items mode = lead ++ rollout bs → lead_ok items mode id lead = true → forallb block_ok bs = true →
  (rolled_back bs ≤ usize_max)%N →
  found (scan_rollout parse_uuid_v7 items mode)
  = foldl absorb (found (scan_start parse_uuid_v7 items mode)) (surviving (lead_turn items mode id lead bs) bs).
Proof.
  intros Hitems Hlead Hok Hmax. unfold scan_rollout. rewrite Hitems. fold (checkpoint_turn_id items mode).
  assert (Hstart : sc_started_turn_ids (scan_start parse_uuid_v7 items mode) = rev (omap block_start bs) ++ []).
  { unfold scan_start. cbn [sc_started_turn_ids]. rewrite Hitems, omap_app, started_blocks, app_nil_r by done.
    by rewrite (started_lead _ _ _ _ Hlead). }
  destruct (blocks_scan (checkpoint_turn_id items mode) (scan_start parse_uuid_v7 items mode) [] bs) as (kept & pending & Hbs); try done.
  apply (lead_taken _ _ _ _ _ kept pending); try done. rewrite (bl_started _ _ _ _ _ Hbs), Hstart, app_nil_r.
  apply drop_ge. by rewrite length_rev.
Qed.

(** * The state of the thread *)

Section state.
Context (lead : TurnLog) (bs : list Block).

(** The newest surviving turn with settings that set up its context. *)
Definition thread_settings : option PreviousTurnSettings :=
  find_map (λ t, if turn_baseline t.1 then turn_settings t.1 else None) (surviving lead bs).

(** What the newest surviving turn that has a say says of the context: only a turn that sets it
    up can name it, any can clear it. *)
Definition turn_reference_says (t : TurnLog) : option TurnReferenceContextItem :=
  match turn_reference t with
  | NeverSet => None
  | Cleared => Some Cleared
  | Latest ctx => if turn_baseline t then Some (Latest ctx) else None
  end.

Definition thread_reference : TurnReferenceContextItem :=
  default NeverSet (find_map (λ t, turn_reference_says t.1) (surviving lead bs)).

Definition thread_window : option ReconstructedWindow := find_map (λ t, turn_window t.1) (surviving lead bs).

Definition thread_checkpoint : option ReplayCheckpoint := find_map turn_checkpoint (surviving lead bs).

(** The world-state lines of the surviving turns, the oldest first. *)
Definition thread_world : list RolloutItem := flat_map (λ t, turn_world t.1) (rev (surviving lead bs)).
End state.

Lemma foldl_absorb f ts :
  fo_checkpoint (foldl absorb f ts) = some_or (fo_checkpoint f) (find_map turn_checkpoint ts)
  ∧ fo_settings (foldl absorb f ts) = some_or (fo_settings f) (find_map (λ t, if turn_baseline t.1 then turn_settings t.1 else None) ts)
  ∧ fo_reference (foldl absorb f ts)
    = match fo_reference f with NeverSet => default NeverSet (find_map (λ t, turn_reference_says t.1) ts) | r => r end
  ∧ fo_world (foldl absorb f ts) = fo_world f ++ rev (flat_map (λ t, turn_world t.1) (rev ts))
  ∧ fo_window (foldl absorb f ts) = some_or (fo_window f) (find_map (λ t, turn_window t.1) ts).
Proof.
  revert f. induction ts as [|t ts IH]; intros f; cbn [foldl find_map rev].
  { rewrite !some_or_none, app_nil_r. split_and!; try done. by destruct (fo_reference f). }
  destruct (IH (absorb f t)) as (-> & -> & -> & -> & ->). cbn [absorb fo_checkpoint fo_settings fo_reference fo_world fo_window].
  rewrite flat_map_app, rev_app_distr. cbn [flat_map]. rewrite app_nil_r, app_assoc. unfold turn_reference_says. split_and!; [| | |done|].
  - by destruct (fo_checkpoint f), (turn_checkpoint t).
  - destruct (fo_settings f), (turn_baseline t.1); cbn; try done; by destruct (turn_settings t.1).
  - destruct (fo_reference f), (turn_baseline t.1), (turn_reference t.1); done.
  - by destruct (fo_window f), (turn_window t.1).
Qed.

Lemma world_lines_are_records l : Forall (λ x, is_world_line x = true) l → mapM baseline_record l = Some (omap baseline_record l).
Proof.
  induction 1 as [|x l Hx _ IH]; [done|]. cbn [mapM]. rewrite IH. by destruct x.
Qed.

Lemma thread_world_lines lead bs : Forall (λ x, is_world_line x = true) (thread_world lead bs).
Proof.
  apply Forall_forall. intros x Hx. apply list_elem_of_In, in_flat_map in Hx as (t & _ & Hx).
  unfold turn_world in Hx. by apply filter_In in Hx as [_ Hx].
Qed.

End turns.

(** ** A thread with a rollback *)

(** A history of numbered items, the even ones from the user, kept with the newest first. *)
Definition drop_users : N → list nat → list nat :=
  fix drop_users n l :=
    if (n =? 0)%N then l
    else match l with [] => [] | x :: l => drop_users (if Nat.even x then n - 1 else n)%N l end.

Definition numbered_history : ThreadHistory := {|
  ResponseItemEnvelope := nat; InterAgentCommunication := nat; RetainedContextEvent := nat; RetainedContext := unit; GuardianHistory := unit;
  AttributionRest := unit; ContextRest := nat; CyberAccessProgram := unit; ContextManager := list nat;
  is_user_turn_boundary := Nat.even; is_user_message := Nat.even;
  replace_annotated := λ l _, rev l; restore_review_context := λ _ _ h, h; record_retained_context := λ _ h, h;
  replay_annotated_item := cons; record_communication := cons; compact_user_messages := λ _, List.filter Nat.even;
  drop_last_n_user_turns := drop_users; annotated_items := @rev nat; retained_context := λ _, (); guardian_history_checkpoint := λ _, None |}.

Section example.
#[local] Existing Instance numbered_history.

Definition example_context (id : str) (rest : nat) : RolloutItem := TurnContext (mkTurnContext (Some id) (id ++ lit "-model") None None None rest).

Definition example_state (full : bool) (k v : str) : RolloutItem := WorldStateItemLine (mkWorldState full {[k := JString v]}).

(** The compaction of the user turn a, with the thread's settings before it. *)
Definition example_compaction : CompactedItem :=
  mkCompacted [] (Some [2]) None None (Some 1%N) None None None
    (Some (mkResume (Some (lit "a")) None (Some (mkSettings (lit "old-model") None None None)))).

(** The rest of the turn a. *)
Definition example_lead : list RolloutItem := [
  example_state true (lit "env") (lit "x"); example_context (lit "a") 1; ResponseItem 3; ResponseItem 6].

(** The user turn b, in which a is completed, the turn c without the user, a rollback of one
    turn, the turn d without the user. *)
Definition example_blocks : list Block := [
  BTurn (mkTurn (lit "b") None true [example_context (lit "b") 2; ResponseItem 4; EventLine (TurnComplete (lit "a"));
    example_state false (lit "env") (lit "y")]);
  BTurn (mkTurn (lit "c") None true [ResponseItem 5; example_state false (lit "env") (lit "z"); EventLine (TurnAborted None)]);
  BRollback 1;
  BTurn (mkTurn (lit "d") None true [example_context (lit "d") 3; ResponseItem 7; example_state false (lit "dir") (lit "t"); EventLine (TurnComplete (lit "b"))])].

Definition example_items : list RolloutItem :=
  [SessionMeta (Some (lit "w0")); EventLine (TurnStarted (lit "a") None); ResponseItem 2; Compacted example_compaction]
  ++ example_lead ++ rollout example_blocks.

End example.
