(* ===== verification/AgentPath.v ===== *)
(** protocol/src/agent_path.rs: the paths of agents in a tree of agents, [/root/a/b], with the one
    exception [/morpheus]. *)
From S2P Require Import Prelude Str.

Notation AgentPath := str.

Definition SLASH : N := 47.
Definition ROOT : str := lit "/root".
Definition MORPHEUS : str := lit "/morpheus".
Definition ROOT_SEGMENT : str := lit "root".

Definition root : AgentPath := ROOT.
Definition morpheus : AgentPath := MORPHEUS.

Definition split_slash (s : str) : list str := split_by (N.eqb SLASH) s.

(** * Validation *)

Definition name_char (c : N) : bool := is_ascii_lower c || is_ascii_digit c || (c =? 95)%N.

Definition validate_agent_name (agent_name : str) : result str unit :=
  if agent_name =s [] then Err (lit "agent_name must not be empty")
  else if agent_name =s ROOT_SEGMENT then Err (lit "agent_name `root` is reserved")
  else if (agent_name =s lit ".") || (agent_name =s lit "..") then Err (lit "agent_name `" ++ agent_name ++ lit "` is reserved")
  else if existsb (N.eqb SLASH) agent_name then Err (lit "agent_name must not contain `/`")
  else if negb (forallb name_char agent_name) then Err (lit "agent_name must use only lowercase letters, digits, and underscores")
  else Ok ().

Fixpoint validate_segments (segments : list str) : result str unit :=
  match segments with
  | [] => Ok ()
  | s :: segments => match validate_agent_name s with Ok _ => validate_segments segments | Err e => Err e end
  end.

Definition validate_absolute_path (path : str) : result str unit :=
  if path =s MORPHEUS then Ok ()
  else
    match strip_prefix [SLASH] path with
    | None => Err (lit "absolute agent paths must start with `/root` or be `/morpheus`")
    | Some stripped =>
        match split_slash stripped with
        | [] => Err (lit "absolute agent path must not be empty")
        | r :: segments =>
            if negb (r =s ROOT_SEGMENT) then Err (lit "absolute agent paths must start with `/root` or be `/morpheus`")
            else if ends_with [SLASH] stripped then Err (lit "absolute agent path must not end with `/`")
            else validate_segments segments
        end
    end.

Definition validate_relative_reference (reference : str) : result str unit :=
  if ends_with [SLASH] reference then Err (lit "relative agent path must not end with `/`")
  else validate_segments (split_slash reference).

(** * Operations *)

Definition from_string (path : str) : result str AgentPath :=
  match validate_absolute_path path with Ok _ => Ok path | Err e => Err e end.

Definition is_root (p : AgentPath) : bool := p =s ROOT.

Definition name (p : AgentPath) : str :=
  if is_root p then ROOT_SEGMENT
  else match last (split_slash p) with Some s => if s =s [] then ROOT_SEGMENT else s | None => ROOT_SEGMENT end.

Definition path_join (p : AgentPath) (agent_name : str) : result str AgentPath :=
  match validate_agent_name agent_name with
  | Ok _ => from_string (p ++ [SLASH] ++ agent_name)
  | Err e => Err e
  end.

Definition resolve (p : AgentPath) (reference : str) : result str AgentPath :=
  if reference =s [] then Err (lit "agent path must not be empty")
  else if reference =s ROOT then Ok root
  else if starts_with [SLASH] reference then from_string reference
  else
    match validate_relative_reference reference with
    | Ok _ => from_string (p ++ [SLASH] ++ reference)
    | Err e => Err e
    end.

(** * Paths as lists of names *)

Definition valid_name (n : str) : bool := is_ok (validate_agent_name n).

(** The path of the agent that is reached from the root by [names]. *)
Definition path_of (names : list str) : AgentPath := [SLASH] ++ join [SLASH] (ROOT_SEGMENT :: names).

Lemma join_cons sep x y l : join sep (x :: y :: l) = x ++ sep ++ join sep (y :: l).
Proof. done. Qed.

Lemma join_app sep a b l1 l2 : join sep ((a :: l1) ++ b :: l2) = join sep (a :: l1) ++ sep ++ join sep (b :: l2).
Proof.
  revert a. induction l1 as [|x l1 IH]; intros a; [done|]. cbn [app] in *. rewrite !join_cons, IH, <- !app_assoc. done.
Qed.

Lemma split_slash_nonempty s : split_slash s ≠ [].
Proof. unfold split_slash. destruct s as [|c s]; cbn [split_by]; [done|]. destruct (SLASH =? c)%N; [done|]. by destruct (split_by _ s). Qed.

Lemma split_slash_cons c s :
  split_slash (c :: s) = if (SLASH =? c)%N then [] :: split_slash s else match split_slash s with [] => [[c]] | w :: ws => (c :: w) :: ws end.
Proof. done. Qed.

Lemma join_split_slash s : join [SLASH] (split_slash s) = s.
Proof.
  induction s as [|c s IH]; [done|]. rewrite split_slash_cons. pose proof (split_slash_nonempty s) as Hn.
  destruct (split_slash s) as [|w ws]; [done|]. destruct (N.eqb_spec SLASH c) as [<-|Hc]; [by rewrite join_cons, IH|].
  destruct ws as [|w' ws]; [by cbn in *; subst|]. rewrite join_cons in *. by rewrite <- IH.
Qed.

Lemma split_slash_name n : existsb (N.eqb SLASH) n = false → split_slash n = [n].
Proof. induction n as [|c n IH]; [done|]. cbn [existsb]. intros [Hc Hn]%orb_false_iff. by rewrite split_slash_cons, Hc, IH. Qed.

Lemma split_slash_app n s : existsb (N.eqb SLASH) n = false → split_slash (n ++ [SLASH] ++ s) = n :: split_slash s.
Proof.
  induction n as [|c n IH]; [done|]. cbn [existsb]. intros [Hc Hn]%orb_false_iff. cbn [app] in *. by rewrite split_slash_cons, Hc, IH.
Qed.

Lemma split_join_slash n names : Forall (λ n, existsb (N.eqb SLASH) n = false) (n :: names) → split_slash (join [SLASH] (n :: names)) = n :: names.
Proof.
  revert n. induction names as [|m names IH]; intros n [Hn Hs]%Forall_cons; [by apply split_slash_name|].
  rewrite join_cons, split_slash_app by done. by rewrite IH.
Qed.

Lemma valid_name_char n : valid_name n = true → n ≠ [] ∧ n ≠ ROOT_SEGMENT ∧ existsb (N.eqb SLASH) n = false.
Proof.
  unfold valid_name, validate_agent_name. repeat case_bool_decide; try done; cbn [orb].
  destruct (existsb (N.eqb SLASH) n); [done|]. by intros.
Qed.

Lemma validate_segments_ok l : is_ok (validate_segments l) = forallb valid_name l.
Proof. induction l as [|n l IH]; [done|]. cbn [validate_segments forallb]. unfold valid_name at 1. by destruct (validate_agent_name n). Qed.

Lemma names_no_slash names : forallb valid_name names = true → Forall (λ n, existsb (N.eqb SLASH) n = false) names.
Proof. intros H. apply Forall_forall. intros n Hn. eapply valid_name_char, forallb_forall; [done|]. by apply list_elem_of_In. Qed.

Lemma split_path_of names : forallb valid_name names = true → split_slash (join [SLASH] (ROOT_SEGMENT :: names)) = ROOT_SEGMENT :: names.
Proof. intros H. apply split_join_slash. constructor; [done|by apply names_no_slash]. Qed.

Lemma ends_with_slash s : ends_with [SLASH] s = true → last (split_slash s) = Some [].
Proof.
  unfold ends_with. destruct (strip_suffix [SLASH] s) as [t|] eqn:E; [|done]. intros _. apply strip_suffix_Some in E as ->.
  induction t as [|c t IH]; [done|]. cbn [app]. rewrite split_slash_cons. pose proof (split_slash_nonempty (t ++ [SLASH])) as Hn.
  destruct (split_slash (t ++ [SLASH])) as [|w ws] eqn:Es; [done|].
  destruct (SLASH =? c)%N; [done|]. destruct ws as [|w' ws]; [|done]. exfalso. cbn in IH. injection IH as ->.
  pose proof (join_split_slash (t ++ [SLASH])) as Hj. rewrite Es in Hj. cbn in Hj. by destruct t.
Qed.

Lemma names_end r names : r ≠ [] → forallb valid_name names = true → last (r :: names) ≠ Some [].
Proof.
  intros Hr Hok Hl. apply last_Some_elem_of in Hl. apply elem_of_cons in Hl as [Hl|Hl]; [by subst|].
  apply list_elem_of_In in Hl. eapply forallb_forall in Hok; [|done]. by destruct (valid_name_char [] Hok).
Qed.

(** What a reference, or the text after the leading slash, is accepted for. *)
Lemma validate_absolute_exact s :
  is_ok (validate_absolute_path s) = true ↔ s = MORPHEUS ∨ ∃ names, forallb valid_name names = true ∧ s = path_of names.
Proof.
  unfold validate_absolute_path. case_bool_decide as Hm; [by split; [left|]|]. split.
  - destruct (strip_prefix [SLASH] s) as [t|] eqn:Es; [|done]. apply strip_prefix_Some in Es as ->.
    pose proof (join_split_slash t) as Hj. destruct (split_slash t) as [|r names]; [done|].
    case_bool_decide as Hr; cbn [negb]; [|done]. destruct (ends_with [SLASH] t); [done|]. rewrite validate_segments_ok. intros Hok.
    right. exists names. split; [done|]. unfold path_of. by rewrite <- Hr, Hj.
  - intros [->|(names & Hok & ->)]; [done|]. unfold path_of. rewrite strip_prefix_app, split_path_of by done.
    rewrite bool_decide_eq_true_2 by done. cbn [negb]. destruct (ends_with [SLASH] _) eqn:Ee; [|by rewrite validate_segments_ok].
    apply ends_with_slash in Ee. rewrite split_path_of in Ee by done. by apply names_end in Ee.
Qed.

Lemma from_string_result s : from_string s = Ok s ∨ ∃ e, from_string s = Err e.
Proof. unfold from_string. destruct (validate_absolute_path s); [by left|]. right. by eexists. Qed.

Lemma from_string_ok s : is_ok (validate_absolute_path s) = true → from_string s = Ok s.
Proof. unfold from_string. by destruct (validate_absolute_path s). Qed.

Lemma from_string_path names : forallb valid_name names = true → from_string (path_of names) = Ok (path_of names).
Proof. intros H. apply from_string_ok, validate_absolute_exact. right. by exists names. Qed.

Lemma path_of_app names more : more ≠ [] → path_of (names ++ more) = path_of names ++ [SLASH] ++ join [SLASH] more.
Proof. destruct more as [|m more]; [done|]. intros _. unfold path_of. rewrite app_comm_cons, join_app, <- app_assoc. done. Qed.

Lemma name_path_of names n : forallb valid_name (names ++ [n]) = true → name (path_of (names ++ [n])) = n.
Proof.
  intros Hok. unfold name, is_root. rewrite bool_decide_eq_false_2.
  - unfold path_of. cbn [app]. rewrite split_slash_cons, N.eqb_refl, split_path_of by done.
    rewrite forallb_app in Hok. apply andb_true_iff in Hok as [_ Hn]. cbn [forallb] in Hn. rewrite andb_true_r in Hn.
    change ([] :: ROOT_SEGMENT :: names ++ [n]) with (([] :: ROOT_SEGMENT :: names) ++ [n]). rewrite last_snoc.
    rewrite bool_decide_eq_false_2; [done|]. by destruct (valid_name_char n Hn).
  - intros H. assert (Hs : split_slash (path_of (names ++ [n])) = [[]; ROOT_SEGMENT]) by (by rewrite H).
    unfold path_of in Hs. cbn [app] in Hs. rewrite split_slash_cons, N.eqb_refl, split_path_of in Hs by done.
    injection Hs as Hs. by destruct names.
Qed.

Lemma join_names_start n l : valid_name n = true → ∃ c t, join [SLASH] (n :: l) = c :: t ∧ c ≠ SLASH.
Proof.
  intros (Hne & _ & Hslash)%valid_name_char. destruct n as [|c n]; [done|]. exists c. cbn [existsb] in Hslash.
  apply orb_false_iff in Hslash as [Hc _]. apply N.eqb_neq in Hc. destruct l; [by exists n|]. eexists. split; [reflexivity|done].
Qed.

(** A reference of valid names is taken as relative. *)
Lemma resolve_relative p l : forallb valid_name l = true → l ≠ [] → resolve p (join [SLASH] l) = from_string (p ++ [SLASH] ++ join [SLASH] l).
Proof.
  intros Hl Hne. destruct l as [|n l]; [done|]. assert (Hn : valid_name n = true) by (cbn [forallb] in Hl; by apply andb_true_iff in Hl as [? _]).
  destruct (join_names_start n l Hn) as (c & t & Hj & Hc). pose proof (split_join_slash n l (names_no_slash _ Hl)) as Hs.
  unfold resolve. rewrite bool_decide_eq_false_2 by (by rewrite Hj). rewrite bool_decide_eq_false_2 by (rewrite Hj; intros [= -> _]; done).
  assert (starts_with [SLASH] (join [SLASH] (n :: l)) = false) as ->.
  { unfold starts_with. destruct (strip_prefix _ _) eqn:E; [|done]. apply strip_prefix_Some in E. rewrite Hj in E. by injection E. }
  unfold validate_relative_reference. destruct (ends_with [SLASH] _) eqn:Ee.
  { apply ends_with_slash in Ee. rewrite Hs in Ee. apply names_end in Ee; [done|by destruct (valid_name_char n Hn)|].
    cbn [forallb] in Hl. by apply andb_true_iff in Hl as [_ ?]. }
  rewrite Hs. pose proof (validate_segments_ok (n :: l)) as Hv. rewrite Hl in Hv. by destruct (validate_segments (n :: l)).
Qed.

(** Agent paths are the tree of names. A text is a path exactly when it is [/morpheus] or the root
    followed by valid names; joining appends one name, which is then the agent's name, and
    fails on invalid ones; a relative reference appends its names, an absolute one is the
    path it says. *)
Theorem agent_paths_form_tree (names : list str) :
  forallb valid_name names = true →
  (∀ s, is_ok (from_string s) = true ↔ s = MORPHEUS ∨ ∃ l, forallb valid_name l = true ∧ s = path_of l)
  ∧ (∀ n, valid_name n = true → path_join (path_of names) n = Ok (path_of (names ++ [n])) ∧ name (path_of (names ++ [n])) = n)
  ∧ (∀ n, valid_name n = false → is_ok (path_join (path_of names) n) = false)
  ∧ (∀ l, forallb valid_name l = true → l ≠ [] → resolve (path_of names) (join [SLASH] l) = Ok (path_of (names ++ l)))
  ∧ (∀ l, forallb valid_name l = true → resolve (path_of names) (path_of l) = Ok (path_of l)).
Proof.
  intros Hok.
  assert (Happ : ∀ l, forallb valid_name l = true → forallb valid_name (names ++ l) = true) by (intros l Hl; by rewrite forallb_app, Hok).
  split_and!.
  - intros s. rewrite <- validate_absolute_exact. unfold from_string. by destruct (validate_absolute_path s).
  - intros n Hn. assert (Hl : forallb valid_name [n] = true) by (cbn; by rewrite Hn). split; [|by apply name_path_of, Happ].
    unfold path_join. unfold valid_name in Hn. destruct (validate_agent_name n); [|done].
    change n with (join [SLASH] [n]) at 1. rewrite <- path_of_app by done. by apply from_string_path, Happ.
  - intros n Hn. unfold path_join, valid_name in *. by destruct (validate_agent_name n).
  - intros l Hl Hne. rewrite resolve_relative by done. rewrite <- path_of_app by done. by apply from_string_path, Happ.
  - intros l Hl. unfold resolve. rewrite bool_decide_eq_false_2 by done. case_bool_decide as Hr; [by rewrite Hr|].
    change (starts_with [SLASH] (path_of l)) with true. cbn iota. by apply from_string_path.
Qed.
