(* ===== verification/AgentRegistry.v ===== *)
(** core/src/agent/registry.rs: the agents of one session by their paths and threads, and the
    reservations that count against the limit on agents. A thread id is its text. The random
    choice of a nickname is a parameter.

    The registry is shared: its maps are behind one lock and its count is an atomic. Any number
    of tasks reserve, commit, drop and release; their steps, each one lock or one atomic
    operation, are interleaved in [step]. *)
From stdpp Require Import pretty.
From S2P Require Import Prelude Str AgentPath.

Notation ThreadId := str.

(** * Data *)

Record AgentMetadata := mkMetadata {
  am_agent_id : option ThreadId; am_agent_path : option AgentPath; am_agent_nickname : option str; am_agent_role : option str }.

(** The sources of sessions that are told apart. *)
Inductive SessionSource := SubAgentThreadSpawn (depth : Z) | SubAgentOther | OtherSource.

Definition session_depth (source : SessionSource) : Z := match source with SubAgentThreadSpawn depth => depth | SubAgentOther | OtherSource => 0 end.

(** Saturating at the width of [i32]. *)
Definition next_thread_spawn_depth (source : SessionSource) : Z := Z.min (session_depth source + 1) 2147483647.

Definition exceeds_thread_spawn_depth_limit (depth max_depth : Z) : bool := (max_depth <? depth)%Z.

Section registry.
(** [TurnEnvironmentSelection] *)
Context {Environment : Type}.

Record RegisteredAgent := mkRegistered { ra_path : str; ra_evicted_environments : option (list Environment) }.

Definition registered_new (path : str) : RegisteredAgent := mkRegistered path None.

Record ActiveAgents := mkActive {
  agent_tree : gmap str AgentMetadata;
  thread_paths : gmap ThreadId RegisteredAgent;
  used_agent_nicknames : gset str;
  nickname_reset_count : N
}.

Record AgentRegistry := mkRegistry { active_agents : ActiveAgents; total_count : N }.

Definition empty_registry : AgentRegistry := mkRegistry (mkActive ∅ ∅ ∅ 0) 0.

Inductive SpawnError := AgentLimitReached (max_threads : N) | DuplicatePath (agent_path : AgentPath) | NicknameUnavailable.

Definition is_root_metadata (m : AgentMetadata) : bool := match am_agent_path m with Some p => is_root p | None => false end.

(** * Nicknames *)

Definition format_agent_nickname (name : str) (reset_count : N) : str :=
  if (reset_count =? 0)%N then name
  else
    let value := (reset_count + 1)%N in
    let suffix :=
      if ((11 <=? value mod 100) && (value mod 100 <=? 13))%N then lit "th"
      else match (value mod 10)%N with 1%N => lit "st" | 2%N => lit "nd" | 3%N => lit "rd" | _ => lit "th" end in
    name ++ lit " the " ++ lit (pretty value) ++ suffix.

Definition with_nicknames (used : gset str) (resets : N) (a : ActiveAgents) : ActiveAgents :=
  mkActive (agent_tree a) (thread_paths a) used resets.

(** [choose] picks one of a list at random, and none only of the empty one. *)
Definition reserve_agent_nickname (choose : list str → option str) (names : list str) (preferred : option str) (a : ActiveAgents)
    : option str * ActiveAgents :=
  let take_name nickname a := (Some nickname, with_nicknames ({[nickname]} ∪ used_agent_nicknames a) (nickname_reset_count a) a) in
  match preferred with
  | Some p => take_name p a
  | None =>
      match names with
      | [] => (None, a)
      | _ =>
          let formatted := (λ n, format_agent_nickname n (nickname_reset_count a)) <$> names in
          match choose (List.filter (λ n, negb (bool_decide (n ∈ used_agent_nicknames a))) formatted) with
          | Some n => take_name n a
          | None =>
              let a := with_nicknames ∅ (nickname_reset_count a + 1) a in
              match choose names with
              | Some n => take_name (format_agent_nickname n (nickname_reset_count a)) a
              | None => (None, a)
              end
          end
      end
  end.

(** * The maps *)

Definition with_maps (tree : gmap str AgentMetadata) (paths : gmap ThreadId RegisteredAgent) (a : ActiveAgents) : ActiveAgents :=
  mkActive tree paths (used_agent_nicknames a) (nickname_reset_count a).

(** The locked part of [release_spawned_thread]: whether a counted agent was removed. *)
Definition remove_thread (t : ThreadId) (a : ActiveAgents) : bool * ActiveAgents :=
  match thread_paths a !! t with
  | None => (false, a)
  | Some agent =>
      let paths := delete t (thread_paths a) in
      match agent_tree a !! ra_path agent with
      | None => (false, with_maps (agent_tree a) paths a)
      | Some m => (negb (is_root_metadata m), with_maps (delete (ra_path agent) (agent_tree a)) paths a)
      end
  end.

Definition register_root_thread (t : ThreadId) (a : ActiveAgents) : ActiveAgents :=
  let m := default (mkMetadata (Some t) (Some root) None None) (agent_tree a !! ROOT) in
  let tree := <[ROOT := m]> (agent_tree a) in
  match am_agent_id m with
  | Some root_thread_id => with_maps tree (<[root_thread_id := registered_new ROOT]> (thread_paths a)) a
  | None => with_maps tree (thread_paths a) a
  end.

Definition agent_id_for_path (p : AgentPath) (a : ActiveAgents) : option ThreadId := agent_tree a !! p ≫= am_agent_id.

Definition agent_metadata_for_thread (t : ThreadId) (a : ActiveAgents) : option AgentMetadata :=
  agent ← thread_paths a !! t; agent_tree a !! ra_path agent.

Definition with_environments (t : ThreadId) (environments : option (list Environment)) (a : ActiveAgents) : ActiveAgents :=
  match thread_paths a !! t with
  | Some agent => with_maps (agent_tree a) (<[t := mkRegistered (ra_path agent) environments]> (thread_paths a)) a
  | None => a
  end.

Definition save_evicted_environments (t : ThreadId) (environments : list Environment) (a : ActiveAgents) : ActiveAgents :=
  with_environments t (Some environments) a.

Definition evicted_environments (t : ThreadId) (a : ActiveAgents) : option (list Environment) :=
  thread_paths a !! t ≫= ra_evicted_environments.

Definition clear_evicted_environments (t : ThreadId) (a : ActiveAgents) : ActiveAgents := with_environments t None a.

Definition counted (m : AgentMetadata) : bool := bool_decide (is_Some (am_agent_id m)) && negb (is_root_metadata m).

(** In the order of the map. *)
Definition live_agents (a : ActiveAgents) : list AgentMetadata := List.filter counted (map_to_list (agent_tree a)).*2.

Definition metadata_key (t : ThreadId) (m : AgentMetadata) : str := default (lit "thread:" ++ t) (am_agent_path m).

Definition register_spawned_thread (m : AgentMetadata) (a : ActiveAgents) : ActiveAgents :=
  match am_agent_id m with
  | None => a
  | Some t =>
      let key := metadata_key t m in
      let used := match am_agent_nickname m with Some n => {[n]} ∪ used_agent_nicknames a | None => used_agent_nicknames a end in
      let paths := <[t := registered_new key]> (thread_paths a) in
      let tree :=
        match thread_paths a !! t with
        | Some previous => if ra_path previous =s key then agent_tree a else delete (ra_path previous) (agent_tree a)
        | None => agent_tree a
        end in
      let paths :=
        match tree !! key ≫= am_agent_id with
        | Some previous_thread_id => if previous_thread_id =s t then paths else delete previous_thread_id paths
        | None => paths
        end in
      mkActive (<[key := m]> tree) paths used (nickname_reset_count a)
  end.

Definition reserve_path (p : AgentPath) (a : ActiveAgents) : result SpawnError ActiveAgents :=
  match agent_tree a !! p with
  | Some _ => Err (DuplicatePath p)
  | None => Ok (with_maps (<[p := mkMetadata None (Some p) None None]> (agent_tree a)) (thread_paths a) a)
  end.

Definition release_reserved_agent_path (p : AgentPath) (a : ActiveAgents) : ActiveAgents :=
  match agent_tree a !! p with
  | Some m => if bool_decide (is_Some (am_agent_id m)) then a else with_maps (delete p (agent_tree a)) (thread_paths a) a
  | None => a
  end.

(** * Reservations *)

(** [AtomicUsize::fetch_add] and [fetch_sub] wrap. *)
Definition wrap (n : N) : N := (n mod 18446744073709551616)%N.
Definition fetch_add (n : N) : N := wrap (n + 1).
Definition fetch_sub (n : N) : N := wrap (n + u64_max).

Record SpawnReservation := mkReservation { reserved_agent_nickname : option str; reserved_agent_path : option AgentPath }.

Definition new_reservation : SpawnReservation := mkReservation None None.

(** One round of the loop of [try_increment_spawned]: [inl] is its result, [inr] the next value of
    [current]. The weak exchange may fail although the count is the expected one. *)
Definition try_increment_round (max_threads current : N) (spurious : bool) (count : N) : N * (bool + N) :=
  if (max_threads <=? current)%N then (count, inl false)
  else if (count =? current)%N && negb spurious then ((current + 1)%N, inl true)
  else (count, inr count).

Definition reserve_nickname_with_preference (choose : list str → option str) (names : list str) (preferred : option str)
    (r : SpawnReservation) (a : ActiveAgents) : ActiveAgents * result SpawnError SpawnReservation :=
  match reserve_agent_nickname choose names preferred a with
  | (Some n, a) => (a, Ok (mkReservation (Some n) (reserved_agent_path r)))
  | (None, a) => (a, Err NicknameUnavailable)
  end.

Definition reservation_path (p : AgentPath) (r : SpawnReservation) (a : ActiveAgents) : ActiveAgents * result SpawnError SpawnReservation :=
  match reserve_path p a with
  | Ok a => (a, Ok (mkReservation (reserved_agent_nickname r) (Some p)))
  | Err e => (a, Err e)
  end.

(** The metadata a reservation is committed with: [prepare_agent_metadata], then the thread's id. *)
Definition spawn_metadata (r : SpawnReservation) (role : option str) (t : ThreadId) : AgentMetadata :=
  mkMetadata (Some t) (reserved_agent_path r) (reserved_agent_nickname r) role.

(** The first step of dropping an active reservation. *)
Definition drop_path (r : SpawnReservation) (a : ActiveAgents) : ActiveAgents :=
  match reserved_agent_path r with Some p => release_reserved_agent_path p a | None => a end.

(** * Interleaved tasks *)

(** A task in the loop of [try_increment_spawned], one that holds a reservation, one that dropped
    it and one that released an agent, both about to decrement the count. *)
Inductive Task := Trying (max_threads current : N) | Holding (r : SpawnReservation) | Dropping | Releasing.

(** The last component counts the registrations whose release will not be counted. *)
Record System := mkSystem { sy_agents : ActiveAgents; sy_count : N; sy_tasks : list Task; sy_uncounted : N }.

Definition initial : System := mkSystem (active_agents empty_registry) (total_count empty_registry) [] 0.

(** A commit takes over the entry of its thread, if the thread is registered; the root's entry
    is not counted when it is released. *)
Definition takes_over (m : AgentMetadata) (a : ActiveAgents) : N :=
  ((match am_agent_id m ≫= (λ t, agent_metadata_for_thread t a) with Some m' => if counted m' then 1 else 0 | None => 0 end)
   + (if is_root_metadata m then 1 else 0))%N.

(** The arguments [max_threads] that callers pass. *)
Context (allowed : option N → Prop).

(** The steps of the tasks. As its callers do, a reservation takes one path at most, is committed
    with what it reserved, and a root thread is not a registered agent of the tree. *)
Inductive step : System → System → Prop :=
| step_reserve_limited a n l k max_threads :
    allowed (Some max_threads) →
    step (mkSystem a n l k) (mkSystem a n (Trying max_threads n :: l) k)
| step_reserve_unlimited a n l k :
    allowed None →
    step (mkSystem a n l k) (mkSystem a (fetch_add n) (Holding new_reservation :: l) k)
| step_try a n l1 l2 k max_threads current spurious n' r :
    try_increment_round max_threads current spurious n = (n', r) →
    step (mkSystem a n (l1 ++ Trying max_threads current :: l2) k)
      (mkSystem a n' (l1 ++ match r with inl true => [Holding new_reservation] | inl false => [] | inr c => [Trying max_threads c] end ++ l2) k)
| step_nickname a n l1 l2 k r choose names preferred a' r' :
    reserve_nickname_with_preference choose names preferred r a = (a', r') →
    step (mkSystem a n (l1 ++ Holding r :: l2) k)
      (mkSystem a' n (l1 ++ Holding (match r' with Ok r => r | Err _ => r end) :: l2) k)
| step_path a n l1 l2 k r p a' r' :
    is_ok (from_string p) = true → reserved_agent_path r = None →
    reservation_path p r a = (a', r') →
    step (mkSystem a n (l1 ++ Holding r :: l2) k)
      (mkSystem a' n (l1 ++ Holding (match r' with Ok r => r | Err _ => r end) :: l2) k)
| step_commit a n l1 l2 k r role t :
    step (mkSystem a n (l1 ++ Holding r :: l2) k)
      (mkSystem (register_spawned_thread (spawn_metadata r role t) a) n (l1 ++ l2) (k + takes_over (spawn_metadata r role t) a))
| step_drop a n l1 l2 k r :
    step (mkSystem a n (l1 ++ Holding r :: l2) k) (mkSystem (drop_path r a) n (l1 ++ Dropping :: l2) k)
| step_dropped a n l1 l2 k :
    step (mkSystem a n (l1 ++ Dropping :: l2) k) (mkSystem a (fetch_sub n) (l1 ++ l2) k)
| step_release a n l k t removed a' :
    remove_thread t a = (removed, a') →
    step (mkSystem a n l k) (mkSystem a' n (if removed then Releasing :: l else l) k)
| step_released a n l1 l2 k :
    step (mkSystem a n (l1 ++ Releasing :: l2) k) (mkSystem a (fetch_sub n) (l1 ++ l2) k)
| step_register_root a n l k t :
    (∀ agent, thread_paths a !! t = Some agent → ra_path agent = ROOT) →
    step (mkSystem a n l k) (mkSystem (register_root_thread t a) n l k)
| step_environments a n l k t environments :
    step (mkSystem a n l k) (mkSystem (with_environments t environments a) n l k).
End registry.
Arguments ActiveAgents : clear implicits.
Arguments AgentRegistry : clear implicits.
Arguments RegisteredAgent : clear implicits.
Arguments System : clear implicits.
