(* ===== verification/AgentAccounts.v ===== *)
(** What the interleaved tasks of [AgentRegistry] keep: threads and paths name each other, reserved
    paths belong to one reservation each, the count is the agents and the open reservations,
    and limits on it hold. *)
From S2P Require Import Prelude Str AgentPath AgentRegistry.

Section accounts.
Context {Environment : Type}.
Implicit Types a : ActiveAgents Environment.

(** * The maps *)

Definition valid_path (p : AgentPath) : Prop := is_ok (from_string p) = true.

(** Threads and entries name each other; entries are under their keys. [reserved] are the paths of
    the open reservations. *)
Record maps_ok (a : ActiveAgents Environment) (reserved : list AgentPath) : Prop := {
  mo_thread : ∀ t agent, thread_paths a !! t = Some agent → ∃ m, agent_tree a !! ra_path agent = Some m ∧ am_agent_id m = Some t;
  mo_entry : ∀ k m t, agent_tree a !! k = Some m → am_agent_id m = Some t →
    k = metadata_key t m ∧ ∃ agent, thread_paths a !! t = Some agent ∧ ra_path agent = k;
  mo_valid : ∀ k m p, agent_tree a !! k = Some m → am_agent_path m = Some p → valid_path p;
  mo_reserved : ∀ k m, agent_tree a !! k = Some m → am_agent_id m = None → k ∈ reserved;
  mo_held : ∀ p, p ∈ reserved → ∃ m, agent_tree a !! p = Some m ∧ am_agent_id m = None;
  mo_nodup : NoDup reserved ∧ Forall valid_path reserved
}.

Lemma valid_path_slash p : valid_path p → ∃ s, p = SLASH :: s.
Proof.
  unfold valid_path, from_string, validate_absolute_path. case_bool_decide as Hm; [intros _; subst; by eexists|].
  destruct (strip_prefix [SLASH] p) as [s|] eqn:E; [|done]. apply strip_prefix_Some in E as ->. intros _. by exists s.
Qed.

Lemma thread_key_not_path t p : valid_path p → lit "thread:" ++ t ≠ p.
Proof. intros [s ->]%valid_path_slash. done. Qed.

Lemma maps_ok_empty : maps_ok (active_agents empty_registry) [].
Proof. split; cbn; try (intros *; rewrite lookup_empty; done); [set_solver|by split; constructor]. Qed.

(** Changes that leave both maps alone. *)
Lemma maps_ok_nicknames used resets a reserved : maps_ok a reserved → maps_ok (with_nicknames used resets a) reserved.
Proof. intros []. by split. Qed.

Lemma nickname_maps choose names preferred a n a' :
  reserve_agent_nickname choose names preferred a = (n, a') → agent_tree a' = agent_tree a ∧ thread_paths a' = thread_paths a.
Proof.
  unfold reserve_agent_nickname. destruct preferred; [by intros [= <- <-]|]. destruct names as [|x l]; [by intros [= <- <-]|].
  destruct (choose _); [by intros [= <- <-]|]. destruct (choose _); by intros [= <- <-].
Qed.

Lemma maps_ok_environments t environments a reserved : maps_ok a reserved → maps_ok (with_environments t environments a) reserved.
Proof.
  intros Hok. unfold with_environments. destruct (thread_paths a !! t) as [agent|] eqn:Et; [|done].
  destruct Hok as [Ht He Hv Hr Hh Hn]. split; cbn [with_maps agent_tree thread_paths]; try done.
  - intros t' agent' [[<- <-]|[? ?]]%lookup_insert_Some; cbn; eauto.
  - intros k m t' Hk Hm. destruct (He k m t' Hk Hm) as (Hkey & agent' & Ht' & Hp). split; [done|].
    destruct (decide (t = t')) as [<-|Hne]; [|exists agent'; by rewrite lookup_insert_ne].
    exists (mkRegistered (ra_path agent) environments). rewrite lookup_insert_eq. split; [done|]. cbn. congruence.
Qed.

Lemma maps_ok_perm a l1 l2 : l1 ≡ₚ l2 → maps_ok a l1 → maps_ok a l2.
Proof.
  intros Hp [Ht He Hv Hr Hh Hn]. split; try done.
  - intros k m Hk Hm. rewrite <- Hp. eauto.
  - intros p. rewrite <- Hp. eauto.
  - by rewrite <- Hp.
Qed.

Lemma maps_ok_reserve p a a' reserved : valid_path p → reserve_path p a = Ok a' → maps_ok a reserved → maps_ok a' (p :: reserved).
Proof.
  unfold reserve_path. intros Hp Ha [Ht He Hv Hr Hh Hn]. destruct (agent_tree a !! p) as [m|] eqn:Etree; [done|]. injection Ha as <-.
  split; cbn [with_maps agent_tree thread_paths].
  - intros t agent Hagent. destruct (Ht t agent Hagent) as (m & Hm & Hid). exists m. split; [|done].
    rewrite lookup_insert_ne; [done|]. intros Heq; congruence.
  - intros k m t [[<- <-]|[_ Hk]]%lookup_insert_Some Hid; [done|eauto].
  - intros k m q [[<- <-]|[_ Hk]]%lookup_insert_Some Hq; [by injection Hq as <-|eauto].
  - intros k m [[<- <-]|[_ Hk]]%lookup_insert_Some Hid; set_solver.
  - intros q [->|Hq]%elem_of_cons; [by eexists; rewrite lookup_insert_eq|]. destruct (Hh q Hq) as (m & Hm & Hid). exists m.
    rewrite lookup_insert_ne; [done|]. intros Heq; congruence.
  - destruct Hn as [Hn Hval]. split; constructor; try done. intros Hin. destruct (Hh p Hin) as (m & Hm & _). congruence.
Qed.

Lemma maps_ok_unreserve p a reserved : maps_ok a (p :: reserved) → maps_ok (release_reserved_agent_path p a) reserved.
Proof.
  intros [Ht He Hv Hr Hh Hn]. destruct (Hh p) as (m & Hm & Hid); [set_solver|]. unfold release_reserved_agent_path. rewrite Hm, Hid.
  rewrite bool_decide_eq_false_2 by apply is_Some_None. destruct Hn as [[Hp Hn]%NoDup_cons [_ Hval]%Forall_cons]. split; cbn [with_maps agent_tree thread_paths]; [..|done].
  - intros t agent Hagent. destruct (Ht t agent Hagent) as (m' & Hm' & Hid'). exists m'. split; [|done].
    rewrite lookup_delete_ne; [done|]. intros Heq; congruence.
  - intros k m' t [_ Hk]%lookup_delete_Some Hid'. eauto.
  - intros k m' q [_ Hk]%lookup_delete_Some Hq. eauto.
  - intros k m' [Hne Hk]%lookup_delete_Some Hid'. specialize (Hr k m' Hk Hid'). set_solver.
  - intros q Hq. destruct (Hh q) as (m' & Hm' & Hid'); [set_solver|]. exists m'. rewrite lookup_delete_ne; [done|]. by intros <-.
Qed.

Lemma maps_ok_remove t a removed a' reserved : remove_thread t a = (removed, a') → maps_ok a reserved → maps_ok a' reserved.
Proof.
  unfold remove_thread. intros Hrem Hok. destruct (thread_paths a !! t) as [agent|] eqn:Et; [|by injection Hrem as <- <-].
  pose proof Hok as [Ht He Hv Hr Hh Hn]. destruct (Ht t agent Et) as (m & Hm & Hid). rewrite Hm in Hrem. injection Hrem as <- <-.
  split; cbn [with_maps agent_tree thread_paths]; [..|done].
  - intros t' agent' [Hne Hagent]%lookup_delete_Some. destruct (Ht t' agent' Hagent) as (m' & Hm' & Hid'). exists m'. split; [|done].
    rewrite lookup_delete_ne; [done|]. intros Heq. congruence.
  - intros k m' t' [Hne Hk]%lookup_delete_Some Hid'. destruct (He k m' t' Hk Hid') as (Hkey & agent' & Ha' & Hp'). split; [done|].
    exists agent'. rewrite lookup_delete_ne; [done|]. intros Heq; congruence.
  - intros k m' q [_ Hk]%lookup_delete_Some Hq. eauto.
  - intros k m' [_ Hk]%lookup_delete_Some Hid'. eauto.
  - intros q Hq. destruct (Hh q Hq) as (m' & Hm' & Hid'). exists m'. rewrite lookup_delete_ne; [done|]. intros Heq; congruence.
Qed.

Lemma root_valid : valid_path root.
Proof. done. Qed.

Lemma maps_ok_register_root t a reserved :
  (∀ agent, thread_paths a !! t = Some agent → ra_path agent = ROOT) → maps_ok a reserved → maps_ok (register_root_thread t a) reserved.
Proof.
  intros Hroot Hok. pose proof Hok as [Ht He Hv Hr Hh Hn]. unfold register_root_thread.
  destruct (agent_tree a !! ROOT) as [m|] eqn:Etree; cbn [default id].
  - cbn [id]. rewrite insert_id by done. destruct (am_agent_id m) as [r|] eqn:Eid; [|by split].
    destruct (He ROOT m r Etree Eid) as (Hkey & agent & Hagent & Hp).
    split; cbn [with_maps agent_tree thread_paths]; try done.
    + intros t' agent' [[<- <-]|[_ Hagent']]%lookup_insert_Some; [by exists m|eauto].
    + intros k m' t' Hk Hid. destruct (He k m' t' Hk Hid) as (Hkey' & agent' & Ha' & Hp'). split; [done|].
      destruct (decide (r = t')) as [<-|Hne]; [|exists agent'; by rewrite lookup_insert_ne].
      exists (registered_new ROOT). rewrite lookup_insert_eq. split; [done|]. change (ROOT = k). congruence.
  - cbn [am_agent_id]. assert (Hfresh : thread_paths a !! t = None).
    { destruct (thread_paths a !! t) as [agent|] eqn:Et; [|done]. destruct (Ht t agent Et) as (m & Hm & _). rewrite (Hroot agent eq_refl) in Hm. congruence. }
    split; cbn [with_maps agent_tree thread_paths]; [..|done].
    + intros t' agent' [[<- <-]|[Hne Hagent']]%lookup_insert_Some; [by eexists; cbn; rewrite lookup_insert_eq|].
      destruct (Ht t' agent' Hagent') as (m & Hm & Hid). exists m. split; [|done]. rewrite lookup_insert_ne; [done|]. intros Heq. congruence.
    + intros k m t' [[<- <-]|[Hne Hk]]%lookup_insert_Some Hid.
      * cbn in Hid. injection Hid as <-. split; [done|]. exists (registered_new ROOT). by rewrite lookup_insert_eq.
      * destruct (He k m t' Hk Hid) as (Hkey & agent & Ha & Hp). split; [done|]. exists agent. rewrite lookup_insert_ne; [done|]. intros Heq; congruence.
    + intros k m q [[<- <-]|[Hne Hk]]%lookup_insert_Some Hq; [injection Hq as <-; apply root_valid|eauto].
    + intros k m [[<- <-]|[Hne Hk]]%lookup_insert_Some Hid; [done|eauto].
    + intros q Hq. destruct (Hh q Hq) as (m & Hm & Hid). exists m. rewrite lookup_insert_ne; [done|]. intros Heq; congruence.
Qed.

(** ** Registration *)

(** The entry under the key is a reservation or the thread's own. *)
Definition key_free (t : ThreadId) (key : str) (a : ActiveAgents Environment) : Prop :=
  ∀ m, agent_tree a !! key = Some m → am_agent_id m = None ∨ am_agent_id m = Some t.

Lemma register_paths m t a reserved :
  maps_ok a reserved → am_agent_id m = Some t → key_free t (metadata_key t m) a →
  thread_paths (register_spawned_thread m a) = <[t := registered_new (metadata_key t m)]> (thread_paths a).
Proof.
  intros Hok Hid Hfree. unfold register_spawned_thread. rewrite Hid. cbn [thread_paths]. set (key := metadata_key t m) in *.
  match goal with |- context [?tree !! key ≫= am_agent_id] => destruct (tree !! key) as [m'|] eqn:E end; cbn [mbind option_bind]; [|done].
  assert (Hm' : agent_tree a !! key = Some m').
  { destruct (thread_paths a !! t); [|done]. case_bool_decide; [done|]. by apply lookup_delete_Some in E as [_ ?]. }
  destruct (Hfree m' Hm') as [->| ->]; [done|]. by rewrite bool_decide_eq_true_2.
Qed.

Lemma register_tree m t a reserved k m' :
  maps_ok a reserved → am_agent_id m = Some t →
  agent_tree (register_spawned_thread m a) !! k = Some m' ↔
    (k = metadata_key t m ∧ m' = m) ∨ (k ≠ metadata_key t m ∧ agent_tree a !! k = Some m' ∧ am_agent_id m' ≠ Some t).
Proof.
  intros [Ht He _ _ _ _] Hid. unfold register_spawned_thread. rewrite Hid. cbn [agent_tree]. set (key := metadata_key t m).
  rewrite lookup_insert_Some. split.
  - intros [[-> ->]|[Hne Hk]]; [by left|]. right. split; [done|]. destruct (thread_paths a !! t) as [agent|] eqn:Et.
    + case_bool_decide as Hp.
      * split; [done|]. intros Hm'. destruct (He k m' t Hk Hm') as (_ & agent' & Ha' & Hp'). congruence.
      * apply lookup_delete_Some in Hk as [Hne' Hk]. split; [done|]. intros Hm'. destruct (He k m' t Hk Hm') as (_ & agent' & Ha' & Hp'). congruence.
    + split; [done|]. intros Hm'. destruct (He k m' t Hk Hm') as (_ & agent' & Ha' & _). congruence.
  - intros [[-> ->]|(Hne & Hk & Hm')]; [by left|]. right. split; [done|]. destruct (thread_paths a !! t) as [agent|] eqn:Et; [|done].
    case_bool_decide as Hp; [done|]. apply lookup_delete_Some. split; [|done]. intros <-.
    destruct (Ht t agent Et) as (m'' & Hm'' & Hid''). congruence.
Qed.

Lemma register_key_free m t a reserved :
  maps_ok a (option_list (am_agent_path m) ++ reserved) → key_free t (metadata_key t m) a.
Proof.
  intros [Ht He Hv Hr Hh Hn] m' Hm'. unfold metadata_key in Hm'. destruct (am_agent_path m) as [p|]; cbn [default] in Hm'.
  - left. destruct (Hh p) as (m'' & Hm'' & Hid); [set_solver|]. cbn in Hm'. congruence.
  - destruct (am_agent_id m') as [t'|] eqn:Hid; [right|by left]. destruct (He _ m' t' Hm' Hid) as (Hkey & _). unfold metadata_key in Hkey.
    destruct (am_agent_path m') as [q|] eqn:Eq; cbn [default] in Hkey; [by apply thread_key_not_path in Hkey; [|eauto]|].
    by apply app_inv_head in Hkey as ->.
Qed.

Lemma maps_ok_register m t a reserved :
  maps_ok a (option_list (am_agent_path m) ++ reserved) → (∀ p, am_agent_path m = Some p → valid_path p) → am_agent_id m = Some t →
  maps_ok (register_spawned_thread m a) reserved.
Proof.
  intros Hok Hval Hid. pose proof (register_key_free m t a reserved Hok) as Hfree.
  pose proof (register_paths m t a _ Hok Hid Hfree) as Hpaths. pose proof (λ k m', register_tree m t a _ k m' Hok Hid) as Htree.
  destruct Hok as [Ht He Hv Hr Hh Hn]. set (key := metadata_key t m) in *. split; [rewrite Hpaths..| | | |].
  - intros t' agent [[<- <-]|[Hne Ha]]%lookup_insert_Some; [exists m; split; [apply Htree; by left|done]|].
    destruct (Ht t' agent Ha) as (m' & Hm' & Hid'). exists m'. rewrite Htree. split; [|done]. right. split; [|split; [done|congruence]].
    intros Heq. rewrite Heq in Hm'. destruct (Hfree m' Hm'); congruence.
  - intros k m' t' [[-> ->]|(Hne & Hk & Hne')]%Htree Hid'.
    + rewrite Hid in Hid'. injection Hid' as <-. split; [done|]. exists (registered_new key). by rewrite lookup_insert_eq.
    + destruct (He k m' t' Hk Hid') as (Hkey & agent & Ha & Hp). split; [done|]. exists agent. rewrite lookup_insert_ne; [done|]. congruence.
  - intros k m' p [[-> ->]|(Hne & Hk & Hne')]%Htree Hp; eauto.
  - intros k m' [[-> ->]|(Hne & Hk & Hne')]%Htree Hid'; [congruence|]. specialize (Hr k m' Hk Hid').
    apply elem_of_app in Hr as [Hr|Hr]; [|done]. exfalso. apply Hne. unfold key, metadata_key.
    destruct (am_agent_path m); cbn in Hr |- *; set_solver.
  - intros p Hp. destruct (Hh p) as (m' & Hm' & Hid'); [set_solver|]. exists m'. rewrite Htree. split; [|done]. right. split_and!; [|done|congruence].
    intros ->. unfold key, metadata_key in *. destruct (am_agent_path m) as [q|] eqn:Eq; cbn in *.
    + by destruct Hn as [[Hn _]%NoDup_cons _].
    + destruct Hn as [_ Hn]. eapply Forall_forall in Hn; [|done]. by apply (thread_key_not_path t) in Hn.
  - destruct Hn as [(_ & _ & Hn)%NoDup_app [_ Hn']%Forall_app]. done.
Qed.

(** * The count *)

Definition one (b : bool) : nat := if b then 1 else 0.

Definition entry_count (o : option AgentMetadata) : nat := match o with Some m => one (counted m) | None => 0 end.

Definition live_entries (tree : gmap str AgentMetadata) : nat := length (List.filter counted (map_to_list tree).*2).

#[local] Instance filter_permutation {A} (f : A → bool) : Proper (Permutation ==> Permutation) (List.filter f).
Proof.
  induction 1 as [|x l l' _ IH|x y l|l l' l'' _ IH1 _ IH2]; cbn; [done|by destruct (f x); [constructor|]| |by etrans].
  by destruct (f x), (f y); [constructor|..].
Qed.

Lemma live_fresh (k : str) (m : AgentMetadata) (tree : gmap str AgentMetadata) : tree !! k = None → live_entries (<[k := m]> tree) = one (counted m) + live_entries tree.
Proof.
  intros Hk. unfold live_entries. rewrite (map_to_list_insert tree k m Hk). cbn [fmap list_fmap List.filter snd]. by destruct (counted m).
Qed.

Lemma live_delete (k : str) (tree : gmap str AgentMetadata) : live_entries tree = entry_count (tree !! k) + live_entries (delete k tree).
Proof.
  destruct (tree !! k) as [m|] eqn:Hk; cbn [entry_count].
  - rewrite <- (insert_id tree k m Hk) at 1. rewrite <- insert_delete_eq. apply live_fresh, lookup_delete_eq.
  - by rewrite delete_id.
Qed.

Lemma live_insert (k : str) (m : AgentMetadata) (tree : gmap str AgentMetadata) : live_entries (<[k := m]> tree) + entry_count (tree !! k) = live_entries tree + one (counted m).
Proof.
  rewrite (live_delete k tree), <- insert_delete_eq, live_fresh by apply lookup_delete_eq. lia.
Qed.

Lemma counted_no_id m : am_agent_id m = None → counted m = false.
Proof. unfold counted. intros ->. done. Qed.

Lemma live_register m t a reserved :
  maps_ok a reserved → am_agent_id m = Some t → key_free t (metadata_key t m) a →
  live_entries (agent_tree (register_spawned_thread m a)) + entry_count (agent_metadata_for_thread t a)
  = live_entries (agent_tree a) + one (counted m).
Proof.
  intros [Ht He _ _ _ _] Hid Hfree. unfold register_spawned_thread, agent_metadata_for_thread. rewrite Hid. cbn [agent_tree].
  set (key := metadata_key t m) in *. destruct (thread_paths a !! t) as [agent|] eqn:Et; cbn [mbind option_bind entry_count].
  - destruct (Ht t agent Et) as (m' & Hm' & Hid'). rewrite Hm'. case_bool_decide as Hp.
    + pose proof (live_insert key m (agent_tree a)) as Hl. rewrite <- Hp in *. by rewrite Hm' in Hl.
    + pose proof (live_insert key m (delete (ra_path agent) (agent_tree a))) as Hl. rewrite lookup_delete_ne in Hl by done.
      pose proof (live_delete (ra_path agent) (agent_tree a)) as Hd. rewrite Hm' in Hd.
      destruct (agent_tree a !! key) as [m''|] eqn:Ek; cbn [entry_count] in *; [|lia].
      destruct (Hfree m'' Ek) as [Hid''|Hid'']; [rewrite (counted_no_id m'' Hid'') in Hl; cbn [one] in Hl; lia|].
      destruct (He key m'' t Ek Hid'') as (_ & agent' & Ha' & Hp'). congruence.
  - pose proof (live_insert key m (agent_tree a)) as Hl. destruct (agent_tree a !! key) as [m''|] eqn:Ek; cbn [entry_count] in *; [|lia].
    destruct (Hfree m'' Ek) as [Hid''|Hid'']; [rewrite (counted_no_id m'' Hid'') in Hl; cbn [one] in Hl; lia|].
    destruct (He key m'' t Ek Hid'') as (_ & agent' & Ha' & _). congruence.
Qed.

Lemma takes_over_count m t a :
  am_agent_id m = Some t → N.to_nat (takes_over m a) = entry_count (agent_metadata_for_thread t a) + one (is_root_metadata m).
Proof.
  intros Hid. unfold takes_over. rewrite Hid. cbn [mbind option_bind]. destruct (agent_metadata_for_thread t a) as [m'|]; cbn [entry_count];
    [destruct (counted m')|]; by destruct (is_root_metadata m).
Qed.

Lemma counted_root m t : am_agent_id m = Some t → one (counted m) + one (is_root_metadata m) = 1.
Proof. unfold counted. intros ->. by destruct (is_root_metadata m). Qed.

(** Registration moves one from the open reservations to the agents, or to those not counted. *)
Lemma register_accounts m t a reserved :
  maps_ok a (option_list (am_agent_path m) ++ reserved) → am_agent_id m = Some t →
  live_entries (agent_tree (register_spawned_thread m a)) + N.to_nat (takes_over m a) = live_entries (agent_tree a) + 1.
Proof.
  intros Hok Hid. pose proof (live_register m t a _ Hok Hid (register_key_free m t a reserved Hok)).
  rewrite (takes_over_count m t a Hid). pose proof (counted_root m t Hid). lia.
Qed.

Lemma remove_accounts t a removed a' reserved :
  maps_ok a reserved → remove_thread t a = (removed, a') → live_entries (agent_tree a) = live_entries (agent_tree a') + one removed.
Proof.
  intros [Ht _ _ _ _ _]. unfold remove_thread. destruct (thread_paths a !! t) as [agent|] eqn:Et; [|intros [= <- <-]; cbn; lia].
  destruct (Ht t agent Et) as (m & Hm & Hid). rewrite Hm. intros [= <- <-]. cbn [with_maps agent_tree].
  rewrite (live_delete (ra_path agent)), Hm. cbn [entry_count]. unfold counted. rewrite Hid, bool_decide_eq_true_2 by done. cbn [andb]. lia.
Qed.

Lemma root_accounts t a : live_entries (agent_tree (register_root_thread t a)) = live_entries (agent_tree a).
Proof.
  unfold register_root_thread. destruct (agent_tree a !! ROOT) as [m|] eqn:E; cbn [default id].
  - rewrite insert_id by done. by destruct (am_agent_id m).
  - cbn [am_agent_id with_maps agent_tree]. by rewrite live_fresh.
Qed.

(** * The tasks *)

Definition task_path (t : Task) : option AgentPath := match t with Holding r => reserved_agent_path r | _ => None end.
Definition reserved_paths (l : list Task) : list AgentPath := omap task_path l.

(** Tasks that the count includes. *)
Definition is_open (t : Task) : bool := match t with Trying _ _ => false | _ => true end.
Definition open_tasks (l : list Task) : nat := length (List.filter is_open l).

Definition accounted (s : System Environment) : N :=
  (N.of_nat (length (live_agents (sy_agents s))) + N.of_nat (open_tasks (sy_tasks s)) + sy_uncounted s)%N.

Lemma open_tasks_app l1 l2 : open_tasks (l1 ++ l2) = open_tasks l1 + open_tasks l2.
Proof. unfold open_tasks. by rewrite List.filter_app, length_app. Qed.

Lemma open_tasks_cons t l : open_tasks (t :: l) = one (is_open t) + open_tasks l.
Proof. unfold open_tasks. cbn. by destruct (is_open t). Qed.

Lemma reserved_paths_mid l1 t l2 : reserved_paths (l1 ++ t :: l2) ≡ₚ option_list (task_path t) ++ reserved_paths (l1 ++ l2).
Proof.
  unfold reserved_paths. rewrite !omap_app. cbn [omap list_omap]. destruct (task_path t); cbn; [|done]. by rewrite Permutation_middle.
Qed.

Lemma wrap_add n : fetch_add (wrap n) = wrap (n + 1).
Proof. unfold fetch_add, wrap. by rewrite N.Div0.add_mod_idemp_l. Qed.

Lemma wrap_sub n : fetch_sub (wrap (n + 1)) = wrap n.
Proof.
  unfold fetch_sub, wrap. rewrite N.Div0.add_mod_idemp_l, <- N.add_assoc. change (1 + u64_max)%N with 18446744073709551616%N.
  rewrite <- N.Div0.add_mod_idemp_r, N.Div0.mod_same. by rewrite N.add_0_r.
Qed.

Lemma wrap_small n : (n ≤ usize_max)%N → wrap n = n.
Proof. intros H. unfold wrap. apply N.mod_small. unfold usize_max, u64_max in H. lia. Qed.

Lemma wrap_lt n : (wrap n < 18446744073709551616)%N.
Proof. unfold wrap. by apply N.mod_lt. Qed.

Lemma wrap_increment n m : (wrap n < m)%N → (m ≤ usize_max)%N → (wrap n + 1)%N = wrap (n + 1).
Proof.
  intros H1 H2. unfold wrap in *. rewrite <- N.Div0.add_mod_idemp_l. symmetry. apply N.mod_small. unfold usize_max, u64_max in H2. lia.
Qed.

Context (allowed : option N → Prop) (allowed_usize : ∀ m, allowed (Some m) → (m ≤ usize_max)%N).

(** What is kept about the number accounted for: it may fall, and rise where a reservation is
    granted. *)
Context (bound : N → Prop) (bound_0 : bound 0%N) (bound_down : ∀ n n', (n' ≤ n)%N → bound n → bound n').
Context (bound_limited : ∀ n m, allowed (Some m) → bound n → (wrap n < m)%N → bound (n + 1)%N).
Context (bound_unlimited : ∀ n, allowed None → bound n → bound (n + 1)%N).

Definition counts (count n : N) : Prop := count = wrap n ∧ bound n.

Lemma counts_same count n n' : n = n' → counts count n → counts count n'.
Proof. by intros ->. Qed.

Definition try_allowed (t : Task) : Prop := match t with Trying m _ => allowed (Some m) | _ => True end.

Record consistent (s : System Environment) : Prop := {
  co_maps : maps_ok (sy_agents s) (reserved_paths (sy_tasks s));
  co_count : counts (sy_count s) (accounted s);
  co_tries : Forall try_allowed (sy_tasks s)
}.

Lemma live_agents_entries a : length (live_agents a) = live_entries (agent_tree a).
Proof. done. Qed.

(** Tasks in the place of another. *)
Lemma tries_mid l1 t l2 new : Forall try_allowed (l1 ++ t :: l2) → Forall try_allowed new → Forall try_allowed (l1 ++ new ++ l2).
Proof. rewrite !Forall_app, Forall_cons. naive_solver. Qed.

Ltac accounts := unfold accounted in *; cbn [app sy_agents sy_tasks sy_uncounted sy_count] in *;
  rewrite ?open_tasks_app, ?open_tasks_cons, ?live_agents_entries in *; cbn [is_open one] in *.

Lemma try_consistent a n l1 l2 k max_threads current spurious n' r :
  consistent (mkSystem a n (l1 ++ Trying max_threads current :: l2) k) → try_increment_round max_threads current spurious n = (n', r) →
  consistent (mkSystem a n' (l1 ++ match r with inl true => [Holding new_reservation] | inl false => [] | inr c => [Trying max_threads c] end ++ l2) k).
Proof.
  intros [Hm Hc Ht] Hr. cbn [sy_agents sy_tasks sy_count] in *.
  assert (Hallowed : allowed (Some max_threads)) by (by apply Forall_app in Ht as [_ [? _]%Forall_cons]).
  assert (Hperm : ∀ new, reserved_paths new = [] → maps_ok a (reserved_paths (l1 ++ new ++ l2))).
  { intros new Hnew. eapply maps_ok_perm, Hm. rewrite reserved_paths_mid. cbn [task_path option_list app].
    unfold reserved_paths in *. by rewrite !omap_app, Hnew. }
  unfold try_increment_round in Hr. destruct (N.leb_spec max_threads current) as [|Hlt]; [injection Hr as <- <-|].
  - split; [by apply Hperm| |by eapply tries_mid]. accounts. eapply counts_same, Hc. lia.
  - destruct (N.eqb_spec n current) as [->|Hne]; [destruct spurious|]; cbn [andb negb] in Hr; injection Hr as <- <-;
      (split; [by apply Hperm| |eapply tries_mid; [done|by repeat constructor]]); accounts;
      [eapply counts_same, Hc; lia| |eapply counts_same, Hc; lia].
    destruct Hc as [-> Hb]. split; [rewrite (wrap_increment _ max_threads); [f_equal; lia|done|by apply allowed_usize]|].
    eapply bound_down, (bound_limited _ max_threads); [|done..]. lia.
Qed.

(** A task that holds a reservation: its path and those of the others. *)
Lemma holding_maps a n l1 l2 k r :
  consistent (mkSystem a n (l1 ++ Holding r :: l2) k) → maps_ok a (option_list (reserved_agent_path r) ++ reserved_paths (l1 ++ l2)).
Proof. intros [Hm _ _]. eapply maps_ok_perm, Hm. apply reserved_paths_mid. Qed.

(** An open task replaced by an open one, without a change of the agents' number. *)
Lemma open_task_consistent a a' n l1 l2 k t t' :
  consistent (mkSystem a n (l1 ++ t :: l2) k) → is_open t = true → is_open t' = true →
  live_entries (agent_tree a') = live_entries (agent_tree a) → maps_ok a' (option_list (task_path t') ++ reserved_paths (l1 ++ l2)) →
  consistent (mkSystem a' n (l1 ++ t' :: l2) k).
Proof.
  intros [Hm Hc Ht] Ho Ho' Hlive Hmaps. split; cbn [sy_agents sy_tasks].
  - eapply maps_ok_perm, Hmaps. symmetry. apply reserved_paths_mid.
  - accounts. rewrite Hlive, Ho', <- Ho. done.
  - apply (tries_mid l1 t l2 [t'] Ht). constructor; [|done]. by destruct t'.
Qed.

Lemma nickname_consistent a n l1 l2 k r choose names preferred a' r' :
  consistent (mkSystem a n (l1 ++ Holding r :: l2) k) → reserve_nickname_with_preference choose names preferred r a = (a', r') →
  consistent (mkSystem a' n (l1 ++ Holding (match r' with Ok r => r | Err _ => r end) :: l2) k).
Proof.
  intros Hs Hr. unfold reserve_nickname_with_preference in Hr. destruct (reserve_agent_nickname _ _ _ _) as [nick a1] eqn:En.
  destruct (nickname_maps _ _ _ _ _ _ En) as [Htree Hpaths].
  assert (a' = a1 ∧ reserved_agent_path (match r' with Ok r => r | Err _ => r end) = reserved_agent_path r) as [-> Hp]
    by (by destruct nick; injection Hr as <- <-).
  eapply open_task_consistent; [done|done|done|by rewrite Htree|]. cbn [task_path]. rewrite Hp.
  destruct (holding_maps _ _ _ _ _ _ Hs) as [M1 M2 M3 M4 M5 M6]. split; rewrite ?Htree, ?Hpaths; done.
Qed.

Lemma path_consistent a n l1 l2 k r p a' r' :
  consistent (mkSystem a n (l1 ++ Holding r :: l2) k) → valid_path p → reserved_agent_path r = None → reservation_path p r a = (a', r') →
  consistent (mkSystem a' n (l1 ++ Holding (match r' with Ok r => r | Err _ => r end) :: l2) k).
Proof.
  intros Hs Hp Hnone Hr. pose proof (holding_maps _ _ _ _ _ _ Hs) as Hm. rewrite Hnone in Hm. unfold reservation_path in Hr.
  destruct (reserve_path p a) as [a1|e] eqn:Ea; injection Hr as <- <-; [|done].
  eapply open_task_consistent; [done|done|done| |by eapply maps_ok_reserve].
  unfold reserve_path in Ea. destruct (agent_tree a !! p) as [m|] eqn:Et; [done|]. injection Ea as <-. cbn [with_maps agent_tree].
  by rewrite live_fresh.
Qed.

Lemma commit_consistent a n l1 l2 k r role t :
  let m := spawn_metadata r role t in
  consistent (mkSystem a n (l1 ++ Holding r :: l2) k) → (∀ p, reserved_agent_path r = Some p → valid_path p) →
  consistent (mkSystem (register_spawned_thread m a) n (l1 ++ l2) (k + takes_over m a)).
Proof.
  intros m Hs Hval. pose proof (holding_maps _ _ _ _ _ _ Hs) as Hm. destruct Hs as [_ Hc Ht]. split; cbn [sy_agents sy_tasks].
  - by apply (maps_ok_register m t).
  - pose proof (register_accounts m t a (reserved_paths (l1 ++ l2)) Hm eq_refl) as Ha. accounts. eapply counts_same, Hc. lia.
  - by apply (tries_mid l1 (Holding r) l2 []).
Qed.

Lemma drop_consistent a n l1 l2 k r :
  consistent (mkSystem a n (l1 ++ Holding r :: l2) k) → consistent (mkSystem (drop_path r a) n (l1 ++ Dropping :: l2) k).
Proof.
  intros Hs. pose proof (holding_maps _ _ _ _ _ _ Hs) as Hm. unfold drop_path.
  destruct (reserved_agent_path r) as [p|]; [|by eapply open_task_consistent].
  eapply open_task_consistent; [done|done|done| |by apply maps_ok_unreserve].
  destruct Hm as [_ _ _ _ Hh _]. destruct (Hh p) as (m & Hm & Hid); [set_solver|]. unfold release_reserved_agent_path. rewrite Hm, Hid.
  rewrite bool_decide_eq_false_2 by apply is_Some_None. cbn [with_maps agent_tree].
  rewrite (live_delete p (agent_tree a)), Hm. cbn [entry_count]. by rewrite counted_no_id.
Qed.

(** The decrement of a task that dropped or released. *)
Lemma decrement_consistent a n l1 l2 k t :
  consistent (mkSystem a n (l1 ++ t :: l2) k) → is_open t = true → task_path t = None → consistent (mkSystem a (fetch_sub n) (l1 ++ l2) k).
Proof.
  intros [Hm Hc Ht] Ho Hp. split; cbn [sy_agents sy_tasks].
  - eapply maps_ok_perm, Hm. cbn [sy_tasks]. by rewrite reserved_paths_mid, Hp.
  - accounts. rewrite Ho in Hc. cbn [one] in Hc. destruct Hc as [-> Hb]. split; [|eapply bound_down, Hb; lia].
    match goal with |- fetch_sub (wrap ?x) = wrap ?y => replace x with (y + 1)%N by lia end. apply wrap_sub.
  - by apply (tries_mid l1 t l2 []).
Qed.

Lemma release_consistent a n l k t removed a' :
  consistent (mkSystem a n l k) → remove_thread t a = (removed, a') → consistent (mkSystem a' n (if removed then Releasing :: l else l) k).
Proof.
  intros [Hm Hc Ht] Hr. pose proof (remove_accounts t a removed a' _ Hm Hr) as Hl. pose proof (maps_ok_remove t a removed a' _ Hr Hm) as Hm'.
  split; cbn [sy_agents sy_tasks]; [by destruct removed| |by destruct removed; [constructor|]].
  destruct removed; accounts; (eapply counts_same, Hc; lia).
Qed.

Lemma agents_consistent a a' n l k :
  consistent (mkSystem a n l k) → live_entries (agent_tree a') = live_entries (agent_tree a) → maps_ok a' (reserved_paths l) →
  consistent (mkSystem a' n l k).
Proof. intros [Hm Hc Ht] Hl Hm'. split; [done| |done]. accounts. by rewrite Hl. Qed.

Lemma environments_tree t environments a : agent_tree (with_environments t environments a) = agent_tree a.
Proof. unfold with_environments. by destruct (thread_paths a !! t). Qed.

Lemma held_valid a n l1 l2 k r p : consistent (mkSystem a n (l1 ++ Holding r :: l2) k) → reserved_agent_path r = Some p → valid_path p.
Proof.
  intros Hs Hp. apply holding_maps in Hs as [_ _ _ _ _ [_ Hv]]. rewrite Hp in Hv. by apply Forall_cons in Hv as [? _].
Qed.

Lemma step_consistent s s' : consistent s → step allowed s s' → consistent s'.
Proof.
  intros Hs Hstep. destruct Hstep.
  - destruct Hs as [Hm Hc Ht]. split; [done| |by constructor]. accounts. eapply counts_same, Hc. lia.
  - destruct Hs as [Hm Hc Ht]. split; [done| |by constructor]. accounts. destruct Hc as [-> Hb]. rewrite wrap_add. eapply counts_same; [|split; [done|by apply bound_unlimited]]. lia.
  - by eapply try_consistent.
  - by eapply nickname_consistent.
  - by eapply path_consistent.
  - apply commit_consistent; [done|]. intros p Hp. by eapply held_valid.
  - by apply drop_consistent.
  - by eapply decrement_consistent.
  - by eapply release_consistent.
  - by eapply decrement_consistent.
  - eapply agents_consistent; [done|apply root_accounts|]. apply maps_ok_register_root; [done|]. by destruct Hs.
  - eapply agents_consistent; [done|by rewrite environments_tree|]. apply maps_ok_environments. by destruct Hs.
Qed.

Lemma initial_consistent : consistent initial.
Proof. split; [apply maps_ok_empty|done|constructor]. Qed.

Lemma reachable_consistent s : rtc (step allowed) initial s → consistent s.
Proof.
  pose proof initial_consistent as H0. revert H0. generalize (initial (Environment := Environment)). intros s0 H0 Hr.
  induction Hr as [s|s1 s2 s3 H12 _ IH]; [done|]. apply IH. by eapply step_consistent.
Qed.

End accounts.

(** C12: The registry of agents is consistent however its tasks are interleaved. A thread is registered
    under a path exactly when the path's agent is that thread; open reservations hold different
    paths, which belong to no thread and cannot be reserved again; and the count is, up to
    wrapping, the agents that are counted plus the reservations and releases in progress,
    plus the commits whose release will not be counted (those of a thread that was registered
    already, or under the root's path). *)
Theorem registry_consistent {Environment} (allowed : option N → Prop) (s : System Environment) :
  (∀ m, allowed (Some m) → (m ≤ usize_max)%N) → rtc (step allowed) initial s →
  (∀ t p, (∃ agent, thread_paths (sy_agents s) !! t = Some agent ∧ ra_path agent = p)
          ↔ ∃ m, agent_tree (sy_agents s) !! p = Some m ∧ am_agent_id m = Some t)
  ∧ (∀ t m, agent_metadata_for_thread t (sy_agents s) = Some m → am_agent_id m = Some t)
  ∧ NoDup (reserved_paths (sy_tasks s))
  ∧ (∀ p, p ∈ reserved_paths (sy_tasks s) → agent_id_for_path p (sy_agents s) = None ∧ reserve_path p (sy_agents s) = Err (DuplicatePath p))
  ∧ sy_count s = wrap (accounted s).
Proof.
  intros Hw Hr. destruct (reachable_consistent allowed Hw (λ _, True) I (λ _ _ _ _, I) (λ _ _ _ _ _, I) (λ _ _ _, I) s Hr)
    as [[Ht He Hv Hres Hh [Hn _]] [Hc _] _]. split_and!.
  - intros t p. split.
    + intros (agent & Ha & <-). eauto.
    + intros (m & Hm & Hid). by destruct (He p m t Hm Hid) as (_ & ? ).
  - unfold agent_metadata_for_thread. intros t m Hm. destruct (thread_paths (sy_agents s) !! t) as [agent|] eqn:Et; [|done].
    cbn in Hm. destruct (Ht t agent Et) as (m' & Hm' & Hid). congruence.
  - done.
  - intros p Hp. destruct (Hh p Hp) as (m & Hm & Hid). unfold agent_id_for_path, reserve_path. rewrite Hm. cbn. by rewrite Hid.
  - done.
Qed.

(** C11: The limit on agents holds. Where every reservation is made with a limit of at most [M], the
    agents that are registered and the reservations that are open are never more than [M]
    together, whatever tasks race for the last place; and when nothing is in progress and no
    commit went uncounted, the count is exactly the number of agents. *)
Theorem spawn_limit_kept {Environment} (M : N) (s : System Environment) :
  (M ≤ usize_max)%N → rtc (step (λ o, ∃ m, o = Some m ∧ (m ≤ M)%N)) initial s →
  (N.of_nat (length (live_agents (sy_agents s))) + N.of_nat (open_tasks (sy_tasks s)) ≤ M)%N
  ∧ (open_tasks (sy_tasks s) = 0 → sy_uncounted s = 0%N → sy_count s = N.of_nat (length (live_agents (sy_agents s)))).
Proof.
  intros HM Hr. set (allowed := λ o, ∃ m, o = Some m ∧ (m ≤ M)%N) in *.
  assert (Hallowed : ∀ m, allowed (Some m) → (m ≤ M)%N) by (intros m (? & [= <-] & ?); done).
  assert (Hs : consistent allowed (λ n, n ≤ M)%N s); [apply reachable_consistent; [..|done]|destruct Hs as [_ [Hc Hb] _]].
  - intros m Hm%Hallowed. lia.
  - lia.
  - lia.
  - intros n m Hm Hn Hlt. apply Hallowed in Hm. rewrite wrap_small in Hlt; lia.
  - by intros n (m & ? & _).
  - unfold accounted in *. split; [lia|]. intros Ho Hu. rewrite Hc, Ho, Hu, wrap_small; lia.
Qed.

(** Two tasks race for one place; the winner reserves a path and is committed. *)
Definition race_winner : System unit :=
  mkSystem (register_spawned_thread (mkMetadata (Some (lit "t1")) (Some (lit "/root/a")) None None)
    (with_maps {[lit "/root/a" := mkMetadata None (Some (lit "/root/a")) None None]} ∅ (active_agents empty_registry))) 1 [] 0.

Lemma race_reached (allowed : option N → Prop) : allowed (Some 1%N) → rtc (step allowed) (initial (Environment := unit)) race_winner.
Proof.
  intros H1.
  eapply rtc_l; [by apply (step_reserve_limited _ _ _ _ _ 1)|]. eapply rtc_l; [by apply (step_reserve_limited _ _ _ _ _ 1)|].
  eapply rtc_l; [apply (step_try _ _ 0 [] _ _ 1 0 false _ _ eq_refl)|].
  eapply rtc_l; [apply (step_try _ _ 1 [_] [] _ 1 0 false _ _ eq_refl)|].
  eapply rtc_l; [apply (step_try _ _ 1 [_] [] _ 1 1 false _ _ eq_refl)|].
  eapply rtc_l; [eapply (step_path _ _ _ [] [] _ _ (lit "/root/a")); reflexivity|].
  eapply rtc_l; [apply (step_commit _ _ _ [] [] _ _ None (lit "t1"))|]. apply rtc_refl.
Qed.

Lemma registry_consistent_witness : sy_count race_winner = wrap (accounted race_winner).
Proof.
  apply (registry_consistent (λ o, o = Some 1%N) race_winner); [intros m [= ->]; by vm_compute|by apply race_reached].
Defined.

Lemma spawn_limit_kept_witness : sy_count race_winner = 1%N ∧ (N.of_nat (length (live_agents (sy_agents race_winner))) ≤ 1)%N.
Proof.
  destruct (spawn_limit_kept 1 race_winner) as [Hle Hc]; [by vm_compute|by apply race_reached; exists 1%N|].
  split; [rewrite Hc by reflexivity; vm_compute; reflexivity|vm_compute in Hle |- *; done].
Defined.
