(* ===== verification/AgentShutdown.v ===== *)
(** core/src/agent/control/runtime.rs and thread_manager/shutdown.rs: starts of an agent tree are
    admitted until it is shut down, and a shutdown waits for those admitted and reports the
    failures they recorded. Admission, recording and waiting are taken step by step and
    interleaved in [step].

    tokio_util's [TaskTracker], which counts the admitted, is the class [TaskTracker]. *)
From S2P Require Import Prelude Str AgentRegistry.

(** Tokens may be taken from a closed tracker; a wait on it ends when it is closed and no token is
    left. *)
Class TaskTracker := {
  tracker : Type;
  tracker_new : tracker;
  is_closed : tracker → bool;
  tokens : tracker → nat;
  close : tracker → tracker;
  token : tracker → tracker;
  drop_token : tracker → tracker
}.

Class TaskTrackerLaws `{TaskTracker} : Prop := {
  new_open : is_closed tracker_new = false ∧ tokens tracker_new = 0;
  close_spec t : is_closed (close t) = true ∧ tokens (close t) = tokens t;
  token_spec t : is_closed (token t) = is_closed t ∧ tokens (token t) = S (tokens t);
  drop_spec t : is_closed (drop_token t) = is_closed t ∧ tokens (drop_token t) = pred (tokens t)
}.

Definition wait_ends `{TaskTracker} (t : tracker) : bool := is_closed t && (tokens t =? 0).

(** * Reports *)

Inductive AgentTreeShutdownFailureReason := OperationFailed (phase error_kind : str) | GuardAbandoned.

Record AgentTreeShutdownFailure := mkFailure { sf_operation : str; sf_thread_id : option ThreadId; sf_reason : AgentTreeShutdownFailureReason }.

Definition operation_failed (operation phase : str) (thread_id : option ThreadId) (error_kind : str) : AgentTreeShutdownFailure :=
  mkFailure operation thread_id (OperationFailed phase error_kind).

Record AgentTreeShutdownReport := mkReport { failures : list AgentTreeShutdownFailure; omitted_failures : N }.

Definition MAX_RETAINED_SHUTDOWN_FAILURES : nat := 64.

Definition empty_report : AgentTreeShutdownReport := mkReport [] 0.

Definition record_failure (r : AgentTreeShutdownReport) (f : AgentTreeShutdownFailure) : AgentTreeShutdownReport :=
  if length (failures r) <? MAX_RETAINED_SHUTDOWN_FAILURES then mkReport (failures r ++ [f]) (omitted_failures r)
  else mkReport (failures r) (sat_add (omitted_failures r) 1).

(** The result of [wait_detailed] on the report it copied. *)
Definition wait_result (r : AgentTreeShutdownReport) : result AgentTreeShutdownReport unit :=
  match failures r with
  | [] => if (omitted_failures r =? 0)%N then Ok () else Err r
  | _ => Err r
  end.

(** * Tasks *)

(** [admit_start] past its first check, and with its token; an admitted task with a membership, or
    with a teardown guard around it; one about to give up its token; a waiter, one past the
    wait, and one with its copy of the report. *)
Inductive Task :=
| Starting
| Tokened
| Member
| Guarded (operation : str) (thread_id : option ThreadId)
| Leaving
| Waiting
| Drained
| Reported (r : AgentTreeShutdownReport).

Section tree.
Context `{TaskTracker}.

(** [recorded] are the failures recorded so far, in order. *)
Record Tree := mkTree { members : tracker; report : AgentTreeShutdownReport; tasks : list Task; recorded : list AgentTreeShutdownFailure }.

Definition new_tree : Tree := mkTree tracker_new empty_report [] [].

(** The failures a task may record: a teardown guard those of its operation, a member any. *)
Definition may_record (t : Task) (f : AgentTreeShutdownFailure) : Prop :=
  match t with
  | Member => True
  | Guarded operation thread_id => ∃ phase error_kind, f = operation_failed operation phase thread_id error_kind
  | _ => False
  end.

Inductive step : Tree → Tree → Prop :=
| step_check_open m r l h :                          (* admit_start: the first check *)
    is_closed m = false → step (mkTree m r l h) (mkTree m r (Starting :: l) h)
| step_token m r l1 l2 h :                           (* the token *)
    step (mkTree m r (l1 ++ Starting :: l2) h) (mkTree (token m) r (l1 ++ Tokened :: l2) h)
| step_recheck m r l1 l2 h :                         (* the second check *)
    step (mkTree m r (l1 ++ Tokened :: l2) h) (mkTree m r (l1 ++ (if is_closed m then Leaving else Member) :: l2) h)
| step_clone m r l1 l2 h t t' :                      (* clone, clone_for_teardown *)
    t = Member ∨ (∃ o i, t = Guarded o i) → t' = Member ∨ (∃ o i, t' = Guarded o i) →
    step (mkTree m r (l1 ++ t :: l2) h) (mkTree (token m) r (l1 ++ t :: t' :: l2) h)
| step_into_guard m r l1 l2 h operation thread_id :  (* into_teardown_guard *)
    step (mkTree m r (l1 ++ Member :: l2) h) (mkTree m r (l1 ++ Guarded operation thread_id :: l2) h)
| step_set_thread m r l1 l2 h operation i thread_id :
    step (mkTree m r (l1 ++ Guarded operation i :: l2) h) (mkTree m r (l1 ++ Guarded operation (Some thread_id) :: l2) h)
| step_record m r l1 l2 h t f :                      (* record_shutdown_failure *)
    may_record t f →
    step (mkTree m r (l1 ++ t :: l2) h) (mkTree m (record_failure r f) (l1 ++ t :: l2) (h ++ [f]))
| step_complete m r l1 l2 h operation thread_id :    (* complete *)
    step (mkTree m r (l1 ++ Guarded operation thread_id :: l2) h) (mkTree m r (l1 ++ Leaving :: l2) h)
| step_abandon m r l1 l2 h operation thread_id :     (* the drop of a guard that did not complete *)
    let f := mkFailure operation thread_id GuardAbandoned in
    step (mkTree m r (l1 ++ Guarded operation thread_id :: l2) h) (mkTree m (record_failure r f) (l1 ++ Leaving :: l2) (h ++ [f]))
| step_drop_member m r l1 l2 h :
    step (mkTree m r (l1 ++ Member :: l2) h) (mkTree m r (l1 ++ Leaving :: l2) h)
| step_leave m r l1 l2 h :                           (* the token is dropped *)
    step (mkTree m r (l1 ++ Leaving :: l2) h) (mkTree (drop_token m) r (l1 ++ l2) h)
| step_request_shutdown m r l h :
    step (mkTree m r l h) (mkTree (close m) r l h)
| step_wait m r l h :
    step (mkTree m r l h) (mkTree m r (Waiting :: l) h)
| step_drained m r l1 l2 h :
    wait_ends m = true → step (mkTree m r (l1 ++ Waiting :: l2) h) (mkTree m r (l1 ++ Drained :: l2) h)
| step_report m r l1 l2 h :
    step (mkTree m r (l1 ++ Drained :: l2) h) (mkTree m r (l1 ++ Reported r :: l2) h).

(** * What a shutdown waits for *)

Definition holds_token (t : Task) : bool := match t with Tokened | Member | Guarded _ _ | Leaving => true | _ => false end.
Definition admitted (t : Task) : bool := match t with Member | Guarded _ _ => true | _ => false end.
Definition past_wait (t : Task) : bool := match t with Drained | Reported _ => true | _ => false end.

Definition holders (l : list Task) : nat := length (List.filter holds_token l).

Context {laws : TaskTrackerLaws}.

Record tree_ok (s : Tree) : Prop := {
  to_tokens : tokens (members s) = holders (tasks s);
  to_fence : existsb past_wait (tasks s) = true → is_closed (members s) = true ∧ existsb admitted (tasks s) = false;
  to_copies : ∀ r, Reported r ∈ tasks s → r = report s;
  to_report : report s = foldl record_failure empty_report (recorded s)
}.

Lemma holders_app l1 l2 : holders (l1 ++ l2) = holders l1 + holders l2.
Proof. unfold holders. by rewrite List.filter_app, length_app. Qed.

Lemma holders_cons t l : holders (t :: l) = (if holds_token t then 1 else 0) + holders l.
Proof. unfold holders. cbn. by destruct (holds_token t). Qed.

Lemma tree_ok_new : tree_ok new_tree.
Proof. split; cbn; try done; [apply new_open|]. intros r. by rewrite elem_of_nil. Qed.

Lemma no_holders l : holders l = 0 → existsb admitted l = false.
Proof. induction l as [|t l IH]; [done|]. rewrite holders_cons. intros Hz. cbn [existsb]. rewrite IH by lia. by destruct t. Qed.

(** A task replaced by others, with the tracker changed. *)
Lemma tree_ok_replace m m' r l1 t new l2 h :
  tree_ok (mkTree m r (l1 ++ t :: l2) h) →
  tokens m' + (if holds_token t then 1 else 0) = tokens m + holders new → is_closed m' = is_closed m →
  (existsb past_wait new = true → past_wait t = true ∨ wait_ends m = true) →
  (existsb admitted new = true → admitted t = true ∨ is_closed m = false) →
  (∀ c, Reported c ∈ new → c = r) →
  tree_ok (mkTree m' r (l1 ++ new ++ l2) h).
Proof.
  intros [Htok Hf Hc Hr] Hn Hcl Hpast Hadm Hcop. cbn [members tasks report recorded] in *. rewrite !existsb_app in Hf. cbn [existsb] in Hf.
  assert (Hfence : existsb past_wait l1 || existsb past_wait new || existsb past_wait l2 = true →
    is_closed m = true ∧ existsb admitted l1 = false ∧ admitted t = false ∧ existsb admitted l2 = false).
  { intros Hp. destruct (existsb past_wait l1 || (past_wait t || existsb past_wait l2)) eqn:Eold.
    - destruct (Hf eq_refl) as [Hclosed Hold]. rewrite !orb_false_iff in Hold. naive_solver.
    - rewrite !orb_false_iff in Eold. destruct Eold as (E1 & Et & E2). rewrite E1, E2 in Hp. cbn in Hp. rewrite orb_false_r in Hp.
      destruct (Hpast Hp) as [Hpt|[Hclosed Hz]%andb_true_iff]; [congruence|]. apply Nat.eqb_eq in Hz. rewrite Hz in Htok.
      symmetry in Htok. apply no_holders in Htok. rewrite existsb_app in Htok. cbn [existsb] in Htok. rewrite !orb_false_iff in Htok. naive_solver. }
  rewrite holders_app, holders_cons in Htok.
  split; cbn [members tasks report recorded]; [rewrite !holders_app; lia| | |done].
  - rewrite !existsb_app, Hcl, orb_assoc. intros Hp. destruct (Hfence Hp) as (Hclosed & H1 & Ht & H2). split; [done|]. rewrite H1, H2. cbn.
    rewrite orb_false_r. destruct (existsb admitted new); [|done]. destruct (Hadm eq_refl); congruence.
  - intros c. rewrite !elem_of_app. intros [Hin|[Hin|Hin]]; [apply Hc; set_solver|by apply Hcop|apply Hc; set_solver].
Qed.

(** A failure can only be recorded while some task is admitted, and then nobody is past the wait. *)
Lemma tree_ok_record m r l h f :
  tree_ok (mkTree m r l h) → existsb admitted l = true → tree_ok (mkTree m (record_failure r f) l (h ++ [f])) ∧ existsb past_wait l = false.
Proof.
  intros [Htok Hf Hc Hr] Ha. cbn [members tasks report recorded] in *.
  assert (Hp : existsb past_wait l = false). { destruct (existsb past_wait l); [|done]. destruct (Hf eq_refl). congruence. }
  split; [|done]. split; cbn [members tasks report recorded]; [done|congruence| |by rewrite foldl_app, <- Hr].
  intros c Hin. exfalso. assert (existsb past_wait l = true); [|congruence]. apply existsb_exists. exists (Reported c). split; [by apply list_elem_of_In|done].
Qed.

Lemma admitted_mid l1 t l2 : admitted t = true → existsb admitted (l1 ++ t :: l2) = true.
Proof. intros Ht. rewrite existsb_app. cbn. by rewrite Ht, orb_true_r. Qed.

Lemma may_record_admitted t f : may_record t f → admitted t = true.
Proof. by destruct t. Qed.

(** The tracker after an operation. *)
Ltac tracker_facts := repeat match goal with
  | |- context [token ?m] => lazymatch goal with _ : tokens (token m) = _ |- _ => fail | _ => destruct (token_spec m) end
  | |- context [drop_token ?m] => lazymatch goal with _ : tokens (drop_token m) = _ |- _ => fail | _ => destruct (drop_spec m) end
  end.

Lemma holder_token m r l1 t l2 h : tree_ok (mkTree m r (l1 ++ t :: l2) h) → holds_token t = true → 0 < tokens m.
Proof. intros [Htok _ _ _] Ht. cbn [members tasks] in Htok. rewrite Htok, holders_app, holders_cons, Ht. lia. Qed.

Ltac replace_task t new := match goal with
  | Hs : tree_ok (mkTree ?m ?r (?l1 ++ t :: ?l2) ?h) |- _ => apply (tree_ok_replace m _ r l1 t new l2 h Hs)
  end; rewrite ?holders_cons; cbn [holds_token holders List.filter length existsb admitted past_wait orb]; try done; tracker_facts; try lia; try done; try (intros c; rewrite list_elem_of_singleton; congruence).

Lemma tree_step_ok s s' : tree_ok s → step s s' → tree_ok s'.
Proof.
  intros Hs Hstep. destruct Hstep.
  - destruct Hs as [Htok Hf Hc Hr]. split; cbn [members tasks report recorded] in *; [done|done| |done].
    intros c [?|?]%elem_of_cons; [done|by apply Hc].
  - replace_task Starting [Tokened].
  - destruct (is_closed m) eqn:E; [replace_task Tokened [Leaving]|replace_task Tokened [Member]]. by right.
  - assert (Hadm : ∀ x, x = Member ∨ (∃ o i, x = Guarded o i) → holds_token x = true ∧ admitted x = true ∧ past_wait x = false ∧ ∀ c, x ≠ Reported c)
      by (intros x [->|(o & i & ->)]; done).
    destruct (Hadm t) as (A1 & A2 & A3 & A4); [done|]. destruct (Hadm t') as (B1 & B2 & B3 & B4); [done|].
    change (l1 ++ t :: t' :: l2) with (l1 ++ [t; t'] ++ l2).
    replace_task t [t; t']; rewrite ?A1, ?B1, ?A3, ?B3; try lia; try done; [by left|]. by intros c [?%symmetry%A4|[?%symmetry%B4|?%elem_of_nil]%elem_of_cons]%elem_of_cons.
  - replace_task Member [Guarded operation thread_id].
  - replace_task (Guarded operation i) [Guarded operation (Some thread_id)].
  - apply tree_ok_record; [done|]. by eapply admitted_mid, may_record_admitted.
  - replace_task (Guarded operation thread_id) [Leaving].
  - destruct (tree_ok_record _ _ _ _ f Hs) as [Hs' _]; [by apply admitted_mid|]. clear Hs. replace_task (Guarded operation thread_id) [Leaving].
  - replace_task Member [Leaving].
  - pose proof (holder_token _ _ _ _ _ _ Hs eq_refl). change (l1 ++ l2) with (l1 ++ [] ++ l2). replace_task Leaving (@nil Task). set_solver.
  - destruct Hs as [Htok Hf Hc Hr]. destruct (close_spec m) as [Hclose Htokens].
    split; cbn [members tasks report recorded] in *; [by rewrite Htokens| |done|done]. intros Hp. split; [done|]. by apply Hf.
  - destruct Hs as [Htok Hf Hc Hr]. split; cbn [members tasks report recorded] in *; [done|done| |done].
    intros c [?|?]%elem_of_cons; [done|by apply Hc].
  - replace_task Waiting [Drained]. by right.
  - replace_task Drained [Reported r].
Qed.

Lemma tree_reachable_ok s : rtc step new_tree s → tree_ok s.
Proof.
  intros Hr. assert (Hgen : ∀ s1 s2, rtc step s1 s2 → tree_ok s1 → tree_ok s2).
  { induction 1 as [|s1 s2 s3 H12 _ IH]; [done|]. intros H1. apply IH. by eapply tree_step_ok. }
  by apply (Hgen _ _ Hr), tree_ok_new.
Qed.

(** Nothing is recorded once somebody is past the wait, and those stay past it. *)
Lemma step_past s s' :
  tree_ok s → step s s' → existsb past_wait (tasks s) = true → existsb past_wait (tasks s') = true ∧ recorded s' = recorded s.
Proof.
  intros Hs Hstep Hp. pose proof (to_fence s Hs Hp) as [Hclosed Hadm].
  destruct Hstep; cbn [tasks recorded members] in *; rewrite ?existsb_app in *; cbn [existsb past_wait admitted orb] in *;
    rewrite ?orb_true_r in *; try done.
  - by destruct (is_closed m).
  - split; [|done]. assert (past_wait t = false) as Ht by (by destruct H0 as [->|(? & ? & ->)]). rewrite Ht in *. cbn in *.
    by apply orb_true_iff in Hp as [->| ->]; rewrite ?orb_true_r.
  - apply may_record_admitted in H0. by rewrite H0, orb_true_r in Hadm.
Qed.

Lemma steps_past s s' :
  tree_ok s → rtc step s s' → existsb past_wait (tasks s) = true → existsb past_wait (tasks s') = true ∧ recorded s' = recorded s.
Proof.
  intros Hs Hr. revert Hs. induction Hr as [s|s1 s2 s3 H12 _ IH]; [done|]. intros H1 Hp.
  destruct (step_past s1 s2 H1 H12 Hp) as [Hp2 He2]. destruct (IH (tree_step_ok _ _ H1 H12) Hp2) as [Hp3 He3]. split; congruence.
Qed.

Lemma record_failure_nonempty r f : wait_result (record_failure r f) ≠ Ok ().
Proof.
  unfold record_failure, wait_result. destruct (length (failures r) <? MAX_RETAINED_SHUTDOWN_FAILURES) eqn:E; cbn [failures omitted_failures].
  - by destruct (failures r).
  - destruct (failures r); [done|]. done.
Qed.

(** A report is clean exactly when nothing was recorded. *)
Lemma report_clean l : wait_result (foldl record_failure empty_report l) = Ok () ↔ l = [].
Proof.
  split; [|by intros ->]. destruct l as [|f l] using rev_ind; [done|]. rewrite foldl_app. cbn [foldl]. by intros Hr%record_failure_nonempty.
Qed.

(** The report keeps the first failures and counts the others. *)
Lemma report_counts l :
  let r := foldl record_failure empty_report l in
  failures r = take MAX_RETAINED_SHUTDOWN_FAILURES l
  ∧ omitted_failures r = N.min (N.of_nat (length l - MAX_RETAINED_SHUTDOWN_FAILURES)) usize_max.
Proof.
  induction l as [|f l [IHf IHo]] using rev_ind; [done|]. cbn zeta in *. rewrite foldl_app. cbn [foldl]. set (r := foldl _ _ l) in *. unfold record_failure.
  rewrite !IHf, length_take. rewrite length_app. cbn [length]. destruct (Nat.ltb_spec (MAX_RETAINED_SHUTDOWN_FAILURES `min` length l) MAX_RETAINED_SHUTDOWN_FAILURES).
  - cbn [failures omitted_failures]. rewrite IHo. split; [|f_equal; lia]. rewrite !take_ge; [done|rewrite ?length_app; cbn; lia..].
  - cbn [failures omitted_failures]. rewrite IHo. split; [by rewrite take_app_le by lia|]. unfold sat_add. lia.
Qed.

(** C10: A shutdown waits for everything that was admitted, and every waiter gets the same report. Once
    a wait has ended, under every interleaving of starts, clones, teardowns, failures and
    shutdown requests, no start is admitted and no failure is recorded any more, so every
    copy of the report, taken then or later, is the one final report: the first 64 failures
    in order with the number of the others. It is clean exactly when no operation failed and
    no teardown was abandoned. *)
Theorem shutdown_report_final s s' :
  rtc step new_tree s → existsb past_wait (tasks s) = true → rtc step s s' →
  existsb admitted (tasks s') = false
  ∧ recorded s' = recorded s ∧ report s' = report s
  ∧ (∀ r, Reported r ∈ tasks s' → r = report s ∧ (wait_result r = Ok () ↔ recorded s = []))
  ∧ failures (report s) = take MAX_RETAINED_SHUTDOWN_FAILURES (recorded s)
  ∧ omitted_failures (report s) = N.min (N.of_nat (length (recorded s) - MAX_RETAINED_SHUTDOWN_FAILURES)) usize_max.
Proof.
  intros Hr Hp Hr'. pose proof (tree_reachable_ok s Hr) as Hs. destruct (steps_past s s' Hs Hr' Hp) as [Hp' He].
  assert (Hs' : tree_ok s') by (apply tree_reachable_ok; by etrans).
  assert (Hrep : report s' = report s) by (by rewrite (to_report _ Hs), (to_report _ Hs'), He).
  split_and!; [by apply to_fence|done|done| |rewrite (to_report _ Hs); apply report_counts..].
  intros r Hin. rewrite (to_copies _ Hs' r Hin), Hrep. split; [done|]. rewrite (to_report _ Hs). apply report_clean.
Qed.
End tree.

(** ** A tree that is shut down while a teardown is abandoned *)

Definition counting_tracker : TaskTracker := {|
  tracker := bool * nat; tracker_new := (false, 0); is_closed := fst; tokens := snd;
  close := λ t, (true, t.2); token := λ t, (t.1, S t.2); drop_token := λ t, (t.1, pred t.2) |}.

Section example.
#[local] Existing Instance counting_tracker.

#[local] Instance counting_laws : TaskTrackerLaws.
Proof. by split. Qed.

Definition abandoned : AgentTreeShutdownFailure := mkFailure (lit "child_spawn_cleanup") None GuardAbandoned.

Definition abandoned_tree : Tree := mkTree (true, 0) (mkReport [abandoned] 0) [Drained] [abandoned].

Lemma abandoned_reached : rtc step new_tree abandoned_tree.
Proof.
  eapply rtc_l; [by apply step_check_open|]. eapply rtc_l; [apply (step_token _ _ [] [])|].
  eapply rtc_l; [apply (step_recheck _ _ [] [])|]. eapply rtc_l; [apply (step_into_guard _ _ [] [] _ (lit "child_spawn_cleanup") None)|].
  eapply rtc_l; [apply step_request_shutdown|]. eapply rtc_l; [apply step_wait|].
  eapply rtc_l; [apply (step_abandon _ _ [_] [])|]. eapply rtc_l; [apply (step_leave _ _ [_] [])|].
  eapply rtc_l; [by apply (step_drained _ _ [] [])|]. apply rtc_refl.
Qed.

Lemma shutdown_report_final_witness :
  ∃ s, rtc step abandoned_tree s ∧ Reported (mkReport [abandoned] 0) ∈ tasks s ∧ recorded s = [abandoned].
Proof.
  assert (Hr : rtc step abandoned_tree (mkTree (true, 0) (mkReport [abandoned] 0) [Reported (mkReport [abandoned] 0)] [abandoned])).
  { eapply rtc_l; [apply (step_report _ _ [] [])|]. apply rtc_refl. }
  destruct (shutdown_report_final abandoned_tree _ abandoned_reached eq_refl Hr) as (_ & He & _). eexists. split; [exact Hr|].
  split; [apply list_elem_of_here|exact He].
Defined.
End example.
