(* ===== verification/AgentControl.v ===== *)
(** core/src/agent/control: mail for agents whose sessions are not loaded (mailbox.rs), which agents stay
    loaded (residency.rs) and how many run (execution.rs).

    tokio's watch channel, which tells a waiter whether there is mail, is the class [WatchChannel]; the
    thread manager's answers about a candidate for unloading are a parameter. The steps of the tasks that
    reserve slots, commit and drop them, touch and remove residents are interleaved in [step]. *)
From S2P Require Import Prelude Str AgentRegistry.

(** * Mailboxes *)

(** [send_if_modified] gets a function that returns whether it changed the value, and the value. *)
Class WatchChannel := {
  sender : Type;
  channel_default : sender;
  channel_value : sender → bool;
  receiver_count : sender → nat;
  send_replace : bool → sender → sender;
  send_if_modified : (bool → bool * bool) → sender → sender;
  subscribe : sender → sender;
  drop_receiver : sender → sender
}.

Class WatchChannelLaws `{WatchChannel} : Prop := {
  default_value : channel_value channel_default = false;
  replace_value b s : channel_value (send_replace b s) = b;
  modify_value f s : channel_value (send_if_modified f s) = (f (channel_value s)).2;
  subscribe_spec s : channel_value (subscribe s) = channel_value s ∧ receiver_count (subscribe s) = S (receiver_count s);
  drop_receiver_spec s : channel_value (drop_receiver s) = channel_value s
}.

(** [std::mem::take] on the value. *)
Definition mem_take (b : bool) : bool * bool := (b, false).

(** * Mailboxes *)

Section mail.
Context `{WatchChannel} {InterAgentCommunication : Type}.

Record StoredMail := mkMail { sm_id : option str; sm_communication : InterAgentCommunication }.

Record Mailbox := mkMailbox { pending : list StoredMail; mb_state : sender }.

Definition default_mailbox : Mailbox := mkMailbox [] channel_default.

(** Closed mailboxes are [None]. *)
Notation Mailboxes := (option (gmap ThreadId Mailbox)).

Definition new_mailboxes : Mailboxes := Some ∅.

Definition enqueue (agent : ThreadId) (id : option str) (messages : list InterAgentCommunication) (m : Mailboxes) : result str unit * Mailboxes :=
  match m with
  | None => (Err (lit "agent runtime is shutting down"), None)
  | Some boxes =>
      let box := default default_mailbox (boxes !! agent) in
      let mail := pending box ++ (mkMail id <$> messages) in
      let has_mail := match mail with [] => false | _ => true end in
      (Ok (), Some (<[agent := mkMailbox mail (send_replace has_mail (mb_state box))]> boxes))
  end.

(** With the identifiers whose receipt is reported. *)
Definition take_mail (agent : ThreadId) (m : Mailboxes) : list InterAgentCommunication * list str * Mailboxes :=
  match m with
  | None => ([], [], None)
  | Some boxes =>
      match boxes !! agent with
      | None => ([], [], m)
      | Some box =>
          (sm_communication <$> pending box, omap sm_id (pending box),
           Some (<[agent := mkMailbox [] (send_if_modified mem_take (mb_state box))]> boxes))
      end
  end.

(** Unread mail and live subscriptions are kept, abandoned empty mailboxes reclaimed. *)
Definition is_retained (box : Mailbox) : bool := match pending box with [] => negb (receiver_count (mb_state box) =? 0) | _ => true end.

Definition watch (agent : ThreadId) (m : Mailboxes) : Mailboxes :=
  match m with
  | None => None
  | Some boxes =>
      let boxes := filter (λ kv, is_retained kv.2 = true) boxes in
      let box := default default_mailbox (boxes !! agent) in
      Some (<[agent := mkMailbox (pending box) (subscribe (mb_state box))]> boxes)
  end.

Definition remove (agent : ThreadId) (m : Mailboxes) : Mailboxes := delete agent <$> m.

(** The channels of the mailboxes that are dropped are set to no mail. *)
Definition close_mailboxes (m : Mailboxes) : list sender * Mailboxes :=
  match m with Some boxes => ((λ kv, send_replace false (mb_state kv.2)) <$> map_to_list boxes, None) | None => ([], None) end.

(** * Runs *)

Inductive Op :=
| Enqueue (agent : ThreadId) (id : option str) (messages : list InterAgentCommunication)
| Take (agent : ThreadId)
| Watch (agent : ThreadId)
| Unwatch (agent : ThreadId)      (* a receiver is dropped *)
| Remove (agent : ThreadId)
| Close.

Definition unwatch (agent : ThreadId) (m : Mailboxes) : Mailboxes :=
  alter (λ box, mkMailbox (pending box) (drop_receiver (mb_state box))) agent <$> m.

(** The mailboxes with what was delivered so far. *)
Definition run_op (c : Mailboxes * list (ThreadId * list InterAgentCommunication)) (o : Op) : Mailboxes * list (ThreadId * list InterAgentCommunication) :=
  let '(m, log) := c in
  match o with
  | Enqueue agent id messages => ((enqueue agent id messages m).2, log)
  | Take agent => let '(mail, _, m) := take_mail agent m in (m, log ++ [(agent, mail)])
  | Watch agent => (watch agent m, log)
  | Unwatch agent => (unwatch agent m, log)
  | Remove agent => (remove agent m, log)
  | Close => ((close_mailboxes m).2, log)
  end.

Definition run_ops (l : list Op) : Mailboxes * list (ThreadId * list InterAgentCommunication) := foldl run_op (new_mailboxes, []) l.

(** What was sent to an agent, what was delivered to it and what waits for it. *)
Definition sent (a : ThreadId) (l : list Op) : list InterAgentCommunication :=
  flat_map (λ o, match o with Enqueue agent _ messages => if agent =s a then messages else [] | _ => [] end) l.

Definition delivered (a : ThreadId) (log : list (ThreadId * list InterAgentCommunication)) : list InterAgentCommunication :=
  flat_map (λ e, if e.1 =s a then e.2 else []) log.

Definition waiting (a : ThreadId) (m : Mailboxes) : list InterAgentCommunication :=
  match m ≫= (.!! a) with Some box => sm_communication <$> pending box | None => [] end.

(** The agent's mail is not discarded. *)
Definition keeps_mail (a : ThreadId) (o : Op) : bool := match o with Remove agent => negb (agent =s a) | Close => false | _ => true end.

Context {laws : WatchChannelLaws}.

(** Open mailboxes whose channels say whether there is mail. *)
Definition channels_ok (m : Mailboxes) : Prop :=
  ∃ boxes, m = Some boxes ∧ ∀ a box, boxes !! a = Some box → channel_value (mb_state box) = match pending box with [] => false | _ => true end.

Lemma channels_insert boxes agent box :
  channels_ok (Some boxes) → channel_value (mb_state box) = (match pending box with [] => false | _ => true end) → channels_ok (Some (<[agent := box]> boxes)).
Proof. intros (? & [= <-] & Hb) Hbox. eexists. split; [done|]. intros a box' [[<- <-]|[_ ?]]%lookup_insert_Some; [done|eauto]. Qed.

Lemma default_mailbox_ok boxes agent :
  channels_ok (Some boxes) → let box := default default_mailbox (boxes !! agent) in channel_value (mb_state box) = match pending box with [] => false | _ => true end.
Proof. intros (? & [= <-] & Hb). destruct (boxes !! agent) eqn:E; cbn; [eauto|apply default_value]. Qed.

Lemma waiting_insert a agent box boxes :
  waiting a (Some (<[agent := box]> boxes)) = if agent =s a then sm_communication <$> pending box else waiting a (Some boxes).
Proof. unfold waiting. cbn [mbind option_bind]. case_bool_decide as E; [subst; by rewrite lookup_insert_eq|by rewrite lookup_insert_ne]. Qed.

Lemma waiting_retained a boxes : waiting a (Some (filter (λ kv, is_retained kv.2 = true) boxes)) = waiting a (Some boxes).
Proof.
  unfold waiting. cbn [mbind option_bind]. rewrite map_lookup_filter. destruct (boxes !! a) as [box|]; cbn; [|done].
  case_guard as G; cbn; [done|]. cbn in G. unfold is_retained in G. by destruct (pending box).
Qed.

Lemma enqueue_step a agent id messages m :
  channels_ok m → let m' := (enqueue agent id messages m).2 in
  channels_ok m' ∧ waiting a m' = waiting a m ++ (if agent =s a then messages else []).
Proof.
  intros Hok. pose proof Hok as (boxes & -> & _). cbn [enqueue snd]. split.
  - apply channels_insert; [done|]. cbn [mb_state pending]. by rewrite replace_value.
  - rewrite waiting_insert. cbn [pending]. case_bool_decide as E; [subst|by rewrite app_nil_r]. rewrite fmap_app, <- list_fmap_compose.
    replace (sm_communication ∘ mkMail id <$> messages) with messages by (symmetry; apply list_fmap_id). unfold waiting. cbn. by destruct (boxes !! a).
Qed.

Lemma take_step a agent m :
  channels_ok m → let '(mail, _, m') := take_mail agent m in
  channels_ok m' ∧ (if agent =s a then mail else []) ++ waiting a m' = waiting a m.
Proof.
  intros Hok. pose proof Hok as (boxes & -> & Hb). unfold take_mail.
  destruct (boxes !! agent) as [box|] eqn:E; [|split; [done|]; by case_bool_decide]. split.
  - apply channels_insert; [done|]. cbn. by rewrite modify_value.
  - rewrite waiting_insert.
    case_bool_decide as Ea; [|done]. subst. unfold waiting. cbn. by rewrite E, app_nil_r.
Qed.

Lemma watch_step a agent m : channels_ok m → channels_ok (watch agent m) ∧ waiting a (watch agent m) = waiting a m.
Proof.
  intros Hok. pose proof Hok as (boxes & -> & Hb). cbn [watch]. set (kept := filter _ boxes).
  assert (Hkept : channels_ok (Some kept)).
  { exists kept. split; [done|]. intros b box [Hl _]%map_lookup_filter_Some. eauto. }
  split.
  - apply channels_insert; [done|]. cbn [mb_state pending]. destruct (subscribe_spec (mb_state (default default_mailbox (kept !! agent)))) as [-> _].
    by apply default_mailbox_ok.
  - rewrite waiting_insert. rewrite <- (waiting_retained a boxes). fold kept. case_bool_decide as Ea; [|done]. subst. cbn [pending].
    unfold waiting. cbn. by destruct (kept !! a).
Qed.

Lemma unwatch_step a agent m : channels_ok m → channels_ok (unwatch agent m) ∧ waiting a (unwatch agent m) = waiting a m.
Proof.
  intros (boxes & -> & Hb). unfold unwatch. cbn [fmap option_map]. split.
  - eexists. split; [reflexivity|]. intros b box. rewrite lookup_alter_Some. intros [(<- & box' & Hl & ->)|[_ Hl]]; [|eauto].
    cbn. rewrite drop_receiver_spec. eauto.
  - unfold waiting. cbn. destruct (decide (agent = a)) as [->|Hne]; [rewrite lookup_alter_eq|by rewrite lookup_alter_ne]. by destruct (boxes !! a).
Qed.

Lemma remove_step a agent m : agent ≠ a → channels_ok m → channels_ok (remove agent m) ∧ waiting a (remove agent m) = waiting a m.
Proof.
  intros Hne (boxes & -> & Hb). unfold remove. cbn [fmap option_map]. split.
  - eexists. split; [reflexivity|]. intros b box [_ Hl]%lookup_delete_Some. eauto.
  - unfold waiting. cbn. by rewrite lookup_delete_ne.
Qed.

Lemma run_op_step a o m log :
  keeps_mail a o = true → channels_ok m → let '(m', log') := run_op (m, log) o in
  channels_ok m' ∧ delivered a log' ++ waiting a m' = delivered a log ++ waiting a m ++ sent a [o].
Proof.
  intros Hk Hok. destruct o as [agent id messages|agent|agent|agent|agent|]; cbn [run_op keeps_mail sent flat_map] in *; rewrite ?app_nil_r; [..|done].
  - destruct (enqueue_step a agent id messages m Hok) as [? ->]. done.
  - pose proof (take_step a agent m Hok) as Ht. destruct (take_mail agent m) as [[mail ids] m']. destruct Ht as [? <-]. split; [done|].
    unfold delivered. rewrite flat_map_app. cbn. by rewrite app_nil_r, <- app_assoc.
  - destruct (watch_step a agent m Hok) as [? ->]. done.
  - destruct (unwatch_step a agent m Hok) as [? ->]. done.
  - apply negb_true_iff, bool_decide_eq_false in Hk. destruct (remove_step a agent m Hk Hok) as [? ->]. done.
Qed.

(** Mail reaches its agent complete and in order. While an agent's mailbox is not removed and the
    mailboxes are not closed, whatever else is sent, taken, watched, unwatched and removed,
    what was delivered to the agent followed by what waits for it is exactly what was sent to
    it; and the channel a waiter watches says at every moment whether mail waits. *)
Theorem mail_in_order (a : ThreadId) (l : list Op) :
  forallb (keeps_mail a) l = true →
  let '(m, log) := run_ops l in
  delivered a log ++ waiting a m = sent a l
  ∧ (∀ box, m ≫= (.!! a) = Some box → channel_value (mb_state box) = true ↔ waiting a m ≠ []).
Proof.
  intros Hk. enough (Hrun : channels_ok (run_ops l).1 ∧ delivered a (run_ops l).2 ++ waiting a (run_ops l).1 = sent a l).
  - destruct (run_ops l) as [m log]. cbn [fst snd] in Hrun. destruct Hrun as [(boxes & -> & Hb) Heq]. split; [done|]. cbn. intros box Hbox. unfold waiting. cbn.
    rewrite Hbox, (Hb a box Hbox). by destruct (pending box); split.
  - induction l as [|o l IH] using rev_ind; [split; [|done]; exists ∅; split; [done|]; intros b box; by rewrite lookup_empty|].
    rewrite forallb_app in Hk. apply andb_true_iff in Hk as [Hl Ho]. cbn in Ho. rewrite andb_true_r in Ho. destruct (IH Hl) as [Hok Heq].
    unfold run_ops in *. rewrite foldl_app. cbn [foldl]. destruct (foldl run_op _ l) as [m log]. cbn [fst snd] in *.
    pose proof (run_op_step a o m log Ho Hok) as Hstep. destruct (run_op (m, log) o) as [m' log']. cbn [fst snd]. destruct Hstep as [? ->]. split; [done|].
    rewrite app_assoc, Heq. unfold sent. by rewrite flat_map_app.
Qed.
End mail.

Section example.
#[local] Instance plain_channel : WatchChannel := {|
  sender := bool * nat; channel_default := (false, 0); channel_value := fst; receiver_count := snd;
  send_replace := λ b s, (b, s.2); send_if_modified := λ f s, ((f s.1).2, s.2); subscribe := λ s, (s.1, S s.2); drop_receiver := λ s, (s.1, pred s.2) |}.

#[local] Instance plain_channel_laws : WatchChannelLaws.
Proof. by split. Qed.

(** Mail is taken between two messages; another agent's empty mailbox is reclaimed. *)
Definition example_ops : list (Op (InterAgentCommunication := nat)) :=
  [Watch (lit "b"); Enqueue (lit "a") None [1; 2]; Unwatch (lit "b"); Take (lit "a"); Watch (lit "a"); Enqueue (lit "a") (Some (lit "m")) [3]; Remove (lit "b")].

Lemma mail_in_order_witness : delivered (lit "a") (run_ops example_ops).2 ++ waiting (lit "a") (run_ops example_ops).1 = [1; 2; 3].
Proof.
  pose proof (mail_in_order (lit "a") example_ops eq_refl) as Hm. destruct (run_ops example_ops) as [m log]. destruct Hm as [Hm _]. exact Hm.
Defined.
End example.

(** * Residency *)

Record V2ResidencyState := mkResidency { residents : list ThreadId; pending_slots : N }.

Definition empty_residency : V2ResidencyState := mkResidency [] 0.

Definition retain_others (t : ThreadId) (l : list ThreadId) : list ThreadId := List.filter (λ r, negb (r =s t)) l.

(** The least recently touched resident is the first. *)
Definition touch_resident (t : ThreadId) (l : list ThreadId) : list ThreadId := retain_others t l ++ [t].

Definition try_reserve_pending_slot (capacity : N) (s : V2ResidencyState) : bool * V2ResidencyState :=
  if (capacity <=? sat_add (N.of_nat (length (residents s))) (pending_slots s))%N then (false, s)
  else (true, mkResidency (residents s) (pending_slots s + 1)).

Definition touch (t : ThreadId) (s : V2ResidencyState) : V2ResidencyState := mkResidency (touch_resident t (residents s)) (pending_slots s).

Definition remove_resident (t : ThreadId) (s : V2ResidencyState) : V2ResidencyState := mkResidency (retain_others t (residents s)) (pending_slots s).

Definition commit_slot (t : ThreadId) (s : V2ResidencyState) : V2ResidencyState :=
  mkResidency (touch_resident t (residents s)) (pending_slots s - 1).

Definition release_pending_slot (s : V2ResidencyState) : V2ResidencyState := mkResidency (residents s) (pending_slots s - 1).

Inductive ThreadEvictionOutcome := Busy | Evicted | NotCurrent.

(** What is found about a candidate: it is no resident any more, it has not started, or an
    attempt to evict it has an outcome. *)
Inductive Candidate := StaleEntry | PendingInit | Attempt (outcome : result str ThreadEvictionOutcome).

(** Whether a resident was unloaded, with the stale entry that was removed on the way. *)
Fixpoint try_unload_one_resident (candidate : ThreadId → Candidate) (protected : option ThreadId) (candidates : list ThreadId)
    (s : V2ResidencyState) : bool * V2ResidencyState :=
  match candidates with
  | [] => (false, s)
  | t :: candidates =>
      if bool_decide (Some t = protected) then try_unload_one_resident candidate protected candidates s
      else match candidate t with
      | StaleEntry => (true, remove_resident t s)
      | PendingInit => try_unload_one_resident candidate protected candidates s
      | Attempt (Ok Evicted) => (true, remove_resident t s)
      | Attempt (Ok NotCurrent) => (true, s)
      | Attempt (Ok Busy) | Attempt (Err _) => try_unload_one_resident candidate protected candidates s
      end
  end.

(** A round of the loop of [reserve_slot]: a slot, the error that the limit is reached, or another
    round. *)
Inductive Round := SlotReserved | ResidencyCapacity (max_threads : N) | NextRound.

Definition reserve_slot_round (capacity : N) (protected : option ThreadId) (candidate : ThreadId → Candidate) (s : V2ResidencyState)
    : Round * V2ResidencyState :=
  match try_reserve_pending_slot capacity s with
  | (true, s) => (SlotReserved, s)
  | (false, s) =>
      let '(unloaded, s) := try_unload_one_resident candidate protected (residents s) s in
      (if (unloaded : bool) then NextRound else ResidencyCapacity capacity, s)
  end.

(** * Interleaved tasks *)

(** The open slots, and how often a thread was touched that was no resident. *)
Record Pool := mkPool { po_state : V2ResidencyState; po_slots : nat; po_added : N }.

Definition is_resident (t : ThreadId) (s : V2ResidencyState) : bool := bool_decide (t ∈ residents s).

Inductive step (C : N) : Pool → Pool → Prop :=
| step_round s n k capacity protected candidate r s' :
    (capacity ≤ C)%N → reserve_slot_round capacity protected candidate s = (r, s') →
    step C (mkPool s n k) (mkPool s' (match r with SlotReserved => S n | _ => n end) k)
| step_commit s n k t : step C (mkPool s (S n) k) (mkPool (commit_slot t s) n k)
| step_drop s n k : step C (mkPool s (S n) k) (mkPool (release_pending_slot s) n k)
| step_touch s n k t : step C (mkPool s n k) (mkPool (touch t s) n (if is_resident t s then k else k + 1))
| step_remove s n k t : step C (mkPool s n k) (mkPool (remove_resident t s) n k).

Record pool_ok (C : N) (p : Pool) : Prop := {
  pk_nodup : NoDup (residents (po_state p));
  pk_slots : pending_slots (po_state p) = N.of_nat (po_slots p);
  pk_bound : (N.of_nat (length (residents (po_state p))) + pending_slots (po_state p) ≤ C + po_added p)%N
}.

Lemma retain_others_spec t l :
  NoDup l → NoDup (retain_others t l) ∧ t ∉ retain_others t l ∧ length (retain_others t l) + (if bool_decide (t ∈ l) then 1 else 0) = length l.
Proof.
  induction l as [|r l IH].
  { intros _. split_and!; [constructor|by apply not_elem_of_nil|]. by rewrite bool_decide_eq_false_2 by apply not_elem_of_nil. }
  intros [Hr Hl]%NoDup_cons. destruct (IH Hl) as (H1 & H2 & H3).
  cbn [retain_others List.filter]. fold (retain_others t l). assert (Hsub : ∀ x, x ∈ retain_others t l → x ∈ l).
  { intros x Hx. apply list_elem_of_In, filter_In in Hx as [Hx _]. by apply list_elem_of_In. }
  destruct (decide (r = t)) as [->|Hne].
  - rewrite (bool_decide_eq_true_2 (t = t)) by done. cbn [negb]. rewrite bool_decide_eq_true_2 by set_solver.
    rewrite bool_decide_eq_false_2 in H3 by done. cbn [length]. split_and!; [done|done|lia].
  - rewrite (bool_decide_eq_false_2 (r = t)) by done. cbn [negb]. split_and!; [constructor; [|done]; auto|set_solver|].
    cbn [length]. rewrite (bool_decide_ext (t ∈ r :: l) (t ∈ l)) by set_solver. lia.
Qed.

Lemma touch_spec t l : NoDup l → NoDup (touch_resident t l) ∧ length (touch_resident t l) = length l + (if bool_decide (t ∈ l) then 0 else 1).
Proof.
  intros Hl. destruct (retain_others_spec t l Hl) as (H1 & H2 & H3). unfold touch_resident. split.
  - apply NoDup_app. split_and!; [done|intros x Hx ->%list_elem_of_singleton; done|apply NoDup_singleton].
  - rewrite length_app. cbn [length]. destruct (bool_decide (t ∈ l)); lia.
Qed.

Lemma remove_ok C t s n k : pool_ok C (mkPool s n k) → pool_ok C (mkPool (remove_resident t s) n k).
Proof.
  intros [Hn Hs Hb]. cbn [po_state po_slots po_added] in *. destruct (retain_others_spec t _ Hn) as (H1 & _ & H3).
  split; cbn [po_state po_slots po_added remove_resident residents pending_slots]; [done|done|lia].
Qed.

Lemma unload_ok C candidate protected candidates s n k unloaded s' :
  try_unload_one_resident candidate protected candidates s = (unloaded, s') → pool_ok C (mkPool s n k) → pool_ok C (mkPool s' n k).
Proof.
  intros Hu Hs. induction candidates as [|t candidates IH]; cbn [try_unload_one_resident] in Hu; [by injection Hu as <- <-|].
  case_bool_decide; [by apply IH|]. destruct (candidate t) as [| |[[]|]]; try (by apply IH); injection Hu as <- <-; try done; by apply remove_ok.
Qed.

Lemma step_pool_ok C p p' : (C ≤ usize_max)%N → pool_ok C p → step C p p' → pool_ok C p'.
Proof.
  intros HC Hp Hstep. destruct Hstep as [s n k capacity protected candidate r s' Hcap Hr|s n k t|s n k|s n k t|s n k t].
  - unfold reserve_slot_round, try_reserve_pending_slot in Hr.
    destruct (N.leb_spec capacity (sat_add (N.of_nat (length (residents s))) (pending_slots s))) as [Hle|Hlt].
    + destruct (try_unload_one_resident _ _ _ _) as [unloaded s1] eqn:Eu. destruct unloaded; injection Hr as <- <-; by eapply unload_ok.
    + injection Hr as <- <-. destruct Hp as [Hn Hs Hb]. cbn [po_state po_slots po_added] in *. unfold sat_add in Hlt.
      split; cbn [po_state po_slots po_added residents pending_slots]; [done|lia|lia].
  - destruct Hp as [Hn Hs Hb]. cbn [po_state po_slots po_added] in *. destruct (touch_spec t _ Hn) as [H1 H2].
    split; cbn [po_state po_slots po_added commit_slot residents pending_slots]; [done|lia|]. rewrite H2. destruct (bool_decide _); lia.
  - destruct Hp as [Hn Hs Hb]. cbn [po_state po_slots po_added] in *.
    split; cbn [po_state po_slots po_added release_pending_slot residents pending_slots]; [done|lia|lia].
  - destruct Hp as [Hn Hs Hb]. cbn [po_state po_slots po_added] in *. destruct (touch_spec t _ Hn) as [H1 H2].
    split; cbn [po_state po_slots po_added touch residents pending_slots]; [done|done|]. rewrite H2. unfold is_resident. destruct (bool_decide _); lia.
  - by apply remove_ok.
Qed.

(** Loaded agents stay within the capacity: residents are distinct, every slot that is counted is
    held by somebody, and residents and slots together exceed the capacity only by threads
    that were touched without being residents. *)
Theorem residency_bounded C p : (C ≤ usize_max)%N → rtc (step C) (mkPool empty_residency 0 0) p → pool_ok C p.
Proof.
  intros HC Hr. assert (Hgen : ∀ p1 p2, rtc (step C) p1 p2 → pool_ok C p1 → pool_ok C p2).
  { induction 1 as [|p1 p2 p3 H12 _ IH]; [done|]. intros H1. apply IH. by eapply step_pool_ok. }
  apply (Hgen _ _ Hr). split; cbn; [constructor|done|lia].
Qed.

(** * Running agents *)

Record AgentExecutionLimiter := mkLimiter { active : N; limiter_max_threads : option N }.

Inductive MultiAgentVersion := V1 | V2.

(** [OnceLock::get_or_init] keeps the first value. *)
Definition initialize (max_threads : N) (l : AgentExecutionLimiter) : AgentExecutionLimiter :=
  mkLimiter (active l) (match limiter_max_threads l with Some m => Some m | None => Some max_threads end).

Definition max_threads (l : AgentExecutionLimiter) : N := default usize_max (limiter_max_threads l).

Definition has_capacity (l : AgentExecutionLimiter) : bool := (active l <? max_threads l)%N.

Definition is_execution_limited (version : MultiAgentVersion) (sub_agent : bool) : bool := match version with V2 => sub_agent | V1 => false end.

Definition ensure_execution_capacity (version : MultiAgentVersion) (sub_agent : bool) (l : AgentExecutionLimiter) : result SpawnError unit :=
  if negb (is_execution_limited version sub_agent) then Ok ()
  else if has_capacity l then Ok () else Err (AgentLimitReached (max_threads l)).

(** The guard takes a permit without asking for capacity. *)
Definition execution_guard (version : MultiAgentVersion) (sub_agent : bool) (l : AgentExecutionLimiter) : bool * AgentExecutionLimiter :=
  if is_execution_limited version sub_agent then (true, mkLimiter (fetch_add (active l)) (limiter_max_threads l)) else (false, l).

Definition drop_permit (l : AgentExecutionLimiter) : AgentExecutionLimiter := mkLimiter (fetch_sub (active l)) (limiter_max_threads l).

(** Permits that are dropped give their places back. *)
Lemma permit_returned version l : (active l < usize_max)%N → drop_permit (execution_guard version true l).2 = l ∨ version = V1.
Proof.
  destruct version; [by right|]. intros Hl. left. destruct l as [n m]. unfold execution_guard, drop_permit, fetch_add, fetch_sub, wrap, usize_max, u64_max in *.
  cbn in *. f_equal. rewrite (N.mod_small (n + 1)) by lia. replace (n + 1 + 18446744073709551615)%N with (n + 1 * 18446744073709551616)%N by lia.
  rewrite N.Div0.mod_add. by apply N.mod_small; lia.
Qed.

(** The check does not reserve: two agents that pass it before either takes its permit both run. *)
Example two_pass_one_place :
  let l := initialize 1 (mkLimiter 0 None) in
  ensure_execution_capacity V2 true l = Ok () ∧ active (execution_guard V2 true (execution_guard V2 true l).2).2 = 2%N ∧ max_threads l = 1%N.
Proof. split_and!; reflexivity. Qed.
