(* ===== verification/TomlTable.v ===== *)
(** TOML values as the configuration crate handles them (the [toml] crate with its
    [preserve_order] feature): a table is the sequence of its entries in the order in which the
    keys were inserted, so an update keeps the place of a key and a new key goes last. With the
    facts on lookups that the merging of configuration layers rests on. *)
From S2P Require Import Prelude Str.

(** * Ordered tables *)

Section Tables.
Context {V : Type}.
Implicit Types t : list (str * V).

(** [Map::get] *)
Fixpoint tget (k : str) t : option V :=
  match t with
  | [] => None
  | (k', v) :: t => if k' =s k then Some v else tget k t
  end.

Definition contains_key (k : str) t : bool := match tget k t with Some _ => true | None => false end.

(** [Map::insert], and assigning through [get_mut] *)
Fixpoint tinsert (k : str) (v : V) t : list (str * V) :=
  match t with
  | [] => [(k, v)]
  | (k', v') :: t => if k' =s k then (k', v) :: t else (k', v') :: tinsert k v t
  end.

(** [Map::retain] and [Map::remove] *)
Fixpoint retain (keep : str → V → bool) t : list (str * V) :=
  match t with
  | [] => []
  | (k, v) :: t => if keep k v then (k, v) :: retain keep t else retain keep t
  end.
Definition tremove (k : str) t : list (str * V) := retain (λ k' _, negb (k' =s k)) t.

(** [entry(k).or_insert(v)] *)
Definition or_insert (k : str) (v : V) t : list (str * V) := if contains_key k t then t else tinsert k v t.

(** [Map::extend] *)
Definition textend t (l : list (str * V)) : list (str * V) := foldl (λ t e, tinsert e.1 e.2 t) t l.

Lemma tget_insert k k' v t : tget k (tinsert k' v t) = if k' =s k then Some v else tget k t.
Proof.
  induction t as [|[k0 v0] t IH]; cbn [tinsert tget]; [done|].
  destruct (bool_decide_reflect (k0 = k')) as [->|]; cbn [tget].
  - by destruct (k' =s k).
  - destruct (bool_decide_reflect (k0 = k)) as [->|]; [|done]. by rewrite bool_decide_false by done.
Qed.

Lemma tget_insert_eq k v t : tget k (tinsert k v t) = Some v.
Proof. by rewrite tget_insert, bool_decide_true. Qed.

Lemma tget_insert_ne k k' v t : k' ≠ k → tget k (tinsert k' v t) = tget k t.
Proof. intros. by rewrite tget_insert, bool_decide_false. Qed.

Lemma tget_None k t : tget k t = None ↔ k ∉ t.*1.
Proof.
  induction t as [|[k0 v0] t IH]; [by split; [intros _ []%not_elem_of_nil|]|].
  cbn. case_bool_decide; set_solver.
Qed.

Lemma tget_elem k v t : tget k t = Some v → (k, v) ∈ t.
Proof. induction t as [|[k0 v0] t IH]; cbn; [done|]. case_bool_decide; [intros [= <-]|]; set_solver. Qed.

Lemma tget_unique k v t : NoDup t.*1 → (k, v) ∈ t → tget k t = Some v.
Proof.
  induction t as [|[k0 v0] t IH]; [by intros _ ?%not_elem_of_nil|].
  cbn. intros [Hk Hn]%NoDup_cons [[= -> ->]|Hin]%elem_of_cons; [by rewrite bool_decide_true|].
  rewrite bool_decide_false; [by apply IH|]. intros ->. apply Hk, list_elem_of_fmap. by exists (k, v).
Qed.

Lemma tget_cons_self k v t : tget k ((k, v) :: t) = Some v.
Proof. cbn. by rewrite bool_decide_true. Qed.

(** Keys of a changed table. *)

Lemma keys_insert k v t : (tinsert k v t).*1 = if contains_key k t then t.*1 else t.*1 ++ [k].
Proof.
  unfold contains_key. induction t as [|[k0 v0] t IH]; [done|]. cbn. case_bool_decide; [done|].
  cbn. rewrite IH. by destruct (tget k t).
Qed.

Lemma NoDup_insert k v t : NoDup t.*1 → NoDup (tinsert k v t).*1.
Proof.
  intros Hn. rewrite keys_insert. unfold contains_key. destruct (tget k t) eqn:Hk; [done|].
  apply NoDup_app. split_and!; [done| |apply NoDup_singleton].
  intros x Hx ->%list_elem_of_singleton. by apply tget_None in Hk.
Qed.

Lemma keys_retain keep t : (retain keep t).*1 `sublist_of` t.*1.
Proof. induction t as [|[k v] t IH]; [done|]. cbn. case_match; by constructor. Qed.

Lemma NoDup_retain keep t : NoDup t.*1 → NoDup (retain keep t).*1.
Proof. intros Hn. eapply sublist_NoDup; [done|]. apply keys_retain. Qed.

Lemma tget_retain keep k t : NoDup t.*1 →
  tget k (retain keep t) = match tget k t with Some v => if keep k v then Some v else None | None => None end.
Proof.
  induction t as [|[k0 v0] t IH]; [done|]. cbn. intros [Hk Hn]%NoDup_cons.
  case_bool_decide as Hq; subst.
  - destruct (keep k v0); [by rewrite tget_cons_self|].
    apply tget_None in Hk. by rewrite (IH Hn), Hk.
  - destruct (keep k0 v0); cbn; rewrite ?bool_decide_false by done; by apply IH.
Qed.

Lemma tget_remove k k' t : tget k (tremove k' t) = if k' =s k then None else tget k t.
Proof.
  unfold tremove. induction t as [|[k0 v0] t IH]; cbn; [by case_bool_decide|].
  destruct (bool_decide_reflect (k0 = k')) as [->|]; cbn.
  - rewrite IH. by destruct (k' =s k).
  - destruct (bool_decide_reflect (k0 = k)) as [->|]; [|done]. by rewrite bool_decide_false.
Qed.

Lemma tremove_absent k t : tget k t = None → tremove k t = t.
Proof.
  unfold tremove. induction t as [|[k0 v0] t IH]; cbn; [done|]. case_bool_decide; [done|]. cbn. intros. f_equal. by apply IH.
Qed.

Lemma tget_or_insert k k' v t :
  tget k (or_insert k' v t) = if k' =s k then Some (default v (tget k t)) else tget k t.
Proof.
  unfold or_insert, contains_key. destruct (tget k' t) eqn:Hk; case_bool_decide; subst; rewrite ?Hk; try done.
  - by rewrite tget_insert_eq.
  - by rewrite tget_insert_ne.
Qed.

Lemma NoDup_or_insert k v t : NoDup t.*1 → NoDup (or_insert k v t).*1.
Proof. unfold or_insert. case_match; [done|]. apply NoDup_insert. Qed.

Lemma tget_extend k t l : NoDup l.*1 → tget k (textend t l) = match tget k l with Some v => Some v | None => tget k t end.
Proof.
  unfold textend. revert t. induction l as [|[k0 v0] l IH]; [done|]. intros t. cbn.
  intros [Hk Hn]%NoDup_cons. rewrite IH by done. case_bool_decide; subst.
  - apply tget_None in Hk. by rewrite Hk, tget_insert_eq.
  - by rewrite tget_insert_ne.
Qed.

Lemma NoDup_extend t l : NoDup t.*1 → NoDup (textend t l).*1.
Proof. unfold textend. revert t. induction l as [|e l IH]; [done|]. intros t Hn. cbn. apply IH, NoDup_insert, Hn. Qed.
End Tables.

(** * Values *)

Inductive Toml :=
| TString (s : str)
| TInteger (n : Z)
| TFloat (bits : Z)
| TBoolean (b : bool)
| TDatetime (s : str)
| TArray (items : list Toml)
| TTable (entries : list (str * Toml)).

(** Neither an array nor a table. *)
Definition is_scalar (v : Toml) : bool := match v with TArray _ | TTable _ => false | _ => true end.

Section Induction.
Variable P : Toml → Prop.
Hypothesis Pleaf : ∀ v, is_scalar v = true → P v.
Hypothesis Parray : ∀ l, Forall P l → P (TArray l).
Hypothesis Ptable : ∀ t, Forall (λ e, P e.2) t → P (TTable t).

Fixpoint toml_ind' (v : Toml) : P v :=
  match v with
  | TArray l => Parray l ((fix go l : Forall P l := match l with [] => Forall_nil_2 _ | v :: l => Forall_cons_2 _ _ _ (toml_ind' v) (go l) end) l)
  | TTable t =>
      Ptable t ((fix go t : Forall (λ e, P e.2) t :=
        match t with [] => Forall_nil_2 _ | (k, v) :: t => Forall_cons_2 (λ e, P e.2) (k, v) _ (toml_ind' v) (go t) end) t)
  | v => Pleaf v eq_refl
  end.
End Induction.

Definition as_table (v : Toml) : option (list (str * Toml)) := match v with TTable t => Some t | _ => None end.
Definition as_array (v : Toml) : option (list Toml) := match v with TArray l => Some l | _ => None end.
Definition as_str (v : Toml) : option str := match v with TString s => Some s | _ => None end.
Definition is_table (v : Toml) : bool := match v with TTable _ => true | _ => false end.

(** [Value::get] with a key *)
Definition vget (k : str) (v : Toml) : option Toml := as_table v ≫= tget k.

(** The value at a path of keys. *)
Fixpoint get_path (v : Toml) (p : list str) : option Toml :=
  match p with [] => Some v | k :: p => vget k v ≫= λ v, get_path v p end.

(** The keys of every table are distinct, which the [Map] type guarantees. *)
Fixpoint toml_wf (v : Toml) : Prop :=
  match v with
  | TArray l => foldr (λ v r, toml_wf v ∧ r) True l
  | TTable t => NoDup t.*1 ∧ foldr (λ e r, toml_wf e.2 ∧ r) True t
  | _ => True
  end.

Lemma toml_wf_array l : toml_wf (TArray l) ↔ Forall toml_wf l.
Proof. cbn. induction l as [|v l IH]; cbn; [by split; [constructor|]|]. by rewrite Forall_cons, IH. Qed.

Lemma toml_wf_table t : toml_wf (TTable t) ↔ NoDup t.*1 ∧ Forall (λ e, toml_wf e.2) t.
Proof.
  cbn. apply and_iff_compat_l. induction t as [|e t IH]; cbn; [by split; [constructor|]|]. by rewrite Forall_cons, IH.
Qed.

Lemma toml_wf_get k v t : toml_wf (TTable t) → tget k t = Some v → toml_wf v.
Proof. intros [_ Hf]%toml_wf_table Hk%tget_elem. by rewrite Forall_forall in Hf; apply (Hf _ Hk). Qed.

Lemma toml_wf_insert k v t : toml_wf (TTable t) → toml_wf v → toml_wf (TTable (tinsert k v t)).
Proof.
  intros [Hn Hf]%toml_wf_table Hv. apply toml_wf_table. split; [by apply NoDup_insert|].
  clear Hn. induction t as [|[k0 v0] t IH]; cbn; [by repeat constructor|].
  apply Forall_cons in Hf as [??]. case_bool_decide; constructor; auto.
Qed.

Lemma toml_wf_retain keep t : toml_wf (TTable t) → toml_wf (TTable (retain keep t)).
Proof.
  intros [Hn Hf]%toml_wf_table. apply toml_wf_table. split; [by apply NoDup_retain|].
  clear Hn. induction t as [|[k0 v0] t IH]; cbn; [done|]. apply Forall_cons in Hf as [??]. case_match; [constructor|]; auto.
Qed.

Lemma toml_wf_empty : toml_wf (TTable []).
Proof. by split; [constructor|]. Qed.

#[export] Hint Resolve toml_wf_empty toml_wf_insert toml_wf_retain : codex.

(** Nesting depth, the measure of recursions over a value. *)
Fixpoint depth (v : Toml) : nat :=
  match v with
  | TArray l => S (foldr (λ v n, Nat.max (depth v) n) 0 l)
  | TTable t => S (foldr (λ e n, Nat.max (depth e.2) n) 0 t)
  | _ => 1
  end.

Lemma depth_entry k v t : (k, v) ∈ t → depth v < depth (TTable t).
Proof.
  induction t as [|[k0 v0] t IH]; [by intros ?%not_elem_of_nil|].
  intros [[= <- <-]|Hin]%elem_of_cons; cbn [depth foldr snd]; [lia|]. specialize (IH Hin). cbn [depth] in IH. lia.
Qed.

Lemma depth_get k v t : tget k t = Some v → depth v < depth (TTable t).
Proof. intros ?%tget_elem. by eapply depth_entry. Qed.
