(* ===== verification/ConfigMerge.v ===== *)
(** config/src/merge.rs, key_aliases.rs and overrides.rs: how one configuration layer is laid over
    another. Aliased keys are renamed first; tables merge key by key and anything else replaces;
    a few places have rules of their own (the two forms of shell environment filters, features
    that are a switch or a table, host and pattern keys that ignore case, credential sources).
    [str::to_lowercase] and [cfg!(windows)] are parameters. *)
From S2P Require Import Prelude Str NetworkDomain TomlTable.

(** * Paths with rules of their own *)

Inductive FilterRepresentation := Filters | Legacy.

Definition SHELL_POLICY : str := lit "shell_environment_policy".
Definition FILTERS : str := lit "filters".
Definition EXCLUDE : str := lit "exclude".
Definition INCLUDE_ONLY : str := lit "include_only".
Definition ENABLED : str := lit "enabled".
Definition CREDENTIALS : str := lit "credentials".
Arguments SHELL_POLICY : simpl never.
Arguments FILTERS : simpl never.
Arguments EXCLUDE : simpl never.
Arguments INCLUDE_ONLY : simpl never.
Arguments ENABLED : simpl never.
Arguments CREDENTIALS : simpl never.

Definition from_policy_table (policy : list (str * Toml)) : option FilterRepresentation :=
  if contains_key FILTERS policy then Some Filters
  else if contains_key EXCLUDE policy || contains_key INCLUDE_ONLY policy then Some Legacy
  else None.
Definition from_policy (policy : Toml) : option FilterRepresentation := as_table policy ≫= from_policy_table.

Definition from_path (path : list str) : option FilterRepresentation :=
  match path with
  | policy :: field :: _ =>
      if policy =s SHELL_POLICY then
        if field =s FILTERS then Some Filters
        else if (field =s EXCLUDE) || (field =s INCLUDE_ONLY) then Some Legacy
        else None
      else None
  | _ => None
  end.

Definition from_edit (path : list str) (value : Toml) : option FilterRepresentation :=
  if path =s [SHELL_POLICY] then from_policy value else from_path path.

Definition displaced_fields (r : FilterRepresentation) : list str :=
  match r with Filters => [EXCLUDE; INCLUDE_ONLY] | Legacy => [FILTERS] end.

Definition STRUCTURED_FEATURES : list str := [lit "code_mode"; lit "multi_agent_v2"; lit "network_proxy"; lit "sleep_tool"].

Definition is_structured_feature (features feature : str) : bool :=
  (features =s lit "features") && bool_decide (feature ∈ STRUCTURED_FEATURES).

Definition is_structured_feature_path (path : list str) : bool :=
  match path with
  | [profiles; _; features; feature] => (profiles =s lit "profiles") && is_structured_feature features feature
  | [features; feature] => is_structured_feature features feature
  | _ => false
  end.

Definition is_shell_environment_filters_path (path : list str) : bool := path =s [SHELL_POLICY; FILTERS].

Definition is_network_domains_path (path : list str) : bool :=
  match path with
  | [permissions; _; network; domains] =>
      (permissions =s lit "permissions") && (network =s lit "network") && (domains =s lit "domains")
  | [application; network; domains] =>
      (application =s lit "application") && (network =s lit "network") && (domains =s lit "domains")
  | _ => false
  end.

(** [split_last] of a slice *)
Definition split_last {A} (l : list A) : option (A * list A) := (λ x, (x, removelast l)) <$> last l.

Definition is_credentials_path (path : list str) : bool :=
  match split_last path with
  | Some (field, feature_path) => (field =s CREDENTIALS) && is_structured_feature_path feature_path
  | None => false
  end.

Definition replace_shell_environment_policy_filter_representation (base overlay : Toml) (path : list str) : Toml :=
  if path =s [SHELL_POLICY] then
    match from_policy overlay, base with
    | Some overlay_representation, TTable base => TTable (foldl (λ base field, tremove field base) base (displaced_fields overlay_representation))
    | _, _ => base
    end
  else base.

(** * Key aliases *)

Record ConfigKeyAlias := mkAlias { alias_legacy : list str; alias_canonical : list str }.

Definition CONFIG_KEY_ALIASES : list ConfigKeyAlias :=
  [mkAlias [lit "tui"; lit "whimsy"] [lit "tui"; lit "effects"; lit "starfield"];
   mkAlias [lit "memories"; lit "no_memories_if_mcp_or_web_search"] [lit "memories"; lit "disable_on_external_context"];
   mkAlias [lit "agents"; lit "max_threads"] [lit "agents"; lit "max_concurrent_threads_per_session"]].

(** [slice::strip_prefix] *)
Fixpoint strip_list_prefix (p l : list str) : option (list str) :=
  match p, l with
  | [], _ => Some l
  | a :: p, b :: l => if a =s b then strip_list_prefix p l else None
  | _, _ => None
  end.

(** Insert below [parents] if absent; a parent that is not a table drops the value. *)
Fixpoint insert_if_absent (parents : list str) (key : str) (value : Toml) (destination : list (str * Toml)) : list (str * Toml) :=
  match parents with
  | [] => or_insert key value destination
  | parent :: parents =>
      match tget parent destination with
      | None => tinsert parent (TTable (insert_if_absent parents key value [])) destination
      | Some (TTable child) => tinsert parent (TTable (insert_if_absent parents key value child)) destination
      | Some _ => destination
      end
  end.

Definition normalize_alias (path : list str) (alias : ConfigKeyAlias) (table : list (str * Toml)) : list (str * Toml) :=
  match split_last (alias_legacy alias) with
  | None => table
  | Some (legacy_key, table_path) =>
      if path =s table_path then
        match strip_list_prefix table_path (alias_canonical alias), tget legacy_key table with
        | Some canonical_path, Some value =>
            let table := tremove legacy_key table in
            match split_last canonical_path with
            | None => table
            | Some (key, parents) => insert_if_absent parents key value table
            end
        | _, _ => table
        end
      else table
  end.

Definition normalize_table_key_aliases (path : list str) (table : list (str * Toml)) : list (str * Toml) :=
  foldl (λ table alias, normalize_alias path alias table) table CONFIG_KEY_ALIASES.

(** Is [path] a prefix of a legacy key's path? *)
Definition may_hold_alias (path : list str) : bool :=
  existsb (λ alias, (length path <=? length (alias_legacy alias)) && (path =s take (length path) (alias_legacy alias))) CONFIG_KEY_ALIASES.

Fixpoint normalize_key_aliases_at_path (value : Toml) (path : list str) : Toml :=
  if negb (may_hold_alias path) then value
  else match value with
  | TTable table =>
      TTable (normalize_table_key_aliases path
        (textend [] (map (λ e, (e.1, normalize_key_aliases_at_path e.2 (path ++ [e.1]))) table)))
  | TArray items => TArray (map (λ item, normalize_key_aliases_at_path item path) items)
  | _ => value
  end.

Definition normalize_key_aliases (value : Toml) : Toml := normalize_key_aliases_at_path value [].

Fixpoint normalize_base_key_aliases (overlay base : Toml) (path : list str) : Toml :=
  match base, overlay with
  | TTable base, TTable overlay =>
      TTable (foldl (λ base e,
        match tget e.1 base with
        | Some existing => tinsert e.1 (normalize_base_key_aliases e.2 existing (path ++ [e.1])) base
        | None => base
        end) (normalize_table_key_aliases path base) overlay)
  | _, _ => base
  end.

(** * Merging *)

(** Rebuild a table under changed keys: a later entry replaces an earlier one of the same key. *)
Definition normalize_keys {V} (f : str → str) (table : list (str * V)) : list (str * V) :=
  textend [] ((λ e, (f e.1, e.2)) <$> table).

Definition normalize_network_domain_keys (table : list (str * Toml)) : list (str * Toml) := normalize_keys normalize_host table.

Section Merge.
Context (to_lowercase : str → str) (windows : bool).

Definition normalize_case_insensitive_keys (table : list (str * Toml)) : list (str * Toml) := normalize_keys to_lowercase table.

Definition same_source (existing_source overlay_source : str) : bool :=
  (existing_source =s overlay_source) || windows && eq_ignore_ascii_case existing_source overlay_source.

Definition shares_source (existing_sources overlay_sources : list Toml) : bool :=
  existsb (λ e, existsb (λ o, same_source e o) (omap as_str overlay_sources)) (omap as_str existing_sources).

(** The sources a provider will read once the overlay is applied. *)
Definition provider_sources (overlay_table : list (str * Toml)) (existing_id : str) (existing : Toml) : option (list Toml) :=
  match tget existing_id overlay_table ≫= vget (lit "env") with
  | Some env => Some env
  | None => vget (lit "env") existing
  end ≫= as_array.

Definition release_credentials (base_table overlay_table : list (str * Toml)) : list (str * Toml) :=
  foldl (λ base_table e,
    match vget (lit "env") e.2 ≫= as_array with
    | None => base_table
    | Some overlay_sources =>
        retain (λ existing_id existing,
          (existing_id =s e.1)
          || negb (match provider_sources overlay_table existing_id existing with
                   | Some existing_sources => shares_source existing_sources overlay_sources
                   | None => false
                   end)) base_table
    end) base_table overlay_table.

(** What merging two tables at [path] does to them before it goes through the overlay's keys. *)
Definition prepare_tables (path : list str) (base_table overlay_table : list (str * Toml)) : list (str * Toml) * list (str * Toml) :=
  let '(base_table, overlay_table) :=
    if is_network_domains_path path then (normalize_network_domain_keys base_table, normalize_network_domain_keys overlay_table)
    else (base_table, overlay_table) in
  let '(base_table, overlay_table) :=
    if is_shell_environment_filters_path path then (normalize_case_insensitive_keys base_table, normalize_case_insensitive_keys overlay_table)
    else (base_table, overlay_table) in
  if is_credentials_path path then (release_credentials base_table overlay_table, overlay_table)
  else (base_table, overlay_table).

(** The loop over the overlay's keys, given the merge of values. *)
Definition merge_entries (merge : Toml → Toml → list str → Toml) (path : list str) (base_table overlay_table : list (str * Toml)) : list (str * Toml) :=
  foldl (λ base_table e,
    match tget e.1 base_table with
    | Some existing => tinsert e.1 (merge existing e.2 (path ++ [e.1])) base_table
    | None => tinsert e.1 e.2 base_table
    end) base_table overlay_table.

Definition merge_body (merge : Toml → Toml → list str → Toml) (base overlay : Toml) (path : list str) : Toml :=
  let base := replace_shell_environment_policy_filter_representation base overlay path in
  let merge_tables base :=
    match base, overlay with
    | TTable base_table, TTable overlay_table =>
        let '(base_table, overlay_table) := prepare_tables path base_table overlay_table in
        TTable (merge_entries merge path base_table overlay_table)
    | _, _ => overlay
    end in
  if is_structured_feature_path path then
    match base, overlay with
    | TBoolean enabled, TTable _ => merge_tables (TTable [(ENABLED, TBoolean enabled)])
    | TTable table, TBoolean enabled => TTable (tinsert ENABLED (TBoolean enabled) table)
    | _, _ => merge_tables base
    end
  else merge_tables base.

Fixpoint merge_fuel (fuel : nat) (base overlay : Toml) (path : list str) : Toml :=
  match fuel with
  | 0 => overlay
  | S fuel => merge_body (merge_fuel fuel) base overlay path
  end.

Definition merge_toml_values_at_path (base overlay : Toml) (path : list str) : Toml := merge_fuel (depth overlay) base overlay path.

Definition merge_toml_values (base overlay : Toml) : Toml :=
  let overlay := normalize_key_aliases overlay in
  let base := normalize_base_key_aliases overlay base [] in
  merge_toml_values_at_path base overlay [].

(** Looks up a filter pattern while ignoring case. *)
Definition shell_environment_filter_entry (root : Toml) (path : list str) : option (str * Toml) :=
  match path with
  | [policy; filters; pattern] =>
      if (policy =s SHELL_POLICY) && (filters =s FILTERS) then
        let pattern := to_lowercase pattern in
        match (vget policy root ≫= vget filters) ≫= as_table with
        | Some table => List.find (λ e, to_lowercase e.1 =s pattern) table
        | None => None
        end
      else None
  | _ => None
  end.

(** * Overrides from the command line *)

Definition switch_as_table (structured : bool) (v : Toml) : Toml :=
  match v with
  | TBoolean enabled => if structured then TTable [(ENABLED, TBoolean enabled)] else v
  | _ => v
  end.

(** The last segment of the path, in the table [current] is. *)
Definition set_last (segment : str) (traversed : list str) (value : Toml) (table : list (str * Toml)) : list (str * Toml) :=
  match (if is_structured_feature_path traversed then tget segment table else None), value with
  | Some (TTable feature), TBoolean enabled => tinsert segment (TTable (tinsert ENABLED (TBoolean enabled) feature)) table
  | Some (TBoolean enabled), TTable _ => tinsert segment (merge_toml_values (TTable [(ENABLED, TBoolean enabled)]) value) table
  | Some (TTable feature), TTable _ => tinsert segment (merge_toml_values (TTable feature) value) table
  | _, _ => tinsert segment value table
  end.

Fixpoint apply_segments (segments traversed : list str) (value current : Toml) : Toml :=
  match segments with
  | [] => current
  | [segment] =>
      match current with
      | TTable table => TTable (set_last segment (traversed ++ [segment]) value table)
      | _ => TTable [(segment, value)]
      end
  | segment :: segments =>
      let traversed := traversed ++ [segment] in
      match current with
      | TTable table =>
          let child := default (TTable []) (tget segment table) in
          let child := switch_as_table (is_structured_feature_path traversed) child in
          TTable (tinsert segment (apply_segments segments traversed value child) table)
      | _ => TTable [(segment, apply_segments segments traversed value (TTable []))]
      end
  end.

Definition DOT : N := 46.

Definition apply_toml_override (root : Toml) (path : str) (value : Toml) : Toml :=
  apply_segments (split_by (N.eqb DOT) path) [] value root.

Definition default_empty_table : Toml := TTable [].

Definition build_cli_overrides_layer (cli_overrides : list (str * Toml)) : Toml :=
  foldl (λ root o, apply_toml_override root o.1 o.2) default_empty_table cli_overrides.
End Merge.
