(* ===== verification/ConfigSeen.v ===== *)
(** What a stack of configuration layers means, setting by setting. [seen] is what one layer says
    about the setting at a path: nothing, a value, that there is a table, or that nothing is there.
    The reference reading of several layers is that the newest layer that says anything decides;
    the merge of config/src/merge.rs is shown to compute it.

    Then the key aliases of config/src/key_aliases.rs: normalising a layer leaves no legacy key, a table
    that holds none is left alone, so the layers of a stack merge as if they had been written with the
    canonical keys. Last the settings given on the command line (config/src/overrides.rs): each override
    sets the value at its dotted path and leaves every other setting as it was, so of several the last one
    at a path wins. *)
From S2P Require Import Prelude Str NetworkDomain TomlTable ConfigMerge.

(** * The reference reading *)

Inductive Seen :=
| Absent
| Blocked
| Leaf (v : Toml)
| Node.

(** The table a value stands for: a feature that is only a switch stands for its [enabled] field. *)
Definition as_settings (path : list str) (v : Toml) : option (list (str * Toml)) :=
  match v with
  | TTable t => Some t
  | TBoolean b => if is_structured_feature_path path then Some [(ENABLED, v)] else None
  | _ => None
  end.

(** A policy in one form says that the fields of the other form are gone. *)
Definition displaces (path : list str) (t : list (str * Toml)) (k : str) : bool :=
  (path =s [SHELL_POLICY]) && match from_policy_table t with Some r => bool_decide (k ∈ displaced_fields r) | None => false end.

Fixpoint seen (path : list str) (v : Toml) (p : list str) : Seen :=
  match p with
  | [] => match as_settings path v with Some _ => Node | None => Leaf v end
  | k :: p =>
      match as_settings path v with
      | None => Blocked
      | Some t =>
          match tget k t with
          | Some v => seen (path ++ [k]) v p
          | None => if displaces path t k then Blocked else Absent
          end
      end
  end.

(** What a reader finds: nothing, a table, or a value. *)
Definition found (s : Seen) : option (option Toml) :=
  match s with Absent | Blocked => None | Node => Some None | Leaf v => Some (Some v) end.

(** One layer over what lies below. *)
Definition over (top below : Seen) : Seen := match top with Absent => below | _ => top end.

(** Tables whose keys have rules of their own. *)
Definition own_keys (path : list str) : bool :=
  is_network_domains_path path || is_shell_environment_filters_path path || is_credentials_path path
  || (path =s [SHELL_POLICY; EXCLUDE]) || (path =s [SHELL_POLICY; INCLUDE_ONLY]).

Fixpoint regular (path p : list str) : bool :=
  match p with [] => true | k :: p => negb (own_keys path) && regular (path ++ [k]) p end.

(** * The merge, as equations *)

Section Merge.
Context (to_lowercase : str → str) (windows : bool).
Notation merge_at := (merge_toml_values_at_path to_lowercase windows).
Notation merge_fuel := (merge_fuel to_lowercase windows).
Notation merge_body := (merge_body to_lowercase windows).
Notation prepare_tables := (prepare_tables to_lowercase windows).

Lemma extend_elem {V} (t l : list (str * V)) k v : (k, v) ∈ textend t l → (k, v) ∈ t ∨ ∃ k', (k', v) ∈ l.
Proof.
  unfold textend. revert t. induction l as [|[k0 v0] l IH]; intros t; cbn; [by left|].
  intros [Hin|[k' Hin]]%IH; [|right; exists k'; set_solver].
  enough ((k, v) ∈ t ∨ v = v0) as [|[= ->]]; [by left|right; exists k0; set_solver|].
  clear IH. induction t as [|[k1 v1] t IH]; cbn in Hin; [set_solver|]. case_bool_decide; set_solver.
Qed.

Lemma normalize_keys_elem f (t : list (str * Toml)) k v : (k, v) ∈ normalize_keys f t → ∃ k', (k', v) ∈ t.
Proof.
  intros [?%not_elem_of_nil|(k' & Hin)]%extend_elem; [done|].
  apply list_elem_of_fmap in Hin as ([k0 v0] & [= -> ->] & Hin). by exists k0.
Qed.

Lemma prepare_elem path b o k v : (k, v) ∈ (prepare_tables path b o).2 → ∃ k', (k', v) ∈ o.
Proof.
  unfold prepare_tables. intros Hin.
  repeat (case_match; simplify_eq/=); eauto;
    repeat match goal with H : (_, _) ∈ normalize_keys _ _ |- _ => apply normalize_keys_elem in H as [??] | H : (_, _) ∈ normalize_network_domain_keys _ |- _ => apply normalize_keys_elem in H as [??] | H : (_, _) ∈ normalize_case_insensitive_keys _ _ |- _ => apply normalize_keys_elem in H as [??] end; eauto.
Qed.

Lemma merge_entries_ext m1 m2 path b o :
  (∀ k v e p, (k, v) ∈ o → m1 e v p = m2 e v p) → merge_entries m1 path b o = merge_entries m2 path b o.
Proof.
  unfold merge_entries. revert b. induction o as [|[k v] o IH]; [done|]. intros b Hm. cbn.
  rewrite IH by (intros k' v' e p Hin; apply (Hm k'); by apply elem_of_cons; right).
  destruct (tget k b); [|done]. by rewrite (Hm k) by apply elem_of_cons, or_introl, eq_refl.
Qed.

Lemma merge_body_ext m1 m2 base overlay path :
  (∀ v e p, depth v < depth overlay → m1 e v p = m2 e v p) → merge_body m1 base overlay path = merge_body m2 base overlay path.
Proof.
  intros Hm. unfold merge_body.
  assert (∀ b o b' o', overlay = TTable o → prepare_tables path b o = (b', o') →
    merge_entries m1 path b' o' = merge_entries m2 path b' o') as He.
  { intros b o b' o' -> Hp. pose proof (prepare_elem path b o) as Hin. rewrite Hp in Hin.
    apply merge_entries_ext. intros k v e p [k' ?]%Hin. apply Hm. by eapply depth_entry. }
  repeat (case_match; try done); subst; f_equal; eauto.
Qed.

Lemma merge_fuel_enough n base overlay path : depth overlay ≤ n → merge_fuel n base overlay path = merge_at base overlay path.
Proof.
  unfold merge_toml_values_at_path.
  enough (∀ d n m base overlay path, depth overlay ≤ d → depth overlay ≤ n → depth overlay ≤ m →
    merge_fuel n base overlay path = merge_fuel m base overlay path) as He by (intros; eapply He; eauto).
  induction d as [|d IH]; intros n' m base' overlay' path' Hd Hn Hm.
  - exfalso. assert (0 < depth overlay') by (destruct overlay'; cbn; lia). lia.
  - assert (0 < depth overlay') by (destruct overlay'; cbn; lia).
    destruct n' as [|n'], m as [|m]; try lia. cbn. apply merge_body_ext. intros. apply IH; lia.
Qed.

(** The recursion of the code, without fuel. *)
Lemma merge_eq base overlay path : merge_at base overlay path = merge_body merge_at base overlay path.
Proof.
  rewrite <- (merge_fuel_enough (S (depth overlay))) by lia. cbn.
  apply merge_body_ext. intros. apply merge_fuel_enough. lia.
Qed.

Lemma tget_merge_entries m path b o k : NoDup o.*1 →
  tget k (merge_entries m path b o)
  = match tget k o with
    | None => tget k b
    | Some v => match tget k b with None => Some v | Some e => Some (m e v (path ++ [k])) end
    end.
Proof.
  unfold merge_entries. revert b. induction o as [|[k0 v0] o IH]; [done|]. intros b. cbn.
  intros [Hk Hn]%NoDup_cons. rewrite IH by done. case_bool_decide; subst.
  - apply tget_None in Hk. rewrite Hk. destruct (tget k b); by rewrite tget_insert_eq.
  - by destruct (tget k0 b); rewrite tget_insert_ne.
Qed.

Lemma prepare_plain path b o : own_keys path = false → prepare_tables path b o = (b, o).
Proof. unfold own_keys, prepare_tables. intros. bool_facts. by repeat (case_match; simplify_eq/=). Qed.

(** * The merge computes the reference reading *)

Lemma structured_child path k : is_structured_feature_path path = true → is_structured_feature_path (path ++ [k]) = false.
Proof. by destruct path as [|a [|b [|c [|d [|e path]]]]]. Qed.

Lemma structured_not_policy path : is_structured_feature_path path = true → path ≠ [SHELL_POLICY].
Proof. by intros Hs ->. Qed.

Lemma from_policy_displaces path o k :
  displaces path o k = (path =s [SHELL_POLICY]) && match from_policy (TTable o) with Some r => bool_decide (k ∈ displaced_fields r) | None => false end.
Proof. done. Qed.

Lemma tget_remove_all k fields t :
  tget k (foldl (λ t f, tremove f t) t fields) = if bool_decide (k ∈ fields) then None else tget k (V := Toml) t.
Proof.
  revert t. induction fields as [|f fields IH]; intros t; [done|]. cbn. rewrite IH, tget_remove.
  repeat case_bool_decide; try done; set_solver.
Qed.

Lemma replace_get path b o :
  ∃ t, replace_shell_environment_policy_filter_representation (TTable b) (TTable o) path = TTable t
    ∧ ∀ k, tget k t = if displaces path o k then None else tget k b.
Proof.
  unfold replace_shell_environment_policy_filter_representation. setoid_rewrite from_policy_displaces.
  destruct (path =s [SHELL_POLICY]); [|by exists b].
  destruct (from_policy (TTable o)) as [r|]; [|by exists b].
  eexists. split; [done|]. intros k. rewrite tget_remove_all. done.
Qed.

Lemma replace_same path base overlay : is_table base = false ∨ is_table overlay = false →
  replace_shell_environment_policy_filter_representation base overlay path = base.
Proof.
  intros Ht. unfold replace_shell_environment_policy_filter_representation. case_match; [|done].
  destruct overlay; try done. destruct (from_policy _); [|done]. destruct base; try done. by destruct Ht.
Qed.

Lemma merge_boolean base b path : is_structured_feature_path path = false → merge_at base (TBoolean b) path = TBoolean b.
Proof. intros Hs. rewrite merge_eq. unfold merge_body. rewrite Hs. by destruct (replace_shell_environment_policy_filter_representation _ _ _). Qed.

(** What the base offers a merge at a key. *)
Definition offered (path : list str) (base : Toml) (o : list (str * Toml)) (k : str) : option Toml :=
  if displaces path o k then None else as_settings path base ≫= tget k.

Definition merges_to (path : list str) (base : Toml) (o t : list (str * Toml)) : Prop :=
  ∀ k, tget k t = match tget k o with
    | None => offered path base o k
    | Some v => match offered path base o k with None => Some v | Some e => Some (merge_at e v (path ++ [k])) end
    end.

Lemma merge_scalar base overlay path : as_settings path overlay = None → merge_at base overlay path = overlay.
Proof.
  intros Hs. rewrite merge_eq. unfold merge_body. destruct overlay; try done; cbn in Hs; repeat case_match; done.
Qed.

Lemma merge_switch base b path : is_structured_feature_path path = true →
  ∃ t, as_settings path (merge_at base (TBoolean b) path) = Some t ∧ merges_to path base [(ENABLED, TBoolean b)] t.
Proof.
  intros Hs. pose proof (structured_not_policy path Hs) as Hp.
  assert (∀ t, (∀ k, tget k t = if ENABLED =s k then Some (TBoolean b) else as_settings path base ≫= tget k) →
    merges_to path base [(ENABLED, TBoolean b)] t) as Hto.
  { intros t Ht k. rewrite Ht. unfold offered, displaces. rewrite (bool_decide_false (path = _)) by done. cbn.
    case_bool_decide; [|done]. subst. destruct (as_settings path base ≫= tget _); [|done].
    rewrite merge_boolean; [done|]. by apply structured_child. }
  rewrite merge_eq. unfold merge_body. rewrite Hs, replace_same by (by right).
  destruct base as [| | |b0| | |tb]; cbn; rewrite ?Hs; (eexists; split; [done|]; apply Hto; intros k; cbn; rewrite ?Hs; cbn).
  all: try by destruct (ENABLED =s k).
  by rewrite tget_insert.
Qed.

Lemma merge_tables_get base o path :
  own_keys path = false → NoDup o.*1 →
  ∃ t, as_settings path (merge_at base (TTable o) path) = Some t ∧ merges_to path base o t.
Proof.
  intros Hk Hn. rewrite merge_eq. unfold merge_body.
  destruct base as [| | |b0| | |tb];
    try (exists o; split; [by rewrite replace_same by (by left); case_match|]; intros k; unfold offered; cbn; destruct (tget k o), (displaces path o k); done).
  - rewrite replace_same by (by left). destruct (is_structured_feature_path path) eqn:Hs.
    + rewrite prepare_plain by done. eexists. split; [done|]. intros k. rewrite tget_merge_entries by done.
      unfold offered, displaces. rewrite (bool_decide_false (path = _)) by (by apply structured_not_policy). cbn. by rewrite Hs.
    + exists o. split; [done|]. intros k. unfold offered. cbn. rewrite Hs. destruct (tget k o), (displaces path o k); done.
  - destruct (replace_get path tb o) as (t & -> & Ht). rewrite prepare_plain by done.
    eexists. split; [by case_match|]. intros k. rewrite tget_merge_entries by done. unfold offered. by rewrite Ht.
Qed.

Lemma merge_settings base overlay path o :
  own_keys path = false → toml_wf overlay → as_settings path overlay = Some o →
  ∃ t, as_settings path (merge_at base overlay path) = Some t ∧ merges_to path base o t.
Proof.
  intros Hk Hw Ho. destruct overlay as [| | |b| | |o']; try done; cbn in Ho.
  - destruct (is_structured_feature_path path) eqn:Hs; simplify_eq. by apply merge_switch.
  - simplify_eq. apply merge_tables_get; [done|]. by apply toml_wf_table in Hw as [? _].
Qed.

Lemma displaced_fields_own o k : displaces [SHELL_POLICY] o k = true → tget k o = None ∨ own_keys ([SHELL_POLICY] ++ [k]) = true.
Proof.
  unfold displaces, own_keys, is_shell_environment_filters_path.
  destruct (from_policy_table o) as [[]|] eqn:Hr; cbn; [| |done].
  - intros Hk%bool_decide_eq_true. right. apply elem_of_cons in Hk as [->|Hk]; [|apply list_elem_of_singleton in Hk as ->]; reflexivity.
  - intros ->%bool_decide_eq_true%list_elem_of_singleton. by right.
Qed.

Lemma found_missing path t k : found (if displaces path t k then Blocked else Absent) = None.
Proof. by case_match. Qed.

Lemma merge_stays_settings base overlay path o :
  as_settings path overlay = Some o → is_Some (as_settings path (merge_at base overlay path)).
Proof.
  intros Ho. rewrite merge_eq. unfold merge_body.
  destruct overlay as [| | |b| | |o']; try done; cbn in Ho.
  - destruct (is_structured_feature_path path) eqn:Hs; [|done]. case_match; cbn; rewrite ?Hs; done.
  - repeat case_match; done.
Qed.

Lemma found_below path base k p :
  as_settings path base ≫= tget k = None → found (seen path base (k :: p)) = None.
Proof. cbn. destruct (as_settings path base) as [t|]; cbn; [|done]. intros ->. apply found_missing. Qed.

Lemma seen_here path v : seen path v [] ≠ Absent.
Proof. cbn. by case_match. Qed.

Lemma merge_seen_missing p path base o k v :
  regular (path ++ [k]) p = true → tget k o = Some v → offered path base o k = None →
  found (seen (path ++ [k]) v p) = found (over (seen (path ++ [k]) v p) (seen path base (k :: p))).
Proof.
  intros Hr Hv Hb. destruct (seen (path ++ [k]) v p) eqn:Hs; try done. cbn [over found]. symmetry.
  unfold offered in Hb. destruct (displaces path o k) eqn:Hd; [|by apply found_below].
  assert (path = [SHELL_POLICY]) as -> by (unfold displaces in Hd; by bool_facts).
  destruct p as [|k' p]; [by apply seen_here in Hs|].
  apply displaced_fields_own in Hd as [|Hd]; [congruence|]. cbn [regular] in Hr. by rewrite Hd in Hr.
Qed.

(** Merging an overlay gives the reader, at every regular path, what the overlay says there, and
    where it says nothing what the base holds. *)
Lemma merge_seen p path base overlay :
  toml_wf overlay → regular path p = true →
  found (seen path (merge_at base overlay path) p) = found (over (seen path overlay p) (seen path base p)).
Proof.
  revert path base overlay. induction p as [|k p IH]; intros path base overlay Hw Hr.
  - cbn. destruct (as_settings path overlay) as [o|] eqn:Ho.
    + by destruct (merge_stays_settings base overlay path o Ho) as [? ->].
    + by rewrite merge_scalar, Ho by done.
  - cbn [regular] in Hr. apply andb_true_iff in Hr as [Hk%negb_true_iff Hr].
    destruct (as_settings path overlay) as [o|] eqn:Ho; cbn [seen]; [|by rewrite merge_scalar, Ho].
    destruct (merge_settings base overlay path o Hk Hw Ho) as (t & Hm & Ht). rewrite Hm, (Ht k), Ho.
    destruct (tget k o) as [v|] eqn:Hv.
    + destruct (offered path base o k) as [e|] eqn:He; [|by eapply merge_seen_missing].
      unfold offered in He. destruct (displaces path o k); [done|].
      destruct (as_settings path base) as [tb|]; [|done]. cbn in He. rewrite He. apply IH; [|done].
      destruct overlay; try done; cbn in Ho; [case_match; simplify_eq; cbn in Hv; by case_match; simplify_eq|].
      simplify_eq. by eapply toml_wf_get.
    + unfold offered. destruct (displaces path o k); [apply found_missing|]. cbn [over].
      destruct (as_settings path base) as [tb|]; cbn; [|apply found_missing].
      destruct (tget k tb); [done|]. by rewrite !found_missing.
Qed.
End Merge.

(** * Key aliases *)

Ltac each_alias Ha :=
  apply elem_of_cons in Ha as [->|Ha]; [|apply elem_of_cons in Ha as [->|Ha]; [|apply list_elem_of_singleton in Ha as ->]].

(** No legacy key below [path]. *)
Definition alias_free_at (path : list str) (v : Toml) : Prop :=
  ∀ a rest, a ∈ CONFIG_KEY_ALIASES → alias_legacy a = path ++ rest → rest ≠ [] → get_path v rest = None.
Definition alias_free (v : Toml) : Prop := Forall (λ a, get_path v (alias_legacy a) = None) CONFIG_KEY_ALIASES.

Lemma alias_free_root v : alias_free_at [] v ↔ alias_free v.
Proof.
  unfold alias_free, alias_free_at. rewrite Forall_forall. split.
  - intros Hv a Ha. apply (Hv a); [done..|]. by each_alias Ha.
  - intros Hv a rest Ha Hl _. cbn in Hl. subst rest. by apply Hv.
Qed.

Lemma alias_free_child path t k v : alias_free_at path (TTable t) → tget k t = Some v → alias_free_at (path ++ [k]) v.
Proof.
  intros Hf Hk a rest Ha Hl Hr. specialize (Hf a (k :: rest) Ha). rewrite <- app_assoc in Hl.
  specialize (Hf Hl). cbn in Hf. rewrite Hk in Hf. by apply Hf.
Qed.

Lemma normalize_alias_elsewhere path a t :
  (∀ k p, split_last (alias_legacy a) = Some (k, p) → path = p → tget k t = None) → normalize_alias path a t = t.
Proof.
  intros Hn. unfold normalize_alias. destruct (split_last _) as [[k p]|]; [|done].
  case_bool_decide; [|done]. rewrite (Hn k p) by done. by case_match.
Qed.

Lemma alias_split a k p : a ∈ CONFIG_KEY_ALIASES → split_last (alias_legacy a) = Some (k, p) → alias_legacy a = p ++ [k].
Proof.
  intros Ha Hs. each_alias Ha.
  all: vm_compute in Hs; injection Hs as <- <-; reflexivity.
Qed.

Lemma normalize_table_free path t : alias_free_at path (TTable t) → normalize_table_key_aliases path t = t.
Proof.
  intros Hf. unfold normalize_table_key_aliases.
  enough (∀ l, (∀ a, a ∈ l → a ∈ CONFIG_KEY_ALIASES) → foldl (λ t a, normalize_alias path a t) t l = t) as He by by apply He.
  induction l as [|a l IH]; [done|]. intros Hl. cbn. rewrite normalize_alias_elsewhere; [apply IH; set_solver|].
  intros k p Hs ->. assert (a ∈ CONFIG_KEY_ALIASES) as Ha by set_solver.
  specialize (Hf a [k] Ha (alias_split _ _ _ Ha Hs)). cbn in Hf. destruct (tget k t); naive_solver.
Qed.

Lemma tinsert_same {V} k (v : V) t : tget k t = Some v → tinsert k v t = t.
Proof.
  induction t as [|[k0 v0] t IH]; cbn; [done|]. case_bool_decide; [by intros [= ->]|]. intros. by rewrite IH.
Qed.

(** A base without legacy keys is left alone. *)
Lemma normalize_base_free overlay base path : alias_free_at path base → normalize_base_key_aliases overlay base path = base.
Proof.
  revert base path. induction overlay as [v Hv|l _|o IH] using toml_ind'; intros base path Hf.
  { by destruct v, base. }
  { by destruct base. }
  destruct base as [| | | | | |b]; try done. cbn [normalize_base_key_aliases]. f_equal. rewrite normalize_table_free by done.
  induction IH as [|[k v] o Hv _ IH]; [done|]. cbn. destruct (tget k b) as [e|] eqn:Hk; [|done].
  cbn in Hv. rewrite Hv by by eapply alias_free_child. by rewrite tinsert_same.
Qed.

(** * Normalising a layer *)

Lemma insert_if_absent_other parents key v t k :
  k ≠ default key (head parents) → tget k (insert_if_absent parents key v t) = tget k t.
Proof.
  intros Hk. destruct parents as [|p parents]; cbn in *.
  - by rewrite tget_or_insert, bool_decide_false by done.
  - repeat case_match; try done; by rewrite tget_insert_ne.
Qed.

Lemma normalize_alias_other path a t : path ≠ removelast (alias_legacy a) → normalize_alias path a t = t.
Proof.
  intros Hp. unfold normalize_alias, split_last. destruct (last (alias_legacy a)); cbn; [|done].
  by rewrite bool_decide_false.
Qed.

(** The key an alias removes is not put back by it. *)
Lemma normalize_alias_removes a t k p : a ∈ CONFIG_KEY_ALIASES → split_last (alias_legacy a) = Some (k, p) →
  tget k (normalize_alias p a t) = None.
Proof.
  intros Ha Hs. unfold normalize_alias. rewrite Hs, bool_decide_true by done.
  each_alias Ha.
  all: cbn [alias_legacy alias_canonical] in *; unfold split_last in Hs; cbn [last fmap option_fmap option_map removelast] in Hs; simplify_eq.
  all: cbn [strip_list_prefix]; rewrite bool_decide_true by done; cbn [strip_list_prefix].
  all: match goal with |- tget ?k match tget ?k ?t with _ => _ end = _ => destruct (tget k t) eqn:Hk; [|done] end.
  all: cbn [split_last last fmap option_fmap option_map removelast]; rewrite insert_if_absent_other by done.
  all: by rewrite tget_remove, bool_decide_true.
Qed.

Lemma normalize_table_root t : normalize_table_key_aliases [] t = t.
Proof. reflexivity. Qed.

Lemma normalize_table_removes a t k p : a ∈ CONFIG_KEY_ALIASES → split_last (alias_legacy a) = Some (k, p) →
  tget k (normalize_table_key_aliases p t) = None.
Proof.
  intros Ha Hs. pose proof (normalize_alias_removes a) as Hr. unfold normalize_table_key_aliases, CONFIG_KEY_ALIASES.
  cbn [foldl]. pose proof Ha as Ha'.
  each_alias Ha.
  all: pose proof (alias_split _ _ _ Ha' Hs) as Hl; destruct p as [|x [|y p]]; [by simplify_eq/=| |by destruct p; simplify_eq/=].
  all: cbn in Hl; injection Hl as <- <-.
  - rewrite !(normalize_alias_other _ (mkAlias [_; lit "max_threads"] _)), !(normalize_alias_other _ (mkAlias [_; lit "no_memories_if_mcp_or_web_search"] _)) by done.
    by apply Hr.
  - rewrite !(normalize_alias_other _ (mkAlias [_; lit "max_threads"] _)) by done. by apply Hr.
  - by apply Hr.
Qed.

Lemma may_hold_prefix a path rest : a ∈ CONFIG_KEY_ALIASES → alias_legacy a = path ++ rest → may_hold_alias path = true.
Proof.
  intros Ha Hl. apply existsb_exists. exists a. rewrite <- list_elem_of_In. split; [done|]. rewrite Hl.
  apply andb_true_iff. split; [apply Nat.leb_le; rewrite length_app; lia|].
  apply bool_decide_eq_true. by rewrite take_app_length.
Qed.

(** The entries of a table, their values normalised. *)
Definition normalized_entries (path : list str) (t : list (str * Toml)) : list (str * Toml) :=
  textend [] (map (λ e, (e.1, normalize_key_aliases_at_path e.2 (path ++ [e.1]))) t).

Lemma normalize_table_eq t path : may_hold_alias path = true →
  normalize_key_aliases_at_path (TTable t) path = TTable (normalize_table_key_aliases path (normalized_entries path t)).
Proof. intros Hm. cbn [normalize_key_aliases_at_path]. by rewrite Hm. Qed.

Lemma keys_map (f : str * Toml → Toml) (t : list (str * Toml)) : (map (λ e, (e.1, f e)) t).*1 = t.*1.
Proof. induction t as [|e t IH]; cbn; [done|]. by f_equal. Qed.

Lemma tget_map (f : str → Toml → Toml) k t : tget k (map (λ e, (e.1, f e.1 e.2)) t) = f k <$> tget k t.
Proof. induction t as [|[k0 v0] t IH]; cbn; [done|]. case_bool_decide; by subst. Qed.

Lemma tget_normalized path k t : NoDup t.*1 →
  tget k (normalized_entries path t) = (λ v, normalize_key_aliases_at_path v (path ++ [k])) <$> tget k t.
Proof.
  intros Hn. unfold normalized_entries. rewrite tget_extend by by rewrite keys_map.
  rewrite (tget_map (λ k v, normalize_key_aliases_at_path v (path ++ [k]))). by destruct (tget k t).
Qed.

Lemma legacy_length a : a ∈ CONFIG_KEY_ALIASES → length (alias_legacy a) = 2.
Proof. intros Ha. by each_alias Ha. Qed.

Lemma normalize_alias_free v path : toml_wf v → alias_free_at path (normalize_key_aliases_at_path v path).
Proof.
  revert path. induction v as [v Hv|l _|t IH] using toml_ind'; intros path Hw a [|k rest] Ha Hl Hr; try done.
  { destruct v; try done; cbn; by case_match. }
  { cbn. by case_match. }
  rewrite normalize_table_eq by by eapply may_hold_prefix. cbn [get_path vget as_table mbind option_bind].
  apply toml_wf_table in Hw as [Hn Hw]. destruct rest as [|k' rest].
  - rewrite (normalize_table_removes a _ k path); [done..|]. unfold split_last. rewrite Hl, last_snoc. cbn. by rewrite removelast_snoc.
  - pose proof (legacy_length a Ha) as H2. rewrite Hl, length_app in H2. cbn in H2.
    assert (path = []) as -> by (destruct path; cbn in *; [done|lia]). rewrite normalize_table_root, tget_normalized by done.
    destruct (tget k t) as [c|] eqn:Hk; [|done]. cbn. apply tget_elem in Hk.
    rewrite Forall_forall in IH, Hw. by apply (IH _ Hk [k] (Hw _ Hk) a (k' :: rest)).
Qed.

(** * Well-formed tables stay so *)

Lemma toml_wf_or_insert k v t : toml_wf (TTable t) → toml_wf v → toml_wf (TTable (or_insert k v t)).
Proof. unfold or_insert. case_match; [done|]. apply toml_wf_insert. Qed.

Lemma toml_wf_insert_if_absent parents key v t :
  toml_wf (TTable t) → toml_wf v → toml_wf (TTable (insert_if_absent parents key v t)).
Proof.
  revert t. induction parents as [|p parents IH]; intros t Ht Hv; cbn [insert_if_absent]; [by apply toml_wf_or_insert|].
  destruct (tget p t) as [c|] eqn:Hp.
  - pose proof (toml_wf_get _ _ _ Ht Hp). destruct c; try done. apply toml_wf_insert; [done|]. by apply IH.
  - apply toml_wf_insert; [done|]. apply IH; [apply toml_wf_empty|done].
Qed.

Lemma toml_wf_normalize_table path t : toml_wf (TTable t) → toml_wf (TTable (normalize_table_key_aliases path t)).
Proof.
  unfold normalize_table_key_aliases. generalize CONFIG_KEY_ALIASES as l. intros l. revert t.
  induction l as [|a l IH]; intros t Ht; [done|]. apply IH. unfold normalize_alias.
  repeat case_match; try done; [apply toml_wf_insert_if_absent|]; try by apply toml_wf_retain. by eapply toml_wf_get.
Qed.

Lemma toml_wf_extend t l : toml_wf (TTable t) → Forall (λ e, toml_wf e.2) l → toml_wf (TTable (textend t l)).
Proof.
  unfold textend. intros Ht Hl. revert t Ht. induction Hl as [|e l He _ IH]; intros t Ht; [done|]. by apply IH, toml_wf_insert.
Qed.

Lemma toml_wf_normalize v path : toml_wf v → toml_wf (normalize_key_aliases_at_path v path).
Proof.
  revert path. induction v as [v Hv|l IH|t IH] using toml_ind'; intros path Hw.
  - destruct v; try done; cbn; by case_match.
  - cbn [normalize_key_aliases_at_path]. case_match; [done|]. rewrite toml_wf_array in Hw |- *.
    induction IH as [|v l Hv _ IHl]; [constructor|]. apply Forall_cons in Hw as [? Hw]. constructor; auto.
  - destruct (may_hold_alias path) eqn:Hm; [|cbn [normalize_key_aliases_at_path]; by rewrite Hm].
    rewrite normalize_table_eq by done. apply toml_wf_normalize_table. unfold normalized_entries.
    apply toml_wf_extend; [apply toml_wf_empty|]. apply toml_wf_table in Hw as [_ Hw].
    induction IH as [|e t He _ IHt]; [constructor|]. apply Forall_cons in Hw as [? Hw]. constructor; [by apply He|by apply IHt].
Qed.

(** * Settings of the command line *)

(** Neither path lies above the other. *)
Fixpoint diverge (q p : list str) : bool :=
  match q, p with
  | k :: q, k' :: p => if k =s k' then diverge q p else true
  | _, _ => false
  end.

Definition segments (path : str) : list str := split_by (N.eqb DOT) path.

Lemma segments_nonempty path : segments path ≠ [].
Proof. unfold segments. destruct path as [|c path]; [done|]. cbn [split_by]. destruct (N.eqb DOT c); [done|]. by destruct (split_by _ path). Qed.

Section Overrides.
Context (to_lowercase : str → str) (windows : bool).
Notation apply_segments := (apply_segments to_lowercase windows).
Notation apply := (apply_toml_override to_lowercase windows).
Notation set_last := (set_last to_lowercase windows).

Lemma set_last_plain segment traversed value table : is_structured_feature_path traversed = false →
  set_last segment traversed value table = tinsert segment value table.
Proof. intros Hs. unfold set_last. by rewrite Hs. Qed.

Lemma set_last_other segment traversed value table k : k ≠ segment → tget k (set_last segment traversed value table) = tget k table.
Proof. intros Hk. unfold set_last. repeat case_match; by rewrite tget_insert_ne. Qed.

Lemma apply_below s s' segs traversed value current :
  apply_segments (s :: s' :: segs) traversed value current
  = match current with
    | TTable t => TTable (tinsert s (apply_segments (s' :: segs) (traversed ++ [s]) value
        (switch_as_table (is_structured_feature_path (traversed ++ [s])) (default (TTable []) (tget s t)))) t)
    | _ => TTable [(s, apply_segments (s' :: segs) (traversed ++ [s]) value (TTable []))]
    end.
Proof. done. Qed.

Lemma apply_sets segs traversed value current r : segs ≠ [] → is_structured_feature_path (traversed ++ segs) = false →
  seen traversed (apply_segments segs traversed value current) (segs ++ r) = seen (traversed ++ segs) value r.
Proof.
  revert traversed current. induction segs as [|s segs IH]; intros traversed current Hne Hs; [done|].
  destruct segs as [|s' segs].
  - cbn [ConfigMerge.apply_segments app].
    destruct current; cbn [seen as_settings]; rewrite ?set_last_plain, ?tget_cons_self, ?tget_insert_eq by done; done.
  - assert (traversed ++ s :: s' :: segs = (traversed ++ [s]) ++ s' :: segs) as Ht by by rewrite <- app_assoc.
    rewrite Ht in Hs |- *. rewrite <- (IH (traversed ++ [s]) (match current with TTable t => switch_as_table (is_structured_feature_path (traversed ++ [s])) (default (TTable []) (tget s t)) | _ => TTable [] end)) by done.
    rewrite apply_below. destruct current; cbn [app seen as_settings]; rewrite ?tget_cons_self, ?tget_insert_eq; done.
Qed.

(** A value that is a table wherever a reader would take it for one. *)
Definition plain_at (path : list str) (v : Toml) : Prop := as_settings path v = as_table v.

Lemma plain_switch path v : plain_at path (switch_as_table (is_structured_feature_path path) v).
Proof. unfold plain_at. destruct v; cbn; try done. by destruct (is_structured_feature_path path) eqn:Hs; cbn; rewrite ?Hs. Qed.

Lemma seen_switch_table path v k q : seen path (switch_as_table (is_structured_feature_path path) v) (k :: q) = seen path v (k :: q).
Proof. destruct v; try done. cbn [switch_as_table]. destruct (is_structured_feature_path path) eqn:Hs; [|done]. cbn [seen as_settings]. by rewrite Hs. Qed.

Lemma seen_same_key path t t' k q : tget k t = tget k t' →
  found (seen path (TTable t) (k :: q)) = found (seen path (TTable t') (k :: q)).
Proof. intros Ht. cbn [seen as_settings]. rewrite Ht. destruct (tget k t'); [done|]. by rewrite !found_missing. Qed.

Lemma seen_key path t k q v : tget k t = Some v → seen path (TTable t) (k :: q) = seen (path ++ [k]) v q.
Proof. intros Ht. cbn [seen as_settings]. by rewrite Ht. Qed.

Lemma seen_no_key path t k q : tget k t = None → found (seen path (TTable t) (k :: q)) = None.
Proof. intros Ht. cbn [seen as_settings]. rewrite Ht. apply found_missing. Qed.

Lemma seen_not_table path v k q : plain_at path v → is_table v = false → found (seen path v (k :: q)) = None.
Proof. unfold plain_at. intros Hp Hv. cbn [seen]. rewrite Hp. by destruct v. Qed.

Lemma seen_only path s v k q : k ≠ s → found (seen path (TTable [(s, v)]) (k :: q)) = None.
Proof. intros Hk. cbn [seen as_settings tget]. rewrite bool_decide_false by done. apply found_missing. Qed.

Lemma apply_keeps segs traversed value current q : plain_at traversed current → diverge q segs = true →
  found (seen traversed (apply_segments segs traversed value current) q) = found (seen traversed current q).
Proof.
  revert traversed current q. induction segs as [|s segs IH]; intros traversed current q Hp Hd; [by destruct q|].
  destruct q as [|k q]; [done|]. cbn [diverge] in Hd. destruct (bool_decide_reflect (k = s)) as [->|Hk].
  - destruct segs as [|s' segs]; [by destruct q|]. destruct q as [|k' q]; [done|].
    rewrite apply_below. destruct current as [| | | | | |t].
    7: { erewrite seen_key by apply tget_insert_eq. rewrite (IH _ _ (k' :: q) (plain_switch _ _) Hd), seen_switch_table.
         destruct (tget s t) as [v|] eqn:Hv; [by erewrite seen_key|]. rewrite (seen_no_key _ t) by done. by apply seen_no_key. }
    all: rewrite (seen_not_table _ _ _ _ Hp eq_refl); erewrite seen_key by apply tget_cons_self.
    all: rewrite (IH _ (TTable []) (k' :: q) eq_refl Hd); by apply seen_no_key.
  - destruct current as [| | | | | |t]; try (rewrite (seen_not_table _ _ _ _ Hp eq_refl); destruct segs; by apply seen_only).
    destruct segs; cbn [ConfigMerge.apply_segments]; apply seen_same_key; [by apply set_last_other|by apply tget_insert_ne].
Qed.

Lemma apply_root_plain v : plain_at [] v.
Proof. by destruct v. Qed.

Lemma overrides_keep overrides root q : Forall (λ o, diverge q (segments o.1) = true) overrides →
  found (seen [] (foldl (λ root o, apply root o.1 o.2) root overrides) q) = found (seen [] root q).
Proof.
  intros Hd. revert root. induction Hd as [|o overrides Ho _ IH]; intros root; [done|]. cbn [foldl]. rewrite IH.
  apply apply_keeps; [apply apply_root_plain|done].
Qed.

(** of the settings given on the command line the last one at a path decides: unless the path is a
    feature that may be a switch, what a reader finds at the path and below it in the layer they
    build is exactly the value given, whatever was given before and whatever is given afterwards at
    other paths; and a setting no override touches is not in the layer. *)
Theorem last_override_wins before path value after :
  Forall (λ o, diverge (segments path) (segments o.1) = true) after → is_structured_feature_path (segments path) = false →
  (∀ r, found (seen [] (build_cli_overrides_layer to_lowercase windows (before ++ (path, value) :: after)) (segments path ++ r))
        = found (seen (segments path) value r))
  ∧ ∀ k q, Forall (λ o, diverge (k :: q) (segments o.1) = true) (before ++ (path, value) :: after) →
        found (seen [] (build_cli_overrides_layer to_lowercase windows (before ++ (path, value) :: after)) (k :: q)) = None.
Proof.
  intros Ha Hs. unfold build_cli_overrides_layer. split.
  - intros r. rewrite foldl_app. cbn [foldl fst snd]. rewrite overrides_keep.
    + unfold apply_toml_override. fold (segments path). by rewrite apply_sets by (done || apply segments_nonempty).
    + eapply Forall_impl; [exact Ha|]. cbn. intros o. generalize (segments path) (segments o.1). intros p p'.
      revert p'. induction p as [|k p IH]; intros [|k' p']; cbn; try done. case_bool_decide; [apply IH|done].
  - intros k q Hd. rewrite overrides_keep by done. by apply seen_no_key.
Qed.
End Overrides.

Lemma last_override_wins_witness :
  found (seen [] (build_cli_overrides_layer to_ascii_lowercase false
    [(lit "tui.theme", TString (lit "a")); (lit "model", TString (lit "m")); (lit "tui.theme", TString (lit "b"))]) [lit "tui"; lit "theme"])
  = Some (Some (TString (lit "b"))).
Proof.
  exact (proj1 (last_override_wins to_ascii_lowercase false
    [(lit "tui.theme", TString (lit "a")); (lit "model", TString (lit "m"))] (lit "tui.theme") (TString (lit "b")) [] (Forall_nil_2 _) eq_refl) []).
Defined.
