(* ===== verification/ConfigStack.v ===== *)
(** config/src/state.rs with config_layer_source.rs, fingerprint.rs, model_provider_requirements.rs
    and the filter validation of shell_environment_policy.rs: the stack of configuration layers,
    the configuration it amounts to, where each setting came from, and the operations that put
    another user layer into a stack. Paths are component lists. The types of requirements that
    pass through unread, the validation and conversion of provider definitions, the fingerprint
    of a value and [str::to_lowercase] are parameters. *)
From stdpp Require Import pretty.
From S2P Require Import Prelude Str NetworkDomain TomlTable ConfigMerge ConfigSeen.

(** * Layer sources *)

Abbreviation AbsPath := (list str).

Definition path_parent (p : AbsPath) : option AbsPath := match p with [] => None | _ => Some (removelast p) end.
Fixpoint path_ancestors_up (n : nat) (p : AbsPath) : list AbsPath :=
  p :: match n with 0 => [] | S n => match path_parent p with Some q => path_ancestors_up n q | None => [] end end.
(** [Path::ancestors]: the path itself, its parent, and so on to the root. *)
Definition path_ancestors (p : AbsPath) : list AbsPath := path_ancestors_up (length p) p.

Inductive ConfigLayerSource :=
| PackagedDefaults (file : AbsPath)
| Mdm (domain key : str)
| System (file : AbsPath)
| EnterpriseManaged (id name : str)
| User (file : AbsPath) (profile : option str)
| Project (dot_codex_folder : AbsPath)
| SessionFlags
| LegacyManagedConfigTomlFromFile (file : AbsPath)
| LegacyManagedConfigTomlFromMdm.

Definition precedence (s : ConfigLayerSource) : Z :=
  match s with
  | PackagedDefaults _ => -10
  | Mdm _ _ => 0
  | System _ => 10
  | EnterpriseManaged _ _ => 15
  | User _ profile => if profile then 21 else 20
  | Project _ => 25
  | SessionFlags => 30
  | LegacyManagedConfigTomlFromFile _ => 40
  | LegacyManagedConfigTomlFromMdm => 50
  end.

Definition is_user (s : ConfigLayerSource) : bool := match s with User _ _ => true | _ => false end.

Record ConfigLayerMetadata := mkMetadata { md_name : ConfigLayerSource; md_version : str }.

Record ConfigLayerEntry := mkLayer {
  layer_name : ConfigLayerSource;
  layer_config : Toml;
  layer_version : str;
  layer_disabled_reason : option str;
  layer_raw_toml : option (str * AbsPath);
  layer_hooks_folder_override : option AbsPath
}.

Definition is_disabled (l : ConfigLayerEntry) : bool := match layer_disabled_reason l with Some _ => true | None => false end.
Definition metadata (l : ConfigLayerEntry) : ConfigLayerMetadata := mkMetadata (layer_name l) (layer_version l).

Definition with_hooks_config_folder_override (l : ConfigLayerEntry) (folder : option AbsPath) : ConfigLayerEntry :=
  mkLayer (layer_name l) (layer_config l) (layer_version l) (layer_disabled_reason l) (layer_raw_toml l) folder.

Definition config_folder (l : ConfigLayerEntry) : option AbsPath :=
  match layer_name l with
  | System file => path_parent file
  | User file _ => path_parent file
  | Project dot_codex_folder => Some dot_codex_folder
  | _ => None
  end.

Definition hooks_config_folder (l : ConfigLayerEntry) : option AbsPath :=
  match layer_hooks_folder_override l with Some f => Some f | None => config_folder l end.

Definition SLASH_DISPLAY : str := lit "/".
(** [Path::display] of an absolute path *)
Definition display (p : AbsPath) : str := SLASH_DISPLAY ++ join SLASH_DISPLAY p.

Definition format_config_layer_source (source : ConfigLayerSource) (config_toml_file : str) : str :=
  match source with
  | PackagedDefaults file => lit "packaged defaults (" ++ display file ++ lit ")"
  | Mdm domain key => lit "MDM (" ++ domain ++ lit ":" ++ key ++ lit ")"
  | System file => lit "system (" ++ display file ++ lit ")"
  | EnterpriseManaged id name => lit "enterprise-managed (" ++ name ++ lit ", " ++ id ++ lit ")"
  | User file _ => lit "user (" ++ display file ++ lit ")"
  | Project dot_codex_folder => lit "project (" ++ display dot_codex_folder ++ lit "/" ++ config_toml_file ++ lit ")"
  | SessionFlags => lit "session-flags"
  | LegacyManagedConfigTomlFromFile file => lit "legacy managed_config.toml (" ++ display file ++ lit ")"
  | LegacyManagedConfigTomlFromMdm => lit "legacy managed_config.toml (MDM)"
  end.

(** * Origins *)

Abbreviation Origins := (gmap str ConfigLayerMetadata).

Definition join_dots (p : list str) : str := join [DOT] p.

(** Index of an array item as a path segment *)
Definition index_segment (i : nat) : str := lit (pretty i).

Section Record.
Context (meta : ConfigLayerMetadata) (include : list str → bool).

Fixpoint record_origins (value : Toml) (path : list str) (origins : Origins) : Origins :=
  match value with
  | TTable table => foldl (λ origins e, record_origins e.2 (path ++ [e.1]) origins) origins table
  | TArray items =>
      (foldl (λ st item, (S st.1, record_origins item (path ++ [index_segment st.1]) st.2)) (0, origins) items).2
  | _ =>
      if path =s [] then origins
      else if negb (include path) then origins
      else if match value with TBoolean _ => true | _ => false end && is_structured_feature_path path then
        let origins := if bool_decide (last path = Some (lit "network_proxy")) then <[join_dots path := meta]> origins else origins in
        <[join_dots (path ++ [ENABLED]) := meta]> origins
      else <[join_dots path := meta]> origins
  end.
End Record.

Definition MODEL_PROVIDERS : str := lit "model_providers".
Arguments MODEL_PROVIDERS : simpl never.

(** * Shell environment filters of a layer *)

Inductive FilterError := NotATable | MalformedField | MixedFilters | DuplicateFilter.

(** [Vec<String>] and the actions of [BTreeMap<String, ShellEnvironmentPolicyFilter>] *)
Definition is_string_list (v : Toml) : bool := match v with TArray l => forallb (λ v, bool_decide (is_Some (as_str v))) l | _ => false end.
Definition is_filter_action (v : Toml) : bool := match v with TString s => (s =s lit "include") || (s =s lit "exclude") | _ => false end.
Definition is_filter_table (v : Toml) : bool := match v with TTable t => forallb (λ e, is_filter_action e.2) t | _ => false end.

Definition field_ok (check : Toml → bool) (field : option Toml) : bool := match field with Some v => check v | None => true end.

Fixpoint no_repeats (l : list str) : bool := match l with [] => true | x :: l => negb (bool_decide (x ∈ l)) && no_repeats l end.

Section Stack.
Context (to_lowercase : str → str) (windows : bool) (version_for_toml : Toml → str).

Definition validate_policy (policy : list (str * Toml)) : result FilterError unit :=
  let exclude := tget EXCLUDE policy in
  let include_only := tget INCLUDE_ONLY policy in
  let filters := tget FILTERS policy in
  if negb (field_ok is_string_list exclude && field_ok is_string_list include_only && field_ok is_filter_table filters) then Err MalformedField
  else if bool_decide (is_Some filters) && (bool_decide (is_Some exclude) || bool_decide (is_Some include_only)) then Err MixedFilters
  else match filters ≫= as_table with
  | Some filters => if no_repeats (to_lowercase <$> filters.*1) then Ok tt else Err DuplicateFilter
  | None => Ok tt
  end.

Definition validate_shell_environment_policy_filter_config (value : Toml) : result FilterError unit :=
  match value with
  | TTable root =>
      match tget SHELL_POLICY root with
      | Some (TTable policy) => validate_policy policy
      | _ => Ok tt
      end
  | _ => Err NotATable
  end.

Inductive StackError :=
| InvalidShellPolicy (layer : str) (e : FilterError)
| NotInPrecedenceOrder
| ProjectHasNoParent
| ProjectsNotRootToCwd
| InvalidProviders (message : str).

Definition CONFIG_TOML_FILE : str := lit "config.toml".

Fixpoint validate_enabled_config_layers (layers : list ConfigLayerEntry) : result StackError unit :=
  match layers with
  | [] => Ok tt
  | layer :: layers =>
      if is_disabled layer then validate_enabled_config_layers layers
      else
        let? _ := map_err (InvalidShellPolicy (format_config_layer_source (layer_name layer) CONFIG_TOML_FILE))
                    (validate_shell_environment_policy_filter_config (layer_config layer)) in
        validate_enabled_config_layers layers
  end.

(** [is_sorted] by precedence *)
Fixpoint is_sorted (l : list Z) : bool :=
  match l with
  | x :: (y :: _) as l => (x <=? y)%Z && is_sorted l
  | _ => true
  end.

Fixpoint verify_projects (previous : option AbsPath) (layers : list ConfigLayerEntry) : result StackError unit :=
  match layers with
  | [] => Ok tt
  | layer :: layers =>
      match layer_name layer with
      | Project current =>
          match previous with
          | None => verify_projects (Some current) layers
          | Some prev =>
              match path_parent prev with
              | None => Err ProjectHasNoParent
              | Some parent =>
                  if (prev =s current) || negb (existsb (λ ancestor, ancestor =s parent) (path_ancestors current)) then Err ProjectsNotRootToCwd
                  else verify_projects (Some current) layers
              end
          end
      | _ => verify_projects previous layers
      end
  end.

Definition verify_layer_ordering (layers : list ConfigLayerEntry) : result StackError unit :=
  if negb (is_sorted ((λ l, precedence (layer_name l)) <$> layers)) then Err NotInPrecedenceOrder
  else verify_projects None layers.

Definition new_layer (name : ConfigLayerSource) (config : Toml) : ConfigLayerEntry :=
  mkLayer name config (version_for_toml config) None None None.
Definition new_layer_with_raw_toml (name : ConfigLayerSource) (config : Toml) (raw_toml : str) (base_dir : AbsPath) : ConfigLayerEntry :=
  mkLayer name config (version_for_toml config) None (Some (raw_toml, base_dir)) None.
Definition new_layer_disabled (name : ConfigLayerSource) (config : Toml) (reason : str) : ConfigLayerEntry :=
  mkLayer name config (version_for_toml config) (Some reason) None None.

(** * Requirements *)

Context {Binding Mcp Plugins Features Providers Rest RestToml : Type}.
Context (validate_model_providers : Providers → result str unit) (providers_to_toml : Providers → result str Toml).

Record ConfigRequirements := mkRequirements {
  rq_mcp_servers : Mcp; rq_plugins : Plugins; rq_feature_requirements : Features; rq_rest : Rest }.

Record ConfigRequirementsToml := mkRequirementsToml {
  rt_mcp_servers : Mcp; rt_plugins : Plugins; rt_feature_requirements : Features;
  rt_model_provider : option str; rt_model_providers : option Providers; rt_rest : RestToml }.


Definition to_config (requirements : ConfigRequirementsToml) : result StackError Toml :=
  match rt_model_providers requirements with
  | None => Ok (TTable [])
  | Some providers =>
      let? _ := map_err InvalidProviders (validate_model_providers providers) in
      let? v := map_err InvalidProviders (providers_to_toml providers) in
      Ok (TTable [(MODEL_PROVIDERS, v)])
  end.

Definition apply_providers (config requirements : Toml) : Toml :=
  match config, vget MODEL_PROVIDERS requirements ≫= as_table with
  | TTable config, Some required =>
      let providers := match tget MODEL_PROVIDERS config with Some (TTable providers) => providers | _ => [] end in
      TTable (tinsert MODEL_PROVIDERS (TTable (textend providers required)) config)
  | _, _ => config
  end.

(** * The stack *)

Record ConfigLayerStack := mkStack {
  st_cloud_config_binding : option Binding;
  st_model_provider_requirements : option Toml;
  st_layers : list ConfigLayerEntry;
  st_requirements : ConfigRequirements;
  st_requirements_toml : ConfigRequirementsToml;
  st_ignore_user_and_project_exec_policy_rules : bool;
  st_startup_warnings : option (list str);
  st_is_projectless : bool
}.

Definition new_stack (layers : list ConfigLayerEntry) (requirements : ConfigRequirements) (requirements_toml : ConfigRequirementsToml) : result StackError ConfigLayerStack :=
  let? _ := validate_enabled_config_layers layers in
  let? _ := verify_layer_ordering layers in
  let? providers := to_config requirements_toml in
  Ok (mkStack None (Some providers) layers requirements requirements_toml false None false).

Definition set_layers (s : ConfigLayerStack) (layers : list ConfigLayerEntry) : ConfigLayerStack :=
  mkStack (st_cloud_config_binding s) (st_model_provider_requirements s) layers (st_requirements s) (st_requirements_toml s)
    (st_ignore_user_and_project_exec_policy_rules s) (st_startup_warnings s) (st_is_projectless s).

Definition with_user_and_project_exec_policy_rules_ignored (s : ConfigLayerStack) (ignore : bool) : ConfigLayerStack :=
  mkStack (st_cloud_config_binding s) (st_model_provider_requirements s) (st_layers s) (st_requirements s) (st_requirements_toml s)
    ignore (st_startup_warnings s) (st_is_projectless s).

Definition with_cloud_config_binding (s : ConfigLayerStack) (binding : option Binding) : ConfigLayerStack :=
  mkStack binding (st_model_provider_requirements s) (st_layers s) (st_requirements s) (st_requirements_toml s)
    (st_ignore_user_and_project_exec_policy_rules s) (st_startup_warnings s) (st_is_projectless s).

Definition with_startup_warnings (s : ConfigLayerStack) (warnings : list str) : ConfigLayerStack :=
  mkStack (st_cloud_config_binding s) (st_model_provider_requirements s) (st_layers s) (st_requirements s) (st_requirements_toml s)
    (st_ignore_user_and_project_exec_policy_rules s) (Some warnings) (st_is_projectless s).

Definition with_mcp_requirements_from (s incoming : ConfigLayerStack) : ConfigLayerStack :=
  let requirements := mkRequirements (rq_mcp_servers (st_requirements incoming)) (rq_plugins (st_requirements incoming))
    (rq_feature_requirements (st_requirements incoming)) (rq_rest (st_requirements s)) in
  let requirements_toml := mkRequirementsToml (rt_mcp_servers (st_requirements_toml incoming)) (rt_plugins (st_requirements_toml incoming))
    (rt_feature_requirements (st_requirements_toml incoming)) (rt_model_provider (st_requirements_toml s))
    (rt_model_providers (st_requirements_toml s)) (rt_rest (st_requirements_toml s)) in
  mkStack (st_cloud_config_binding s) (st_model_provider_requirements s) (st_layers s) requirements requirements_toml
    (st_ignore_user_and_project_exec_policy_rules s) (st_startup_warnings s) (st_is_projectless s).

Definition layers_low_to_high (s : ConfigLayerStack) : list ConfigLayerEntry := List.filter (λ l, negb (is_disabled l)) (st_layers s).

Definition get_active_user_layer (s : ConfigLayerStack) : option ConfigLayerEntry :=
  List.find (λ l, is_user (layer_name l)) (reverse (st_layers s)).

Definition get_user_config_file (s : ConfigLayerStack) : option AbsPath :=
  match get_active_user_layer s with
  | Some l => match layer_name l with User file _ => Some file | _ => None end
  | None => None
  end.

Definition merge_layers (layers : list ConfigLayerEntry) : Toml :=
  foldl (λ merged l, merge_toml_values to_lowercase windows merged (layer_config l)) (TTable []) layers.

Definition effective_user_config (s : ConfigLayerStack) : option Toml :=
  match List.filter (λ l, is_user (layer_name l)) (layers_low_to_high s) with
  | [] => None
  | user_layers => Some (merge_layers user_layers)
  end.

Definition effective_config (s : ConfigLayerStack) : Toml :=
  let merged := merge_layers (layers_low_to_high s) in
  match st_model_provider_requirements s with
  | Some requirements => apply_providers merged requirements
  | None => merged
  end.

Definition required_model_provider (s : ConfigLayerStack) : option str := rt_model_provider (st_requirements_toml s).

(** Before the first layer of a higher precedence, or last. *)
Fixpoint insert_by_precedence (layer : ConfigLayerEntry) (layers : list ConfigLayerEntry) : list ConfigLayerEntry :=
  match layers with
  | [] => [layer]
  | l :: layers' =>
      if (precedence (layer_name layer) <? precedence (layer_name l))%Z then layer :: layers
      else l :: insert_by_precedence layer layers'
  end.

Definition is_user_file (config_toml : AbsPath) (l : ConfigLayerEntry) : bool :=
  match layer_name l with User file _ => file =s config_toml | _ => false end.

Fixpoint remove_first {A} (f : A → bool) (l : list A) : list A :=
  match l with [] => [] | x :: l => if f x then l else x :: remove_first f l end.

Definition with_user_config_profile (s : ConfigLayerStack) (config_toml : AbsPath) (profile : option str) (user_config : Toml) : result StackError ConfigLayerStack :=
  let user_layer := new_layer (User config_toml profile) user_config in
  let? _ := validate_enabled_config_layers [user_layer] in
  Ok (set_layers s (insert_by_precedence user_layer (remove_first (is_user_file config_toml) (st_layers s)))).

(** [ProfileV2Name::from_str] *)
Definition profile_v2_name (value : str) : option str :=
  if (value =s []) || negb (forallb (λ c, is_ascii_alphanumeric c || N.eqb c 95 || N.eqb c 45) value) then None else Some value.

Definition with_user_config (s : ConfigLayerStack) (config_toml : AbsPath) (user_config : Toml) : result StackError ConfigLayerStack :=
  let profile := find_map (λ l,
    match layer_name l with
    | User file profile => if file =s config_toml then profile ≫= profile_v2_name else None
    | _ => None
    end) (st_layers s) in
  with_user_config_profile s config_toml profile user_config.

Definition with_user_layer_from (s other : ConfigLayerStack) : ConfigLayerStack :=
  let user_layers := List.filter (λ l, is_user (layer_name l)) (st_layers other) in
  let layers := List.filter (λ l, negb (is_user (layer_name l))) (st_layers s) in
  set_layers s (foldl (λ layers user_layer, insert_by_precedence user_layer layers) layers user_layers).

(** Paths of credential providers, whose origins are kept only while the setting is in effect. *)
Definition provider_paths (layers : list ConfigLayerEntry) : list str :=
  lit "features.network_proxy.credentials."
  :: mjoin ((λ l, match vget (lit "profiles") (normalize_key_aliases (layer_config l)) ≫= as_table with
               | Some profiles => (λ name, lit "profiles." ++ name ++ lit ".features.network_proxy.credentials.") <$> profiles.*1
               | None => []
               end) <$> layers).

Definition recorded_origins (layers : list ConfigLayerEntry) (include : list str → bool) : Origins :=
  foldl (λ origins l, record_origins (metadata l) include (normalize_key_aliases (layer_config l)) [] origins) ∅ layers.

Definition origins_with_path_filter (s : ConfigLayerStack) (include : list str → bool) : Origins :=
  let layers := layers_low_to_high s in
  let origins := recorded_origins layers include in
  match last layers with
  | None => origins
  | Some layer =>
      let effective_origins := record_origins (metadata layer) include (effective_config s) [] ∅ in
      filter (λ '(path, _), existsb (λ prefix, starts_with prefix path) (provider_paths layers) = false ∨ is_Some (effective_origins !! path)) origins
  end.

Definition origins (s : ConfigLayerStack) : Origins := origins_with_path_filter s (λ _, true).
End Stack.
