(* ===== verification/ConfigOrder.v ===== *)
(** The checks a stack of layers is built with stay true of it: whatever user layers are put into it
    or copied from another stack, its layers are in order of precedence, its project layers run from
    the root to the working directory and every enabled layer has well-formed shell environment
    filters (config/src/state.rs). *)
From S2P Require Import Prelude Str NetworkDomain TomlTable ConfigMerge ConfigSeen ConfigStack.

Section Order.
Context (to_lowercase : str → str) (version_for_toml : Toml → str).
Context {Binding Mcp Plugins Features Providers Rest RestToml : Type}.
Context (validate_model_providers : Providers → result str unit) (providers_to_toml : Providers → result str Toml).

Notation Stack := (@ConfigLayerStack Binding Mcp Plugins Features Providers Rest RestToml).
Notation Requirements := (@ConfigRequirements Mcp Plugins Features Rest).
Notation RequirementsToml := (@ConfigRequirementsToml Mcp Plugins Features Providers RestToml).
Notation validate := (validate_enabled_config_layers to_lowercase).
Notation rank l := (precedence (layer_name l)).

(** Every way a stack comes about. *)
Inductive built : Stack → Prop :=
| built_new layers (requirements : Requirements) (requirements_toml : RequirementsToml) s :
    new_stack to_lowercase validate_model_providers providers_to_toml layers requirements requirements_toml = Ok s → built s
| built_user_config s config_toml user_config s' :
    built s → with_user_config to_lowercase version_for_toml s config_toml user_config = Ok s' → built s'
| built_user_config_profile s config_toml profile user_config s' :
    built s → with_user_config_profile to_lowercase version_for_toml s config_toml profile user_config = Ok s' → built s'
| built_user_layer_from s other : built s → built other → built (with_user_layer_from s other)
| built_mcp_requirements s incoming : built s → built incoming → built (with_mcp_requirements_from s incoming)
| built_rules_ignored s ignore : built s → built (with_user_and_project_exec_policy_rules_ignored s ignore)
| built_cloud_binding s binding : built s → built (with_cloud_config_binding s binding)
| built_warnings s warnings : built s → built (with_startup_warnings s warnings).

(** The checks of [ConfigLayerStack::new]. *)
Definition checked (layers : list ConfigLayerEntry) : Prop :=
  validate layers = Ok tt ∧ verify_layer_ordering layers = Ok tt.

(** * Order of precedence *)

Definition ordered (layers : list ConfigLayerEntry) : Prop := is_sorted ((λ l, rank l) <$> layers) = true.

Lemma is_sorted_cons x l : is_sorted (x :: l) = true ↔ Forall (λ y, (x ≤ y)%Z) l ∧ is_sorted l = true.
Proof.
  revert x. induction l as [|y l IH]; intros x; [by split; [intros _; split; [constructor|]|]|].
  change (is_sorted (x :: y :: l)) with ((x <=? y)%Z && is_sorted (y :: l)). rewrite andb_true_iff, Z.leb_le. split.
  - intros [Hxy Hs]. split; [|done]. constructor; [done|]. apply IH in Hs as [Hf _].
    eapply Forall_impl; [exact Hf|]. cbn. lia.
  - by intros [[? _]%Forall_cons ?].
Qed.

Lemma ordered_cons l layers : ordered (l :: layers) ↔ Forall (λ l', (rank l ≤ rank l')%Z) layers ∧ ordered layers.
Proof. unfold ordered. rewrite fmap_cons, is_sorted_cons, Forall_fmap. done. Qed.

Lemma insert_elem l layers x : x ∈ insert_by_precedence l layers ↔ x = l ∨ x ∈ layers.
Proof.
  induction layers as [|l' layers IH]; cbn; [set_solver|]. case_match; rewrite ?elem_of_cons, ?IH; set_solver.
Qed.

Lemma ordered_insert l layers : ordered layers → ordered (insert_by_precedence l layers).
Proof.
  induction layers as [|l' layers IH]; [done|]. intros Ho. cbn. pose proof Ho as [Hf Hs]%ordered_cons.
  destruct (Z.ltb_spec (rank l) (rank l')).
  - apply ordered_cons. split; [|done]. constructor; [lia|]. eapply Forall_impl; [exact Hf|]. cbn. lia.
  - apply ordered_cons. split; [|by apply IH]. apply Forall_forall. intros x [->|Hx]%insert_elem; [lia|].
    rewrite Forall_forall in Hf. by apply Hf.
Qed.

Lemma ordered_sublist layers layers' : layers `sublist_of` layers' → ordered layers' → ordered layers.
Proof.
  induction 1 as [|l layers layers' Hs IH|l layers layers' Hs IH]; [done| |].
  - intros [Hf Ho]%ordered_cons. apply ordered_cons. split; [|by apply IH].
    apply Forall_forall. intros x Hx. rewrite Forall_forall in Hf. apply Hf. by eapply elem_of_sublist.
  - intros [_ Ho]%ordered_cons. by apply IH.
Qed.

(** * Project layers *)

Definition is_project (l : ConfigLayerEntry) : bool := match layer_name l with Project _ => true | _ => false end.

Lemma verify_projects_filter prev layers : verify_projects prev layers = verify_projects prev (List.filter is_project layers).
Proof.
  revert prev. induction layers as [|l layers IH]; intros prev; [done|]. cbn [verify_projects List.filter].
  unfold is_project at 1. destruct (layer_name l) eqn:Hl; cbn [verify_projects]; rewrite ?Hl, ?IH; try done.
Qed.

Lemma filter_insert l layers : is_project l = false →
  List.filter is_project (insert_by_precedence l layers) = List.filter is_project layers.
Proof.
  intros Hl. induction layers as [|l' layers IH]; cbn; [by rewrite Hl|]. case_match; cbn; [by rewrite Hl|]. by rewrite IH.
Qed.

Lemma filter_remove_first f layers : (∀ l, f l = true → is_project l = false) →
  List.filter is_project (remove_first f layers) = List.filter is_project layers.
Proof.
  intros Hf. induction layers as [|l layers IH]; cbn; [done|]. destruct (f l) eqn:Hl; [by rewrite Hf|]. cbn. by rewrite IH.
Qed.

Lemma user_not_project l : is_user (layer_name l) = true → is_project l = false.
Proof. unfold is_project. by destruct (layer_name l). Qed.

Lemma filter_not_user layers :
  List.filter is_project (List.filter (λ l, negb (is_user (layer_name l))) layers) = List.filter is_project layers.
Proof.
  induction layers as [|l layers IH]; cbn; [done|]. destruct (is_user (layer_name l)) eqn:Hu; cbn; rewrite IH; [|done].
  by rewrite user_not_project.
Qed.

(** * Validation *)

Definition valid_layer (l : ConfigLayerEntry) : Prop :=
  is_disabled l = true ∨ validate_shell_environment_policy_filter_config to_lowercase (layer_config l) = Ok tt.

Lemma validate_all layers : validate layers = Ok tt ↔ Forall valid_layer layers.
Proof.
  unfold valid_layer. induction layers as [|l layers IH]; cbn; [by split; [constructor|]|].
  rewrite Forall_cons, <- IH. destruct (is_disabled l); [naive_solver|].
  destruct (validate_shell_environment_policy_filter_config to_lowercase (layer_config l)) as [[]|e]; cbn; naive_solver.
Qed.

Lemma checked_iff layers :
  checked layers ↔ Forall valid_layer layers ∧ ordered layers ∧ verify_projects None (List.filter is_project layers) = Ok tt.
Proof.
  unfold checked. rewrite validate_all, <- verify_projects_filter. unfold verify_layer_ordering, ordered.
  destruct (is_sorted _); cbn; naive_solver.
Qed.

Lemma filter_sublist {A} (f : A → bool) l : List.filter f l `sublist_of` l.
Proof. induction l as [|x l IH]; cbn; [done|]. case_match; by constructor. Qed.

Lemma remove_first_sublist {A} (f : A → bool) l : remove_first f l `sublist_of` l.
Proof. induction l as [|x l IH]; cbn; [done|]. case_match; by constructor. Qed.

Lemma Forall_sub {A} (P : A → Prop) l l' : l `sublist_of` l' → Forall P l' → Forall P l.
Proof. rewrite !Forall_forall. intros Hs Hf x Hx. apply Hf. by eapply elem_of_sublist. Qed.

Lemma checked_insert l layers : is_project l = false → valid_layer l → checked layers → checked (insert_by_precedence l layers).
Proof.
  rewrite !checked_iff. intros Hp Hl (Hv & Ho & Hr). split_and!; [|by apply ordered_insert|by rewrite filter_insert].
  apply Forall_forall. intros x [->|Hx]%insert_elem; [done|]. rewrite Forall_forall in Hv. by apply Hv.
Qed.

Lemma checked_sub layers layers' : layers' `sublist_of` layers → List.filter is_project layers' = List.filter is_project layers →
  checked layers → checked layers'.
Proof.
  rewrite !checked_iff. intros Hs Hp (Hv & Ho & Hr). split_and!; [by eapply Forall_sub|by eapply ordered_sublist|by rewrite Hp].
Qed.

Lemma checked_user_config (s : Stack) config_toml profile user_config s' : checked (st_layers s) →
  with_user_config_profile to_lowercase version_for_toml s config_toml profile user_config = Ok s' → checked (st_layers s').
Proof.
  intros Hc Hw. unfold with_user_config_profile in Hw. destruct (validate _) as [[]|] eqn:Hv; [|done].
  injection Hw as <-. cbn [st_layers set_layers].
  apply checked_insert; [done|by apply validate_all, Forall_cons in Hv as [? _]|].
  eapply checked_sub; [apply remove_first_sublist| |done]. apply filter_remove_first. intros l.
  unfold is_user_file, is_project. by destruct (layer_name l).
Qed.

Lemma checked_insert_all users layers : Forall (λ l, is_user (layer_name l) = true ∧ valid_layer l) users → checked layers →
  checked (foldl (λ layers l, insert_by_precedence l layers) layers users).
Proof.
  intros Hu. revert layers. induction Hu as [|l users [Hl Hv] _ IH]; intros layers Hc; [done|].
  apply IH. apply checked_insert; [by apply user_not_project|done..].
Qed.

Lemma checked_user_layer_from (s other : Stack) : checked (st_layers s) → checked (st_layers other) →
  checked (st_layers (with_user_layer_from s other)).
Proof.
  intros Hs Ho. apply checked_insert_all.
  - apply checked_iff in Ho as [Hv _]. apply Forall_forall. intros l Hl.
    apply list_elem_of_In, List.filter_In in Hl as [Hin Hu]. apply list_elem_of_In in Hin.
    rewrite Forall_forall in Hv. split; [done|]. by apply Hv.
  - eapply checked_sub; [apply filter_sublist|apply filter_not_user|done].
Qed.

Lemma checked_new layers (rq : Requirements) (rt : RequirementsToml) (s : Stack) :
  new_stack to_lowercase validate_model_providers providers_to_toml layers rq rt = Ok s → checked (st_layers s).
Proof.
  intros Hn. unfold new_stack in Hn. destruct (validate layers) as [[]|] eqn:Hv; [|done]. cbn in Hn.
  destruct (verify_layer_ordering layers) as [[]|] eqn:Ho; [|done]. cbn in Hn.
  destruct (to_config _ _ _) eqn:Hc; [|done]. injection Hn as <-. by split.
Qed.

Lemma built_checked (s : Stack) : built s → checked (st_layers s).
Proof.
  induction 1 as [layers rq rt s Hn|s c u s' _ IH Hw|s c pr u s' _ IH Hw|s other _ IHs _ IHo|s inc _ IH _ _|s ig _ IH|s b _ IH|s w _ IH]; try done.
  - by eapply checked_new.
  - by eapply checked_user_config.
  - by eapply checked_user_config.
  - by apply checked_user_layer_from.
Qed.

(** C16: however a stack of configuration layers comes about, by construction, by replacing or adding
    a user layer, by copying the user layers of another stack or by adopting requirements, it would
    pass the checks of its constructor again: its layers are in order of precedence, its project
    layers run from the root down to the working directory, and no enabled layer has malformed or
    mixed shell environment filters. *)
Theorem stack_stays_checked (s : Stack) : built s →
  validate (st_layers s) = Ok tt ∧ verify_layer_ordering (st_layers s) = Ok tt.
Proof.
  apply built_checked.
Qed.

(** What a user update does to the stack: exactly the first layer read from that file is replaced,
    every other layer is kept, in its order. *)
Lemma user_config_rest (s : Stack) config_toml profile user_config s' :
  with_user_config_profile to_lowercase version_for_toml s config_toml profile user_config = Ok s' →
  ∃ l1 l2, st_layers s' = l1 ++ new_layer version_for_toml (User config_toml profile) user_config :: l2
    ∧ l1 ++ l2 = remove_first (is_user_file config_toml) (st_layers s).
Proof.
  unfold with_user_config_profile. destruct (validate _) as [[]|] eqn:Hv; [|done]. intros [= <-]. cbn [st_layers set_layers].
  generalize (remove_first (is_user_file config_toml) (st_layers s)) as layers.
  generalize (new_layer version_for_toml (User config_toml profile) user_config) as l. intros l layers.
  induction layers as [|l' layers (l1 & l2 & IH & Hl)]; cbn; [by exists [], []|].
  case_match; [by exists [], (l' :: layers)|]. exists (l' :: l1), l2. cbn. by rewrite IH, Hl.
Qed.
End Order.

(** A concrete stack. *)
Definition sample_version (_ : Toml) : str := lit "v".
Definition sample_layers : list ConfigLayerEntry :=
  [new_layer sample_version (System [lit "etc"]) (TTable []);
   new_layer sample_version (User [lit "home"; lit "config.toml"] None) (TTable [(lit "model", TString (lit "a"))]);
   new_layer sample_version (Project [lit "repo"; lit ".codex"]) (TTable [])].
Definition sample_requirements : @ConfigRequirements unit unit unit unit := mkRequirements tt tt tt tt.
Definition sample_requirements_toml : @ConfigRequirementsToml unit unit unit unit unit := mkRequirementsToml tt tt tt None None tt.
Definition sample_stack : @ConfigLayerStack unit unit unit unit unit unit unit :=
  mkStack None (Some (TTable [])) sample_layers sample_requirements sample_requirements_toml false None false.

Lemma stack_stays_checked_witness :
  verify_layer_ordering (st_layers (with_user_layer_from sample_stack sample_stack)) = Ok tt.
Proof.
  apply (stack_stays_checked to_ascii_lowercase sample_version (λ _, Ok tt) (λ _, Ok (TTable [])) (with_user_layer_from sample_stack sample_stack)).
  apply built_user_layer_from; apply (built_new _ _ _ _ sample_layers sample_requirements sample_requirements_toml); vm_compute; reflexivity.
Defined.
