(* ===== verification/ConfigEffective.v ===== *)
(** The effective configuration of a stack (config/src/state.rs, [effective_config]): at every setting
    the newest enabled layer that says anything about it decides; the definitions of model providers
    that requirements give cannot be changed by any layer; and the two forms of shell environment
    filters are never both in effect. *)
From S2P Require Import Prelude Str NetworkDomain TomlTable ConfigMerge ConfigSeen ConfigStack ConfigOrder.

(** What a layer says about a setting, its keys in their canonical spelling. *)
Definition said (l : ConfigLayerEntry) (p : list str) : Seen := seen [] (normalize_key_aliases (layer_config l)) p.

(** The reference: go down from the newest layer to the first that says anything. *)
Fixpoint newest (high_to_low : list ConfigLayerEntry) (p : list str) : Seen :=
  match high_to_low with
  | [] => Absent
  | l :: older => over (said l p) (newest older p)
  end.

Definition wf_layers (layers : list ConfigLayerEntry) : Prop := Forall (λ l, toml_wf (layer_config l)) layers.

Section Effective.
Context (to_lowercase : str → str) (windows : bool).
Notation merge_at := (merge_toml_values_at_path to_lowercase windows).
Notation merge_layers := (merge_layers to_lowercase windows).

(** * Merged layers hold no legacy key *)

Lemma found_pair v a b : found (seen [] v [a; b]) = None ↔ get_path v [a; b] = None.
Proof.
  cbn. destruct v as [| | | | | |t]; try done. cbn. destruct (tget a t) as [c|]; cbn; [|done].
  destruct c as [| | | | | |t']; cbn; try done. destruct (tget b t') as [d|]; cbn.
  - split; [|done]. by case_match.
  - split; [done|]. intros _. apply found_missing.
Qed.

Lemma legacy_regular a : a ∈ CONFIG_KEY_ALIASES → regular [] (alias_legacy a) = true.
Proof. intros Ha. by each_alias Ha. Qed.

Lemma alias_free_found v : alias_free v ↔ ∀ a, a ∈ CONFIG_KEY_ALIASES → found (seen [] v (alias_legacy a)) = None.
Proof.
  unfold alias_free. rewrite Forall_forall. split; intros Hv a Ha; specialize (Hv a Ha); each_alias Ha; by apply found_pair.
Qed.

Lemma merge_values_eq base overlay : alias_free base →
  merge_toml_values to_lowercase windows base overlay = merge_at base (normalize_key_aliases overlay) [].
Proof. intros Hb. unfold merge_toml_values. by rewrite normalize_base_free by by apply alias_free_root. Qed.

Lemma alias_free_normalize v : toml_wf v → alias_free (normalize_key_aliases v).
Proof. intros Hw. by apply alias_free_root, normalize_alias_free. Qed.

Lemma merge_alias_free base overlay : alias_free base → toml_wf overlay → alias_free (merge_toml_values to_lowercase windows base overlay).
Proof.
  intros Hb Hw. rewrite merge_values_eq by done. apply alias_free_found. intros a Ha.
  rewrite merge_seen by (by (apply toml_wf_normalize || apply legacy_regular)).
  pose proof (alias_free_normalize overlay Hw) as Ho. rewrite alias_free_found in Hb, Ho.
  specialize (Hb a Ha). specialize (Ho a Ha). by destruct (seen [] (normalize_key_aliases overlay) (alias_legacy a)).
Qed.

Lemma merge_layers_snoc layers l :
  merge_layers (layers ++ [l]) = merge_toml_values to_lowercase windows (merge_layers layers) (layer_config l).
Proof. unfold merge_layers. by rewrite foldl_app. Qed.

Lemma merge_layers_free layers : wf_layers layers → alias_free (merge_layers layers).
Proof.
  induction layers as [|l layers IH] using rev_ind; [by intros _; repeat constructor|].
  intros [Hw [Hl _]%Forall_cons]%Forall_app. rewrite merge_layers_snoc. apply merge_alias_free; auto.
Qed.

(** * The newest layer decides *)

Lemma seen_empty p : found (seen [] (TTable []) p) = if p =s [] then Some None else None.
Proof. by destruct p. Qed.

Lemma newest_merge layers p : wf_layers layers → regular [] p = true → p ≠ [] →
  found (seen [] (merge_layers layers) p) = found (newest (reverse layers) p).
Proof.
  intros Hw Hr Hp. induction layers as [|l layers IH] using rev_ind; [by destruct p|].
  apply Forall_app in Hw as [Hw [Hl _]%Forall_cons]. rewrite merge_layers_snoc, reverse_snoc. cbn [newest].
  rewrite merge_values_eq by by apply merge_layers_free. rewrite merge_seen by (done || by apply toml_wf_normalize).
  unfold said. destruct (seen [] (normalize_key_aliases (layer_config l)) p); try done. by apply IH.
Qed.

Lemma apply_providers_elsewhere v r k p : k ≠ MODEL_PROVIDERS → seen [] (apply_providers v r) (k :: p) = seen [] v (k :: p).
Proof.
  intros Hk. unfold apply_providers. destruct v as [| | | | | |t]; try done.
  destruct (vget MODEL_PROVIDERS r ≫= as_table); [|done]. cbn. by rewrite tget_insert_ne.
Qed.

Context {Binding Mcp Plugins Features Providers Rest RestToml : Type}.
Notation Stack := (@ConfigLayerStack Binding Mcp Plugins Features Providers Rest RestToml).
Notation effective := (effective_config to_lowercase windows).

Lemma wf_enabled (s : Stack) : wf_layers (st_layers s) → wf_layers (layers_low_to_high s).
Proof. apply Forall_sub, filter_sublist. Qed.

Lemma effective_elsewhere (s : Stack) k p : k ≠ MODEL_PROVIDERS →
  seen [] (effective s) (k :: p) = seen [] (merge_layers (layers_low_to_high s)) (k :: p).
Proof. intros Hk. unfold effective_config. case_match; [|done]. by apply apply_providers_elsewhere. Qed.

(** No provider requirement touches the setting. *)
Definition unrequired (s : Stack) (k : str) : Prop := k = MODEL_PROVIDERS → st_model_provider_requirements s = None.

Lemma effective_unrequired (s : Stack) k p : unrequired s k →
  seen [] (effective s) (k :: p) = seen [] (merge_layers (layers_low_to_high s)) (k :: p).
Proof.
  intros Hk. destruct (decide (k = MODEL_PROVIDERS)) as [E|]; [|by apply effective_elsewhere].
  unfold effective_config. by rewrite (Hk E).
Qed.

(** C14: the effective configuration of a stack holds, at every setting outside the tables whose keys
    have matching rules of their own and outside [model_providers] of a stack with required providers
    (these override every layer), exactly what the newest enabled layer that says anything about
    the setting gives it: its value, a table, or nothing if that layer has something else above it.
    A feature written as a switch counts as its [enabled] field, and choosing one form of shell
    environment filters counts as removing the other; legacy keys count under their new names. *)
Theorem newest_layer_decides (s : Stack) k p :
  wf_layers (st_layers s) → regular [] (k :: p) = true → unrequired s k →
  found (seen [] (effective s) (k :: p)) = found (newest (reverse (layers_low_to_high s)) (k :: p)).
Proof.
  intros Hw Hr Hk. rewrite effective_unrequired by done. apply newest_merge; [by apply wf_enabled|done..].
Qed.

(** * Filters *)

Lemma validate_policy_unmixed policy : validate_policy to_lowercase policy = Ok tt →
  tget FILTERS policy = None ∨ (tget EXCLUDE policy = None ∧ tget INCLUDE_ONLY policy = None).
Proof.
  unfold validate_policy. case_match; [done|].
  destruct (tget FILTERS policy), (tget EXCLUDE policy), (tget INCLUDE_ONLY policy); cbn; try (intros; discriminate); auto.
Qed.

(** The shell environment policy of a layer, which no alias touches. *)
Lemma normalize_other_key v k : toml_wf v → may_hold_alias [k] = false → vget k (normalize_key_aliases v) = vget k v.
Proof.
  intros Hw Hk. destruct v as [| | | | | |t]; try done.
  unfold normalize_key_aliases. rewrite normalize_table_eq, normalize_table_root by done. cbn [vget as_table mbind option_bind].
  apply toml_wf_table in Hw as [Hn _]. rewrite tget_normalized by done. destruct (tget k t) as [c|]; [|done].
  cbn [fmap option_fmap option_map]. f_equal. destruct c; cbn [normalize_key_aliases_at_path app]; by rewrite Hk.
Qed.

Lemma seen_policy v f : seen [] v [SHELL_POLICY; f]
  = match v with
    | TTable _ => match vget SHELL_POLICY v with Some c => seen [SHELL_POLICY] c [f] | None => Absent end
    | _ => Blocked
    end.
Proof. by destruct v as [| | | | | |t]. Qed.

(** A valid layer that uses one form says that the other is gone. *)
Lemma forms_exclusive l f : toml_wf (layer_config l) → valid_layer to_lowercase l → is_disabled l = false →
  f = EXCLUDE ∨ f = INCLUDE_ONLY →
  (found (said l [SHELL_POLICY; FILTERS]) ≠ None → said l [SHELL_POLICY; f] = Blocked)
  ∧ (found (said l [SHELL_POLICY; f]) ≠ None → said l [SHELL_POLICY; FILTERS] = Blocked).
Proof.
  intros Hw [Hd|Hv] Hn Hf; [congruence|]. unfold said.
  pose proof (normalize_other_key (layer_config l) SHELL_POLICY Hw eq_refl) as Hk.
  rewrite !seen_policy, Hk. destruct (layer_config l) as [| | | | | |root]; try done.
  unfold normalize_key_aliases. rewrite normalize_table_eq by done. cbn [vget as_table mbind option_bind].
  cbn [validate_shell_environment_policy_filter_config] in Hv.
  destruct (tget SHELL_POLICY root) as [c|]; [|done]. destruct c as [| | | | | |policy]; try done.
  apply validate_policy_unmixed in Hv. cbn [seen as_settings].
  assert (∀ g, tget g policy = None → found (if displaces [SHELL_POLICY] policy g then Blocked else Absent) = None) as Hm.
  { intros. apply found_missing. }
  destruct Hv as [Hv|[Hv1 Hv2]].
  - rewrite Hv. split; [by rewrite Hm|]. intros Hq. destruct (tget f policy) eqn:Hp; [|by rewrite Hm in Hq].
    unfold displaces, from_policy_table, contains_key. rewrite Hv. destruct Hf as [->| ->]; rewrite Hp; [done|].
    by destruct (tget EXCLUDE policy).
  - assert (tget f policy = None) as Hp by (by destruct Hf as [->| ->]). rewrite Hp. split; [|by rewrite Hm].
    intros Hq. destruct (tget FILTERS policy) eqn:Hf'; [|by rewrite Hm in Hq].
    unfold displaces, from_policy_table, contains_key. rewrite Hf'. by destruct Hf as [->| ->].
Qed.

Definition sound_layer (l : ConfigLayerEntry) : Prop :=
  toml_wf (layer_config l) ∧ valid_layer to_lowercase l ∧ is_disabled l = false.

Lemma newest_exclusive layers f : Forall sound_layer layers → f = EXCLUDE ∨ f = INCLUDE_ONLY →
  found (newest layers [SHELL_POLICY; FILTERS]) = None ∨ found (newest layers [SHELL_POLICY; f]) = None.
Proof.
  intros Hl Hf. induction Hl as [|l layers (Hw & Hv & Hd) _ IH]; [by left|]. cbn [newest].
  destruct (forms_exclusive l f Hw Hv Hd Hf) as [H1 H2].
  destruct (said l [SHELL_POLICY; FILTERS]) eqn:Ha; cbn [over found] in *; auto.
  - destruct (said l [SHELL_POLICY; f]); cbn [over found] in *; auto; by discriminate H2.
  - right. by rewrite H1.
  - right. by rewrite H1.
Qed.

Context (version_for_toml : Toml → str).
Context (validate_model_providers : Providers → result str unit) (providers_to_toml : Providers → result str Toml).
Notation built := (built to_lowercase version_for_toml validate_model_providers providers_to_toml (Binding := Binding) (Mcp := Mcp)
  (Plugins := Plugins) (Features := Features) (Rest := Rest) (RestToml := RestToml)).

Lemma built_sound (s : Stack) : built s → wf_layers (st_layers s) → Forall sound_layer (layers_low_to_high s).
Proof.
  intros Hb Hw. eapply built_checked, checked_iff in Hb as [Hv _]. apply Forall_forall. intros l Hl.
  apply list_elem_of_In, List.filter_In in Hl as [Hl Hd%negb_true_iff]. apply list_elem_of_In in Hl.
  unfold wf_layers in Hw. rewrite Forall_forall in Hv, Hw. split_and!; auto.
Qed.

(** in the effective configuration of a stack, keyed shell environment filters and the legacy
    exclude and include-only lists are never both in effect, whatever mix of them the layers use. *)
Theorem filter_forms_exclusive (s : Stack) f : built s → wf_layers (st_layers s) → f = EXCLUDE ∨ f = INCLUDE_ONLY →
  get_path (effective s) [SHELL_POLICY; FILTERS] = None ∨ get_path (effective s) [SHELL_POLICY; f] = None.
Proof.
  intros Hb Hw Hf. rewrite <- !found_pair, !effective_elsewhere by done.
  rewrite !newest_merge by (done || by apply wf_enabled || by destruct Hf as [->| ->]).
  apply newest_exclusive; [|done]. rewrite Forall_forall. intros l Hl. rewrite elem_of_reverse in Hl.
  pose proof (built_sound s Hb Hw) as Hs. rewrite Forall_forall in Hs. by apply Hs.
Qed.

(** * Required model providers *)

Lemma built_providers (s : Stack) : built s → ∃ c, st_model_provider_requirements s = Some c
  ∧ to_config validate_model_providers providers_to_toml (st_requirements_toml s) = Ok c.
Proof.
  induction 1 as [layers rq rt s Hn|s c u s' _ IH Hw|s c pr u s' _ IH Hw|s other _ IHs _ _|s inc _ IH _ _|s ig _ IH|s b _ IH|s w _ IH]; try done.
  - unfold new_stack in Hn. destruct (validate_enabled_config_layers _ _) as [[]|]; [|done]. cbn in Hn.
    destruct (verify_layer_ordering layers) as [[]|]; [|done]. cbn in Hn.
    destruct (to_config _ _ _) as [c|] eqn:Hc; [|done]. injection Hn as <-. by exists c.
  - unfold with_user_config, with_user_config_profile in Hw. destruct (validate_enabled_config_layers _ _); [|done]. by injection Hw as <-.
  - unfold with_user_config_profile in Hw. destruct (validate_enabled_config_layers _ _); [|done]. by injection Hw as <-.
Qed.

Lemma merge_values_table base overlay : is_table overlay = true → is_table (merge_toml_values to_lowercase windows base overlay) = true.
Proof.
  intros Ho. unfold merge_toml_values. destruct overlay as [| | | | | |o]; try done.
  unfold normalize_key_aliases. rewrite normalize_table_eq by done. rewrite merge_eq. unfold merge_body.
  change (is_structured_feature_path []) with false. by repeat case_match.
Qed.

Lemma merge_layers_table layers : Forall sound_layer layers → is_table (merge_layers layers) = true.
Proof.
  induction layers as [|l layers IH] using rev_ind; [done|]. intros [Hs [(_ & Hv & Hd) _]%Forall_cons]%Forall_app.
  rewrite merge_layers_snoc. apply merge_values_table. destruct Hv as [Hv|Hv]; [congruence|]. by destruct (layer_config l).
Qed.

(** in every stack that requirements were given to, the definition of each required model provider
    in the effective configuration is the required one, whatever the layers say about it, and the
    providers that are not required keep the definitions the layers give them. *)
Theorem required_providers_win (s : Stack) providers required :
  built s → wf_layers (st_layers s) →
  rt_model_providers (st_requirements_toml s) = Some providers → providers_to_toml providers = Ok (TTable required) → NoDup required.*1 →
  ∀ id, get_path (effective s) [MODEL_PROVIDERS; id]
    = match tget id required with
      | Some v => Some v
      | None => get_path (merge_layers (layers_low_to_high s)) [MODEL_PROVIDERS; id]
      end.
Proof.
  intros Hb Hw Hp Ht Hn id. destruct (built_providers s Hb) as (c & Hc & Hcfg). unfold effective_config. rewrite Hc.
  unfold to_config in Hcfg. rewrite Hp in Hcfg. destruct (validate_model_providers providers); [|done]. cbn in Hcfg.
  rewrite Ht in Hcfg. injection Hcfg as <-. unfold apply_providers. cbn [vget as_table mbind option_bind]. rewrite tget_cons_self.
  pose proof (merge_layers_table _ (built_sound s Hb Hw)) as Hm.
  destruct (merge_layers _) as [| | | | | |m]; try done. cbn [as_table mbind option_bind get_path vget].
  rewrite tget_insert_eq. cbn. rewrite tget_extend by done. destruct (tget id required); [done|].
  by destruct (tget MODEL_PROVIDERS m) as [[]|].
Qed.
End Effective.

(** A stack whose layers disagree about a feature, the form of filters and a provider. *)
Definition mixed_layers : list ConfigLayerEntry :=
  [new_layer sample_version (User [lit "home"; lit "config.toml"] None)
     (TTable [(lit "features", TTable [(lit "network_proxy", TBoolean true)]);
              (SHELL_POLICY, TTable [(EXCLUDE, TArray [TString (lit "AWS_*")])])]);
   new_layer sample_version (Project [lit "repo"; lit ".codex"])
     (TTable [(lit "features", TTable [(lit "network_proxy", TTable [(lit "mode", TString (lit "full"))])]);
              (SHELL_POLICY, TTable [(FILTERS, TTable [(lit "PATH", TString (lit "include"))])]);
              (MODEL_PROVIDERS, TTable [(lit "corp", TString (lit "mine"))])])].
Definition mixed_providers : list (str * Toml) := [(lit "corp", TString (lit "required"))].
Definition mixed_requirements_toml : @ConfigRequirementsToml unit unit unit (list (str * Toml)) unit :=
  mkRequirementsToml tt tt tt None (Some mixed_providers) tt.
Definition mixed_stack : @ConfigLayerStack unit unit unit unit (list (str * Toml)) unit unit :=
  mkStack None (Some (TTable [(MODEL_PROVIDERS, TTable mixed_providers)])) mixed_layers sample_requirements mixed_requirements_toml false None false.
Definition accept_providers (_ : list (str * Toml)) : result str unit := Ok tt.
Definition providers_table (l : list (str * Toml)) : result str Toml := Ok (TTable l).

Lemma mixed_built : built to_ascii_lowercase sample_version accept_providers providers_table mixed_stack.
Proof. apply (built_new _ _ _ _ mixed_layers sample_requirements mixed_requirements_toml). vm_compute. reflexivity. Qed.

Lemma mixed_wf : wf_layers (st_layers mixed_stack).
Proof. repeat constructor; cbn; repeat (apply not_elem_of_cons; split; [vm_compute; congruence|]); apply not_elem_of_nil. Qed.

Lemma newest_layer_decides_witness :
  found (seen [] (effective_config to_ascii_lowercase false mixed_stack) [lit "features"; lit "network_proxy"; ENABLED]) = Some (Some (TBoolean true)).
Proof.
  rewrite (newest_layer_decides to_ascii_lowercase false mixed_stack (lit "features") [lit "network_proxy"; ENABLED] mixed_wf eq_refl) by done.
  vm_compute. reflexivity.
Defined.

Lemma filter_forms_exclusive_witness :
  get_path (effective_config to_ascii_lowercase false mixed_stack) [SHELL_POLICY; FILTERS] = None
  ∨ get_path (effective_config to_ascii_lowercase false mixed_stack) [SHELL_POLICY; EXCLUDE] = None.
Proof.
  exact (filter_forms_exclusive to_ascii_lowercase false sample_version accept_providers providers_table mixed_stack EXCLUDE mixed_built mixed_wf (or_introl eq_refl)).
Defined.

Lemma required_providers_win_witness :
  get_path (effective_config to_ascii_lowercase false mixed_stack) [MODEL_PROVIDERS; lit "corp"] = Some (TString (lit "required")).
Proof.
  rewrite (required_providers_win to_ascii_lowercase false sample_version accept_providers providers_table mixed_stack mixed_providers mixed_providers mixed_built mixed_wf eq_refl eq_refl).
  - vm_compute. reflexivity.
  - apply NoDup_singleton.
Defined.
