(* ===== verification/ConfigOrigins.v ===== *)
(** Where a setting came from (config/src/fingerprint.rs [record_origins], config/src/state.rs
    [origins_with_path_filter]): the origin reported for a setting in effect is the layer whose
    value is in effect. *)
From stdpp Require Import pretty.
From S2P Require Import Prelude Str NetworkDomain TomlTable ConfigMerge ConfigSeen ConfigStack ConfigOrder ConfigEffective.

(** * Dotted paths *)

Definition dotless (s : str) : bool := negb (existsb (N.eqb DOT) s).

Lemma split_by_dotless s : dotless s = true → split_by (N.eqb DOT) s = [s].
Proof.
  unfold dotless. induction s as [|c s IH]; [done|]. cbn [existsb split_by]. destruct (N.eqb DOT c); [done|].
  cbn. intros Hs. by rewrite IH.
Qed.

Lemma split_by_dot s t : dotless s = true → split_by (N.eqb DOT) (s ++ DOT :: t) = s :: split_by (N.eqb DOT) t.
Proof.
  unfold dotless. induction s as [|c s IH]; [done|]. cbn [existsb split_by app]. destruct (N.eqb DOT c); [done|].
  cbn. intros Hs. by rewrite IH.
Qed.

Lemma split_join_dots k p : Forall (λ s, dotless s = true) (k :: p) → split_by (N.eqb DOT) (join_dots (k :: p)) = k :: p.
Proof.
  revert k. induction p as [|k' p IH]; intros k [Hk Hp]%Forall_cons.
  - by apply split_by_dotless.
  - unfold join_dots in *. cbn [join app]. cbn in IH. rewrite split_by_dot by done. f_equal. by apply IH.
Qed.

Lemma join_dots_inj p q : p ≠ [] → q ≠ [] → Forall (λ s, dotless s = true) p → Forall (λ s, dotless s = true) q →
  join_dots p = join_dots q → p = q.
Proof.
  intros Hp Hq Hdp Hdq He. destruct p as [|k p], q as [|k' q]; try done.
  rewrite <- (split_join_dots k p), <- (split_join_dots k' q) by done. by rewrite He.
Qed.

Lemma digit_no_dot d : N.eqb DOT (Ascii.N_of_ascii (pretty_N_char d)) = false.
Proof. unfold pretty_N_char. repeat (match goal with |- context [match ?d with _ => _ end] => is_var d; destruct d end); reflexivity. Qed.

Lemma index_dotless i : dotless (index_segment i) = true.
Proof.
  unfold index_segment, pretty, pretty_nat, pretty, pretty_N. case_decide; [done|].
  enough (∀ x s, dotless (lit s) = true → dotless (lit (pretty_N_go x s)) = true) as Hd by by apply Hd.
  intros x. induction (N.lt_wf_0 x) as [x _ IH]. intros s Hs.
  destruct (decide (0 < x)%N) as [Hx|Hx]; [|assert (x = 0)%N as -> by lia; done].
  rewrite pretty_N_go_step by done. apply IH; [apply N.div_lt; lia|].
  unfold dotless in *. change (lit (String.String ?c ?s)) with (Ascii.N_of_ascii c :: lit s).
  cbn [existsb]. by rewrite digit_no_dot.
Qed.

(** No key of a value contains a dot. *)
Fixpoint dotless_keys (v : Toml) : Prop :=
  match v with
  | TArray l => foldr (λ v r, dotless_keys v ∧ r) True l
  | TTable t => foldr (λ e r, (dotless e.1 = true ∧ dotless_keys e.2) ∧ r) True t
  | _ => True
  end.

Lemma dotless_table t : dotless_keys (TTable t) ↔ Forall (λ e, dotless e.1 = true ∧ dotless_keys e.2) t.
Proof. cbn. induction t as [|e t IH]; cbn; [by split; [constructor|]|]. by rewrite Forall_cons, IH. Qed.

Lemma dotless_array l : dotless_keys (TArray l) ↔ Forall dotless_keys l.
Proof. cbn. induction l as [|v l IH]; cbn; [by split; [constructor|]|]. by rewrite Forall_cons, IH. Qed.

Lemma seen_switch path b : is_structured_feature_path path = true →
  seen path (TBoolean b) [ENABLED] = seen (path ++ [ENABLED]) (TBoolean b) [].
Proof. intros Hs. cbn [seen as_settings]. by rewrite Hs, tget_cons_self. Qed.

(** * Recording one layer *)

Section Record.
Context (meta : ConfigLayerMetadata).
Notation record := (record_origins meta (λ _, true)).

Lemma record_scalar v path origins : is_scalar v = true →
  record v path origins
  = if path =s [] then origins
    else if match v with TBoolean _ => true | _ => false end && is_structured_feature_path path then
      <[join_dots (path ++ [ENABLED]) := meta]> (if bool_decide (last path = Some (lit "network_proxy")) then <[join_dots path := meta]> origins else origins)
    else <[join_dots path := meta]> origins.
Proof. by destruct v. Qed.

Lemma insert_keeps (o : Origins) k s : o !! s = Some meta → <[k := meta]> o !! s = Some meta.
Proof. intros Ho. destruct (decide (k = s)) as [->|]; [by rewrite lookup_insert_eq|by rewrite lookup_insert_ne]. Qed.

(** Recording only ever writes the layer's own metadata. *)
Lemma record_keeps v path origins s : origins !! s = Some meta → record v path origins !! s = Some meta.
Proof.
  revert path origins. induction v as [v Hv|l IH|t IH] using toml_ind'; intros path origins Ho.
  - rewrite record_scalar by done. repeat case_match; try done; repeat apply insert_keeps; done.
  - cbn [record_origins]. generalize 0 as i. revert origins Ho. induction IH as [|v l Hv _ IHl]; intros origins Ho i; [done|].
    cbn [foldl fst snd]. apply IHl. by apply Hv.
  - cbn [record_origins]. revert origins Ho. induction IH as [|[k v] t Hv _ IHt]; intros origins Ho; [done|].
    cbn [foldl fst snd]. apply IHt. by apply Hv.
Qed.

(** A value a reader finds is recorded. *)
Lemma record_leaf r v path origins u : seen path v r = Leaf u → is_scalar u = true → path ++ r ≠ [] →
  record v path origins !! join_dots (path ++ r) = Some meta.
Proof.
  revert v path origins. induction r as [|k r IH]; intros v path origins Hs Hu Hne.
  - cbn in Hs. destruct (as_settings path v) eqn:Ha; [done|]. injection Hs as ->. rewrite record_scalar by done.
    rewrite app_nil_r in *. rewrite bool_decide_false by done.
    assert (match u with TBoolean _ => true | _ => false end && is_structured_feature_path path = false) as ->.
    { destruct u; try done. cbn in *. by destruct (is_structured_feature_path path). }
    by rewrite lookup_insert_eq.
  - cbn [seen] in Hs. destruct v as [| | |b| | |t]; cbn [as_settings] in Hs; try done.
    + destruct (is_structured_feature_path path) eqn:Hst; [|done]. cbn [tget] in Hs.
      destruct (bool_decide_reflect (ENABLED = k)) as [<-|]; [|by destruct (displaces _ _ _)].
      destruct r; [|cbn in Hs; by rewrite structured_child in Hs].
      rewrite record_scalar by done. rewrite Hst, (bool_decide_false (path = [])) by by intros ->. cbn [andb]. by rewrite lookup_insert_eq.
    + destruct (tget k t) as [v|] eqn:Hk; [|by case_match]. cbn [record_origins].
      revert origins. induction t as [|[k0 v0] t IHt]; [done|]. intros origins. cbn [foldl fst snd]. cbn [tget] in Hk.
      destruct (bool_decide_reflect (k0 = k)) as [->|]; [|by apply IHt].
      simplify_eq. assert (path ++ k :: r = (path ++ [k]) ++ r) as Hp by by rewrite <- app_assoc.
      specialize (IH v (path ++ [k]) origins Hs Hu). rewrite <- Hp in IH. specialize (IH Hne).
      revert IH. generalize (record v (path ++ [k]) origins). clear.
      induction t as [|e t IHt]; intros o Ho; [done|]. cbn [foldl]. by apply IHt, record_keeps.
Qed.

(** A path the layer says nothing about is left alone. *)
Lemma record_other v path origins s :
  toml_wf v → dotless_keys v →
  (∀ r, s = join_dots (path ++ r) → path ++ r ≠ [] → Forall (λ k, dotless k = true) r → seen path v r = Absent) →
  record v path origins !! s = origins !! s.
Proof.
  revert path origins. induction v as [v Hv|l IH|t IH] using toml_ind'; intros path origins Hw Hd Ha.
  - assert (path ≠ [] → join_dots path ≠ s) as Hne.
    { intros Hp Hj. specialize (Ha []). rewrite app_nil_r in Ha. symmetry in Hj. by apply (seen_here path v), Ha. }
    rewrite record_scalar by done. case_bool_decide; [done|].
    destruct (_ && is_structured_feature_path path) eqn:Hb; [|rewrite lookup_insert_ne; by auto].
    destruct v; try done. cbn in Hb. rewrite lookup_insert_ne.
    + case_match; [|done]. rewrite lookup_insert_ne; by auto.
    + intros Hj. eapply seen_here. rewrite <- seen_switch by done.
      apply (Ha [ENABLED] (eq_sym Hj)); [by intros [? ?]%app_eq_nil|by repeat constructor].
  - cbn [record_origins]. apply dotless_array in Hd. apply toml_wf_array in Hw. generalize 0 as i. revert origins.
    induction IH as [|v l Hv _ IHl]; intros origins i; [done|]. apply Forall_cons in Hw as [? Hw], Hd as [? Hd].
    cbn [foldl fst snd]. rewrite IHl; [|done..|].
    + apply Hv; [done..|]. intros r Hs Hn Hr. exfalso.
      rewrite <- app_assoc in Hs. cbn in Hs. by discriminate (Ha (index_segment i :: r) Hs); [intros [? ?]%app_eq_nil|constructor; [apply index_dotless|]].
    + intros [|k r] Hs Hn Hr; [by specialize (Ha [] Hs Hn Hr)|]. by specialize (Ha (k :: r) Hs Hn Hr).
  - cbn [record_origins]. apply toml_wf_table in Hw as [Hn Hw]. apply dotless_table in Hd.
    assert (∀ e, e ∈ t → ∀ o, record e.2 (path ++ [e.1]) o !! s = o !! s) as He.
    { intros [k v] Hin o. rewrite Forall_forall in IH, Hw, Hd. destruct (Hd _ Hin) as [Hk Hv].
      apply (IH _ Hin); [by apply (Hw _ Hin)|done|]. intros r Hs Hne Hr. cbn in Hs.
      rewrite <- app_assoc in Hs. specialize (Ha (k :: r) Hs). cbn [seen as_settings] in Ha.
      rewrite (tget_unique k v t Hn Hin) in Ha. apply Ha; [by intros [? ?]%app_eq_nil|by constructor]. }
    clear IH Ha Hd Hw Hn. revert origins. induction t as [|e t IHt]; intros origins; [done|]. cbn [foldl].
    rewrite IHt by (intros; apply He; set_solver). apply He. set_solver.
Qed.
End Record.

(** * Normalised layers *)

Lemma dotless_insert k v t : dotless k = true → dotless_keys v → dotless_keys (TTable t) → dotless_keys (TTable (tinsert k v t)).
Proof.
  rewrite !dotless_table. intros Hk Hv Ht. induction Ht as [|[k0 v0] t [??] Ht IH]; cbn; [by repeat constructor|].
  case_bool_decide; constructor; cbn; auto.
Qed.

Lemma dotless_get k v t : dotless_keys (TTable t) → tget k t = Some v → dotless_keys v.
Proof. intros Hd%dotless_table Hk%tget_elem. rewrite Forall_forall in Hd. by apply Hd in Hk as [_ ?]. Qed.

Lemma dotless_insert_if_absent parents key v t :
  Forall (λ k, dotless k = true) parents → dotless key = true → dotless_keys v → dotless_keys (TTable t) →
  dotless_keys (TTable (insert_if_absent parents key v t)).
Proof.
  intros Hp Hk Hv. revert t. induction Hp as [|p parents Hp _ IH]; intros t Ht; cbn [insert_if_absent].
  - unfold or_insert. case_match; [done|]. by apply dotless_insert.
  - destruct (tget p t) as [c|] eqn:Hc; [|by apply dotless_insert; [|apply IH|]].
    pose proof (dotless_get _ _ _ Ht Hc). destruct c; try done. by apply dotless_insert; [|apply IH|].
Qed.

Lemma dotless_retain keep t : dotless_keys (TTable t) → dotless_keys (TTable (retain keep t)).
Proof. rewrite !dotless_table. induction 1 as [|[k v] t ? _ IH]; cbn; [done|]. case_match; [by constructor|done]. Qed.

Lemma dotless_alias a path t : a ∈ CONFIG_KEY_ALIASES → dotless_keys (TTable t) → dotless_keys (TTable (normalize_alias path a t)).
Proof.
  intros Ha Ht. unfold normalize_alias. destruct (split_last (alias_legacy a)) as [[k p]|] eqn:Hs; [|done].
  destruct (path =s p); [|done]. destruct (strip_list_prefix p (alias_canonical a)) as [c|] eqn:Hc; [|done].
  destruct (tget k t) as [v|] eqn:Hk; [|done]. pose proof (dotless_get _ _ _ Ht Hk) as Hv.
  assert (∀ key parents, split_last c = Some (key, parents) → Forall (λ k, dotless k = true) (key :: parents)) as Hcan.
  { clear -Ha Hs Hc. intros key parents Hsc. each_alias Ha; vm_compute in Hs; injection Hs as <- <-; vm_compute in Hc; injection Hc as <-;
      vm_compute in Hsc; injection Hsc as <- <-; by repeat constructor. }
  destruct (split_last c) as [[key parents]|] eqn:Hsc; [|by apply dotless_retain].
  pose proof (Hcan key parents eq_refl) as [? ?]%Forall_cons. apply dotless_insert_if_absent; try done. by apply dotless_retain.
Qed.

Lemma dotless_normalize_table path t : dotless_keys (TTable t) → dotless_keys (TTable (normalize_table_key_aliases path t)).
Proof.
  unfold normalize_table_key_aliases.
  enough (∀ l, (∀ a, a ∈ l → a ∈ CONFIG_KEY_ALIASES) → ∀ t, dotless_keys (TTable t) →
    dotless_keys (TTable (foldl (λ t a, normalize_alias path a t) t l))) as He by by apply He.
  induction l as [|a l IH]; intros Hl t' Ht; [done|]. apply IH; [set_solver|]. apply dotless_alias; [set_solver|done].
Qed.

Lemma dotless_extend t l : dotless_keys (TTable t) → Forall (λ e, dotless e.1 = true ∧ dotless_keys e.2) l → dotless_keys (TTable (textend t l)).
Proof.
  unfold textend. intros Ht Hl. revert t Ht. induction Hl as [|e l [] _ IH]; intros t Ht; [done|]. by apply IH, dotless_insert.
Qed.

Lemma dotless_normalize v path : dotless_keys v → dotless_keys (normalize_key_aliases_at_path v path).
Proof.
  revert path. induction v as [v Hv|l IH|t IH] using toml_ind'; intros path Hd.
  - destruct v; try done; cbn; by case_match.
  - cbn [normalize_key_aliases_at_path]. case_match; [done|]. rewrite dotless_array in Hd |- *.
    induction IH as [|v l Hv _ IHl]; [constructor|]. apply Forall_cons in Hd as [? Hd]. constructor; auto.
  - destruct (may_hold_alias path) eqn:Hm; [|cbn [normalize_key_aliases_at_path]; by rewrite Hm].
    rewrite normalize_table_eq by done. apply dotless_normalize_table. unfold normalized_entries.
    apply dotless_extend; [done|]. apply dotless_table in Hd.
    induction IH as [|e t He _ IHt]; [constructor|]. apply Forall_cons in Hd as [[] Hd]. constructor; [split; [done|by apply He]|by apply IHt].
Qed.

(** * The stack *)

Lemma newest_split layers p d : newest (reverse layers) p = d → d ≠ Absent →
  ∃ l1 l l2, layers = l1 ++ l :: l2 ∧ said l p = d ∧ Forall (λ l', said l' p = Absent) l2.
Proof.
  intros Hd Hn. induction layers as [|l layers IH] using rev_ind; [by subst|].
  rewrite reverse_snoc in Hd. cbn [newest] in Hd. destruct (said l p) eqn:Hs; cbn in Hd.
  { destruct (IH Hd) as (l1 & l' & l2 & -> & Hl & Hf). exists l1, l', (l2 ++ [l]). rewrite <- app_assoc.
    split_and!; [done..|]. apply Forall_app. split; [done|]. by constructor. }
  all: subst d; by exists layers, l, [].
Qed.

Definition dotless_layers (layers : list ConfigLayerEntry) : Prop := Forall (λ l, dotless_keys (layer_config l)) layers.

Lemma record_absent_layers (layers : list ConfigLayerEntry) (p : list str) (o : Origins) :
  wf_layers layers → dotless_layers layers → p ≠ [] → Forall (λ k, dotless k = true) p → Forall (λ l, said l p = Absent) layers →
  foldl (λ origins l, record_origins (metadata l) (λ _, true) (normalize_key_aliases (layer_config l)) [] origins) o layers !! join_dots p = o !! join_dots p.
Proof.
  intros Hw Hd Hp Hk Ha. revert o. induction Ha as [|l layers Hl _ IH]; intros o; [done|].
  apply Forall_cons in Hw as [Hwl Hw], Hd as [Hdl Hd]. cbn [foldl]. rewrite IH by done.
  apply record_other; [by apply toml_wf_normalize|by apply dotless_normalize|]. cbn. intros r Hj Hr Hkr.
  apply join_dots_inj in Hj as ->; done.
Qed.

Section Stack.
Context (to_lowercase : str → str) (windows : bool).
Context {Binding Mcp Plugins Features Providers Rest RestToml : Type}.
Notation Stack := (@ConfigLayerStack Binding Mcp Plugins Features Providers Rest RestToml).

Lemma kept_origin (s : Stack) (p : list str) u m :
  recorded_origins (layers_low_to_high s) (λ _, true) !! join_dots p = Some m → p ≠ [] →
  seen [] (effective_config to_lowercase windows s) p = Leaf u → is_scalar u = true →
  origins to_lowercase windows s !! join_dots p = Some m.
Proof.
  intros Ho Hp Hs Hu. unfold origins, origins_with_path_filter. destruct (last _) as [l|]; [|done].
  apply map_lookup_filter_Some. split; [done|]. right. eexists. by apply (record_leaf _ p _ [] _ u).
Qed.

(** C17: if the effective configuration has a scalar value at a setting, the origin the stack reports for
    the setting is the enabled layer the value comes from: that layer gives the setting this very value,
    and no newer enabled layer says anything about it. This holds where the dotted names of the report
    are unambiguous, in stacks without a dot inside a key, and for settings whose value the newest layer
    decides: outside the tables whose keys have matching rules of their own, and outside
    [model_providers] of a stack with required providers, which come from no layer. *)
Theorem origins_truthful (s : Stack) k p u :
  wf_layers (st_layers s) → dotless_layers (st_layers s) → Forall (λ k, dotless k = true) (k :: p) →
  regular [] (k :: p) = true → unrequired s k →
  seen [] (effective_config to_lowercase windows s) (k :: p) = Leaf u → is_scalar u = true →
  ∃ l1 l l2, layers_low_to_high s = l1 ++ l :: l2
    ∧ said l (k :: p) = Leaf u ∧ Forall (λ l', said l' (k :: p) = Absent) l2
    ∧ origins to_lowercase windows s !! join_dots (k :: p) = Some (metadata l).
Proof.
  intros Hw Hd Hkp Hr Hk Hs Hu.
  assert (newest (reverse (layers_low_to_high s)) (k :: p) = Leaf u) as Hnew.
  { pose proof Hs as Hs'. rewrite effective_unrequired in Hs' by done.
    pose proof (newest_merge to_lowercase windows _ (k :: p) (wf_enabled s Hw) Hr ltac:(done)) as Hn.
    rewrite Hs' in Hn. destruct (newest _ _); naive_solver. }
  destruct (newest_split _ _ _ Hnew ltac:(done)) as (l1 & l & l2 & Hl & Hsl & Ha).
  exists l1, l, l2. split_and!; [done..|]. eapply kept_origin; [|done..].
  assert (wf_layers l2 ∧ dotless_layers l2) as [Hw2 Hd2].
  { apply wf_enabled in Hw. rewrite Hl in Hw. assert (dotless_layers (layers_low_to_high s)) as Hd' by (eapply Forall_sub, Hd; apply filter_sublist).
    rewrite Hl in Hd'.
    split; [by apply Forall_app in Hw as [_ [_ ?]%Forall_cons]|by apply Forall_app in Hd' as [_ [_ ?]%Forall_cons]]. }
  unfold recorded_origins. rewrite Hl, foldl_app. cbn [foldl]. rewrite record_absent_layers by done.
  by apply (record_leaf _ (k :: p) _ [] _ u).
Qed.
End Stack.

Lemma origins_truthful_witness :
  ∃ l, origins to_ascii_lowercase false mixed_stack !! join_dots [lit "features"; lit "network_proxy"; ENABLED] = Some (metadata l)
    ∧ said l [lit "features"; lit "network_proxy"; ENABLED] = Leaf (TBoolean true).
Proof.
  destruct (origins_truthful to_ascii_lowercase false mixed_stack (lit "features") [lit "network_proxy"; ENABLED] (TBoolean true) mixed_wf) as (l1 & l & l2 & Hl & Hs & _ & Ho).
  - repeat constructor.
  - repeat constructor.
  - reflexivity.
  - done.
  - vm_compute. reflexivity.
  - reflexivity.
  - exists l. split; [exact Ho|exact Hs].
Defined.

(** The origins also list settings that are no longer in effect: the items of a longer array that a
    newer layer has replaced keep their entries. *)
Definition shrunk_layers : list ConfigLayerEntry :=
  [new_layer sample_version (User [lit "home"; lit "config.toml"] None) (TTable [(lit "notify", TArray [TString (lit "a"); TString (lit "b")])]);
   new_layer sample_version SessionFlags (TTable [(lit "notify", TArray [TString (lit "c")])])].
Definition shrunk_stack : @ConfigLayerStack unit unit unit unit unit unit unit :=
  mkStack None None shrunk_layers sample_requirements sample_requirements_toml false None false.

Example origin_of_replaced_item :
  effective_config to_ascii_lowercase false shrunk_stack = TTable [(lit "notify", TArray [TString (lit "c")])]
  ∧ md_name <$> (origins to_ascii_lowercase false shrunk_stack !! lit "notify.1") = Some (User [lit "home"; lit "config.toml"] None).
Proof. split; vm_compute; reflexivity. Qed.
