(* ===== verification/Constrained.v ===== *)
(** config/src/constraint.rs: a value that carries the check its holder has to satisfy. Whatever is
    done to it the value satisfies its check; a refused change leaves it as it was; and checks are
    only ever added. [T] is the type of values; what a refusal shows of a value is a parameter. *)
From S2P Require Import Prelude Str.

Section Constrained.
Context {T RequirementSource : Type} `{EqDecision T} (unknown : RequirementSource) (debug : T → str).

Inductive ConstraintError :=
| InvalidValue (field_name candidate allowed : str) (requirement_source : RequirementSource)
| AutoReviewRequired (model : str)
| EmptyField (field_name : str)
| ExecPolicyParse (requirement_source : RequirementSource) (reason : str)
| McpServerRequirementParse (server_name : str) (requirement_source : RequirementSource) (reason : str).

Definition empty_field (field_name : str) : ConstraintError := EmptyField field_name.

Abbreviation ConstraintResult A := (result ConstraintError A).

Record Constrained := mkConstrained {
  value : T;
  validator : T → ConstraintResult unit;
  normalizer : option (T → T)
}.

Definition new_constrained (initial_value : T) (validator : T → ConstraintResult unit) : ConstraintResult Constrained :=
  let? _ := validator initial_value in
  Ok (mkConstrained initial_value validator None).

Definition normalized (initial_value : T) (normalizer : T → T) : ConstraintResult Constrained :=
  let validator := λ _ : T, Ok tt in
  let normalized := normalizer initial_value in
  let? _ := validator normalized in
  Ok (mkConstrained normalized validator (Some normalizer)).

Definition allow_any (initial_value : T) : Constrained := mkConstrained initial_value (λ _, Ok tt) None.

Definition allow_only (only_value : T) : Constrained :=
  mkConstrained only_value (λ candidate,
    if bool_decide (candidate = only_value) then Ok tt
    else Err (InvalidValue (lit "<unknown>") (debug candidate) (lit "[" ++ debug only_value ++ lit "]") unknown)) None.

Definition can_set (c : Constrained) (candidate : T) : ConstraintResult unit := validator c candidate.

(** Both operations take the value by mutable reference: the state afterwards and the result. *)
Definition add_validator (c : Constrained) (added : T → ConstraintResult unit) : Constrained * ConstraintResult unit :=
  let combined_validator := λ candidate, let? _ := validator c candidate in added candidate in
  match combined_validator (value c) with
  | Err e => (c, Err e)
  | Ok _ => (mkConstrained (value c) combined_validator (normalizer c), Ok tt)
  end.

Definition set (c : Constrained) (v : T) : Constrained * ConstraintResult unit :=
  let v := match normalizer c with Some normalizer => normalizer v | None => v end in
  match validator c v with
  | Err e => (c, Err e)
  | Ok _ => (mkConstrained v (validator c) (normalizer c), Ok tt)
  end.

(** * Histories *)

Inductive Op := OpSet (v : T) | OpAdd (added : T → ConstraintResult unit).

Definition run_op (c : Constrained) (op : Op) : Constrained * ConstraintResult unit :=
  match op with OpSet v => set c v | OpAdd added => add_validator c added end.

Inductive made : Constrained → Prop :=
| made_new v f c : new_constrained v f = Ok c → made c
| made_normalized v f c : normalized v f = Ok c → made c
| made_any v : made (allow_any v)
| made_only v : made (allow_only v)
| made_op c op : made c → made (run_op c op).1.

Definition accepts (c : Constrained) (v : T) : Prop := can_set c v = Ok tt.

Lemma made_accepts c : made c → accepts c (value c).
Proof.
  unfold accepts, can_set.
  induction 1 as [v f c Hn|v f c Hn|v|v|c op _ IH]; try done.
  - unfold new_constrained in Hn. destruct (f v) as [[]|] eqn:Hf; [|done]. by injection Hn as <-.
  - by injection Hn as <-.
  - cbn. by rewrite bool_decide_true.
  - destruct op as [v|added]; cbn [run_op].
    + unfold set. destruct (validator c (match normalizer c with Some f => f v | None => v end)) as [[]|] eqn:Hv; done.
    + unfold add_validator. destruct (validator c (value c)) as [[]|] eqn:Hv; [|done]. cbn.
      destruct (added (value c)) as [[]|] eqn:Ha; cbn; [by rewrite Hv|done].
Qed.

(** A change is refused as a whole. *)
Lemma refused_unchanged c op e : (run_op c op).2 = Err e → (run_op c op).1 = c.
Proof. destruct op; cbn; unfold set, add_validator; case_match; done. Qed.

Lemma op_strengthens c op v : accepts (run_op c op).1 v → accepts c v.
Proof.
  unfold accepts, can_set. destruct op as [w|added]; cbn; unfold set, add_validator; case_match; try done.
  cbn. by destruct (validator c v) as [[]|].
Qed.

Definition run_ops (c : Constrained) (ops : list Op) : Constrained := foldl (λ c op, (run_op c op).1) c ops.

Lemma run_ops_made c ops : made c → made (run_ops c ops).
Proof. unfold run_ops. revert c. induction ops as [|op ops IH]; intros c Hm; [done|]. by apply IH, made_op. Qed.

Lemma run_ops_strengthen c ops v : accepts (run_ops c ops) v → accepts c v.
Proof. unfold run_ops. revert c. induction ops as [|op ops IH]; intros c Hv; [done|]. cbn [foldl] in Hv. apply IH in Hv. by eapply op_strengthens. Qed.

(** whatever is done to a constrained value after it was made, it satisfies its own check; a check
    that was accepted at any point is never lost again, however many changes and further checks
    follow; and a change that is refused leaves the value and its check as they were. *)
Theorem constraint_kept c ops : made c →
  accepts (run_ops c ops) (value (run_ops c ops))
  ∧ (∀ v, accepts (run_ops c ops) v → accepts c v)
  ∧ ∀ op e, (run_op (run_ops c ops) op).2 = Err e → (run_op (run_ops c ops) op).1 = run_ops c ops.
Proof.
  intros Hm. split_and!; [by apply made_accepts, run_ops_made|intros v; apply run_ops_strengthen|intros op e; apply refused_unchanged].
Qed.

(** The value a successful [set] leaves is the one given, normalised; one value allowed stays. *)
Lemma set_value c v : (set c v).2 = Ok tt → value (set c v).1 = match normalizer c with Some f => f v | None => v end.
Proof. unfold set. by case_match. Qed.

Lemma only_value_stays v ops : value (run_ops (allow_only v) ops) = v.
Proof.
  pose proof (made_accepts _ (run_ops_made (allow_only v) ops (made_only v))) as Ha. apply run_ops_strengthen in Ha.
  unfold accepts, can_set in Ha. cbn in Ha. by case_bool_decide.
Qed.
End Constrained.

Lemma constraint_kept_witness :
  value (run_ops (allow_any 1) [OpAdd (λ n, if n <? 3 then Ok tt else Err (EmptyField (RequirementSource := unit) [])); OpSet 7; OpSet 2]) = 2
  ∧ accepts (run_ops (allow_any 1) [OpAdd (λ n, if n <? 3 then Ok tt else Err (EmptyField (RequirementSource := unit) [])); OpSet 7; OpSet 2]) 2.
Proof.
  split; [reflexivity|].
  exact (proj1 (constraint_kept tt (λ _, []) (allow_any 1) [OpAdd (λ n, if n <? 3 then Ok tt else Err (EmptyField (RequirementSource := unit) [])); OpSet 7; OpSet 2] (made_any _ _ 1))).
Defined.
