(* ===== verification/RequirementLayers.v ===== *)
(** Managed requirements from several layers (config/src/requirements_layers/, the source names of
    config/src/config_requirements.rs): most fields merge like configuration, with the layer that
    wins reported as the source; denied reads, models that need review, rules and hooks add up, so
    that no layer takes away what another demands. Layers are taken as parsed; the rules, hook groups
    and permission profiles they hold are parameters. *)
From S2P Require Import Prelude Str NetworkDomain TomlTable ConfigMerge ConfigSeen ConfigStack ConfigOrder ConfigEffective.

(** * Sources *)

Inductive RequirementSource :=
| SourceUnknown
| MdmManagedPreferences (domain key : str)
| Composite (sources : list RequirementSource)
| SourceEnterpriseManaged (id name : str)
| SystemRequirementsToml (file : AbsPath)
| SourceLegacyFile (file : AbsPath)
| SourceLegacyMdm.

Fixpoint source_eq_dec (a b : RequirementSource) : {a = b} + {a ≠ b}.
Proof.
  decide equality; try apply (list_eq_dec (A := N)); try apply (list_eq_dec (A := str)).
  apply (List.list_eq_dec source_eq_dec).
Defined.
#[export] Instance RequirementSource_eq_dec : EqDecision RequirementSource := source_eq_dec.

Fixpoint append_to_composite (source : RequirementSource) (flattened : list RequirementSource) : list RequirementSource :=
  match source with
  | Composite sources => foldl (λ flattened source, append_to_composite source flattened) flattened sources
  | _ => if bool_decide (source ∈ flattened) then flattened else flattened ++ [source]
  end.

Definition composite (sources : list RequirementSource) : RequirementSource :=
  match foldl (λ flattened source, append_to_composite source flattened) [] sources with
  | [] => SourceUnknown
  | [source] => source
  | flattened => Composite flattened
  end.

Record Sourced (T : Type) := mkSourced { sourced : T; source_of : RequirementSource }.
Arguments mkSourced {T} _ _.
Arguments sourced {T} _.
Arguments source_of {T} _.

Definition merge_output_source (existing incoming : RequirementSource) : RequirementSource :=
  if bool_decide (existing ≠ incoming) then composite [existing; incoming] else existing.

(** * Fields that add up *)

Section Layers.
Context {Pattern Profiles Rule Group : Type} `{EqDecision Pattern} (no_profiles : Profiles).

(** [permissions.filesystem.deny_read] *)

Record PermissionsRequirementsToml := mkPermissions { pm_filesystem : option (option (list Pattern)); pm_profiles : Profiles }.

Record DenyReadMergeState := mkDenyRead { dr_deny_read : list Pattern; dr_source : option RequirementSource }.

Definition merge_source (existing : option RequirementSource) (source : RequirementSource) : option RequirementSource :=
  match existing with None => Some source | Some existing => Some (merge_output_source existing source) end.

(** The loop that adds what is not there yet. *)
Definition add_missing {A} `{EqDecision A} (source : RequirementSource) (st : list A * option RequirementSource) (x : A) : list A * option RequirementSource :=
  if bool_decide (x ∈ st.1) then st else (st.1 ++ [x], merge_source st.2 source).

Definition deny_read_merge (st : DenyReadMergeState) (incoming : option PermissionsRequirementsToml) (source : RequirementSource) : DenyReadMergeState :=
  match (incoming ≫= pm_filesystem) ≫= (λ deny_read, deny_read) with
  | None | Some [] => st
  | Some incoming_deny_read =>
      let '(deny_read, s) := foldl (add_missing source) (dr_deny_read st, dr_source st) incoming_deny_read in
      mkDenyRead deny_read s
  end.

Definition push_if_missing {A} `{EqDecision A} (l : list A) (x : A) : list A := if bool_decide (x ∈ l) then l else l ++ [x].

Definition deny_read_apply (st : DenyReadMergeState) (target : option (Sourced PermissionsRequirementsToml)) : option (Sourced PermissionsRequirementsToml) :=
  if bool_decide (dr_deny_read st = []) then target
  else
    let source := default SourceUnknown (dr_source st) in
    match target with
    | None => Some (mkSourced (mkPermissions (Some (Some (dr_deny_read st))) no_profiles) source)
    | Some existing =>
        let deny_read := default [] (default None (pm_filesystem (sourced existing))) in
        Some (mkSourced
          (mkPermissions (Some (Some (foldl push_if_missing deny_read (dr_deny_read st)))) (pm_profiles (sourced existing)))
          (if bool_decide (source_of existing ≠ source) then composite [source_of existing; source] else source_of existing))
    end.

(** [auto_review.required_on_models] *)

Record AutoReviewRequirementsToml := mkAutoReview { ar_required_on_models : option (list str); ar_ignore_rules : option bool }.

Record AutoReviewModelsMergeState := mkModels { am_slugs : list str; am_source : option RequirementSource }.

Definition auto_review_merge (st : AutoReviewModelsMergeState) (incoming : option AutoReviewRequirementsToml) (source : RequirementSource) : AutoReviewModelsMergeState :=
  match incoming ≫= ar_required_on_models with
  | None | Some [] => st
  | Some incoming_slugs =>
      let '(slugs, s) := foldl (add_missing source) (am_slugs st, am_source st) incoming_slugs in
      mkModels slugs s
  end.

Definition auto_review_apply (st : AutoReviewModelsMergeState) (target : option (Sourced AutoReviewRequirementsToml)) : option (Sourced AutoReviewRequirementsToml) :=
  if bool_decide (am_slugs st = []) then target
  else
    let source := default SourceUnknown (am_source st) in
    match target with
    | None => Some (mkSourced (mkAutoReview (Some (am_slugs st)) None) source)
    | Some existing =>
        Some (mkSourced (mkAutoReview (Some (am_slugs st)) (ar_ignore_rules (sourced existing))) (merge_output_source (source_of existing) source))
    end.

(** [rules.prefix_rules] *)

Definition rules_merge (target : option (Sourced (list Rule))) (incoming : option (list Rule)) (source : RequirementSource) : option (Sourced (list Rule)) :=
  match incoming, target with
  | None, _ => target
  | Some incoming, None => Some (mkSourced incoming source)
  | Some incoming, Some existing => Some (mkSourced (sourced existing ++ incoming) (merge_output_source (source_of existing) source))
  end.

(** [hooks] *)

Inductive HookDirectoryField := ManagedDir | WindowsManagedDir.
#[local] Instance HookDirectoryField_eq_dec : EqDecision HookDirectoryField.
Proof. solve_decision. Defined.

Definition current_platform (windows : bool) : HookDirectoryField := if windows then WindowsManagedDir else ManagedDir.
Definition inactive (f : HookDirectoryField) : HookDirectoryField := match f with ManagedDir => WindowsManagedDir | WindowsManagedDir => ManagedDir end.
Definition field_name (f : HookDirectoryField) : str :=
  match f with ManagedDir => lit "hooks.managed_dir" | WindowsManagedDir => lit "hooks.windows_managed_dir" end.

Record HookEventsToml := mkEvents {
  ev_pre_tool_use : list Group; ev_permission_request : list Group; ev_post_tool_use : list Group;
  ev_pre_compact : list Group; ev_post_compact : list Group; ev_session_start : list Group;
  ev_session_end : list Group; ev_user_prompt_submit : list Group; ev_subagent_start : list Group;
  ev_subagent_stop : list Group; ev_stop : list Group; ev_interrupt : list Group }.

Definition all_groups (e : HookEventsToml) : list (list Group) :=
  [ev_pre_tool_use e; ev_permission_request e; ev_post_tool_use e; ev_pre_compact e; ev_post_compact e; ev_session_start e;
   ev_session_end e; ev_user_prompt_submit e; ev_subagent_start e; ev_subagent_stop e; ev_stop e; ev_interrupt e].

Definition is_nil {A} (l : list A) : bool := match l with [] => true | _ => false end.
Definition events_is_empty (e : HookEventsToml) : bool := forallb is_nil (all_groups e).
Definition handler_count (handlers : Group → nat) (e : HookEventsToml) : nat := foldr (λ g n, handlers g + n) 0 (mjoin (all_groups e)).

Record ManagedHooksRequirementsToml := mkHooks { mh_managed_dir : option AbsPath; mh_windows_managed_dir : option AbsPath; mh_hooks : HookEventsToml }.

Definition hooks_is_empty (h : ManagedHooksRequirementsToml) : bool :=
  match mh_managed_dir h, mh_windows_managed_dir h with None, None => events_is_empty (mh_hooks h) | _, _ => false end.

Definition hook_dir (h : ManagedHooksRequirementsToml) (f : HookDirectoryField) : option AbsPath :=
  match f with ManagedDir => mh_managed_dir h | WindowsManagedDir => mh_windows_managed_dir h end.
Definition set_hook_dir (h : ManagedHooksRequirementsToml) (f : HookDirectoryField) (d : option AbsPath) : ManagedHooksRequirementsToml :=
  match f with ManagedDir => mkHooks d (mh_windows_managed_dir h) (mh_hooks h) | WindowsManagedDir => mkHooks (mh_managed_dir h) d (mh_hooks h) end.

(** [HookMergeState]: the field that counts here, and who set each directory. *)
Record HookMergeState := mkHookState { hs_directory_field : HookDirectoryField; hs_managed_source : option RequirementSource; hs_windows_source : option RequirementSource }.

Definition dir_source (st : HookMergeState) (f : HookDirectoryField) : option RequirementSource :=
  match f with ManagedDir => hs_managed_source st | WindowsManagedDir => hs_windows_source st end.
Definition track_source (st : HookMergeState) (f : HookDirectoryField) (source : RequirementSource) : HookMergeState :=
  let kept := Some (default source (dir_source st f)) in
  match f with
  | ManagedDir => mkHookState (hs_directory_field st) kept (hs_windows_source st)
  | WindowsManagedDir => mkHookState (hs_directory_field st) (hs_managed_source st) kept
  end.
Definition track_singleton_source (st : HookMergeState) (f : HookDirectoryField) (value : option AbsPath) (source : RequirementSource) : HookMergeState :=
  match value with Some _ => track_source st f source | None => st end.

Inductive CompositionError :=
| ComposedParse (message : str)
| Conflict (field : str) (existing_source incoming_source : RequirementSource) (message : str).

Definition merge_active_singleton (st : HookMergeState) (f : HookDirectoryField) (existing incoming : option AbsPath) (source : RequirementSource)
    : result CompositionError (HookMergeState * option AbsPath * bool) :=
  match incoming, existing with
  | None, _ => Ok (st, existing, false)
  | Some incoming, Some existing_value =>
      if bool_decide (existing_value ≠ incoming) then
        Err (Conflict (field_name f) (default source (dir_source st f)) source
          (lit "`" ++ display existing_value ++ lit "` conflicts with `" ++ display incoming ++ lit "`"))
      else Ok (st, existing, false)
  | Some incoming, None => Ok (track_source st f source, Some incoming, true)
  end.

Definition fill_singleton (st : HookMergeState) (f : HookDirectoryField) (existing incoming : option AbsPath) (source : RequirementSource)
    : HookMergeState * option AbsPath * bool :=
  match existing, incoming with
  | None, Some incoming => (track_source st f source, Some incoming, true)
  | _, _ => (st, existing, false)
  end.

Definition append_hook_events (existing incoming : HookEventsToml) : HookEventsToml * bool :=
  (mkEvents (ev_pre_tool_use existing ++ ev_pre_tool_use incoming) (ev_permission_request existing ++ ev_permission_request incoming)
     (ev_post_tool_use existing ++ ev_post_tool_use incoming) (ev_pre_compact existing ++ ev_pre_compact incoming)
     (ev_post_compact existing ++ ev_post_compact incoming) (ev_session_start existing ++ ev_session_start incoming)
     (ev_session_end existing ++ ev_session_end incoming) (ev_user_prompt_submit existing ++ ev_user_prompt_submit incoming)
     (ev_subagent_start existing ++ ev_subagent_start incoming) (ev_subagent_stop existing ++ ev_subagent_stop incoming)
     (ev_stop existing ++ ev_stop incoming) (ev_interrupt existing ++ ev_interrupt incoming),
   negb (events_is_empty incoming)).

Definition hooks_merge (st : HookMergeState) (target : option (Sourced ManagedHooksRequirementsToml)) (incoming : option ManagedHooksRequirementsToml) (source : RequirementSource)
    : result CompositionError (HookMergeState * option (Sourced ManagedHooksRequirementsToml)) :=
  match incoming with
  | None => Ok (st, target)
  | Some incoming =>
      if hooks_is_empty incoming then Ok (st, target)
      else match target with
      | None =>
          let st := track_singleton_source st ManagedDir (mh_managed_dir incoming) source in
          let st := track_singleton_source st WindowsManagedDir (mh_windows_managed_dir incoming) source in
          Ok (st, Some (mkSourced incoming source))
      | Some existing =>
          let active := hs_directory_field st in
          let? '(st, active_dir, changed_active) :=
            merge_active_singleton st active (hook_dir (sourced existing) active) (hook_dir incoming active) source in
          let '(st, inactive_dir, changed_inactive) :=
            fill_singleton st (inactive active) (hook_dir (sourced existing) (inactive active)) (hook_dir incoming (inactive active)) source in
          let '(events, changed_events) := append_hook_events (mh_hooks (sourced existing)) (mh_hooks incoming) in
          let value := set_hook_dir (set_hook_dir (mkHooks None None events) active active_dir) (inactive active) inactive_dir in
          let changed := changed_active || changed_inactive || changed_events in
          Ok (st, Some (mkSourced value (if changed then merge_output_source (source_of existing) source else source_of existing)))
      end
  end.

(** * Composing the layers *)

Context {Field : Type}.

(** A layer as [ComposableRequirementsLayer] holds it. *)
Record RequirementsLayer := mkReqLayer {
  rl_source : RequirementSource;
  rl_regular_toml : Toml;
  rl_rules : option (list Rule);
  rl_hooks : option ManagedHooksRequirementsToml;
  rl_permissions : option PermissionsRequirementsToml;
  rl_auto_review : option AutoReviewRequirementsToml
}.

(** What the merged table deserialises to: the fields with a merger of their own, the two policies
    that may not be blank, and the other fields by name. *)
Record ParsedRequirements := mkParsed {
  pr_permissions : option PermissionsRequirementsToml;
  pr_auto_review : option AutoReviewRequirementsToml;
  pr_guardian_policy_config : option str;
  pr_guardian_extra_policy : option str;
  pr_fields : gmap str Field
}.

Record Composed := mkComposed {
  co_permissions : option (Sourced PermissionsRequirementsToml);
  co_auto_review : option (Sourced AutoReviewRequirementsToml);
  co_guardian_policy_config : option (Sourced str);
  co_guardian_extra_policy : option (Sourced str);
  co_fields : gmap str (Sourced Field);
  co_rules : option (Sourced (list Rule));
  co_hooks : option (Sourced ManagedHooksRequirementsToml)
}.

(** The top-level keys a field is read from. *)
Definition keys_of_field (field : str) : list str :=
  if field =s lit "feature_requirements" then [lit "features"; lit "feature_requirements"]
  else if field =s lit "network" then [lit "experimental_network"]
  else [field].

Definition top_level_value_for_keys (value : Toml) (keys : list str) : option Toml :=
  match value with TTable table => find_map (λ key, tget key table) keys | _ => None end.

Definition source_for_top_level_keys (layers : list RequirementsLayer) (keys : list str) : RequirementSource :=
  let matching_layers := omap (λ l, (λ v, (rl_source l, v)) <$> top_level_value_for_keys (rl_regular_toml l) keys) layers in
  match last matching_layers with
  | None => SourceUnknown
  | Some (winning_source, winning_value) =>
      if negb (is_table winning_value) then winning_source
      else
        let table_sources := omap (λ m, if is_table m.2 then Some m.1 else None) (reverse matching_layers) in
        if 1 <? length table_sources then composite table_sources else winning_source
  end.

Definition set_sourced {A} (layers : list RequirementsLayer) (value : option A) (keys : list str) : option (Sourced A) :=
  (λ v, mkSourced v (source_for_top_level_keys layers keys)) <$> value.

Definition not_blank (value : option str) : option str := value ≫= λ v, if trim v =s [] then None else Some v.

Definition populate_merged_regular_fields_with_sources (requirements : ParsedRequirements) (layers : list RequirementsLayer) : Composed :=
  mkComposed (set_sourced layers (pr_permissions requirements) [lit "permissions"])
    (set_sourced layers (pr_auto_review requirements) [lit "auto_review"])
    (set_sourced layers (not_blank (pr_guardian_policy_config requirements)) [lit "guardian_policy_config"])
    (set_sourced layers (not_blank (pr_guardian_extra_policy requirements)) [lit "guardian_extra_policy"])
    (map_imap (λ field v, Some (mkSourced v (source_for_top_level_keys layers (keys_of_field field)))) (pr_fields requirements))
    None None.

Record MergeState := mkMerge {
  ms_rules : option (Sourced (list Rule));
  ms_hook_state : HookMergeState;
  ms_hooks : option (Sourced ManagedHooksRequirementsToml);
  ms_deny_read : DenyReadMergeState;
  ms_models : AutoReviewModelsMergeState
}.

Fixpoint merge_domain_fields (high_to_low : list RequirementsLayer) (st : MergeState) : result CompositionError MergeState :=
  match high_to_low with
  | [] => Ok st
  | layer :: layers =>
      let rules := rules_merge (ms_rules st) (rl_rules layer) (rl_source layer) in
      let? '(hook_state, hooks) := hooks_merge (ms_hook_state st) (ms_hooks st) (rl_hooks layer) (rl_source layer) in
      let deny_read := deny_read_merge (ms_deny_read st) (rl_permissions layer) (rl_source layer) in
      let models := auto_review_merge (ms_models st) (rl_auto_review layer) (rl_source layer) in
      merge_domain_fields layers (mkMerge rules hook_state hooks deny_read models)
  end.

Definition initial_merge (directory_field : HookDirectoryField) : MergeState :=
  mkMerge None (mkHookState directory_field None None) None (mkDenyRead [] None) (mkModels [] None).

Context (to_lowercase : str → str) (windows : bool) (parse : Toml → result str ParsedRequirements) (is_empty : Composed → bool).

Definition merged_requirements (layers : list RequirementsLayer) : Toml :=
  foldl (λ merged l, merge_toml_values to_lowercase windows merged (rl_regular_toml l)) (TTable []) layers.

Definition compose_output (layers : list RequirementsLayer) : result CompositionError Composed :=
  let? requirements := map_err ComposedParse (parse (merged_requirements layers)) in
  let output := populate_merged_regular_fields_with_sources requirements layers in
  let? st := merge_domain_fields (reverse layers) (initial_merge (current_platform windows)) in
  Ok (mkComposed (deny_read_apply (ms_deny_read st) (co_permissions output)) (auto_review_apply (ms_models st) (co_auto_review output))
        (co_guardian_policy_config output) (co_guardian_extra_policy output) (co_fields output) (ms_rules st) (ms_hooks st)).

Definition compose (layers : list RequirementsLayer) : result CompositionError (option Composed) :=
  let? output := compose_output layers in
  Ok (if is_empty output then None else Some output).

(** * What layers demand stays demanded *)

(** Denied reads a set of requirements results in ([FilesystemConstraints::from]). *)
Definition deny_read_of (p : option PermissionsRequirementsToml) : list Pattern := default [] (default None (p ≫= pm_filesystem)).
Definition models_of (a : option AutoReviewRequirementsToml) : list str := default [] (a ≫= ar_required_on_models).
Definition rules_of (r : option (list Rule)) : list Rule := default [] r.
Definition no_hooks : ManagedHooksRequirementsToml := mkHooks None None (mkEvents [] [] [] [] [] [] [] [] [] [] [] []).

(** [h] runs what [demanded] runs, from the same directory. *)
Definition hooks_kept (active : HookDirectoryField) (demanded h : ManagedHooksRequirementsToml) : Prop :=
  Forall2 (λ a b, a ⊆ b) (all_groups (mh_hooks demanded)) (all_groups (mh_hooks h))
  ∧ ∀ d, hook_dir demanded active = Some d → hook_dir h active = Some d.

Lemma add_missing_spec {A} `{EqDecision A} source (l : list A) st :
  (foldl (add_missing source) st l).1 ⊆ st.1 ++ l ∧ st.1 ⊆ (foldl (add_missing source) st l).1 ∧ l ⊆ (foldl (add_missing source) st l).1.
Proof.
  revert st. induction l as [|x l IH]; intros st; cbn [foldl]; [set_solver|].
  destruct (IH (add_missing source st x)) as (H1 & H2 & H3). unfold add_missing in *. case_bool_decide; cbn in *; set_solver.
Qed.

Lemma deny_read_merge_spec st incoming source : ∀ x, x ∈ dr_deny_read (deny_read_merge st incoming source) ↔ x ∈ dr_deny_read st ++ deny_read_of incoming.
Proof.
  unfold deny_read_merge, deny_read_of. destruct (incoming ≫= pm_filesystem) as [[l|]|]; cbn; [|by rewrite app_nil_r..].
  destruct l as [|x l]; [by rewrite app_nil_r|].
  pose proof (add_missing_spec source (x :: l) (dr_deny_read st, dr_source st)) as (H1 & H2 & H3).
  destruct (foldl _ _ _) as [l' s']. cbn in *. set_solver.
Qed.

Lemma auto_review_merge_spec st incoming source : ∀ x, x ∈ am_slugs (auto_review_merge st incoming source) ↔ x ∈ am_slugs st ++ models_of incoming.
Proof.
  unfold auto_review_merge, models_of. destruct (incoming ≫= ar_required_on_models) as [l|]; cbn; [|by rewrite app_nil_r].
  destruct l as [|x l]; [by rewrite app_nil_r|].
  pose proof (add_missing_spec source (x :: l) (am_slugs st, am_source st)) as (H1 & H2 & H3).
  destruct (foldl _ _ _) as [l' s']. cbn in *. set_solver.
Qed.

Lemma rules_merge_spec target incoming source :
  rules_of (sourced <$> rules_merge target incoming source) = rules_of (sourced <$> target) ++ rules_of incoming.
Proof. destruct incoming, target; cbn; by rewrite ?app_nil_r. Qed.

Lemma hooks_kept_refl active h : hooks_kept active h h.
Proof. split; [|done]. apply Forall2_same_length_lookup_2; [done|]. intros i a b Ha Hb. by simplify_eq. Qed.

Lemma hooks_kept_trans active a b c : hooks_kept active a b → hooks_kept active b c → hooks_kept active a c.
Proof.
  intros [H1 D1] [H2 D2]. split; [|by auto]. revert H1 H2. generalize (all_groups (mh_hooks a)) (all_groups (mh_hooks b)) (all_groups (mh_hooks c)).
  intros la lb lc H1. revert lc. induction H1 as [|x y la lb Hxy _ IH]; intros lc H2; inv H2; constructor; [by etrans|by apply IH].
Qed.

Lemma no_hooks_kept active h : hooks_kept active no_hooks h.
Proof. split; [repeat constructor; apply list_subseteq_nil|by destruct active]. Qed.

Lemma empty_hooks_kept active demanded h : hooks_is_empty demanded = true → hooks_kept active demanded h.
Proof.
  unfold hooks_is_empty, events_is_empty. intros He. destruct (mh_managed_dir demanded) eqn:Hm, (mh_windows_managed_dir demanded) eqn:Hw; try done.
  split; [|intros d; destruct active; cbn; by rewrite ?Hm, ?Hw].
  assert (Forall (λ l, l = []) (all_groups (mh_hooks demanded))) as Hf.
  { apply Forall_forall. intros l Hl. rewrite forallb_forall in He. specialize (He l (proj1 (list_elem_of_In _ _) Hl)). by destruct l. }
  apply Forall2_same_length_lookup_2; [done|]. intros i a b Ha _. rewrite Forall_lookup in Hf. rewrite (Hf i a Ha). apply list_subseteq_nil.
Qed.

Lemma appended_kept existing incoming :
  Forall2 (λ a b, a ⊆ b) (all_groups existing) (all_groups (append_hook_events existing incoming).1)
  ∧ Forall2 (λ a b, a ⊆ b) (all_groups incoming) (all_groups (append_hook_events existing incoming).1).
Proof. split; repeat constructor; set_solver. Qed.

Lemma track_field st f source : hs_directory_field (track_source st f source) = hs_directory_field st.
Proof. by destruct f. Qed.
Lemma track_singleton_field st f v source : hs_directory_field (track_singleton_source st f v source) = hs_directory_field st.
Proof. by destruct v, f. Qed.

Lemma active_singleton_spec st f existing incoming source st' dir changed :
  merge_active_singleton st f existing incoming source = Ok (st', dir, changed) →
  hs_directory_field st' = hs_directory_field st ∧ (∀ d, existing = Some d → dir = Some d) ∧ (∀ d, incoming = Some d → dir = Some d).
Proof.
  unfold merge_active_singleton. destruct incoming as [i|], existing as [e|]; try case_bool_decide; intros; simplify_eq; split_and!; try naive_solver.
  all: try by rewrite track_field.
Qed.

Lemma set_active_dir h active d d' : hook_dir (set_hook_dir (set_hook_dir h active d) (inactive active) d') active = d.
Proof. by destruct active. Qed.

Lemma hooks_merge_spec st target incoming source st' target' :
  hooks_merge st target incoming source = Ok (st', target') →
  hs_directory_field st' = hs_directory_field st
  ∧ hooks_kept (hs_directory_field st) (default no_hooks (sourced <$> target)) (default no_hooks (sourced <$> target'))
  ∧ hooks_kept (hs_directory_field st) (default no_hooks incoming) (default no_hooks (sourced <$> target')).
Proof.
  intros Hm. unfold hooks_merge in Hm. destruct incoming as [inc|]; [|simplify_eq; eauto using hooks_kept_refl, no_hooks_kept].
  destruct (hooks_is_empty inc) eqn:He; [simplify_eq; eauto using hooks_kept_refl, empty_hooks_kept|].
  destruct target as [t|]; [|simplify_eq; rewrite !track_singleton_field; eauto using hooks_kept_refl, no_hooks_kept].
  destruct (merge_active_singleton _ _ _ _ _) as [[[st1 dir] c1]|] eqn:Ha; [|done]. cbn [res_bind] in Hm.
  apply active_singleton_spec in Ha as (Hf & He1 & He2).
  destruct (fill_singleton _ _ _ _ _) as [[st2 dir2] c2] eqn:Hfill.
  assert (hs_directory_field st2 = hs_directory_field st1) as Hf2.
  { unfold fill_singleton in Hfill. repeat case_match; simplify_eq; by rewrite ?track_field. }
  destruct (append_hook_events _ _) as [events c3] eqn:Hev. injection Hm as <- <-. cbn [sourced fmap option_fmap option_map default id].
  pose proof (appended_kept (mh_hooks (sourced t)) (mh_hooks inc)) as [Hk1 Hk2]. rewrite Hev in Hk1, Hk2. cbn [fst] in *.
  assert (∀ h : ManagedHooksRequirementsToml, mh_hooks (set_hook_dir (set_hook_dir h (hs_directory_field st) dir) (inactive (hs_directory_field st)) dir2) = mh_hooks h) as Hh.
  { intros h. by destruct (hs_directory_field st). }
  split; [congruence|]. unfold hooks_kept. rewrite Hh. cbn [mh_hooks].
  split; split; auto; intros d Hd; rewrite set_active_dir; auto.
Qed.

Definition hooks_out (st : MergeState) : ManagedHooksRequirementsToml := default no_hooks (sourced <$> ms_hooks st).
Notation active st := (hs_directory_field (ms_hook_state st)).

Lemma merge_domain_spec layers st st' : merge_domain_fields layers st = Ok st' →
  active st' = active st
  ∧ (∀ x, x ∈ dr_deny_read (ms_deny_read st) → x ∈ dr_deny_read (ms_deny_read st'))
  ∧ (∀ l x, l ∈ layers → x ∈ deny_read_of (rl_permissions l) → x ∈ dr_deny_read (ms_deny_read st'))
  ∧ (∀ x, x ∈ am_slugs (ms_models st) → x ∈ am_slugs (ms_models st'))
  ∧ (∀ l x, l ∈ layers → x ∈ models_of (rl_auto_review l) → x ∈ am_slugs (ms_models st'))
  ∧ rules_of (sourced <$> ms_rules st') = rules_of (sourced <$> ms_rules st) ++ mjoin ((λ l, rules_of (rl_rules l)) <$> layers)
  ∧ hooks_kept (active st) (hooks_out st) (hooks_out st')
  ∧ (∀ l, l ∈ layers → hooks_kept (active st) (default no_hooks (rl_hooks l)) (hooks_out st')).
Proof.
  revert st. induction layers as [|l layers IH]; intros st Hm; cbn in Hm.
  - injection Hm as <-. split_and!; try apply hooks_kept_refl; try (intros ? ? Hl; by apply not_elem_of_nil in Hl);
      try (intros ? Hl; by apply not_elem_of_nil in Hl); try done. cbn. by rewrite app_nil_r.
  - destruct (hooks_merge _ _ _ _) as [[hs hooks]|] eqn:Hh; [|done]. cbn [res_bind] in Hm.
    apply hooks_merge_spec in Hh as (Hf & Hk1 & Hk2). apply IH in Hm as (Ha & D1 & D2 & M1 & M2 & R & K1 & K2).
    cbn [ms_hook_state ms_deny_read ms_models ms_rules] in *. rewrite Hf in *. unfold hooks_out in K1 at 1. cbn [ms_hooks] in K1.
    split_and!; [congruence|..].
    + intros x Hx. apply D1, deny_read_merge_spec. set_solver.
    + intros l' x [->|Hl]%elem_of_cons Hx; [|by eapply D2]. apply D1, deny_read_merge_spec. set_solver.
    + intros x Hx. apply M1, auto_review_merge_spec. set_solver.
    + intros l' x [->|Hl]%elem_of_cons Hx; [|by eapply M2]. apply M1, auto_review_merge_spec. set_solver.
    + rewrite R, rules_merge_spec. cbn. by rewrite <- app_assoc.
    + by eapply hooks_kept_trans.
    + intros l' [->|Hl]%elem_of_cons; [by eapply hooks_kept_trans|by apply K2].
Qed.

Lemma push_missing_spec {A} `{EqDecision A} (l l' : list A) x : x ∈ l ++ l' → x ∈ foldl push_if_missing l l'.
Proof.
  revert l. induction l' as [|y l' IH]; intros l Hx; cbn [foldl]; [by rewrite app_nil_r in Hx|].
  apply IH. unfold push_if_missing. case_bool_decide; set_solver.
Qed.

Lemma deny_read_apply_spec st target x : x ∈ dr_deny_read st → x ∈ deny_read_of (sourced <$> deny_read_apply st target).
Proof.
  intros Hx. unfold deny_read_apply. case_bool_decide as Hn; [by rewrite Hn in Hx; apply not_elem_of_nil in Hx|].
  destruct target as [t|]; cbn; [|done]. apply push_missing_spec. set_solver.
Qed.

Lemma auto_review_apply_spec st target x : x ∈ am_slugs st → x ∈ models_of (sourced <$> auto_review_apply st target).
Proof.
  intros Hx. unfold auto_review_apply. case_bool_decide as Hn; [by rewrite Hn in Hx; apply not_elem_of_nil in Hx|].
  by destruct target.
Qed.

(** C15: composing the layers of managed requirements takes nothing away: every read a layer denies is
    denied, every model a layer wants reviewed is reviewed, the rules are those of all layers with
    the higher layers first, and every hook of every layer runs, from the directory the layer names
    for this platform, or the composition fails. *)
Theorem demands_add_up layers out : compose_output layers = Ok out →
  (∀ l x, l ∈ layers → x ∈ deny_read_of (rl_permissions l) → x ∈ deny_read_of (sourced <$> co_permissions out))
  ∧ (∀ l x, l ∈ layers → x ∈ models_of (rl_auto_review l) → x ∈ models_of (sourced <$> co_auto_review out))
  ∧ rules_of (sourced <$> co_rules out) = mjoin ((λ l, rules_of (rl_rules l)) <$> reverse layers)
  ∧ ∀ l, l ∈ layers → hooks_kept (current_platform windows) (default no_hooks (rl_hooks l)) (default no_hooks (sourced <$> co_hooks out)).
Proof.
  intros Hc. unfold compose_output in Hc. destruct (parse _) as [requirements|]; [|done]. cbn [map_err res_bind] in Hc.
  destruct (merge_domain_fields _ _) as [st|] eqn:Hm; [|done]. injection Hc as <-.
  apply merge_domain_spec in Hm as (_ & _ & D & _ & M & R & _ & K). cbn [co_permissions co_auto_review co_rules co_hooks].
  split_and!.
  - intros l x Hl Hx. eapply deny_read_apply_spec, D, Hx. by apply elem_of_reverse.
  - intros l x Hl Hx. eapply auto_review_apply_spec, M, Hx. by apply elem_of_reverse.
  - done.
  - intros l Hl. apply K. by apply elem_of_reverse.
Qed.
End Layers.

(** Two layers, each with demands of its own. *)
Definition sample_demand (pattern : nat) (source : RequirementSource) : RequirementsLayer (Pattern := nat) (Profiles := unit) (Rule := nat) (Group := nat) :=
  mkReqLayer source (TTable []) (Some [pattern])
    (Some (mkHooks (Some [lit "etc"; lit "hooks"]) None (mkEvents [pattern] [] [] [] [] [] [] [] [] [] [] [])))
    (Some (mkPermissions (Some (Some [pattern])) tt)) None.
Definition sample_demands := [sample_demand 1 (SystemRequirementsToml [lit "etc"]); sample_demand 2 SourceLegacyMdm].
Definition sample_parse (_ : Toml) : result str (ParsedRequirements (Pattern := nat) (Profiles := unit) (Field := unit)) := Ok (mkParsed None None None None ∅).

Lemma demands_add_up_witness :
  ∃ out, compose_output tt to_ascii_lowercase false sample_parse sample_demands = Ok out ∧ 1 ∈ deny_read_of (sourced <$> co_permissions out).
Proof.
  destruct (compose_output tt to_ascii_lowercase false sample_parse sample_demands) as [out|e] eqn:Hc; [|vm_compute in Hc; discriminate].
  exists out. split; [reflexivity|].
  apply (proj1 (demands_add_up tt to_ascii_lowercase false sample_parse sample_demands out Hc) (sample_demand 1 (SystemRequirementsToml [lit "etc"])));
    apply elem_of_cons; left; reflexivity.
Defined.
