(* ===== verification/ManagedPolicy.v ===== *)
(** config/src/config_requirements.rs, [TryFrom<ConfigRequirementsWithSources> for ConfigRequirements]:
    managed requirements as constraints on the values a session may use. An allow-list of sandbox modes
    becomes a check on permission profiles; with the access rules of the permission model it is shown
    what such a check really rules out. Unread requirement types, the parsing of rules, the check of
    an MCP server requirement and derived [Debug] output are parameters. *)
From S2P Require Import Prelude Str UriPath ApprovalTypes Permissions AccessRules PermissionProfile ConfigStack RequirementLayers Constrained.

Inductive SandboxModeRequirement := ModeReadOnly | ModeWorkspaceWrite | ModeDangerFullAccess | ModeExternalSandbox.
Inductive SandboxMode := SandboxReadOnly | SandboxWorkspaceWrite | SandboxDangerFullAccess.
Inductive WebSearchMode := WebDisabled | WebCached | WebIndexed | WebLive.
Inductive WindowsSandboxModeToml := ModeElevated | ModeUnelevated | ModeMxc.
Inductive WindowsSandboxImplementationToml := ImplElevated | ImplUnelevated.
Inductive ApprovalsReviewer := ReviewerUser | ReviewerAutoReview.

#[export] Instance SandboxModeRequirement_eq_dec : EqDecision SandboxModeRequirement.
Proof. solve_decision. Defined.
#[export] Instance WebSearchMode_eq_dec : EqDecision WebSearchMode.
Proof. solve_decision. Defined.
#[export] Instance WindowsSandboxImplementationToml_eq_dec : EqDecision WindowsSandboxImplementationToml.
Proof. solve_decision. Defined.
#[export] Instance ApprovalsReviewer_eq_dec : EqDecision ApprovalsReviewer.
Proof. solve_decision. Defined.

Definition requirement_of_sandbox_mode (mode : SandboxMode) : SandboxModeRequirement :=
  match mode with
  | SandboxReadOnly => ModeReadOnly
  | SandboxWorkspaceWrite => ModeWorkspaceWrite
  | SandboxDangerFullAccess => ModeDangerFullAccess
  end.

Record WindowsRequirementsToml := mkWindows {
  wr_allowed_sandbox_implementations : option (list WindowsSandboxImplementationToml);
  wr_allow_mxc : option bool;
  wr_require_mxc : option bool
}.

(** Derived [Debug] output, as error messages show it. *)
Class Debug (T : Type) := debug : T → str.

Abbreviation Err' := (@ConstraintError RequirementSource).
Abbreviation Checked T := (@Constrained T RequirementSource).

Record ConstrainedWithSource (T : Type) := mkWithSource { cws_value : Checked T; cws_source : option RequirementSource }.
Arguments mkWithSource {T} _ _.
Arguments cws_value {T} _.
Arguments cws_source {T} _.

(** [/] and white space do not belong in a model slug. *)
Definition SLASH_CHAR : str := lit "/".

Section Policy.
Context `{!UrlCodec} (native : PathConvention).
Context {Mcp McpRequirement RulesToml Rules Hooks Residency Network NetworkConstraints Permissions Filesystem Other : Type}.
Context `{EqDecision Hooks, EqDecision Residency}.
Context `{!Debug str, !Debug AskForApproval, !Debug (list AskForApproval), !Debug ApprovalsReviewer, !Debug (list ApprovalsReviewer),
  !Debug SandboxModeRequirement, !Debug (list SandboxModeRequirement), !Debug (option WindowsSandboxModeToml),
  !Debug (list WindowsSandboxImplementationToml), !Debug WebSearchMode, !Debug (list WebSearchMode), !Debug Hooks, !Debug (option Residency)}.
Context (validate_mcp_server_requirement : McpRequirement → result str unit)
  (to_requirements_policy : RulesToml → result str Rules)
  (hook_handlers : Hooks → nat) (network_constraints : Network → NetworkConstraints) (filesystem_constraints : Permissions → Filesystem).

Record ConfigRequirementsWithSources := mkSourcedRequirements {
  rs_allowed_approval_policies : option (Sourced (list AskForApproval));
  rs_allowed_approvals_reviewers : option (Sourced (list ApprovalsReviewer));
  rs_allowed_sandbox_modes : option (Sourced (list SandboxModeRequirement));
  rs_allowed_web_search_modes : option (Sourced (list WebSearchMode));
  rs_windows : option (Sourced WindowsRequirementsToml);
  rs_enforce_residency : option (Sourced Residency);
  rs_auto_review_models : option (Sourced (option (list str)));
  rs_mcp_servers : option (Sourced (list (str * McpRequirement)));
  rs_plugin_mcp_servers : option (Sourced (list (str * option (list (str * McpRequirement)))));
  rs_rules : option (Sourced RulesToml);
  rs_hooks : option (Sourced Hooks);
  rs_network : option (Sourced Network);
  rs_permissions : option (Sourced Permissions);
  rs_feature_requirements : option (Sourced (list (str * bool)));
  rs_other : Other (* the fields that are passed on unchanged or dropped *)
}.

Record ManagedRequirements := mkManaged {
  mr_approval_policy : ConstrainedWithSource AskForApproval;
  mr_approvals_reviewer : ConstrainedWithSource ApprovalsReviewer;
  mr_permission_profile : ConstrainedWithSource PermissionProfile;
  mr_windows_sandbox_mode : ConstrainedWithSource (option WindowsSandboxModeToml);
  mr_web_search_mode : ConstrainedWithSource WebSearchMode;
  mr_enforce_residency : ConstrainedWithSource (option Residency);
  mr_auto_review_required_models : option (Sourced (list str));
  mr_managed_hooks : option (ConstrainedWithSource Hooks);
  mr_exec_policy : option (Sourced Rules);
  mr_network : option (Sourced NetworkConstraints);
  mr_filesystem : option (Sourced Filesystem);
  mr_mcp_servers : option (Sourced (list (str * McpRequirement)));
  mr_plugin_mcp_servers : option (Sourced (list (str * option (list (str * McpRequirement)))));
  mr_feature_requirements : option (Sourced (list (str * bool)));
  mr_other : Other
}.

(** * Checks *)

Fixpoint check_model_slugs (slugs : list str) (source : RequirementSource) : result Err' unit :=
  match slugs with
  | [] => Ok tt
  | slug :: slugs =>
      if (trim slug =s []) || negb (trim slug =s slug) || str_contains SLASH_CHAR slug then
        Err (InvalidValue (lit "auto_review.required_on_models") (debug slug)
          (lit "non-empty model slugs without surrounding whitespace or provider namespaces") source)
      else check_model_slugs slugs source
  end.

Definition auto_review_required_models (auto_review : option (Sourced (option (list str)))) : result Err' (option (Sourced (list str))) :=
  match auto_review with
  | Some (mkSourced (Some (slug :: slugs)) source) =>
      let? _ := check_model_slugs (slug :: slugs) source in
      Ok (Some (mkSourced (slug :: slugs) source))
  | _ => Ok None
  end.

Fixpoint validate_mcp_server_requirements (requirements : list (str * McpRequirement)) (source : RequirementSource) (plugin_name : option str) : result Err' unit :=
  match requirements with
  | [] => Ok tt
  | (server_name, requirement) :: requirements =>
      match validate_mcp_server_requirement requirement with
      | Err reason =>
          Err (McpServerRequirementParse (match plugin_name with Some plugin_name => plugin_name ++ SLASH_CHAR ++ server_name | None => server_name end) source reason)
      | Ok _ => validate_mcp_server_requirements requirements source plugin_name
      end
  end.

Fixpoint validate_plugins (plugins : list (str * option (list (str * McpRequirement)))) (source : RequirementSource) : result Err' unit :=
  match plugins with
  | [] => Ok tt
  | (plugin_name, servers) :: plugins =>
      let? _ := match servers with Some servers => validate_mcp_server_requirements servers source (Some plugin_name) | None => Ok tt end in
      validate_plugins plugins source
  end.

(** The two allow-lists that are built alike: the first entry is the value to start from. *)
Definition from_allow_list {T} `{EqDecision T, !Debug T, !Debug (list T)} (list_field field : str) (dflt : T) (allowed : option (Sourced (list T)))
    : result Err' (ConstrainedWithSource T) :=
  match allowed with
  | Some (mkSourced policies source) =>
      match policies with
      | [] => Err (empty_field list_field)
      | initial_value :: _ =>
          let? constrained := new_constrained initial_value (λ candidate,
            if bool_decide (candidate ∈ policies) then Ok tt
            else Err (InvalidValue field (debug candidate) (debug policies) source)) in
          Ok (mkWithSource constrained (Some source))
      end
  | None => Ok (mkWithSource (allow_any dflt) None)
  end.

Definition sandbox_mode_requirement_for_permission_profile (permission_profile : PermissionProfile) : SandboxModeRequirement :=
  match permission_profile with
  | Disabled => ModeDangerFullAccess
  | External _ => ModeExternalSandbox
  | Managed _ _ =>
      let file_system_policy := profile_file_system permission_profile in
      if has_full_disk_write_access_for_convention (Some native) file_system_policy then ModeDangerFullAccess
      else if existsb (λ e, can_write (entry_access e)) (entries file_system_policy) then ModeWorkspaceWrite
      else ModeReadOnly
  end.

(** [PermissionProfile::read_only] *)
Definition profile_read_only : PermissionProfile :=
  match from_sandbox_policy read_only with
  | Some file_system => Managed file_system NetworkRestricted
  | None => Disabled
  end.

Definition check_sandbox_mode (modes : list SandboxModeRequirement) (source : RequirementSource) (candidate : PermissionProfile) : result Err' unit :=
  let mode := sandbox_mode_requirement_for_permission_profile candidate in
  if bool_decide (mode ∈ modes) then Ok tt
  else Err (InvalidValue (lit "sandbox_mode") (debug mode) (debug modes) source).

Definition permission_profile_constraint (allowed_sandbox_modes : option (Sourced (list SandboxModeRequirement))) : result Err' (ConstrainedWithSource PermissionProfile) :=
  match allowed_sandbox_modes with
  | Some (mkSourced modes source) =>
      if negb (bool_decide (ModeReadOnly ∈ modes)) then
        Err (InvalidValue (lit "allowed_sandbox_modes") (debug modes) (lit "must include 'read-only' to allow any PermissionProfile") source)
      else
        let? constrained := new_constrained profile_read_only (check_sandbox_mode modes source) in
        Ok (mkWithSource constrained (Some source))
  | None => Ok (mkWithSource (allow_any profile_read_only) None)
  end.

Definition windows_implementation_check (implementations : list WindowsSandboxImplementationToml) (source : RequirementSource)
    (candidate : option WindowsSandboxModeToml) : result Err' unit :=
  let refused := Err (InvalidValue (lit "windows.sandbox") (debug candidate) (debug implementations) source) in
  match candidate with
  | Some ModeMxc => Ok tt
  | Some ModeElevated => if bool_decide (ImplElevated ∈ implementations) then Ok tt else refused
  | Some ModeUnelevated => if bool_decide (ImplUnelevated ∈ implementations) then Ok tt else refused
  | None => refused
  end.

Definition windows_implementations (windows : option (Sourced WindowsRequirementsToml)) : result Err' (ConstrainedWithSource (option WindowsSandboxModeToml)) :=
  match windows with
  | Some (mkSourced (mkWindows (Some implementations) _ _) source) =>
      if bool_decide (implementations = []) then Err (empty_field (lit "windows.allowed_sandbox_implementations"))
      else
        let initial_value := if bool_decide (ImplElevated ∈ implementations) then ModeElevated else ModeUnelevated in
        let? constrained := new_constrained (Some initial_value) (windows_implementation_check implementations source) in
        Ok (mkWithSource constrained (Some source))
  | _ => Ok (mkWithSource (allow_any None) None)
  end.

Definition mxc_check (source : RequirementSource) (candidate : option WindowsSandboxModeToml) : result Err' unit :=
  match candidate with
  | Some ModeMxc => Err (InvalidValue (lit "windows.sandbox") (debug candidate) (lit "windows.allow_mxc = false") source)
  | _ => Ok tt
  end.

Definition windows_sandbox_mode_constraint (windows : option (Sourced WindowsRequirementsToml)) : result Err' (ConstrainedWithSource (option WindowsSandboxModeToml)) :=
  let? windows_sandbox_mode := windows_implementations windows in
  match windows with
  | Some w =>
      if bool_decide (wr_allow_mxc (sourced w) = Some false) then
        let '(c, r) := add_validator (cws_value windows_sandbox_mode) (mxc_check (source_of w)) in
        let? _ := r in
        Ok (mkWithSource c (cws_source windows_sandbox_mode))
      else Ok windows_sandbox_mode
  | None => Ok windows_sandbox_mode
  end.

(** The modes of a [BTreeSet], in order. *)
Definition web_search_order : list WebSearchMode := [WebDisabled; WebCached; WebIndexed; WebLive].

Definition web_search_mode_constraint (allowed : option (Sourced (list WebSearchMode))) : result Err' (ConstrainedWithSource WebSearchMode) :=
  match allowed with
  | Some (mkSourced modes source) =>
      let accepted := filter (λ m, m ∈ WebDisabled :: modes) web_search_order in
      let initial_value :=
        if bool_decide (WebCached ∈ accepted) then WebCached
        else if bool_decide (WebIndexed ∈ accepted) then WebIndexed
        else if bool_decide (WebLive ∈ accepted) then WebLive
        else WebDisabled in
      let? constrained := new_constrained initial_value (λ candidate,
        if bool_decide (candidate ∈ accepted) then Ok tt
        else Err (InvalidValue (lit "web_search_mode") (debug candidate) (debug accepted) source)) in
      Ok (mkWithSource constrained (Some source))
  | None => Ok (mkWithSource (allow_any WebCached) None)
  end.

(** A value that has to stay what it is. *)
Definition exactly {T} `{EqDecision T, !Debug T} (field : str) (required : T) (source : RequirementSource) : result Err' (ConstrainedWithSource T) :=
  let? constrained := new_constrained required (λ candidate,
    if bool_decide (candidate = required) then Ok tt
    else Err (InvalidValue field (debug candidate) (debug required) source)) in
  Ok (mkWithSource constrained (Some source)).

Definition managed_hooks_constraint (hooks : option (Sourced Hooks)) : result Err' (option (ConstrainedWithSource Hooks)) :=
  match hooks with
  | Some (mkSourced value source) =>
      if 0 <? hook_handlers value then
        let? c := exactly (lit "hooks") value source in
        Ok (Some c)
      else Ok None
  | None => Ok None
  end.

Definition residency_constraint (residency : option (Sourced Residency)) : result Err' (ConstrainedWithSource (option Residency)) :=
  match residency with
  | Some (mkSourced residency source) => exactly (lit "enforce_residency") (Some residency) source
  | None => Ok (mkWithSource (allow_any None) None)
  end.

Definition exec_policy_of (rules : option (Sourced RulesToml)) : result Err' (option (Sourced Rules)) :=
  match rules with
  | Some (mkSourced value source) =>
      match to_requirements_policy value with
      | Ok policy => Ok (Some (mkSourced policy source))
      | Err reason => Err (ExecPolicyParse source reason)
      end
  | None => Ok None
  end.

Definition map_sourced {A B} (f : A → B) (s : Sourced A) : Sourced B := mkSourced (f (sourced s)) (source_of s).

Definition non_empty_features (features : option (Sourced (list (str * bool)))) : option (Sourced (list (str * bool))) :=
  features ≫= λ f, if bool_decide (sourced f = []) then None else Some f.

Definition try_from (toml : ConfigRequirementsWithSources) : result Err' ManagedRequirements :=
  let? models := auto_review_required_models (rs_auto_review_models toml) in
  let? _ := match rs_mcp_servers toml with Some r => validate_mcp_server_requirements (sourced r) (source_of r) None | None => Ok tt end in
  let? _ := match rs_plugin_mcp_servers toml with Some p => validate_plugins (sourced p) (source_of p) | None => Ok tt end in
  let? approval_policy := from_allow_list (lit "allowed_approval_policies") (lit "approval_policy") OnRequest (rs_allowed_approval_policies toml) in
  let? approvals_reviewer := from_allow_list (lit "allowed_approvals_reviewers") (lit "approvals_reviewer") ReviewerUser (rs_allowed_approvals_reviewers toml) in
  let? permission_profile := permission_profile_constraint (rs_allowed_sandbox_modes toml) in
  let? windows_sandbox_mode := windows_sandbox_mode_constraint (rs_windows toml) in
  let? exec_policy := exec_policy_of (rs_rules toml) in
  let? web_search_mode := web_search_mode_constraint (rs_allowed_web_search_modes toml) in
  let? managed_hooks := managed_hooks_constraint (rs_hooks toml) in
  let? enforce_residency := residency_constraint (rs_enforce_residency toml) in
  Ok (mkManaged approval_policy approvals_reviewer permission_profile windows_sandbox_mode web_search_mode enforce_residency models
        managed_hooks exec_policy (map_sourced network_constraints <$> rs_network toml) (map_sourced filesystem_constraints <$> rs_permissions toml)
        (rs_mcp_servers toml) (rs_plugin_mcp_servers toml) (non_empty_features (rs_feature_requirements toml)) (rs_other toml)).

(** * Models that need a reviewer *)

Definition auto_review_required_for_model (protected_models : option (Sourced (list str))) (model : str) : bool :=
  match protected_models with
  | None => false
  | Some protected_models =>
      let found model := bool_decide (model ∈ sourced protected_models) in
      match split_once SLASH_CHAR model with
      | Some (namespace, suffix) =>
          if negb (namespace =s []) && negb (str_contains SLASH_CHAR suffix)
             && forallb (λ c, is_ascii_alphanumeric c || N.eqb c 95 || N.eqb c 45) namespace
          then found suffix else false
      | None => found model
      end
  end.

(** * What the constraints rule out *)

(** The value after whatever changes are made to a constrained setting. *)
Definition value_after {T} (c : ConstrainedWithSource T) (ops : list (@Op T RequirementSource)) : T := value (run_ops (cws_value c) ops).

(** A profile whose mode is read-only lets nothing be written. *)
Lemma read_only_mode_writes_nothing profile path ctx :
  sandbox_mode_requirement_for_permission_profile profile = ModeReadOnly → can_write_path (profile_file_system profile) path ctx = false.
Proof.
  destruct profile as [fs network| |network]; try done. cbn [sandbox_mode_requirement_for_permission_profile].
  set (p := profile_file_system (Managed fs network)). intros Hm.
  destruct (has_full_disk_write_access_for_convention (Some native) p) eqn:Hf; [done|].
  destruct (existsb _ _) eqn:He; [done|]. clear Hm.
  assert (fs_kind p = Restricted) as Hk by (unfold has_full_disk_write_access_for_convention in Hf; by destruct (fs_kind p)).
  unfold can_write_path. assert (can_write (resolve_access p path ctx) = false) as ->; [|done].
  destruct (access_from_entries p ctx path Hk) as [->|(e & Hin & <-)]; [done|].
  apply not_true_iff_false. intros Hw. enough (existsb (λ e, can_write (entry_access e)) (entries p) = true) by congruence.
  apply existsb_exists. exists e. rewrite <- list_elem_of_In. done.
Qed.

Lemma new_constrained_made {T} (v : T) (f : T → result Err' unit) c : new_constrained v f = Ok c →
  (∀ w, accepts c w ↔ f w = Ok tt) ∧ accepts c (value c).
Proof.
  intros Hn. unfold new_constrained in Hn. destruct (f v) as [[]|] eqn:Hf; [|done]. injection Hn as <-. split; [done|]. exact Hf.
Qed.

Lemma accepts_run_op {T} (c : Checked T) op : accepts c (value c) → accepts (run_op c op).1 (value (run_op c op).1).
Proof.
  unfold accepts, can_set. intros Hv. destruct op as [v|added]; cbn [run_op].
  - unfold set. destruct (validator c (match normalizer c with Some f => f v | None => v end)) as [[]|] eqn:Hw; done.
  - unfold add_validator. rewrite Hv. cbn. destruct (added (value c)) as [[]|] eqn:Ha; cbn; [by rewrite Hv|done].
Qed.

(** A check a constrained value was built with holds of it ever after. *)
Lemma accepted_after {T} (c : Checked T) ops : accepts c (value c) → accepts c (value (run_ops c ops)).
Proof.
  intros Hv. apply (run_ops_strengthen c ops). unfold run_ops. revert c Hv.
  induction ops as [|op ops IH]; intros c Hv; [done|]. cbn [foldl]. apply IH. by apply accepts_run_op.
Qed.

Lemma allow_list_after {T} `{EqDecision T, !Debug T, !Debug (list T)} list_field field dflt (allowed : Sourced (list T)) c ops :
  from_allow_list list_field field dflt (Some allowed) = Ok c → value_after c ops ∈ sourced allowed.
Proof.
  destruct allowed as [policies source]. cbn. destruct policies as [|first policies]; [done|].
  destruct (new_constrained _ _) as [k|] eqn:Hn; [|done]. intros [= <-]. apply new_constrained_made in Hn as [Hacc Hv].
  pose proof (proj1 (Hacc _) (accepted_after k ops Hv)) as Ha. cbn in Ha. unfold value_after. cbn.
  by case_bool_decide.
Qed.

Lemma sandbox_mode_after (modes : Sourced (list SandboxModeRequirement)) c ops :
  permission_profile_constraint (Some modes) = Ok c →
  sandbox_mode_requirement_for_permission_profile (value_after c ops) ∈ sourced modes.
Proof.
  destruct modes as [modes source]. unfold permission_profile_constraint. destruct (bool_decide (ModeReadOnly ∈ modes)); cbn [negb]; [|done].
  destruct (new_constrained _ _) as [k|] eqn:Hn; [|done]. intros [= <-]. apply new_constrained_made in Hn as [Hacc Hv].
  pose proof (proj1 (Hacc _) (accepted_after k ops Hv)) as Ha. unfold check_sandbox_mode in Ha. unfold value_after. cbn.
  by case_bool_decide.
Qed.

Lemma web_search_after (modes : Sourced (list WebSearchMode)) c ops :
  web_search_mode_constraint (Some modes) = Ok c → value_after c ops = WebDisabled ∨ value_after c ops ∈ sourced modes.
Proof.
  destruct modes as [modes source]. unfold web_search_mode_constraint.
  destruct (new_constrained _ _) as [k|] eqn:Hn; [|done]. intros [= <-]. apply new_constrained_made in Hn as [Hacc Hv].
  pose proof (proj1 (Hacc _) (accepted_after k ops Hv)) as Ha. cbn beta in Ha. unfold value_after. cbn [cws_value sourced].
  case_bool_decide as Hin; [|done]. apply list_elem_of_filter in Hin as [Hin _]. by apply elem_of_cons in Hin.
Qed.

Lemma made_allow_any {T} (v : T) : accepts (allow_any v : Checked T) (value (allow_any v : Checked T)).
Proof. done. Qed.

Lemma windows_accepts w c : windows_implementations w = Ok c → accepts (cws_value c) (value (cws_value c)).
Proof.
  unfold windows_implementations. destruct w as [[[[impls|] allow require] source]|]; [|by intros [= <-]..].
  destruct (bool_decide (impls = [])); [done|]. destruct (new_constrained _ _) as [k|] eqn:Hn; [|done]. intros [= <-].
  by apply new_constrained_made in Hn as [_ Hv].
Qed.

(** With MXC forbidden it is never selected. *)
Lemma mxc_after w c ops : wr_allow_mxc (sourced w) = Some false → windows_sandbox_mode_constraint (Some w) = Ok c → value_after c ops ≠ Some ModeMxc.
Proof.
  intros Hm Hw. unfold windows_sandbox_mode_constraint in Hw. destruct (windows_implementations (Some w)) as [k|] eqn:Hi; [|done].
  cbn [res_bind] in Hw. rewrite bool_decide_true in Hw by done. apply windows_accepts in Hi.
  pose proof (accepts_run_op (cws_value k) (OpAdd (mxc_check (source_of w))) Hi) as Hk. cbn [run_op] in Hk.
  destruct (add_validator _ _) as [c' r] eqn:Ha. cbn [fst] in Hk. destruct r as [[]|]; [|done]. injection Hw as <-.
  pose proof (accepted_after c' ops Hk) as Hacc. unfold value_after. cbn [cws_value]. intros Hv. rewrite Hv in Hacc.
  unfold add_validator in Ha. unfold accepts, can_set in Hi. rewrite Hi in Ha. cbn in Ha.
  destruct (mxc_check _ (value (cws_value k))) as [[]|]; [|done]. injection Ha as <-. unfold accepts, can_set in Hacc. cbn in Hacc.
  by destruct (validator (cws_value k) (Some ModeMxc)).
Qed.

Definition limited_to_reading (modes : list SandboxModeRequirement) : Prop :=
  ModeWorkspaceWrite ∉ modes ∧ ModeDangerFullAccess ∉ modes ∧ ModeExternalSandbox ∉ modes.

Lemma try_from_constraints toml req : try_from toml = Ok req →
  from_allow_list (lit "allowed_approval_policies") (lit "approval_policy") OnRequest (rs_allowed_approval_policies toml) = Ok (mr_approval_policy req)
  ∧ permission_profile_constraint (rs_allowed_sandbox_modes toml) = Ok (mr_permission_profile req)
  ∧ windows_sandbox_mode_constraint (rs_windows toml) = Ok (mr_windows_sandbox_mode req)
  ∧ web_search_mode_constraint (rs_allowed_web_search_modes toml) = Ok (mr_web_search_mode req).
Proof.
  unfold try_from. intros Ht.
  repeat (match type of Ht with res_bind ?e _ = _ => destruct e eqn:?; [cbn [res_bind] in Ht|done] end).
  by injection Ht as <-.
Qed.

(** C13: once managed requirements are accepted, no later change of a setting escapes them: the approval
    policy stays one of those listed and a web search mode one of those listed or off; the permission
    profile stays within the listed sandbox modes, so that where only read-only is listed no path can
    be written under it, whatever the profile and the context are; and MXC, where it is forbidden,
    is never selected. *)
Theorem managed_limits_hold toml req : try_from toml = Ok req →
  (∀ allowed ops, rs_allowed_approval_policies toml = Some allowed → value_after (mr_approval_policy req) ops ∈ sourced allowed)
  ∧ (∀ modes ops, rs_allowed_sandbox_modes toml = Some modes →
       sandbox_mode_requirement_for_permission_profile (value_after (mr_permission_profile req) ops) ∈ sourced modes
       ∧ (limited_to_reading (sourced modes) → ∀ path ctx,
            can_write_path (profile_file_system (value_after (mr_permission_profile req) ops)) path ctx = false))
  ∧ (∀ modes ops, rs_allowed_web_search_modes toml = Some modes →
       value_after (mr_web_search_mode req) ops = WebDisabled ∨ value_after (mr_web_search_mode req) ops ∈ sourced modes)
  ∧ (∀ w ops, rs_windows toml = Some w → wr_allow_mxc (sourced w) = Some false → value_after (mr_windows_sandbox_mode req) ops ≠ Some ModeMxc).
Proof.
  intros (Ha & Hp & Hwin & Hweb)%try_from_constraints. split_and!.
  - intros allowed ops Hs. rewrite Hs in Ha. by eapply allow_list_after.
  - intros modes ops Hs. rewrite Hs in Hp. pose proof (sandbox_mode_after modes _ ops Hp) as Hm. split; [done|].
    intros (H1 & H2 & H3) path ctx. apply read_only_mode_writes_nothing. by destruct (sandbox_mode_requirement_for_permission_profile _).
  - intros modes ops Hs. rewrite Hs in Hweb. by apply web_search_after.
  - intros w ops Hs Hf. rewrite Hs in Hwin. by eapply mxc_after.
Qed.
End Policy.

(** Requirements that allow reading only. *)
Definition no_debug {T} : Debug T := λ _, [].
Definition reading_only : ConfigRequirementsWithSources (McpRequirement := unit) (RulesToml := unit) (Hooks := unit) (Residency := unit) (Network := unit)
    (Permissions := unit) (Other := unit) :=
  mkSourcedRequirements None None (Some (mkSourced [ModeReadOnly] SourceLegacyMdm)) None None None None None None None None None None None tt.

Definition managed_reading_only : result Err' (ManagedRequirements (McpRequirement := unit) (Rules := unit) (Hooks := unit) (Residency := unit) (NetworkConstraints := unit) (Filesystem := unit) (Other := unit)) :=
  try_from (Debug0 := no_debug) (Debug1 := no_debug) (Debug2 := no_debug) (Debug3 := no_debug) (Debug4 := no_debug) (Debug5 := no_debug) (Debug6 := no_debug)
    (Debug7 := no_debug) (Debug8 := no_debug) (Debug9 := no_debug) (Debug10 := no_debug) (Debug11 := no_debug) (Debug12 := no_debug)
    Posix (λ _, Ok tt) (λ _, Ok tt) (λ _, 0) (λ _, tt) (λ _, tt) reading_only.

Lemma managed_limits_hold_witness : ∃ req, managed_reading_only = Ok req
  ∧ ∀ path ctx, can_write_path (profile_file_system (value_after (mr_permission_profile req) [OpSet Disabled])) path ctx = false.
Proof.
  assert (is_ok managed_reading_only = true) as Hok by (vm_compute; reflexivity).
  destruct managed_reading_only as [req|e] eqn:Hr; [|discriminate Hok]. exists req. split; [reflexivity|]. intros path ctx.
  apply (proj2 (proj1 (proj2 (managed_limits_hold (Debug0 := no_debug) (Debug1 := no_debug) (Debug2 := no_debug) (Debug3 := no_debug) (Debug4 := no_debug)
    (Debug5 := no_debug) (Debug6 := no_debug) (Debug7 := no_debug) (Debug8 := no_debug) (Debug9 := no_debug) (Debug10 := no_debug) (Debug11 := no_debug)
    (Debug12 := no_debug) Posix (λ _, Ok tt) (λ _, Ok tt) (λ _, 0) (λ _, tt) (λ _, tt) reading_only req Hr)) (mkSourced [ModeReadOnly] SourceLegacyMdm) [OpSet Disabled] eq_refl)).
  repeat split; intros Hin; apply list_elem_of_singleton in Hin; discriminate.
Defined.
