(* ===== verification/TurnQueue.v ===== *)
(** core/src/session/input_queue.rs with state/turn.rs, session/inject.rs, session/turn_input.rs and
    tasks/mod.rs: the turn of a session and the input that waits for it. This file has the data and
    the operations that run under a lock; their interleaving is in TurnSteps.

    A turn state is shared through [Arc]: it lives in a store under an address, and a turn holds the
    address. Mail the agent tree holds for the session is the list [controller]; the flag that is
    watched says whether it is empty (AgentControl shows this of the mailboxes). Of [TurnState] the
    waiters for answers and the statistics are left out. *)
From S2P Require Import Prelude Str.

Inductive MailboxDeliveryPhase := CurrentTurn | NextTurn.
Inductive TaskKind := Regular | Review | Compact.
Inductive NonSteerableTurnKind := NonSteerableReview | NonSteerableCompact.
Inductive InputQueueActivity := ActivityMailbox | ActivitySteer.

Section Queue.
Context {Item Envelope Agent MailBody Json Cyber Origin : Type} `{EqDecision Json}.

(** * Data *)

Record InterAgentCommunication := mkCommunication { author : Agent; trigger_turn : bool; mail_rest : MailBody }.

Record TurnStartOptions := mkOptions {
  turn_trigger : option str;
  final_output_json_schema : option Json;
  service_tier : option str;
  parent_turn_id : option str;
  initiating_agent_path : option Agent;
  root_turn_id : option str;
  cyber_access_program : option Cyber
}.

Definition default_options : TurnStartOptions := mkOptions None None None None None None None.

Record PendingMailboxCommunication := mkPendingMail { communication : InterAgentCommunication; start_options : TurnStartOptions }.

Inductive TurnInput :=
| UserInput (content : list Item) (client_id : option str) (acceptance_order : option N) (origin : Origin)
| FunctionCallOutput (e : Envelope)
| ResponseItem (e : Envelope)
| MailInput (c : InterAgentCommunication).

Record TurnState := mkTurnState { pending_input : list TurnInput; mailbox_delivery_phase : MailboxDeliveryPhase }.

Definition default_turn_state : TurnState := mkTurnState [] CurrentTurn.

(** [task_handle] stands for the handle of the spawned future. *)
Record RunningTask := mkTask { task_handle : nat; task_kind : TaskKind; task_sub_id : str; task_schema : option Json; task_cancelled : bool }.

(** The token in [finishing] has an identity, [turn_state] is an address. *)
Record ActiveTurn := mkActive { task : option RunningTask; finishing : option nat; turn_state : nat }.

Record Session := mkSession {
  active_turn : option ActiveTurn;
  turn_states : gmap nat TurnState;
  mailbox_pending_mails : list PendingMailboxCommunication;
  controller : option (list InterAgentCommunication);
  activity : nat * InputQueueActivity;          (* how often and what was sent last *)
  last_started_turn_id : option str;
  next_order : N;
  fresh : nat                                   (* the next address, token or handle *)
}.

Definition set_active (t : option ActiveTurn) (s : Session) : Session :=
  mkSession t (turn_states s) (mailbox_pending_mails s) (controller s) (activity s) (last_started_turn_id s) (next_order s) (fresh s).
Definition set_states (m : gmap nat TurnState) (s : Session) : Session :=
  mkSession (active_turn s) m (mailbox_pending_mails s) (controller s) (activity s) (last_started_turn_id s) (next_order s) (fresh s).
Definition set_mailbox (l : list PendingMailboxCommunication) (c : option (list InterAgentCommunication)) (s : Session) : Session :=
  mkSession (active_turn s) (turn_states s) l c (activity s) (last_started_turn_id s) (next_order s) (fresh s).
Definition set_last_started (id : str) (s : Session) : Session :=
  mkSession (active_turn s) (turn_states s) (mailbox_pending_mails s) (controller s) (activity s) (Some id) (next_order s) (fresh s).
Definition reserve_user_input_order (s : Session) : N * Session :=
  (next_order s, mkSession (active_turn s) (turn_states s) (mailbox_pending_mails s) (controller s) (activity s) (last_started_turn_id s) (next_order s + 1) (fresh s)).
Definition take_fresh (s : Session) : nat * Session :=
  (fresh s, mkSession (active_turn s) (turn_states s) (mailbox_pending_mails s) (controller s) (activity s) (last_started_turn_id s) (next_order s) (S (fresh s))).

(** [activity_tx.send_replace] *)
Definition send_activity (a : InputQueueActivity) (s : Session) : Session :=
  mkSession (active_turn s) (turn_states s) (mailbox_pending_mails s) (controller s) (S (activity s).1, a) (last_started_turn_id s) (next_order s) (fresh s).

Definition state_at (a : nat) (s : Session) : TurnState := default default_turn_state (turn_states s !! a).
Definition update_state (a : nat) (f : TurnState → TurnState) (s : Session) : Session := set_states (<[a := f (state_at a s)]> (turn_states s)) s.

Definition add_input (input : list TurnInput) (t : TurnState) : TurnState := mkTurnState (pending_input t ++ input) (mailbox_delivery_phase t).
Definition set_mailbox_delivery_phase (p : MailboxDeliveryPhase) (t : TurnState) : TurnState := mkTurnState (pending_input t) p.
Definition accepts_mailbox_delivery_for_current_turn (t : TurnState) : bool := match mailbox_delivery_phase t with CurrentTurn => true | NextTurn => false end.
Definition accept_mailbox_delivery_for_current_turn : TurnState → TurnState := set_mailbox_delivery_phase CurrentTurn.
Definition clear_input (t : TurnState) : TurnState := mkTurnState [] (mailbox_delivery_phase t).

(** * The queue of a turn *)

Definition is_user_input (i : TurnInput) : bool := match i with UserInput _ _ _ _ => true | _ => false end.
Definition has_user_input (t : TurnState) : bool := existsb is_user_input (pending_input t).
Definition is_empty (t : TurnState) : bool := match pending_input t with [] => true | _ => false end.

Definition pending_activity (t : TurnState) : option InputQueueActivity :=
  if existsb (λ i, match i with UserInput _ _ _ _ | FunctionCallOutput _ => true | _ => false end) (pending_input t) then Some ActivitySteer
  else if existsb (λ i, match i with MailInput _ => true | _ => false end) (pending_input t) then Some ActivityMailbox
  else None.

(** * Mail *)

(** [take_mailbox] of the controller, after the mail that is already here. *)
Definition read_mailbox (s : Session) : list PendingMailboxCommunication :=
  mailbox_pending_mails s ++ ((λ c, mkPendingMail c default_options) <$> default [] (controller s)).

Definition enqueue_mailbox_communication (c : InterAgentCommunication) (o : TurnStartOptions) (s : Session) : Session :=
  send_activity ActivityMailbox (set_mailbox (read_mailbox s ++ [mkPendingMail c o]) ((λ _, []) <$> controller s) s).

Definition has_pending_mailbox_items (s : Session) : bool :=
  match mailbox_pending_mails s, controller s with [], None | [], Some [] => false | _, _ => true end.

Definition has_trigger_turn_mailbox_items (s : Session) : bool := existsb (λ m, trigger_turn (communication m)) (mailbox_pending_mails s).

Definition drain_mailbox (s : Session) : list PendingMailboxCommunication * Session := (read_mailbox s, set_mailbox [] ((λ _, []) <$> controller s) s).

Definition non_blank (id : str) : bool := negb (trim id =s []).
Definition keep_if {A} (f : A → bool) (o : option A) : option A := o ≫= λ x, if f x then Some x else None.

(** The options of the turn the mail starts: the last message that starts one decides, but for the
    parent, on which all of them must agree, and the root, which is that of the first. *)
Definition common_parent (parents : list (option str)) : option str :=
  match parents with
  | [] => None
  | first :: rest => foldl (λ expected candidate, keep_if (λ id, bool_decide (candidate = Some id)) expected) first rest
  end.

Lemma common_parent_spec parents id : common_parent parents = Some id ↔ parents ≠ [] ∧ Forall (λ p, p = Some id) parents.
Proof.
  destruct parents as [|first rest]; cbn; [naive_solver|]. rewrite Forall_cons. transitivity (first = Some id ∧ Forall (λ p, p = Some id) rest); [|naive_solver].
  revert first. induction rest as [|p rest IH]; intros first; cbn; [naive_solver|]. rewrite IH, Forall_cons.
  destruct first as [x|]; cbn; [|naive_solver]. case_bool_decide; naive_solver.
Qed.

Definition mail_options (mails : list PendingMailboxCommunication) : TurnStartOptions :=
  let starting := List.filter (λ m, trigger_turn (communication m)) mails in
  let o := default default_options (start_options <$> last starting) in
  let parent := keep_if non_blank (common_parent ((λ m, parent_turn_id (start_options m)) <$> starting)) in
  let root := head starting ≫= λ m,
    match keep_if non_blank (parent_turn_id (start_options m)) with
    | Some _ => keep_if non_blank (root_turn_id (start_options m))
    | None => None
    end in
  mkOptions (turn_trigger o) (final_output_json_schema o) (service_tier o) parent (initiating_agent_path o) root (cyber_access_program o).

Definition mail_inputs (mails : list PendingMailboxCommunication) : list TurnInput := (λ m, MailInput (communication m)) <$> mails.

Definition drain_mailbox_input_items (s : Session) : list TurnInput * TurnStartOptions * Session :=
  let '(mails, s) := drain_mailbox s in (mail_inputs mails, mail_options mails, s).

(** * The active turn *)

Definition running_sub_id (sub_id : str) (t : ActiveTurn) : bool := match task t with Some k => task_sub_id k =s sub_id | None => false end.

Definition turn_state_for_sub_id (s : Session) (sub_id : str) : option nat :=
  active_turn s ≫= λ t, if running_sub_id sub_id t then Some (turn_state t) else None.

Definition deliver_mailbox_communication_to_current_turn (c : InterAgentCommunication) (expected_turn_id : option str) (s : Session) : bool * Session :=
  match active_turn s with
  | Some (mkActive (Some k) _ a) =>
      if match expected_turn_id with Some id => (task_sub_id k =s id) && negb (task_cancelled k) | None => true end then
        if accepts_mailbox_delivery_for_current_turn (state_at a s) then (true, send_activity ActivityMailbox (update_state a (add_input [MailInput c]) s))
        else (false, s)
      else (false, s)
  | _ => (false, s)
  end.

(** [extend_pending_input_and_accept_mailbox_delivery_for_turn_state] *)
Definition extend_and_accept (a : nat) (input : list TurnInput) (s : Session) : Session :=
  send_activity ActivitySteer (update_state a (λ t, accept_mailbox_delivery_for_current_turn (add_input input t)) s).

Definition extend_pending_input_for_turn_state (a : nat) (input : list TurnInput) (s : Session) : Session := update_state a (add_input input) s.

Definition take_pending_input_for_turn_state (a : nat) (s : Session) : list TurnInput * Session := (pending_input (state_at a s), update_state a clear_input s).

Definition clear_pending (a : nat) (s : Session) : Session := update_state a clear_input s.

(** Mail that starts no turn does not keep the turn going. *)
Definition is_queue_only (i : TurnInput) : bool := match i with MailInput c => negb (trigger_turn c) | _ => false end.

Definition defer_mailbox_delivery_to_next_turn (sub_id : str) (s : Session) : Session :=
  match turn_state_for_sub_id s sub_id with
  | Some a => if existsb (λ i, negb (is_queue_only i)) (pending_input (state_at a s)) then s else update_state a (set_mailbox_delivery_phase NextTurn) s
  | None => s
  end.

Definition accept_mailbox_delivery (sub_id : str) (s : Session) : Session :=
  match turn_state_for_sub_id s sub_id with Some a => update_state a accept_mailbox_delivery_for_current_turn s | None => s end.

(** [get_pending_input] up to the mailbox: the input of the turn, whether mail may follow. *)
Definition get_turn_input (s : Session) : list TurnInput * bool * Session :=
  match active_turn s with
  | Some t =>
      if accepts_mailbox_delivery_for_current_turn (state_at (turn_state t) s) then
        (pending_input (state_at (turn_state t) s), true, update_state (turn_state t) clear_input s)
      else ([], false, s)
  | None => ([], true, s)
  end.

Definition has_pending_input (s : Session) : bool :=
  let '(has_turn_pending_input, accepts) :=
    match active_turn s with
    | Some t => (negb (is_empty (state_at (turn_state t) s)), accepts_mailbox_delivery_for_current_turn (state_at (turn_state t) s))
    | None => (false, true)
    end in
  if negb accepts then false else if has_turn_pending_input then true else has_pending_mailbox_items s.

(** What a new subscriber is told is already waiting. *)
Definition subscribe_activity (a : option nat) (s : Session) : nat * option InputQueueActivity :=
  ((activity s).1,
   match a ≫= λ a, pending_activity (state_at a s) with
   | Some x => Some x
   | None => if has_pending_mailbox_items s then Some ActivityMailbox else None
   end).

(** * Submitted input *)

Inductive NotSubmittedReason :=
| Superseded | ServerDraining | NotIdle | PendingTriggerTurn | PlanMode
| NoActiveTurn | ExpectedTurnMismatch (expected actual : str) | ActiveTurnNotSteerable (turn_kind : NonSteerableTurnKind)
| ActiveTurnOutputSchemaMismatch | EmptyInput.

(** Items come with the metadata they are queued with. *)
Inductive SubmittedTurnInput :=
| SubmittedUserInput (content : list Item) (client_id : option str)
| SubmittedFunctionCallOutput (e : Envelope)      (* one without a call id *)
| SubmittedResponseItem (e : Envelope)
| SubmittedInterAgentCommunication (c : InterAgentCommunication).

Definition pending_turn_input (input : SubmittedTurnInput) (o : Origin) (s : Session) : TurnInput * Session :=
  match input with
  | SubmittedUserInput content client_id => let '(order, s) := reserve_user_input_order s in (UserInput content client_id (Some order) o, s)
  | SubmittedFunctionCallOutput e => (FunctionCallOutput e, s)
  | SubmittedResponseItem e => (ResponseItem e, s)
  | SubmittedInterAgentCommunication c => (MailInput c, s)
  end.

(** The state at a refusal is the one before. *)
Definition steer_input (input : SubmittedTurnInput) (context : list Envelope) (expected_turn_id : option str) (required_schema : option Json) (o : Origin)
    (s : Session) : result NotSubmittedReason (str * list TurnInput * Session) :=
  match active_turn s with
  | Some (mkActive (Some k) _ a) =>
      match keep_if (λ id, negb (id =s task_sub_id k)) expected_turn_id with
      | Some expected => Err (ExpectedTurnMismatch expected (task_sub_id k))
      | None =>
          match task_kind k with
          | Review => Err (ActiveTurnNotSteerable NonSteerableReview)
          | Compact => Err (ActiveTurnNotSteerable NonSteerableCompact)
          | Regular =>
              if match input with SubmittedUserInput [] _ => true | _ => false end then Err EmptyInput
              else if match required_schema with Some schema => negb (bool_decide (task_schema k = Some schema)) | None => false end then Err ActiveTurnOutputSchemaMismatch
              else
                let '(i, s) := pending_turn_input input o s in
                let pending_input := (ResponseItem <$> context) ++ [i] in
                Ok (task_sub_id k, pending_input, extend_and_accept a pending_input s)
          end
      end
  | _ => Err NoActiveTurn
  end.

(** [inject_if_running]: a reservation accepts input too, a turn that is finishing does not. *)
Definition inject_if_running (input : list Envelope) (s : Session) : option Session :=
  match active_turn s with
  | Some (mkActive _ None a) => Some (extend_and_accept a (ResponseItem <$> input) s)
  | _ => None
  end.

Definition inject_hook_context_if_running (input : list Envelope) (s : Session) : option Session :=
  match active_turn s with
  | Some (mkActive (Some _) _ a) => Some (extend_and_accept a (ResponseItem <$> input) s)
  | _ => None
  end.

(** * Reserving and releasing the turn *)

(** The default state is at every address that was not written yet. *)
Definition new_active (s : Session) : ActiveTurn * Session :=
  let '(a, s) := take_fresh s in
  let t := mkActive None None a in
  (t, set_active (Some t) s).

(** [active.get_or_insert_with(ActiveTurn::default)] *)
Definition get_or_insert (s : Session) : ActiveTurn * Session := match active_turn s with Some t => (t, s) | None => new_active s end.

(** Of [start_if_idle], under the lock. *)
Definition reserve_idle (expected_previous_turn_id : option str) (s : Session) : result NotSubmittedReason (nat * Session) :=
  match active_turn s with
  | Some _ => Err NotIdle
  | None =>
      match expected_previous_turn_id with
      | Some expected => if bool_decide (last_started_turn_id s = Some expected) then Ok (let '(t, s) := new_active s in (turn_state t, s)) else Err Superseded
      | None => Ok (let '(t, s) := new_active s in (turn_state t, s))
      end
  end.

(** [durable_sleep] says whether the thread is durably asleep. *)
Definition reserve_pending_work_turn (durable_sleep : bool) (s : Session) : option (nat * Session) :=
  match active_turn s with
  | Some _ => None
  | None => if has_trigger_turn_mailbox_items s || durable_sleep then Some (let '(t, s) := new_active s in (turn_state t, s)) else None
  end.

Definition is_reserved (a : nat) (s : Session) : bool := match active_turn s with Some t => turn_state t =? a | None => false end.

(** [clear_reserved_idle_turn], and the end of [on_task_finished]. *)
Definition clear_reserved_idle_turn (a : nat) (s : Session) : bool * Session :=
  match active_turn s with
  | Some (mkActive None _ a') => if a' =? a then (true, set_active None s) else (false, s)
  | _ => (false, s)
  end.

(** [start_task] under its first lock. *)
Definition begin_task (sub_id : str) (s : Session) : nat * Session :=
  let '(t, s) := get_or_insert (set_last_started sub_id s) in
  (turn_state t, set_active (Some (mkActive (task t) None (turn_state t))) s).

(** [start_task] under its second lock: the handle of a task that was there is dropped. *)
Definition register_task (kind : TaskKind) (sub_id : str) (schema : option Json) (s : Session) : nat * option nat * nat * Session :=
  let '(t, s) := get_or_insert s in
  let '(h, s) := take_fresh s in
  (h, task_handle <$> task t, turn_state t, set_active (Some (mkActive (Some (mkTask h kind sub_id schema false)) (finishing t) (turn_state t))) s).

(** [on_task_finished] under its lock: the task that is running is taken, input is closed. *)
Definition take_task (s : Session) : option (nat * nat * Session) :=
  match active_turn s with
  | Some (mkActive (Some _) _ a) => let '(token, s) := take_fresh s in Some (a, token, set_active (Some (mkActive None (Some token) a)) s)
  | _ => None
  end.

(** * Recording *)

(** [run_hooks_and_record_inputs]: what is recorded, and whether the turn has to end because hooks
    stopped input and no user input was left. [pending_review] is the reviewer's early return. *)
Definition run_hooks_and_record_inputs (pending_review : bool) (should_stop : TurnInput → bool) (input : list TurnInput) : list TurnInput * bool :=
  if pending_review then ([], false)
  else
    let recorded := List.filter (λ i, negb (should_stop i)) input in
    (recorded, existsb should_stop input && negb (existsb (λ i, match i with UserInput (_ :: _) _ _ _ => true | _ => false end) recorded)).

End Queue.

Arguments InterAgentCommunication : clear implicits.
Arguments TurnStartOptions : clear implicits.
Arguments PendingMailboxCommunication : clear implicits.
Arguments TurnInput : clear implicits.
Arguments TurnState : clear implicits.
Arguments RunningTask : clear implicits.
Arguments ActiveTurn : clear implicits.
Arguments Session : clear implicits.
Arguments SubmittedTurnInput : clear implicits.

#[export] Instance InterAgentCommunication_eq_dec {Agent MailBody} `{EqDecision Agent, EqDecision MailBody} : EqDecision (InterAgentCommunication Agent MailBody).
Proof. solve_decision. Defined.
#[export] Instance TurnInput_eq_dec {Item Envelope Agent MailBody Origin} `{EqDecision Item, EqDecision Envelope, EqDecision Agent, EqDecision MailBody, EqDecision Origin} :
  EqDecision (TurnInput Item Envelope Agent MailBody Origin).
Proof. solve_decision. Defined.
