(* ===== verification/TurnSteps.v ===== *)
(** The turn of a session while many tasks use it: tasks/mod.rs ([start_task],
    [maybe_start_turn_for_pending_work_with_sub_id], [on_task_finished], [abort_all_tasks]), the
    loop of a regular task (session/turn.rs, tasks/regular.rs) and session/turn_input.rs, cut at the
    points where they wait: between two points they hold a lock or do nothing shared. Every
    procedure is a process; [moves] lists what it may do next, [operation] is what is done at once.

    Next to the session a world keeps what was accepted, what was handed on to be recorded, and what
    was given up. The own input of a task, which it gets when it is started, is not counted. *)
From S2P Require Import Prelude Str TurnQueue.

Section Steps.
Context {Item Envelope Agent MailBody Json Cyber Origin : Type} `{EqDecision Json}.
Context (uuid : nat → str).

Notation Session := (Session Item Envelope Agent MailBody Json Cyber Origin).
Notation TurnInput := (TurnInput Item Envelope Agent MailBody Origin).
Notation Mail := (InterAgentCommunication Agent MailBody).
Notation Options := (TurnStartOptions Agent Json Cyber).

(** The task to start. *)
Record Start := mkStart { start_kind : TaskKind; start_sub_id : str; start_schema : option Json }.

(** What follows an abort: nothing, a look at the waiting mail, or the start that replaces the turn. *)
Inductive After := ThenNothing | ThenPending | ThenStart (c : Start).

Inductive Proc :=
(* a task: in its loop; past the lock of [get_pending_input]; with input to record; returned; in [on_task_finished] *)
| TaskLoop (h : nat)
| TaskDraining (h : nat) (input : list TurnInput)
| TaskRecording (h : nat) (input : list TurnInput)
| TaskReturned (h : nat)
| TaskFinishing (h : nat)
(* [on_task_finished] past its lock; with the last input; past recording it *)
| Finishing (a token : nat)
| FinishRecording (a token : nat) (input : list TurnInput)
| Finished (a token : nat)
(* [maybe_start_turn_for_pending_work]: at its start; with a reservation; past the first check; past the lock of
   [get_pending_input]; with the input; with the input put back *)
| MayStart
| Reserved (a : nat)
| ReservedOurs (a : nat)
| ReservedDraining (a : nat) (input : list TurnInput)
| ReservedHolding (a : nat) (input : list TurnInput) (schema : option Json)
| ReservedFilled (a : nat) (schema : option Json)
(* [start_if_idle] with its reservation, and past the second look at the mail *)
| IdleReserved (a : nat) (c : Start) (queued : list TurnInput)
| IdleChecked (a : nat) (c : Start) (queued : list TurnInput)
(* [start_task], for the turn that was reserved for it, if any: at its start; with the mail; past its first lock; with the
   mail queued *)
| Starting (own : option nat) (c : Start)
| StartDrained (own : option nat) (c : Start) (mail : list TurnInput)
| StartBegun (a : nat) (c : Start) (mail : list TurnInput)
| StartFilled (a : nat) (c : Start)
(* an abort: at its start; with the turn and its task; past the end of the task *)
| Aborting (after : After)
| AbortTaken (h a : nat) (after : After)
| AbortJoined (a : nat) (after : After)
(* [watch_user_input] before it looks, and while it waits *)
| Watching (a seen : nat)
| WatchWaiting (a seen : nat)
(* input for a turn that is finishing *)
| InjectWaiting (token : nat) (input : list TurnInput).

(** The queued input a process has in hand. *)
Definition held (p : Proc) : list TurnInput :=
  match p with
  | TaskDraining _ l | TaskRecording _ l | FinishRecording _ _ l | ReservedDraining _ l | ReservedHolding _ l _
  | StartDrained _ _ l | StartBegun _ _ l | InjectWaiting _ l => l
  | _ => []
  end.

(** The processes that end with the future of a task. *)
Definition of_handle (h : nat) (p : Proc) : bool :=
  match p with
  | TaskLoop h' | TaskDraining h' _ | TaskRecording h' _ | TaskReturned h' | TaskFinishing h' => h' =? h
  | _ => false
  end.

(** What may come between a turn and those who rely on it: an abort takes it, a start without a
    reservation uses one it did not make, a reservation is given up. *)
Inductive Disturbance := TurnTaken (a : nat) | TurnShared (a : nat) | ReservationGivenUp (a : nat).

Record Move := mkMove {
  mv_session : Session;
  mv_procs : list Proc;                 (* what becomes of the process *)
  mv_accepted : list TurnInput;
  mv_handled : list TurnInput;
  mv_given_up : list TurnInput;
  mv_cancel : option nat;
  mv_kill : option nat;
  mv_disturbs : list Disturbance
}.

Definition quiet (s : Session) (ps : list Proc) : Move := mkMove s ps [] [] [] None None [].

Definition follow (after : After) (aborted : bool) : list Proc :=
  match after with
  | ThenNothing => []
  | ThenPending => if aborted then [MayStart] else []
  | ThenStart c => [Starting None c]
  end.

(** [start_options.final_output_json_schema]; the options that are taken where no mail starts a turn have none. *)
Definition wake_schema (input : list TurnInput) (o : Options) : option Json :=
  if existsb (λ i, match i with MailInput c => trigger_turn c | _ => false end) input then final_output_json_schema o else None.

(** * Moves *)

Definition task_moves (cancelled : gset nat) (s : Session) (p : Proc) : list Move :=
  match p with
  | TaskLoop h =>
      [let '(input, accepts, s') := get_turn_input s in quiet s' [if accepts : bool then TaskDraining h input else TaskRecording h input];
       quiet s [TaskReturned h]]
  | TaskDraining h input => [let '(mail, _, s') := drain_mailbox_input_items s in quiet s' [TaskRecording h (input ++ mail)]]
  | TaskRecording h input =>
      [mkMove s [TaskLoop h] [] input [] None None []; mkMove s [TaskReturned h] [] input [] None None []]
  | TaskReturned h => [quiet s (if bool_decide (h ∈ cancelled) then [] else [TaskFinishing h])]
  | TaskFinishing h => [match take_task s with Some (a, token, s') => quiet s' [Finishing a token] | None => quiet s [] end]
  | Finishing a token => [let '(input, s') := take_pending_input_for_turn_state a s in quiet s' [FinishRecording a token input]]
  | FinishRecording a token input => [mkMove s [Finished a token] [] input [] (Some token) None []]
  | Finished a token => [let '(cleared, s') := clear_reserved_idle_turn a s in quiet s' (if cleared : bool then [MayStart] else [])]
  | _ => []
  end.

Definition wake_moves (s : Session) (p : Proc) : list Move :=
  match p with
  | MayStart =>
      if has_pending_mailbox_items s then
        (λ sleep, match reserve_pending_work_turn sleep s with Some (a, s') => quiet s' [Reserved a] | None => quiet s [] end) <$> [false; true]
      else [quiet s []]
  | Reserved a => [quiet s (if is_reserved a s then [ReservedOurs a] else [])]
  | ReservedOurs a =>
      [let '(input, accepts, s') := get_turn_input s in quiet s' [if accepts : bool then ReservedDraining a input else ReservedHolding a input None]]
  | ReservedDraining a input =>
      [let '(mail, o, s') := drain_mailbox_input_items s in quiet s' [ReservedHolding a (input ++ mail) (wake_schema (input ++ mail) o)]]
  | ReservedHolding a input schema => [quiet (extend_pending_input_for_turn_state a input s) [ReservedFilled a schema]]
  | ReservedFilled a schema =>
      [if is_reserved a s then let '(n, s') := take_fresh s in quiet s' [Starting (Some a) (mkStart Regular (uuid n) schema)] else quiet s []]
  | _ => []
  end.

(** The reservation is dropped, with the input that was queued for it. *)
Definition drop_reservation (a : nat) (s : Session) (ps : list Proc) : Move :=
  let '(_, s') := clear_reserved_idle_turn a s in mkMove s' ps [] [] [] None None (if is_empty (state_at a s) then [] else [ReservationGivenUp a]).

Definition idle_moves (s : Session) (p : Proc) : list Move :=
  match p with
  | IdleReserved a c queued => [if has_trigger_turn_mailbox_items s then drop_reservation a s [MayStart] else quiet s [IdleChecked a c queued]]
  | IdleChecked a c queued =>
      [drop_reservation a s [];
       mkMove (extend_pending_input_for_turn_state a queued s) [Starting (Some a) c] queued [] [] None None []]
  | _ => []
  end.

Definition start_moves (s : Session) (p : Proc) : list Move :=
  match p with
  | Starting own c => [let '(mail, _, s') := drain_mailbox_input_items s in quiet s' [StartDrained own c mail]]
  | StartDrained own c mail =>
      [let '(a, s') := begin_task (start_sub_id c) s in
       mkMove s' [StartBegun a c mail] [] [] [] None None
         (match own, active_turn s with None, Some t => [TurnShared (turn_state t)] | _, _ => [] end)]
  | StartBegun a c mail => [quiet (extend_pending_input_for_turn_state a mail s) [StartFilled a c]]
  | StartFilled a c =>
      [let '(h, replaced, _, s') := register_task (start_kind c) (start_sub_id c) (start_schema c) s in
       mkMove s' [TaskLoop h] [] [] [] None replaced (match replaced with Some _ => [TurnShared a] | None => [] end)]
  | _ => []
  end.

Definition abort_moves (s : Session) (p : Proc) : list Move :=
  match p with
  | Aborting after =>
      [match active_turn s with
       | Some (mkActive (Some k) _ a) => mkMove (set_active None s) [AbortTaken (task_handle k) a after] [] [] [] (Some (task_handle k)) None [TurnTaken a]
       | Some (mkActive None _ a) => mkMove (set_active None s) (follow after false) [] [] [] None None [TurnTaken a]
       | None => quiet s (follow after false)
       end]
  | AbortTaken h a after => [mkMove s [AbortJoined a after] [] [] [] None (Some h) []]
  | AbortJoined a after => [mkMove (clear_pending a s) (follow after true) [] [] (pending_input (state_at a s)) None None []]
  | _ => []
  end.

Definition watch_moves (cancelled : gset nat) (s : Session) (p : Proc) : list Move :=
  match p with
  | Watching a seen => [quiet s (if has_user_input (state_at a s) then [] else [WatchWaiting a seen]); quiet s []]
  | WatchWaiting a seen => quiet s [] :: (if (activity s).1 =? seen then [] else [quiet s [Watching a (activity s).1]])
  | InjectWaiting token input => if bool_decide (token ∈ cancelled) then [mkMove s [] [] input [] None None []] else []
  | _ => []
  end.

Definition moves (cancelled : gset nat) (s : Session) (p : Proc) : list Move :=
  task_moves cancelled s p ++ wake_moves s p ++ idle_moves s p ++ start_moves s p ++ abort_moves s p ++ watch_moves cancelled s p.

(** * Operations *)

Inductive Op :=
| Steer (input : SubmittedTurnInput Item Envelope Agent MailBody) (context : list Envelope) (expected_turn_id : option str) (required_schema : option Json) (o : Origin)
| StartOrSteer (input : SubmittedTurnInput Item Envelope Agent MailBody) (context : list Envelope) (required_schema : option Json) (o : Origin) (c : Start)
| StartIfIdle (input : SubmittedTurnInput Item Envelope Agent MailBody) (expected_previous_turn_id : option str) (o : Origin) (c : Start)
| Inject (input : list Envelope)
| InjectHookContext (input : list Envelope)
| InjectClientItems (input : list Envelope)
| Deliver (m : Mail) (expected_turn_id : option str)
| Enqueue (m : Mail) (o : Options) (sleep : bool)
| TreeMail (m : Mail)                    (* the agent tree keeps mail for the session *)
| NotifyMailbox
| AcceptMailbox (sub_id : str)
| DeferMailbox (sub_id : str)
| WatchUserInput (sub_id : str)
| Interrupt
| AbortTurn (sub_id : str) (interrupted : bool).

(** Input other than a user's waits in the queue of the turn, a user's is the task's own. *)
Definition queued_at_start (input : SubmittedTurnInput Item Envelope Agent MailBody) (o : Origin) (s : Session) : list TurnInput :=
  match input with SubmittedUserInput _ _ => [] | _ => [(pending_turn_input input o s).1] end.

Definition operation (o : Op) (s : Session) : Move :=
  match o with
  | Steer input context expected schema origin =>
      match steer_input input context expected schema origin s with Ok (_, q, s') => mkMove s' [] q [] [] None None [] | Err _ => quiet s [] end
  | StartOrSteer input context schema origin c =>
      match steer_input input context None schema origin s with
      | Ok (_, q, s') => mkMove s' [] q [] [] None None []
      | Err NoActiveTurn => quiet s [Aborting (ThenStart c)]
      | Err _ => quiet s []
      end
  | StartIfIdle input expected origin c =>
      if has_trigger_turn_mailbox_items s then quiet s []
      else match reserve_idle expected s with Ok (a, s') => quiet s' [IdleReserved a c (queued_at_start input origin s)] | Err _ => quiet s [] end
  | Inject input => match inject_if_running input s with Some s' => mkMove s' [] (ResponseItem <$> input) [] [] None None [] | None => quiet s [] end
  | InjectHookContext input =>
      match inject_hook_context_if_running input s with Some s' => mkMove s' [] (ResponseItem <$> input) [] [] None None [] | None => quiet s [] end
  | InjectClientItems input =>
      let q := ResponseItem <$> input in
      match inject_if_running input s with
      | Some s' => mkMove s' [] q [] [] None None []
      | None =>
          match active_turn s ≫= finishing with
          | Some token => mkMove s [InjectWaiting token q] q [] [] None None []
          | None => mkMove s [] q q [] None None []
          end
      end
  | Deliver m expected =>
      let '(delivered, s') := deliver_mailbox_communication_to_current_turn m expected s in mkMove s' [] (if delivered : bool then [MailInput m] else []) [] [] None None []
  | Enqueue m o sleep => mkMove (enqueue_mailbox_communication m o s) (if trigger_turn m || sleep then [MayStart] else []) [MailInput m] [] [] None None []
  | TreeMail m =>
      match controller s with
      | Some l => mkMove (set_mailbox (mailbox_pending_mails s) (Some (l ++ [m])) s) [] [MailInput m] [] [] None None []
      | None => quiet s []
      end
  | NotifyMailbox => quiet (send_activity ActivityMailbox s) []
  | AcceptMailbox sub_id => quiet (accept_mailbox_delivery sub_id s) []
  | DeferMailbox sub_id => quiet (defer_mailbox_delivery_to_next_turn sub_id s) []
  | WatchUserInput sub_id => quiet s (match turn_state_for_sub_id s sub_id with Some a => [Watching a (activity s).1] | None => [] end)
  | Interrupt => quiet s [Aborting ThenPending]
  | AbortTurn sub_id interrupted =>
      match active_turn s with
      | Some (mkActive (Some k) _ a) =>
          if task_sub_id k =s sub_id then
            mkMove (set_active None s) [AbortTaken (task_handle k) a (if interrupted : bool then ThenPending else ThenNothing)] [] [] [] (Some (task_handle k)) None [TurnTaken a]
          else quiet s []
      | _ => quiet s []
      end
  end.

(** * Worlds *)

Record World := mkWorld {
  session : Session;
  procs : list Proc;
  accepted : list TurnInput;
  handled : list TurnInput;
  given_up : list TurnInput;
  cancelled : gset nat;
  disturbances : list Disturbance
}.

Definition new_session (controller : option (list Mail)) : Session := mkSession None ∅ [] controller (0, ActivityMailbox) None 0 0.
Definition new_world (c : option (list Mail)) : World := mkWorld (new_session c) [] (MailInput <$> default [] c) [] [] ∅ [].

(** A move of the process between [l1] and [l2]; the future of a task whose handle is dropped ends with it. *)
Definition make_move (w : World) (l1 l2 : list Proc) (m : Move) : World :=
  let ps := l1 ++ mv_procs m ++ l2 in
  let dies p := match mv_kill m with Some h => of_handle h p | None => false end in
  mkWorld (mv_session m) (List.filter (λ p, negb (dies p)) ps) (accepted w ++ mv_accepted m) (handled w ++ mv_handled m)
    (given_up w ++ mv_given_up m ++ flat_map held (List.filter dies ps))
    (match mv_cancel m with Some t => {[t]} ∪ cancelled w | None => cancelled w end) (disturbances w ++ mv_disturbs m).

Inductive Choice := Do (o : Op) | Go (i j : nat).

Definition choose (w : World) (c : Choice) : option World :=
  match c with
  | Do o => Some (make_move w (procs w) [] (operation o (session w)))
  | Go i j =>
      match procs w !! i with
      | Some p => match moves (cancelled w) (session w) p !! j with Some m => Some (make_move w (take i (procs w)) (drop (S i) (procs w)) m) | None => None end
      | None => None
      end
  end.

Fixpoint run (w : World) (l : list Choice) : option World := match l with [] => Some w | c :: l => choose w c ≫= λ w, run w l end.

Definition reachable (w : World) : Prop := ∃ controller l, run (new_world controller) l = Some w.

(** Input that waits: in the queues of turns, in the mailbox, in the tree. *)
Definition queued (s : Session) : list TurnInput := flat_map (λ kv, pending_input kv.2) (map_to_list (turn_states s)).
Definition mail (s : Session) : list TurnInput := mail_inputs (read_mailbox s).
End Steps.

(** One goal for each move of a process. *)
Ltac each_move := repeat apply Forall_cons_2; try apply Forall_nil_2.
