(* ===== verification/TurnAccounts.v ===== *)
(** Where queued input is at any moment: accepted input is handed on to be recorded at most once, and
    is otherwise in exactly one queue, in the hands of one process, or given up. *)
From S2P Require Import Prelude Str TurnQueue TurnSteps.

Section Accounts.
Context {Item Envelope Agent MailBody Json Cyber Origin : Type} `{EqDecision Json}.
Context `{EqDecision Item, EqDecision Envelope, EqDecision Agent, EqDecision MailBody, EqDecision Origin}.
Context (uuid : nat → str).

Notation Session := (Session Item Envelope Agent MailBody Json Cyber Origin).
Notation TurnInput := (TurnInput Item Envelope Agent MailBody Origin).
Notation TurnState := (TurnState Item Envelope Agent MailBody Origin).
Notation Proc := (@Proc Item Envelope Agent MailBody Json Origin).
Notation World := (@World Item Envelope Agent MailBody Json Cyber Origin).
Notation Move := (@Move Item Envelope Agent MailBody Json Cyber Origin).

Implicit Types (s : Session) (w : World).

Definition times (x : TurnInput) (l : list TurnInput) : nat := count_occ (λ a b, decide (a = b)) l x.

#[local] Arguments times : simpl never.
#[local] Arguments state_at : simpl never.
#[local] Arguments queued : simpl never.
#[local] Arguments mail : simpl never.

Lemma times_app x l1 l2 : times x (l1 ++ l2) = times x l1 + times x l2.
Proof. apply count_occ_app. Qed.

Lemma times_nil x : times x [] = 0.
Proof. done. Qed.

Ltac tally := rewrite ?times_app, ?times_nil in *; lia.

Lemma times_perm l1 l2 : (∀ x, times x l1 = times x l2) ↔ l1 ≡ₚ l2.
Proof. symmetry. apply Permutation_count_occ. Qed.

Lemma times_queues x (m : gmap nat TurnState) (a : nat) (t : TurnState) :
  times x (flat_map (λ kv, pending_input kv.2) (map_to_list (<[a := t]> m))) + times x (pending_input (default default_turn_state (m !! a)))
  = times x (flat_map (λ kv, pending_input kv.2) (map_to_list m)) + times x (pending_input t).
Proof.
  assert (∀ (m : gmap nat TurnState) t, m !! a = None →
    times x (flat_map (λ kv, pending_input kv.2) (map_to_list (<[a := t]> m))) = times x (pending_input t) + times x (flat_map (λ kv, pending_input kv.2) (map_to_list m))) as Hnew.
  { intros m' t' Hm. rewrite <-times_app. apply times_perm. rewrite !flat_map_concat_map.
    by rewrite map_to_list_insert. }
  destruct (m !! a) as [t0|] eqn:Hm; cbn [default from_option].
  - pose proof (Hnew (delete a m) t (lookup_delete_eq m a)) as E1. pose proof (Hnew (delete a m) t0 (lookup_delete_eq m a)) as E2.
    rewrite insert_delete_eq in E1. rewrite insert_delete_id in E2 by done. cbn in *. lia.
  - rewrite Hnew by done. cbn. tally.
Qed.

Lemma times_update x a (f : TurnState → TurnState) s :
  times x (queued (update_state a f s)) + times x (pending_input (state_at a s)) = times x (queued s) + times x (pending_input (f (state_at a s))).
Proof. apply times_queues. Qed.

Lemma mail_update a f s : mail (update_state a f s) = mail s.
Proof. done. Qed.

Lemma mail_extend a l s : mail (extend_pending_input_for_turn_state a l s) = mail s.
Proof. done. Qed.

Lemma mail_extend_accept a l s : mail (extend_and_accept a l s) = mail s.
Proof. done. Qed.

Lemma queued_send x s : queued (send_activity x s) = queued s.
Proof. done. Qed.

Lemma mail_send x s : mail (send_activity x s) = mail s.
Proof. done. Qed.

(** * Moves *)

(** A move from [s] with the input [l] in hand loses and doubles nothing. *)
Definition balanced (s : Session) (l : list TurnInput) (m : Move) : Prop := ∀ x,
  times x l + times x (queued s) + times x (mail s) + times x (mv_accepted m)
  = times x (mv_handled m) + times x (flat_map held (mv_procs m)) + times x (queued (mv_session m)) + times x (mail (mv_session m)) + times x (mv_given_up m).

Lemma get_turn_input_balanced x s input accepts s' : get_turn_input s = (input, accepts, s') →
  times x (queued s) = times x input + times x (queued s') ∧ mail s' = mail s.
Proof.
  unfold get_turn_input. destruct (active_turn s) as [t|]; [case_match|]; intros [= <- <- <-]; [|done..].
  split; [|done]. pose proof (times_update x (turn_state t) clear_input s) as E. cbn in E. tally.
Qed.

Lemma drain_balanced x s input o s' : drain_mailbox_input_items s = (input, o, s') →
  times x (mail s) = times x input ∧ mail s' = [] ∧ queued s' = queued s.
Proof.
  unfold drain_mailbox_input_items, drain_mailbox. intros [= <- <- <-]. split; [done|].
  split; [|done]. unfold mail, read_mailbox. cbn. by destruct (controller s).
Qed.

Lemma extend_balanced x a l s : times x (queued (extend_pending_input_for_turn_state a l s)) = times x (queued s) + times x l.
Proof. pose proof (times_update x a (add_input l) s) as E. cbn in E. unfold extend_pending_input_for_turn_state. tally. Qed.

Lemma extend_accept_balanced x a l s : times x (queued (extend_and_accept a l s)) = times x (queued s) + times x l.
Proof.
  pose proof (times_update x a (λ t, accept_mailbox_delivery_for_current_turn (add_input l t)) s) as E. cbn in E.
  change (queued (extend_and_accept a l s)) with (queued (update_state a (λ t, accept_mailbox_delivery_for_current_turn (add_input l t)) s)). tally.
Qed.

Lemma times_clear x a s : times x (queued (update_state a clear_input s)) + times x (pending_input (state_at a s)) = times x (queued s).
Proof. pose proof (times_update x a clear_input s) as E. cbn in E. tally. Qed.

(** A change of the active turn alone, or of a phase, moves no input. *)
Lemma mail_set_active t s : mail (set_active t s) = mail s.
Proof. done. Qed.

Lemma queued_set_active t s : queued (set_active t s) = queued s.
Proof. done. Qed.

Lemma set_phase_quiet x a p s : times x (queued (update_state a (set_mailbox_delivery_phase p) s)) = times x (queued s).
Proof. pose proof (times_update x a (set_mailbox_delivery_phase p) s) as E. cbn in E. tally. Qed.

Lemma clear_reserved_quiet a s b s' : clear_reserved_idle_turn a s = (b, s') → queued s' = queued s ∧ mail s' = mail s.
Proof. unfold clear_reserved_idle_turn. intros E. repeat case_match; by simplify_eq. Qed.

Lemma get_or_insert_quiet s t s' : get_or_insert s = (t, s') → queued s' = queued s ∧ mail s' = mail s.
Proof. unfold get_or_insert, new_active, take_fresh. destruct (active_turn s); intros E; by simplify_eq. Qed.

Lemma begin_task_quiet id s a s' : begin_task id s = (a, s') → queued s' = queued s ∧ mail s' = mail s.
Proof. unfold begin_task. destruct (get_or_insert _) as [t s''] eqn:E. intros [= <- <-]. apply (get_or_insert_quiet (set_last_started id s)) in E as [??]. done. Qed.

Lemma register_task_quiet kind id schema s h r a s' : register_task kind id schema s = (h, r, a, s') → queued s' = queued s ∧ mail s' = mail s.
Proof. unfold register_task. destruct (get_or_insert _) as [t s''] eqn:E. intros [= <- <- <- <-]. apply get_or_insert_quiet in E as [??]. done. Qed.

Lemma reserve_quiet sleep s a s' : reserve_pending_work_turn sleep s = Some (a, s') → queued s' = queued s ∧ mail s' = mail s.
Proof. unfold reserve_pending_work_turn, new_active, take_fresh. intros E. repeat case_match; by simplify_eq. Qed.

Lemma take_fresh_quiet s n s' : take_fresh s = (n, s') → queued s' = queued s ∧ mail s' = mail s.
Proof. by intros [= <- <-]. Qed.

Lemma take_task_quiet s a token s' : take_task s = Some (a, token, s') → queued s' = queued s ∧ mail s' = mail s.
Proof. unfold take_task, take_fresh. intros E. repeat case_match; by simplify_eq. Qed.

(** Closes a balance from what is known of the sessions before and after. *)
Ltac balance :=
  intros ?; cbn [quiet mv_session mv_procs mv_accepted mv_handled mv_given_up flat_map held]; rewrite ?app_nil_r;
  repeat match goal with
  | H : ∀ _, _ |- times ?x _ + _ + _ + _ = _ => specialize (H x)
  | H : mail _ = _ |- _ => rewrite H in *; clear H
  | H : queued _ = _ |- _ => rewrite H in *; clear H
  end;
  rewrite ?mail_update, ?queued_send, ?mail_send, ?mail_extend, ?mail_extend_accept, ?extend_balanced, ?extend_accept_balanced in *; tally.

Lemma turn_input_moves s l0 (k : list TurnInput → bool → list Proc) :
  (∀ l b, flat_map held (k l b) = l0 ++ l) → balanced s l0 (let '(input, accepts, s') := get_turn_input s in quiet s' (k input accepts)).
Proof.
  intros Hk. destruct (get_turn_input s) as [[l b] s'] eqn:E. pose proof (λ x, get_turn_input_balanced x _ _ _ _ E) as Hb.
  intros x. cbn [quiet mv_session mv_procs mv_accepted mv_handled mv_given_up]. rewrite Hk. destruct (Hb x) as [? ->]. tally.
Qed.

Lemma drain_moves s l0 (k : list TurnInput → TurnStartOptions Agent Json Cyber → list Proc) :
  (∀ l o, flat_map held (k l o) = l0 ++ l) → balanced s l0 (let '(input, o, s') := drain_mailbox_input_items s in quiet s' (k input o)).
Proof.
  intros Hk. destruct (drain_mailbox_input_items s) as [[l o] s'] eqn:E. pose proof (λ x, drain_balanced x _ _ _ _ E) as Hb.
  intros x. cbn [quiet mv_session mv_procs mv_accepted mv_handled mv_given_up]. rewrite Hk. destruct (Hb x) as (? & -> & ->). tally.
Qed.

Lemma task_moves_balanced c s p : Forall (balanced s (held p)) (task_moves c s p).
Proof.
  destruct p; cbn [task_moves held]; each_move.
  - apply turn_input_moves. intros l []; cbn; by rewrite app_nil_r.
  - balance.
  - apply drain_moves. intros l o; cbn; by rewrite app_nil_r.
  - balance.
  - balance.
  - case_bool_decide; balance.
  - destruct (take_task s) as [[[a t] s']|] eqn:E; [apply take_task_quiet in E as [??]|]; balance.
  - cbn [take_pending_input_for_turn_state]. pose proof (λ x, times_clear x a s). balance.
  - balance.
  - destruct (clear_reserved_idle_turn a s) as [b s'] eqn:E. apply clear_reserved_quiet in E as [??]. destruct b; balance.
Qed.

Lemma wake_moves_balanced s p : Forall (balanced s (held p)) (wake_moves uuid s p).
Proof.
  destruct p; cbn [wake_moves held]; each_move.
  - destruct (has_pending_mailbox_items s); each_move; [| |balance].
    all: destruct (reserve_pending_work_turn _ s) as [[a s']|] eqn:E; [apply reserve_quiet in E as [??]|]; balance.
  - destruct (is_reserved a s); balance.
  - apply turn_input_moves. intros l []; cbn; by rewrite app_nil_r.
  - apply drain_moves. intros l o; cbn; by rewrite app_nil_r.
  - balance.
  - destruct (is_reserved a s); [|balance]. destruct (take_fresh s) as [n s'] eqn:E. apply take_fresh_quiet in E as [??]. balance.
Qed.

Lemma drop_reservation_balanced a s ps : flat_map held ps = [] → balanced s [] (drop_reservation a s ps).
Proof.
  intros Hps. unfold drop_reservation. destruct (clear_reserved_idle_turn a s) as [b s'] eqn:E. apply clear_reserved_quiet in E as [Hq Hm].
  intros x. cbn. rewrite Hps, Hq, Hm. tally.
Qed.

Lemma idle_moves_balanced s p : Forall (balanced s (held p)) (idle_moves s p).
Proof.
  destruct p; cbn [idle_moves held]; each_move.
  - destruct (has_trigger_turn_mailbox_items s); [by apply drop_reservation_balanced|balance].
  - by apply drop_reservation_balanced.
  - balance.
Qed.

Lemma start_moves_balanced s p : Forall (balanced s (held p)) (start_moves s p).
Proof.
  destruct p; cbn [start_moves held]; each_move.
  - apply drain_moves. intros l o; cbn; by rewrite app_nil_r.
  - destruct (begin_task _ s) as [a s'] eqn:E. apply begin_task_quiet in E as [??]. balance.
  - balance.
  - destruct (register_task _ _ _ s) as [[[h r] a'] s'] eqn:E. apply register_task_quiet in E as [??]. balance.
Qed.

Lemma follow_held after b : flat_map held (follow after b : list Proc) = [].
Proof. by destruct after, b. Qed.

Lemma abort_moves_balanced s p : Forall (balanced s (held p)) (abort_moves s p).
Proof.
  destruct p; cbn [abort_moves held]; each_move.
  - destruct (active_turn s) as [[[k|] f a]|]; intros x; cbn; rewrite ?follow_held, ?mail_set_active, ?queued_set_active; tally.
  - balance.
  - pose proof (λ x, times_clear x a s) as Hc. intros x. cbn. rewrite follow_held. specialize (Hc x).
    unfold clear_pending. rewrite mail_update. tally.
Qed.

Lemma watch_moves_balanced c s p : Forall (balanced s (held p)) (watch_moves c s p).
Proof.
  destruct p; cbn [watch_moves held]; each_move; try balance.
  - case_match; balance.
  - case_match; each_move. balance.
  - case_bool_decide; each_move. balance.
Qed.

Lemma moves_balanced c s p : Forall (balanced s (held p)) (moves uuid c s p).
Proof.
  unfold moves. repeat apply Forall_app_2;
    auto using task_moves_balanced, wake_moves_balanced, idle_moves_balanced, start_moves_balanced, abort_moves_balanced, watch_moves_balanced.
Qed.

(** * Operations *)

Lemma pending_turn_input_quiet input o s i s' : pending_turn_input input o s = (i, s') → queued s' = queued s ∧ mail s' = mail s.
Proof. destruct input; cbn; intros E; by simplify_eq. Qed.

Lemma steer_inv input context expected schema o s id q s' : steer_input input context expected schema o s = Ok (id, q, s') →
  ∃ k f a i s'', active_turn s = Some (mkActive (Some k) f a) ∧ pending_turn_input input o s = (i, s'')
    ∧ q = (ResponseItem <$> context) ++ [i] ∧ s' = extend_and_accept a q s''.
Proof.
  unfold steer_input. destruct (active_turn s) as [[[k|] f a]|]; try done. destruct (keep_if _ _); [done|]. destruct (task_kind k); try done.
  match goal with |- (if ?b then _ else _) = _ → _ => destruct b; [done|] end.
  match goal with |- (if ?b then _ else _) = _ → _ => destruct b; [done|] end.
  destruct (pending_turn_input input o s) as [i s''] eqn:E. intros [= <- <- <-]. eauto 10.
Qed.

Lemma steer_balanced x input context expected schema o s id q s' : steer_input input context expected schema o s = Ok (id, q, s') →
  times x (queued s') = times x (queued s) + times x q ∧ mail s' = mail s.
Proof.
  intros (k & f & a & i & s'' & _ & [Hq Hm]%pending_turn_input_quiet & _ & ->)%steer_inv.
  by rewrite extend_accept_balanced, mail_extend_accept, Hq, Hm.
Qed.

Lemma deliver_inv m expected s b s' : deliver_mailbox_communication_to_current_turn m expected s = (b, s') →
  (b = false ∧ s' = s) ∨ (b = true ∧ ∃ k f a, active_turn s = Some (mkActive (Some k) f a) ∧ accepts_mailbox_delivery_for_current_turn (state_at a s) = true
    ∧ s' = send_activity ActivityMailbox (extend_pending_input_for_turn_state a [MailInput m] s)).
Proof.
  unfold deliver_mailbox_communication_to_current_turn. destruct (active_turn s) as [[[k|] f a]|]; try (intros [= <- <-]; by left).
  match goal with |- (if ?c then _ else _) = _ → _ => destruct c; [|intros [= <- <-]; by left] end.
  destruct (accepts_mailbox_delivery_for_current_turn (state_at a s)) eqn:E; intros [= <- <-]; [|by left]. right. eauto 10.
Qed.

Lemma deliver_balanced x m expected s b s' : deliver_mailbox_communication_to_current_turn m expected s = (b, s') →
  times x (queued s') = times x (queued s) + times x (if b then [MailInput m] else []) ∧ mail s' = mail s.
Proof.
  intros [[-> ->]|(-> & k & f & a & _ & _ & ->)]%deliver_inv; [split; [tally|done]|].
  by rewrite queued_send, mail_send, extend_balanced, mail_extend.
Qed.

Lemma inject_balanced x input s s' : inject_if_running input s = Some s' ∨ inject_hook_context_if_running input s = Some s' →
  times x (queued s') = times x (queued s) + times x (ResponseItem <$> input) ∧ mail s' = mail s.
Proof.
  unfold inject_if_running, inject_hook_context_if_running.
  intros [E|E]; repeat case_match; simplify_eq; by rewrite extend_accept_balanced, mail_extend_accept.
Qed.

Lemma enqueue_mail c o s : mail (enqueue_mailbox_communication c o s) = mail s ++ [MailInput c].
Proof.
  unfold mail, mail_inputs, enqueue_mailbox_communication. generalize (read_mailbox s) as l. intros l. unfold read_mailbox. cbn.
  destruct (controller s); cbn; by rewrite app_nil_r, fmap_app.
Qed.

Lemma reserve_idle_quiet expected s a s' : reserve_idle expected s = Ok (a, s') → queued s' = queued s ∧ mail s' = mail s.
Proof. unfold reserve_idle, new_active, take_fresh. intros E. repeat case_match; by simplify_eq. Qed.

Lemma defer_quiet x sub_id s :
  times x (queued (defer_mailbox_delivery_to_next_turn sub_id s)) = times x (queued s) ∧ mail (defer_mailbox_delivery_to_next_turn sub_id s) = mail s.
Proof. unfold defer_mailbox_delivery_to_next_turn. repeat case_match; split; try done. apply set_phase_quiet. Qed.

Lemma accept_quiet x sub_id s : times x (queued (accept_mailbox_delivery sub_id s)) = times x (queued s) ∧ mail (accept_mailbox_delivery sub_id s) = mail s.
Proof. unfold accept_mailbox_delivery. case_match; split; try done. apply set_phase_quiet. Qed.


Lemma operation_balanced o s : balanced s [] (operation o s).
Proof.
  destruct o; cbn [operation].
  - destruct (steer_input _ _ _ _ _ s) as [[[id q] s']|] eqn:E; [|balance]. pose proof (λ x, steer_balanced x _ _ _ _ _ _ _ _ _ E) as Hs.
    intros x. cbn. destruct (Hs x) as [? ->]. tally.
  - destruct (steer_input _ _ _ _ _ s) as [[[id q] s']|[]] eqn:E; try balance. pose proof (λ x, steer_balanced x _ _ _ _ _ _ _ _ _ E) as Hs.
    intros x. cbn. destruct (Hs x) as [? ->]. tally.
  - case_match; [balance|]. destruct (reserve_idle _ s) as [[a s']|] eqn:E; [apply reserve_idle_quiet in E as [??]|]; balance.
  - destruct (inject_if_running input s) as [s'|] eqn:E; [|balance]. intros x. destruct (inject_balanced x input s s') as [Hq Hm]; [auto|].
    cbn. rewrite Hm. tally.
  - destruct (inject_hook_context_if_running input s) as [s'|] eqn:E; [|balance]. intros x. destruct (inject_balanced x input s s') as [Hq Hm]; [auto|].
    cbn. rewrite Hm. tally.
  - destruct (inject_if_running input s) as [s'|] eqn:E; [|case_match; balance]. intros x. destruct (inject_balanced x input s s') as [Hq Hm]; [auto|].
    cbn. rewrite Hm. tally.
  - destruct (deliver_mailbox_communication_to_current_turn _ _ s) as [b s'] eqn:E. intros x. destruct (deliver_balanced x _ _ _ _ _ E) as [Hq Hm].
    cbn. rewrite Hm. tally.
  - intros x. cbn [mv_session mv_procs mv_accepted mv_handled mv_given_up]. rewrite enqueue_mail.
    change (queued (enqueue_mailbox_communication m o s)) with (queued s). case_match; cbn; tally.
  - destruct (controller s) as [l|] eqn:E; [|balance]. intros x. cbn [mv_session mv_procs mv_accepted mv_handled mv_given_up flat_map].
    unfold mail, read_mailbox. cbn. rewrite E. cbn. unfold mail_inputs. rewrite !fmap_app.
    match goal with |- context [queued (set_mailbox ?l ?c s)] => change (queued (set_mailbox l c s)) with (queued s) end. cbn. tally.
  - balance.
  - intros x. cbn. destruct (accept_quiet x sub_id s) as [-> ->]. tally.
  - intros x. cbn. destruct (defer_quiet x sub_id s) as [-> ->]. tally.
  - case_match; balance.
  - balance.
  - destruct (active_turn s) as [[[k|] f a]|]; [case_match|..]; intros x; cbn; rewrite ?mail_set_active, ?queued_set_active; tally.
Qed.

(** * Worlds *)

Definition in_hand w : list TurnInput := flat_map held (procs w).

Definition accounted w : Prop := ∀ x,
  times x (accepted w) = times x (handled w) + times x (in_hand w) + times x (queued (session w)) + times x (mail (session w)) + times x (given_up w).

Lemma times_filter x (f : Proc → bool) (l : list Proc) :
  times x (flat_map held (List.filter (λ p, negb (f p)) l)) + times x (flat_map held (List.filter f l)) = times x (flat_map held l).
Proof. induction l as [|p l IH]; [done|]. cbn. destruct (f p); cbn; tally. Qed.

Lemma make_move_accounted w (l1 : list Proc) (p : list TurnInput) (l2 : list Proc) (m : Move) :
  accounted w → flat_map held (procs w) = flat_map held l1 ++ p ++ flat_map held l2 → balanced (session w) p m → accounted (make_move w l1 l2 m).
Proof.
  intros Ha Hp Hb x. specialize (Ha x). specialize (Hb x). unfold make_move, in_hand in *. rewrite Hp in Ha. cbn [accepted handled procs session given_up].
  set (dies := λ p, match mv_kill m with Some h => of_handle h p | None => false end).
  pose proof (times_filter x dies (l1 ++ mv_procs m ++ l2)) as Hf. rewrite !flat_map_app in Hf.
  change (λ p0, negb match mv_kill m with Some h => of_handle h p0 | None => false end) with (λ p0, negb (dies p0)). tally.
Qed.

Lemma choose_accounted w c w' : accounted w → choose uuid w c = Some w' → accounted w'.
Proof.
  intros Ha. destruct c as [o|i j]; cbn.
  - intros [= <-]. apply (make_move_accounted _ _ []); [done|cbn; by rewrite app_nil_r|apply operation_balanced].
  - destruct (procs w !! i) as [p|] eqn:Hp; [|done]. destruct (moves uuid (cancelled w) (session w) p !! j) as [m|] eqn:Hm; [|done].
    intros [= <-]. eapply make_move_accounted; [done| |].
    + rewrite <-(take_drop_middle _ _ _ Hp) at 1. by rewrite flat_map_app.
    + pose proof (moves_balanced (cancelled w) (session w) p) as Hb. rewrite Forall_forall in Hb. apply Hb. by eapply list_elem_of_lookup_2.
Qed.

Lemma new_world_accounted c : accounted (new_world c).
Proof.
  intros x. cbn [accepted handled session given_up new_world]. change (queued (new_session c)) with (@nil TurnInput). change (in_hand (new_world c)) with (@nil TurnInput).
  assert (mail (new_session c) = MailInput <$> default [] c) as ->; [|tally].
  unfold mail, read_mailbox, mail_inputs. cbn. by rewrite <-list_fmap_compose.
Qed.

Lemma run_accounted l w w' : accounted w → run uuid w l = Some w' → accounted w'.
Proof.
  revert w. induction l as [|c l IH]; intros w Ha; cbn; [by intros [= <-]|].
  destruct (choose uuid w c) as [w''|] eqn:E; [|done]. cbn. eauto using choose_accounted.
Qed.

Lemma reachable_accounted w : reachable uuid w → accepted w ≡ₚ handled w ++ in_hand w ++ queued (session w) ++ mail (session w) ++ given_up w.
Proof.
  intros (c & l & Hr). apply times_perm. intros x. pose proof (run_accounted l _ _ (new_world_accounted c) Hr x). tally.
Qed.
End Accounts.
