(* ===== verification/TurnAdmission.v ===== *)
(** What is true of the turn of a session as long as nobody comes between a turn and those who rely
    on it: the turn has one owner, input waits only in its queue, a turn that is put off for mail
    has no other work waiting, and a watcher that waits has nothing to wake up for. *)
From S2P Require Import Prelude Str TurnQueue TurnSteps TurnAccounts.

Section Admission.
Context {Item Envelope Agent MailBody Json Cyber Origin : Type} `{EqDecision Json}.
Context `{EqDecision Item, EqDecision Envelope, EqDecision Agent, EqDecision MailBody, EqDecision Origin}.
Context (uuid : nat → str).

Notation Session := (Session Item Envelope Agent MailBody Json Cyber Origin).
Notation TurnInput := (TurnInput Item Envelope Agent MailBody Origin).
Notation TurnState := (TurnState Item Envelope Agent MailBody Origin).
Notation Proc := (@Proc Item Envelope Agent MailBody Json Origin).
Notation World := (@World Item Envelope Agent MailBody Json Cyber Origin).
Notation Move := (@Move Item Envelope Agent MailBody Json Cyber Origin).

Implicit Types (s : Session) (w : World) (p : Proc) (m : Move) (c : gset nat).

#[local] Arguments state_at : simpl never.
#[local] Arguments update_state : simpl never.

(** * Owners *)

(** A reservation, a running task, a turn that is finishing. *)
Inductive Own := OwnReserve (a : nat) | OwnTask (h : nat) | OwnFinish (a token : nat) | OwnNothing.

Definition owns p : option Own :=
  match p with
  | TaskLoop h | TaskDraining h _ | TaskRecording h _ | TaskReturned h | TaskFinishing h => Some (OwnTask h)
  | Finishing a t | FinishRecording a t _ | Finished a t => Some (OwnFinish a t)
  | Reserved a | ReservedOurs a | ReservedDraining a _ | ReservedHolding a _ _ | ReservedFilled a _
  | IdleReserved a _ _ | IdleChecked a _ _ | Starting (Some a) _ | StartDrained (Some a) _ _ | StartBegun a _ _ | StartFilled a _ => Some (OwnReserve a)
  | _ => None
  end.

Definition owners (l : list Proc) : list Own := omap owns l.

#[local] Arguments owners : simpl never.

(** The owner a session has room for. *)
Definition place s : list Own :=
  match active_turn s with
  | None => []
  | Some (mkActive None None a) => [OwnReserve a]
  | Some (mkActive (Some k) None a) => [OwnTask (task_handle k)]
  | Some (mkActive None (Some token) a) => [OwnFinish a token]
  | Some (mkActive (Some _) (Some _) _) => [OwnNothing]
  end.

#[local] Arguments place : simpl never.

Record calm_session s c : Prop := {
  (* input waits for the active turn only *)
  cs_pending a : pending_input (state_at a s) ≠ [] → ∃ t, active_turn s = Some t ∧ turn_state t = a;
  cs_states a : is_Some (turn_states s !! a) → a < fresh s;
  cs_active t : active_turn s = Some t → turn_state t < fresh s ∧ ∀ n, finishing t = Some n → n < fresh s;
  cs_tokens n : n ∈ c → n < fresh s;
  cs_handle t k : active_turn s = Some t → task t = Some k → task_handle k ∉ c;
  cs_reserved a : active_turn s = Some (mkActive None None a) →
    has_user_input (state_at a s) = false ∧ mailbox_delivery_phase (state_at a s) = CurrentTurn;
  cs_deferred a : mailbox_delivery_phase (state_at a s) = NextTurn → forallb is_queue_only (pending_input (state_at a s)) = true
}.

Definition no_user_input (l : list TurnInput) : Prop := existsb is_user_input l = false.

Definition calm_proc s p : Prop :=
  match p with
  | AbortTaken _ _ _ | AbortJoined _ _ => False
  | FinishRecording a _ _ | Finished a _ => pending_input (state_at a s) = []
  | ReservedDraining _ l | ReservedHolding _ l _ | IdleReserved _ _ l | IdleChecked _ _ l | StartDrained _ _ l | StartBegun _ _ l => no_user_input l
  | Watching _ seen => seen ≤ (activity s).1
  | WatchWaiting a seen => seen ≤ (activity s).1 ∧ (seen = (activity s).1 → has_user_input (state_at a s) = false)
  | _ => True
  end.

Record calm w : Prop := {
  cw_owner : owners (procs w) = place (session w);
  cw_session : calm_session (session w) (cancelled w);
  cw_procs : Forall (calm_proc (session w)) (procs w);
  cw_given_up : given_up w = []
}.

(** What the other processes rely on when the session changes. *)
Record calm_change s s' : Prop := {
  cc_activity : (activity s).1 ≤ (activity s').1;
  cc_user a : has_user_input (state_at a s') = true → has_user_input (state_at a s) = true ∨ (activity s).1 < (activity s').1;
  cc_finish a token : active_turn s = Some (mkActive None (Some token) a) → pending_input (state_at a s) = [] → pending_input (state_at a s') = []
}.

Lemma calm_change_same s s' : turn_states s' = turn_states s → (activity s).1 ≤ (activity s').1 → calm_change s s'.
Proof. intros Hs Ha. unfold state_at. split; [done|..]; unfold state_at; rewrite Hs; auto. Qed.

Lemma owners_app l1 l2 : owners (l1 ++ l2) = owners l1 ++ owners l2.
Proof. apply omap_app. Qed.

Lemma owners_cons p l : owners (p :: l) = option_list (owns p) ++ owners l.
Proof. unfold owners. cbn. by destruct (owns p). Qed.

Lemma place_finish s a token : place s = [OwnFinish a token] → active_turn s = Some (mkActive None (Some token) a).
Proof. unfold place. destruct (active_turn s) as [[[k|] [f|] a']|]; by intros [= <- <-]. Qed.

Lemma finish_owner s l p a token : owners l = place s → p ∈ l → owns p = Some (OwnFinish a token) → active_turn s = Some (mkActive None (Some token) a).
Proof.
  intros Hl (l1 & l2 & ->)%list_elem_of_split Hp. rewrite owners_app, owners_cons, Hp in Hl. cbn in Hl. apply place_finish.
  assert (length (place s) ≤ 1) as Hlen by (unfold place; repeat case_match; cbn; lia).
  rewrite <-Hl in *. rewrite length_app in Hlen. cbn in Hlen. destruct (owners l1), (owners l2); cbn in Hlen; try lia. done.
Qed.

Lemma calm_proc_change s s' l p : owners l = place s → p ∈ l → calm_change s s' → calm_proc s p → calm_proc s' p.
Proof.
  intros Hl Hp [Ha Hu Hf] Hc. destruct p; cbn in *; try done.
  - eapply Hf; [by eapply finish_owner|done].
  - eapply Hf; [by eapply finish_owner|done].
  - lia.
  - destruct Hc as [Hs Hw]. split; [lia|]. intros ->. destruct (has_user_input (state_at a s')) eqn:E; [|done].
    apply Hu in E as [E|E]; [|lia]. rewrite Hw in E; [done|lia].
Qed.

(** * Moves *)

(** What a move of a process that owns [o] has to show. *)
Record calm_move s c (o : option Own) m : Prop := {
  cm_kill : mv_kill m = None;
  cm_given_up : mv_given_up m = [];
  cm_change : calm_change s (mv_session m);
  cm_session : calm_session (mv_session m) (match mv_cancel m with Some t => {[t]} ∪ c | None => c end);
  cm_procs : Forall (calm_proc (mv_session m)) (mv_procs m);
  cm_owner l1 l2 : l1 ++ option_list o ++ l2 = place s → l1 ++ owners (mv_procs m) ++ l2 = place (mv_session m)
}.

Lemma filter_every {A} (l : list A) : List.filter (λ _, negb false) l = l.
Proof. induction l; cbn in *; congruence. Qed.

Lemma filter_no_one {A} (l : list A) : List.filter (λ _, false) l = [].
Proof. by induction l. Qed.

Lemma make_move_calm w l1 l2 (ps : list Proc) o m :
  calm w → procs w = l1 ++ ps ++ l2 → owners ps = option_list o → calm_move (session w) (cancelled w) o m → calm (make_move w l1 l2 m).
Proof.
  intros [Ho Hs Hp Hg] Hl Hps [Hk Hu Hch Hs' Hp' Ho']. unfold make_move. rewrite Hk, Hu. rewrite filter_every, filter_no_one.
  split; cbn [session procs given_up cancelled].
  - rewrite !owners_app. apply Ho'. by rewrite <-Hps, <-!owners_app, <-Hl.
  - done.
  - assert (∀ p, p ∈ l1 ++ l2 → calm_proc (mv_session m) p) as Hrest.
    { intros p Hin. assert (p ∈ procs w) as Hin' by (rewrite Hl; set_solver). eapply calm_proc_change; [done..|]. by eapply Forall_forall in Hp. }
    rewrite !Forall_app. split_and!; [..|done|]; apply Forall_forall; intros p Hin; apply Hrest; set_solver.
  - by rewrite Hg.
Qed.

(** * Changes of the session *)

Lemma state_update a f s : state_at a (update_state a f s) = f (state_at a s).
Proof. unfold state_at, update_state. cbn. by rewrite lookup_insert_eq. Qed.

Lemma state_update_ne a b f s : a ≠ b → state_at b (update_state a f s) = state_at b s.
Proof. intros. unfold state_at, update_state. cbn. by rewrite lookup_insert_ne. Qed.

(** The state of the active turn changes. *)
Lemma calm_update s c t f : calm_session s c → active_turn s = Some t →
  (let st := state_at (turn_state t) s in
   (task t = None → finishing t = None → no_user_input (pending_input st) → mailbox_delivery_phase st = CurrentTurn →
     no_user_input (pending_input (f st)) ∧ mailbox_delivery_phase (f st) = CurrentTurn)
   ∧ (mailbox_delivery_phase (f st) = NextTurn → forallb is_queue_only (pending_input (f st)) = true)) →
  calm_session (update_state (turn_state t) f s) c.
Proof.
  intros [H1 H2 H3 H4 H5 H6 H7] Ht [Hr Hd]. set (a := turn_state t) in *. split; cbn [update_state set_states active_turn fresh].
  - intros b Hb. destruct (decide (b = a)) as [->|]; [eauto|]. rewrite state_update_ne in Hb by done. auto.
  - intros b. unfold update_state, set_states. cbn. intros [<-|[_ Hb]]%lookup_insert_is_Some; [by destruct (H3 _ Ht)|auto].
  - done.
  - done.
  - done.
  - intros b Hb. change (active_turn s = Some (mkActive None None b)) in Hb. rewrite Ht in Hb. injection Hb as ->. subst a. cbn in *.
    rewrite state_update. destruct (H6 _ Ht). auto.
  - intros b. destruct (decide (b = a)) as [->|]; [by rewrite state_update|]. rewrite state_update_ne by done. apply H7.
Qed.

(** Nothing but the mailbox, the order and the activity changes. *)
Lemma calm_same s s' c : calm_session s c → active_turn s' = active_turn s → turn_states s' = turn_states s → fresh s' = fresh s → calm_session s' c.
Proof.
  intros [H1 H2 H3 H4 H5 H6 H7] Ha Hs Hf. assert (∀ a, state_at a s' = state_at a s) as He by (intros; unfold state_at; by rewrite Hs).
  split; intros; rewrite ?He, ?Ha, ?Hf, ?Hs in *; eauto.
Qed.

Lemma place_same s s' : active_turn s' = active_turn s → place s' = place s.
Proof. intros E. unfold place. by rewrite E. Qed.

(** The turn at the same address changes its task or closes its input. *)
Lemma calm_turn s s' c t t' : calm_session s c → turn_states s' = turn_states s → fresh s ≤ fresh s' → active_turn s = Some t → active_turn s' = Some t' →
  turn_state t' = turn_state t → (∀ n, finishing t' = Some n → n < fresh s') →
  (∀ k, task t' = Some k → task_handle k ∉ c) → (task t' = None → finishing t' = None → t' = t) → calm_session s' c.
Proof.
  intros [H1 H2 H3 H4 H5 H6 H7] Hs Hf Ht Ht' Ha Hn Hk Hr. assert (∀ a, state_at a s' = state_at a s) as He by (intros; unfold state_at; by rewrite Hs).
  split; intros; rewrite ?He, ?Hs, ?Ht' in *; simplify_eq; eauto.
  - destruct (H1 a) as (t0 & ? & ?); [done|]. simplify_eq. eauto.
  - apply H2 in H. lia.
  - rewrite Ha. apply H3 in Ht as [? _]. split; [lia|done].
  - apply H4 in H. lia.
  - apply H6. rewrite Ht. f_equal. symmetry. by apply Hr.
Qed.

Lemma calm_release s c t : calm_session s c → active_turn s = Some t → pending_input (state_at (turn_state t) s) = [] → calm_session (set_active None s) c.
Proof.
  intros [H1 H2 H3 H4 H5 H6 H7] Ht Hp. split; cbn; try done; auto.
  intros a Ha. destruct (H1 a Ha) as (t' & Ht' & <-). simplify_eq.
Qed.

Lemma calm_reserve s c t s' : calm_session s c → active_turn s = None → new_active s = (t, s') →
  calm_session s' c ∧ active_turn s' = Some (mkActive None None (turn_state t)) ∧ turn_states s' = turn_states s ∧ activity s' = activity s.
Proof.
  intros [H1 H2 H3 H4 H5 H6 H7] Hn. cbn. intros [= <- <-]. split; [|done]. split; cbn; try done.
  - intros a Ha. destruct (H1 a Ha) as (t' & Ht' & _). congruence.
  - intros a Ha. apply H2 in Ha. lia.
  - intros t [= <-]. cbn. split; [lia|done].
  - intros n Hc. apply H4 in Hc. lia.
  - by intros t k [= <-] Hk.
  - intros a [= <-]. match goal with |- context [state_at ?a ?s'] => assert (state_at a s' = default_turn_state) as -> end; [|done].
    unfold state_at. cbn. destruct (turn_states s !! fresh s) eqn:E; [|done]. assert (fresh s < fresh s); [|lia]. apply H2. by rewrite E.
Qed.

Lemma calm_token s c n : calm_session s c → n < fresh s → (∀ t, active_turn s = Some t → task t = None) → calm_session s ({[n]} ∪ c).
Proof.
  intros [H1 H2 H3 H4 H5 H6 H7] Hn Ht. split; try done.
  - intros n' [->%elem_of_singleton|?]%elem_of_union; auto.
  - intros t k Ha Hk. rewrite (Ht t Ha) in Hk. done.
Qed.

(** * Who owns the turn after a move *)

Lemma owner_passes s o (ps : list Proc) s' l1 l2 : place s = [o] → owners ps = place s' → l1 ++ [o] ++ l2 = place s → l1 ++ owners ps ++ l2 = place s'.
Proof.
  intros Hs Hp Hl. rewrite Hs in Hl. destruct l1 as [|? l1]; [|by destruct l1]. injection Hl as ->. by rewrite Hp, app_nil_r.
Qed.

Lemma owner_other s (ps : list Proc) s' l1 l2 : owners ps = [] → place s' = place s → l1 ++ [] ++ l2 = place s → l1 ++ owners ps ++ l2 = place s'.
Proof. intros -> -> <-. done. Qed.

Lemma owner_new s (ps : list Proc) s' l1 l2 : place s = [] → owners ps = place s' → l1 ++ [] ++ l2 = place s → l1 ++ owners ps ++ l2 = place s'.
Proof. intros Hs Hp Hl. rewrite Hs in Hl. destruct l1, l2; try done. by rewrite Hp, app_nil_r. Qed.

Lemma place_reserve s a : place s = [OwnReserve a] → active_turn s = Some (mkActive None None a).
Proof. unfold place. destruct (active_turn s) as [[[k|] [f|] a']|]; by intros [= <-]. Qed.

Lemma place_task s h : place s = [OwnTask h] → ∃ k a, active_turn s = Some (mkActive (Some k) None a) ∧ task_handle k = h.
Proof. unfold place. destruct (active_turn s) as [[[k|] [f|] a']|]; intros [= <-]; eauto. Qed.

Lemma place_none s : active_turn s = None → place s = [].
Proof. unfold place. by intros ->. Qed.

(** * Each move *)

Definition calm_moves s c p (l : list Move) : Prop := Forall (λ m, mv_disturbs m = [] → calm_move s c (owns p) m) l.

Lemma still s c o ps acc hand d : calm_session s c → Forall (calm_proc s) ps → owners ps = option_list o → calm_move s c o (mkMove s ps acc hand [] None None d).
Proof.
  intros Hs Hp Ho. split; cbn; try done; [by apply calm_change_same|]. intros l1 l2. by rewrite Ho.
Qed.

(** Only the mailbox, the activity or the order change. *)
Lemma aside s s' c o ps acc hand d : calm_session s c → active_turn s' = active_turn s → turn_states s' = turn_states s → fresh s' = fresh s →
  (activity s).1 ≤ (activity s').1 → Forall (calm_proc s') ps → owners ps = option_list o → calm_move s c o (mkMove s' ps acc hand [] None None d).
Proof.
  intros Hs Ha Ht Hf Hv Hp Ho. split; cbn; try done; [by apply calm_change_same|by eapply calm_same|]. intros l1 l2. rewrite Ho. by rewrite (place_same s s').
Qed.

(** The owner changes the state of its turn. *)
Lemma tend s c t f ps acc hand o d : calm_session s c → active_turn s = Some t → place s = [o] → owners ps = [o] →
  (let st := state_at (turn_state t) s in
   (task t = None → finishing t = None → no_user_input (pending_input st) → mailbox_delivery_phase st = CurrentTurn →
     no_user_input (pending_input (f st)) ∧ mailbox_delivery_phase (f st) = CurrentTurn)
   ∧ (mailbox_delivery_phase (f st) = NextTurn → forallb is_queue_only (pending_input (f st)) = true)
   ∧ (has_user_input (f st) = true → has_user_input st = true)
   ∧ (pending_input st = [] → task t = None → is_Some (finishing t) → pending_input (f st) = [])) →
  Forall (calm_proc (update_state (turn_state t) f s)) ps →
  calm_move s c (Some o) (mkMove (update_state (turn_state t) f s) ps acc hand [] None None d).
Proof.
  intros Hs Ht Hpl Ho (H1 & H2 & H3 & H4) Hp. split; cbn; try done.
  - split; [done|..].
    + intros a. destruct (decide (a = turn_state t)) as [->|]; [rewrite state_update; auto|]. rewrite state_update_ne; auto.
    + intros a token Ha Hn. rewrite Ht in Ha. simplify_eq. cbn in *. rewrite state_update. eauto.
  - by apply calm_update.
  - intros l1 l2. apply owner_passes; [done|]. rewrite Ho. by rewrite (place_same s).
Qed.

Ltac procs := each_move; cbn; try done; auto.
Ltac standing := apply still; [done|procs|done].

Lemma calm_get_turn_input s c o t (k : list TurnInput → bool → Proc) : calm_session s c → active_turn s = Some t → place s = [o] →
  (∀ l b, owns (k l b) = Some o) →
  (∀ s' l b, (∀ a, mailbox_delivery_phase (state_at a s') = mailbox_delivery_phase (state_at a s)) →
     (l = pending_input (state_at (turn_state t) s) ∨ l = []) → calm_proc s' (k l b)) →
  calm_move s c (Some o) (let '(input, accepts, s') := get_turn_input s in quiet s' [k input accepts]).
Proof.
  intros Hs Ht Hpl Hk Hp. unfold get_turn_input. rewrite Ht.
  destruct (accepts_mailbox_delivery_for_current_turn _); unfold quiet.
  - apply tend; try done.
    + unfold owners. cbn. by rewrite Hk.
    + apply Forall_singleton, Hp; [|auto]. intros a. destruct (decide (a = turn_state t)) as [->|]; [by rewrite state_update|by rewrite state_update_ne].
  - apply still; [done|apply Forall_singleton, Hp; auto|]. unfold owners. cbn. by rewrite Hk.
Qed.

Lemma task_moves_calm s c p : calm_session s c → calm_proc s p → (∀ o, owns p = Some o → place s = [o]) → calm_moves s c p (task_moves c s p).
Proof.
  intros Hs Hp Ho. unfold calm_moves. destruct p; cbn [task_moves owns] in *; each_move; intros Hd; try specialize (Ho _ eq_refl).
  - destruct (place_task _ _ Ho) as (k & a & Ht & _).
    apply (calm_get_turn_input s c _ _ (λ l b, if b then TaskDraining h l else TaskRecording h l) Hs Ht Ho); [by intros ? []|by intros ? ? []].
  - standing.
  - cbn. apply aside; try done. procs.
  - standing.
  - standing.
  - destruct (place_task _ _ Ho) as (k & a & Ht & <-). rewrite bool_decide_eq_false_2 by (by eapply cs_handle). standing.
  - destruct (place_task _ _ Ho) as (k & a & Ht & <-). unfold take_task. rewrite Ht. cbn. split; cbn; try done.
    + by apply calm_change_same.
    + eapply (calm_turn s _ c); [done| | |exact Ht|..]; cbn; [done|lia|done|done| |done..]. intros n [= <-]. lia.
    + procs.
    + intros l1 l2. by apply (owner_passes s _ _ _ l1 l2 Ho).
  - pose proof (place_finish _ _ _ Ho) as Ht. cbn. apply (tend s c _ clear_input _ _ _ _ _ Hs Ht); try done. apply Forall_singleton. cbn. by rewrite state_update.
  - pose proof (place_finish _ _ _ Ho) as Ht. split; cbn; try done; [by apply calm_change_same|..].
    + apply calm_token; [done| |intros t; rewrite Ht; by intros [= <-]]. by eapply (cs_active s c Hs _ Ht).
    + by apply Forall_singleton.
  - pose proof (place_finish _ _ _ Ho) as Ht. unfold clear_reserved_idle_turn. rewrite Ht. rewrite Nat.eqb_refl. split; cbn; try done.
    + by apply calm_change_same.
    + by eapply calm_release.
    + procs.
    + intros l1 l2. by apply (owner_passes s _ _ _ l1 l2 Ho).
Qed.

Lemma reserve_calm s c p t s' ps : calm_session s c → owns p = None → active_turn s = None →
  new_active s = (t, s') → owners ps = [OwnReserve (turn_state t)] → Forall (calm_proc s') ps → calm_move s c (owns p) (quiet s' ps).
Proof.
  intros Hs Hp Hn E Ho Hps. destruct (calm_reserve s c t s' Hs Hn E) as (Hs'' & Ha & Hst & Hact). rewrite Hp. split; cbn; try done.
  - apply calm_change_same; [done|]. by rewrite Hact.
  - intros l1 l2. apply owner_new; [by apply place_none|]. rewrite Ho. unfold place. by rewrite Ha.
Qed.

Lemma no_user_mail (mails : list (PendingMailboxCommunication Agent MailBody Json Cyber)) : no_user_input (mail_inputs mails : list TurnInput).
Proof. unfold no_user_input. by induction mails. Qed.

Lemma no_user_app (l1 l2 : list TurnInput) : no_user_input l1 → no_user_input l2 → no_user_input (l1 ++ l2).
Proof. unfold no_user_input. rewrite existsb_app. by intros -> ->. Qed.

Lemma has_user_add l (st : TurnState) : no_user_input l → has_user_input (add_input l st) = has_user_input st.
Proof. unfold has_user_input, no_user_input. cbn. rewrite existsb_app. intros ->. by rewrite orb_false_r. Qed.

(** The owner of a reservation queues input that is not the user's. *)
Lemma fill_calm s c a l ps acc : calm_session s c → place s = [OwnReserve a] → no_user_input l → owners ps = [OwnReserve a] →
  Forall (calm_proc (extend_pending_input_for_turn_state a l s)) ps →
  calm_move s c (Some (OwnReserve a)) (mkMove (extend_pending_input_for_turn_state a l s) ps acc [] [] None None []).
Proof.
  intros Hs Ho Hl Hps Hp. pose proof (place_reserve _ _ Ho) as Ht. apply (tend s c _ (add_input l) _ _ _ _ _ Hs Ht Ho); [done| |done]. cbv zeta. cbn [turn_state task finishing].
  destruct (cs_reserved _ _ Hs _ Ht) as [_ Hc]. split_and!.
  - intros _ _ Hn _. split; [by apply no_user_app|done].
  - cbn. congruence.
  - by rewrite has_user_add.
  - by intros _ _ [].
Qed.

Lemma wake_moves_calm s c p : calm_session s c → calm_proc s p → (∀ o, owns p = Some o → place s = [o]) → calm_moves s c p (wake_moves uuid s p).
Proof.
  intros Hs Hp Ho. unfold calm_moves. destruct p; cbn [wake_moves] in *; each_move; try specialize (Ho _ eq_refl).
  - destruct (has_pending_mailbox_items s); each_move; intros _; [..|standing].
    all: destruct (reserve_pending_work_turn _ s) as [[a s']|] eqn:E; [|standing]; unfold reserve_pending_work_turn in E.
    all: destruct (active_turn s) eqn:Ht; [done|]; match type of E with (if ?b then _ else _) = _ => destruct b; [|done] end.
    all: destruct (new_active s) as [t s0] eqn:En; injection E as <- <-; apply (reserve_calm s c MayStart t); [done..|procs].
  - intros _. unfold is_reserved. rewrite (place_reserve _ _ Ho). cbn. rewrite Nat.eqb_refl. standing.
  - intros _. pose proof (place_reserve _ _ Ho) as Ht. destruct (cs_reserved _ _ Hs _ Ht) as [Hn _].
    apply (calm_get_turn_input s c _ _ (λ l b, if b then ReservedDraining a l else ReservedHolding a l None) Hs Ht Ho); [by intros ? []|].
    intros s' l b _ [->| ->]; by destruct b.
  - intros _. cbn. apply aside; try done. procs. apply no_user_app; [done|apply no_user_mail].
  - intros _. by apply fill_calm; [..|procs].
  - intros _. pose proof (place_reserve _ _ Ho) as Ht. unfold is_reserved. rewrite Ht. cbn. rewrite Nat.eqb_refl. cbn. split; cbn; try done.
    + by apply calm_change_same.
    + eapply (calm_turn s _ c); [done| | |exact Ht|..]; cbn; try done. lia.
    + procs.
Qed.

Lemma drop_reservation_calm s c a ps : calm_session s c → place s = [OwnReserve a] → owners ps = [] → Forall (calm_proc (set_active None s)) ps →
  mv_disturbs (drop_reservation a s ps) = [] → calm_move s c (Some (OwnReserve a)) (drop_reservation a s ps).
Proof.
  intros Hs Ho Hps Hp. pose proof (place_reserve _ _ Ho) as Ht. unfold drop_reservation, clear_reserved_idle_turn. rewrite Ht, Nat.eqb_refl. cbn.
  unfold is_empty. destruct (pending_input (state_at a s)) eqn:E; [|done]. intros _. split; cbn; try done.
  - by apply calm_change_same.
  - by eapply calm_release.
  - intros l1 l2. by apply (owner_passes s _ _ _ l1 l2 Ho).
Qed.

Lemma idle_moves_calm s c p : calm_session s c → calm_proc s p → (∀ o, owns p = Some o → place s = [o]) → calm_moves s c p (idle_moves s p).
Proof.
  intros Hs Hp Ho. unfold calm_moves. destruct p; cbn [idle_moves] in *; each_move; try specialize (Ho _ eq_refl).
  - destruct (has_trigger_turn_mailbox_items s); [apply drop_reservation_calm; [done..|procs]|intros _; standing].
  - apply drop_reservation_calm; [done..|procs].
  - intros _. apply fill_calm; [done..|procs].
Qed.


(** A start without a reservation makes the turn itself. *)
Lemma begin_calm s c id a s' ps : calm_session s c → active_turn s = None → begin_task id s = (a, s') → owners ps = [OwnReserve a] → Forall (calm_proc s') ps →
  calm_move s c None (mkMove s' ps [] [] [] None None []).
Proof.
  intros Hs Hn E Ho Hp. unfold begin_task, get_or_insert in E. cbn in E. rewrite Hn in E. injection E as <- <-.
  destruct (calm_reserve s c (mkActive None None (fresh s)) _ Hs Hn eq_refl) as (Hs' & _).
  split; cbn; try done.
  - by apply calm_change_same.
  - by eapply calm_same.
  - intros l1 l2. apply owner_new; [by apply place_none|]. by rewrite Ho.
Qed.

Lemma start_moves_calm s c p : calm_session s c → calm_proc s p → (∀ o, owns p = Some o → place s = [o]) → calm_moves s c p (start_moves s p).
Proof.
  intros Hs Hp Ho. unfold calm_moves. destruct p; cbn [start_moves] in *; each_move.
  - intros _. cbn. apply aside; try done. procs. apply no_user_mail.
  - destruct own as [a|]; [specialize (Ho _ eq_refl); pose proof (place_reserve _ _ Ho) as Ht|destruct (active_turn s) as [t|] eqn:Ht].
    + intros _. unfold begin_task, get_or_insert. cbn. rewrite Ht. cbn. apply aside; try done. procs.
    + unfold begin_task. destruct (get_or_insert _). done.
    + intros _. destruct (begin_task _ s) as [a s'] eqn:E. eapply begin_calm; [done..|procs].
  - specialize (Ho _ eq_refl). intros _. apply fill_calm; [done..|procs].
  - specialize (Ho _ eq_refl). pose proof (place_reserve _ _ Ho) as Ht. unfold register_task, get_or_insert. rewrite Ht. cbn. intros _. split; cbn; try done.
    + by apply calm_change_same.
    + eapply (calm_turn s _ c); [done| | |exact Ht|..]; cbn; try done; [lia|]. intros k [= <-]. cbn. intros Hc%(cs_tokens _ _ Hs). lia.
    + procs.
    + intros l1 l2. by apply (owner_passes s _ _ _ l1 l2 Ho).
Qed.

Lemma abort_moves_calm s c p : calm_session s c → calm_proc s p → (∀ o, owns p = Some o → place s = [o]) → calm_moves s c p (abort_moves s p).
Proof.
  intros Hs Hp Ho. unfold calm_moves. destruct p; cbn [abort_moves] in *; each_move; try done.
  destruct (active_turn s) as [[[k|] f a]|]; cbn; try done. intros _. by destruct after; standing.
Qed.

Lemma watch_moves_calm s c p : calm_session s c → calm_proc s p → (∀ o, owns p = Some o → place s = [o]) → calm_moves s c p (watch_moves c s p).
Proof.
  intros Hs Hp Ho. unfold calm_moves. destruct p; cbn [watch_moves] in *; each_move; try (intros _; standing).
  - intros _. cbn in Hp. destruct (has_user_input (state_at a s)) eqn:E; standing.
  - destruct (_ =? _); each_move. intros _. standing.
  - case_bool_decide; each_move. intros _. standing.
Qed.

Lemma moves_calm s c p : calm_session s c → calm_proc s p → (∀ o, owns p = Some o → place s = [o]) → calm_moves s c p (moves uuid c s p).
Proof.
  intros Hs Hp Ho. unfold moves, calm_moves. repeat apply Forall_app_2.
  - by apply task_moves_calm.
  - by apply wake_moves_calm.
  - by apply idle_moves_calm.
  - by apply start_moves_calm.
  - by apply abort_moves_calm.
  - by apply watch_moves_calm.
Qed.

(** * Each operation *)

(** An operation changes the state of the active turn, and may tell those who watch. *)
Lemma attend s c t f s' ps acc : calm_session s c → active_turn s = Some t →
  active_turn s' = active_turn s → turn_states s' = turn_states (update_state (turn_state t) f s) → fresh s' = fresh s → (activity s).1 ≤ (activity s').1 →
  (let st := state_at (turn_state t) s in
   (task t = None → finishing t = None → no_user_input (pending_input st) → mailbox_delivery_phase st = CurrentTurn →
     no_user_input (pending_input (f st)) ∧ mailbox_delivery_phase (f st) = CurrentTurn)
   ∧ (mailbox_delivery_phase (f st) = NextTurn → forallb is_queue_only (pending_input (f st)) = true)
   ∧ (has_user_input (f st) = true → has_user_input st = true ∨ (activity s).1 < (activity s').1)
   ∧ (task t = None → finishing t = None)) →
  Forall (calm_proc s') ps → owners ps = [] →
  calm_move s c None (mkMove s' ps acc [] [] None None []).
Proof.
  intros Hs Ht Ha Hst Hf Hv (H1 & H2 & H3 & H4) Hp Ho.
  assert (∀ a, state_at a s' = state_at a (update_state (turn_state t) f s)) as He by (intros; unfold state_at; by rewrite Hst).
  split; cbn; try done.
  - split; [done|..].
    + intros a. rewrite He. destruct (decide (a = turn_state t)) as [->|]; [rewrite state_update; auto|]. rewrite state_update_ne; auto.
    + intros a token Hfin. rewrite Ht in Hfin. injection Hfin as ->. by specialize (H4 eq_refl).
  - eapply (calm_same (update_state (turn_state t) f s)); [by apply calm_update|by rewrite Ha|done|by rewrite Hf].
  - intros l1 l2. apply owner_other; [done|by apply place_same].
Qed.

Ltac later := unfold extend_and_accept, extend_pending_input_for_turn_state, update_state; cbn; lia.

(** Input that reopens the turn. *)
Lemma extend_and_accept_calm s c t l acc : calm_session s c → active_turn s = Some t → (task t = None → finishing t = None ∧ no_user_input l) →
  calm_move s c None (mkMove (extend_and_accept (turn_state t) l s) [] acc [] [] None None []).
Proof.
  intros Hs Ht Hl. eapply (attend s c t (λ st, accept_mailbox_delivery_for_current_turn (add_input l st))); try done; [later|].
  cbv zeta. split_and!; try done.
  - intros Hk _ Hn _. split; [|done]. apply no_user_app; [done|by apply Hl].
  - right. later.
  - intros Hk. by apply Hl.
Qed.

Lemma pending_turn_input_same input o s i s' : pending_turn_input input o s = (i, s') →
  active_turn s' = active_turn s ∧ turn_states s' = turn_states s ∧ fresh s' = fresh s ∧ activity s' = activity s.
Proof. destruct input; cbn; intros E; by simplify_eq. Qed.

Lemma calm_move_from s s0 c m : active_turn s0 = active_turn s → turn_states s0 = turn_states s → activity s0 = activity s → calm_move s0 c None m → calm_move s c None m.
Proof.
  intros Ha Hst Hv [Hk Hg [C1 C2 C3] Hs Hp Ho]. assert (∀ a, state_at a s0 = state_at a s) as He by (intros; unfold state_at; by rewrite Hst).
  split; try done.
  - split; [by rewrite <-Hv|intros a; rewrite <-He, <-Hv; apply C2|intros a token; rewrite <-Ha, <-He; apply C3].
  - intros l1 l2. rewrite <-(place_same s s0) by done. apply Ho.
Qed.

Lemma steer_calm s c input context expected schema o id q s' : calm_session s c → steer_input input context expected schema o s = Ok (id, q, s') →
  calm_move s c None (mkMove s' [] q [] [] None None []).
Proof.
  intros Hs (k & f & a & i & s'' & Ht & E & -> & ->)%steer_inv.
  apply pending_turn_input_same in E as (Ha & Hst & Hf & Hv). apply (calm_move_from s s''); [done..|].
  apply (extend_and_accept_calm s'' c (mkActive (Some k) f a)); [by eapply calm_same|by rewrite Ha|done].
Qed.

Lemma inject_calm s c input s' q : calm_session s c → inject_if_running input s = Some s' ∨ inject_hook_context_if_running input s = Some s' →
  calm_move s c None (mkMove s' [] q [] [] None None []).
Proof.
  intros Hs Hi. unfold inject_if_running, inject_hook_context_if_running in Hi. destruct (active_turn s) as [[tk f a]|] eqn:Ht; [|naive_solver].
  destruct Hi as [Hi|Hi].
  - destruct f; [done|]. injection Hi as <-. apply (extend_and_accept_calm s c (mkActive tk None a)); [done..|]. intros _. split; [done|].
    clear. unfold no_user_input. by induction input.
  - destruct tk as [k|]; [|done]. injection Hi as <-. by apply (extend_and_accept_calm s c (mkActive (Some k) f a)).
Qed.

Lemma deliver_calm s c mail expected b s' acc : calm_session s c → deliver_mailbox_communication_to_current_turn mail expected s = (b, s') →
  calm_move s c None (mkMove s' [] acc [] [] None None []).
Proof.
  intros Hs [[_ ->]|(_ & k & f & a & Ht & Hacc & ->)]%deliver_inv; [by apply still|].
  eapply (attend s c _ (add_input [MailInput mail]) _ _ _ Hs Ht); try done; [later|]. cbv zeta. cbn [turn_state task finishing]. split_and!; try done.
  - cbn. unfold accepts_mailbox_delivery_for_current_turn in Hacc. intros Hn. by rewrite Hn in Hacc.
  - right. later.
Qed.

Lemma phase_calm s c sub_id : calm_session s c →
  calm_move s c None (quiet (accept_mailbox_delivery sub_id s) []) ∧ calm_move s c None (quiet (defer_mailbox_delivery_to_next_turn sub_id s) []).
Proof.
  intros Hs. unfold accept_mailbox_delivery, defer_mailbox_delivery_to_next_turn, turn_state_for_sub_id.
  destruct (active_turn s) as [[[k|] f a]|] eqn:Ht; cbn; [|by split; apply still..].
  unfold running_sub_id. cbn. destruct (task_sub_id k =s sub_id); cbn; [|by split; apply still]. split.
  - by eapply (attend s c _ accept_mailbox_delivery_for_current_turn _ _ _ Hs Ht); [..|cbv zeta; split_and!; try done; auto|done|done].
  - destruct (existsb _ _) eqn:E; [by apply still|].
    eapply (attend s c _ (set_mailbox_delivery_phase NextTurn) _ _ _ Hs Ht); try done. cbv zeta. cbn [turn_state task finishing]. split_and!; try done; [|auto].
    intros _. cbn. apply forallb_forall. intros i Hi. destruct (is_queue_only i) eqn:Hq; [done|].
    assert (existsb (λ i, negb (is_queue_only i)) (pending_input (state_at a s)) = true); [|congruence]. apply existsb_exists. exists i. by rewrite Hq.
Qed.

Lemma queued_no_user input o s : no_user_input (queued_at_start input o s).
Proof. by destruct input. Qed.

Lemma reserve_idle_calm s c expected a s' ps : calm_session s c → reserve_idle expected s = Ok (a, s') → owners ps = [OwnReserve a] → Forall (calm_proc s') ps →
  calm_move s c None (quiet s' ps).
Proof.
  intros Hs E Ho Hp. unfold reserve_idle in E. destruct (active_turn s) eqn:Ht; [done|].
  assert ((let '(t, s') := new_active s in (turn_state t, s')) = (a, s')) as E' by (repeat case_match; by simplify_eq). clear E.
  destruct (new_active s) as [t s0] eqn:En. injection E' as <- <-. by apply (reserve_calm s c MayStart t).
Qed.

Lemma operation_calm s c o : calm_session s c → mv_disturbs (operation o s) = [] → calm_move s c None (operation o s).
Proof.
  intros Hs. destruct o; cbn [operation].
  - destruct (steer_input _ _ _ _ _ s) as [[[id q] s']|] eqn:E; intros _; [by eapply steer_calm|standing].
  - destruct (steer_input _ _ _ _ _ s) as [[[id q] s']|[]] eqn:E; intros _; [by eapply steer_calm|standing..].
  - destruct (has_trigger_turn_mailbox_items s); [intros _; standing|].
    destruct (reserve_idle _ s) as [[a s']|] eqn:E; intros _; [|standing]. eapply reserve_idle_calm; [done..|]. procs. apply queued_no_user.
  - destruct (inject_if_running input s) as [s'|] eqn:E; intros _; [|standing]. eapply inject_calm; eauto.
  - destruct (inject_hook_context_if_running input s) as [s'|] eqn:E; intros _; [|standing]. eapply inject_calm; eauto.
  - destruct (inject_if_running input s) as [s'|] eqn:E; intros _; [eapply inject_calm; eauto|]. case_match; standing.
  - destruct (deliver_mailbox_communication_to_current_turn _ _ s) as [b s'] eqn:E. intros _. by eapply deliver_calm.
  - intros _. apply aside; try done; [cbn; lia|..]; case_match; procs.
  - intros _. destruct (controller s); [|standing]. apply aside; try done.
  - intros _. apply aside; try done. cbn; lia.
  - intros _. by apply phase_calm.
  - intros _. by apply phase_calm.
  - intros _. case_match; standing.
  - intros _. standing.
  - destruct (active_turn s) as [[[k|] f a]|]; [case_match; [done|]|..]; intros _; standing.
Qed.

(** * Worlds *)

Lemma choose_calm w ch w' : calm w → choose uuid w ch = Some w' → disturbances w' = [] → calm w'.
Proof.
  intros Hc. destruct ch as [o|i j]; cbn.
  - intros [= <-] Hd. cbn in Hd. apply app_nil in Hd as [_ Hd].
    apply (make_move_calm w (procs w) [] [] None); [done|by rewrite app_nil_r|done|]. by apply operation_calm; [apply Hc|].
  - destruct (procs w !! i) as [p|] eqn:Hp; [|done]. destruct (moves uuid (cancelled w) (session w) p !! j) as [m|] eqn:Hm; [|done].
    intros [= <-] Hd. cbn in Hd. apply app_nil in Hd as [_ Hd].
    apply (make_move_calm w (take i (procs w)) (drop (S i) (procs w)) [p] (owns p)); [done|symmetry; exact (take_drop_middle _ _ _ Hp)|by rewrite owners_cons, app_nil_r|].
    assert (∀ o, owns p = Some o → place (session w) = [o]) as Ho.
    { intros o Hop. destruct Hc as [Hown _ _ _]. rewrite <-(take_drop_middle _ _ _ Hp), owners_app, owners_cons, Hop in Hown.
      assert (length (place (session w)) ≤ 1) as Hlen by (unfold place; repeat case_match; cbn; lia).
      rewrite <-Hown in Hlen |- *. rewrite !length_app in Hlen. cbn in Hlen |- *.
      destruct (owners (take i (procs w))), (owners (drop (S i) (procs w))); cbn in Hlen |- *; (done || lia). }
    pose proof (moves_calm (session w) (cancelled w) p (cw_session _ Hc)) as Hmv.
    assert (calm_proc (session w) p) as Hpc by (eapply Forall_lookup_1; [apply Hc|done]).
    specialize (Hmv Hpc Ho). unfold calm_moves in Hmv. exact (Forall_lookup_1 _ _ _ _ Hmv Hm Hd).
Qed.

Lemma choose_disturbances w ch w' : choose uuid w ch = Some w' → ∃ d, disturbances w' = disturbances w ++ d.
Proof.
  destruct ch as [o|i j]; cbn; [intros [= <-]; by eexists|]. destruct (procs w !! i); [|done]. destruct (moves _ _ _ _ !! j); [|done]. intros [= <-]. by eexists.
Qed.

Lemma run_disturbances l w w' : run uuid w l = Some w' → ∃ d, disturbances w' = disturbances w ++ d.
Proof.
  revert w. induction l as [|ch l IH]; intros w; cbn; [intros [= <-]; exists []; by rewrite app_nil_r|].
  destruct (choose uuid w ch) as [w1|] eqn:E; [|done]. cbn. intros [d2 Hd2]%IH. apply choose_disturbances in E as [d1 Hd1].
  exists (d1 ++ d2). by rewrite Hd2, Hd1, app_assoc.
Qed.

Lemma new_world_calm ctl : calm (new_world ctl).
Proof.
  split; cbn; try done. split; cbn; try done.
  - intros a Ha. unfold state_at in Ha. cbn in Ha. by rewrite lookup_empty in Ha.
Qed.

Lemma reachable_calm w : reachable uuid w → disturbances w = [] → calm w.
Proof.
  intros (ctl & l & Hr) Hd. pose proof (new_world_calm ctl) as Hc. revert Hc Hr. generalize (new_world ctl : World) as w0. induction l as [|ch l IH]; intros w0 Hc; cbn.
  - by intros [= ->].
  - destruct (choose uuid w0 ch) as [w1|] eqn:E; [|done]. cbn. intros Hr. apply (IH w1); [|done]. eapply choose_calm; [done..|].
    apply run_disturbances in Hr as [d Hr]. rewrite Hd in Hr. symmetry in Hr. by apply app_nil in Hr as [? _].
Qed.

(** Nobody came between a turn and those who rely on it. *)
Definition undisturbed w : Prop := disturbances w = [].

Lemma queued_empty s : (∀ a, pending_input (state_at a s) = []) → queued s = [].
Proof.
  intros He. unfold queued. assert (∀ kv, kv ∈ map_to_list (turn_states s) → pending_input kv.2 = []) as Hl.
  { intros [a t] Ht%elem_of_map_to_list. specialize (He a). unfold state_at in He. by rewrite Ht in He. }
  induction (map_to_list (turn_states s)) as [|kv l IH]; [done|]. cbn. rewrite Hl by set_solver. apply IH. set_solver.
Qed.

Lemma idle_queues_empty w : calm w → active_turn (session w) = None → queued (session w) = [].
Proof.
  intros Hc Hn. apply queued_empty. intros a. destruct (pending_input (state_at a (session w))) eqn:E; [done|].
  destruct (cs_pending _ _ (cw_session _ Hc) a) as (t0 & Ht & _); congruence.
Qed.

(** C18: whatever starts, ends, interrupts or feeds the turn of a session, and in whatever order its
    tasks take their steps, input that was accepted is handed on to be recorded at most once, and
    is until then in one queue, in the mailbox or in the hands of one task, unless it was given up.
    As long as no abort takes a turn away, no start uses a turn it did not reserve and no
    reservation with input is dropped, nothing is given up, and once no turn is active all accepted
    input was handed on, is about to be, or is mail that waits. *)
Theorem accepted_input_kept w : reachable uuid w →
  accepted w ≡ₚ handled w ++ in_hand w ++ queued (session w) ++ mail (session w) ++ given_up w
  ∧ (undisturbed w → given_up w = [] ∧ (active_turn (session w) = None → accepted w ≡ₚ handled w ++ in_hand w ++ mail (session w))).
Proof.
  intros Hr. pose proof (reachable_accounted uuid w Hr) as Ha. split; [done|]. intros Hd. pose proof (reachable_calm w Hr Hd) as Hc.
  split; [apply Hc|]. intros Hn. rewrite Ha, (idle_queues_empty w Hc Hn), (cw_given_up w Hc). cbn. by rewrite app_nil_r.
Qed.

(** C19: as long as nobody comes between a turn and those who rely on it, the turn has one owner at
    a time; a task that ends because no input seems to be pending overlooks nothing but mail that
    starts no turn; and a watcher that waits for the user while a message of the user is queued has
    something to wake it. *)
Theorem no_work_overlooked w : reachable uuid w → undisturbed w →
  owners (procs w) = place (session w)
  ∧ (∀ t, active_turn (session w) = Some t → has_pending_input (session w) = false →
       forallb is_queue_only (pending_input (state_at (turn_state t) (session w))) = true)
  ∧ (∀ a seen, WatchWaiting a seen ∈ procs w → has_user_input (state_at a (session w)) = true → seen < (activity (session w)).1).
Proof.
  intros Hr Hd. pose proof (reachable_calm w Hr Hd) as Hc. split_and!; [apply Hc|..].
  - intros t Ht Hp. unfold has_pending_input in Hp. rewrite Ht in Hp. unfold accepts_mailbox_delivery_for_current_turn, is_empty in Hp.
    destruct (mailbox_delivery_phase _) eqn:Hph; [|by eapply cs_deferred; [apply Hc|]].
    destruct (pending_input _); [done|]. done.
  - intros a seen Hin Hu. pose proof (cw_procs _ Hc) as Hp. rewrite Forall_forall in Hp. destruct (Hp _ Hin) as [Hs Hw].
    destruct (decide (seen = (activity (session w)).1)) as [E|]; [|lia]. rewrite (Hw E) in Hu. done.
Qed.
End Admission.

(** * Concrete runs *)

Definition sample_uuid (n : nat) : str := [N.of_nat n].
Definition sample_mail (starts : bool) (n : nat) : InterAgentCommunication nat nat := mkCommunication 0 starts n.
Definition user_start : @Start nat := mkStart Regular (lit "user") None.

Abbreviation world := (@World nat nat nat nat nat unit unit).
Abbreviation choice := (@Choice nat nat nat nat nat unit unit).

(** Mail starts a turn, the user steers it, the task records both and ends. *)
Definition quiet_run : list choice :=
  [Do (Enqueue (sample_mail true 1) default_options false)] ++ replicate 10 (Go 0 0)
  ++ [Do (Steer (SubmittedUserInput [7] None) [] None None tt); Go 0 0; Go 0 0; Go 0 0; Go 0 1; Go 0 0; Go 0 0; Go 0 0; Go 0 0; Go 0 0; Go 0 0].
Definition quiet_world : world := default (new_world None) (run sample_uuid (new_world None) quiet_run).

Lemma quiet_world_reachable : reachable sample_uuid quiet_world.
Proof. exists None, quiet_run. vm_compute. reflexivity. Qed.

Lemma accepted_input_kept_witness :
  handled quiet_world = [MailInput (sample_mail true 1); UserInput [7] None (Some 0%N) tt] ∧ disturbances quiet_world = []
  ∧ accepted quiet_world ≡ₚ handled quiet_world ++ in_hand quiet_world ++ mail (session quiet_world).
Proof.
  split; [vm_compute; reflexivity|]. split; [vm_compute; reflexivity|].
  apply (accepted_input_kept sample_uuid quiet_world); [apply quiet_world_reachable|vm_compute; reflexivity|vm_compute; reflexivity].
Defined.

(** A task runs, a watcher waits, and the user sends a message. *)
Definition watched_run : list choice :=
  [Do (Enqueue (sample_mail true 1) default_options false)] ++ replicate 10 (Go 0 0)
  ++ [Do (WatchUserInput (sample_uuid 1)); Go 1 0; Do (Steer (SubmittedUserInput [7] None) [] None None tt)].
Definition watched_world : world := default (new_world None) (run sample_uuid (new_world None) watched_run).

Lemma watched_world_reachable : reachable sample_uuid watched_world.
Proof. exists None, watched_run. vm_compute. reflexivity. Qed.

Lemma no_work_overlooked_witness : WatchWaiting 0 1 ∈ procs watched_world ∧ has_user_input (state_at 0 (session watched_world)) = true ∧ 1 < (activity (session watched_world)).1.
Proof.
  assert (WatchWaiting 0 1 ∈ procs watched_world) as Hw by (vm_compute; right; left).
  split; [exact Hw|]. split; [vm_compute; reflexivity|].
  apply (no_work_overlooked sample_uuid watched_world) with (a := 0); [apply watched_world_reachable|vm_compute; reflexivity|exact Hw|vm_compute; reflexivity].
Defined.

(** * What disturbances cost *)

(** Mail that wakes an idle session is in the hands of the task that reserved the turn; a submission
    of the user replaces the reservation. The mail is then queued for a turn that nobody runs. *)
Definition lost_mail_run : list choice :=
  [Do (Enqueue (sample_mail true 1) default_options false); Go 0 0; Go 0 0; Go 0 0; Go 0 0;
   Do (StartOrSteer (SubmittedUserInput [7] None) [] None tt user_start); Go 1 0; Go 0 0; Go 0 0] ++ replicate 6 (Go 0 0) ++ [Go 0 1] ++ replicate 6 (Go 0 0).
Definition lost_mail_world : world := default (new_world None) (run sample_uuid (new_world None) lost_mail_run).

Example mail_lost_to_replacement :
  reachable sample_uuid lost_mail_world ∧ procs lost_mail_world = [] ∧ active_turn (session lost_mail_world) = None
  ∧ accepted lost_mail_world = [MailInput (sample_mail true 1)] ∧ handled lost_mail_world = [] ∧ mail (session lost_mail_world) = [].
Proof. split; [exists None, lost_mail_run; vm_compute; reflexivity|]. vm_compute. repeat split. Qed.

(** The start of the user's task found no turn; mail reserves one before it makes its own. Both use
    it, and the task that is registered last ends the other one without an abort. *)
Definition shared_run : list choice :=
  [Do (StartOrSteer (SubmittedUserInput [7] None) [] None tt user_start); Go 0 0; Do (Enqueue (sample_mail true 1) default_options false); Go 1 0]
  ++ replicate 4 (Go 0 0).
Definition shared_world (more : list choice) : world := default (new_world None) (run sample_uuid (new_world None) (shared_run ++ more)).

Example task_replaced_silently :
  (active_turn (session (shared_world [])) ≫= task) = Some (mkTask 1 Regular (lit "user") None false) ∧ procs (shared_world []) = [TaskLoop 1; Reserved 0]
  ∧ (active_turn (session (shared_world (replicate 9 (Go 1 0)))) ≫= task) = Some (mkTask 3 Regular (sample_uuid 2) None false)
  ∧ procs (shared_world (replicate 9 (Go 1 0))) = [TaskLoop 3].
Proof. vm_compute. repeat split. Qed.

(** Input is injected into a reservation whose settings are then refused. *)
Definition dropped_run : list choice := [Do (StartIfIdle (SubmittedResponseItem 5) None tt user_start); Do (Inject [9]); Go 0 0; Go 0 0].
Definition dropped_world : world := default (new_world None) (run sample_uuid (new_world None) dropped_run).

Example injected_input_lost :
  reachable sample_uuid dropped_world ∧ procs dropped_world = [] ∧ active_turn (session dropped_world) = None
  ∧ accepted dropped_world = [ResponseItem 9] ∧ handled dropped_world = [] ∧ mail (session dropped_world) = [].
Proof. split; [exists None, dropped_run; vm_compute; reflexivity|]. vm_compute. repeat split. Qed.
