(* ===== verification/PasteBurst.v ===== *)
(** tui/src/bottom_pane/paste_burst.rs with its callers in chat_composer.rs, chat_composer/paste_input.rs
    and chat_composer/reconnect.rs: text that arrives as fast key presses is collected and inserted as
    one paste. What is typed is at any time partly in the text area, partly in the buffer and partly a
    single held character; none of it may be lost or change its place.

    The text area is modelled for its plain mode: several lines, no Vim mode, no selection, no search
    open, and with the two kinds of atomic element a paste makes. Instants are counted in nanoseconds;
    [Instant::duration_since] is truncated subtraction. *)
From stdpp Require Import pretty.
From S2P Require Import Prelude Str Truncate.
Open Scope N_scope.

(** * The state machine *)

Definition from_millis (n : N) : N := n * 1000000.

Definition PASTE_BURST_MIN_CHARS : N := 3.
Definition PASTE_ENTER_SUPPRESS_WINDOW : N := from_millis 120.
Definition PASTE_BURST_CHAR_INTERVAL : N := from_millis 8.
Definition PASTE_BURST_ACTIVE_IDLE_TIMEOUT (windows : bool) : N := from_millis (if windows then 60 else 8).

Record PasteBurst := mkBurst {
  last_plain_char_time : option N;
  consecutive_plain_char_burst : N;
  burst_window_until : option N;
  buffer : str;
  active : bool;
  pending_first_char : option (N * N)
}.

Definition new_burst : PasteBurst := mkBurst None 0 None [] false None.

Inductive CharDecision := BeginBuffer (retro_chars : N) | BufferAppend | RetainFirstChar | BeginBufferFromPending.
Inductive FlushResult := FlushPaste (s : str) | FlushTyped (c : N) | FlushNone.

Definition extend_window (now : N) (b : PasteBurst) : PasteBurst :=
  mkBurst (last_plain_char_time b) (consecutive_plain_char_burst b) (Some (now + PASTE_ENTER_SUPPRESS_WINDOW)) (buffer b) (active b) (pending_first_char b).

Definition push_buffer (s : str) (b : PasteBurst) : PasteBurst :=
  mkBurst (last_plain_char_time b) (consecutive_plain_char_burst b) (burst_window_until b) (buffer b ++ s) (active b) (pending_first_char b).

Definition set_active_flag (a : bool) (b : PasteBurst) : PasteBurst :=
  mkBurst (last_plain_char_time b) (consecutive_plain_char_burst b) (burst_window_until b) (buffer b) a (pending_first_char b).

Definition set_pending (p : option (N * N)) (b : PasteBurst) : PasteBurst :=
  mkBurst (last_plain_char_time b) (consecutive_plain_char_burst b) (burst_window_until b) (buffer b) (active b) p.

Definition is_active_internal (b : PasteBurst) : bool := active b || match buffer b with [] => false | _ => true end.
Definition is_active (b : PasteBurst) : bool := is_active_internal b || match pending_first_char b with Some _ => true | None => false end.

Definition note_plain_char (now : N) (b : PasteBurst) : PasteBurst :=
  let n := match last_plain_char_time b with
    | Some prev => if now - prev <=? PASTE_BURST_CHAR_INTERVAL then N.min (consecutive_plain_char_burst b + 1) 65535 else 1
    | None => 1
    end in
  mkBurst (Some now) n (burst_window_until b) (buffer b) (active b) (pending_first_char b).

Definition on_plain_char (ch now : N) (b : PasteBurst) : CharDecision * PasteBurst :=
  let b := note_plain_char now b in
  if active b then (BufferAppend, extend_window now b)
  else
    let rest :=
      if PASTE_BURST_MIN_CHARS <=? consecutive_plain_char_burst b then (BeginBuffer (consecutive_plain_char_burst b - 1), b)
      else (RetainFirstChar, set_pending (Some (ch, now)) b) in
    match pending_first_char b with
    | Some (held, held_at) =>
        if now - held_at <=? PASTE_BURST_CHAR_INTERVAL then
          (BeginBufferFromPending, extend_window now (push_buffer [held] (set_pending None (set_active_flag true b))))
        else rest
    | None => rest
    end.

Definition on_plain_char_no_hold (now : N) (b : PasteBurst) : option CharDecision * PasteBurst :=
  let b := note_plain_char now b in
  if active b then (Some BufferAppend, extend_window now b)
  else if PASTE_BURST_MIN_CHARS <=? consecutive_plain_char_burst b then (Some (BeginBuffer (consecutive_plain_char_burst b - 1)), b)
  else (None, b).

Definition flush_pending (b : PasteBurst) : FlushResult * PasteBurst :=
  if is_active_internal b then
    (FlushPaste (buffer b), mkBurst (last_plain_char_time b) (consecutive_plain_char_burst b) (burst_window_until b) [] false (pending_first_char b))
  else match pending_first_char b with
  | Some (ch, _) => (FlushTyped ch, set_pending None b)
  | None => (FlushNone, b)
  end.

Definition flush_if_due (windows : bool) (now : N) (b : PasteBurst) : FlushResult * PasteBurst :=
  let timeout := if is_active_internal b then PASTE_BURST_ACTIVE_IDLE_TIMEOUT windows else PASTE_BURST_CHAR_INTERVAL in
  match last_plain_char_time b with
  | Some t => if timeout <? now - t then flush_pending b else (FlushNone, b)
  | None => (FlushNone, b)
  end.

Definition append_control_char_if_active (ch now : N) (b : PasteBurst) : bool * PasteBurst :=
  if is_active b then
    let held := match pending_first_char b with Some (held, _) => [held] | None => [] end in
    (true, mkBurst (Some now) (consecutive_plain_char_burst b) (Some (now + PASTE_ENTER_SUPPRESS_WINDOW)) (buffer b ++ held ++ [ch]) true None)
  else (false, b).

Definition newline_should_insert_instead_of_submit (now : N) (b : PasteBurst) : bool :=
  is_active b || match burst_window_until b with Some until => now <=? until | None => false end.

Definition direct_insert_newline_should_insert (now : N) (b : PasteBurst) : bool :=
  newline_should_insert_instead_of_submit now b
  || match last_plain_char_time b with Some t => now - t <=? PASTE_BURST_CHAR_INTERVAL | None => false end.

Definition begin_with_retro_grabbed (grabbed : str) (now : N) (b : PasteBurst) : PasteBurst :=
  extend_window now (set_active_flag true (push_buffer grabbed b)).

Definition append_char_to_buffer (ch now : N) (b : PasteBurst) : PasteBurst := extend_window now (push_buffer [ch] b).

Definition try_append_char_if_active (ch now : N) (b : PasteBurst) : bool * PasteBurst :=
  if is_active_internal b then (true, append_char_to_buffer ch now b) else (false, b).

(** The byte at which the last [retro_chars] characters start. *)
Definition retro_start_index (before : str) (retro_chars : N) : N := blen (take (length before - N.to_nat retro_chars) before).

Definition decide_begin_buffer (now : N) (before : str) (retro_chars : N) (b : PasteBurst) : option (N * str) * PasteBurst :=
  let start_byte := retro_start_index before retro_chars in
  let grabbed := drop_bytes start_byte before in
  if existsb is_whitespace grabbed || (16 <=? length grabbed)%nat then (Some (start_byte, grabbed), begin_with_retro_grabbed grabbed now b)
  else (None, b).

Definition flush_before_modified_input (b : PasteBurst) : option str * PasteBurst :=
  if is_active b then
    let held := match pending_first_char b with Some (ch, _) => [ch] | None => [] end in
    (Some (buffer b ++ held), mkBurst (last_plain_char_time b) (consecutive_plain_char_burst b) (burst_window_until b) [] false None)
  else (None, b).

Definition clear_window_after_non_char (b : PasteBurst) : PasteBurst := mkBurst None 0 None (buffer b) false None.

Definition clear_after_explicit_paste (b : PasteBurst) : PasteBurst := mkBurst None 0 None [] false None.

(** * The text of a paste *)

(** [.replace("\r\n", "\n").replace('\r', "\n")] *)
Fixpoint unify_breaks (s : str) : str :=
  match s with
  | [] => []
  | c :: r => if c =? CR then LF :: match r with d :: r' => if d =? LF then unify_breaks r' else unify_breaks r | [] => [] end else c :: unify_breaks r
  end.

Definition TAB : N := 9.
Definition ESC : N := 27.

(** [char::is_control]: the category Cc. *)
Definition is_control (c : N) : bool := (c <? 32) || ((127 <=? c) && (c <? 160)).

(** [in_csi] says that a control sequence was opened and not ended. *)
Fixpoint sanitize_from (in_csi : bool) (s : str) : str :=
  match s with
  | [] => []
  | c :: r =>
      if in_csi then sanitize_from (negb ((64 <=? c) && (c <=? 126))) r
      else if c =? ESC then match r with d :: r' => if d =? 91 then sanitize_from true r' else sanitize_from false r | [] => [] end
      else if is_control c && negb ((c =? LF) || (c =? TAB)) then sanitize_from false r
      else c :: sanitize_from false r
  end.

Definition sanitize_user_text (s : str) : str := sanitize_from false s.

(** * The text area *)

(** A typed character, a large paste shown as a numbered placeholder, or an attached image. *)
Inductive piece := Typed (ch : N) | Pasted (char_count number : N) (actual : str) | Attached (number : N).

Definition shown (p : piece) : str :=
  match p with
  | Typed ch => [ch]
  | Pasted n k _ => lit "[Pasted Content " ++ lit (pretty n) ++ lit " chars]" ++ (if k =? 1 then [] else lit " #" ++ lit (pretty k))
  | Attached k => lit "[Image #" ++ lit (pretty k) ++ lit "]"
  end.

(** What the piece stands for when the message is sent. *)
Definition meant (p : piece) : str := match p with Pasted _ _ actual => actual | _ => shown p end.

Record TextArea := mkArea { before : list piece; after : list piece }.

Definition text (a : TextArea) : str := concat (shown <$> before a ++ after a).
Definition insert_pieces (ps : list piece) (a : TextArea) : TextArea := mkArea (before a ++ ps) (after a).
Definition textarea_insert_str (s : str) (a : TextArea) : TextArea := insert_pieces (Typed <$> s) a.

(** The pieces that end by byte [start]; an element the range cuts goes as a whole. *)
Fixpoint pieces_until (start pos : N) (ps : list piece) : list piece :=
  match ps with
  | [] => []
  | p :: r => let stop := pos + blen (shown p) in if stop <=? start then p :: pieces_until start stop r else []
  end.

(** [replace_range(start..cursor, "")]; outside Vim's Replace mode it always succeeds. *)
Definition retract_paste_burst (start : N) (a : TextArea) : bool * TextArea := (true, mkArea (pieces_until start 0 (before a)) (after a)).

(** * The composer *)

Record ComposerConfig := mkComposerConfig {
  shell_commands_enabled : bool;
  blockquote_paste_enabled : bool;
  image_paste_enabled : bool
}.

Definition LARGE_PASTE_CHAR_THRESHOLD : nat := 1000.

Section Composer.
(** [image_at] says whether the text names a file whose image dimensions can be read. *)
Context (windows : bool) (cfg : ComposerConfig) (remote_images : N) (image_at : str → bool).

Record Composer := mkComposer { textarea : TextArea; is_bash_mode : bool; paste_burst : PasteBurst }.

Definition with_burst (c : Composer) (b : PasteBurst) : Composer := mkComposer (textarea c) (is_bash_mode c) b.
Definition with_area (c : Composer) (a : TextArea) : Composer := mkComposer a (is_bash_mode c) (paste_burst c).

Definition current_text (c : Composer) : str := (if is_bash_mode c then lit "!" else []) ++ text (textarea c).

Definition bang : N := 33.

(** A leading exclamation mark is taken off the text and turns shell mode on. *)
Definition sync_bash_mode_from_text (c : Composer) : Composer :=
  if shell_commands_enabled cfg && negb (is_bash_mode c) then
    match before (textarea c), after (textarea c) with
    | Typed ch :: r, _ => if ch =? bang then mkComposer (mkArea r (after (textarea c))) true (paste_burst c) else c
    | [], Typed ch :: r => if ch =? bang then mkComposer (mkArea [] r) true (paste_burst c) else c
    | _, _ => c
    end
  else c.

Definition insert_str (s : str) (c : Composer) : Composer := sync_bash_mode_from_text (with_area c (textarea_insert_str s (textarea c))).

Definition max_suffix (char_count : N) (ps : list piece) : N :=
  foldr (λ p m, match p with Pasted n k _ => if n =? char_count then N.max k m else m | _ => m end) 0 ps.

Definition next_large_paste_placeholder (s : str) (a : TextArea) : piece :=
  let char_count := N.of_nat (length s) in Pasted char_count (max_suffix char_count (before a ++ after a) + 1) s.

Definition attach_image (a : TextArea) : TextArea :=
  let local := N.of_nat (length (List.filter (λ p, match p with Attached _ => true | _ => false end) (before a ++ after a))) in
  insert_pieces [Attached (remote_images + local + 1)] a.

(** The text after the last line break. *)
Definition current_line (s : str) : str := match rsplit_once LF s with Some (_, l) => l | None => s end.

Definition is_bang_shell_command (c : Composer) : bool := shell_commands_enabled cfg && starts_with (lit "!") (trim_start (current_text c)).

Definition quote_breaks (s : str) : str := concat ((λ ch, if ch =? LF then LF :: lit "> " else [ch]) <$> s).

Definition blockquoted (s : str) : str :=
  quote_breaks (match strip_suffix [LF] s with Some [] | None => s | Some t => t end).

(** [apply_paste] with no search open. *)
Definition apply_paste (pasted : str) (c : Composer) : Composer :=
  let pasted := sanitize_user_text (unify_breaks pasted) in
  let is_blockquote := blockquote_paste_enabled cfg && negb (is_bang_shell_command c)
    && starts_with (lit "> ") (current_line (concat (shown <$> before (textarea c)))) && existsb (N.eqb LF) pasted in
  let pasted := if is_blockquote then blockquoted pasted else pasted in
  let c :=
    if (LARGE_PASTE_CHAR_THRESHOLD <? length pasted)%nat then
      with_area c (insert_pieces [next_large_paste_placeholder pasted (textarea c)] (textarea c))
    else if (1 <? length pasted)%nat && image_paste_enabled cfg && image_at pasted then
      with_area c (textarea_insert_str (lit " ") (attach_image (textarea c)))
    else insert_str pasted c in
  let c := if is_blockquote then with_area c (textarea_insert_str [LF; LF] (textarea c)) else c in
  with_burst c (clear_after_explicit_paste (paste_burst c)).

Definition apply_flushed (r : option str * PasteBurst) (c : Composer) : Composer :=
  match r with (Some s, b) => apply_paste s (with_burst c b) | (None, b) => with_burst c b end.

Definition flush_pending_paste_burst (c : Composer) : Composer := apply_flushed (flush_before_modified_input (paste_burst c)) c.

Definition handle_paste_burst_flush (now : N) (c : Composer) : Composer :=
  match flush_if_due windows now (paste_burst c) with
  | (FlushPaste s, b) => apply_paste s (with_burst c b)
  | (FlushTyped ch, b) => insert_str [ch] (with_burst c b)
  | (FlushNone, b) => with_burst c b
  end.

(** A character that is neither held nor buffered. *)
Definition type_char (ch : N) (c : Composer) : Composer :=
  let c := flush_pending_paste_burst c in sync_bash_mode_from_text (with_area c (textarea_insert_str [ch] (textarea c))).

(** The same after [handle_non_ascii_char], which does not look for shell mode. *)
Definition type_char_plain (ch : N) (c : Composer) : Composer :=
  let c := flush_pending_paste_burst c in with_area c (textarea_insert_str [ch] (textarea c)).

(** A burst is suspected: what was typed of it is taken back, if it looks like a paste. [otherwise]
    inserts the character. *)
Definition begin_buffer (otherwise : Composer → Composer) (ch now retro_chars : N) (c : Composer) : Composer :=
  match decide_begin_buffer now (concat (shown <$> before (textarea c))) retro_chars (paste_burst c) with
  | (Some (start_byte, grabbed), b) =>
      if bool_decide (grabbed = []) then with_burst c (append_char_to_buffer ch now b)
      else match retract_paste_burst start_byte (textarea c) with
      | (true, a) => mkComposer a (is_bash_mode c) (append_char_to_buffer ch now b)
      | (false, a) => otherwise (mkComposer a (is_bash_mode c) (clear_after_explicit_paste b))
      end
  | (None, b) => otherwise (with_burst c b)
  end.

Definition handle_non_ascii_char (ch now : N) (c : Composer) : Composer :=
  match try_append_char_if_active ch now (paste_burst c) with
  | (true, b) => with_burst c b
  | (false, b) =>
      let c := flush_pending_paste_burst (with_burst c b) in
      match on_plain_char_no_hold now (paste_burst c) with
      | (Some BufferAppend, b) => with_burst c (append_char_to_buffer ch now b)
      | (Some (BeginBuffer retro_chars), b) => begin_buffer (type_char_plain ch) ch now retro_chars (with_burst c b)
      | (_, b) => type_char_plain ch (with_burst c b)
      end
  end.

(** [handle_input_basic_with_time] for a character without shortcut modifiers; [disabled] is
    [disable_paste_burst]. *)
Definition handle_char (disabled : bool) (ch now : N) (c : Composer) : Composer :=
  let c := handle_paste_burst_flush now c in
  if disabled then type_char ch c
  else if negb (ch <? 128) then handle_non_ascii_char ch now c
  else match on_plain_char ch now (paste_burst c) with
  | (BufferAppend, b) | (BeginBufferFromPending, b) => with_burst c (append_char_to_buffer ch now b)
  | (RetainFirstChar, b) => with_burst c b
  | (BeginBuffer retro_chars, b) => begin_buffer (type_char ch) ch now retro_chars (with_burst c b)
  end.

(** [handle_paste_enter]: whether the key was taken as a line break. [slash_context] says that a slash
    command is being typed. *)
Definition handle_paste_enter (disabled slash_context : bool) (now : N) (c : Composer) : bool * Composer :=
  if disabled || slash_context then (false, c)
  else match append_control_char_if_active LF now (paste_burst c) with
  | (true, b) => (true, with_burst c b)
  | (false, b) =>
      if newline_should_insert_instead_of_submit now b then (true, mkComposer (textarea_insert_str [LF] (textarea c)) (is_bash_mode c) (extend_window now b))
      else (false, with_burst c b)
  end.

Definition handle_paste_tab (disabled : bool) (now : N) (c : Composer) : bool * Composer :=
  if disabled then (false, c)
  else
    let c := handle_paste_burst_flush now c in
    match append_control_char_if_active TAB now (paste_burst c) with
    | (true, b) => (true, with_burst c b)
    | (false, b) =>
        if direct_insert_newline_should_insert now b then
          let '(taken, b) := append_control_char_if_active TAB now (begin_with_retro_grabbed [] now b) in (taken, with_burst c b)
        else (false, with_burst c b)
    end.

(** [handle_paste]: a paste the terminal reports. *)
Definition handle_paste (s : str) (c : Composer) : Composer := apply_paste s (flush_pending_paste_burst c).

(** [handle_input_basic_with_time] for a key that is neither a character nor Enter: [key] is what it
    does to the text area. Backspace before the first character leaves shell mode. *)
Definition handle_other_key (backspace : bool) (key : TextArea → TextArea) (now : N) (c : Composer) : Composer :=
  let c := flush_pending_paste_burst (handle_paste_burst_flush now c) in
  if is_bash_mode c && backspace && bool_decide (before (textarea c) = []) then mkComposer (textarea c) false (paste_burst c)
  else
    let c := sync_bash_mode_from_text (with_area c (key (textarea c))) in
    with_burst c (clear_window_after_non_char (paste_burst c)).

Definition set_disable_paste_burst (was_disabled disabled : bool) (c : Composer) : Composer :=
  if disabled && negb was_disabled then let c := flush_pending_paste_burst c in with_burst c (clear_after_explicit_paste (paste_burst c)) else c.
End Composer.
