(* ===== verification/PasteKept.v ===== *)
(** Nothing that is typed or pasted is lost or changes its place: what is in the text area is what
    arrived, key by key and paste by paste, and what did not get there yet waits in the buffer or is held. *)
From S2P Require Import Prelude Str Truncate PasteBurst.
Open Scope N_scope.

(** * What a composer holds *)

Definition clean_char (ch : N) : bool := negb (ch =? CR) && (negb (is_control ch) || (ch =? LF) || (ch =? TAB)).
Definition clean (s : str) : bool := forallb clean_char s.

Definition held (b : PasteBurst) : str := match pending_first_char b with Some (ch, _) => [ch] | None => [] end.
Definition waiting (b : PasteBurst) : str := buffer b ++ held b.

(** The pieces before the cursor; shell mode stands for an exclamation mark. *)
Definition bangs (c : Composer) : list piece := if is_bash_mode c then [Typed bang] else [].
Definition area (c : Composer) : list piece := bangs c ++ before (textarea c).

Definition shown_text (ps : list piece) : str := concat (shown <$> ps).
Definition meant_text (ps : list piece) : str := concat (meant <$> ps).

(** A character is held only outside a burst and since the last key; in a burst, and only there, the
    buffer is used; what waits can time out. *)
Definition burst_ok (b : PasteBurst) : Prop :=
  (∀ ch t, pending_first_char b = Some (ch, t) → last_plain_char_time b = Some t ∧ active b = false ∧ buffer b = [])
  ∧ (buffer b ≠ [] ↔ active b = true)
  ∧ (waiting b ≠ [] → last_plain_char_time b ≠ None).

(** * Texts *)

Lemma clean_app s t : clean (s ++ t) = clean s && clean t.
Proof. apply forallb_app. Qed.

Lemma unify_clean s : clean s = true → unify_breaks s = s.
Proof.
  induction s as [|ch s IH]; [done|]. cbn. unfold clean_char at 1. destruct (ch =? CR); [done|]. cbn. rewrite andb_true_iff. intros [_ Hs]. by rewrite IH.
Qed.

Lemma sanitize_clean s : clean s = true → sanitize_user_text s = s.
Proof.
  unfold sanitize_user_text. induction s as [|ch s IH]; [done|]. cbn -[ESC]. rewrite andb_true_iff. intros [Hc Hs].
  unfold clean_char in Hc. apply andb_true_iff in Hc as [_ Hc]. rewrite IH by done.
  destruct (ch =? ESC) eqn:E; [apply N.eqb_eq in E as ->; done|].
  destruct (is_control ch); cbn in *; [by rewrite Hc|done].
Qed.

(** * The burst *)

Lemma active_internal_ok b : burst_ok b → is_active_internal b = active b.
Proof.
  intros (_ & Hb & _). unfold is_active_internal. destruct (active b); [done|]. destruct (buffer b); [done|].
  destruct Hb as [Hb _]. by specialize (Hb ltac:(done)).
Qed.

Lemma waiting_inactive b : is_active b = false → waiting b = [].
Proof. unfold is_active, is_active_internal, waiting, held. destruct (active b), (buffer b), (pending_first_char b); done. Qed.

Lemma waiting_active b : burst_ok b → is_active b = true → waiting b ≠ [].
Proof.
  intros (_ & Hb & _) Ha. unfold is_active, is_active_internal, waiting, held in *.
  destruct (active b); [destruct Hb as [_ Hb]; specialize (Hb eq_refl); by destruct (buffer b)|].
  destruct (buffer b); [|done]. by destruct (pending_first_char b) as [[? ?]|].
Qed.

Lemma cleared_ok b : burst_ok (clear_after_explicit_paste b).
Proof. split_and!; done. Qed.

Lemma flush_before_spec b : burst_ok b →
  flush_before_modified_input b = (None, b) ∧ waiting b = []
  ∨ ∃ b', flush_before_modified_input b = (Some (waiting b), b') ∧ waiting b ≠ [].
Proof.
  intros Hb. unfold flush_before_modified_input. destruct (is_active b) eqn:E.
  - right. eexists. split; [done|]. by apply waiting_active.
  - left. split; [done|]. by apply waiting_inactive.
Qed.

(** What waits is given out when its time has run. *)
Definition timed_out (windows : bool) (now : N) (b : PasteBurst) : Prop :=
  ∃ t, last_plain_char_time b = Some t ∧ (if active b then PASTE_BURST_ACTIVE_IDLE_TIMEOUT windows else PASTE_BURST_CHAR_INTERVAL) < now - t.

Lemma flush_if_due_spec windows now b : burst_ok b →
  (flush_if_due windows now b = (FlushNone, b) ∧ (waiting b = [] ∨ ¬ timed_out windows now b))
  ∨ (∃ b', flush_if_due windows now b = (FlushPaste (waiting b), b') ∧ waiting b ≠ [])
  ∨ (∃ ch, flush_if_due windows now b = (FlushTyped ch, set_pending None b) ∧ waiting b = [ch] ∧ active b = false ∧ held b = [ch]).
Proof.
  intros Hb. unfold timed_out, flush_if_due, flush_pending. rewrite active_internal_ok by done. destruct Hb as (Hp & Hbuf & _).
  destruct (last_plain_char_time b) as [t|]; [|left; split; [done|]; right; by intros (? & ? & _)].
  destruct (_ <? now - t) eqn:E; [|left; split; [done|]; right; intros (t' & [= <-] & Hlt); apply N.ltb_ge in E; lia].
  unfold waiting, held. destruct (pending_first_char b) as [[ch t']|].
  - destruct (Hp ch t' eq_refl) as (_ & -> & ->). right. right. by exists ch.
  - rewrite app_nil_r. destruct (active b); [|left; split; [done|]; left; destruct (buffer b); [done|]; by destruct Hbuf as [Hbuf _]; specialize (Hbuf ltac:(done))].
    right. left. eexists. split; [done|]. by apply Hbuf.
Qed.

(** * The last pieces *)

Lemma shown_typed s : concat (shown <$> (Typed <$> s)) = s.
Proof. induction s as [|ch s IH]; [done|]. cbn in *. by rewrite IH. Qed.

Lemma meant_typed s : concat (meant <$> (Typed <$> s)) = s.
Proof. induction s as [|ch s IH]; [done|]. cbn in *. by rewrite IH. Qed.

Lemma pieces_until_typed pre g pos : pieces_until (pos + blen (concat (shown <$> pre))) pos (pre ++ (Typed <$> g)) = pre.
Proof.
  revert pos. induction pre as [|p pre IH]; intros pos; cbn.
  - destruct g as [|ch g]; [done|]. cbn. pose proof (len_utf8_pos ch). rewrite (proj2 (N.leb_gt _ _)); [done|lia].
  - rewrite blen_app, (proj2 (N.leb_le _ _)) by lia. f_equal. rewrite N.add_assoc. apply IH.
Qed.

(** The last [n] pieces are typed characters. *)
Definition recent (n : N) (pre : list piece) (g : str) : Prop := n <= N.of_nat (length g) ∨ pre = [].

(** What is taken back of the last [n] pieces are the characters they are. *)
Lemma retro_typed n pre g : recent n pre g →
  ∃ k, let start := retro_start_index (shown_text (pre ++ (Typed <$> g))) n in
  drop_bytes start (shown_text (pre ++ (Typed <$> g))) = drop k g
  ∧ pieces_until start 0 (pre ++ (Typed <$> g)) = pre ++ (Typed <$> take k g).
Proof.
  intros Hg. unfold retro_start_index, shown_text. set (k := (length g - N.to_nat n)%nat). exists k. cbn zeta.
  rewrite fmap_app, concat_app, shown_typed, length_app. set (s := concat (shown <$> pre)).
  assert (take (length s + length g - N.to_nat n) (s ++ g) = s ++ take k g) as ->.
  { destruct Hg as [Hg| ->].
    - replace (length s + length g - N.to_nat n)%nat with (length s + k)%nat by lia. by rewrite take_app_add.
    - subst s. cbn. by replace (length g - N.to_nat n)%nat with k by lia. }
  split.
  - rewrite <- (take_drop k g) at 2. rewrite app_assoc, drop_bytes_app by lia. rewrite N.sub_diag. apply drop_bytes_0.
  - pose proof (pieces_until_typed (pre ++ (Typed <$> take k g)) (drop k g) 0) as Hp.
    rewrite fmap_app, concat_app, shown_typed, <- app_assoc, <- fmap_app, take_drop in Hp. exact Hp.
Qed.

Lemma quote_breaks_nonempty s : s ≠ [] → quote_breaks s ≠ [].
Proof. destruct s as [|ch s]; [done|]. intros _. unfold quote_breaks. cbn. by destruct (ch =? LF). Qed.

Lemma blockquoted_nonempty s : s ≠ [] → blockquoted s ≠ [].
Proof. intros Hs. unfold blockquoted. destruct (strip_suffix [LF] s) as [[|ch t]|]; by apply quote_breaks_nonempty. Qed.

(** * The composer *)

Section Kept.
Context (windows : bool) (cfg : ComposerConfig) (remote_images : N) (image_at : str → bool).
Implicit Types (c : Composer) (b : PasteBurst).

Notation sync := (sync_bash_mode_from_text cfg).
Notation apply_paste := (apply_paste cfg remote_images image_at).
Notation flush := (flush_pending_paste_burst cfg remote_images image_at).
Notation tick := (handle_paste_burst_flush windows cfg remote_images image_at).

(** ** What a paste comes in as *)

Section Arrival.
(** The pieces at the start, before and after the cursor. *)
Context (start rest : list piece).

(** A paste of several lines is quoted on a line that starts a quote, unless a shell command is
    being typed. *)
Definition quoted (ps : list piece) (p : str) : bool :=
  blockquote_paste_enabled cfg
  && negb (shell_commands_enabled cfg && starts_with (lit "!") (trim_start (shown_text (ps ++ rest))))
  && starts_with (lit "> ") (current_line (shown_text ps)) && existsb (N.eqb LF) p.

(** The text with one kind of line break and without control characters, quoted where it has to be;
    a large one as a placeholder that stands for it, the name of an image as the image. *)
Definition paste_pieces (ps : list piece) (s : str) (k : N) : list piece :=
  let p := sanitize_user_text (unify_breaks s) in
  let q := quoted ps p in
  let p := if q then blockquoted p else p in
  (if (LARGE_PASTE_CHAR_THRESHOLD <? length p)%nat then [Pasted (N.of_nat (length p)) k p]
   else if (1 <? length p)%nat && image_paste_enabled cfg && image_at p then [Attached k; Typed 32]
   else Typed <$> p) ++ (Typed <$> if q then [LF; LF] else []).

(** [came s ps]: the text [s] arrived in the order of [ps], each character of it as itself or as
    part of one paste. *)
Inductive came : str → list piece → Prop :=
| came_start : came (meant_text start) start
| came_typed s ps ch : came s ps → came (s ++ [ch]) (ps ++ [Typed ch])
| came_pasted s ps t k : came s ps → came (s ++ t) (ps ++ paste_pieces ps t k).

Lemma came_typed_all s ps g : came s ps → came (s ++ g) (ps ++ (Typed <$> g)).
Proof.
  intros Hc. induction g as [|ch g IH] using rev_ind; [by rewrite !app_nil_r|].
  rewrite fmap_app, !app_assoc. by apply came_typed.
Qed.

(** Of the text [s] that came into the area, the last [n] characters are typed ones. *)
Definition came_recently (n : N) (s : str) c : Prop :=
  ∃ s1 pre g, before (textarea c) = pre ++ (Typed <$> g) ∧ s = s1 ++ g ∧ came s1 (bangs c ++ pre) ∧ clean g = true ∧ recent n pre g.

(** Everything that arrived, [s], is in the area or waits behind it. *)
Definition kept (s : str) c : Prop :=
  burst_ok (paste_burst c) ∧ (is_bash_mode c = true → shell_commands_enabled cfg = true) ∧ after (textarea c) = rest
  ∧ clean (waiting (paste_burst c)) = true
  ∧ ∃ s0, s = s0 ++ waiting (paste_burst c) ∧ came s0 (area c)
    ∧ (active (paste_burst c) = false → came_recently (consecutive_plain_char_burst (paste_burst c) - N.of_nat (length (held (paste_burst c)))) s0 c).

Lemma recently_0 s c : came s (area c) → came_recently 0 s c.
Proof.
  intros Hc. exists s, (before (textarea c)), []. cbn. rewrite !app_nil_r. split_and!; try done. left. cbn. lia.
Qed.

Lemma recently_le m n s c : m <= n → came_recently n s c → came_recently m s c.
Proof. intros Hm (s1 & pre & g & ? & ? & ? & ? & [Hg|Hg]); exists s1, pre, g; split_and!; try done; [left; lia|by right]. Qed.

Lemma recently_typed n s c ch : clean_char ch = true → came_recently n s c →
  came_recently (n + 1) (s ++ [ch]) (with_area c (textarea_insert_str [ch] (textarea c))).
Proof.
  intros Hch (s1 & pre & g & Hb & -> & Hc & Hcl & Hg). exists s1, pre, (g ++ [ch]). cbn. rewrite Hb, fmap_app, !app_assoc.
  split_and!; try done; [by rewrite clean_app, Hcl; cbn; rewrite Hch|]. destruct Hg as [Hg|Hg]; [left|by right]. rewrite length_app. cbn. lia.
Qed.

(** Shell mode only moves the exclamation mark. *)
Lemma sync_spec c : before (textarea c) ≠ [] → let c' := sync c in
  area c' = area c ∧ after (textarea c') = after (textarea c) ∧ paste_burst c' = paste_burst c
  ∧ ((is_bash_mode c = true → shell_commands_enabled cfg = true) → is_bash_mode c' = true → shell_commands_enabled cfg = true)
  ∧ (∀ n s, came_recently n s c → came_recently n s c').
Proof.
  intros Hne. unfold sync_bash_mode_from_text. destruct (shell_commands_enabled cfg) eqn:Es; cbn [andb]; [|done].
  destruct (is_bash_mode c) eqn:E; [done|]. cbn [negb].
  destruct c as [[bef aft] bash b]. cbn in *. subst bash. destruct bef as [|[ch|? ? ?|?] bef]; try done.
  destruct (ch =? bang) eqn:Eb; [|done]. apply N.eqb_eq in Eb as ->. split_and!; try done.
  intros n s (s1 & pre & g & Hp & -> & Hc & Hcl & Hg). unfold bangs in Hc. cbn in Hp, Hc. destruct pre as [|p pre].
  - destruct g as [|ch g]; [done|]. cbn in Hp. injection Hp as <- ->. exists (s1 ++ [bang]), [], g. cbn. rewrite <- app_assoc.
    split_and!; try done; [exact (came_typed _ _ bang Hc)|by right].
  - injection Hp as <- ->. exists s1, pre, g. cbn. split_and!; try done. destruct Hg as [Hg|Hg]; [by left|done].
Qed.

Lemma sync_burst c : paste_burst (sync c) = paste_burst c.
Proof. unfold sync_bash_mode_from_text. repeat case_match; done. Qed.

(** Inserting characters. *)
Lemma insert_str_spec t c : t ≠ [] → let c' := insert_str cfg t c in
  area c' = area c ++ (Typed <$> t) ∧ after (textarea c') = after (textarea c) ∧ paste_burst c' = paste_burst c
  ∧ ((is_bash_mode c = true → shell_commands_enabled cfg = true) → is_bash_mode c' = true → shell_commands_enabled cfg = true).
Proof.
  intros Ht. unfold insert_str. destruct (sync_spec (with_area c (textarea_insert_str t (textarea c)))) as (Hi & Ha & Hb & Hm & _).
  { cbn. destruct (before (textarea c)), t; done. }
  cbn zeta. rewrite Hi, Ha, Hb. split_and!; try done. unfold area. cbn. by rewrite app_assoc.
Qed.

Lemma quoted_here p c : (is_bash_mode c = true → shell_commands_enabled cfg = true) → after (textarea c) = rest →
  blockquote_paste_enabled cfg && negb (is_bang_shell_command cfg c)
    && starts_with (lit "> ") (current_line (concat (shown <$> before (textarea c)))) && existsb (N.eqb LF) p = quoted (area c) p.
Proof.
  intros Hm Hr. unfold quoted, is_bang_shell_command, current_text, text, shown_text, area, bangs. rewrite <- Hr.
  destruct (is_bash_mode c) eqn:E; [|done].
  rewrite (Hm eq_refl). cbn. by rewrite !andb_false_r.
Qed.

(** ** A paste adds what it comes in as *)

Lemma apply_paste_spec t c : (is_bash_mode c = true → shell_commands_enabled cfg = true) → after (textarea c) = rest →
  sanitize_user_text (unify_breaks t) ≠ [] → let c' := apply_paste t c in
  (∃ k, area c' = area c ++ paste_pieces (area c) t k) ∧ after (textarea c') = rest
  ∧ (is_bash_mode c' = true → shell_commands_enabled cfg = true) ∧ paste_burst c' = clear_after_explicit_paste (paste_burst c).
Proof.
  intros Hm Hr Hne. unfold PasteBurst.apply_paste, paste_pieces. rewrite (quoted_here _ c Hm Hr).
  set (p := sanitize_user_text (unify_breaks t)) in *. set (q := quoted (area c) p). set (p' := if q then blockquoted p else p).
  assert (p' ≠ []) as Hp' by (unfold p'; destruct q; [by apply blockquoted_nonempty|done]).
  set (c1 := if (LARGE_PASTE_CHAR_THRESHOLD <? length p')%nat then _ else _).
  assert (∃ k, area c1 = area c ++ (if (LARGE_PASTE_CHAR_THRESHOLD <? length p')%nat then [Pasted (N.of_nat (length p')) k p']
     else if (1 <? length p')%nat && image_paste_enabled cfg && image_at p' then [Attached k; Typed 32] else Typed <$> p')
     ∧ after (textarea c1) = rest ∧ (is_bash_mode c1 = true → shell_commands_enabled cfg = true)
     ∧ clear_after_explicit_paste (paste_burst c1) = clear_after_explicit_paste (paste_burst c)) as (k & Hk & Ha & Hb & Hc).
  { unfold c1. destruct (_ <? length p')%nat; [|destruct (_ && _ && _)].
    - eexists. unfold area. cbn. rewrite app_assoc. by split_and!.
    - eexists. unfold area. cbn. rewrite <- !app_assoc. by split_and!.
    - destruct (insert_str_spec p' c Hp') as (Hi & Haf & Hbu & Hmo). exists 0. rewrite Hi, Haf, Hbu. split_and!; try done. by apply Hmo. }
  destruct q; cbn [fmap list_fmap]; (split_and!; [exists k|..]; try done).
  - transitivity (area c1 ++ (Typed <$> [LF; LF])); [unfold area; cbn; by rewrite app_assoc|by rewrite Hk, <- app_assoc].
  - rewrite app_nil_r. exact Hk.
Qed.

(** After a paste nothing waits. *)
Lemma pasted_kept s t c : came s (area c) → (is_bash_mode c = true → shell_commands_enabled cfg = true) → after (textarea c) = rest →
  sanitize_user_text (unify_breaks t) ≠ [] → kept (s ++ t) (apply_paste t c) ∧ paste_burst (apply_paste t c) = new_burst.
Proof.
  intros Hc Hm Hr Hne. destruct (apply_paste_spec t c Hm Hr Hne) as ([k Hk] & Ha & Hb & Hp). cbn zeta in *. split; [|by rewrite Hp].
  assert (came (s ++ t) (area (apply_paste t c))) as Hcame by (rewrite Hk; by apply came_pasted).
  unfold kept. rewrite Hp. cbn. split; [by split_and!|]. do 3 (split; [done|]). exists (s ++ t). rewrite app_nil_r.
  split_and!; try done. intros _. by apply recently_0.
Qed.

Lemma clean_waiting c s : kept s c → waiting (paste_burst c) ≠ [] → sanitize_user_text (unify_breaks (waiting (paste_burst c))) ≠ [].
Proof. intros (_ & _ & _ & Hc & _) Hw. by rewrite unify_clean, sanitize_clean. Qed.

Lemma waiting_pasted s c b : kept s c → waiting (paste_burst c) ≠ [] →
  kept s (apply_paste (waiting (paste_burst c)) (with_burst c b)) ∧ paste_burst (apply_paste (waiting (paste_burst c)) (with_burst c b)) = new_burst.
Proof.
  intros Hk Hw. pose proof (clean_waiting c s Hk Hw) as Hne. destruct Hk as (_ & Hm & Hr & _ & s0 & -> & Hc & _).
  by apply (pasted_kept s0 _ (with_burst c b)).
Qed.

(** Flushing makes all that arrived part of the text area. *)
Lemma flush_kept s c : kept s c → kept s (flush c) ∧ waiting (paste_burst (flush c)) = [] ∧ active (paste_burst (flush c)) = false.
Proof.
  intros Hk. unfold flush_pending_paste_burst. destruct (flush_before_spec (paste_burst c) (proj1 Hk)) as [[-> Hw]|(b' & -> & Hw)]; cbn [apply_flushed].
  - replace (with_burst c (paste_burst c)) with c by (by destruct c). split; [done|]. split; [done|]. destruct Hk as [(_ & [_ Ha] & _) _].
    destruct (active (paste_burst c)); [|done]. specialize (Ha eq_refl). unfold waiting in Hw. by apply app_nil in Hw as [Hw _].
  - destruct (waiting_pasted s c b' Hk Hw) as [Hp ->]. done.
Qed.

(** Nothing is held or buffered, and all characters of the burst but the present one are in the area. *)
Definition idle (s : str) c : Prop :=
  burst_ok (paste_burst c) ∧ (is_bash_mode c = true → shell_commands_enabled cfg = true) ∧ after (textarea c) = rest
  ∧ waiting (paste_burst c) = [] ∧ active (paste_burst c) = false ∧ came s (area c)
  ∧ came_recently (consecutive_plain_char_burst (paste_burst c) - 1) s c.

Lemma is_active_waiting b : waiting b = [] → active b = false → is_active b = false.
Proof. unfold is_active, is_active_internal, waiting, held. intros Hw ->. apply app_nil in Hw as [-> Hw]. by destruct (pending_first_char b) as [[? ?]|]. Qed.

Lemma kept_idle s c : kept s c → waiting (paste_burst c) = [] → active (paste_burst c) = false → idle s c.
Proof.
  intros (Hb & Hm & Hr & _ & s0 & -> & Hc & Hrec) Hw Ha. specialize (Hrec Ha). rewrite Hw, app_nil_r.
  do 6 (split; [done|]). unfold waiting in Hw. apply app_nil in Hw as [_ Hw]. rewrite Hw in Hrec. eapply recently_le; [|exact Hrec]. cbn. lia.
Qed.

Lemma flush_idle s c : idle s c → flush c = c.
Proof.
  intros (_ & _ & _ & Hw & Ha & _). unfold flush_pending_paste_burst, flush_before_modified_input. rewrite is_active_waiting by done. by destruct c.
Qed.

(** A typed character. *)
Lemma insert_idle s ch c : clean_char ch = true → idle s c →
  kept (s ++ [ch]) (insert_str cfg [ch] c) ∧ kept (s ++ [ch]) (with_area c (textarea_insert_str [ch] (textarea c))).
Proof.
  intros Hch (Hb & Hm & Hr & Hw & Ha & Hc & Hrec). pose proof (recently_typed _ _ _ ch Hch Hrec) as Hrec'.
  set (c1 := with_area c (textarea_insert_str [ch] (textarea c))) in *.
  assert (∀ c', area c' = area c1 → after (textarea c') = rest → paste_burst c' = paste_burst c →
    (is_bash_mode c' = true → shell_commands_enabled cfg = true) →
    came_recently (consecutive_plain_char_burst (paste_burst c) - 1 + 1) (s ++ [ch]) c' → kept (s ++ [ch]) c') as Hg.
  { intros c' E1 E2 E3 E4 E5. unfold kept. rewrite E3, Hw. split_and!; try done. exists (s ++ [ch]). rewrite app_nil_r. split; [done|]. split.
    - rewrite E1. unfold c1, area. cbn. rewrite app_assoc. by apply came_typed.
    - intros _. eapply recently_le; [|exact E5]. lia. }
  destruct (sync_spec c1) as (S1 & S2 & S3 & S4 & S5); [unfold c1; cbn; by destruct (before (textarea c))|].
  change (insert_str cfg [ch] c) with (sync c1). split; apply Hg; try done; [by rewrite S2|by apply S4|by apply S5].
Qed.

Lemma type_idle s ch c : clean_char ch = true → idle s c →
  kept (s ++ [ch]) (type_char cfg remote_images image_at ch c) ∧ kept (s ++ [ch]) (type_char_plain cfg remote_images image_at ch c).
Proof. intros Hch Hc. unfold type_char, type_char_plain. rewrite (flush_idle s) by done. by apply insert_idle. Qed.

Lemma type_char_kept s ch c : clean_char ch = true → kept s c → kept (s ++ [ch]) (type_char cfg remote_images image_at ch c).
Proof. intros Hch Hk. destruct (flush_kept s c Hk) as (Hf & Hw & Ha). unfold type_char. apply insert_idle; [done|]. by apply kept_idle. Qed.

(** What is due is inserted; what still waits has time left. *)
Lemma tick_kept now s c : kept s c → kept s (tick now c)
  ∧ (waiting (paste_burst (tick now c)) = [] ∨ tick now c = c ∧ ¬ timed_out windows now (paste_burst c)).
Proof.
  intros Hk. unfold handle_paste_burst_flush. destruct (flush_if_due_spec windows now (paste_burst c) (proj1 Hk)) as [[-> Hw]|[(b' & -> & Hw)|(ch & -> & Hw & Ha & Hh)]].
  - destruct c as [a bash b]. cbn. split; [done|]. destruct Hw as [Hw|Hw]; [by left|by right].
  - destruct (waiting_pasted s c b' Hk Hw) as [Hp Hb]. split; [done|]. left. by rewrite Hb.
  - destruct Hk as ((Hp & Hbuf & Hl) & Hm & Hr & Hcl & s0 & -> & Hc & Hrec). specialize (Hrec Ha).
    assert (buffer (paste_burst c) = []) as Hn by (unfold waiting in Hw; rewrite Hh in Hw; by destruct (buffer (paste_burst c)) as [|? [|? ?]]).
    rewrite Hw in *. cbn in Hcl. rewrite andb_true_r in Hcl.
    set (c1 := with_burst c (set_pending None (paste_burst c))).
    destruct (sync_spec (with_area c1 (textarea_insert_str [ch] (textarea c1)))) as (S1 & S2 & S3 & S4 & S5); [cbn; by destruct (before (textarea c))|].
    cbn zeta in *. unfold insert_str. unfold kept. rewrite S1, S2, S3. unfold burst_ok, waiting, held. cbn. rewrite Hn in *. cbn. split; [|by left].
    split; [by split_and!|]. split; [by apply S4|]. split; [done|]. split; [done|]. exists (s0 ++ [ch]). rewrite app_nil_r. split; [done|]. split.
    + unfold area. cbn. rewrite app_assoc. by apply came_typed.
    + intros _. apply S5. change (came_recently ?n ?t c) with (came_recently n t c1) in Hrec. eapply recently_le; [|by apply recently_typed]. rewrite Hh. cbn. lia.
Qed.

Lemma tick_fresh now s c ch t : kept s c → pending_first_char (paste_burst (tick now c)) = Some (ch, t) → now - t <=? PASTE_BURST_CHAR_INTERVAL = true.
Proof.
  intros Hc Hp. destruct (tick_kept now s c Hc) as [_ [Hw|[Ht Hn]]].
  - unfold waiting, held in Hw. rewrite Hp in Hw. by apply app_nil in Hw as [_ Hw].
  - rewrite Ht in Hp. destruct Hc as [(Hf & _) _]. destruct (Hf ch t Hp) as (Hl & Ha & _). apply N.leb_le, N.nlt_ge. intros Hlt. apply Hn. exists t. by rewrite Ha.
Qed.

(** ** Bursts *)

(** A burst begins or goes on: [g] and then [ch] is what the buffer holds then. *)
Lemma buffering_kept g s0 ch c' : clean (g ++ [ch]) = true → came s0 (area c') →
  buffer (paste_burst c') = g ++ [ch] → active (paste_burst c') = true → pending_first_char (paste_burst c') = None →
  last_plain_char_time (paste_burst c') ≠ None → after (textarea c') = rest → (is_bash_mode c' = true → shell_commands_enabled cfg = true) →
  kept ((s0 ++ g) ++ [ch]) c'.
Proof.
  intros Hcl Hc Hb Ha Hp Hl Hr Hm. unfold kept, burst_ok, waiting, held. rewrite Hb, Ha, Hp, app_nil_r. split.
  - split_and!; try done. split; [done|]. intros _. by destruct g.
  - do 3 (split; [done|]). exists s0. rewrite app_assoc. by split_and!.
Qed.

Lemma begin_kept otherwise s ch now c : idle s c → clean_char ch = true → last_plain_char_time (paste_burst c) ≠ None →
  kept (s ++ [ch]) (otherwise c) → kept (s ++ [ch]) (begin_buffer otherwise ch now (consecutive_plain_char_burst (paste_burst c) - 1) c).
Proof.
  intros (Hb & Hm & Hr & Hw & Ha & _ & (s1 & pre & g & Hbef & -> & Hc & Hcl & Hrec)) Hch Hl Ho. unfold begin_buffer, decide_begin_buffer.
  destruct (retro_typed _ _ _ Hrec) as (k & Hg & Hpre). cbn zeta in *. rewrite Hbef. fold (shown_text (pre ++ (Typed <$> g))). rewrite Hg.
  destruct (existsb is_whitespace (drop k g) || (16 <=? length (drop k g))%nat) eqn:E; [|by destruct c].
  assert (drop k g ≠ []) as Hne by (by destruct (drop k g)). rewrite bool_decide_eq_false_2 by done. unfold retract_paste_burst. rewrite Hbef, Hpre.
  unfold waiting in Hw. apply app_nil in Hw as [Hw Hh]. rewrite <- (take_drop k g) at 1. rewrite (app_assoc s1).
  rewrite <- (take_drop k g), clean_app in Hcl. apply andb_true_iff in Hcl as [_ Hcl].
  apply buffering_kept; cbn; try done.
  - rewrite clean_app, Hcl. cbn. by rewrite Hch.
  - unfold area, bangs in *. cbn. rewrite app_assoc. by apply came_typed_all.
  - by rewrite Hw.
  - unfold held in Hh. by destruct (pending_first_char (paste_burst c)) as [[? ?]|].
Qed.

(** In a burst a further character goes to the buffer. *)
Lemma active_kept s ch c b : kept s c → active (paste_burst c) = true → clean_char ch = true →
  buffer b = buffer (paste_burst c) ++ [ch] → active b = true → pending_first_char b = pending_first_char (paste_burst c) →
  (last_plain_char_time (paste_burst c) ≠ None → last_plain_char_time b ≠ None) → kept (s ++ [ch]) (with_burst c b).
Proof.
  intros ((Hp & Hb & Hl) & Hm & Hr & Hcl & s0 & -> & Hc & _) Ha Hch Eb Ea Ep El.
  assert (pending_first_char (paste_burst c) = None) as Hn.
  { destruct (pending_first_char (paste_burst c)) as [[k t]|]; [|done]. destruct (Hp k t eq_refl) as (_ & Hf & _). congruence. }
  pose proof (proj2 Hb Ha) as Hne. unfold waiting, held in *. rewrite Hn, app_nil_r in *.
  apply (buffering_kept (buffer (paste_burst c)) s0); cbn; try done.
  - rewrite clean_app, Hcl. cbn. by rewrite Hch.
  - by apply El, Hl.
Qed.

Lemma note_idle now s c : kept s c → waiting (paste_burst c) = [] → active (paste_burst c) = false →
  idle s (with_burst c (note_plain_char now (paste_burst c))).
Proof.
  intros (Hb & Hm & Hr & _ & s0 & -> & Hc & Hrec) Hw Ha. specialize (Hrec Ha). rewrite Hw, app_nil_r. unfold waiting in Hw. apply app_nil in Hw as [Hw Hh].
  rewrite Hh in Hrec. destruct Hb as (Hp & Hbuf & Hl).
  unfold held in Hh. destruct (pending_first_char (paste_burst c)) as [[? ?]|] eqn:Ep; [done|].
  unfold idle, burst_ok, waiting, held. cbn. rewrite Ep, Hw, Ha in *. split; [by split_and!|]. do 5 (split; [done|]).
  eapply recently_le; [|exact Hrec]. cbn. destruct (last_plain_char_time (paste_burst c)); [|lia]. destruct (_ <=? PASTE_BURST_CHAR_INTERVAL); lia.
Qed.

Lemma non_ascii_kept s ch now c : clean_char ch = true → kept s c → kept (s ++ [ch]) (handle_non_ascii_char cfg remote_images image_at ch now c).
Proof.
  intros Hch Hc. unfold handle_non_ascii_char, try_append_char_if_active. rewrite active_internal_ok by apply Hc.
  destruct (active (paste_burst c)) eqn:Ha; [by apply active_kept|].
  replace (with_burst c (paste_burst c)) with c by (by destruct c).
  destruct (flush_kept s c Hc) as (Hf & Hw & Hi). clear Ha Hc. revert Hw Hi Hf.
  generalize (flush c) as c1. intros c1 Hw Ha Hok. pose proof (note_idle now s c1 Hok Hw Ha) as Hid.
  unfold on_plain_char_no_hold. cbn [active note_plain_char]. rewrite Ha.
  destruct (PASTE_BURST_MIN_CHARS <=? _).
  - apply (begin_kept (type_char_plain cfg remote_images image_at ch) s ch now _ Hid Hch); [done|]. by apply type_idle.
  - by apply type_idle.
Qed.

(** The first character of what may become a burst is held. *)
Lemma hold_kept s ch now c : clean_char ch = true → idle s c → last_plain_char_time (paste_burst c) = Some now →
  kept (s ++ [ch]) (with_burst c (set_pending (Some (ch, now)) (paste_burst c))).
Proof.
  intros Hch (Hb & Hm & Hr & Hw & Ha & Hc & Hrec) Hl. unfold waiting in Hw. apply app_nil in Hw as [Hw Hh].
  unfold kept, burst_ok, waiting, held. cbn. rewrite Hw, Ha, Hl. cbn. split; [split_and!; try done; by intros ? ? [= <- <-]|].
  do 2 (split; [done|]). split; [by rewrite Hch|]. exists s. split; [done|]. split; [done|]. intros _. exact Hrec.
Qed.

Lemma char_kept disabled s ch now c : clean_char ch = true → kept s c →
  kept (s ++ [ch]) (handle_char windows cfg remote_images image_at disabled ch now c).
Proof.
  intros Hch Hc. unfold handle_char. destruct (tick_kept now s c Hc) as [Ht _].
  pose proof (λ k t, tick_fresh now s c k t Hc) as Hfr. revert Ht Hfr. generalize (tick now c) as c1. clear c Hc. intros c Hc Hfr.
  destruct disabled; [by apply type_char_kept|]. destruct (negb (ch <? 128)); [by apply non_ascii_kept|].
  unfold on_plain_char. cbn [active note_plain_char pending_first_char].
  destruct (active (paste_burst c)) eqn:Ha; [by apply active_kept|].
  destruct (pending_first_char (paste_burst c)) as [[k t]|] eqn:Hp.
  { rewrite (Hfr k t eq_refl). destruct Hc as ((Hpf & _) & Hm & Hr & Hcl & s0 & -> & Hc & _). destruct (Hpf k t Hp) as (_ & _ & Hb).
    unfold waiting, held in *. rewrite Hb, Hp in *. cbn in Hcl. rewrite andb_true_r in Hcl.
    apply (buffering_kept [k] s0); cbn; try done; [by rewrite Hcl, Hch|by rewrite Hb]. }
  assert (waiting (paste_burst c) = []) as Hw.
  { apply waiting_inactive. unfold is_active. rewrite active_internal_ok by apply Hc. by rewrite Ha, Hp. }
  pose proof (note_idle now s c Hc Hw Ha) as Hid. clear Hfr.
  destruct (PASTE_BURST_MIN_CHARS <=? _).
  - apply (begin_kept (type_char cfg remote_images image_at ch) s ch now _ Hid Hch); [done|]. by apply type_idle.
  - by apply (hold_kept s ch now _ Hch Hid).
Qed.

(** ** Enter, Tab and pastes *)

Lemma control_kept s ch now c : clean_char ch = true → kept s c → is_active (paste_burst c) = true →
  ∃ b, append_control_char_if_active ch now (paste_burst c) = (true, b) ∧ kept (s ++ [ch]) (with_burst c b).
Proof.
  intros Hch (Hb & Hm & Hr & Hcl & s0 & -> & Hc & _) Ha. unfold append_control_char_if_active. rewrite Ha. eexists. split; [done|].
  apply (buffering_kept (waiting (paste_burst c)) s0); cbn; try done; [rewrite clean_app, Hcl; cbn; by rewrite Hch|by rewrite app_assoc].
Qed.

Lemma enter_kept disabled slash now s c : kept s c → let '(taken, c') := handle_paste_enter disabled slash now c in
  kept (s ++ if taken then [LF] else []) c'.
Proof.
  intros Hc. unfold handle_paste_enter. destruct (disabled || slash); [by rewrite app_nil_r|]. destruct (is_active (paste_burst c)) eqn:Ha.
  { destruct (control_kept s LF now c eq_refl Hc Ha) as (b & -> & Hb). done. }
  unfold append_control_char_if_active. rewrite Ha. destruct (newline_should_insert_instead_of_submit now (paste_burst c)); cycle 1.
  { destruct c. by rewrite app_nil_r. }
  pose proof (waiting_inactive _ Ha) as Hw. unfold is_active in Ha. apply orb_false_iff in Ha as [Ha _]. rewrite active_internal_ok in Ha by apply Hc.
  destruct (insert_idle s LF c eq_refl (kept_idle s c Hc Hw Ha)) as (_ & (Hb & Hrest)). split; [|exact Hrest].
  destruct Hb as (H1 & H2 & H3). by split_and!.
Qed.

Lemma tab_kept disabled now s c : kept s c → let '(taken, c') := handle_paste_tab windows cfg remote_images image_at disabled now c in
  kept (s ++ if taken then [TAB] else []) c'.
Proof.
  intros Hc. unfold handle_paste_tab. destruct disabled; [by rewrite app_nil_r|]. destruct (tick_kept now s c Hc) as [Ht _]. revert Ht. generalize (tick now c) as c1.
  clear c Hc. intros c Hc. destruct (is_active (paste_burst c)) eqn:Ha.
  { by destruct (control_kept s TAB now c eq_refl Hc Ha) as (b & -> & Hb). }
  unfold append_control_char_if_active at 1. rewrite Ha. destruct (direct_insert_newline_should_insert now (paste_burst c)); cycle 1.
  { destruct c. by rewrite app_nil_r. }
  pose proof (waiting_inactive _ Ha) as Hw. unfold append_control_char_if_active. cbn.
  destruct Hc as (_ & Hm & Hr & _ & s0 & -> & Hc & _). rewrite Hw. unfold waiting in Hw. apply app_nil in Hw as [Hw Hh]. unfold held in Hh.
  destruct (pending_first_char (paste_burst c)) as [[? ?]|] eqn:Ep; [done|].
  apply (buffering_kept [] s0); cbn; try done. by rewrite Hw.
Qed.

Lemma explicit_paste_kept t s c : sanitize_user_text (unify_breaks t) ≠ [] → kept s c → kept (s ++ t) (handle_paste cfg remote_images image_at t c).
Proof.
  intros Ht Hc. destruct (flush_kept s c Hc) as (Hf & Hw & _). destruct Hf as (_ & Hm & Hr & _ & s0 & -> & Hcame & _). rewrite Hw, app_nil_r.
  by apply pasted_kept.
Qed.

Lemma disable_kept was disabled s c : kept s c → kept s (set_disable_paste_burst cfg remote_images image_at was disabled c).
Proof.
  intros Hc. unfold set_disable_paste_burst. destruct (disabled && negb was); [|done]. destruct (flush_kept s c Hc) as (Hf & Hw & Ha).
  destruct Hf as (_ & Hm & Hr & _ & s0 & -> & Hcame & _). rewrite Hw, app_nil_r. unfold kept. cbn. split; [by split_and!|]. do 3 (split; [done|]).
  exists s0. rewrite app_nil_r. split_and!; try done. intros _. by apply recently_0.
Qed.
End Arrival.

(** * Any sequence of keys, ticks and pastes *)

Inductive event :=
  | KeyChar (ch now : N)
  | KeyEnter (slash_context : bool) (now : N)
  | KeyTab (now : N)
  | Tick (now : N)
  | ExplicitPaste (s : str)
  | SetDisabled (disabled : bool).

(** The state after an event, and the text it is taken as: Enter and Tab may be commands instead. *)
Definition step (st : bool * Composer) (e : event) : (bool * Composer) * str :=
  let '(disabled, c) := st in
  match e with
  | KeyChar ch now => (disabled, handle_char windows cfg remote_images image_at disabled ch now c, [ch])
  | KeyEnter slash now => let '(taken, c) := handle_paste_enter disabled slash now (tick now c) in (disabled, c, if taken then [LF] else [])
  | KeyTab now => let '(taken, c) := handle_paste_tab windows cfg remote_images image_at disabled now c in (disabled, c, if taken then [TAB] else [])
  | Tick now => (disabled, tick now c, [])
  | ExplicitPaste s => (disabled, handle_paste cfg remote_images image_at s c, s)
  | SetDisabled d => (d, set_disable_paste_burst cfg remote_images image_at disabled d c, [])
  end.

Fixpoint run (st : bool * Composer) (es : list event) : (bool * Composer) * str :=
  match es with
  | [] => (st, [])
  | e :: es => let '(st, s) := step st e in let '(st, t) := run st es in (st, s ++ t)
  end.

(** Typed characters are no control characters (Enter and Tab are keys of their own); a paste is not
    empty once the control characters are taken out. *)
Definition text_event (e : event) : bool :=
  match e with
  | KeyChar ch _ => clean_char ch
  | ExplicitPaste s => negb (bool_decide (sanitize_user_text (unify_breaks s) = []))
  | _ => true
  end.

Section Runs.
Context (start rest : list piece).
Notation kept := (kept start rest).

Lemma step_kept s st e : kept s st.2 → text_event e = true → kept (s ++ (step st e).2) (step st e).1.2.
Proof.
  destruct st as [disabled c]. cbn [snd]. intros Hc He. destruct e as [ch now|slash now|now|now|t|d]; cbn in *.
  - by apply char_kept.
  - destruct (tick_kept start rest now s c Hc) as [Ht _]. pose proof (enter_kept start rest disabled slash now s (tick now c) Ht) as Ha.
    by destruct (handle_paste_enter disabled slash now (tick now c)) as [taken c'].
  - pose proof (tab_kept start rest disabled now s c Hc) as Ha. by destruct (handle_paste_tab windows cfg remote_images image_at disabled now c) as [taken c'].
  - rewrite app_nil_r. by apply tick_kept.
  - apply negb_true_iff, bool_decide_eq_false in He. by apply explicit_paste_kept.
  - rewrite app_nil_r. by apply disable_kept.
Qed.

Lemma run_kept es s st : kept s st.2 → forallb text_event es = true → kept (s ++ (run st es).2) (run st es).1.2.
Proof.
  revert s st. induction es as [|e es IH]; intros s st Hc He; [by rewrite app_nil_r|]. cbn in *. apply andb_true_iff in He as [He Hes].
  pose proof (step_kept s st e Hc He) as Hs. destruct (step st e) as [st' t]. specialize (IH _ st' Hs Hes).
  destruct (run st' es) as [st'' t']. cbn in *. by rewrite app_assoc.
Qed.
End Runs.

Lemma fresh_kept c : paste_burst c = new_burst → (is_bash_mode c = true → shell_commands_enabled cfg = true) →
  kept (area c) (after (textarea c)) (meant_text (area c)) c.
Proof.
  intros Hb Hm. unfold kept. rewrite Hb. cbn. split; [by split_and!|]. do 3 (split; [done|]). exists (meant_text (area c)). rewrite app_nil_r.
  split_and!; try done; [apply came_start|]. intros _. apply recently_0, came_start.
Qed.

(** C20: whatever is typed (no control characters) and pasted (not only control characters), at whatever
    times, is kept in its order: at any moment everything that arrived is what came into the text
    area, followed by what the detector still holds back, and the text after the cursor is as it was. What
    came into the area came character by character, or as a paste: then once, in its place, with unified
    line breaks and without control characters, quoted if it has several lines and the line starts with
    a quote mark, as a placeholder that stands for it if it is large, as an image if it names one. What is held
    back gets into the area with the first tick after the time-out, and at once when flushed. *)
Theorem typed_text_kept disabled c es :
  paste_burst c = new_burst → (is_bash_mode c = true → shell_commands_enabled cfg = true) → forallb text_event es = true →
  let r := run (disabled, c) es in
  let came := came (area c) (after (textarea c)) in
  let arrived := meant_text (area c) ++ r.2 in
  (∃ s, came s (area r.1.2) ∧ arrived = s ++ waiting (paste_burst r.1.2))
  ∧ after (textarea r.1.2) = after (textarea c)
  ∧ came arrived (area (flush r.1.2))
  ∧ ∀ now, timed_out windows now (paste_burst r.1.2) → came arrived (area (tick now r.1.2)).
Proof.
  intros Hb Hm He. pose proof (run_kept _ _ es _ (disabled, c) (fresh_kept c Hb Hm) He) as Hk.
  destruct (run (disabled, c) es) as [st t]. cbn in *.
  assert (∀ c', kept (area c) (after (textarea c)) (meant_text (area c) ++ t) c' → waiting (paste_burst c') = [] →
    came (area c) (after (textarea c)) (meant_text (area c) ++ t) (area c')) as Hall.
  { intros c' (_ & _ & _ & _ & s & -> & Hc & _) Hw. by rewrite Hw, app_nil_r. }
  split_and!.
  - destruct Hk as (_ & _ & _ & _ & s & Hs & Hc & _). eauto.
  - apply Hk.
  - destruct (flush_kept _ _ _ _ Hk) as (Hf & Hw & _). by apply Hall.
  - intros now Ht. destruct (tick_kept _ _ now _ _ Hk) as [Ha [Hw|[_ Hn]]]; [by apply Hall|done].
Qed.

(** Where pastes are neither quoted nor read as images, clean text is in the area as it arrived. *)
Lemma came_verbatim start rest s ps t : blockquote_paste_enabled cfg = false → image_paste_enabled cfg = false →
  came start rest s ps → s = meant_text start ++ t → clean t = true → meant_text ps = s.
Proof.
  intros Hq Hi Hc. revert t. induction Hc as [|s ps ch Hc IH|s ps u k Hc IH]; intros t Hs Ht; [done|..].
  - destruct (list_snoc_inv t) as [->|(t' & x & ->)].
    + rewrite app_nil_r in Hs. exfalso. assert (length (meant_text start) <= length s)%nat; [|rewrite <- Hs, length_app in *; cbn in *; lia].
      clear -Hc. induction Hc; rewrite ?length_app; lia.
    + rewrite app_assoc in Hs. apply app_inj_tail in Hs as [-> ->]. rewrite clean_app in Ht. apply andb_true_iff in Ht as [Ht _].
      unfold meant_text in *. rewrite fmap_app, concat_app. cbn. by rewrite (IH t').
  - assert (∃ t', s = meant_text start ++ t' ∧ t = t' ++ u) as (t' & -> & ->).
    { assert (∃ t', s = meant_text start ++ t') as [t' ->].
      { clear -Hc. induction Hc as [|s ps ch Hc [t ->]|s ps u k Hc [t ->]]; [exists []; by rewrite app_nil_r|..]; eexists; by rewrite <- app_assoc. }
      exists t'. split; [done|]. rewrite <- app_assoc in Hs. by apply app_inv_head in Hs. }
    rewrite clean_app in Ht. apply andb_true_iff in Ht as [Ht Hu]. unfold meant_text in *. rewrite fmap_app, concat_app, (IH t') by done. f_equal.
    unfold paste_pieces, quoted. rewrite Hq, Hi, unify_clean, sanitize_clean, andb_false_r by done. cbn [andb].
    destruct (LARGE_PASTE_CHAR_THRESHOLD <? length u)%nat; cbn; rewrite app_nil_r; [by rewrite ?app_nil_r|apply meant_typed].
Qed.

(** Another key finds everything typed in the text area, and leaves nothing behind in the detector. *)
Theorem other_key_finds_all start rest backspace key now s c : kept start rest s c →
  ∃ c', kept start rest s c' ∧ came start rest s (area c') ∧
    handle_other_key windows cfg remote_images image_at backspace key now c
    = if is_bash_mode c' && backspace && bool_decide (before (textarea c') = []) then mkComposer (textarea c') false (paste_burst c')
      else with_burst (sync (with_area c' (key (textarea c')))) (clear_after_explicit_paste (paste_burst c')).
Proof.
  intros Hc. destruct (tick_kept start rest now s c Hc) as [Ht _]. destruct (flush_kept start rest s (tick now c) Ht) as (Hf & Hw & Ha).
  exists (flush (tick now c)). split; [done|]. split.
  - destruct Hf as (_ & _ & _ & _ & s0 & -> & Hcame & _). by rewrite Hw, app_nil_r.
  - unfold handle_other_key. revert Hw. generalize (flush (tick now c)) as c'. intros c' Hw. destruct (_ && _ && _); [done|].
    unfold clear_window_after_non_char, clear_after_explicit_paste. unfold waiting in Hw. apply app_nil in Hw as [Hw _].
    rewrite sync_burst. cbn. by rewrite Hw.
Qed.
End Kept.

(** On a quote line, three fast characters after a typed one are taken back as a burst, the line break
    belongs to it, and the tick inserts it, quoted. *)
Definition burst_keys : list event :=
  [KeyChar 120 0; Tick (from_millis 50); KeyChar 233 (from_millis 100); KeyChar 12288 (from_millis 101); KeyChar 233 (from_millis 102);
   KeyEnter false (from_millis 103); KeyChar 97 (from_millis 104)].

Definition default_config : ComposerConfig := mkComposerConfig true true true.
Definition fresh_composer : Composer := mkComposer (mkArea (Typed <$> lit "> ") [Typed 98]) false new_burst.

Lemma typed_text_kept_witness :
  let c' := (run false default_config 0 (λ _, false) (false, fresh_composer) burst_keys).1.2 in
  waiting (paste_burst c') = [233; 12288; 233; LF; 97]
  ∧ timed_out false (from_millis 113) (paste_burst c')
  ∧ meant_text (area (handle_paste_burst_flush false default_config 0 (λ _, false) (from_millis 113) c'))
    = lit "> x" ++ [233; 12288; 233; LF] ++ lit "> a" ++ [LF; LF]
  ∧ came default_config (λ _, false) (area fresh_composer) [Typed 98] (lit "> x" ++ [233; 12288; 233; LF; 97])
      (area (handle_paste_burst_flush false default_config 0 (λ _, false) (from_millis 113) c')).
Proof.
  cbn zeta. split; [by vm_compute|].
  pose proof (typed_text_kept false default_config 0 (λ _, false) false fresh_composer burst_keys eq_refl (λ _, eq_refl) eq_refl) as Hk.
  cbn zeta in Hk. destruct Hk as (_ & _ & _ & Ht).
  assert (timed_out false (from_millis 113) (paste_burst (run false default_config 0 (λ _, false) (false, fresh_composer) burst_keys).1.2)) as Hto.
  { exists (from_millis 104). by split; vm_compute. }
  split; [exact Hto|]. split; [by vm_compute|]. exact (Ht _ Hto).
Defined.
