(* ===== verification/ThreadItems.v ===== *)
(** The items and events of a thread's history: app-server-protocol/src/protocol/v2/item.rs, the events of
    protocol/src/protocol.rs that the history is built from, and the builders of items in
    app-server-protocol/src/protocol/item_builders.rs and thread_history.rs.

    Values that are only copied (JSON, settings, enumerations of other modules and what they are converted
    to) are represented by a text, [opaque]. The class [HistoryEnv] stands for the presentation of commands
    (redaction of secrets and parsing), the XML of hook prompts and the text of a review. *)
From S2P Require Import Prelude Str Truncate.
Open Scope N_scope.

Definition opaque : Type := str.

(** * Items *)

Inductive ImageReference := Inline (url : str) | ImageFile (file_id : str).

Inductive UserInput :=
  | UiText (text : str) (text_elements : list opaque)
  | UiImage (image : ImageReference) (detail : option opaque)
  | UiLocalImage (path : str) (detail : option opaque)
  | UiAudio (url : str)
  | UiLocalAudio (path : str)
  | UiSkill (name path : str)
  | UiMention (name path : str).

Inductive CommandAction := UnknownAction (command : str) | ParsedAction (action : opaque).
Inductive CommandExecutionStatus := CmdInProgress | CmdCompleted | CmdFailed | CmdDeclined.
Inductive PatchApplyStatus := PatchInProgress | PatchCompleted | PatchFailed | PatchDeclined.
Inductive ToolCallStatus := CallInProgress | CallCompleted | CallFailed.
Inductive CollabAgentTool := SpawnAgent | SendInput | ResumeAgent | Wait | CloseAgent.
Inductive CollabAgentStatus := CasPendingInit | CasRunning | CasInterrupted | CasCompleted | CasErrored | CasShutdown | CasNotFound.

Record CollabAgentState := mkAgentState { cas_status : CollabAgentStatus; cas_message : option str }.

Inductive PatchChangeKind := KindAdd | KindDelete | KindUpdate (move_path : option str).

Record FileUpdateChange := mkFileUpdate { fu_path : str; fu_kind : PatchChangeKind; fu_diff : str }.

Record McpApp := mkMcpApp { connector_id : str; link_id : option str; resource_uri : option str; app_name : option str; action_name : option str }.

Inductive ThreadItem :=
  | UserMessage (id : str) (client_id : option str) (content : list UserInput)
  | HookPrompt (id : str) (fragments : list (str * str))
  | AgentMessage (id text : str) (phase memory_citation delivery questions : option opaque)
  | FunctionCallOutput (id name : str) (namespace : option str) (output : opaque)
  | Plan (id text : str)
  | Reasoning (id : str) (summary content : list str)
  | CommandExecution (id : str) (model_context plugin_id script_path : option opaque) (command cwd : str) (process_id : option str)
      (source : opaque) (status : CommandExecutionStatus) (command_actions : list CommandAction) (aggregated_output : option str)
      (exit_code : option Z) (duration_ms : option Z)
  | FileChangeItem (id : str) (changes : list FileUpdateChange) (status : PatchApplyStatus)
  | McpToolCall (id server tool : str) (status : ToolCallStatus) (arguments : opaque) (app_context : option McpApp) (mcp_app_resource_uri mcp_app_ui plugin_id : option opaque)
      (read_only_hint : option bool) (result : option opaque) (error : option str) (duration_ms : option Z)
  | DynamicToolCall (id : str) (namespace : option str) (tool : str) (arguments : opaque) (status : ToolCallStatus) (content_items : option (list opaque))
      (success : option bool) (duration_ms : option Z)
  | CollabAgentToolCall (id : str) (tool : CollabAgentTool) (status : ToolCallStatus) (sender_thread_id : str) (receiver_thread_ids : list str)
      (prompt model reasoning_effort : option opaque) (agents_states : gmap str CollabAgentState)
  | SubAgentActivity (id : str) (model reasoning_effort : option opaque) (kind : opaque) (agent_thread_id agent_path : str)
  | WebSearch (id query : str) (action results : option opaque)
  | ImageView (id path : str)
  | Sleep (id : str) (duration : opaque)
  | ImageGeneration (id status : str) (revised_prompt : option str) (result : str) (transparent_background failure saved_path : option opaque)
  | EnteredReviewMode (id review : str)
  | ExitedReviewMode (id review : str)
  | ContextCompaction (id : str).

Definition item_id (i : ThreadItem) : str :=
  match i with
  | UserMessage id _ _ | HookPrompt id _ | AgentMessage id _ _ _ _ _ | FunctionCallOutput id _ _ _ | Plan id _ | Reasoning id _ _
  | CommandExecution id _ _ _ _ _ _ _ _ _ _ _ _ | FileChangeItem id _ _ | McpToolCall id _ _ _ _ _ _ _ _ _ _ _ _ | DynamicToolCall id _ _ _ _ _ _ _
  | CollabAgentToolCall id _ _ _ _ _ _ _ _ | SubAgentActivity id _ _ _ _ _ | WebSearch id _ _ _ | ImageView id _ | Sleep id _ | ImageGeneration id _ _ _ _ _ _
  | EnteredReviewMode id _ | ExitedReviewMode id _ | ContextCompaction id => id
  end.

(** * Events *)

Inductive AgentStatus := PendingInit | Running | Interrupted | Completed (message : option str) | Errored (message : str) | Shutdown | NotFound.
Inductive UserMessageImageKind := KindInline | KindFile.

Record UserMessageEvent := mkUserMessage {
  um_client_id : option str; um_message : str;
  images : option (list str); image_details : list (option opaque);
  file_ids : option (list str); file_id_details : list (option opaque);
  image_order : list UserMessageImageKind;
  local_images : list str; local_image_details : list (option opaque);
  audio : option (list str); local_audio : list str; um_text_elements : list opaque
}.

(** The two error infos that leave the turn alone, and the others. *)
Inductive CodexErrorInfo := ThreadRollbackFailed | ActiveTurnNotSteerable (turn_kind : opaque) | OtherErrorInfo (info : opaque).

Record ErrorEvent := mkError { ee_message : str; codex_error_info : option CodexErrorInfo; misalignment : option opaque }.

Record ExecCommandEvent := mkExec {
  ex_call_id : str; ex_turn_id : str; ex_plugin_id : option opaque; ex_script_path : option opaque;
  ex_command : list str; ex_parsed_cmd : list opaque; ex_cwd : str; ex_process_id : option str; ex_source : opaque
}.

Record ExecCommandEnd := mkExecEnd { ex_begin : ExecCommandEvent; ex_status : CommandExecutionStatus; ex_output : str; ex_exit_code : Z; ex_millis : N }.

Inductive FileChange := Add (content : str) | Delete (content : str) | Update (unified_diff : str) (move_path : option str).

(** An event about a patch: the call, its turn and the changes by path. *)
Record PatchEvent := mkPatch { pa_call_id : str; pa_turn_id : str; pa_changes : gmap str FileChange }.

Inductive GuardianAssessmentStatus := GaInProgress | GaApproved | GaDenied | GaTimedOut | GaAborted.
Inductive GuardianAssessmentAction := GaCommand (command cwd : str) | GaExecve (program : str) (argv : list str) (cwd : str) | GaOther (action : opaque).

Record GuardianAssessmentEvent := mkGuardian {
  ga_turn_id : str; ga_status : GuardianAssessmentStatus; ga_action : GuardianAssessmentAction;
  target_item_id : option str; ga_model_context : option opaque; ga_plugin_id : option opaque; ga_script_path : option opaque
}.

Record DynamicCall := mkDynamic { dy_call_id : str; dy_turn_id : str; dy_namespace : option str; dy_tool : str; dy_arguments : opaque }.

Record McpCall := mkMcp {
  mc_call_id : str; mc_turn_id : str; mc_server : str; mc_tool : str; mc_arguments : option opaque; mc_connector_id : option str; mc_link_id : option str;
  mc_resource_uri : option str; mc_app_name : option str; mc_action_name : option str; mc_app_ui : option opaque; mc_plugin_id : option opaque; mc_read_only_hint : option bool
}.

(** What the call returned, with [is_error], or why it failed. *)
Record McpEnd := mkMcpEnd { mc_begin : McpCall; mc_result : opaque * option bool + str; mc_millis : N }.

Record CollabEvent := mkCollab { co_call_id : str; co_sender : str; co_prompt : option str; co_model : option opaque; co_effort : option opaque }.

(** A core item, as the kind it has and the item of the API it is converted to. *)
Inductive TurnItemKind :=
  | TiUserMessage | TiHookPrompt | TiAgentMessage | TiFunctionCallOutput | TiPlan (text : str) | TiReasoning | TiCommandExecution | TiFileChange | TiMcpToolCall
  | TiDynamicToolCall | TiCollabAgentToolCall | TiSubAgentActivity | TiWebSearch | TiImageView | TiImageGeneration | TiExtension | TiEnteredReviewMode
  | TiExitedReviewMode | TiContextCompaction.

Record TurnItem := mkTurnItem { ti_kind : TurnItemKind; ti_item : ThreadItem }.

Inductive EventMsg :=
  | EvUserMessage (payload : UserMessageEvent)
  | EvAgentMessage (message : str) (phase memory_citation delivery questions : option opaque)
  | EvAgentReasoning (text : str)
  | EvAgentReasoningRawContent (text : str)
  | EvWebSearchBegin (call_id : str)
  | EvWebSearchEnd (call_id query : str) (action : opaque) (results : option opaque)
  | EvExecCommandBegin (payload : ExecCommandEvent)
  | EvExecCommandEnd (payload : ExecCommandEnd)
  | EvGuardianAssessment (payload : GuardianAssessmentEvent)
  | EvApplyPatchApprovalRequest (payload : PatchEvent)
  | EvPatchApplyBegin (payload : PatchEvent)
  | EvPatchApplyEnd (payload : PatchEvent) (status : PatchApplyStatus)
  | EvDynamicToolCallRequest (payload : DynamicCall)
  | EvDynamicToolCallResponse (payload : DynamicCall) (success : bool) (content_items : list opaque) (millis : N)
  | EvMcpToolCallBegin (payload : McpCall)
  | EvMcpToolCallEnd (payload : McpEnd)
  | EvViewImageToolCall (call_id path : str)
  | EvImageGenerationBegin (call_id : str)
  | EvImageGenerationEnd (call_id status : str) (revised_prompt : option str) (result : str) (transparent_background failure saved_path : option opaque)
  | EvCollabAgentSpawnBegin (payload : CollabEvent)
  | EvCollabAgentSpawnEnd (payload : CollabEvent) (new_thread_id : option str) (status : AgentStatus)
  | EvCollabAgentInteractionBegin (payload : CollabEvent) (receiver : str)
  | EvCollabAgentInteractionEnd (payload : CollabEvent) (receiver : str) (status : AgentStatus)
  | EvSubAgentActivity (event_id : str) (model reasoning_effort : option opaque) (kind : opaque) (agent_thread_id agent_path : str)
  | EvCollabWaitingBegin (payload : CollabEvent) (receivers : list str)
  | EvCollabWaitingEnd (payload : CollabEvent) (statuses : gmap str AgentStatus)
  | EvCollabCloseBegin (payload : CollabEvent) (receiver : str)
  | EvCollabCloseEnd (payload : CollabEvent) (receiver : str) (status : AgentStatus)
  | EvCollabResumeBegin (payload : CollabEvent) (receiver : str)
  | EvCollabResumeEnd (payload : CollabEvent) (receiver : str) (status : AgentStatus)
  | EvContextCompacted
  | EvEnteredReviewMode (user_facing_hint item_id turn_id : option str)
  | EvExitedReviewMode (review_output : option opaque) (item_id turn_id : option str)
  | EvItemStarted (turn_id : str) (item : TurnItem)
  | EvItemCompleted (turn_id : str) (item : TurnItem)
  | EvError (payload : ErrorEvent)
  | EvThreadRolledBack (num_turns : N)
  | EvTurnAborted (turn_id : option str) (error : option ErrorEvent) (completed_at duration_ms : option Z)
  | EvTurnStarted (turn_id : str) (root_turn_id : option str) (started_at : option Z)
  | EvTurnComplete (turn_id : str) (error : option ErrorEvent) (completed_at duration_ms : option Z)
  | EvOther (event : opaque).

Inductive RolloutItem := RiEvent (event : EventMsg) | RiCompacted (payload : opaque) | RiMessage (id : option str) (role : str) (content : list opaque) | RiOther (item : opaque).

(** * Builders of items *)

(** The code of other components the builders call. *)
Class HistoryEnv := {
  from_raw : list str → list opaque → str → str * list CommandAction;
  shlex_join : list str → str;
  parse_actions : list str → str → list CommandAction;
  render_review_output_text : opaque → str;
  parse_hook_prompt_message : option str → list opaque → option (str * list (str * str))
}.

Definition try_millis (n : N) : option Z := if (Z.of_N n <=? i64_max)%Z then Some (Z.of_N n) else None.

Definition agent_state (s : AgentStatus) : CollabAgentState :=
  match s with
  | PendingInit => mkAgentState CasPendingInit None
  | Running => mkAgentState CasRunning None
  | Interrupted => mkAgentState CasInterrupted None
  | Completed m => mkAgentState CasCompleted m
  | Errored m => mkAgentState CasErrored (Some m)
  | Shutdown => mkAgentState CasShutdown None
  | NotFound => mkAgentState CasNotFound None
  end.

Definition has_complete_image_order (p : UserMessageEvent) : bool :=
  let count k := length (List.filter (λ j, match j, k with KindInline, KindInline | KindFile, KindFile => true | _, _ => false end) (image_order p)) in
  match image_order p with
  | [] => false
  | _ => (count KindInline =? length (default [] (images p)))%nat && (count KindFile =? length (default [] (file_ids p)))%nat
  end.

Definition detail_at (l : list (option opaque)) (i : nat) : option opaque := mjoin (l !! i).

(** The images in the order they were given, [inline] and [file] being the next of each kind. *)
Fixpoint ordered_images (p : UserMessageEvent) (order : list UserMessageImageKind) (inline file : nat) : list UserInput :=
  match order with
  | [] => []
  | KindInline :: order =>
      match default [] (images p) !! inline with
      | Some url => UiImage (Inline url) (detail_at (image_details p) inline) :: ordered_images p order (S inline) file
      | None => ordered_images p order inline file
      end
  | KindFile :: order =>
      match default [] (file_ids p) !! file with
      | Some f => UiImage (ImageFile f) (detail_at (file_id_details p) file) :: ordered_images p order inline (S file)
      | None => ordered_images p order inline file
      end
  end.

Definition build_user_inputs (p : UserMessageEvent) : list UserInput :=
  (if bool_decide (trim (um_message p) = []) then [] else [UiText (um_message p) (um_text_elements p)])
  ++ (if has_complete_image_order p then ordered_images p (image_order p) 0 0
      else imap (λ i url, UiImage (Inline url) (detail_at (image_details p) i)) (default [] (images p))
        ++ imap (λ i f, UiImage (ImageFile f) (detail_at (file_id_details p) i)) (default [] (file_ids p)))
  ++ imap (λ i path, UiLocalImage path (detail_at (local_image_details p) i)) (local_images p)
  ++ (UiAudio <$> default [] (audio p)) ++ (UiLocalAudio <$> local_audio p).

Section Builders.
Context `{HistoryEnv}.

Definition map_patch_change_kind (c : FileChange) : PatchChangeKind :=
  match c with Add _ => KindAdd | Delete _ => KindDelete | Update _ move_path => KindUpdate move_path end.

Definition format_file_change_diff (c : FileChange) : str :=
  match c with
  | Add content | Delete content => content
  | Update diff (Some path) => diff ++ [LF; LF] ++ lit "Moved to: " ++ path
  | Update diff None => diff
  end.

Definition convert_patch_changes (changes : gmap str FileChange) : list FileUpdateChange :=
  sort_by_key fu_path ((λ '(path, c), mkFileUpdate path (map_patch_change_kind c) (format_file_change_diff c)) <$> map_to_list changes).

Definition build_file_change_approval_request_item (p : PatchEvent) : ThreadItem := FileChangeItem (pa_call_id p) (convert_patch_changes (pa_changes p)) PatchInProgress.
Definition build_file_change_begin_item (p : PatchEvent) : ThreadItem := FileChangeItem (pa_call_id p) (convert_patch_changes (pa_changes p)) PatchInProgress.
Definition build_file_change_end_item (p : PatchEvent) (status : PatchApplyStatus) : ThreadItem := FileChangeItem (pa_call_id p) (convert_patch_changes (pa_changes p)) status.

Definition build_command_execution_begin_item (p : ExecCommandEvent) : ThreadItem :=
  let '(command, actions) := from_raw (ex_command p) (ex_parsed_cmd p) (ex_cwd p) in
  CommandExecution (ex_call_id p) None (ex_plugin_id p) (ex_script_path p) command (ex_cwd p) (ex_process_id p) (ex_source p) CmdInProgress actions None None None.

Definition build_command_execution_end_item (e : ExecCommandEnd) : ThreadItem :=
  let p := ex_begin e in
  let '(command, actions) := from_raw (ex_command p) (ex_parsed_cmd p) (ex_cwd p) in
  CommandExecution (ex_call_id p) None (ex_plugin_id p) (ex_script_path p) command (ex_cwd p) (ex_process_id p) (ex_source p) (ex_status e) actions
    (match ex_output e with [] => None | o => Some o end) (Some (ex_exit_code e)) (Some (default i64_max (try_millis (ex_millis e)))).

Definition build_item_from_guardian_event (p : GuardianAssessmentEvent) (status : CommandExecutionStatus) : option ThreadItem :=
  match ga_action p, target_item_id p with
  | GaCommand command cwd, Some id =>
      Some (CommandExecution id (ga_model_context p) (ga_plugin_id p) (ga_script_path p) command cwd None (lit "agent") status [UnknownAction command] None None None)
  | GaExecve program argv cwd, Some id =>
      let argv := match argv with [] => [program] | _ :: rest => program :: rest end in
      let command := shlex_join argv in
      let actions := match parse_actions argv cwd with [] => [UnknownAction command] | actions => actions end in
      Some (CommandExecution id (ga_model_context p) (ga_plugin_id p) (ga_script_path p) command cwd None (lit "agent") status actions None None None)
  | _, _ => None
  end.

Definition dynamic_request_item (p : DynamicCall) : ThreadItem :=
  DynamicToolCall (dy_call_id p) (dy_namespace p) (dy_tool p) (dy_arguments p) CallInProgress None None None.

Definition dynamic_response_item (p : DynamicCall) (success : bool) (content_items : list opaque) (millis : N) : ThreadItem :=
  DynamicToolCall (dy_call_id p) (dy_namespace p) (dy_tool p) (dy_arguments p) (if success then CallCompleted else CallFailed) (Some content_items) (Some success) (try_millis millis).

Definition mcp_item (p : McpCall) (status : ToolCallStatus) (result : option opaque) (error : option str) (duration_ms : option Z) : ThreadItem :=
  McpToolCall (mc_call_id p) (mc_server p) (mc_tool p) status (default (lit "null") (mc_arguments p))
    ((λ c, mkMcpApp c (mc_link_id p) (mc_resource_uri p) (mc_app_name p) (mc_action_name p)) <$> mc_connector_id p)
    (mc_resource_uri p) (mc_app_ui p) (mc_plugin_id p) (mc_read_only_hint p) result error duration_ms.

Definition is_success (p : McpEnd) : bool := match mc_result p with inl (_, is_error) => negb (default false is_error) | inr _ => false end.

Definition mcp_end_item (p : McpEnd) : ThreadItem :=
  let '(result, error) := match mc_result p with inl (r, _) => (Some r, None) | inr message => (None, Some message) end in
  mcp_item (mc_begin p) (if is_success p then CallCompleted else CallFailed) result error (try_millis (mc_millis p)).

(** [Errored] or [NotFound]: the call failed. *)
Definition agent_failed (s : AgentStatus) : bool := match s with Errored _ | NotFound => true | _ => false end.
Definition collab_status (s : AgentStatus) : ToolCallStatus := if agent_failed s then CallFailed else CallCompleted.

Definition spawn_end_item (p : CollabEvent) (new_thread_id : option str) (s : AgentStatus) : ThreadItem :=
  let status := if agent_failed s then CallFailed else match new_thread_id with Some _ => CallCompleted | None => CallFailed end in
  let '(receivers, states) := match new_thread_id with Some id => ([id], {[ id := agent_state s ]}) | None => ([], ∅) end in
  CollabAgentToolCall (co_call_id p) SpawnAgent status (co_sender p) receivers (co_prompt p) (co_model p) (co_effort p) states.

Definition collab_begin_item (tool : CollabAgentTool) (p : CollabEvent) (receivers : list str) (prompt model effort : option opaque) : ThreadItem :=
  CollabAgentToolCall (co_call_id p) tool CallInProgress (co_sender p) receivers prompt model effort ∅.

Definition collab_end_item (tool : CollabAgentTool) (p : CollabEvent) (receiver : str) (prompt : option opaque) (s : AgentStatus) : ThreadItem :=
  CollabAgentToolCall (co_call_id p) tool (collab_status s) (co_sender p) [receiver] prompt None None {[ receiver := agent_state s ]}.

Definition waiting_end_item (p : CollabEvent) (statuses : gmap str AgentStatus) : ThreadItem :=
  let status := if existsb (λ '(_, s), agent_failed s) (map_to_list statuses) then CallFailed else CallCompleted in
  CollabAgentToolCall (co_call_id p) Wait status (co_sender p) (sort_by_key (λ id, id) (fst <$> map_to_list statuses)) None None None (agent_state <$> statuses).

Definition review_output_text (output : option opaque) : str :=
  match output with Some o => render_review_output_text o | None => lit "Reviewer failed to output a response." end.
End Builders.
