(* ===== verification/ThreadHistory.v ===== *)
(** app-server-protocol/src/protocol/thread_history.rs: the builder that turns the events and the rollout of
    a thread into turns with their items, and the change sets it reports while doing so. The uuid a turn
    gets when there is no rollout is drawn by [now_v7]. *)
From stdpp Require Import pretty.
From S2P Require Import Prelude Str Truncate ThreadItems.
Open Scope Z_scope.

(** * Turns *)

Inductive TurnStatus := TurnCompleted | TurnInterrupted | TurnFailed | TurnInProgress.
Record TurnError := mkTurnError { te_message : str; te_info : option CodexErrorInfo; te_misalignment : option opaque }.

Definition turn_error (e : ErrorEvent) : TurnError := mkTurnError (ee_message e) (codex_error_info e) (misalignment e).

Record TurnMetadata := mkMeta {
  turn_id : str; root_turn_id : option str; status : TurnStatus; error : option TurnError;
  started_at : option Z; completed_at : option Z; duration_ms : option Z
}.

(** A turn is its metadata with its items, the index over them and what the builder notes about it. *)
Record PendingTurn := mkTurn {
  meta : TurnMetadata;
  items : list ThreadItem;
  item_index : option (gmap str nat);
  opened_explicitly : bool;
  saw_compaction : bool;
  rollout_start_index : nat
}.

Definition pt_id (t : PendingTurn) : str := turn_id (meta t).
Definition with_meta (t : PendingTurn) (m : TurnMetadata) : PendingTurn := mkTurn m (items t) (item_index t) (opened_explicitly t) (saw_compaction t) (rollout_start_index t).
Definition with_items (t : PendingTurn) (l : list ThreadItem) (ix : option (gmap str nat)) : PendingTurn :=
  mkTurn (meta t) l ix (opened_explicitly t) (saw_compaction t) (rollout_start_index t).

(** * The index of a turn's items *)

Definition TURN_ITEM_INDEX_THRESHOLD : nat := 32.

(** [entry(id).or_insert(position)] *)
Definition or_insert (id : str) (i : nat) (m : gmap str nat) : gmap str nat := match m !! id with Some _ => m | None => <[id := i]> m end.

Fixpoint index_from (i : nat) (l : list ThreadItem) (m : gmap str nat) : gmap str nat :=
  match l with [] => m | x :: l => index_from (S i) l (or_insert (item_id x) i m) end.

Fixpoint position (id : str) (l : list ThreadItem) : option nat :=
  match l with [] => None | x :: l => if bool_decide (item_id x = id) then Some O else S <$> position id l end.

Definition index_push (t : PendingTurn) (x : ThreadItem) : PendingTurn :=
  with_items t (items t ++ [x]) (or_insert (item_id x) (length (items t)) <$> item_index t).

Definition index_upsert (t : PendingTurn) (x : ThreadItem) : PendingTurn :=
  let t := match item_index t with
    | None => if (TURN_ITEM_INDEX_THRESHOLD <=? length (items t))%nat then with_items t (items t) (Some (index_from 0 (items t) ∅)) else t
    | Some _ => t
    end in
  match match item_index t with Some m => m !! item_id x | None => position (item_id x) (items t) end with
  | Some i => with_items t (<[i := x]> (items t)) (item_index t)
  | None => index_push t x
  end.

(** * Change sets *)

(** The times of an item change are never set by the builder. *)
Record ItemChange := mkItemChange { ic_turn_id : str; ic_item : ThreadItem }.

Record ChangeSet := mkChanges { changed_items : list ItemChange; changed_turns : list TurnMetadata; removed_turn_ids : list str }.

Definition no_changes : ChangeSet := mkChanges [] [] [].

(** * The builder *)

Record Builder := mkBuilder {
  turns : list PendingTurn;
  current_turn : option PendingTurn;
  next_item_index : Z;
  current_rollout_index : nat;
  next_rollout_index : nat;
  active_change_set : option ChangeSet
}.

Definition new_builder : Builder := mkBuilder [] None 1 0 0 None.

Definition set_turns (b : Builder) (ts : list PendingTurn) : Builder :=
  mkBuilder ts (current_turn b) (next_item_index b) (current_rollout_index b) (next_rollout_index b) (active_change_set b).
Definition set_current (b : Builder) (t : option PendingTurn) : Builder :=
  mkBuilder (turns b) t (next_item_index b) (current_rollout_index b) (next_rollout_index b) (active_change_set b).
Definition set_next_item (b : Builder) (n : Z) : Builder :=
  mkBuilder (turns b) (current_turn b) n (current_rollout_index b) (next_rollout_index b) (active_change_set b).
Definition set_changes (b : Builder) (cs : option ChangeSet) : Builder :=
  mkBuilder (turns b) (current_turn b) (next_item_index b) (current_rollout_index b) (next_rollout_index b) cs.

Definition record_changed_item (id : str) (x : ThreadItem) (b : Builder) : Builder :=
  set_changes b ((λ cs, mkChanges (changed_items cs ++ [mkItemChange id x]) (changed_turns cs) (removed_turn_ids cs)) <$> active_change_set b).
Definition record_changed_turn (m : TurnMetadata) (b : Builder) : Builder :=
  set_changes b ((λ cs, mkChanges (changed_items cs) (changed_turns cs ++ [m]) (removed_turn_ids cs)) <$> active_change_set b).
Definition record_removed_turn_ids (ids : list str) (b : Builder) : Builder :=
  set_changes b ((λ cs, mkChanges (changed_items cs) (changed_turns cs) (removed_turn_ids cs ++ ids)) <$> active_change_set b).

(** Whether [finish_current_turn] keeps the turn. *)
Definition kept (t : PendingTurn) : bool := negb (match items t with [] => true | _ => false end && negb (opened_explicitly t) && negb (saw_compaction t)).

Definition finish_current_turn (b : Builder) : Builder :=
  match current_turn b with
  | Some t => let b := set_current b None in if kept t then set_turns b (turns b ++ [t]) else b
  | None => b
  end.

Definition next_item_id (b : Builder) : str * Builder := (lit "item-" ++ lit (pretty (next_item_index b)), set_next_item b (next_item_index b + 1)).

(** [iter_mut().find(..)]: the first turn with the id, changed by [f]. *)
Fixpoint update_turn (id : str) (f : PendingTurn → PendingTurn) (ts : list PendingTurn) : option (PendingTurn * list PendingTurn) :=
  match ts with
  | [] => None
  | t :: ts => if bool_decide (pt_id t = id) then Some (f t, f t :: ts) else (λ '(u, ts), (u, t :: ts)) <$> update_turn id f ts
  end.

Definition has_turn (id : str) (ts : list PendingTurn) : bool := existsb (λ t, bool_decide (pt_id t = id)) ts.

Section Builder.
Context `{HistoryEnv} (now_v7 : Builder → str).

Definition new_turn (id : option str) (b : Builder) : PendingTurn :=
  let id := match id with
    | Some id => id
    | None => if (next_rollout_index b =? 0)%nat then now_v7 b else lit "rollout-" ++ lit (pretty (current_rollout_index b))
    end in
  mkTurn (mkMeta id None TurnCompleted None None None None) [] None false false (current_rollout_index b).

Definition ensure_turn (b : Builder) : Builder * PendingTurn :=
  match current_turn b with
  | Some t => (b, t)
  | None => let t := new_turn None b in (set_current (record_changed_turn (meta t) b) (Some t), t)
  end.

Definition push_item_in_current_turn (x : ThreadItem) (b : Builder) : Builder :=
  let '(b, t) := ensure_turn b in record_changed_item (pt_id t) x (set_current b (Some (index_push t x))).

Definition upsert_item_in_current_turn (x : ThreadItem) (b : Builder) : Builder :=
  let '(b, t) := ensure_turn b in record_changed_item (pt_id t) x (set_current b (Some (index_upsert t x))).

(** An item for a turn that is not known is dropped. *)
Definition upsert_item_in_turn_id (id : str) (x : ThreadItem) (b : Builder) : Builder :=
  let finished := match update_turn id (λ t, index_upsert t x) (turns b) with
    | Some (_, ts) => record_changed_item id x (set_turns b ts)
    | None => b
    end in
  match current_turn b with
  | Some t => if bool_decide (pt_id t = id) then record_changed_item id x (set_current b (Some (index_upsert t x))) else finished
  | None => finished
  end.

(** The turn of the event if it names one. *)
Definition upsert_for (id : str) (x : ThreadItem) (b : Builder) : Builder :=
  match id with [] => upsert_item_in_current_turn x b | _ => upsert_item_in_turn_id id x b end.

Definition upsert_review_mode_item (id : option str) (x : ThreadItem) (b : Builder) : Builder :=
  match id with
  | None => upsert_item_in_current_turn x b
  | Some id =>
      let matches := match current_turn b with Some t => bool_decide (pt_id t = id) | None => false end in
      let b := if negb matches && negb (has_turn id (turns b)) then
          let b := finish_current_turn b in let t := new_turn (Some id) b in set_current (record_changed_turn (meta t) b) (Some t)
        else b in
      upsert_item_in_turn_id id x b
  end.

(** * Handlers *)

Definition handle_response_item (id : option str) (role : str) (content : list opaque) (b : Builder) : Builder :=
  if bool_decide (role = lit "user") then
    match parse_hook_prompt_message id content with Some (id, fragments) => push_item_in_current_turn (HookPrompt id fragments) b | None => b end
  else b.

Definition handle_user_message (p : UserMessageEvent) (b : Builder) : Builder :=
  let b := match current_turn b with
    | Some t => if negb (opened_explicitly t) && negb (saw_compaction t && match items t with [] => true | _ => false end) then finish_current_turn b else b
    | None => b
    end in
  let '(id, b) := next_item_id b in push_item_in_current_turn (UserMessage id (um_client_id p) (build_user_inputs p)) b.

Definition handle_agent_message (message : str) (phase citation delivery questions : option opaque) (b : Builder) : Builder :=
  match message with [] => b | _ => let '(id, b) := next_item_id b in push_item_in_current_turn (AgentMessage id message phase citation delivery questions) b end.

(** The last item, if it is a reasoning, changed by [f]. *)
Definition amend_reasoning (f : list str → list str → list str * list str) (l : list ThreadItem) : option (ThreadItem * list ThreadItem) :=
  match last l with
  | Some (Reasoning id summary content) =>
      let '(summary, content) := f summary content in let x := Reasoning id summary content in Some (x, removelast l ++ [x])
  | _ => None
  end.

Definition handle_reasoning (f : list str → list str → list str * list str) (text : str) (b : Builder) : Builder :=
  match text with
  | [] => b
  | _ =>
      let '(b, t) := ensure_turn b in
      match amend_reasoning f (items t) with
      | Some (x, l) => record_changed_item (pt_id t) x (set_current b (Some (with_items t l (item_index t))))
      | None =>
          let '(id, b) := next_item_id b in let '(summary, content) := f [] [] in push_item_in_current_turn (Reasoning id summary content) b
      end
  end.

Definition handle_agent_reasoning (text : str) : Builder → Builder := handle_reasoning (λ summary content, (summary ++ [text], content)) text.
Definition handle_agent_reasoning_raw_content (text : str) : Builder → Builder := handle_reasoning (λ summary content, (summary, content ++ [text])) text.

Definition should_upsert (k : TurnItemKind) : bool :=
  match k with
  | TiPlan text => match text with [] => false | _ => true end
  | TiHookPrompt | TiFunctionCallOutput | TiCommandExecution | TiDynamicToolCall | TiCollabAgentToolCall | TiSubAgentActivity | TiExtension
  | TiEnteredReviewMode | TiExitedReviewMode => true
  | _ => false
  end.

Definition handle_materialized_item_lifecycle (id : str) (x : TurnItem) (b : Builder) : Builder :=
  if should_upsert (ti_kind x) then
    match ti_kind x with
    | TiEnteredReviewMode | TiExitedReviewMode => upsert_review_mode_item (Some id) (ti_item x) b
    | _ => upsert_item_in_turn_id id (ti_item x) b
    end
  else b.

Definition handle_guardian_assessment (p : GuardianAssessmentEvent) (b : Builder) : Builder :=
  let go status := match build_item_from_guardian_event p status with Some x => upsert_for (ga_turn_id p) x b | None => b end in
  match ga_status p with
  | GaInProgress => go CmdInProgress
  | GaDenied | GaAborted => go CmdDeclined
  | GaTimedOut => go CmdFailed
  | GaApproved => b
  end.

Definition handle_entered_review_mode (hint id turn : option str) (b : Builder) : Builder :=
  let review := default (lit "Review requested.") hint in
  let '(id, b) := match id with Some id => (id, b) | None => next_item_id b end in
  upsert_review_mode_item turn (EnteredReviewMode id review) b.

Definition handle_exited_review_mode (output : option opaque) (id turn : option str) (b : Builder) : Builder :=
  let review := review_output_text output in
  let '(id, b) := match id with Some id => (id, b) | None => next_item_id b end in
  upsert_review_mode_item turn (ExitedReviewMode id review) b.

Definition info_affects_turn_status (i : CodexErrorInfo) : bool := match i with ThreadRollbackFailed | ActiveTurnNotSteerable _ => false | OtherErrorInfo _ => true end.
Definition affects_turn_status (e : ErrorEvent) : bool := match codex_error_info e with Some i => info_affects_turn_status i | None => true end.

Definition set_status (s : TurnStatus) (e : option TurnError) (m : TurnMetadata) : TurnMetadata :=
  mkMeta (turn_id m) (root_turn_id m) s e (started_at m) (completed_at m) (duration_ms m).
Definition set_end (completed duration : option Z) (m : TurnMetadata) : TurnMetadata :=
  mkMeta (turn_id m) (root_turn_id m) (status m) (error m) (started_at m) completed duration.

(** The open turn, changed and recorded. *)
Definition change_current (f : TurnMetadata → TurnMetadata) (b : Builder) : Builder :=
  match current_turn b with
  | Some t => let m := f (meta t) in record_changed_turn m (set_current b (Some (with_meta t m)))
  | None => b
  end.

Definition handle_error (e : ErrorEvent) (b : Builder) : Builder :=
  if affects_turn_status e then change_current (set_status TurnFailed (Some (turn_error e))) b else b.

Definition is_current (id : str) (b : Builder) : bool := match current_turn b with Some t => bool_decide (pt_id t = id) | None => false end.

(** The finished turn with the id, changed and recorded. *)
Definition change_finished (id : str) (f : TurnMetadata → TurnMetadata) (b : Builder) : option Builder :=
  (λ '(u, ts), record_changed_turn (meta u) (set_turns b ts)) <$> update_turn id (λ t, with_meta t (f (meta t))) (turns b).

Definition apply_abort (e : option ErrorEvent) (completed duration : option Z) (m : TurnMetadata) : TurnMetadata :=
  set_end completed duration (set_status TurnInterrupted (match e with Some e => Some (turn_error e) | None => error m end) m).

Definition handle_turn_aborted (id : option str) (e : option ErrorEvent) (completed duration : option Z) (b : Builder) : Builder :=
  let f := apply_abort e completed duration in
  match id with
  | Some id => if is_current id b then change_current f b else default (change_current f b) (change_finished id f b)
  | None => change_current f b
  end.

Definition handle_turn_started (id : str) (root : option str) (started : option Z) (b : Builder) : Builder :=
  let b := finish_current_turn b in
  let t := new_turn (Some id) b in
  let t := mkTurn (mkMeta id root TurnInProgress None started None None) [] None true false (rollout_start_index t) in
  set_current (record_changed_turn (meta t) b) (Some t).

Definition apply_completion (e : option ErrorEvent) (completed duration : option Z) (m : TurnMetadata) : TurnMetadata :=
  set_end completed duration
    match e with
    | Some e => set_status TurnFailed (Some (turn_error e)) m
    | None => match status m with TurnCompleted | TurnInProgress => set_status TurnCompleted (error m) m | _ => m end
    end.

Definition handle_turn_complete (id : str) (e : option ErrorEvent) (completed duration : option Z) (b : Builder) : Builder :=
  let f := apply_completion e completed duration in
  if is_current id b then finish_current_turn (change_current f b)
  else match change_finished id f b with
  | Some b => b
  | None => match current_turn b with Some _ => finish_current_turn (change_current f b) | None => b end
  end.

Definition handle_compacted (b : Builder) : Builder :=
  let '(b, t) := ensure_turn b in set_current b (Some (mkTurn (meta t) (items t) (item_index t) (opened_explicitly t) true (rollout_start_index t))).

Definition handle_thread_rollback (num_turns : N) (b : Builder) : Builder :=
  let b := finish_current_turn b in
  let keep := (length (turns b) - N.to_nat num_turns)%nat in
  let b := set_turns (record_removed_turn_ids (pt_id <$> drop keep (turns b)) b) (take keep (turns b)) in
  let item_count := Z.of_nat (sum_list (length ∘ items <$> turns b)) in
  set_next_item b (Z.min (item_count + 1) i64_max).

Definition handle_event (e : EventMsg) (b : Builder) : Builder :=
  match e with
  | EvUserMessage p => handle_user_message p b
  | EvAgentMessage message phase citation delivery questions => handle_agent_message message phase citation delivery questions b
  | EvAgentReasoning text => handle_agent_reasoning text b
  | EvAgentReasoningRawContent text => handle_agent_reasoning_raw_content text b
  | EvWebSearchBegin id => upsert_item_in_current_turn (WebSearch id [] None None) b
  | EvWebSearchEnd id query action results => upsert_item_in_current_turn (WebSearch id query (Some action) results) b
  | EvExecCommandBegin p => upsert_item_in_turn_id (ex_turn_id p) (build_command_execution_begin_item p) b
  | EvExecCommandEnd p => upsert_item_in_turn_id (ex_turn_id (ex_begin p)) (build_command_execution_end_item p) b
  | EvGuardianAssessment p => handle_guardian_assessment p b
  | EvApplyPatchApprovalRequest p => upsert_for (pa_turn_id p) (build_file_change_approval_request_item p) b
  | EvPatchApplyBegin p => upsert_for (pa_turn_id p) (build_file_change_begin_item p) b
  | EvPatchApplyEnd p status => upsert_for (pa_turn_id p) (build_file_change_end_item p status) b
  | EvDynamicToolCallRequest p => upsert_for (dy_turn_id p) (dynamic_request_item p) b
  | EvDynamicToolCallResponse p success content millis => upsert_for (dy_turn_id p) (dynamic_response_item p success content millis) b
  | EvMcpToolCallBegin p => upsert_for (mc_turn_id p) (mcp_item p CallInProgress None None None) b
  | EvMcpToolCallEnd p => upsert_for (mc_turn_id (mc_begin p)) (mcp_end_item p) b
  | EvViewImageToolCall id path => upsert_item_in_current_turn (ImageView id path) b
  | EvImageGenerationBegin id => upsert_item_in_current_turn (ImageGeneration id [] None [] None None None) b
  | EvImageGenerationEnd id st prompt result transparent failure saved => upsert_item_in_current_turn (ImageGeneration id st prompt result transparent failure saved) b
  | EvCollabAgentSpawnBegin p => upsert_item_in_current_turn (collab_begin_item SpawnAgent p [] (co_prompt p) (co_model p) (co_effort p)) b
  | EvCollabAgentSpawnEnd p id s => upsert_item_in_current_turn (spawn_end_item p id s) b
  | EvCollabAgentInteractionBegin p receiver => upsert_item_in_current_turn (collab_begin_item SendInput p [receiver] (co_prompt p) None None) b
  | EvCollabAgentInteractionEnd p receiver s => upsert_item_in_current_turn (collab_end_item SendInput p receiver (co_prompt p) s) b
  | EvSubAgentActivity id model effort kind thread path => upsert_item_in_current_turn (SubAgentActivity id model effort kind thread path) b
  | EvCollabWaitingBegin p receivers => upsert_item_in_current_turn (collab_begin_item Wait p receivers None None None) b
  | EvCollabWaitingEnd p statuses => upsert_item_in_current_turn (waiting_end_item p statuses) b
  | EvCollabCloseBegin p receiver => upsert_item_in_current_turn (collab_begin_item CloseAgent p [receiver] None None None) b
  | EvCollabCloseEnd p receiver s => upsert_item_in_current_turn (collab_end_item CloseAgent p receiver None s) b
  | EvCollabResumeBegin p receiver => upsert_item_in_current_turn (collab_begin_item ResumeAgent p [receiver] None None None) b
  | EvCollabResumeEnd p receiver s => upsert_item_in_current_turn (collab_end_item ResumeAgent p receiver None s) b
  | EvContextCompacted => let '(id, b) := next_item_id b in push_item_in_current_turn (ContextCompaction id) b
  | EvEnteredReviewMode hint id turn => handle_entered_review_mode hint id turn b
  | EvExitedReviewMode output id turn => handle_exited_review_mode output id turn b
  | EvItemStarted id x | EvItemCompleted id x => handle_materialized_item_lifecycle id x b
  | EvError e => handle_error e b
  | EvThreadRolledBack n => handle_thread_rollback n b
  | EvTurnAborted id e completed duration => handle_turn_aborted id e completed duration b
  | EvTurnStarted id root started => handle_turn_started id root started b
  | EvTurnComplete id e completed duration => handle_turn_complete id e completed duration b
  | EvOther _ => b
  end.

Definition handle_rollout_item (x : RolloutItem) (b : Builder) : Builder :=
  let b := mkBuilder (turns b) (current_turn b) (next_item_index b) (next_rollout_index b) (S (next_rollout_index b)) (active_change_set b) in
  match x with
  | RiEvent e => handle_event e b
  | RiCompacted _ => handle_compacted b
  | RiMessage id role content => handle_response_item id role content b
  | RiOther _ => b
  end.

(** * Results *)

Definition finish (b : Builder) : list PendingTurn := turns (finish_current_turn b).
Definition build_turns_from_rollout_items (l : list RolloutItem) : list PendingTurn := finish (foldl (λ b x, handle_rollout_item x b) new_builder l).

(** The open turn, or else the last finished one. *)
Definition active_turn (b : Builder) : option PendingTurn := match current_turn b with Some t => Some t | None => last (turns b) end.
Definition active_turn_metadata_snapshot (b : Builder) : option TurnMetadata := meta <$> active_turn b.
Definition active_turn_id (b : Builder) : option str := pt_id <$> active_turn b.

Definition turn_snapshot (id : str) (b : Builder) : option PendingTurn :=
  let finished := snd <$> list_find (λ t, pt_id t = id) (turns b) in
  match current_turn b with Some t => if bool_decide (pt_id t = id) then Some t else finished | None => finished end.

Definition active_turn_position (b : Builder) : option nat :=
  match current_turn b, turns b with Some _, ts => Some (length ts) | None, [] => None | None, ts => Some (length ts - 1)%nat end.

Definition active_turn_id_if_explicit (b : Builder) : option str :=
  match current_turn b with Some t => if opened_explicitly t then Some (pt_id t) else None | None => None end.

Definition active_turn_start_index (b : Builder) : option nat := rollout_start_index <$> current_turn b.

Inductive TurnItemsView := NotLoaded | Summary | Full.

Definition is_user_message (x : ThreadItem) : bool := match x with UserMessage _ _ _ => true | _ => false end.
Definition is_agent_message (x : ThreadItem) : bool := match x with AgentMessage _ _ _ _ _ _ => true | _ => false end.

Definition project_items (v : TurnItemsView) (l : list ThreadItem) : list ThreadItem :=
  match v with
  | NotLoaded => []
  | Full => l
  | Summary =>
      match List.find is_user_message l, List.find is_agent_message (rev l) with
      | Some u, Some a => if bool_decide (item_id u = item_id a) then [u] else [u; a]
      | Some u, None => [u]
      | None, Some a => [a]
      | None, None => []
      end
  end.

Definition active_turn_snapshot_with_items_view (v : TurnItemsView) (b : Builder) : option (TurnMetadata * list ThreadItem) :=
  (λ t, (meta t, project_items v (items t))) <$> active_turn b.

Definition collect_changes (handle : Builder → Builder) (b : Builder) : ChangeSet * Builder :=
  let b := handle (set_changes b (Some no_changes)) in (default no_changes (active_change_set b), set_changes b None).

Definition handle_event_with_changes (e : EventMsg) : Builder → ChangeSet * Builder := collect_changes (handle_event e).
Definition handle_rollout_item_with_changes (x : RolloutItem) : Builder → ChangeSet * Builder := collect_changes (handle_rollout_item x).

(** * Coalescing changes *)

Record Accumulator := mkAcc {
  acc_items : list (option ItemChange);
  acc_item_indexes : gmap (str * str) nat;
  acc_turns : list (option TurnMetadata);
  acc_turn_indexes : gmap str nat;
  acc_removed : list str;
  acc_removed_indexes : gmap str nat
}.

Definition empty_acc : Accumulator := mkAcc [] ∅ [] ∅ [] ∅.

Definition change_key (c : ItemChange) : str * str := (ic_turn_id c, item_id (ic_item c)).

Definition push_item_change (a : Accumulator) (c : ItemChange) : Accumulator :=
  match acc_item_indexes a !! change_key c with
  | Some i => mkAcc (<[i := Some c]> (acc_items a)) (acc_item_indexes a) (acc_turns a) (acc_turn_indexes a) (acc_removed a) (acc_removed_indexes a)
  | None => mkAcc (acc_items a ++ [Some c]) (<[change_key c := length (acc_items a)]> (acc_item_indexes a)) (acc_turns a) (acc_turn_indexes a) (acc_removed a) (acc_removed_indexes a)
  end.

Definition push_turn_change (a : Accumulator) (m : TurnMetadata) : Accumulator :=
  match acc_turn_indexes a !! turn_id m with
  | Some i => mkAcc (acc_items a) (acc_item_indexes a) (<[i := Some m]> (acc_turns a)) (acc_turn_indexes a) (acc_removed a) (acc_removed_indexes a)
  | None => mkAcc (acc_items a) (acc_item_indexes a) (acc_turns a ++ [Some m]) (<[turn_id m := length (acc_turns a)]> (acc_turn_indexes a)) (acc_removed a) (acc_removed_indexes a)
  end.

(** The slots of the keys with the turn are emptied, and the keys dropped. *)
Definition drop_item_keys (id : str) (a : Accumulator) : list (option ItemChange) * gmap (str * str) nat :=
  foldl (λ '(l, m) k, match m !! k with Some i => (<[i := None]> l, delete k m) | None => (l, m) end)
    (acc_items a, acc_item_indexes a) (List.filter (λ k, bool_decide (fst k = id)) (fst <$> map_to_list (acc_item_indexes a))).

Definition push_removed_turn_id (a : Accumulator) (id : str) : Accumulator :=
  let '(removed, removed_ix) := match acc_removed_indexes a !! id with
    | Some _ => (acc_removed a, acc_removed_indexes a)
    | None => (acc_removed a ++ [id], <[id := length (acc_removed a)]> (acc_removed_indexes a))
    end in
  let '(ts, tix) := match acc_turn_indexes a !! id with
    | Some i => (<[i := None]> (acc_turns a), delete id (acc_turn_indexes a))
    | None => (acc_turns a, acc_turn_indexes a)
    end in
  let '(its, iix) := drop_item_keys id a in
  mkAcc its iix ts tix removed removed_ix.

Definition acc_push (a : Accumulator) (cs : ChangeSet) : Accumulator :=
  foldl push_turn_change (foldl push_item_change (foldl push_removed_turn_id a (removed_turn_ids cs)) (changed_items cs)) (changed_turns cs).

Definition acc_finish (a : Accumulator) : ChangeSet := mkChanges (omap id (acc_items a)) (omap id (acc_turns a)) (acc_removed a).

Fixpoint push_rollout_items (l : list RolloutItem) (a : Accumulator) (b : Builder) : Accumulator * Builder :=
  match l with
  | [] => (a, b)
  | x :: l => let '(cs, b) := handle_rollout_item_with_changes x b in push_rollout_items l (acc_push a cs) b
  end.

Definition handle_rollout_items_with_changes (l : list RolloutItem) (b : Builder) : ChangeSet * Builder :=
  let '(a, b) := push_rollout_items l empty_acc b in (acc_finish a, b).
End Builder.
