(* ===== verification/HistoryClient.v ===== *)
(** A client that keeps a copy of a thread's history and applies the change sets the builder reports has
    the history the builder has. *)
From S2P Require Import Prelude Str ThreadItems ThreadHistory.

(** * The client *)

Notation history := (list (TurnMetadata * list ThreadItem)).

Fixpoint put_turn (m : TurnMetadata) (h : history) : history :=
  match h with
  | [] => [(m, [])]
  | (m', l) :: h => if bool_decide (turn_id m' = turn_id m) then (m, l) :: h else (m', l) :: put_turn m h
  end.

(** The item replaces the one with its id, or comes last. *)
Fixpoint put_item (x : ThreadItem) (l : list ThreadItem) : list ThreadItem :=
  match l with
  | [] => [x]
  | y :: l => if bool_decide (item_id y = item_id x) then x :: l else y :: put_item x l
  end.

Fixpoint put_change (c : ItemChange) (h : history) : history :=
  match h with
  | [] => []
  | (m, l) :: h => if bool_decide (turn_id m = ic_turn_id c) then (m, put_item (ic_item c) l) :: h else (m, l) :: put_change c h
  end.

Definition without (id : str) (h : history) : history := filter (λ e, turn_id e.1 ≠ id) h.

Definition apply_changes (cs : ChangeSet) (h : history) : history :=
  foldl (λ h c, put_change c h) (foldl (λ h m, put_turn m h) (foldl (λ h id, without id h) h (removed_turn_ids cs)) (changed_turns cs)) (changed_items cs).

(** What a builder has built. *)
Definition turn_view (t : PendingTurn) : TurnMetadata * list ThreadItem := (meta t, items t).
Definition all_turns (b : Builder) : list PendingTurn := turns b ++ option_list (current_turn b).
Definition view (b : Builder) : history := turn_view <$> all_turns b.

Definition ids (h : history) : list str := turn_id ∘ fst <$> h.

(** Turns have distinct ids, and so have the items of a turn. *)
Definition distinct (h : history) : Prop := NoDup (ids h) ∧ Forall (λ e, NoDup (item_id <$> e.2)) h.

(** * The index *)

Definition index_ok (t : PendingTurn) : Prop := match item_index t with Some m => ∀ id, m !! id = position id (items t) | None => True end.

Lemma position_app id l x : position id (l ++ [x]) = match position id l with Some i => Some i | None => if bool_decide (item_id x = id) then Some (length l) else None end.
Proof.
  induction l as [|y l IH]; cbn; [by destruct (bool_decide _)|]. destruct (bool_decide (item_id y = id)); [done|]. rewrite IH. destruct (position id l); [done|]. by destruct (bool_decide _).
Qed.

Lemma position_none id l : position id l = None ↔ id ∉ item_id <$> l.
Proof.
  induction l as [|y l IH]; cbn; [set_solver|]. case_bool_decide as E; [set_solver|]. destruct (position id l); cbn; set_solver.
Qed.

Lemma position_insert id l i x : position (item_id x) l = Some i → position id (<[i := x]> l) = position id l.
Proof.
  revert i. induction l as [|y l IH]; intros i; cbn; [done|]. case_bool_decide as E; [intros [= <-]; cbn; by rewrite E|].
  destruct (position (item_id x) l) as [j|] eqn:Ej; [|done]. intros [= <-]. change (<[S j := x]> (y :: l)) with (y :: <[j := x]> l). cbn [position]. by rewrite (IH j).
Qed.

Lemma index_from_spec l pre m : (∀ id, m !! id = position id pre) → ∀ id, index_from (length pre) l m !! id = position id (pre ++ l).
Proof.
  revert pre m. induction l as [|x l IH]; intros pre m Hm id; cbn; [by rewrite app_nil_r|].
  replace (S (length pre)) with (length (pre ++ [x])) by (rewrite length_app; cbn; lia).
  rewrite (IH (pre ++ [x])); [by rewrite <- app_assoc|]. intros id'. rewrite position_app, <- Hm. unfold or_insert. rewrite (Hm (item_id x)).
  destruct (position (item_id x) pre) as [i|] eqn:E.
  - case_bool_decide as Ei; [subst id'; rewrite Hm, E; done|]. by destruct (m !! id').
  - case_bool_decide as Ei; [subst id'; by rewrite lookup_insert_eq, Hm, E|]. rewrite lookup_insert_ne by done. by destruct (m !! id').
Qed.

Lemma put_item_position x l : put_item x l = match position (item_id x) l with Some i => <[i := x]> l | None => l ++ [x] end.
Proof.
  induction l as [|y l IH]; cbn; [done|]. case_bool_decide as E; [done|]. rewrite IH. by destruct (position (item_id x) l).
Qed.

Lemma index_push_ok t x : index_ok t → index_ok (index_push t x).
Proof.
  unfold index_ok, index_push. cbn. destruct (item_index t) as [m|]; [|done]. cbn. intros Hm id. rewrite position_app, <- Hm. unfold or_insert.
  destruct (m !! item_id x) eqn:E; case_bool_decide as Ei; subst.
  - by rewrite E.
  - by destruct (m !! id).
  - by rewrite lookup_insert_eq, E.
  - rewrite lookup_insert_ne by done. by destruct (m !! id).
Qed.

(** The index finds what a search would. *)
Lemma index_upsert_spec t x : index_ok t → index_ok (index_upsert t x) ∧ items (index_upsert t x) = put_item x (items t).
Proof.
  intros Ht. unfold index_upsert. set (t' := match item_index t with Some _ => t | None => _ end).
  assert (index_ok t' ∧ items t' = items t) as [Hok Hi].
  { subst t'. destruct (item_index t) as [m|] eqn:E; [done|]. destruct (_ <=? _)%nat; [|done]. split; [|done].
    intros id. apply (index_from_spec (items t) [] ∅). done. }
  rewrite put_item_position, <- Hi.
  assert (match item_index t' with Some m => m !! item_id x | None => position (item_id x) (items t') end = position (item_id x) (items t')) as ->.
  { unfold index_ok in Hok. destruct (item_index t'); [apply Hok|done]. }
  destruct (position (item_id x) (items t')) as [i|] eqn:Ep; [|split; [by apply index_push_ok|done]].
  split; [|done]. unfold index_ok in *. cbn. destruct (item_index t'); [|done]. intros id. by rewrite position_insert.
Qed.

(** * The client's operations *)

Lemma keep_all {A} (P : A → Prop) `{!∀ a, Decision (P a)} (l : list A) : (∀ a, a ∈ l → P a) → filter P l = l.
Proof. induction l as [|a l IH]; [done|]. intros Hp. rewrite filter_cons_True by (apply Hp; set_solver). rewrite IH; [done|set_solver]. Qed.

Lemma keep_none {A} (P : A → Prop) `{!∀ a, Decision (P a)} (l : list A) : (∀ a, a ∈ l → ¬ P a) → filter P l = [].
Proof. induction l as [|a l IH]; [done|]. intros Hp. rewrite filter_cons_False by (apply Hp; set_solver). apply IH. set_solver. Qed.

Lemma ids_app h h' : ids (h ++ h') = ids h ++ ids h'.
Proof. apply fmap_app. Qed.

Lemma put_turn_new m h : turn_id m ∉ ids h → put_turn m h = h ++ [(m, [])].
Proof.
  induction h as [|[m' l] h IH]; cbn; [done|]. intros Hn. rewrite bool_decide_eq_false_2 by set_solver. rewrite IH by set_solver. done.
Qed.

Lemma put_turn_at m m' l pre post : turn_id m ∉ ids pre → turn_id m' = turn_id m → put_turn m (pre ++ (m', l) :: post) = pre ++ (m, l) :: post.
Proof.
  intros Hn He. induction pre as [|[m1 l1] pre IH]; cbn in *; [by rewrite bool_decide_eq_true_2|]. rewrite bool_decide_eq_false_2 by set_solver. rewrite IH by set_solver. done.
Qed.

Lemma put_change_at id x m l pre post : id ∉ ids pre → turn_id m = id → put_change (mkItemChange id x) (pre ++ (m, l) :: post) = pre ++ (m, put_item x l) :: post.
Proof.
  intros Hn He. induction pre as [|[m1 l1] pre IH]; cbn in *; [by rewrite bool_decide_eq_true_2|]. rewrite bool_decide_eq_false_2 by set_solver. rewrite IH by set_solver. done.
Qed.

Lemma put_item_new x l : item_id x ∉ item_id <$> l → put_item x l = l ++ [x].
Proof. intros Hn. rewrite put_item_position. by apply position_none in Hn as ->. Qed.

Lemma put_item_last x y l : item_id x ∉ item_id <$> l → item_id y = item_id x → put_item x (l ++ [y]) = l ++ [x].
Proof.
  intros Hn Hy. induction l as [|z l IH]; cbn in *; [by rewrite bool_decide_eq_true_2|]. rewrite bool_decide_eq_false_2 by set_solver. rewrite IH by set_solver. done.
Qed.

Lemma in_ids id e pre post : turn_id e.1 = id → id ∈ ids (pre ++ e :: post).
Proof. intros <-. rewrite ids_app. apply elem_of_app. right. apply list_elem_of_here. Qed.

Lemma put_change_ids c h : ids (put_change c h) = ids h.
Proof. induction h as [|[m l] h IH]; cbn; [done|]. case_bool_decide; cbn; [done|]. f_equal. exact IH. Qed.

(** * Tracking *)

(** The changes recorded so far turn [h] into what is built, and the items recorded belong to turns there
    are; [early] when no item is recorded yet. *)
Definition tracked (h : history) (b : Builder) : Prop :=
  ∃ cs, active_change_set b = Some cs ∧ apply_changes cs h = view b ∧ Forall (λ c, ic_turn_id c ∈ ids (view b)) (changed_items cs).
Definition early (h : history) (b : Builder) : Prop := ∃ cs, active_change_set b = Some cs ∧ apply_changes cs h = view b ∧ changed_items cs = [].

(** The indexes are right, and the open turn will be kept. *)
Definition builder_ok (b : Builder) : Prop := Forall index_ok (all_turns b) ∧ ∀ t, current_turn b = Some t → kept t = true.

Definition step_ok (h : history) (b : Builder) : Prop := tracked h b ∧ builder_ok b.

Lemma early_tracked h b : early h b → tracked h b.
Proof. intros (cs & Ha & Hv & Hi). exists cs. by rewrite Hi. Qed.

Lemma apply_item cs h c : apply_changes (mkChanges (changed_items cs ++ [c]) (changed_turns cs) (removed_turn_ids cs)) h = put_change c (apply_changes cs h).
Proof. unfold apply_changes. cbn. by rewrite foldl_app. Qed.

Lemma record_item_tracked h id x b b' : tracked h b → active_change_set b' = active_change_set b → put_change (mkItemChange id x) (view b) = view b' →
  id ∈ ids (view b') → tracked h (record_changed_item id x b').
Proof.
  intros (cs & Ha & Hv & Hf) Hb Hp Hin. unfold record_changed_item. rewrite Hb, Ha. cbn. eexists. split; [done|]. split; [by rewrite apply_item, Hv, Hp|].
  cbn. apply Forall_app. split; [|by apply Forall_singleton]. rewrite <- (put_change_ids (mkItemChange id x) (view b)), Hp in Hf. done.
Qed.

Lemma record_turn_early h m b b' : early h b → active_change_set b' = active_change_set b → put_turn m (view b) = view b' → early h (record_changed_turn m b').
Proof.
  intros (cs & Ha & Hv & Hi) Hb Hp. unfold record_changed_turn. rewrite Hb, Ha. cbn. eexists. split; [done|]. split; [|done].
  unfold apply_changes in *. cbn. rewrite Hi in *. cbn in *. rewrite foldl_app. cbn. by rewrite Hv, Hp.
Qed.

Lemma view_current b t : current_turn b = Some t → view b = (turn_view <$> turns b) ++ [turn_view t].
Proof. intros Hc. unfold view, all_turns. rewrite Hc, fmap_app. done. Qed.

Lemma view_none b : current_turn b = None → view b = turn_view <$> turns b.
Proof. intros Hc. unfold view, all_turns. rewrite Hc, fmap_app. apply app_nil_r. Qed.

(** Closing the open turn changes nothing for the client. *)
Lemma finish_view b : builder_ok b → view (finish_current_turn b) = view b ∧ current_turn (finish_current_turn b) = None
  ∧ active_change_set (finish_current_turn b) = active_change_set b ∧ builder_ok (finish_current_turn b).
Proof.
  intros [Hi Hk]. unfold finish_current_turn. destruct (current_turn b) as [t|] eqn:Hc; [|do 3 (split; [done|]); split; [done|by rewrite Hc]]. rewrite (Hk t eq_refl).
  assert (all_turns b = turns b ++ [t]) as Ha by (unfold all_turns; by rewrite Hc). unfold view, builder_ok. unfold all_turns at 1 3. cbn.
  rewrite app_nil_r, <- Ha. done.
Qed.

Lemma finish_early h b : builder_ok b → early h b → early h (finish_current_turn b).
Proof. intros Hb (cs & Ha & Hv & Hi). destruct (finish_view b Hb) as (Hw & _ & Hs & _). exists cs. by rewrite Hs, Hw. Qed.

Lemma set_next_view n b : view (set_next_item b n) = view b.
Proof. done. Qed.

(** A turn opened while none is open. *)
Lemma open_early h t b : current_turn b = None → early h b → items t = [] → pt_id t ∉ ids (view b) →
  early h (set_current (record_changed_turn (meta t) b) (Some t)).
Proof.
  intros Hc He Hi Hn. assert (set_current (record_changed_turn (meta t) b) (Some t) = record_changed_turn (meta t) (set_current b (Some t))) as -> by done.
  apply (record_turn_early h _ b); [done|done|]. rewrite put_turn_new by done. rewrite (view_current (set_current b (Some t)) t) by done. rewrite (view_none b Hc). cbn. unfold turn_view. by rewrite Hi.
Qed.

Section Steps.
Context `{HistoryEnv} (now_v7 : Builder → str).
Implicit Types (b : Builder) (h : history) (t : PendingTurn) (x : ThreadItem).

(** * Items *)

(** A change of the open turn's items by [f], which the client makes too. *)
Lemma current_item_tracked h x b t t' : tracked h b → Forall index_ok (all_turns b) → current_turn b = Some t → NoDup (ids (view b)) →
  meta t' = meta t → items t' = put_item x (items t) → index_ok t' → kept t' = true →
  step_ok h (record_changed_item (pt_id t) x (set_current b (Some t'))).
Proof.
  intros Ht Hi Hc Hn Hm Hl Hx Hk. split.
  - apply (record_item_tracked h _ _ b); [done|done| |rewrite (view_current (set_current b (Some t')) t') by done; apply in_ids; cbn; by rewrite Hm].
    rewrite (view_current b t Hc), (view_current (set_current b (Some t')) t') by done. cbn.
    unfold turn_view at 2 4. rewrite Hm, Hl. apply put_change_at; [|done]. rewrite (view_current b t Hc), ids_app in Hn. apply NoDup_app in Hn as (_ & Hd & _). cbn in Hd. set_solver.
  - unfold all_turns in Hi. rewrite Hc in Hi. apply Forall_app in Hi as [Hi _]. split; [|by intros ? [= <-]]. unfold all_turns. cbn. apply Forall_app. by split; [|apply Forall_singleton].
Qed.

Lemma put_item_kept t t' x : items t' = put_item x (items t) → kept t' = true.
Proof. intros Hl. unfold kept. rewrite Hl. destruct (items t); cbn; [done|]. by destruct (bool_decide _). Qed.

Lemma ensure_early h b : Forall index_ok (all_turns b) → early h b → (∀ t, current_turn b = None → t = new_turn now_v7 None b → pt_id t ∉ ids (view b)) →
  let '(b', t) := ensure_turn now_v7 b in
  early h b' ∧ current_turn b' = Some t ∧ Forall index_ok (all_turns b') ∧ (current_turn b = Some t ∨ items t = []).
Proof.
  intros Hi He Hn. unfold ensure_turn. destruct (current_turn b) as [t|] eqn:Hc; [by split_and!; auto|].
  split; [apply open_early; [done|done|done|by apply Hn]|]. split; [done|]. split; [|by right].
  unfold all_turns in *. rewrite Hc in Hi. cbn in *. rewrite app_nil_r in Hi. apply Forall_app. split; [done|]. by apply Forall_singleton.
Qed.

Lemma ensure_shape b : let '(b', t) := ensure_turn now_v7 b in
  turns b' = turns b ∧ current_turn b' = Some t
  ∧ (pt_id t ∉ ids (turn_view <$> turns b) → ∀ t0, current_turn b = None → t0 = new_turn now_v7 None b → pt_id t0 ∉ ids (view b)).
Proof.
  unfold ensure_turn. destruct (current_turn b) as [t|] eqn:Hc; [done|]. split; [done|]. split; [done|]. intros Hn t0 _ ->. by rewrite view_none.
Qed.

Lemma distinct_current b t' : distinct (view (set_current b (Some t'))) → NoDup (ids (turn_view <$> turns b)) ∧ pt_id t' ∉ ids (turn_view <$> turns b) ∧ NoDup (item_id <$> items t').
Proof.
  rewrite (view_current (set_current b (Some t')) t') by done. intros [Hn Hf]. rewrite ids_app in Hn. apply NoDup_app in Hn as (H1 & H2 & _).
  split; [done|]. split; [intros Hin; by apply (H2 _ Hin), list_elem_of_singleton|]. apply Forall_app in Hf as [_ Hf]. by inversion Hf.
Qed.

(** The open turn, or a new one, gets [x] as [g] says. *)
Lemma current_change_ok h x (g : PendingTurn → PendingTurn) b : (∀ t, meta (g t) = meta t) → Forall index_ok (all_turns b) → early h b →
  let '(b', t) := ensure_turn now_v7 b in
  (index_ok t → NoDup (item_id <$> items (g t)) → items (g t) = put_item x (items t) ∧ index_ok (g t)) →
  distinct (view (set_current b' (Some (g t)))) → step_ok h (record_changed_item (pt_id t) x (set_current b' (Some (g t)))).
Proof.
  intros Hg Hb He. pose proof (ensure_shape b) as Hs. pose proof (ensure_early h b Hb He) as Hen. destruct (ensure_turn now_v7 b) as [b' t].
  destruct Hs as (Hts & _ & Hnew). intros Hx Hd. destruct (distinct_current _ _ Hd) as (Hn1 & Hn2 & Hn3). rewrite Hts in Hn1, Hn2. unfold pt_id in Hn2. rewrite Hg in Hn2.
  destruct (Hen (Hnew Hn2)) as (Hen' & Hc' & Hi & _). clear Hen. rename Hen' into Hen.
  assert (index_ok t) as Hit by (unfold all_turns in Hi; rewrite Hc' in Hi; apply Forall_app in Hi as [_ Hi]; by inversion Hi).
  destruct (Hx Hit Hn3) as [Hl Hix]. apply current_item_tracked; try done; [by apply early_tracked| |by apply (put_item_kept t (g t) x)].
  rewrite (view_current b' t Hc'), ids_app, Hts. apply NoDup_app. split; [done|]. split; [|apply NoDup_singleton]. intros k Hk Hk'. apply list_elem_of_singleton in Hk' as ->. done.
Qed.

Lemma push_ok h x b : Forall index_ok (all_turns b) → early h b → distinct (view (push_item_in_current_turn now_v7 x b)) → step_ok h (push_item_in_current_turn now_v7 x b).
Proof.
  intros Hb He. unfold push_item_in_current_turn. pose proof (current_change_ok h x (λ t, index_push t x) b ltac:(done) Hb He) as Hc.
  destruct (ensure_turn now_v7 b) as [b' t]. intros Hd. apply Hc; [|done]. intros Ht Hn. split; [|by apply index_push_ok]. symmetry. apply put_item_new.
  cbn in Hn. rewrite fmap_app in Hn. apply NoDup_app in Hn as (_ & Hn & _). set_solver.
Qed.

Lemma upsert_meta t x : meta (index_upsert t x) = meta t.
Proof. unfold index_upsert. destruct (item_index t) eqn:E; [|destruct (_ <=? _)%nat]; cbn; rewrite ?E; by case_match. Qed.

Lemma upsert_ok h x b : Forall index_ok (all_turns b) → early h b → distinct (view (upsert_item_in_current_turn now_v7 x b)) → step_ok h (upsert_item_in_current_turn now_v7 x b).
Proof.
  intros Hb He. unfold upsert_item_in_current_turn. pose proof (current_change_ok h x (λ t, index_upsert t x) b (λ t, upsert_meta t x) Hb He) as Hc.
  destruct (ensure_turn now_v7 b) as [b' t]. intros Hd. apply Hc; [|done]. intros Ht _. destruct (index_upsert_spec t x Ht) as [Hi Hl]. done.
Qed.

Lemma update_turn_spec id f ts : match update_turn id f ts with
  | Some (u, ts') => ∃ pre t post, ts = pre ++ t :: post ∧ id ∉ ids (turn_view <$> pre) ∧ pt_id t = id ∧ u = f t ∧ ts' = pre ++ f t :: post
  | None => id ∉ ids (turn_view <$> ts)
  end.
Proof.
  induction ts as [|t ts IH]; cbn; [set_solver|]. case_bool_decide as E.
  - exists [], t, ts. split_and!; try done. set_solver.
  - destruct (update_turn id f ts) as [[u ts']|]; cbn.
    + destruct IH as (pre & t0 & post & -> & Hn & Hid & -> & ->). exists (t :: pre), t0, post. split_and!; try done. cbn. rewrite not_elem_of_cons. split; [by intros ->|done].
    + rewrite not_elem_of_cons. split; [by intros ->|done].
Qed.

Lemma view_split pre t post b : turns b = pre ++ t :: post → view b = (turn_view <$> pre) ++ turn_view t :: ((turn_view <$> post) ++ (turn_view <$> option_list (current_turn b))).
Proof. intros Ht. unfold view, all_turns. rewrite Ht, !fmap_app. cbn. by rewrite <- app_assoc. Qed.

Lemma forall_replace {A} (P : A → Prop) pre (a a1 : A) post rest : Forall P ((pre ++ a :: post) ++ rest) → P a1 → Forall P ((pre ++ a1 :: post) ++ rest).
Proof. rewrite !Forall_app, !Forall_cons. naive_solver. Qed.

(** An item for a turn by its id. *)
Lemma turn_id_ok h id x b : tracked h b → Forall index_ok (all_turns b) → (∀ t, current_turn b = Some t → pt_id t = id ∨ kept t = true) → NoDup (ids (view b)) →
  step_ok h (upsert_item_in_turn_id id x b).
Proof.
  intros Ht Hi Hk Hn. unfold upsert_item_in_turn_id.
  assert ((∀ t, current_turn b = Some t → kept t = true) → step_ok h (match update_turn id (λ t, index_upsert t x) (turns b) with Some (_, ts) => record_changed_item id x (set_turns b ts) | None => b end)) as Hfin.
  { intros Hk'. pose proof (update_turn_spec id (λ t, index_upsert t x) (turns b)) as Hu. destruct (update_turn id _ (turns b)) as [[u ts]|]; [|done].
    destruct Hu as (pre & t & post & Hts & Hnp & Hid & _ & ->). unfold all_turns in Hi. rewrite Hts in Hi.
    assert (index_ok t) as Hit by (rewrite Forall_app, Forall_app, Forall_cons in Hi; naive_solver). destruct (index_upsert_spec t x Hit) as [Hok Hl]. split.
    - apply (record_item_tracked h _ _ b); [done|done| |rewrite (view_split pre (index_upsert t x) post (set_turns b _) eq_refl); apply in_ids; cbn; by rewrite upsert_meta].
      rewrite (view_split pre t post b Hts), (view_split pre (index_upsert t x) post (set_turns b _) eq_refl).
      change (turn_view t) with (meta t, items t). replace (turn_view (index_upsert t x)) with (meta t, put_item x (items t)) by (unfold turn_view; by rewrite upsert_meta, Hl).
      apply put_change_at; done.
    - split; [|done]. exact (forall_replace _ _ _ _ _ _ Hi Hok). }
  destruct (current_turn b) as [t|] eqn:Hc; [|by apply Hfin]. case_bool_decide as E.
  - subst id. assert (index_ok t) as Hit by (unfold all_turns in Hi; rewrite Hc in Hi; apply Forall_app in Hi as [_ Hi]; by inversion Hi).
    destruct (index_upsert_spec t x Hit) as [Hok Hl]. apply current_item_tracked; try done; [by apply upsert_meta|by apply (put_item_kept t _ x)].
  - apply Hfin. intros t' [= <-]. destruct (Hk t eq_refl); [done|done].
Qed.

Lemma upsert_turn_id_ok h id x b : builder_ok b → early h b → distinct (view b) → step_ok h (upsert_item_in_turn_id id x b).
Proof. intros [Hi Hk] He [Hn _]. apply turn_id_ok; [by apply early_tracked|done|intros t Ht; right; by apply Hk|done]. Qed.

Lemma has_turn_false id ts : has_turn id ts = false → id ∉ ids (turn_view <$> ts).
Proof.
  unfold has_turn. induction ts as [|t ts IH]; cbn; [set_solver|]. case_bool_decide as E; [done|]. cbn. intros Hf. rewrite not_elem_of_cons. split; [by intros ->|by apply IH].
Qed.

(** A turn is opened once the previous one is closed. *)
Lemma opened_ok h t b : builder_ok b → early h b → items t = [] → item_index t = None → pt_id t ∉ ids (view b) →
  let b' := set_current (record_changed_turn (meta t) (finish_current_turn b)) (Some t) in
  early h b' ∧ Forall index_ok (all_turns b') ∧ ids (view b') = ids (view b) ++ [pt_id t].
Proof.
  intros Hb He Hl Hx Hn. destruct (finish_view b Hb) as (Hv & Hc & _ & [Hi _]). cbn zeta. split; [|split].
  - apply open_early; [done|by apply finish_early|done|by rewrite Hv].
  - unfold all_turns in *. rewrite Hc in Hi. cbn in *. rewrite app_nil_r in Hi. apply Forall_app. split; [done|]. apply Forall_singleton. unfold index_ok. by rewrite Hx.
  - rewrite <- Hv, (view_none _ Hc). rewrite (view_current (set_current _ (Some t)) t) by done. by rewrite ids_app.
Qed.

Lemma not_current id b : match current_turn b with Some t => bool_decide (pt_id t = id) | None => false end = false → id ∉ ids (turn_view <$> turns b) → id ∉ ids (view b).
Proof.
  intros Hm Hn. destruct (current_turn b) as [t|] eqn:Hc; [|by rewrite view_none]. rewrite (view_current b t Hc), ids_app, not_elem_of_app. split; [done|].
  apply bool_decide_eq_false_1 in Hm. intros He. apply list_elem_of_singleton in He. by apply Hm.
Qed.

Lemma review_ok h id x b : builder_ok b → early h b → distinct (view b) → distinct (view (upsert_review_mode_item now_v7 id x b)) →
  step_ok h (upsert_review_mode_item now_v7 id x b).
Proof.
  intros Hb He Hd. unfold upsert_review_mode_item. destruct id as [id|]; [|by apply upsert_ok; [apply Hb|]].
  destruct (match current_turn b with Some t => bool_decide (pt_id t = id) | None => false end) eqn:Hm; cbn [negb andb]; [intros _; by apply upsert_turn_id_ok|].
  destruct (has_turn id (turns b)) eqn:Hh; cbn [negb]; [intros _; by apply upsert_turn_id_ok|]. intros _.
  pose proof (not_current id b Hm (has_turn_false _ _ Hh)) as Hn.
  destruct (opened_ok h (new_turn now_v7 (Some id) (finish_current_turn b)) b Hb He eq_refl eq_refl Hn) as (He' & Hi' & Hids).
  apply turn_id_ok; [by apply early_tracked|done|intros t [= <-]; by left|]. rewrite Hids. apply NoDup_app. split; [apply Hd|]. split; [|apply NoDup_singleton].
  intros k Hk Hk'. apply list_elem_of_singleton in Hk' as ->. done.
Qed.

(** * Metadata *)

Lemma kept_with_meta t m : kept (with_meta t m) = kept t.
Proof. done. Qed.

Lemma change_current_ok h f b : (∀ m, turn_id (f m) = turn_id m) → builder_ok b → early h b → distinct (view b) →
  early h (change_current f b) ∧ builder_ok (change_current f b).
Proof.
  intros Hf [Hi Hk] He [Hn _]. unfold change_current. destruct (current_turn b) as [t|] eqn:Hc; [|split; [done|]; split; [done|by rewrite Hc]].
  split; [|split].
  - apply (record_turn_early h _ b); [done|done|]. rewrite (view_current b t Hc), (view_current (set_current b _) _ eq_refl). cbn. apply put_turn_at; [|by rewrite Hf].
    rewrite (view_current b t Hc), ids_app in Hn. apply NoDup_app in Hn as (_ & Hd & _). rewrite Hf. intros Hin. by apply (Hd _ Hin), list_elem_of_singleton.
  - unfold all_turns in *. rewrite Hc in Hi. cbn. apply Forall_app in Hi as [Hi Ht]. apply Forall_app. split; [done|]. inversion Ht. by constructor.
  - intros t' [= <-]. rewrite kept_with_meta. by apply Hk.
Qed.

Lemma change_finished_ok h id f b b' : (∀ m, turn_id (f m) = turn_id m) → builder_ok b → early h b → change_finished id f b = Some b' → early h b' ∧ builder_ok b'.
Proof.
  intros Hf [Hi Hk] He. unfold change_finished. pose proof (update_turn_spec id (λ t, with_meta t (f (meta t))) (turns b)) as Hu.
  destruct (update_turn id _ (turns b)) as [[u ts]|]; [|done]. destruct Hu as (pre & t & post & Hts & Hnp & Hid & -> & ->). intros [= <-].
  unfold all_turns in Hi. rewrite Hts in Hi. split; [|split; [|done]].
  - apply (record_turn_early h _ b); [done|done|]. rewrite (view_split pre t post b Hts), (view_split pre (with_meta t (f (meta t))) post (set_turns b _) eq_refl). cbn.
    apply put_turn_at; rewrite Hf; [by subst id|done].
  - refine (forall_replace _ _ _ _ _ _ Hi _). rewrite !Forall_app, Forall_cons in Hi. destruct Hi as [(_ & Hi & _) _]. exact Hi.
Qed.

(** * Handlers *)

(** Before an event: nothing is recorded and the client is up to date. *)
Definition fresh h b : Prop := active_change_set b = Some no_changes ∧ view b = h.

Lemma fresh_early h b : fresh h b → early h b.
Proof. intros [Ha Hv]. by exists no_changes. Qed.

Lemma without_fold l h : foldl (λ h id, without id h) h l = filter (λ e, turn_id e.1 ∉ l) h.
Proof.
  revert h. induction l as [|id l IH]; intros h; cbn.
  - symmetry. apply keep_all. set_solver.
  - rewrite IH. unfold without. rewrite list_filter_filter. apply list_filter_iff. set_solver.
Qed.

Lemma without_suffix h1 h2 : NoDup (ids (h1 ++ h2)) → foldl (λ h id, without id h) (h1 ++ h2) (ids h2) = h1.
Proof.
  rewrite without_fold, ids_app. intros Hn. apply NoDup_app in Hn as (_ & Hd & _). rewrite filter_app.
  rewrite (keep_all _ h1), (keep_none _ h2); [by rewrite app_nil_r| |].
  - intros e He Hni. apply Hni, list_elem_of_fmap. by exists e.
  - intros e He. apply Hd, list_elem_of_fmap. by exists e.
Qed.

Lemma rollback_ok h n b : builder_ok b → fresh h b → distinct (view b) → step_ok h (handle_thread_rollback n b).
Proof.
  intros Hb [Ha Hv] [Hn _]. destruct (finish_view b Hb) as (Hf & Hc & Hs & [Hi _]). unfold handle_thread_rollback. set (b1 := finish_current_turn b) in *.
  set (keep := (length (turns b1) - N.to_nat n)%nat). split.
  - eexists. split; [cbn; by rewrite Hs, Ha|]. split; [|done]. rewrite view_none by done. unfold apply_changes. cbn. rewrite <- Hv, <- Hf, (view_none b1 Hc).
    replace (pt_id <$> drop keep (turns b1)) with (ids (turn_view <$> drop keep (turns b1))) by (unfold ids; by rewrite <- list_fmap_compose).
    rewrite <- (take_drop keep (turns b1)) at 1. rewrite fmap_app. apply without_suffix. rewrite <- fmap_app, take_drop, <- (view_none b1 Hc), Hf. done.
  - split; [|cbn; by rewrite Hc]. unfold all_turns in *. cbn. rewrite Hc in *. cbn in *. rewrite app_nil_r in *. by apply Forall_take.
Qed.

Lemma compacted_ok h b : builder_ok b → early h b → distinct (view (handle_compacted now_v7 b)) → step_ok h (handle_compacted now_v7 b).
Proof.
  intros [Hi _] He. unfold handle_compacted. pose proof (ensure_shape b) as Hs. pose proof (ensure_early h b Hi He) as Hen. destruct (ensure_turn now_v7 b) as [b' t].
  destruct Hs as (Hts & _ & Hnew). intros Hd. destruct (distinct_current _ _ Hd) as (_ & Hn2 & _). rewrite Hts in Hn2. destruct (Hen (Hnew Hn2)) as (He' & Hc' & Hi' & _).
  destruct He' as (cs & Ha & Hv & Hit). unfold all_turns in Hi'. rewrite Hc' in Hi'. split.
  - exists cs. rewrite Hit. split; [done|]. split; [|done]. rewrite Hv, (view_current b' t Hc'), (view_current (set_current b' _) _ eq_refl). done.
  - split; [|intros ? [= <-]; unfold kept; cbn; by rewrite andb_false_r]. unfold all_turns. cbn. apply Forall_app in Hi' as [H1 H2]. apply Forall_app. split; [done|]. inversion H2. by constructor.
Qed.

Lemma amend_spec f l x l' : amend_reasoning f l = Some (x, l') → ∃ l0 y, l = l0 ++ [y] ∧ l' = l0 ++ [x] ∧ item_id y = item_id x.
Proof.
  unfold amend_reasoning. destruct (last l) as [y|] eqn:E; [|done]. destruct y; try done. destruct (f summary content) as [s' c']. intros [= <- <-].
  destruct l as [|z l] using rev_ind; [done|]. rewrite last_snoc in E. injection E as ->. exists l, (Reasoning id summary content). by rewrite removelast_last.
Qed.

Lemma position_ids id l l' : item_id <$> l = item_id <$> l' → position id l = position id l'.
Proof.
  revert l'. induction l as [|y l IH]; intros [|z l']; cbn; try done. intros [= E1 E2]. rewrite E1, (IH l' E2). done.
Qed.

Lemma reasoning_ok h f text b : builder_ok b → early h b → distinct (view (handle_reasoning now_v7 f text b)) → step_ok h (handle_reasoning now_v7 f text b).
Proof.
  intros Hb He. unfold handle_reasoning. destruct text as [|c text]; [intros _; split; [by apply early_tracked|done]|].
  pose proof (ensure_shape b) as Hs. pose proof (ensure_early h b (proj1 Hb) He) as Hen. pose proof (λ x l, current_change_ok h x (λ t, with_items t l (item_index t)) b ltac:(done) (proj1 Hb) He) as Hcc.
  destruct (ensure_turn now_v7 b) as [b' t]. destruct Hs as (Hts & Hct & Hnew).
  destruct (amend_reasoning f (items t)) as [[x l]|] eqn:Em.
  - intros Hd. apply (Hcc x l); [|done]. intros Hix Hnd. destruct (amend_spec _ _ _ _ Em) as (l0 & y & El & -> & Ey). cbn in *. split.
    + rewrite El. symmetry. apply put_item_last; [|done]. rewrite fmap_app in Hnd. apply NoDup_app in Hnd as (_ & Hnd & _). set_solver.
    + unfold index_ok in *. cbn. destruct (item_index t); [|done]. intros id. rewrite Hix, El. apply position_ids. rewrite !fmap_app. cbn. by rewrite Ey.
  - destruct (f [] []) as [summary content]. cbn [next_item_id]. intros Hd.
    assert (pt_id t ∉ ids (turn_view <$> turns b)) as Hnt.
    { unfold push_item_in_current_turn, ensure_turn in Hd. cbn in Hd. rewrite Hct in Hd. cbn in Hd. destruct (distinct_current b' _ Hd) as (_ & Hn2 & _). by rewrite Hts in Hn2. }
    destruct (Hen (Hnew Hnt)) as (He' & _ & Hi' & _). by apply push_ok.
Qed.

Lemma user_message_ok h p b : builder_ok b → early h b → distinct (view (handle_user_message now_v7 p b)) → step_ok h (handle_user_message now_v7 p b).
Proof.
  intros Hb He. unfold handle_user_message. cbn [next_item_id].
  destruct (current_turn b) as [t|] eqn:Hc; [|intros Hd; by apply push_ok; [apply Hb| |]].
  destruct (negb (opened_explicitly t) && _); intros Hd; apply push_ok; try done; [|by apply finish_early|by apply Hb].
  by apply (finish_view b Hb).
Qed.

Lemma started_ok h id root started b : builder_ok b → early h b → distinct (view (handle_turn_started now_v7 id root started b)) →
  step_ok h (handle_turn_started now_v7 id root started b).
Proof.
  intros Hb He Hd. unfold handle_turn_started in *. cbn zeta in *. set (t := mkTurn _ _ _ _ _ _) in *. destruct (finish_view b Hb) as (Hv & Hc & _).
  destruct (opened_ok h t b Hb He eq_refl eq_refl) as (He' & Hi & _).
  { destruct (distinct_current (record_changed_turn (meta t) (finish_current_turn b)) t Hd) as (_ & Hn & _). by rewrite <- Hv, (view_none _ Hc). }
  split; [by apply early_tracked|]. split; [done|]. by intros ? [= <-].
Qed.

Lemma early_step h b : early h b → builder_ok b → step_ok h b.
Proof. intros He Hb. split; [by apply early_tracked|done]. Qed.

Lemma abort_keeps_id e c d m : turn_id (apply_abort e c d m) = turn_id m.
Proof. done. Qed.

Lemma completion_keeps_id e c d m : turn_id (apply_completion e c d m) = turn_id m.
Proof. unfold apply_completion. destruct e; [done|]. by destruct (status m). Qed.

Lemma aborted_ok h id e c d b : builder_ok b → early h b → distinct (view b) → step_ok h (handle_turn_aborted id e c d b).
Proof.
  intros Hb He Hd. unfold handle_turn_aborted. destruct (change_current_ok h (apply_abort e c d) b (abort_keeps_id e c d) Hb He Hd) as [H1 H2].
  destruct id as [id|]; [|by apply early_step]. destruct (is_current id b); [by apply early_step|].
  destruct (change_finished id (apply_abort e c d) b) as [b'|] eqn:E; cbn; [|by apply early_step].
  destruct (change_finished_ok h id _ b b' (abort_keeps_id e c d) Hb He E). by apply early_step.
Qed.

Lemma complete_ok h id e c d b : builder_ok b → early h b → distinct (view b) → step_ok h (handle_turn_complete id e c d b).
Proof.
  intros Hb He Hd. unfold handle_turn_complete. destruct (change_current_ok h (apply_completion e c d) b (completion_keeps_id e c d) Hb He Hd) as [H1 H2].
  assert (step_ok h (finish_current_turn (change_current (apply_completion e c d) b))) as Hf by (apply early_step; [by apply finish_early|by apply finish_view]).
  destruct (is_current id b); [done|].
  destruct (change_finished id (apply_completion e c d) b) as [b'|] eqn:E; [|destruct (current_turn b); [done|by apply early_step]].
  destruct (change_finished_ok h id _ b b' (completion_keeps_id e c d) Hb He E). by apply early_step.
Qed.

Lemma upsert_for_ok h id x b : builder_ok b → early h b → distinct (view b) → distinct (view (upsert_for now_v7 id x b)) → step_ok h (upsert_for now_v7 id x b).
Proof. intros Hb He Hd Hd'. destruct id; [by apply upsert_ok; [apply Hb| |]|by apply upsert_turn_id_ok]. Qed.

Lemma lifecycle_ok h id (x : TurnItem) b : builder_ok b → early h b → distinct (view b) → distinct (view (handle_materialized_item_lifecycle now_v7 id x b)) →
  step_ok h (handle_materialized_item_lifecycle now_v7 id x b).
Proof.
  intros Hb He Hd. unfold handle_materialized_item_lifecycle. destruct (should_upsert (ti_kind x)); [|intros _; by apply early_step].
  destruct (ti_kind x); intros Hd'; try (by apply upsert_turn_id_ok); by apply review_ok.
Qed.

Lemma guardian_ok h p b : builder_ok b → early h b → distinct (view b) → distinct (view (handle_guardian_assessment now_v7 p b)) →
  step_ok h (handle_guardian_assessment now_v7 p b).
Proof.
  intros Hb He Hd. unfold handle_guardian_assessment. destruct (ga_status p); try (intros _; by apply early_step);
    (destruct (build_item_from_guardian_event p _); [by apply upsert_for_ok|intros _; by apply early_step]).
Qed.

Lemma review_events_ok h (mk : str → ThreadItem) id turn b : builder_ok b → early h b → distinct (view b) →
  (let '(id, b') := match id with Some id => (id, b) | None => next_item_id b end in
   distinct (view (upsert_review_mode_item now_v7 turn (mk id) b')) → step_ok h (upsert_review_mode_item now_v7 turn (mk id) b')).
Proof. intros Hb He Hd. destruct id as [id|]; cbn [next_item_id]; intros Hd'; by apply review_ok. Qed.

Lemma handle_event_ok h e b : builder_ok b → fresh h b → distinct (view b) → distinct (view (handle_event now_v7 e b)) → step_ok h (handle_event now_v7 e b).
Proof.
  intros Hb Hf Hd. pose proof (fresh_early h b Hf) as He. pose proof (proj1 Hb) as Hi.
  destruct e; cbn [handle_event];
    try (intros Hd'; first [by apply upsert_ok | by apply upsert_turn_id_ok | by apply upsert_for_ok | by apply push_ok | by apply user_message_ok | by apply reasoning_ok
      | by apply lifecycle_ok | by apply guardian_ok | by apply rollback_ok | by apply aborted_ok | by apply complete_ok | by apply started_ok | by apply early_step]).
  - unfold handle_agent_message. destruct message; [intros _; by apply early_step|]. cbn [next_item_id]. by apply push_ok.
  - unfold handle_entered_review_mode. pose proof (review_events_ok h (λ id, EnteredReviewMode id (default (lit "Review requested.") user_facing_hint)) item_id turn_id b Hb He Hd) as Hr.
    destruct item_id; exact Hr.
  - unfold handle_exited_review_mode. pose proof (review_events_ok h (λ id, ExitedReviewMode id (review_output_text review_output)) item_id turn_id b Hb He Hd) as Hr.
    destruct item_id; exact Hr.
  - unfold handle_error. destruct (affects_turn_status payload); intros _; [|by apply early_step].
    destruct (change_current_ok h (set_status TurnFailed (Some (turn_error payload))) b ltac:(done) Hb He Hd). by apply early_step.
Qed.

Lemma handle_rollout_item_ok h (x : RolloutItem) b : builder_ok b → fresh h b → distinct (view b) → distinct (view (handle_rollout_item now_v7 x b)) →
  step_ok h (handle_rollout_item now_v7 x b).
Proof.
  intros Hb Hf Hd. unfold handle_rollout_item. destruct x.
  - by apply handle_event_ok.
  - apply compacted_ok; [done|]. by apply fresh_early in Hf.
  - unfold handle_response_item. case_bool_decide; [|intros _; apply early_step; [by apply fresh_early in Hf|done]].
    destruct (parse_hook_prompt_message id content) as [[i fr]|]; [|intros _; apply early_step; [by apply fresh_early in Hf|done]].
    apply push_ok; [apply Hb|by apply fresh_early in Hf].
  - intros _. apply early_step; [by apply fresh_early in Hf|done].
Qed.
End Steps.
