(* ===== verification/HistoryReplay.v ===== *)
(** The change sets of a batch of rollout items are coalesced into one, which does what they do one after
    another; and recording changes does not influence the history. So reading a rollout in batches and
    applying the change set of each gives a client the history that is built from the whole rollout. *)
From S2P Require Import Prelude Str ThreadItems ThreadHistory HistoryClient.

(** * Slots with an index over their keys *)

Section Slots.
Context {A K : Type} `{Countable K} (key : A → K).

(** The first element with the key is replaced, or the element comes last. *)
Fixpoint put_keyed (a : A) (l : list A) : list A :=
  match l with [] => [a] | x :: l => if bool_decide (key x = key a) then a :: l else x :: put_keyed a l end.

Definition slots_ok (l : list (option A)) (m : gmap K nat) : Prop := ∀ k i, m !! k = Some i ↔ ∃ a, l !! i = Some (Some a) ∧ key a = k.

Lemma slots_nil : slots_ok [] ∅.
Proof. intros k i. rewrite lookup_empty, lookup_nil. naive_solver. Qed.

Lemma slots_in l m a : slots_ok l m → a ∈ omap id l ↔ ∃ i, l !! i = Some (Some a) ∧ m !! key a = Some i.
Proof.
  intros Hm. rewrite list_elem_of_omap. split.
  - intros (o & Ho & Ho'). cbn in Ho'. subst o. apply list_elem_of_lookup in Ho as [i Hi]. exists i. split; [done|]. apply Hm. by exists a.
  - intros (i & Hi & _). exists (Some a). split; [|done]. apply list_elem_of_lookup. by exists i.
Qed.

Lemma slots_app l m a : slots_ok l m → m !! key a = None → slots_ok (l ++ [Some a]) (<[key a := length l]> m).
Proof.
  intros Hm Hn k i. destruct (decide (k = key a)) as [->|Hk].
  - rewrite lookup_insert_eq. split.
    + intros [= <-]. exists a. by rewrite list_lookup_middle.
    + intros (x & Hx & Hkx). apply lookup_app_Some in Hx as [Hx|[Hlen Hx]].
      * assert (m !! key a = Some i) as E by (apply Hm; by exists x). congruence.
      * apply list_lookup_singleton_Some in Hx as [Hx _]. f_equal. lia.
  - rewrite lookup_insert_ne by done. rewrite (Hm k i). split; intros (x & Hx & Hkx); exists x; (split; [|done]).
    + by apply lookup_app_l_Some.
    + apply lookup_app_Some in Hx as [Hx|[_ Hx]]; [done|]. apply list_lookup_singleton_Some in Hx as [_ [= <-]]. done.
Qed.

Lemma slots_replace l m a i : slots_ok l m → m !! key a = Some i → slots_ok (<[i := Some a]> l) m.
Proof.
  intros Hm Hi k j. rewrite (Hm k j). apply Hm in Hi as Ho. destruct Ho as (x & Hx & Hkx). assert (i < length l)%nat by (by eapply lookup_lt_Some).
  destruct (decide (i = j)) as [<-|Hij].
  - rewrite list_lookup_insert_eq by done. rewrite Hx. naive_solver.
  - by rewrite list_lookup_insert_ne.
Qed.

Lemma slots_drop l m k i : slots_ok l m → m !! k = Some i → slots_ok (<[i := None]> l) (delete k m).
Proof.
  intros Hm Hi k' j. pose proof Hi as Ho. apply Hm in Ho as (x & Hx & Hkx). assert (i < length l)%nat by (by eapply lookup_lt_Some).
  rewrite lookup_delete_Some, (Hm k' j). destruct (decide (i = j)) as [<-|Hij].
  - rewrite list_lookup_insert_eq by done. rewrite Hx. naive_solver.
  - rewrite list_lookup_insert_ne by done. split; [by intros [_ ?]|]. intros (y & Hy & Hky). split; [|by exists y]. intros <-.
    assert (m !! k = Some j) as E by (apply Hm; by exists y). congruence.
Qed.

(** What the slots hold. *)
Lemma omap_insert (l : list (option A)) i o o' : l !! i = Some o → omap id (<[i := o']> l) = omap id (take i l) ++ option_list o' ++ omap id (drop (S i) l).
Proof.
  intros Hi. rewrite insert_take_drop by (by eapply lookup_lt_Some). rewrite omap_app. cbn. by destruct o'.
Qed.

Lemma omap_split (l : list (option A)) i x : l !! i = Some (Some x) → omap id l = omap id (take i l) ++ x :: omap id (drop (S i) l).
Proof. intros Hi. rewrite <- (take_drop_middle l i (Some x) Hi) at 1. by rewrite omap_app. Qed.

Lemma put_keyed_new a l : (∀ x, x ∈ l → key x ≠ key a) → put_keyed a l = l ++ [a].
Proof. induction l as [|y l IH]; [done|]. intros Hn. cbn. rewrite bool_decide_eq_false_2 by (apply Hn; set_solver). rewrite IH; [done|set_solver]. Qed.

Lemma put_keyed_at a x pre post : (∀ y, y ∈ pre → key y ≠ key a) → key x = key a → put_keyed a (pre ++ x :: post) = pre ++ a :: post.
Proof.
  intros Hn Hx. induction pre as [|y pre IH]; cbn; [by rewrite bool_decide_eq_true_2|]. rewrite bool_decide_eq_false_2 by (apply Hn; set_solver). rewrite IH; [done|set_solver].
Qed.

(** No other slot holds the key. *)
Lemma slots_other l m i x y : slots_ok l m → l !! i = Some (Some x) → y ∈ omap id (take i l) ∨ y ∈ omap id (drop (S i) l) → key y ≠ key x.
Proof.
  intros Hm Hx Hy Hk. assert (m !! key x = Some i) as Ei by (apply Hm; by exists x).
  assert (∃ j, j ≠ i ∧ l !! j = Some (Some y)) as (j & Hj & Hly).
  { destruct Hy as [Hy|Hy]; apply list_elem_of_omap in Hy as (o & Ho & Hoy); cbn in Hoy; subst o; apply list_elem_of_lookup in Ho as [j Hj].
    - apply lookup_take_Some in Hj as [Hj Hlt]. exists j. split; [lia|done].
    - rewrite lookup_drop in Hj. exists (S i + j)%nat. split; [lia|done]. }
  assert (m !! key x = Some j) as Ej by (apply Hm; by exists y). congruence.
Qed.

Lemma slots_put_value l m a : slots_ok l m →
  omap id (match m !! key a with Some i => <[i := Some a]> l | None => l ++ [Some a] end) = put_keyed a (omap id l).
Proof.
  intros Hm. destruct (m !! key a) as [i|] eqn:E.
  - pose proof E as Ho. apply Hm in Ho as (x & Hx & Hkx). rewrite (omap_insert l i (Some x) (Some a) Hx), (omap_split l i x Hx). cbn. symmetry. apply put_keyed_at; [|done].
    intros y Hy. rewrite <- Hkx. apply (slots_other l m i x y Hm Hx). by left.
  - rewrite omap_app. cbn. symmetry. apply put_keyed_new. intros x Hx Hk. apply (slots_in l m x Hm) in Hx as (i & _ & Hi). congruence.
Qed.

Lemma slots_drop_value l m k i : slots_ok l m → m !! k = Some i → omap id (<[i := None]> l) = filter (λ a, key a ≠ k) (omap id l).
Proof.
  intros Hm Hi. pose proof Hi as Ho. apply Hm in Ho as (x & Hx & Hkx). rewrite (omap_insert l i (Some x) None Hx), (omap_split l i x Hx). cbn.
  rewrite filter_app, filter_cons_False by (intros Hn; by apply Hn). rewrite !keep_all; [done| |]; intros y Hy; rewrite <- Hkx; apply (slots_other l m i x y Hm Hx); auto.
Qed.

Lemma slots_keys_nodup l m : slots_ok l m → NoDup (key <$> omap id l).
Proof.
  intros Hm. assert (∀ n, NoDup (key <$> omap id (drop n l))) as Hd; [|by specialize (Hd O)].
  intros n. remember (length l - n)%nat as d eqn:Ed. revert n Ed. induction d as [|d IH]; intros n Ed.
  - rewrite drop_ge by lia. constructor.
  - destruct (lookup_lt_is_Some_2 l n) as [o Ho]; [lia|]. rewrite (drop_S l o n Ho). cbn. destruct o as [x|]; cbn; [|apply IH; lia].
    constructor; [|apply IH; lia]. intros Hin. apply list_elem_of_fmap in Hin as (y & Hk & Hy). apply (slots_other l m n x y Hm Ho); [by right|done].
Qed.
End Slots.

(** * The accumulator *)

Lemma filter_agree {A} (P Q : A → Prop) `{!∀ a, Decision (P a), !∀ a, Decision (Q a)} (l : list A) : (∀ a, a ∈ l → P a ↔ Q a) → filter P l = filter Q l.
Proof.
  induction l as [|a l IH]; [done|]. intros Hi. rewrite !filter_cons, IH by set_solver. pose proof (Hi a ltac:(set_solver)). by destruct (decide (P a)), (decide (Q a)); [|naive_solver|naive_solver|].
Qed.

Definition acc_ok (a : Accumulator) : Prop :=
  slots_ok change_key (acc_items a) (acc_item_indexes a) ∧ slots_ok turn_id (acc_turns a) (acc_turn_indexes a)
  ∧ ∀ id, id ∈ acc_removed a ↔ is_Some (acc_removed_indexes a !! id).

Definition co_item (cs : ChangeSet) (c : ItemChange) : ChangeSet := mkChanges (put_keyed change_key c (changed_items cs)) (changed_turns cs) (removed_turn_ids cs).
Definition co_turn (cs : ChangeSet) (m : TurnMetadata) : ChangeSet := mkChanges (changed_items cs) (put_keyed turn_id m (changed_turns cs)) (removed_turn_ids cs).
Definition co_removed (cs : ChangeSet) (id : str) : ChangeSet :=
  mkChanges (filter (λ c, ic_turn_id c ≠ id) (changed_items cs)) (filter (λ m, turn_id m ≠ id) (changed_turns cs))
    (if bool_decide (id ∈ removed_turn_ids cs) then removed_turn_ids cs else removed_turn_ids cs ++ [id]).

Lemma acc_item_ok a c : acc_ok a → acc_ok (push_item_change a c) ∧ acc_finish (push_item_change a c) = co_item (acc_finish a) c.
Proof.
  intros (Hi & Ht & Hr). pose proof (slots_put_value change_key _ _ c Hi) as Hv. unfold push_item_change, co_item. cbn. rewrite <- Hv.
  destruct (acc_item_indexes a !! change_key c) as [i|] eqn:E; (split; [|done]); split; [by apply slots_replace|done|by apply slots_app|done].
Qed.

Lemma acc_turn_ok a m : acc_ok a → acc_ok (push_turn_change a m) ∧ acc_finish (push_turn_change a m) = co_turn (acc_finish a) m.
Proof.
  intros (Hi & Ht & Hr). pose proof (slots_put_value turn_id _ _ m Ht) as Hv. unfold push_turn_change, co_turn. cbn. rewrite <- Hv.
  destruct (acc_turn_indexes a !! turn_id m) as [i|] eqn:E; (split; [|done]); (split; [done|]); split; [by apply slots_replace|done|by apply slots_app|done].
Qed.

Lemma drop_keys_spec (ks : list (str * str)) l m : slots_ok change_key l m →
  let '(l', m') := foldl (λ '(l, m) k, match m !! k with Some i => (<[i := None]> l, delete k m) | None => (l, m) end) (l, m) ks in
  slots_ok change_key l' m' ∧ omap id l' = filter (λ c, change_key c ∉ ks) (omap id l).
Proof.
  revert l m. induction ks as [|k ks IH]; intros l m Hm; cbn [foldl].
  - split; [done|]. symmetry. apply keep_all. set_solver.
  - destruct (m !! k) as [i|] eqn:E.
    + specialize (IH _ _ (slots_drop change_key l m k i Hm E)). destruct (foldl _ _ ks) as [l' m']. destruct IH as [H1 H2]. split; [done|].
      rewrite H2, (slots_drop_value change_key l m k i Hm E), list_filter_filter. apply filter_agree. set_solver.
    + specialize (IH _ _ Hm). destruct (foldl _ _ ks) as [l' m']. destruct IH as [H1 H2]. split; [done|]. rewrite H2. apply filter_agree.
      intros c Hc. apply (slots_in change_key l m c Hm) in Hc as (i & _ & Hi). assert (change_key c ≠ k) by (intros <-; congruence). set_solver.
Qed.

Lemma drop_item_keys_spec tid a : slots_ok change_key (acc_items a) (acc_item_indexes a) → let '(l, m) := drop_item_keys tid a in
  slots_ok change_key l m ∧ omap Datatypes.id l = filter (λ c, ic_turn_id c ≠ tid) (omap Datatypes.id (acc_items a)).
Proof.
  intros Hm. unfold drop_item_keys. set (ks := List.filter _ _). pose proof (drop_keys_spec ks _ _ Hm) as Hd. destruct (foldl _ _ ks) as [l m]. destruct Hd as [H1 H2].
  split; [done|]. rewrite H2. apply filter_agree. intros c Hc.
  apply (slots_in change_key _ _ c Hm) in Hc as (i & _ & Hi). subst ks.
  assert (change_key c ∈ List.filter (λ k, bool_decide (k.1 = tid)) (fst <$> map_to_list (acc_item_indexes a)) ↔ ic_turn_id c = tid) as Hiff.
  { rewrite list_elem_of_In, filter_In, <- list_elem_of_In, bool_decide_eq_true. split; [by intros [_ ?]|]. intros Hid. split; [|done].
    apply list_elem_of_fmap. exists (change_key c, i). split; [done|]. by apply elem_of_map_to_list. }
  by rewrite Hiff.
Qed.

Lemma acc_removed_ok a tid : acc_ok a → acc_ok (push_removed_turn_id a tid) ∧ acc_finish (push_removed_turn_id a tid) = co_removed (acc_finish a) tid.
Proof.
  intros (Hi & Ht & Hr). unfold push_removed_turn_id, co_removed.
  pose proof (drop_item_keys_spec tid a Hi) as Hd. destruct (drop_item_keys tid a) as [its iix]. destruct Hd as [Hd1 Hd2].
  assert (let '(ts, tix) := match acc_turn_indexes a !! tid with Some i => (<[i := None]> (acc_turns a), delete tid (acc_turn_indexes a)) | None => (acc_turns a, acc_turn_indexes a) end in
    slots_ok turn_id ts tix ∧ omap Datatypes.id ts = filter (λ m, turn_id m ≠ tid) (omap Datatypes.id (acc_turns a))) as Hts.
  { destruct (acc_turn_indexes a !! tid) as [i|] eqn:E; [split; [by apply slots_drop|by apply (slots_drop_value turn_id _ _ tid i Ht E)]|]. split; [done|]. symmetry. apply keep_all.
    intros m Hm. apply (slots_in turn_id _ _ m Ht) in Hm as (i & _ & Hm). intros <-. congruence. }
  destruct (match acc_turn_indexes a !! tid with Some i => _ | None => _ end) as [ts tix]. destruct Hts as [Ht1 Ht2].
  unfold acc_finish at 2. cbn.
  destruct (acc_removed_indexes a !! tid) as [r|] eqn:Er.
  - rewrite bool_decide_eq_true_2 by (apply Hr; by rewrite Er). split; [done|]. unfold acc_finish. cbn. f_equal; [exact Hd2|exact Ht2].
  - rewrite bool_decide_eq_false_2 by (rewrite Hr, Er; by intros [? ?]). split; [|unfold acc_finish; cbn; f_equal; [exact Hd2|exact Ht2]].
    split; [done|]. split; [done|]. cbn. intros id'. rewrite elem_of_app, list_elem_of_singleton, Hr. destruct (decide (id' = tid)) as [->|Hne].
    + rewrite lookup_insert_eq. split; [by eexists|by right].
    + rewrite lookup_insert_ne by done. naive_solver.
Qed.

(** * Coalesced changes do the same *)

Notation put_turns := (foldl (λ h m, put_turn m h)).
Notation put_changes := (foldl (λ h c, put_change c h)).
Notation withouts := (foldl (λ h id, without id h)).

Lemma put_turn_ids m h : ids (put_turn m h) = if bool_decide (turn_id m ∈ ids h) then ids h else ids h ++ [turn_id m].
Proof.
  induction h as [|[m' l] h IH]; cbn; [done|]. fold (ids h). destruct (decide (turn_id m' = turn_id m)) as [E|E].
  - rewrite (bool_decide_eq_true_2 (turn_id m' = turn_id m)) by done. cbn. fold (ids h). rewrite <- E. by rewrite bool_decide_eq_true_2 by apply list_elem_of_here.
  - rewrite (bool_decide_eq_false_2 (turn_id m' = turn_id m)) by done. cbn. fold (ids (put_turn m h)). rewrite IH.
    case_bool_decide as E2; case_bool_decide as E3; try done; set_solver.
Qed.

Lemma put_turn_in m h : turn_id m ∈ ids (put_turn m h).
Proof. rewrite put_turn_ids. case_bool_decide; set_solver. Qed.

Lemma put_turn_incl m h id : id ∈ ids h → id ∈ ids (put_turn m h).
Proof. rewrite put_turn_ids. case_bool_decide; set_solver. Qed.

Lemma put_turn_same m m' h : turn_id m' = turn_id m → put_turn m (put_turn m' h) = put_turn m h.
Proof.
  intros E. induction h as [|[m1 l] h IH]; cbn; [by rewrite bool_decide_eq_true_2|]. rewrite E. case_bool_decide as E1; cbn.
  - by rewrite bool_decide_eq_true_2.
  - rewrite bool_decide_eq_false_2 by done. by rewrite IH.
Qed.

Lemma put_turn_swap m m' h : turn_id m' ≠ turn_id m → turn_id m ∈ ids h → put_turn m (put_turn m' h) = put_turn m' (put_turn m h).
Proof.
  intros Hne. induction h as [|[m1 l] h IH]; cbn; [set_solver|]. intros Hin. case_bool_decide as E1; case_bool_decide as E2; cbn; try congruence.
  - rewrite bool_decide_eq_false_2 by congruence. by rewrite bool_decide_eq_true_2.
  - rewrite bool_decide_eq_true_2 by done. by rewrite bool_decide_eq_false_2.
  - rewrite !bool_decide_eq_false_2 by done. rewrite IH; [done|]. fold (ids h) in Hin. apply elem_of_cons in Hin as [Hin|Hin]; [congruence|done].
Qed.

Lemma put_turns_through m ms h : turn_id m ∉ turn_id <$> ms → turn_id m ∈ ids h → put_turn m (put_turns h ms) = put_turns (put_turn m h) ms.
Proof.
  revert h. induction ms as [|m' ms IH]; intros h Hn Hin; cbn; [done|]. cbn in Hn. rewrite not_elem_of_cons in Hn. destruct Hn as [Hn1 Hn2].
  rewrite IH by (done || by apply put_turn_incl). by rewrite put_turn_swap.
Qed.

Lemma put_turns_keyed m ms h : NoDup (turn_id <$> ms) → put_turns h (put_keyed turn_id m ms) = put_turn m (put_turns h ms).
Proof.
  revert h. induction ms as [|m' ms IH]; intros h Hn; cbn; [done|]. cbn in Hn. apply NoDup_cons in Hn as [Hn1 Hn2]. case_bool_decide as E; cbn.
  - rewrite put_turns_through by (rewrite <- E; done || apply put_turn_in). by rewrite put_turn_same.
  - by apply IH.
Qed.

Lemma put_change_swap_turn m c h : ic_turn_id c ∈ ids h → put_turn m (put_change c h) = put_change c (put_turn m h).
Proof.
  induction h as [|[m1 l] h IH]; cbn; [set_solver|]. intros Hin. case_bool_decide as E1; case_bool_decide as E2; cbn.
  - rewrite bool_decide_eq_true_2 by done. rewrite bool_decide_eq_true_2 by congruence. done.
  - rewrite bool_decide_eq_false_2 by done. by rewrite bool_decide_eq_true_2.
  - rewrite bool_decide_eq_true_2 by done. by rewrite bool_decide_eq_false_2 by congruence.
  - rewrite !bool_decide_eq_false_2 by done. rewrite IH; [done|]. fold (ids h) in Hin. apply elem_of_cons in Hin as [Hin|Hin]; [congruence|done].
Qed.

Lemma put_changes_swap_turn m cs h : Forall (λ c, ic_turn_id c ∈ ids h) cs → put_turn m (put_changes h cs) = put_changes (put_turn m h) cs.
Proof.
  revert h. induction cs as [|c cs IH]; intros h Hf; cbn; [done|]. apply Forall_cons in Hf as [H1 H2]. rewrite IH; [by rewrite put_change_swap_turn|]. by rewrite put_change_ids.
Qed.

Lemma put_item_in x l : item_id x ∈ item_id <$> put_item x l.
Proof. induction l as [|y l IH]; cbn; [set_solver|]. case_bool_decide; cbn; set_solver. Qed.

Lemma put_item_same x y l : item_id y = item_id x → put_item x (put_item y l) = put_item x l.
Proof.
  intros E. induction l as [|z l IH]; cbn; [by rewrite bool_decide_eq_true_2|]. rewrite E. case_bool_decide as E1; cbn.
  - by rewrite bool_decide_eq_true_2.
  - rewrite bool_decide_eq_false_2 by done. by rewrite IH.
Qed.

Lemma put_item_swap x y l : item_id y ≠ item_id x → item_id x ∈ item_id <$> l → put_item x (put_item y l) = put_item y (put_item x l).
Proof.
  intros Hne. induction l as [|z l IH]; cbn; [set_solver|]. intros Hin. case_bool_decide as E1; case_bool_decide as E2; cbn; try congruence.
  - rewrite bool_decide_eq_false_2 by congruence. by rewrite bool_decide_eq_true_2.
  - rewrite bool_decide_eq_true_2 by done. by rewrite bool_decide_eq_false_2.
  - rewrite !bool_decide_eq_false_2 by done. rewrite IH; [done|]. apply elem_of_cons in Hin as [Hin|Hin]; [congruence|done].
Qed.

Lemma put_item_incl x y l : item_id x ∈ item_id <$> l → item_id x ∈ item_id <$> put_item y l.
Proof.
  induction l as [|z l IH]; cbn; [set_solver|]. rewrite elem_of_cons. intros Hin. case_bool_decide as E; cbn; rewrite elem_of_cons; [destruct Hin; [left; congruence|by right]|].
  destruct Hin; [by left|right; by apply IH].
Qed.

(** The item of the change is there, if its turn is. *)
Fixpoint settled (c : ItemChange) (h : history) : Prop :=
  match h with [] => True | (m, l) :: h => if bool_decide (turn_id m = ic_turn_id c) then item_id (ic_item c) ∈ item_id <$> l else settled c h end.

Lemma put_change_settled c c' h : change_key c' = change_key c → settled c (put_change c' h).
Proof.
  intros E. injection E as E1 E2. induction h as [|[m l] h IH]; cbn; [done|]. rewrite E1. case_bool_decide as E3; cbn.
  - rewrite bool_decide_eq_true_2 by done. rewrite <- E2. apply put_item_in.
  - by rewrite bool_decide_eq_false_2.
Qed.

Lemma settled_keeps c c' h : settled c h → settled c (put_change c' h).
Proof.
  induction h as [|[m l] h IH]; cbn; [done|]. case_bool_decide as E1; case_bool_decide as E2; cbn.
  - rewrite bool_decide_eq_true_2 by done. apply put_item_incl.
  - by rewrite bool_decide_eq_true_2.
  - by rewrite bool_decide_eq_false_2.
  - rewrite bool_decide_eq_false_2 by done. done.
Qed.

Lemma put_change_same c c' h : change_key c' = change_key c → put_change c (put_change c' h) = put_change c h.
Proof.
  intros E. injection E as E1 E2. induction h as [|[m l] h IH]; cbn; [done|]. rewrite E1. case_bool_decide as E3; cbn.
  - rewrite bool_decide_eq_true_2 by done. by rewrite put_item_same.
  - rewrite bool_decide_eq_false_2 by done. by rewrite IH.
Qed.

Lemma put_change_swap c c' h : change_key c' ≠ change_key c → settled c h → put_change c (put_change c' h) = put_change c' (put_change c h).
Proof.
  intros Hne. induction h as [|[m l] h IH]; cbn; [done|]. case_bool_decide as E1; case_bool_decide as E2; cbn; intros Hs.
  - rewrite !bool_decide_eq_true_2 by done. f_equal. f_equal. apply put_item_swap; [|done]. intros E. apply Hne. unfold change_key. congruence.
  - rewrite bool_decide_eq_true_2 by done. by rewrite bool_decide_eq_false_2.
  - rewrite bool_decide_eq_false_2 by done. by rewrite bool_decide_eq_true_2.
  - rewrite !bool_decide_eq_false_2 by done. by rewrite IH.
Qed.

Lemma put_changes_through c cs h : change_key c ∉ change_key <$> cs → settled c h → put_change c (put_changes h cs) = put_changes (put_change c h) cs.
Proof.
  revert h. induction cs as [|c' cs IH]; intros h Hn Hs; cbn; [done|]. cbn in Hn. rewrite not_elem_of_cons in Hn. destruct Hn as [Hn1 Hn2].
  rewrite IH by (done || by apply settled_keeps). by rewrite put_change_swap.
Qed.

Lemma put_changes_keyed c cs h : NoDup (change_key <$> cs) → put_changes h (put_keyed change_key c cs) = put_change c (put_changes h cs).
Proof.
  revert h. induction cs as [|c' cs IH]; intros h Hn; cbn [put_keyed foldl]; [done|]. cbn [fmap list_fmap] in Hn. apply NoDup_cons in Hn as [Hn1 Hn2]. case_bool_decide as E; cbn [foldl].
  - rewrite put_changes_through by first [by rewrite <- E|by apply put_change_settled]. by rewrite put_change_same.
  - by apply IH.
Qed.

Lemma without_put_turn id m h : without id (put_turn m h) = if bool_decide (turn_id m = id) then without id h else put_turn m (without id h).
Proof.
  unfold without. induction h as [|[m' l] h IH]; cbn [put_turn].
  - case_bool_decide; [by rewrite filter_cons_False by naive_solver|by rewrite filter_cons_True by done].
  - destruct (decide (turn_id m' = turn_id m)) as [E|E].
    + rewrite (bool_decide_eq_true_2 (turn_id m' = turn_id m)) by done. case_bool_decide as E2.
      * rewrite !filter_cons_False by (cbn; congruence || naive_solver). done.
      * rewrite !filter_cons_True by (cbn; congruence). cbn. by rewrite bool_decide_eq_true_2.
    + rewrite (bool_decide_eq_false_2 (turn_id m' = turn_id m)) by done. rewrite !filter_cons, IH. cbn. destruct (decide (turn_id m' ≠ id)); [|done].
      case_bool_decide; [done|]. cbn. by rewrite bool_decide_eq_false_2.
Qed.

Lemma without_put_change id c h : without id (put_change c h) = if bool_decide (ic_turn_id c = id) then without id h else put_change c (without id h).
Proof.
  unfold without. induction h as [|[m l] h IH]; cbn [put_change]; [by case_bool_decide|].
  destruct (decide (turn_id m = ic_turn_id c)) as [E|E].
  - rewrite (bool_decide_eq_true_2 (turn_id m = ic_turn_id c)) by done. rewrite !filter_cons. cbn. case_bool_decide as E2.
    + destruct (decide (turn_id m ≠ id)); [congruence|done].
    + destruct (decide (turn_id m ≠ id)) as [_|Hn]; [cbn; by rewrite bool_decide_eq_true_2|]. exfalso. apply Hn. congruence.
  - rewrite (bool_decide_eq_false_2 (turn_id m = ic_turn_id c)) by done. rewrite !filter_cons, IH. cbn. destruct (decide (turn_id m ≠ id)); [|done].
    case_bool_decide; [done|]. cbn. by rewrite bool_decide_eq_false_2.
Qed.

(** The history before the items of the changes, and that these have their turns there. *)
Definition base (cs : ChangeSet) (h : history) : history := put_turns (withouts h (removed_turn_ids cs)) (changed_turns cs).
Definition grounded (cs : ChangeSet) (h : history) : Prop := Forall (λ c, ic_turn_id c ∈ ids (base cs h)) (changed_items cs).

Lemma apply_base cs h : apply_changes cs h = put_changes (base cs h) (changed_items cs).
Proof. done. Qed.

Lemma put_changes_ids cs h : ids (put_changes h cs) = ids h.
Proof. revert h. induction cs as [|c cs IH]; intros h; cbn; [done|]. by rewrite IH, put_change_ids. Qed.

Lemma without_turns id ms h : without id (put_turns h ms) = put_turns (without id h) (filter (λ m, turn_id m ≠ id) ms).
Proof.
  revert h. induction ms as [|m ms IH]; intros h; cbn [foldl]; [done|]. rewrite IH, without_put_turn, filter_cons. case_bool_decide as E; destruct (decide (turn_id m ≠ id)); done.
Qed.

Lemma without_changes id cs h : without id (put_changes h cs) = put_changes (without id h) (filter (λ c, ic_turn_id c ≠ id) cs).
Proof.
  revert h. induction cs as [|c cs IH]; intros h; cbn [foldl]; [done|]. rewrite IH, without_put_change, filter_cons. case_bool_decide as E; destruct (decide (ic_turn_id c ≠ id)); done.
Qed.

Lemma removed_base cs id h : base (co_removed cs id) h = without id (base cs h).
Proof.
  unfold base, co_removed. cbn. rewrite without_turns. f_equal. case_bool_decide as E; [|by rewrite foldl_app].
  rewrite !without_fold. unfold without. rewrite list_filter_filter. apply filter_agree. set_solver.
Qed.

Lemma removed_apply cs id h : grounded cs h → grounded (co_removed cs id) h ∧ apply_changes (co_removed cs id) h = without id (apply_changes cs h).
Proof.
  intros Hg. split; [|by rewrite !apply_base, removed_base, without_changes]. unfold grounded in *. rewrite removed_base. cbn. rewrite Forall_forall in *.
  intros c Hc. apply list_elem_of_filter in Hc as [Hne Hc]. specialize (Hg c Hc). unfold ids in *. apply list_elem_of_fmap in Hg as (e & He & Hin).
  apply list_elem_of_fmap. exists e. split; [done|]. apply list_elem_of_filter. split; [|done]. cbn in He. congruence.
Qed.

Lemma turn_apply cs m h : NoDup (turn_id <$> changed_turns cs) → grounded cs h → grounded (co_turn cs m) h ∧ apply_changes (co_turn cs m) h = put_turn m (apply_changes cs h).
Proof.
  intros Hn Hg. assert (base (co_turn cs m) h = put_turn m (base cs h)) as Hb by (by apply put_turns_keyed). split.
  - unfold grounded in *. rewrite Hb. cbn. eapply Forall_impl; [exact Hg|]. intros c. apply put_turn_incl.
  - rewrite !apply_base, Hb. symmetry. by apply put_changes_swap_turn.
Qed.

Lemma item_apply cs c h : NoDup (change_key <$> changed_items cs) → apply_changes (co_item cs c) h = put_change c (apply_changes cs h).
Proof. intros Hn. unfold apply_changes at 1. cbn -[put_keyed]. by rewrite put_changes_keyed. Qed.

Lemma item_grounded cs c h : grounded cs h → ic_turn_id c ∈ ids (base cs h) → grounded (co_item cs c) h.
Proof.
  intros Hg Hc. unfold grounded in *. cbn. rewrite Forall_forall in *. intros x Hx. cut (x ∈ changed_items cs ∨ x = c); [naive_solver|]. clear -Hx.
  induction (changed_items cs) as [|y l IH]; cbn in Hx; [set_solver|]. case_bool_decide; set_solver.
Qed.

Lemma acc_nodup a : acc_ok a → NoDup (turn_id <$> changed_turns (acc_finish a)) ∧ NoDup (change_key <$> changed_items (acc_finish a)).
Proof. intros (Hi & Ht & _). split; [by apply (slots_keys_nodup turn_id _ _ Ht)|by apply (slots_keys_nodup change_key _ _ Hi)]. Qed.

(** An accumulator that turns [h0] into [h]. *)
Definition acc_at (a : Accumulator) (h0 h : history) : Prop := acc_ok a ∧ grounded (acc_finish a) h0 ∧ apply_changes (acc_finish a) h0 = h.

Lemma acc_removed_at l a h0 h : acc_at a h0 h → acc_at (foldl push_removed_turn_id a l) h0 (withouts h l).
Proof.
  revert a h. induction l as [|id l IH]; intros a h Ha; cbn; [done|]. apply IH. destruct Ha as (Hok & Hg & <-). destruct (acc_removed_ok a id Hok) as [H1 H2].
  destruct (removed_apply (acc_finish a) id h0 Hg) as [H3 H4]. split; [done|]. by rewrite H2.
Qed.

Lemma acc_turns_at l a h0 h : acc_at a h0 h → acc_at (foldl push_turn_change a l) h0 (put_turns h l).
Proof.
  revert a h. induction l as [|m l IH]; intros a h Ha; cbn; [done|]. apply IH. destruct Ha as (Hok & Hg & <-). destruct (acc_turn_ok a m Hok) as [H1 H2].
  destruct (turn_apply (acc_finish a) m h0 (proj1 (acc_nodup a Hok)) Hg) as [H3 H4]. split; [done|]. by rewrite H2.
Qed.

Lemma acc_items_at l a h0 h : acc_at a h0 h → Forall (λ c, ic_turn_id c ∈ ids h) l → acc_at (foldl push_item_change a l) h0 (put_changes h l).
Proof.
  revert a h. induction l as [|c l IH]; intros a h Ha Hf; cbn; [done|]. apply Forall_cons in Hf as [Hc Hf]. apply IH; [|by rewrite put_change_ids].
  destruct Ha as (Hok & Hg & <-). destruct (acc_item_ok a c Hok) as [H1 H2]. split; [done|]. rewrite H2. split; [|by apply item_apply, acc_nodup].
  apply item_grounded; [done|]. by rewrite apply_base, put_changes_ids in Hc.
Qed.

Lemma push_swap a c m : push_turn_change (push_item_change a c) m = push_item_change (push_turn_change a m) c.
Proof. unfold push_turn_change, push_item_change. destruct (acc_item_indexes a !! change_key c) eqn:E1, (acc_turn_indexes a !! turn_id m) eqn:E2; cbn; by rewrite ?E1, ?E2. Qed.

Lemma push_all_swap cs ms a : foldl push_turn_change (foldl push_item_change a cs) ms = foldl push_item_change (foldl push_turn_change a ms) cs.
Proof.
  assert (∀ m cs a, push_turn_change (foldl push_item_change a cs) m = foldl push_item_change (push_turn_change a m) cs) as H1.
  { intros m cs'. induction cs' as [|c cs' IH]; intros a'; cbn; [done|]. by rewrite IH, push_swap. }
  revert a. induction ms as [|m ms IH]; intros a; cbn; [done|]. by rewrite H1, IH.
Qed.

Lemma acc_push_at a cs h0 h : acc_at a h0 h → Forall (λ c, ic_turn_id c ∈ ids (apply_changes cs h)) (changed_items cs) → acc_at (acc_push a cs) h0 (apply_changes cs h).
Proof.
  intros Ha Hf. unfold acc_push. rewrite push_all_swap. unfold apply_changes in *. rewrite put_changes_ids in Hf. apply acc_items_at; [|done]. by apply acc_turns_at, acc_removed_at.
Qed.

(** * Recording changes does not influence the history *)

Definition erase (b : Builder) : Builder := set_changes b None.

Section Erase.
Context `{HistoryEnv} (now_v7 : Builder → str).
(** The uuid drawn does not depend on whether changes are recorded. *)
Hypothesis uuid_blind : ∀ b cs, now_v7 (set_changes b cs) = now_v7 b.
Implicit Types (b : Builder) (x : ThreadItem).

Lemma erase_new_turn o b : new_turn now_v7 o (erase b) = new_turn now_v7 o b.
Proof. unfold new_turn, erase. by rewrite uuid_blind. Qed.

Lemma erase_finish b : finish_current_turn (erase b) = erase (finish_current_turn b).
Proof. unfold finish_current_turn, erase. cbn. destruct (current_turn b) as [t|]; [|done]. by destruct (kept t). Qed.

Lemma erase_ensure b : ensure_turn now_v7 (erase b) = (erase (fst (ensure_turn now_v7 b)), snd (ensure_turn now_v7 b)).
Proof. unfold ensure_turn. rewrite erase_new_turn. cbn. by destruct (current_turn b). Qed.

Lemma erase_next b : next_item_id (erase b) = (fst (next_item_id b), erase (snd (next_item_id b))).
Proof. done. Qed.

Lemma erase_push x b : push_item_in_current_turn now_v7 x (erase b) = erase (push_item_in_current_turn now_v7 x b).
Proof. unfold push_item_in_current_turn. rewrite erase_ensure. by destruct (ensure_turn now_v7 b). Qed.

Lemma erase_upsert x b : upsert_item_in_current_turn now_v7 x (erase b) = erase (upsert_item_in_current_turn now_v7 x b).
Proof. unfold upsert_item_in_current_turn. rewrite erase_ensure. by destruct (ensure_turn now_v7 b). Qed.

Lemma erase_turn_id id x b : upsert_item_in_turn_id id x (erase b) = erase (upsert_item_in_turn_id id x b).
Proof.
  unfold upsert_item_in_turn_id, erase. cbn. destruct (update_turn id _ (turns b)) as [[u ts]|], (current_turn b) as [t|]; try done; by case_bool_decide.
Qed.

Lemma erase_for id x b : upsert_for now_v7 id x (erase b) = erase (upsert_for now_v7 id x b).
Proof. destruct id; [apply erase_upsert|apply erase_turn_id]. Qed.

Lemma erase_review o x b : upsert_review_mode_item now_v7 o x (erase b) = erase (upsert_review_mode_item now_v7 o x b).
Proof.
  destruct o as [id|]; [|apply erase_upsert]. unfold upsert_review_mode_item. rewrite erase_finish. cbn [erase set_changes turns current_turn].
  destruct (_ && _); [|apply erase_turn_id]. rewrite <- erase_turn_id. f_equal.
Qed.

Lemma erase_user p b : handle_user_message now_v7 p (erase b) = erase (handle_user_message now_v7 p b).
Proof.
  unfold handle_user_message. rewrite erase_finish. cbn [current_turn erase set_changes]. fold (erase b).
  destruct (current_turn b) as [t|]; [destruct (_ && _)|]; rewrite erase_next; apply erase_push.
Qed.

Lemma erase_reasoning f text b : handle_reasoning now_v7 f text (erase b) = erase (handle_reasoning now_v7 f text b).
Proof.
  unfold handle_reasoning. destruct text; [done|]. rewrite erase_ensure. destruct (ensure_turn now_v7 b) as [b' t]. cbn [fst snd].
  destruct (amend_reasoning f (items t)) as [[x l]|]; [done|]. rewrite erase_next. cbn [fst snd next_item_id]. destruct (f [] []). apply (erase_push _ (set_next_item b' _)).
Qed.

Lemma erase_current f b : change_current f (erase b) = erase (change_current f b).
Proof. unfold change_current. cbn. by destruct (current_turn b). Qed.

Lemma erase_finished id f b : change_finished id f (erase b) = erase <$> change_finished id f b.
Proof. unfold change_finished. cbn. by destruct (update_turn id _ (turns b)) as [[u ts]|]. Qed.

Lemma erase_lifecycle id i b : handle_materialized_item_lifecycle now_v7 id i (erase b) = erase (handle_materialized_item_lifecycle now_v7 id i b).
Proof.
  unfold handle_materialized_item_lifecycle. destruct (should_upsert (ti_kind i)); [|done]. destruct (ti_kind i); first [apply erase_turn_id|apply erase_review].
Qed.

Lemma erase_complete id e c d b : handle_turn_complete id e c d (erase b) = erase (handle_turn_complete id e c d b).
Proof.
  unfold handle_turn_complete. rewrite erase_finished, erase_current, erase_finish. change (is_current id (erase b)) with (is_current id b).
  destruct (is_current id b); [done|]. destruct (change_finished id _ b); [done|]. cbn. by destruct (current_turn b).
Qed.

Lemma erase_aborted o e c d b : handle_turn_aborted o e c d (erase b) = erase (handle_turn_aborted o e c d b).
Proof.
  unfold handle_turn_aborted. rewrite erase_current. destruct o as [id|]; [|done]. rewrite erase_finished. change (is_current id (erase b)) with (is_current id b).
  destruct (is_current id b); [done|]. by destruct (change_finished id _ b).
Qed.

Lemma erase_event e b : handle_event now_v7 e (erase b) = erase (handle_event now_v7 e b).
Proof.
  destruct e; cbn [handle_event];
    try (first [apply erase_upsert | apply erase_turn_id | apply erase_for | apply erase_user | apply erase_reasoning | apply erase_lifecycle | apply erase_complete | apply erase_aborted | done]).
  - unfold handle_agent_message. destruct message; [done|]. rewrite erase_next. apply erase_push.
  - unfold handle_guardian_assessment. destruct (ga_status payload); try done; (destruct (build_item_from_guardian_event payload _); [apply erase_for|done]).
  - rewrite erase_next. apply erase_push.
  - unfold handle_entered_review_mode. destruct item_id; [apply erase_review|]. rewrite erase_next. apply erase_review.
  - unfold handle_exited_review_mode. destruct item_id; [apply erase_review|]. rewrite erase_next. apply erase_review.
  - unfold handle_error. destruct (affects_turn_status payload); [apply erase_current|done].
  - unfold handle_thread_rollback. by rewrite erase_finish.
  - unfold handle_turn_started. by rewrite erase_finish.
Qed.

Lemma erase_rollout (i : RolloutItem) b : handle_rollout_item now_v7 i (erase b) = erase (handle_rollout_item now_v7 i b).
Proof.
  unfold handle_rollout_item. set (b1 := mkBuilder (turns b) _ _ _ _ (active_change_set b)).
  assert (mkBuilder (turns (erase b)) (current_turn (erase b)) (next_item_index (erase b)) (next_rollout_index (erase b)) (S (next_rollout_index (erase b))) (active_change_set (erase b))
    = erase b1) as -> by done. destruct i as [e|p|id role content|o]; [apply erase_event| | |done].
  - unfold handle_compacted. rewrite erase_ensure. by destruct (ensure_turn now_v7 b1).
  - unfold handle_response_item. case_bool_decide; [|done]. destruct (parse_hook_prompt_message id content) as [[i fr]|]; [apply erase_push|done].
Qed.

(** Handling with changes is handling. *)
Lemma with_changes_same (i : RolloutItem) b : active_change_set b = None → snd (handle_rollout_item_with_changes now_v7 i b) = handle_rollout_item now_v7 i b.
Proof.
  intros Hn. unfold handle_rollout_item_with_changes, collect_changes. cbn [snd]. fold (erase (handle_rollout_item now_v7 i (set_changes b (Some no_changes)))).
  rewrite <- erase_rollout. f_equal. destruct b. cbn in *. by subst.
Qed.
End Erase.

(** * Batches *)

Section Batches.
Context `{HistoryEnv} (now_v7 : Builder → str).
Hypothesis uuid_blind : ∀ b cs, now_v7 (set_changes b cs) = now_v7 b.
Implicit Types (b : Builder) (l : list RolloutItem).

(** Ids stay distinct through the items. *)
Fixpoint stays_distinct l b : Prop := distinct (view b) ∧ match l with [] => True | i :: l => stays_distinct l (handle_rollout_item now_v7 i b) end.

Definition builder_at b : Prop := builder_ok b ∧ active_change_set b = None.

Lemma one_item i b : builder_at b → distinct (view b) → distinct (view (handle_rollout_item now_v7 i b)) →
  ∃ cs, handle_rollout_item_with_changes now_v7 i b = (cs, handle_rollout_item now_v7 i b) ∧ builder_at (handle_rollout_item now_v7 i b)
    ∧ apply_changes cs (view b) = view (handle_rollout_item now_v7 i b) ∧ Forall (λ c, ic_turn_id c ∈ ids (view (handle_rollout_item now_v7 i b))) (changed_items cs).
Proof.
  intros [Hb Hn] Hd. rewrite <- (with_changes_same now_v7 uuid_blind i b Hn). unfold handle_rollout_item_with_changes, collect_changes. cbn [snd]. intros Hd'.
  destruct (handle_rollout_item_ok now_v7 (view b) i (set_changes b (Some no_changes))) as [(cs & Ha & Hv & Hf) Hok]; [done|by split|done|exact Hd'|].
  rewrite Ha. exists cs. split; [done|]. split; [by split; [exact Hok|]|]. split; [exact Hv|exact Hf].
Qed.

Lemma push_items_at l a h0 b : builder_at b → stays_distinct l b → acc_at a h0 (view b) →
  let b' := foldl (λ b i, handle_rollout_item now_v7 i b) b l in
  ∃ a', push_rollout_items now_v7 l a b = (a', b') ∧ builder_at b' ∧ acc_at a' h0 (view b').
Proof.
  cbn zeta. revert a b. induction l as [|i l IH]; intros a b Hb [Hd Hl] Ha; cbn [push_rollout_items foldl]; [by exists a|].
  destruct (one_item i b Hb Hd) as (cs & -> & Hb' & Hap & Hf); [by destruct l; destruct Hl|].
  apply IH; [done|done|]. rewrite <- Hap. apply acc_push_at; [done|]. by rewrite Hap.
Qed.

Lemma stays_distinct_app l1 l2 b : stays_distinct (l1 ++ l2) b → stays_distinct l1 b ∧ stays_distinct l2 (foldl (λ b i, handle_rollout_item now_v7 i b) b l1).
Proof.
  revert b. induction l1 as [|i l1 IH]; intros b; cbn [app foldl stays_distinct]; [|naive_solver]. intros Hs. split; [|done]. split; [|done]. by destruct l2; destruct Hs.
Qed.

Lemma empty_at h : acc_at empty_acc h h.
Proof. split; [split; [apply slots_nil|split; [apply slots_nil|]]|split; [constructor|done]]. intros id. cbn. rewrite lookup_empty. split; [set_solver|by intros [? ?]]. Qed.

(** A client that reads the rollout in batches. *)
Definition client_step (st : list (TurnMetadata * list ThreadItem) * Builder) l : list (TurnMetadata * list ThreadItem) * Builder :=
  let '(cs, b) := handle_rollout_items_with_changes now_v7 l (snd st) in (apply_changes cs (fst st), b).

Lemma client_at ls b : builder_at b → stays_distinct (concat ls) b →
  let b' := foldl (λ b i, handle_rollout_item now_v7 i b) b (concat ls) in
  foldl client_step (view b, b) ls = (view b', b') ∧ builder_at b'.
Proof.
  cbn zeta. revert b. induction ls as [|l ls IH]; intros b Hb Hs; cbn [concat foldl]; [done|]. cbn [concat] in Hs. apply stays_distinct_app in Hs as [Hs1 Hs2].
  destruct (push_items_at l empty_acc (view b) b Hb Hs1 (empty_at _)) as (a' & Hp & Hb' & _ & _ & Hap).
  unfold client_step at 2. unfold handle_rollout_items_with_changes. cbn [fst snd]. rewrite Hp, Hap, foldl_app. by apply IH.
Qed.

(** C21: a client that starts empty and, for every batch of the rollout, applies the one coalesced change
    set the builder reports for it, ends up with exactly the turns, their metadata and their items in the
    order in which they are built from the whole rollout, as long as turns, and the items of a turn, have
    ids of their own. Turns rolled back, reopened, completed late or changed several times in a batch are
    included, and no turn that was reported is dropped when it is closed. *)
Theorem change_sets_replay ls : stays_distinct (concat ls) new_builder →
  fst (foldl client_step ([], new_builder) ls) = turn_view <$> build_turns_from_rollout_items now_v7 (concat ls).
Proof.
  intros Hs. assert (builder_at new_builder) as Hb by (split; [split; [constructor|done]|done]).
  destruct (client_at ls new_builder Hb Hs) as [Hc [Hok _]]. change (view new_builder) with (@nil (TurnMetadata * list ThreadItem)) in Hc. rewrite Hc. cbn [fst].
  unfold build_turns_from_rollout_items, finish. destruct (finish_view _ Hok) as (Hv & Hcur & _). rewrite <- (view_none _ Hcur). by rewrite Hv.
Qed.
End Batches.

(** A late completion, a rollback and a reasoning in two parts, in two batches. *)
#[local] Instance plain_env : HistoryEnv := {
  from_raw c _ _ := (concat c, []); shlex_join c := concat c; parse_actions _ _ := []; render_review_output_text o := o; parse_hook_prompt_message _ _ := None
}.

Definition say (message : str) : RolloutItem := RiEvent (EvUserMessage (mkUserMessage None message None [] None [] [] [] [] None [] [])).
Definition run_ls : ExecCommandEvent := mkExec (lit "call-1") (lit "t1") None None [lit "ls"] [] (lit "/") None (lit "agent").

Definition batches : list (list RolloutItem) :=
  [[RiEvent (EvTurnStarted (lit "t1") None None); say (lit "list"); RiEvent (EvExecCommandBegin run_ls); RiEvent (EvTurnComplete (lit "t1") None None (Some 5%Z))];
   [RiEvent (EvTurnStarted (lit "t2") None None); say (lit "oops"); RiEvent (EvExecCommandEnd (mkExecEnd run_ls CmdCompleted (lit "a b") 0 12));
    RiEvent (EvThreadRolledBack 1); RiEvent (EvTurnStarted (lit "t3") None None); RiEvent (EvAgentReasoning (lit "first")); RiEvent (EvAgentReasoning (lit "then"))]].

Definition no_uuid (b : Builder) : str := lit "uuid".

Ltac distinct_by_computation := repeat (split; [split; [apply (bool_decide_unpack _); by vm_compute|apply (bool_decide_unpack _); by vm_compute]|]).

Lemma change_sets_replay_witness :
  stays_distinct no_uuid (concat batches) new_builder
  ∧ fst (foldl (client_step no_uuid) ([], new_builder) batches) = turn_view <$> build_turns_from_rollout_items no_uuid (concat batches)
  ∧ (turn_id ∘ meta <$> build_turns_from_rollout_items no_uuid (concat batches)) = [lit "t1"; lit "t3"]
  ∧ (length ∘ items <$> build_turns_from_rollout_items no_uuid (concat batches)) = [2; 1]%nat.
Proof.
  assert (stays_distinct no_uuid (concat batches) new_builder) as Hs.
  { unfold batches. cbn [concat app stays_distinct]. distinct_by_computation. exact I. }
  split; [exact Hs|]. split; [exact (change_sets_replay no_uuid (λ _ _, eq_refl) batches Hs)|]. by split; vm_compute.
Defined.
