(* ===== verification/McpTools.v ===== *)
(** The catalog of MCP tools: pages are collected within limits (codex-mcp/src/pagination.rs), tools are
    filtered, and get the names under which a model sees them (codex-mcp/src/tools.rs, and the
    sanitisation of codex-mcp/src/mcp/mod.rs). The hash of names is the parameter [sha1_hex]; the server
    that answers with pages is [fetch]; the timeout around the collection is left out. *)
From stdpp Require Import pretty.
From S2P Require Import Prelude Str.
Open Scope N_scope.

(** * Pages *)

Definition MAX_MCP_CATALOG_PAGES : nat := 100.
Definition MAX_MCP_CATALOG_ITEMS : nat := 2048.
Definition MAX_MCP_PAGINATION_CURSOR_BYTES : N := 64 * 1024.

Inductive PageError := FetchFailed (message : str) | TooManyPages | TooManyItems | CursorTooLong | RepeatedCursor.

Section Pages.
Context {T : Type} (max_items : nat) (fetch : option str → list T * option str + str).

(** [pages] is what is left of the limit. *)
Fixpoint collect_from (pages : nat) (collected : list T) (cursor : option str) (seen : list str) : list T + PageError :=
  match pages with
  | O => inr TooManyPages
  | S pages =>
      match fetch cursor with
      | inr message => inr (FetchFailed message)
      | inl (items, next) =>
          if (max_items - length collected <? length items)%nat then inr TooManyItems
          else
            let collected := collected ++ items in
            match next with
            | None => inl collected
            | Some next =>
                if MAX_MCP_PAGINATION_CURSOR_BYTES <? blen next then inr CursorTooLong
                else if bool_decide (next ∈ seen) then inr RepeatedCursor
                else collect_from pages collected (Some next) (next :: seen)
            end
      end
  end.

Definition collect_paginated_with_limit : list T + PageError := collect_from MAX_MCP_CATALOG_PAGES [] None [].
End Pages.

Definition collect_paginated {T} (fetch : option str → list T * option str + str) : list T + PageError := collect_paginated_with_limit MAX_MCP_CATALOG_ITEMS fetch.

(** * Tools *)

(** [tool_name] is the name in the raw definition; [details] are the fields that are only carried. *)
Record ToolInfo := mkTool {
  server_name : str;
  callable_name : str;
  callable_namespace : str;
  tool_name : str;
  connector_id : option str;
  details : str
}.

Record ToolFilter := mkFilter { enabled : option (gset str); disabled : gset str }.

Definition from_config (enabled_tools disabled_tools : option (list str)) : ToolFilter :=
  mkFilter (list_to_set <$> enabled_tools) (match disabled_tools with Some l => list_to_set l | None => ∅ end).

Definition allows (f : ToolFilter) (name : str) : bool :=
  match enabled f with Some e => bool_decide (name ∈ e) | None => true end && negb (bool_decide (name ∈ disabled f)).

Definition filter_tools (tools : list ToolInfo) (f : ToolFilter) : list ToolInfo := List.filter (λ t, allows f (tool_name t)) tools.

(** * Names *)

Definition UNDERSCORE : N := 95.
Definition name_char (c : N) : bool := is_ascii_alphanumeric c || (c =? UNDERSCORE).

Definition sanitize_responses_api_tool_name (name : str) : str :=
  match (λ c, if name_char c then c else UNDERSCORE) <$> name with [] => lit "_" | s => s end.

Definition LEGACY_MCP_TOOL_NAME_PREFIX : str := lit "mcp__".
Definition MCP_TOOL_NAME_DELIMITER : str := lit "__".
Definition MAX_TOOL_NAME_LENGTH : nat := 128.
Definition CALLABLE_NAME_HASH_LEN : nat := 12.

Definition callable_namespace_with_prefix (namespace : str) (prefix : bool) : str :=
  if negb prefix || starts_with LEGACY_MCP_TOOL_NAME_PREFIX namespace then namespace else LEGACY_MCP_TOOL_NAME_PREFIX ++ namespace.

(** The NUL character separates the parts of an identity. *)
Definition raw_namespace_identity (t : ToolInfo) : str := server_name t ++ [0] ++ callable_namespace t ++ [0] ++ default [] (connector_id t).
Definition raw_tool_identity (t : ToolInfo) : str := raw_namespace_identity t ++ [0] ++ callable_name t ++ [0] ++ tool_name t.

(** The first tool of every identity. *)
Fixpoint first_of_each (seen : list str) (tools : list ToolInfo) : list ToolInfo :=
  match tools with
  | [] => []
  | t :: tools => let id := raw_tool_identity t in if bool_decide (id ∈ seen) then first_of_each seen tools else t :: first_of_each (id :: seen) tools
  end.

Record Candidate := mkCandidate { cand_tool : ToolInfo; cand_ns_identity : str; cand_identity : str; cand_namespace : str; cand_name : str }.

Section Names.
Context (sha1_hex : str → str).

Definition candidate (prefix_names : bool) (non_prefixed : list str) (t : ToolInfo) : Candidate :=
  mkCandidate t (raw_namespace_identity t) (raw_tool_identity t)
    (callable_namespace_with_prefix (sanitize_responses_api_tool_name (callable_namespace t)) (prefix_names && negb (bool_decide (server_name t ∈ non_prefixed))))
    (sanitize_responses_api_tool_name (callable_name t)).

Definition callable_name_hash_suffix (raw_identity : str) : str := lit "_" ++ take CALLABLE_NAME_HASH_LEN (sha1_hex raw_identity).

Definition append_hash_suffix (value raw_identity : str) : str := value ++ callable_name_hash_suffix raw_identity.

Definition append_namespace_hash_suffix (namespace raw_identity : str) : str :=
  match strip_suffix MCP_TOOL_NAME_DELIMITER namespace with
  | Some n => n ++ callable_name_hash_suffix raw_identity ++ MCP_TOOL_NAME_DELIMITER
  | None => append_hash_suffix namespace raw_identity
  end.

(** More than one identity among those that [p] selects. *)
Definition collides (p : Candidate → bool) (identity : Candidate → str) (cs : list Candidate) : bool := (1 <? length (remove_dups (identity <$> List.filter p cs)))%nat.

Definition separate_namespaces (cs : list Candidate) : list Candidate :=
  (λ c, if collides (λ d, bool_decide (cand_namespace d = cand_namespace c)) cand_ns_identity cs then
      mkCandidate (cand_tool c) (cand_ns_identity c) (cand_identity c) (append_namespace_hash_suffix (cand_namespace c) (cand_ns_identity c)) (cand_name c)
    else c) <$> cs.

Definition separate_names (cs : list Candidate) : list Candidate :=
  (λ c, if collides (λ d, bool_decide (cand_namespace d = cand_namespace c ∧ cand_name d = cand_name c)) cand_identity cs then
      mkCandidate (cand_tool c) (cand_ns_identity c) (cand_identity c) (cand_namespace c) (append_hash_suffix (cand_name c) (cand_identity c))
    else c) <$> cs.

Definition fit_callable_parts_with_hash (namespace name raw_identity : str) (reserved : nat) : str * str :=
  let suffix := callable_name_hash_suffix raw_identity in
  let max_tool_len := (MAX_TOOL_NAME_LENGTH - (N.to_nat (blen namespace) + reserved))%nat in
  let suffix_len := N.to_nat (blen suffix) in
  if (suffix_len <=? max_tool_len)%nat then (namespace, take (max_tool_len - suffix_len) name ++ suffix)
  else (take (MAX_TOOL_NAME_LENGTH - (suffix_len + reserved)) namespace, suffix).

Definition hash_input (raw_identity : str) (attempt : N) : str := if attempt =? 0 then raw_identity else raw_identity ++ [0] ++ lit (pretty attempt).

Definition u32_max : N := 4294967295.

(** The names tried from [attempt] on. *)
Fixpoint try_names (fuel : nat) (namespace name raw_identity : str) (used : gset str) (reserved : nat) (attempt : N) : option (str * str) :=
  match fuel with
  | O => None
  | S fuel =>
      let '(ns, n) := fit_callable_parts_with_hash namespace name (hash_input raw_identity attempt) reserved in
      if bool_decide (ns ++ n ∈ used) then try_names fuel namespace name raw_identity used reserved (N.min (attempt + 1) u32_max) else Some (ns, n)
  end.

(** The parts, and the used names with theirs. *)
Definition unique_callable_parts (fuel : nat) (namespace name raw_identity : str) (used : gset str) (reserved : nat) : option (str * str * gset str) :=
  let model_name := namespace ++ name in
  if (N.to_nat (blen model_name) + reserved <=? MAX_TOOL_NAME_LENGTH)%nat && bool_decide (model_name ∉ used) then Some (namespace, name, {[ model_name ]} ∪ used)
  else (λ '(ns, n), (ns, n, {[ ns ++ n ]} ∪ used)) <$> try_names fuel namespace name raw_identity used reserved 0.

Definition renamed (t : ToolInfo) (namespace name : str) : ToolInfo := mkTool (server_name t) name namespace (tool_name t) (connector_id t) (details t).

Fixpoint name_all (fuel : nat) (cs : list Candidate) (used : gset str) : option (list ToolInfo) :=
  match cs with
  | [] => Some []
  | c :: cs =>
      match unique_callable_parts fuel (cand_namespace c) (cand_name c) (cand_identity c) used (N.to_nat (blen MCP_TOOL_NAME_DELIMITER)) with
      | Some (ns, n, used) => (λ l, renamed (cand_tool c) ns n :: l) <$> name_all fuel cs used
      | None => None
      end
  end.

(** [normalize_tools_for_model_with_prefix] *)
Definition normalize_tools_for_model_with_prefix (fuel : nat) (tools : list ToolInfo) (prefix_names : bool) (non_prefixed : list str) : option (list ToolInfo) :=
  let cs := candidate prefix_names non_prefixed <$> first_of_each [] tools in
  name_all fuel (sort_by_key cand_identity (separate_names (separate_namespaces cs))) ∅.
End Names.

(** * What is collected *)

(** [ps] are the pages the server gives from [cursor] on, down to the last. *)
Fixpoint pages_of {T} (fetch : option str → list T * option str + str) (cursor : option str) (ps : list (list T)) : Prop :=
  match ps with
  | [] => False
  | p :: ps => match fetch cursor with
    | inl (items, None) => items = p ∧ ps = []
    | inl (items, Some next) => items = p ∧ pages_of fetch (Some next) ps
    | inr _ => False
    end
  end.

Lemma collect_from_sound {T} max_items (fetch : option str → list T * option str + str) n collected cursor seen l :
  collect_from max_items fetch n collected cursor seen = inl l → (length collected ≤ max_items)%nat →
  ∃ ps, pages_of fetch cursor ps ∧ l = collected ++ concat ps ∧ (length ps ≤ n)%nat ∧ (length l ≤ max_items)%nat.
Proof.
  revert collected cursor seen. induction n as [|n IH]; intros collected cursor seen; cbn [collect_from]; [done|].
  destruct (fetch cursor) as [[items next]|] eqn:Ef; [|done]. destruct (_ <? length items)%nat eqn:El; [done|]. apply Nat.ltb_ge in El.
  destruct next as [next|].
  - destruct (_ <? blen next); [done|]. case_bool_decide; [done|]. intros Hc Hl. destruct (IH _ _ _ Hc) as (ps & Hp & -> & Hn & Hm); [rewrite length_app; lia|].
    exists (items :: ps). cbn. rewrite Ef. rewrite <- app_assoc in *. split_and!; try done. lia.
  - intros [= <-] Hl. exists [items]. cbn. rewrite Ef, app_nil_r, length_app. split_and!; try done; lia.
Qed.

(** What is collected are the server's pages to the last, at most a hundred, and within the limit. *)
Theorem catalog_complete_and_bounded {T} max_items (fetch : option str → list T * option str + str) l :
  collect_paginated_with_limit max_items fetch = inl l →
  ∃ ps, pages_of fetch None ps ∧ l = concat ps ∧ (length ps ≤ MAX_MCP_CATALOG_PAGES)%nat ∧ (length l ≤ max_items)%nat.
Proof. intros Hc. destruct (collect_from_sound _ _ _ _ _ _ _ Hc) as (ps & ? & -> & ? & ?); [cbn; lia|]. by exists ps. Qed.

(** * Names *)

Definition valid_name (s : str) : bool := forallb name_char s.

Lemma name_char_width c : name_char c = true → len_utf8 c = 1.
Proof.
  unfold name_char, is_ascii_alphanumeric, is_ascii_alphabetic, is_ascii_upper, is_ascii_lower, is_ascii_digit, UNDERSCORE, len_utf8.
  intros Hc. destruct (c <? 128) eqn:E; [done|]. apply N.ltb_ge in E. exfalso.
  repeat match goal with H : context [?a <=? ?b] |- _ => destruct (N.leb_spec a b) | H : context [?a =? ?b] |- _ => destruct (N.eqb_spec a b) end; cbn in Hc; try done; lia.
Qed.

Lemma valid_blen s : valid_name s = true → N.to_nat (blen s) = length s.
Proof.
  induction s as [|c s IH]; cbn; [done|]. rewrite andb_true_iff. intros [Hc Hs]. rewrite (name_char_width c Hc). specialize (IH Hs). lia.
Qed.

Lemma valid_app s t : valid_name (s ++ t) = valid_name s && valid_name t.
Proof. apply forallb_app. Qed.

Lemma valid_take n s : valid_name s = true → valid_name (take n s) = true.
Proof. unfold valid_name. rewrite !forallb_forall. intros Hs c Hc. apply Hs. rewrite <- (take_drop n s). apply in_or_app. by left. Qed.

Lemma sanitize_valid s : valid_name (sanitize_responses_api_tool_name s) = true.
Proof.
  unfold sanitize_responses_api_tool_name. assert (valid_name ((λ c, if name_char c then c else UNDERSCORE) <$> s) = true) as Hv.
  { induction s as [|c s IH]; [done|]. cbn. destruct (name_char c) eqn:E; [by rewrite E|done]. }
  destruct (_ <$> s); [done|exact Hv].
Qed.

Lemma prefix_valid ns b : valid_name ns = true → valid_name (callable_namespace_with_prefix ns b) = true.
Proof. intros Hn. unfold callable_namespace_with_prefix. destruct (_ || _); [done|]. rewrite valid_app. by rewrite Hn. Qed.

Section Names.
Context (sha1_hex : str → str).
(** A hash is written with forty hexadecimal digits. *)
Hypothesis sha1_shape : ∀ s, length (sha1_hex s) = 40%nat ∧ forallb is_ascii_alphanumeric (sha1_hex s) = true.

Notation suffix := (callable_name_hash_suffix sha1_hex).

Lemma suffix_valid s : valid_name (suffix s) = true.
Proof.
  unfold callable_name_hash_suffix. rewrite valid_app. cbn [andb]. apply valid_take. destruct (sha1_shape s) as [_ Hs]. unfold valid_name. rewrite forallb_forall in *.
  intros c Hc. unfold name_char. by rewrite (Hs c Hc).
Qed.

Lemma suffix_length s : length (suffix s) = 13%nat.
Proof. unfold callable_name_hash_suffix. rewrite length_app, length_take. destruct (sha1_shape s) as [-> _]. done. Qed.

(** A pair of parts is fit for a model. *)
Definition fits (reserved : nat) (p : str * str) : Prop := valid_name (p.1 ++ p.2) = true ∧ (length (p.1 ++ p.2) + reserved ≤ MAX_TOOL_NAME_LENGTH)%nat.

Lemma fit_ok ns n id reserved : valid_name ns = true → valid_name n = true → (reserved ≤ 100)%nat → fits reserved (fit_callable_parts_with_hash sha1_hex ns n id reserved).
Proof.
  intros Hns Hn Hr. unfold fit_callable_parts_with_hash. rewrite (valid_blen ns Hns), (valid_blen _ (suffix_valid id)), suffix_length. unfold fits, MAX_TOOL_NAME_LENGTH.
  destruct (13 <=? 128 - (length ns + reserved))%nat eqn:E; cbn [fst snd].
  - apply Nat.leb_le in E. rewrite !valid_app, Hns, (valid_take _ _ Hn), suffix_valid. split; [done|]. rewrite !length_app, length_take, suffix_length. lia.
  - rewrite valid_app, (valid_take _ _ Hns), suffix_valid. split; [done|]. rewrite length_app, length_take, suffix_length. lia.
Qed.

(** Names with different hashes differ. *)
Lemma fit_inj ns n id1 id2 reserved : let p1 := fit_callable_parts_with_hash sha1_hex ns n id1 reserved in let p2 := fit_callable_parts_with_hash sha1_hex ns n id2 reserved in
  p1.1 ++ p1.2 = p2.1 ++ p2.2 → suffix id1 = suffix id2.
Proof.
  cbn zeta. unfold fit_callable_parts_with_hash. rewrite !(valid_blen _ (suffix_valid _)), !suffix_length.
  destruct (_ <=? _)%nat; cbn [fst snd]; rewrite ?app_assoc; intros E; by apply app_inv_head in E.
Qed.

(** The hashes of the first attempts for an identity differ. *)
Definition attempts_differ (n : nat) (id : str) : Prop :=
  ∀ i j, (i < j < n)%nat → suffix (hash_input id (N.of_nat i)) ≠ suffix (hash_input id (N.of_nat j)).

Definition nth_name ns n id reserved (i : nat) : str := let p := fit_callable_parts_with_hash sha1_hex ns n (hash_input id (N.of_nat i)) reserved in p.1 ++ p.2.

Lemma try_names_spec fuel ns n id used reserved i : N.of_nat (i + fuel) <= u32_max →
  match try_names sha1_hex fuel ns n id used reserved (N.of_nat i) with
  | Some (ns', n') => ns' ++ n' ∉ used ∧ ∃ j, (ns', n') = fit_callable_parts_with_hash sha1_hex ns n j reserved
  | None => ∀ j, (i ≤ j < i + fuel)%nat → nth_name ns n id reserved j ∈ used
  end.
Proof.
  revert i. induction fuel as [|fuel IH]; intros i Hi; cbn [try_names]; [intros j Hj; lia|].
  destruct (fit_callable_parts_with_hash sha1_hex ns n (hash_input id (N.of_nat i)) reserved) as [ns' n'] eqn:E. case_bool_decide as Hu.
  - replace (N.min (N.of_nat i + 1) u32_max) with (N.of_nat (S i)) by lia. specialize (IH (S i) ltac:(lia)).
    destruct (try_names sha1_hex fuel ns n id used reserved (N.of_nat (S i))) as [[? ?]|]; [done|]. intros j Hj. destruct (decide (j = i)) as [->|]; [|apply IH; lia].
    unfold nth_name. by rewrite E.
  - split; [done|]. by exists (hash_input id (N.of_nat i)).
Qed.

Lemma try_names_succeeds ns n id used reserved fuel : (size used < fuel)%nat → N.of_nat fuel <= u32_max → attempts_differ fuel id →
  try_names sha1_hex fuel ns n id used reserved 0 ≠ None.
Proof.
  intros Hs Hf Ha He. pose proof (try_names_spec fuel ns n id used reserved 0 Hf) as Ht. change (N.of_nat 0) with 0 in Ht. rewrite He in Ht.
  set (names := nth_name ns n id reserved <$> seq 0 fuel).
  assert (NoDup names) as Hnd.
  { apply NoDup_fmap_2_strong; [|apply NoDup_seq]. intros i j Hi Hj Hij. apply elem_of_seq in Hi, Hj. destruct (decide (i = j)) as [|Hne]; [done|]. exfalso.
    apply fit_inj in Hij. destruct (Nat.lt_ge_cases i j); [by apply (Ha i j ltac:(lia))|apply (Ha j i ltac:(lia)); done]. }
  assert (list_to_set names ⊆ used) as Hsub.
  { intros x Hx. apply elem_of_list_to_set, list_elem_of_fmap in Hx as (i & -> & Hi). apply elem_of_seq in Hi. apply Ht. lia. }
  apply subseteq_size in Hsub. rewrite size_list_to_set in Hsub by done. unfold names in Hsub. rewrite length_fmap, length_seq in Hsub. lia.
Qed.

Definition visible (t : ToolInfo) : str := callable_namespace t ++ callable_name t.

(** What calls are routed by. *)
Definition raw (t : ToolInfo) : str * str * option str * str := (server_name t, tool_name t, connector_id t, details t).

Lemma unique_spec fuel ns n id used reserved : valid_name ns = true → valid_name n = true → (reserved ≤ 100)%nat → (size used < fuel)%nat → N.of_nat fuel <= u32_max →
  attempts_differ fuel id →
  ∃ ns' n', unique_callable_parts sha1_hex fuel ns n id used reserved = Some (ns', n', {[ ns' ++ n' ]} ∪ used) ∧ ns' ++ n' ∉ used ∧ fits reserved (ns', n').
Proof.
  intros Hns Hn Hr Hs Hf Ha. unfold unique_callable_parts. destruct (_ && _) eqn:E.
  - apply andb_true_iff in E as [E1 E2]. apply Nat.leb_le in E1. apply bool_decide_eq_true_1 in E2. exists ns, n. split; [done|]. split; [done|].
    assert (valid_name (ns ++ n) = true) as Hv by (by rewrite valid_app, Hns, Hn). rewrite (valid_blen _ Hv) in E1. split; [done|exact E1].
  - pose proof (try_names_succeeds ns n id used reserved fuel Hs Hf Ha) as Hok. pose proof (try_names_spec fuel ns n id used reserved 0 Hf) as Ht. change (N.of_nat 0) with 0 in Ht.
    destruct (try_names sha1_hex fuel ns n id used reserved 0) as [[ns' n']|]; [|done]. destruct Ht as (Hu & j & Hj). exists ns', n'. split; [done|]. split; [done|].
    rewrite Hj. by apply fit_ok.
Qed.

Lemma name_all_spec fuel cs used : (size used + length cs ≤ fuel)%nat → N.of_nat fuel <= u32_max →
  Forall (λ c, valid_name (cand_namespace c) = true ∧ valid_name (cand_name c) = true ∧ attempts_differ fuel (cand_identity c)) cs →
  ∃ l, name_all sha1_hex fuel cs used = Some l ∧ raw <$> l = raw ∘ cand_tool <$> cs ∧ NoDup (visible <$> l)
    ∧ Forall (λ t, visible t ∉ used ∧ fits 2 (callable_namespace t, callable_name t)) l.
Proof.
  revert used. induction cs as [|c cs IH]; intros used Hs Hf Hc; cbn [name_all]; [exists []; split_and!; try done; constructor|].
  apply Forall_cons in Hc as [(Hv1 & Hv2 & Ha) Hc]. cbn in Hs.
  destruct (unique_spec fuel (cand_namespace c) (cand_name c) (cand_identity c) used 2 Hv1 Hv2 ltac:(lia) ltac:(lia) Hf Ha) as (ns & n & Hu & Hn & Hfit).
  change (N.to_nat (blen MCP_TOOL_NAME_DELIMITER)) with 2%nat. rewrite Hu.
  destruct (IH ({[ ns ++ n ]} ∪ used)) as (l & -> & Hr & Hd & Hall); [rewrite size_union by set_solver; rewrite size_singleton; lia|done|done|].
  exists (renamed (cand_tool c) ns n :: l). split; [done|]. split; [cbn; by rewrite Hr|]. split.
  - cbn. apply NoDup_cons. split; [|done]. intros Hin. apply list_elem_of_fmap in Hin as (t & Ht & Htl). rewrite Forall_forall in Hall. destruct (Hall t Htl) as [Hni _]. set_solver.
  - apply Forall_cons. split; [done|]. eapply Forall_impl; [exact Hall|]. intros t [Ht1 Ht2]. split; [set_solver|done].
Qed.

(** * Candidates *)

Definition good_candidate (c : Candidate) : Prop := valid_name (cand_namespace c) = true ∧ valid_name (cand_name c) = true.

Lemma candidate_good prefix non_prefixed t : good_candidate (candidate prefix non_prefixed t).
Proof. split; cbn; [apply prefix_valid|]; apply sanitize_valid. Qed.

Lemma namespace_suffix_valid ns id : valid_name ns = true → valid_name (append_namespace_hash_suffix sha1_hex ns id) = true.
Proof.
  intros Hn. unfold append_namespace_hash_suffix, append_hash_suffix. destruct (strip_suffix MCP_TOOL_NAME_DELIMITER ns) as [t|] eqn:E.
  - apply strip_suffix_Some in E as ->. rewrite !valid_app in *. rewrite suffix_valid. apply andb_true_iff in Hn as [-> ->]. done.
  - by rewrite valid_app, Hn, suffix_valid.
Qed.

(** Separating names changes nothing but the names, and keeps them valid. *)
Lemma renaming_ok (g : Candidate → Candidate) cs : (∀ c, cand_tool (g c) = cand_tool c ∧ cand_identity (g c) = cand_identity c ∧ (good_candidate c → good_candidate (g c))) →
  Forall good_candidate cs → Forall good_candidate (g <$> cs) ∧ cand_tool <$> (g <$> cs) = cand_tool <$> cs ∧ cand_identity <$> (g <$> cs) = cand_identity <$> cs.
Proof.
  intros Hg Hc. rewrite <- !list_fmap_compose. split; [|split; apply list_fmap_ext; intros i c _; apply Hg].
  apply Forall_fmap. eapply Forall_impl; [exact Hc|]. intros c. apply Hg.
Qed.

Lemma separated_ok cs : Forall good_candidate cs →
  let cs' := separate_names sha1_hex (separate_namespaces sha1_hex cs) in
  Forall good_candidate cs' ∧ cand_tool <$> cs' = cand_tool <$> cs ∧ cand_identity <$> cs' = cand_identity <$> cs.
Proof.
  intros Hg. cbn zeta. assert (Forall good_candidate (separate_namespaces sha1_hex cs) ∧ cand_tool <$> separate_namespaces sha1_hex cs = cand_tool <$> cs
    ∧ cand_identity <$> separate_namespaces sha1_hex cs = cand_identity <$> cs) as (G1 & T1 & I1).
  { apply renaming_ok; [|exact Hg]. intros c. destruct (collides _ _ _); [|done]. split; [done|]. split; [done|]. intros [H1 H2]. split; [by apply namespace_suffix_valid|done]. }
  rewrite <- T1, <- I1. apply renaming_ok; [|exact G1]. intros c. destruct (collides _ _ _); [|done].
  split; [done|]. split; [done|]. intros [H1 H2]. split; [done|]. cbn. unfold append_hash_suffix. by rewrite valid_app, H2, suffix_valid.
Qed.

Lemma insert_by_key_perm {A} (key : A → str) x l : insert_by_key key x l ≡ₚ x :: l.
Proof. induction l as [|y l IH]; cbn; [done|]. destruct (str_leb _ _); [done|]. by rewrite IH, Permutation_swap. Qed.

Lemma sort_by_key_perm {A} (key : A → str) l : sort_by_key key l ≡ₚ l.
Proof. induction l as [|x l IH]; cbn; [done|]. by rewrite insert_by_key_perm, IH. Qed.

(** C38: every tool that is offered gets one name for the model, and no two tools the same: there are as
    many names as raw identities, each made of letters, digits and underscores and, with the delimiter,
    at most 128 bytes long; the server, the raw name and the rest of the tool, by which calls are
    routed, are untouched. The search for a free name ends after at most as many attempts as there are
    tools, if the hashes of that many attempts for an identity differ. *)
Theorem model_names_unique fuel tools prefix non_prefixed :
  (length tools ≤ fuel)%nat → N.of_nat fuel <= u32_max → Forall (λ t, attempts_differ fuel (raw_tool_identity t)) tools →
  ∃ out, normalize_tools_for_model_with_prefix sha1_hex fuel tools prefix non_prefixed = Some out
    ∧ NoDup (visible <$> out)
    ∧ Forall (λ t, valid_name (visible t) = true ∧ blen (visible t) + blen MCP_TOOL_NAME_DELIMITER <= N.of_nat MAX_TOOL_NAME_LENGTH) out
    ∧ raw <$> out ≡ₚ raw <$> first_of_each [] tools.
Proof.
  intros Hl Hf Ha. unfold normalize_tools_for_model_with_prefix. set (kept := first_of_each [] tools).
  assert (∀ seen, first_of_each seen tools `sublist_of` tools) as Hsub.
  { clear. induction tools as [|t tools IH]; intros seen; cbn; [done|]. case_bool_decide; [by apply sublist_cons|by apply sublist_skip]. }
  specialize (Hsub []). fold kept in Hsub. set (cs := candidate prefix non_prefixed <$> kept).
  assert (Forall good_candidate cs) as Hg by (apply Forall_fmap, Forall_true; intros t; apply candidate_good).
  destruct (separated_ok cs Hg) as (Hg' & Ht & Hi). cbn zeta in *. set (cs' := separate_names sha1_hex (separate_namespaces sha1_hex cs)) in *.
  pose proof (sort_by_key_perm cand_identity cs') as Hp.
  assert (length cs' = length kept) as Hlen by (rewrite <- (length_fmap cand_tool cs'), Ht; unfold cs; by rewrite !length_fmap).
  destruct (name_all_spec fuel (sort_by_key cand_identity cs') ∅) as (out & Ho & Hr & Hn & Hall); [| done| |].
  - rewrite size_empty, Hp, Hlen. apply sublist_length in Hsub. lia.
  - rewrite Hp. apply Forall_forall. intros c Hc. rewrite Forall_forall in Hg'. rewrite Forall_forall in Ha. destruct (Hg' c Hc) as [H1 H2]. split; [done|]. split; [done|].
    assert (cand_identity c ∈ cand_identity <$> cs) as Hin by (rewrite <- Hi; by apply list_elem_of_fmap_2). unfold cs in Hin. rewrite <- list_fmap_compose in Hin.
    apply list_elem_of_fmap in Hin as (t & -> & Htk). apply Ha. eapply sublist_subseteq; done.
  - exists out. split; [done|]. split; [done|]. split.
    + eapply Forall_impl; [exact Hall|]. intros t [_ [Hv Hb]]. split; [done|]. cbn [fst snd] in *. pose proof (valid_blen _ Hv) as Hbl. unfold visible.
      change (blen MCP_TOOL_NAME_DELIMITER) with 2. unfold MAX_TOOL_NAME_LENGTH in *. lia.
    + rewrite Hr, Hp, list_fmap_compose, Ht. unfold cs. rewrite <- !list_fmap_compose. done.
Qed.
End Names.

(** A hash for the example: the digits of a polynomial in the characters. *)
Definition digits_of (s : str) : str := (λ i, 48 + (foldl (λ h c, (h * 31 + c) mod 1000003) 7 s / 10 ^ N.of_nat i) mod 10) <$> seq 0 40.

Lemma digits_shape s : length (digits_of s) = 40%nat ∧ forallb is_ascii_alphanumeric (digits_of s) = true.
Proof.
  unfold digits_of. split; [by rewrite length_fmap, length_seq|]. generalize (foldl (λ h c, (h * 31 + c) mod 1000003) 7 s) as h. intros h. apply forallb_forall. intros c Hc.
  apply list_elem_of_In, list_elem_of_fmap in Hc as (i & -> & _). pose proof (N.mod_lt (h / 10 ^ N.of_nat i) 10 ltac:(done)) as Hm.
  revert Hm. generalize ((h / 10 ^ N.of_nat i) mod 10) as d. intros d Hm. unfold is_ascii_alphanumeric, is_ascii_digit.
  rewrite (proj2 (N.leb_le 48 _)), (proj2 (N.leb_le _ 57)) by lia. by rewrite orb_true_r.
Qed.

(** Two servers with the same tool, one of them given twice, and a tool with a long name. *)
Definition example_tools : list ToolInfo :=
  let t server name := mkTool (lit server) name (lit "mail") name None [] in
  [t "a" (lit "send it"); t "b" (lit "send it"); t "a" (lit "send it"); t "c" (replicate 130 120)].

Lemma model_names_unique_witness :
  ∃ out, normalize_tools_for_model_with_prefix digits_of 4 example_tools true [] = Some out
    ∧ NoDup (visible <$> out)
    ∧ Forall (λ t, valid_name (visible t) = true ∧ blen (visible t) + blen MCP_TOOL_NAME_DELIMITER <= N.of_nat MAX_TOOL_NAME_LENGTH) out
    ∧ raw <$> out ≡ₚ raw <$> first_of_each [] example_tools.
Proof.
  apply (model_names_unique digits_of digits_shape); [by vm_compute; lia|done|].
  assert (∀ t, In t example_tools → attempts_differ digits_of 4 (raw_tool_identity t)) as Hd.
  { intros t Ht i j Hij. assert (i = 0 ∧ j = 1 ∨ i = 0 ∧ j = 2 ∨ i = 0 ∧ j = 3 ∨ i = 1 ∧ j = 2 ∨ i = 1 ∧ j = 3 ∨ i = 2 ∧ j = 3)%nat as Hc by lia.
    cbn in Ht. destruct Ht as [<-|[<-|[<-|[<-|[]]]]]; repeat destruct Hc as [[-> ->]|Hc]; try (destruct Hc as [-> ->]); by vm_compute. }
  apply Forall_forall. intros t Ht. apply Hd. by apply list_elem_of_In.
Defined.
